(* ===== verification/_CoqProject ===== *)
-Q . S2P
Prelude.v
Plocal.v
Pool.v
Utf8.v
Buffer.v
BufPool.v
Composite.v
Endian.v
MuxFrame.v
MuxWindow.v
MuxInbound.v
Update.v
MuxTypes.v
MuxFlush.v
MuxSession.v
MuxFacts.v
MuxRefs.v
MuxView.v
MuxPreserve.v
MuxClose.v
MuxBudget.v
MuxOrder.v
MuxSched.v
WsMask.v
WsFrame.v
WsAssembler.v
TaskQueue.v
ReadControl.v
FdMap.v
WheelHeap.v
WheelRing.v
Wheel.v
GoHeap.v
KcpRing.v
Kcp.v
KcpWire.v
KcpLink.v
KcpReliable.v
KcpBounds.v
KcpOptions.v
KcpConn.v
KcpSession.v
KcpLive.v
KcpStream.v
ShardPool.v
ShardFacts.v
ShardRing.v
ShardCount.v
ShardWake.v
ShardCrew.v
ShardStop.v
GoStrings.v
GoEncoding.v
WsExtension.v
WsHandshake.v
WsLines.v
WsNetHTTP.v
WsFast.v
WsUpgrade.v
WsRead.v
WsRounds.v
