(* ===== verification/Prelude.v ===== *)
(** * uio, verified

    uio is a Go networking library: event loops and connections at the
    bottom, byte buffers and pools beneath them, and protocol layers on top
    (umux multiplexes streams over one connection, uws speaks WebSocket, utls
    TLS, ukcp a reliable datagram protocol).  This development models the
    parts whose correctness is a matter of their own logic rather than of
    system calls, and proves what they promise to the rest of the program.

    ** Parts and files

    - [Prelude] (this file): Go calls as an [outcome] (return or panic), slice
      indexing, machine integers, the hint databases.
    - [Plocal], [Pool]: internal/plocal and internal/pool, the per-processor
      object caches and the size-classed pools over them.  What a sync.Pool
      hands out, and on which processor a call runs, are arguments.
    - [Utf8]: the rune encoding of Go's unicode/utf8 the buffers and the
      WebSocket reader use.
    - [Buffer], [BufPool], [Composite]: internal/bytebuf.  A [Buffer] is a
      slice over a backing array with a read offset; blocks are drawn from the
      pools through the class [BlockStore]; a [CompositeBuffer] is a list of
      blocks with a byte count, one definition per Go method.  How far append
      grows an array is left to the class [GoRuntime].
    - [Endian]: encoding/binary.
    - [MuxFrame], [MuxWindow]: umux/frame.go, session.go's readFrame, window.go
      and the configuration's limits.  The reader takes its connection through
      the class [Inbound], which [Composite] implements.
    - [MuxInbound]: stream.go's receive queue, its borrowed and owned runs in a
      heap of arrays.
    - [Update]: record update, [r <| f := v |>].
    - [MuxTypes], [MuxFlush], [MuxSession]: the umux session and its streams
      (session.go, stream.go, shutdown.go, timers.go, read_control.go).  Each
      method is split where it releases its locks; a goroutine is the list of
      sections it still has to run, [exec] runs one, and [mstep] lets any
      goroutine go next, so a reachable [machine] is one of any interleaving.
      The transport is a record: its answers to writes, what it accepted, what
      it has received.  A stream is an object that outlives its table entry.
    - [MuxFacts], [MuxRefs], [MuxView], [MuxPreserve]: reasoning about the
      machine.  References stay valid; a [View] is what most sections leave
      alone; [Preserved] lists what a relation must survive to hold across
      every section.
    - [MuxClose], [MuxBudget], [MuxOrder], [MuxSched]: what the session
      promises, one file per group of theorems.
    - [WsMask], [WsFrame], [WsAssembler]: uws/internal/frame, the masking
      kernels (the assembly one through the class [Vector]), the whole-frame
      and incremental parsers, the writer, and the message assembler.
    - [GoStrings], [GoEncoding]: what the handshake uses of Go's strings,
      strconv, unicode, encoding/base64 and crypto/sha1.
    - [WsExtension], [WsHandshake]: uws/internal/extension and
      uws/internal/handshake, the negotiation of permessage-deflate, the
      requests and responses of an upgrade on both ends, the parser that
      recognises plain requests without net/http, and refusals.
      net/http's readers are its class [NetHTTP].
    - [WsLines], [WsNetHTTP]: the header lines of a head, the laws of [NetHTTP]
      the handshake relies on, and an instance of them.
    - [WsFast], [WsUpgrade]: what the handshake promises.
    - [WsRead], [WsRounds]: the read path of a uws connection (uws/read.go and
      the limits of uws/config.go): the short-frame loop, the parser behind
      it, control frames, budgets and rounds.  What the rest of the connection
      answers is the class [ConnEnv].
    - [TaskQueue]: internal/taskqueue, an intrusive queue in a store of nodes.
    - [ReadControl]: internal/readcontrol, pause owners and the consumer as
      interleaved atomic steps.
    - [FdMap]: internal/fdmap, the two-level descriptor table.
    - [WheelHeap], [WheelRing], [Wheel]: internal/timewheel, the overflow heap,
      the linked ring slots with their summary bitmap, and the timing wheel.
    - [GoHeap], [KcpRing], [Kcp]: the KCP engine, ukcp/internal/kcp.  Go's
      container/heap, the growing ring buffer, and kcp.go with its shim over
      32-bit arithmetic; the ring buffers are the queues [KcpRing] shows them
      to be, the output callback's datagrams and the coming clock readings are
      lists, and two ghost fields record what was numbered and delivered.
    - [KcpWire], [KcpLink], [KcpReliable]: datagrams and their segments, the
      invariant between two engines, and two engines with a network between
      them that loses, repeats and reorders.
    - [KcpBounds]: one engine against any datagrams.
    - [KcpOptions], [KcpConn]: a session of ukcp, conn.go with its options.
      Handlers run under the session's lock, so each is one step; the calls a
      session makes are its [events], what the framework answers its oracles.
    - [KcpSession], [KcpLive], [KcpStream]: what a session promises.
    - [ShardPool]: internal/shardpool, the worker shards.  A goroutine is a
      label in the Go function it runs; a function performs the atomic
      operation at a label and says where the goroutine is next, and [step]
      lets any goroutine go next, a task end, a ticker fire or a method be
      called.  Ghosts record what was submitted, ran and was refused.
    - [ShardFacts], [ShardRing], [ShardCount], [ShardWake], [ShardCrew],
      [ShardStop]: the shards' lock-free queues, the counts that are numbers of
      goroutines, who sees to a shard with queued tasks, the workers that
      stay, and Stop.

    ** What the theorems show

    - Refinement: buffers and composite buffers are byte queues, the fd table
      a partial map, the task queue a FIFO, the timing wheel a map from
      entries to deadlines that reports exactly what is due and always names
      the earliest deadline to its callback.  Each is stated for every
      sequence of calls, with every call returning.
    - Equivalence: the incremental WebSocket parser is the whole-frame parser
      on every way of cutting the input; the word and vector masking kernels
      are the bytewise definition; the bitmap scan is the slot-by-slot scan.
    - Round trips: mux headers and frames through any segmentation, WebSocket
      frames, runes through a buffer.
    - Safety and bounds: flow-control credit never exceeds the window and
      never runs dry for good; message limits; read limits that hold every
      frame; pool objects of exactly the size asked for.
    - The WebSocket handshake: for every request the fast parser either
      answers as net/http's reader does or hands the request on; a client
      and a server whose texts reach each other agree on the key, the
      subprotocol and the compression; the extension's parameters survive
      being offered and answered; its grammar's errors are exactly those.
    - The WebSocket read path: whatever the segmentation and wherever the
      budget ends a round, the reads accept the frames of the stream in
      order, whole and once, and fail only where the stream itself is wrong.
    - The mux session, under every interleaving of its goroutines: a stream's
      close is delivered exactly once; the receive budget counts exactly the
      unread bytes and a released budget resumes reading; written bytes reach
      the wire in order, whole and once, the FIN behind them; flushing sends
      everything a transport accepts, one frame per stream in turn.
    - KCP: two engines deliver what was written in order, whole and once over
      any network, and lose nothing (below 2^31 segments); no datagram makes an
      engine panic or outgrow its windows.  A session survives any peer, user
      and framework answers with the same bounds, never reaches the errors its
      code calls impossible, always has a timer armed while it has work, shows
      the layer above one well-formed stream, and reads its segments back from
      any segmentation of a byte stream.
    - The worker shards, under every interleaving: each task is queued, taken
      and run once and in its shard's order; a shard with queued tasks is never
      left to a worker that sleeps; Stop runs what is queued and waits for
      tasks only.

    ** Fuel

    Loops the source bounds by its data are structural or carry fuel; a model
    that runs out returns [Panic FuelExhausted], and the theorems state a
    [Ret], so the fuel is enough wherever they apply: an index for a sift up
    and the heap's length for a sift down, the store's size for a walk along a
    list of entries, 64 for the bits of a word, the tick distance for a walk
    of the cursor, the heap's length for promotions, the input's length for
    the parsers, the scans of header lines and tokens and KCP's input loops,
    the segments a KCP receiver holds for its delivery loops.

    ** Not modelled

    System calls, sockets, pollers (connections, event loops), TLS (its
    protocol is crypto/tls) and compression (compress/flate) beyond their
    interfaces, the KCP endpoints and statistics, the write side, heartbeat
    and timers of a WebSocket connection with its dialer and server, the
    layer chain.  Mutexes are modelled by the granularity of the steps: the
    code between two lock releases is one step.
    A Go map is ranged over in the order of one fixed enumeration, and the
    session does not track which pooled buffers it gives back. *)

From Stdlib Require Export ZArith Lia Bool.
From stdpp Require Export base tactics list gmap.

Create HintDb uio discriminated.
Create Rewrite HintDb uio.

(** ** Go outcomes

    A Go call either returns or panics.  [outcome A] is the result of a call
    whose return values are an [A]; the panic carries what was passed to
    [panic], or the runtime error. *)

Inductive panic_value : Type :=
| PanicErrTooLarge            (* bytebuf.ErrTooLarge *)
| PanicNegativeRead           (* bytebuf.errNegativeRead *)
| PanicOutOfRange             (* a package's own range check *)
| PanicSliceBounds            (* the runtime's slice bounds or index check *)
| PanicArgument               (* a package's own argument check *)
| PanicNil                    (* a nil dereference *)
| FuelExhausted.              (* not a Go panic: a loop of the model ran out of fuel *)

#[export] Instance panic_value_eq_dec : EqDecision panic_value.
Proof. solve_decision. Defined.

Inductive outcome (A : Type) : Type :=
| Ret (a : A)
| Panic (p : panic_value).
Arguments Ret {A} a.
Arguments Panic {A} p.

#[export] Instance outcome_ret : MRet outcome := fun A a => Ret a.
#[export] Instance outcome_bind : MBind outcome := fun A B f m =>
  match m with Ret a => f a | Panic p => Panic p end.
#[export] Instance outcome_fmap : FMap outcome := fun A B f m =>
  match m with Ret a => Ret (f a) | Panic p => Panic p end.

Definition returns {A} (m : outcome A) : Prop := exists a, m = Ret a.

Lemma outcome_bind_Ret {A B} (m : outcome A) (f : A -> outcome B) b :
  m ≫= f = Ret b <-> exists a, m = Ret a /\ f a = Ret b.
Proof. destruct m; cbn; naive_solver. Qed.

(** Indexing a Go slice: out of range the runtime panics. *)
Definition index {A} (l : list A) (i : Z) : outcome A :=
  if (0 <=? i)%Z
  then match l !! Z.to_nat i with Some a => Ret a | None => Panic PanicSliceBounds end
  else Panic PanicSliceBounds.

Lemma index_Ret {A} (l : list A) i a :
  index l i = Ret a <-> (0 <= i)%Z /\ l !! Z.to_nat i = Some a.
Proof.
  unfold index. destruct (Z.leb_spec 0 i); [|naive_solver lia].
  destruct (l !! Z.to_nat i) eqn:E; naive_solver.
Qed.

Lemma index_total {A} (l : list A) i :
  (0 <= i < Z.of_nat (length l))%Z -> exists a, index l i = Ret a.
Proof.
  intros H. destruct (lookup_lt_is_Some_2 l (Z.to_nat i)) as [a Ha]; [lia|].
  exists a. apply index_Ret. split; [lia|done].
Qed.

(** ** Machine integers

    Go's [int] is 64 bits wide on every platform the model covers; a [uint8],
    [uint16], [uint32] or [uint64] is a [Z] within its width. *)

Local Open Scope Z_scope.

Definition maxInt : Z := 2 ^ 63 - 1.
Definition wrap (w z : Z) : Z := z mod 2 ^ w.
Definition is_uint (w z : Z) : Prop := 0 <= z < 2 ^ w.
Abbreviation is_byte := (is_uint 8).

#[export] Instance is_uint_dec w z : Decision (is_uint w z).
Proof. unfold is_uint. apply _. Defined.

Lemma wrap_id w z : is_uint w z -> wrap w z = z.
Proof. intros. apply Z.mod_small. done. Qed.

Lemma wrap_uint w z : 0 <= w -> is_uint w (wrap w z).
Proof. intros. apply Z.mod_pos_bound. lia. Qed.

(** Go's [int] and [int64]: two's complement at 64 bits. *)
Definition int64 (z : Z) : Z := (z + 2 ^ 63) mod 2 ^ 64 - 2 ^ 63.
Definition is_int64 (z : Z) : Prop := - 2 ^ 63 <= z <= maxInt.

Lemma int64_id z : is_int64 z -> int64 z = z.
Proof. unfold is_int64, int64, maxInt. intros. rewrite Z.mod_small; lia. Qed.

#[export] Hint Resolve wrap_uint : uio.
