(* ===== verification/Plocal.v ===== *)
(** * internal/plocal: a value per P in front of a sync.Pool

    [Cache] is the per-P cache of internal/plocal/plocal.go (Get, getSlow, Put,
    slotOf, Init).  Two things the code reads from the runtime are arguments:
    [pid], the P the caller is pinned to, and [pick], the choice a sync.Pool
    makes among what was put into it (it may also return nothing, which is how
    the collector's dropping of pooled values shows). *)

From S2P Require Import Prelude.

Section Cache.
Context {T : Type}.

(** sync.Pool: a bag of values; [pick] out of range is a Get that finds none. *)
Definition syncpool_get (pick : nat) (l : list T) : option T * list T :=
  match l !! pick with
  | Some x => (Some x, delete pick l)
  | None => (None, l)
  end.

Definition syncpool_put (x : T) (l : list T) : list T := x :: l.

(** A slot holds a value exactly when it is full. *)
Record Cache : Type := MkCache {
  slots : option (list (option T));   (* nil before Init *)
  spool : list T;
  new : option T                       (* what newValue returns, when not nil *)
}.

Definition Init (nslots : nat) (newValue : option T) (c : Cache) : Cache :=
  MkCache (Some (replicate nslots None)) (spool c) newValue.

Definition slotOf (c : Cache) (pid : nat) : option (option T) :=
  match slots c with Some s => s !! pid | None => None end.

Definition getSlow (pick : nat) (c : Cache) : option T * Cache :=
  match syncpool_get pick (spool c) with
  | (Some v, rest) => (Some v, MkCache (slots c) rest (new c))
  | (None, _) => (new c, c)
  end.

Definition set_slot (c : Cache) (pid : nat) (v : option T) : Cache :=
  MkCache (match slots c with Some s => Some (<[pid := v]> s) | None => None end)
    (spool c) (new c).

Definition Get (pid pick : nat) (c : Cache) : option T * Cache :=
  match slots c with
  | None => getSlow pick c
  | Some _ =>
      match slotOf c pid with
      | Some (Some v) => (Some v, set_slot c pid None)
      | _ => getSlow pick c
      end
  end.

Definition Put (pid : nat) (value : T) (c : Cache) : Cache :=
  match slots c with
  | None => MkCache (slots c) (syncpool_put value (spool c)) (new c)
  | Some _ =>
      match slotOf c pid with
      | Some None => set_slot c pid (Some value)
      | _ => MkCache (slots c) (syncpool_put value (spool c)) (new c)
      end
  end.

(** Everything the cache retains: the full slots, then the pool. *)
Definition held (c : Cache) : list T :=
  match slots c with Some s => omap id s | None => [] end ++ spool c.

Lemma omap_id_insert (s : list (option T)) i o o' :
  s !! i = Some o ->
  match o with Some x => [x] | None => [] end ++ omap id (<[i := o']> s) ≡ₚ
  match o' with Some x => [x] | None => [] end ++ omap id s.
Proof.
  revert i. induction s as [|a s IH]; intros [|i] H; simplify_eq/=.
  - destruct o, o'; simpl; auto using Permutation_refl, perm_swap.
  - specialize (IH i H). destruct a as [a|]; simpl; [|done].
    rewrite <-!Permutation_middle. by constructor.
Qed.

Lemma held_getSlow pick c x c' :
  new c = None -> getSlow pick c = (Some x, c') -> held c ≡ₚ x :: held c' /\ new c' = None.
Proof.
  unfold getSlow, syncpool_get, held. intros Hn H.
  destruct (spool c !! pick) eqn:E; [|congruence]. simplify_eq/=.
  split; [|done]. rewrite Permutation_middle. f_equiv. by apply delete_Permutation.
Qed.

(** Get hands out one of the values held, and Put adds exactly its argument: a
    value is never duplicated and never invented. *)
Lemma held_Get pid pick c x c' :
  new c = None -> Get pid pick c = (Some x, c') -> held c ≡ₚ x :: held c' /\ new c' = None.
Proof.
  unfold Get. intros Hn H. destruct (slots c) as [s|] eqn:Es; [|eauto using held_getSlow].
  unfold slotOf in H. rewrite Es in H.
  destruct (s !! pid) as [[v|]|] eqn:Ep; [|eauto using held_getSlow..].
  simplify_eq. unfold held, set_slot; rewrite Es; simpl. split; [|done].
  pose proof (omap_id_insert s pid (Some x) None Ep) as HP. simpl in HP.
  by rewrite <-HP.
Qed.

Lemma held_Put pid x c : held (Put pid x c) ≡ₚ x :: held c.
Proof.
  unfold Put, held, slotOf. destruct (slots c) as [s|] eqn:Es; simpl; rewrite ?Es.
  - destruct (s !! pid) as [[v|]|] eqn:Ep; simpl; rewrite ?Es;
      try (rewrite <-Permutation_middle; done).
    pose proof (omap_id_insert s pid None (Some x) Ep) as HP. simpl in HP. by rewrite HP.
  - done.
Qed.

Lemma new_Put pid x c : new (Put pid x c) = new c.
Proof. unfold Put. destruct (slots c), (slotOf c pid) as [[]|]; done. Qed.

Lemma new_Get_None pid pick c c' : new c = None -> Get pid pick c = (None, c') -> c' = c.
Proof.
  unfold Get, getSlow, syncpool_get. intros Hn H.
  destruct (slots c), (slotOf c pid) as [[]|], (spool c !! pick); naive_solver.
Qed.
End Cache.
Arguments Cache : clear implicits.
