(* ===== verification/Pool.v ===== *)
(** * internal/pool: power-of-two size classes

    pmath.go (the bit tricks that round a size to a power of two) and
    generic.go ([Pool]: the size-classed pool in front of which small classes
    keep a per-P value).  A pooled object's size is the size it was put with;
    the invariant [pool_ok] says every class holds only objects of exactly the
    class's size, which is what lets a caller of [Get] rely on the size it
    hands back. *)

From S2P Require Import Prelude.
From S2P Require Plocal.

Local Open Scope Z_scope.

(** ** pmath.go *)

Definition maxintHeadBit : Z := Z.shiftl 1 62.

Definition fillBits (n : Z) : Z :=
  let n := Z.lor n (Z.shiftr n 1) in
  let n := Z.lor n (Z.shiftr n 2) in
  let n := Z.lor n (Z.shiftr n 4) in
  let n := Z.lor n (Z.shiftr n 8) in
  let n := Z.lor n (Z.shiftr n 16) in
  Z.lor n (Z.shiftr n 32).

Definition IsPowerOfTwo (n : Z) : bool := Z.land n (int64 (n - 1)) =? 0.

Definition CeilToPowerOfTwo (n : Z) : outcome Z :=
  if negb (Z.land n maxintHeadBit =? 0) && (maxintHeadBit <? n) then Panic PanicArgument
  else if n <=? 2 then Ret n
  else Ret (fillBits (n - 1) + 1).

Definition FloorToPowerOfTwo (n : Z) : Z :=
  if n <=? 2 then n else Z.shiftr (fillBits n) 1 + 1.

Definition Max (a b : Z) : Z := if a <? b then b else a.

(** The top [m] bits of [x], counted from its leading bit, are all set. *)
Definition top_set (m x : Z) : Prop :=
  forall i, 0 <= i -> Z.log2 x - m < i <= Z.log2 x -> Z.testbit x i = true.

Lemma fill_step m x :
  0 < x -> 0 < m -> top_set m x ->
  0 < Z.lor x (Z.shiftr x m) /\ Z.log2 (Z.lor x (Z.shiftr x m)) = Z.log2 x /\
  top_set (2 * m) (Z.lor x (Z.shiftr x m)).
Proof.
  intros Hx Hm Ht.
  assert (Hs : 0 <= Z.shiftr x m) by (apply Z.shiftr_nonneg; lia).
  assert (Hl : Z.log2 (Z.lor x (Z.shiftr x m)) = Z.log2 x).
  { rewrite Z.log2_lor, Z.log2_shiftr by lia. pose proof (Z.log2_nonneg x). lia. }
  split; [|split; [done|]].
  - enough (Z.lor x (Z.shiftr x m) <> 0) by (pose proof (proj2 (Z.lor_nonneg x (Z.shiftr x m))); lia).
    rewrite Z.lor_eq_0_iff. lia.
  - intros i Hi Hr. rewrite Hl in Hr. rewrite Z.lor_spec, Z.shiftr_spec by lia.
    destruct (Z_lt_dec (Z.log2 x - m) i); [rewrite Ht by lia; done|].
    rewrite (Ht (i + m)) by lia. apply orb_true_r.
Qed.

(** Smearing the leading bit down gives the all-ones word of the same length. *)
Lemma fillBits_ones n : 0 < n < 2 ^ 63 -> fillBits n = Z.ones (Z.log2 n + 1).
Proof.
  intros [Hn Hb].
  assert (Ht : top_set 1 n).
  { intros i _ Hi. replace i with (Z.log2 n) by lia. apply Z.bit_log2. lia. }
  assert (Hlog : Z.log2 n < 63) by (apply Z.log2_lt_pow2; lia).
  unfold fillBits.
  destruct (fill_step 1 n) as (H1 & L1 & T1); [lia..|done|].
  destruct (fill_step 2 _ H1) as (H2 & L2 & T2); [lia|done|].
  destruct (fill_step 4 _ H2) as (H3 & L3 & T3); [lia|done|].
  destruct (fill_step 8 _ H3) as (H4 & L4 & T4); [lia|done|].
  destruct (fill_step 16 _ H4) as (H5 & L5 & T5); [lia|done|].
  destruct (fill_step 32 _ H5) as (H6 & L6 & T6); [lia|done|].
  rewrite L5, L4, L3, L2, L1 in L6.
  pose proof (Z.log2_nonneg n).
  apply Z.bits_inj'. intros i Hi. destruct (Z_le_dec i (Z.log2 n)).
  - rewrite T6, Z.ones_spec_low by lia. done.
  - rewrite Z.ones_spec_high by lia. apply Z.bits_above_log2; lia.
Qed.

Lemma fillBits_pow2 n : 0 < n < 2 ^ 63 -> fillBits n = 2 ^ (Z.log2 n + 1) - 1.
Proof. intros. rewrite fillBits_ones, Z.ones_equiv by done. lia. Qed.

Lemma ceil_log2_up n : 1 <= n <= 2 ^ 62 -> CeilToPowerOfTwo n = Ret (2 ^ Z.log2_up n).
Proof.
  intros H. unfold CeilToPowerOfTwo, maxintHeadBit. rewrite Z.shiftl_1_l.
  destruct (Z.ltb_spec (2 ^ 62) n); [lia|]. rewrite andb_false_r.
  destruct (Z.leb_spec n 2).
  - assert (n = 1 \/ n = 2) as [-> | ->] by lia; done.
  - rewrite fillBits_pow2 by lia. do 2 f_equal. rewrite Z.log2_up_eqn by lia.
    replace (Z.pred n) with (n - 1) by lia. f_equal. lia.
Qed.

Lemma ceil_too_large n : 2 ^ 62 < n <= maxInt -> CeilToPowerOfTwo n = Panic PanicArgument.
Proof.
  intros H. unfold CeilToPowerOfTwo, maxintHeadBit. rewrite Z.shiftl_1_l.
  destruct (Z.ltb_spec (2 ^ 62) n); [|lia]. rewrite andb_true_r.
  destruct (Z.eqb_spec (Z.land n (2 ^ 62)) 0) as [E|]; [|done].
  assert (Hb : Z.testbit (Z.land n (2 ^ 62)) 62 = false) by (rewrite E; apply Z.bits_0).
  rewrite Z.land_spec, Z.pow2_bits_true, andb_true_r in Hb by lia.
  rewrite Z.testbit_false in Hb by lia. unfold maxInt in H.
  assert (Hd : n / 2 ^ 62 = 1) by (symmetry; apply Z.div_unique with (n - 2 ^ 62); lia).
  by rewrite Hd in Hb.
Qed.

Lemma isPowerOfTwo_spec n : 0 < n <= maxInt -> IsPowerOfTwo n = true <-> n = 2 ^ Z.log2 n.
Proof.
  intros H. unfold IsPowerOfTwo. rewrite int64_id by (unfold is_int64, maxInt in *; lia).
  rewrite Z.eqb_eq. split.
  - intros E. destruct (Z.log2_spec n) as [Hlo Hhi]; [lia|].
    destruct (Z.eq_dec n (2 ^ Z.log2 n)) as [|Hne]; [done|]. exfalso.
    assert (Hl : Z.log2 (n - 1) = Z.log2 n) by (apply Z.log2_unique; [apply Z.log2_nonneg|lia]).
    assert (Z.testbit (Z.land n (n - 1)) (Z.log2 n) = true); [|by rewrite E, Z.bits_0 in *].
    rewrite Z.land_spec, Z.bit_log2 by lia. rewrite <-Hl. apply Z.bit_log2.
    pose proof (Z.pow_pos_nonneg 2 (Z.log2 n)). pose proof (Z.log2_nonneg n). lia.
  - intros E. pose proof (Z.log2_nonneg n). remember (Z.log2 n) as k eqn:Hk. rewrite E.
    replace (2 ^ k - 1) with (Z.ones k) by (rewrite Z.ones_equiv; lia).
    rewrite Z.land_ones by lia. apply Z.mod_same. lia.
Qed.

(** ** generic.go *)

Definition minimumPooledSize : Z := 512.
Definition maxSlottedSize : Z := Z.shiftl 16 10.

(** math/bits.Len on a uint. *)
Definition bits_Len (z : Z) : Z := if z =? 0 then 0 else Z.log2 z + 1.

Definition classIndex (size : Z) : Z := bits_Len (wrap 64 size) - 1.

Section Pool.
Context {T : Type}.

Record Pool : Type := MkPool {
  cached : list (Plocal.Cache T);
  pooled : list (list T);
  minSize : Z;
  maxSize : Z
}.

Definition New (nslots : nat) (capacity : Z) : outcome Pool :=
  maxSize ← CeilToPowerOfTwo (Max capacity 1);
  let minSize := if minimumPooledSize <=? maxSize then minimumPooledSize else 1 in
  let classes := classIndex maxSize - classIndex minSize + 1 in
  let ncached :=
    if minSize <=? maxSlottedSize
    then Z.min classes (classIndex maxSlottedSize - classIndex minSize + 1)
    else 0 in
  Ret (MkPool
         (replicate (Z.to_nat ncached)
            (Plocal.Init nslots None (Plocal.MkCache None [] None)))
         (replicate (Z.to_nat classes) [])
         minSize maxSize).

Definition sizeClass (p : Pool) (size : Z) : outcome Z :=
  if size <=? minSize p then Ret (minSize p) else CeilToPowerOfTwo size.

Definition set_cached (p : Pool) (i : Z) (c : Plocal.Cache T) : Pool :=
  MkPool (<[Z.to_nat i := c]> (cached p)) (pooled p) (minSize p) (maxSize p).

Definition set_pooled (p : Pool) (i : Z) (l : list T) : Pool :=
  MkPool (cached p) (<[Z.to_nat i := l]> (pooled p)) (minSize p) (maxSize p).

(** [Get] returns the object, nil for none, and the size to put it back with. *)
Definition Get (pid pick : nat) (size : Z) (p : Pool) : outcome (option T * Z * Pool) :=
  if maxSize p <? size then Ret (None, size, p)
  else
    n ← sizeClass p size;
    let idx := classIndex n - classIndex (minSize p) in
    if idx <? Z.of_nat (length (cached p)) then
      c ← index (cached p) idx;
      let '(v, c') := Plocal.Get pid pick c in
      Ret (v, n, set_cached p idx c')
    else
      l ← index (pooled p) idx;
      let '(v, l') := Plocal.syncpool_get pick l in
      Ret (v, n, set_pooled p idx l').

Definition Put (pid : nat) (x : T) (size : Z) (p : Pool) : outcome Pool :=
  if (size <? minSize p) || (maxSize p <? size) || negb (IsPowerOfTwo size) then Ret p
  else
    let idx := classIndex size - classIndex (minSize p) in
    if idx <? Z.of_nat (length (cached p)) then
      c ← index (cached p) idx;
      Ret (set_cached p idx (Plocal.Put pid x c))
    else
      l ← index (pooled p) idx;
      Ret (set_pooled p idx (Plocal.syncpool_put x l)).

(** *** The class invariant *)

(** [good] is what the owner promises of an object it puts back. *)
Context (size_of : T -> Z) (good : T -> Prop).

(** The size of class [i] of [p]. *)
Definition class_size (p : Pool) (i : nat) : Z := minSize p * 2 ^ Z.of_nat i.

Record pool_ok (p : Pool) : Prop := {
  ok_min : exists a, 0 <= a /\ minSize p = 2 ^ a;
  ok_max : exists k, maxSize p = class_size p k /\ length (pooled p) = S k;
  ok_cached_len : (length (cached p) <= length (pooled p))%nat;
  ok_range : maxSize p <= 2 ^ 62;
  ok_cached : forall i c, cached p !! i = Some c ->
    Plocal.new c = None /\ Forall (fun x => size_of x = class_size p i /\ good x) (Plocal.held c);
  ok_pooled : forall i l, pooled p !! i = Some l ->
    Forall (fun x => size_of x = class_size p i /\ good x) l
}.

Lemma classIndex_pow2 a : 0 <= a < 64 -> classIndex (2 ^ a) = a.
Proof.
  intros. unfold classIndex. rewrite wrap_id.
  - unfold bits_Len. destruct (Z.eqb_spec (2 ^ a) 0); [lia|]. rewrite Z.log2_pow2; lia.
  - split; [lia|]. apply Z.pow_lt_mono_r; lia.
Qed.

(** The class index arithmetic: a class size sits at its own index. *)
Lemma class_size_index p i :
  pool_ok p -> (i < length (pooled p))%nat ->
  classIndex (class_size p i) - classIndex (minSize p) = Z.of_nat i.
Proof.
  intros [[a [Ha Hmin]] [k [Hmax Hlen]] _ Hr _ _] Hi. unfold class_size in *.
  rewrite Hmin, <-Z.pow_add_r in * by lia.
  assert (a + Z.of_nat k <= 62) by (apply (Z.pow_le_mono_r_iff 2); lia).
  rewrite !classIndex_pow2 by lia. lia.
Qed.

Lemma class_size_mono p i j : pool_ok p -> (i <= j)%nat -> class_size p i <= class_size p j.
Proof.
  intros [[a [Ha Hmin]] _ _ _ _ _] Hij. unfold class_size. rewrite Hmin.
  apply Z.mul_le_mono_nonneg_l; [lia|]. apply Z.pow_le_mono_r; lia.
Qed.

(** Rounding a retained size lands on a class of the pool at least that large. *)
Lemma sizeClass_spec p size :
  pool_ok p -> size <= maxSize p ->
  exists i, sizeClass p size = Ret (class_size p i) /\ (i < length (pooled p))%nat /\
            size <= class_size p i.
Proof.
  intros Hok Hs. pose proof Hok as [[a [Ha Hmin]] [k [Hmax Hlen]] _ Hr _ _].
  unfold sizeClass. destruct (Z.leb_spec size (minSize p)) as [Hle|Hgt].
  { exists O. unfold class_size. rewrite Z.mul_1_r. split; [done|lia]. }
  unfold class_size in *. rewrite Hmin, <-Z.pow_add_r in * by lia.
  assert (1 < size) by lia. rewrite ceil_log2_up by lia.
  destruct (Z.log2_up_spec size) as [Hlo Hhi]; [lia|].
  assert (a <= Z.log2_up size) by (apply Z.lt_le_incl, Z.log2_up_lt_pow2; lia).
  assert (Z.log2_up size <= a + Z.of_nat k) by (apply Z.log2_up_le_pow2; lia).
  exists (Z.to_nat (Z.log2_up size - a)).
  rewrite <-Z.pow_add_r, Z2Nat.id by lia.
  replace (a + (Z.log2_up size - a)) with (Z.log2_up size) by lia.
  split; [done|]. split; [lia|done].
Qed.

Lemma pool_ok_set_cached p i c c' :
  pool_ok p -> cached p !! i = Some c -> Plocal.new c' = None ->
  Forall (fun x => size_of x = class_size p i /\ good x) (Plocal.held c') ->
  pool_ok (set_cached p (Z.of_nat i) c').
Proof.
  intros [H1 H2 H3 H4 H5 H6] Hc Hn Hf. split; simpl; rewrite ?length_insert; try done.
  intros j d. rewrite Nat2Z.id, list_lookup_insert. case_decide; naive_solver.
Qed.

Lemma pool_ok_set_pooled p i l l' :
  pool_ok p -> pooled p !! i = Some l -> Forall (fun x => size_of x = class_size p i /\ good x) l' ->
  pool_ok (set_pooled p (Z.of_nat i) l').
Proof.
  intros [H1 H2 H3 H4 H5 H6] Hc Hf. split; simpl; rewrite ?length_insert; try done.
  intros j d. rewrite Nat2Z.id, list_lookup_insert. case_decide; naive_solver.
Qed.

(** Get on a well-formed pool: it returns, its size covers the request, an
    object it hands out has exactly that size, and the pool stays well formed. *)
Lemma Get_spec pid pick size p :
  pool_ok p ->
  exists v n p', Get pid pick size p = Ret (v, n, p') /\ size <= n /\ pool_ok p' /\
    minSize p' = minSize p /\ maxSize p' = maxSize p /\
    forall x, v = Some x -> size_of x = n /\ good x.
Proof.
  intros Hok. unfold Get. destruct (Z.ltb_spec (maxSize p) size).
  { exists None, size, p. naive_solver lia. }
  destruct (sizeClass_spec p size) as (i & -> & Hi & Hle); [done|done|]. simpl.
  rewrite class_size_index by done.
  destruct (Z.ltb_spec (Z.of_nat i) (Z.of_nat (length (cached p)))) as [Hc|Hc].
  - destruct (lookup_lt_is_Some_2 (cached p) i) as [c Ec]; [lia|].
    rewrite (proj2 (index_Ret _ _ c)) by (rewrite Nat2Z.id; split; [lia|done]). simpl.
    destruct (ok_cached p Hok i c Ec) as [Hn Hf].
    destruct (Plocal.Get pid pick c) as [v c'] eqn:Eg.
    exists v, (class_size p i), (set_cached p (Z.of_nat i) c').
    split; [done|]. split; [done|]. destruct v as [x|].
    + destruct (Plocal.held_Get _ _ _ _ _ Hn Eg) as [HP Hn'].
      rewrite HP in Hf. inversion Hf; subst.
      split; [by eapply pool_ok_set_cached|]. naive_solver.
    + apply Plocal.new_Get_None in Eg as ->; [|done].
      split; [by eapply pool_ok_set_cached|]. naive_solver.
  - destruct (lookup_lt_is_Some_2 (pooled p) i Hi) as [l El].
    rewrite (proj2 (index_Ret _ _ l)) by (rewrite Nat2Z.id; split; [lia|done]). simpl.
    pose proof (ok_pooled p Hok i l El) as Hf. unfold Plocal.syncpool_get.
    destruct (l !! pick) as [x|] eqn:Ex; eexists _, _, _; (split; [done|]); (split; [done|]).
    + split; [by eapply pool_ok_set_pooled; eauto using Forall_delete|].
      do 2 (split; [done|]). intros y [= <-]. by eapply Forall_lookup_1 in Hf.
    + split; [by eapply pool_ok_set_pooled|]. naive_solver.
Qed.

(** A positive power of two within the bounds is a class of the pool. *)
Lemma size_is_class p size :
  pool_ok p -> minSize p <= size <= maxSize p -> IsPowerOfTwo size = true ->
  exists i, size = class_size p i /\ (i < length (pooled p))%nat.
Proof.
  intros Hok Hs Hp. pose proof Hok as [[a [Ha Hmin]] [k [Hmax Hlen]] _ Hr _ _].
  assert (0 < size) by lia. apply isPowerOfTwo_spec in Hp; [|unfold maxInt; lia].
  unfold class_size in *. rewrite Hmin, <-Z.pow_add_r in * by lia.
  assert (a <= Z.log2 size) by (apply Z.log2_le_pow2; lia).
  assert (Z.log2 size <= a + Z.of_nat k).
  { rewrite <-(Z.log2_pow2 (a + Z.of_nat k)) by lia. apply Z.log2_le_mono. lia. }
  exists (Z.to_nat (Z.log2 size - a)). rewrite <-Z.pow_add_r, Z2Nat.id by lia.
  split; [|lia]. by replace (a + (Z.log2 size - a)) with (Z.log2 size) by lia.
Qed.

Lemma Put_spec pid x p :
  pool_ok p -> good x -> exists p', Put pid x (size_of x) p = Ret p' /\ pool_ok p' /\
    minSize p' = minSize p /\ maxSize p' = maxSize p.
Proof.
  intros Hok Hgood. unfold Put.
  destruct (Z.ltb_spec (size_of x) (minSize p)); simpl; [eauto|].
  destruct (Z.ltb_spec (maxSize p) (size_of x)); simpl; [eauto|].
  destruct (IsPowerOfTwo (size_of x)) eqn:Hp; simpl; [|eauto].
  destruct (size_is_class p (size_of x)) as (i & Hx & Hi); [done|lia|done|].
  rewrite Hx, class_size_index by done.
  destruct (Z.ltb_spec (Z.of_nat i) (Z.of_nat (length (cached p)))) as [Hc|Hc].
  - destruct (lookup_lt_is_Some_2 (cached p) i) as [c Ec]; [lia|].
    rewrite (proj2 (index_Ret _ _ c)) by (rewrite Nat2Z.id; split; [lia|done]). simpl.
    destruct (ok_cached p Hok i c Ec) as [Hn Hf].
    eexists; split; [done|]. split; [|done].
    apply pool_ok_set_cached with c; [done..|by rewrite Plocal.new_Put|].
    rewrite Plocal.held_Put. by constructor.
  - destruct (lookup_lt_is_Some_2 (pooled p) i Hi) as [l El].
    rewrite (proj2 (index_Ret _ _ l)) by (rewrite Nat2Z.id; split; [lia|done]). simpl.
    eexists; split; [done|]. split; [|done].
    apply pool_ok_set_pooled with l; [done..|]. constructor; [done|].
    by apply (ok_pooled p Hok i).
Qed.

(** A fresh pool is well formed, and retains objects up to its capacity. *)
Lemma New_spec nslots capacity :
  capacity <= 2 ^ 62 ->
  exists p, New nslots capacity = Ret p /\ pool_ok p /\ capacity <= maxSize p.
Proof.
  intros Hcap. unfold New, Max.
  set (m := if capacity <? 1 then 1 else capacity).
  assert (Hm : 1 <= m <= 2 ^ 62 /\ capacity <= m) by (unfold m; destruct (Z.ltb_spec capacity 1); lia).
  rewrite ceil_log2_up by lia. simpl.
  pose proof (Z.log2_up_nonneg m). set (a := Z.log2_up m) in *.
  assert (a <= 62) by (apply Z.log2_up_le_pow2; lia).
  assert (m <= 2 ^ a) by (apply Z.log2_up_le_pow2; lia).
  set (b := if minimumPooledSize <=? 2 ^ a then 9 else 0).
  assert (Hb : 0 <= b <= a /\ (if minimumPooledSize <=? 2 ^ a then minimumPooledSize else 1) = 2 ^ b).
  { unfold b, minimumPooledSize. destruct (Z.leb_spec 512 (2 ^ a)); [|lia].
    split; [|done]. split; [lia|]. apply (Z.pow_le_mono_r_iff 2); lia. }
  destruct Hb as [Hb ->]. rewrite !classIndex_pow2 by lia.
  eexists; split; [done|]. split; [|simpl; lia]. split; simpl.
  - exists b. lia.
  - exists (Z.to_nat (a - b)). unfold class_size; simpl.
    rewrite <-Z.pow_add_r, Z2Nat.id, length_replicate by lia. split; [f_equal; lia|lia].
  - rewrite !length_replicate. destruct (2 ^ b <=? maxSlottedSize); lia.
  - apply Z.pow_le_mono_r; lia.
  - intros i c [-> _]%lookup_replicate_1. simpl. split; [done|].
    unfold Plocal.held; simpl. rewrite app_nil_r. by induction nslots.
  - intros i l [-> _]%lookup_replicate_1. done.
Qed.

(** *** Runs of a pool *)

Inductive pool_op : Type :=
| OpGet (pid pick : nat) (size : Z)
| OpPut (pid : nat) (x : T).

Definition pool_step (o : pool_op) (p : Pool) : outcome Pool :=
  match o with
  | OpGet pid pick size => '(_, _, p') ← Get pid pick size p; Ret p'
  | OpPut pid x => Put pid x (size_of x) p
  end.

Fixpoint pool_run (ops : list pool_op) (p : Pool) : outcome Pool :=
  match ops with
  | [] => Ret p
  | o :: ops => p' ← pool_step o p; pool_run ops p'
  end.

Definition op_good (o : pool_op) : Prop :=
  match o with OpGet _ _ _ => True | OpPut _ x => good x end.

Lemma pool_run_spec ops p :
  pool_ok p -> Forall op_good ops -> exists p', pool_run ops p = Ret p' /\ pool_ok p' /\ maxSize p' = maxSize p.
Proof.
  revert p. induction ops as [|[pid pick size|pid x] ops IH]; intros p Hok Hg; simpl; [eauto|..];
    inversion Hg as [|? ? Hx Hg']; subst.
  - destruct (Get_spec pid pick size p Hok) as (v & n & p' & -> & _ & Hok' & _ & Hm & _). simpl.
    destruct (IH p' Hok' Hg') as (q & ? & ? & ?). exists q. split_and!; [done..|congruence].
  - destruct (Put_spec pid x p Hok Hx) as (p' & -> & Hok' & _ & Hm). simpl.
    destruct (IH p' Hok' Hg') as (q & ? & ? & ?). exists q. split_and!; [done..|congruence].
Qed.
End Pool.
Arguments Pool : clear implicits.
Arguments pool_op : clear implicits.

(** ** Properties *)

(** CeilToPowerOfTwo returns the least power of two that is at least its
    argument, for every argument from 1 to the largest power of two an int
    holds, and panics on every larger one. *)
Theorem ceil_least_power_of_two n :
  1 <= n <= maxInt ->
  (2 ^ 62 < n -> CeilToPowerOfTwo n = Panic PanicArgument) /\
  (n <= 2 ^ 62 -> exists k, 0 <= k <= 62 /\ CeilToPowerOfTwo n = Ret (2 ^ k) /\ n <= 2 ^ k /\
     forall j, 0 <= j -> n <= 2 ^ j -> 2 ^ k <= 2 ^ j).
Proof.
  intros Hn. split; [intros; apply ceil_too_large; lia|]. intros Hle.
  exists (Z.log2_up n). rewrite ceil_log2_up by lia.
  assert (n <= 2 ^ Z.log2_up n) by (apply Z.log2_up_le_pow2; lia).
  split; [split; [apply Z.log2_up_nonneg|apply Z.log2_up_le_pow2; lia]|].
  split; [done|]. split; [done|]. intros j Hj Hnj.
  apply Z.pow_le_mono_r; [lia|]. apply Z.log2_up_le_pow2; lia.
Qed.

(** C32. After any sequence of Gets and Puts on a fresh pool, a Get returns
    (it never indexes out of range), the size it reports covers the request,
    and an object it hands out was put with exactly that size. *)
Theorem pool_get_exact_size {T} (size_of : T -> Z) nslots capacity ops pid pick size :
  capacity <= 2 ^ 62 ->
  exists p0 p v n p',
    New nslots capacity = Ret p0 /\ pool_run size_of ops p0 = Ret p /\
    Get pid pick size p = Ret (v, n, p') /\ size <= n /\
    (forall x, v = Some x -> size_of x = n).
Proof.
  intros Hc. destruct (New_spec size_of (fun _ => True) nslots capacity Hc) as (p0 & E0 & Hok & _).
  destruct (pool_run_spec size_of (fun _ => True) ops p0 Hok) as (p & E1 & Hok' & _).
  { apply Forall_true. by intros []. }
  destruct (Get_spec size_of _ pid pick size p Hok') as (v & n & p' & E2 & ? & _ & _ & _ & Hv).
  exists p0, p, v, n, p'. split_and!; [done..|]. intros x E. by apply Hv.
Qed.

Lemma pool_get_exact_size_witness :
  exists p0 p v n p',
    New 2 65536 = Ret p0 /\ pool_run (fun x : Z => x) [OpPut 0 1024; OpPut 1 700] p0 = Ret p /\
    Get 0 0 1000 p = Ret (v, n, p') /\ 1000 <= n /\ (forall x, v = Some x -> x = n).
Proof. apply (pool_get_exact_size (fun x : Z => x) 2 65536). lia. Defined.

Example pool_reuses_object :
  (p0 ← New 2 65536; p ← pool_run (fun x : Z => x) [OpPut 0 1024; OpPut 1 700] p0;
   '(v, n, _) ← Get 0 0 1000 p; Ret (v, n)) = Ret (Some 1024, 1024).
Proof. reflexivity. Qed.
