(* ===== verification/Utf8.v ===== *)
(** * unicode/utf8, as far as the sources use it

    The standard library's encoding and decoding of one rune and its validity
    check of a byte sequence, which bytebuf.Buffer (WriteRune, ReadRune) and the
    WebSocket codec (text messages, close reasons) call. *)

From S2P Require Import Prelude.

Local Open Scope Z_scope.

Definition RuneError : Z := 65533.
Definition RuneSelf : Z := 128.
Definition UTFMax : nat := 4.
Definition MaxRune : Z := 1114111.

Definition valid_rune (r : Z) : bool :=
  ((0 <=? r) && (r <? 55296)) || ((57343 <? r) && (r <=? MaxRune)).

(** utf8.AppendRune onto nil: a rune that is not valid encodes as U+FFFD. *)
Definition encode_valid (r : Z) : list Z :=
  if r <? 128 then [r]
  else if r <? 2048 then [192 + r / 64; 128 + r mod 64]
  else if r <? 65536 then [224 + r / 4096; 128 + r / 64 mod 64; 128 + r mod 64]
  else [240 + r / 262144; 128 + r / 4096 mod 64; 128 + r / 64 mod 64; 128 + r mod 64].

Definition encode_rune (r : Z) : list Z :=
  encode_valid (if valid_rune r then r else RuneError).

(** What the first byte says: the encoding's size and the range of its second
    byte (the [first] and [acceptRanges] tables). *)
Definition first_byte (b : Z) : option (nat * Z * Z) :=
  if (194 <=? b) && (b <=? 223) then Some (2%nat, 128, 191)
  else if b =? 224 then Some (3%nat, 160, 191)
  else if b =? 237 then Some (3%nat, 128, 159)
  else if (225 <=? b) && (b <=? 239) then Some (3%nat, 128, 191)
  else if b =? 240 then Some (4%nat, 144, 191)
  else if (241 <=? b) && (b <=? 243) then Some (4%nat, 128, 191)
  else if b =? 244 then Some (4%nat, 128, 143)
  else None.

Definition cont (b : Z) : bool := (128 <=? b) && (b <=? 191).

Definition decode_rune (p : list Z) : Z * nat :=
  match p with
  | [] => (RuneError, 0%nat)
  | b0 :: q =>
      if b0 <? 128 then (b0, 1%nat)
      else
        match first_byte b0, q with
        | Some (sz, lo, hi), b1 :: q1 =>
            if negb ((lo <=? b1) && (b1 <=? hi)) then (RuneError, 1%nat)
            else if (sz =? 2)%nat then ((b0 mod 32) * 64 + b1 mod 64, 2%nat)
            else match q1 with
                 | b2 :: q2 =>
                     if negb (cont b2) then (RuneError, 1%nat)
                     else if (sz =? 3)%nat
                     then ((b0 mod 16) * 4096 + (b1 mod 64) * 64 + b2 mod 64, 3%nat)
                     else match q2 with
                          | b3 :: _ =>
                              if negb (cont b3) then (RuneError, 1%nat)
                              else ((b0 mod 8) * 262144 + (b1 mod 64) * 4096 +
                                    (b2 mod 64) * 64 + b3 mod 64, 4%nat)
                          | [] => (RuneError, 1%nat)
                          end
                 | [] => (RuneError, 1%nat)
                 end
        | _, _ => (RuneError, 1%nat)
        end
  end.

(** utf8.Valid: every rune decodes, and one that decodes to U+FFFD does so from
    its own three-byte encoding. *)
Fixpoint valid_fuel (fuel : nat) (p : list Z) : bool :=
  match fuel, p with
  | _, [] => true
  | O, _ => false
  | S fuel, _ =>
      let '(r, n) := decode_rune p in
      if (r =? RuneError) && (n =? 1)%nat then false else valid_fuel fuel (drop n p)
  end.

Definition Valid (p : list Z) : bool := valid_fuel (length p) p.

(** ** Facts *)

Lemma encode_rune_length r : (1 <= length (encode_rune r) <= UTFMax)%nat.
Proof.
  unfold encode_rune, encode_valid, UTFMax.
  repeat match goal with |- context [if ?b then _ else _] => destruct b end; simpl; lia.
Qed.

(** Splits every integer comparison of the goal, with its meaning in context. *)
Ltac zsplit :=
  repeat match goal with
  | |- context [?a <=? ?b] => destruct (Z.leb_spec a b); cbn [andb orb negb]
  | |- context [?a <? ?b] => destruct (Z.ltb_spec a b); cbn [andb orb negb]
  | |- context [?a =? ?b] => destruct (Z.eqb_spec a b); cbn [andb orb negb]
  end.

Ltac euclid := Z.to_euclidean_division_equations; lia.

Lemma cont_digit d : 0 <= d < 64 -> cont (128 + d) = true /\ (128 + d) mod 64 = d.
Proof. intros. unfold cont. split; [zsplit; done || lia|euclid]. Qed.

Lemma valid_rune_range r :
  valid_rune r = true -> 0 <= r < 55296 \/ 57343 < r <= 1114111.
Proof. unfold valid_rune, MaxRune. zsplit; naive_solver lia. Qed.

(** The first byte of each encoding length announces that length, and accepts
    the second byte the encoding has. *)
Lemma first_byte_2 q : 2 <= q < 32 -> first_byte (192 + q) = Some (2%nat, 128, 191).
Proof. intros. unfold first_byte. zsplit; done || lia. Qed.

Lemma first_byte_3 q d :
  0 <= q < 16 -> 0 <= d < 64 -> 32 <= q * 64 + d -> (q = 13 -> d < 32) ->
  exists lo hi, first_byte (224 + q) = Some (3%nat, lo, hi) /\
    (lo <=? 128 + d) && (128 + d <=? hi) = true.
Proof.
  intros. unfold first_byte.
  zsplit; try lia; eexists _, _; (split; [done|]); zsplit; done || lia.
Qed.

Lemma first_byte_4 q d :
  0 <= q < 5 -> 0 <= d < 64 -> 16 <= q * 64 + d -> (q = 4 -> d < 16) ->
  exists lo hi, first_byte (240 + q) = Some (4%nat, lo, hi) /\
    (lo <=? 128 + d) && (128 + d <=? hi) = true.
Proof.
  intros. unfold first_byte.
  zsplit; try lia; eexists _, _; (split; [done|]); zsplit; done || lia.
Qed.

(** Decoding what AppendRune wrote gives the rune back, with its length. *)
Lemma decode_encode_rune r rest :
  valid_rune r = true ->
  decode_rune (encode_rune r ++ rest) = (r, length (encode_rune r)).
Proof.
  intros Hv. unfold encode_rune. rewrite Hv. apply valid_rune_range in Hv. unfold encode_valid.
  destruct (Z.ltb_spec r 128); [simpl; by rewrite (proj2 (Z.ltb_lt r 128))|].
  assert (H0 : 0 <= r mod 64 < 64) by euclid.
  assert (H1 : 0 <= r / 64 mod 64 < 64) by euclid.
  assert (H2 : 0 <= r / 4096 mod 64 < 64) by euclid.
  destruct (cont_digit _ H0) as [C0 M0], (cont_digit _ H1) as [C1 M1], (cont_digit _ H2) as [C2 M2].
  destruct (Z.ltb_spec r 2048); [|destruct (Z.ltb_spec r 65536)]; simpl.
  - rewrite first_byte_2 by euclid. unfold cont in C0. rewrite C0. simpl.
    destruct (Z.ltb_spec (192 + r / 64) 128); [euclid|]. f_equal. euclid.
  - destruct (first_byte_3 (r / 4096) (r / 64 mod 64)) as (lo & hi & -> & ->); [euclid..|].
    simpl. rewrite C0, M0, M1. simpl.
    destruct (Z.ltb_spec (224 + r / 4096) 128); [euclid|]. f_equal. euclid.
  - destruct (first_byte_4 (r / 262144) (r / 4096 mod 64)) as (lo & hi & -> & ->); [euclid..|].
    simpl. rewrite C0, C1, M0, M1, M2. simpl.
    destruct (Z.ltb_spec (240 + r / 262144) 128); [euclid|]. f_equal. euclid.
Qed.

Lemma decode_rune_size p : p <> [] -> (1 <= (decode_rune p).2 <= length p)%nat.
Proof.
  destruct p as [|b0 q]; [done|]. intros _. unfold decode_rune.
  destruct (b0 <? 128); [simpl; lia|].
  destruct (first_byte b0) as [[[sz lo] hi]|]; [|simpl; lia].
  destruct q as [|b1 q]; [simpl; lia|].
  destruct (negb _); [simpl; lia|]. destruct (sz =? 2)%nat; [simpl; lia|].
  destruct q as [|b2 q]; [simpl; lia|]. destruct (negb _); [simpl; lia|].
  destruct (sz =? 3)%nat; [simpl; lia|].
  destruct q as [|b3 q]; [simpl; lia|]. destruct (negb _); simpl; lia.
Qed.

Lemma decode_rune_nil_size p : ((decode_rune p).2 <= length p)%nat.
Proof. destruct p; [simpl; lia|]. by apply decode_rune_size. Qed.
