(* ===== verification/Buffer.v ===== *)
(** * internal/bytebuf/buffer.go: the contiguous buffer

    [slice] is a Go byte slice: the memory from its pointer to its capacity,
    and its length, so the bytes between length and capacity (which
    AvailableBuffer hands out and CommitWrite exposes) are part of the state.
    [Buffer] has the source's four fields, and each method is a definition of
    its name, in explicit state passing; a method that can panic returns an
    [outcome].  [unread] is the abstraction: the bytes still to be read. *)

From S2P Require Import Prelude.
From S2P Require Import Utf8.

(** ** Slices *)

Record slice : Type := MkSlice {
  arr : list Z;      (* the memory up to the capacity *)
  slen : nat;
  snil : bool        (* the nil slice *)
}.

Definition scap (s : slice) : nat := length (arr s).
Definition contents (s : slice) : list Z := take (slen s) (arr s).

(** [s[:n]] for [n] at most the capacity. *)
Definition reslice (n : nat) (s : slice) : slice := MkSlice (arr s) n (snil s).

(** [p] written at index [m] of a memory that has room for it. *)
Definition write_at (m : nat) (p : list Z) (a : list Z) : list Z :=
  take m a ++ p ++ drop (m + length p) a.

(** [copy(s[m:], p)]: as many bytes as both sides have. *)
Definition copy_at (m : nat) (p : list Z) (s : slice) : slice * nat :=
  let n := Nat.min (slen s - m) (length p) in
  (MkSlice (write_at m (take n p) (arr s)) (slen s) (snil s), n).

Record slice_ok (s : slice) : Prop := {
  slice_len : slen s <= scap s;
  slice_nil : snil s = true -> arr s = []
}.

(** What the language runtime decides: the capacity append rounds a request up
    to, and how large an allocation it can make. *)
Class GoRuntime : Type := {
  append_cap : nat -> nat;
  append_cap_ge : forall c, c <= append_cap c;
  alloc_max : nat
}.

(** Errors of package io, and any other error value. *)
Inductive ioerr : Type := EOF | ErrShortWrite | ErrOther (code : Z).

#[export] Instance ioerr_eq_dec : EqDecision ioerr.
Proof. solve_decision. Defined.

(** An io.Reader as the results its successive Reads give, each depending on
    how much room it is offered: the count it returns, the bytes it stored, its
    error.  Past the end of the list it reports EOF. *)
Definition reader : Type := list (nat -> Z * list Z * option ioerr).

(** ** The buffer *)

Inductive bufferPoolKind : Type := defaultBufferPool | ownedBufferPool.

Definition smallBufferSize : nat := 64.
Definition MinRead : nat := 512.

Definition opRead : Z := -1.
Definition opInvalid : Z := 0.
Definition opReadRune1 : Z := 1.

Record Buffer : Type := MkBuffer {
  buf : slice;
  off : nat;
  lastRead : Z;
  poolKind : bufferPoolKind
}.

Definition set_buf (s : slice) (b : Buffer) : Buffer := MkBuffer s (off b) (lastRead b) (poolKind b).
Definition set_off (n : nat) (b : Buffer) : Buffer := MkBuffer (buf b) n (lastRead b) (poolKind b).
Definition set_lastRead (op : Z) (b : Buffer) : Buffer := MkBuffer (buf b) (off b) op (poolKind b).

Definition NewBuffer (s : slice) : Buffer := MkBuffer s 0 opInvalid defaultBufferPool.

Definition Bytes (b : Buffer) : list Z := drop (off b) (contents (buf b)).
Definition empty (b : Buffer) : bool := slen (buf b) <=? off b.
Definition Len (b : Buffer) : nat := slen (buf b) - off b.
Definition Cap (b : Buffer) : nat := scap (buf b).
Definition Available (b : Buffer) : nat := scap (buf b) - slen (buf b).

(** The memory AvailableBuffer hands out, and a caller's store into it. *)
Definition AvailableBuffer (b : Buffer) : list Z := drop (slen (buf b)) (arr (buf b)).
Definition fill_available (p : list Z) (b : Buffer) : Buffer :=
  set_buf (MkSlice (write_at (slen (buf b)) (take (Available b) p) (arr (buf b)))
             (slen (buf b)) (snil (buf b))) b.

Definition CommitWrite (n : Z) (b : Buffer) : outcome Buffer :=
  if ((n <? 0) || (Z.of_nat (Available b) <? n))%Z then Panic PanicOutOfRange
  else Ret (set_buf (reslice (slen (buf b) + Z.to_nat n) (buf b)) b).

Definition Reset (b : Buffer) : Buffer :=
  MkBuffer (reslice 0 (buf b)) 0 opInvalid (poolKind b).

Definition Discard (n : Z) (b : Buffer) : outcome Buffer :=
  if (n <=? 0)%Z then Ret (Reset b)
  else if (Z.of_nat (Len b) <? n)%Z then Panic PanicOutOfRange
  else
    let b := set_off (off b + Z.to_nat n) b in
    Ret (if (Len b =? 0) && negb (off b =? 0) then Reset b else b).

Definition Truncate (n : Z) (b : Buffer) : outcome Buffer :=
  if (n =? 0)%Z then Ret (Reset b)
  else
    let b := set_lastRead opInvalid b in
    if ((n <? 0) || (Z.of_nat (Len b) <? n))%Z then Panic PanicOutOfRange
    else Ret (set_buf (reslice (off b + Z.to_nat n) (buf b)) b).

Definition tryGrowByReslice (n : nat) (b : Buffer) : option (nat * Buffer) :=
  let l := slen (buf b) in
  if n <=? scap (buf b) - l then Some (l, set_buf (reslice (l + n) (buf b)) b) else None.

Section Growth.
Context `{GoRuntime}.

(** growSlice on the slice [s[o:]], returning it grown by [n]. *)
Definition growSlice (s : slice) (o n : nat) : outcome slice :=
  let content := drop o (contents s) in
  let cap := scap s - o in
  let c := length content + n in
  let c := if c <? 2 * cap then 2 * cap else c in
  if alloc_max <? c then Panic PanicErrTooLarge
  else Ret (MkSlice (write_at 0 content (replicate (append_cap c) 0%Z)) (length content) false).

Definition grow (n : nat) (b : Buffer) : outcome (nat * Buffer) :=
  let m := Len b in
  let b := if (m =? 0) && negb (off b =? 0) then Reset b else b in
  match tryGrowByReslice n b with
  | Some (i, b) => Ret (i, b)
  | None =>
      if snil (buf b) && (n <=? smallBufferSize)
      then Ret (0, set_buf (MkSlice (replicate smallBufferSize 0%Z) n false) b)
      else
        let c := scap (buf b) in
        s ← (if (Z.of_nat n <=? Z.of_nat (c / 2) - Z.of_nat m)%Z
             then Ret (fst (copy_at 0 (drop (off b) (contents (buf b))) (buf b)))
             else if (maxInt - Z.of_nat c - Z.of_nat n <? Z.of_nat c)%Z then Panic PanicErrTooLarge
             else growSlice (buf b) (off b) (off b + n));
        Ret (m, MkBuffer (reslice (m + n) s) 0 (lastRead b) (poolKind b))
  end.

Definition Grow (n : Z) (b : Buffer) : outcome Buffer :=
  if (n <? 0)%Z then Panic PanicArgument
  else
    '(m, b) ← grow (Z.to_nat n) b;
    Ret (set_buf (reslice m (buf b)) b).

Definition ensure (n : nat) (b : Buffer) : outcome (nat * Buffer) :=
  match tryGrowByReslice n b with
  | Some r => Ret r
  | None => grow n b
  end.

Definition Write (p : list Z) (b : Buffer) : outcome (nat * Buffer) :=
  let b := set_lastRead opInvalid b in
  '(m, b) ← ensure (length p) b;
  let '(s, n) := copy_at m p (buf b) in
  Ret (n, set_buf s b).

(** A string is its bytes. *)
Definition WriteString (s : list Z) (b : Buffer) : outcome (nat * Buffer) := Write s b.

Definition WriteByte (c : Z) (b : Buffer) : outcome Buffer :=
  let b := set_lastRead opInvalid b in
  '(m, b) ← ensure 1 b;
  Ret (set_buf (MkSlice (<[m := c]> (arr (buf b))) (slen (buf b)) (snil (buf b))) b).

(** [b.buf = utf8.AppendRune(b.buf[:m], r)], whose room was just made. *)
Definition WriteRune (r : Z) (b : Buffer) : outcome (nat * Buffer) :=
  if (wrap 32 r <? RuneSelf)%Z then b ← WriteByte (wrap 8 r) b; Ret (1, b)
  else
    let b := set_lastRead opInvalid b in
    '(m, b) ← ensure UTFMax b;
    let e := encode_rune r in
    Ret (length e,
         set_buf (MkSlice (write_at m e (arr (buf b))) (m + length e) (snil (buf b))) b).

(** One round of ReadFrom, then the rest of the reader. *)
Fixpoint ReadFrom_loop (r : reader) (n : Z) (b : Buffer) : outcome (Z * option ioerr * reader * Buffer) :=
  '(i, b) ← grow MinRead b;
  let b := set_buf (reslice i (buf b)) b in
  match r with
  | [] => Ret (n, None, [], b)
  | f :: r =>
      let '(m, data, e) := f (Available b) in
      let b := fill_available data b in
      if (m <? 0)%Z then Panic PanicNegativeRead
      else if (Z.of_nat (Available b) <? m)%Z then Panic PanicSliceBounds
      else
        let b := set_buf (reslice (i + Z.to_nat m) (buf b)) b in
        let n := (n + m)%Z in
        match e with
        | Some EOF => Ret (n, None, r, b)
        | Some e => Ret (n, Some e, r, b)
        | None => ReadFrom_loop r n b
        end
  end.

Definition ReadFrom (r : reader) (b : Buffer) : outcome (Z * option ioerr * reader * Buffer) :=
  ReadFrom_loop r 0 (set_lastRead opInvalid b).

End Growth.

(** [w] is what the writer's Write answers for the bytes it is given: a count,
    at least zero by io.Writer's contract, and an error. *)
Definition WriteTo (w : list Z -> nat * option ioerr) (b : Buffer) : outcome (nat * option ioerr * Buffer) :=
  let b := set_lastRead opInvalid b in
  let nBytes := Len b in
  if 0 <? nBytes then
    let '(m, e) := w (Bytes b) in
    if nBytes <? m then Panic PanicOutOfRange
    else
      let b := set_off (off b + m) b in
      match e with
      | Some e => Ret (m, Some e, b)
      | None => if m =? nBytes then Ret (m, None, Reset b) else Ret (m, Some ErrShortWrite, b)
      end
  else Ret (0, None, Reset b).

(** Read into a slice of [k] bytes: what was copied, the error, the buffer. *)
Definition Read (k : nat) (b : Buffer) : list Z * option ioerr * Buffer :=
  let b := set_lastRead opInvalid b in
  if empty b then ([], if k =? 0 then None else Some EOF, Reset b)
  else
    let data := take k (Bytes b) in
    let b := set_off (off b + length data) b in
    (data, None, if 0 <? length data then set_lastRead opRead b else b).

Definition Next (n : Z) (b : Buffer) : outcome (list Z * Buffer) :=
  let b := set_lastRead opInvalid b in
  let n := if (Z.of_nat (Len b) <? n)%Z then Z.of_nat (Len b) else n in
  if (n <? 0)%Z then Panic PanicSliceBounds
  else
    let data := take (Z.to_nat n) (Bytes b) in
    let b := set_off (off b + Z.to_nat n) b in
    Ret (data, if (0 <? n)%Z then set_lastRead opRead b else b).

Definition ReadByte (b : Buffer) : Z * option ioerr * Buffer :=
  if empty b then (0%Z, Some EOF, Reset b)
  else (nth (off b) (arr (buf b)) 0%Z, None, set_lastRead opRead (set_off (S (off b)) b)).

Definition ReadRune (b : Buffer) : Z * nat * option ioerr * Buffer :=
  if empty b then (0%Z, 0, Some EOF, Reset b)
  else
    let c := nth (off b) (arr (buf b)) 0%Z in
    if (c <? RuneSelf)%Z then (c, 1, None, set_lastRead opReadRune1 (set_off (S (off b)) b))
    else
      let '(r, n) := decode_rune (Bytes b) in
      (r, n, None, set_lastRead (Z.of_nat n) (set_off (off b + n) b)).

Inductive unread_error : Type := ErrUnreadRune | errUnreadByte.

Definition UnreadRune (b : Buffer) : option unread_error * Buffer :=
  if (lastRead b <=? opInvalid)%Z then (Some ErrUnreadRune, b)
  else
    let b := if (lastRead b <=? Z.of_nat (off b))%Z
             then set_off (off b - Z.to_nat (lastRead b)) b else b in
    (None, set_lastRead opInvalid b).

Definition UnreadByte (b : Buffer) : option unread_error * Buffer :=
  if (lastRead b =? opInvalid)%Z then (Some errUnreadByte, b)
  else
    let b := set_lastRead opInvalid b in
    (None, if 0 <? off b then set_off (off b - 1) b else b).

(** bytes.IndexByte, -1 for absent as [None]. *)
Fixpoint IndexByte (delim : Z) (p : list Z) : option nat :=
  match p with
  | [] => None
  | c :: p => if (c =? delim)%Z then Some 0 else S <$> IndexByte delim p
  end.

Definition readSlice (delim : Z) (b : Buffer) : list Z * option ioerr * Buffer :=
  let i := IndexByte delim (Bytes b) in
  let '(stop, err) :=
    match i with
    | Some i => (off b + i + 1, None)
    | None => (slen (buf b), Some EOF)
    end in
  (take (stop - off b) (Bytes b), err, set_lastRead opRead (set_off stop b)).

Definition ReadString (delim : Z) (b : Buffer) : list Z * option ioerr * Buffer :=
  readSlice delim b.

Definition ReadBytes (delim : Z) (b : Buffer) : list Z * option ioerr * Buffer :=
  readSlice delim b.

(** ** Well-formedness *)

Record buffer_ok (b : Buffer) : Prop := {
  ok_slice : slice_ok (buf b);
  ok_off : off b <= slen (buf b)
}.

#[export] Hint Resolve ok_slice ok_off slice_len : uio.

Lemma length_contents s : slice_ok s -> length (contents s) = slen s.
Proof. intros []. unfold contents. rewrite length_take. unfold scap in *. lia. Qed.

Lemma length_Bytes b : buffer_ok b -> length (Bytes b) = Len b.
Proof.
  intros [Hs Ho]. unfold Bytes, Len. by rewrite length_drop, length_contents.
Qed.

Lemma length_write_at m p a : m + length p <= length a -> length (write_at m p a) = length a.
Proof. intros. unfold write_at. rewrite !length_app, length_take, length_drop. lia. Qed.

Lemma take_write_at_before k m p a : k <= m <= length a -> take k (write_at m p a) = take k a.
Proof.
  intros. unfold write_at. rewrite take_app_le by (rewrite length_take; lia).
  rewrite take_take. f_equal. lia.
Qed.

Lemma take_write_at m p a :
  m <= length a -> take (m + length p) (write_at m p a) = take m a ++ p.
Proof.
  intros. unfold write_at. rewrite take_app_ge by (rewrite length_take; lia).
  rewrite length_take, Nat.min_l by lia. replace (m + length p - m) with (length p) by lia.
  by rewrite take_app_length.
Qed.

Lemma write_at_0_take p a : take (length p) (write_at 0 p a) = p.
Proof. apply (take_write_at 0 p a). lia. Qed.

Lemma buffer_ok_Reset b : buffer_ok b -> buffer_ok (Reset b) /\ Bytes (Reset b) = [].
Proof.
  intros [[Hl Hn] Ho]. split; [|done]. split; simpl; [|lia]. split; simpl; [unfold scap; simpl; lia|done].
Qed.

Lemma buffer_ok_set_lastRead op b : buffer_ok b -> buffer_ok (set_lastRead op b).
Proof. by intros [? ?]. Qed.

Lemma buffer_ok_set_off n b : buffer_ok b -> n <= slen (buf b) -> buffer_ok (set_off n b).
Proof. intros [? ?] ?. by split. Qed.

Lemma Bytes_set_off k b : Bytes (set_off (off b + k) b) = drop k (Bytes b).
Proof. unfold Bytes; simpl. by rewrite drop_drop. Qed.

Lemma NewBuffer_ok s : slice_ok s -> buffer_ok (NewBuffer s) /\ Bytes (NewBuffer s) = contents s.
Proof. intros []. split; [split; [split|]|]; simpl; (done || lia). Qed.

#[export] Hint Resolve buffer_ok_set_lastRead buffer_ok_set_off : uio.

(** ** Growing

    [grown b n m b1]: [b1] is [b] with room for [n] bytes starting at index [m],
    included in its length, and the unread bytes of [b] just before them. *)
Record grown (b : Buffer) (n m : nat) (b1 : Buffer) : Prop := {
  grown_len : slen (buf b1) = m + n;
  grown_slice : slice_ok (buf b1);
  grown_off : off b1 <= m;
  grown_bytes : drop (off b1) (take m (arr (buf b1))) = Bytes b;
  grown_lastRead : lastRead b1 = lastRead b \/ lastRead b1 = opInvalid;
  grown_kind : poolKind b1 = poolKind b
}.

Lemma tryGrow_spec n b :
  buffer_ok b ->
  match tryGrowByReslice n b with
  | Some (m, b1) => grown b n m b1 /\ arr (buf b1) = arr (buf b) /\ m = slen (buf b) /\ off b1 = off b
  | None => scap (buf b) - slen (buf b) < n
  end.
Proof.
  intros [[Hl Hn] Ho]. unfold tryGrowByReslice. destruct (Nat.leb_spec n (scap (buf b) - slen (buf b))); [|lia].
  split; [|done]. split; simpl; auto; [].
  split; simpl; [|done]. unfold scap; simpl. unfold scap in *. lia.
Qed.

(** The three ways grow makes room when reslicing cannot: a first small block,
    sliding the unread bytes down, a new block. *)
Lemma grown_small b n :
  buffer_ok b -> snil (buf b) = true -> n <= smallBufferSize ->
  grown b n 0 (set_buf (MkSlice (replicate smallBufferSize 0%Z) n false) b).
Proof.
  intros [[Hl Hn] Ho] Hnil Hsz. specialize (Hn Hnil). unfold scap in Hl. rewrite Hn in Hl; simpl in Hl.
  assert (Ho0 : off b = 0) by lia.
  split; simpl; auto; [split; simpl; [|done]; unfold scap, smallBufferSize in *; simpl; lia|lia|].
  unfold Bytes, contents. by rewrite Hn, Ho0, take_nil.
Qed.

Lemma grown_fresh b n s :
  buffer_ok b -> slice_ok (reslice (Len b + n) s) -> take (Len b) (arr s) = Bytes b ->
  grown b n (Len b) (MkBuffer (reslice (Len b + n) s) 0 (lastRead b) (poolKind b)).
Proof. intros Hb Hs Ht. split; simpl; auto. lia. Qed.

Section GrowthFacts.
Context `{GoRuntime}.

Lemma growSlice_spec s o n :
  slice_ok s -> o <= slen s ->
  match growSlice s o (o + n) with
  | Ret s' => slice_ok (reslice (slen s - o + n) s') /\ take (slen s - o) (arr s') = drop o (contents s)
  | Panic p => p = PanicErrTooLarge /\ alloc_max < 2 * scap s + n
  end.
Proof.
  intros Hs Ho. pose proof Hs as [Hl Hn]. unfold growSlice. rewrite length_drop, length_contents by done.
  set (c := if _ <? 2 * _ then _ else _).
  assert (Hc : slen s + n <= c <= 2 * scap s + n).
  { unfold c. destruct (Nat.ltb_spec (slen s - o + (o + n)) (2 * (scap s - o))); lia. }
  destruct (Nat.ltb_spec alloc_max c); [split; [done|lia]|].
  assert (Hd : length (drop o (contents s)) = slen s - o) by (by rewrite length_drop, length_contents).
  pose proof (append_cap_ge c). split.
  - split; simpl; [|done]. unfold scap; simpl.
    rewrite length_write_at by (rewrite length_replicate, Hd; lia). rewrite length_replicate. lia.
  - rewrite <-Hd. apply write_at_0_take.
Qed.

(** Room for [n] more bytes: what grow guarantees, and when it cannot. *)
Lemma grow_spec n b :
  buffer_ok b ->
  match grow n b with
  | Ret (m, b1) => grown b n m b1
  | Panic p => p = PanicErrTooLarge /\
      (alloc_max < 2 * Cap b + n \/ (maxInt < Z.of_nat (2 * Cap b + n))%Z)
  end.
Proof.
  intros Hb. unfold grow. fold (Len b).
  set (b' := if _ && _ then Reset b else b).
  assert (Hb' : buffer_ok b' /\ Bytes b' = Bytes b /\ Len b' = Len b /\ Cap b' = Cap b /\
                 (lastRead b' = lastRead b \/ lastRead b' = opInvalid) /\ poolKind b' = poolKind b).
  { unfold b'. destruct (Nat.eqb_spec (Len b) 0) as [E|]; simpl; [|auto 10].
    destruct (negb _); [|auto 10]. pose proof (length_Bytes b Hb) as HB.
    rewrite E in HB. apply nil_length_inv in HB. rewrite HB. unfold Len at 2.
    destruct (buffer_ok_Reset b Hb). split_and!; simpl; auto. }
  clearbody b'. destruct Hb' as (Hb' & HB & HL & HC & HR & HK).
  assert (Hlift : forall m b1, grown b' n m b1 -> grown b n m b1).
  { intros m b1 []. split; try congruence; auto. destruct grown_lastRead0 as [->|]; auto. }
  pose proof (tryGrow_spec n b' Hb') as Ht. destruct (tryGrowByReslice n b') as [[m b1]|]; [naive_solver|].
  destruct (snil (buf b') && (n <=? smallBufferSize)) eqn:Es.
  { apply andb_prop in Es as [? ?%Nat.leb_le]. by apply Hlift, grown_small. }
  rewrite <-HL. pose proof Hb' as [Hs Ho]. pose proof Hs as [Hl Hn].
  destruct (Z.leb_spec (Z.of_nat n) (Z.of_nat (scap (buf b') / 2) - Z.of_nat (Len b'))) as [Hle|Hgt].
  - simpl. apply Hlift. apply grown_fresh; [done|split; simpl|simpl].
    + unfold scap; simpl. rewrite length_write_at.
      * pose proof (Nat.div_mod_eq (scap (buf b')) 2). unfold scap in *. lia.
      * rewrite length_take. unfold scap in *. lia.
    + intros Hnil%Hn. unfold scap in *. rewrite Hnil in *. simpl in *. lia.
    + rewrite (take_ge (drop _ _)).
      2: { rewrite length_drop, length_contents by done. lia. }
      rewrite <-(length_Bytes b') by done. apply write_at_0_take.
  - destruct (Z.ltb_spec (maxInt - Z.of_nat (scap (buf b')) - Z.of_nat n) (Z.of_nat (scap (buf b')))).
    { simpl. split; [done|]. unfold Cap in *. rewrite <-HC. right. lia. }
    pose proof (growSlice_spec (buf b') (off b') n Hs Ho) as Hg.
    destruct (growSlice _ _ _) as [s'|p]; simpl.
    + destruct Hg as [Hs' Ht']. apply Hlift, grown_fresh; [done|exact Hs'|exact Ht'].
    + unfold Cap in *. rewrite <-HC. naive_solver.
Qed.

Lemma ensure_spec n b :
  buffer_ok b ->
  match ensure n b with
  | Ret (m, b1) => grown b n m b1
  | Panic p => p = PanicErrTooLarge /\
      (alloc_max < 2 * Cap b + n \/ (maxInt < Z.of_nat (2 * Cap b + n))%Z)
  end.
Proof.
  intros Hb. unfold ensure. pose proof (tryGrow_spec n b Hb) as Ht.
  destruct (tryGrowByReslice n b) as [[m b1]|]; [naive_solver|]. by apply grow_spec.
Qed.
End GrowthFacts.

(** ** What each operation does to the unread bytes *)

Lemma Bytes_split b : buffer_ok b -> take (slen (buf b)) (arr (buf b)) = take (off b) (arr (buf b)) ++ Bytes b.
Proof.
  intros [Hs Ho]. unfold Bytes, contents. rewrite <-(take_drop (off b) (take (slen (buf b)) _)) at 1.
  f_equal. rewrite take_take. f_equal. lia.
Qed.

(** Storing [p] in the room a growth made appends [p] to the unread bytes. *)
Lemma grown_fill b n m b1 p k nil :
  grown b n m b1 -> length p <= n -> (nil = true -> snil (buf b1) = true /\ p = []) ->
  k = m + length p ->
  let b2 := set_buf (MkSlice (write_at m p (arr (buf b1))) k nil) b1 in
  buffer_ok b2 /\ Bytes b2 = Bytes b ++ p.
Proof.
  intros [Hlen [Hl Hn] Ho HB _ _] Hp Hnil -> b2. unfold scap in Hl.
  assert (Hw : length (write_at m p (arr (buf b1))) = length (arr (buf b1)))
    by (apply length_write_at; lia).
  split.
  - split; simpl; [|lia]. split; simpl.
    + unfold scap; simpl. rewrite Hw. lia.
    + intros E. destruct (Hnil E) as [E1 ->]. specialize (Hn E1). unfold write_at. rewrite Hn in *.
      by rewrite take_nil, drop_nil.
  - unfold Bytes, contents; simpl. rewrite take_write_at by lia.
    rewrite drop_app_le by (rewrite length_take; lia). by rewrite HB.
Qed.

Definition grow_fails (b : Buffer) (n : nat) `{GoRuntime} : Prop :=
  alloc_max < 2 * Cap b + n \/ (maxInt < Z.of_nat (2 * Cap b + n))%Z.

Section OpFacts.
Context `{GoRuntime}.

Lemma Write_spec p b :
  buffer_ok b ->
  match Write p b with
  | Ret (n, b') => n = length p /\ buffer_ok b' /\ Bytes b' = Bytes b ++ p /\
                   lastRead b' = opInvalid /\ poolKind b' = poolKind b
  | Panic e => e = PanicErrTooLarge /\ grow_fails b (length p)
  end.
Proof.
  intros Hb. unfold Write. pose proof (ensure_spec (length p) (set_lastRead opInvalid b)) as He.
  destruct (ensure _ _) as [[m b1]|e]; simpl; [|apply He; auto with uio].
  specialize (He ltac:(auto with uio)). unfold copy_at. pose proof He as [Hlen Hs Ho HB HR HK].
  rewrite Hlen. replace (m + length p - m) with (length p) by lia.
  rewrite Nat.min_l, take_ge by lia.
  destruct (grown_fill _ _ _ _ p (m + length p) (snil (buf b1)) He) as [? ?]; [lia| |lia|].
  { intros E. split; [done|]. destruct Hs as [Hl Hn]. specialize (Hn E). unfold scap in Hl.
    rewrite Hn in Hl; simpl in Hl. apply nil_length_inv. lia. }
  split_and!; auto. simpl in HR. by destruct HR.
Qed.

(** A write that fits the tail neither panics nor moves the memory. *)
Lemma Write_fits p b :
  buffer_ok b -> length p <= Available b ->
  exists b', Write p b = Ret (length p, b') /\ buffer_ok b' /\ Bytes b' = Bytes b ++ p /\
    Cap b' = Cap b /\ Available b' = Available b - length p /\ poolKind b' = poolKind b /\
    slen (buf b') = slen (buf b) + length p.
Proof.
  intros Hb Hp. pose proof (Write_spec p b Hb) as Hw. unfold Write in *.
  unfold ensure, tryGrowByReslice in *; simpl in *.
  rewrite (proj2 (Nat.leb_le _ _)) in * by (unfold Available in Hp; lia). simpl in *.
  destruct Hw as (Hn & Hok & HB & _ & HK). unfold copy_at in *; simpl in *.
  replace (slen (buf b) + length p - slen (buf b)) with (length p) in * by lia.
  rewrite Nat.min_l in * by lia. eexists. split; [done|]. split_and!; auto.
  - unfold Cap, scap; simpl. rewrite take_ge by lia. apply length_write_at. unfold Available, scap in Hp.
    destruct Hb as [[Hl _] _]. unfold scap in Hl. lia.
  - unfold Available at 1, scap; simpl. rewrite take_ge by lia. rewrite length_write_at.
    + unfold Available, scap. lia.
    + unfold Available, scap in Hp. destruct Hb as [[Hl _] _]. unfold scap in Hl. lia.
Qed.

Lemma WriteByte_spec c b :
  buffer_ok b ->
  match WriteByte c b with
  | Ret b' => buffer_ok b' /\ Bytes b' = Bytes b ++ [c] /\ lastRead b' = opInvalid
  | Panic e => e = PanicErrTooLarge /\ grow_fails b 1
  end.
Proof.
  intros Hb. unfold WriteByte. pose proof (ensure_spec 1 (set_lastRead opInvalid b)) as He.
  destruct (ensure _ _) as [[m b1]|e]; simpl; [|apply He; auto with uio].
  specialize (He ltac:(auto with uio)). pose proof He as [Hlen [Hl Hn] Ho HB HR HK].
  assert (Hi : <[m := c]> (arr (buf b1)) = write_at m [c] (arr (buf b1))).
  { unfold write_at; simpl. rewrite insert_take_drop by (unfold scap in *; lia). do 3 f_equal. lia. }
  rewrite Hi.
  destruct (grown_fill _ _ _ _ [c] (slen (buf b1)) (snil (buf b1)) He) as [? ?]; [simpl; lia| |simpl; lia|].
  { intros E. specialize (Hn E). unfold scap in *. rewrite Hn in Hl; simpl in *. lia. }
  split_and!; auto. simpl in HR. by destruct HR.
Qed.

Lemma encode_rune_ascii r : (wrap 32 r < RuneSelf)%Z -> (- 2 ^ 31 <= r < 2 ^ 31)%Z ->
  encode_rune r = [wrap 8 r].
Proof.
  unfold wrap, RuneSelf. intros Hr Hb.
  assert (0 <= r < 128)%Z by (Z.to_euclidean_division_equations; lia).
  unfold encode_rune, valid_rune, encode_valid, MaxRune.
  rewrite (proj2 (Z.leb_le 0 r)), (proj2 (Z.ltb_lt r 55296)) by lia. simpl.
  rewrite (proj2 (Z.ltb_lt r 128)) by lia. by rewrite Z.mod_small by lia.
Qed.

Lemma WriteRune_spec r b :
  buffer_ok b -> (- 2 ^ 31 <= r < 2 ^ 31)%Z ->
  match WriteRune r b with
  | Ret (n, b') => n = length (encode_rune r) /\ buffer_ok b' /\
                   Bytes b' = Bytes b ++ encode_rune r /\ lastRead b' = opInvalid
  | Panic e => e = PanicErrTooLarge
  end.
Proof.
  intros Hb Hr. unfold WriteRune. destruct (Z.ltb_spec (wrap 32 r) RuneSelf) as [Ha|Ha].
  - rewrite encode_rune_ascii by done. pose proof (WriteByte_spec (wrap 8 r) b Hb) as Hw.
    destruct (WriteByte _ _); simpl; naive_solver.
  - pose proof (ensure_spec UTFMax (set_lastRead opInvalid b)) as He.
    destruct (ensure _ _) as [[m b1]|e]; simpl; [|apply He; auto with uio].
    specialize (He ltac:(auto with uio)). pose proof He as [Hlen [Hl Hn] Ho HB HR HK].
    pose proof (encode_rune_length r).
    destruct (grown_fill _ _ _ _ (encode_rune r) (m + length (encode_rune r)) (snil (buf b1)) He)
      as [? ?]; [lia| |done|].
    { intros E. specialize (Hn E). unfold scap, UTFMax in *. rewrite Hn in Hl; simpl in *. lia. }
    split_and!; auto. simpl in HR. by destruct HR.
Qed.

Lemma Grow_spec n b :
  buffer_ok b ->
  match Grow n b with
  | Ret b' => (0 <= n)%Z /\ buffer_ok b' /\ Bytes b' = Bytes b /\ Z.to_nat n <= Available b'
  | Panic e => e = PanicArgument /\ (n < 0)%Z \/ e = PanicErrTooLarge
  end.
Proof.
  intros Hb. unfold Grow. destruct (Z.ltb_spec n 0); [auto|].
  pose proof (grow_spec (Z.to_nat n) b Hb) as Hg.
  destruct (grow _ _) as [[m b1]|e]; simpl; [|naive_solver].
  destruct Hg as [Hlen [Hl Hn] Ho HB HR HK].
  split_and!; [lia| |done|unfold Available, scap in *; simpl; lia].
  split; simpl; [split; simpl; [unfold scap in *; simpl; lia|done]|done].
Qed.
End OpFacts.

Lemma Discard_spec n b :
  buffer_ok b ->
  match Discard n b with
  | Ret b' => buffer_ok b' /\ Bytes b' = (if (n <=? 0)%Z then [] else drop (Z.to_nat n) (Bytes b)) /\
              Cap b' = Cap b /\ poolKind b' = poolKind b /\ (n <= Z.of_nat (Len b))%Z
  | Panic e => e = PanicOutOfRange /\ (0 < n)%Z /\ (Z.of_nat (Len b) < n)%Z
  end.
Proof.
  intros Hb. unfold Discard. destruct (Z.leb_spec n 0).
  { destruct (buffer_ok_Reset b Hb). split_and!; auto. lia. }
  destruct (Z.ltb_spec (Z.of_nat (Len b)) n); [auto|].
  set (b1 := set_off _ b). assert (Hb1 : buffer_ok b1) by (apply buffer_ok_set_off; [done|unfold Len in *; lia]).
  assert (HB : Bytes b1 = drop (Z.to_nat n) (Bytes b)) by apply Bytes_set_off.
  destruct ((Len b1 =? 0) && negb (off b1 =? 0)) eqn:E.
  - apply andb_prop in E as [E%Nat.eqb_eq _]. pose proof (length_Bytes b1 Hb1) as HL.
    rewrite E in HL. apply nil_length_inv in HL. destruct (buffer_ok_Reset b1 Hb1).
    rewrite <-HB, HL. split_and!; auto.
  - split_and!; auto.
Qed.

Lemma Truncate_spec n b :
  buffer_ok b ->
  match Truncate n b with
  | Ret b' => buffer_ok b' /\ (0 <= n <= Z.of_nat (Len b))%Z /\ Bytes b' = take (Z.to_nat n) (Bytes b)
  | Panic e => e = PanicOutOfRange /\ ((n < 0)%Z \/ (Z.of_nat (Len b) < n)%Z)
  end.
Proof.
  intros Hb. unfold Truncate. destruct (Z.eqb_spec n 0) as [->|].
  { destruct (buffer_ok_Reset b Hb) as [? ->]. split_and!; auto; lia. }
  destruct (Z.ltb_spec n 0); simpl; [auto|].
  change (Len (set_lastRead opInvalid b)) with (Len b).
  destruct (Z.ltb_spec (Z.of_nat (Len b)) n); [auto|]. pose proof Hb as [[Hl Hn] Ho]. unfold Len in *.
  split_and!; [|lia..|].
  - split; simpl; [split; simpl; [unfold scap in *; simpl; lia|done]|lia].
  - unfold Bytes, contents; simpl. rewrite !take_drop_commute, take_take. do 2 f_equal. lia.
Qed.

Lemma Read_spec k b :
  buffer_ok b ->
  let '(data, e, b') := Read k b in
  buffer_ok b' /\ data = take k (Bytes b) /\ Bytes b' = drop k (Bytes b) /\
  e = (if empty b && negb (k =? 0) then Some EOF else None) /\
  Len b' = Len b - length data /\ Cap b' = Cap b /\ poolKind b' = poolKind b.
Proof.
  intros Hb. pose proof Hb as [Hs Ho]. unfold Read. change (empty (set_lastRead opInvalid b)) with (empty b).
  change (Bytes (set_lastRead opInvalid b)) with (Bytes b). cbv zeta.
  destruct (empty b) eqn:E.
  - unfold empty in E. apply Nat.leb_le in E.
    assert (HB : Bytes b = []) by (apply nil_length_inv; rewrite length_Bytes by done; unfold Len; lia).
    destruct (buffer_ok_Reset b Hb). rewrite HB, take_nil, drop_nil.
    split_and!; auto; [by destruct (k =? 0)|unfold Len; simpl; lia].
  - set (n := length (take k (Bytes b))).
    assert (Hl : n <= Len b) by (unfold n; rewrite length_take, length_Bytes by done; lia).
    assert (HB : drop n (Bytes b) = drop k (Bytes b)).
    { unfold n. rewrite length_take.
      destruct (Nat.le_ge_cases k (length (Bytes b))); [f_equal; lia|].
      by rewrite !drop_ge by (rewrite ?Nat.min_r; lia). }
    rewrite <-HB, <-(Bytes_set_off n b).
    assert (H1 : buffer_ok (set_off (off b + n) b)) by (apply buffer_ok_set_off; [done|unfold Len in *; lia]).
    destruct (0 <? n); split_and!; try done; try (split; apply H1); unfold Len; simpl; lia.
Qed.

Lemma Next_spec n b :
  buffer_ok b ->
  match Next n b with
  | Ret (data, b') => (0 <= n)%Z /\ buffer_ok b' /\ data = take (Z.to_nat n) (Bytes b) /\
                      Bytes b' = drop (Z.to_nat n) (Bytes b)
  | Panic e => e = PanicSliceBounds /\ (n < 0)%Z
  end.
Proof.
  intros Hb. pose proof Hb as [Hs Ho]. unfold Next.
  change (Len (set_lastRead opInvalid b)) with (Len b).
  change (Bytes (set_lastRead opInvalid b)) with (Bytes b).
  cbv zeta. pose proof (length_Bytes b Hb) as HL.
  assert (Hfin : forall k op, k <= Len b ->
    buffer_ok (set_lastRead op (set_off (off b + k) b)) /\
    Bytes (set_lastRead op (set_off (off b + k) b)) = drop k (Bytes b)).
  { intros k op Hk. split; [split; simpl; [done|unfold Len in *; lia]|exact (Bytes_set_off k b)]. }
  destruct (Z.ltb_spec (Z.of_nat (Len b)) n) as [Hlt|Hle].
  - destruct (Z.ltb_spec (Z.of_nat (Len b)) 0); [lia|]. rewrite Nat2Z.id. split; [lia|].
    rewrite !(take_ge (Bytes b)), (drop_ge _ (Z.to_nat n)) by lia.
    destruct (Hfin (Len b) opRead) as [? Hr], (Hfin (Len b) opInvalid) as [? Hi]; [lia..|].
    rewrite drop_ge in Hr, Hi by lia. destruct (0 <? _)%Z; done.
  - destruct (Z.ltb_spec n 0); [auto|]. split; [done|].
    destruct (Hfin (Z.to_nat n) opRead), (Hfin (Z.to_nat n) opInvalid); [lia..|].
    destruct (0 <? n)%Z; done.
Qed.

Lemma Bytes_head b :
  buffer_ok b -> empty b = false ->
  Bytes b = nth (off b) (arr (buf b)) 0%Z :: Bytes (set_off (S (off b)) b).
Proof.
  intros [[Hl Hn] Ho] E. unfold empty in E. apply Nat.leb_gt in E. unfold Bytes, contents; simpl.
  unfold scap in Hl. destruct (lookup_lt_is_Some_2 (arr (buf b)) (off b)) as [x Hx]; [lia|].
  rewrite (nth_lookup_Some _ _ _ _ Hx).
  apply drop_S. rewrite lookup_take_lt by lia. done.
Qed.

Lemma ReadByte_spec b :
  buffer_ok b ->
  let '(c, e, b') := ReadByte b in
  buffer_ok b' /\
  match Bytes b with
  | [] => c = 0%Z /\ e = Some EOF /\ Bytes b' = []
  | x :: rest => c = x /\ e = None /\ Bytes b' = rest
  end.
Proof.
  intros Hb. unfold ReadByte. destruct (empty b) eqn:E.
  - destruct (buffer_ok_Reset b Hb). split; [done|]. unfold empty in E. apply Nat.leb_le in E.
    destruct Hb as [Hs Ho]. assert (HB : Bytes b = []); [|by rewrite HB].
    apply nil_length_inv. rewrite length_Bytes by (by split). unfold Len. lia.
  - rewrite (Bytes_head b Hb E). split; [|done]. unfold empty in E. apply Nat.leb_gt in E.
    destruct Hb as [Hs Ho]. split; simpl; [done|lia].
Qed.

Lemma IndexByte_Some d p i :
  IndexByte d p = Some i -> p !! i = Some d /\ (d ∉ take i p).
Proof.
  revert i. induction p as [|c p IH]; intros i H; simplify_eq/=.
  destruct (Z.eqb_spec c d) as [->|]; simplify_eq/=.
  - split; [done|]. apply not_elem_of_nil.
  - destruct (IndexByte d p) as [j|]; simplify_eq/=. destruct (IH j eq_refl). split; [done|].
    rewrite not_elem_of_cons. auto.
Qed.

Lemma IndexByte_None d p : IndexByte d p = None -> d ∉ p.
Proof.
  induction p as [|c p IH]; intros H; simplify_eq/=; [apply not_elem_of_nil|].
  destruct (Z.eqb_spec c d); simplify_eq/=. destruct (IndexByte d p); [done|].
  rewrite not_elem_of_cons. auto.
Qed.

Lemma readSlice_spec d b :
  buffer_ok b ->
  let '(line, e, b') := readSlice d b in
  buffer_ok b' /\ Bytes b = line ++ Bytes b' /\
  match e with
  | None => exists l, line = l ++ [d] /\ (d ∉ l)
  | Some e => e = EOF /\ (d ∉ Bytes b) /\ Bytes b' = []
  end.
Proof.
  intros Hb. pose proof Hb as [Hs Ho]. pose proof (length_Bytes b Hb) as HL. unfold readSlice.
  destruct (IndexByte d (Bytes b)) as [i|] eqn:E.
  - apply IndexByte_Some in E as [Hi Hni]. pose proof (lookup_lt_Some _ _ _ Hi).
    replace (off b + i + 1 - off b) with (S i) by lia.
    split; [split; simpl; [done|unfold Len in *; lia]|]. split.
    + rewrite <-(take_drop (S i) (Bytes b)) at 1. f_equal.
      transitivity (Bytes (set_off (off b + S i) b)); [by rewrite Bytes_set_off|].
      unfold Bytes; simpl. f_equal. lia.
    + exists (take i (Bytes b)). by rewrite (take_S_r _ _ _ Hi).
  - apply IndexByte_None in E. split; [split; simpl; [done|lia]|].
    assert (HB : Bytes (set_lastRead opRead (set_off (slen (buf b)) b)) = []).
    { unfold Bytes; simpl. apply drop_ge. rewrite length_contents by done. lia. }
    rewrite HB, app_nil_r, take_ge by (unfold Len in HL; lia). done.
Qed.

(** ** Moving bytes in bulk *)

(** A reader that keeps io.Reader's contract: it stores as many bytes as it
    counts, and never more than it was offered. *)
Definition conforming (r : reader) : Prop :=
  Forall (fun f => forall k, let '(m, data, _) := f k in
    (m <= Z.of_nat k)%Z /\ m = Z.of_nat (length data)) r.

(** What the first Reads of a reader stored, offered [ks] bytes of room. *)
Definition delivered (used : reader) (ks : list nat) : list Z :=
  concat (zip_with (fun (f : nat -> Z * list Z * option ioerr) k => (f k).1.2) used ks).

Section BulkFacts.
Context `{GoRuntime}.

Lemma grown_room b n m b1 :
  grown b n m b1 ->
  let b2 := set_buf (reslice m (buf b1)) b1 in
  buffer_ok b2 /\ Bytes b2 = Bytes b /\ n <= Available b2.
Proof.
  intros [Hlen [Hl Hn] Ho HB _ _] b2. unfold scap in Hl.
  split; [split; simpl; [split; simpl; [unfold scap; simpl; lia|done]|done]|].
  split; [done|]. unfold Available, scap; simpl. lia.
Qed.

Lemma commit_fill p b :
  buffer_ok b -> length p <= Available b ->
  let b2 := set_buf (reslice (slen (buf b) + length p) (buf (fill_available p b))) (fill_available p b) in
  buffer_ok b2 /\ Bytes b2 = Bytes b ++ p.
Proof.
  intros Hb Hp b2. pose proof (tryGrow_spec (length p) b Hb) as Ht.
  unfold tryGrowByReslice in Ht. unfold Available in Hp.
  rewrite (proj2 (Nat.leb_le _ _)) in Ht by lia. destruct Ht as [Hg _].
  pose proof (grown_fill _ _ _ _ p (slen (buf b) + length p) (snil (buf b)) Hg) as Hf.
  unfold b2, fill_available, set_buf, reslice in *; simpl in *.
  rewrite take_ge by (unfold Available; lia). apply Hf; [lia| |done].
  intros E. split; [done|]. destruct Hb as [[Hl Hn] _]. specialize (Hn E). unfold scap in *.
  rewrite Hn in *; simpl in *. apply nil_length_inv. lia.
Qed.

Lemma ReadFrom_loop_eq r n b :
  ReadFrom_loop r n b =
    ('(i, b) ← grow MinRead b;
     let b := set_buf (reslice i (buf b)) b in
     match r with
     | [] => Ret (n, None, [], b)
     | f :: r =>
         let '(m, data, e) := f (Available b) in
         let b := fill_available data b in
         if (m <? 0)%Z then Panic PanicNegativeRead
         else if (Z.of_nat (Available b) <? m)%Z then Panic PanicSliceBounds
         else
           let b := set_buf (reslice (i + Z.to_nat m) (buf b)) b in
           match e with
           | Some EOF => Ret ((n + m)%Z, None, r, b)
           | Some e => Ret ((n + m)%Z, Some e, r, b)
           | None => ReadFrom_loop r (n + m)%Z b
           end
     end).
Proof. by destruct r. Qed.

Lemma ReadFrom_loop_spec r n b :
  buffer_ok b -> conforming r ->
  match ReadFrom_loop r n b with
  | Ret (n', e, r', b') => exists used ks,
      r = used ++ r' /\ length ks = length used /\ Forall (fun k => MinRead <= k) ks /\
      buffer_ok b' /\ Bytes b' = Bytes b ++ delivered used ks /\
      n' = (n + Z.of_nat (length (delivered used ks)))%Z /\ e <> Some EOF
  | Panic e => e = PanicErrTooLarge
  end.
Proof.
  revert n b. induction r as [|f r IH]; intros n b Hb Hr; rewrite ReadFrom_loop_eq;
    cbv beta iota zeta delta [mbind outcome_bind].
  - pose proof (grow_spec MinRead b Hb) as Hg.
    destruct (grow MinRead b) as [[i b1]|e]; [|naive_solver].
    destruct (grown_room _ _ _ _ Hg) as (Hok & HB & Hroom).
    exists [], []. unfold delivered; simpl. rewrite app_nil_r. split_and!; try done. lia.
  - pose proof (grow_spec MinRead b Hb) as Hg.
    destruct (grow MinRead b) as [[i b1]|e]; [|naive_solver].
    destruct (grown_room _ _ _ _ Hg) as (Hok & HB & Hroom).
    set (b2 := set_buf _ b1) in *. inversion Hr as [|? ? Hf Hr']; subst.
    specialize (Hf (Available b2)). destruct (f (Available b2)) as [[m data] e] eqn:Ef.
    destruct Hf as [Hm ->]. destruct (Z.ltb_spec (Z.of_nat (length data)) 0); [lia|].
    assert (Hav : Available (fill_available data b2) = Available b2).
    { unfold Available, scap, fill_available; simpl. rewrite length_write_at; [done|].
      rewrite length_take. destruct Hok as [[Hl _] _]. unfold Available, scap in *. simpl in *. lia. }
    rewrite Hav. destruct (Z.ltb_spec (Z.of_nat (Available b2)) (Z.of_nat (length data))); [lia|].
    rewrite Nat2Z.id. destruct (commit_fill data b2 Hok) as [Hok3 HB3]; [lia|].
    set (b3 := set_buf _ (fill_available data b2)) in *.
    change (buffer_ok b3) in Hok3. change (Bytes b3 = Bytes b2 ++ data) in HB3. rewrite HB in HB3.
    assert (Hd : forall us ks, delivered (f :: us) (Available b2 :: ks) = data ++ delivered us ks)
      by (intros; unfold delivered; simpl; by rewrite Ef).
    destruct e as [[| |z]|].
    1-3: exists [f], [Available b2]; rewrite Hd; unfold delivered; simpl;
      rewrite app_nil_r; split_and!; auto.
    specialize (IH (n + Z.of_nat (length data))%Z b3 Hok3 Hr').
    destruct (ReadFrom_loop _ _ _) as [[[[n' e] r'] b']|]; [|done].
    destruct IH as (used & ks & -> & Hk & Hks & Hok' & HB' & -> & He).
    exists (f :: used), (Available b2 :: ks). rewrite Hd, length_app.
    split_and!; simpl; auto; [by rewrite HB', HB3, app_assoc|lia].
Qed.
End BulkFacts.

Lemma WriteTo_spec w b :
  buffer_ok b ->
  match WriteTo w b with
  | Ret (m, e, b') => buffer_ok b' /\ m <= Len b /\ Bytes b' = drop m (Bytes b) /\
      (0 < Len b -> m = (w (Bytes b)).1) /\ (e = None -> m = Len b) /\
      Cap b' = Cap b /\ poolKind b' = poolKind b
  | Panic e => e = PanicOutOfRange /\ Len b < (w (Bytes b)).1
  end.
Proof.
  intros Hb. pose proof Hb as [Hs Ho]. pose proof (length_Bytes b Hb) as HL. unfold WriteTo.
  change (Len (set_lastRead opInvalid b)) with (Len b).
  change (Bytes (set_lastRead opInvalid b)) with (Bytes b). cbv zeta.
  destruct (buffer_ok_Reset b Hb) as [Hr HrB].
  destruct (Nat.ltb_spec 0 (Len b)).
  - destruct (w (Bytes b)) as [m e] eqn:Ew. simpl. destruct (Nat.ltb_spec (Len b) m); [done|].
    assert (H1 : buffer_ok (set_off (off b + m) b)) by (apply buffer_ok_set_off; [done|unfold Len in *; lia]).
    destruct e as [e|]; [|destruct (Nat.eqb_spec m (Len b)) as [->|]].
    + split_and!; try done; [split; apply H1|exact (Bytes_set_off m b)].
    + split_and!; try done. by rewrite drop_ge by lia.
    + split_and!; try done; [split; apply H1|exact (Bytes_set_off m b)].
  - split_and!; try done; [lia| |lia|lia]. rewrite drop_0. symmetry. apply nil_length_inv. lia.
Qed.

(** ** The contract: a first-in first-out queue of bytes

    [spec] is what a caller relies on, with no slices, offsets or capacities;
    [None] is a call outside its documented range, which panics. *)

Inductive bop : Type :=
| BWrite (p : list Z) | BWriteByte (c : Z) | BGrow (n : Z) | BReset
| BRead (k : nat) | BNext (n : Z) | BReadByte | BReadBytes (d : Z)
| BDiscard (n : Z) | BTruncate (n : Z).

Inductive bres : Type :=
| RUnit | RCount (n : nat) | RByte (c : Z) (e : option ioerr) | RData (d : list Z) (e : option ioerr).

Fixpoint upto (d : Z) (q : list Z) : list Z * option (list Z) :=
  match q with
  | [] => ([], None)
  | c :: q => if (c =? d)%Z then ([c], Some q)
              else let '(l, r) := upto d q in (c :: l, r)
  end.

Definition spec (o : bop) (q : list Z) : option (bres * list Z) :=
  match o with
  | BWrite p => Some (RCount (length p), q ++ p)
  | BWriteByte c => Some (RUnit, q ++ [c])
  | BGrow n => if (n <? 0)%Z then None else Some (RUnit, q)
  | BReset => Some (RUnit, [])
  | BRead k =>
      Some (RData (take k q) (if bool_decide (q = []) && negb (k =? 0) then Some EOF else None), drop k q)
  | BNext n => if (n <? 0)%Z then None else Some (RData (take (Z.to_nat n) q) None, drop (Z.to_nat n) q)
  | BReadByte => match q with [] => Some (RByte 0 (Some EOF), []) | c :: q => Some (RByte c None, q) end
  | BReadBytes d =>
      match upto d q with
      | (l, Some rest) => Some (RData l None, rest)
      | (l, None) => Some (RData l (Some EOF), [])
      end
  | BDiscard n =>
      if (n <=? 0)%Z then Some (RUnit, [])
      else if (Z.of_nat (length q) <? n)%Z then None else Some (RUnit, drop (Z.to_nat n) q)
  | BTruncate n =>
      if ((n <? 0) || (Z.of_nat (length q) <? n))%Z then None else Some (RUnit, take (Z.to_nat n) q)
  end.

Lemma upto_found d l rest : d ∉ l -> upto d (l ++ d :: rest) = (l ++ [d], Some rest).
Proof.
  induction l as [|c l IH]; simpl; [by rewrite Z.eqb_refl|]. rewrite not_elem_of_cons. intros [Hne Hni].
  destruct (Z.eqb_spec c d); [congruence|]. by rewrite IH.
Qed.

Lemma upto_absent d q : d ∉ q -> upto d q = (q, None).
Proof.
  induction q as [|c q IH]; simpl; [done|]. rewrite not_elem_of_cons. intros [Hne Hni].
  destruct (Z.eqb_spec c d); [congruence|]. by rewrite IH.
Qed.

Section Refinement.
Context `{GoRuntime}.

Definition bstep (o : bop) (b : Buffer) : outcome (bres * Buffer) :=
  match o with
  | BWrite p => '(n, b) ← Write p b; Ret (RCount n, b)
  | BWriteByte c => b ← WriteByte c b; Ret (RUnit, b)
  | BGrow n => b ← Grow n b; Ret (RUnit, b)
  | BReset => Ret (RUnit, Reset b)
  | BRead k => let '(d, e, b) := Read k b in Ret (RData d e, b)
  | BNext n => '(d, b) ← Next n b; Ret (RData d None, b)
  | BReadByte => let '(c, e, b) := ReadByte b in Ret (RByte c e, b)
  | BReadBytes d => let '(l, e, b) := ReadBytes d b in Ret (RData l e, b)
  | BDiscard n => b ← Discard n b; Ret (RUnit, b)
  | BTruncate n => b ← Truncate n b; Ret (RUnit, b)
  end.

Fixpoint brun (ops : list bop) (b : Buffer) : outcome (list bres * Buffer) :=
  match ops with
  | [] => Ret ([], b)
  | o :: ops => '(r, b) ← bstep o b; '(rs, b) ← brun ops b; Ret (r :: rs, b)
  end.

Fixpoint spec_run (ops : list bop) (q : list Z) : option (list bres * list Z) :=
  match ops with
  | [] => Some ([], q)
  | o :: ops => '(r, q) ← spec o q; '(rs, q) ← spec_run ops q; Some (r :: rs, q)
  end.

(** One operation simulates one step of the queue. *)
Definition simulates {A} (m : outcome (A * Buffer)) (s : option (A * list Z)) : Prop :=
  match m with
  | Ret (r, b') => s = Some (r, Bytes b') /\ buffer_ok b'
  | Panic PanicErrTooLarge => True
  | Panic _ => s = None
  end.

Lemma bstep_simulates o b : buffer_ok b -> simulates (bstep o b) (spec o (Bytes b)).
Proof.
  intros Hb. pose proof (length_Bytes b Hb) as HL. destruct o as [p|c|n| |k|n| |d|n|n]; unfold bstep, spec, simulates.
  - pose proof (Write_spec p b Hb) as HS. destruct (Write p b) as [[m b']|]; simpl; [naive_solver congruence|].
    by destruct HS as [-> _].
  - pose proof (WriteByte_spec c b Hb) as HS. destruct (WriteByte c b); simpl; [naive_solver congruence|].
    by destruct HS as [-> _].
  - pose proof (Grow_spec n b Hb) as HS. destruct (Grow n b); simpl.
    + destruct HS as (? & ? & -> & _). by destruct (Z.ltb_spec n 0); [lia|].
    + destruct HS as [[-> ?]| ->]; [|done]. by destruct (Z.ltb_spec n 0); [|lia].
  - by destruct (buffer_ok_Reset b Hb) as [? ->].
  - pose proof (Read_spec k b Hb) as HS. destruct (Read k b) as [[d e] b'].
    destruct HS as (? & -> & -> & -> & _). split; [|done]. do 3 f_equal.
    unfold empty. replace (slen (buf b) <=? off b) with (bool_decide (Bytes b = [])); [done|].
    apply eq_bool_prop_intro. rewrite bool_decide_spec, Is_true_true, Nat.leb_le.
    rewrite <-length_zero_iff_nil, HL. unfold Len. lia.
  - pose proof (Next_spec n b Hb) as HS. destruct (Next n b) as [[d b']|]; simpl.
    + destruct HS as (? & ? & -> & ->). by destruct (Z.ltb_spec n 0); [lia|].
    + destruct HS as [-> ?]. by destruct (Z.ltb_spec n 0); [|lia].
  - pose proof (ReadByte_spec b Hb) as HS. destruct (ReadByte b) as [[c e] b'].
    destruct HS as [? HS]. destruct (Bytes b); naive_solver congruence.
  - pose proof (readSlice_spec d b Hb) as HS. unfold ReadBytes. destruct (readSlice d b) as [[l e] b'].
    destruct HS as (Hok & -> & He). split; [|done]. destruct e as [e|].
    + destruct He as (-> & Hni & E). rewrite E, app_nil_r in *. by rewrite upto_absent.
    + destruct He as (l' & -> & Hni). rewrite <-app_assoc. simpl. by rewrite upto_found.
  - pose proof (Discard_spec n b Hb) as HS. rewrite HL. destruct (Discard n b); simpl.
    + destruct HS as (? & -> & _ & _ & ?). destruct (n <=? 0)%Z; [done|].
      by destruct (Z.ltb_spec (Z.of_nat (Len b)) n); [lia|].
    + destruct HS as (-> & ? & ?). destruct (Z.leb_spec n 0); [lia|].
      by destruct (Z.ltb_spec (Z.of_nat (Len b)) n); [|lia].
  - pose proof (Truncate_spec n b Hb) as HS. rewrite HL. destruct (Truncate n b); simpl.
    + destruct HS as (? & ? & ->). destruct (Z.ltb_spec n 0); [lia|]. simpl.
      by destruct (Z.ltb_spec (Z.of_nat (Len b)) n); [lia|].
    + destruct HS as (-> & ?). destruct (Z.ltb_spec n 0); [done|]. simpl.
      by destruct (Z.ltb_spec (Z.of_nat (Len b)) n); [|lia].
Qed.


End Refinement.

(** A runtime for concrete runs: append rounds nothing, memory is 4096 bytes. *)
Definition tiny_runtime : GoRuntime :=
  {| append_cap := fun c => c; append_cap_ge := Nat.le_refl; alloc_max := 4096 |}.

Definition zero_buffer : Buffer := NewBuffer (MkSlice [] 0 true).

Lemma zero_buffer_ok : buffer_ok zero_buffer.
Proof. repeat split; simpl; lia. Qed.


Example buffer_run_example :
  (fst <$> @brun tiny_runtime [BWrite [1; 2; 3]%Z; BReadByte; BRead 5; BRead 5] zero_buffer) =
  Ret [RCount 3; RByte 1 None; RData [2; 3]%Z None; RData [] (Some EOF)].
Proof. reflexivity. Qed.

(** ** Runes *)

Lemma ReadRune_spec b r rest :
  buffer_ok b -> Bytes b = encode_rune r ++ rest -> valid_rune r = true ->
  exists b', ReadRune b = (r, length (encode_rune r), None, b') /\ buffer_ok b' /\ Bytes b' = rest /\
    lastRead b' = Z.of_nat (length (encode_rune r)) /\ off b' = off b + length (encode_rune r) /\
    buf b' = buf b.
Proof.
  intros Hb HB Hv. pose proof Hb as [Hs Ho]. pose proof (encode_rune_length r) as Hlen.
  pose proof (length_Bytes b Hb) as HL. rewrite HB, length_app in HL.
  pose proof (decode_encode_rune r rest Hv) as Hd. rewrite <-HB in Hd.
  assert (E : empty b = false) by (unfold empty, Len in *; apply Nat.leb_gt; lia).
  unfold ReadRune. rewrite E.
  assert (Hfin : forall op, buffer_ok (set_lastRead op (set_off (off b + length (encode_rune r)) b)) /\
    Bytes (set_lastRead op (set_off (off b + length (encode_rune r)) b)) = rest).
  { intros op. split; [split; simpl; [done|unfold Len in *; lia]|].
    transitivity (drop (length (encode_rune r)) (Bytes b)); [exact (Bytes_set_off _ b)|].
    rewrite HB. by rewrite drop_app_length. }
  destruct (Z.ltb_spec (nth (off b) (arr (buf b)) 0%Z) RuneSelf) as [Hc|Hc].
  - rewrite (Bytes_head b Hb E) in Hd. cbn [decode_rune] in Hd. unfold RuneSelf in Hc.
    rewrite (proj2 (Z.ltb_lt _ _) Hc) in Hd. injection Hd as -> Hn.
    rewrite <-Hn in *. eexists. split; [done|]. rewrite Nat.add_1_r in Hfin.
    destruct (Hfin opReadRune1). split_and!; try done. simpl. lia.
  - rewrite Hd. eexists. split; [done|]. destruct (Hfin (Z.of_nat (length (encode_rune r)))).
    split_and!; done.
Qed.

(** C39. A rune written is the rune read: WriteRune of a valid rune on a buffer
    with nothing unread, then ReadRune, returns that rune with its encoded size,
    and UnreadRune after it makes exactly its bytes unread again. *)
Theorem rune_write_read_unread `{GoRuntime} r b :
  buffer_ok b -> Bytes b = [] -> valid_rune r = true ->
  match WriteRune r b with
  | Ret (n, b1) => exists b2 b3,
      n = length (encode_rune r) /\ ReadRune b1 = (r, n, None, b2) /\ Bytes b2 = [] /\
      UnreadRune b2 = (None, b3) /\ Bytes b3 = encode_rune r
  | Panic p => p = PanicErrTooLarge
  end.
Proof.
  intros Hb HB Hv. pose proof (valid_rune_range r Hv) as Hr.
  pose proof (WriteRune_spec r b Hb ltac:(lia)) as Hw. destruct (WriteRune r b) as [[n b1]|]; [|done].
  destruct Hw as (-> & Hb1 & HB1 & _). rewrite HB in HB1. simpl in HB1.
  destruct (ReadRune_spec b1 r [] Hb1) as (b2 & -> & Hb2 & HB2 & HL & HO & Hbuf); [by rewrite app_nil_r|done|].
  pose proof (encode_rune_length r) as Hlen.
  exists b2. eexists. split; [done|]. split; [done|]. split; [done|]. unfold UnreadRune.
  rewrite HL. unfold opInvalid. rewrite (proj2 (Z.leb_gt _ _)) by lia.
  rewrite (proj2 (Z.leb_le _ _)) by lia. split; [done|]. transitivity (Bytes b1); [|done].
  unfold Bytes; simpl. rewrite Hbuf, HO, Nat2Z.id. f_equal. lia.
Qed.

Lemma rune_write_read_unread_witness :
  match @WriteRune tiny_runtime 8364 zero_buffer with
  | Ret (n, b1) => exists b2 b3,
      n = length (encode_rune 8364) /\ ReadRune b1 = (8364%Z, n, None, b2) /\ Bytes b2 = [] /\
      UnreadRune b2 = (None, b3) /\ Bytes b3 = encode_rune 8364
  | Panic p => p = PanicErrTooLarge
  end.
Proof. apply (@rune_write_read_unread tiny_runtime 8364 zero_buffer zero_buffer_ok); reflexivity. Defined.

(** ReadFrom reads a conforming reader up to its end or first error: the
    unread bytes gain exactly what its Reads stored, in order, the count is
    their number, an EOF is not reported, and every Read was offered at least
    MinRead bytes. *)
Theorem readfrom_collects `{GoRuntime} r b :
  buffer_ok b -> conforming r ->
  match ReadFrom r b with
  | Ret (n, e, r', b') => exists used ks,
      r = used ++ r' /\ length ks = length used /\ Forall (fun k => MinRead <= k) ks /\
      buffer_ok b' /\ Bytes b' = Bytes b ++ delivered used ks /\
      n = Z.of_nat (length (delivered used ks)) /\ e <> Some EOF
  | Panic e => e = PanicErrTooLarge
  end.
Proof.
  intros Hb Hr. unfold ReadFrom.
  exact (ReadFrom_loop_spec r 0 (set_lastRead opInvalid b) (buffer_ok_set_lastRead _ _ Hb) Hr).
Qed.

(** A reader that hands over [p] in one Read when it fits, then ends. *)
Definition one_shot (p : list Z) : reader :=
  [fun k => if length p <=? k then (Z.of_nat (length p), p, None) else (0%Z, [], Some (ErrOther 1))].

Lemma one_shot_conforming p : conforming (one_shot p).
Proof.
  apply Forall_singleton. intros k. destruct (Nat.leb_spec (length p) k); simpl; lia.
Qed.


