(* ===== verification/BufPool.v ===== *)
(** * internal/bytebuf/pool.go: where blocks come from and go back to

    [BlockStore] is the interface the segmented buffer is written against:
    a store of blocks with the three functions of pool.go it calls and what
    they promise.  [Pools] is the implementation: the two size-classed pools of
    the package, threaded with the choices the runtime makes (the P a caller
    runs on and what a sync.Pool returns). *)

From S2P Require Import Prelude.
From S2P Require Import Buffer.
From S2P Require Pool.

(** An empty block ready to be written from its start. *)
Definition fresh_block (b : Buffer) : Prop :=
  buffer_ok b /\ slen (buf b) = 0 /\ off b = 0.

Class BlockStore : Type := {
  store : Type;
  store_ok : store -> Prop;
  getBuffer : nat -> store -> outcome (Buffer * store);
  getBlock : nat -> store -> outcome (Buffer * store);
  putBuffer : Buffer -> store -> outcome store;
  getBuffer_law n s : store_ok s ->
    exists b s', getBuffer n s = Ret (b, s') /\ store_ok s' /\ fresh_block b /\ n <= Cap b;
  getBlock_law n s : store_ok s ->
    exists b s', getBlock n s = Ret (b, s') /\ store_ok s' /\ fresh_block b /\ n <= Cap b;
  putBuffer_law b s : store_ok s -> buffer_ok b ->
    exists s', putBuffer b s = Ret s' /\ store_ok s'
}.

(** ** The package's pools *)

Definition maxCopiedBlock : Z := Z.shiftl 64 10.

Record Pools : Type := MkPools {
  bufferPool : Pool.Pool Buffer;
  largeOwnedBufferPool : Pool.Pool Buffer;
  choice : nat -> nat * nat;     (* per call: the caller's P, a sync.Pool's pick *)
  clock : nat
}.

Definition pick_of (s : Pools) : nat * nat := choice s (clock s).

Definition set_pool (kind : bufferPoolKind) (p : Pool.Pool Buffer) (s : Pools) : Pools :=
  match kind with
  | defaultBufferPool => MkPools p (largeOwnedBufferPool s) (choice s) (S (clock s))
  | ownedBufferPool => MkPools (bufferPool s) p (choice s) (S (clock s))
  end.

Definition pool_of (kind : bufferPoolKind) (s : Pools) : Pool.Pool Buffer :=
  match kind with
  | defaultBufferPool => bufferPool s
  | ownedBufferPool => largeOwnedBufferPool s
  end.

Definition set_kind (kind : bufferPoolKind) (b : Buffer) : Buffer :=
  MkBuffer (buf b) (off b) (lastRead b) kind.

(** [make([]byte, 0, n)] *)
Definition make_bytes (n : nat) : slice := MkSlice (replicate n 0%Z) 0 false.

Definition getBufferFrom (kind : bufferPoolKind) (capacity : nat) (s : Pools) : outcome (Buffer * Pools) :=
  let '(pid, pick) := pick_of s in
  '(buffer, n, p) ← Pool.Get pid pick (Z.of_nat capacity) (pool_of kind s);
  let s := set_pool kind p s in
  match buffer with
  | Some buffer => Ret (set_kind kind buffer, s)
  | None => Ret (set_kind kind (NewBuffer (make_bytes (Z.to_nat n))), s)
  end.

Definition pools_getBuffer (capacity : nat) (s : Pools) : outcome (Buffer * Pools) :=
  getBufferFrom defaultBufferPool capacity s.

Definition pools_getBlock (capacity : nat) (s : Pools) : outcome (Buffer * Pools) :=
  if (maxCopiedBlock <? Z.of_nat capacity)%Z then getBufferFrom ownedBufferPool capacity s
  else pools_getBuffer capacity s.

Definition AcquireBuffer (capacity : nat) (s : Pools) : outcome (Buffer * Pools) :=
  getBufferFrom ownedBufferPool capacity s.

Definition pools_putBuffer (buffer : Buffer) (s : Pools) : outcome Pools :=
  let kind := poolKind buffer in
  let buffer := Reset buffer in
  let pid := (pick_of s).1 in
  p ← Pool.Put pid buffer (Z.of_nat (Cap buffer)) (pool_of kind s);
  Ret (set_pool kind p s).

Definition ReleaseBuffer (buffer : option Buffer) (s : Pools) : outcome Pools :=
  match buffer with Some b => pools_putBuffer b s | None => Ret s end.

Definition cap_size (b : Buffer) : Z := Z.of_nat (Cap b).

Definition pools_ok (s : Pools) : Prop :=
  forall kind, Pool.pool_ok cap_size fresh_block (pool_of kind s).

Lemma pools_ok_set kind p s :
  pools_ok s -> Pool.pool_ok cap_size fresh_block p -> pools_ok (set_pool kind p s).
Proof. intros Hs Hp [|]; destruct kind; simpl; auto; [apply (Hs defaultBufferPool)|apply (Hs ownedBufferPool)]. Qed.

Lemma fresh_make n kind : fresh_block (set_kind kind (NewBuffer (make_bytes n))).
Proof. split; [|done]. split; simpl; [split; simpl; [lia|done]|lia]. Qed.

Lemma fresh_set_kind kind b : fresh_block b -> fresh_block (set_kind kind b).
Proof. by intros [[] ?]. Qed.

Lemma fresh_Reset b : buffer_ok b -> fresh_block (Reset b).
Proof. intros Hb. by destruct (buffer_ok_Reset b Hb). Qed.

Lemma getBufferFrom_spec kind n s :
  pools_ok s ->
  exists b s', getBufferFrom kind n s = Ret (b, s') /\ pools_ok s' /\ fresh_block b /\
    n <= Cap b /\ poolKind b = kind.
Proof.
  intros Hs. unfold getBufferFrom. destruct (pick_of s) as [pid pick].
  destruct (Pool.Get_spec cap_size fresh_block pid pick (Z.of_nat n) (pool_of kind s) (Hs kind))
    as (v & k & p & -> & Hk & Hp & _ & _ & Hv). simpl.
  destruct v as [b|]; eexists _, _; (split; [done|]); (split; [by apply pools_ok_set|]).
  - destruct (Hv b eq_refl) as [Hc Hf]. unfold cap_size in Hc.
    split; [by apply fresh_set_kind|]. split; [|done]. unfold Cap in *; simpl. lia.
  - split; [apply fresh_make|]. split; [|done]. unfold Cap, scap; simpl. rewrite length_replicate. lia.
Qed.

Lemma pools_putBuffer_spec b s :
  pools_ok s -> buffer_ok b -> exists s', pools_putBuffer b s = Ret s' /\ pools_ok s'.
Proof.
  intros Hs Hb. unfold pools_putBuffer.
  destruct (Pool.Put_spec cap_size fresh_block (pick_of s).1 (Reset b) (pool_of (poolKind b) s)
    (Hs (poolKind b)) (fresh_Reset b Hb)) as (p & Hp & Hok & _).
  unfold cap_size in Hp. rewrite Hp. simpl. eexists. split; [done|]. by apply pools_ok_set.
Qed.

Lemma pools_getBuffer_law n s :
  pools_ok s -> exists b s', pools_getBuffer n s = Ret (b, s') /\ pools_ok s' /\ fresh_block b /\ n <= Cap b.
Proof.
  intros Hs. destruct (getBufferFrom_spec defaultBufferPool n s Hs) as (b & s' & ? & ? & ? & ? & _).
  by exists b, s'.
Qed.

Lemma pools_getBlock_law n s :
  pools_ok s -> exists b s', pools_getBlock n s = Ret (b, s') /\ pools_ok s' /\ fresh_block b /\ n <= Cap b.
Proof.
  intros Hs. unfold pools_getBlock. destruct (maxCopiedBlock <? Z.of_nat n)%Z; [|by apply pools_getBuffer_law].
  destruct (getBufferFrom_spec ownedBufferPool n s Hs) as (b & s' & ? & ? & ? & ? & _).
  by exists b, s'.
Qed.

#[export] Instance pools_store : BlockStore := {
  store := Pools;
  store_ok := pools_ok;
  getBuffer := pools_getBuffer;
  getBlock := pools_getBlock;
  putBuffer := pools_putBuffer;
  getBuffer_law := pools_getBuffer_law;
  getBlock_law := pools_getBlock_law;
  putBuffer_law := pools_putBuffer_spec
}.

(** The package's two pools, as its variables are initialised. *)
Definition init_pools (nslots : nat) (choice : nat -> nat * nat) : outcome Pools :=
  p ← Pool.New nslots maxCopiedBlock;
  q ← Pool.New nslots (Z.shiftl 16 20);
  Ret (MkPools p q choice 0).

Lemma init_pools_spec nslots choice : exists s, init_pools nslots choice = Ret s /\ pools_ok s.
Proof.
  unfold init_pools.
  destruct (Pool.New_spec cap_size fresh_block nslots maxCopiedBlock) as (p & -> & Hp & _); [by vm_compute|].
  destruct (Pool.New_spec cap_size fresh_block nslots (Z.shiftl 16 20)) as (q & -> & Hq & _); [by vm_compute|].
  simpl. eexists. split; [done|]. by intros [|].
Qed.

(** ** Copies of caller's bytes *)

Section Clone.
Context `{GoRuntime} `{BlockStore}.

Definition CloneBuffer (p : list Z) (s : store) : outcome (Buffer * store) :=
  '(buffer, s) ← getBuffer (length p) s;
  '(_, buffer) ← Write p buffer;
  Ret (buffer, s).

Fixpoint write_segments (vec : list (list Z)) (buffer : Buffer) : outcome Buffer :=
  match vec with
  | [] => Ret buffer
  | segment :: vec => '(_, buffer) ← Write segment buffer; write_segments vec buffer
  end.

Definition CloneBuffers (vec : list (list Z)) (size : nat) (s : store) : outcome (Buffer * store) :=
  '(buffer, s) ← getBuffer size s;
  buffer ← write_segments vec buffer;
  Ret (buffer, s).

Fixpoint write_segments_from (vec : list (list Z)) (skip : nat) (buffer : Buffer) : outcome Buffer :=
  match vec with
  | [] => Ret buffer
  | segment :: vec =>
      if length segment <=? skip then write_segments_from vec (skip - length segment) buffer
      else '(_, buffer) ← Write (drop skip segment) buffer; write_segments_from vec 0 buffer
  end.

Definition CloneBuffersFrom (vec : list (list Z)) (skip size : nat) (s : store) : outcome (Buffer * store) :=
  '(buffer, s) ← getBuffer size s;
  buffer ← write_segments_from vec skip buffer;
  Ret (buffer, s).

(** A fresh block takes a write that fits without moving. *)
Lemma fresh_Write p b :
  fresh_block b -> length p <= Cap b ->
  exists b', Write p b = Ret (length p, b') /\ buffer_ok b' /\ Bytes b' = p /\ Cap b' = Cap b /\
    Available b' = Cap b - length p.
Proof.
  intros (Hb & Hl & Ho) Hp. destruct (Write_fits p b Hb) as (b' & ? & ? & HB & HC & HA & _).
  { unfold Available, Cap in *. lia. }
  exists b'. split_and!; auto; [|rewrite HA; unfold Available, Cap; lia].
  rewrite HB. unfold Bytes, contents. by rewrite Hl, take_0, drop_nil.
Qed.

Lemma write_segments_from_spec vec skip b :
  buffer_ok b -> length (drop skip (concat vec)) <= Available b ->
  exists b', write_segments_from vec skip b = Ret b' /\ buffer_ok b' /\
    Bytes b' = Bytes b ++ drop skip (concat vec).
Proof.
  revert skip b. induction vec as [|seg vec IH]; intros skip b Hb Hl; simpl in *.
  { exists b. by rewrite drop_nil, app_nil_r. }
  destruct (Nat.leb_spec (length seg) skip).
  - rewrite drop_app_ge in * by lia. apply IH; done.
  - rewrite drop_app_le, length_app in * by lia.
    destruct (Write_fits (drop skip seg) b Hb) as (b1 & -> & Hb1 & HB1 & _ & HA1 & _); [lia|].
    simpl. destruct (IH 0 b1 Hb1) as (b' & -> & ? & HB'); [rewrite drop_0, HA1; lia|].
    exists b'. split_and!; auto. by rewrite HB', HB1, drop_0, <-app_assoc.
Qed.

Lemma write_segments_spec vec b :
  buffer_ok b -> length (concat vec) <= Available b ->
  exists b', write_segments vec b = Ret b' /\ buffer_ok b' /\ Bytes b' = Bytes b ++ concat vec /\
    Available b' = Available b - length (concat vec) /\ Cap b' = Cap b.
Proof.
  revert b. induction vec as [|seg vec IH]; intros b Hb Hl; simpl in *.
  { exists b. rewrite app_nil_r. split_and!; auto. lia. }
  rewrite length_app in *.
  destruct (Write_fits seg b Hb) as (b1 & -> & Hb1 & HB1 & HC1 & HA1 & _); [lia|].
  simpl. destruct (IH b1 Hb1) as (b' & -> & ? & HB' & ? & ?); [rewrite HA1; lia|].
  exists b'. split_and!; auto; [by rewrite HB', HB1, <-app_assoc|lia|lia].
Qed.

(** The copies hold exactly what they were asked to copy. *)
Lemma CloneBuffersFrom_spec vec skip size s :
  store_ok s -> length (concat vec) <= skip + size ->
  exists b s', CloneBuffersFrom vec skip size s = Ret (b, s') /\ store_ok s' /\ buffer_ok b /\
    Bytes b = drop skip (concat vec).
Proof.
  intros Hs Hl. unfold CloneBuffersFrom.
  destruct (getBuffer_law size s Hs) as (b & s' & -> & Hs' & (Hb & Hb0 & Ho) & Hc). simpl.
  destruct (write_segments_from_spec vec skip b Hb) as (b' & -> & ? & HB).
  { rewrite length_drop. unfold Available, Cap in *. lia. }
  exists b', s'. split_and!; auto. rewrite HB. unfold Bytes, contents. by rewrite Hb0, take_0, drop_nil.
Qed.
End Clone.
