(* ===== verification/Composite.v ===== *)
(** * internal/bytebuf/composite_buffer.go: the segmented buffer

    [CompositeBuffer] keeps its payload in separately pooled blocks and a count
    of the unread bytes.  Its operations are written against the [BlockStore]
    interface of BufPool.v; the state of the store is threaded through every
    operation that takes or releases a block.  [cbytes] is the abstraction: the
    unread bytes of all blocks, in order. *)

From S2P Require Import Prelude.
From S2P Require Import Buffer BufPool.

Record CompositeBuffer : Type := MkComposite {
  bufList : list Buffer;
  c_length : Z
}.

Definition NewCompositeBuffer : CompositeBuffer := MkComposite [] 0.

Definition Empty (b : CompositeBuffer) : bool := (c_length b =? 0)%Z.
Definition CLen (b : CompositeBuffer) : Z := c_length b.
Definition Blocks (b : CompositeBuffer) : nat := length (bufList b).
Definition CCap (b : CompositeBuffer) : nat := sum_list_with Cap (bufList b).
Definition CAvailable (b : CompositeBuffer) : nat := sum_list_with Available (bufList b).

(** The last element of a non-empty list replaced. *)
Definition set_last {A} (x : A) (l : list A) : list A := take (length l - 1) l ++ [x].

(** [last.buf = append(last.buf, p...)] for [p] within the capacity. *)
Definition append_within (p : list Z) (b : Buffer) : Buffer :=
  set_buf (MkSlice (write_at (slen (buf b)) p (arr (buf b))) (slen (buf b) + length p) (snil (buf b))) b.

Section Composite.
Context `{GoRuntime} `{BlockStore}.

Fixpoint put_all (l : list Buffer) (s : store) : outcome store :=
  match l with
  | [] => Ret s
  | b :: l => s ← putBuffer b s; put_all l s
  end.

(** removeRange releases the first [endIdx] blocks and drops them. *)
Definition removeRange (endIdx : nat) (b : CompositeBuffer) (s : store) : outcome (CompositeBuffer * store) :=
  s ← put_all (take endIdx (bufList b)) s;
  Ret (MkComposite (drop endIdx (bufList b)) (c_length b), s).

Definition CReset (b : CompositeBuffer) (s : store) : outcome (CompositeBuffer * store) :=
  '(b, s) ← removeRange (length (bufList b)) b s;
  Ret (MkComposite (bufList b) 0, s).

Definition Close (b : CompositeBuffer) (s : store) : outcome (CompositeBuffer * store) := CReset b s.

(** The first half of Write: as much of [p] as the last block has room for. *)
Definition write_tail (p : list Z) (l : list Buffer) : outcome (list Buffer * nat) :=
  match last l with
  | Some lst =>
      let space := Available lst in
      if 0 <? space then
        let wn := Nat.min space (length p) in
        '(_, lst) ← Buffer.Write (take wn p) lst;
        Ret (set_last lst l, wn)
      else Ret (l, 0)
  | None => Ret (l, 0)
  end.

Definition CWrite (p : list Z) (b : CompositeBuffer) (s : store) : outcome (nat * CompositeBuffer * store) :=
  if length p =? 0 then Ret (0, b, s)
  else
    '(l, n) ← write_tail p (bufList b);
    let p := drop n p in
    let sz := length p in
    if 0 <? sz then
      '(buffer, s) ← getBuffer sz s;
      '(wn, buffer) ← Buffer.Write p buffer;
      let n := n + wn in
      Ret (n, MkComposite (l ++ [buffer]) (c_length b + Z.of_nat n), s)
    else Ret (n, MkComposite l (c_length b + Z.of_nat n), s).

Definition CWriteString (p : list Z) (b : CompositeBuffer) (s : store) : outcome (nat * CompositeBuffer * store) :=
  CWrite p b s.

Definition CWriteByte (c : Z) (b : CompositeBuffer) (s : store) : outcome (CompositeBuffer * store) :=
  '(_, b, s) ← CWrite [c] b s; Ret (b, s).

Fixpoint Writev_loop (vec : list (list Z)) (n : nat) (b : CompositeBuffer) (s : store) : outcome (nat * CompositeBuffer * store) :=
  match vec with
  | [] => Ret (n, b, s)
  | p :: vec => '(sent, b, s) ← CWrite p b s; Writev_loop vec (n + sent) b s
  end.

Definition Writev (vec : list (list Z)) (b : CompositeBuffer) (s : store) : outcome (nat * CompositeBuffer * store) :=
  Writev_loop vec 0 b s.

(** Gather: the part of [tail] not taken, and the buffer. *)
Definition Gather (n : Z) (tail : list Z) (b : CompositeBuffer) (s : store) : outcome (list Z * CompositeBuffer * store) :=
  let take_ := Z.to_nat (Z.min (Z.of_nat (length tail)) (Z.max (n - c_length b) 0)) in
  let head := take take_ tail in
  let rest := drop take_ tail in
  let total := (c_length b + Z.of_nat take_)%Z in
  let size := Z.max n total in
  let fresh :=
    '(block, s) ← getBlock (Z.to_nat size) s;
    block ← write_segments (Bytes <$> bufList b) block;
    '(_, block) ← Buffer.Write head block;
    '(b, s) ← removeRange (length (bufList b)) b s;
    Ret (rest, MkComposite (bufList b ++ [block]) total, s) in
  match bufList b with
  | [first] =>
      if (size <=? Z.of_nat (Len first + Available first))%Z then
        '(_, first) ← Buffer.Write head first;
        Ret (rest, MkComposite [first] total, s)
      else fresh
  | _ => fresh
  end.

Definition AppendOwned (buffer : option Buffer) (b : CompositeBuffer) (s : store) : outcome (CompositeBuffer * store) :=
  match buffer with
  | None => Ret (b, s)
  | Some buffer =>
      if Len buffer =? 0 then s ← putBuffer buffer s; Ret (b, s)
      else Ret (MkComposite (bufList b ++ [buffer]) (c_length b + Z.of_nat (Len buffer)), s)
  end.

Definition PrependOwned (buffer : option Buffer) (b : CompositeBuffer) (s : store) : outcome (CompositeBuffer * store) :=
  match buffer with
  | None => Ret (b, s)
  | Some buffer =>
      if Len buffer =? 0 then s ← putBuffer buffer s; Ret (b, s)
      else Ret (MkComposite (buffer :: bufList b) (c_length b + Z.of_nat (Len buffer)), s)
  end.

Definition AppendOwnedCoalesced (buffer : option Buffer) (targetCapacity : Z) (b : CompositeBuffer) (s : store) : outcome (CompositeBuffer * store) :=
  match buffer with
  | None => Ret (b, s)
  | Some buffer =>
      let size := Len buffer in
      let start_block :=
        if (targetCapacity <=? Z.of_nat size)%Z then AppendOwned (Some buffer) b s
        else
          '(coalesced, s) ← getBuffer (Z.to_nat targetCapacity) s;
          '(_, coalesced) ← Buffer.Write (Bytes buffer) coalesced;
          s ← putBuffer buffer s;
          Ret (MkComposite (bufList b ++ [coalesced]) (c_length b + Z.of_nat size), s) in
      if size =? 0 then s ← putBuffer buffer s; Ret (b, s)
      else
        match last (bufList b) with
        | Some lst =>
            if size <=? Available lst then
              '(_, lst) ← Buffer.Write (Bytes buffer) lst;
              s ← putBuffer buffer s;
              Ret (MkComposite (set_last lst (bufList b)) (c_length b + Z.of_nat size), s)
            else start_block
        | None => start_block
        end
  end.

(** The size of a new block: exact for an empty list, at least [blockSize] after. *)
Definition block_size (l : list Buffer) (size : nat) (blockSize : Z) : nat :=
  if (0 <? length l) && (Z.of_nat size <? blockSize)%Z then Z.to_nat blockSize else size.

(** Reserve returns where the reserved bytes are: the last [n] of the tail block. *)
Definition Reserve (n : Z) (blockSize : Z) (b : CompositeBuffer) (s : store) : outcome (nat * CompositeBuffer * store) :=
  if (n <=? 0)%Z then Ret (0, b, s)
  else
    let k := Z.to_nat n in
    let start_block :=
      '(block, s) ← getBlock (block_size (bufList b) k blockSize) s;
      let block := set_buf (reslice k (buf block)) block in
      Ret (k, MkComposite (bufList b ++ [block]) (c_length b + n), s) in
    match last (bufList b) with
    | Some lst =>
        let start := slen (buf lst) in
        if k <=? scap (buf lst) - start then
          let lst := set_buf (reslice (start + k) (buf lst)) lst in
          Ret (k, MkComposite (set_last lst (bufList b)) (c_length b + n), s)
        else start_block
    | None => start_block
    end.

(** What a caller of Reserve does with the slice it got. *)
Definition fill_reserved (data : list Z) (b : CompositeBuffer) : CompositeBuffer :=
  match last (bufList b) with
  | Some lst =>
      let at_ := slen (buf lst) - length data in
      let lst := set_buf (MkSlice (write_at at_ data (arr (buf lst))) (slen (buf lst)) (snil (buf lst))) lst in
      MkComposite (set_last lst (bufList b)) (c_length b)
  | None => b
  end.

(** The blocks with room at the tail: a new one when there is none or it is full. *)
Definition tail_with_room (remaining : nat) (blockSize : Z) (l : list Buffer) (s : store) : outcome (list Buffer * store) :=
  let full := match last l with Some lst => slen (buf lst) =? scap (buf lst) | None => true end in
  if full then '(block, s) ← getBlock (block_size l remaining blockSize) s; Ret (l ++ [block], s)
  else Ret (l, s).

(** The inner loop of WritevCoalesced, which is also WriteCoalesced's: [fuel]
    bounds the rounds, [remaining] is the source's. *)
Fixpoint coalesce (fuel : nat) (p : list Z) (remaining : nat) (blockSize : Z) (l : list Buffer) (s : store) : outcome (list Buffer * nat * store) :=
  match p with
  | [] => Ret (l, remaining, s)
  | _ =>
      match fuel with
      | O => Panic FuelExhausted
      | S fuel =>
          '(l, s) ← tail_with_room remaining blockSize l s;
          match last l with
          | Some lst =>
              let n := Nat.min (scap (buf lst) - slen (buf lst)) (length p) in
              coalesce fuel (drop n p) (remaining - n) blockSize
                (set_last (append_within (take n p) lst) l) s
          | None => Panic PanicNil
          end
      end
  end.

Fixpoint coalesce_vec (vec : list (list Z)) (remaining : nat) (blockSize : Z) (l : list Buffer) (s : store) : outcome (list Buffer * nat * store) :=
  match vec with
  | [] => Ret (l, remaining, s)
  | segment :: vec =>
      '(l, remaining, s) ← coalesce (length segment) segment remaining blockSize l s;
      coalesce_vec vec remaining blockSize l s
  end.

Definition WritevCoalesced (vec : list (list Z)) (blockSize : Z) (b : CompositeBuffer) (s : store) : outcome (nat * CompositeBuffer * store) :=
  let total := sum_list_with length vec in
  if total =? 0 then Ret (0, b, s)
  else
    '(l, _, s) ← coalesce_vec vec total blockSize (bufList b) s;
    Ret (total, MkComposite l (c_length b + Z.of_nat total), s).

Definition WriteCoalesced (p : list Z) (blockSize : Z) (b : CompositeBuffer) (s : store) : outcome (nat * CompositeBuffer * store) :=
  let total := length p in
  if total =? 0 then Ret (0, b, s)
  else
    '(l, _, s) ← coalesce (length p) p total blockSize (bufList b) s;
    Ret (total, MkComposite l (c_length b + Z.of_nat total), s).

(** ReadFrom: the tail block's room first, then a new block to the reader's end. *)
Definition ReadFrom_block (n : Z) (r : reader) (b : CompositeBuffer) (s : store) : outcome (Z * option ioerr * CompositeBuffer * store) :=
  '(buffer, s) ← getBuffer MinRead s;
  '(rn, err, _, buffer) ← Buffer.ReadFrom r buffer;
  if (0 <? rn)%Z then Ret ((n + rn)%Z, err, MkComposite (bufList b ++ [buffer]) (c_length b + rn), s)
  else s ← putBuffer buffer s; Ret (n, err, b, s).

Definition CReadFrom (r : reader) (b : CompositeBuffer) (s : store) : outcome (Z * option ioerr * CompositeBuffer * store) :=
  match last (bufList b) with
  | Some lst =>
      let space := Available lst in
      if 0 <? space then
        let '((rn, data, err), r) :=
          match r with [] => ((0%Z, [], Some EOF), []) | f :: r => (f space, r) end in
        lst ← CommitWrite rn (fill_available data lst);
        let b := MkComposite (set_last lst (bufList b)) (c_length b + rn) in
        match err with
        | Some EOF => Ret (rn, None, b, s)
        | Some e => Ret (rn, Some e, b, s)
        | None => ReadFrom_block rn r b s
        end
      else ReadFrom_block 0 r b s
  | None => ReadFrom_block 0 r b s
  end.

(** WriteTo's loop: [w i] answers the writer's i-th Write.  It returns the bytes
    written, the error, the blocks and the index after the last finished one. *)
Fixpoint WriteTo_loop (w : nat -> list Z -> nat * option ioerr) (i : nat) (l : list Buffer) : outcome (nat * option ioerr * list Buffer * nat) :=
  match l with
  | [] => Ret (0, None, [], 0)
  | b :: l =>
      '(sz, err, b') ← Buffer.WriteTo (w i) b;
      match err with
      | Some e => Ret (sz, Some e, b' :: l, 0)
      | None =>
          '(n, err, l', endIdx) ← WriteTo_loop w (if 0 <? Len b then S i else i) l;
          Ret (sz + n, err, b' :: l', S endIdx)
      end
  end.

Definition CWriteTo (w : nat -> list Z -> nat * option ioerr) (b : CompositeBuffer) (s : store) : outcome (nat * option ioerr * CompositeBuffer * store) :=
  '(n, err, l, endIdx) ← WriteTo_loop w 0 (bufList b);
  '(b, s) ← removeRange endIdx (MkComposite l (c_length b - Z.of_nat n)) s;
  Ret (n, err, b, s).

(** Read's loop into [k] bytes of room: the data, the last block's error, the
    blocks and endIdx. *)
Fixpoint Read_loop (k : nat) (l : list Buffer) : list Z * option ioerr * list Buffer * nat :=
  match l with
  | [] => ([], None, [], 0)
  | b :: l =>
      let '(data, err, b') := Buffer.Read k b in
      if negb (Len b' =? 0) || (match err with Some EOF | None => false | _ => true end)
      then (data, err, b' :: l, 0)
      else
        match l with
        | [] => (data, err, [b'], 1)
        | _ =>
            let '(data', err', l', endIdx) := Read_loop (k - length data) l in
            (data ++ data', err', b' :: l', S endIdx)
        end
  end.

Definition CRead (k : nat) (b : CompositeBuffer) (s : store) : outcome (list Z * option ioerr * CompositeBuffer * store) :=
  match bufList b with
  | [] => Ret ([], Some EOF, b, s)
  | _ =>
      let '(data, err, l, endIdx) := Read_loop k (bufList b) in
      '(b, s) ← removeRange endIdx (MkComposite l (c_length b - Z.of_nat (length data))) s;
      Ret (data, err, b, s)
  end.

(** Discard's loop: what was dropped, the blocks, endIdx ([None] is the source's
    initial -1, kept when the blocks run out). *)
Fixpoint Discard_loop (n : nat) (l : list Buffer) : outcome (nat * list Buffer * option nat) :=
  match l with
  | [] => Ret (0, [], None)
  | b :: l =>
      let sz := Len b in
      if n <? sz then b' ← Buffer.Discard (Z.of_nat n) b; Ret (n, b' :: l, Some 0)
      else if n - sz =? 0 then Ret (sz, b :: l, Some 1)
      else '(size, l', endIdx) ← Discard_loop (n - sz) l; Ret (sz + size, b :: l', option_map S endIdx)
  end.

Definition CDiscard (n : Z) (b : CompositeBuffer) (s : store) : outcome (Z * CompositeBuffer * store) :=
  match bufList b with
  | [] => Ret (0%Z, b, s)
  | _ =>
      let nBytes := c_length b in
      if (n <=? 0)%Z then '(b, s) ← CReset b s; Ret (nBytes, b, s)
      else
        let n := if (nBytes <? n)%Z then nBytes else n in
        '(size, l, endIdx) ← Discard_loop (Z.to_nat n) (bufList b);
        '(b, s) ← removeRange (default 0 endIdx) (MkComposite l (c_length b)) s;
        Ret (Z.of_nat size, MkComposite (bufList b) (c_length b - Z.of_nat size), s)
  end.

End Composite.

(** ** Looking without consuming *)

Fixpoint peek_copy (k : nat) (l : list Buffer) : list Z :=
  match l with
  | [] => []
  | b :: l =>
      let data := take k (Bytes b) in
      if length data =? k then data else data ++ peek_copy (k - length data) l
  end.

(** Peek into [k] bytes of room; nil is the empty result. *)
Definition Peek (k : nat) (b : CompositeBuffer) : list Z :=
  match bufList b with
  | [] => []
  | first :: _ =>
      if k =? 0 then []
      else if k <=? Len first then take k (Bytes first)
      else peek_copy k (bufList b)
  end.

Definition PeekChunk (b : CompositeBuffer) : list Z :=
  match bufList b with [] => [] | first :: _ => Bytes first end.

Definition PeekVec (dst : list (list Z)) (b : CompositeBuffer) : list (list Z) * nat :=
  match bufList b with
  | [] => ([], 0)
  | l => (dst ++ (Bytes <$> l), sum_list_with Len l)
  end.

Definition PeekVecN (limit : Z) (b : CompositeBuffer) : list (list Z) * nat :=
  if (length (bufList b) =? 0) || (limit <=? 0)%Z then ([], 0)
  else
    let count := Nat.min (length (bufList b)) (Z.to_nat limit) in
    (Bytes <$> take count (bufList b), sum_list_with Len (take count (bufList b))).

(** ** Well-formedness and the abstraction *)

Definition cbytes (b : CompositeBuffer) : list Z := concat (Bytes <$> bufList b).

Record comp_ok (b : CompositeBuffer) : Prop := {
  comp_blocks : Forall buffer_ok (bufList b);
  comp_len : c_length b = Z.of_nat (sum_list_with Len (bufList b))
}.

Lemma length_concat_Bytes l :
  Forall buffer_ok l -> length (concat (Bytes <$> l)) = sum_list_with Len l.
Proof.
  induction 1 as [|b l Hb _ IH]; csimpl; [done|]. by rewrite length_app, length_Bytes, IH.
Qed.

Lemma comp_ok_length b : comp_ok b -> c_length b = Z.of_nat (length (cbytes b)).
Proof. intros []. unfold cbytes. by rewrite length_concat_Bytes. Qed.

Lemma comp_ok_make l n :
  Forall buffer_ok l -> n = Z.of_nat (length (concat (Bytes <$> l))) -> comp_ok (MkComposite l n).
Proof. intros Hl ->. split; simpl; [done|]. by rewrite length_concat_Bytes. Qed.

Lemma concat_Bytes_snoc l b : concat (Bytes <$> (l ++ [b])) = concat (Bytes <$> l) ++ Bytes b.
Proof. rewrite fmap_app, concat_app. simpl. by rewrite app_nil_r. Qed.

Lemma last_split {A} (l : list A) x : last l = Some x -> l = take (length l - 1) l ++ [x].
Proof.
  intros [l' ->]%last_Some. rewrite length_app. simpl.
  replace (length l' + 1 - 1) with (length l') by lia. by rewrite take_app_length.
Qed.

Lemma set_last_split {A} (l : list A) x y : last l = Some x ->
  exists l', l = l' ++ [x] /\ set_last y l = l' ++ [y].
Proof. intros Hl. exists (take (length l - 1) l). split; [by apply last_split|done]. Qed.

Lemma fresh_Bytes b : fresh_block b -> Bytes b = [] /\ Available b = Cap b.
Proof.
  intros (? & Hl & Ho). unfold Bytes, contents, Available, Cap. rewrite Hl, take_0, drop_nil. split; [done|lia].
Qed.

Lemma append_within_spec p b :
  buffer_ok b -> length p <= Available b ->
  buffer_ok (append_within p b) /\ Bytes (append_within p b) = Bytes b ++ p.
Proof.
  intros Hb Hp. destruct (commit_fill p b Hb Hp) as [H1 H2].
  unfold append_within, fill_available, set_buf, reslice in *; simpl in *.
  by rewrite take_ge in H1, H2 by lia.
Qed.

(** ** What each operation does to the unread bytes *)

Section Facts.
Context `{GoRuntime} `{BlockStore}.

Lemma put_all_spec l s :
  store_ok s -> Forall buffer_ok l -> exists s', put_all l s = Ret s' /\ store_ok s'.
Proof.
  intros Hs Hl. revert s Hs. induction Hl as [|b l Hb _ IH]; intros s Hs; simpl; [eauto|].
  destruct (putBuffer_law b s Hs Hb) as (s' & -> & Hs'). simpl. by apply IH.
Qed.

Lemma removeRange_spec n b s :
  store_ok s -> Forall buffer_ok (bufList b) ->
  exists s', removeRange n b s = Ret (MkComposite (drop n (bufList b)) (c_length b), s') /\ store_ok s'.
Proof.
  intros Hs Hl. unfold removeRange.
  destruct (put_all_spec (take n (bufList b)) s Hs) as (s' & -> & Hs'); [by apply Forall_take|].
  simpl. eauto.
Qed.

Lemma CReset_spec b s :
  store_ok s -> comp_ok b -> exists s', CReset b s = Ret (MkComposite [] 0, s') /\ store_ok s'.
Proof.
  intros Hs [Hl _]. unfold CReset. destruct (removeRange_spec (length (bufList b)) b s Hs Hl) as (s' & -> & Hs').
  simpl. rewrite drop_ge by lia. eauto.
Qed.

Lemma write_tail_spec p l :
  Forall buffer_ok l ->
  exists l' n, write_tail p l = Ret (l', n) /\ n <= length p /\ Forall buffer_ok l' /\
    concat (Bytes <$> l') = concat (Bytes <$> l) ++ take n p.
Proof.
  intros Hl. unfold write_tail. destruct (last l) as [lst|] eqn:El.
  2: { exists l, 0. rewrite take_0, app_nil_r. split_and!; auto; lia. }
  destruct (Nat.ltb_spec 0 (Available lst)) as [Hsp|].
  2: { exists l, 0. rewrite take_0, app_nil_r. split_and!; auto; lia. }
  destruct (set_last_split l lst lst El) as (l0 & -> & _). apply Forall_app in Hl as [Hl0 Hlst].
  rewrite Forall_singleton in Hlst. set (n := Nat.min (Available lst) (length p)).
  destruct (Write_fits (take n p) lst Hlst) as (lst' & -> & Hok & HB & _); [rewrite length_take; lia|].
  simpl. destruct (set_last_split _ lst lst' El) as (l1 & E & ->). apply app_inj_tail in E as [-> _].
  exists (l1 ++ [lst']), n. split_and!; [done|lia|by apply Forall_app_2; [|apply Forall_singleton]|].
  by rewrite !concat_Bytes_snoc, HB, app_assoc.
Qed.

Lemma CWrite_spec p b s :
  store_ok s -> comp_ok b ->
  exists b' s', CWrite p b s = Ret (length p, b', s') /\ store_ok s' /\ comp_ok b' /\
    cbytes b' = cbytes b ++ p.
Proof.
  intros Hs Hb. pose proof (comp_ok_length b Hb) as HL. destruct Hb as [Hl Hlen]. unfold CWrite.
  destruct (Nat.eqb_spec (length p) 0) as [E|Hp0].
  { apply nil_length_inv in E as ->. exists b, s. rewrite app_nil_r. by split_and!. }
  destruct (write_tail_spec p (bufList b) Hl) as (l & n & -> & Hn & Hl' & HB). simpl.
  destruct (Nat.ltb_spec 0 (length (drop n p))) as [Hsz|Hsz].
  - destruct (getBuffer_law (length (drop n p)) s Hs) as (blk & s' & -> & Hs' & Hf & Hc). simpl.
    destruct (fresh_Write (drop n p) blk Hf Hc) as (blk' & -> & Hok & HBb & _). simpl.
    assert (HC : concat (Bytes <$> (l ++ [blk'])) = cbytes b ++ p).
    { rewrite concat_Bytes_snoc, HB, HBb, <-app_assoc, take_drop. done. }
    rewrite length_drop. replace (n + (length p - n)) with (length p) by lia.
    eexists _, _. split; [done|]. split; [done|]. split; [|exact HC].
    apply comp_ok_make; [by apply Forall_app_2; [|apply Forall_singleton]|].
    rewrite HC, length_app, HL. lia.
  - rewrite length_drop in Hsz. assert (n = length p) as -> by lia. rewrite take_ge in HB by lia.
    eexists _, _. split; [done|]. split; [done|]. split; [|exact HB].
    apply comp_ok_make; [done|]. rewrite HB. unfold cbytes in *. rewrite length_app, HL. lia.
Qed.

Lemma Writev_spec vec n b s :
  store_ok s -> comp_ok b ->
  exists b' s', Writev_loop vec n b s = Ret (n + length (concat vec), b', s') /\ store_ok s' /\ comp_ok b' /\
    cbytes b' = cbytes b ++ concat vec.
Proof.
  revert n b s. induction vec as [|p vec IH]; intros n b s Hs Hb; simpl.
  { exists b, s. rewrite Nat.add_0_r, app_nil_r. by split_and!. }
  destruct (CWrite_spec p b s Hs Hb) as (b1 & s1 & -> & Hs1 & Hb1 & HB1). simpl.
  destruct (IH (n + length p) b1 s1 Hs1 Hb1) as (b' & s' & -> & ? & ? & HB').
  exists b', s'. rewrite length_app, Nat.add_assoc, HB', HB1, app_assoc. by split_and!.
Qed.

(** Replacing the whole list by one block that holds its bytes and more. *)
Lemma comp_ok_single blk n :
  buffer_ok blk -> n = Z.of_nat (length (Bytes blk)) ->
  comp_ok (MkComposite [blk] n) /\ cbytes (MkComposite [blk] n) = Bytes blk.
Proof.
  intros Hb ->. unfold cbytes; simpl. rewrite app_nil_r. split; [|done].
  apply comp_ok_make; [by apply Forall_singleton|]. simpl. by rewrite app_nil_r.
Qed.

Lemma Gather_spec n tail b s :
  store_ok s -> comp_ok b ->
  exists rest b' s' blk, Gather n tail b s = Ret (rest, b', s') /\ store_ok s' /\ comp_ok b' /\
    cbytes b ++ tail = cbytes b' ++ rest /\ bufList b' = [blk] /\
    (n <= Z.of_nat (Len blk + Available blk))%Z /\
    (rest <> [] -> n <= Z.of_nat (length (cbytes b')))%Z.
Proof.
  intros Hs Hb. pose proof (comp_ok_length b Hb) as HL. pose proof Hb as [Hl Hlen]. unfold Gather.
  set (k := Z.to_nat (Z.min (Z.of_nat (length tail)) (Z.max (n - c_length b) 0))).
  assert (Hk : k <= length tail) by (unfold k; lia).
  assert (Hrest : forall q, q = cbytes b ++ take k tail -> cbytes b ++ tail = q ++ drop k tail /\
    (drop k tail <> [] -> n <= Z.of_nat (length q))%Z /\ Z.of_nat (length q) = (c_length b + Z.of_nat k)%Z).
  { intros q ->. rewrite <-app_assoc, take_drop, length_app, length_take, Nat.min_l by lia.
    split; [done|]. split; [|lia]. intros Hne. assert (k < length tail); [|lia].
    destruct (decide (k = length tail)); [|lia]. subst k. rewrite drop_ge in Hne by lia. done. }
  set (fresh := mbind _ (getBlock _ s)).
  enough (Hfresh : exists rest b' s' blk, fresh = Ret (rest, b', s') /\ store_ok s' /\ comp_ok b' /\
    cbytes b ++ tail = cbytes b' ++ rest /\ bufList b' = [blk] /\
    (n <= Z.of_nat (Len blk + Available blk))%Z /\
    (rest <> [] -> n <= Z.of_nat (length (cbytes b')))%Z).
  { destruct (bufList b) as [|first [|]] eqn:Eb; [done| |done].
    destruct (Z.leb_spec (Z.max n (c_length b + Z.of_nat k)) (Z.of_nat (Len first + Available first))) as [Hle|]; [|done].
    rewrite Forall_singleton in Hl. simpl in Hlen. rewrite Nat.add_0_r in Hlen.
    destruct (Write_fits (take k tail) first Hl) as (f' & -> & Hf & HB & _ & HA & _ & HS); [rewrite length_take; lia|].
    simpl. assert (Hc : Bytes f' = cbytes b ++ take k tail) by (unfold cbytes; rewrite Eb; simpl; by rewrite app_nil_r).
    destruct (Hrest _ Hc) as (H1 & H2 & H3).
    destruct (comp_ok_single f' (c_length b + Z.of_nat k) Hf) as [Hok HCb]; [lia|].
    eexists _, _, _, f'. split; [done|]. rewrite HCb. split_and!; auto.
    pose proof (length_Bytes f' Hf). rewrite HA, length_take. lia. }
  unfold fresh. destruct (getBlock_law (Z.to_nat (Z.max n (c_length b + Z.of_nat k))) s Hs)
    as (blk & s1 & -> & Hs1 & Hf & Hcap). simpl.
  destruct (fresh_Bytes blk Hf) as [HB0 HA0]. destruct Hf as (Hblk & _ & _).
  destruct (write_segments_spec (Bytes <$> bufList b) blk Hblk) as (b1 & -> & Hb1 & HB1 & HA1 & HC1).
  { change (length (cbytes b) <= Available blk). lia. }
  simpl. change (concat (Bytes <$> bufList b)) with (cbytes b) in *. rewrite HB0 in HB1. simpl in HB1.
  destruct (Write_fits (take k tail) b1 Hb1) as (b2 & -> & Hb2 & HB2 & HC2 & HA2 & _); [rewrite length_take; lia|].
  simpl. destruct (removeRange_spec (length (bufList b)) b s1 Hs1 Hl) as (s2 & -> & Hs2). simpl.
  rewrite (drop_ge (bufList b)) by lia. simpl. rewrite HB1 in HB2. destruct (Hrest _ HB2) as (H1 & H2 & H3).
  destruct (comp_ok_single b2 (c_length b + Z.of_nat k) Hb2) as [Hok HCb]; [lia|].
  eexists _, _, _, b2. split; [done|]. rewrite HCb. split_and!; auto.
  pose proof (length_Bytes b2 Hb2). rewrite HA2, length_take. lia.
Qed.

Lemma comp_snoc b blk n :
  comp_ok b -> buffer_ok blk -> n = Z.of_nat (length (Bytes blk)) ->
  comp_ok (MkComposite (bufList b ++ [blk]) (c_length b + n)) /\
  cbytes (MkComposite (bufList b ++ [blk]) (c_length b + n)) = cbytes b ++ Bytes blk.
Proof.
  intros Hb Hblk ->. unfold cbytes at 1; simpl. rewrite concat_Bytes_snoc. split; [|done].
  apply comp_ok_make; [apply Forall_app_2; [apply Hb|by apply Forall_singleton]|].
  rewrite concat_Bytes_snoc, length_app. rewrite (comp_ok_length b Hb). unfold cbytes. lia.
Qed.

(** Extending the last block in place. *)
Lemma comp_set_last b lst lst' n p :
  comp_ok b -> last (bufList b) = Some lst -> buffer_ok lst' -> Bytes lst' = Bytes lst ++ p ->
  n = Z.of_nat (length p) ->
  comp_ok (MkComposite (set_last lst' (bufList b)) (c_length b + n)) /\
  cbytes (MkComposite (set_last lst' (bufList b)) (c_length b + n)) = cbytes b ++ p.
Proof.
  intros Hb Hl Hok HB ->. destruct (set_last_split _ _ lst' Hl) as (l0 & E & ->).
  assert (HC : concat (Bytes <$> (l0 ++ [lst'])) = cbytes b ++ p).
  { unfold cbytes. by rewrite E, !concat_Bytes_snoc, HB, app_assoc. }
  split; [|exact HC]. apply comp_ok_make; [|rewrite HC, length_app, (comp_ok_length b Hb); lia].
  pose proof (comp_blocks b Hb) as Hf. rewrite E in Hf. apply Forall_app in Hf as [? _].
  apply Forall_app_2; [done|by apply Forall_singleton].
Qed.

Lemma last_ok b lst : comp_ok b -> last (bufList b) = Some lst -> buffer_ok lst.
Proof.
  intros [Hf _] Hl. apply last_Some in Hl as [l' E]. rewrite E in Hf.
  apply Forall_app in Hf as [_ Hf]. by rewrite Forall_singleton in Hf.
Qed.

Lemma AppendOwned_spec buffer b s :
  store_ok s -> comp_ok b -> buffer_ok buffer ->
  exists b' s', AppendOwned (Some buffer) b s = Ret (b', s') /\ store_ok s' /\ comp_ok b' /\
    cbytes b' = cbytes b ++ Bytes buffer.
Proof.
  intros Hs Hb Hbuf. pose proof (length_Bytes buffer Hbuf) as HL. unfold AppendOwned.
  destruct (Nat.eqb_spec (Len buffer) 0) as [E|].
  - destruct (putBuffer_law buffer s Hs Hbuf) as (s' & -> & Hs'). simpl. rewrite E in HL.
    apply nil_length_inv in HL as ->. exists b, s'. rewrite app_nil_r. by split_and!.
  - destruct (comp_snoc b buffer (Z.of_nat (Len buffer)) Hb Hbuf) as [? ?]; [by rewrite HL|].
    eexists _, _. split; [done|]. by split_and!.
Qed.

Lemma PrependOwned_spec buffer b s :
  store_ok s -> comp_ok b -> buffer_ok buffer ->
  exists b' s', PrependOwned (Some buffer) b s = Ret (b', s') /\ store_ok s' /\ comp_ok b' /\
    cbytes b' = Bytes buffer ++ cbytes b.
Proof.
  intros Hs Hb Hbuf. pose proof (length_Bytes buffer Hbuf) as HL. unfold PrependOwned.
  destruct (Nat.eqb_spec (Len buffer) 0) as [E|].
  - destruct (putBuffer_law buffer s Hs Hbuf) as (s' & -> & Hs'). simpl. rewrite E in HL.
    apply nil_length_inv in HL as ->. exists b, s'. by split_and!.
  - eexists _, _. split; [done|]. split; [done|]. split; [|done].
    apply comp_ok_make; [constructor; [done|apply Hb]|]. csimpl.
    rewrite length_app, (comp_ok_length b Hb), HL. unfold cbytes. lia.
Qed.

Lemma AppendOwnedCoalesced_spec buffer target b s :
  store_ok s -> comp_ok b -> buffer_ok buffer ->
  exists b' s', AppendOwnedCoalesced (Some buffer) target b s = Ret (b', s') /\ store_ok s' /\ comp_ok b' /\
    cbytes b' = cbytes b ++ Bytes buffer.
Proof.
  intros Hs Hb Hbuf. pose proof (length_Bytes buffer Hbuf) as HL. unfold AppendOwnedCoalesced.
  set (start := if (target <=? _)%Z then _ else _).
  assert (Hstart : exists b' s', start = Ret (b', s') /\ store_ok s' /\ comp_ok b' /\
    cbytes b' = cbytes b ++ Bytes buffer).
  { unfold start. destruct (Z.leb_spec target (Z.of_nat (Len buffer))); [by apply AppendOwned_spec|].
    destruct (getBuffer_law (Z.to_nat target) s Hs) as (blk & s1 & -> & Hs1 & Hf & Hc). simpl.
    destruct (fresh_Write (Bytes buffer) blk Hf) as (blk' & -> & Hok & HBb & _); [lia|]. simpl.
    destruct (putBuffer_law buffer s1 Hs1 Hbuf) as (s2 & -> & Hs2). simpl.
    destruct (comp_snoc b blk' (Z.of_nat (Len buffer)) Hb Hok) as [? HC]; [by rewrite HBb, HL|].
    eexists _, _. split; [done|]. rewrite HBb in HC. by split_and!. }
  destruct (Nat.eqb_spec (Len buffer) 0) as [E|].
  { destruct (putBuffer_law buffer s Hs Hbuf) as (s' & -> & Hs'). simpl. rewrite E in HL.
    apply nil_length_inv in HL as ->. exists b, s'. rewrite app_nil_r. by split_and!. }
  destruct (last (bufList b)) as [lst|] eqn:El; [|done].
  destruct (Nat.leb_spec (Len buffer) (Available lst)); [|done].
  destruct (Write_fits (Bytes buffer) lst (last_ok _ _ Hb El)) as (lst' & -> & Hok & HB & _); [lia|]. simpl.
  destruct (putBuffer_law buffer s Hs Hbuf) as (s' & -> & Hs'). simpl.
  destruct (comp_set_last b lst lst' (Z.of_nat (Len buffer)) _ Hb El Hok HB) as [? ?]; [by rewrite HL|].
  eexists _, _. split; [done|]. by split_and!.
Qed.

(** A block resliced by [k] and then filled holds the filled bytes at its end. *)
Lemma reslice_fill k data b :
  buffer_ok b -> k <= Available b -> length data = k ->
  let b1 := set_buf (reslice (slen (buf b) + k) (buf b)) b in
  buffer_ok b1 /\ length (Bytes b1) = length (Bytes b) + k /\
  let b2 := set_buf (MkSlice (write_at (slen (buf b1) - length data) data (arr (buf b1)))
                       (slen (buf b1)) (snil (buf b1))) b1 in
  buffer_ok b2 /\ Bytes b2 = Bytes b ++ data.
Proof.
  intros Hb Hk Hd b1.
  destruct (append_within_spec data b Hb) as [Hok HB]; [lia|]. unfold append_within in *.
  assert (Hb1 : buffer_ok b1).
  { destruct Hb as [[Hl Hn] Ho]. unfold Available, scap in *.
    split; simpl; [split; simpl; [unfold scap; simpl; lia|done]|lia]. }
  split; [done|]. split.
  { rewrite !length_Bytes by done. unfold Len, b1; simpl. destruct Hb as [_ Ho]. lia. }
  simpl. replace (slen (buf b) + k - length data) with (slen (buf b)) by lia.
  rewrite Hd in *. by split.
Qed.

Lemma last_set_last {A} (l : list A) x y : last l = Some x -> last (set_last y l) = Some y.
Proof. intros. unfold set_last. by rewrite last_snoc. Qed.

Lemma set_last_twice {A} (l : list A) x y z : last l = Some x -> set_last z (set_last y l) = set_last z l.
Proof.
  intros Hl. destruct (set_last_split l x y Hl) as (l' & -> & ->). unfold set_last.
  rewrite !length_app. simpl. replace (length l' + 1 - 1) with (length l') by lia.
  by rewrite !take_app_length.
Qed.

Lemma Reserve_spec n blockSize b s :
  store_ok s -> comp_ok b -> (0 < n)%Z ->
  exists b' s', Reserve n blockSize b s = Ret (Z.to_nat n, b', s') /\ store_ok s' /\ comp_ok b' /\
    forall data, Z.of_nat (length data) = n ->
      comp_ok (fill_reserved data b') /\ cbytes (fill_reserved data b') = cbytes b ++ data.
Proof.
  intros Hs Hb Hn. unfold Reserve. destruct (Z.leb_spec n 0); [lia|].
  set (start := mbind _ (getBlock _ s)).
  assert (Hstart : exists b' s', start = Ret (Z.to_nat n, b', s') /\ store_ok s' /\ comp_ok b' /\
    forall data, Z.of_nat (length data) = n ->
      comp_ok (fill_reserved data b') /\ cbytes (fill_reserved data b') = cbytes b ++ data).
  { unfold start. destruct (getBlock_law (block_size (bufList b) (Z.to_nat n) blockSize) s Hs)
      as (blk & s1 & -> & Hs1 & Hf & Hc). simpl.
    assert (Hk : Z.to_nat n <= Cap blk).
    { unfold block_size in Hc. destruct (Nat.ltb_spec 0 (length (bufList b))); simpl in Hc; [|lia].
      destruct (Z.ltb_spec (Z.of_nat (Z.to_nat n)) blockSize); lia. }
    destruct (fresh_Bytes blk Hf) as [HB0 HA0]. destruct Hf as (Hblk & Hl0 & _).
    pose proof (reslice_fill (Z.to_nat n) (replicate (Z.to_nat n) 0%Z) blk Hblk) as Hz.
    rewrite Hl0 in Hz. destruct Hz as (Hb1 & HL1 & _); [lia|by rewrite length_replicate|].
    rewrite HB0 in HL1. simpl in Hb1, HL1.
    eexists _, s1. split; [done|]. split; [done|].
    destruct (comp_snoc b _ n Hb Hb1) as [Hok _]; [lia|]. split; [exact Hok|].
    intros data Hd. unfold fill_reserved; simpl. rewrite last_snoc.
    destruct (reslice_fill (Z.to_nat n) data blk Hblk) as (_ & _ & Hb2 & HB2); [lia..|].
    rewrite Hl0, HB0 in *. simpl in Hb2, HB2. unfold set_last. rewrite length_app. simpl.
    replace (length (bufList b) + 1 - 1) with (length (bufList b)) by lia. rewrite take_app_length.
    destruct (comp_snoc b _ n Hb Hb2) as [Hc1 Hc2]; [rewrite HB2; lia|].
    rewrite HB2 in Hc2. by split. }
  destruct (last (bufList b)) as [lst|] eqn:El; [|exact Hstart].
  destruct (Nat.leb_spec (Z.to_nat n) (scap (buf lst) - slen (buf lst))) as [Hfit|]; [|exact Hstart].
  clear start Hstart. pose proof (last_ok _ _ Hb El) as Hlst.
  destruct (reslice_fill (Z.to_nat n) (replicate (Z.to_nat n) 0%Z) lst Hlst) as (Hb1 & HL1 & _);
    [done|by rewrite length_replicate|]. simpl in Hb1, HL1.
  eexists _, s. split; [done|]. split; [done|].
  set (lst1 := set_buf (reslice _ (buf lst)) lst) in *. split.
  - destruct (set_last_split _ _ lst1 El) as (l0 & E & ->). pose proof Hb as [Hf HLn].
    rewrite E in Hf. apply Forall_app in Hf as [Hf0 _].
    apply comp_ok_make; [apply Forall_app_2; [done|by apply Forall_singleton]|].
    rewrite (comp_ok_length b Hb). unfold cbytes. rewrite E, !concat_Bytes_snoc, !length_app.
    change (length (Bytes lst1) = length (Bytes lst) + Z.to_nat n) in HL1. lia.
  - intros data Hd. unfold fill_reserved; simpl. rewrite (last_set_last _ _ _ El).
    rewrite (set_last_twice _ _ _ _ El).
    destruct (reslice_fill (Z.to_nat n) data lst Hlst) as (_ & _ & Hb2 & HB2); [done|lia|].
    eapply comp_set_last; [done|exact El|exact Hb2|exact HB2|lia].
Qed.

Lemma tail_with_room_spec remaining blockSize l s :
  store_ok s -> Forall buffer_ok l -> 0 < remaining ->
  exists l0 lst s1, tail_with_room remaining blockSize l s = Ret (l0 ++ [lst], s1) /\ store_ok s1 /\
    Forall buffer_ok (l0 ++ [lst]) /\ concat (Bytes <$> (l0 ++ [lst])) = concat (Bytes <$> l) /\
    0 < Available lst.
Proof.
  intros Hs Hl Hr. unfold tail_with_room. cbv zeta.
  destruct (match last l with Some lst => _ | None => true end) eqn:Ef.
  - destruct (getBlock_law (block_size l remaining blockSize) s Hs) as (blk & s1 & -> & Hs1 & Hf & Hc). simpl.
    destruct (fresh_Bytes blk Hf) as [HB0 HA0]. exists l, blk, s1. split; [done|]. split; [done|].
    split; [apply Forall_app_2; [done|apply Forall_singleton, Hf]|].
    rewrite concat_Bytes_snoc, HB0, app_nil_r. split; [done|].
    unfold block_size in Hc. destruct ((0 <? length l) && (Z.of_nat remaining <? blockSize)%Z) eqn:E; [|lia].
    apply andb_prop in E as [_ E%Z.ltb_lt]. lia.
  - destruct (last l) as [lst|] eqn:El; [|done].
    apply last_Some in El as [l0 ->]. exists l0, lst, s. split_and!; try done.
    apply Nat.eqb_neq in Ef. apply Forall_app in Hl as [_ Hx]. rewrite Forall_singleton in Hx.
    destruct Hx as [[Hx _] _]. unfold Available. lia.
Qed.

Lemma coalesce_step fuel p remaining blockSize l s :
  p <> [] ->
  coalesce (S fuel) p remaining blockSize l s =
    mbind (M := outcome) (fun '(l, s) =>
      match last l with
      | Some lst =>
          let n := Nat.min (scap (buf lst) - slen (buf lst)) (length p) in
          coalesce fuel (drop n p) (remaining - n) blockSize (set_last (append_within (take n p) lst) l) s
      | None => Panic PanicNil
      end) (tail_with_room remaining blockSize l s).
Proof. by destruct p. Qed.

(** The coalescing loop: it always ends, since a block with room is never left
    without taking a byte, and it appends exactly its argument. *)
Lemma coalesce_spec fuel p remaining blockSize l s :
  store_ok s -> Forall buffer_ok l -> length p <= fuel -> length p <= remaining ->
  exists l' s', coalesce fuel p remaining blockSize l s = Ret (l', remaining - length p, s') /\ store_ok s' /\
    Forall buffer_ok l' /\ concat (Bytes <$> l') = concat (Bytes <$> l) ++ p.
Proof.
  revert p remaining l s. induction fuel as [|fuel IH]; intros p remaining l s Hs Hl Hfuel Hrem.
  { destruct p; [|simpl in *; lia]. exists l, s. simpl. rewrite app_nil_r, Nat.sub_0_r. by split_and!. }
  destruct (decide (p = [])) as [->|Hne]; [exists l, s; simpl; rewrite app_nil_r, Nat.sub_0_r; by split_and!|].
  assert (Hp : 0 < length p) by (destruct p; simpl; [done|lia]).
  rewrite coalesce_step by done.
  destruct (tail_with_room_spec remaining blockSize l s Hs Hl) as (l0 & lst & s1 & -> & Hs1 & Hl1 & HB1 & Hav); [lia|].
  cbn [mbind outcome_bind]. rewrite last_snoc.
  set (n := Nat.min (scap (buf lst) - slen (buf lst)) (length p)).
  assert (Hn : 0 < n <= length p) by (unfold Available, n in *; lia).
  pose proof Hl1 as Hl2. apply Forall_app in Hl2 as [Hl0 Hlst]. rewrite Forall_singleton in Hlst.
  destruct (append_within_spec (take n p) lst Hlst) as [Hok HBa].
  { rewrite length_take. unfold Available, n in *. lia. }
  unfold set_last. rewrite length_app; simpl. replace (length l0 + 1 - 1) with (length l0) by lia.
  rewrite take_app_length.
  destruct (IH (drop n p) (remaining - n) (l0 ++ [append_within (take n p) lst]) s1)
    as (l' & s' & Ec & Hs' & Hl' & HB'); [done|by apply Forall_app_2; [|apply Forall_singleton]|
    rewrite length_drop; lia|rewrite length_drop; lia|].
  exists l', s'. rewrite Ec, length_drop.
  replace (remaining - n - (length p - n)) with (remaining - length p) by lia.
  split_and!; auto. rewrite HB', concat_Bytes_snoc, HBa, <-HB1, concat_Bytes_snoc, <-!app_assoc, take_drop. done.
Qed.

Lemma coalesce_vec_spec vec remaining blockSize l s :
  store_ok s -> Forall buffer_ok l -> length (concat vec) <= remaining ->
  exists l' s', coalesce_vec vec remaining blockSize l s = Ret (l', remaining - length (concat vec), s') /\
    store_ok s' /\ Forall buffer_ok l' /\ concat (Bytes <$> l') = concat (Bytes <$> l) ++ concat vec.
Proof.
  revert remaining l s. induction vec as [|p vec IH]; intros remaining l s Hs Hl Hr; simpl in *.
  { exists l, s. rewrite app_nil_r, Nat.sub_0_r. by split_and!. }
  rewrite length_app in *.
  destruct (coalesce_spec (length p) p remaining blockSize l s) as (l1 & s1 & -> & Hs1 & Hl1 & HB1); [done..|lia|].
  simpl. destruct (IH (remaining - length p) l1 s1) as (l' & s' & -> & ? & ? & HB'); [done..|lia|].
  exists l', s'. rewrite HB', HB1, app_assoc. split_and!; auto. do 3 f_equal. lia.
Qed.

Lemma sum_length_concat {A} (vec : list (list A)) : length (concat vec) = sum_list_with length vec.
Proof. induction vec; simpl; [done|]. rewrite length_app. lia. Qed.

Lemma WritevCoalesced_spec vec blockSize b s :
  store_ok s -> comp_ok b ->
  exists b' s', WritevCoalesced vec blockSize b s = Ret (length (concat vec), b', s') /\ store_ok s' /\
    comp_ok b' /\ cbytes b' = cbytes b ++ concat vec.
Proof.
  intros Hs Hb. unfold WritevCoalesced. rewrite <-sum_length_concat.
  destruct (Nat.eqb_spec (length (concat vec)) 0) as [E|].
  { rewrite E. apply nil_length_inv in E as ->. exists b, s. rewrite app_nil_r. by split_and!. }
  destruct (coalesce_vec_spec vec (length (concat vec)) blockSize (bufList b) s) as (l & s' & -> & ? & ? & HB);
    [done|apply Hb|lia|]. simpl.
  eexists _, _. split; [done|]. split; [done|]. split; [|exact HB].
  apply comp_ok_make; [done|]. rewrite HB, (comp_ok_length b Hb), length_app. unfold cbytes. lia.
Qed.

Lemma WriteCoalesced_eq p blockSize b s :
  WriteCoalesced p blockSize b s = WritevCoalesced [p] blockSize b s.
Proof.
  unfold WriteCoalesced, WritevCoalesced; simpl. rewrite Nat.add_0_r. destruct (_ =? 0); [done|].
  destruct (coalesce _ _ _ _ _ _) as [[[? ?] ?]|]; done.
Qed.

(** *** Consuming *)

Lemma Discard_loop_spec n l :
  Forall buffer_ok l -> l <> [] -> n <= sum_list_with Len l -> 0 < n \/ sum_list_with Len l = 0 ->
  exists l' e, Discard_loop n l = Ret (n, l', Some e) /\ Forall buffer_ok l' /\ e <= length l' /\
    concat (Bytes <$> drop e l') = drop n (concat (Bytes <$> l)).
Proof.
  intros Hl. revert n. induction Hl as [|b l Hb Hl IH]; intros n Hne Hn Hpos; [done|].
  csimpl in *. pose proof (length_Bytes b Hb) as HL. destruct (Nat.ltb_spec n (Len b)).
  - pose proof (Discard_spec (Z.of_nat n) b Hb) as Hd.
    destruct (Buffer.Discard (Z.of_nat n) b) as [b'|]; [|lia]. simpl.
    destruct Hd as (Hb' & HB & _). destruct (Z.leb_spec (Z.of_nat n) 0); [lia|].
    rewrite Nat2Z.id in HB. exists (b' :: l), 0. split; [done|]. split; [by constructor|].
    split; [lia|]. csimpl. by rewrite HB, drop_app_le by lia.
  - destruct (Nat.eqb_spec (n - Len b) 0).
    + exists (b :: l), 1. assert (n = Len b) as -> by lia. split; [done|]. split; [by constructor|].
      split; [simpl; lia|]. csimpl. by rewrite drop_0, drop_app_ge, HL, Nat.sub_diag, drop_0 by lia.
    + destruct (IH (n - Len b)) as (l' & e & -> & Hl' & He & HB); [|lia..|].
      { intros ->. simpl in *. lia. }
      simpl. exists (b :: l'), (S e). replace (Len b + (n - Len b)) with n by lia.
      split; [done|]. split; [by constructor|]. split; [simpl; lia|]. csimpl.
      by rewrite HB, (drop_app_ge _ _ n), HL by lia.
Qed.

(** Releasing consumed blocks keeps the rest's bytes. *)
Lemma removeRange_ok e l n s :
  store_ok s -> Forall buffer_ok l -> n = Z.of_nat (length (concat (Bytes <$> drop e l))) ->
  exists s', removeRange e (MkComposite l n) s = Ret (MkComposite (drop e l) n, s') /\ store_ok s' /\
    comp_ok (MkComposite (drop e l) n).
Proof.
  intros Hs Hl Hn. destruct (removeRange_spec e (MkComposite l n) s Hs Hl) as (s' & -> & Hs').
  exists s'. split; [done|]. split; [done|]. apply comp_ok_make; [by apply Forall_drop|done].
Qed.

Lemma CDiscard_spec n b s :
  store_ok s -> comp_ok b ->
  let k := if (n <=? 0)%Z then CLen b else Z.min n (CLen b) in
  exists b' s', CDiscard n b s = Ret (k, b', s') /\ store_ok s' /\ comp_ok b' /\
    cbytes b' = drop (Z.to_nat k) (cbytes b).
Proof.
  intros Hs Hb. pose proof (comp_ok_length b Hb) as HL. pose proof Hb as [Hl Hc]. unfold CDiscard, CLen. cbv zeta.
  destruct (decide (bufList b = [])) as [E|E].
  { exists b, s. rewrite E in *. simpl in Hc. rewrite Hc in *. unfold cbytes. rewrite E. simpl. rewrite drop_nil. split_and!; auto.
    destruct (Z.leb_spec n 0); [done|]. do 3 f_equal. lia. }
  destruct (bufList b) as [|blk l] eqn:El; [done|]. rewrite <-El in *.
  destruct (Z.leb_spec n 0).
  { destruct (CReset_spec b s Hs Hb) as (s' & -> & Hs'). simpl. exists (MkComposite [] 0), s'.
    rewrite drop_ge by lia. split_and!; auto. by apply comp_ok_make. }
  set (k := if (c_length b <? n)%Z then _ else _).
  assert (k = Z.min n (c_length b)) as -> by (unfold k; destruct (Z.ltb_spec (c_length b) n); lia).
  destruct (Discard_loop_spec (Z.to_nat (Z.min n (c_length b))) (bufList b) Hl E) as (l' & e & -> & Hl' & He & HB);
    [lia..|]. simpl.
  destruct (removeRange_spec e (MkComposite l' (c_length b)) s Hs Hl') as (s' & -> & Hs'). simpl.
  eexists _, s'. rewrite Z2Nat.id by lia. split; [done|]. split; [done|]. split; [|exact HB].
  apply comp_ok_make; [by apply Forall_drop|]. rewrite HB, length_drop. change (concat _) with (cbytes b). lia.
Qed.

Lemma Read_loop_spec k l :
  Forall buffer_ok l -> l <> [] ->
  let '(data, err, l', e) := Read_loop k l in
  data = take k (concat (Bytes <$> l)) /\ Forall buffer_ok l' /\
  concat (Bytes <$> drop e l') = drop k (concat (Bytes <$> l)) /\
  match err with
  | None => 0 < k -> 0 < length data
  | Some EOF => length data < k /\ drop e l' = []
  | _ => False
  end.
Proof.
  intros Hl. revert k. induction Hl as [|b l Hb Hl IH]; intros k Hne; [done|]. csimpl.
  pose proof (length_Bytes b Hb) as HL. pose proof (Read_spec k b Hb) as HR.
  destruct (Buffer.Read k b) as [[data err] b'].
  destruct HR as (Hb' & -> & HB & -> & HL' & _). rewrite length_take, HL in HL'.
  set (err := if empty b && negb (k =? 0) then Some EOF else None).
  assert (Herr : err = None \/ err = Some EOF) by (unfold err; destruct (_ && _); auto).
  replace (match err with Some EOF | None => false | _ => true end) with false by (destruct Herr as [-> | ->]; done).
  rewrite orb_false_r. destruct (Nat.eqb_spec (Len b') 0) as [E|E]; cbn [negb].
  2: { rewrite take_app_le, drop_app_le by lia. split; [done|]. split; [by constructor|].
       csimpl. rewrite HB. split; [done|]. unfold err, empty. destruct (Nat.leb_spec (slen (buf b)) (off b)).
       { unfold Len in *. lia. } simpl. rewrite length_take. lia. }
  assert (Hk : length (Bytes b) <= k) by lia.
  destruct l as [|b2 l].
  { csimpl. rewrite app_nil_r. split; [done|]. split; [by rewrite Forall_singleton|]. rewrite drop_ge by lia.
    split; [done|]. rewrite take_ge by lia. unfold err, empty, Len in *.
    destruct (Nat.leb_spec (slen (buf b)) (off b)); destruct (Nat.eqb_spec k 0); simpl; split_and?; try done; lia. }
  specialize (IH (k - length (take k (Bytes b)))). destruct (Read_loop _ (b2 :: l)) as [[[data' err'] l'] e].
  rewrite length_take, Nat.min_r in IH by lia.
  destruct IH as (-> & Hl' & HB' & He); [done|]. rewrite (take_ge (Bytes b) k), (take_app_ge (Bytes b) _ k), (drop_app_ge (Bytes b) _ k) by lia.
  split; [done|]. split; [by constructor|]. csimpl. split; [done|].
  csimpl in He. rewrite length_app. destruct err' as [[]|]; [split; [lia|apply He]|done..|lia].
Qed.

Lemma CRead_spec k b s :
  store_ok s -> comp_ok b ->
  exists err b' s', CRead k b s = Ret (take k (cbytes b), err, b', s') /\ store_ok s' /\ comp_ok b' /\
    cbytes b' = drop k (cbytes b) /\
    match err with
    | None => 0 < k -> cbytes b <> []
    | Some EOF => cbytes b' = [] /\ (bufList b = [] \/ length (cbytes b) < k)
    | _ => False
    end.
Proof.
  intros Hs Hb. pose proof (comp_ok_length b Hb) as HL. pose proof Hb as [Hl Hc]. unfold CRead.
  destruct (decide (bufList b = [])) as [E|E].
  { exists (Some EOF), b, s. unfold cbytes in *. rewrite E in *. simpl in *. rewrite take_nil, drop_nil. split_and!; auto. }
  destruct (bufList b) as [|blk l] eqn:El; [done|]. rewrite <-El in *.
  pose proof (Read_loop_spec k (bufList b) Hl E) as HR.
  destruct (Read_loop k (bufList b)) as [[[data err] l'] e]. destruct HR as (-> & Hl' & HB & He).
  change (concat (Bytes <$> bufList b)) with (cbytes b) in *.
  destruct (removeRange_ok e l' (c_length b - Z.of_nat (length (take k (cbytes b)))) s Hs Hl') as (s' & -> & Hs' & Hok).
  { rewrite HB, length_drop, length_take. lia. }
  simpl. eexists err, _, s'. split; [done|]. split; [done|]. split; [done|]. split; [exact HB|].
  rewrite length_take in He. destruct err as [[]|]; [|done..|].
  - destruct He as [Hk He]. split; [unfold cbytes; simpl; by rewrite He|right; lia].
  - intros Hk Hn. rewrite Hn in He. simpl in He. lia.
Qed.

(** *** Bulk transfers *)

Lemma ReadFrom_block_spec n r b s :
  store_ok s -> comp_ok b -> conforming r ->
  match ReadFrom_block n r b s with
  | Ret (n', e, b', s') => exists used r' ks, r = used ++ r' /\ length ks = length used /\
      store_ok s' /\ comp_ok b' /\ cbytes b' = cbytes b ++ delivered used ks /\
      n' = (n + Z.of_nat (length (delivered used ks)))%Z /\ e <> Some EOF
  | Panic e => e = PanicErrTooLarge
  end.
Proof.
  intros Hs Hb Hr. unfold ReadFrom_block.
  destruct (getBuffer_law MinRead s Hs) as (blk & s1 & -> & Hs1 & Hf & _). cbn [mbind outcome_bind].
  destruct (fresh_Bytes blk Hf) as [HB0 _]. destruct Hf as [Hblk _]. unfold Buffer.ReadFrom.
  pose proof (ReadFrom_loop_spec r 0 _ (buffer_ok_set_lastRead opInvalid _ Hblk) Hr) as HR.
  destruct (ReadFrom_loop r 0 _) as [[[[rn e] r'] blk']|]; [|exact HR]. cbn [mbind outcome_bind].
  destruct HR as (used & ks & -> & Hk & _ & Hblk' & HB & -> & He).
  change (Bytes (set_lastRead opInvalid blk)) with (Bytes blk) in HB. rewrite HB0 in HB. simpl in HB.
  rewrite Z.add_0_l. destruct (Z.ltb_spec 0 (Z.of_nat (length (delivered used ks)))) as [Hp|Hp].
  - destruct (comp_snoc b blk' (Z.of_nat (length (delivered used ks))) Hb Hblk') as [Hok HC]; [by rewrite HB|].
    rewrite HB in HC. exists used, r', ks. by split_and!.
  - destruct (putBuffer_law blk' s1 Hs1 Hblk') as (s2 & -> & Hs2). cbn [mbind outcome_bind].
    assert (delivered used ks = []) as Hnil by (apply nil_length_inv; lia).
    exists used, r', ks. rewrite Hnil, app_nil_r. split_and!; auto. simpl. lia.
Qed.

Lemma commit_reader m data k b :
  buffer_ok b -> Available b = k -> (m <= Z.of_nat k)%Z -> m = Z.of_nat (length data) ->
  exists b', CommitWrite m (fill_available data b) = Ret b' /\ buffer_ok b' /\ Bytes b' = Bytes b ++ data.
Proof.
  intros Hb Ha Hm ->. destruct (commit_fill data b Hb) as [Hok HB]; [lia|]. unfold CommitWrite.
  assert (Available (fill_available data b) = Available b) as ->.
  { unfold Available, scap, fill_available; simpl. rewrite length_write_at; [done|].
    rewrite length_take. destruct Hb as [[Hl _] _]. unfold Available, scap in *. lia. }
  destruct (_ || _)%Z eqn:E; [apply orb_prop in E as [E%Z.ltb_lt|E%Z.ltb_lt]; lia|].
  rewrite Nat2Z.id. eexists. split; [done|]. by split.
Qed.

Lemma CReadFrom_spec r b s :
  store_ok s -> comp_ok b -> conforming r ->
  match CReadFrom r b s with
  | Ret (n, e, b', s') => exists used r' ks, r = used ++ r' /\ length ks = length used /\
      store_ok s' /\ comp_ok b' /\ cbytes b' = cbytes b ++ delivered used ks /\
      n = Z.of_nat (length (delivered used ks)) /\ e <> Some EOF
  | Panic e => e = PanicErrTooLarge
  end.
Proof.
  intros Hs Hb Hr. unfold CReadFrom. destruct (last (bufList b)) as [lst|] eqn:El; [|by apply ReadFrom_block_spec].
  cbv zeta. destruct (Nat.ltb_spec 0 (Available lst)) as [Hav|]; [|by apply ReadFrom_block_spec].
  pose proof (last_ok _ _ Hb El) as Hlst. destruct r as [|f r].
  { destruct (commit_reader 0 [] (Available lst) lst Hlst) as (lst' & -> & Hok & HB); [done|lia|done|].
    cbn [mbind outcome_bind]. destruct (comp_set_last b lst lst' 0 [] Hb El Hok HB) as [Hc HC]; [done|].
    exists [], [], []. by split_and!. }
  inversion Hr as [|? ? Hf Hr']; subst. specialize (Hf (Available lst)).
  destruct (f (Available lst)) as [[m data] e] eqn:Ef. destruct Hf as [Hm ->].
  destruct (commit_reader _ data (Available lst) lst Hlst eq_refl Hm eq_refl) as (lst' & -> & Hok & HB).
  cbn [mbind outcome_bind].
  destruct (comp_set_last b lst lst' _ data Hb El Hok HB eq_refl) as [Hc HC].
  assert (Hd : forall us ks, delivered (f :: us) (Available lst :: ks) = data ++ delivered us ks)
    by (intros; unfold delivered; simpl; by rewrite Ef).
  destruct e as [[| |z]|].
  1-3: exists [f], r, [Available lst]; rewrite Hd; unfold delivered; simpl; rewrite app_nil_r; by split_and!.
  pose proof (ReadFrom_block_spec (Z.of_nat (length data)) r _ s Hs Hc Hr') as HR.
  destruct (ReadFrom_block _ r _ s) as [[[[n' e] b'] s']|]; [|done].
  destruct HR as (used & r' & ks & -> & Hk & Hs' & Hb' & HB' & -> & He).
  exists (f :: used), r', (Available lst :: ks). rewrite Hd, HB', HC, app_assoc, length_app.
  split_and!; simpl; auto. lia.
Qed.

(** A writer that never counts more bytes than it was given. *)
Definition conforming_writer (w : nat -> list Z -> nat * option ioerr) : Prop :=
  forall i p, (w i p).1 <= length p.

Lemma WriteTo_loop_spec w i l :
  Forall buffer_ok l -> conforming_writer w ->
  exists n e l' k, WriteTo_loop w i l = Ret (n, e, l', k) /\ Forall buffer_ok l' /\
    concat (Bytes <$> drop k l') = drop n (concat (Bytes <$> l)) /\ n <= length (concat (Bytes <$> l)) /\
    (e = None -> n = length (concat (Bytes <$> l)) /\ drop k l' = []).
Proof.
  intros Hl Hw. revert i. induction Hl as [|b l Hb Hl IH]; intros i; csimpl.
  { exists 0, None, [], 0. by split_and!. }
  pose proof (WriteTo_spec (w i) b Hb) as HW. pose proof (length_Bytes b Hb) as HL.
  destruct (Buffer.WriteTo (w i) b) as [[[m e] b']|].
  2: { specialize (Hw i (Bytes b)). lia. }
  destruct HW as (Hb' & Hm & HB & _ & He & _). cbn [mbind outcome_bind]. rewrite length_app.
  destruct e as [e|].
  - exists m, (Some e), (b' :: l), 0. split; [done|]. split; [by constructor|]. csimpl.
    rewrite HB, drop_app_le by lia. split_and!; auto; [lia|done].
  - rewrite (He eq_refl) in *. destruct (IH (if 0 <? Len b then S i else i)) as (n & e & l' & k & -> & Hl' & HB' & Hn & He').
    cbn [mbind outcome_bind]. exists (Len b + n), e, (b' :: l'), (S k).
    split; [done|]. split; [by constructor|]. csimpl. rewrite drop_app_ge, HL by lia.
    replace (Len b + n - Len b) with n by lia. split; [done|]. split; [lia|].
    intros E. destruct (He' E) as [-> ?]. split; [lia|done].
Qed.

Lemma CWriteTo_spec w b s :
  store_ok s -> comp_ok b -> conforming_writer w ->
  exists n e b' s', CWriteTo w b s = Ret (n, e, b', s') /\ store_ok s' /\ comp_ok b' /\
    cbytes b' = drop n (cbytes b) /\ n <= length (cbytes b) /\
    (e = None -> n = length (cbytes b) /\ bufList b' = []).
Proof.
  intros Hs Hb Hw. pose proof (comp_ok_length b Hb) as HL. pose proof Hb as [Hl _]. unfold CWriteTo.
  destruct (WriteTo_loop_spec w 0 (bufList b) Hl Hw) as (n & e & l' & k & -> & Hl' & HB & Hn & He).
  change (concat (Bytes <$> bufList b)) with (cbytes b) in *. cbn [mbind outcome_bind].
  destruct (removeRange_ok k l' (c_length b - Z.of_nat n) s Hs Hl') as (s' & -> & Hs' & Hok).
  { rewrite HB, length_drop. lia. }
  cbn [mbind outcome_bind]. exists n, e. eexists _, s'. by split_and!.
Qed.

(** *** Looking without consuming *)

Lemma peek_copy_spec k l : peek_copy k l = take k (concat (Bytes <$> l)).
Proof.
  revert k. induction l as [|b l IH]; intros k; csimpl; [by destruct k|].
  rewrite length_take. destruct (Nat.eqb_spec (Nat.min k (length (Bytes b))) k).
  - by rewrite take_app_le by lia.
  - rewrite IH, (take_app_ge _ _ k), Nat.min_r, take_ge by lia. done.
Qed.

Lemma Peek_spec k b : comp_ok b -> Peek k b = take k (cbytes b).
Proof.
  intros [Hl _]. unfold Peek, cbytes. destruct (bufList b) as [|first l]; [by destruct k|].
  destruct (Nat.eqb_spec k 0) as [->|]; [done|]. inversion Hl as [|? ? Hf _]; subst.
  destruct (Nat.leb_spec k (Len first)); [|apply peek_copy_spec].
  csimpl. rewrite take_app_le; [done|]. rewrite length_Bytes by done. lia.
Qed.

Lemma PeekVecN_prefix limit b :
  comp_ok b ->
  let '(vec, n) := PeekVecN limit b in
  n = length (concat vec) /\ exists rest, cbytes b = concat vec ++ rest.
Proof.
  intros [Hl _]. unfold PeekVecN. destruct (_ || _); [split; [done|by exists (cbytes b)]|]. cbv zeta.
  set (k := Nat.min _ _). rewrite length_concat_Bytes by (by apply Forall_take). split; [done|].
  exists (concat (Bytes <$> drop k (bufList b))). unfold cbytes. by rewrite <-concat_app, <-fmap_app, take_drop.
Qed.

(** ** The segmented buffer as a byte queue *)

Inductive cop : Type :=
  | CopWrite (p : list Z) | CopWriteByte (c : Z) | CopWritev (vec : list (list Z))
  | CopWriteCoalesced (p : list Z) (blockSize : Z) | CopWritevCoalesced (vec : list (list Z)) (blockSize : Z)
  | CopReserve (data : list Z) (blockSize : Z)
  | CopAppendOwned (block : Buffer) | CopPrependOwned (block : Buffer) | CopAppendOwnedCoalesced (block : Buffer) (target : Z)
  | CopGather (n : Z) (tail : list Z)
  | CopRead (k : nat) | CopDiscard (n : Z) | CopPeek (k : nat)
  | CopWriteTo (w : nat -> list Z -> nat * option ioerr) | CopReset.

Inductive cres : Type := CDone | CCount (n : Z) | CBytes (p : list Z) | CStatus (p : list Z) (e : option ioerr).

(** What the caller owes: blocks handed over are well formed, writers keep
    io.Writer's contract. *)
Definition cop_ok (o : cop) : Prop :=
  match o with
  | CopAppendOwned blk | CopPrependOwned blk | CopAppendOwnedCoalesced blk _ => buffer_ok blk
  | CopWriteTo w => conforming_writer w
  | _ => True
  end.

Definition cstep (o : cop) (b : CompositeBuffer) (s : store) : outcome (cres * CompositeBuffer * store) :=
  match o with
  | CopWrite p => '(n, b, s) ← CWrite p b s; Ret (CCount (Z.of_nat n), b, s)
  | CopWriteByte c => '(b, s) ← CWriteByte c b s; Ret (CDone, b, s)
  | CopWritev vec => '(n, b, s) ← Writev vec b s; Ret (CCount (Z.of_nat n), b, s)
  | CopWriteCoalesced p bs => '(n, b, s) ← WriteCoalesced p bs b s; Ret (CCount (Z.of_nat n), b, s)
  | CopWritevCoalesced vec bs => '(n, b, s) ← WritevCoalesced vec bs b s; Ret (CCount (Z.of_nat n), b, s)
  | CopReserve data bs =>
      '(n, b, s) ← Reserve (Z.of_nat (length data)) bs b s;
      Ret (CCount (Z.of_nat n), if length data =? 0 then b else fill_reserved data b, s)
  | CopAppendOwned blk => '(b, s) ← AppendOwned (Some blk) b s; Ret (CDone, b, s)
  | CopPrependOwned blk => '(b, s) ← PrependOwned (Some blk) b s; Ret (CDone, b, s)
  | CopAppendOwnedCoalesced blk t => '(b, s) ← AppendOwnedCoalesced (Some blk) t b s; Ret (CDone, b, s)
  | CopGather n tail => '(rest, b, s) ← Gather n tail b s; Ret (CBytes rest, b, s)
  | CopRead k => '(data, e, b, s) ← CRead k b s; Ret (CStatus data e, b, s)
  | CopDiscard n => '(k, b, s) ← CDiscard n b s; Ret (CCount k, b, s)
  | CopPeek k => Ret (CBytes (Peek k b), b, s)
  | CopWriteTo w => '(n, e, b, s) ← CWriteTo w b s; Ret (CStatus [Z.of_nat n] e, b, s)
  | CopReset => '(b, s) ← CReset b s; Ret (CDone, b, s)
  end.

(** The queue's contract: [cspec o q r q'] says that [o] on the bytes [q] may
    answer [r] and leave [q']. *)
Definition cspec (o : cop) (q : list Z) (r : cres) (q' : list Z) : Prop :=
  match o with
  | CopWrite p | CopWriteCoalesced p _ | CopReserve p _ => r = CCount (Z.of_nat (length p)) /\ q' = q ++ p
  | CopWriteByte c => r = CDone /\ q' = q ++ [c]
  | CopWritev vec | CopWritevCoalesced vec _ => r = CCount (Z.of_nat (length (concat vec))) /\ q' = q ++ concat vec
  | CopAppendOwned blk | CopAppendOwnedCoalesced blk _ => r = CDone /\ q' = q ++ Bytes blk
  | CopPrependOwned blk => r = CDone /\ q' = Bytes blk ++ q
  | CopGather n tail => exists rest, r = CBytes rest /\ q ++ tail = q' ++ rest /\
      (rest <> [] -> n <= Z.of_nat (length q'))%Z
  | CopRead k => exists e, r = CStatus (take k q) e /\ q' = drop k q /\
      match e with
      | None => 0 < k -> q <> []
      | Some EOF => q' = []
      | _ => False
      end
  | CopDiscard n =>
      let k := if (n <=? 0)%Z then length q else Nat.min (Z.to_nat n) (length q) in
      r = CCount (Z.of_nat k) /\ q' = drop k q
  | CopPeek k => r = CBytes (take k q) /\ q' = q
  | CopWriteTo w => exists n e, r = CStatus [Z.of_nat n] e /\ q' = drop n q /\ n <= length q /\
      (e = None -> q' = [])
  | CopReset => r = CDone /\ q' = []
  end.

Fixpoint crun (ops : list cop) (b : CompositeBuffer) (s : store) : outcome (list cres * CompositeBuffer * store) :=
  match ops with
  | [] => Ret ([], b, s)
  | o :: ops => '(r, b, s) ← cstep o b s; '(rs, b, s) ← crun ops b s; Ret (r :: rs, b, s)
  end.

Inductive cspec_run : list cop -> list Z -> list cres -> list Z -> Prop :=
  | cspec_nil q : cspec_run [] q [] q
  | cspec_cons o ops q r q' rs q'' :
      cspec o q r q' -> cspec_run ops q' rs q'' -> cspec_run (o :: ops) q (r :: rs) q''.

(** An operation that answers [r], keeps the invariants and obeys the queue. *)
Definition cstep_good (o : cop) (b : CompositeBuffer) (s : store) : Prop :=
  exists r b' s', cstep o b s = Ret (r, b', s') /\ store_ok s' /\ comp_ok b' /\ cspec o (cbytes b) r (cbytes b').

Ltac use_spec H :=
  let Hs' := fresh "Hs" in let Hb' := fresh "Hb" in
  destruct H as (? & ? & -> & Hs' & Hb' & ?); cbn [mbind outcome_bind]; eexists _, _, _;
  split; [reflexivity|]; split; [exact Hs'|]; split; [exact Hb'|].

Lemma cstep_writes o b s :
  match o with
  | CopWrite _ | CopWriteByte _ | CopWritev _ | CopWriteCoalesced _ _ | CopWritevCoalesced _ _ | CopReserve _ _ => True
  | _ => False
  end -> store_ok s -> comp_ok b -> cstep_good o b s.
Proof.
  intros Ho Hs Hb. unfold cstep_good. destruct o as [p|c|vec|p bs|vec bs|data bs| | | | | | | | |]; try done; simpl.
  - by use_spec (CWrite_spec p b s Hs Hb).
  - unfold CWriteByte. by use_spec (CWrite_spec [c] b s Hs Hb).
  - unfold Writev. by use_spec (Writev_spec vec 0 b s Hs Hb).
  - rewrite WriteCoalesced_eq. use_spec (WritevCoalesced_spec [p] bs b s Hs Hb).
    simpl in *. rewrite app_nil_r in *. done.
  - by use_spec (WritevCoalesced_spec vec bs b s Hs Hb).
  - destruct (Nat.eqb_spec (length data) 0) as [E|E].
    + rewrite E. apply nil_length_inv in E as ->. simpl. eexists _, _, _. rewrite app_nil_r. by split_and!.
    + destruct (Reserve_spec (Z.of_nat (length data)) bs b s Hs Hb) as (b' & s' & -> & Hs' & _ & Hf); [lia|].
      destruct (Hf data eq_refl) as [Hok HB]. cbn [mbind outcome_bind]. rewrite Nat2Z.id.
      eexists _, _, _. by split_and!.
Qed.

Lemma cstep_refines o b s : store_ok s -> comp_ok b -> cop_ok o -> cstep_good o b s.
Proof.
  intros Hs Hb Ho.
  destruct o as [p|c|vec|p bs|vec bs|data bs|blk|blk|blk t|n tail|k|n|k|w|]; try (by apply cstep_writes);
    unfold cstep_good; cbn [cstep cop_ok cspec] in *.
  - by use_spec (AppendOwned_spec blk b s Hs Hb Ho).
  - by use_spec (PrependOwned_spec blk b s Hs Hb Ho).
  - by use_spec (AppendOwnedCoalesced_spec blk t b s Hs Hb Ho).
  - destruct (Gather_spec n tail b s Hs Hb) as (rest & b' & s' & blk & -> & Hs' & Hb' & HB & _ & _ & Hr).
    cbn [mbind outcome_bind]. eexists _, _, _. split_and!; eauto.
  - destruct (CRead_spec k b s Hs Hb) as (e & b' & s' & -> & Hs' & Hb' & HB & He).
    cbn [mbind outcome_bind]. eexists _, _, _. split_and!; eauto. exists e. split_and!; auto.
    destruct e as [[]|]; [apply He|done..].
  - destruct (CDiscard_spec n b s Hs Hb) as (b' & s' & -> & Hs' & Hb' & HB).
    cbn [mbind outcome_bind]. eexists _, _, _. split_and!; eauto; unfold CLen in *; rewrite ?HB, (comp_ok_length b Hb);
      destruct (Z.leb_spec n 0); do 2 f_equal; lia.
  - eexists _, _, _. split_and!; eauto. by rewrite Peek_spec.
  - destruct (CWriteTo_spec w b s Hs Hb Ho) as (n & e & b' & s' & -> & Hs' & Hb' & HB & Hn & He).
    cbn [mbind outcome_bind]. eexists _, _, _. split_and!; eauto. exists n, e. split_and!; auto.
    intros E. destruct (He E) as [-> _]. by rewrite HB, drop_ge.
  - destruct (CReset_spec b s Hs Hb) as (s' & -> & Hs'). cbn [mbind outcome_bind].
    eexists _, _, _. split_and!; eauto. by apply comp_ok_make.
Qed.
End Facts.

(** C1. The segmented buffer implements a byte queue over any conforming block
    store: every sequence of copying, coalescing, reserving, owning, gathering,
    reading, peeking, discarding and flushing operations ends (no panic, no
    unbounded loop), answers what the queue answers and keeps the block list,
    the byte count and the pools well formed. *)
Theorem composite_refines_byte_queue `{GoRuntime} `{BlockStore} ops b s :
  store_ok s -> comp_ok b -> Forall cop_ok ops ->
  exists rs b' s', crun ops b s = Ret (rs, b', s') /\ store_ok s' /\ comp_ok b' /\
    cspec_run ops (cbytes b) rs (cbytes b').
Proof.
  intros Hs Hb Hops. revert b s Hs Hb. induction Hops as [|o ops Ho _ IH]; intros b s Hs Hb; simpl.
  { exists [], b, s. split_and!; auto. constructor. }
  destruct (cstep_refines o b s Hs Hb Ho) as (r & b1 & s1 & -> & Hs1 & Hb1 & Hc). cbn [mbind outcome_bind].
  destruct (IH b1 s1 Hs1 Hb1) as (rs & b' & s' & -> & Hs' & Hb' & Hr). cbn [mbind outcome_bind].
  exists (r :: rs), b', s'. split_and!; auto. by econstructor.
Qed.

Definition sample_ops : list cop :=
  [CopWrite [1; 2; 3]; CopReserve [4; 5] 4096; CopWriteCoalesced [6] 64; CopPeek 4; CopRead 2; CopDiscard 3; CopRead 9]%Z.

Lemma composite_refines_byte_queue_witness :
  exists s, init_pools 1 (fun _ => (0, 0)) = Ret s /\
  exists rs b' s', @crun tiny_runtime pools_store sample_ops NewCompositeBuffer s = Ret (rs, b', s') /\
    pools_ok s' /\ comp_ok b' /\ cspec_run sample_ops [] rs (cbytes b').
Proof.
  destruct (init_pools_spec 1 (fun _ => (0, 0))) as (s & E & Hs). exists s. split; [exact E|].
  apply (@composite_refines_byte_queue tiny_runtime pools_store sample_ops NewCompositeBuffer s Hs).
  - by apply comp_ok_make.
  - repeat constructor.
Defined.

Example composite_run_example :
  (s ← init_pools 1 (fun _ => (0, 0));
   '(rs, b, _) ← @crun tiny_runtime pools_store sample_ops NewCompositeBuffer s; Ret (rs, Blocks b)) =
  Ret ([CCount 3; CCount 2; CCount 1; CBytes [1; 2; 3; 4]; CStatus [1; 2] None; CCount 3; CStatus [6] None]%Z, 0).
Proof. vm_compute. reflexivity. Qed.

(** ReadFrom drains a conforming reader into the segmented buffer, the room
    of its last block first: the bytes added are exactly those the reader
    delivered, in order, its count is their number, io.EOF is never reported,
    and the only panic is ErrTooLarge. *)
Theorem composite_readfrom_collects `{GoRuntime} `{BlockStore} r b s :
  store_ok s -> comp_ok b -> conforming r ->
  match CReadFrom r b s with
  | Ret (n, e, b', s') => exists used r' ks, r = used ++ r' /\ length ks = length used /\
      store_ok s' /\ comp_ok b' /\ cbytes b' = cbytes b ++ delivered used ks /\
      n = Z.of_nat (length (delivered used ks)) /\ e <> Some EOF
  | Panic e => e = PanicErrTooLarge
  end.
Proof. apply CReadFrom_spec. Qed.

(** Gather leaves the unread bytes and what it took of [tail] in one
    contiguous block with room for [n] bytes in all, so a partial message can be
    completed in place; bytes it did not take are returned, and there are some
    only once [n] bytes are gathered. *)
Theorem gather_contiguous `{GoRuntime} `{BlockStore} n tail b s :
  store_ok s -> comp_ok b ->
  exists rest b' s' blk, Gather n tail b s = Ret (rest, b', s') /\ store_ok s' /\ comp_ok b' /\
    bufList b' = [blk] /\ Bytes blk ++ rest = cbytes b ++ tail /\
    (n <= Z.of_nat (Len blk + Available blk))%Z /\ PeekChunk b' = Bytes blk /\
    (rest <> [] -> n <= Z.of_nat (Len blk))%Z.
Proof.
  intros Hs Hb. destruct (Gather_spec n tail b s Hs Hb) as (rest & b' & s' & blk & E & Hs' & Hb' & HB & HL & Hn & Hr).
  assert (HC : cbytes b' = Bytes blk) by (unfold cbytes; rewrite HL; simpl; by rewrite app_nil_r).
  pose proof (comp_blocks b' Hb') as Hf. rewrite HL, Forall_singleton in Hf.
  rewrite HC, length_Bytes in Hr by done. rewrite HC in HB.
  exists rest, b', s', blk. split_and!; auto. unfold PeekChunk. by rewrite HL.
Qed.

(** ** Where Read and PeekVec differ from their comments *)

(** Read's comment exempts a zero-length read from io.EOF; with no block queued
    the code reports it whatever the length. *)
Lemma read_without_blocks_is_eof `{GoRuntime} `{BlockStore} k b s :
  bufList b = [] -> CRead k b s = Ret ([], Some EOF, b, s).
Proof. intros E. unfold CRead. by rewrite E. Qed.

(** PeekVec's comment says it appends to dst; with no block queued it drops it. *)
Lemma peekvec_without_blocks dst b : bufList b = [] -> PeekVec dst b = ([], 0).
Proof. intros E. unfold PeekVec. by rewrite E. Qed.

Definition eof_ops : list cop :=
  [CopGather 4 []; CopPrependOwned (NewBuffer (MkSlice [1]%Z 1 false)); CopRead 5].

(** Read's comment promises a nil error whenever there was data.  After Gather
    reserved an empty block and a block was put in front of it, one Read both
    returns the byte and reports io.EOF. *)
Lemma read_data_with_eof :
  (s ← init_pools 1 (fun _ => (0, 0));
   '(rs, _, _) ← @crun tiny_runtime pools_store eof_ops NewCompositeBuffer s; Ret rs) =
  Ret [CBytes []; CDone; CStatus [1]%Z (Some EOF)].
Proof. vm_compute. reflexivity. Qed.
