(* ===== verification/Endian.v ===== *)
(** * Byte order: the part of encoding/binary the frame codecs use

    [le_bytes n z] and [be_bytes n z] are the [n] bytes PutUint stores for [z],
    [le_val] and [be_val] what Uint reads back.  The two are inverse at every
    width. *)

From S2P Require Import Prelude.
Local Open Scope Z_scope.

Fixpoint le_bytes (n : nat) (z : Z) : list Z :=
  match n with
  | O => []
  | S n => Z.land z 255 :: le_bytes n (Z.shiftr z 8)
  end.

Fixpoint le_val (l : list Z) : Z :=
  match l with
  | [] => 0
  | b :: l => Z.lor b (Z.shiftl (le_val l) 8)
  end.

Definition be_bytes (n : nat) (z : Z) : list Z := reverse (le_bytes n z).
Definition be_val (l : list Z) : Z := le_val (reverse l).

Lemma byte_lor b x : is_byte b -> Z.lor b (Z.shiftl x 8) = b + 256 * x.
Proof.
  intros Hb. assert (Hd : Z.land b (Z.shiftl x 8) = 0).
  { apply Z.bits_inj'. intros i Hi. rewrite Z.land_spec, Z.bits_0, Z.shiftl_spec by lia.
    destruct (Z.ltb_spec i 8); [rewrite (Z.testbit_neg_r x) by lia; apply andb_false_r|].
    rewrite Z.bits_above_log2; [done|unfold is_uint in Hb; lia|].
    destruct (Z.eq_dec b 0) as [->|]; [simpl; lia|].
    apply (Z.log2_lt_pow2 b i); [unfold is_uint in Hb; lia|].
    unfold is_uint in Hb. pose proof (Z.pow_le_mono_r 2 8 i). lia. }
  rewrite <-Z.lxor_lor by done. rewrite <-Z.add_nocarry_lxor by done.
  rewrite Z.shiftl_mul_pow2 by lia. lia.
Qed.

Lemma land_255 z : Z.land z 255 = z mod 256.
Proof. change 255 with (Z.ones 8). by rewrite Z.land_ones by lia. Qed.

Lemma land_255_byte z : is_byte (Z.land z 255).
Proof. rewrite land_255. apply Z.mod_pos_bound. lia. Qed.

Lemma length_le_bytes n z : length (le_bytes n z) = n.
Proof. revert z. induction n; intros; simpl; auto. Qed.

Lemma length_be_bytes n z : length (be_bytes n z) = n.
Proof. unfold be_bytes. by rewrite length_reverse, length_le_bytes. Qed.

Lemma le_bytes_byte n z : Forall is_byte (le_bytes n z).
Proof. revert z. induction n; intros; simpl; constructor; auto using land_255_byte. Qed.

Lemma be_bytes_byte n z : Forall is_byte (be_bytes n z).
Proof. unfold be_bytes. apply Forall_reverse, le_bytes_byte. Qed.

Lemma pow_256_S n : 2 ^ (8 * Z.of_nat (S n)) = 256 * 2 ^ (8 * Z.of_nat n).
Proof. replace (8 * Z.of_nat (S n)) with (8 + 8 * Z.of_nat n) by lia. rewrite Z.pow_add_r by lia. lia. Qed.

Lemma le_val_le_bytes n z : le_val (le_bytes n z) = z mod 2 ^ (8 * Z.of_nat n).
Proof.
  revert z. induction n as [|n IH]; intros z; simpl le_bytes; simpl le_val.
  { by rewrite Z.mod_1_r. }
  rewrite byte_lor by apply land_255_byte. rewrite IH, land_255, pow_256_S, Z.shiftr_div_pow2 by lia.
  change (2 ^ 8) with 256. rewrite Z.rem_mul_r by lia. lia.
Qed.

Lemma le_val_uint l : Forall is_byte l -> is_uint (8 * Z.of_nat (length l)) (le_val l).
Proof.
  induction 1 as [|b l Hb _ IH]; simpl le_val; [split; simpl; lia|]. rewrite byte_lor by done.
  unfold is_uint in *. simpl length. rewrite pow_256_S. lia.
Qed.

Lemma le_bytes_le_val l : Forall is_byte l -> le_bytes (length l) (le_val l) = l.
Proof.
  induction 1 as [|b l Hb _ IH]; simpl; [done|]. rewrite byte_lor by done.
  unfold is_uint in Hb. f_equal; [rewrite land_255|].
  - replace (b + 256 * le_val l) with (b + le_val l * 256) by lia. rewrite Z.mod_add by lia. apply Z.mod_small. lia.
  - rewrite Z.shiftr_div_pow2 by lia. change (2 ^ 8) with 256.
    replace (b + 256 * le_val l) with (b + le_val l * 256) by lia.
    rewrite Z.div_add, Z.div_small by lia. exact IH.
Qed.

Lemma be_val_be_bytes n z : is_uint (8 * Z.of_nat n) z -> be_val (be_bytes n z) = z.
Proof.
  intros Hz. unfold be_val, be_bytes. rewrite reverse_involutive, le_val_le_bytes. by apply Z.mod_small.
Qed.

Lemma be_bytes_be_val l : Forall is_byte l -> be_bytes (length l) (be_val l) = l.
Proof.
  intros Hl. unfold be_val, be_bytes. rewrite <-(length_reverse l), le_bytes_le_val, reverse_involutive; [done|].
  by apply Forall_reverse.
Qed.

Lemma be_val_uint l : Forall is_byte l -> is_uint (8 * Z.of_nat (length l)) (be_val l).
Proof. intros Hl. unfold be_val. rewrite <-(length_reverse l). by apply le_val_uint, Forall_reverse. Qed.

#[export] Hint Resolve le_bytes_byte be_bytes_byte land_255_byte : uio.
#[export] Hint Rewrite length_le_bytes length_be_bytes : uio.
