(* ===== verification/MuxFrame.v ===== *)
(** * umux/frame.go and session.go's readFrame: the multiplexer's wire format

    The 12-byte header codec, the per-type validation and the function that
    pulls one frame off the transport's inbound buffer.  readFrame is written
    against [Inbound], the part of uio.Conn it calls; the segmented buffer of
    Composite.v is an instance. *)

From S2P Require Import Prelude.
From S2P Require Import Endian Buffer BufPool Composite.
Local Open Scope Z_scope.

Definition protoVersion : Z := 0.
Definition headerSize : nat := 12.

Definition typeData : Z := 0.
Definition typeWindowUpdate : Z := 1.
Definition typePing : Z := 2.
Definition typeGoAway : Z := 3.
Definition typeSynMetadata : Z := 4.

Definition flagSYN : Z := Z.shiftl 1 0.
Definition flagACK : Z := Z.shiftl 1 1.
Definition flagFIN : Z := Z.shiftl 1 2.
Definition flagRST : Z := Z.shiftl 1 3.
Definition allFlags : Z := Z.lor (Z.lor (Z.lor flagSYN flagACK) flagFIN) flagRST.

Definition goAwayNormal : Z := 0.
Definition goAwayProtocol : Z := 1.
Definition goAwayInternal : Z := 2.

Inductive frame_error : Type := errFrameShort | errFrameVersion | errFrameType | errFrameFlags | errFrameLength.

Record frameHeader : Type := MkHeader {
  version : Z;
  typ : Z;
  flags : Z;
  streamID : Z;
  hlength : Z
}.

#[export] Instance frame_error_eq_dec : EqDecision frame_error.
Proof. solve_decision. Defined.
#[export] Instance frameHeader_eq_dec : EqDecision frameHeader.
Proof. solve_decision. Defined.

(** [b[i:j]] *)
Definition sub (i j : nat) (b : list Z) : list Z := take (j - i) (drop i b).

Definition decodeHeader (b : list Z) : frameHeader + frame_error :=
  if (length b <? headerSize)%nat then inr errFrameShort
  else
    let h := MkHeader (nth 0 b 0) (nth 1 b 0) (be_val (sub 2 4 b)) (be_val (sub 4 8 b)) (be_val (sub 8 12 b)) in
    if negb (version h =? protoVersion) then inr errFrameVersion
    else if typeSynMetadata <? typ h then inr errFrameType
    else if negb (Z.ldiff (flags h) allFlags =? 0) then inr errFrameFlags
    else inl h.

(** encodeHeader writes into [dst], which must hold a header. *)
Definition encodeHeader (dst : list Z) (h : frameHeader) : outcome (list Z) :=
  if (length dst <? headerSize)%nat then Panic PanicSliceBounds
  else Ret ([protoVersion; typ h] ++ be_bytes 2 (flags h) ++ be_bytes 4 (streamID h) ++ be_bytes 4 (hlength h)
            ++ drop headerSize dst).

Definition validateFrame (h : frameHeader) (maxData maxMeta : Z) : option frame_error :=
  if typ h =? typeData then
    if maxData <? hlength h then Some errFrameLength else None
  else if typ h =? typeWindowUpdate then
    if streamID h =? 0 then Some errFrameFlags else None
  else if typ h =? typeGoAway then
    if negb (streamID h =? 0) then Some errFrameFlags else None
  else if typ h =? typeSynMetadata then
    if negb (flags h =? flagSYN) || (streamID h =? 0) then Some errFrameFlags
    else if (hlength h <? 4) || (maxMeta <? wrap 32 (hlength h - 4)) then Some errFrameLength
    else None
  else None.

(** ** The inbound side of the transport *)

Class Inbound : Type := {
  conn : Type;
  conn_ok : conn -> Prop;
  unread : conn -> list Z;
  conn_Peek : nat -> conn -> list Z;
  conn_InboundBuffered : conn -> Z;
  conn_PeekChunk : conn -> list Z;
  conn_Read : nat -> conn -> outcome (list Z * option ioerr * conn);
  conn_Discard : Z -> conn -> outcome (Z * conn);
  conn_Peek_law k c : conn_ok c -> conn_Peek k c = take k (unread c);
  conn_InboundBuffered_law c : conn_ok c -> conn_InboundBuffered c = Z.of_nat (length (unread c));
  conn_PeekChunk_law c : conn_ok c -> exists rest, unread c = conn_PeekChunk c ++ rest;
  conn_Read_law k c : conn_ok c -> (0 < k <= length (unread c))%nat ->
    exists c', conn_Read k c = Ret (take k (unread c), None, c') /\ conn_ok c' /\ unread c' = drop k (unread c);
  conn_Discard_law n c : conn_ok c -> 0 < n <= Z.of_nat (length (unread c)) ->
    exists c', conn_Discard n c = Ret (n, c') /\ conn_ok c' /\ unread c' = drop (Z.to_nat n) (unread c)
}.

Section ReadFrame.
Context `{Inbound}.

Record frame : Type := MkFrame {
  hdr : frameHeader;
  payload : list Z;
  total : nat;
  borrowed : bool;
  consumed : bool
}.

Definition carries_payload (t : Z) : bool := (t =? typeData) || (t =? typeSynMetadata).

Inductive read_error : Type := FrameError (e : frame_error) | IOError (e : ioerr).

Definition readFrame (maxFrame maxMeta : Z) (c : conn) : outcome (option frame * option read_error * conn) :=
  let got := conn_Peek headerSize c in
  if (length got <? headerSize)%nat then Ret (None, None, c)
  else
    match decodeHeader got with
    | inr e => Ret (None, Some (FrameError e), c)
    | inl h =>
        match validateFrame h (wrap 32 maxFrame) (wrap 32 maxMeta) with
        | Some e => Ret (None, Some (FrameError e), c)
        | None =>
            let total := (headerSize + if carries_payload (typ h) then Z.to_nat (hlength h) else 0)%nat in
            if conn_InboundBuffered c <? Z.of_nat total then Ret (None, None, c)
            else if negb (carries_payload (typ h)) || (hlength h =? 0) then
              Ret (Some (MkFrame h [] total false false), None, c)
            else
              let chunk := conn_PeekChunk c in
              if (total <=? length chunk)%nat then
                Ret (Some (MkFrame h (sub headerSize total chunk) total true false), None, c)
              else
                '(data, err, c) ← conn_Read total c;
                match err with
                | Some e => Ret (None, Some (IOError e), c)
                | None => Ret (Some (MkFrame h (drop headerSize data) total false true), None, c)
                end
        end
    end.

(** onRead's loop without the dispatch: frames are taken until none is
    complete, each consumed unless readFrame already did. *)
Fixpoint readFrames (fuel : nat) (maxFrame maxMeta : Z) (c : conn) : outcome (list (frameHeader * list Z) * option read_error * conn) :=
  match fuel with
  | O => Panic FuelExhausted
  | S fuel =>
      '(fr, err, c) ← readFrame maxFrame maxMeta c;
      match err, fr with
      | Some e, _ => Ret ([], Some e, c)
      | None, None => Ret ([], None, c)
      | None, Some fr =>
          '(_, c) ← (if consumed fr then Ret (0, c) else conn_Discard (Z.of_nat (total fr)) c);
          '(frs, err, c) ← readFrames fuel maxFrame maxMeta c;
          Ret ((hdr fr, payload fr) :: frs, err, c)
      end
  end.
End ReadFrame.

(** ** The format itself: one frame at the front of a byte string *)

Inductive scanned : Type :=
| Incomplete
| Bad (e : frame_error)
| Good (h : frameHeader) (p rest : list Z).

Definition scan (maxFrame maxMeta : Z) (q : list Z) : scanned :=
  if (length q <? headerSize)%nat then Incomplete
  else
    match decodeHeader (take headerSize q) with
    | inr e => Bad e
    | inl h =>
        match validateFrame h (wrap 32 maxFrame) (wrap 32 maxMeta) with
        | Some e => Bad e
        | None =>
            let n := if carries_payload (typ h) then Z.to_nat (hlength h) else 0%nat in
            if (length q <? headerSize + n)%nat then Incomplete
            else Good h (sub headerSize (headerSize + n) q) (drop (headerSize + n) q)
        end
    end.

Fixpoint scan_all (fuel : nat) (maxFrame maxMeta : Z) (q : list Z) : list (frameHeader * list Z) * option read_error * list Z :=
  match fuel with
  | O => ([], None, q)
  | S fuel =>
      match scan maxFrame maxMeta q with
      | Incomplete => ([], None, q)
      | Bad e => ([], Some (FrameError e), q)
      | Good h p rest =>
          let '(frs, err, q') := scan_all fuel maxFrame maxMeta rest in ((h, p) :: frs, err, q')
      end
  end.

(** A header as the encoder can be given one: every field within its width. *)
Record header_ok (h : frameHeader) : Prop := {
  hdr_version : version h = protoVersion;
  hdr_typ : 0 <= typ h <= typeSynMetadata;
  hdr_flags : is_uint 16 (flags h) /\ Z.ldiff (flags h) allFlags = 0;
  hdr_stream : is_uint 32 (streamID h);
  hdr_length : is_uint 32 (hlength h)
}.

(** ** Round trips *)

Lemma header_fields v t f s n rest :
  length f = 2%nat -> length s = 4%nat -> length n = 4%nat ->
  let b := v :: t :: f ++ s ++ n ++ rest in
  sub 2 4 b = f /\ sub 4 8 b = s /\ sub 8 12 b = n /\ drop headerSize b = rest.
Proof.
  intros Hf Hs Hn.
  destruct f as [|f0 [|f1 [|]]]; try done. destruct s as [|s0 [|s1 [|s2 [|s3 [|]]]]]; try done.
  destruct n as [|n0 [|n1 [|n2 [|n3 [|]]]]]; try done.
Qed.

Lemma header_split b :
  (headerSize <= length b)%nat ->
  b = nth 0 b 0 :: nth 1 b 0 :: sub 2 4 b ++ sub 4 8 b ++ sub 8 12 b ++ drop headerSize b.
Proof.
  intros Hb. do 12 (destruct b as [|? b]; [simpl in Hb; unfold headerSize in Hb; lia|]). done.
Qed.

Lemma length_sub i j b : (i <= j <= length b)%nat -> length (sub i j b) = (j - i)%nat.
Proof. intros. unfold sub. rewrite length_take, length_drop. lia. Qed.

Lemma sub_bytes i j b : Forall is_byte b -> Forall is_byte (sub i j b).
Proof. intros. by apply Forall_take, Forall_drop. Qed.

Lemma decodeHeader_take b k : (headerSize <= k)%nat -> (headerSize <= length b)%nat -> decodeHeader (take k b) = decodeHeader b.
Proof.
  intros Hk Hb. unfold decodeHeader. rewrite length_take.
  destruct (Nat.ltb_spec (Nat.min k (length b)) headerSize); [lia|].
  destruct (Nat.ltb_spec (length b) headerSize); [lia|].
  unfold headerSize in *. do 12 (destruct k as [|k]; [lia|]). clear Hk.
  do 12 (destruct b as [|? b]; [simpl in Hb; lia|]). done.
Qed.

Lemma encodeHeader_spec dst h :
  (headerSize <= length dst)%nat -> header_ok h ->
  exists b, encodeHeader dst h = Ret b /\ length b = length dst /\ drop headerSize b = drop headerSize dst /\
    decodeHeader b = inl h.
Proof.
  intros Hd [Hv Ht [Hf Hm] Hs Hl]. unfold encodeHeader. destruct (Nat.ltb_spec (length dst) headerSize); [lia|].
  destruct (header_fields protoVersion (typ h) (be_bytes 2 (flags h)) (be_bytes 4 (streamID h)) (be_bytes 4 (hlength h))
    (drop headerSize dst)) as (E1 & E2 & E3 & E4); [apply length_be_bytes..|].
  eexists. split; [done|]. cbn [app]. set (b := protoVersion :: _) in *.
  assert (Hb : length b = length dst).
  { unfold b. cbn [length]. rewrite !length_app, !length_be_bytes, length_drop. unfold headerSize in *. lia. }
  split; [done|]. split; [done|]. unfold decodeHeader. rewrite Hb.
  destruct (Nat.ltb_spec (length dst) headerSize); [lia|]. cbv zeta. rewrite E1, E2, E3.
  rewrite !be_val_be_bytes by done. change (nth 0 b 0) with protoVersion. change (nth 1 b 0) with (typ h).
  cbn [version typ flags]. rewrite Z.eqb_refl. cbn [negb]. destruct (Z.ltb_spec typeSynMetadata (typ h)); [lia|].
  rewrite Hm, Z.eqb_refl. cbn [negb]. rewrite <-Hv. by destruct h.
Qed.

(** The header codec is exact: decoding what was encoded gives the header
    back and leaves the bytes after it alone, and a header that decodes is the
    only one with those bytes, so encoding it again changes nothing. *)
Theorem header_roundtrip dst h :
  (headerSize <= length dst)%nat -> Forall is_byte dst ->
  (header_ok h -> exists b, encodeHeader dst h = Ret b /\ length b = length dst /\
     drop headerSize b = drop headerSize dst /\ decodeHeader b = inl h) /\
  (decodeHeader dst = inl h -> header_ok h /\ encodeHeader dst h = Ret dst).
Proof.
  intros Hd Hby. split; [by apply encodeHeader_spec|].
  unfold decodeHeader, encodeHeader. destruct (Nat.ltb_spec (length dst) headerSize); [lia|]. cbv zeta.
  cbn [version typ flags]. intros E.
  destruct (negb (nth 0 dst 0 =? protoVersion)) eqn:Ev; [done|].
  destruct (Z.ltb_spec typeSynMetadata (nth 1 dst 0)); [done|].
  destruct (negb (Z.ldiff _ allFlags =? 0)) eqn:Em; [done|]. injection E as <-. cbn [typ flags streamID hlength].
  apply negb_false_iff, Z.eqb_eq in Ev, Em.
  assert (Hlen : forall i j, (i <= j <= 12)%nat -> length (sub i j dst) = (j - i)%nat)
    by (intros; apply length_sub; unfold headerSize in *; lia).
  assert (Hu : forall i j, (i <= j <= 12)%nat -> is_uint (8 * Z.of_nat (j - i)) (be_val (sub i j dst)) /\
    be_bytes (j - i) (be_val (sub i j dst)) = sub i j dst).
  { intros i j Hij. rewrite <-(Hlen i j) by done. split; [apply be_val_uint|apply be_bytes_be_val]; by apply sub_bytes. }
  split.
  - split; cbn [version typ flags streamID hlength]; [done| |split; [apply (Hu 2%nat 4%nat); lia|done]|
      apply (Hu 4%nat 8%nat); lia|apply (Hu 8%nat 12%nat); lia].
    split; [|done]. destruct dst as [|b0 [|b1 dst]]; [by (unfold headerSize in *; simpl in *; lia)..|].
    apply Forall_cons_1 in Hby as [_ Hby]. apply Forall_cons_1 in Hby as [Hb1 _]. apply Hb1.
  - f_equal. etrans; [|symmetry; by apply header_split]. cbn [app]. rewrite Ev.
    by rewrite (proj2 (Hu 2%nat 4%nat ltac:(lia)) : be_bytes 2 _ = _),
      (proj2 (Hu 4%nat 8%nat ltac:(lia)) : be_bytes 4 _ = _), (proj2 (Hu 8%nat 12%nat ltac:(lia)) : be_bytes 4 _ = _).
Qed.

Definition sample_header : frameHeader := MkHeader 0 typeData flagFIN 7 3.

(** ** Reading frames off a segmented inbound buffer *)

Section ReadFacts.
Context `{Inbound}.

(** readFrame finds what the format defines at the front of the unread bytes,
    wherever the buffer is split; a frame it did not consume is still there. *)
Lemma readFrame_spec maxFrame maxMeta c :
  conn_ok c ->
  match scan maxFrame maxMeta (unread c) with
  | Incomplete => readFrame maxFrame maxMeta c = Ret (None, None, c)
  | Bad e => readFrame maxFrame maxMeta c = Ret (None, Some (FrameError e), c)
  | Good h p rest => exists fr c', readFrame maxFrame maxMeta c = Ret (Some fr, None, c') /\
      conn_ok c' /\ hdr fr = h /\ payload fr = p /\ (headerSize <= total fr <= length (unread c))%nat /\
      rest = drop (total fr) (unread c) /\
      (if consumed fr then unread c' = rest else c' = c)
  end.
Proof.
  intros Hc. unfold scan, readFrame. cbv zeta. rewrite conn_Peek_law, conn_InboundBuffered_law by done. set (q := unread c).
  rewrite length_take. destruct (Nat.ltb_spec (length q) headerSize) as [Hq|Hq].
  { destruct (Nat.ltb_spec (Nat.min headerSize (length q)) headerSize); [done|lia]. }
  destruct (Nat.ltb_spec (Nat.min headerSize (length q)) headerSize); [lia|].
  destruct (decodeHeader (take headerSize q)) as [h|e]; [|done].
  destruct (validateFrame h _ _); [done|].
  set (n := if carries_payload (typ h) then _ else _).
  destruct (Nat.ltb_spec (length q) (headerSize + n)) as [Hn|Hn].
  { destruct (Z.ltb_spec (Z.of_nat (length q)) (Z.of_nat (headerSize + n))); [done|lia]. }
  destruct (Z.ltb_spec (Z.of_nat (length q)) (Z.of_nat (headerSize + n))); [lia|].
  destruct (negb (carries_payload (typ h)) || (hlength h =? 0)) eqn:Ep.
  { assert (n = 0%nat) as ->.
    { unfold n. destruct (carries_payload (typ h)); [|done]. simpl in Ep. apply Z.eqb_eq in Ep as ->. done. }
    eexists _, c. split; [done|]. cbn [hdr payload total consumed]. split_and!; auto; lia. }
  destruct (Nat.leb_spec (headerSize + n) (length (conn_PeekChunk c))) as [Hch|Hch].
  - destruct (conn_PeekChunk_law c Hc) as [rest Hr]. fold q in Hr.
    eexists _, c. split; [done|]. cbn [hdr payload total consumed]. split_and!; auto; try lia.
    rewrite Hr. unfold sub. rewrite drop_app_le, take_app_le; [done|rewrite length_drop; lia|lia].
  - destruct (conn_Read_law (headerSize + n) c Hc) as (c' & -> & Hc' & HU); [unfold headerSize in *; fold q; lia|].
    cbn [mbind outcome_bind]. eexists _, c'. split; [done|]. cbn [hdr payload total consumed]. split_and!; auto; try lia.
    fold q. unfold sub. by rewrite skipn_firstn_comm.
Qed.

Lemma scan_Good_shorter maxFrame maxMeta q h p rest :
  scan maxFrame maxMeta q = Good h p rest -> (length rest + headerSize <= length q)%nat.
Proof.
  unfold scan. destruct (Nat.ltb_spec (length q) headerSize); [done|].
  destruct (decodeHeader _) as [h'|]; [|done]. destruct (validateFrame _ _ _); [done|]. cbv zeta.
  set (n := if carries_payload (typ h') then _ else _). destruct (Nat.ltb_spec (length q) (headerSize + n)); [done|].
  intros E. assert (rest = drop (headerSize + n) q) as -> by congruence. rewrite length_drop. lia.
Qed.

Lemma readFrames_spec fuel maxFrame maxMeta c :
  conn_ok c -> (length (unread c) < fuel)%nat ->
  exists frs err c', readFrames fuel maxFrame maxMeta c = Ret (frs, err, c') /\ conn_ok c' /\
    scan_all fuel maxFrame maxMeta (unread c) = (frs, err, unread c').
Proof.
  revert c. induction fuel as [|fuel IH]; intros c Hc Hf; [lia|]. cbn [readFrames scan_all].
  pose proof (readFrame_spec maxFrame maxMeta c Hc) as HR.
  destruct (scan maxFrame maxMeta (unread c)) as [|e|h p rest] eqn:Es.
  - rewrite HR. cbn [mbind outcome_bind]. by eexists _, _, c.
  - rewrite HR. cbn [mbind outcome_bind]. by eexists _, _, c.
  - destruct HR as (fr & c1 & -> & Hc1 & <- & <- & Ht & -> & Hu). cbn [mbind outcome_bind].
    apply scan_Good_shorter in Es.
    assert (Hstep : exists z c2, (if consumed fr then Ret (0, c1) else conn_Discard (Z.of_nat (total fr)) c1) = Ret (z, c2) /\
      conn_ok c2 /\ unread c2 = drop (total fr) (unread c)).
    { destruct (consumed fr); [by exists 0, c1|]. subst c1.
      destruct (conn_Discard_law (Z.of_nat (total fr)) c Hc) as (c2 & -> & ? & Hu2); [unfold headerSize in *; lia|].
      rewrite Nat2Z.id in Hu2. by eexists _, c2. }
    destruct Hstep as (z & c2 & -> & Hc2 & Hu2). cbn [mbind outcome_bind].
    destruct (IH c2 Hc2) as (frs & err & c' & -> & Hc' & HS); [rewrite Hu2; unfold headerSize in *; lia|].
    cbn [mbind outcome_bind]. rewrite <-Hu2, HS. by eexists _, _, c'.
Qed.
End ReadFacts.

(** ** What a sender puts on the wire *)

(** A frame with its payload as frameData, sendControlLocked and open build it. *)
Definition frame_ok (maxFrame maxMeta : Z) (f : frameHeader * list Z) : Prop :=
  header_ok f.1 /\ validateFrame f.1 (wrap 32 maxFrame) (wrap 32 maxMeta) = None /\
  Z.of_nat (length f.2) = (if carries_payload (typ f.1) then hlength f.1 else 0).

Definition encodeFrame (f : frameHeader * list Z) : outcome (list Z) :=
  encodeHeader (replicate headerSize 0 ++ f.2) f.1.

Fixpoint encodeFrames (frs : list (frameHeader * list Z)) : outcome (list Z) :=
  match frs with
  | [] => Ret []
  | f :: frs => b ← encodeFrame f; bs ← encodeFrames frs; Ret (b ++ bs)
  end.

Lemma scan_encoded maxFrame maxMeta f rest :
  frame_ok maxFrame maxMeta f ->
  exists b, encodeFrame f = Ret b /\ scan maxFrame maxMeta (b ++ rest) = Good f.1 f.2 rest.
Proof.
  destruct f as [h p]. intros (Hh & Hv & Hp). cbn [fst snd] in *. unfold encodeFrame. cbn [fst snd].
  destruct (encodeHeader_spec (replicate headerSize 0 ++ p) h) as (b & E & Hl & Hd & Hdec); [|done|].
  { rewrite length_app, length_replicate. lia. }
  exists b. split; [done|]. rewrite drop_app_length' in Hd by (by rewrite length_replicate).
  rewrite length_app, length_replicate in Hl.
  assert (Hdec' : decodeHeader (take headerSize (b ++ rest)) = inl h).
  { rewrite take_app_le by lia. by rewrite decodeHeader_take by lia. }
  unfold scan. rewrite length_app. destruct (Nat.ltb_spec (length b + length rest) headerSize); [lia|].
  rewrite Hdec', Hv. cbv zeta.
  assert ((if carries_payload (typ h) then Z.to_nat (hlength h) else 0%nat) = length p) as ->.
  { destruct (carries_payload (typ h)); lia. }
  destruct (Nat.ltb_spec (length b + length rest) (headerSize + length p)); [lia|]. f_equal.
  - unfold sub. rewrite drop_app_le, Hd by lia. apply take_app_length'. lia.
  - apply drop_app_length'. lia.
Qed.

Lemma scan_all_encoded fuel maxFrame maxMeta frs rest :
  Forall (frame_ok maxFrame maxMeta) frs -> (length frs < fuel)%nat ->
  scan maxFrame maxMeta rest = Incomplete ->
  exists b, encodeFrames frs = Ret b /\ scan_all fuel maxFrame maxMeta (b ++ rest) = (frs, None, rest).
Proof.
  intros Hf Hn Hr. revert fuel Hn. induction Hf as [|f frs Hf _ IH]; intros fuel Hn.
  { exists []. split; [done|]. destruct fuel as [|fuel]; [done|]. simpl. by rewrite Hr. }
  destruct fuel as [|fuel]; [simpl in *; lia|]. destruct (IH fuel) as (bs & E & HS); [simpl in *; lia|].
  destruct (scan_encoded maxFrame maxMeta f (bs ++ rest) Hf) as (b & Eb & HG). cbn [encodeFrames].
  rewrite Eb. cbn [mbind outcome_bind]. rewrite E. cbn [mbind outcome_bind].
  exists (b ++ bs). split; [done|]. rewrite <-app_assoc. cbn [scan_all]. rewrite HG, HS. by destruct f.
Qed.

(** C4. Framing survives segmentation: if a peer sends any legal frames and the
    beginning of another, then however the transport split those bytes into
    blocks, reading frames until none is complete returns exactly the frames
    sent, in order and with their payloads, and leaves the unfinished one
    buffered. *)
Theorem frames_survive_segmentation `{Inbound} maxFrame maxMeta frs b tail c :
  Forall (frame_ok maxFrame maxMeta) frs -> encodeFrames frs = Ret b ->
  scan maxFrame maxMeta tail = Incomplete -> conn_ok c -> unread c = b ++ tail ->
  exists c', readFrames (S (length (unread c))) maxFrame maxMeta c = Ret (frs, None, c') /\
    conn_ok c' /\ unread c' = tail.
Proof.
  intros Hf Eb Ht Hc Hu.
  destruct (readFrames_spec (S (length (unread c))) maxFrame maxMeta c Hc) as (frs' & err & c' & E & Hc' & HS); [lia|].
  assert (Hlen : (length frs <= length b)%nat).
  { clear - Hf Eb. revert b Eb. induction Hf as [|f frs Hf _ IH]; intros b; cbn [encodeFrames]; [simpl; lia|].
    destruct (scan_encoded _ _ f [] Hf) as (b0 & E0 & HG). rewrite E0. cbn [mbind outcome_bind].
    destruct (encodeFrames frs) as [bs|]; [|done]. cbn [mbind outcome_bind]. intros [= <-].
    apply scan_Good_shorter in HG. rewrite app_nil_r in HG. specialize (IH bs eq_refl).
    rewrite length_app. unfold headerSize in *. simpl in *. lia. }
  destruct (scan_all_encoded (S (length (unread c))) maxFrame maxMeta frs tail Hf) as (b' & Eb' & HS'); [|done|].
  { rewrite Hu, length_app. lia. }
  rewrite Eb in Eb'. injection Eb' as <-. rewrite <-Hu, HS in HS'. injection HS' as -> -> HU. by exists c'.
Qed.

(** ** The segmented buffer as a transport's inbound side *)

Section CompositeInbound.
Context `{BlockStore}.

Definition composite_read (k : nat) (c : CompositeBuffer * store) : outcome (list Z * option ioerr * (CompositeBuffer * store)) :=
  '(data, err, b, s) ← CRead k c.1 c.2; Ret (data, err, (b, s)).

Definition composite_discard (n : Z) (c : CompositeBuffer * store) : outcome (Z * (CompositeBuffer * store)) :=
  '(k, b, s) ← CDiscard n c.1 c.2; Ret (k, (b, s)).

Definition composite_ok (c : CompositeBuffer * store) : Prop := comp_ok c.1 /\ store_ok c.2.

Lemma composite_read_law k c :
  composite_ok c -> (0 < k <= length (cbytes c.1))%nat ->
  exists c', composite_read k c = Ret (take k (cbytes c.1), None, c') /\ composite_ok c' /\
    cbytes c'.1 = drop k (cbytes c.1).
Proof.
  destruct c as [b s]. intros [Hb Hs] Hk. cbn [fst snd] in *. unfold composite_read. cbn [fst snd].
  destruct (CRead_spec k b s Hs Hb) as (err & b' & s' & -> & Hs' & Hb' & HB & He). cbn [mbind outcome_bind].
  destruct err as [[]|]; [|done..|by exists (b', s')].
  destruct He as [_ [E|E]]; [|lia]. unfold cbytes in Hk. rewrite E in Hk. simpl in Hk. lia.
Qed.

Lemma composite_discard_law n c :
  composite_ok c -> 0 < n <= Z.of_nat (length (cbytes c.1)) ->
  exists c', composite_discard n c = Ret (n, c') /\ composite_ok c' /\
    cbytes c'.1 = drop (Z.to_nat n) (cbytes c.1).
Proof.
  destruct c as [b s]. intros [Hb Hs] Hn. cbn [fst snd] in *. unfold composite_discard. cbn [fst snd].
  destruct (CDiscard_spec n b s Hs Hb) as (b' & s' & -> & Hs' & Hb' & HB). cbn [mbind outcome_bind].
  unfold CLen in *. rewrite (comp_ok_length b Hb) in *. destruct (Z.leb_spec n 0); [lia|].
  rewrite Z.min_l in * by lia. by exists (b', s').
Qed.

Lemma composite_chunk_law c : composite_ok c -> exists rest, cbytes c.1 = PeekChunk c.1 ++ rest.
Proof.
  intros _. unfold cbytes, PeekChunk. destruct (bufList c.1) as [|b l]; [by exists []|]. by eexists.
Qed.

Definition composite_inbound : Inbound := {|
  conn := CompositeBuffer * store;
  conn_ok := composite_ok;
  unread c := cbytes c.1;
  conn_Peek k c := Peek k c.1;
  conn_InboundBuffered c := CLen c.1;
  conn_PeekChunk c := PeekChunk c.1;
  conn_Read := composite_read;
  conn_Discard := composite_discard;
  conn_Peek_law k c Hc := Peek_spec k c.1 (proj1 Hc);
  conn_InboundBuffered_law c Hc := comp_ok_length c.1 (proj1 Hc);
  conn_PeekChunk_law := composite_chunk_law;
  conn_Read_law := composite_read_law;
  conn_Discard_law := composite_discard_law
|}.
End CompositeInbound.

Definition sample_frames : list (frameHeader * list Z) :=
  [(MkHeader 0 typeWindowUpdate flagSYN 3 0, []); (MkHeader 0 typeData 0 3 4, [1; 2; 3; 4])].

Lemma sample_frames_ok : Forall (frame_ok (2 ^ 18) 4096) sample_frames.
Proof. repeat constructor; vm_compute; intros; discriminate. Qed.

Definition sample_wire : list Z :=
  [0; 1; 0; 1; 0; 0; 0; 3; 0; 0; 0; 0; 0; 0; 0; 0; 0; 0; 0; 3; 0; 0; 0; 4; 1; 2; 3; 4].

(** Two frames split in the middle of the second one's payload. *)
Definition split_inbound (bytes : list Z) : CompositeBuffer :=
  MkComposite [NewBuffer (MkSlice (take 26 bytes) 26 false); NewBuffer (MkSlice (drop 26 bytes) (length bytes - 26) false)]
    (Z.of_nat (length bytes)).

Lemma frames_survive_segmentation_witness :
  encodeFrames sample_frames = Ret sample_wire /\
  let I := @composite_inbound pools_store in
  exists s c', @readFrames I 31 (2 ^ 18) 4096 (split_inbound (sample_wire ++ [0; 0]), s) = Ret (sample_frames, None, c') /\
  @unread I c' = [0; 0].
Proof.
  split; [reflexivity|]. intros I. destruct (init_pools_spec 1 (fun _ => (0, 0)%nat)) as (s & _ & Hs).
  destruct (@frames_survive_segmentation I (2 ^ 18) 4096 sample_frames sample_wire [0; 0]
    (split_inbound (sample_wire ++ [0; 0]), s) sample_frames_ok eq_refl eq_refl) as (c' & E & _ & Hu).
  - split; [|exact Hs]. split; [|reflexivity].
    repeat constructor; vm_compute; intros; try discriminate; lia.
  - reflexivity.
  - exists s, c'. split; [exact E|exact Hu].
Defined.

(** The session bounds data frames by the low 32 bits of its window size, so a
    configured window of exactly 4 GiB refuses every data frame. *)
Lemma four_gib_window_refuses_data h maxMeta :
  typ h = typeData -> 0 < hlength h -> validateFrame h (wrap 32 (2 ^ 32)) maxMeta = Some errFrameLength.
Proof.
  intros Ht Hl. unfold validateFrame. rewrite Ht. simpl. change (wrap 32 (2 ^ 32)) with 0.
  destruct (Z.ltb_spec 0 (hlength h)); [done|lia].
Qed.
