(* ===== verification/MuxWindow.v ===== *)
(** * umux/window.go, umux.go and transport.go's limits: flow control

    The per-stream send and receive windows, the configuration they are sized
    by, and both ends of one direction of a stream put together: credit spent
    by the sender, data on its way, data unread, consumption not yet granted
    and grants on their way. *)

From S2P Require Import Prelude MuxFrame.
Local Open Scope Z_scope.

Inductive window_error : Type := errWindowExceeded | errWindowInvalid.

#[export] Instance window_error_eq_dec : EqDecision window_error.
Proof. solve_decision. Defined.

(** ** The sender's credit *)

Record sendWindow : Type := MkSend { avail : Z; smax : Z }.

Definition newSendWindow (size : Z) : sendWindow := MkSend size size.
Definition send_reset (size : Z) (w : sendWindow) : sendWindow := MkSend size size.

Definition send_take (n : Z) (w : sendWindow) : bool * sendWindow :=
  if (n <? 0) || (avail w <? n) then (false, w)
  else (true, MkSend (int64 (avail w - n)) (smax w)).

Definition send_grant (delta : Z) (w : sendWindow) : option window_error * sendWindow :=
  if delta <=? 0 then (Some errWindowInvalid, w)
  else if smax w <? int64 (avail w + delta) then (Some errWindowExceeded, w)
  else (None, MkSend (int64 (avail w + delta)) (smax w)).

Definition available (w : sendWindow) : Z := avail w.

(** ** The receiver's account *)

Record recvWindow : Type := MkRecv { rsize : Z; buffered : Z; rconsumed : Z; rgrant : Z }.

Definition retune (peerWindow : Z) (w : recvWindow) : recvWindow :=
  let small := if peerWindow <? rsize w then peerWindow else rsize w in
  let t := Z.quot small 4 in
  MkRecv (rsize w) (buffered w) (rconsumed w) (if t <? 1 then 1 else t).

Definition newRecvWindow (size : Z) : recvWindow := retune size (MkRecv size 0 0 0).

Definition onData (n : Z) (w : recvWindow) : option window_error * recvWindow :=
  if n <? 0 then (Some errWindowInvalid, w)
  else
    let w := MkRecv (rsize w) (int64 (buffered w + n)) (rconsumed w) (rgrant w) in
    if rsize w <? buffered w then (Some errWindowExceeded, w) else (None, w).

(** The grant to send now (zero: none), and the window. *)
Definition consume (n : Z) (w : recvWindow) : Z * recvWindow :=
  if (n <=? 0) || (buffered w <? n) then (0, w)
  else
    let b := int64 (buffered w - n) in
    let c := int64 (rconsumed w + n) in
    let threshold := if rgrant w <=? 0 then 1 else rgrant w in
    if threshold <=? c then (c, MkRecv (rsize w) b 0 (rgrant w))
    else (0, MkRecv (rsize w) b c (rgrant w)).

Definition bufferedBytes (w : recvWindow) : Z := buffered w.

(** ** Configuration *)

Definition minWindow : Z := Z.shiftl 256 10.
Definition defaultReadBuffer : Z := Z.shiftl 256 10.
Definition defaultWindowSize : Z := Z.shiftl 256 10.
Definition defaultSessionWindow : Z := Z.shiftl 4 20.
Definition defaultMaxStreams : Z := 1024.
Definition defaultMaxFrame : Z := Z.shiftl 32 10.
Definition maxMaxFrame : Z := Z.shiftl 64 10.
Definition defaultMaxMetadata : Z := Z.shiftl 4 10.
Definition maxMaxMetadata : Z := Z.shiftl 1 20.
Definition defaultAcceptBacklog : Z := 256.
Definition Second : Z := 10 ^ 9.
Definition defaultStreamOpen : Z := 75 * Second.
Definition defaultStreamClose : Z := 5 * (60 * Second).
Definition defaultKeepAlive : Z := 30 * Second.
Definition defaultKeepAliveMax : Z := 60 * Second.

(** The numeric fields of Config, and whether it has a Handler. *)
Record Config : Type := MkConfig {
  HasHandler : bool;
  ReadBufferSize : Z;
  WindowSize : Z;
  SessionWindow : Z;
  MaxStreams : Z;
  MaxFrame : Z;
  MaxMetadata : Z;
  AcceptBacklog : Z;
  StreamOpenTimeout : Z;
  StreamCloseTimeout : Z;
  KeepAlive : Z;
  KeepAliveMax : Z
}.

Definition default_if_nonpositive (d z : Z) : Z := if z <=? 0 then d else z.
Definition clamp_above (m z : Z) : Z := if m <? z then m else z.

Definition resolve (c : Config) : Config := MkConfig (HasHandler c)
  (default_if_nonpositive defaultReadBuffer (ReadBufferSize c))
  (if WindowSize c <? defaultWindowSize then defaultWindowSize else WindowSize c)
  (default_if_nonpositive defaultSessionWindow (SessionWindow c))
  (default_if_nonpositive defaultMaxStreams (MaxStreams c))
  (clamp_above maxMaxFrame (default_if_nonpositive defaultMaxFrame (MaxFrame c)))
  (clamp_above maxMaxMetadata (default_if_nonpositive defaultMaxMetadata (MaxMetadata c)))
  (default_if_nonpositive defaultAcceptBacklog (AcceptBacklog c))
  (default_if_nonpositive defaultStreamOpen (StreamOpenTimeout c))
  (default_if_nonpositive defaultStreamClose (StreamCloseTimeout c))
  (if KeepAlive c <? 0 then 0 else if KeepAlive c =? 0 then defaultKeepAlive else KeepAlive c)
  (default_if_nonpositive defaultKeepAliveMax (KeepAliveMax c)).

(** transport.go: saturating sum, and the transport's inbound limit. *)
Definition bufferLimitSum (a b : Z) : Z := if int64 (maxInt - b) <? a then maxInt else int64 (a + b).

Definition transportReadLimit (cfg : Config) : Z :=
  let limit := bufferLimitSum (SessionWindow cfg) (ReadBufferSize cfg) in
  let frame := bufferLimitSum (WindowSize cfg) (Z.of_nat headerSize) in
  let limit := if limit <? frame then frame else limit in
  let meta := bufferLimitSum (MaxMetadata cfg) (Z.of_nat headerSize + 4) in
  if limit <? meta then meta else limit.

(** stream.go: the window announced in a SYN or ACK, and the credit it gives. *)
Definition announce (cfg : Config) : Z := wrap 32 (WindowSize cfg - minWindow).
Definition peerWindow (cfg : Config) (delta : Z) : Z :=
  let w := minWindow + delta in
  if WindowSize cfg <? w then WindowSize cfg else w.

(** ** Configuration facts *)

Record config_ok (c : Config) : Prop := {
  cfg_read : 0 < ReadBufferSize c;
  cfg_window : minWindow <= WindowSize c;
  cfg_session : 0 < SessionWindow c;
  cfg_streams : 0 < MaxStreams c;
  cfg_frame : 0 < MaxFrame c <= maxMaxFrame;
  cfg_meta : 0 < MaxMetadata c <= maxMaxMetadata;
  cfg_backlog : 0 < AcceptBacklog c;
  cfg_open : 0 < StreamOpenTimeout c;
  cfg_close : 0 < StreamCloseTimeout c;
  cfg_keepalive : 0 <= KeepAlive c;
  cfg_keepalivemax : 0 < KeepAliveMax c
}.

Ltac config_consts :=
  unfold default_if_nonpositive, clamp_above, minWindow, defaultReadBuffer, defaultWindowSize, defaultSessionWindow,
    defaultMaxStreams, defaultMaxFrame, maxMaxFrame, defaultMaxMetadata, maxMaxMetadata, defaultAcceptBacklog,
    defaultStreamOpen, defaultStreamClose, defaultKeepAlive, defaultKeepAliveMax, Second in *;
  rewrite ?Z.shiftl_mul_pow2 in * by lia.

Lemma resolve_ok c : config_ok (resolve c).
Proof.
  split; cbn; config_consts; repeat (case_match; try lia);
    repeat match goal with H : (_ <? _) = _ |- _ => apply Z.ltb_lt in H || apply Z.ltb_ge in H
                         | H : (_ <=? _) = _ |- _ => apply Z.leb_le in H || apply Z.leb_gt in H
                         | H : (_ =? _) = _ |- _ => apply Z.eqb_eq in H || apply Z.eqb_neq in H end; lia.
Qed.

Lemma bufferLimitSum_spec a b :
  0 <= a <= maxInt -> 0 <= b <= maxInt -> bufferLimitSum a b = Z.min maxInt (a + b).
Proof.
  intros Ha Hb. unfold bufferLimitSum. rewrite (int64_id (maxInt - b)) by (unfold is_int64, maxInt in *; lia).
  destruct (Z.ltb_spec (maxInt - b) a); [lia|]. rewrite int64_id by (unfold is_int64, maxInt in *; lia). lia.
Qed.

(** C34. A resolved configuration is usable whatever the caller set: every limit
    is positive and within its cap, a window is never below the protocol floor,
    and the transport's inbound limit has room for every frame the parser
    accepts, so a small session budget cannot stall a frame halfway. *)
Theorem read_limit_holds_every_frame c h :
  let cfg := resolve c in
  is_int64 (WindowSize c) -> is_int64 (SessionWindow c) -> is_int64 (ReadBufferSize c) -> header_ok h ->
  validateFrame h (wrap 32 (WindowSize cfg)) (wrap 32 (MaxMetadata cfg)) = None ->
  config_ok cfg /\
  Z.of_nat headerSize + (if carries_payload (typ h) then hlength h else 0) <= transportReadLimit cfg.
Proof.
  intros cfg Hw Hs Hr Hh Hv. pose proof (resolve_ok c) as Hc. fold cfg in Hc. split; [done|].
  pose proof Hc as [Hrd Hwin Hsess _ _ Hmeta _ _ _ _ _]. pose proof (hdr_length h Hh) as Hlen.
  assert (Hwi : WindowSize cfg <= maxInt).
  { unfold cfg; simpl. destruct (WindowSize c <? defaultWindowSize); [vm_compute; discriminate|apply Hw]. }
  assert (Hsi : SessionWindow cfg <= maxInt).
  { unfold cfg, resolve, default_if_nonpositive; cbn [SessionWindow]. destruct (SessionWindow c <=? 0); [vm_compute; discriminate|apply Hs]. }
  assert (Hri : ReadBufferSize cfg <= maxInt).
  { unfold cfg, resolve, default_if_nonpositive; cbn [ReadBufferSize]. destruct (ReadBufferSize c <=? 0); [vm_compute; discriminate|apply Hr]. }
  clearbody cfg. unfold is_uint in Hlen. change (Z.of_nat headerSize) with 12.
  assert (Hmw : minWindow = 262144) by reflexivity. assert (Hmm : maxMaxMetadata = 1048576) by reflexivity.
  assert (Hmi : maxInt = 9223372036854775807) by reflexivity.
  assert (Hfit : 12 + (if carries_payload (typ h) then hlength h else 0) <= maxInt /\
    (12 + (if carries_payload (typ h) then hlength h else 0) <= WindowSize cfg + 12 \/
     12 + (if carries_payload (typ h) then hlength h else 0) <= MaxMetadata cfg + 16)).
  { split; [destruct (carries_payload _); lia|]. unfold carries_payload, validateFrame in *.
    assert (Hww : wrap 32 (WindowSize cfg) <= WindowSize cfg) by (apply Z.mod_le; lia).
    assert (Hwm : wrap 32 (MaxMetadata cfg) = MaxMetadata cfg) by (apply wrap_id; unfold is_uint; lia).
    destruct (Z.eqb_spec (typ h) typeData); [simpl; left; destruct (Z.ltb_spec (wrap 32 (WindowSize cfg)) (hlength h)); [done|lia]|].
    destruct (Z.eqb_spec (typ h) typeSynMetadata) as [Et|]; [simpl; right|simpl; left; lia].
    rewrite Et in Hv. change (typeSynMetadata =? _) with false in Hv at 1. simpl in Hv. rewrite Hwm in Hv.
    destruct (negb _ || _); [done|]. destruct (Z.ltb_spec (hlength h) 4); [done|]. cbn [orb] in Hv.
    rewrite wrap_id in Hv by (unfold is_uint; lia).
    destruct (Z.ltb_spec (MaxMetadata cfg) (hlength h - 4)); [done|]. lia. }
  unfold transportReadLimit. change (Z.of_nat headerSize) with 12. change (12 + 4) with 16.
  rewrite !bufferLimitSum_spec by lia. cbv zeta.
  set (L := _ + (if carries_payload _ then _ else _)) in *. clearbody L.
  repeat case_match; repeat match goal with H : (_ <? _) = _ |- _ => apply Z.ltb_lt in H || apply Z.ltb_ge in H end; lia.
Qed.

Lemma read_limit_holds_every_frame_witness :
  let cfg := resolve (MkConfig false 0 0 1 0 0 0 0 0 0 0 0) in
  let h := MkHeader 0 typeData 0 1 262144 in
  validateFrame h (wrap 32 (WindowSize cfg)) (wrap 32 (MaxMetadata cfg)) = None /\
  (config_ok cfg /\ 12 + 262144 <= transportReadLimit cfg).
Proof.
  split; [reflexivity|].
  apply (read_limit_holds_every_frame (MkConfig false 0 0 1 0 0 0 0 0 0 0 0) (MkHeader 0 typeData 0 1 262144));
    try reflexivity; try (vm_compute; split; intros; discriminate).
  split; vm_compute; repeat split; intros; discriminate.
Defined.

(** ** One direction of a stream, both ends *)

(** [dwire] and [gwire] are the sizes of data frames and window updates on their
    way, oldest first. *)
Record flow : Type := MkFlow {
  snd_w : sendWindow;
  dwire : list Z;
  rcv_w : recvWindow;
  gwire : list Z
}.

(** The sender writes, a data frame arrives, the application consumes, a window
    update arrives. *)
Inductive fevent : Type := FWrite (n : Z) | FData | FConsume (n : Z) | FGrant.

Definition flow_step (e : fevent) (f : flow) : flow + window_error :=
  match e with
  | FWrite n =>
      (* Stream.Write: no more than the credit left *)
      let n := if available (snd_w f) <? n then available (snd_w f) else n in
      if n <=? 0 then inl f
      else let '(ok, w) := send_take n (snd_w f) in
           if ok then inl (MkFlow w (dwire f ++ [n]) (rcv_w f) (gwire f)) else inr errWindowInvalid
  | FData =>
      match dwire f with
      | [] => inl f
      | n :: d => match onData n (rcv_w f) with
                  | (None, w) => inl (MkFlow (snd_w f) d w (gwire f))
                  | (Some e, _) => inr e
                  end
      end
  | FConsume n =>
      let '(g, w) := consume n (rcv_w f) in
      inl (MkFlow (snd_w f) (dwire f) w (if 0 <? g then gwire f ++ [g] else gwire f))
  | FGrant =>
      match gwire f with
      | [] => inl f
      | g :: gs => match send_grant g (snd_w f) with
                   | (None, w) => inl (MkFlow w (dwire f) (rcv_w f) gs)
                   | (Some e, _) => inr e
                   end
      end
  end.

Fixpoint flow_run (es : list fevent) (f : flow) : flow + window_error :=
  match es with
  | [] => inl f
  | e :: es => match flow_step e f with inl f => flow_run es f | inr e => inr e end
  end.

(** As SYN and ACK leave the two ends: establish and acceptStream. *)
Definition flow_init (sender receiver : Config) : flow :=
  MkFlow (send_reset (peerWindow sender (announce receiver)) (newSendWindow minWindow)) []
    (retune (minWindow + announce sender) (newRecvWindow (WindowSize receiver))) [].

Definition zsum (l : list Z) : Z := foldr Z.add 0 l.
Arguments zsum : simpl never.

(** Credit is conserved: what the sender holds, what is on its way, unread,
    consumed but not granted and granted but not arrived is the window. *)
Record flow_ok (f : flow) : Prop := {
  fl_bound : 0 < smax (snd_w f) <= rsize (rcv_w f) /\ rsize (rcv_w f) <= 2 ^ 62;
  fl_avail : 0 <= avail (snd_w f);
  fl_data : Forall (fun n => 0 < n) (dwire f);
  fl_grants : Forall (fun n => 0 < n) (gwire f);
  fl_recv : 0 <= buffered (rcv_w f) /\ 0 <= rconsumed (rcv_w f) < rgrant (rcv_w f);
  fl_thresh : 0 < rgrant (rcv_w f) <= smax (snd_w f);
  fl_sum : avail (snd_w f) + zsum (dwire f) + buffered (rcv_w f) + rconsumed (rcv_w f) + zsum (gwire f) = smax (snd_w f)
}.

Lemma zsum_cons n l : zsum (n :: l) = n + zsum l.
Proof. done. Qed.

Lemma zsum_nil : zsum [] = 0.
Proof. done. Qed.

Lemma zsum_app a b : zsum (a ++ b) = zsum a + zsum b.
Proof. unfold zsum. induction a; simpl; lia. Qed.

Lemma zsum_pos l : Forall (fun n => 0 < n) l -> 0 <= zsum l.
Proof. unfold zsum. induction 1; simpl; lia. Qed.

Lemma flow_step_ok e f : flow_ok f -> exists f', flow_step e f = inl f' /\ flow_ok f'.
Proof.
  intros [Hb Ha Hd Hg Hr Ht Hs]. destruct f as [[av mx] dw [sz bu co gr] gw]. cbn in *.
  pose proof (zsum_pos dw Hd). pose proof (zsum_pos gw Hg).
  assert (Hid : forall z, - 2 ^ 62 <= z <= 2 ^ 62 -> int64 z = z)
    by (intros; apply int64_id; unfold is_int64, maxInt; lia).
  destruct e as [n| |n|]; cbn.
  - unfold available; cbn. set (k := if av <? n then av else n).
    assert (Hk : k <= av) by (unfold k; destruct (Z.ltb_spec av n); lia). clearbody k.
    destruct (Z.leb_spec k 0); [eexists; split; [done|by split]|]. unfold send_take; cbn.
    destruct (Z.ltb_spec k 0); [lia|]. destruct (Z.ltb_spec av k); [lia|]. cbn. rewrite Hid by lia.
    eexists; split; [done|]. split; cbn; rewrite ?zsum_app, ?zsum_cons, ?zsum_nil; try done; try lia.
    apply Forall_app_2; [done|by constructor].
  - destruct dw as [|n dw]; [eexists; split; [done|by split]|]. apply Forall_cons_1 in Hd as [Hn0 Hd].
    unfold onData; cbn. destruct (Z.ltb_spec n 0); [lia|]. assert (0 <= zsum dw) by (by apply zsum_pos). rewrite zsum_cons in *.
    rewrite Hid by lia. destruct (Z.ltb_spec sz (bu + n)); [lia|].
    eexists; split; [done|]. split; cbn; try done; lia.
  - unfold consume; cbn. destruct (Z.leb_spec n 0); [eexists; split; [done|by split]|].
    destruct (Z.ltb_spec bu n); [eexists; split; [done|by split]|]. cbn.
    destruct (Z.leb_spec gr 0); [lia|]. rewrite !Hid by lia. destruct (Z.leb_spec gr (co + n)); cbn.
    + destruct (Z.ltb_spec 0 (co + n)); [|lia].
      eexists; split; [done|]. split; cbn; rewrite ?zsum_app, ?zsum_cons, ?zsum_nil; try done; try lia.
      apply Forall_app_2; [done|repeat constructor; lia].
    + eexists; split; [done|]. split; cbn; try done; lia.
  - destruct gw as [|g gw]; [eexists; split; [done|by split]|]. apply Forall_cons_1 in Hg as [Hg0 Hg].
    assert (0 <= zsum gw) by (by apply zsum_pos). rewrite zsum_cons in *.
    unfold send_grant; cbn. destruct (Z.leb_spec g 0); [lia|]. rewrite !Hid by lia.
    destruct (Z.ltb_spec mx (av + g)); [lia|].
    eexists; split; [done|]. split; cbn; try done; lia.
Qed.

Lemma flow_run_ok es f : flow_ok f -> exists f', flow_run es f = inl f' /\ flow_ok f'.
Proof.
  revert f. induction es as [|e es IH]; intros f Hf; cbn; [eauto|].
  destruct (flow_step_ok e f Hf) as (f1 & -> & Hf1). by apply IH.
Qed.

(** Two resolved configurations below the width of the announcement. *)
Definition announceable (c : Config) : Prop := config_ok c /\ WindowSize c - minWindow < 2 ^ 32.

Lemma announce_exact c : announceable c -> minWindow + announce c = WindowSize c.
Proof.
  intros [Hc Hw]. unfold announce. rewrite wrap_id; [lia|]. pose proof (cfg_window c Hc). split; lia.
Qed.

Lemma flow_init_ok a b : announceable a -> announceable b ->
  flow_ok (flow_init a b) /\ smax (snd_w (flow_init a b)) = Z.min (WindowSize a) (WindowSize b).
Proof.
  intros Ha Hb. pose proof (announce_exact a Ha) as Ea. pose proof (announce_exact b Hb) as Eb.
  destruct Ha as [Ha Ha2], Hb as [Hb Hb2]. pose proof (cfg_window a Ha). pose proof (cfg_window b Hb).
  assert (Hmw : minWindow = 262144) by reflexivity.
  unfold flow_init, newRecvWindow, retune, send_reset, peerWindow. rewrite Ea, Eb. cbn.
  set (m := if WindowSize a <? WindowSize b then WindowSize a else WindowSize b).
  assert (Hm : m = Z.min (WindowSize a) (WindowSize b)) by (unfold m; destruct (Z.ltb_spec (WindowSize a) (WindowSize b)); lia).
  assert (Hq : Z.quot m 4 = m / 4) by (apply Z.quot_div_nonneg; lia).
  assert (Hq1 : 1 <= m / 4 <= m) by (pose proof (Z.div_mod m 4); pose proof (Z.mod_pos_bound m 4); lia).
  rewrite Hq. destruct (Z.ltb_spec (m / 4) 1); [lia|]. split; [|done].
  split; cbn; fold m; rewrite ?zsum_nil; try constructor; try lia.
Qed.


Definition small_config : Config := resolve (MkConfig true 0 0 0 0 0 0 0 0 0 0 0).
Definition large_config : Config := resolve (MkConfig true 0 (2 ^ 20) 0 0 0 0 0 0 0 0 0).

