(* ===== verification/MuxInbound.v ===== *)
(** * umux/stream.go: a stream's receive queue

    The queue's run of unread bytes either borrows the transport's buffer or
    lives in an arena the stream reuses, and WriteTo hands slices of it to a
    writer while data keeps arriving.  So slices are modelled as pointers into
    a store of backing arrays, and what the transport and a writer see through
    their own slices is part of the state. *)

From Stdlib Require Import ZifyNat.
From S2P Require Import Prelude.
Local Open Scope nat_scope.

(** ** Slices of a store of arrays *)

Record slice : Type := MkSlice { blk : option nat; lo : nat; len : nat; cap : nat }.
Abbreviation blocks := (gmap nat (list Z)).

Definition nil_slice : slice := MkSlice None 0 0 0.

Definition block (m : blocks) (b : option nat) : list Z :=
  match b with Some b => default [] (m !! b) | None => [] end.
Definition bytes_of (m : blocks) (s : slice) : list Z := take (len s) (drop (lo s) (block m (blk s))).

Definition splice (i : nat) (p data : list Z) : list Z := take i data ++ p ++ drop (i + length p) data.

(** Writing [p] at index [i] of a slice. *)
Definition write (s : slice) (i : nat) (p : list Z) (m : blocks) : blocks :=
  match blk s with Some b => alter (splice (lo s + i) p) b m | None => m end.

(** [s[i:j]], and [s[i:]] with a panic past the length. *)
Definition reslice (s : slice) (i j : nat) : outcome slice :=
  if (i <=? j) && (j <=? cap s) then Ret (MkSlice (blk s) (lo s + i) (j - i) (cap s - i)) else Panic PanicSliceBounds.
Definition from (s : slice) (i : nat) : outcome slice :=
  if i <=? len s then Ret (MkSlice (blk s) (lo s + i) (len s - i) (cap s - i)) else Panic PanicSliceBounds.

Definition make (n c : nat) (data : list Z) (m : blocks) : slice * blocks :=
  let b := fresh (dom m) in
  (MkSlice (Some b) 0 n c, <[b := data ++ replicate (c - length data) 0%Z]> m).

Section MuxInbound.
(** The capacity append gives an array it has to replace. *)
Context (growth : nat -> nat -> nat).
Hypothesis growth_enough : forall c need, need <= growth c need.

Definition go_append (s : slice) (p : list Z) (m : blocks) : slice * blocks :=
  let need := len s + length p in
  if need <=? cap s then (MkSlice (blk s) (lo s) need (cap s), write s (len s) p m)
  else make need (growth (cap s) need) (bytes_of m s ++ p) m.

(** ** The queue *)

Record inbound : Type := MkInbound { run : slice; borrowed : bool; arena : slice; off : nat; borrows : nat }.

Definition empty_inbound : inbound := MkInbound nil_slice false nil_slice 0 0.

Definition in_len (b : inbound) : nat := len (run b).

Definition setBorrowed (r : slice) (b : inbound) : inbound := MkInbound r true (arena b) (off b) (borrows b).

Definition setOwned (r : slice) (b : inbound) : inbound := MkInbound r false r 0 (borrows b).

Definition own (b : inbound) (m : blocks) : outcome (inbound * blocks) :=
  if negb (borrowed b) then Ret (b, m)
  else
    base ← (if borrows b =? 0 then reslice (arena b) 0 0 else Ret nil_slice);
    let '(a, m) := go_append base (bytes_of m (run b)) m in
    Ret (MkInbound a false a 0 (borrows b), m).

Definition append (p : slice) (b : inbound) (m : blocks) : outcome (inbound * blocks) :=
  '(b, m) ← (if borrowed b then own b m else Ret (b, m));
  if (len (run b) =? 0) && (off b =? 0) && (cap (arena b) =? 0) then Ret (setOwned p b, m)
  else
    let need := off b + len (run b) + len p in
    '(b, m) ← (if cap (arena b) <? need then
                 if (borrows b =? 0) && (0 <? off b) && (len (run b) + len p <=? cap (arena b)) then
                   let m := write (arena b) 0 (bytes_of m (run b)) m in
                   a ← reslice (arena b) 0 (len (run b));
                   Ret (MkInbound a (borrowed b) a 0 (borrows b), m)
                 else
                   let size := Nat.max (2 * cap (arena b)) need in
                   let '(nx, m) := make (len (run b)) size (bytes_of m (run b)) m in
                   Ret (MkInbound nx (borrowed b) nx 0 (borrows b), m)
               else Ret (b, m));
    let '(a, m) := go_append (arena b) (bytes_of m p) m in
    r ← from a (off b);
    Ret (MkInbound r (borrowed b) a (off b) (borrows b), m).

Definition consume (n : nat) (b : inbound) : outcome inbound :=
  r ← from (run b) n;
  if borrowed b then Ret (MkInbound r true (arena b) (off b) (borrows b))
  else if len r =? 0 then
    a ← reslice (arena b) 0 0;
    Ret (MkInbound a false a 0 (borrows b))
  else Ret (MkInbound r false (arena b) (off b + n) (borrows b)).

Definition drop_all (b : inbound) : inbound := MkInbound nil_slice false nil_slice 0 (borrows b).

(** ** Facts about slices *)

Definition slice_ok (m : blocks) (s : slice) : Prop :=
  len s <= cap s /\ (cap s = 0 \/ exists b data, blk s = Some b /\ m !! b = Some data /\ lo s + cap s <= length data).

Definition sub_of (s : slice) (i : nat) : slice := MkSlice (blk s) (lo s + i) (len s - i) (cap s - i).

Lemma length_bytes m s : slice_ok m s -> length (bytes_of m s) = len s.
Proof.
  intros [H1 [H2|(b & data & Hb & Hm & Hl)]]; unfold bytes_of; rewrite length_take, length_drop; [lia|].
  rewrite Hb. simpl. rewrite Hm. simpl. lia.
Qed.

Lemma length_splice i p data : i + length p <= length data -> length (splice i p data) = length data.
Proof. intros. unfold splice. rewrite !length_app, length_take, length_drop. lia. Qed.

Lemma splice_before i p data a n : a + n <= i -> i <= length data -> take n (drop a (splice i p data)) = take n (drop a data).
Proof.
  intros H Hi. rewrite !take_drop_commute. f_equal. unfold splice. rewrite take_app_le by (rewrite length_take; lia).
  by rewrite take_take, Nat.min_l by lia.
Qed.

Lemma splice_at i p data a n :
  a <= i -> i + length p <= length data -> n = i - a + length p ->
  take n (drop a (splice i p data)) = take (i - a) (drop a data) ++ p.
Proof.
  intros Ha Hi ->. rewrite !take_drop_commute. replace (a + (i - a + length p)) with (length (take i data) + length p) by (rewrite length_take; lia).
  unfold splice. rewrite take_app_add, take_app_length. rewrite drop_app_le by (rewrite length_take; lia). by replace (a + (i - a)) with i by lia.
Qed.

(** A write inside a slice's capacity leaves the other arrays and the bytes
    before it alone. *)
Lemma write_ok s i p m t :
  slice_ok m s -> i + length p <= cap s -> slice_ok m t -> slice_ok (write s i p m) t.
Proof.
  intros [H1 Hs] Hi [Ht1 Ht]. split; [done|]. destruct Ht as [?|(b & data & Hb & Hm & Hl)]; [by left|right].
  unfold write. destruct (blk s) as [b'|] eqn:Es; [|exists b, data; done].
  destruct (decide (b' = b)) as [->|Hne]; [|exists b, data; by rewrite lookup_alter_ne].
  exists b, (splice (lo s + i) p data). rewrite lookup_alter, Hm. destruct (decide (b = b)); [|done]. split; [done|]. split; [done|].
  destruct Hs as [Hs|(b2 & d2 & Hb2 & Hm2 & Hl2)]; [|simplify_eq; rewrite length_splice; lia].
  assert (p = []) as -> by (destruct p; [done|simpl in *; lia]). unfold splice. simpl. rewrite Nat.add_0_r, take_drop. done.
Qed.

Lemma bytes_write_other s i p m t : blk t <> blk s -> bytes_of (write s i p m) t = bytes_of m t.
Proof.
  intros Hne. unfold bytes_of, write. destruct (blk s) as [b|]; [|done]. destruct (blk t) as [b'|]; [|done]. simpl.
  by rewrite lookup_alter_ne by congruence.
Qed.

Lemma bytes_write_before s i p m t :
  slice_ok m s -> i + length p <= cap s -> lo t + len t <= lo s + i -> bytes_of (write s i p m) t = bytes_of m t.
Proof.
  intros [H1 Hs] Hi Ht. destruct (decide (blk t = blk s)) as [E|]; [|by apply bytes_write_other]. unfold bytes_of, write. rewrite E.
  destruct (blk s) as [b|] eqn:Eb; [|done]. simpl. rewrite lookup_alter. destruct (decide (b = b)); [|done].
  destruct (m !! b) as [data|] eqn:Em; [|done]. simpl. destruct Hs as [Hs|(b2 & d2 & Hb2 & Hm2 & Hl2)].
  - assert (p = []) as -> by (destruct p; [done|simpl in *; lia]). unfold splice. simpl. by rewrite Nat.add_0_r, take_drop.
  - simplify_eq. apply splice_before; lia.
Qed.

(** Reading back what was written, behind a prefix of the slice. *)
Lemma bytes_write_at s i p m a n :
  slice_ok m s -> a <= i -> i + length p <= cap s -> n = i - a + length p ->
  take n (drop (lo s + a) (block (write s i p m) (blk s))) = take (i - a) (drop (lo s + a) (block m (blk s))) ++ p.
Proof.
  intros [H1 Hs] Ha Hi ->. destruct Hs as [Hs|(b & data & Hb & Hm & Hl)].
  - assert (p = []) as -> by (destruct p; [done|simpl in *; lia]). rewrite app_nil_r, Nat.add_0_r. unfold write.
    destruct (blk s) as [b|]; [|done]. simpl. rewrite lookup_alter. destruct (decide (b = b)); [|done].
    destruct (m !! b) as [data|]; [|done]. simpl. unfold splice. simpl. by rewrite Nat.add_0_r, take_drop.
  - rewrite Hb. unfold write. rewrite Hb. simpl. rewrite lookup_alter, Hm. destruct (decide (b = b)); [|done]. simpl.
    rewrite splice_at by lia. by replace (lo s + i - (lo s + a)) with (i - a) by lia.
Qed.

Lemma make_spec n c data m s m' :
  make n c data m = (s, m') -> n <= length data -> length data <= c ->
  slice_ok m' s /\ len s = n /\ cap s = c /\ lo s = 0 /\
  bytes_of m' s = take n data /\ blk s = Some (fresh (dom m)) /\
  (forall b, b ∈ dom m -> m' !! b = m !! b) /\ dom m ⊆ dom m'.
Proof.
  unfold make. intros E Hn Hc. injection E as <- <-. pose proof (is_fresh (dom m)) as Hf. set (b := fresh (dom m)) in *.
  split; [|split; [done|split; [done|split; [done|]]]].
  - split; [simpl; lia|]. right. exists b. eexists. simpl. rewrite lookup_insert. destruct (decide (b = b)); [|done].
    split; [done|]. split; [done|]. rewrite length_app, length_replicate. lia.
  - split; [|split; [done|split; [|set_solver]]].
    + unfold bytes_of. simpl. rewrite lookup_insert. destruct (decide (b = b)); [|done]. simpl. rewrite drop_0. by rewrite take_app_le.
    + intros b' Hb'. rewrite lookup_insert_ne; [done|]. by intros <-.
Qed.

(** ** The queue invariant *)

(** [tb] is the transport's buffer; [h] is the slice a writer holds, with the
    bytes it was handed. *)
Record inv (tb : nat) (m : blocks) (b : inbound) (h : option (slice * list Z)) : Prop := {
  iv_tb_in : tb ∈ dom m;
  iv_run : slice_ok m (run b);
  iv_arena : slice_ok m (arena b);
  iv_tb : blk (arena b) <> Some tb;
  iv_dom : forall i, blk (arena b) = Some i -> i ∈ dom m;
  iv_owned : borrowed b = false -> run b = sub_of (arena b) (off b) /\ off b <= len (arena b);
  iv_borrowed : borrowed b = true -> blk (run b) = Some tb /\ h = None;
  iv_handed : match h with
              | None => borrows b = 0
              | Some (s, bs) => borrows b = 1 /\ bytes_of m s = bs /\ (blk s <> Some tb /\ blk s <> None) /\ (forall i, blk s = Some i -> i ∈ dom m) /\
                  (blk s <> blk (arena b) \/ lo s + len s <= lo (arena b) + len (arena b))
              end }.

Lemma sub_of_0 s : sub_of s 0 = s.
Proof. destruct s. unfold sub_of. simpl. f_equal; lia. Qed.

Lemma slice_ok_frame m m' s : (forall i, blk s = Some i -> m' !! i = m !! i) -> slice_ok m s -> slice_ok m' s.
Proof. intros Hf [H1 [H2|(b & data & Hb & Hm & Hl)]]; split; [done|by left|done|]. right. exists b, data. rewrite Hf by done. done. Qed.

Lemma bytes_frame m m' s : (forall i, blk s = Some i -> m' !! i = m !! i) -> bytes_of m' s = bytes_of m s.
Proof. intros Hf. unfold bytes_of, block. destruct (blk s); [|done]. by rewrite Hf. Qed.

Lemma slice_ok_sub m s i : i <= len s -> slice_ok m s -> slice_ok m (sub_of s i).
Proof.
  intros Hi [H1 [H2|(b & data & Hb & Hm & Hl)]]; (split; [simpl; lia|]); [left; simpl; lia|]. right. exists b, data. simpl. split; [done|]. split; [done|]. lia.
Qed.

Lemma slice_in_dom m s i : slice_ok m s -> 0 < cap s -> blk s = Some i -> i ∈ dom m.
Proof. intros [H1 [H2|(b & data & Hb & Hm & Hl)]] Hc Hi; [lia|]. simplify_eq. apply elem_of_dom. eauto. Qed.

(** What an append to the arena does: the bytes behind it, nothing before its
    end, and no array of another name but a new one. *)
Lemma go_append_spec s p m s' m' :
  go_append s p m = (s', m') -> slice_ok m s -> (forall i, blk s = Some i -> i ∈ dom m) ->
  slice_ok m' s' /\ len s' = len s + length p /\ (blk s' = blk s /\ lo s' = lo s \/ blk s' = Some (fresh (dom m)) /\ lo s' = 0) /\
  (forall a, a <= len s -> bytes_of m' (sub_of s' a) = drop a (bytes_of m s) ++ p) /\
  (forall t, (blk t <> blk s \/ lo t + len t <= lo s + len s) -> (forall i, blk t = Some i -> i ∈ dom m) -> bytes_of m' t = bytes_of m t) /\
  (forall t, slice_ok m t -> (forall i, blk t = Some i -> i ∈ dom m) -> slice_ok m' t) /\ dom m ⊆ dom m' /\
  (forall i, blk s' = Some i -> i ∈ dom m').
Proof.
  intros E Hs Hdom. unfold go_append in E. pose proof (length_bytes _ _ Hs) as Hlen. destruct (Nat.leb_spec (len s + length p) (cap s)) as [Hle|Hgt].
  - injection E as <- <-. pose proof Hs as [H1 H2]. assert (dom m ⊆ dom (write s (len s) p m)) as Hsub.
    { unfold write. destruct (blk s); [|done]. by rewrite dom_alter_L. }
    split; [|split; [done|split; [by left|split; [|split; [|split; [|split; [done|]]]]]]].
    + apply (write_ok s (len s) p m (MkSlice (blk s) (lo s) (len s + length p) (cap s))); [done|lia|]. split; [simpl; lia|done].
    + intros a Ha. unfold bytes_of at 1. simpl. rewrite bytes_write_at by (done || lia). f_equal. unfold bytes_of.
      by rewrite skipn_firstn_comm, drop_drop.
    + intros t [Ht|Ht] _; [by apply bytes_write_other|]. apply bytes_write_before; [done|lia|lia].
    + intros t Ht _. by apply write_ok.
    + simpl. intros i Hi. apply Hsub. auto.
  - destruct (make_spec _ _ _ _ _ _ E) as (A & B & Cc & D & F & G & Hold & Hsub); [rewrite length_app; lia|rewrite length_app, Hlen; apply growth_enough|].
    pose proof (is_fresh (dom m)) as Hfresh.
    assert (forall t, (forall i, blk t = Some i -> i ∈ dom m) -> forall i, blk t = Some i -> m' !! i = m !! i) as Hfr by eauto.
    split; [done|]. split; [done|]. split; [by right|]. split; [|split; [|split; [|split; [done|]]]].
    + intros a Ha. rewrite <- drop_app_le by lia. rewrite take_ge in F by (rewrite length_app; lia). rewrite <- F.
      unfold bytes_of, sub_of. simpl. rewrite skipn_firstn_comm, drop_drop, B. done.
    + intros t _ Ht. apply bytes_frame. by apply Hfr.
    + intros t Hok Ht. eapply slice_ok_frame; [by apply Hfr|done].
    + rewrite G. intros i Hi. injection Hi as <-. destruct A as [_ [Hc|(b & data & Hb & Hm & _)]]; [rewrite Cc in Hc; pose proof (growth_enough (cap s) (len s + length p)); lia|].
      rewrite G in Hb. injection Hb as ->. apply elem_of_dom. eauto.
Qed.

Lemma bytes_sub m s a : bytes_of m (sub_of s a) = drop a (bytes_of m s).
Proof. unfold bytes_of, sub_of. simpl. by rewrite skipn_firstn_comm, drop_drop. Qed.

Section inbound_ops.
Context (tb : nat) (m : blocks) (b : inbound) (h : option (slice * list Z)).
Hypothesis Hinv : inv tb m b h.

Lemma own_spec :
  exists b' m', own b m = Ret (b', m') /\ inv tb m' b' h /\ borrowed b' = false /\ bytes_of m' (run b') = bytes_of m (run b) /\
    borrows b' = borrows b /\ in_len b' = in_len b /\
    (forall t, blk t <> blk (arena b) -> (forall i, blk t = Some i -> i ∈ dom m) -> (slice_ok m t -> slice_ok m' t) /\ bytes_of m' t = bytes_of m t) /\
    dom m ⊆ dom m' /\ (blk (arena b') = blk (arena b) \/ blk (arena b') = Some (fresh (dom m))).
Proof.
  unfold own. destruct (borrowed b) eqn:Eb; simpl.
  2: { exists b, m. repeat (split; [done|]). by left. }
  destruct (iv_borrowed _ _ _ _ Hinv Eb) as [Hrt ->]. pose proof (iv_handed _ _ _ _ Hinv) as Hbo. simpl in Hbo. rewrite Hbo. simpl.
  unfold reslice. simpl. set (base := MkSlice (blk (arena b)) (lo (arena b) + 0) 0 (cap (arena b) - 0)).
  destruct (go_append base (bytes_of m (run b)) m) as [a m'] eqn:E.
  pose proof (iv_arena _ _ _ _ Hinv) as Ha. assert (slice_ok m base) as Hbase.
  { destruct Ha as [H1 [H2|(i & data & Hi & Hm & Hl)]]; (split; [simpl; lia|]); [left; simpl; lia|right; exists i, data; simpl; split; [done|]; split; [done|]; lia]. }
  destruct (go_append_spec _ _ _ _ _ E Hbase (iv_dom _ _ _ _ Hinv)) as (Aok & Alen & Ablk & Abytes & Afr & Aok' & Adom & Ain).
  pose proof (is_fresh (dom m)) as Hfresh. cbn [mbind outcome_bind].
  assert (blk a <> Some tb) as Hatb.
  { destruct Ablk as [[-> _]|[-> _]]; [apply Hinv|]. intros E1. injection E1 as E1. apply Hfresh. rewrite E1. apply Hinv. }
  assert (bytes_of m' a = bytes_of m (run b)) as Hbytes.
  { pose proof (Abytes 0 ltac:(simpl; lia)) as H. rewrite sub_of_0 in H. rewrite H, drop_0. done. }
  exists (MkInbound a false a 0 0), m'. split; [done|]. split; [split; simpl; try done|].
  - apply Adom, Hinv.
  - intros _. rewrite sub_of_0. split; [done|lia].
  - split; [done|]. split; [done|]. split; [done|]. split; [unfold in_len; simpl; rewrite Alen; simpl; by apply length_bytes, Hinv|].
    split; [|split; [done|]].
    + intros t Ht Hti. split; [auto|]. apply Afr; [by left|done].
    + simpl. destruct Ablk as [[-> _]|[-> _]]; auto.
Qed.

(** Making room: compaction in place, or a new array. *)
Lemma room_spec n :
  borrowed b = false ->
  exists b' m',
    (if cap (arena b) <? off b + len (run b) + n then
       if (borrows b =? 0) && (0 <? off b) && (len (run b) + n <=? cap (arena b)) then
         let m := write (arena b) 0 (bytes_of m (run b)) m in
         a ← reslice (arena b) 0 (len (run b)); Ret (MkInbound a (borrowed b) a 0 (borrows b), m)
       else
         let size := Nat.max (2 * cap (arena b)) (off b + len (run b) + n) in
         let '(nx, m) := make (len (run b)) size (bytes_of m (run b)) m in Ret (MkInbound nx (borrowed b) nx 0 (borrows b), m)
     else Ret (b, m)) = Ret (b', m') /\ inv tb m' b' h /\ borrowed b' = false /\ bytes_of m' (run b') = bytes_of m (run b) /\
    (forall t, blk t <> blk (arena b) -> (forall i, blk t = Some i -> i ∈ dom m) -> (slice_ok m t -> slice_ok m' t) /\ bytes_of m' t = bytes_of m t) /\
    dom m ⊆ dom m' /\ (blk (arena b') = blk (arena b) \/ blk (arena b') = Some (fresh (dom m))).
Proof.
  intros Eb. destruct (iv_owned _ _ _ _ Hinv Eb) as [Erun Hoff]. pose proof (iv_arena _ _ _ _ Hinv) as Ha. pose proof (iv_run _ _ _ _ Hinv) as Hr.
  pose proof (length_bytes _ _ Hr) as Hlen. destruct (Nat.ltb_spec (cap (arena b)) (off b + len (run b) + n)) as [Hneed|Hroom].
  2: { exists b, m. repeat (split; [done|]). by left. }
  destruct ((borrows b =? 0) && (0 <? off b) && (len (run b) + n <=? cap (arena b))) eqn:Ec.
  - apply andb_true_iff in Ec as [Ec Ec3]. apply andb_true_iff in Ec as [Ec1 Ec2]. apply Nat.eqb_eq in Ec1. apply Nat.leb_le in Ec3. apply Nat.ltb_lt in Ec2.
    assert (h = None) as Hh by (pose proof (iv_handed _ _ _ _ Hinv) as H; destruct h as [[s bs]|]; [lia|done]).
    unfold reslice. simpl. destruct (Nat.leb_spec (len (run b)) (cap (arena b))); [|lia]. simpl. cbn [mbind outcome_bind]. rewrite Nat.add_0_r, !Nat.sub_0_r.
    set (m' := write (arena b) 0 (bytes_of m (run b)) m). set (a := MkSlice (blk (arena b)) (lo (arena b)) (len (run b)) (cap (arena b))).
    assert (dom m' = dom m) as Hdom by (unfold m', write; destruct (blk (arena b)); [by rewrite dom_alter_L|done]).
    assert (slice_ok m' a) as Hok by (apply write_ok; [done|lia|]; destruct Ha as [? ?]; split; [simpl; lia|done]).
    exists (MkInbound a (borrowed b) a 0 (borrows b)), m'. split; [done|]. split; [|split; [done|split; [|split; [|split; [by rewrite Hdom|by left]]]]].
    + split; simpl; try done; [rewrite Hdom; apply Hinv|apply Hinv|rewrite Hdom; apply Hinv|rewrite sub_of_0; split; [done|lia]|congruence|by rewrite Hh].
    + simpl. unfold bytes_of at 1. simpl. pose proof (bytes_write_at (arena b) 0 (bytes_of m (run b)) m 0 (len (run b)) Ha ltac:(lia) ltac:(lia) ltac:(lia)) as Hw.
      rewrite Nat.add_0_r in Hw. rewrite Nat.sub_diag in Hw. fold m' in Hw. done.
    + intros t Ht Hti. split; [intros; by apply write_ok; [|lia|]|by apply bytes_write_other].
  - cbv zeta. destruct (make (len (run b)) (Nat.max (2 * cap (arena b)) (off b + len (run b) + n)) (bytes_of m (run b)) m) as [nx m'] eqn:E.
    destruct (make_spec _ _ _ _ _ _ E) as (A & B & Cc & D & F & G & Hold & Hsub); [lia..|]. pose proof (is_fresh (dom m)) as Hfresh.
    assert (forall t, (forall i, blk t = Some i -> i ∈ dom m) -> forall i, blk t = Some i -> m' !! i = m !! i) as Hfr by eauto.
    exists (MkInbound nx (borrowed b) nx 0 (borrows b)), m'. split; [done|]. split; [|split; [done|split; [|split; [|split; [done|by right]]]]].
    + split; simpl; try done.
      * apply Hsub, Hinv.
      * rewrite G. intros E1. injection E1 as E1. apply Hfresh. rewrite E1. apply Hinv.
      * rewrite G. intros i Hi. injection Hi as <-. destruct A as [_ [Hc|(b0 & data & Hb & Hm & _)]]; [lia|]. rewrite G in Hb. injection Hb as <-. apply elem_of_dom. eauto.
      * intros _. rewrite sub_of_0. split; [done|lia].
      * congruence.
      * pose proof (iv_handed _ _ _ _ Hinv) as Hh. destruct h as [[s bs]|]; [|done]. destruct Hh as (H1 & H2 & H3 & H4 & H5).
        split; [done|]. split; [rewrite <- H2; apply bytes_frame; by apply Hfr|]. split; [done|]. split; [intros i Hi; apply Hsub; auto|].
        left. rewrite G. intros E1. apply Hfresh. auto.
    + simpl. rewrite F. by apply take_ge; lia.
    + intros t Ht Hti. split; [intros; eapply slice_ok_frame; [by apply Hfr|done]|apply bytes_frame; by apply Hfr].
Qed.

(** The final append, onto an arena that is the queue's own. *)
Lemma append_owned_spec p :
  borrowed b = false ->
  exists b' m', (let '(a, m) := go_append (arena b) p m in r ← from a (off b); Ret (MkInbound r (borrowed b) a (off b) (borrows b), m)) = Ret (b', m') /\
    inv tb m' b' h /\ borrowed b' = false /\ bytes_of m' (run b') = bytes_of m (run b) ++ p /\ dom m ⊆ dom m'.
Proof.
  intros Eb. destruct (iv_owned _ _ _ _ Hinv Eb) as [Erun Hoff]. destruct (go_append (arena b) p m) as [a m'] eqn:E.
  destruct (go_append_spec _ _ _ _ _ E (iv_arena _ _ _ _ Hinv) (iv_dom _ _ _ _ Hinv)) as (Aok & Alen & Ablk & Abytes & Afr & Aok' & Adom & Ain).
  pose proof (is_fresh (dom m)) as Hfresh. unfold from. destruct (Nat.leb_spec (off b) (len a)); [|lia]. cbn [mbind outcome_bind].
  change (MkSlice (blk a) (lo a + off b) (len a - off b) (cap a - off b)) with (sub_of a (off b)).
  exists (MkInbound (sub_of a (off b)) (borrowed b) a (off b) (borrows b)), m'. split; [done|]. split; [|split; [done|split; [|done]]].
  - split; simpl; try done.
    + apply Adom, Hinv.
    + apply slice_ok_sub; [lia|done].
    + destruct Ablk as [[-> _]|[-> _]]; [apply Hinv|]. intros E1. injection E1 as E1. apply Hfresh. rewrite E1. apply Hinv.
    + congruence.
    + pose proof (iv_handed _ _ _ _ Hinv) as Hh. destruct h as [[s bs]|]; [|done]. destruct Hh as (H1 & H2 & H3 & H4 & H5).
      split; [done|]. split; [rewrite <- H2; by apply Afr|]. split; [done|]. split; [intros i Hi; apply Adom; auto|].
      destruct Ablk as [[-> ->]|[-> _]]; [destruct H5; [by left|right; lia]|]. left. intros E1. apply Hfresh. auto.
  - simpl. rewrite Abytes by lia. by rewrite Erun, bytes_sub.
Qed.
End inbound_ops.

Lemma append_spec tb m b h p :
  inv tb m b h -> slice_ok m p -> 0 < len p -> blk p <> blk (arena b) -> (forall i, blk p = Some i -> i ∈ dom m) ->
  (blk p = Some tb -> 0 < in_len b) -> (forall s bs, h = Some (s, bs) -> blk s <> blk p) ->
  exists b' m', append p b m = Ret (b', m') /\ inv tb m' b' h /\ borrowed b' = false /\
    bytes_of m' (run b') = bytes_of m (run b) ++ bytes_of m p /\ dom m ⊆ dom m'.
Proof.
  intros Hinv Hp Hlp Hpa Hpd Hptb Hph. unfold append. pose proof (is_fresh (dom m)) as Hfresh.
  assert (exists b1 m1, (if borrowed b then own b m else Ret (b, m)) = Ret (b1, m1) /\ inv tb m1 b1 h /\ borrowed b1 = false /\
     bytes_of m1 (run b1) = bytes_of m (run b) /\ in_len b1 = in_len b /\ slice_ok m1 p /\ bytes_of m1 p = bytes_of m p /\ dom m ⊆ dom m1 /\ blk p <> blk (arena b1))
    as (b1 & m1 & E1 & I1 & Hb1 & Hy1 & Hl1 & Hp1 & Hpy1 & Hd1 & Hpa1).
  { destruct (own_spec tb m b h Hinv) as (b1 & m1 & E1 & I1 & Hb1 & Hy1 & _ & Hl1 & Hfr & Hd & Hblk).
    destruct (borrowed b) eqn:Eb; [|exists b, m; done]. exists b1, m1. destruct (Hfr p Hpa Hpd) as [Hf1 Hf2]. repeat (split; [by auto|]).
    destruct Hblk as [-> | ->]; [done|]. intros E. apply Hfresh. auto. }
  rewrite E1. cbn [mbind outcome_bind]. destruct ((len (run b1) =? 0) && (off b1 =? 0) && (cap (arena b1) =? 0)) eqn:Ea.
  - apply andb_true_iff in Ea as [Ea Ea3]. apply andb_true_iff in Ea as [Ea1 Ea2]. apply Nat.eqb_eq in Ea1, Ea2, Ea3.
    assert (bytes_of m (run b) = []) as Hempty by (rewrite <- Hy1; apply nil_length_inv; rewrite length_bytes by apply I1; done).
    exists (setOwned p b1), m1. split; [done|]. split; [|split; [done|split; [simpl; by rewrite Hempty|done]]]. split; simpl; try done.
    + apply Hd1, Hinv.
    + intros E. unfold in_len in *. specialize (Hptb E). lia.
    + intros i Hi. apply Hd1. auto.
    + intros _. rewrite sub_of_0. split; [done|lia].
    + pose proof (iv_handed _ _ _ _ I1) as Hh. destruct h as [[s bs]|]; [|done]. destruct Hh as (H1 & H2 & H3 & H4 & H5).
      repeat (split; [done|]). left. by eapply Hph.
  - destruct (room_spec tb m1 b1 h I1 (len p) Hb1) as (b2 & m2 & E2 & I2 & Hb2 & Hy2 & Hfr2 & Hd2 & Hblk2). cbv zeta in E2 |- *. rewrite E2. cbn [mbind outcome_bind].
    destruct (Hfr2 p Hpa1) as [_ Hpy2]; [intros i Hi; apply Hd1; auto|].
    destruct (append_owned_spec tb m2 b2 h I2 (bytes_of m2 p) Hb2) as (b3 & m3 & E3 & I3 & Hb3 & Hy3 & Hd3). rewrite E3.
    exists b3, m3. split; [done|]. split; [done|]. split; [done|]. split; [congruence|]. set_solver.
Qed.

Lemma consume_spec tb m b n :
  inv tb m b None -> n <= in_len b ->
  exists b', consume n b = Ret b' /\ inv tb m b' None /\ borrowed b' = borrowed b /\ bytes_of m (run b') = drop n (bytes_of m (run b)).
Proof.
  intros Hinv Hn. unfold consume, from, in_len in *. destruct (Nat.leb_spec n (len (run b))); [|lia]. cbn [mbind outcome_bind].
  change (MkSlice (blk (run b)) (lo (run b) + n) (len (run b) - n) (cap (run b) - n)) with (sub_of (run b) n).
  pose proof (iv_run _ _ _ _ Hinv) as Hr. pose proof (iv_arena _ _ _ _ Hinv) as Ha. destruct (borrowed b) eqn:Eb.
  - eexists. split; [done|]. split; [|split; [done|apply bytes_sub]]. destruct Hinv. split; simpl; try done; [by apply slice_ok_sub|].
    intros _. destruct (iv_borrowed0 Eb). done.
  - destruct (iv_owned _ _ _ _ Hinv Eb) as [Erun Hoff]. simpl. destruct (Nat.eqb_spec (len (run b) - n) 0) as [E0|E0].
    + unfold reslice. simpl. rewrite Nat.add_0_r, Nat.sub_0_r. cbn [mbind outcome_bind]. eexists. split; [done|].
      assert (slice_ok m (MkSlice (blk (arena b)) (lo (arena b)) 0 (cap (arena b)))) as Hok by (destruct Ha as [? ?]; split; [simpl; lia|done]).
      split; [|split; [done|]].
      * destruct Hinv. split; simpl; try done. intros _. rewrite sub_of_0. split; [done|lia].
      * simpl. unfold bytes_of at 1. simpl. symmetry. apply drop_ge. rewrite length_bytes by done. lia.
    + eexists. split; [done|]. split; [|split; [done|apply bytes_sub]]. destruct Hinv. split; simpl; try done; [by apply slice_ok_sub|].
      intros _. rewrite Erun in *. unfold sub_of in *. simpl in *. split; [f_equal; lia|lia].
Qed.

(** ** The queue between transport, reader and writer *)

(** What happens around a stream's queue: data frames arrive, borrowed from the
    transport's buffer or copied out of it; the turn ends (ownInbound); the
    transport reuses its buffer; the reader takes bytes; WriteTo hands a slice
    to a writer and gets it back; the stream is closed. *)
Inductive event : Type :=
| Arrive (hdr payload : list Z)
| ArriveCopied (hdr payload : list Z)
| TurnEnds
| Reuse (data : list Z)
| Take (n : nat)
| WriterGets
| WriterDone
| Closes.

Record state : Type := MkState { store : blocks; queue : inbound; held : option (slice * list Z) }.

(** pushData's choice between borrowing and appending. *)
Definition push (p : slice) (frame_borrowed : bool) (b : inbound) (m : blocks) : outcome (inbound * blocks) :=
  if (in_len b =? 0) && frame_borrowed then Ret (setBorrowed p b, m) else append p b m.

Definition lends (tb : nat) (hdr payload : list Z) : slice := MkSlice (Some tb) (length hdr) (length payload) (length payload).

(** One event: what the reader can see afterwards, and what a writer giving its
    slice back has seen through it. *)
Definition step (tb : nat) (e : event) (st : state) : outcome (list Z * option (list Z) * state) :=
  let m := store st in
  let b := queue st in
  '(b, m, h, seen) ←
    match e with
    | Arrive hdr p =>
        '(b, m) ← push (lends tb hdr p) true b (<[tb := hdr ++ p]> m); Ret (b, m, held st, None)
    | ArriveCopied hdr p =>
        let '(s, m) := make (length (hdr ++ p)) (length (hdr ++ p)) (hdr ++ p) m in
        s ← from s (length hdr);
        '(b, m) ← push s false b m; Ret (b, m, held st, None)
    | TurnEnds => '(b, m) ← own b m; Ret (b, m, held st, None)
    | Reuse data => Ret (b, <[tb := data]> m, held st, None)
    | Take n => b ← consume n b; Ret (b, m, held st, None)
    | WriterGets =>
        '(b, m) ← (if borrowed b then own b m else Ret (b, m));
        Ret (MkInbound (run b) (borrowed b) (arena b) (off b) (borrows b + 1), m, Some (run b, bytes_of m (run b)), None)
    | WriterDone =>
        Ret (MkInbound (run b) (borrowed b) (arena b) (off b) (borrows b - 1), m, None, (fun '(s, _) => bytes_of m s) <$> held st)
    | Closes => Ret (drop_all b, m, held st, None)
    end;
  Ret (bytes_of m (run b), seen, MkState m b h).

Fixpoint steps (tb : nat) (es : list event) (st : state) : outcome (list (list Z * option (list Z)) * state) :=
  match es with
  | [] => Ret ([], st)
  | e :: es => '(q, seen, st) ← step tb e st; '(out, st) ← steps tb es st; Ret ((q, seen) :: out, st)
  end.

(** The contract: a byte queue, and a writer that keeps what it was handed.
    The transport may reuse its buffer only when nothing borrows it, and one
    reader consumes at a time. *)
Record abstract : Type := MkAbstract { aqueue : list Z; aborrows : bool; ahanded : option (list Z); agone : bool }.

Definition nonempty (l : list Z) : bool := match l with [] => false | _ => true end.

Definition allowed (e : event) (a : abstract) : bool :=
  match e with
  | Arrive _ p => negb (aborrows a) && negb (agone a) && nonempty p
  | ArriveCopied _ p => negb (agone a) && nonempty p
  | Reuse _ => negb (aborrows a)
  | Take n => (n <=? length (aqueue a)) && bool_decide (ahanded a = None)
  | WriterGets => nonempty (aqueue a) && bool_decide (ahanded a = None)
  | WriterDone => bool_decide (ahanded a <> None)
  | TurnEnds | Closes => true
  end.

Definition effect (e : event) (a : abstract) : option (list Z) * abstract :=
  match e with
  | Arrive _ p => (None, MkAbstract (aqueue a ++ p) (negb (nonempty (aqueue a))) (ahanded a) (agone a))
  | ArriveCopied _ p => (None, MkAbstract (aqueue a ++ p) false (ahanded a) (agone a))
  | TurnEnds => (None, MkAbstract (aqueue a) false (ahanded a) (agone a))
  | Reuse _ => (None, a)
  | Take n => (None, MkAbstract (drop n (aqueue a)) (aborrows a) (ahanded a) (agone a))
  | WriterGets => (None, MkAbstract (aqueue a) false (Some (aqueue a)) (agone a))
  | WriterDone => (ahanded a, MkAbstract (aqueue a) (aborrows a) None (agone a))
  | Closes => (None, MkAbstract [] false (ahanded a) true)
  end.

Fixpoint effects (es : list event) (a : abstract) : option (list (list Z * option (list Z))) :=
  match es with
  | [] => Some []
  | e :: es =>
      if allowed e a then let '(seen, a) := effect e a in out ← effects es a; Some ((aqueue a, seen) :: out) else None
  end.

Record related (tb : nat) (st : state) (a : abstract) : Prop := {
  rl_inv : inv tb (store st) (queue st) (held st);
  rl_queue : bytes_of (store st) (run (queue st)) = aqueue a;
  rl_borrows : borrowed (queue st) = aborrows a;
  rl_handed : snd <$> held st = ahanded a;
  rl_waiting : agone a = false -> ahanded a <> None -> aqueue a <> [] }.

Lemma inv_reuse tb m b h data : borrowed b = false -> inv tb m b h -> inv tb (<[tb := data]> m) b h /\ bytes_of (<[tb := data]> m) (run b) = bytes_of m (run b).
Proof.
  intros Eb Hinv. destruct (iv_owned _ _ _ _ Hinv Eb) as [Erun Hoff]. assert (blk (run b) = blk (arena b)) as Erb by (by rewrite Erun).
  assert (forall s, blk s <> Some tb -> forall i, blk s = Some i -> <[tb := data]> m !! i = m !! i) as Hfr.
  { intros s Hs i Hi. rewrite lookup_insert_ne; [done|]. congruence. }
  pose proof (iv_tb _ _ _ _ Hinv) as Htb. split; [|apply bytes_frame, Hfr; congruence].
  assert (forall i, i ∈ dom m -> i ∈ dom (<[tb := data]> m)) as Hd by (intros i Hi; rewrite dom_insert; set_solver).
  destruct Hinv. split; [auto| | |done|auto|done|done|].
  - eapply slice_ok_frame; [|done]. apply Hfr. congruence.
  - eapply slice_ok_frame; [|done]. by apply Hfr.
  - destruct h as [[s bs]|]; [|done]. destruct iv_handed0 as (H1 & H2 & H3 & H4 & H5). split; [done|].
    split; [rewrite <- H2; apply bytes_frame; apply Hfr; apply H3|]. split; [done|]. split; [auto|done].
Qed.

Lemma in_len_queue tb st a : related tb st a -> in_len (queue st) = length (aqueue a).
Proof. intros R. rewrite <- (rl_queue _ _ _ R). symmetry. apply length_bytes, R. Qed.

Lemma lends_ok tb hdr p m : slice_ok (<[tb := hdr ++ p]> m) (lends tb hdr p) /\ bytes_of (<[tb := hdr ++ p]> m) (lends tb hdr p) = p.
Proof.
  assert (<[tb := hdr ++ p]> m !! tb = Some (hdr ++ p)) as E by (rewrite lookup_insert; by destruct (decide (tb = tb))).
  split; [split; [done|]; right; exists tb, (hdr ++ p); simpl; rewrite E, length_app; done|].
  unfold bytes_of, lends. simpl. rewrite E. simpl. rewrite drop_app_length. by apply take_ge.
Qed.

(** ** Each event keeps the queue related to its contract *)

Section events.
Context (tb : nat) (st : state) (a : abstract).
Hypothesis R : related tb st a.

Lemma arrive_step hdr p :
  allowed (Arrive hdr p) a = true -> exists q st', step tb (Arrive hdr p) st = Ret (q, (effect (Arrive hdr p) a).1, st') /\
    q = aqueue (effect (Arrive hdr p) a).2 /\ related tb st' (effect (Arrive hdr p) a).2.
Proof.
  simpl. rewrite !andb_true_iff, !negb_true_iff. intros [[Hb Hg] Hp]. destruct R as [Hinv Hq Hbo Hh Hw]. rewrite Hb in Hbo.
  destruct (inv_reuse tb _ _ _ (hdr ++ p) Hbo Hinv) as [Hinv1 Hq1]. destruct (lends_ok tb hdr p (store st)) as [Hlo Hlb].
  unfold step, push. rewrite (in_len_queue _ _ _ R). simpl. destruct (aqueue a) as [|z zs] eqn:Ea; simpl.
  - do 2 eexists. split; [done|]. rewrite Hlb. split; [done|].
    assert (held st = None) as Hnone by (destruct (held st) as [[s bs]|]; [|done]; simpl in Hh; exfalso; apply Hw; congruence).
    rewrite Hnone in *. split; simpl; [destruct Hinv1; by split|done|done|done|by destruct p].
  - destruct (append_spec tb _ (queue st) (held st) (lends tb hdr p) Hinv1 Hlo) as (b' & m' & E & I' & Hb' & Hy & Hd).
    + simpl. destruct p; [done|simpl; lia].
    + simpl. pose proof (iv_tb _ _ _ _ Hinv). congruence.
    + simpl. intros i Hi. injection Hi as <-. set_solver.
    + intros _. rewrite (in_len_queue _ _ _ R), Ea. simpl. lia.
    + intros s bs Hs. pose proof (iv_handed _ _ _ _ Hinv) as H. rewrite Hs in H. simpl. apply H.
    + rewrite E. cbn [mbind outcome_bind]. do 2 eexists. split; [done|]. rewrite Hy, Hq1, Hq, Hlb. split; [done|].
      split; simpl; [done|by rewrite Hy, Hq1, Hq, Hlb|done|done|done].
Qed.

Lemma arrive_copied_step hdr p :
  allowed (ArriveCopied hdr p) a = true -> exists q st', step tb (ArriveCopied hdr p) st = Ret (q, (effect (ArriveCopied hdr p) a).1, st') /\
    q = aqueue (effect (ArriveCopied hdr p) a).2 /\ related tb st' (effect (ArriveCopied hdr p) a).2.
Proof.
  simpl. rewrite andb_true_iff, negb_true_iff. intros [Hg Hp]. destruct R as [Hinv Hq Hbo Hh Hw]. unfold step, push.
  destruct (make (length (hdr ++ p)) (length (hdr ++ p)) (hdr ++ p) (store st)) as [s m1] eqn:E.
  destruct (make_spec _ _ _ _ _ _ E) as (A & B & Cc & D & F & G & Hold & Hsub); [done..|]. pose proof (is_fresh (dom (store st))) as Hfresh.
  unfold from. rewrite B, length_app. destruct (Nat.leb_spec (length hdr) (length hdr + length p)); [|lia]. cbn [mbind outcome_bind].
  rewrite andb_false_r. rewrite <- length_app, <- B. change (MkSlice (blk s) (lo s + length hdr) (len s - length hdr) (cap s - length hdr)) with (sub_of s (length hdr)).
  assert (forall t, (forall i, blk t = Some i -> i ∈ dom (store st)) -> forall i, blk t = Some i -> m1 !! i = store st !! i) as Hfr by eauto.
  assert (forall i, blk (run (queue st)) = Some i -> i ∈ dom (store st)) as Hrd.
  { intros i Hi. destruct (borrowed (queue st)) eqn:Eb.
    - destruct (iv_borrowed _ _ _ _ Hinv Eb) as [Hr _]. rewrite Hr in Hi. injection Hi as <-. apply Hinv.
    - destruct (iv_owned _ _ _ _ Hinv Eb) as [Hr _]. rewrite Hr in Hi. by apply (iv_dom _ _ _ _ Hinv). }
  assert (inv tb m1 (queue st) (held st)) as Hinv1.
  { destruct Hinv. split; try done; [by apply Hsub| | |intros; apply Hsub; auto|].
    - eapply slice_ok_frame; [by apply Hfr|done].
    - eapply slice_ok_frame; [by apply Hfr|done].
    - destruct (held st) as [[t bs]|]; [|done]. destruct iv_handed0 as (H1 & H2 & H3 & H4 & H5). split; [done|].
      split; [rewrite <- H2; apply bytes_frame; by apply Hfr|]. split; [done|]. split; [|done]. intros; apply Hsub; auto. }
  destruct (append_spec tb m1 (queue st) (held st) (sub_of s (length hdr)) Hinv1) as (b' & m' & E' & I' & Hb' & Hy & Hd).
  - apply slice_ok_sub; [rewrite B, length_app; lia|done].
  - simpl. rewrite B, length_app. destruct p; [done|simpl; lia].
  - simpl. rewrite G. intros E1. symmetry in E1. apply (iv_dom _ _ _ _ Hinv) in E1. done.
  - simpl. rewrite G. intros i Hi. injection Hi as <-. destruct A as [_ [Hc|(b0 & data & Hb0 & Hm & _)]].
    + rewrite Cc, length_app in Hc. destruct p; [done|simpl in *; lia].
    + rewrite G in Hb0. injection Hb0 as <-. apply elem_of_dom. eauto.
  - simpl. rewrite G. intros E1. injection E1 as E1. exfalso. apply Hfresh. rewrite E1. apply Hinv.
  - intros t bs Ht. pose proof (iv_handed _ _ _ _ Hinv) as H0. rewrite Ht in H0. simpl. rewrite G. intros E1. apply Hfresh. destruct H0 as (_ & _ & _ & H0 & _). auto.
  - rewrite E'. cbn [mbind outcome_bind]. do 2 eexists. split; [done|].
    assert (bytes_of m' (run b') = aqueue a ++ p) as Hfin.
    { rewrite Hy, (bytes_frame (store st) m1 (run (queue st))) by (by apply Hfr). rewrite Hq. f_equal. rewrite bytes_sub, F, take_ge by done. apply drop_app_length. }
    split; [done|]. split; simpl; try done. intros _ Hne. specialize (Hw Hg Hne). by destruct (aqueue a).
Qed.

Lemma handed_None : ahanded a = None -> held st = None.
Proof. intros H. pose proof (rl_handed _ _ _ R) as Hh. rewrite H in Hh. by destruct (held st). Qed.

Lemma writer_gets_step :
  allowed WriterGets a = true -> exists q st', step tb WriterGets st = Ret (q, (effect WriterGets a).1, st') /\
    q = aqueue (effect WriterGets a).2 /\ related tb st' (effect WriterGets a).2.
Proof.
  simpl. rewrite andb_true_iff, bool_decide_eq_true. intros [Hne Hn]. apply handed_None in Hn as Hnone. destruct R as [Hinv Hq Hbo Hh Hw].
  assert (exists b1 m1, (if borrowed (queue st) then own (queue st) (store st) else Ret (queue st, store st)) = Ret (b1, m1) /\ inv tb m1 b1 None /\
     borrowed b1 = false /\ bytes_of m1 (run b1) = aqueue a) as (b1 & m1 & E1 & I1 & Hb1 & Hy1).
  { rewrite Hnone in Hinv. destruct (own_spec tb _ _ _ Hinv) as (b1 & m1 & E1 & I1 & Hb1 & Hy1 & _). destruct (borrowed (queue st)) eqn:Eb; [exists b1, m1|exists (queue st), (store st)]; (split; [done|]); (split; [done|]); split; congruence. }
  unfold step. rewrite E1. cbn [mbind outcome_bind]. do 2 eexists. split; [done|]. simpl. split; [done|].
  destruct (iv_owned _ _ _ _ I1 Hb1) as [Erun Hoff]. split; simpl; [|done|done|by rewrite Hy1|intros; by destruct (aqueue a)].
  pose proof (iv_handed _ _ _ _ I1) as H0. simpl in H0. pose proof (iv_dom _ _ _ _ I1) as Hd. pose proof (iv_tb _ _ _ _ I1) as Ht.
  assert (blk (arena b1) <> None) as Hnn.
  { pose proof (length_bytes _ _ (iv_run _ _ _ _ I1)) as Hl. rewrite Hy1 in Hl. destruct (iv_arena _ _ _ _ I1) as [H1 [H2|(i & ? & -> & _)]]; [|done].
    rewrite Erun in Hl. simpl in Hl. destruct (aqueue a); [done|simpl in Hl; lia]. }
  destruct I1. split; simpl; try done; [congruence|]. rewrite H0. split; [done|]. split; [done|]. rewrite Erun. simpl. split; [done|]. split; [done|]. right. lia.
Qed.

Lemma step_related e :
  allowed e a = true -> exists q st', step tb e st = Ret (q, (effect e a).1, st') /\ q = aqueue (effect e a).2 /\ related tb st' (effect e a).2.
Proof.
  destruct e as [hdr p|hdr p| |data|n| | |]; intros Ha; [by apply arrive_step|by apply arrive_copied_step| | | |by apply writer_gets_step| |].
  all: destruct R as [Hinv Hq Hbo Hh Hw]; simpl in Ha; unfold step.
  - destruct (own_spec tb _ _ _ Hinv) as (b1 & m1 & E1 & I1 & Hb1 & Hy1 & _). rewrite E1. cbn [mbind outcome_bind]. do 2 eexists.
    split; [done|]. simpl. rewrite Hy1. split; [done|]. split; simpl; [done|congruence|done|done|done].
  - apply negb_true_iff in Ha. rewrite Ha in Hbo. destruct (inv_reuse tb _ _ _ data Hbo Hinv) as [I1 Hy1]. do 2 eexists.
    split; [done|]. simpl. rewrite Hy1. split; [done|]. split; simpl; [done|congruence|congruence|done|done].
  - apply andb_true_iff in Ha as [Hn Hd]. apply Nat.leb_le in Hn. apply bool_decide_eq_true in Hd. apply handed_None in Hd as Hnone. rewrite Hnone in *.
    destruct (consume_spec tb _ _ n Hinv) as (b1 & E1 & I1 & Hb1 & Hy1); [by rewrite (in_len_queue _ _ _ R)|]. rewrite E1. cbn [mbind outcome_bind].
    do 2 eexists. split; [done|]. simpl. rewrite Hy1, Hq. split; [done|]. split; simpl; [done|congruence|congruence|done|congruence].
  - apply bool_decide_eq_true in Ha. pose proof (iv_handed _ _ _ _ Hinv) as H0. pose proof (iv_borrowed _ _ _ _ Hinv) as Hib.
    destruct (held st) as [[s bs]|] eqn:Es; simpl in Hh; [|congruence].
    destruct H0 as (H1 & H2 & _). do 2 eexists. simpl. split; [rewrite H2, Hh; done|]. split; [done|]. split; simpl; [|done|done|done|congruence].
    destruct Hinv. split; simpl; [done|done|done|done|done|done|intros Eb; by destruct (Hib Eb)|lia].
  - do 2 eexists. split; [done|]. split; [done|]. split; simpl; [|done|done|done|done]. pose proof (iv_handed _ _ _ _ Hinv) as H0.
    assert (slice_ok (store st) nil_slice) as Hnil by (split; [simpl; lia|by left]).
    destruct Hinv. split; simpl; [done|done|done|done|done|intros _; split; [done|lia]|done|]. destruct (held st) as [[s bs]|]; [|done].
    destruct H0 as (H1 & H2 & H3 & H4 & H5). repeat (split; [done|]). left. apply H3.
Qed.
End events.

Lemma steps_related tb es : forall st a out,
  related tb st a -> effects es a = Some out -> exists st', steps tb es st = Ret (out, st').
Proof.
  induction es as [|e es IH]; intros st a out R Ho; simpl in Ho.
  - injection Ho as <-. eexists. done.
  - destruct (allowed e a) eqn:Ea; [|done]. destruct (step_related tb st a R e Ea) as (q & st1 & E & -> & R1).
    destruct (effect e a) as [seen a1]. simpl in *. destruct (effects es a1) as [out1|] eqn:E1; [|done]. injection Ho as <-.
    destruct (IH _ _ _ R1 E1) as (st2 & E2). exists st2. cbn [steps]. rewrite E. cbn [mbind outcome_bind]. by rewrite E2.
Qed.

(** C33. A stream's receive queue is a byte queue in the order of arrival,
    whatever mix of borrowed and copied frames, copies at the end of a turn,
    reads, and slices handed to a writer: it loses and repeats no byte, never
    panics, does not depend on the transport's buffer once the turn has ended,
    and a writer that gives back its slice has seen the bytes it was handed
    through all the arrivals, compactions and closes in between. *)
Theorem inbound_is_byte_queue tb (m : blocks) es out :
  tb ∈ dom m -> effects es (MkAbstract [] false None false) = Some out ->
  exists st, steps tb es (MkState m empty_inbound None) = Ret (out, st).
Proof.
  intros Htb. apply steps_related. assert (slice_ok m nil_slice) as Hnil by (split; [simpl; lia|by left]).
  split; [|done..]. by split.
Qed.
End MuxInbound.

Definition doubling (c need : nat) : nat := Nat.max (2 * c) need.

Definition sample_events : list event :=
  [Arrive [9; 9] [1; 2; 3]; Take 1; TurnEnds; Reuse [7; 7; 7; 7; 7]; WriterGets; ArriveCopied [9] [4; 5; 6; 7]; Arrive [] [8];
   WriterDone; Take 4; ArriveCopied [] [1; 2]; Take 5; Closes]%Z.

Lemma inbound_is_byte_queue_witness :
  exists st, steps doubling 0 sample_events (MkState {[0 := []]} empty_inbound None) =
    Ret ([([1; 2; 3], None); ([2; 3], None); ([2; 3], None); ([2; 3], None); ([2; 3], None); ([2; 3; 4; 5; 6; 7], None);
          ([2; 3; 4; 5; 6; 7; 8], None); ([2; 3; 4; 5; 6; 7; 8], Some [2; 3]); ([6; 7; 8], None); ([6; 7; 8; 1; 2], None); ([], None); ([], None)]%Z, st).
Proof.
  apply (inbound_is_byte_queue doubling).
  - intros c need. unfold doubling. lia.
  - set_solver.
  - reflexivity.
Defined.
