(* ===== verification/Update.v ===== *)
(** * Updating one field of a record

    The Go code assigns single fields of large structs.  [r <| f := v |>] is
    the record [r] with field [f] replaced; a record type gives its
    constructor applied to its projections once, and each field its updater. *)

From S2P Require Import Prelude.

Class Expanded (R : Type) : Type := expand : R -> R.
Class Field {R T : Type} (proj : R -> T) : Type := over : (T -> T) -> R -> R.

Arguments over {R T} proj {_} _ _.

(** Builds the updater of a projection from the record's expansion: the
    projection's occurrence is abstracted and the function applied there. *)
Ltac field_updater :=
  lazymatch goal with
  | |- @Field ?R ?T ?proj =>
      let u := fresh "u" in
      let r := fresh "r" in
      red; intros u r;
      let e := eval cbv beta delta [expand] in (expand r) in
      let e := (lazymatch e with ?f r => eval red in (f r) end) in
      let e := (lazymatch eval pattern (proj r) in e with ?g _ => eval cbv beta in (g (u (proj r))) end) in
      exact e
  end.

Declare Scope update_scope.
Delimit Scope update_scope with upd.
Notation "r <| f := v |>" := (over f (fun _ => v) r)
  (at level 1, f at level 0, left associativity) : update_scope.
Notation "r <| f ::= g |>" := (over f g r)
  (at level 1, f at level 0, left associativity) : update_scope.
Open Scope update_scope.
