(* ===== verification/MuxTypes.v ===== *)
(** * umux: the state of a session, its streams and its transport

    The structs of session.go and stream.go.  Streams are objects: the table
    [streams] maps a wire id to a reference into [objects], and a reference
    stays usable after the stream left the table, as a *Stream does.  The
    unread queue [sin] is the byte queue that MuxInbound.v shows the inbound
    struct to be. *)

From S2P Require Import Prelude Update MuxFrame MuxWindow.
Local Open Scope Z_scope.

(** ** Errors *)

Inductive error : Type :=
| ErrClosed | ErrStreamReset | ErrGoAway | ErrShutdownTimeout | ErrMaxStreams | ErrProtocol
| ErrStreamOpenTimeout | ErrKeepAlive | ErrMetadataTooLarge
| ErrFrame (e : frame_error)
| ErrWindow (e : window_error)
| ErrDeadline (read write : bool)      (* streamDeadlineError, wrapping os.ErrDeadlineExceeded *)
| ErrOutboundOverflow                  (* uio.ErrOutboundOverflow *)
| NetErrClosed                         (* net.ErrClosed *)
| EOF | ErrShortWrite
| Foreign (code : Z).                  (* an error of the transport, a context or the application *)

#[export] Instance error_eq_dec : EqDecision error.
Proof. solve_decision. Defined.

Definition streamDeadlineError (read write : bool) : error := ErrDeadline read write.

(** ** The transport connection

    What a session calls of uio.Conn.  [verdicts] are the transport's answers
    to the coming writes; when the list is used up it accepts.  [sent] keeps
    every accepted frame with the stream object it came from. *)

Definition wframe : Type := frameHeader * list Z.

Inductive verdict : Type := Accepts | Overflows | Breaks (e : error).

Record transport : Type := MkTransport {
  verdicts : list verdict;
  sent : list (option nat * wframe);
  inbuf : list Z;
  wakes : nat;
  wakeDeadline : option Z;
  closeCalls : list (option error)
}.

#[export] Instance transport_expanded : Expanded transport := fun c =>
  MkTransport (verdicts c) (sent c) (inbuf c) (wakes c) (wakeDeadline c) (closeCalls c).
#[export] Instance verdicts_field : Field verdicts := ltac:(field_updater).
#[export] Instance sent_field : Field sent := ltac:(field_updater).
#[export] Instance inbuf_field : Field inbuf := ltac:(field_updater).
#[export] Instance wakes_field : Field wakes := ltac:(field_updater).
#[export] Instance wakeDeadline_field : Field wakeDeadline := ltac:(field_updater).
#[export] Instance closeCalls_field : Field closeCalls := ltac:(field_updater).

(** One conn.Write or conn.WriteOwned. *)
Definition conn_write (origin : option nat) (f : wframe) (c : transport) : option error * transport :=
  let c' := c <| verdicts ::= tail |> in
  match verdicts c with
  | [] | Accepts :: _ => (None, c' <| sent ::= (fun l => l ++ [(origin, f)]) |>)
  | Overflows :: _ => (Some ErrOutboundOverflow, c')
  | Breaks e :: _ => (Some e, c')
  end.

(** ** A stream *)

Inductive streamFINState : Type := finNone | finQueued | finSent.

#[export] Instance streamFINState_eq_dec : EqDecision streamFINState.
Proof. solve_decision. Defined.

(** The pauses of a stream's read control: who holds one, and whether a
    released pause's turn is owed (ReadControl.v has its atomic steps). *)
Record pausing : Type := MkPausing { holders : gset nat; owedTurn : bool }.

Definition pausedReads (p : pausing) : bool := bool_decide (holders p <> ∅).
Definition heldEnd (p : pausing) : bool := pausedReads p || owedTurn p.

Record stream : Type := MkStream {
  sid : Z;
  wmu : bool;                 (* the write lock is held *)
  sin : list Z;
  callbackActive : bool;
  yieldOwed : bool;
  peerFIN : bool;
  localFIN : bool;
  opening : bool;
  openedAt : Z;
  halfSince : option Z;
  closedLocal : bool;
  closedErr : option error;
  closeDelivered : bool;
  sendWin : sendWindow;
  recvWin : recvWindow;
  out : list wframe;
  queued : bool;
  finState : streamFINState;
  wakeAt : option Z;
  wakeDu : Z;
  readDeadline : option Z;
  writeDeadline : option Z;
  wakePending : bool;
  readControl : pausing;
  framed : list wframe;       (* every data frame ever put on [out] *)
  accepted : list Z           (* every byte a write took credit for *)
}.

#[export] Instance stream_expanded : Expanded stream := fun st =>
  MkStream (sid st) (wmu st) (sin st) (callbackActive st) (yieldOwed st) (peerFIN st) (localFIN st)
    (opening st) (openedAt st) (halfSince st) (closedLocal st) (closedErr st) (closeDelivered st)
    (sendWin st) (recvWin st) (out st) (queued st) (finState st) (wakeAt st) (wakeDu st)
    (readDeadline st) (writeDeadline st) (wakePending st) (readControl st) (framed st) (accepted st).
#[export] Instance wmu_field : Field wmu := ltac:(field_updater).
#[export] Instance sin_field : Field sin := ltac:(field_updater).
#[export] Instance callbackActive_field : Field callbackActive := ltac:(field_updater).
#[export] Instance yieldOwed_field : Field yieldOwed := ltac:(field_updater).
#[export] Instance peerFIN_field : Field peerFIN := ltac:(field_updater).
#[export] Instance localFIN_field : Field localFIN := ltac:(field_updater).
#[export] Instance opening_field : Field opening := ltac:(field_updater).
#[export] Instance halfSince_field : Field halfSince := ltac:(field_updater).
#[export] Instance closedLocal_field : Field closedLocal := ltac:(field_updater).
#[export] Instance closedErr_field : Field closedErr := ltac:(field_updater).
#[export] Instance closeDelivered_field : Field closeDelivered := ltac:(field_updater).
#[export] Instance sendWin_field : Field sendWin := ltac:(field_updater).
#[export] Instance recvWin_field : Field recvWin := ltac:(field_updater).
#[export] Instance out_field : Field out := ltac:(field_updater).
#[export] Instance queued_field : Field queued := ltac:(field_updater).
#[export] Instance finState_field : Field finState := ltac:(field_updater).
#[export] Instance wakeAt_field : Field wakeAt := ltac:(field_updater).
#[export] Instance wakeDu_field : Field wakeDu := ltac:(field_updater).
#[export] Instance readDeadline_field : Field readDeadline := ltac:(field_updater).
#[export] Instance writeDeadline_field : Field writeDeadline := ltac:(field_updater).
#[export] Instance wakePending_field : Field wakePending := ltac:(field_updater).
#[export] Instance readControl_field : Field readControl := ltac:(field_updater).
#[export] Instance framed_field : Field framed := ltac:(field_updater).
#[export] Instance accepted_field : Field accepted := ltac:(field_updater).

(** newStream *)
Definition newStream (id : Z) (local : bool) (now ourWindow : Z) : stream :=
  MkStream id false [] false false false false local now None false None false
    (newSendWindow minWindow) (newRecvWindow ourWindow) [] false finNone None 0 None None false
    (MkPausing ∅ false) [] [].

(** ** A session *)

(** What the application sees: callbacks and the results of its calls. *)
Inductive event : Type :=
| OnOpen (r : nat)
| OnMetadata (r : nat) (meta : list Z)
| OnRead (r : nat)
| OnTimer (r : nat)
| OnClose (r : nat) (err : option error)
| OnBytesRead (r : nat) (n : Z)
| OnBytesWritten (r : nat) (n : Z)
| OnQueueDrained (r : nat)
| Opened (r : nat)
| Received (r : nat) (meta : list Z)
| Returned (n : Z) (err : option error).

(** Whether the configuration has an Observer, one that hears drains, and an
    Accept hook; [MetaHandler]: the Handler implements MetadataHandler. *)
Record hooks : Type := MkHooks {
  HasObserver : bool; ObserverDrains : bool; HandlerDrains : bool; HasAccept : bool; MetaHandler : bool }.

Record session : Type := MkSession {
  cfg : Config;
  hks : hooks;
  client : bool;
  conn : transport;
  armedAt : option Z;
  objects : list stream;
  streams : gmap Z nat;
  nextID : Z;
  chans : list (list (option error));      (* the open waiters' channels, capacity one *)
  openWait : gmap Z nat;
  acceptCh : list (nat * list Z);
  control : list wframe;
  pending : list Z;
  pendingBytes : Z;
  readHeld : bool;
  goAway : bool;
  goAwaySent : bool;
  goAwayFlushed : bool;
  closed : bool;
  closeErr : option error;
  draining : bool;
  drainErr : option error;
  drainClosed : bool;
  lastPing : Z;
  pingSent : option Z;
  pingSeq : Z;
  flushReq : bool;
  finFlushed : list nat;
  drained : list nat;
  closeQ : list (nat * option error);
  wakeQ : list nat;
  trace : list event
}.

#[export] Instance session_expanded : Expanded session := fun s =>
  MkSession (cfg s) (hks s) (client s) (conn s) (armedAt s) (objects s) (streams s) (nextID s) (chans s)
    (openWait s) (acceptCh s) (control s) (pending s) (pendingBytes s) (readHeld s) (goAway s)
    (goAwaySent s) (goAwayFlushed s) (closed s) (closeErr s) (draining s) (drainErr s) (drainClosed s)
    (lastPing s) (pingSent s) (pingSeq s) (flushReq s) (finFlushed s) (drained s) (closeQ s) (wakeQ s)
    (trace s).
#[export] Instance conn_field : Field conn := ltac:(field_updater).
#[export] Instance armedAt_field : Field armedAt := ltac:(field_updater).
#[export] Instance objects_field : Field objects := ltac:(field_updater).
#[export] Instance streams_field : Field streams := ltac:(field_updater).
#[export] Instance nextID_field : Field nextID := ltac:(field_updater).
#[export] Instance chans_field : Field chans := ltac:(field_updater).
#[export] Instance openWait_field : Field openWait := ltac:(field_updater).
#[export] Instance acceptCh_field : Field acceptCh := ltac:(field_updater).
#[export] Instance control_field : Field control := ltac:(field_updater).
#[export] Instance pending_field : Field pending := ltac:(field_updater).
#[export] Instance pendingBytes_field : Field pendingBytes := ltac:(field_updater).
#[export] Instance readHeld_field : Field readHeld := ltac:(field_updater).
#[export] Instance goAway_field : Field goAway := ltac:(field_updater).
#[export] Instance goAwaySent_field : Field goAwaySent := ltac:(field_updater).
#[export] Instance goAwayFlushed_field : Field goAwayFlushed := ltac:(field_updater).
#[export] Instance closed_field : Field closed := ltac:(field_updater).
#[export] Instance closeErr_field : Field closeErr := ltac:(field_updater).
#[export] Instance draining_field : Field draining := ltac:(field_updater).
#[export] Instance drainErr_field : Field drainErr := ltac:(field_updater).
#[export] Instance drainClosed_field : Field drainClosed := ltac:(field_updater).
#[export] Instance lastPing_field : Field lastPing := ltac:(field_updater).
#[export] Instance pingSent_field : Field pingSent := ltac:(field_updater).
#[export] Instance pingSeq_field : Field pingSeq := ltac:(field_updater).
#[export] Instance flushReq_field : Field flushReq := ltac:(field_updater).
#[export] Instance finFlushed_field : Field finFlushed := ltac:(field_updater).
#[export] Instance drained_field : Field drained := ltac:(field_updater).
#[export] Instance closeQ_field : Field closeQ := ltac:(field_updater).
#[export] Instance wakeQ_field : Field wakeQ := ltac:(field_updater).
#[export] Instance trace_field : Field trace := ltac:(field_updater).

(** The streams' object [r], and its update. *)
Definition obj (l : list stream) (r : nat) : stream := default (newStream 0 false 0 0) (l !! r).
Definition get (r : nat) (s : session) : stream := obj (objects s) r.
Definition upd (r : nat) (f : stream -> stream) (s : session) : session := s <| objects ::= alter f r |>.

Definition emit (e : event) (s : session) : session := s <| trace ::= (fun l => l ++ [e]) |>.
Definition emits (es : list event) (s : session) : session := s <| trace ::= (fun l => l ++ es) |>.

(** [s.streams[st.id] == st] *)
Definition live (r : nat) (s : session) : bool := bool_decide (streams s !! sid (get r s) = Some r).

(** Who hears drains: the Observer when it can, else the Handler. *)
Definition drainObs (s : session) : bool :=
  (HasObserver (hks s) && ObserverDrains (hks s)) || (HasHandler (cfg s) && HandlerDrains (hks s)).
