(* ===== verification/MuxFlush.v ===== *)
(** * umux/session.go: the outbound scheduler

    Control frames first, then one frame per stream in round-robin order, a
    stream's FIN behind its data; a frame the transport refuses for overflow
    stays where it was. *)

From S2P Require Import Prelude Update MuxFrame MuxWindow MuxTypes.
Local Open Scope Z_scope.

Definition maxFlushFrames : nat := 256.

(** The header every frame of the session is built from. *)
Definition header (typ flags id len : Z) : frameHeader := MkHeader protoVersion typ flags id len.

Definition sendControlLocked (typ flags id len : Z) (s : session) : session :=
  if closed s then s
  else s <| control ::= (fun q => q ++ [(header typ flags id len, [])]) |>.

(** Puts a stream on the round-robin queue unless it is there. *)
Definition queue_stream (r : nat) (s : session) : session :=
  if queued (get r s) then s
  else (upd r (fun st => st <| queued := true |>) s) <| pending ::= (fun q => q ++ [sid (get r s)]) |>.

Definition enqueueFin (r : nat) (s : session) : session :=
  if negb (bool_decide (finState (get r s) = finNone)) || negb (live r s) then s
  else queue_stream r (upd r (fun st => st <| finState := finQueued |>) s).

Definition enqueue (r : nat) (f : wframe) (s : session) : bool * session :=
  if negb (live r s) then (false, s)
  else (true, queue_stream r
    (upd r (fun st => st <| out ::= (fun q => q ++ [f]) |> <| framed ::= (fun q => q ++ [f]) |>) s)).

Definition dropOutLocked (r : nat) (s : session) : session :=
  upd r (fun st => st <| out := [] |> <| queued := false |> <| finState := finNone |>) s.

(** frameData's chunk at the front of [p]. *)
Definition data_frame (id : Z) (p : list Z) : wframe :=
  (header typeData 0 id (Z.of_nat (length p)), p).
Definition fin_frame (id : Z) : wframe := (header typeWindowUpdate flagFIN id 0, []).

(** What one iteration of the flush loop decides. *)
Inductive flushed : Type := Again | Stop (err : option error).

(** A write's error ends the pass: overflow quietly, anything else with it. *)
Definition refused (e : error) : flushed :=
  Stop (if bool_decide (e = ErrOutboundOverflow) then None else Some e).

Definition pop_pending (r : nat) (s : session) : session :=
  upd r (fun st => st <| queued := false |>) (s <| pending ::= tail |>).

Definition flush_control (f : wframe) (s : session) : session * flushed :=
  match conn_write None f (conn s) with
  | (Some e, c) => (s <| conn := c |>, refused e)
  | (None, c) => (s <| conn := c |> <| control ::= tail |>, Again)
  end.

Definition flush_fin (r : nat) (id : Z) (s : session) : session * flushed :=
  match conn_write (Some r) (fin_frame id) (conn s) with
  | (Some e, c) => (s <| conn := c |>, refused e)
  | (None, c) =>
      ((upd r (fun st => st <| finState := finSent |>) (pop_pending r (s <| conn := c |>)))
         <| finFlushed ::= (fun q => q ++ [r]) |>, Again)
  end.

Definition flush_data (r : nat) (id : Z) (f : wframe) (rest : list wframe) (s : session) : session * flushed :=
  match conn_write (Some r) f (conn s) with
  | (Some ErrOutboundOverflow, c) => (s <| conn := c |>, Stop None)
  | (Some e, c) => (upd r (fun st => st <| out := rest |>) (s <| conn := c |>), Stop (Some e))
  | (None, c) =>
      let s := upd r (fun st => st <| out := rest |>) (s <| conn := c |>) in
      if bool_decide (rest = []) && negb (bool_decide (finState (get r s) = finQueued)) then
        let s := pop_pending r s in
        (if drainObs s then s <| drained ::= (fun q => q ++ [r]) |> else s, Again)
      else (s <| pending ::= (fun q => tail q ++ [id]) |>, Again)
  end.

Definition flush_step (s : session) : session * flushed :=
  let s := if goAwaySent s && bool_decide (control s = []) then s <| goAwayFlushed := true |> else s in
  match control s with
  | f :: _ => flush_control f s
  | [] =>
      match pending s with
      | [] => (s, Stop None)
      | id :: _ =>
          match streams s !! id with
          | None => (s <| pending ::= tail |>, Again)
          | Some r =>
              match out (get r s) with
              | f :: rest => flush_data r id f rest s
              | [] =>
                  if bool_decide (finState (get r s) = finQueued) then flush_fin r id s
                  else (pop_pending r s, Again)
              end
          end
      end
  end.

Fixpoint flush_loop (budget : nat) (s : session) : session * option error :=
  match budget with
  | O => (s, None)
  | S budget =>
      match flush_step s with
      | (s, Again) => flush_loop budget s
      | (s, Stop err) => (s, err)
      end
  end.

Definition flushLocked (s : session) : session * option error :=
  if closed s then (s, None) else flush_loop maxFlushFrames s.
