(* ===== verification/MuxSession.v ===== *)
(** * umux/session.go, stream.go, shutdown.go, timers.go: the session machine

    Every method is split where it releases its locks: the code between two
    lock releases is one atomic section, and what the method still has to do
    is a list of [todo]s.  A goroutine is such a list, its call stack; the
    transport's turn is one of them.  [exec] runs the section at the front of
    a goroutine, [mstep] lets any goroutine run its next section, so the
    reachable states are those of every interleaving at lock granularity.
    Callbacks are events of the trace; while one runs ([TCallbackEnd] is then
    the front of its goroutine) the application's calls are further
    goroutines.  Buffers handed back to the pool are not tracked here. *)

From S2P Require Import Prelude Update Endian MuxFrame MuxWindow MuxTypes MuxFlush.
Local Open Scope Z_scope.

(** Where an inbound frame came from: a data frame, or the FIN of a window
    update with its length. *)
Inductive pushed_by : Type :=
| ByData (flags : Z) (borrowed : bool)
| ByFin (len : Z).

(** What a goroutine still has to run.  The last argument of the frame
    handlers is how many bytes onRead discards once the frame is handled. *)
Inductive todo : Type :=
(* the transport's turns *)
| TOnRead | TReadHeld | TReadLoop | TLoopEnd
| TOnTimer | TTimerScan
| TOnTransportClose (err : option error)
| TWritable
(* frames *)
| THandleFrame (h : frameHeader) (p : list Z) (borrowed : bool) (n : nat)
| TPushData (r : nat) (p : list Z) (fin : bool) (by_ : pushed_by) (n : nat)
| TPushLocked (r : nat) (p : list Z) (fin : bool) (by_ : pushed_by) (n : nat)
| TPushed (r : nat) (by_ : pushed_by) (err : option error) (n : nat)
| TGrant (r : nat) (len : Z) (n : nat)
| TEstablish (r : nat) (delta : Z)
| TAcceptStream (id delta : Z) (meta : list Z) (n : nat)
| TAcceptHook (id delta : Z) (meta : list Z) (n : nat)
| TAcceptPublish (id delta : Z) (meta : list Z) (n : nat)
| TAcceptOpen (r : nat) (meta : list Z) (n : nat)
| TFrameDone (err : option error) (n : nat)
| TOwnInbound (r : nat)
(* shared pieces *)
| TEmitDrained | TFlush | TRunWakes | TDrainCloses | TMaybeFinishDrain | TRearm
| TArmNotLater (at_ : Z)
| TRequestFlush | TWake | TNotify (e : event) | TConnClose (err : option error)
| TReleaseInbound (n : Z)
| TSendWindowUpdate (id delta : Z)
| TTryFinish (r : nat)
| TDispatchRead (r : nat) | TInvoke (r : nat) (read : bool) | TCallback (r : nat) (read : bool)
| TCallbackEnd (r : nat) | TCallbackRelease (r : nat)
| TDeliverClose (r : nat) (err : option error) | TQueueClose (r : nat) (err : option error)
| TResetLocal (r : nat) (err : error) | TResetRemote (r : nat) (err : error)
| TRemoveStream (r : nat)
| TAbort (r : nat) (cause : error) | TAbortRemote (r : nat) (cause : error)
| TTrySend (ch : nat) (v : option error) | TSend (ch : nat) (v : option error)
(* the application's calls *)
| TOpen (meta : list Z) | TOpenWait (r ch : nat) | TReceive
| TClose (cause : option error)
| TShutdown | TWaitDrain | TForceDrain (cause : error)
| TRead (r k : nat) | TDiscard (r : nat) (n : Z)
| TWriteTo (r : nat) (total : Z) | TWriteToDone (r : nat) (given : nat) (total : Z)
| TWrite (r : nat) (p : list Z) (vec : option (list (list Z) * Z)) | TWriteOwned (r : nat) (p : list Z)
| TFrameData (r : nat) (p : list Z) (n : Z) (short : bool) (vec : option (list (list Z) * Z))
| TWritev (r : nat) (vec : list (list Z)) (total : Z)
| TCloseWrite (r : nat) | TEnqueueFin (r : nat) | TCloseLocal (r : nat) (cause : option error)
| TSetWakeDeadline (r : nat) (at_ : option Z) | TSetWakeInterval (r : nat) (interval : Z)
| TSetDeadlines (r : nat) (read write : option Z) (setRead setWrite : bool)
| TStreamWake (r : nat) | TYieldRead (r : nat)
| TPauseReads (r owner : nat) | TResumeReads (r owner : nat)
| TReturn (n : Z) (err : option error).

(** What the outside supplies to one section: the clock, the error a callback,
    a hook or a context reports, and how much an io.Writer took. *)
Record input : Type := MkInput { now : Z; reply : option error; took : nat }.

Definition section_result : Type := option (session * list todo).
Definition goes (s : session) (k : list todo) : section_result := Some (s, k).

(** ** Timers *)

(** t.Before(u) on times that are set. *)
Definition earlier (t : option Z) (next : option Z) : option Z :=
  match t, next with
  | None, _ => next
  | Some t, None => Some t
  | Some t, Some u => Some (if t <? u then t else u)
  end.

(** The deadlines of one stream that nextTimerLocked looks at. *)
Definition stream_deadlines (c : Config) (st : stream) : list (option Z) :=
  [wakeAt st; readDeadline st; writeDeadline st;
   (if opening st then Some (openedAt st + StreamOpenTimeout c) else None);
   (if xorb (peerFIN st) (localFIN st)
    then option_map (fun t => t + StreamCloseTimeout c) (halfSince st) else None)].

Definition keepalive_deadline (s : session) : option Z :=
  if (0 <? KeepAlive (cfg s)) && negb (closed s) then
    match pingSent s with
    | None => Some (lastPing s + KeepAlive (cfg s))
    | Some t => Some (t + KeepAliveMax (cfg s))
    end
  else None.

Definition table (s : session) : list (Z * nat) := map_to_list (streams s).

Definition Millisecond : Z := 10 ^ 6.

Definition nextTimerLocked (now : Z) (s : session) : option Z :=
  let next := foldl (fun next e => foldl (fun n t => earlier t n) next (stream_deadlines (cfg s) (get e.2 s)))
                None (table s) in
  let next := earlier (keepalive_deadline s) next in
  match next with
  | Some t => if t <=? now then Some (now + Millisecond) else Some t
  | None => None
  end.

Definition set_wake (at_ : option Z) (s : session) : session :=
  s <| armedAt := at_ |> <| conn ::= (fun c => c <| wakeDeadline := at_ |>) |>.

Definition rearmTimer (now : Z) (s : session) : session := set_wake (nextTimerLocked now s) s.

Definition armNotLaterThan (at_ : Z) (s : session) : session :=
  match armedAt s with
  | Some t => if t <=? at_ then s else set_wake (Some at_) s
  | None => set_wake (Some at_) s
  end.

(** ** The receive budget *)

Definition reserveInbound (n : Z) (s : session) : session := s <| pendingBytes ::= (fun b => int64 (b + n)) |>.

Definition lowWater (c : Config) : Z :=
  let budget := SessionWindow c in
  let low := int64 (budget - WindowSize c) in
  if low <? Z.quot budget 2 then Z.quot budget 2 else low.

Definition releaseInbound (n : Z) (s : session) : session * bool :=
  let b := int64 (pendingBytes s - n) in
  let b := if b <? 0 then 0 else b in
  let s := s <| pendingBytes := b |> in
  if readHeld s && (b <=? lowWater (cfg s)) then (s <| readHeld := false |>, true) else (s, false).

Definition exhaustedBudget (s : session) : bool * session :=
  if pendingBytes s <=? SessionWindow (cfg s) then (false, s) else (true, s <| readHeld := true |>).

Definition heldReads (s : session) : bool * session :=
  if negb (readHeld s) then (false, s)
  else
    let s := if pendingBytes s <=? lowWater (cfg s) then s <| readHeld := false |> else s in
    (readHeld s, s).

(** ** Streams under their lock *)

Definition hasHandler (s : session) : bool := HasHandler (cfg s).

Definition pushLocked (now : Z) (r : nat) (p : list Z) (fin : bool) (by_ : pushed_by) (n : nat) (s : session) : section_result :=
  let st := get r s in
  let len := Z.of_nat (length p) in
  if closedLocal st then goes s [TReleaseInbound len; TPushed r by_ None n]
  else
    let '(werr, w) := if 0 <? len then onData len (recvWin st) else (None, recvWin st) in
    let s := upd r (fun st => st <| recvWin := w |>) s in
    match werr with
    | Some e => goes s [TReleaseInbound len; TPushed r by_ (Some (ErrWindow e)) n]
    | None =>
        let s := upd r (fun st => st <| sin ::= (fun q => q ++ p) |>) s in
        if fin && negb (peerFIN st) then
          let s := upd r (fun st => st <| peerFIN := true |>
            <| halfSince := (if localFIN st then None else Some now) |>) s in
          goes s ((if localFIN st then [] else [TRearm]) ++ [TPushed r by_ None n])
        else goes s [TPushed r by_ None n]
    end.

(** Whether the peer's update granted credit. *)
Definition grantWindow (r : nat) (delta : Z) (s : session) : bool * session :=
  let st := get r s in
  if closedLocal st then (false, s)
  else
    match send_grant delta (sendWin st) with
    | (None, w) => (true, upd r (fun st => st <| sendWin := w |>) s)
    | (Some _, w) => (false, upd r (fun st => st <| sendWin := w |>) s)
    end.

Definition establish (r : nat) (delta : Z) (s : session) : session :=
  upd r (fun st => st <| opening := false |>
    <| sendWin ::= send_reset (peerWindow (cfg s) delta) |>
    <| recvWin ::= retune (minWindow + delta) |>) s.

Definition deliverClose (r : nat) (err : option error) (s : session) : section_result :=
  if closeDelivered (get r s) then goes s []
  else goes (upd r (fun st => st <| closeDelivered := true |>) s)
         (if hasHandler s then [TQueueClose r err] else []).

(** resetLocal and resetRemote have the same body. *)
Definition reset (r : nat) (err : error) (s : session) : section_result :=
  let st := get r s in
  if closedLocal st then goes s []
  else goes (upd r (fun st => st <| closedLocal := true |> <| closedErr := Some err |> <| sin := [] |>) s)
         [TReleaseInbound (Z.of_nat (length (sin st))); TDeliverClose r (Some err)].

(** The reader's account after [n] bytes left the queue: the window update it
    owes, and whether the stream may now settle. *)
Definition take_in (r : nat) (n : nat) (s : session) : Z * bool * session :=
  let st := get r s in
  let '(grant, w) := consume (Z.of_nat n) (recvWin st) in
  let rest := drop n (sin st) in
  (grant, bool_decide (rest = []) && peerFIN st && localFIN st && negb (closedLocal st),
   upd r (fun st => st <| sin := rest |> <| recvWin := w |>) s).

Definition grant_todo (r : nat) (grant : Z) (s : session) : list todo :=
  if 0 <? grant then [TSendWindowUpdate (sid (get r s)) grant] else [].

Definition observer_todo (e : event) (s : session) : list todo :=
  if HasObserver (hks s) then [TNotify e] else [].

Definition Read (r k : nat) (s : session) : section_result :=
  let st := get r s in
  if bool_decide (k = 0%nat) then goes s [TReturn 0 None]
  else if negb (bool_decide (sin st = [])) then
    let n := Nat.min k (length (sin st)) in
    let '(grant, settle, s') := take_in r n s in
    goes s'
      ([TReleaseInbound (Z.of_nat n)] ++ observer_todo (OnBytesRead r (Z.of_nat n)) s ++ grant_todo r grant s ++
       (if settle || negb (hasHandler s) then [TTryFinish r] else []) ++ [TReturn (Z.of_nat n) None])
  else if closedLocal st then goes s [TReturn 0 (Some (default EOF (closedErr st)))]
  else if peerFIN st then goes s [TReturn 0 (Some EOF)]
  else goes s [TReturn 0 None].

Definition discard_todos (r : nat) (n : Z) (k : list todo) (s : session) : section_result :=
  let st := get r s in
  let len := Z.of_nat (length (sin st)) in
  let n := if (n <? 0) || (len <? n) then len else n in
  let '(grant, settle, s') := take_in r (Z.to_nat n) s in
  goes s' ([TReleaseInbound n] ++ grant_todo r grant s ++ (if settle then [TTryFinish r] else []) ++ k).

Definition Discard (r : nat) (n : Z) (s : session) : section_result :=
  let len := Z.of_nat (length (sin (get r s))) in
  discard_todos r n [TReturn (if (n <? 0) || (len <? n) then len else n) None] s.

(** WriteTo's loop: the unread bytes are offered to the writer, which takes
    [took] of them; a short or failed write ends the loop. *)
Definition writeTo (r : nat) (total : Z) (s : session) : section_result :=
  match sin (get r s) with
  | [] => goes s [TReturn total None]
  | buf => goes s [TWriteToDone r (length buf) total]
  end.

Definition writeToDone (i : input) (r given : nat) (total : Z) (s : session) : section_result :=
  let n := Nat.min (took i) given in
  let total := total + Z.of_nat n in
  let k := match reply i with
           | Some e => [TReturn total (Some e)]
           | None => if bool_decide (n = 0%nat) then [TReturn total (Some ErrShortWrite)] else [TWriteTo r total]
           end in
  if bool_decide (n = 0%nat) then goes s k else discard_todos r (Z.of_nat n) k s.

(** ** Writing *)

Definition writable_error (st : stream) : option error :=
  if closedLocal st || opening st then Some (default ErrClosed (closedErr st))
  else if localFIN st then Some ErrClosed
  else None.

(** The credit is taken and the write lock kept for the framing. *)
Definition take_credit (r : nat) (p : list Z) (s : session) : session :=
  upd r (fun st => st <| wmu := true |>
    <| sendWin ::= (fun w => (send_take (Z.of_nat (length p)) w).2) |>
    <| accepted ::= (fun q => q ++ p) |>) s.

(** What follows a Write's return: its own caller, or Writev's next buffer
    with the count so far. *)
Definition write_return (r : nat) (vec : option (list (list Z) * Z)) (n : Z) (err : option error) : todo :=
  match vec, err with
  | None, _ => TReturn n err
  | Some (_, total), Some e => TReturn (total + n) (Some e)
  | Some (rest, total), None => TWritev r rest (total + n)
  end.

Definition Write (r : nat) (p : list Z) (vec : option (list (list Z) * Z)) (s : session) : section_result :=
  let st := get r s in
  if bool_decide (p = []) then goes s [write_return r vec 0 None]
  else if wmu st then None
  else
    match writable_error st with
    | Some e => goes s [write_return r vec 0 (Some e)]
    | None =>
        let avail := available (sendWin st) in
        if avail <=? 0 then goes s [write_return r vec 0 (Some ErrOutboundOverflow)]
        else
          let n := if avail <? Z.of_nat (length p) then Z.to_nat avail else length p in
          goes (take_credit r (take n p) s) [TFrameData r (take n p) (Z.of_nat n) (bool_decide (n < length p)%nat) vec]
    end.

Definition Writev (r : nat) (vec : list (list Z)) (total : Z) (s : session) : section_result :=
  match vec with
  | [] => goes s [TReturn total None]
  | b :: rest => goes s [TWrite r b (Some (rest, total))]
  end.

(** Like Write, but all or nothing. *)
Definition WriteOwned (r : nat) (p : list Z) (s : session) : section_result :=
  let st := get r s in
  if bool_decide (p = []) then goes s [TReturn 0 None]
  else if wmu st then None
  else if closedLocal st || opening st || localFIN st then goes s [TReturn 0 (Some (default ErrClosed (closedErr st)))]
  else if available (sendWin st) <? Z.of_nat (length p) then goes s [TReturn 0 (Some ErrOutboundOverflow)]
  else goes (take_credit r p s) [TFrameData r p (Z.of_nat (length p)) false None].

Definition unlock_write (r : nat) (s : session) : session := upd r (fun st => st <| wmu := false |>) s.

(** frameData's loop, one enqueue per section, and the end of its caller. *)
Definition frameData (r : nat) (p : list Z) (n : Z) (short : bool) (vec : option (list (list Z) * Z)) (s : session) : section_result :=
  match p with
  | [] =>
      goes (unlock_write r s)
        ([TRequestFlush] ++ observer_todo (OnBytesWritten r n) s ++
         [write_return r vec n (if short then Some ErrOutboundOverflow else None)])
  | _ =>
      let chunk := take (Z.to_nat (MaxFrame (cfg s))) p in
      match enqueue r (data_frame (sid (get r s)) chunk) s with
      | (true, s) => goes s [TFrameData r (drop (Z.to_nat (MaxFrame (cfg s))) p) n short vec]
      | (false, s) => goes (unlock_write r s) [TRequestFlush; write_return r vec n (Some ErrClosed)]
      end
  end.

Definition CloseWrite (now : Z) (r : nat) (s : session) : section_result :=
  let st := get r s in
  if wmu st then None
  else if closedLocal st then goes s [TReturn 0 (Some NetErrClosed)]
  else if localFIN st then goes s [TReturn 0 None]
  else goes (upd r (fun st => st <| localFIN := true |> <| halfSince := Some now |> <| wmu := true |>) s)
         [TEnqueueFin r; TRequestFlush; TTryFinish r; TRearm; TReturn 0 None].

Definition closeLocal (r : nat) (cause : option error) (s : session) : section_result :=
  if closedLocal (get r s) then goes s [TReturn 0 None]
  else goes (upd r (fun st => st <| closedErr := cause |>) s) [TCloseWrite r].

(** ** The session under its lock *)

Definition close_on (err : option error) : list todo :=
  match err with Some e => [TConnClose (Some e)] | None => [] end.

(** A control frame is queued and the queue flushed. *)
Definition send_and_flush (typ flags id len : Z) (s : session) : session * option error :=
  flushLocked (sendControlLocked typ flags id len s).

Definition flush (s : session) : section_result :=
  let '(s, err) := flushLocked s in
  goes (s <| finFlushed := [] |>)
    ((TTryFinish <$> finFlushed s) ++ [TEmitDrained] ++ close_on err ++ [TMaybeFinishDrain]).

Definition emitDrained (s : session) : section_result :=
  if negb (drainObs s) then goes s []
  else goes (emits (OnQueueDrained <$> drained s) (s <| drained := [] |>)) [].

Definition requestFlush (s : session) : section_result :=
  if flushReq s then goes s [] else goes (s <| flushReq := true |>) [TWake].

Definition sendWindowUpdate (id delta : Z) (s : session) : section_result :=
  if delta <=? 0 then goes s []
  else
    let '(s, err) := send_and_flush typeWindowUpdate 0 id (wrap 32 delta) s in
    goes s ([TEmitDrained] ++ close_on err).

Definition queueClose (r : nat) (err : option error) (s : session) : section_result :=
  goes (s <| closeQ ::= (fun q => q ++ [(r, err)]) |>) (if closed s then [TDrainCloses] else [TWake]).

(** One turn of drainCloses' loop. *)
Definition drainCloses (s : session) : section_result :=
  if negb (hasHandler s) then goes (s <| closeQ := [] |>) []
  else
    match closeQ s with
    | [] => goes s []
    | (r, err) :: rest => goes (emit (OnClose r err) (s <| closeQ := rest |>)) [TDrainCloses]
    end.

(** The stream leaves the table, its waiter with it. *)
Definition leave (r : nat) (s : session) : session :=
  let id := sid (get r s) in
  let s := if live r s then s <| streams ::= delete id |> else s in
  s <| openWait ::= delete id |>.

Definition owes_consumer (r : nat) (s : session) : bool :=
  hasHandler s && (yieldOwed (get r s) || heldEnd (readControl (get r s))).

Definition may_finish (r : nat) (s : session) : bool :=
  let st := get r s in
  negb (closedLocal st) && negb (callbackActive st) && peerFIN st && localFIN st &&
  bool_decide (finState st = finSent) && bool_decide (out st = []) && bool_decide (sin st = []) &&
  negb (owes_consumer r s).

Definition tryFinish (r : nat) (s : session) : section_result :=
  if negb (live r s) || negb (may_finish r s) then goes s []
  else
    let cause := default EOF (closedErr (get r s)) in
    let s := upd r (fun st => st <| closedLocal := true |> <| closedErr := Some cause |> <| halfSince := None |>) s in
    goes (dropOutLocked r (leave r s)) [TDeliverClose r (Some cause); TMaybeFinishDrain].

Definition removeStream (r : nat) (s : session) : section_result :=
  goes (dropOutLocked r (leave r s)) [TMaybeFinishDrain].

Definition send_to (wait : option nat) (v : option error) : list todo :=
  match wait with Some ch => [TTrySend ch v] | None => [] end.

Definition abortStream (r : nat) (cause : error) (s : session) : section_result :=
  let was := live r s in
  let wait := openWait s !! sid (get r s) in
  let s := dropOutLocked r (leave r s) in
  let '(s, err) := if was then send_and_flush typeWindowUpdate flagRST (sid (get r s)) 0 s else (s, None) in
  goes s ([TEmitDrained] ++ send_to wait (Some cause) ++ [TResetLocal r cause] ++ close_on err ++ [TMaybeFinishDrain]).

Definition abortRemote (r : nat) (cause : error) (s : session) : section_result :=
  let wait := openWait s !! sid (get r s) in
  goes (dropOutLocked r (leave r s)) (send_to wait (Some cause) ++ [TResetRemote r cause; TMaybeFinishDrain]).

(** A channel of capacity one. *)
Definition trySend (ch : nat) (v : option error) (s : session) : session :=
  match chans s !! ch with
  | Some [] => s <| chans ::= <[ch := [v]]> |>
  | _ => s
  end.

Definition send (ch : nat) (v : option error) (s : session) : section_result :=
  match chans s !! ch with
  | Some [] => goes (s <| chans ::= <[ch := [v]]> |>) []
  | _ => None
  end.

(** ** Callbacks *)

Definition dispatchRead (r : nat) (s : session) : section_result :=
  if negb (hasHandler s) || pausedReads (readControl (get r s)) then goes s [TTryFinish r]
  else goes s [TInvoke r true; TTryFinish r].

Definition invokeCallback (r : nat) (read : bool) (s : session) : section_result :=
  if closedLocal (get r s) then goes s []
  else goes (upd r (fun st => st <| callbackActive := true |>
                      <| yieldOwed ::= (fun y => if read then false else y) |>) s) [TCallback r read].

(** The callback itself: the read callback is the turn a resume owed. *)
Definition callback (r : nat) (read : bool) (s : session) : section_result :=
  if read then
    goes (emit (OnRead r) (upd r (fun st => st <| readControl ::= (fun p => MkPausing (holders p) false) |>) s)) [TCallbackEnd r]
  else goes (emit (OnTimer r) s) [TCallbackEnd r].

Definition callback_end (i : input) (r : nat) (s : session) : section_result :=
  goes s (match reply i with Some e => [TAbort r e] | None => [] end ++ [TCallbackRelease r]).

(** The streams whose wake is run: those still open. *)
Definition runWakes (s : session) : section_result :=
  let s' := (foldr (fun r => upd r (fun st => st <| wakePending := false |>)) s (wakeQ s)) <| wakeQ := [] |> in
  if negb (hasHandler s) then goes s' []
  else goes s' (TDispatchRead <$> filter (fun r => closedLocal (get r s) = false) (wakeQ s)).

Definition streamWake (r : nat) (s : session) : section_result :=
  if negb (hasHandler s) || closed s || closedLocal (get r s) then goes s [TReturn 0 None]
  else
    let s := if wakePending (get r s) then s
             else (upd r (fun st => st <| wakePending := true |>) s) <| wakeQ ::= (fun q => q ++ [r]) |> in
    goes s [TWake; TReturn 0 None].

Definition checkReadControl (r : nat) (s : session) : option error :=
  if closed s || closedLocal (get r s) then Some NetErrClosed else None.

Definition pauseReads (r owner : nat) (s : session) : section_result :=
  match checkReadControl r s with
  | Some e => goes s [TReturn 0 (Some e)]
  | None => goes (upd r (fun st => st <| readControl ::= (fun p => MkPausing ({[owner]} ∪ holders p) (owedTurn p)) |>) s) [TReturn 0 None]
  end.

(** Owner 0 is the application's switch, whose ResumeReads checks the stream
    first; the last release owes the consumer a turn and asks for it. *)
Definition resumeReads (r owner : nat) (s : session) : section_result :=
  let p := readControl (get r s) in
  match (if bool_decide (owner = 0%nat) then checkReadControl r s else None) with
  | Some e => goes s [TReturn 0 (Some e)]
  | None =>
      if bool_decide (owner ∈ holders p) then
        let rest := holders p ∖ {[owner]} in
        goes (upd r (fun st => st <| readControl := MkPausing rest true |>) s)
          (if bool_decide (rest = ∅) then [TStreamWake r] else [TReturn 0 None])
      else goes s [TReturn 0 None]
  end.

(** ** Inbound frames *)

Definition has (flag fl : Z) : bool := negb (Z.land fl flag =? 0).

(** Resets a peer stream the session will not take. *)
Definition refuse (id : Z) (n : nat) (s : session) : section_result :=
  let '(s, err) := send_and_flush typeWindowUpdate flagRST id 0 s in
  goes s [TEmitDrained; TFrameDone err n].

Definition handleData (h : frameHeader) (p : list Z) (borrowed : bool) (n : nat) (s : session) : section_result :=
  if has (Z.lor flagSYN flagACK) (flags h) then goes s [TFrameDone (Some ErrProtocol) n]
  else
    match streams s !! streamID h with
    | None => refuse (streamID h) n s
    | Some r => goes s [TPushData r p (has flagFIN (flags h)) (ByData (flags h) borrowed) n]
    end.

Definition handleAck (h : frameHeader) (n : nat) (s : session) : section_result :=
  let s' := s <| openWait ::= delete (streamID h) |> in
  match streams s !! streamID h, openWait s !! streamID h with
  | Some r, Some ch => goes s' [TEstablish r (hlength h); TSend ch None; TFrameDone None n]
  | _, _ => goes s' [TFrameDone None n]
  end.

Definition handleWindowUpdate (h : frameHeader) (n : nat) (s : session) : section_result :=
  if has flagSYN (flags h) then goes s [TAcceptStream (streamID h) (hlength h) [] n]
  else if has flagACK (flags h) then handleAck h n s
  else
    match streams s !! streamID h with
    | None => goes s [TFrameDone None n]
    | Some r =>
        if has flagRST (flags h) then goes s [TAbortRemote r ErrStreamReset; TFrameDone None n]
        else if has flagFIN (flags h) then goes s [TPushData r [] true (ByFin (hlength h)) n]
        else if hlength h =? 0 then goes s [TFrameDone None n]
        else goes s [TGrant r (hlength h) n]
    end.

Definition handlePing (h : frameHeader) (n : nat) (s : session) : section_result :=
  if has flagSYN (flags h) then
    let '(s, err) := send_and_flush typePing flagACK (streamID h) (hlength h) s in
    goes s [TEmitDrained; TFrameDone err n]
  else
    goes (if has flagACK (flags h) && (hlength h =? pingSeq s) then s <| pingSent := None |> else s)
      [TFrameDone None n].

Definition handleGoAway (n : nat) (s : session) : section_result :=
  goes (s <| goAway := true |>) [TFrameDone None n].

Definition handleSynMetadata (h : frameHeader) (p : list Z) (n : nat) (s : session) : section_result :=
  if (length p <? 4)%nat then goes s [TFrameDone (Some ErrProtocol) n]
  else goes s [TAcceptStream (streamID h) (be_val (take 4 p)) (drop 4 p) n].

Definition handleFrame (h : frameHeader) (p : list Z) (borrowed : bool) (n : nat) (s : session) : section_result :=
  if typ h =? typeData then handleData h p borrowed n s
  else if typ h =? typeWindowUpdate then handleWindowUpdate h n s
  else if typ h =? typePing then handlePing h n s
  else if typ h =? typeSynMetadata then handleSynMetadata h p n s
  else handleGoAway n s.

(** pushData reserves the budget before it takes the stream's lock. *)
Definition pushData (r : nat) (p : list Z) (fin : bool) (by_ : pushed_by) (n : nat) (s : session) : section_result :=
  goes (match p with [] => s | _ => reserveInbound (Z.of_nat (length p)) s end) [TPushLocked r p fin by_ n].

(** The rest of the handler once pushData returned. *)
Definition pushed (r : nat) (by_ : pushed_by) (err : option error) (n : nat) (s : session) : section_result :=
  match err, by_ with
  | Some e, _ => goes s [TFrameDone (Some e) n]
  | None, ByData fl borrowed =>
      if has flagRST fl then goes s [TAbortRemote r ErrStreamReset; TFrameDone None n]
      else goes s ([TDispatchRead r] ++ (if borrowed then [TOwnInbound r] else []) ++ [TFrameDone None n])
  | None, ByFin len =>
      goes s (TDispatchRead r :: (if len =? 0 then [TFrameDone None n] else [TGrant r len n]))
  end.

(** A grant that reopened the window is reported as a zero-byte write, or to
    whoever hears drains. *)
Definition grant_events (r : nat) (s : session) : list todo :=
  if HasObserver (hks s) then
    TNotify (OnBytesWritten r 0) ::
    (if negb (ObserverDrains (hks s)) && drainObs s then [TNotify (OnQueueDrained r)] else [])
  else if drainObs s then [TNotify (OnQueueDrained r)] else [].

Definition grant (r : nat) (len : Z) (n : nat) (s : session) : section_result :=
  match grantWindow r len s with
  | (true, s) => goes s (grant_events r s ++ [TDispatchRead r; TFrameDone None n])
  | (false, s) => goes s [TFrameDone None n]
  end.

Definition checkPeerStreamID (s : session) (id : Z) : option error :=
  if client s then if negb (id mod 2 =? 0) then Some ErrProtocol else if id =? 0 then Some ErrProtocol else None
  else if id mod 2 =? 0 then Some ErrProtocol else if id =? 0 then Some ErrProtocol else None.

Definition backlog_full (s : session) : bool :=
  negb (hasHandler s) && (AcceptBacklog (cfg s) <=? Z.of_nat (length (acceptCh s))).

Definition acceptStream (id delta : Z) (meta : list Z) (n : nat) (s : session) : section_result :=
  match checkPeerStreamID s id with
  | Some e => goes s [TFrameDone (Some e) n]
  | None =>
      if closed s then goes s [TFrameDone None n]
      else if goAway s then refuse id n s
      else if MaxStreams (cfg s) <=? Z.of_nat (size (streams s)) then refuse id n s
      else if bool_decide (is_Some (streams s !! id)) then goes s [TFrameDone (Some ErrProtocol) n]
      else if backlog_full s then refuse id n s
      else goes s [if HasAccept (hks s) then TAcceptHook id delta meta n else TAcceptPublish id delta meta n]
  end.

Definition accept_hook (i : input) (id delta : Z) (meta : list Z) (n : nat) (s : session) : section_result :=
  match reply i with
  | Some _ => refuse id n s
  | None => goes s [TAcceptPublish id delta meta n]
  end.

Definition accepted_stream (id delta now : Z) (s : session) : stream :=
  let st := newStream id false now (WindowSize (cfg s)) in
  st <| sendWin ::= send_reset (peerWindow (cfg s) delta) |> <| recvWin ::= retune (minWindow + delta) |>.

(** A new object, and its entry in the table. *)
Definition publish (st : stream) (s : session) : nat * session :=
  let r := length (objects s) in
  (r, s <| objects ::= (fun l => l ++ [st]) |> <| streams ::= <[sid st := r]> |>).

Definition acceptPublish (i : input) (id delta : Z) (meta : list Z) (n : nat) (s : session) : section_result :=
  if closed s then goes s [TFrameDone None n]
  else if goAway s then refuse id n s
  else
    let '(r, s) := publish (accepted_stream id delta (now i) s) s in
    let '(s, err) := send_and_flush typeWindowUpdate flagACK id (announce (cfg s)) s in
    goes s (TEmitDrained ::
      match err with
      | Some e => [TRemoveStream r; TFrameDone (Some e) n]
      | None => [TAcceptOpen r meta n]
      end).

(** The new stream reaches the handler, or the accept queue. *)
Definition acceptOpen (r : nat) (meta : list Z) (n : nat) (s : session) : section_result :=
  if hasHandler s then
    goes (emits ((if MetaHandler (hks s) && negb (bool_decide (meta = [])) then [OnMetadata r meta] else []) ++ [OnOpen r]) s)
      [TFrameDone None n]
  else if closed s then goes s [TFrameDone None n]
  else if backlog_full s then goes s [TAbort r ErrMaxStreams; TFrameDone None n]
  else goes (s <| acceptCh ::= (fun q => q ++ [(r, meta)]) |>) [TFrameDone None n].

(** onRead *)
Definition read_end : list todo := [TFlush; TRunWakes; TDrainCloses].

Definition discard_in (n : nat) (s : session) : session := s <| conn ::= (fun c => c <| inbuf ::= drop n |>) |>.

Definition onReadHeld (s : session) : section_result :=
  match heldReads s with
  | (true, s) => goes s read_end
  | (false, s) => goes s [TReadLoop]
  end.

(** readFrame: a payload lying contiguous in the transport's buffer ([took]
    of the input is the length of its first chunk) is lent and discarded
    after the handler, any other is read off at once. *)
Definition readLoop (i : input) (s : session) : section_result :=
  match scan (WindowSize (cfg s)) (MaxMetadata (cfg s)) (inbuf (conn s)) with
  | Incomplete => goes s read_end
  | Bad e => goes s [TConnClose (Some (ErrFrame e))]
  | Good h p rest =>
      let total := (length (inbuf (conn s)) - length rest)%nat in
      if bool_decide (p = []) then goes s [THandleFrame h p false total]
      else if (total <=? took i)%nat then goes s [THandleFrame h p true total]
      else goes (discard_in total s) [THandleFrame h p false 0%nat]
  end.

Definition frameDone (err : option error) (n : nat) (s : session) : section_result :=
  goes (discard_in n s) (match err with Some e => [TConnClose (Some e)] | None => [TLoopEnd] end).

Definition loopEnd (s : session) : section_result :=
  match exhaustedBudget s with
  | (true, s) => goes s read_end
  | (false, s) => goes s [TReadLoop]
  end.

(** ** Opening, closing and draining the session *)

Definition syn_frame (id : Z) (meta : list Z) (c : Config) : wframe :=
  match meta with
  | [] => (header typeWindowUpdate flagSYN id (announce c), [])
  | _ => (header typeSynMetadata flagSYN id (wrap 32 (4 + Z.of_nat (length meta))), be_bytes 4 (announce c) ++ meta)
  end.

(** Open and OpenWith. *)
Definition open (i : input) (meta : list Z) (s : session) : section_result :=
  if MaxMetadata (cfg s) <? Z.of_nat (length meta) then goes s [TReturn 0 (Some ErrMetadataTooLarge)]
  else if closed s then goes s [TReturn 0 (Some ErrClosed)]
  else if goAway s then goes s [TReturn 0 (Some ErrGoAway)]
  else if MaxStreams (cfg s) <=? Z.of_nat (size (streams s)) then goes s [TReturn 0 (Some ErrMaxStreams)]
  else
    let id := nextID s in
    let s := s <| nextID := wrap 32 (id + 2) |> in
    let '(r, s) := publish (newStream id true (now i) (WindowSize (cfg s))) s in
    let ch := length (chans s) in
    let s := s <| chans ::= (fun l => l ++ [[]]) |> <| openWait ::= <[id := ch]> |>
               <| control ::= (fun q => q ++ [syn_frame id meta (cfg s)]) |> in
    let '(s, err) := flushLocked s in
    goes s ([TArmNotLater (now i + StreamOpenTimeout (cfg s)); TEmitDrained] ++
      match err with
      | Some e => [TRemoveStream r; TResetLocal r e; TConnClose (Some e); TReturn 0 (Some e)]
      | None => [TOpenWait r ch]
      end).

(** The select of Open: the waiter's channel, or the context's end. *)
Definition openWaiting (i : input) (r ch : nat) (s : session) : section_result :=
  match reply i with
  | Some e => goes s [TAbort r e; TReturn 0 (Some e)]
  | None =>
      match chans s !! ch with
      | Some (v :: rest) =>
          let s := s <| chans ::= <[ch := rest]> |> in
          match v with
          | Some e => goes s [TRemoveStream r; TResetLocal r e; TReturn 0 (Some e)]
          | None => goes s [TNotify (Opened r)]
          end
      | _ => None
      end
  end.

(** A receive from the accept queue. *)
Definition receive (s : session) : section_result :=
  match acceptCh s with
  | (r, meta) :: rest => goes (s <| acceptCh := rest |>) [TNotify (Received r meta)]
  | [] => if closed s then goes s [TReturn 0 None] else None
  end.

Definition finishDrainLocked (err : option error) (s : session) : session :=
  if negb (draining s) || drainClosed s then s
  else s <| drainClosed := true |> <| drainErr := err |>.

Definition queue_goaway (s : session) : session :=
  let s := s <| goAway := true |> in
  if goAwaySent s then s
  else sendControlLocked typeGoAway 0 0 goAwayNormal (s <| goAwaySent := true |>).

Definition Close (cause : option error) (s : session) : section_result :=
  let cause := default ErrClosed cause in
  if closed s then goes s [TReturn 0 (Some NetErrClosed)]
  else
    let '(s, err) := flushLocked (queue_goaway s) in
    goes (finishDrainLocked (Some cause) s)
      [TEmitDrained; TConnClose (Some (default cause err)); TReturn 0 None].

Definition Shutdown (s : session) : section_result :=
  if draining s then goes s [TWaitDrain]
  else if closed s then goes s [TReturn 0 (closeErr s)]
  else
    let '(s, err) := flushLocked (queue_goaway (s <| draining := true |>)) in
    goes s ([TEmitDrained] ++ close_on err ++ [TMaybeFinishDrain; TWaitDrain]).

Definition waitDrain (i : input) (s : session) : section_result :=
  match reply i with
  | Some e => goes s [TForceDrain e; TReturn 0 (Some e)]
  | None => if drainClosed s then goes s [TReturn 0 (drainErr s)] else None
  end.

Definition forceDrain (cause : error) (s : session) : section_result :=
  if negb (draining s) || drainClosed s then goes s []
  else goes (finishDrainLocked (Some ErrShutdownTimeout) s)
         (((fun e => TAbort e.2 ErrShutdownTimeout) <$> table s) ++ [TConnClose (Some cause)]).

Definition drain_ready (s : session) : bool :=
  draining s && negb (drainClosed s) && negb (closed s) && bool_decide (streams s = ∅) && goAwayFlushed s.

Definition maybeFinishDrain (s : session) : section_result :=
  if drain_ready s then goes (finishDrainLocked None s) [TConnClose None] else goes s [].

(** onTransportClose *)
Definition onTransportClose (err : option error) (s : session) : section_result :=
  let err := default EOF err in
  if closed s then goes s []
  else
    let s' := finishDrainLocked (Some err) (s <| closed := true |> <| closeErr := Some err |>) in
    let s' := s' <| finFlushed := [] |> <| drained := [] |> <| wakeQ := [] |> <| control := [] |>
                 <| pending := [] |> <| readHeld := false |> <| flushReq := false |> in
    let s' := foldr (fun e => dropOutLocked e.2) s' (table s) in
    goes (s' <| streams := ∅ |> <| openWait := ∅ |>)
      (((fun w => TTrySend w.2 (Some err)) <$> map_to_list (openWait s)) ++
       ((fun e => TResetRemote e.2 err) <$> table s) ++ [TDrainCloses]).

(** ** onTimer *)

Definition due_at (now : Z) (t : option Z) : bool := match t with Some t => t <=? now | None => false end.

(** What the scan of the table collects: the streams whose timer fires, the
    waiters of timed-out opens, the resets of timed-out streams, and those of
    expired deadlines with their waiters. *)
Record scan_state : Type := MkScan {
  ss : session;
  due : list nat;
  openFails : list todo;
  resetCause : list todo;
  deadlineResets : list todo
}.

Definition expire (e : Z * nat) (waiter rst : bool) (s : session) : session :=
  let s := s <| streams ::= delete e.1 |> in
  let s := dropOutLocked e.2 (if waiter then s <| openWait ::= delete e.1 |> else s) in
  if rst then sendControlLocked typeWindowUpdate flagRST e.1 0 s else s.

Definition open_expired (now : Z) (c : Config) (st : stream) : bool :=
  opening st && (StreamOpenTimeout c <? now - openedAt st).

Definition half_expired (now : Z) (c : Config) (st : stream) : bool :=
  xorb (peerFIN st) (localFIN st) &&
  match halfSince st with Some t => StreamCloseTimeout c <? now - t | None => false end.

(** The stream's own timer fires once, or moves by its interval. *)
Definition fire (now : Z) (st : stream) : stream :=
  st <| wakeAt := (if 0 <? wakeDu st then Some (now + wakeDu st) else None) |>.

Definition timer_visit (now : Z) (a : scan_state) (e : Z * nat) : scan_state :=
  let s := ss a in
  let st := get e.2 s in
  let rd := due_at now (readDeadline st) in
  let wd := due_at now (writeDeadline st) in
  let wait := openWait s !! e.1 in
  if rd || wd then
    let cause := streamDeadlineError rd wd in
    MkScan (expire e true true s) (due a) (openFails a) (resetCause a)
      (deadlineResets a ++ send_to wait (Some cause) ++ [TResetLocal e.2 cause])
  else
    let fires := due_at now (wakeAt st) in
    let s := if fires then upd e.2 (fire now) s else s in
    let due' := if fires then due a ++ [e.2] else due a in
    if open_expired now (cfg s) st then
      MkScan (expire e true false s) due' (openFails a ++ send_to wait (Some ErrStreamOpenTimeout))
        (resetCause a ++ [TResetLocal e.2 ErrStreamOpenTimeout]) (deadlineResets a)
    else if half_expired now (cfg s) st then
      MkScan (expire e false true s) due' (openFails a) (resetCause a ++ [TResetLocal e.2 ErrStreamReset]) (deadlineResets a)
    else MkScan s due' (openFails a) (resetCause a) (deadlineResets a).

(** The keepalive: a ping is due, or the peer stopped answering. *)
Definition keepalive (now : Z) (s : session) : bool * session :=
  if (0 <? KeepAlive (cfg s)) && negb (closed s) then
    match pingSent s with
    | None =>
        if KeepAlive (cfg s) <=? now - lastPing s then
          let s := s <| pingSent := Some now |> <| lastPing := now |> <| pingSeq ::= (fun q => wrap 32 (q + 1)) |> in
          (false, sendControlLocked typePing flagSYN 0 (pingSeq s) s)
        else (false, s)
    | Some t => (KeepAliveMax (cfg s) <? now - t, s)
    end
  else (false, s).

Definition timerScan (i : input) (s : session) : section_result :=
  let a := foldl (timer_visit (now i)) (MkScan s [] [] [] []) (table s) in
  let '(dead, s) := keepalive (now i) (ss a) in
  let '(s, err) := flushLocked s in
  goes s (openFails a ++ resetCause a ++ deadlineResets a ++
    if dead then [TDrainCloses; TConnClose (Some ErrKeepAlive)]
    else
      match err with
      | Some e => [TDrainCloses; TConnClose (Some e)]
      | None =>
          (if hasHandler s then due a ≫= (fun r => [TInvoke r false; TTryFinish r]) else []) ++
          [TRearm; TDrainCloses; TMaybeFinishDrain]
      end).

Definition setDeadlines (r : nat) (read write : option Z) (setRead setWrite : bool) (s : session) : section_result :=
  if closed s || negb (live r s) || closedLocal (get r s) then goes s [TReturn 0 (Some NetErrClosed)]
  else
    let f st := if setRead then st <| readDeadline := read |> else st in
    let g st := if setWrite then st <| writeDeadline := write |> else st in
    goes (upd r (fun st => g (f st)) s) [TRearm; TReturn 0 None].

(** ** One section of a goroutine *)

Definition conn_wake (s : session) : session := s <| conn ::= (fun c => c <| wakes ::= S |>) |>.
Definition conn_close (err : option error) (s : session) : session :=
  s <| conn ::= (fun c => c <| closeCalls ::= (fun l => l ++ [err]) |>) |>.

Definition exec (i : input) (t : todo) (s : session) : section_result :=
  match t with
  | TOnRead => goes (s <| flushReq := false |>) [TReadHeld]
  | TReadHeld => onReadHeld s
  | TReadLoop => readLoop i s
  | TLoopEnd => loopEnd s
  | TOnTimer => goes (s <| armedAt := None |>) [TTimerScan]
  | TTimerScan => timerScan i s
  | TOnTransportClose err => onTransportClose err s
  | TWritable => goes s [TRequestFlush]
  | THandleFrame h p borrowed n => handleFrame h p borrowed n s
  | TPushData r p fin by_ n => pushData r p fin by_ n s
  | TPushLocked r p fin by_ n => pushLocked (now i) r p fin by_ n s
  | TPushed r by_ err n => pushed r by_ err n s
  | TGrant r len n => grant r len n s
  | TEstablish r delta => goes (establish r delta s) []
  | TAcceptStream id delta meta n => acceptStream id delta meta n s
  | TAcceptHook id delta meta n => accept_hook i id delta meta n s
  | TAcceptPublish id delta meta n => acceptPublish i id delta meta n s
  | TAcceptOpen r meta n => acceptOpen r meta n s
  | TFrameDone err n => frameDone err n s
  | TOwnInbound _ => goes s []
  | TEmitDrained => emitDrained s
  | TFlush => flush s
  | TRunWakes => runWakes s
  | TDrainCloses => drainCloses s
  | TMaybeFinishDrain => maybeFinishDrain s
  | TRearm => goes (rearmTimer (now i) s) []
  | TArmNotLater at_ => goes (armNotLaterThan at_ s) []
  | TRequestFlush => requestFlush s
  | TWake => goes (conn_wake s) []
  | TNotify e => goes (emit e s) []
  | TConnClose err => goes (conn_close err s) []
  | TReleaseInbound n => let '(s, resume) := releaseInbound n s in goes s (if resume then [TWake] else [])
  | TSendWindowUpdate id delta => sendWindowUpdate id delta s
  | TTryFinish r => tryFinish r s
  | TDispatchRead r => dispatchRead r s
  | TInvoke r read => invokeCallback r read s
  | TCallback r read => callback r read s
  | TCallbackEnd r => callback_end i r s
  | TCallbackRelease r => goes (upd r (fun st => st <| callbackActive := false |>) s) []
  | TDeliverClose r err => deliverClose r err s
  | TQueueClose r err => queueClose r err s
  | TResetLocal r err | TResetRemote r err => reset r err s
  | TRemoveStream r => removeStream r s
  | TAbort r cause => abortStream r cause s
  | TAbortRemote r cause => abortRemote r cause s
  | TTrySend ch v => goes (trySend ch v s) []
  | TSend ch v => send ch v s
  | TOpen meta => open i meta s
  | TOpenWait r ch => openWaiting i r ch s
  | TReceive => receive s
  | TClose cause => Close cause s
  | TShutdown => Shutdown s
  | TWaitDrain => waitDrain i s
  | TForceDrain cause => forceDrain cause s
  | TRead r k => Read r k s
  | TDiscard r n => Discard r n s
  | TWriteTo r total => writeTo r total s
  | TWriteToDone r given total => writeToDone i r given total s
  | TWrite r p vec => Write r p vec s
  | TWriteOwned r p => WriteOwned r p s
  | TFrameData r p n short vec => frameData r p n short vec s
  | TWritev r vec total => Writev r vec total s
  | TCloseWrite r => CloseWrite (now i) r s
  | TEnqueueFin r => goes (unlock_write r (enqueueFin r s)) []
  | TCloseLocal r cause => closeLocal r cause s
  | TSetWakeDeadline r at_ => goes (upd r (fun st => st <| wakeAt := at_ |> <| wakeDu := 0 |>) s) [TRearm; TReturn 0 None]
  | TSetWakeInterval r interval =>
      goes (upd r (fun st => if interval <=? 0 then st <| wakeAt := None |> <| wakeDu := 0 |>
                             else st <| wakeDu := interval |> <| wakeAt := Some (now i + interval) |>) s)
        [TRearm; TReturn 0 None]
  | TSetDeadlines r read write setRead setWrite => setDeadlines r read write setRead setWrite s
  | TStreamWake r => streamWake r s
  | TYieldRead r => goes (upd r (fun st => st <| yieldOwed := true |>) s) [TStreamWake r]
  | TPauseReads r owner => pauseReads r owner s
  | TResumeReads r owner => resumeReads r owner s
  | TReturn n err => goes (emit (Returned n err) s) []
  end.

(** ** Goroutines and their interleavings *)

(** The calls an application may make on a session and its streams. *)
Definition app_call (s : session) (t : todo) : bool :=
  match t with
  | TOpen _ | TReceive | TClose _ | TShutdown | TFlush => true
  | TRead r _ | TDiscard r _ | TWriteTo r 0 | TWrite r _ None | TWriteOwned r _ | TWritev r _ 0 | TCloseWrite r
  | TCloseLocal r _ | TAbort r _ | TSetWakeDeadline r _ | TSetWakeInterval r _ | TSetDeadlines r _ _ _ _
  | TStreamWake r | TYieldRead r | TPauseReads r _ | TResumeReads r _ => bool_decide (r < length (objects s))%nat
  | _ => false
  end.

(** What the transport starts: a read turn, a timer turn, its close, and the
    report that writes made progress (which may come inside any write). *)
Definition turn (t : todo) : bool :=
  match t with TOnRead | TOnTimer | TOnTransportClose _ => true | _ => false end.

(** The transport's goroutine and the application's. *)
Record machine : Type := MkMachine { sess : session; loop : list todo; procs : list (list todo) }.

Inductive mstep : machine -> machine -> Prop :=
| step_arrive bytes s l ps : Forall is_byte bytes ->
    mstep (MkMachine s l ps) (MkMachine (s <| conn ::= (fun c => c <| inbuf ::= (fun b => b ++ bytes) |>) |>) l ps)
| step_turn t s ps : turn t = true -> mstep (MkMachine s [] ps) (MkMachine s [t] ps)
| step_writable s l ps : mstep (MkMachine s l ps) (MkMachine s l (ps ++ [[TWritable]]))
| step_call t s l ps : app_call s t = true -> mstep (MkMachine s l ps) (MkMachine s l (ps ++ [[t]]))
| step_loop i t s s' k l ps : exec i t s = Some (s', k) ->
    mstep (MkMachine s (t :: l) ps) (MkMachine s' (k ++ l) ps)
| step_proc i j t s s' k p l ps : ps !! j = Some (t :: p) -> exec i t s = Some (s', k) ->
    mstep (MkMachine s l ps) (MkMachine s' l (<[j := k ++ p]> ps)).

(** newSession, before its rearmTimer. *)
Definition newSession (c : Config) (h : hooks) (client : bool) (vs : list verdict) (now : Z) : session :=
  MkSession c h client (MkTransport vs [] [] 0 None []) None [] ∅ (if client then 1 else 2) [] ∅ [] [] [] 0 false
    false false false false None false None false (if 0 <? KeepAlive c then now else 0) None 0 false [] [] [] [] [].

Definition start (c : Config) (h : hooks) (client : bool) (vs : list verdict) (now : Z) : machine :=
  MkMachine (rearmTimer now (newSession c h client vs now)) [] [].

Definition mreachable (m : machine) : Prop :=
  exists c h cl vs now, rtc mstep (start (resolve c) h cl vs now) m.

(** One goroutine run with a fixed input and nothing else interleaved, until
    it ends or blocks; what it still has to do is returned. *)
Fixpoint run (fuel : nat) (i : input) (k : list todo) (s : session) : session * list todo :=
  match k, fuel with
  | [], _ => (s, [])
  | _, O => (s, k)
  | t :: k', S fuel =>
      match exec i t s with
      | Some (s', l) => run fuel i (l ++ k') s'
      | None => (s, k)
      end
  end.
