(* ===== verification/MuxFacts.v ===== *)
(** * umux: facts shared by the theorems on a session

    Reading an object after an update, what a flush leaves alone, and the
    induction principle over interleavings: an invariant of the session and
    the bag of sections its goroutines still have to run. *)

From S2P Require Import Prelude Update MuxFrame MuxWindow MuxTypes MuxFlush MuxSession.
From Stdlib Require Import List.
From stdpp Require Import list.
Local Open Scope Z_scope.

(** ** Objects *)

Abbreviation valid r s := (r < length (objects s))%nat.

Lemma obj_alter f r r' l :
  obj (alter f r l) r' = if decide (r = r' /\ (r < length l)%nat) then f (obj l r) else obj l r'.
Proof.
  unfold obj. destruct (decide (r = r' /\ (r < length l)%nat)) as [[<- Hv]|Hn].
  - destruct (lookup_lt_is_Some_2 l r Hv) as [st E]. by rewrite list_lookup_alter_eq, E.
  - destruct (decide (r = r')) as [<-|Hne]; [|by rewrite list_lookup_alter_ne].
    rewrite list_lookup_alter_eq. rewrite (lookup_ge_None_2 l r); [done|].
    destruct (decide (r < length l)%nat); naive_solver lia.
Qed.

Lemma obj_alter_eq f r l : (r < length l)%nat -> obj (alter f r l) r = f (obj l r).
Proof. intros. rewrite obj_alter. by rewrite decide_True. Qed.

Lemma obj_alter_ne f r r' l : r <> r' -> obj (alter f r l) r' = obj l r'.
Proof. intros. rewrite obj_alter. rewrite decide_False; naive_solver. Qed.

(** A field the update does not change. *)
Lemma obj_alter_field {T} (p : stream -> T) f r r' l :
  (forall st, p (f st) = p st) -> p (obj (alter f r l) r') = p (obj l r').
Proof. intros H. rewrite obj_alter. destruct (decide _) as [[-> _]|]; auto. Qed.

Lemma obj_snoc_l l st r : (r < length l)%nat -> obj (l ++ [st]) r = obj l r.
Proof. intros. unfold obj. by rewrite lookup_app_l. Qed.

Lemma obj_snoc_r l st : obj (l ++ [st]) (length l) = st.
Proof. unfold obj. by rewrite list_lookup_middle. Qed.

Lemma get_upd r r' f s :
  get r' (upd r f s) = if decide (r = r' /\ valid r s) then f (get r s) else get r' s.
Proof. apply obj_alter. Qed.

(** ** What a flush leaves alone *)

(** A stream without its part of the outbound scheduler. *)
Definition calm (st : stream) : stream := st <| out := [] |> <| queued := false |> <| finState := finNone |>.

(** A session without its outbound scheduler. *)
Definition core (s : session) : session :=
  s <| control := [] |> <| pending := [] |> <| goAwayFlushed := false |> <| finFlushed := [] |> <| drained := [] |>
    <| conn ::= (fun c => c <| verdicts := [] |> <| sent := [] |>) |> <| objects ::= map calm |>.

Lemma core_upd r f s : (forall st, calm (f st) = calm st) -> core (upd r f s) = core s.
Proof.
  intros H. transitivity ((core s) <| objects := map calm (alter f r (objects s)) |>); [reflexivity|].
  replace (map calm (alter f r (objects s))) with (map calm (objects s)); [reflexivity|].
  apply list_eq. intros i. rewrite !list_lookup_fmap.
  destruct (decide (i = r)) as [->|]; [|by rewrite list_lookup_alter_ne].
  rewrite list_lookup_alter_eq. destruct (objects s !! r); cbn; [by rewrite H|done].
Qed.

Lemma core_control f s : core (over control f s) = core s.
Proof. reflexivity. Qed.
Lemma core_pending f s : core (over pending f s) = core s.
Proof. reflexivity. Qed.
Lemma core_goAwayFlushed f s : core (over goAwayFlushed f s) = core s.
Proof. reflexivity. Qed.
Lemma core_finFlushed f s : core (over finFlushed f s) = core s.
Proof. reflexivity. Qed.
Lemma core_drained f s : core (over drained f s) = core s.
Proof. reflexivity. Qed.

Lemma core_field {T} (p : session -> T) s s' :
  (forall s, p (core s) = p s) -> core s = core s' -> p s = p s'.
Proof. intros H E. rewrite <- (H s), <- (H s'). by rewrite E. Qed.

Lemma core_get {T} (p : stream -> T) r s s' :
  (forall st, p (calm st) = p st) -> core s = core s' -> p (get r s) = p (get r s').
Proof.
  intros Hp E. assert (Ho : map calm (objects s) = map calm (objects s')).
  { change (objects (core s) = objects (core s')). by rewrite E. }
  apply (f_equal (fun l => l !! r)) in Ho. rewrite !list_lookup_fmap in Ho.
  unfold get, obj. destruct (objects s !! r) as [a|], (objects s' !! r) as [b|]; try discriminate; [|done].
  apply (inj Some) in Ho. cbn. by rewrite <- (Hp a), <- (Hp b), Ho.
Qed.

Lemma core_length s s' : core s = core s' -> length (objects s) = length (objects s').
Proof.
  intros E. assert (Ho : map calm (objects s) = map calm (objects s')).
  { change (objects (core s) = objects (core s')). by rewrite E. }
  apply (f_equal length) in Ho. by rewrite !length_map in Ho.
Qed.

Lemma core_conn c s : c <| verdicts := [] |> <| sent := [] |> = (conn s) <| verdicts := [] |> <| sent := [] |> ->
  core (s <| conn := c |>) = core s.
Proof.
  intros H. transitivity ((core s) <| conn := c <| verdicts := [] |> <| sent := [] |> |>); [reflexivity|].
  rewrite H. reflexivity.
Qed.

Lemma conn_write_quiet o f c e c' : conn_write o f c = (e, c') ->
  c' <| verdicts := [] |> <| sent := [] |> = c <| verdicts := [] |> <| sent := [] |>.
Proof. unfold conn_write. intros H. repeat case_match; simplify_eq; done. Qed.

Lemma core_pop r s : core (pop_pending r s) = core s.
Proof. unfold pop_pending. by rewrite core_upd, core_pending by done. Qed.

Lemma core_dropOut r s : core (dropOutLocked r s) = core s.
Proof. by apply core_upd. Qed.

Lemma core_sendControl typ fl id len s : core (sendControlLocked typ fl id len s) = core s.
Proof. unfold sendControlLocked. by case_match. Qed.

Create Rewrite HintDb core.
#[export] Hint Rewrite core_control core_pending core_goAwayFlushed core_finFlushed core_drained core_pop
  core_dropOut core_sendControl : core.
#[export] Hint Rewrite core_upd using done : core.

Lemma flush_step_core s s' f : flush_step s = (s', f) -> core s' = core s.
Proof.
  unfold flush_step. set (s1 := if _ && _ then _ else s).
  assert (E1 : core s1 = core s) by (subst s1; by case_match).
  rewrite <- E1. clearbody s1. clear E1.
  unfold flush_control, flush_fin, flush_data. intros H.
  repeat (case_match; simplify_eq; try done);
  repeat match goal with E : conn_write _ _ _ = _ |- _ => apply conn_write_quiet in E end;
  autorewrite with core; try apply core_conn; done.
Qed.

Lemma flush_loop_core n s s' e : flush_loop n s = (s', e) -> core s' = core s.
Proof.
  revert s. induction n as [|n IH]; intros s; cbn; [by intros [= -> _]|].
  destruct (flush_step s) as [s1 [|]] eqn:E; apply flush_step_core in E.
  - intros H. by rewrite (IH _ H).
  - by intros [= <- _].
Qed.

Lemma flushLocked_core s s' e : flushLocked s = (s', e) -> core s' = core s.
Proof. unfold flushLocked. case_match; [by intros [= -> _]|apply flush_loop_core]. Qed.

Lemma send_and_flush_core typ fl id len s s' e : send_and_flush typ fl id len s = (s', e) -> core s' = core s.
Proof. intros H. apply flushLocked_core in H. by rewrite H, core_sendControl. Qed.

(** ** Interleavings as a bag of sections *)

(** Everything the goroutines still have to run. *)
Definition todos (m : machine) : list todo := loop m ++ concat (procs m).

Definition arrive (bytes : list Z) (s : session) : session :=
  s <| conn ::= (fun c => c <| inbuf ::= (fun b => b ++ bytes) |>) |>.

(** A section started from outside. *)
Definition entry (s : session) (t : todo) : bool :=
  turn t || match t with TWritable => true | _ => false end || app_call s t.

(** Reached through states that satisfy [G]. *)
Definition reaches (G : session -> list todo -> Prop) : machine -> machine -> Prop :=
  rtc (fun a b => mstep a b /\ G (sess b) (todos b)).

Lemma concat_insert_perm {A} (ps : list (list A)) j p q :
  ps !! j = Some p -> exists rest, concat ps ≡ₚ p ++ rest /\ concat (<[j := q]> ps) ≡ₚ q ++ rest.
Proof.
  intros H. apply list_elem_of_split_length in H as (l1 & l2 & -> & ->).
  exists (concat l1 ++ concat l2). rewrite insert_app_r_alt, Nat.sub_diag by done. cbn.
  rewrite !concat_app. cbn. split; solve_Permutation.
Qed.

Section BagInduction.
Context (G I : session -> list todo -> Prop).
Hypothesis G_perm : forall s ts ts', ts ≡ₚ ts' -> G s ts -> G s ts'.
Hypothesis I_perm : forall s ts ts', ts ≡ₚ ts' -> I s ts -> I s ts'.
Hypothesis I_arrive : forall s ts bytes, I s ts -> I (arrive bytes s) ts.
Hypothesis I_entry : forall s ts t, entry s t = true -> I s ts -> I s (t :: ts).
Hypothesis I_exec : forall i t s s' k ts,
  exec i t s = Some (s', k) -> G s' (k ++ ts) -> I s (t :: ts) -> I s' (k ++ ts).

Lemma bag_step m m' : mstep m m' -> G (sess m') (todos m') -> I (sess m) (todos m) -> I (sess m') (todos m').
Proof.
  intros Hs HG HI. destruct Hs as [bytes s l ps Hb|t s ps Ht|s l ps|t s l ps Hc|i t s s' k l ps He|i j t s s' k p l ps Hj He];
    unfold todos in *; cbn in *.
  - by apply I_arrive.
  - apply I_entry; [|done]. unfold entry. by rewrite Ht.
  - eapply I_perm; [|apply (I_entry s (l ++ concat ps) TWritable); [by unfold entry; rewrite orb_true_r|exact HI]].
    rewrite concat_app. cbn. solve_Permutation.
  - eapply I_perm; [|apply (I_entry s (l ++ concat ps) t); [by unfold entry; rewrite Hc, orb_true_r|exact HI]].
    rewrite concat_app. cbn. solve_Permutation.
  - rewrite <- app_assoc in *. by eapply I_exec.
  - destruct (concat_insert_perm ps j (t :: p) (k ++ p) Hj) as (rest & E1 & E2).
    assert (E : l ++ concat (<[j := k ++ p]> ps) ≡ₚ k ++ (l ++ p ++ rest)) by (rewrite E2; solve_Permutation).
    eapply I_perm; [symmetry; exact E|]. eapply I_exec; [exact He|by eapply G_perm|].
    eapply I_perm; [|exact HI]. rewrite E1. cbn. solve_Permutation.
Qed.

Lemma bag_induction m m' : reaches G m m' -> I (sess m) (todos m) -> I (sess m') (todos m').
Proof. induction 1 as [|a b c [Hs HG] _ IH]; [done|]. intros HI. apply IH. by eapply bag_step. Qed.
End BagInduction.

(** ** Schedules

    A run given by its moves, for concrete executions. *)

Inductive move : Type :=
| Arrive (bytes : list Z) | Turn (t : todo) | Writable | Call (t : todo)
| RunLoop (i : input) | RunProc (j : nat) (i : input).

Definition sched_step (mv : move) (m : machine) : option machine :=
  match mv with
  | Arrive bytes => if decide (Forall is_byte bytes) then Some (MkMachine (arrive bytes (sess m)) (loop m) (procs m)) else None
  | Turn t => match loop m with [] => if turn t then Some (MkMachine (sess m) [t] (procs m)) else None | _ => None end
  | Writable => Some (MkMachine (sess m) (loop m) (procs m ++ [[TWritable]]))
  | Call t => if app_call (sess m) t then Some (MkMachine (sess m) (loop m) (procs m ++ [[t]])) else None
  | RunLoop i =>
      match loop m with
      | t :: l => match exec i t (sess m) with Some (s, k) => Some (MkMachine s (k ++ l) (procs m)) | None => None end
      | [] => None
      end
  | RunProc j i =>
      match procs m !! j with
      | Some (t :: p) => match exec i t (sess m) with Some (s, k) => Some (MkMachine s (loop m) (<[j := k ++ p]> (procs m))) | None => None end
      | _ => None
      end
  end.

Fixpoint sched (ms : list move) (m : machine) : option machine :=
  match ms with
  | [] => Some m
  | mv :: ms => match sched_step mv m with Some m => sched ms m | None => None end
  end.

Lemma sched_step_mstep mv m m' : sched_step mv m = Some m' -> mstep m m'.
Proof.
  destruct m as [s l ps]. destruct mv; cbn; intros H; repeat (case_match; simplify_eq).
  - by apply step_arrive.
  - by apply step_turn.
  - simplify_eq. apply step_writable.
  - by apply step_call.
  - by eapply step_loop.
  - by eapply step_proc.
Qed.

Lemma sched_reaches ms m m' : sched ms m = Some m' -> rtc mstep m m'.
Proof.
  revert m. induction ms as [|mv ms IH]; intros m; cbn; [by intros [= ->]|].
  destruct (sched_step mv m) as [m1|] eqn:E; [|done]. intros H.
  eapply rtc_l; [by eapply sched_step_mstep|by apply IH].
Qed.

Lemma sched_reachable ms c h cl vs now m :
  sched ms (start (resolve c) h cl vs now) = Some m -> mreachable m.
Proof. intros H. exists c, h, cl, vs, now. by eapply sched_reaches. Qed.

(** A schedule whose states all satisfy [G], checked by [g]. *)
Fixpoint sched_within (g : machine -> bool) (ms : list move) (m : machine) : option machine :=
  match ms with
  | [] => Some m
  | mv :: ms =>
      match sched_step mv m with
      | Some m => if g m then sched_within g ms m else None
      | None => None
      end
  end.

Lemma sched_within_reaches (G : session -> list todo -> Prop) g ms m m' :
  (forall m, g m = true -> G (sess m) (todos m)) -> sched_within g ms m = Some m' -> reaches G m m'.
Proof.
  intros Hg. revert m. induction ms as [|mv ms IH]; intros m; cbn; [by intros [= ->]; apply rtc_refl|].
  destruct (sched_step mv m) as [m1|] eqn:E; [|done]. destruct (g m1) eqn:Eg; [|done]. intros H.
  eapply rtc_l; [split; [by eapply sched_step_mstep|by apply Hg]|by apply IH].
Qed.
