(* ===== verification/MuxRefs.v ===== *)
(** * umux: references stay valid

    Every stream reference the session, its queues and its goroutines hold
    names an object, a table entry's object carries the entry's id, and every
    waiter's channel exists. *)

From S2P Require Import Prelude Update MuxFrame MuxWindow MuxTypes MuxFlush MuxSession MuxFacts.
Local Open Scope Z_scope.

(** The streams and the channels a section names. *)
Definition refs (t : todo) : list nat :=
  match t with
  | TPushData r _ _ _ _ | TPushLocked r _ _ _ _ | TPushed r _ _ _ | TGrant r _ _ | TEstablish r _
  | TAcceptOpen r _ _ | TOwnInbound r | TTryFinish r | TDispatchRead r | TInvoke r _ | TCallback r _
  | TCallbackEnd r | TCallbackRelease r | TDeliverClose r _ | TQueueClose r _ | TResetLocal r _
  | TResetRemote r _ | TRemoveStream r | TAbort r _ | TAbortRemote r _ | TOpenWait r _ | TRead r _
  | TDiscard r _ | TWriteTo r _ | TWriteToDone r _ _ | TWrite r _ _ | TWriteOwned r _ | TFrameData r _ _ _ _
  | TWritev r _ _ | TCloseWrite r | TEnqueueFin r | TCloseLocal r _ | TSetWakeDeadline r _
  | TSetWakeInterval r _ | TSetDeadlines r _ _ _ _ | TStreamWake r | TYieldRead r | TPauseReads r _
  | TResumeReads r _ => [r]
  | _ => []
  end.

Definition chan_refs (t : todo) : list nat :=
  match t with TTrySend ch _ | TSend ch _ | TOpenWait _ ch => [ch] | _ => [] end.

Definition todo_ok (s : session) (t : todo) : Prop :=
  Forall (fun r => valid r s) (refs t) /\ Forall (fun ch => (ch < length (chans s))%nat) (chan_refs t).

Record wf (s : session) : Prop := {
  wf_table : forall id r, streams s !! id = Some r -> valid r s /\ sid (get r s) = id;
  wf_waits : forall id ch, openWait s !! id = Some ch -> (ch < length (chans s))%nat;
  wf_fins : Forall (fun r => valid r s) (finFlushed s);
  wf_drained : Forall (fun r => valid r s) (drained s);
  wf_wakes : Forall (fun r => valid r s) (wakeQ s);
  wf_closes : Forall (fun e => valid e.1 s) (closeQ s);
  wf_accepts : Forall (fun e => valid e.1 s) (acceptCh s)
}.

(** What the invariant looks at beyond the queues: growing objects that keep
    their ids, growing channels, a shrinking table and waiters. *)
Record grows (s s' : session) : Prop := {
  g_objects : (length (objects s) <= length (objects s'))%nat;
  g_chans : (length (chans s) <= length (chans s'))%nat;
  g_ids : forall r, valid r s -> sid (get r s') = sid (get r s)
}.

#[export] Instance grows_preorder : PreOrder grows.
Proof.
  split.
  - by constructor.
  - intros a b c [] []. constructor; [lia|lia|].
    intros r Hr. rewrite g_ids1; [auto|lia].
Qed.

Lemma todo_ok_grows s s' t : grows s s' -> todo_ok s t -> todo_ok s' t.
Proof. intros [] [H1 H2]. split; eapply Forall_impl; eauto; cbn; intros; lia. Qed.

Lemma grows_core s s' : core s' = core s -> grows s s'.
Proof.
  intros E. constructor.
  - by rewrite (core_length _ _ E).
  - by rewrite (core_field chans _ _ (fun _ => eq_refl) E).
  - intros r _. by apply (core_get sid).
Qed.

(** The scheduler adds only streams of the table to its reports. *)
Lemma flush_step_wf s s' f : flush_step s = (s', f) -> wf s -> wf s'.
Proof.
  intros H Hw. pose proof (flush_step_core _ _ _ H) as E. pose proof (grows_core _ _ E) as [G1 G2 G3].
  assert (Hs : streams s' = streams s) by (by apply (core_field streams)).
  assert (Ho : openWait s' = openWait s) by (by apply (core_field openWait)).
  assert (HL := core_length _ _ E).
  assert (HF : Forall (fun r => valid r s) (finFlushed s') /\ Forall (fun r => valid r s) (drained s')).
  { destruct Hw as [Ht _ Hf Hd _ _ _]. revert H. unfold flush_step. clear -Ht Hf Hd.
    set (s1 := if _ && _ then _ else s).
    assert (E1 : streams s1 = streams s /\ finFlushed s1 = finFlushed s /\ drained s1 = drained s)
      by (subst s1; by case_match).
    destruct E1 as (E1 & E2 & E3). clearbody s1. rewrite E1. unfold flush_control, flush_fin, flush_data. intros H.
    repeat (case_match; simplify_eq); cbn in *; rewrite ?E2, ?E3; split; try done;
      apply Forall_app; (split; [done|]); constructor; try done; naive_solver. }
  destruct Hw, HF. constructor; rewrite ?Hs, ?Ho.
  - intros id r Hr. destruct (wf_table0 id r Hr) as [Hv <-]. split; [lia|by apply G3].
  - intros. rewrite (core_field chans _ _ (fun _ => eq_refl) E). eauto.
  - by rewrite HL.
  - by rewrite HL.
  - rewrite HL. by rewrite (core_field wakeQ _ _ (fun _ => eq_refl) E).
  - rewrite HL. by rewrite (core_field closeQ _ _ (fun _ => eq_refl) E).
  - rewrite HL. by rewrite (core_field acceptCh _ _ (fun _ => eq_refl) E).
Qed.

Lemma flushLocked_wf s s' e : flushLocked s = (s', e) -> wf s -> wf s' /\ grows s s'.
Proof.
  intros H Hw. split; [|by eapply grows_core, flushLocked_core].
  revert H. unfold flushLocked. destruct (closed s); [by intros [= -> _]|].
  generalize maxFlushFrames. intros n. revert s Hw. induction n as [|n IH]; intros s Hw; cbn; [by intros [= -> _]|].
  destruct (flush_step s) as [s1 [|]] eqn:E; pose proof (flush_step_wf _ _ _ E Hw).
  - intros. eapply IH; eauto.
  - by intros [= <- _].
Qed.

(** ** Updates *)

(** The result of a section: the session grew, and is well formed with it. *)
Definition good (s s' : session) : Prop := grows s s' /\ (wf s -> wf s').

#[export] Instance good_preorder : PreOrder good.
Proof.
  split.
  - by split.
  - intros a b c [] []. split; [by etrans|auto].
Qed.

Lemma good_upd r f s : (forall st, sid (f st) = sid st) -> good s (upd r f s).
Proof.
  intros Hf. assert (HL : length (objects (upd r f s)) = length (objects s)) by apply length_alter.
  assert (HI : forall r', sid (get r' (upd r f s)) = sid (get r' s)) by (intros; by apply obj_alter_field).
  split.
  - constructor; [lia|done|auto].
  - intros []. constructor; rewrite ?HL; try assumption.
    intros id r' Hr'. rewrite HI. auto.
Qed.

Lemma good_flush s s' e : flushLocked s = (s', e) -> good s s'.
Proof. intros H. split; [by eapply grows_core, flushLocked_core|]. intros Hw. by eapply flushLocked_wf. Qed.

(** Sections that only shrink the table, the waiters and the queues. *)
Lemma good_shrink s s' :
  objects s' = objects s -> chans s' = chans s ->
  (forall id r, streams s' !! id = Some r -> streams s !! id = Some r) ->
  (forall id ch, openWait s' !! id = Some ch -> openWait s !! id = Some ch) ->
  (forall r, r ∈ finFlushed s' -> r ∈ finFlushed s) -> (forall r, r ∈ drained s' -> r ∈ drained s) ->
  (forall r, r ∈ wakeQ s' -> r ∈ wakeQ s) -> (forall e, e ∈ closeQ s' -> e ∈ closeQ s) ->
  (forall e, e ∈ acceptCh s' -> e ∈ acceptCh s) -> good s s'.
Proof.
  intros Ho Hc Hs Hw Hf Hd Hk Hq Ha. split.
  - constructor; [by rewrite Ho|by rewrite Hc|]. unfold get. by rewrite Ho.
  - intros []. constructor; unfold get; rewrite ?Ho, ?Hc.
    + intros. apply (wf_table0 id r). auto.
    + intros. eapply wf_waits0. eauto.
    + rewrite Forall_forall in *. auto.
    + rewrite Forall_forall in *. auto.
    + rewrite Forall_forall in *. auto.
    + rewrite Forall_forall in *. auto.
    + rewrite Forall_forall in *. auto.
Qed.

Lemma lookup_delete_sub {A} (m : gmap Z A) i j x : delete i m !! j = Some x -> m !! j = Some x.
Proof. rewrite lookup_delete_Some. naive_solver. Qed.

Ltac shrink := apply good_shrink; cbn; try done; try (intros *; apply lookup_delete_sub);
  repeat match goal with E : closeQ _ = _ |- _ => rewrite E | E : acceptCh _ = _ |- _ => rewrite E end; set_solver.

Lemma good_leave r s : good s (leave r s).
Proof. unfold leave. case_match; shrink. Qed.

Lemma good_dropOut r s : good s (dropOutLocked r s).
Proof. by apply good_upd. Qed.

Lemma good_control typ fl id len s : good s (sendControlLocked typ fl id len s).
Proof. unfold sendControlLocked. case_match; [done|shrink]. Qed.

Lemma good_send typ fl id len s s' e : send_and_flush typ fl id len s = (s', e) -> good s s'.
Proof. intros H. etrans; [apply good_control|by eapply good_flush]. Qed.

Lemma good_finish err s : good s (finishDrainLocked err s).
Proof. unfold finishDrainLocked. case_match; [done|shrink]. Qed.

Lemma good_goaway s : good s (queue_goaway s).
Proof. unfold queue_goaway. case_match; [shrink|]. etrans; [|apply good_control]. shrink. Qed.

Lemma good_queue r s : good s (queue_stream r s).
Proof.
  unfold queue_stream. case_match; [done|]. etrans; [by apply (good_upd r (fun st => st <| queued := true |>))|]. shrink.
Qed.

Lemma good_publish st s r s' : publish st s = (r, s') -> good s s' /\ valid r s'.
Proof.
  unfold publish. intros [= <- <-]. cbn. rewrite length_app. cbn. split; [|lia]. split.
  - constructor; cbn; [rewrite length_app; lia|done|]. intros r Hr. unfold get. cbn. by rewrite obj_snoc_l.
  - intros []. constructor; cbn; rewrite ?length_app; cbn; try (eapply Forall_impl; [eassumption|cbn; lia]); [|done].
    intros id r. rewrite lookup_insert_Some. unfold get. cbn.
    intros [[<- <-]|[_ Hr]]; [split; [lia|by rewrite obj_snoc_r]|].
    destruct (wf_table0 id r Hr) as [Hv <-]. split; [lia|by rewrite obj_snoc_l].
Qed.

Ltac good_chain :=
  repeat first
    [ reflexivity
    | match goal with
      | |- good _ (if ?b then _ else _) => destruct b
      | |- good _ (upd _ _ _) => etrans; [|apply good_upd; intros; solve [done | repeat case_match; done]]
      | |- good _ (dropOutLocked _ _) => etrans; [|apply good_dropOut]
      | |- good _ (leave _ _) => etrans; [|apply good_leave]
      | |- good _ (queue_stream _ _) => etrans; [|apply good_queue]
      | |- good _ (sendControlLocked _ _ _ _ _) => etrans; [|apply good_control]
      | |- good _ (finishDrainLocked _ _) => etrans; [|apply good_finish]
      | |- good _ (queue_goaway _) => etrans; [|apply good_goaway]
      | |- good _ (emit _ ?X) => transitivity X; [|shrink]
      | |- good _ (emits _ ?X) => transitivity X; [|shrink]
      | H : flushLocked _ = (?s, _) |- good _ ?s => etrans; [|eapply good_flush; exact H]
      | H : send_and_flush _ _ _ _ _ = (?s, _) |- good _ ?s => etrans; [|eapply good_send; exact H]
      | |- good _ (over _ _ ?X) => transitivity X; [|shrink]
      end ].

(** ** Every section keeps the references valid *)

Ltac unfold_sections H :=
  unfold onReadHeld, readLoop, loopEnd, handleFrame, handleData, handleWindowUpdate, handleAck, handlePing,
    handleSynMetadata, handleGoAway, pushData, pushLocked, pushed, grant, grantWindow, establish, acceptStream,
    accept_hook, acceptPublish, acceptOpen, frameDone, refuse, emitDrained, flush, runWakes, drainCloses,
    maybeFinishDrain, rearmTimer, armNotLaterThan, set_wake, requestFlush, releaseInbound, exhaustedBudget, heldReads,
    sendWindowUpdate, tryFinish, dispatchRead, invokeCallback, callback, callback_end, deliverClose, queueClose,
    reset, removeStream, abortStream, abortRemote, trySend, send, open, openWaiting, receive, Close, Shutdown,
    waitDrain, forceDrain, Read, Discard, writeTo, writeToDone, Write, WriteOwned, Writev,
    frameData, take_credit, unlock_write, CloseWrite, closeLocal, enqueue, enqueueFin, streamWake, pauseReads, resumeReads,
    setDeadlines, onTransportClose, timerScan, conn_wake, conn_close, discard_in, reserveInbound in H;
  unfold discard_todos, take_in, goes in H.

Ltac section_cases H := unfold_sections H; simplify_eq/=; repeat (case_match; simplify_eq/=; try done).

Lemma good_foldr {A} (f : A -> session -> session) l s : (forall a s, good s (f a s)) -> good s (foldr f s l).
Proof. intros Hf. induction l as [|a l IH]; [done|]. cbn. etrans; [exact IH|apply Hf]. Qed.

(** A waiter's channel given a value keeps its place. *)
Lemma good_chan ch v s : good s (s <| chans ::= <[ch := v]> |>).
Proof.
  split.
  - constructor; cbn; [done|by rewrite length_insert|done].
  - intros []. constructor; cbn; try done. intros. rewrite length_insert. eauto.
Qed.

Lemma good_expire e w rst s : good s (expire e w rst s).
Proof.
  unfold expire. assert (H : good s (dropOutLocked e.2
    (if w then s <| streams ::= delete e.1 |> <| openWait ::= delete e.1 |> else s <| streams ::= delete e.1 |>))) by good_chain.
  destruct rst; [|done]. etrans; [exact H|apply good_control].
Qed.

Lemma good_visit now a e : good (ss a) (ss (timer_visit now a e)).
Proof.
  unfold timer_visit. repeat case_match; cbn; good_chain.
Qed.

Lemma good_keepalive now s dead s' : keepalive now s = (dead, s') -> good s s'.
Proof. unfold keepalive. intros H. repeat (case_match; simplify_eq; try done). etrans; [|apply good_control]. shrink. Qed.

Lemma good_visits now l a : good (ss a) (ss (foldl (timer_visit now) a l)).
Proof. revert a. induction l as [|e l IH]; intros a; [done|]. cbn. etrans; [apply (good_visit now a e)|apply IH]. Qed.

(** A reference pushed on a queue of the session. *)
Lemma good_push r s s' :
  valid r s -> objects s' = objects s -> chans s' = chans s -> streams s' = streams s -> openWait s' = openWait s ->
  (forall q, q ∈ finFlushed s' -> q = r \/ q ∈ finFlushed s) -> (forall q, q ∈ drained s' -> q = r \/ q ∈ drained s) ->
  (forall q, q ∈ wakeQ s' -> q = r \/ q ∈ wakeQ s) -> (forall e, e ∈ closeQ s' -> e.1 = r \/ e ∈ closeQ s) ->
  (forall e, e ∈ acceptCh s' -> e.1 = r \/ e ∈ acceptCh s) -> good s s'.
Proof.
  intros Hr Ho Hc Hs Hw Hf Hd Hk Hq Ha. split.
  - constructor; [by rewrite Ho|by rewrite Hc|]. unfold get. by rewrite Ho.
  - intros []. constructor; unfold get; rewrite ?Ho, ?Hc, ?Hs, ?Hw; auto; rewrite Forall_forall in *.
    + intros q Hq'. destruct (Hf q Hq') as [->|]; auto.
    + intros q Hq'. destruct (Hd q Hq') as [->|]; auto.
    + intros q Hq'. destruct (Hk q Hq') as [->|]; auto.
    + intros q Hq'. destruct (Hq q Hq') as [E|]; [rewrite E|]; auto.
    + intros q Hq'. destruct (Ha q Hq') as [E|]; [rewrite E|]; auto.
Qed.

(** A new waiter. *)
Lemma good_waiter id s :
  good s (s <| chans ::= (fun l => l ++ [[]]) |> <| openWait ::= <[id := length (chans s)]> |>).
Proof.
  split.
  - constructor; cbn; [done|rewrite length_app; lia|done].
  - intros []. constructor; cbn; try done. intros id' ch. rewrite length_app, lookup_insert_Some. cbn.
    intros [[_ <-]|[_ H]]; [lia|]. apply wf_waits0 in H. lia.
Qed.

Lemma valid_of r l s : Forall (fun r => valid r s) (r :: l) -> valid r s.
Proof. by inversion 1. Qed.

Ltac push r := apply (good_push r); [by eapply valid_of|..]; cbn; try done; set_solver.

Lemma good_open i meta s s' k : open i meta s = Some (s', k) -> good s s'.
Proof.
  unfold open, goes. intros H. repeat (case_match; simplify_eq; try done).
  etrans; [|by eapply good_flush].
  match goal with |- good _ (over control _ ?X) => transitivity X; [|shrink] end.
  etrans; [|apply good_waiter].
  destruct (good_publish _ _ _ _ ltac:(eassumption)) as [G _]. etrans; [|exact G]. shrink.
Qed.

Lemma good_accept i id delta meta n s s' k : acceptPublish i id delta meta n s = Some (s', k) -> good s s'.
Proof.
  unfold acceptPublish, refuse, goes. intros H.
  repeat (case_match; simplify_eq; try done); try (by eapply good_send).
  all: destruct (good_publish _ _ _ _ ltac:(eassumption)) as [G _]; etrans; [exact G|by eapply good_send].
Qed.

Lemma good_scan i s s' k : timerScan i s = Some (s', k) -> good s s'.
Proof.
  unfold timerScan, goes. intros H. destruct (keepalive _ _) as [dead s1] eqn:E1. destruct (flushLocked s1) as [s2 e] eqn:E2.
  simplify_eq. etrans; [|by eapply good_flush]. etrans; [|by eapply good_keepalive]. apply (good_visits _ _ (MkScan s [] [] [] [])).
Qed.

Lemma exec_good i t s s' k : exec i t s = Some (s', k) -> todo_ok s t -> good s s'.
Proof.
  intros H [Hr _]. destruct t; cbn [exec] in H;
    try (by eapply good_open); try (by eapply good_accept); try (by eapply good_scan); section_cases H; good_chain.
  - etrans; [|apply good_foldr; intros; apply good_dropOut]. good_chain.
  - push r.
  - apply good_foldr. intros. by apply good_upd.
  - apply good_foldr. intros. by apply good_upd.
  - push r.
  - apply good_chan.
  - apply good_chan.
  - apply good_chan.
  - apply good_chan.
  - etrans; [by apply (good_upd r (fun st => st <| wakePending := true |>))|].
    apply (good_push r); [cbn; rewrite length_alter; by eapply valid_of|..]; cbn; try done; set_solver.
Qed.

(** ** The sections that follow *)

Lemma todo_ok_app s k l : Forall (todo_ok s) (k ++ l) <-> Forall (todo_ok s) k /\ Forall (todo_ok s) l.
Proof. apply Forall_app. Qed.

Ltac todo_cases :=
  unfold grant_todo, observer_todo, write_return, send_to, close_on, grant_events, read_end in *;
  repeat first [apply Forall_nil_2 | apply Forall_cons_2 | apply todo_ok_app; split | case_match | progress cbn].

Ltac todo_valid :=
  split; cbn; repeat constructor; first [eassumption | eapply valid_of; eassumption | (eapply valid_of; cbn; eassumption) | lia].

(** The cases of a section, its resulting session left as it is named. *)
Ltac section_todos H :=
  unfold_sections H; repeat (case_match; try discriminate H);
  match type of H with Some (_, ?L) = Some (_, ?k) => assert (L = k) as <- by congruence end.

Lemma grows_flush s s' e : flushLocked s = (s', e) -> length (objects s') = length (objects s) /\ chans s' = chans s.
Proof.
  intros H. apply flushLocked_core in H. split; [by apply core_length|by apply (core_field chans)].
Qed.

(** What onTimer's scan collects: resets of streams of the table, sends to
    waiters of the session, timers of streams of the table. *)
Definition from_table (s : session) (t : todo) : Prop :=
  (exists id r c, t = TResetLocal r c /\ streams s !! id = Some r) \/
  (exists id ch v, t = TTrySend ch v /\ openWait s !! id = Some ch).

Record collected (s : session) (a : scan_state) : Prop := {
  col_fails : Forall (from_table s) (openFails a);
  col_resets : Forall (from_table s) (resetCause a);
  col_deadlines : Forall (from_table s) (deadlineResets a);
  col_due : Forall (fun r => exists id, streams s !! id = Some r) (due a);
  col_waits : forall id ch, openWait (ss a) !! id = Some ch -> openWait s !! id = Some ch
}.

Lemma from_table_send s s' id v :
  (forall id ch, openWait s' !! id = Some ch -> openWait s !! id = Some ch) ->
  Forall (from_table s) (send_to (openWait s' !! id) v).
Proof.
  intros H. destruct (openWait s' !! id) eqn:E; cbn; constructor; [|done]. right. eauto 6.
Qed.

Lemma openWait_control ty fl id len s : openWait (sendControlLocked ty fl id len s) = openWait s.
Proof. unfold sendControlLocked. by case_match. Qed.

Lemma collected_visit s now a e : streams s !! e.1 = Some e.2 -> collected s a -> collected s (timer_visit now a e).
Proof.
  intros He []. assert (HR : forall c, from_table s (TResetLocal e.2 c)) by (left; eauto).
  assert (HD : Forall (fun r => exists id, streams s !! id = Some r) (due a ++ [e.2])).
  { apply Forall_app. eauto. }
  assert (HS := fun v => from_table_send s (ss a) e.1 v col_waits0).
  unfold timer_visit. repeat case_match; constructor; cbn; rewrite ?Forall_app, ?Forall_singleton; auto;
    try (split; eauto; fail); intros id ch; rewrite ?openWait_control; cbn; intros Hi; try apply lookup_delete_sub in Hi; auto.
Qed.

Lemma collected_scan s now l :
  Forall (fun e => streams s !! e.1 = Some e.2) l -> collected s (foldl (timer_visit now) (MkScan s [] [] [] []) l).
Proof.
  assert (H0 : collected s (MkScan s [] [] [] [])) by (constructor; cbn; auto).
  revert H0. generalize (MkScan s [] [] [] []). induction l as [|e l IH]; intros a Ha Hl; [done|].
  inversion Hl; subst. cbn. apply IH; [by apply collected_visit|done].
Qed.

Lemma table_spec s : Forall (fun e => streams s !! e.1 = Some e.2) (table s).
Proof. apply Forall_forall. intros [id r] H. by apply elem_of_map_to_list in H. Qed.

Lemma timerScan_collected now s :
  collected s (foldl (timer_visit now) (MkScan s [] [] [] []) (table s)).
Proof. apply collected_scan, table_spec. Qed.

(** The new object of an open or an accepted SYN is there after the flush. *)
Lemma publish_length st s r s' : publish st s = (r, s') ->
  r = length (objects s) /\ length (objects s') = S (length (objects s)) /\ chans s' = chans s.
Proof. unfold publish. intros [= <- <-]. cbn. rewrite length_app. cbn. repeat split. lia. Qed.

Lemma accept_new st s r s1 ty fl id len s' e :
  publish st s = (r, s1) -> send_and_flush ty fl id len s1 = (s', e) -> valid r s'.
Proof.
  intros H1 H2. apply publish_length in H1 as (-> & H1 & _). apply send_and_flush_core in H2.
  apply core_length in H2. lia.
Qed.

Lemma open_new st s r s1 id f s' e :
  publish st s = (r, s1) ->
  flushLocked (s1 <| chans ::= (fun l => l ++ [[]]) |> <| openWait ::= <[id := length (chans s1)]> |> <| control ::= f |>) = (s', e) ->
  valid r s' /\ (length (chans s1) < length (chans s'))%nat.
Proof.
  intros H1 H2. apply publish_length in H1 as (-> & H1 & _). apply grows_flush in H2 as [-> ->]. cbn.
  rewrite length_app. cbn. lia.
Qed.

Lemma flushed_valid s s0 s' e (k l : list todo) :
  flushLocked s = (s0, e) -> wf s -> Some (s0 <| finFlushed := [] |>, k) = Some (s', l) ->
  Forall (todo_ok s') (TTryFinish <$> finFlushed s0).
Proof.
  intros H Hw [= <- _]. apply Forall_fmap. eapply Forall_impl; [apply (wf_fins s0)|].
  - by eapply flushLocked_wf.
  - intros r Hr. split; cbn; auto.
Qed.

Lemma exec_todos i t s s' k : exec i t s = Some (s', k) -> wf s -> todo_ok s t -> Forall (todo_ok s') k.
Proof.
  intros H Hw Ht. pose proof (exec_good _ _ _ _ _ H Ht) as [HG Hw'].
  specialize (Hw' Hw). destruct (todo_ok_grows _ _ _ HG Ht) as [Hr Hc].
  assert (HT : forall id r, streams s !! id = Some r -> valid r s').
  { intros id r E. apply (wf_table _ Hw) in E as [? _]. destruct HG. lia. }
  assert (HO : forall id ch, openWait s !! id = Some ch -> (ch < length (chans s'))%nat).
  { intros id ch E. apply (wf_waits _ Hw) in E. destruct HG. lia. }
  assert (HF : forall l, Forall (from_table s) l -> Forall (todo_ok s') l).
  { intros l Hl. eapply Forall_impl; [exact Hl|]. intros ? [(? & ? & ? & -> & ?)|(? & ? & ? & -> & ?)]; split; cbn; eauto. }
  pose proof (timerScan_collected (now i) s) as Hcol. destruct Hcol as [C1 C2 C3 C4 _].
  assert (HN : forall l, Forall (fun r => exists id, streams s !! id = Some r) l ->
    Forall (todo_ok s') (l ≫= (fun r => [TInvoke r false; TTryFinish r]))).
  { intros l Hl. induction Hl as [|x l [id Hx] _ IH]; cbn; [done|]. repeat constructor; cbn; eauto. }
  pose proof (table_spec s) as HTs. rewrite Forall_forall in HTs.
  clear Ht.
  destruct t; cbn [exec] in H; cbn [refs chan_refs] in *; section_todos H; todo_cases;
    try todo_valid; try (by apply HF); try (by apply HN);
    try (split; cbn; repeat constructor; first [by eapply HT | by eapply HO]).
  - apply Forall_fmap, Forall_forall. intros [id ch] Hi. apply elem_of_map_to_list in Hi. split; cbn; eauto.
  - apply Forall_fmap, Forall_forall. intros e He. split; cbn; eauto.
  - simplify_eq. split; cbn; auto. constructor; [|done]. by eapply accept_new.
  - simplify_eq. split; cbn; auto. constructor; [|done]. by eapply accept_new.
  - by eapply flushed_valid.
  - by eapply flushed_valid.
  - apply Forall_fmap, Forall_forall. intros r Hi. apply list_elem_of_filter in Hi as [_ Hi]. split; cbn; [|done].
    constructor; [|done]. pose proof (wf_wakes _ Hw) as Hk. rewrite Forall_forall in Hk. apply Hk in Hi. destruct HG. lia.
  - simplify_eq. split; cbn; auto. constructor; [|done]. eapply open_new; eassumption.
  - simplify_eq. split; cbn; auto. constructor; [|done]. eapply open_new; eassumption.
  - simplify_eq. split; cbn; repeat constructor; eapply open_new; eassumption.
  - apply Forall_fmap, Forall_forall. intros e He. split; cbn; eauto.
Qed.

(** ** Every reachable state *)

Definition refs_ok (s : session) (ts : list todo) : Prop := wf s /\ Forall (todo_ok s) ts.

Lemma refs_ok_perm s ts ts' : ts ≡ₚ ts' -> refs_ok s ts -> refs_ok s ts'.
Proof. intros E [H1 H2]. split; [done|by rewrite <- E]. Qed.

Lemma entry_ok s t : entry s t = true -> todo_ok s t.
Proof.
  unfold entry. destruct t; cbn; intros H; try discriminate; split; cbn; try (by repeat constructor);
    repeat (case_match; try discriminate); apply bool_decide_eq_true in H; by repeat constructor.
Qed.

Lemma exec_refs i t s s' k ts : exec i t s = Some (s', k) -> refs_ok s (t :: ts) -> refs_ok s' (k ++ ts).
Proof.
  intros H [Hw Ht]. inversion_clear Ht as [|? ? Ht0 Hts]. pose proof (exec_good _ _ _ _ _ H Ht0) as [HG Hw'].
  split; [auto|]. apply Forall_app. split; [by eapply exec_todos|].
  eapply Forall_impl; [exact Hts|]. intros. by eapply todo_ok_grows.
Qed.

Lemma arrive_refs s ts bytes : refs_ok s ts -> refs_ok (arrive bytes s) ts.
Proof. intros [[] Ht]. split; [by constructor|]. eapply Forall_impl; [exact Ht|]. done. Qed.

Lemma entry_refs s ts t : entry s t = true -> refs_ok s ts -> refs_ok s (t :: ts).
Proof. intros H [Hw Ht]. split; [done|]. constructor; [by apply entry_ok|done]. Qed.

Lemma newSession_wf c h cl vs now : wf (rearmTimer now (newSession c h cl vs now)).
Proof. constructor; cbn; try done; intros *; rewrite lookup_empty; done. Qed.

(** An invariant proved on top of the valid references. *)
Section WithRefs.
Context (G I : session -> list todo -> Prop).
Hypothesis G_perm : forall s ts ts', ts ≡ₚ ts' -> G s ts -> G s ts'.
Hypothesis I_perm : forall s ts ts', ts ≡ₚ ts' -> I s ts -> I s ts'.
Hypothesis I_arrive : forall s ts bytes, I s ts -> I (arrive bytes s) ts.
Hypothesis I_entry : forall s ts t, entry s t = true -> I s ts -> I s (t :: ts).
Hypothesis I_exec : forall i t s s' k ts,
  exec i t s = Some (s', k) -> G s' (k ++ ts) -> refs_ok s (t :: ts) -> I s (t :: ts) -> I s' (k ++ ts).

Lemma refs_induction c h cl vs now m :
  reaches G (start c h cl vs now) m -> I (rearmTimer now (newSession c h cl vs now)) [] ->
  refs_ok (sess m) (todos m) /\ I (sess m) (todos m).
Proof.
  intros Hm H0. pattern (sess m), (todos m). revert Hm.
  assert (Hi : refs_ok (rearmTimer now (newSession c h cl vs now)) [] /\ I (rearmTimer now (newSession c h cl vs now)) []).
  { split; [split; [apply newSession_wf|done]|done]. }
  intros Hm. refine (bag_induction G (fun s ts => refs_ok s ts /\ I s ts) G_perm _ _ _ _ _ m Hm Hi).
  - intros s ts ts' E [H1 H2]. split; [by eapply refs_ok_perm|by eapply I_perm].
  - intros s ts bytes [H1 H2]. split; [by apply arrive_refs|by apply I_arrive].
  - intros s ts t Ht [H1 H2]. split; [by apply entry_refs|by apply I_entry].
  - intros i t s s' k ts He HG [H1 H2]. split; [by eapply exec_refs|by eapply I_exec].
Qed.
End WithRefs.

Lemma reaches_all m m' : rtc mstep m m' -> reaches (fun _ _ => True) m m'.
Proof. intros H. eapply rtc_subrel; [|exact H]. by intros a b Hs. Qed.

(** ** The two sections that create a stream *)

Definition opening_stream (i : input) (s : session) : stream := newStream (nextID s) true (now i) (WindowSize (cfg s)).

(** The session with the new stream, its waiter and its SYN, not yet flushed. *)
Definition opened (i : input) (meta : list Z) (s : session) : session :=
  s <| nextID := wrap 32 (nextID s + 2) |>
    <| objects ::= (fun l => l ++ [opening_stream i s]) |> <| streams ::= <[nextID s := length (objects s)]> |>
    <| chans ::= (fun l => l ++ [[]]) |> <| openWait ::= <[nextID s := length (chans s)]> |>
    <| control ::= (fun q => q ++ [syn_frame (nextID s) meta (cfg s)]) |>.

Lemma open_cases i meta s s' k : open i meta s = Some (s', k) ->
  (s' = s /\ exists e, k = [TReturn 0 (Some e)]) \/
  (closed s = false /\ goAway s = false /\ Z.of_nat (size (streams s)) < MaxStreams (cfg s) /\
   exists err, flushLocked (opened i meta s) = (s', err) /\
    k = [TArmNotLater (now i + StreamOpenTimeout (cfg s')); TEmitDrained] ++
      match err with
      | Some e => [TRemoveStream (length (objects s)); TResetLocal (length (objects s)) e; TConnClose (Some e); TReturn 0 (Some e)]
      | None => [TOpenWait (length (objects s)) (length (chans s))]
      end).
Proof.
  unfold open, goes, publish. intros H.
  destruct (_ <? _); [left; simplify_eq; eauto|].
  destruct (closed s); [left; simplify_eq; eauto|]. destruct (goAway s); [left; simplify_eq; eauto|].
  destruct (MaxStreams (cfg s) <=? _) eqn:E; [left; simplify_eq; eauto|]. right. apply Z.leb_gt in E. repeat split; [done|].
  lazymatch type of H with context [flushLocked ?X] => change X with (opened i meta s) in H end.
  destruct (flushLocked (opened i meta s)) as [s2 err]. injection H as <- <-. eauto.
Qed.

(** The session with an accepted stream, not yet acknowledged. *)
Definition admitted (i : input) (id delta : Z) (s : session) : session :=
  s <| objects ::= (fun l => l ++ [accepted_stream id delta (now i) s]) |> <| streams ::= <[id := length (objects s)]> |>.

Lemma acceptPublish_cases i id delta meta n s s' k : acceptPublish i id delta meta n s = Some (s', k) ->
  (closed s = true /\ s' = s /\ k = [TFrameDone None n]) \/
  (closed s = false /\ goAway s = true /\ exists err, send_and_flush typeWindowUpdate flagRST id 0 s = (s', err) /\
   k = [TEmitDrained; TFrameDone err n]) \/
  (closed s = false /\ goAway s = false /\
   exists err, send_and_flush typeWindowUpdate flagACK id (announce (cfg s)) (admitted i id delta s) = (s', err) /\
    k = TEmitDrained ::
      match err with
      | Some e => [TRemoveStream (length (objects s)); TFrameDone (Some e) n]
      | None => [TAcceptOpen (length (objects s)) meta n]
      end).
Proof.
  unfold acceptPublish, refuse, goes, publish. intros H.
  destruct (closed s); [left; by simplify_eq|]. right. destruct (goAway s).
  - left. destruct (send_and_flush _ _ _ _ s) as [s2 err]. injection H as <- <-. eauto.
  - right. lazymatch type of H with context [send_and_flush _ _ _ _ ?X] => change X with (admitted i id delta s) in H end.
    change (cfg (admitted i id delta s)) with (cfg s) in H.
    destruct (send_and_flush _ _ _ _ (admitted i id delta s)) as [s2 err]. injection H as <- <-. eauto.
Qed.

(** The rest of onTimer's scan. *)
Lemma timerScan_cases i s s' k : timerScan i s = Some (s', k) ->
  exists dead s1 err,
    let a := foldl (timer_visit (now i)) (MkScan s [] [] [] []) (table s) in
    keepalive (now i) (ss a) = (dead, s1) /\ flushLocked s1 = (s', err) /\
    k = openFails a ++ resetCause a ++ deadlineResets a ++
      if dead then [TDrainCloses; TConnClose (Some ErrKeepAlive)]
      else match err with
           | Some e => [TDrainCloses; TConnClose (Some e)]
           | None => (if hasHandler s' then due a ≫= (fun r => [TInvoke r false; TTryFinish r]) else []) ++
                     [TRearm; TDrainCloses; TMaybeFinishDrain]
           end.
Proof.
  unfold timerScan, goes. intros H. destruct (keepalive _ _) as [dead s1] eqn:E1.
  destruct (flushLocked s1) as [s2 err] eqn:E2. injection H as <- <-. exists dead, s1, err. by repeat split.
Qed.
