(* ===== verification/MuxView.v ===== *)
(** * umux: views of a session

    A theorem on the session looks at a few of its fields.  A [View] of them
    says which object updates and which events it does not see and that the
    outbound scheduler is none of its business; [view_chain] then shows that a
    section leaves the view as it was. *)

From S2P Require Import Prelude Update MuxFrame MuxWindow MuxTypes MuxFlush MuxSession MuxFacts MuxRefs.
Local Open Scope Z_scope.

Class View {T : Type} (v : session -> T) : Type := {
  keeps : (stream -> stream) -> Prop;
  silent : event -> Prop;
  view_core s s' : core s' = core s -> v s' = v s;
  view_upd r f s : keeps f -> v (upd r f s) = v s;
  view_emits es s : Forall silent es -> v (emits es s) = v s
}.

Lemma view_emit `{View T v} e s : silent e -> v (emit e s) = v s.
Proof. intros He. apply (view_emits [e]). by constructor. Qed.

Lemma view_flush `{View T v} s s' e : flushLocked s = (s', e) -> v s' = v s.
Proof. intros E. by eapply view_core, flushLocked_core. Qed.
Lemma view_send `{View T v} ty fl id len s s' e : send_and_flush ty fl id len s = (s', e) -> v s' = v s.
Proof. intros E. by eapply view_core, send_and_flush_core. Qed.
Lemma view_drop `{View T v} r s : v (dropOutLocked r s) = v s.
Proof. apply view_core, core_dropOut. Qed.
Lemma view_control `{View T v} ty fl id len s : v (sendControlLocked ty fl id len s) = v s.
Proof. apply view_core, core_sendControl. Qed.
Lemma view_queue `{View T v} r s : v (queue_stream r s) = v s.
Proof. apply view_core. unfold queue_stream. case_match; [done|]. by autorewrite with core. Qed.
Lemma view_foldr `{View T v} {A} (f : A -> session -> session) l s :
  (forall a s, v (f a s) = v s) -> v (foldr f s l) = v s.
Proof. intros Hf. induction l as [|a l IH]; [done|]. cbn. by rewrite Hf. Qed.

(** Views of the objects: one field or several of each. *)
Lemma objects_core {A} (p : stream -> A) s s' : (forall st, p (calm st) = p st) -> core s' = core s ->
  p <$> objects s' = p <$> objects s.
Proof.
  intros Hp E. assert (Ho : map calm (objects s') = map calm (objects s)).
  { change (objects (core s') = objects (core s)). by rewrite E. }
  apply (f_equal (fmap p)) in Ho. rewrite <- !list_fmap_compose in Ho.
  rewrite (list_fmap_ext (p ∘ calm) p) in Ho by (intros; cbn; apply Hp).
  by rewrite (list_fmap_ext (p ∘ calm) p) in Ho by (intros; cbn; apply Hp).
Qed.

Lemma objects_upd {A} (p : stream -> A) f (r : nat) (l : list stream) : (forall st, p (f st) = p st) -> p <$> alter f r l = p <$> l.
Proof.
  intros H. apply list_eq. intros j. rewrite !list_lookup_fmap. destruct (decide (r = j)) as [->|].
  - rewrite list_lookup_alter_eq. destruct (l !! j); cbn; [|done]. by rewrite H.
  - by rewrite list_lookup_alter_ne.
Qed.

Lemma drained_silent (P : event -> Prop) l : (forall r, P (OnQueueDrained r)) -> Forall P (OnQueueDrained <$> l).
Proof. intros H. induction l; cbn; auto. Qed.

Ltac view_chain :=
  repeat first
    [ match goal with
      | |- ?v ?s = ?v ?s => reflexivity
      | |- _ (if ?b then _ else _) = _ => destruct b
      | |- ?v (upd ?r ?f ?s) = _ => rewrite (view_upd (v := v) r f s) by (cbn; intros; repeat case_match; done)
      | |- ?v (dropOutLocked ?r ?s) = _ => rewrite (view_drop (v := v) r s)
      | |- ?v (sendControlLocked ?ty ?fl ?id ?len ?s) = _ => rewrite (view_control (v := v) ty fl id len s)
      | |- ?v (queue_stream ?r ?s) = _ => rewrite (view_queue (v := v) r s)
      | |- _ (leave _ _) = _ => unfold leave
      | |- _ (finishDrainLocked _ _) = _ => unfold finishDrainLocked
      | |- _ (queue_goaway _) = _ => unfold queue_goaway
      | |- _ (expire _ _ _ _) = _ => unfold expire
      | |- ?v (emit ?e ?s) = _ => rewrite (view_emit (v := v) e s) by done
      | |- ?v (emits ?es ?s) = _ =>
          rewrite (view_emits (v := v) es s) by (first [by repeat constructor | by apply drained_silent])
      | |- ?v (foldr ?f ?s ?l) = _ =>
          rewrite (view_foldr (v := v) f l s) by (intros; first [apply view_drop | apply view_upd; done])
      | H : flushLocked _ = (?s, _) |- ?v ?s = _ => rewrite (view_flush (v := v) _ _ _ H)
      | H : send_and_flush _ _ _ _ _ = (?s, _) |- ?v ?s = _ => rewrite (view_send (v := v) _ _ _ _ _ _ _ H)
      | |- ?v (@over _ ?T ?p ?F ?f ?X) = _ =>
          let E := fresh in
          assert (E : forall s, v (@over session T p F f s) = v s) by (intros; reflexivity); rewrite (E X); clear E
      end ].

(** The objects' part of onTimer: visits and the keepalive. *)
Lemma view_visits `{View T v} now l a :
  (forall a e, v (ss (timer_visit now a e)) = v (ss a)) -> v (ss (foldl (timer_visit now) a l)) = v (ss a).
Proof. intros Hv. revert a. induction l as [|e l IH]; intros a; [done|]. cbn. by rewrite IH. Qed.

(** A view after onTimer's scan, when neither a visit nor the keepalive is
    seen. *)
Lemma view_scan `{View T v} i s s' k :
  (forall a e, v (ss (timer_visit (now i) a e)) = v (ss a)) ->
  (forall s d s', keepalive (now i) s = (d, s') -> v s' = v s) ->
  timerScan i s = Some (s', k) -> v s' = v s.
Proof.
  intros Hv Hk Hs. apply timerScan_cases in Hs as (dead & s1 & err & E1 & E2 & _).
  rewrite (view_flush (v := v) _ _ _ E2), (Hk _ _ _ E1). by apply (view_visits (v := v) (now i) (table s) (MkScan s [] [] [] [])).
Qed.

(** A view after a stream was created. *)
Lemma view_open `{View T v} i meta s s' k : v (opened i meta s) = v s -> open i meta s = Some (s', k) -> v s' = v s.
Proof.
  intros Hv Ho. apply open_cases in Ho as [[-> _]|(_ & _ & _ & err & E & _)]; [done|].
  by rewrite (view_flush (v := v) _ _ _ E).
Qed.

Lemma view_accept `{View T v} i id delta meta n s s' k :
  v (admitted i id delta s) = v s -> acceptPublish i id delta meta n s = Some (s', k) -> v s' = v s.
Proof.
  intros Hv Ho. apply acceptPublish_cases in Ho as [(_ & -> & _)|[(_ & _ & err & E & _)|(_ & _ & err & E & _)]]; [done|..];
    by rewrite (view_send (v := v) _ _ _ _ _ _ _ E).
Qed.

(** ** A property of every section that follows *)

Section Follows.
Context (P : todo -> Prop).

Lemma follows_scan s now : (forall t, from_table s t -> P t) ->
  let a := foldl (timer_visit now) (MkScan s [] [] [] []) (table s) in
  Forall P (openFails a) /\ Forall P (resetCause a) /\ Forall P (deadlineResets a).
Proof.
  intros HP. destruct (timerScan_collected now s) as [H1 H2 H3 _ _].
  repeat split; eapply Forall_impl; eauto.
Qed.

Lemma follows_due l : (forall r, P (TInvoke r false)) -> (forall r, P (TTryFinish r)) ->
  Forall P (l ≫= (fun r => [TInvoke r false; TTryFinish r])).
Proof. intros H1 H2. induction l as [|r l IH]; cbn; auto. Qed.

Lemma follows_fmap {A} (f : A -> todo) l : (forall x, P (f x)) -> Forall P (f <$> l).
Proof. intros H. induction l; cbn; auto. Qed.
End Follows.

(** Splits "every section that follows is [P]" into its members; the lists of
    onTimer and the loops over the table are members by their shape. *)
Ltac follows :=
  unfold grant_todo, observer_todo, write_return, send_to, close_on, grant_events, read_end in *;
  repeat first
    [ apply Forall_nil_2 | apply Forall_cons_2 | apply Forall_app; split
    | apply follows_fmap; intros; done
    | apply follows_due; intros; done
    | (refine (proj1 (follows_scan _ _ _ _)); intros ? [(? & ? & ? & -> & _)|(? & ? & ? & -> & _)]; done)
    | (refine (proj1 (proj2 (follows_scan _ _ _ _))); intros ? [(? & ? & ? & -> & _)|(? & ? & ? & -> & _)]; done)
    | (refine (proj2 (proj2 (follows_scan _ _ _ _))); intros ? [(? & ? & ? & -> & _)|(? & ? & ? & -> & _)]; done)
    | case_match ].
