(* ===== verification/MuxPreserve.v ===== *)
(** * umux: what the sections preserve of the outbound side

    A relation between the sessions before and after a section that holds of
    the few operations the sections are made of (an update of an object that
    the scheduler does not see, a stream leaving the table and being dropped,
    a flush, a new stream, the transport's close) holds of every section that
    takes no write lock. *)

From S2P Require Import Prelude Update MuxFrame MuxWindow MuxTypes MuxFlush MuxSession MuxFacts MuxRefs MuxView.
Local Open Scope Z_scope.

(** The part of a stream the writers and the scheduler use. *)
Definition scheduled (st : stream) : Z * bool * bool * list wframe * list Z * list wframe * bool * streamFINState :=
  (sid st, wmu st, localFIN st, framed st, accepted st, out st, queued st, finState st).

Definition outbound (s : session) : list stream * gmap Z nat * list Z * list (option nat * wframe) * list verdict :=
  (objects s, streams s, pending s, sent (conn s), verdicts (conn s)).

(** The sections that hold or take a write lock. *)
Definition locking (t : todo) : bool :=
  match t with
  | TWrite _ _ _ | TWriteOwned _ _ | TFrameData _ _ _ _ _ | TCloseWrite _ | TEnqueueFin _ => true
  | _ => false
  end.

Class Preserved (R : session -> session -> Prop) : Type := {
  pr_preorder :: PreOrder R;
  pr_over s s' : good s s' -> outbound s' = outbound s -> R s s';
  pr_upd r f s : (forall st, scheduled (f st) = scheduled st) -> R s (upd r f s);
  pr_gone r s s1 : good s (dropOutLocked r s1) -> objects s1 = objects s -> pending s1 = pending s -> conn s1 = conn s ->
    (forall id r', streams s1 !! id = Some r' -> streams s !! id = Some r') ->
    streams s1 !! sid (get r s) <> Some r -> R s (dropOutLocked r s1);
  pr_flush s s' e : flushLocked s = (s', e) -> R s s';
  pr_open i meta s s' k : open i meta s = Some (s', k) -> R s s';
  pr_accept i id delta meta n s s' k : acceptPublish i id delta meta n s = Some (s', k) -> R s s';
  pr_close err s s' k : onTransportClose err s = Some (s', k) -> good s s' -> R s s'
}.

Section Sections.
Context (R : session -> session -> Prop) `{!Preserved R}.

Lemma pr_control ty fl id len s : R s (sendControlLocked ty fl id len s).
Proof. unfold sendControlLocked. case_match; [done|]. apply pr_over; [shrink|done]. Qed.

Lemma pr_send ty fl id len s s' e : send_and_flush ty fl id len s = (s', e) -> R s s'.
Proof. intros H. etrans; [apply pr_control|by eapply pr_flush]. Qed.

Lemma pr_leave_drop r s : R s (dropOutLocked r (leave r s)).
Proof.
  unfold leave, live. case_bool_decide as Hl; apply pr_gone; try done; cbn; try (good_chain; done).
  - intros id r'. apply lookup_delete_sub.
  - by rewrite lookup_delete_eq.
Qed.

Lemma pr_expire e w rst s : sid (get e.2 s) = e.1 -> R s (expire e w rst s).
Proof.
  intros Hid. unfold expire. set (s1 := s <| streams ::= delete e.1 |>).
  assert (H : R s (dropOutLocked e.2 (if w then s1 <| openWait ::= delete e.1 |> else s1))).
  { apply pr_gone; try (by destruct w).
    - unfold s1. destruct w; good_chain.
    - intros id r'. destruct w; cbn; apply lookup_delete_sub.
    - rewrite Hid. destruct w; cbn; by rewrite lookup_delete_eq. }
  destruct rst; [|done]. etrans; [exact H|apply pr_control].
Qed.

Lemma pr_visit now a e : sid (get e.2 (ss a)) = e.1 -> R (ss a) (ss (timer_visit now a e)).
Proof.
  intros Hid. unfold timer_visit. destruct (_ || _); cbn [ss]; [by apply pr_expire|].
  set (s1 := if due_at now (wakeAt (get e.2 (ss a))) then upd e.2 (fire now) (ss a) else ss a).
  assert (H1 : R (ss a) s1) by (subst s1; case_match; [by apply pr_upd|done]).
  assert (Hid1 : sid (get e.2 s1) = e.1).
  { subst s1. case_match; [|done]. rewrite <- Hid. by apply obj_alter_field. }
  clearbody s1. case_match; cbn [ss]; [etrans; [exact H1|by apply pr_expire]|].
  case_match; cbn [ss]; [etrans; [exact H1|by apply pr_expire]|done].
Qed.

Lemma pr_visits now l a :
  Forall (fun e => valid e.2 (ss a) /\ sid (get e.2 (ss a)) = e.1) l -> R (ss a) (ss (foldl (timer_visit now) a l)).
Proof.
  revert a. induction l as [|e l IH]; intros a Hl; [done|]. inversion Hl as [|? ? [Hv Hid] Hl']; subst. cbn.
  etrans; [by apply (pr_visit now a e)|]. apply IH.
  eapply Forall_impl; [exact Hl'|]. intros e' [Hv' Hid']. destruct (good_visit now a e) as [[G1 _ G3] _].
  split; [cbn in *; lia|]. by rewrite G3.
Qed.

Lemma pr_keepalive now s d s' : keepalive now s = (d, s') -> R s s'.
Proof.
  unfold keepalive. intros H. repeat case_match; injection H as _ <-; try done.
  etrans; [|apply pr_control]. apply pr_over; [shrink|done].
Qed.

Lemma pr_scan i s s' k : timerScan i s = Some (s', k) -> wf s -> R s s'.
Proof.
  intros H Hw. apply timerScan_cases in H as (dead & s1 & err & E1 & E2 & _).
  etrans; [|by eapply pr_flush]. etrans; [|by eapply pr_keepalive].
  apply (pr_visits (now i) (table s) (MkScan s [] [] [] [])). cbn [ss].
  eapply Forall_impl; [apply table_spec|]. intros e He. by apply (wf_table _ Hw) in He.
Qed.

Lemma pr_wake r s : valid r s ->
  R s ((upd r (fun st => st <| wakePending := true |>) s) <| wakeQ ::= (fun q => q ++ [r]) |>).
Proof.
  intros Hv. transitivity (upd r (fun st => st <| wakePending := true |>) s); [by apply pr_upd|].
  apply pr_over; [|done]. apply (good_push r); [cbn; by rewrite length_alter|..]; cbn; try done; set_solver.
Qed.

Lemma pr_wakes l s : R s (foldr (fun r => upd r (fun st => st <| wakePending := false |>)) s l).
Proof. induction l as [|r l IH]; [done|]. cbn. etrans; [exact IH|]. by apply pr_upd. Qed.

Ltac pr_chain :=
  repeat first
    [ reflexivity
    | match goal with
      | |- R _ (if ?b then _ else _) => destruct b
      | |- R _ (dropOutLocked ?r (leave ?r ?X)) => transitivity X; [|apply pr_leave_drop]
      | |- R _ (upd _ _ ?X) => transitivity X; [|apply pr_upd; intros; repeat case_match; done]
      | |- R _ (sendControlLocked _ _ _ _ ?X) => transitivity X; [|apply pr_control]
      | |- R _ (finishDrainLocked _ _) => unfold finishDrainLocked
      | |- R _ (queue_goaway _) => unfold queue_goaway
      | |- R _ (emit _ ?X) => transitivity X; [|apply pr_over; [shrink|done]]
      | |- R _ (emits _ ?X) => transitivity X; [|apply pr_over; [shrink|done]]
      | H : flushLocked ?X = (?s, _) |- R _ ?s => transitivity X; [|eapply pr_flush; exact H]
      | H : send_and_flush _ _ _ _ ?X = (?s, _) |- R _ ?s => transitivity X; [|eapply pr_send; exact H]
      | |- R _ (over _ _ ?X) => transitivity X; [|apply pr_over; [shrink|done]]
      end ].

Lemma exec_preserved i t s s' k :
  exec i t s = Some (s', k) -> locking t = false -> wf s -> todo_ok s t -> R s s'.
Proof.
  intros H Hlk Hw Ht. pose proof (exec_good _ _ _ _ _ H Ht) as HG. pose proof Ht as [Hr _].
  destruct t; try discriminate Hlk; cbn [exec] in H;
    try (by eapply pr_open); try (by eapply pr_accept); try (by eapply pr_scan); try (by eapply pr_close);
    clear HG; section_cases H; pr_chain.
  - apply pr_over; [push r|done].
  - apply pr_wakes.
  - apply pr_wakes.
  - apply pr_over; [push r|done].
  - apply pr_over; [apply good_chan|done].
  - apply pr_over; [apply good_chan|done].
  - apply pr_over; [apply good_chan|done].
  - apply pr_over; [apply good_chan|done].
  - apply pr_wake. by eapply valid_of.
Qed.

End Sections.
