(* ===== verification/MuxClose.v ===== *)
(** * umux: every stream closes exactly once

    OnClose is delivered at most once per stream, whatever goroutines abort,
    reset or finish it concurrently, and a closed stream's OnClose is never
    lost: it has been delivered, waits in the close queue, or is still owed by
    a goroutine. *)

From S2P Require Import Prelude Update MuxFrame MuxWindow MuxTypes MuxFlush MuxSession MuxFacts MuxRefs MuxView.
Local Open Scope Z_scope.

(** ** What the argument looks at *)

Definition closed_ref (e : event) : option nat := match e with OnClose r _ => Some r | _ => None end.

(** The OnClose callbacks so far, the queue, and the flags of each object. *)
Definition close_view (s : session) : list nat * list nat * list (bool * bool) :=
  (omap closed_ref (trace s), (closeQ s).*1, (fun st => (closedLocal st, closeDelivered st)) <$> objects s).

#[export] Instance close_view_View : View close_view.
Proof.
  refine {| keeps f := forall st, closedLocal (f st) = closedLocal st /\ closeDelivered (f st) = closeDelivered st;
            silent e := closed_ref e = None |}.
  - intros s s' E. unfold close_view.
    rewrite (core_field trace _ _ (fun _ => eq_refl) E), (core_field closeQ _ _ (fun _ => eq_refl) E).
    f_equal. by apply objects_core.
  - intros r f s Hf. unfold close_view, upd. cbn. f_equal. apply objects_upd. intros st. by destruct (Hf st) as [-> ->].
  - intros es s H. unfold close_view, emits. cbn. rewrite omap_app.
    replace (omap closed_ref es) with (@nil nat); [by rewrite app_nil_r|].
    induction H as [|e es He _ IH]; [done|]. cbn. by rewrite He.
Defined.

(** The sections that do not touch any of it. *)
Definition quiet_close (t : todo) : bool :=
  match t with
  | TDeliverClose _ _ | TQueueClose _ _ | TResetLocal _ _ | TResetRemote _ _ | TTryFinish _ | TDrainCloses
  | TOpen _ | TAcceptPublish _ _ _ _ => false
  | TNotify e => bool_decide (closed_ref e = None)
  | _ => true
  end.

Lemma close_view_visit now a e : close_view (ss (timer_visit now a e)) = close_view (ss a).
Proof. unfold timer_visit. repeat case_match; cbn [ss]; view_chain. Qed.

Lemma close_view_keepalive now s d s' : keepalive now s = (d, s') -> close_view s' = close_view s.
Proof. unfold keepalive. intros H. repeat case_match; injection H as _ <-; view_chain. Qed.

Lemma quiet_close_view i t s s' k :
  exec i t s = Some (s', k) -> quiet_close t = true -> close_view s' = close_view s.
Proof.
  intros H Hq. destruct t; try discriminate Hq; cbn [exec] in H;
    try (apply (view_scan (v := close_view) _ _ _ _ (close_view_visit _) (close_view_keepalive _) H));
    section_cases H; view_chain.
  - apply (view_emit (v := close_view)). by apply bool_decide_eq_true in Hq.
Qed.

(** The configuration never changes. *)
Definition params (s : session) : Config * hooks * bool := (cfg s, hks s, client s).

#[export] Instance params_View : View params.
Proof.
  refine {| keeps _ := True; silent _ := True |}; [|done|done].
  intros s s' E. apply (core_field params); [done|done].
Defined.

Lemma params_visit now a e : params (ss (timer_visit now a e)) = params (ss a).
Proof. unfold timer_visit. repeat case_match; cbn [ss]; view_chain. Qed.

Lemma params_keepalive now s d s' : keepalive now s = (d, s') -> params s' = params s.
Proof. unfold keepalive. intros H. repeat case_match; injection H as _ <-; view_chain. Qed.

Lemma exec_params i t s s' k : exec i t s = Some (s', k) -> params s' = params s.
Proof.
  intros H. destruct t; cbn [exec] in H;
    try (apply (view_scan (v := params) _ _ _ _ (params_visit _) (params_keepalive _) H));
    try (by eapply (view_open (v := params))); try (by eapply (view_accept (v := params)));
    section_cases H; view_chain.
Qed.

(** The sections that owe a close. *)
Definition delivering (r : nat) (t : todo) : bool :=
  match t with TDeliverClose r' _ => bool_decide (r = r') | _ => false end.
Definition queueing (r : nat) (t : todo) : bool :=
  match t with TQueueClose r' _ => bool_decide (r = r') | _ => false end.
Definition notice_ok (t : todo) : bool := match t with TNotify e => bool_decide (closed_ref e = None) | _ => true end.
Definition no_close (t : todo) : bool :=
  match t with TDeliverClose _ _ | TQueueClose _ _ => false | _ => notice_ok t end.

Lemma exec_no_close i t s s' k : exec i t s = Some (s', k) -> quiet_close t = true -> Forall (fun t => no_close t = true) k.
Proof.
  intros H Hq. destruct t; try discriminate Hq; cbn [exec] in H; section_todos H; follows; done.
Qed.

(** ** The invariant *)

Definition count (r : nat) (l : list nat) : nat := length (filter (fun x => x = r) l).
Definition tcount (p : todo -> bool) (ts : list todo) : nat := length (filter (fun t => p t = true) ts).
Definition b2n (b : bool) : nat := if b then 1%nat else 0%nat.

Lemma count_app r a b : count r (a ++ b) = (count r a + count r b)%nat.
Proof. unfold count. by rewrite filter_app, length_app. Qed.
Lemma tcount_app p a b : tcount p (a ++ b) = (tcount p a + tcount p b)%nat.
Proof. unfold tcount. by rewrite filter_app, length_app. Qed.
Lemma tcount_cons p t l : tcount p (t :: l) = (b2n (p t) + tcount p l)%nat.
Proof. unfold tcount. rewrite filter_cons. destruct (p t) eqn:E; [by rewrite decide_True|by rewrite decide_False by congruence]. Qed.
Lemma tcount_perm p a b : a ≡ₚ b -> tcount p a = tcount p b.
Proof. unfold tcount. by intros ->. Qed.
Lemma tcount_none p l : Forall (fun t => p t = false) l -> tcount p l = 0%nat.
Proof. induction 1 as [|t l Ht _ IH]; [done|]. by rewrite tcount_cons, Ht. Qed.

(** OnClose callbacks of [r]: delivered, queued, and about to be queued. *)
Definition closings (r : nat) (s : session) (ts : list todo) : nat :=
  (count r (omap closed_ref (trace s)) + count r (closeQ s).*1 + tcount (queueing r) ts)%nat.

Definition close_flags (r : nat) (s : session) : bool * bool := (closedLocal (get r s), closeDelivered (get r s)).

Record close_inv (s : session) (ts : list todo) : Prop := {
  ci_notices : Forall (fun t => notice_ok t = true) ts;
  ci_once : hasHandler s = true -> forall r, closings r s ts = b2n (closeDelivered (get r s));
  ci_delivered : forall r, closeDelivered (get r s) = true -> closedLocal (get r s) = true;
  ci_owed : forall r, closedLocal (get r s) = true ->
    closeDelivered (get r s) = true \/ Exists (fun t => delivering r t = true) ts;
  ci_owing : forall r, Exists (fun t => delivering r t = true) ts -> closedLocal (get r s) = true
}.

Lemma close_view_flags s s' : close_view s' = close_view s -> forall r, close_flags r s' = close_flags r s.
Proof.
  unfold close_view. intros [= _ _ E] r. apply (f_equal (fun l => l !! r)) in E. rewrite !list_lookup_fmap in E.
  unfold close_flags, get, obj. destruct (objects s' !! r), (objects s !! r); cbn in *; congruence.
Qed.

Lemma close_view_closings s s' ts : close_view s' = close_view s -> forall r, closings r s' ts = closings r s ts.
Proof. unfold close_view, closings. by intros [= -> -> _]. Qed.

Lemma no_close_spec r l : Forall (fun t => no_close t = true) l ->
  tcount (queueing r) l = 0%nat /\ Forall (fun t => delivering r t = false) l /\ Forall (fun t => notice_ok t = true) l.
Proof.
  intros H. split; [apply tcount_none|split]; eapply Forall_impl; eauto; intros []; cbn; done.
Qed.

Lemma exec_handler i t s s' k : exec i t s = Some (s', k) -> hasHandler s' = hasHandler s.
Proof. intros H. apply exec_params in H. unfold params, hasHandler in *. congruence. Qed.

(** A section that sees none of it, or sees it unchanged. *)
Lemma close_inv_same s s' t k ts :
  (forall r, close_flags r s' = close_flags r s) -> (forall r, closings r s' [] = closings r s []) ->
  hasHandler s' = hasHandler s -> (forall r, queueing r t = false /\ delivering r t = false) ->
  Forall (fun t => no_close t = true) k -> close_inv s (t :: ts) -> close_inv s' (k ++ ts).
Proof.
  unfold close_flags. intros Hf Hc Hh Ht Hk [H1 H2 H3 H4 H5].
  assert (Hl : forall r, closedLocal (get r s') = closedLocal (get r s)) by (intros r; specialize (Hf r); congruence).
  assert (Hd : forall r, closeDelivered (get r s') = closeDelivered (get r s)) by (intros r; specialize (Hf r); congruence).
  assert (HE : forall r, Exists (fun t => delivering r t = true) (k ++ ts) <-> Exists (fun t => delivering r t = true) (t :: ts)).
  { intros r. rewrite Exists_app, Exists_cons. destruct (Ht r) as [_ ->]. destruct (no_close_spec r k Hk) as (_ & Hn & _).
    split; [intros [E|]|intros [|]]; try done; auto.
    exfalso. rewrite Exists_exists in E. destruct E as (x & Hx & E). rewrite Forall_forall in Hn. rewrite Hn in E; done. }
  constructor.
  - apply Forall_app. split; [by apply (no_close_spec 0)|by inversion H1].
  - intros Hh' r. rewrite Hd, <- H2 by congruence. specialize (Hc r). unfold closings in *. cbn in Hc.
    rewrite tcount_app, tcount_cons. destruct (no_close_spec r k Hk) as (-> & _). destruct (Ht r) as [-> _]. cbn in *. lia.
  - intros r. rewrite Hd, Hl. auto.
  - intros r. rewrite Hd, Hl, HE. auto.
  - intros r. rewrite HE, Hl. auto.
Qed.

(** Delivering: the flag is set, and with a handler the close is to be queued. *)
Lemma close_inv_deliver r err s s' k ts :
  valid r s -> deliverClose r err s = Some (s', k) -> close_inv s (TDeliverClose r err :: ts) -> close_inv s' (k ++ ts).
Proof.
  intros Hv H [H1 H2 H3 H4 H5]. inversion H1; subst.
  assert (Hcl : closedLocal (get r s) = true) by (apply H5; constructor; cbn; by apply bool_decide_eq_true).
  unfold deliverClose, goes in H. destruct (closeDelivered (get r s)) eqn:Hd; simplify_eq; cbn [app].
  - constructor; [done|..]; auto.
    + intros r' Hr'. destruct (H4 r' Hr') as [|E]; [auto|]. inversion E as [? ? E'|]; subst; [|auto].
      cbn in E'. apply bool_decide_eq_true in E' as ->. auto.
  - set (s1 := upd r _ s) in *.
    assert (Hl : forall r', closedLocal (get r' s1) = closedLocal (get r' s)) by (intros; by apply obj_alter_field).
    assert (Hd1 : closeDelivered (get r s1) = true) by (unfold s1; rewrite get_upd, decide_True by done; done).
    assert (Hd2 : forall r', r <> r' -> closeDelivered (get r' s1) = closeDelivered (get r' s))
      by (intros; unfold s1; rewrite get_upd, decide_False by naive_solver; done).
    assert (HE : forall r', Exists (fun t => delivering r' t = true) ((if hasHandler s then [TQueueClose r err] else []) ++ ts)
                  <-> Exists (fun t => delivering r' t = true) ts).
    { intros r'. case_match; cbn; [|done]. rewrite Exists_cons. cbn. naive_solver. }
    constructor.
    + apply Forall_app. split; [|done]. case_match; by repeat constructor.
    + change (hasHandler s1) with (hasHandler s). intros Hh r'. rewrite Hh. pose proof (H2 Hh r') as Hr'. unfold closings in *.
      change (trace s1) with (trace s). change (closeQ s1) with (closeQ s).
      cbn [app] in *. rewrite tcount_cons in *. cbn in *. destruct (decide (r' = r)) as [->|Hne].
      * rewrite Hd1, bool_decide_eq_true_2 by done. rewrite Hd in Hr'. cbn in *. lia.
      * rewrite Hd2, bool_decide_eq_false_2 by done. cbn in *. lia.
    + intros r'. rewrite Hl. destruct (decide (r = r')) as [->|]; [done|]. rewrite Hd2 by done. auto.
    + intros r' Hr'. rewrite Hl in Hr'. rewrite HE. destruct (decide (r = r')) as [->|]; [auto|]. rewrite Hd2 by done.
      destruct (H4 r' Hr') as [|E]; [auto|]. inversion E as [? ? E'|]; subst; [|auto].
      cbn in E'. apply bool_decide_eq_true in E'. congruence.
    + intros r'. rewrite HE, Hl. intros E. apply H5. by apply Exists_cons_tl.
Qed.

Lemma count_one r r' : count r' [r] = if decide (r = r') then 1%nat else 0%nat.
Proof. unfold count. rewrite filter_cons. by case_decide. Qed.

(** Queueing: what a goroutine was about to queue is queued. *)
Lemma close_inv_queue r err s s' k ts :
  queueClose r err s = Some (s', k) -> close_inv s (TQueueClose r err :: ts) -> close_inv s' (k ++ ts).
Proof.
  unfold queueClose, goes. intros [= <- <-] [H1 H2 H3 H4 H5]. inversion H1; subst.
  set (k := if closed s then _ else _). assert (Hk : Forall (fun t => no_close t = true) k) by (subst k; case_match; by repeat constructor).
  constructor; cbn.
  - apply Forall_app. split; [by apply (no_close_spec 0)|done].
  - intros Hh r'. etrans; [|exact (H2 Hh r')]. unfold closings.
    change (count r' (omap closed_ref (trace s)) + count r' (closeQ s ++ [(r, err)]).*1 + tcount (queueing r') (k ++ ts) =
      count r' (omap closed_ref (trace s)) + count r' (closeQ s).*1 + tcount (queueing r') (TQueueClose r err :: ts))%nat.
    rewrite fmap_app, count_app, tcount_app, tcount_cons.
    destruct (no_close_spec r' k Hk) as (-> & _). cbn [fmap list_fmap fst queueing]. rewrite count_one.
    destruct (decide (r = r')) as [->|]; [rewrite bool_decide_eq_true_2 by done|rewrite bool_decide_eq_false_2 by done]; cbn; lia.
  - auto.
  - intros r' Hr'. destruct (H4 r' Hr') as [|E]; [auto|]. right. inversion E; subst; [done|]. by apply Exists_app; right.
  - intros r' E. apply H5. apply Exists_app in E as [E|]; [|by apply Exists_cons_tl].
    exfalso. rewrite Exists_exists in E. destruct E as (x & Hx & E). destruct (no_close_spec r' k Hk) as (_ & Hn & _).
    rewrite Forall_forall in Hn. rewrite Hn in E; done.
Qed.

(** Closing: the stream is marked, and its close is to be delivered. *)
Lemma close_inv_mark r t s s1 k ts :
  closedLocal (get r s) = false ->
  (forall r', close_flags r' s1 = if decide (r' = r) then (true, closeDelivered (get r s)) else close_flags r' s) ->
  (forall r', closings r' s1 [] = closings r' s []) -> hasHandler s1 = hasHandler s ->
  (forall r', queueing r' t = false /\ delivering r' t = false) ->
  (forall r', tcount (queueing r') k = 0%nat) -> Forall (fun t => notice_ok t = true) k ->
  (forall r', Exists (fun t => delivering r' t = true) k <-> r' = r) ->
  close_inv s (t :: ts) -> close_inv s1 (k ++ ts).
Proof.
  intros Hcl Hf Hc Hh Ht Hkq Hkn Hkd [H1 H2 H3 H4 H5]. inversion H1; subst.
  assert (Hd : forall r', closeDelivered (get r' s1) = closeDelivered (get r' s)).
  { intros r'. specialize (Hf r'). unfold close_flags in Hf. case_decide; subst; congruence. }
  assert (HT : forall r', Exists (fun t => delivering r' t = true) (t :: ts) <-> Exists (fun t => delivering r' t = true) ts).
  { intros r'. rewrite Exists_cons. destruct (Ht r') as [_ ->]. naive_solver. }
  constructor.
  - by apply Forall_app.
  - intros Hh' r'. rewrite Hd, <- H2 by congruence. specialize (Hc r'). unfold closings in *. cbn in Hc.
    rewrite tcount_app, tcount_cons, Hkq. destruct (Ht r') as [-> _]. cbn in *. lia.
  - intros r' Hr'. specialize (Hf r'). unfold close_flags in Hf. rewrite Hd in Hr'. pose proof (H3 r' Hr').
    case_decide; subst; congruence.
  - intros r' Hr'. rewrite Hd, Exists_app, Hkd. destruct (decide (r' = r)); [auto|].
    specialize (Hf r'). unfold close_flags in Hf. rewrite decide_False in Hf by done.
    destruct (H4 r') as [|E]; [congruence|auto|]. rewrite HT in E. auto.
  - intros r'. rewrite Exists_app, Hkd. intros E. specialize (Hf r'). unfold close_flags in Hf.
    case_decide; [congruence|]. destruct E as [|E]; [done|]. rewrite <- HT in E. apply H5 in E. congruence.
Qed.

Lemma flags_upd_mark r f s :
  valid r s -> (forall st, closedLocal (f st) = true /\ closeDelivered (f st) = closeDelivered st) ->
  forall r', close_flags r' (upd r f s) = if decide (r' = r) then (true, closeDelivered (get r s)) else close_flags r' s.
Proof.
  intros Hv Hf r'. unfold close_flags. rewrite get_upd. destruct (decide (r' = r)) as [->|].
  - rewrite decide_True by done. by destruct (Hf (get r s)) as [-> ->].
  - by rewrite decide_False by naive_solver.
Qed.

Lemma close_inv_reset r err t s s' k ts :
  valid r s -> (t = TResetLocal r err \/ t = TResetRemote r err) -> reset r err s = Some (s', k) ->
  close_inv s (t :: ts) -> close_inv s' (k ++ ts).
Proof.
  intros Hv Ht H HI. assert (Hq : forall r', queueing r' t = false /\ delivering r' t = false) by (by destruct Ht as [-> | ->]).
  unfold reset, goes in H. destruct (closedLocal (get r s)) eqn:Hcl; simplify_eq.
  - by eapply (close_inv_same s' s' t []).
  - apply (close_inv_mark r t s); try done.
    + by apply flags_upd_mark.
    + by repeat constructor.
    + intros r'. rewrite !Exists_cons, Exists_nil. cbn. rewrite bool_decide_eq_true. naive_solver.
Qed.

Lemma close_inv_finish r s s' k ts :
  valid r s -> tryFinish r s = Some (s', k) -> close_inv s (TTryFinish r :: ts) -> close_inv s' (k ++ ts).
Proof.
  intros Hv H HI. unfold tryFinish, goes in H. destruct (negb (live r s) || negb (may_finish r s)) eqn:Hg; simplify_eq.
  - by eapply (close_inv_same s' s' (TTryFinish r) []).
  - assert (Hcl : closedLocal (get r s) = false).
    { unfold may_finish in Hg. by destruct (closedLocal (get r s)), (live r s). }
    set (f := fun st : stream => st <| closedLocal := true |> <| closedErr := Some (default EOF (closedErr (get r s))) |> <| halfSince := None |>).
    assert (Hv1 : close_view (dropOutLocked r (leave r (upd r f s))) = close_view (upd r f s)) by view_chain.
    apply (close_inv_mark r (TTryFinish r) s); try done.
    + intros r'. rewrite (close_view_flags _ _ Hv1). by apply (flags_upd_mark r f s).
    + intros r'. by rewrite (close_view_closings _ _ _ Hv1).
    + unfold hasHandler. assert (E : params (dropOutLocked r (leave r (upd r f s))) = params s) by view_chain.
      unfold params in E. congruence.
    + by repeat constructor.
    + intros r'. rewrite !Exists_cons, Exists_nil. cbn. rewrite bool_decide_eq_true. naive_solver.
Qed.

(** Draining: one queued close becomes a callback. *)
Lemma close_inv_drain s s' k ts :
  drainCloses s = Some (s', k) -> close_inv s (TDrainCloses :: ts) -> close_inv s' (k ++ ts).
Proof.
  unfold drainCloses, goes. intros H HI. destruct (hasHandler s) eqn:Hh; cbn in H.
  - destruct (closeQ s) as [|[r err] q] eqn:Hq; injection H as <- <-.
    + by eapply (close_inv_same s s TDrainCloses []).
    + eapply (close_inv_same s _ TDrainCloses); try done; [|by repeat constructor].
      intros r'. change (count r' (omap closed_ref (trace s ++ [OnClose r err])) + count r' q.*1 + 0 =
        count r' (omap closed_ref (trace s)) + count r' (closeQ s).*1 + 0)%nat.
      rewrite omap_app, count_app, Hq. change (omap closed_ref [OnClose r err]) with [r].
      change (((r, err) :: q).*1) with ([r] ++ q.*1). rewrite count_app. lia.
  - simplify_eq. destruct HI as [H1 H2 H3 H4 H5]. inversion H1; subst.
    assert (HE : forall r, Exists (fun t => delivering r t = true) (TDrainCloses :: ts) <-> Exists (fun t => delivering r t = true) ts).
    { intros r. rewrite Exists_cons. cbn. naive_solver. }
    constructor; cbn; [done|..].
    + intros Hh'. change (hasHandler s = true) in Hh'. congruence.
    + exact H3.
    + intros r Hr. rewrite <- HE. exact (H4 r Hr).
    + intros r Hr. rewrite <- HE in Hr. exact (H5 r Hr).
Qed.

(** A new stream starts open. *)
Lemma obj_fresh {T} (p : stream -> T) l st r : p st = p (newStream 0 false 0 0) -> p (obj (l ++ [st]) r) = p (obj l r).
Proof.
  intros Hp. unfold obj. destruct (decide (r < length l)%nat) as [?|Hge]; [by rewrite lookup_app_l|].
  rewrite (lookup_ge_None_2 l r) by lia. rewrite lookup_app_r by lia.
  destruct (r - length l)%nat as [|n] eqn:E; cbn; [done|]. done.
Qed.

Lemma flags_opened i meta s r : close_flags r (opened i meta s) = close_flags r s.
Proof. unfold close_flags, get, opened. cbn. f_equal; by apply (obj_fresh _ (objects s)). Qed.

Lemma flags_admitted i id delta s r : close_flags r (admitted i id delta s) = close_flags r s.
Proof. unfold close_flags, get, admitted. cbn. f_equal; by apply (obj_fresh _ (objects s)). Qed.

Lemma close_inv_exec i t s s' k ts :
  exec i t s = Some (s', k) -> refs_ok s (t :: ts) -> close_inv s (t :: ts) -> close_inv s' (k ++ ts).
Proof.
  intros H [_ Hr] HI. inversion Hr as [|? ? [Hv _] _]; subst.
  destruct (quiet_close t) eqn:Hq.
  { pose proof (quiet_close_view _ _ _ _ _ H Hq) as Hvw.
    apply (close_inv_same s s' t k ts); [by apply close_view_flags|intros; by apply close_view_closings
      |by eapply exec_handler|intros r; destruct t; done|by eapply exec_no_close|done]. }
  pose proof (exec_handler _ _ _ _ _ H) as Hh.
  destruct t; try discriminate Hq; cbn [exec] in H; try (apply valid_of in Hv).
  - apply acceptPublish_cases in H as [(_ & -> & ->)|[(_ & _ & err & E & ->)|(_ & _ & err & E & ->)]].
    + refine (close_inv_same s _ _ _ ts _ _ Hh _ _ HI); try done; by repeat constructor.
    + pose proof (view_send (v := close_view) _ _ _ _ _ _ _ E) as Hvw.
      refine (close_inv_same s _ _ _ ts _ _ Hh _ _ HI); [by apply close_view_flags|intros; by apply close_view_closings|done|by repeat constructor].
    + pose proof (view_send (v := close_view) _ _ _ _ _ _ _ E) as Hvw.
      refine (close_inv_same s _ _ _ ts _ _ Hh _ _ HI); [| |done|].
      * intros r. rewrite (close_view_flags _ _ Hvw). apply flags_admitted.
      * intros r. by rewrite (close_view_closings _ _ _ Hvw).
      * destruct err; by repeat constructor.
  - by eapply close_inv_drain.
  - exfalso. destruct HI as [H1 _ _ _ _]. inversion H1; subst. cbn in *. congruence.
  - by eapply close_inv_finish.
  - by eapply close_inv_deliver.
  - by eapply close_inv_queue.
  - exact (close_inv_reset r err _ s s' k ts Hv (or_introl eq_refl) H HI).
  - exact (close_inv_reset r err _ s s' k ts Hv (or_intror eq_refl) H HI).
  - apply open_cases in H as [[-> [e ->]]|(_ & _ & _ & err & E & ->)].
    + refine (close_inv_same s _ _ _ ts _ _ Hh _ _ HI); try done; by repeat constructor.
    + pose proof (view_flush (v := close_view) _ _ _ E) as Hvw.
      refine (close_inv_same s _ _ _ ts _ _ Hh _ _ HI); [| |done|].
      * intros r. rewrite (close_view_flags _ _ Hvw). apply flags_opened.
      * intros r. by rewrite (close_view_closings _ _ _ Hvw).
      * destruct err; by repeat constructor.
Qed.

Lemma close_inv_perm s ts ts' : ts ≡ₚ ts' -> close_inv s ts -> close_inv s ts'.
Proof.
  intros E [H1 H2 H3 H4 H5].
  assert (HE : forall r, Exists (fun t => delivering r t = true) ts' <-> Exists (fun t => delivering r t = true) ts) by (intros; by rewrite E).
  constructor.
  - by rewrite <- E.
  - intros Hh r. rewrite <- H2 by done. unfold closings. by rewrite (tcount_perm _ _ _ E).
  - done.
  - intros r Hr. rewrite HE. auto.
  - intros r Hr. rewrite HE in Hr. auto.
Qed.

Lemma entry_quiet s t : entry s t = true -> no_close t = true.
Proof. unfold entry. by destruct t. Qed.

Lemma close_inv_reachable m : mreachable m -> refs_ok (sess m) (todos m) /\ close_inv (sess m) (todos m).
Proof.
  intros (c & h & cl & vs & now & Hm).
  refine (refs_induction (fun _ _ => True) close_inv _ _ _ _ _ _ _ _ _ _ _ (reaches_all _ _ Hm) _).
  - done.
  - apply close_inv_perm.
  - intros s ts bytes [H1 H2 H3 H4 H5]. by constructor.
  - intros s ts t Ht HI. apply entry_quiet in Ht.
    assert (HE : forall r, Exists (fun t => delivering r t = true) (t :: ts) <-> Exists (fun t => delivering r t = true) ts).
    { intros r. rewrite Exists_cons. destruct t; cbn in *; naive_solver. }
    destruct HI as [H1 H2 H3 H4 H5]. constructor; [|..].
    + constructor; [|done]. by destruct t.
    + intros Hh r. rewrite <- H2 by done. unfold closings. rewrite tcount_cons. destruct t; cbn in *; done.
    + done.
    + intros r Hr. rewrite HE. auto.
    + intros r Hr. rewrite HE in Hr. auto.
  - intros i t s s' k ts He _ Hr HI. by eapply close_inv_exec.
  - assert (Hg : forall r, get r (rearmTimer now (newSession (resolve c) h cl vs now)) = newStream 0 false 0 0) by done.
    constructor; [done|intros _ r; by rewrite Hg|intros r; by rewrite Hg|intros r; by rewrite Hg|intros r E; by inversion E].
Qed.

(** C8. under every interleaving of the transport's turns with application
    goroutines, a stream's OnClose callback runs at most once; and once no
    goroutine has anything left to run and the close queue is empty, it ran
    exactly once for every closed stream and never for an open one. *)
Theorem close_exactly_once m r :
  mreachable m -> hasHandler (sess m) = true ->
  (count r (omap closed_ref (trace (sess m))) <= 1)%nat /\
  (todos m = [] -> closeQ (sess m) = [] ->
   count r (omap closed_ref (trace (sess m))) = b2n (closedLocal (get r (sess m)))).
Proof.
  intros Hm Hh. apply close_inv_reachable in Hm as [_ [_ H2 H3 H4 _]]. specialize (H2 Hh r). unfold closings in H2. split.
  - destruct (closeDelivered (get r (sess m))); cbn in H2; lia.
  - intros E1 E2. rewrite E1, E2 in H2. rewrite E1 in H4. cbn in H2.
    assert (E : closedLocal (get r (sess m)) = closeDelivered (get r (sess m))).
    { destruct (closeDelivered (get r (sess m))) eqn:Ed; [auto|].
      destruct (closedLocal (get r (sess m))) eqn:Ec; [|done]. destruct (H4 r Ec) as [|X]; [congruence|by inversion X]. }
    rewrite E. lia.
Qed.

(** Two goroutines abort a stream the application opened while the transport
    goes away under it; all three race to close it. *)
Definition racing_closes : list move :=
  let i := MkInput 5 None 0 in
  [Call (TOpen []); RunProc 0 i; RunProc 0 i; RunProc 0 i;
   Call (TAbort 0 (Foreign 1)); Call (TAbort 0 (Foreign 2)); Turn (TOnTransportClose None);
   RunProc 1 i; RunLoop i; RunProc 2 i; RunProc 2 i; RunProc 1 i; RunProc 1 i; RunProc 2 i; RunProc 2 i; RunProc 1 i]
  ++ RunLoop i :: repeat (RunProc 2 i) 5 ++ [RunProc 1 i] ++ repeat (RunProc 0 i) 5.

Definition racing_machine : option machine :=
  sched racing_closes (start (resolve (MkConfig true 0 0 0 0 0 0 0 0 0 0 0)) (MkHooks false false false false false) true [] 0).

Lemma close_exactly_once_witness :
  exists m, racing_machine = Some m /\ hasHandler (sess m) = true /\ todos m = [] /\ closeQ (sess m) = [] /\
  count 0 (omap closed_ref (trace (sess m))) = 1%nat.
Proof.
  destruct racing_machine as [m|] eqn:E; [|exfalso; vm_compute in E; discriminate E].
  assert (Hh : hasHandler (sess m) = true) by (vm_compute in E; injection E as <-; reflexivity).
  assert (Ht : todos m = []) by (vm_compute in E; injection E as <-; reflexivity).
  assert (Hq : closeQ (sess m) = []) by (vm_compute in E; injection E as <-; reflexivity).
  assert (Hc : closedLocal (get 0 (sess m)) = true) by (vm_compute in E; injection E as <-; reflexivity).
  exists m. repeat split; try assumption.
  destruct (close_exactly_once m 0 (sched_reachable _ _ _ _ _ _ _ E) Hh) as [_ H]. rewrite (H Ht Hq), Hc. reflexivity.
Defined.
