(* ===== verification/MuxBudget.v ===== *)
(** * umux: the session's receive budget

    pendingBytes is exactly the payload the streams hold unread plus what
    goroutines reserved or are about to give back, whatever the interleaving;
    a session that stopped parsing is over its low-water mark, and the release
    that takes it there wakes the transport. *)

From S2P Require Import Prelude Update MuxFrame MuxWindow MuxTypes MuxFlush MuxSession MuxFacts MuxRefs MuxView MuxClose.
Local Open Scope Z_scope.

(** The payload one section holds outside every queue. *)
Definition in_flight (t : todo) : Z :=
  match t with
  | TReleaseInbound n => n
  | TPushLocked _ p _ _ _ => Z.of_nat (length p)
  | _ => 0
  end.

Definition unread_bytes (st : stream) : Z := Z.of_nat (length (sin st)).
Definition unread_total (s : session) : Z := zsum (unread_bytes <$> objects s).
Definition flight_total (ts : list todo) : Z := zsum (in_flight <$> ts).

Definition budget_view (s : session) : Z * bool * Z := (pendingBytes s, readHeld s, unread_total s).

#[export] Instance budget_view_View : View budget_view.
Proof.
  refine {| keeps f := forall st, sin (f st) = sin st; silent _ := True |}.
  - intros s s' E. unfold budget_view, unread_total.
    rewrite (core_field pendingBytes _ _ (fun _ => eq_refl) E), (core_field readHeld _ _ (fun _ => eq_refl) E).
    by rewrite (objects_core unread_bytes _ _ (fun _ => eq_refl) E).
  - intros r f s Hf. unfold budget_view, unread_total, upd. cbn. f_equal. f_equal. apply objects_upd.
    intros st. unfold unread_bytes. by rewrite Hf.
  - done.
Defined.

Definition quiet_budget (t : todo) : bool :=
  match t with
  | TPushData _ _ _ _ _ | TPushLocked _ _ _ _ _ | TReleaseInbound _ | TRead _ _ | TDiscard _ _ | TWriteToDone _ _ _
  | TResetLocal _ _ | TResetRemote _ _ | TReadHeld | TLoopEnd | TOnTransportClose _ => false
  | _ => true
  end.

Lemma budget_visit now a e : budget_view (ss (timer_visit now a e)) = budget_view (ss a).
Proof. unfold timer_visit. repeat case_match; cbn [ss]; view_chain. Qed.

Lemma budget_keepalive now s d s' : keepalive now s = (d, s') -> budget_view s' = budget_view s.
Proof. unfold keepalive. intros H. repeat case_match; injection H as _ <-; view_chain. Qed.

Lemma unread_fresh l st : sin st = [] -> zsum (unread_bytes <$> (l ++ [st])) = zsum (unread_bytes <$> l).
Proof. intros H. rewrite fmap_app, zsum_app. unfold unread_bytes at 2. cbn [fmap list_fmap]. rewrite H, zsum_cons, zsum_nil. cbn. lia. Qed.

Lemma budget_opened i meta s : budget_view (opened i meta s) = budget_view s.
Proof.
  change (budget_view (opened i meta s)) with (pendingBytes s, readHeld s, zsum (unread_bytes <$> (objects s ++ [opening_stream i s]))).
  by rewrite unread_fresh.
Qed.

Lemma budget_admitted i id delta s : budget_view (admitted i id delta s) = budget_view s.
Proof.
  change (budget_view (admitted i id delta s)) with
    (pendingBytes s, readHeld s, zsum (unread_bytes <$> (objects s ++ [accepted_stream id delta (now i) s]))).
  by rewrite unread_fresh.
Qed.

Lemma quiet_budget_view i t s s' k : exec i t s = Some (s', k) -> quiet_budget t = true -> budget_view s' = budget_view s.
Proof.
  intros H Hq. destruct t; try discriminate Hq; cbn [exec] in H;
    try (apply (view_scan (v := budget_view) _ _ _ _ (budget_visit _) (budget_keepalive _) H));
    try (by eapply (view_open (v := budget_view)); [apply budget_opened|]);
    try (by eapply (view_accept (v := budget_view)); [apply budget_admitted|]);
    section_cases H; view_chain.
Qed.

(** ** Accounting *)

Definition bytes_held (s : session) (ts : list todo) : Z := unread_total s + flight_total ts.

(** The payload in memory is far below what an int64 counts. *)
Definition fits (s : session) (ts : list todo) : Prop := bytes_held s ts <= maxInt.

Lemma zsum_perm a b : a ≡ₚ b -> zsum a = zsum b.
Proof. unfold zsum. induction 1; cbn; lia. Qed.

Lemma zsum_nonneg l : Forall (fun z => 0 <= z) l -> 0 <= zsum l.
Proof. induction 1 as [|z l Hz _ IH]; [done|]. rewrite zsum_cons. lia. Qed.

Lemma flight_app a b : flight_total (a ++ b) = flight_total a + flight_total b.
Proof. unfold flight_total. by rewrite fmap_app, zsum_app. Qed.
Lemma flight_cons t l : flight_total (t :: l) = in_flight t + flight_total l.
Proof. unfold flight_total. cbn [fmap list_fmap]. by rewrite zsum_cons. Qed.
Lemma flight_nil : flight_total [] = 0.
Proof. done. Qed.
Lemma flight_perm a b : a ≡ₚ b -> flight_total a = flight_total b.
Proof. intros E. apply zsum_perm. by rewrite E. Qed.
Lemma flight_zero l : Forall (fun t => in_flight t = 0) l -> flight_total l = 0.
Proof. induction 1 as [|t l Ht _ IH]; [done|]. rewrite flight_cons, Ht, IH. done. Qed.

Lemma unread_total_nonneg s : 0 <= unread_total s.
Proof. apply zsum_nonneg, Forall_fmap, Forall_true. intros st. unfold compose, unread_bytes. lia. Qed.

(** One object's queue replaced. *)
Lemma unread_upd r f s : valid r s ->
  unread_total (upd r f s) = unread_total s - unread_bytes (get r s) + unread_bytes (f (get r s)).
Proof.
  intros Hv. unfold unread_total, upd, get. cbn [objects over objects_field].
  destruct (lookup_lt_is_Some_2 (objects s) r Hv) as [st E]. unfold obj. rewrite E. cbn.
  apply list_elem_of_split_length in E as (l1 & l2 & -> & ->).
  rewrite <- (Nat.add_0_r (length l1)), alter_app_r. change (alter f 0%nat (st :: l2)) with (f st :: l2).
  rewrite !fmap_app, !zsum_app. cbn [fmap list_fmap]. rewrite !zsum_cons. lia.
Qed.

Lemma exec_no_flight i t s s' k : exec i t s = Some (s', k) -> quiet_budget t = true ->
  in_flight t = 0 /\ Forall (fun t => in_flight t = 0) k.
Proof.
  intros H Hq. split; [by destruct t|].
  destruct t; try discriminate Hq; cbn [exec] in H; section_todos H; follows; done.
Qed.

Lemma lowWater_le c : 0 < WindowSize c <= maxInt -> 0 < SessionWindow c <= maxInt ->
  0 <= lowWater c <= SessionWindow c.
Proof.
  intros Hw Hs. unfold lowWater. rewrite int64_id by (unfold is_int64, maxInt in *; lia).
  pose proof (Z.quot_pos (SessionWindow c) 2). pose proof (Z.quot_lt (SessionWindow c) 2).
  case_match; lia.
Qed.

Section Accounting.
Context (c : Config) (Hwin : 0 < WindowSize c <= maxInt) (Hsess : 0 < SessionWindow c <= maxInt).

Record budget_inv (s : session) (ts : list todo) : Prop := {
  bi_cfg : cfg s = c;
  bi_flight : Forall (fun t => 0 <= in_flight t) ts;
  bi_exact : pendingBytes s = bytes_held s ts;
  bi_held : readHeld s = true -> lowWater c < pendingBytes s
}.

Lemma flight_nonneg ts : Forall (fun t => 0 <= in_flight t) ts -> 0 <= flight_total ts.
Proof. intros H. by apply zsum_nonneg, Forall_fmap. Qed.

Ltac flights := repeat (apply Forall_cons_2; [cbn; lia|]); apply Forall_nil_2.

(** A section that moves payload between a queue and its own hands. *)
Lemma budget_move s s' t k ts :
  cfg s' = cfg s -> pendingBytes s' = pendingBytes s -> (readHeld s' = true -> readHeld s = true) ->
  Forall (fun t => 0 <= in_flight t) k ->
  unread_total s' + flight_total k = unread_total s + in_flight t ->
  budget_inv s (t :: ts) -> budget_inv s' (k ++ ts).
Proof.
  intros Hc Hp Hr Hk He [H1 H2 H3 H4]. inversion H2; subst. constructor; [congruence|by apply Forall_app|..].
  - rewrite Hp, H3. unfold bytes_held. rewrite flight_app, flight_cons. lia.
  - rewrite Hp. auto.
Qed.

Lemma budget_release n s s' k ts :
  exec (MkInput 0 None 0) (TReleaseInbound n) s = Some (s', k) -> fits s (TReleaseInbound n :: ts) ->
  budget_inv s (TReleaseInbound n :: ts) -> budget_inv s' (k ++ ts).
Proof.
  intros H Hf [H1 H2 H3 H4]. inversion H2 as [|? ? Hn Hts]; subst. cbn in Hn.
  cbn [exec] in H. unfold releaseInbound in H. unfold bytes_held in H3. unfold fits, bytes_held in Hf. rewrite flight_cons in *. cbn [in_flight] in *.
  pose proof (unread_total_nonneg s). pose proof (flight_nonneg _ Hts).
  rewrite int64_id in H by (unfold is_int64, maxInt in *; lia).
  destruct (Z.ltb_spec (pendingBytes s - n) 0); [lia|]. cbn [readHeld over pendingBytes_field cfg] in H.
  assert (Hx : pendingBytes s - n = unread_total s + flight_total ts) by lia.
  destruct (readHeld s) eqn:Hr; cbn [andb] in H.
  - destruct (Z.leb_spec (pendingBytes s - n) (lowWater (cfg s))) as [Hle|Hgt]; unfold goes in H; injection H as <- <-.
    + constructor; [done|apply Forall_app; split; [by repeat constructor|done]|exact Hx|done].
    + rewrite H1 in Hgt. constructor; [done|done|exact Hx|intros _; exact Hgt].
  - unfold goes in H. injection H as <- <-. constructor; [done|done|exact Hx|].
    intros E. change (readHeld s = true) in E. congruence.
Qed.

Lemma exec_cfg i t s s' k : exec i t s = Some (s', k) -> cfg s' = cfg s.
Proof. intros H. apply exec_params in H. unfold params in H. congruence. Qed.

Lemma budget_take r n s s' grant settle k t ts rest :
  valid r s -> take_in r n s = (grant, settle, s') -> (n <= length (sin (get r s)))%nat ->
  in_flight t = 0 -> Forall (fun t => in_flight t = 0) rest ->
  k = TReleaseInbound (Z.of_nat n) :: rest -> budget_inv s (t :: ts) -> budget_inv s' (k ++ ts).
Proof.
  intros Hv H Hn Ht Hrest -> HI. unfold take_in in H. destruct (consume _ _) as [g w]. injection H as <- <- <-.
  eapply (budget_move s); try done.
  - constructor; [cbn; lia|]. eapply Forall_impl; [exact Hrest|]. cbn. lia.
  - rewrite unread_upd by done. rewrite flight_cons, (flight_zero _ Hrest), Ht. cbn [in_flight].
    unfold unread_bytes. cbn. rewrite length_drop. lia.
Qed.

(** A section that only decides whether parsing stays held. *)
Lemma budget_hold s s' t k ts :
  cfg s' = cfg s -> pendingBytes s' = pendingBytes s -> unread_total s' = unread_total s -> in_flight t = 0 ->
  Forall (fun t => in_flight t = 0) k -> (readHeld s' = true -> lowWater c < pendingBytes s') ->
  budget_inv s (t :: ts) -> budget_inv s' (k ++ ts).
Proof.
  intros Hc Hp Hu Ht Hk Hh [H1 H2 H3 H4]. inversion H2; subst. constructor; [congruence| | |done].
  - apply Forall_app. split; [|done]. eapply Forall_impl; [exact Hk|]. cbn. lia.
  - rewrite Hp, H3. unfold bytes_held. rewrite flight_app, flight_cons, (flight_zero _ Hk). lia.
Qed.

Lemma transport_close_budget err s s' k ts :
  onTransportClose err s = Some (s', k) -> budget_inv s (TOnTransportClose err :: ts) -> budget_inv s' (k ++ ts).
Proof.
  intros H HI. unfold onTransportClose, goes in H. destruct (closed s).
  - injection H as <- <-. apply (budget_hold s s (TOnTransportClose err)); try done. apply (bi_held _ _ HI).
  - set (s0 := finishDrainLocked _ _) in H.
    assert (E0 : cfg s0 = cfg s /\ budget_view s0 = budget_view s) by (subst s0; unfold finishDrainLocked; by case_match).
    destruct E0 as [E0 E1]. clearbody s0.
    set (s1 := s0 <| finFlushed := [] |> <| drained := [] |> <| wakeQ := [] |> <| control := [] |> <| pending := [] |>
      <| readHeld := false |> <| flushReq := false |>) in H.
    pose (s2 := (foldr (fun e => dropOutLocked e.2) s1 (table s)) <| streams := ∅ |> <| openWait := ∅ |>).
    assert (E2 : budget_view s2 = budget_view s1) by (subst s2; view_chain).
    assert (E3 : params s2 = params s1) by (subst s2; view_chain).
    change (Some (s2, ((fun w => TTrySend w.2 (Some (default EOF err))) <$> map_to_list (openWait s)) ++
      ((fun e => TResetRemote e.2 (default EOF err)) <$> table s) ++ [TDrainCloses]) = Some (s', k)) in H.
    clearbody s2. injection H as <- <-. unfold budget_view in E1, E2. unfold params in E3. injection E1 as P1 P2 P3. injection E2 as Q1 Q2 Q3. injection E3 as R1 R2 R3.
    apply (budget_hold s _ (TOnTransportClose err)); [by rewrite R1|by rewrite Q1|by rewrite Q3|done|follows; done| |done].
    by rewrite Q2.
Qed.

Lemma budget_reserve r p fin by_ n s ts :
  fits (match p with [] => s | _ => reserveInbound (Z.of_nat (length p)) s end) ([TPushLocked r p fin by_ n] ++ ts) ->
  budget_inv s (TPushData r p fin by_ n :: ts) ->
  budget_inv (match p with [] => s | _ => reserveInbound (Z.of_nat (length p)) s end) ([TPushLocked r p fin by_ n] ++ ts).
Proof.
  intros Hf [H1 H2 H3 H4]. inversion H2; subst. unfold bytes_held in *. rewrite flight_cons in H3. cbn [in_flight] in H3.
  pose proof (unread_total_nonneg s). pose proof (flight_nonneg ts ltac:(done)).
  assert (E : pendingBytes (match p with [] => s | _ => reserveInbound (Z.of_nat (length p)) s end) = pendingBytes s + Z.of_nat (length p)).
  { unfold fits, bytes_held in Hf. cbn [app] in Hf. rewrite flight_cons in Hf. cbn [in_flight] in Hf.
    destruct p as [|x p]; [cbn; lia|]. unfold reserveInbound in *. cbn [pendingBytes over pendingBytes_field].
    change (unread_total _) with (unread_total s) in Hf. rewrite int64_id; [done|]. unfold is_int64, maxInt in *. lia. }
  constructor; [by destruct p|constructor; [cbn; lia|done]|..].
  - rewrite E. unfold bytes_held. cbn [app]. rewrite flight_cons. cbn [in_flight].
    replace (unread_total _) with (unread_total s) by (by destruct p). lia.
  - rewrite E. intros Hh. assert (Hs : readHeld s = true) by (by destruct p). specialize (H4 Hs). lia.
Qed.

Lemma budget_push now r p fin by_ n s s' k ts :
  valid r s -> pushLocked now r p fin by_ n s = Some (s', k) -> budget_inv s (TPushLocked r p fin by_ n :: ts) -> budget_inv s' (k ++ ts).
Proof.
  intros Hv H HI. unfold pushLocked, goes in H. destruct (closedLocal (get r s)).
  { injection H as <- <-. apply (budget_move s s (TPushLocked r p fin by_ n)); try done.
    - flights.
    - rewrite !flight_cons, flight_nil. cbn [in_flight]. lia. }
  destruct (if 0 <? _ then _ else _) as [werr w]. set (s1 := upd r (fun st => st <| recvWin := w |>) s) in *.
  assert (E1 : budget_view s1 = budget_view s) by (by apply view_upd).
  assert (P3 : unread_total s1 = unread_total s) by (unfold budget_view in E1; congruence).
  assert (Hv1 : valid r s1) by (unfold s1, upd; cbn; by rewrite length_alter).
  assert (Hu : unread_bytes (get r s1) = unread_bytes (get r s)) by (by apply obj_alter_field).
  destruct werr as [e|].
  { injection H as <- <-. apply (budget_move s s1 (TPushLocked r p fin by_ n)); try done.
    - flights.
    - rewrite !flight_cons, flight_nil, P3. cbn [in_flight]. lia. }
  set (s2 := upd r (fun st => st <| sin ::= (fun q => q ++ p) |>) s1) in *.
  assert (E2 : unread_total s2 = unread_total s + Z.of_nat (length p)).
  { unfold s2. rewrite unread_upd by done. rewrite P3. unfold unread_bytes in *. cbn. rewrite length_app. lia. }
  assert (E3 : forall f, (forall st, sin (f st) = sin st) -> unread_total (upd r f s2) = unread_total s2).
  { intros f Hfs. pose proof (view_upd (v := budget_view) r f s2 Hfs) as E. unfold budget_view in E. congruence. }
  destruct (fin && _); injection H as <- <-;
    (eapply (budget_move s _ (TPushLocked r p fin by_ n)); [done|done|done|repeat case_match; flights| |done]);
    rewrite ?E3 by done; rewrite E2; rewrite flight_zero by (repeat case_match; by repeat constructor); cbn [in_flight]; lia.
Qed.

Lemma budget_reset r err t s s' k ts :
  valid r s -> in_flight t = 0 -> reset r err s = Some (s', k) -> budget_inv s (t :: ts) -> budget_inv s' (k ++ ts).
Proof.
  intros Hv Ht H HI. unfold reset, goes in H. destruct (closedLocal (get r s)); injection H as <- <-.
  - apply (budget_move s s t []); try done. rewrite Ht, flight_nil. lia.
  - apply (budget_move s _ t); try done; [flights|].
    rewrite unread_upd by done. rewrite !flight_cons, flight_nil, Ht. unfold unread_bytes. cbn [in_flight]. change (length (sin _)) with 0%nat at 2. lia.
Qed.

Lemma budget_read r k0 s s' k ts :
  valid r s -> Read r k0 s = Some (s', k) -> budget_inv s (TRead r k0 :: ts) -> budget_inv s' (k ++ ts).
Proof.
  intros Hv H HI. unfold Read, goes in H.
  assert (Hsame : forall l, Forall (fun t => in_flight t = 0) l -> budget_inv s (l ++ ts)).
  { intros l Hl. apply (budget_hold s s (TRead r k0)); try done. apply (bi_held _ _ HI). }
  destruct (bool_decide (k0 = 0%nat)); [injection H as <- <-; apply Hsame; by repeat constructor|].
  destruct (negb _).
  - destruct (take_in r _ s) as [[grant settle] s1] eqn:E. injection H as <- <-.
    refine (budget_take r _ s s1 grant settle _ _ ts _ Hv E _ _ _ eq_refl HI); [lia|done|]. follows; done.
  - repeat case_match; injection H as <- <-; apply Hsame; by repeat constructor.
Qed.

Lemma budget_discard r n rest t s s' k ts :
  valid r s -> discard_todos r n rest s = Some (s', k) -> in_flight t = 0 -> Forall (fun t => in_flight t = 0) rest ->
  budget_inv s (t :: ts) -> budget_inv s' (k ++ ts).
Proof.
  intros Hv H Ht Hrest HI. unfold discard_todos, goes in H.
  set (n' := if (n <? 0) || _ then _ else n) in H. assert (Hn : 0 <= n' <= Z.of_nat (length (sin (get r s)))).
  { subst n'. destruct (Z.ltb_spec n 0), (Z.ltb_spec (Z.of_nat (length (sin (get r s)))) n); cbn; lia. }
  destruct (take_in r _ s) as [[grant settle] s1] eqn:E. injection H as <- <-.
  eapply budget_take; [exact Hv|exact E|lia|exact Ht| |rewrite Z2Nat.id by lia; reflexivity|exact HI].
  follows; try done.
Qed.

Lemma budget_exec i t s s' k ts :
  exec i t s = Some (s', k) -> fits s (t :: ts) -> fits s' (k ++ ts) -> refs_ok s (t :: ts) ->
  budget_inv s (t :: ts) -> budget_inv s' (k ++ ts).
Proof.
  intros H Hf Hf' [_ Hr] HI. inversion Hr as [|? ? [Hv _] _]; subst. pose proof (exec_cfg _ _ _ _ _ H) as Hc.
  destruct (quiet_budget t) eqn:Hq.
  { pose proof (quiet_budget_view _ _ _ _ _ H Hq) as Hvw. destruct (exec_no_flight _ _ _ _ _ H Hq) as [Ht Hk].
    unfold budget_view in Hvw. injection Hvw as E1 E2 E3. apply (budget_move s s' t k ts Hc E1); [by rewrite E2|..|done].
    - eapply Forall_impl; [exact Hk|]. cbn. lia.
    - rewrite E3, (flight_zero _ Hk), Ht. lia. }
  destruct t; try discriminate Hq; cbn [exec] in H; try apply valid_of in Hv.
  - unfold onReadHeld, heldReads, goes in H.
    destruct (readHeld s) eqn:Hh; cbn [negb] in H; [destruct (Z.leb_spec (pendingBytes s) (lowWater (cfg s)))|]; cbn in H;
      rewrite ?Hh in H; injection H as <- <-; apply (budget_hold s _ TReadHeld); try done; try (by repeat constructor);
      [intros _; by rewrite <- (bi_cfg _ _ HI)|apply (bi_held _ _ HI)].
  - unfold loopEnd, exhaustedBudget, goes in H. destruct (Z.leb_spec (pendingBytes s) (SessionWindow (cfg s))); injection H as <- <-.
    + apply (budget_hold s s TLoopEnd); try done; [by repeat constructor|apply (bi_held _ _ HI)].
    + apply (budget_hold s _ TLoopEnd); try done; [by repeat constructor|]. intros _. pose proof (lowWater_le c Hwin Hsess).
      rewrite (bi_cfg _ _ HI) in *. change (lowWater c < pendingBytes s). lia.
  - apply (transport_close_budget err s s' k ts H HI).
  - unfold pushData, goes in H. injection H as <- <-. by apply budget_reserve.
  - by eapply budget_push.
  - by eapply budget_release.
  - by apply (budget_reset r err (TResetLocal r err) s).
  - by apply (budget_reset r err (TResetRemote r err) s).
  - by eapply budget_read.
  - unfold Discard in H. refine (budget_discard r _ _ _ s s' k ts Hv H _ _ HI); [done|by repeat constructor].
  - unfold writeToDone in H. destruct (bool_decide _).
    + unfold goes in H. injection H as <- <-. eapply (budget_hold s s _ _ _ eq_refl eq_refl eq_refl); [| | |exact HI]; [done|repeat case_match; by repeat constructor|apply (bi_held _ _ HI)].
    + refine (budget_discard r _ _ _ s s' k ts Hv H _ _ HI); [done|repeat case_match; by repeat constructor].
Qed.

Lemma budget_inv_reachable h cl vs now m :
  reaches fits (start c h cl vs now) m -> budget_inv (sess m) (todos m).
Proof.
  intros Hm.
  destruct (refs_induction fits (fun s ts => fits s ts /\ budget_inv s ts)) with (c := c) (h := h) (cl := cl) (vs := vs) (now := now) (m := m)
    as [_ [_ H]]; try done.
  - intros s ts ts' E. unfold fits, bytes_held. by rewrite (flight_perm _ _ E).
  - intros s ts ts' E [H0 [H1 H2 H3 H4]]. unfold fits, bytes_held in *. rewrite (flight_perm _ _ E) in *.
    split; [done|]. by constructor; [|rewrite <- E| |].
  - intros s ts bytes [H0 [H1 H2 H3 H4]]. by split.
  - intros s ts t Ht [H0 [H1 H2 H3 H4]].
    assert (E : in_flight t = 0) by (by destruct t). unfold fits, bytes_held in *.
    split; [by rewrite flight_cons, E|]. constructor; [done|constructor; [by rewrite E|done]| |done].
    unfold bytes_held. by rewrite flight_cons, E.
  - intros i t s s' k ts He HG Hr [H0 HI]. split; [done|]. by eapply budget_exec.
Qed.
End Accounting.

(** C20. whatever goroutines read, discard, reset and receive concurrently, the
    session's pendingBytes is exactly the payload its streams hold unread plus
    what goroutines carry between a queue and the counter (it neither leaks
    budget nor clamps at zero); a session that stopped parsing is over its
    low-water mark, so unread payload remains whose consumption resumes it. *)
Theorem receive_budget_exact c h cl vs now m :
  is_int64 (WindowSize (resolve c)) -> is_int64 (SessionWindow (resolve c)) ->
  reaches fits (start (resolve c) h cl vs now) m ->
  pendingBytes (sess m) = bytes_held (sess m) (todos m) /\
  (readHeld (sess m) = true -> lowWater (resolve c) < bytes_held (sess m) (todos m)).
Proof.
  intros Hw Hs Hm. destruct (resolve_ok c) as [_ Hw0 Hs0 _ _ _ _ _ _ _ _]. unfold is_int64 in *.
  assert (H0 : 0 < minWindow) by done.
  destruct (budget_inv_reachable (resolve c) ltac:(lia) ltac:(lia) h cl vs now m Hm) as [_ _ H3 H4].
  split; [done|]. intros Hr. rewrite <- H3. auto.
Qed.


(** A session with a budget of four bytes opens a stream and receives six. *)
Definition tiny_config : Config := MkConfig true 0 0 4 0 0 0 0 0 0 0 0.

Definition over_budget : list move :=
  let i := MkInput 5 None 100 in
  Call (TOpen []) :: repeat (RunProc 0 i) 3 ++
  [Arrive ([0;1;0;2;0;0;0;1;0;0;0;0] ++ [0;0;0;0;0;0;0;1;0;0;0;6] ++ [1;2;3;4;5;6]); Turn TOnRead] ++ repeat (RunLoop i) 23.

Definition fits_check (m : machine) : bool := bytes_held (sess m) (todos m) <=? maxInt.

Definition held_machine : option machine :=
  sched_within fits_check over_budget (start (resolve tiny_config) (MkHooks false false false false false) true [] 0).

Lemma receive_budget_exact_witness :
  exists m, held_machine = Some m /\ readHeld (sess m) = true /\ pendingBytes (sess m) = 6 /\
  lowWater (resolve tiny_config) < bytes_held (sess m) (todos m) /\ pendingBytes (sess m) = bytes_held (sess m) (todos m).
Proof.
  destruct held_machine as [m|] eqn:E; [|exfalso; vm_compute in E; discriminate E].
  assert (Hr : readHeld (sess m) = true) by (vm_compute in E; injection E as <-; reflexivity).
  assert (Hp : pendingBytes (sess m) = 6) by (vm_compute in E; injection E as <-; reflexivity).
  assert (H : reaches fits (start (resolve tiny_config) (MkHooks false false false false false) true [] 0) m).
  { refine (sched_within_reaches fits fits_check over_budget _ _ _ E). intros m0 H. by apply Z.leb_le in H. }
  destruct (receive_budget_exact tiny_config (MkHooks false false false false false) true [] 0 m) as [H1 H2].
  - vm_compute. split; discriminate.
  - vm_compute. split; discriminate.
  - exact H.
  - exists m. repeat split; try assumption. exact (H2 Hr).
Defined.

