(* ===== verification/MuxOrder.v ===== *)
(** * umux: what a stream's writes become on the wire

    The data frames the transport accepted for a stream carry, in order, a
    prefix of the bytes its writes took; its FIN comes at most once, after all
    of them.  Writers, closers, aborts and flushes run concurrently; the
    transport may refuse frames for overflow at any time. *)

From S2P Require Import Prelude Update MuxFrame MuxWindow MuxTypes MuxFlush MuxSession MuxFacts MuxRefs MuxView MuxPreserve MuxClose MuxBudget.
Local Open Scope Z_scope.

(** The frames accepted for stream object [r], in order. *)
Definition sent_of (r : nat) (l : list (option nat * wframe)) : list wframe :=
  omap (fun e => if decide (e.1 = Some r) then Some e.2 else None) l.

Definition payload_of (fs : list wframe) : list Z := concat (snd <$> fs).

(** A write of [r] still framing, and the sections that hold its write lock. *)
Definition framing (r : nat) (t : todo) : option (list Z) :=
  match t with TFrameData r' p _ _ _ => if decide (r = r') then Some p else None | _ => None end.
Definition writing (r : nat) (t : todo) : bool :=
  match t with TFrameData r' _ _ _ _ | TEnqueueFin r' => bool_decide (r = r') | _ => false end.
Definition progress (r : nat) (ts : list todo) : list Z := concat (omap (framing r) ts).

(** The part of a stream object that survives its leaving the table. *)
Definition lasting (st : stream) : Z * bool * bool * list wframe * list Z :=
  (sid st, wmu st, localFIN st, framed st, accepted st).

Definition is_live (r : nat) (s : session) : Prop := streams s !! sid (get r s) = Some r.

Definition is_data (id : Z) (f : wframe) : Prop := f = data_frame id f.2.

(** What was sent of [r]: data frames [d] from the front of those framed, then
    possibly its FIN. *)
Record ordered_at (s : session) (ts : list todo) (r : nat) (d rest : list wframe) (fin : bool) : Prop := {
  od_sent : sent_of r (sent (conn s)) = d ++ (if fin then [fin_frame (sid (get r s))] else []);
  od_framed : framed (get r s) = d ++ rest;
  od_data : Forall (is_data (sid (get r s))) (framed (get r s));
  od_prefix : payload_of (framed (get r s)) `prefix_of` accepted (get r s);
  od_fin : fin = true -> localFIN (get r s) = true /\ rest = [] /\ payload_of (framed (get r s)) = accepted (get r s);
  od_live : is_live r s ->
    rest = out (get r s) /\ fin = bool_decide (finState (get r s) = finSent) /\
    payload_of (framed (get r s)) ++ progress r ts = accepted (get r s) /\
    (finState (get r s) <> finNone -> localFIN (get r s) = true)
}.

Record ordered (s : session) (ts : list todo) : Prop := {
  or_stream : forall r, exists d rest fin, ordered_at s ts r d rest fin;
  or_lock : forall r, tcount (writing r) ts = b2n (wmu (get r s));
  or_framing : forall r, Exists (fun t => framing r t <> None) ts -> localFIN (get r s) = false;
  or_finishing : forall r, TEnqueueFin r ∈ ts -> localFIN (get r s) = true;
  or_verdicts : Forall (fun v => v = Accepts \/ v = Overflows) (verdicts (conn s))
}.

Definition keeps_order (s s' : session) : Prop := forall ts, ordered s ts -> ordered s' ts.

#[export] Instance keeps_order_preorder : PreOrder keeps_order.
Proof. split; [by intros s ts|]. intros a b c Hab Hbc ts H. auto. Qed.

(** Streams may leave the table; those that stay keep their queue. *)
Lemma order_shrink s s' :
  sent (conn s') = sent (conn s) -> verdicts (conn s') = verdicts (conn s) ->
  (forall r, lasting (get r s') = lasting (get r s)) ->
  (forall r, is_live r s' -> is_live r s /\ out (get r s') = out (get r s) /\ finState (get r s') = finState (get r s)) ->
  keeps_order s s'.
Proof.
  intros Hs Hv Hl Hk ts [H1 H2 H3 H4 H5].
  assert (Ei : forall r, sid (get r s') = sid (get r s)) by (intros r; specialize (Hl r); unfold lasting in Hl; congruence).
  assert (Ew : forall r, wmu (get r s') = wmu (get r s)) by (intros r; specialize (Hl r); unfold lasting in Hl; congruence).
  assert (Ef : forall r, localFIN (get r s') = localFIN (get r s)) by (intros r; specialize (Hl r); unfold lasting in Hl; congruence).
  assert (Er : forall r, framed (get r s') = framed (get r s)) by (intros r; specialize (Hl r); unfold lasting in Hl; congruence).
  assert (Ea : forall r, accepted (get r s') = accepted (get r s)) by (intros r; specialize (Hl r); unfold lasting in Hl; congruence).
  constructor.
  - intros r. destruct (H1 r) as (d & rest & fin & [A1 A2 AD A3 A4 A5]). exists d, rest, fin.
    constructor; rewrite ?Hs, ?Ei, ?Er, ?Ea, ?Ef; auto.
    intros Hr. destruct (Hk r Hr) as (Hr' & -> & ->). auto.
  - intros r. by rewrite Ew.
  - intros r. rewrite Ef. auto.
  - intros r. rewrite Ef. auto.
  - by rewrite Hv.
Qed.

(** ** Flushing keeps the order *)

Lemma sent_of_snoc r l o f : sent_of r (l ++ [(o, f)]) = sent_of r l ++ (if decide (o = Some r) then [f] else []).
Proof. unfold sent_of. rewrite omap_app. cbn. by case_decide. Qed.

Lemma payload_app a b : payload_of (a ++ b) = payload_of a ++ payload_of b.
Proof. unfold payload_of. by rewrite fmap_app, concat_app. Qed.

Lemma no_framing_progress r ts : ~ Exists (fun t => framing r t <> None) ts -> progress r ts = [].
Proof.
  intros H. unfold progress. induction ts as [|t ts IH]; [done|]. cbn.
  destruct (framing r t) eqn:E; [exfalso; apply H; constructor; congruence|].
  apply IH. intros Hx. apply H. by apply Exists_cons_tl.
Qed.

(** One write of the transport, for stream [o] or for the session. *)
Lemma order_write s s' o f ts :
  (forall r, lasting (get r s') = lasting (get r s)) -> streams s' = streams s ->
  (forall r, o <> Some r -> out (get r s') = out (get r s) /\ finState (get r s') = finState (get r s)) ->
  sent (conn s') = sent (conn s) ++ [(o, f)] -> verdicts (conn s') = tail (verdicts (conn s)) ->
  (forall r d rest fin, o = Some r -> ordered_at s ts r d rest fin -> exists d rest fin, ordered_at s' ts r d rest fin) ->
  ordered s ts -> ordered s' ts.
Proof.
  intros Hl Hm Hk Hs Hv Ho [H1 H2 H3 H4 H5].
  assert (E : forall r, lasting (get r s') = lasting (get r s) ->
    sid (get r s') = sid (get r s) /\ wmu (get r s') = wmu (get r s) /\ localFIN (get r s') = localFIN (get r s) /\
    framed (get r s') = framed (get r s) /\ accepted (get r s') = accepted (get r s)).
  { unfold lasting. intros r [= -> -> -> -> ->]. done. }
  constructor.
  - intros r. destruct (H1 r) as (d & rest & fin & HA). destruct (decide (o = Some r)) as [Eo|Ne]; [eauto|].
    destruct HA as [A1 A2 AD A3 A4 A5]. destruct (E r (Hl r)) as (Ei & Ew & Ef & Er & Ea). destruct (Hk r Ne) as [Ko Kf].
    exists d, rest, fin. constructor; rewrite ?Hs, ?sent_of_snoc, ?Ei, ?Er, ?Ea, ?Ef; auto.
    + rewrite decide_False by done. by rewrite app_nil_r.
    + unfold is_live. rewrite Hm, Ei, Ko, Kf. exact A5.
  - intros r. destruct (E r (Hl r)) as (_ & -> & _). auto.
  - intros r. destruct (E r (Hl r)) as (_ & _ & -> & _). auto.
  - intros r. destruct (E r (Hl r)) as (_ & _ & -> & _). auto.
  - rewrite Hv. by destruct H5.
Qed.

Lemma conn_write_cases o f c e c' : Forall (fun v => v = Accepts \/ v = Overflows) (verdicts c) -> conn_write o f c = (e, c') ->
  (e = None /\ sent c' = sent c ++ [(o, f)] /\ verdicts c' = tail (verdicts c)) \/
  (e = Some ErrOutboundOverflow /\ sent c' = sent c /\ verdicts c' = tail (verdicts c)).
Proof.
  unfold conn_write. intros Hv H. destruct (verdicts c) as [|v vs] eqn:E.
  - injection H as <- <-. left. cbn. by rewrite E.
  - inversion Hv as [|? ? [->| ->] Hvs]; subst; injection H as <- <-; cbn; rewrite E; auto.
Qed.

(** A refused write only uses up a verdict. *)
Lemma order_refused c s : sent c = sent (conn s) -> verdicts c = tail (verdicts (conn s)) -> keeps_order s (s <| conn := c |>).
Proof.
  intros Hs Hv ts H. assert (Hv' := or_verdicts _ _ H). destruct H as [H1 H2 H3 H4 _].
  constructor; try done.
  - intros r. destruct (H1 r) as (d & rest & fin & [A1 A2 AD A3 A4 A5]). exists d, rest, fin. constructor; try done.
    cbn. by rewrite Hs.
  - cbn. rewrite Hv. by destruct Hv'.
Qed.

Lemma lasting_upd r f s r' : (forall st, lasting (f st) = lasting st) -> lasting (get r' (upd r f s)) = lasting (get r' s).
Proof. intros. by apply obj_alter_field. Qed.

Ltac shrinks := apply order_shrink; [done|done|intros; try reflexivity; rewrite ?lasting_upd; done|].

(** An update that leaves a stream's lasting part and its queue alone. *)
Lemma order_upd r f s :
  (forall st, lasting (f st) = lasting st) -> (forall st, out (f st) = out st) -> (forall st, finState (f st) = finState st) ->
  keeps_order s (upd r f s).
Proof.
  intros Hl Ho Hf. apply order_shrink; try done.
  - intros. by apply lasting_upd.
  - intros r' H. assert (E : sid (get r' (upd r f s)) = sid (get r' s)).
    { pose proof (lasting_upd r f s r' Hl) as E. unfold lasting in E. congruence. }
    unfold is_live in *. rewrite E in H. split; [exact H|]. split; by apply obj_alter_field.
Qed.

Lemma order_over s s' :
  sent (conn s') = sent (conn s) -> verdicts (conn s') = verdicts (conn s) -> objects s' = objects s -> streams s' = streams s ->
  keeps_order s s'.
Proof.
  intros H1 H2 H3 H4. apply order_shrink; [done|done|..]; unfold is_live, get; rewrite H3, ?H4; done.
Qed.

Lemma order_pop r s : keeps_order s (pop_pending r s).
Proof. unfold pop_pending. etrans; [|by apply order_upd]. by apply order_over. Qed.

Lemma order_flush_control f s s' fl ts :
  flush_control f s = (s', fl) -> ordered s ts -> ordered s' ts.
Proof.
  unfold flush_control. intros H HO. destruct (conn_write None f (conn s)) as [e c] eqn:E.
  apply (conn_write_cases _ _ _ _ _ (or_verdicts _ _ HO)) in E as [(-> & Es & Ev)|(-> & Es & Ev)]; simplify_eq.
  - by apply (order_write s _ None f ts).
  - by apply (order_refused c s).
Qed.

Lemma order_flush_fin r id s s' fl ts :
  streams s !! id = Some r -> sid (get r s) = id -> valid r s -> out (get r s) = [] -> finState (get r s) = finQueued ->
  flush_fin r id s = (s', fl) -> ordered s ts -> ordered s' ts.
Proof.
  intros Hm Hid Hv Hout Hfin H HO. unfold flush_fin in H. destruct (conn_write (Some r) _ (conn s)) as [e c] eqn:E.
  apply (conn_write_cases _ _ _ _ _ (or_verdicts _ _ HO)) in E as [(-> & Es & Ev)|(-> & Es & Ev)]; simplify_eq;
    [|by apply (order_refused c s)].
  set (f := fun st : stream => st <| finState := finSent |>). set (g := fun st : stream => st <| queued := false |>).
  set (s1 := upd r f (pop_pending r (s <| conn := c |>))).
  assert (Hlast : forall r', lasting (get r' s1) = lasting (get r' s)).
  { intros r'. unfold s1. rewrite lasting_upd by done. unfold pop_pending. by rewrite lasting_upd. }
  assert (Ho1 : forall r', out (get r' s1) = out (get r' s)).
  { intros r'. unfold s1, pop_pending. etrans; [by apply obj_alter_field|by apply obj_alter_field]. }
  assert (Hf1 : finState (get r s1) = finSent).
  { unfold s1. rewrite get_upd, decide_True; [done|]. split; [done|]. unfold pop_pending, upd. cbn. by rewrite length_alter. }
  assert (Hf2 : forall r', r <> r' -> finState (get r' s1) = finState (get r' s)).
  { intros r' Hne. unfold s1. rewrite get_upd, decide_False by naive_solver. by apply obj_alter_field. }
  apply (order_write s (s1 <| finFlushed ::= (fun q => q ++ [r]) |>) (Some r) (fin_frame (sid (get r s))) ts); try done.
  - intros r' Hne. split; [by apply Ho1|]. apply Hf2. congruence.
  - intros r' d rest fin [= <-] [A1 A2 AD A3 A4 A5]. destruct A5 as (-> & B2 & B3 & B4); [done|].
    rewrite Hfin in B2. rewrite bool_decide_eq_false_2 in B2 by done. subst fin. rewrite app_nil_r in A1.
    assert (HF : localFIN (get r s) = true) by (apply B4; congruence).
    assert (HP : progress r ts = []).
    { apply no_framing_progress. intros HE. apply (or_framing _ _ HO) in HE. congruence. }
    rewrite HP, app_nil_r in B3. rewrite Hout in *.
    pose proof (Hlast r) as Hl. unfold lasting in Hl. injection Hl as Li Lw Lf Lr La.
    exists d, [], true. constructor; cbn [conn over conn_field].
    + change (sent (conn (s1 <| finFlushed ::= (fun q => q ++ [r]) |>))) with (sent c). rewrite Es, sent_of_snoc, decide_True by done.
      change (get r (s1 <| finFlushed ::= (fun q => q ++ [r]) |>)) with (get r s1). by rewrite A1, Li.
    + change (framed (get r s1) = d ++ []). by rewrite Lr, A2.
    + change (Forall (is_data (sid (get r s1))) (framed (get r s1))). by rewrite Lr, Li.
    + change (payload_of (framed (get r s1)) `prefix_of` accepted (get r s1)). by rewrite Lr, La.
    + intros _. change (localFIN (get r s1) = true /\ @nil wframe = [] /\ payload_of (framed (get r s1)) = accepted (get r s1)).
      by rewrite Lf, Lr, La.
    + intros _. change ([] = out (get r s1) /\ true = bool_decide (finState (get r s1) = finSent) /\
        payload_of (framed (get r s1)) ++ progress r ts = accepted (get r s1) /\ (finState (get r s1) <> finNone -> localFIN (get r s1) = true)).
      rewrite Ho1, Hout, Hf1, Lr, La, Lf, HP, app_nil_r. by rewrite bool_decide_eq_true_2.
Qed.

Lemma order_flush_data r id f rest s s' fl ts :
  streams s !! id = Some r -> sid (get r s) = id -> valid r s -> out (get r s) = f :: rest ->
  flush_data r id f rest s = (s', fl) -> ordered s ts -> ordered s' ts.
Proof.
  intros Hm Hid Hv Hout H HO. unfold flush_data in H. destruct (conn_write (Some r) f (conn s)) as [e c] eqn:E.
  apply (conn_write_cases _ _ _ _ _ (or_verdicts _ _ HO)) in E as [(-> & Es & Ev)|(-> & Es & Ev)];
    [|injection H as <- <-; by apply (order_refused c s)].
  set (s1 := upd r (fun st => st <| out := rest |>) (s <| conn := c |>)) in *.
  assert (Hlast : forall r', lasting (get r' s1) = lasting (get r' s)) by (intros r'; unfold s1; by rewrite lasting_upd).
  assert (Hf1 : forall r', finState (get r' s1) = finState (get r' s)) by (intros r'; by apply obj_alter_field).
  assert (Ho1 : out (get r s1) = rest) by (unfold s1; rewrite get_upd, decide_True by done; done).
  assert (Ho2 : forall r', r <> r' -> out (get r' s1) = out (get r' s)).
  { intros r' Hne. unfold s1. rewrite get_upd, decide_False by naive_solver. done. }
  assert (HO1 : ordered s1 ts).
  { apply (order_write s s1 (Some r) f ts); try done.
    - intros r' Hne. split; [|apply Hf1]. apply Ho2. congruence.
    - intros r' d rest' fin [= <-] [A1 A2 AD A3 A4 A5]. destruct A5 as (-> & B2 & B3 & B4); [unfold is_live; by rewrite Hid|].
      pose proof (Hlast r) as Hl. unfold lasting in Hl. injection Hl as Li Lw Lf Lr La.
      assert (fin = false) as ->.
      { destruct fin; [|done]. destruct A4 as (_ & E & _); [done|]. rewrite Hout in E. discriminate E. }
      rewrite app_nil_r in A1. exists (d ++ [f]), rest, false. constructor.
      + change (sent (conn s1)) with (sent c). by rewrite Es, sent_of_snoc, decide_True, A1, app_nil_r by done.
      + rewrite Lr, A2, Hout. by rewrite <- app_assoc.
      + by rewrite Lr, Li.
      + by rewrite Lr, La.
      + done.
      + intros _. rewrite Ho1, Hf1, Lr, La, Lf. auto. }
  clearbody s1. clear -H HO1. destruct (bool_decide (rest = []) && _); injection H as <- <-.
  - assert (HO2 : ordered (pop_pending r s1) ts) by (by apply order_pop).
    case_match; [|done]. revert HO2. by apply order_over.
  - revert HO1. by apply order_over.
Qed.

Lemma flush_step_order s s' fl ts : flush_step s = (s', fl) -> wf s -> ordered s ts -> ordered s' ts.
Proof.
  unfold flush_step. set (s1 := if _ && _ then _ else s). intros H Hw HO.
  assert (HO1 : ordered s1 ts) by (subst s1; destruct (_ && _); [revert HO; by apply order_over|done]).
  assert (Hw1 : forall id r, streams s1 !! id = Some r -> valid r s1 /\ sid (get r s1) = id).
  { clear HO1 H. intros id r E. assert (E' : streams s !! id = Some r) by (subst s1; by case_match).
    subst s1. case_match; exact (wf_table _ Hw id r E'). }
  clearbody s1. destruct (control s1) as [|f q]; [|by eapply order_flush_control].
  destruct (pending s1) as [|id q]; [by simplify_eq|].
  destruct (streams s1 !! id) as [r|] eqn:Em; [|simplify_eq; revert HO1; by apply order_over].
  destruct (Hw1 id r Em) as [Hv Hid].
  destruct (out (get r s1)) as [|f rest] eqn:Eo; [|by eapply order_flush_data].
  case_bool_decide; [by eapply order_flush_fin|]. simplify_eq. revert HO1. apply order_pop.
Qed.

Lemma flush_loop_order n s s' e ts : flush_loop n s = (s', e) -> wf s -> ordered s ts -> ordered s' ts.
Proof.
  revert s. induction n as [|n IH]; intros s H Hw HO; cbn in H; [by simplify_eq|].
  destruct (flush_step s) as [s1 [|err]] eqn:E; pose proof (flush_step_order _ _ _ _ E Hw HO) as HO1.
  - eapply IH; [exact H|by eapply flush_step_wf|done].
  - by simplify_eq.
Qed.

Lemma flushLocked_order s s' e ts : flushLocked s = (s', e) -> wf s -> ordered s ts -> ordered s' ts.
Proof. unfold flushLocked. intros H. case_match; [by simplify_eq|]. by eapply flush_loop_order. Qed.

Lemma send_order ty fl id len s s' e ts : send_and_flush ty fl id len s = (s', e) -> wf s -> ordered s ts -> ordered s' ts.
Proof.
  intros H Hw HO. eapply flushLocked_order; [exact H|by apply good_control|].
  revert HO. unfold sendControlLocked. case_match; [done|]. by apply order_over.
Qed.

(** ** The other sections *)

(** References stay valid and the order is kept. *)
Definition safe (s s' : session) : Prop := good s s' /\ (wf s -> keeps_order s s').

#[export] Instance safe_preorder : PreOrder safe.
Proof.
  split; [by split|]. intros a b c [[G1 W1] O1] [[G2 W2] O2]. split; [by split; [etrans|auto]|].
  intros Hw. etrans; [by apply O1|]. apply O2. auto.
Qed.

Lemma safe_flush s s' e : flushLocked s = (s', e) -> safe s s'.
Proof. intros H. split; [by eapply good_flush|]. intros Hw ts. by eapply flushLocked_order. Qed.

Lemma safe_send ty fl id len s s' e : send_and_flush ty fl id len s = (s', e) -> safe s s'.
Proof. intros H. split; [by eapply good_send|]. intros Hw ts. by eapply send_order. Qed.

Lemma safe_upd r f s :
  (forall st, lasting (f st) = lasting st /\ out (f st) = out st /\ finState (f st) = finState st) -> safe s (upd r f s).
Proof.
  intros H. split.
  - apply good_upd. intros st. destruct (H st) as [E _]. unfold lasting in E. congruence.
  - intros _. apply order_upd; intros st; apply (H st).
Qed.

Lemma safe_over s s' : good s s' -> sent (conn s') = sent (conn s) -> verdicts (conn s') = verdicts (conn s) ->
  objects s' = objects s -> streams s' = streams s -> safe s s'.
Proof. intros HG H1 H2 H3 H4. split; [done|]. intros _. by apply order_over. Qed.

(** A stream that left the table may be dropped. *)
Lemma safe_gone r s s1 :
  good s (dropOutLocked r s1) -> sent (conn s1) = sent (conn s) -> verdicts (conn s1) = verdicts (conn s) ->
  objects s1 = objects s -> (forall id r', streams s1 !! id = Some r' -> streams s !! id = Some r') ->
  streams s1 !! sid (get r s) <> Some r -> safe s (dropOutLocked r s1).
Proof.
  intros HG H1 H2 H3 H4 H5. split; [done|]. intros _.
  assert (Hl : forall r', lasting (get r' (dropOutLocked r s1)) = lasting (get r' s)).
  { intros r'. unfold dropOutLocked. rewrite lasting_upd by done. unfold get. by rewrite H3. }
  apply order_shrink; [done|done|done|].
  intros r' Hr. pose proof (Hl r') as E. unfold lasting in E. injection E as Ei _ _ _ _.
  unfold is_live in *. rewrite Ei in Hr. change (streams (dropOutLocked r s1)) with (streams s1) in Hr.
  split; [by apply H4|]. assert (Hne : r <> r') by (intros ->; done).
  unfold dropOutLocked. rewrite get_upd, decide_False by naive_solver. unfold get. by rewrite H3.
Qed.

(** The lock says when nobody is framing. *)
Lemma unlocked_progress r s ts : ordered s ts -> wmu (get r s) = false -> progress r ts = [].
Proof.
  intros HO Hw. apply no_framing_progress. intros HE. pose proof (or_lock _ _ HO r) as Hc. rewrite Hw in Hc. cbn in Hc.
  rewrite Exists_exists in HE. destruct HE as (t & Ht & Hf). assert (Hwr : writing r t = true).
  { destruct t; cbn in *; try done. case_decide; [|done]. by apply bool_decide_eq_true. }
  unfold tcount in Hc. apply nil_length_inv in Hc. assert (t ∈ filter (fun t => writing r t = true) ts) by (by apply list_elem_of_filter).
  rewrite Hc in H. by apply elem_of_nil in H.
Qed.

(** A new stream, under any id. *)
Lemma order_publish id st s s' :
  wf s -> sid st = id -> lasting st = (id, false, false, [], []) -> out st = [] -> finState st = finNone ->
  objects s' = objects s ++ [st] -> streams s' = <[id := length (objects s)]> (streams s) ->
  sent (conn s') = sent (conn s) -> verdicts (conn s') = verdicts (conn s) -> keeps_order s s'.
Proof.
  intros Hw Hid Hl Ho Hf H1 H2 H3 H4 ts HO. set (n := length (objects s)) in *.
  assert (Hn : get n s' = st) by (unfold get; rewrite H1; apply obj_snoc_r).
  assert (Hd : get n s = newStream 0 false 0 0) by (unfold get, obj; by rewrite lookup_ge_None_2).
  assert (Hne : forall r, r <> n -> get r s' = get r s).
  { intros r Hr. unfold get. rewrite H1. destruct (decide (r < n)%nat); [by apply obj_snoc_l|].
    unfold obj. rewrite (lookup_ge_None_2 (objects s) r) by lia. by rewrite lookup_ge_None_2 by (rewrite length_app; cbn; lia). }
  unfold lasting in Hl. injection Hl as L1 L2 L3 L4 L5.
  pose proof HO as [O1 O2 O3 O4 O5]. constructor.
  - intros r. destruct (O1 r) as (d & rest & fin & [A1 A2 AD A3 A4 A5]). destruct (decide (r = n)) as [->|Hr].
    + rewrite Hd in *. cbn in A2. symmetry in A2. apply app_nil in A2 as [-> ->].
      assert (fin = false) as -> by (destruct fin; [destruct A4 as [? _]; done|done]).
      exists [], [], false. constructor; rewrite ?Hn, ?H3, ?L3, ?L4, ?L5; try done.
      intros _. rewrite Ho, Hf. repeat split; try done. cbn. eapply unlocked_progress; [exact HO|]. by rewrite Hd.
    + exists d, rest, fin. constructor; rewrite ?Hne, ?H3 by done; auto. intros Hlive. apply A5.
      unfold is_live in *. rewrite Hne, H2 in Hlive by done. apply lookup_insert_Some in Hlive as [[_ E]|[_ E]]; [congruence|done].
  - intros r. destruct (decide (r = n)) as [->|Hr]; [|by rewrite Hne]. rewrite Hn, L2, O2, Hd. done.
  - intros r HE. destruct (decide (r = n)) as [->|Hr]; [by rewrite Hn|]. rewrite Hne by done. auto.
  - intros r HE. destruct (decide (r = n)) as [->|Hr]; [|rewrite Hne by done; auto]. apply O4 in HE. rewrite Hd in HE. done.
  - by rewrite H4.
Qed.

Lemma safe_open i meta s s' k : open i meta s = Some (s', k) -> safe s s'.
Proof.
  intros H. split; [by eapply good_open|]. intros Hw. pose proof (good_open _ _ _ _ _ H) as HG.
  apply open_cases in H as [[-> _]|(_ & _ & _ & err & E & _)]; [done|].
  transitivity (opened i meta s); [by apply (order_publish (nextID s) (opening_stream i s))|].
  intros ts. eapply flushLocked_order; [exact E|].
  destruct (good_publish (opening_stream i s) (s <| nextID := wrap 32 (nextID s + 2) |>) _ _ eq_refl) as [[_ Hp] _].
  assert (Hw1 : wf (s <| nextID := wrap 32 (nextID s + 2) |>)) by (destruct Hw; by constructor).
  apply Hp in Hw1. apply (good_waiter (nextID s)) in Hw1. destruct Hw1. by constructor.
Qed.

Lemma safe_accept i id delta meta n s s' k : acceptPublish i id delta meta n s = Some (s', k) -> safe s s'.
Proof.
  intros H. split; [by eapply good_accept|]. intros Hw.
  apply acceptPublish_cases in H as [(_ & -> & _)|[(_ & _ & err & E & _)|(_ & _ & err & E & _)]]; [done|by apply (safe_send _ _ _ _ _ _ _ E)|].
  transitivity (admitted i id delta s); [by apply (order_publish id (accepted_stream id delta (now i) s))|].
  intros ts. eapply send_order; [exact E|]. by apply (good_publish (accepted_stream id delta (now i) s) s _ _ eq_refl).
Qed.

Lemma safe_foldr_drop l s :
  (forall r, lasting (get r (foldr (fun e : Z * nat => dropOutLocked e.2) s l)) = lasting (get r s)) /\
  conn (foldr (fun e : Z * nat => dropOutLocked e.2) s l) = conn s.
Proof.
  induction l as [|e l [IH1 IH2]]; [done|]. cbn. split; [|done]. intros r. unfold dropOutLocked at 1. by rewrite lasting_upd.
Qed.

Lemma safe_close err s s' k : onTransportClose err s = Some (s', k) -> good s s' -> safe s s'.
Proof.
  intros H HG. split; [done|]. intros _.
  unfold onTransportClose, goes in H. destruct (closed s); [by simplify_eq|].
  set (s0 := finishDrainLocked _ _) in H.
  assert (E0 : objects s0 = objects s /\ conn s0 = conn s) by (subst s0; unfold finishDrainLocked; by case_match).
  destruct E0 as [E0 E1]. clearbody s0.
  set (s1 := s0 <| finFlushed := [] |> <| drained := [] |> <| wakeQ := [] |> <| control := [] |> <| pending := [] |>
    <| readHeld := false |> <| flushReq := false |>) in H.
  destruct (safe_foldr_drop (table s) s1) as [Hl Hc]. set (s2 := foldr _ s1 (table s)) in *. clearbody s2.
  injection H as <- _. apply order_shrink; cbn.
  - by rewrite Hc, <- E1.
  - by rewrite Hc, <- E1.
  - intros r. change (lasting (get r s2) = lasting (get r s)). rewrite Hl. unfold get. by rewrite <- E0.
  - intros r. unfold is_live. cbn. by rewrite lookup_empty.
Qed.

#[export] Instance safe_Preserved : Preserved safe.
Proof.
  refine {| pr_flush := safe_flush; pr_open := safe_open; pr_accept := safe_accept; pr_close := safe_close |}.
  - intros s s' HG E. unfold outbound in E. injection E as E1 E2 _ E4 E5. by apply safe_over.
  - intros r f s H. apply safe_upd. intros st. specialize (H st). unfold scheduled in H. unfold lasting.
    injection H as -> -> -> -> -> -> _ ->. done.
  - intros r s s1 HG H1 _ H3 H4 H5. apply safe_gone; try done; by rewrite H3.
Qed.

(** ** Goroutines' todos *)

Definition writes (t : todo) : bool := match t with TFrameData _ _ _ _ _ | TEnqueueFin _ => true | _ => false end.

(** The only stream a section writes to, if any. *)
Definition only (r : nat) (t : todo) : Prop := forall r', r' <> r -> framing r' t = None /\ writing r' t = false /\ t <> TEnqueueFin r'.

Lemma writes_none t : writes t = false -> forall r, framing r t = None /\ writing r t = false /\ t <> TEnqueueFin r.
Proof. by destruct t. Qed.

Lemma writes_only t r : writes t = false -> only r t.
Proof. intros H r' _. by apply writes_none. Qed.

Lemma progress_app r a b : progress r (a ++ b) = progress r a ++ progress r b.
Proof. unfold progress. by rewrite omap_app, concat_app. Qed.

Lemma progress_none r l : Forall (fun t => framing r t = None) l -> progress r l = [].
Proof. unfold progress. induction 1 as [|t l Ht _ IH]; [done|]. cbn. by rewrite Ht. Qed.

Lemma Exists_app_none r k ts : Forall (fun t => framing r t = None) k ->
  Exists (fun t => framing r t <> None) (k ++ ts) <-> Exists (fun t => framing r t <> None) ts.
Proof.
  intros H. rewrite Exists_app. split; [intros [E|]; [|done]|auto]. exfalso. induction H; inversion E; subst; auto.
Qed.

(** One object updated by a section that writes only to it. *)
Lemma order_lock r f s t k ts :
  valid r s -> (forall st, sid (f st) = sid st) -> only r t -> Forall (only r) k ->
  (forall d rest fin, ordered_at s (t :: ts) r d rest fin -> exists d rest fin, ordered_at (upd r f s) (k ++ ts) r d rest fin) ->
  tcount (writing r) (k ++ ts) = b2n (wmu (f (get r s))) ->
  (Exists (fun t => framing r t <> None) (k ++ ts) -> localFIN (f (get r s)) = false) ->
  (TEnqueueFin r ∈ k ++ ts -> localFIN (f (get r s)) = true) ->
  ordered s (t :: ts) -> ordered (upd r f s) (k ++ ts).
Proof.
  intros Hv Hid Ht Hk Hat Hlk Hfr Hfi [H1 H2 H3 H4 H5].
  assert (Er : get r (upd r f s) = f (get r s)) by (rewrite get_upd, decide_True; done).
  assert (Ene : forall r', r' <> r -> get r' (upd r f s) = get r' s) by (intros; rewrite get_upd, decide_False; naive_solver).
  assert (Kf : forall r', r' <> r -> Forall (fun t => framing r' t = None) k).
  { intros r' Hne. eapply Forall_impl; [exact Hk|]. intros x Hx. by apply Hx. }
  constructor.
  - intros r'. destruct (H1 r') as (d & rest & fin & HA). destruct (decide (r' = r)) as [->|Hne]; [by eapply Hat|].
    destruct HA as [A1 A2 AD A3 A4 A5]. destruct (Ht r' Hne) as (T1 & T2 & _).
    exists d, rest, fin. constructor; rewrite ?Ene by done; auto.
    unfold is_live. rewrite Ene by done. intros Hl. destruct (A5 Hl) as (B1 & B2 & B3 & B4). repeat split; auto.
    rewrite progress_app, (progress_none r' k) by auto. change (t :: ts) with ([t] ++ ts) in B3.
    rewrite progress_app, (progress_none r' [t]) in B3; [done|by constructor].
  - intros r'. destruct (decide (r' = r)) as [->|Hne]; [by rewrite Er|]. rewrite Ene by done. rewrite <- H2.
    destruct (Ht r' Hne) as (T1 & T2 & _). rewrite tcount_app, tcount_cons, T2, tcount_none; [done|].
    eapply Forall_impl; [exact Hk|]. intros x Hx. by apply Hx.
  - intros r'. destruct (decide (r' = r)) as [->|Hne]; [by rewrite Er|]. rewrite Ene by done.
    rewrite Exists_app_none by auto. intros E. apply H3. by apply Exists_cons_tl.
  - intros r'. destruct (decide (r' = r)) as [->|Hne]; [by rewrite Er|]. rewrite Ene by done.
    rewrite elem_of_app. intros [E|E]; [|apply H4; by right]. rewrite Forall_forall in Hk. destruct (Hk _ E r' Hne) as (_ & _ & X). done.
  - done.
Qed.

(** Sections that write nothing may come and go. *)
Lemma order_neutral s t k ts :
  writes t = false -> Forall (fun t => writes t = false) k -> ordered s (t :: ts) -> ordered s (k ++ ts).
Proof.
  intros Ht Hk [H1 H2 H3 H4 H5].
  assert (Kf : forall r', Forall (fun t => framing r' t = None) k).
  { intros r'. eapply Forall_impl; [exact Hk|]. intros x Hx. by apply writes_none. }
  constructor.
  - intros r. destruct (H1 r) as (d & rest & fin & [A1 A2 AD A3 A4 A5]). exists d, rest, fin. constructor; auto.
    intros Hl. destruct (A5 Hl) as (B1 & B2 & B3 & B4). repeat split; auto. change (t :: ts) with ([t] ++ ts) in B3.
    rewrite progress_app, (progress_none r k) by auto. rewrite progress_app, (progress_none r [t]) in B3; [done|].
    constructor; [by apply writes_none|done].
  - intros r. rewrite <- H2, tcount_app, tcount_cons, tcount_none; [by destruct (writes_none t Ht r) as (_ & -> & _)|].
    eapply Forall_impl; [exact Hk|]. intros x Hx. by apply writes_none.
  - intros r. rewrite Exists_app_none by auto. intros E. apply H3. by apply Exists_cons_tl.
  - intros r. rewrite elem_of_app. intros [E|E]; [|apply H4; by right].
    rewrite Forall_forall in Hk. apply Hk in E. done.
  - done.
Qed.

Lemma exec_neutral i t s s' k : exec i t s = Some (s', k) -> locking t = false -> Forall (fun t => writes t = false) k.
Proof. intros H Hq. destruct t; try discriminate Hq; cbn [exec] in H; section_todos H; follows; done. Qed.

(** ** Writers *)

Ltac fields := cbn [sid framed accepted localFIN out finState wmu over wmu_field sendWin_field accepted_field
  localFIN_field halfSince_field out_field framed_field finState_field queued_field].

Lemma unlocked_count r s t ts : ordered s (t :: ts) -> wmu (get r s) = false ->
  writing r t = false /\ tcount (writing r) ts = 0%nat /\ ~ Exists (fun t => framing r t <> None) ts /\ TEnqueueFin r ∉ ts.
Proof.
  intros HO Hw. pose proof (or_lock _ _ HO r) as Hc. rewrite Hw, tcount_cons in Hc. cbn in Hc.
  destruct (writing r t); [cbn in Hc; lia|]. cbn in Hc. split; [done|]. split; [done|].
  assert (Hn : forall x, x ∈ ts -> writing r x = false).
  { intros x Hx. destruct (writing r x) eqn:E; [|done]. exfalso. unfold tcount in Hc. apply nil_length_inv in Hc.
    assert (X : x ∈ filter (fun t => writing r t = true) ts) by (by apply list_elem_of_filter). rewrite Hc in X. by apply elem_of_nil in X. }
  split.
  - rewrite Exists_exists. intros (x & Hx & Hf). apply Hn in Hx. destruct x; cbn in *; try done. case_decide; [|done].
    by rewrite bool_decide_eq_true_2 in Hx.
  - intros Hx. apply Hn in Hx. cbn in Hx. by rewrite bool_decide_eq_true_2 in Hx.
Qed.

Lemma order_take_credit r p n short vec t s ts :
  valid r s -> wmu (get r s) = false -> localFIN (get r s) = false -> writes t = false -> ordered s (t :: ts) ->
  ordered (take_credit r p s) ([TFrameData r p n short vec] ++ ts).
Proof.
  intros Hv Hw Hl Ht HO. destruct (unlocked_count r s t ts HO Hw) as (W1 & W2 & W3 & W4).
  assert (HP : progress r ts = []) by (by apply no_framing_progress).
  assert (Ho1 : only r (TFrameData r p n short vec)).
  { intros r' Hne. cbn. rewrite decide_False by done. rewrite bool_decide_eq_false_2 by done. done. }
  refine (order_lock r _ s t _ ts Hv _ (writes_only t r Ht) _ _ _ _ _ HO); try done.
  - by constructor; [|constructor].
  - intros d rest fin [A1 A2 AD A3 A4 A5].
    assert (fin = false) as -> by (destruct fin; [destruct A4 as [? _]; congruence|done]).
    exists d, rest, false.
    constructor; rewrite ?get_upd, ?decide_True by done; cbn [sid framed accepted localFIN over wmu_field sendWin_field accepted_field]; try done.
    + by apply prefix_app_r.
    + unfold is_live. rewrite get_upd, decide_True by done. cbn. intros Hlv. destruct (A5 Hlv) as (B1 & B2 & B3 & B4).
      repeat split; auto. change (t :: ts) with ([t] ++ ts) in B3. rewrite progress_app, HP, app_nil_r in B3.
      rewrite progress_none, app_nil_r in B3 by (constructor; [by apply writes_none|done]).
      rewrite B3. f_equal. cbn. rewrite decide_True by done. cbn. change (concat _) with (progress r ts). by rewrite HP, app_nil_r.
  - cbn [app]. rewrite tcount_cons, W2. cbn. by rewrite bool_decide_eq_true_2.
  - cbn. rewrite elem_of_cons. intros [E|E]; done.
Qed.

Lemma order_close_write now r s k ts :
  valid r s -> wmu (get r s) = false -> Forall (fun t => writes t = false) k -> ordered s (TCloseWrite r :: ts) ->
  ordered (upd r (fun st => st <| localFIN := true |> <| halfSince := Some now |> <| wmu := true |>) s) ((TEnqueueFin r :: k) ++ ts).
Proof.
  intros Hv Hw Hk HO. destruct (unlocked_count r s _ ts HO Hw) as (W1 & W2 & W3 & W4).
  assert (HP : progress r ts = []) by (by apply no_framing_progress).
  assert (Kf : Forall (fun t => framing r t = None) (TEnqueueFin r :: k)).
  { constructor; [done|]. eapply Forall_impl; [exact Hk|]. intros x Hx. by apply writes_none. }
  refine (order_lock r _ s (TCloseWrite r) _ ts Hv _ (writes_only (TCloseWrite r) r eq_refl) _ _ _ _ _ HO); try done.
  - constructor; [|eapply Forall_impl; [exact Hk|intros; by apply writes_only]].
    intros r' Hne. cbn. rewrite bool_decide_eq_false_2 by done. repeat split; congruence.
  - intros d rest fin [A1 A2 AD A3 A4 A5]. exists d, rest, fin.
    constructor; rewrite ?get_upd, ?decide_True by done; fields; try done.
    + intros Hf. destruct (A4 Hf) as (_ & X2 & X3). by repeat split.
    + unfold is_live. rewrite get_upd, decide_True by done. fields. intros Hlv. destruct (A5 Hlv) as (B1 & B2 & B3 & B4).
      repeat split; auto. change (TCloseWrite r :: ts) with ([TCloseWrite r] ++ ts) in B3.
      rewrite progress_app in B3. by rewrite progress_app, (progress_none r _ Kf).
  - rewrite tcount_app, tcount_cons, W2, tcount_none.
    + cbn. by rewrite bool_decide_eq_true_2.
    + eapply Forall_impl; [exact Hk|]. intros x Hx. by apply writes_none.
  - rewrite Exists_app_none by done. done.
Qed.

Lemma locked_count r s t ts : ordered s (t :: ts) -> writing r t = true ->
  wmu (get r s) = true /\ tcount (writing r) ts = 0%nat /\ ~ Exists (fun t => framing r t <> None) ts /\ TEnqueueFin r ∉ ts.
Proof.
  intros HO Ht. pose proof (or_lock _ _ HO r) as Hc. rewrite tcount_cons, Ht in Hc.
  destruct (wmu (get r s)); [|cbn in Hc; lia]. cbn in Hc. assert (E : tcount (writing r) ts = 0%nat) by lia.
  split; [done|]. split; [done|].
  assert (Hn : forall x, x ∈ ts -> writing r x = false).
  { intros x Hx. destruct (writing r x) eqn:Ex; [|done]. exfalso. unfold tcount in E. apply nil_length_inv in E.
    assert (X : x ∈ filter (fun t => writing r t = true) ts) by (by apply list_elem_of_filter). rewrite E in X. by apply elem_of_nil in X. }
  split.
  - rewrite Exists_exists. intros (x & Hx & Hf). apply Hn in Hx. destruct x; cbn in *; try done. case_decide; [|done].
    by rewrite bool_decide_eq_true_2 in Hx.
  - intros Hx. apply Hn in Hx. cbn in Hx. by rewrite bool_decide_eq_true_2 in Hx.
Qed.

Lemma writing_only r t : writing r t = true -> only r t.
Proof.
  destruct t; cbn; try done; intros H; apply bool_decide_eq_true in H as <-; intros r' Hne; cbn;
    rewrite ?decide_False by done; rewrite bool_decide_eq_false_2 by done; repeat split; congruence.
Qed.

(** The end of a locked part: nothing of a live stream is left to frame. *)
Lemma order_unlock r s t k ts :
  valid r s -> writing r t = true -> (is_live r s -> progress r [t] = []) -> Forall (fun t => writes t = false) k ->
  ordered s (t :: ts) -> ordered (unlock_write r s) (k ++ ts).
Proof.
  intros Hv Ht Hp Hk HO. destruct (locked_count r s t ts HO Ht) as (W1 & W2 & W3 & W4).
  assert (Kf : Forall (fun t => framing r t = None) k) by (eapply Forall_impl; [exact Hk|]; intros x Hx; by apply writes_none).
  refine (order_lock r _ s t k ts Hv _ (writing_only r t Ht) _ _ _ _ _ HO); try done.
  - eapply Forall_impl; [exact Hk|]. intros. by apply writes_only.
  - intros d rest fin [A1 A2 AD A3 A4 A5]. exists d, rest, fin.
    constructor; rewrite ?get_upd, ?decide_True by done; fields; try done.
    unfold is_live. rewrite get_upd, decide_True by done. fields. intros Hlv. destruct (A5 Hlv) as (B1 & B2 & B3 & B4).
    repeat split; auto. change (t :: ts) with ([t] ++ ts) in B3. rewrite progress_app, Hp in B3 by done.
    by rewrite progress_app, (progress_none r k Kf).
  - rewrite tcount_app, W2, tcount_none; [done|]. eapply Forall_impl; [exact Hk|]. intros x Hx. by apply writes_none.
  - rewrite Exists_app_none by done. done.
  - rewrite elem_of_app. intros [E|E]; [|done]. rewrite Forall_forall in Hk. apply Hk in E. done.
Qed.

Lemma safe_queue r s : safe s (queue_stream r s).
Proof.
  unfold queue_stream. case_match; [done|].
  transitivity (upd r (fun st => st <| queued := true |>) s); [by apply safe_upd|]. apply safe_over; try done. shrink.
Qed.

Lemma order_enqueue r chunk p rest n short vec s ts :
  valid r s -> is_live r s -> p = chunk ++ rest -> wf s ->
  ordered s (TFrameData r p n short vec :: ts) ->
  ordered (queue_stream r (upd r (fun st => st <| out ::= (fun q => q ++ [data_frame (sid (get r s)) chunk]) |>
                                            <| framed ::= (fun q => q ++ [data_frame (sid (get r s)) chunk]) |>) s))
          ([TFrameData r rest n short vec] ++ ts).
Proof.
  intros Hv Hlive -> Hw HO. set (f := data_frame (sid (get r s)) chunk). set (g := fun st : stream => _).
  assert (Ht : writing r (TFrameData r (chunk ++ rest) n short vec) = true) by (by apply bool_decide_eq_true).
  assert (Ht' : writing r (TFrameData r rest n short vec) = true) by (by apply bool_decide_eq_true).
  destruct (locked_count r s _ ts HO Ht) as (W1 & W2 & W3 & W4).
  assert (Hl : localFIN (get r s) = false) by (apply (or_framing _ _ HO); constructor; cbn; by rewrite decide_True).
  apply (safe_queue r (upd r g s)).
  { apply (good_upd r g s); done. }
  assert (HPl : forall x, progress r (TFrameData r x n short vec :: ts) = x).
  { intros x. change (TFrameData r x n short vec :: ts) with ([TFrameData r x n short vec] ++ ts). rewrite progress_app.
    rewrite (no_framing_progress r ts) by done. unfold progress. cbn. rewrite decide_True by done. cbn. by rewrite !app_nil_r. }
  refine (order_lock r g s _ _ ts Hv _ (writing_only r _ Ht) _ _ _ _ _ HO); try done.
  - constructor; [by apply writing_only|constructor].
  - intros d q fin [A1 A2 AD A3 A4 A5]. destruct (A5 Hlive) as (B1 & B2 & B3 & B4).
    assert (Hfin : finState (get r s) = finNone).
    { destruct (decide (finState (get r s) = finNone)) as [|Hne]; [done|]. rewrite (B4 Hne) in Hl. done. }
    rewrite Hfin in B2. rewrite bool_decide_eq_false_2 in B2 by done. subst fin. rewrite HPl in B3.
    assert (Eg : get r (upd r g s) = g (get r s)) by (rewrite get_upd, decide_True; done).
    exists d, (q ++ [f]), false. constructor; rewrite ?Eg; unfold g; fields; try done.
    + rewrite A2. by rewrite app_assoc.
    + apply Forall_app. split; [done|]. by constructor.
    + rewrite payload_app. unfold payload_of at 2. cbn [fmap list_fmap concat data_frame snd f]. rewrite app_nil_r, <- B3, app_assoc.
      apply prefix_app_r. done.
    + intros _. rewrite B1, Hfin. repeat split; try done.
      change ([TFrameData r rest n short vec] ++ ts) with (TFrameData r rest n short vec :: ts). rewrite HPl, <- B3, payload_app.
      unfold payload_of at 2. cbn [fmap list_fmap concat data_frame snd f]. by rewrite app_nil_r, app_assoc.
  - cbn [app]. rewrite tcount_cons, Ht', W2. unfold g. fields. by rewrite W1.
  - cbn. rewrite elem_of_cons. intros [E|E]; done.
Qed.

Lemma order_fin_queued r s ts :
  valid r s -> finState (get r s) = finNone -> localFIN (get r s) = true -> ordered s ts ->
  ordered (upd r (fun st => st <| finState := finQueued |>) s) ts.
Proof.
  intros Hv Hf Hl [H1 H2 H3 H4 H5]. set (g := fun st : stream => st <| finState := finQueued |>).
  assert (HL : forall r', lasting (get r' (upd r g s)) = lasting (get r' s)) by (intros; by apply lasting_upd).
  assert (HO : forall r', out (get r' (upd r g s)) = out (get r' s)) by (intros; by apply obj_alter_field).
  assert (E : forall r', sid (get r' (upd r g s)) = sid (get r' s) /\ wmu (get r' (upd r g s)) = wmu (get r' s) /\
    localFIN (get r' (upd r g s)) = localFIN (get r' s) /\ framed (get r' (upd r g s)) = framed (get r' s) /\
    accepted (get r' (upd r g s)) = accepted (get r' s)).
  { intros r'. specialize (HL r'). unfold lasting in HL. injection HL as -> -> -> -> ->. done. }
  constructor.
  - intros r'. destruct (E r') as (E1 & E2 & E3 & E4 & E5). destruct (H1 r') as (d & rest & fin & [A1 A2 AD A3 A4 A5]).
    exists d, rest, fin. constructor; rewrite ?E1, ?E3, ?E4, ?E5, ?HO; auto.
    unfold is_live. rewrite E1. intros Hlv. destruct (A5 Hlv) as (B1 & B2 & B3 & B4). repeat split; auto.
    + destruct (decide (r' = r)) as [->|Hne].
      * rewrite get_upd, decide_True by done. unfold g. fields. rewrite Hf in B2. by rewrite bool_decide_eq_false_2 in * by done.
      * rewrite get_upd, decide_False by naive_solver. done.
    + destruct (decide (r' = r)) as [->|Hne]; [done|]. by rewrite get_upd, decide_False by naive_solver.
  - intros r'. destruct (E r') as (_ & -> & _). auto.
  - intros r'. destruct (E r') as (_ & _ & -> & _). auto.
  - intros r'. destruct (E r') as (_ & _ & -> & _). auto.
  - done.
Qed.

Lemma live_is_live r s : live r s = true <-> is_live r s.
Proof. apply bool_decide_eq_true. Qed.

Lemma order_enqueueFin r s ts :
  valid r s -> wf s -> ordered s (TEnqueueFin r :: ts) -> ordered (unlock_write r (enqueueFin r s)) ([] ++ ts).
Proof.
  intros Hv Hw HO. assert (Hl : localFIN (get r s) = true) by (apply (or_finishing _ _ HO); by left).
  unfold enqueueFin. destruct (bool_decide (finState (get r s) = finNone)) eqn:Hf; cbn.
  2: { apply (order_unlock r s (TEnqueueFin r) [] ts Hv); try done. by apply bool_decide_eq_true. }
  apply bool_decide_eq_true in Hf. destruct (live r s); cbn.
  2: { apply (order_unlock r s (TEnqueueFin r) [] ts Hv); try done. by apply bool_decide_eq_true. }
  set (s1 := upd r (fun st => st <| finState := finQueued |>) s).
  assert (G : good s s1) by (by apply good_upd).
  assert (HO1 : ordered (queue_stream r s1) (TEnqueueFin r :: ts)).
  { apply safe_queue; [by apply G|]. by apply order_fin_queued. }
  assert (Hv1 : valid r (queue_stream r s1)).
  { destruct (safe_queue r s1) as [[G1 _] _]. destruct G as [G0 _]. destruct G0, G1. lia. }
  apply (order_unlock r (queue_stream r s1) (TEnqueueFin r) [] ts Hv1); try done. by apply bool_decide_eq_true.
Qed.

Lemma queue_cfg r s : cfg (queue_stream r s) = cfg s.
Proof. unfold queue_stream. by case_match. Qed.

Lemma neutral_return r vec n err : writes (write_return r vec n err) = false.
Proof. unfold write_return. by repeat case_match. Qed.

Lemma order_frameData r p n short vec s s' k ts :
  valid r s -> wf s -> 0 < MaxFrame (cfg s) -> frameData r p n short vec s = Some (s', k) ->
  ordered s (TFrameData r p n short vec :: ts) -> ordered s' (k ++ ts).
Proof.
  intros Hv Hw Hm H HO. assert (Ht : writing r (TFrameData r p n short vec) = true) by (by apply bool_decide_eq_true).
  unfold frameData, goes in H. destruct p as [|x p].
  - injection H as <- <-. refine (order_unlock r s _ _ ts Hv Ht _ _ HO).
    + intros _. unfold progress. cbn. by rewrite decide_True.
    + follows; try done; apply neutral_return.
  - unfold enqueue in H. destruct (live r s) eqn:Hl; cbn [negb] in H; injection H as <- <-.
    + apply live_is_live in Hl. refine (order_enqueue r _ (x :: p) _ n short vec s ts Hv Hl _ Hw HO).
      rewrite queue_cfg. change (cfg (upd _ _ _)) with (cfg s). by rewrite take_drop.
    + refine (order_unlock r s _ _ ts Hv Ht _ _ HO).
      * intros Hlv. apply live_is_live in Hlv. congruence.
      * constructor; [done|]. constructor; [apply neutral_return|done].
Qed.

Lemma order_exec i t s s' k ts :
  exec i t s = Some (s', k) -> refs_ok s (t :: ts) -> 0 < MaxFrame (cfg s) -> ordered s (t :: ts) -> ordered s' (k ++ ts).
Proof.
  intros H [Hw Hr] Hm HO. inversion Hr as [|? ? Ht _]; subst. destruct (locking t) eqn:Hlk.
  2: { apply (exec_preserved safe _ _ _ _ _ H Hlk Hw Ht); [done|].
       refine (order_neutral s t k ts _ _ HO); [by destruct t|by eapply exec_neutral]. }
  destruct Ht as [Hv _]. destruct t; try discriminate Hlk; cbn [exec] in H; apply valid_of in Hv.
  - unfold Write, goes in H.
    assert (HN : forall n err, ordered s ([write_return r vec n err] ++ ts)).
    { intros n err. refine (order_neutral s _ _ ts _ _ HO); [done|]. constructor; [apply neutral_return|done]. }
    destruct (bool_decide (p = [])); [injection H as <- <-; apply HN|]. destruct (wmu (get r s)) eqn:Hwm; [done|].
    destruct (writable_error (get r s)) eqn:Hwe; [injection H as <- <-; apply HN|].
    destruct (_ <=? 0); injection H as <- <-; [apply HN|].
    refine (order_take_credit r _ _ _ vec _ s ts Hv Hwm _ _ HO); [|done].
    unfold writable_error in Hwe. repeat case_match; done.
  - unfold WriteOwned, goes in H.
    assert (HN : forall n err, ordered s ([TReturn n err] ++ ts)).
    { intros n err. refine (order_neutral s _ _ ts _ _ HO); [done|]. by constructor; [|constructor]. }
    destruct (bool_decide (p = [])); [injection H as <- <-; apply HN|]. destruct (wmu (get r s)) eqn:Hwm; [done|].
    destruct (_ || localFIN (get r s)) eqn:Hwe; [injection H as <- <-; apply HN|]. apply orb_false_iff in Hwe as [_ Hwe].
    destruct (_ <? _); injection H as <- <-; [apply HN|].
    by refine (order_take_credit r _ _ _ None _ s ts Hv Hwm Hwe _ HO).
  - by eapply order_frameData.
  - unfold CloseWrite, goes in H.
    assert (HN : forall n err, ordered s ([TReturn n err] ++ ts)).
    { intros n err. refine (order_neutral s _ _ ts _ _ HO); [done|]. by constructor; [|constructor]. }
    destruct (wmu (get r s)) eqn:Hwm; [done|]. destruct (closedLocal (get r s)); [injection H as <- <-; apply HN|].
    destruct (localFIN (get r s)); injection H as <- <-; [apply HN|].
    refine (order_close_write (now i) r s _ ts Hv Hwm _ HO). by repeat constructor.
  - injection H as <- <-. by apply order_enqueueFin.
Qed.

(** ** Every reachable state *)

Lemma ordered_perm s ts ts' : ts ≡ₚ ts' -> ordered s ts -> ordered s ts'.
Proof.
  intros E HO. pose proof HO as [H1 H2 H3 H4 H5].
  assert (Hp : forall r, progress r ts' = progress r ts).
  { intros r. unfold progress. assert (Ep : omap (framing r) ts ≡ₚ omap (framing r) ts') by (by rewrite E).
    assert (Hlen : (length (omap (framing r) ts) <= 1)%nat).
    { pose proof (H2 r) as Hc. assert (length (omap (framing r) ts) <= tcount (writing r) ts)%nat as Hle.
      { clear. induction ts as [|t ts IH]; [done|]. rewrite tcount_cons. cbn. destruct (framing r t) eqn:Ef; cbn; [|lia].
        assert (writing r t = true) as ->; [|cbn; lia]. destruct t; cbn in *; try done. case_decide; [|done]. by apply bool_decide_eq_true. }
      destruct (wmu (get r s)); cbn in Hc; lia. }
    destruct (omap (framing r) ts) as [|p [|q l]] eqn:El; [|apply Permutation_singleton_l in Ep as ->; done|cbn in Hlen; lia].
    by apply Permutation_nil_l in Ep as ->. }
  constructor.
  - intros r. destruct (H1 r) as (d & rest & fin & [A1 A2 AD A3 A4 A5]). exists d, rest, fin. constructor; auto. by rewrite Hp.
  - intros r. by rewrite <- (tcount_perm _ _ _ E).
  - intros r. rewrite <- E. auto.
  - intros r. rewrite <- E. auto.
  - done.
Qed.

Lemma entry_writes s t : entry s t = true -> writes t = false.
Proof. unfold entry. by destruct t. Qed.

Definition unbroken (v : verdict) : Prop := v = Accepts \/ v = Overflows.

Lemma ordered_reachable c h cl vs now m :
  0 < MaxFrame c -> Forall unbroken vs -> rtc mstep (start c h cl vs now) m -> ordered (sess m) (todos m).
Proof.
  intros Hmax Hvs Hm.
  refine (proj1 (proj2 (refs_induction (fun _ _ => True) (fun s ts => ordered s ts /\ cfg s = c) _ _ _ _ _ c h cl vs now m (reaches_all _ _ Hm) _))).
  - done.
  - intros s ts ts' E [H1 H2]. split; [by eapply ordered_perm|done].
  - intros s ts bytes [H1 H2]. split; [|done]. revert H1. by apply order_over.
  - intros s ts t Ht [H1 H2]. split; [|done]. apply entry_writes in Ht.
    assert (HO : ordered s ([t] ++ ts)); [|done]. refine (order_neutral s TWritable [t] ts _ _ _); [done|by constructor|].
    pose proof H1 as [O1 O2 O3 O4 O5]. constructor; [|exact O2|..|exact O5].
    + intros r. destruct (O1 r) as (d & rest & fin & []). exists d, rest, fin. by constructor.
    + intros r E. apply O3. by inversion E.
    + intros r. rewrite elem_of_cons. intros [E|E]; [done|auto].
  - intros i t s s' k ts He _ Hr [H1 H2]. split; [|by rewrite (exec_cfg _ _ _ _ _ He)]. eapply order_exec; eauto. by rewrite H2.
  - split; [|done]. assert (Hg : forall r, get r (rearmTimer now (newSession c h cl vs now)) = newStream 0 false 0 0) by done.
    constructor; try done.
    + intros r. exists [], [], false. by constructor; rewrite ?Hg.
    + intros r E. by inversion E.
Qed.

(** C7. on a transport that may refuse any write for overflow but does not
    fail, under every interleaving of writers, closers, aborts, incoming frames
    and flushes, the data frames accepted for a stream carry in order a prefix
    of the bytes its writes took; a FIN is the last frame of its stream and
    follows all of them; and a stream still in the session, with no write in
    progress, has the rest waiting in its queue: nothing is lost, repeated or
    reordered. *)
Theorem writes_reach_wire_in_order c h cl vs now m r :
  Forall unbroken vs -> rtc mstep (start (resolve c) h cl vs now) m ->
  exists (d : list wframe) (fin : bool),
    sent_of r (sent (conn (sess m))) = d ++ (if fin then [fin_frame (sid (get r (sess m)))] else []) /\
    Forall (is_data (sid (get r (sess m)))) d /\ payload_of d `prefix_of` accepted (get r (sess m)) /\
    (fin = true -> payload_of d = accepted (get r (sess m)) /\ localFIN (get r (sess m)) = true) /\
    (is_live r (sess m) -> wmu (get r (sess m)) = false ->
     payload_of (d ++ out (get r (sess m))) = accepted (get r (sess m))).
Proof.
  intros Hv Hm. assert (HM : 0 < MaxFrame (resolve c)) by apply (resolve_ok c).
  pose proof (ordered_reachable _ _ _ _ _ _ HM Hv Hm) as HO.
  destruct (or_stream _ _ HO r) as (d & rest & fin & [A1 A2 AD A3 A4 A5]). exists d, fin. split; [done|]. split; [|split; [|split]].
  - rewrite A2 in AD. by apply Forall_app in AD as [? _].
  - etrans; [|exact A3]. rewrite A2, payload_app. by apply prefix_app_r.
  - intros Hf. destruct (A4 Hf) as (B1 & B2 & B3). split; [|done]. by rewrite <- B3, A2, B2, app_nil_r.
  - intros Hl Hw. destruct (A5 Hl) as (B1 & _ & B3 & _). rewrite (unlocked_progress r _ _ HO Hw), app_nil_r in B3.
    by rewrite <- B1, <- A2.
Qed.

(** A stream is opened and acknowledged; two goroutines write to it while a
    third half-closes it; the transport overflows once. *)
Definition overflow_once : list verdict := [Accepts; Overflows].

Definition racing_writers : list move :=
  let i := MkInput 5 None 100 in
  Call (TOpen []) :: repeat (RunProc 0 i) 3 ++ [Arrive [0;1;0;2;0;0;0;1;0;0;0;0]; Turn TOnRead] ++ repeat (RunLoop i) 14 ++
  [Call (TWrite 0 [1;2;3] None); Call (TWrite 0 [4;5] None); Call (TCloseWrite 0)] ++ repeat (RunProc 1 i) 3 ++
  [RunProc 2 i; RunProc 1 i; RunProc 2 i; RunProc 2 i; RunProc 3 i; RunProc 3 i; Turn TOnRead] ++ repeat (RunLoop i) 8 ++
  [Turn TOnRead] ++ repeat (RunLoop i) 4.

Definition raced_machine : option machine :=
  sched racing_writers (start (resolve (MkConfig true 0 0 0 0 0 0 0 0 0 0 0)) (MkHooks false false false false false) true overflow_once 0).

Lemma writes_reach_wire_in_order_witness :
  exists m, raced_machine = Some m /\ payload_of (sent_of 0 (sent (conn (sess m)))) = [1; 2; 3; 4; 5] /\
  accepted (get 0 (sess m)) = [1; 2; 3; 4; 5] /\ last (sent_of 0 (sent (conn (sess m)))) = Some (fin_frame 1).
Proof.
  destruct raced_machine as [m|] eqn:E; [|exfalso; vm_compute in E; discriminate E].
  assert (Ha : accepted (get 0 (sess m)) = [1; 2; 3; 4; 5]) by (vm_compute in E; injection E as <-; reflexivity).
  assert (Hi : sid (get 0 (sess m)) = 1) by (vm_compute in E; injection E as <-; reflexivity).
  assert (Hf : last (sent_of 0 (sent (conn (sess m)))) = Some (fin_frame 1)) by (vm_compute in E; injection E as <-; reflexivity).
  destruct (writes_reach_wire_in_order (MkConfig true 0 0 0 0 0 0 0 0 0 0 0) (MkHooks false false false false false) true
    overflow_once 0 m 0) as (d & fin & H1 & HD & H2 & H3 & _).
  - constructor; [left; reflexivity|]. constructor; [right; reflexivity|constructor].
  - exact (sched_reaches _ _ _ E).
  - exists m. repeat split; try assumption. rewrite H1 in *. destruct fin.
    + destruct H3 as [H3 _]; [reflexivity|]. rewrite payload_app, H3, Ha. reflexivity.
    + exfalso. rewrite app_nil_r in *. apply last_Some in Hf as [l Hf]. rewrite Hf, Hi in HD.
      apply Forall_app in HD as [_ HD]. inversion HD as [|? ? HD' _]. discriminate HD'.
Defined.
