(* ===== verification/MuxSched.v ===== *)
(** * umux: the outbound scheduler makes progress

    A stream of the session with anything to send is on the round-robin queue;
    flushing an accepting transport sends everything, in a number of passes
    bounded by the work queued; and a stream waits for at most one frame of
    each stream ahead of it. *)

From S2P Require Import Prelude Update MuxFrame MuxWindow MuxTypes MuxFlush MuxSession MuxFacts MuxRefs MuxView MuxPreserve MuxClose MuxBudget MuxOrder.
Local Open Scope Z_scope.

(** ** No stream with work is forgotten *)

Definition has_work (st : stream) : Prop := out st <> [] \/ finState st = finQueued.

Definition tidy (s : session) : Prop :=
  forall r, is_live r s -> (has_work (get r s) -> queued (get r s) = true) /\
    (queued (get r s) = true -> sid (get r s) ∈ pending s).

Definition keeps_tidy (s s' : session) : Prop := good s s' /\ (wf s -> tidy s -> tidy s').

#[export] Instance keeps_tidy_preorder : PreOrder keeps_tidy.
Proof.
  split; [by split|]. intros a b c [[G1 W1] T1] [[G2 W2] T2]. split; [by split; [etrans|auto]|]. auto.
Qed.

(** The scheduler's part of a stream. *)
Definition slot (st : stream) : Z * list wframe * bool * streamFINState := (sid st, out st, queued st, finState st).

Lemma tidy_shrink s s' :
  good s s' -> (forall id, id ∈ pending s -> id ∈ pending s') ->
  (forall r, is_live r s' -> is_live r s /\ slot (get r s') = slot (get r s)) -> keeps_tidy s s'.
Proof.
  intros HG Hp Hk. split; [done|]. intros _ HT r Hr. destruct (Hk r Hr) as [Hr' E]. unfold slot in E. injection E as Ei Eo Eq Ef.
  destruct (HT r Hr') as [T1 T2]. unfold has_work in *. rewrite Ei, Eo, Eq, Ef. auto.
Qed.

Lemma tidy_gone r s s1 :
  good s (dropOutLocked r s1) -> objects s1 = objects s -> pending s1 = pending s -> conn s1 = conn s ->
  (forall id r', streams s1 !! id = Some r' -> streams s !! id = Some r') ->
  streams s1 !! sid (get r s) <> Some r -> keeps_tidy s (dropOutLocked r s1).
Proof.
  intros HG H3 Hp _ H4 H5. apply tidy_shrink; [done|cbn; by rewrite Hp|].
  intros r' Hr. assert (Ei : sid (get r' (dropOutLocked r s1)) = sid (get r' s)).
  { unfold dropOutLocked. etrans; [by apply (obj_alter_field sid)|]. unfold get. by rewrite H3. }
  unfold is_live in *. rewrite Ei in Hr. change (streams (dropOutLocked r s1)) with (streams s1) in Hr.
  split; [by apply H4|]. assert (Hne : r <> r') by (intros ->; done).
  unfold dropOutLocked. rewrite get_upd, decide_False by naive_solver. unfold get. by rewrite H3.
Qed.

(** ** The flush loop, one iteration at a time *)

(** A stream that is not the one at the head of the queue. *)
Lemma tidy_other s s' id r :
  streams s' = streams s -> streams s !! id = Some r -> sid (get r s) = id ->
  (forall r', r' <> r -> slot (get r' s') = slot (get r' s)) -> (forall r', sid (get r' s') = sid (get r' s)) ->
  (forall id', id' <> id -> id' ∈ pending s -> id' ∈ pending s') ->
  ((has_work (get r s') -> queued (get r s') = true) /\ (queued (get r s') = true -> id ∈ pending s')) ->
  tidy s -> tidy s'.
Proof.
  intros Hm Hr Hid Hs Hi Hp Hat HT r' Hl. destruct (decide (r' = r)) as [->|Hne].
  - rewrite Hi, Hid. done.
  - assert (Hl' : is_live r' s) by (unfold is_live in *; by rewrite Hm, Hi in Hl).
    specialize (Hs r' Hne). unfold slot in Hs. injection Hs as E1 E2 E3 E4. destruct (HT r' Hl') as [T1 T2].
    unfold has_work in *. rewrite E1, E2, E3, E4. split; [done|]. intros Hq. apply Hp; [|auto].
    intros E. unfold is_live in Hl'. rewrite E in Hl'. congruence.
Qed.

(** What one iteration does, told by the head of its queues. *)
Lemma tail_elem (id x : Z) q : x <> id -> x ∈ id :: q -> x ∈ q.
Proof. intros H. rewrite elem_of_cons. naive_solver. Qed.

Lemma slot_upd r f s r' : r' <> r -> slot (get r' (upd r f s)) = slot (get r' s).
Proof. intros H. rewrite get_upd, decide_False by naive_solver. done. Qed.

Lemma tidy_same s s' : objects s' = objects s -> streams s' = streams s -> pending s' = pending s -> tidy s -> tidy s'.
Proof. intros H1 H2 H3 HT r. unfold is_live, get. rewrite H1, H2, H3. apply HT. Qed.

Section Head.
Context (s : session) (id : Z) (q : list Z) (r : nat).
Hypothesis Hpend : pending s = id :: q.
Hypothesis Hmap : streams s !! id = Some r.
Hypothesis Hval : valid r s.
Hypothesis Hsid : sid (get r s) = id.

Lemma tidy_pop : ~ has_work (get r s) -> tidy s -> tidy (pop_pending r s).
Proof.
  intros Hw HT. apply (tidy_other s _ id r); try done.
  - intros r' Hne. unfold pop_pending. by rewrite slot_upd.
  - intros r'. by apply obj_alter_field.
  - intros x Hx. cbn. rewrite Hpend. by apply tail_elem.
  - assert (E : get r (pop_pending r s) = (get r s) <| queued := false |>) by (unfold pop_pending; by rewrite get_upd, decide_True).
    rewrite E. split; [intros H; exfalso; apply Hw; exact H|done].
Qed.

Lemma tidy_fin c : tidy s -> out (get r s) = [] ->
  tidy ((upd r (fun st => st <| finState := finSent |>) (pop_pending r (s <| conn := c |>))) <| finFlushed ::= (fun l => l ++ [r]) |>).
Proof.
  intros HT Ho. apply (tidy_other s _ id r); try done.
  - intros r' Hne. change (slot (get r' (upd r (fun st => st <| finState := finSent |>) (pop_pending r (s <| conn := c |>)))) = slot (get r' s)).
    rewrite slot_upd by done. unfold pop_pending. by rewrite slot_upd.
  - intros r'. etrans; [by apply (obj_alter_field sid)|by apply (obj_alter_field sid)].
  - intros x Hx. cbn. rewrite Hpend. by apply tail_elem.
  - assert (E : get r (upd r (fun st => st <| finState := finSent |>) (pop_pending r (s <| conn := c |>))) =
      (get r s) <| queued := false |> <| finState := finSent |>).
    { rewrite get_upd, decide_True; [|split; [done|unfold pop_pending, upd; cbn; by rewrite length_alter]].
      unfold pop_pending. by rewrite get_upd, decide_True. }
    change (get r _) with (get r (upd r (fun st => st <| finState := finSent |>) (pop_pending r (s <| conn := c |>)))).
    rewrite E. split; [|done]. intros [H|H]; [exfalso; apply H; exact Ho|done].
Qed.

Lemma tidy_sent c f rest s' :
  out (get r s) = f :: rest -> tidy s ->
  s' = upd r (fun st => st <| out := rest |>) (s <| conn := c |>) ->
  tidy s' /\ tidy (s' <| pending ::= (fun q => tail q ++ [id]) |>) /\ ((rest = [] /\ finState (get r s) <> finQueued) -> tidy (pop_pending r s')).
Proof.
  intros Ho HT ->. set (s1 := upd r _ _).
  assert (E : get r s1 = (get r s) <| out := rest |>) by (unfold s1; by rewrite get_upd, decide_True).
  assert (Hl : is_live r s) by (unfold is_live; by rewrite Hsid).
  destruct (HT r Hl) as [T1 T2]. assert (Hq : queued (get r s) = true) by (apply T1; left; by rewrite Ho).
  assert (Hs1 : forall r', r' <> r -> slot (get r' s1) = slot (get r' s)) by (intros; unfold s1; by rewrite slot_upd).
  assert (Hi1 : forall r', sid (get r' s1) = sid (get r' s)) by (intros; by apply (obj_alter_field sid)).
  split; [|split].
  - apply (tidy_other s _ id r); try done. rewrite E. split; [done|]. intros _. change (pending s1) with (pending s). rewrite Hpend. left.
  - apply (tidy_other s _ id r); try done.
    + intros x Hx. cbn. rewrite Hpend. intros Hin. apply elem_of_app. left. by eapply tail_elem.
    + change (get r _) with (get r s1). rewrite E. split; [done|]. intros _. cbn. apply elem_of_app. right. left.
  - intros [-> Hf]. apply (tidy_other s _ id r); try done.
    + intros r' Hne. unfold pop_pending. by rewrite slot_upd, <- Hs1.
    + intros r'. etrans; [by apply (obj_alter_field sid)|apply Hi1].
    + intros x Hx. cbn. rewrite Hpend. by apply tail_elem.
    + assert (E2 : get r (pop_pending r s1) = (get r s) <| out := [] |> <| queued := false |>).
      { unfold pop_pending. rewrite get_upd, decide_True; [|split; [done|unfold s1, upd; cbn; by rewrite length_alter]].
        change (get r (s1 <| pending ::= tail |>)) with (get r s1). by rewrite E. }
      rewrite E2. split; [|done]. intros [H|H]; [done|]. done.
Qed.
End Head.

Lemma flush_step_tidy s s' fl : flush_step s = (s', fl) -> wf s -> tidy s -> tidy s'.
Proof.
  unfold flush_step. set (s1 := if _ && _ then _ else s). intros H Hw HT.
  assert (HT1 : tidy s1) by (subst s1; destruct (_ && _); [revert HT; by apply tidy_same|done]).
  assert (Hw1 : forall id r, streams s1 !! id = Some r -> valid r s1 /\ sid (get r s1) = id).
  { clear HT1 H. intros id r E. assert (E' : streams s !! id = Some r) by (subst s1; by case_match).
    subst s1. case_match; exact (wf_table _ Hw id r E'). }
  clearbody s1. destruct (control s1) as [|f q].
  2: { unfold flush_control in H. destruct (conn_write _ _ _) as [[e|] c]; simplify_eq; revert HT1; by apply tidy_same. }
  destruct (pending s1) as [|id q] eqn:Ep; [by simplify_eq|].
  destruct (streams s1 !! id) as [r|] eqn:Em.
  2: { simplify_eq. intros r Hl. destruct (HT1 r Hl) as [T1 T2]. split; [done|]. intros Hq. cbn. specialize (T2 Hq). rewrite Ep in *.
       eapply tail_elem; [|exact T2]. intros E. unfold is_live in Hl. change (streams s1 !! sid (get r s1) = Some r) in Hl.
       change (get r (s1 <| pending ::= tail |>)) with (get r s1) in E. congruence. }
  destruct (Hw1 id r Em) as [Hv Hid].
  destruct (out (get r s1)) as [|f rest] eqn:Eo.
  - case_bool_decide as Hf.
    + unfold flush_fin in H. destruct (conn_write _ _ _) as [[e|] c]; simplify_eq; [revert HT1; by apply tidy_same|].
      eapply tidy_fin; eauto.
    + simplify_eq. eapply tidy_pop; eauto. intros [X|X]; [by rewrite Eo in X|done].
  - unfold flush_data in H. destruct (conn_write _ _ _) as [[e|] c].
    + destruct (tidy_sent s1 id q r Ep Em Hv Hid c f rest _ Eo HT1 eq_refl) as (A & _ & _).
      destruct e; simplify_eq; try exact A; revert HT1; by apply tidy_same.
    + destruct (tidy_sent s1 id q r Ep Em Hv Hid c f rest _ Eo HT1 eq_refl) as (_ & A & B).
      set (s2 := upd r (fun st => st <| out := rest |>) (s1 <| conn := c |>)) in *.
      assert (Ef : finState (get r s2) = finState (get r s1)) by (by apply (obj_alter_field finState)).
      destruct (bool_decide (rest = []) && _) eqn:Ec; simplify_eq.
      * apply andb_true_iff in Ec as [E1 E2]. apply bool_decide_eq_true in E1. apply negb_true_iff, bool_decide_eq_false in E2.
        rewrite Ef in E2. specialize (B (conj E1 E2)). case_match; [|done]. revert B. by apply tidy_same.
      * exact A.
Qed.

Lemma flushLocked_tidy s s' e : flushLocked s = (s', e) -> keeps_tidy s s'.
Proof.
  intros H. split; [by eapply good_flush|]. revert H. unfold flushLocked. destruct (closed s); [by intros [= -> _]|].
  generalize maxFlushFrames. intros n. revert s. induction n as [|n IH]; intros s H Hw HT; cbn in H; [by simplify_eq|].
  destruct (flush_step s) as [s1 [|err]] eqn:E; pose proof (flush_step_tidy _ _ _ E Hw HT) as HT1.
  - eapply IH; [exact H|by eapply flush_step_wf|done].
  - by simplify_eq.
Qed.

Lemma tidy_publish st s s' :
  good s s' -> out st = [] -> queued st = false -> finState st = finNone ->
  objects s' = objects s ++ [st] -> streams s' = <[sid st := length (objects s)]> (streams s) -> pending s' = pending s ->
  keeps_tidy s s'.
Proof.
  intros HG Ho Hq Hf H1 H2 H3. split; [done|]. intros _ HT r Hl. destruct (decide (r = length (objects s))) as [->|Hne].
  - assert (E : get (length (objects s)) s' = st) by (unfold get; rewrite H1; apply obj_snoc_r).
    unfold has_work. rewrite E, Ho, Hq, Hf. split; [|done]. by intros [X|X].
  - assert (E : get r s' = get r s).
    { unfold get. rewrite H1. destruct (decide (r < length (objects s))%nat); [by apply obj_snoc_l|].
      unfold obj. rewrite (lookup_ge_None_2 (objects s) r) by lia. by rewrite lookup_ge_None_2 by (rewrite length_app; cbn; lia). }
    unfold is_live in Hl. rewrite E, H2 in Hl. rewrite E, H3. apply HT.
    apply lookup_insert_Some in Hl as [[_ X]|[_ X]]; [congruence|done].
Qed.

Lemma tidy_open i meta s s' k : open i meta s = Some (s', k) -> keeps_tidy s s'.
Proof.
  intros H. pose proof (good_open _ _ _ _ _ H) as HG.
  apply open_cases in H as [[-> _]|(_ & _ & _ & err & E & _)]; [done|]. etrans; [|by eapply flushLocked_tidy].
  apply (tidy_publish (opening_stream i s)); try done.
  destruct (good_publish (opening_stream i s) (s <| nextID := wrap 32 (nextID s + 2) |>) _ _ eq_refl) as [Hp _].
  etrans; [|etrans; [exact Hp|]]; [shrink|]. etrans; [exact (good_waiter (nextID s) _)|]. shrink.
Qed.

Lemma tidy_accept i id delta meta n s s' k : acceptPublish i id delta meta n s = Some (s', k) -> keeps_tidy s s'.
Proof.
  intros H. assert (HC : forall ty fl len s, keeps_tidy s (sendControlLocked ty fl id len s)).
  { intros. unfold sendControlLocked. case_match; [done|]. apply tidy_shrink; [shrink|done|]. intros r X. split; [exact X|done]. }
  apply acceptPublish_cases in H as [(_ & -> & _)|[(_ & _ & err & E & _)|(_ & _ & err & E & _)]]; [done|..];
    (etrans; [|by eapply flushLocked_tidy]); [apply HC|]. etrans; [|apply HC].
  apply (tidy_publish (accepted_stream id delta (now i) s)); try done.
  by apply (good_publish (accepted_stream id delta (now i) s) s _ _ eq_refl).
Qed.

Lemma tidy_close err s s' k : onTransportClose err s = Some (s', k) -> good s s' -> keeps_tidy s s'.
Proof.
  intros H HG. split; [done|]. intros _ HT. unfold onTransportClose, goes in H. destruct (closed s); injection H as <- _; [done|].
  intros r Hl. unfold is_live in Hl. cbn in Hl. by rewrite lookup_empty in Hl.
Qed.

#[export] Instance tidy_Preserved : Preserved keeps_tidy.
Proof.
  refine {| pr_gone := tidy_gone; pr_flush := flushLocked_tidy; pr_open := tidy_open; pr_accept := tidy_accept; pr_close := tidy_close |}.
  - intros s s' HG E. unfold outbound in E. injection E as E1 E2 E3 _ _. split; [done|]. intros _. by apply tidy_same.
  - intros r f s H. assert (E : forall r', slot (get r' (upd r f s)) = slot (get r' s)).
    { intros r'. apply obj_alter_field. intros st. specialize (H st). unfold scheduled in H. unfold slot. congruence. }
    apply tidy_shrink; [|done|].
    + apply good_upd. intros st. specialize (H st). unfold scheduled in H. congruence.
    + intros r' Hr. split; [|done]. specialize (E r'). unfold slot in E. injection E as Ei _ _ _. unfold is_live in *. by rewrite Ei in Hr.
Qed.

(** ** Writers put their stream on the queue *)

Lemma tidy_queued r f s : valid r s -> (forall st, sid (f st) = sid st) -> (forall st, queued (f st) = queued st) ->
  tidy s -> tidy (queue_stream r (upd r f s)).
Proof.
  intros Hv Hi Hq HT. assert (Er : get r (upd r f s) = f (get r s)) by (by rewrite get_upd, decide_True).
  assert (Ene : forall r', r' <> r -> get r' (upd r f s) = get r' s) by (intros; rewrite get_upd, decide_False; naive_solver).
  unfold queue_stream. rewrite Er, Hq. destruct (queued (get r s)) eqn:Eq.
  - intros r' Hl. destruct (decide (r' = r)) as [->|Hne].
    + unfold is_live in Hl. rewrite Er, Hi in Hl. destruct (HT r Hl) as [_ T2]. rewrite Er, Hi, Hq. auto.
    + unfold is_live in Hl. rewrite Ene in Hl by done. rewrite Ene by done. by apply HT.
  - set (s1 := upd r f s). set (g := fun st : stream => st <| queued := true |>).
    assert (Er1 : get r (upd r g s1) = g (f (get r s))).
    { rewrite get_upd, decide_True; [unfold s1; by rewrite Er|]. split; [done|]. unfold s1, upd. cbn. by rewrite length_alter. }
    assert (Ene1 : forall r', r' <> r -> get r' (upd r g s1) = get r' s) by (intros; rewrite get_upd, decide_False by naive_solver; by apply Ene).
    intros r' Hl. change (get r' _) with (get r' (upd r g s1)). cbn [pending over pending_field].
    unfold is_live in Hl. change (get r' _) with (get r' (upd r g s1)) in Hl. destruct (decide (r' = r)) as [->|Hne].
    + rewrite Er1. unfold g. cbn. rewrite Hi. split; [done|]. intros _. apply elem_of_app. right. left.
    + rewrite Ene1 in Hl by done. rewrite Ene1 by done. destruct (HT r' Hl) as [T1 T2]. split; [done|]. intros. apply elem_of_app. left. auto.
Qed.

Lemma tidy_slot r f s : (forall st, slot (f st) = slot st) -> tidy s -> tidy (upd r f s).
Proof.
  intros H HT r' Hl. assert (E : slot (get r' (upd r f s)) = slot (get r' s)) by (by apply obj_alter_field).
  unfold slot in E. injection E as E1 E2 E3 E4. unfold is_live in Hl. unfold has_work in *. rewrite E1, E2, E3, E4 in *. by apply HT.
Qed.

Lemma tidy_exec i t s s' k :
  exec i t s = Some (s', k) -> wf s -> todo_ok s t -> tidy s -> tidy s'.
Proof.
  intros H Hw Ht HT. destruct (locking t) eqn:Hlk.
  2: { by apply (exec_preserved keeps_tidy _ _ _ _ _ H Hlk Hw Ht). }
  destruct Ht as [Hv _]. destruct t; try discriminate Hlk; cbn [exec] in H; apply valid_of in Hv.
  - unfold Write, goes, take_credit in H. repeat (case_match; simplify_eq/=; try done); by apply tidy_slot.
  - unfold WriteOwned, goes, take_credit in H. repeat (case_match; simplify_eq/=; try done); by apply tidy_slot.
  - unfold frameData, goes, unlock_write, enqueue in H. destruct p; [simplify_eq; by apply tidy_slot|].
    destruct (live r s); cbn [negb] in H; simplify_eq; [by apply tidy_queued|by apply tidy_slot].
  - unfold CloseWrite, goes in H. repeat (case_match; simplify_eq/=; try done); by apply tidy_slot.
  - unfold enqueueFin, unlock_write in H. injection H as <- _. apply tidy_slot; [done|].
    case_match; [done|]. by apply tidy_queued.
Qed.

(** Whatever ran, a stream of the session with frames or a FIN to send is on
    the round-robin queue. *)
Lemma tidy_reachable m : mreachable m -> refs_ok (sess m) (todos m) /\ tidy (sess m).
Proof.
  intros (c & h & cl & vs & now & Hm).
  refine (refs_induction (fun _ _ => True) (fun s _ => tidy s) _ _ _ _ _ _ _ _ _ _ _ (reaches_all _ _ Hm) _); try done.
  intros i t s s' k ts He _ [Hw Ht] HT. inversion Ht; subst. by eapply tidy_exec.
Qed.

(** ** Flushing to a transport that accepts *)

Definition outs (l : list stream) : nat := sum_list_with (fun st => length (out st)) l.

(** What the scheduler has left: control frames, entries of the round-robin
    queue and the frames of the streams. *)
Definition work (s : session) : nat := length (control s) + length (pending s) + outs (objects s).

#[local] Arguments outs : simpl never.

Lemma outs_alter g l r : (r < length l)%nat -> (outs (alter g r l) + length (out (obj l r)) = outs l + length (out (g (obj l r))))%nat.
Proof.
  revert r. induction l as [|st l IH]; intros [|r] Hr; cbn [length] in Hr; try lia.
  - change (length (out (g st)) + outs l + length (out st) = length (out st) + outs l + length (out (g st)))%nat. lia.
  - specialize (IH r ltac:(lia)).
    change (length (out st) + outs (alter g r l) + length (out (obj l r)) = length (out st) + outs l + length (out (g (obj l r))))%nat. lia.
Qed.

Lemma outs_upd g r s : valid r s -> (outs (objects (upd r g s)) + length (out (get r s)) = outs (objects s) + length (out (g (get r s))))%nat.
Proof. apply outs_alter. Qed.

Lemma outs_same g l r : (forall st, out (g st) = out st) -> outs (alter g r l) = outs l.
Proof.
  intros H. revert r. induction l as [|st l IH]; intros [|r]; [done..| |].
  - change (length (out (g st)) + outs l = length (out st) + outs l)%nat. by rewrite H.
  - change (length (out st) + outs (alter g r l) = length (out st) + outs l)%nat. by rewrite IH.
Qed.

(** One iteration when nothing refuses a frame: it ends only when both queues
    are empty; a control frame goes first; else the stream at the head of the
    queue sends one frame, and every other stream is left alone. *)
Record served (s s' : session) : Prop := {
  sv_open : verdicts (conn s') = [];
  sv_table : streams s' = streams s;
  sv_wf : wf s';
  sv_tidy : tidy s -> tidy s';
  sv_less : (work s' < work s)%nat
}.

Lemma flush_step_control s f q :
  verdicts (conn s) = [] -> wf s -> control s = f :: q ->
  exists s', flush_step s = (s', Again) /\ served s s' /\ control s' = q /\ pending s' = pending s /\ objects s' = objects s.
Proof.
  intros Hv Hw Hc. destruct (flush_step s) as [s' fl] eqn:E. pose proof (flush_step_wf _ _ _ E Hw) as Hw'.
  pose proof (fun HT => flush_step_tidy _ _ _ E Hw HT) as HT'. revert E.
  unfold flush_step. rewrite Hc. rewrite bool_decide_eq_false_2 by done. rewrite andb_false_r, Hc.
  unfold flush_control, conn_write. rewrite Hv. intros [= <- <-].
  eexists. split; [done|]. split; [|cbn; by rewrite Hc]. split; cbn; rewrite ?Hv; try done.
  unfold work. cbn. rewrite Hc. cbn. lia.
Qed.

Lemma flush_step_stream s id q :
  verdicts (conn s) = [] -> wf s -> control s = [] -> pending s = id :: q ->
  exists s' t, flush_step s = (s', Again) /\ served s s' /\ control s' = [] /\ pending s' = q ++ t /\
    (forall r, streams s !! id <> Some r -> get r s' = get r s) /\
    (forall r f rest, streams s !! id = Some r -> out (get r s) = f :: rest -> last (sent (conn s')) = Some (Some r, f)).
Proof.
  intros Hv Hw Hc Hp. destruct (flush_step s) as [s' fl] eqn:E. pose proof (flush_step_wf _ _ _ E Hw) as Hw'.
  pose proof (fun HT => flush_step_tidy _ _ _ E Hw HT) as HT'. revert E.
  unfold flush_step. set (s1 := if _ && _ then _ else s).
  assert (E1 : verdicts (conn s1) = [] /\ control s1 = [] /\ pending s1 = id :: q /\ objects s1 = objects s /\ streams s1 = streams s /\ hks s1 = hks s)
    by (subst s1; case_match; done).
  clearbody s1. destruct E1 as (Hv1 & Hc1 & Hp1 & Ho1 & Hs1 & _). rewrite Hc1, Hp1, Hs1.
  assert (Hg1 : forall r, get r s1 = get r s) by (intros; unfold get; by rewrite Ho1).
  assert (Hsv : verdicts (conn s') = [] -> streams s' = streams s -> (work s' < work s)%nat -> served s s') by (by constructor).
  assert (Hwk : work s = S (length q + outs (objects s1))) by (unfold work; rewrite Hc, Hp, Ho1; cbn; lia).
  destruct (streams s !! id) as [r|] eqn:Em.
  2: { intros [= <- <-]. eexists _, []. rewrite app_nil_r. split; [done|]. split; [|cbn; rewrite Hp1; naive_solver].
       apply Hsv; try done. rewrite Hwk. unfold work. cbn. rewrite Hc1, Hp1. cbn. lia. }
  destruct (wf_table _ Hw id r Em) as [Hr Hid]. assert (Hr1 : valid r s1) by (by rewrite Ho1).
  assert (Hother : forall g r' l, Some r <> Some r' -> obj (alter g r l) r' = obj l r').
  { intros g r' l Hne. rewrite obj_alter, decide_False by naive_solver. done. }
  rewrite Hg1. destruct (out (get r s)) as [|f rest] eqn:Eo.
  - case_bool_decide as Hf.
    + unfold flush_fin, conn_write. rewrite Hv1. intros [= <- <-]. eexists _, []. rewrite app_nil_r. split; [done|].
      split; [|split; [done|split; [cbn; by rewrite Hp1|split; [|intros ??? [= <-]; by rewrite Eo]]]].
      * apply Hsv; [cbn; by rewrite Hv1|done|]. rewrite Hwk. unfold work. cbn. rewrite !outs_same, Hc1, Hp1 by done. cbn. lia.
      * intros r' Hne. unfold get. cbn. rewrite !Hother by done. by rewrite Ho1.
    + intros [= <- <-]. eexists _, []. rewrite app_nil_r. split; [done|].
      split; [|split; [done|split; [cbn; by rewrite Hp1|split; [|intros ??? [= <-]; by rewrite Eo]]]].
      * apply Hsv; [done|done|]. rewrite Hwk. unfold work. cbn. rewrite !outs_same, Hc1, Hp1 by done. cbn. lia.
      * intros r' Hne. unfold get. cbn. rewrite Hother by done. by rewrite Ho1.
  - pose proof (outs_upd (fun st => st <| out := rest |>) r s1 Hr1) as Hu. rewrite Hg1, Eo in Hu.
    cbn in Hu. unfold flush_data, conn_write. rewrite Hv1. set (s2 := upd r _ _).
    assert (E2 : control s2 = [] /\ pending s2 = id :: q /\ objects s2 = alter (fun st => st <| out := rest |>) r (objects s1) /\ verdicts (conn s2) = [] /\ streams s2 = streams s /\ sent (conn s2) = sent (conn s1) ++ [(Some r, f)])
      by (subst s2; cbn; by rewrite Hv1).
    clearbody s2. destruct E2 as (Hc2 & Hp2 & Ho2 & Hv2 & Hs2 & Hsent).
    destruct (bool_decide (rest = []) && _) eqn:Ec; intros [= <- <-].
    + eexists _, []. rewrite app_nil_r. split; [done|].
      set (s3 := if drainObs _ then _ else _) in *.
      assert (E3 : control s3 = [] /\ pending s3 = q /\ objects s3 = alter (fun st => st <| queued := false |>) r (objects s2) /\ verdicts (conn s3) = [] /\ streams s3 = streams s /\ sent (conn s3) = sent (conn s2)) by (subst s3; case_match; cbn; rewrite Hc2, Hp2, Hv2, Hs2; done).
      clearbody s3. destruct E3 as (Hc3 & Hp3 & Ho3 & Hv3 & Hs3 & Hsent3).
      split; [|split; [done|split; [done|split]]].
      * apply Hsv; [done..|]. rewrite Hwk. unfold work. rewrite Hc3, Hp3, Ho3, outs_same, Ho2 by done. cbn in *. lia.
      * intros r' Hne. unfold get. rewrite Ho3, Ho2, !Hother by done. by rewrite Ho1.
      * intros r' f' rest' [= ->] Ef. rewrite Eo in Ef. injection Ef as -> ->. by rewrite Hsent3, Hsent, last_snoc.
    + eexists _, [id]. split; [done|]. split; [|split; [done|split; [cbn; by rewrite Hp2|split]]].
      * apply Hsv; [done..|]. rewrite Hwk. unfold work. cbn. rewrite Hc2, Hp2, Ho2, length_app. cbn in *. lia.
      * intros r' Hne. unfold get. cbn. rewrite Ho2, Hother by done. by rewrite Ho1.
      * intros r' f' rest' [= ->] Ef. rewrite Eo in Ef. injection Ef as -> ->. cbn. by rewrite Hsent, last_snoc.
Qed.

Lemma flush_step_idle s :
  control s = [] -> pending s = [] ->
  flush_step s = (if goAwaySent s then s <| goAwayFlushed := true |> else s, Stop None).
Proof. intros H1 H2. unfold flush_step. rewrite H1, andb_true_r. destruct (goAwaySent s); cbn; by rewrite H1, H2. Qed.

Lemma work_none s : work s = O <-> control s = [] /\ pending s = [] /\ outs (objects s) = O.
Proof. unfold work. rewrite <- !length_zero_iff_nil. lia. Qed.

(** What a pass over an accepting transport keeps. *)
Record passing (s s' : session) : Prop := {
  ps_open : verdicts (conn s') = [];
  ps_table : streams s' = streams s;
  ps_wf : wf s';
  ps_tidy : tidy s'
}.

Lemma flush_loop_serves n s :
  verdicts (conn s) = [] -> wf s -> tidy s ->
  exists s', flush_loop n s = (s', None) /\ passing s s' /\
    ((work s' + n <= work s)%nat \/ control s' = [] /\ pending s' = []).
Proof.
  revert s. induction n as [|n IH]; intros s Hv Hw HT; [eexists; split; [done|]; split; [done|lia]|]. cbn [flush_loop].
  assert (Hstep : (exists s1, flush_step s = (s1, Again) /\ served s s1) \/ (control s = [] /\ pending s = [])).
  { destruct (control s) as [|f q] eqn:Ec.
    - destruct (pending s) as [|id q] eqn:Ep; [by right|]. left.
      destruct (flush_step_stream s id q Hv Hw Ec Ep) as (s1 & _ & H & HS & _); eauto.
    - left. destruct (flush_step_control s f q Hv Hw Ec) as (s1 & H & HS & _); eauto. }
  destruct Hstep as [(s1 & -> & [S1 S2 S3 S4 S5])|[E1 E2]].
  - destruct (IH s1 S1 S3 (S4 HT)) as (s' & E & [P1 P2 P3 P4] & HP). exists s'. split; [done|]. split; [constructor; [done|congruence|done..]|].
    destruct HP; [left; lia|by right].
  - rewrite flush_step_idle by done. eexists. split; [done|]. split; [|right; by case_match].
    destruct (goAwaySent s); [|done]. constructor; [done..| |done].
    destruct Hw. by constructor.
Qed.

Lemma flush_loop_idle n s : control s = [] -> pending s = [] ->
  control (flush_loop n s).1 = [] /\ pending (flush_loop n s).1 = [].
Proof. intros H1 H2. destruct n; [done|]. cbn [flush_loop]. rewrite flush_step_idle by done. by case_match. Qed.

(** Repeated flush passes, each under the lock for its own 256 frames. *)
Definition passes (n : nat) (s : session) : session := Nat.iter n (fun s => (flushLocked s).1) s.

Lemma passes_serve n s :
  closed s = false -> verdicts (conn s) = [] -> wf s -> tidy s ->
  closed (passes n s) = false /\ passing s (passes n s) /\
    ((work (passes n s) + n * maxFlushFrames <= work s)%nat \/ control (passes n s) = [] /\ pending (passes n s) = []).
Proof.
  intros Hc Hv Hw HT. induction n as [|n (Ic & [P1 P2 P3 P4] & HP)]; [split; [done|split; [done|left; cbn; lia]]|].
  change (passes (S n) s) with ((flushLocked (passes n s)).1). set (s1 := passes n s) in *. clearbody s1.
  destruct (flushLocked s1) as [s' e] eqn:E. pose proof (flushLocked_core _ _ _ E) as Hk. cbn [fst].
  unfold flushLocked in E. rewrite Ic in E.
  destruct (flush_loop_serves maxFlushFrames s1 P1 P3 P4) as (s2 & E2 & [Q1 Q2 Q3 Q4] & HQ). rewrite E2 in E. injection E as <- _.
  split; [|split; [constructor; [done|congruence|done..]|]].
  - rewrite <- Ic. by apply (core_field closed).
  - destruct HP as [HP|[E1 E3]]; [|right].
    + destruct HQ as [HQ|HQ]; [left|by right]. rewrite Nat.mul_succ_l. lia.
    + change s2 with ((s2, @None error).1). rewrite <- E2. by apply flush_loop_idle.
Qed.

(** C9. Flushing makes progress to the end.  Whatever the session went
    through, if the transport now accepts what it is given, then after enough
    flush passes of 256 frames each (the work queued, divided by 256, rounded
    up) no control frame waits, the round-robin queue is empty, and no stream
    of the session has a data frame or a FIN left to send. *)
Theorem flush_passes_drain m n :
  mreachable m -> closed (sess m) = false -> verdicts (conn (sess m)) = [] ->
  (work (sess m) <= n * maxFlushFrames)%nat ->
  let s := passes n (sess m) in
  control s = [] /\ pending s = [] /\ streams s = streams (sess m) /\
  forall id r, streams s !! id = Some r -> out (get r s) = [] /\ finState (get r s) <> finQueued.
Proof.
  intros Hm Hc Hv Hn s. destruct (tidy_reachable m Hm) as [[Hw _] HT].
  destruct (passes_serve n _ Hc Hv Hw HT) as (_ & [P1 P2 P3 P4] & HP). fold s in P1, P2, P3, P4, HP.
  assert (HI : control s = [] /\ pending s = []).
  { destruct HP as [HP|HP]; [|done]. destruct (proj1 (work_none s)) as (A & B & _); [lia|done]. }
  destruct HI as [HI1 HI2]. split; [done|]. split; [done|]. split; [done|]. intros id r Hr.
  destruct (wf_table _ P3 id r Hr) as [_ Hid].
  destruct (P4 r) as [T1 T2]; [unfold is_live; congruence|]. rewrite HI2 in T2.
  assert (HN : ~ has_work (get r s)) by (intros X; specialize (T2 (T1 X)); by apply elem_of_nil in T2).
  unfold has_work in HN. split; [|naive_solver]. destruct (out (get r s)); [done|]. exfalso. apply HN. by left.
Qed.

(** The race of MuxOrder.v, stopped after the transport refused a frame. *)
Definition stalled_machine : option machine :=
  sched (take 37 racing_writers) (start (resolve (MkConfig true 0 0 0 0 0 0 0 0 0 0 0)) (MkHooks false false false false false) true overflow_once 0).

Lemma flush_passes_drain_witness :
  exists m, stalled_machine = Some m /\ work (sess m) = 3%nat /\
  pending (passes 1 (sess m)) = [] /\ out (get 0 (passes 1 (sess m))) = [].
Proof.
  destruct stalled_machine as [m|] eqn:E; [|exfalso; vm_compute in E; discriminate E].
  assert (Hf : (closed (sess m), verdicts (conn (sess m)), work (sess m), streams (sess m) !! 1) = (false, [], 3%nat, Some 0%nat))
    by (vm_compute in E; injection E as <-; reflexivity).
  injection Hf as Hc Hv Hk Hs.
  destruct (flush_passes_drain m 1) as (_ & Hp & Hm & H); [|assumption|assumption|rewrite Hk; unfold maxFlushFrames; lia|].
  - eexists _, _, _, _, _. exact (sched_reaches _ _ _ E).
  - exists m. split; [reflexivity|]. split; [exact Hk|]. split; [exact Hp|].
    apply (H 1 0%nat). rewrite Hm. exact Hs.
Defined.

(** ** A stream's turn *)

Lemma flush_loop_step n s s1 : flush_step s = (s1, Again) -> flush_loop (S n) s = flush_loop n s1.
Proof. intros H. cbn [flush_loop]. by rewrite H. Qed.

(** Every stream ahead in the queue sends at most one frame first. *)
Lemma turn_comes pre : forall s id r f rest post,
  verdicts (conn s) = [] -> wf s -> control s = [] -> pending s = pre ++ id :: post -> id ∉ pre ->
  streams s !! id = Some r -> out (get r s) = f :: rest ->
  last (sent (conn (flush_loop (S (length pre)) s).1)) = Some (Some r, f).
Proof.
  induction pre as [|id' pre IH]; intros s id r f rest post Hv Hw Hc Hp Hn Hr Ho.
  - destruct (flush_step_stream s id post Hv Hw Hc Hp) as (s1 & t & E & _ & _ & _ & _ & Hs). cbn [length].
    rewrite (flush_loop_step _ _ _ E). cbn. by eapply Hs.
  - destruct (flush_step_stream s id' (pre ++ id :: post) Hv Hw Hc Hp) as (s1 & t & E & [S1 S2 S3 _ _] & Hc1 & Hp1 & Hg & _).
    apply not_elem_of_cons in Hn as [Hne Hn]. cbn [length]. rewrite (flush_loop_step _ _ _ E).
    apply (IH s1 id r f rest (post ++ t)); try done.
    + rewrite Hp1. by rewrite <- app_assoc.
    + by rewrite S2.
    + rewrite Hg; [done|]. intros X. destruct (wf_table _ Hw _ _ X) as [_ A]. destruct (wf_table _ Hw _ _ Hr) as [_ B]. congruence.
Qed.

Lemma control_goes q : forall s n,
  verdicts (conn s) = [] -> wf s -> control s = q ->
  exists s1, flush_loop (length q + n) s = flush_loop n s1 /\ verdicts (conn s1) = [] /\ wf s1 /\ control s1 = [] /\
    pending s1 = pending s /\ objects s1 = objects s /\ streams s1 = streams s.
Proof.
  induction q as [|f q IH]; intros s n Hv Hw Hc; [by exists s|].
  destruct (flush_step_control s f q Hv Hw Hc) as (s1 & E & [S1 S2 S3 _ _] & Hc1 & Hp1 & Ho1).
  destruct (IH s1 n S1 S3 Hc1) as (s2 & E2 & H1 & H2 & H3 & H4 & H5 & H6). exists s2.
  change (length (f :: q) + n)%nat with (S (length q + n)). rewrite (flush_loop_step _ _ _ E). split; [done|]. split; [done|]. split; [done|]. split; [done|]. split; [congruence|split; congruence].
Qed.

(** C22. Scheduling is fair.  In every reachable session whose transport
    accepts, a stream with data queued sends its next frame after the control
    frames waiting and one frame at most of each queue entry ahead of it,
    however much those streams have queued. *)
Theorem round_robin_is_fair m pre id post r f rest :
  mreachable m -> verdicts (conn (sess m)) = [] ->
  pending (sess m) = pre ++ id :: post -> id ∉ pre ->
  streams (sess m) !! id = Some r -> out (get r (sess m)) = f :: rest ->
  last (sent (conn (flush_loop (length (control (sess m)) + S (length pre)) (sess m)).1)) = Some (Some r, f).
Proof.
  intros Hm Hv Hp Hn Hr Ho. destruct (tidy_reachable m Hm) as [[Hw _] _].
  destruct (control_goes _ (sess m) (S (length pre)) Hv Hw eq_refl) as (s1 & -> & H1 & H2 & H3 & H4 & H5 & H6).
  apply (turn_comes pre s1 id r f rest post); try congruence. unfold get. by rewrite H5.
Qed.

Lemma round_robin_is_fair_witness :
  exists m, stalled_machine = Some m /\ length (out (get 0 (sess m))) = 2%nat /\
  option_map (fun e => snd (snd e)) (last (sent (conn (flush_loop 1 (sess m)).1))) = Some [1; 2; 3].
Proof.
  destruct stalled_machine as [m|] eqn:E; [|exfalso; vm_compute in E; discriminate E].
  assert (Hf : (control (sess m), verdicts (conn (sess m)), pending (sess m), streams (sess m) !! 1, out (get 0 (sess m))) =
    ([], [], [1], Some 0%nat, [data_frame 1 [1; 2; 3]; data_frame 1 [4; 5]])) by (vm_compute in E; injection E as <-; reflexivity).
  injection Hf as Hc Hv Hp Hs Ho. exists m. split; [reflexivity|]. split; [rewrite Ho; reflexivity|].
  pose proof (round_robin_is_fair m [] 1 [] 0 (data_frame 1 [1; 2; 3]) [data_frame 1 [4; 5]]) as H.
  rewrite Hc in H. cbn [length Nat.add] in H. rewrite H; [reflexivity|..]; try assumption.
  - eexists _, _, _, _, _. exact (sched_reaches _ _ _ E).
  - apply not_elem_of_nil.
Defined.
