(* ===== verification/WsMask.v ===== *)
(** * uws/internal/frame/mask.go: masking payloads a word at a time

    [unmask] and [UnmaskASCII] as the code computes them: a byte loop for short
    payloads, 64-bit words read and written in little-endian order for longer
    ones, and, where the CPU has it, a vector routine for the bulk.  The
    assembly routines are the class [Vector]: what they compute is stated by
    its laws, and the build without them (mask_generic.go, utf8_generic.go) is
    an instance. *)

From S2P Require Import Prelude.
From S2P Require Import Endian Utf8.
Local Open Scope Z_scope.

Definition wordUnmaskThreshold : nat := 16.
Definition vectorUnmaskThreshold : nat := 128.

(** [key[i&3]] *)
Definition key_at (key : list Z) (i : Z) : Z := nth (Z.to_nat (Z.land i 3)) key 0.

(** [payload[i] ^= key[(offset+i)&3]] for every [i] *)
Fixpoint mask_bytes (key : list Z) (offset : Z) (payload : list Z) : list Z :=
  match payload with
  | [] => []
  | b :: payload => Z.lxor b (key_at key offset) :: mask_bytes key (offset + 1) payload
  end.

(** One word: [PutUint64(payload, Uint64(payload)^key64)]. *)
Definition mask_word (key64 : Z) (word : list Z) : list Z :=
  le_bytes 8 (Z.lxor (le_val word) key64).

(** Whole words from the front. *)
Fixpoint mask_words (n : nat) (key64 : Z) (payload : list Z) : list Z :=
  match n with
  | O => []
  | S n => mask_word key64 (take 8 payload) ++ mask_words n key64 (drop 8 payload)
  end.

Class Vector : Type := {
  useAVX2 : bool;
  maskAVX2 : list Z -> Z -> list Z;
  maskASCIIAVX2 : list Z -> Z -> Z * list Z;
  ValidUTF8 : list Z -> bool;
  maskAVX2_law n p key64 : useAVX2 = true -> length p = (32 * n)%nat -> Forall is_byte p ->
    maskAVX2 p key64 = mask_words (4 * n) key64 p;
  maskASCIIAVX2_law n p key64 : useAVX2 = true -> length p = (32 * n)%nat -> Forall is_byte p ->
    (maskASCIIAVX2 p key64).2 = mask_words (4 * n) key64 p /\
    ((maskASCIIAVX2 p key64).1 = 0 <-> Forall (fun b => b < 128) (mask_words (4 * n) key64 p));
  ValidUTF8_law p : Forall is_byte p -> ValidUTF8 p = Valid p
}.

(** The build without assembly. *)
#[export] Instance generic_vector : Vector.
Proof.
  refine {| useAVX2 := false; maskAVX2 := fun p _ => p; maskASCIIAVX2 := fun p _ => (0, p); ValidUTF8 := Valid |};
    done.
Defined.

Section Mask.
Context `{Vector}.

(** The loops over 32 and 8 bytes; [fuel] bounds the rounds. *)
Fixpoint mask_loop32 (fuel : nat) (key64 : Z) (payload : list Z) : list Z * list Z :=
  match fuel with
  | O => ([], payload)
  | S fuel =>
      if (32 <=? length payload)%nat then
        let w0 := mask_word key64 (take 8 payload) in
        let w1 := mask_word key64 (take 8 (drop 8 payload)) in
        let w2 := mask_word key64 (take 8 (drop 16 payload)) in
        let w3 := mask_word key64 (take 8 (drop 24 payload)) in
        let '(done, rest) := mask_loop32 fuel key64 (drop 32 payload) in
        (w0 ++ w1 ++ w2 ++ w3 ++ done, rest)
      else ([], payload)
  end.

Fixpoint mask_loop8 (fuel : nat) (key64 : Z) (payload : list Z) : list Z * list Z :=
  match fuel with
  | O => ([], payload)
  | S fuel =>
      if (8 <=? length payload)%nat then
        let w := mask_word key64 (take 8 payload) in
        let '(done, rest) := mask_loop8 fuel key64 (drop 8 payload) in
        (w ++ done, rest)
      else ([], payload)
  end.

(** [uint64(key32) | uint64(key32)<<32] *)
Definition double_key (key32 : Z) : Z := Z.lor key32 (Z.shiftl key32 32).

Definition unmask (payload : list Z) (key : list Z) (offset : Z) : list Z :=
  let offset := Z.land offset 3 in
  if (length payload <? wordUnmaskThreshold)%nat then mask_bytes key offset payload
  else
    let key32 := Z.lor (Z.lor (Z.lor (nth (Z.to_nat offset) key 0)
        (Z.shiftl (key_at key (offset + 1)) 8))
        (Z.shiftl (key_at key (offset + 2)) 16))
        (Z.shiftl (key_at key (offset + 3)) 24) in
    let key64 := double_key key32 in
    let '(vec, payload) :=
      if useAVX2 && (vectorUnmaskThreshold <=? length payload)%nat then
        let n := Z.to_nat (Z.ldiff (Z.of_nat (length payload)) 31) in
        (maskAVX2 (take n payload) key64, drop n payload)
      else ([], payload) in
    let '(d32, payload) := mask_loop32 (length payload) key64 payload in
    let '(d8, payload) := mask_loop8 (length payload) key64 payload in
    vec ++ d32 ++ d8 ++ mask_bytes key offset payload.

Definition Unmask (payload : list Z) (key : list Z) : list Z := unmask payload key 0.

(** UnmaskASCII's loops also collect the bits of the words they wrote. *)
Fixpoint or_words (n : nat) (key64 : Z) (payload : list Z) (seen : Z) : Z :=
  match n with
  | O => seen
  | S n => or_words n key64 (drop 8 payload) (Z.lor seen (Z.lxor (le_val (take 8 payload)) key64))
  end.

(** The loop over [step] words a round: UnmaskASCII has it for four and for one. *)
Fixpoint ascii_loop (step fuel : nat) (key64 : Z) (payload : list Z) (seen : Z) : list Z * list Z * Z :=
  match fuel with
  | O => ([], payload, seen)
  | S fuel =>
      if (8 * step <=? length payload)%nat then
        let ws := mask_words step key64 payload in
        let seen := or_words step key64 payload seen in
        let '(done, rest, seen) := ascii_loop step fuel key64 (drop (8 * step) payload) seen in
        (ws ++ done, rest, seen)
      else ([], payload, seen)
  end.

Definition or_bytes (seen : Z) (l : list Z) : Z := fold_left Z.lor l seen.

Definition UnmaskASCII (payload : list Z) (key : list Z) : bool * list Z :=
  if (length payload <? wordUnmaskThreshold)%nat then
    let out := mask_bytes key 0 payload in
    (or_bytes 0 out <? 128, out)
  else
    let key32 := le_val key in
    let key64 := double_key key32 in
    let '(vec, payload, seen) :=
      if useAVX2 && (vectorUnmaskThreshold <=? length payload)%nat then
        let n := Z.to_nat (Z.ldiff (Z.of_nat (length payload)) 31) in
        let '(hi, out) := maskASCIIAVX2 (take n payload) key64 in
        (out, drop n payload, if hi =? 0 then 0 else 128)
      else ([], payload, 0) in
    let '(d32, payload, seen) := ascii_loop 4 (length payload) key64 payload seen in
    let '(d8, payload, seen) := ascii_loop 1 (length payload) key64 payload seen in
    let out := mask_bytes key 0 payload in
    let seen := or_bytes seen out in
    (Z.land seen (Z.of_N 0x8080808080808080) =? 0, vec ++ d32 ++ d8 ++ out).
End Mask.

(** ** Words and bytes agree *)

Lemma byte_bits z : is_byte z -> Z.land z (Z.ones 8) = z.
Proof. intros Hz. rewrite Z.land_ones by lia. by apply Z.mod_small. Qed.

Lemma byte_bit_high z i : is_byte z -> 8 <= i -> Z.testbit z i = false.
Proof.
  intros Hz Hi. rewrite <-(byte_bits z Hz), Z.land_spec, (Z.ones_spec_high 8) by lia. apply andb_false_r.
Qed.

Lemma lxor_byte a b : is_byte a -> is_byte b -> is_byte (Z.lxor a b).
Proof.
  intros Ha Hb. assert (E : Z.land (Z.lxor a b) (Z.ones 8) = Z.lxor a b).
  { apply Z.bits_inj'. intros i Hi. rewrite Z.land_spec, Z.lxor_spec.
    destruct (Z.ltb_spec i 8); [rewrite Z.ones_spec_low by lia; apply andb_true_r|].
    rewrite !byte_bit_high by done. done. }
  rewrite <-E, Z.land_ones by lia. apply Z.mod_pos_bound. lia.
Qed.

Lemma low_byte b x : is_byte b -> Z.land (Z.lor b (Z.shiftl x 8)) 255 = b.
Proof.
  intros Hb. rewrite byte_lor, land_255 by done. replace (b + 256 * x) with (b + x * 256) by lia.
  rewrite Z.mod_add by lia. by apply Z.mod_small.
Qed.

Lemma high_bytes b x : is_byte b -> Z.shiftr (Z.lor b (Z.shiftl x 8)) 8 = x.
Proof.
  intros Hb. rewrite byte_lor by done. rewrite Z.shiftr_div_pow2 by lia. unfold is_uint in Hb.
  change (2 ^ 8) with 256 in *. replace (b + 256 * x) with (b + x * 256) by lia.
  rewrite Z.div_add, Z.div_small by lia. done.
Qed.

Lemma lor_lxor x y a b : is_byte x -> is_byte y ->
  Z.lxor (Z.lor x (Z.shiftl a 8)) (Z.lor y (Z.shiftl b 8)) = Z.lor (Z.lxor x y) (Z.shiftl (Z.lxor a b) 8).
Proof.
  intros Hx Hy. apply Z.bits_inj'. intros i Hi. rewrite Z.shiftl_lxor, !Z.lxor_spec, !Z.lor_spec, !Z.lxor_spec.
  destruct (Z.ltb_spec i 8).
  - rewrite !Z.shiftl_spec, !(Z.testbit_neg_r _ (i - 8)), !orb_false_r by lia. done.
  - rewrite (byte_bit_high x), (byte_bit_high y) by done. done.
Qed.

(** The bytes of the exclusive or of two words are the byte-wise exclusive ors. *)
Lemma le_bytes_lxor a b :
  length a = length b -> Forall is_byte a -> Forall is_byte b ->
  le_bytes (length a) (Z.lxor (le_val a) (le_val b)) = zip_with Z.lxor a b /\
  le_val (zip_with Z.lxor a b) = Z.lxor (le_val a) (le_val b) /\ Forall is_byte (zip_with Z.lxor a b).
Proof.
  revert b. induction a as [|x a IH]; intros [|y b] Hl Ha Hb; simpl in *; try done.
  apply Forall_cons_1 in Ha as [Hx Ha]. apply Forall_cons_1 in Hb as [Hy Hb].
  destruct (IH b) as (E1 & E2 & E3); [lia|done..|].
  rewrite lor_lxor, low_byte, high_bytes, E1, E2 by auto using lxor_byte.
  split_and!; [done..|]. constructor; auto using lxor_byte.
Qed.

(** Side conditions on the length and the bytes of a part of a payload. *)
Ltac slices := first [done | rewrite ?length_take, ?length_drop; lia | by apply Forall_take | by apply Forall_drop].

Lemma key_at_mod key i j : i mod 4 = j mod 4 -> key_at key i = key_at key j.
Proof. intros E. unfold key_at. change 3 with (Z.ones 2). rewrite !Z.land_ones by lia. change (2 ^ 2) with 4. by rewrite E. Qed.

Lemma mask_bytes_mod key i j p : i mod 4 = j mod 4 -> mask_bytes key i p = mask_bytes key j p.
Proof.
  revert i j. induction p as [|b p IH]; intros i j E; simpl; [done|]. f_equal; [by rewrite (key_at_mod key i j)|].
  apply IH. rewrite (Z.add_mod i), (Z.add_mod j), E by lia. done.
Qed.

Lemma mask_bytes_app key i a b :
  mask_bytes key i (a ++ b) = mask_bytes key i a ++ mask_bytes key (i + Z.of_nat (length a)) b.
Proof.
  revert i. induction a as [|x a IH]; intros i; simpl; [by rewrite Z.add_0_r|].
  rewrite IH. do 3 f_equal. lia.
Qed.

Lemma length_mask_bytes key i p : length (mask_bytes key i p) = length p.
Proof. revert i. induction p; intros; simpl; auto. Qed.

Lemma le_val_app a b :
  Forall is_byte a -> le_val (a ++ b) = Z.lor (le_val a) (Z.shiftl (le_val b) (8 * Z.of_nat (length a))).
Proof.
  induction 1 as [|x a Hx _ IH]; [simpl app; simpl length; simpl le_val; by rewrite Z.shiftl_0_r|].
  cbn [app le_val]. rewrite IH, Z.shiftl_lor, Z.shiftl_shiftl by lia. rewrite Z.lor_assoc. do 2 f_equal.
  simpl length. lia.
Qed.

(** The four key bytes from a given phase on. *)
Definition rotated (key : list Z) (i : Z) : list Z :=
  [key_at key i; key_at key (i + 1); key_at key (i + 2); key_at key (i + 3)].

Lemma key_at_byte key i : length key = 4%nat -> Forall is_byte key -> is_byte (key_at key i).
Proof.
  intros Hl Hk. unfold key_at. rewrite Forall_nth in Hk. apply Hk.
  change 3 with (Z.ones 2). rewrite Z.land_ones by lia. pose proof (Z.mod_pos_bound i (2 ^ 2)). lia.
Qed.

Lemma rotated_bytes key i : length key = 4%nat -> Forall is_byte key -> Forall is_byte (rotated key i).
Proof. intros. repeat constructor; by apply key_at_byte. Qed.

Lemma double_key_val k : length k = 4%nat -> Forall is_byte k -> double_key (le_val k) = le_val (k ++ k).
Proof. intros Hl Hk. rewrite le_val_app, Hl by done. done. Qed.

Lemma mask_word_bytes key i w :
  length key = 4%nat -> Forall is_byte key -> length w = 8%nat -> Forall is_byte w ->
  mask_word (double_key (le_val (rotated key i))) w = mask_bytes key i w.
Proof.
  intros Hl Hk Hw Hb. unfold mask_word. rewrite double_key_val by (done || by apply rotated_bytes).
  destruct (le_bytes_lxor w (rotated key i ++ rotated key i)) as [E0 _]; [done|done|apply Forall_app_2; by apply rotated_bytes|].
  rewrite Hw in E0. rewrite E0.
  do 8 (destruct w as [|? w]; [done|]). destruct w; [|done]. cbn.
  assert (E : forall j, key_at key (j + 1 + 1 + 1 + 1) = key_at key j).
  { intros j. apply key_at_mod. replace (j + 1 + 1 + 1 + 1) with (j + 1 * 4) by lia. by rewrite Z.mod_add. }
  replace (i + 2) with (i + 1 + 1) by lia. replace (i + 3) with (i + 1 + 1 + 1) by lia. by rewrite !E.
Qed.

Lemma mask_words_bytes key i n p :
  length key = 4%nat -> Forall is_byte key -> length p = (8 * n)%nat -> Forall is_byte p ->
  mask_words n (double_key (le_val (rotated key i))) p = mask_bytes key i p.
Proof.
  intros Hl Hk. revert p. induction n as [|n IH]; intros p Hp Hb; cbn [mask_words].
  { destruct p; [done|simpl in *; lia]. }
  rewrite mask_word_bytes by slices.
  rewrite IH by slices.
  rewrite (mask_bytes_mod key i (i + Z.of_nat (length (take 8 p))) (drop 8 p)).
  { by rewrite <-mask_bytes_app, take_drop. }
  rewrite length_take, Nat.min_l by lia. symmetry. apply (Z.mod_add i 2 4). lia.
Qed.

(** Splitting a payload at whole words keeps the key's phase. *)
Lemma mask_bytes_split key i n p :
  (8 * n <= length p)%nat ->
  mask_bytes key i p = mask_bytes key i (take (8 * n) p) ++ mask_bytes key i (drop (8 * n) p).
Proof.
  intros Hn. rewrite <-(take_drop (8 * n) p) at 1. rewrite mask_bytes_app. f_equal. apply mask_bytes_mod.
  rewrite length_take, Nat.min_l by lia. replace (i + Z.of_nat (8 * n)) with (i + (2 * Z.of_nat n) * 4) by lia.
  apply Z.mod_add. lia.
Qed.

Lemma mask_loop32_words fuel key64 p :
  (length p <= fuel)%nat ->
  exists n, mask_loop32 fuel key64 p = (mask_words (4 * n) key64 p, drop (8 * (4 * n)) p) /\
    (8 * (4 * n) <= length p < 8 * (4 * n) + 32)%nat.
Proof.
  revert p. induction fuel as [|fuel IH]; intros p Hf.
  { exists 0%nat. simpl. rewrite drop_0. split; [done|lia]. }
  cbn [mask_loop32]. destruct (Nat.leb_spec 32 (length p)).
  - destruct (IH (drop 32 p)) as (n & -> & Hn); [rewrite length_drop; lia|]. rewrite length_drop in Hn.
    exists (S n). replace (4 * S n)%nat with (S (S (S (S (4 * n))))) by lia. cbn [mask_words].
    rewrite !drop_drop. split; [|lia]. f_equal; first [by rewrite <-!app_assoc | f_equal; lia].
  - exists 0%nat. simpl. rewrite drop_0. split; [done|lia].
Qed.

Lemma mask_loop8_words fuel key64 p :
  (length p <= fuel)%nat ->
  exists n, mask_loop8 fuel key64 p = (mask_words n key64 p, drop (8 * n) p) /\
    (8 * n <= length p < 8 * n + 8)%nat.
Proof.
  revert p. induction fuel as [|fuel IH]; intros p Hf.
  { exists 0%nat. simpl. rewrite drop_0. split; [done|lia]. }
  cbn [mask_loop8]. destruct (Nat.leb_spec 8 (length p)).
  - destruct (IH (drop 8 p)) as (n & -> & Hn); [rewrite length_drop; lia|]. rewrite length_drop in Hn.
    exists (S n). cbn [mask_words]. rewrite drop_drop. split; [|lia]. do 2 f_equal. lia.
  - exists 0%nat. simpl. rewrite drop_0. split; [done|lia].
Qed.

Lemma ldiff_31 n : exists k, Z.to_nat (Z.ldiff (Z.of_nat n) 31) = (32 * k)%nat /\ (32 * k <= n)%nat.
Proof.
  exists (n / 32)%nat. change 31 with (Z.ones 5). rewrite Z.ldiff_ones_r, Z.shiftl_mul_pow2, Z.shiftr_div_pow2 by lia.
  change (2 ^ 5) with 32.
  replace (Z.of_nat n / 32) with (Z.of_nat (n / 32)) by (by rewrite Nat2Z.inj_div). pose proof (Nat.div_mod n 32). lia.
Qed.

Lemma mask_words_take n k64 p : mask_words n k64 (take (8 * n) p) = mask_words n k64 p.
Proof.
  revert p. induction n as [|n IH]; intros p; cbn [mask_words]; [done|].
  rewrite take_take, Nat.min_l by lia. f_equal. rewrite <-(IH (drop 8 p)). f_equal.
  rewrite skipn_firstn_comm. f_equal. lia.
Qed.

(** Words taken from the front in any number, then bytes: the whole is masked
    byte by byte. *)
Lemma mask_prefix key i n p :
  length key = 4%nat -> Forall is_byte key -> Forall is_byte p -> (8 * n <= length p)%nat ->
  mask_words n (double_key (le_val (rotated key i))) p ++ mask_bytes key i (drop (8 * n) p) = mask_bytes key i p.
Proof.
  intros Hl Hk Hp Hn. rewrite (mask_bytes_split key i n p Hn). f_equal.
  rewrite <-(mask_words_bytes key i n (take (8 * n) p)) by slices. by rewrite mask_words_take.
Qed.

Section MaskFacts.
Context `{Vector}.

Lemma key32_val a b c d :
  Z.lor (Z.lor (Z.lor a (Z.shiftl b 8)) (Z.shiftl c 16)) (Z.shiftl d 24) = le_val [a; b; c; d].
Proof.
  cbn [le_val]. rewrite Z.shiftl_0_l, Z.lor_0_r, !Z.shiftl_lor, !Z.shiftl_shiftl, !Z.lor_assoc by lia. done.
Qed.

Lemma unmask_spec payload key offset :
  length key = 4%nat -> Forall is_byte key -> Forall is_byte payload ->
  unmask payload key offset = mask_bytes key offset payload.
Proof.
  intros Hl Hk Hp. unfold unmask. set (o := Z.land offset 3).
  assert (Ho : o mod 4 = offset mod 4).
  { unfold o. change 3 with (Z.ones 2). rewrite Z.land_ones by lia. apply Z.mod_mod. lia. }
  rewrite <-(mask_bytes_mod key o offset payload Ho). cbv zeta.
  destruct (length payload <? wordUnmaskThreshold)%nat; [done|].
  assert (Hn : nth (Z.to_nat o) key 0 = key_at key o).
  { unfold key_at. do 2 f_equal. unfold o. by rewrite <-Z.land_assoc. }
  rewrite Hn, key32_val. fold (rotated key o). set (k64 := double_key _).
  assert (Htail : forall p, Forall is_byte p ->
    (let '(d32, q) := mask_loop32 (length p) k64 p in let '(d8, r) := mask_loop8 (length q) k64 q in
     d32 ++ d8 ++ mask_bytes key o r) = mask_bytes key o p).
  { intros p Hb. destruct (mask_loop32_words (length p) k64 p (Nat.le_refl _)) as (n & -> & Hn32).
    set (q := drop _ p). destruct (mask_loop8_words (length q) k64 q (Nat.le_refl _)) as (m & -> & Hm8).
    unfold k64. rewrite (mask_prefix key o m q) by (done || lia || by apply Forall_drop).
    apply mask_prefix; (done || lia). }
  destruct (useAVX2 && _) eqn:Ev.
  - apply andb_prop in Ev as [Ev _]. destruct (ldiff_31 (length payload)) as (n & -> & Hn32).
    specialize (Htail (drop (32 * n) payload) ltac:(by apply Forall_drop)).
    destruct (mask_loop32 _ _ _) as [d32 q]. destruct (mask_loop8 _ _ _) as [d8 r]. rewrite Htail.
    rewrite (maskAVX2_law n) by first [done | slices].
    replace (32 * n)%nat with (8 * (4 * n))%nat in * by lia.
    rewrite (mask_bytes_split key o (4 * n) payload) by done. f_equal. apply mask_words_bytes; slices.
  - specialize (Htail payload Hp). by destruct (mask_loop32 _ _ _), (mask_loop8 _ _ _).
Qed.

Lemma mask_bytes_byte key i p : length key = 4%nat -> Forall is_byte key -> Forall is_byte p -> Forall is_byte (mask_bytes key i p).
Proof.
  intros Hl Hk Hp. revert i. induction Hp; intros; simpl; constructor; auto. apply lxor_byte; [done|by apply key_at_byte].
Qed.

Lemma unmask_involutive p key i :
  length key = 4%nat -> Forall is_byte key -> Forall is_byte p -> unmask (unmask p key i) key i = p.
Proof.
  intros Hl Hk Hp. rewrite !unmask_spec by (try done; rewrite ?unmask_spec by done; by apply mask_bytes_byte).
  clear. revert i. induction p as [|x p IH]; intros i; simpl; [done|].
  by rewrite IH, Z.lxor_assoc, Z.lxor_nilpotent, Z.lxor_0_r.
Qed.


(** *** The ASCII test *)

Definition high_bits : Z := 0x8080808080808080.

Lemma land_high l :
  Forall is_byte l -> (Z.land (le_val l) (le_val (replicate (length l) 128)) = 0 <-> Forall (fun b => b < 128) l).
Proof.
  induction 1 as [|b l Hb Hl IH]; cbn [le_val length replicate]; [done|].
  assert (E : Z.land (Z.lor b (Z.shiftl (le_val l) 8)) (Z.lor 128 (Z.shiftl (le_val (replicate (length l) 128)) 8)) =
    Z.lor (Z.land b 128) (Z.shiftl (Z.land (le_val l) (le_val (replicate (length l) 128))) 8)).
  { apply Z.bits_inj'. intros i Hi. rewrite Z.land_spec, !Z.lor_spec, Z.land_spec, Z.shiftl_land, Z.land_spec.
    destruct (Z.ltb_spec i 8).
    - rewrite !Z.shiftl_spec, !(Z.testbit_neg_r _ (i - 8)), !orb_false_r by lia. done.
    - rewrite (byte_bit_high b), (byte_bit_high 128) by (done || (split; lia)). done. }
  rewrite E, Z.lor_eq_0_iff, Forall_cons. f_equiv.
  - unfold is_uint in Hb. split; intros Hz.
    + destruct (Z.lt_ge_cases b 128); [done|]. exfalso.
      assert (Ht : Z.testbit (Z.land b 128) 7 = false) by (by rewrite Hz). rewrite Z.land_spec in Ht.
      change (Z.testbit 128 7) with true in Ht. rewrite andb_true_r, Z.testbit_false in Ht by lia.
      change (2 ^ 7) with 128 in Ht. assert (b / 128 = 1) as E1 by (symmetry; apply (Z.div_unique b 128 1 (b - 128)); lia).
      by rewrite E1 in Ht.
    + replace b with (b mod 2 ^ 7) by (apply Z.mod_small; lia). rewrite <-Z.land_ones by lia.
      by rewrite <-Z.land_assoc, Z.land_0_r.
  - rewrite Z.shiftl_eq_0_iff by lia. naive_solver lia.
Qed.

(** A collected word has no high bit just when neither part has. *)
Lemma land_lor_0 a b m : Z.land (Z.lor a b) m = 0 <-> Z.land a m = 0 /\ Z.land b m = 0.
Proof. by rewrite Z.land_lor_distr_l, Z.lor_eq_0_iff. Qed.

Lemma high_word w : length w = 8%nat -> Forall is_byte w -> (Z.land (le_val w) high_bits = 0 <-> Forall (fun b => b < 128) w).
Proof. intros Hw Hb. rewrite <-land_high, Hw by done. done. Qed.

Lemma high_byte b : is_byte b -> (Z.land b high_bits = 0 <-> b < 128).
Proof.
  intros Hb. pose proof (land_high (b :: replicate 7 0)) as Hh. cbn in Hh. rewrite Z.lor_0_r in Hh.
  change (Z.land b high_bits = 0) with (Z.land b 0x8080808080808080 = 0). rewrite Hh.
  - rewrite Forall_cons. split; [by intros []|]. intros. split; [done|].
    apply (Forall_replicate _ 7 0). lia.
  - apply Forall_cons_2; [done|]. apply (Forall_replicate _ 7 0). split; lia.
Qed.

Lemma or_bytes_high seen l :
  Forall is_byte l ->
  (Z.land (or_bytes seen l) high_bits = 0 <-> Z.land seen high_bits = 0 /\ Forall (fun b => b < 128) l).
Proof.
  intros Hl. revert seen. induction Hl as [|b l Hb _ IH]; intros seen; cbn [or_bytes fold_left].
  { rewrite Forall_nil. tauto. }
  fold (or_bytes (Z.lor seen b) l). rewrite IH, land_lor_0, (high_byte b Hb), Forall_cons. tauto.
Qed.

Lemma mask_word_val k w :
  length k = 8%nat -> Forall is_byte k -> length w = 8%nat -> Forall is_byte w ->
  Z.lxor (le_val w) (le_val k) = le_val (mask_word (le_val k) w) /\ length (mask_word (le_val k) w) = 8%nat /\
  Forall is_byte (mask_word (le_val k) w).
Proof.
  intros Hk Hbk Hw Hbw. unfold mask_word. destruct (le_bytes_lxor w k) as (E1 & E2 & E3); [lia|done..|].
  rewrite length_le_bytes. rewrite Hw in E1. rewrite E1, E2. by split_and!.
Qed.

Lemma or_words_high n k p seen :
  length k = 8%nat -> Forall is_byte k -> (8 * n <= length p)%nat -> Forall is_byte p ->
  (Z.land (or_words n (le_val k) p seen) high_bits = 0 <->
   Z.land seen high_bits = 0 /\ Forall (fun b => b < 128) (mask_words n (le_val k) p)).
Proof.
  intros Hk Hbk. revert p seen. induction n as [|n IH]; intros p seen Hn Hp; cbn [or_words mask_words].
  { rewrite Forall_nil. tauto. }
  destruct (mask_word_val k (take 8 p)) as (E & Hl & Hb); try slices.
  rewrite IH by slices. rewrite E, land_lor_0, (high_word _ Hl Hb), Forall_app. tauto.
Qed.

Lemma mask_words_add n m key64 p : mask_words (n + m) key64 p = mask_words n key64 p ++ mask_words m key64 (drop (8 * n) p).
Proof.
  revert p. induction n as [|n IH]; intros p; [simpl; by rewrite drop_0|].
  cbn [mask_words Nat.add]. rewrite IH, <-app_assoc, drop_drop. do 4 f_equal. lia.
Qed.

Lemma ascii_loop_spec step fuel k p seen :
  (0 < step)%nat -> length k = 8%nat -> Forall is_byte k -> Forall is_byte p -> (length p <= fuel)%nat ->
  exists n seen', ascii_loop step fuel (le_val k) p seen = (mask_words n (le_val k) p, drop (8 * n) p, seen') /\
    (8 * n <= length p < 8 * n + 8 * step)%nat /\
    (Z.land seen' high_bits = 0 <-> Z.land seen high_bits = 0 /\ Forall (fun b => b < 128) (mask_words n (le_val k) p)).
Proof.
  intros Hs Hk Hbk. revert p seen. induction fuel as [|fuel IH]; intros p seen Hp Hf.
  { exists 0%nat, seen. simpl. rewrite drop_0, Forall_nil. split; [done|]. split; [lia|tauto]. }
  cbn [ascii_loop]. destruct (Nat.leb_spec (8 * step) (length p)).
  - destruct (IH (drop (8 * step) p) (or_words step (le_val k) p seen)) as (n & seen' & -> & Hn & Hseen); [slices..|].
    rewrite length_drop in Hn. exists (step + n)%nat, seen'. rewrite mask_words_add, drop_drop.
    split; [do 3 f_equal; lia|]. split; [lia|]. rewrite Hseen, or_words_high, Forall_app by slices. tauto.
  - exists 0%nat, seen. simpl. rewrite drop_0, Forall_nil. split; [done|]. split; [lia|tauto].
Qed.

Lemma or_bytes_small seen l :
  Forall is_byte l -> is_byte seen -> is_byte (or_bytes seen l) /\
  (or_bytes seen l < 128 <-> seen < 128 /\ Forall (fun b => b < 128) l).
Proof.
  intros Hl Hs. assert (Hb : is_byte (or_bytes seen l)).
  { revert seen Hs. induction Hl as [|b l Hb _ IH]; intros; cbn [or_bytes fold_left]; [done|]. apply IH.
    pose proof (Z.land_ones (Z.lor seen b) 8). rewrite Z.land_lor_distr_l, !byte_bits in * by done.
    rewrite H0 by lia. apply Z.mod_pos_bound. lia. }
  split; [done|]. rewrite <-(high_byte _ Hb), <-(high_byte _ Hs). by apply or_bytes_high.
Qed.

Lemma rotated_0 key : length key = 4%nat -> rotated key 0 = key.
Proof. intros Hl. do 4 (destruct key as [|? key]; [done|]). destruct key; [|done]. reflexivity. Qed.

(** UnmaskASCII is Unmask with the ASCII test folded in: it leaves the same
    bytes and answers true exactly when all of them are below 0x80. *)
Theorem unmask_ascii_exact payload key :
  length key = 4%nat -> Forall is_byte key -> Forall is_byte payload ->
  let '(ascii, out) := UnmaskASCII payload key in
  out = Unmask payload key /\ (ascii = true <-> Forall (fun b => b < 128) out).
Proof.
  intros Hl Hk Hp. unfold Unmask. rewrite unmask_spec by done. unfold UnmaskASCII.
  assert (Hm : forall p, Forall is_byte p -> Forall is_byte (mask_bytes key 0 p)) by (intros; by apply mask_bytes_byte).
  destruct (length payload <? wordUnmaskThreshold)%nat.
  { cbv zeta. split; [done|]. destruct (or_bytes_small 0 (mask_bytes key 0 payload)) as [_ E]; [auto|split; lia|].
    rewrite Z.ltb_lt, E. split; [by intros []|by split]. }
  cbv zeta. rewrite double_key_val by done. set (k := key ++ key).
  assert (Hk8 : length k = 8%nat /\ Forall is_byte k) by (unfold k; rewrite length_app, Hl; split; [done|by apply Forall_app_2]).
  assert (Hw : forall n p, Forall is_byte p -> (8 * n <= length p)%nat ->
    mask_words n (le_val k) p ++ mask_bytes key 0 (drop (8 * n) p) = mask_bytes key 0 p).
  { intros n p Hb Hn. unfold k. rewrite <-double_key_val, <-(rotated_0 key Hl) at 1 by done. by apply mask_prefix. }
  set (v := if useAVX2 && _ then _ else _).
  assert (Hv : exists n seen, v = (mask_words n (le_val k) payload, drop (8 * n) payload, seen) /\ (8 * n <= length payload)%nat /\
    (Z.land seen high_bits = 0 <-> Forall (fun b => b < 128) (mask_words n (le_val k) payload))).
  { unfold v. destruct (useAVX2 && _) eqn:Ev; [|exists 0%nat, 0; simpl; rewrite drop_0, Forall_nil; split; [done|split; [lia|done]]].
    apply andb_prop in Ev as [Ev _]. destruct (ldiff_31 (length payload)) as (n & -> & Hn).
    destruct (maskASCIIAVX2_law n (take (32 * n) payload) (le_val k) Ev) as [E1 E2]; [slices..|].
    destruct (maskASCIIAVX2 (take (32 * n) payload) (le_val k)) as [hi out]. cbn [fst snd] in *. subst out.
    replace (32 * n)%nat with (8 * (4 * n))%nat in * by lia. rewrite mask_words_take in *.
    exists (4 * n)%nat, (if hi =? 0 then 0 else 128). split; [done|]. split; [done|]. rewrite <-E2.
    destruct (Z.eqb_spec hi 0); [by rewrite Z.land_0_l|]. by split. }
  destruct Hv as (n0 & seen0 & -> & Hn0 & Hs0). set (p1 := drop (8 * n0) payload).
  assert (Hp1 : Forall is_byte p1) by (by apply Forall_drop).
  destruct (ascii_loop_spec 4 (length p1) k p1 seen0) as (n1 & seen1 & -> & Hn1 & Hs1); [lia|apply Hk8..|done|done|].
  set (p2 := drop (8 * n1) p1). assert (Hp2 : Forall is_byte p2) by (by apply Forall_drop).
  destruct (ascii_loop_spec 1 (length p2) k p2 seen1) as (n2 & seen2 & -> & Hn2 & Hs2); [lia|apply Hk8..|done|done|].
  assert (W0 : mask_words n0 (le_val k) payload ++ mask_bytes key 0 p1 = mask_bytes key 0 payload) by (apply Hw; done || lia).
  assert (W1 : mask_words n1 (le_val k) p1 ++ mask_bytes key 0 p2 = mask_bytes key 0 p1) by (apply Hw; done || lia).
  rewrite (Hw n2 p2), W1, W0 by (done || lia). split; [done|].
  rewrite Z.eqb_eq. change (Z.of_N 0x8080808080808080) with high_bits.
  rewrite or_bytes_high, Hs2, Hs1, Hs0 by (by apply Hm, Forall_drop).
  rewrite <-W0, <-W1, <-(Hw n2 p2), !Forall_app by (done || lia). tauto.
Qed.
End MaskFacts.

(** A CPU with the vector routines, computing what their laws say. *)
Definition reference_vector : Vector.
Proof.
  refine {| useAVX2 := true; maskAVX2 := fun p k => mask_words (length p / 8) k p;
    maskASCIIAVX2 := fun p k => let out := mask_words (length p / 8) k p in
      ((if forallb (fun b => b <? 128) out then 0 else 1), out); ValidUTF8 := Valid |}.
  - intros n p k _ Hp _. rewrite Hp. replace (32 * n)%nat with (4 * n * 8)%nat by lia. by rewrite Nat.div_mul.
  - intros n p k _ Hp _. cbv zeta. cbn [fst snd]. rewrite Hp.
    replace (32 * n)%nat with (4 * n * 8)%nat by lia. rewrite Nat.div_mul by done. split; [done|].
    set (out := mask_words _ _ _). assert (E : forallb (fun b => b <? 128) out = true <-> Forall (fun b => b < 128) out).
    { induction out as [|b out IH]; simpl; [by rewrite Forall_nil|].
      rewrite andb_true_iff, Z.ltb_lt, IH, Forall_cons. done. }
    rewrite <-E. by destruct (forallb _ out).
  - done.
Defined.

Definition sample_payload : list Z := Z.of_nat <$> seq 0 150.
Definition sample_key : list Z := [18; 52; 86; 120].

Lemma sample_payload_bytes : Forall is_byte sample_payload.
Proof. apply Forall_forall. intros z Hz. apply list_elem_of_fmap in Hz as (n & -> & Hn). apply elem_of_seq in Hn. split; lia. Qed.

Lemma sample_key_bytes : Forall is_byte sample_key.
Proof. repeat (apply Forall_cons_2; [split; lia|]). constructor. Qed.


