(* ===== verification/WsFrame.v ===== *)
(** * uws/internal/frame/frame.go: the WebSocket frame codec

    [ParseFrame] on a whole frame, the incremental [Parser] for frames split
    across reads, the encoder, the close-payload rules and the message
    [Assembler].  Where payload bytes are stored (the size-classed pool of
    parser buffers) is not modelled: a payload is its bytes, and whether a
    pooled buffer is held is kept because it decides Frame.Borrowed. *)

From S2P Require Import Prelude.
From S2P Require Import Endian Utf8 WsMask.
Local Open Scope Z_scope.

Definition OpCode : Type := Z.
Definition Continuation : OpCode := 0.
Definition Text : OpCode := 1.
Definition Binary : OpCode := 2.
Definition CloseOp : OpCode := 8.
Definition Ping : OpCode := 9.
Definition Pong : OpCode := 10.

(** ErrProtocol wraps a reason; the other two stand alone. *)
Inductive protocol_reason : Type :=
| ReservedBits | UnexpectedRSV1 | InvalidOpcode | InvalidMaskBit | InvalidControlFrame | RSV1OnControl
| NonCanonicalLength | LengthReservedBit | CloseOddLength | InvalidCloseCode
| NewDataWhileFragmented | ContinuationWithoutMessage | RSV1OnContinuation | InvalidDataOpcode | FragmentedNeedsAssembler.

Inductive ws_error : Type :=
| ErrProtocol (why : protocol_reason)
| ErrMessageTooBig
| ErrInvalidUTF8
| ErrNilCallback
| ErrSink (code : Z).              (* what a callback returned *)

#[export] Instance protocol_reason_eq_dec : EqDecision protocol_reason.
Proof. solve_decision. Defined.
#[export] Instance ws_error_eq_dec : EqDecision ws_error.
Proof. solve_decision. Defined.

Record Frame : Type := MkFrame {
  Fin : bool;
  RSV1 : bool;
  Opcode : OpCode;
  Masked : bool;
  Borrowed : bool;
  Payload : list Z
}.

#[export] Instance Frame_eq_dec : EqDecision Frame.
Proof. solve_decision. Defined.

Record ParserConfig : Type := MkParserConfig {
  ExpectMask : bool;
  AllowRSV1 : bool;
  MaxFramePayload : Z
}.

Definition parserExpectMask (cfg : option ParserConfig) : bool :=
  match cfg with Some c => ExpectMask c | None => false end.
Definition parserAllowRSV1 (cfg : option ParserConfig) : bool :=
  match cfg with Some c => AllowRSV1 c | None => false end.
Definition parserMaxFramePayload (cfg : option ParserConfig) : Z :=
  match cfg with
  | Some c => if MaxFramePayload c =? 0 then maxInt else MaxFramePayload c
  | None => maxInt
  end.

Definition validOpcode (op : OpCode) : bool :=
  (op =? Continuation) || (op =? Text) || (op =? Binary) || (op =? CloseOp) || (op =? Ping) || (op =? Pong).

Definition IsControl (op : OpCode) : bool := 8 <=? op.

(** ** Close payloads *)

Definition validCloseCode (code : Z) : bool :=
  if existsb (Z.eqb code) [1000; 1001; 1002; 1003; 1007; 1008; 1009; 1010; 1011; 1012; 1013; 1014] then true
  else (3000 <=? code) && (code <=? 4999).

Definition CloseCode (payload : list Z) : Z :=
  if (length payload <? 2)%nat then 1005 else be_val (take 2 payload).

Section Close.
Context `{Vector}.

Definition ValidateClosePayload (payload : list Z) : option ws_error :=
  if (length payload =? 0)%nat then None
  else if (length payload =? 1)%nat then Some (ErrProtocol CloseOddLength)
  else
    let code := be_val (take 2 payload) in
    if negb (validCloseCode code) then Some (ErrProtocol InvalidCloseCode)
    else if negb (ValidUTF8 (drop 2 payload)) then Some ErrInvalidUTF8
    else None.
End Close.

(** ** One whole frame *)

Definition bit (m b : Z) : bool := negb (Z.land b m =? 0).

Inductive parse_result : Type :=
| PIncomplete
| PError (e : ws_error)
| PFrame (f : Frame) (size : nat).

(** The header's size by its second byte. *)
Definition headerSizeOf (lengthCode : Z) (masked : bool) : nat :=
  (2 + (if (lengthCode =? 126)%Z then 2 else if (lengthCode =? 127)%Z then 8 else 0) + if masked then 4 else 0)%nat.

Section Parse.
Context `{Vector}.

Definition ParseFrame (src : list Z) (cfg : option ParserConfig) : parse_result :=
  if (length src <? 2)%nat then PIncomplete
  else
    let b0 := nth 0 src 0 in
    let b1 := nth 1 src 0 in
    let fin := bit 128 b0 in
    let rsv1 := bit 64 b0 in
    let opcode := Z.land b0 15 in
    let masked := bit 128 b1 in
    let lengthCode := Z.land b1 127 in
    if bit 48 b0 then PError (ErrProtocol ReservedBits)
    else if rsv1 && negb (parserAllowRSV1 cfg) then PError (ErrProtocol UnexpectedRSV1)
    else if negb (validOpcode opcode) then PError (ErrProtocol InvalidOpcode)
    else if negb (eqb masked (parserExpectMask cfg)) then PError (ErrProtocol InvalidMaskBit)
    else if (8 <=? opcode) && (negb fin || (126 <=? lengthCode) || rsv1) then PError (ErrProtocol InvalidControlFrame)
    else
      let headerSize := headerSizeOf lengthCode masked in
      if (length src <? headerSize)%nat then PIncomplete
      else
        let payloadLen :=
          if lengthCode =? 126 then be_val (take 2 (drop 2 src))
          else if lengthCode =? 127 then be_val (take 8 (drop 2 src))
          else lengthCode in
        let bad :=
          if lengthCode =? 126 then
            if payloadLen <? 126 then Some (ErrProtocol NonCanonicalLength) else None
          else if lengthCode =? 127 then
            if bit 128 (nth 2 src 0) then Some (ErrProtocol LengthReservedBit)
            else if payloadLen <? 65536 then Some (ErrProtocol NonCanonicalLength) else None
          else None in
        match bad with
        | Some e => PError e
        | None =>
            if (parserMaxFramePayload cfg <? payloadLen) || (maxInt - Z.of_nat headerSize <? payloadLen)
            then PError ErrMessageTooBig
            else
              let total := (headerSize + Z.to_nat payloadLen)%nat in
              if (length src <? total)%nat then PIncomplete
              else
                let maskKey := if masked then take 4 (drop (headerSize - 4) src) else [0; 0; 0; 0] in
                let payload := take (total - headerSize) (drop headerSize src) in
                let payload := if masked then unmask payload maskKey 0 else payload in
                match (if opcode =? CloseOp then ValidateClosePayload payload else None) with
                | Some e => PError e
                | None => PFrame (MkFrame fin rsv1 opcode masked true payload) total
                end
        end.

(** ** The encoder *)

Definition AppendHeader (dst : list Z) (f : Frame) (maskKey : list Z) : list Z :=
  let first := Opcode f in
  let first := if Fin f then Z.lor first 128 else first in
  let first := if RSV1 f then Z.lor first 64 else first in
  let dst := dst ++ [first] in
  let length := Z.of_nat (length (Payload f)) in
  let maskBit := if Masked f then 128 else 0 in
  let dst :=
    if length <? 126 then dst ++ [Z.lor maskBit (wrap 8 length)]
    else if length <=? 65535 then dst ++ [Z.lor maskBit 126] ++ be_bytes 2 length
    else dst ++ [Z.lor maskBit 127] ++ be_bytes 8 length in
  if Masked f then dst ++ maskKey else dst.

Definition Append (dst : list Z) (f : Frame) (maskKey : list Z) : list Z :=
  let dst := AppendHeader dst f maskKey in
  if Masked f then dst ++ unmask (Payload f) maskKey 0 else dst ++ Payload f.

(** ** The incremental parser *)

Record Parser : Type := MkParser {
  p_cfg : option ParserConfig;
  header : list Z;                 (* the [14]byte array *)
  headerLen : nat;
  headerNeed : nat;
  p_fin : bool;
  p_rsv1 : bool;
  p_opcode : OpCode;
  p_masked : bool;
  payloadLen : Z;
  payloadRead : Z;
  maskKey : list Z;
  maskOffset : Z;
  p_payload : option (list Z);     (* [None] is nil *)
  payloadBuf : bool                (* a pooled buffer is held *)
}.

Definition resetState (p : Parser) : Parser :=
  MkParser (p_cfg p) (header p) 0 2 false false 0 false 0 0 [0; 0; 0; 0] 0 None false.

Definition Reset (p : Parser) : Parser := resetState p.

Definition Init (cfg : option ParserConfig) (p : Parser) : Parser :=
  let p := Reset p in
  MkParser cfg (header p) (headerLen p) (headerNeed p) (p_fin p) (p_rsv1 p) (p_opcode p) (p_masked p)
    (payloadLen p) (payloadRead p) (maskKey p) (maskOffset p) (p_payload p) (payloadBuf p).

Definition zero_parser : Parser :=
  MkParser None (replicate 14 0) 0 0 false false 0 false 0 0 [0; 0; 0; 0] 0 None false.

Definition NewParser (cfg : ParserConfig) : Parser := Init (Some cfg) zero_parser.

Definition AtFrameBoundary (p : Parser) : bool := (headerLen p =? 0)%nat.

Definition prepareHeader (p : Parser) : option ws_error * Parser :=
  let b0 := nth 0 (header p) 0 in
  let b1 := nth 1 (header p) 0 in
  let fin := bit 128 b0 in
  let rsv1 := bit 64 b0 in
  let opcode := Z.land b0 15 in
  let masked := bit 128 b1 in
  let lengthCode := Z.land b1 127 in
  let set (need : nat) (len : Z) :=
    MkParser (p_cfg p) (header p) (headerLen p) need fin rsv1 opcode masked len (payloadRead p)
      (maskKey p) (maskOffset p) (p_payload p) (payloadBuf p) in
  let p0 := set (headerNeed p) (payloadLen p) in
  if bit 48 b0 then (Some (ErrProtocol ReservedBits), p0)
  else if rsv1 && negb (parserAllowRSV1 (p_cfg p)) then (Some (ErrProtocol UnexpectedRSV1), p0)
  else if negb (validOpcode opcode) then (Some (ErrProtocol InvalidOpcode), p0)
  else if negb (eqb masked (parserExpectMask (p_cfg p))) then (Some (ErrProtocol InvalidMaskBit), p0)
  else if (8 <=? opcode) && rsv1 then (Some (ErrProtocol RSV1OnControl), p0)
  else if (8 <=? opcode) && (negb fin || (126 <=? lengthCode)) then (Some (ErrProtocol InvalidControlFrame), p0)
  else
    let need := if lengthCode =? 126 then 4%nat else if lengthCode =? 127 then 10%nat else 2%nat in
    let len := if (lengthCode =? 126) || (lengthCode =? 127) then payloadLen p else lengthCode in
    (None, set (need + if masked then 4 else 0)%nat len).

Definition finishHeader (p : Parser) : option ws_error * Parser :=
  let lengthCode := Z.land (nth 1 (header p) 0) 127 in
  let len :=
    if lengthCode =? 126 then be_val (take 2 (drop 2 (header p)))
    else if lengthCode =? 127 then be_val (take 8 (drop 2 (header p)))
    else payloadLen p in
  let set_len (z : Z) (p : Parser) :=
    MkParser (p_cfg p) (header p) (headerLen p) (headerNeed p) (p_fin p) (p_rsv1 p) (p_opcode p) (p_masked p) z
      (payloadRead p) (maskKey p) (maskOffset p) (p_payload p) (payloadBuf p) in
  if (lengthCode =? 126) && (len <? 126) then (Some (ErrProtocol NonCanonicalLength), set_len len p)
  else if (lengthCode =? 127) && bit 128 (nth 2 (header p) 0) then (Some (ErrProtocol LengthReservedBit), p)
  else if (lengthCode =? 127) && (len <? 65536) then (Some (ErrProtocol NonCanonicalLength), set_len len p)
  else if (parserMaxFramePayload (p_cfg p) <? len) || (maxInt - Z.of_nat (headerNeed p) <? len)
  then (Some ErrMessageTooBig, set_len len p)
  else
    let offset := if lengthCode =? 126 then 4%nat else if lengthCode =? 127 then 10%nat else 2%nat in
    let key := if p_masked p then take 4 (drop offset (header p)) else maskKey p in
    (* acquirePayload, or an empty non-nil slice *)
    (None, MkParser (p_cfg p) (header p) (headerLen p) (headerNeed p) (p_fin p) (p_rsv1 p) (p_opcode p) (p_masked p)
             len 0 key 0 (Some []) (if 0 <? len then true else payloadBuf p)).

(** [copy(p.header[p.headerLen:p.headerNeed], src)] and the count. *)
Definition copy_header (src : list Z) (p : Parser) : nat * Parser :=
  let n := Nat.min (headerNeed p - headerLen p) (length src) in
  let h := take (headerLen p) (header p) ++ take n src ++ drop (headerLen p + n) (header p) in
  (n, MkParser (p_cfg p) h (headerLen p + n) (headerNeed p) (p_fin p) (p_rsv1 p) (p_opcode p) (p_masked p)
        (payloadLen p) (payloadRead p) (maskKey p) (maskOffset p) (p_payload p) (payloadBuf p)).

(** The payload step: append, unmask in place, account. *)
Definition take_payload (src : list Z) (p : Parser) : nat * Parser :=
  let remaining := Z.to_nat (payloadLen p - payloadRead p) in
  let n := Nat.min (length src) remaining in
  let held := default [] (p_payload p) in
  (n, MkParser (p_cfg p) (header p) (headerLen p) (headerNeed p) (p_fin p) (p_rsv1 p) (p_opcode p) (p_masked p)
        (payloadLen p) (payloadRead p + Z.of_nat n) (maskKey p) (Z.land (maskOffset p + Z.of_nat n) 3)
        (Some (held ++ unmask (take n src) (maskKey p) (maskOffset p))) (payloadBuf p)).

(** What one round of feedTo does: it consumed [n] more bytes and goes on, or
    returns. *)
Inductive feed_next (S : Type) : Type :=
| Continue (n : nat) (p : Parser) (s : S)
| Return (n : nat) (err : option ws_error) (p : Parser) (s : S).
Arguments Continue {S} n p s.
Arguments Return {S} n err p s.

Section Feed.
Context {S : Type} (AcceptFrame : Frame -> S -> option ws_error * S).

Definition emit_frame (n : nat) (p : Parser) (s : S) : feed_next S :=
  let f := MkFrame (p_fin p) (p_rsv1 p) (p_opcode p) (p_masked p) (payloadBuf p) (default [] (p_payload p)) in
  let p := resetState p in
  match (if Opcode f =? CloseOp then ValidateClosePayload (Payload f) else None) with
  | Some e => Return n (Some e) p s
  | None =>
      match AcceptFrame f s with
      | (Some e, s) => Return n (Some e) p s
      | (None, s) => Continue n p s
      end
  end.

Definition is_nil (o : option (list Z)) : bool := match o with None => true | Some _ => false end.

(** The rest of a round once the header is complete, [n] bytes of [src] used. *)
Definition feed_payload (n : nat) (src : list Z) (p : Parser) (s : S) : feed_next S :=
  match (if is_nil (p_payload p) && (payloadLen p =? 0) then finishHeader p else (None, p)) with
  | (Some e, p) => Return n (Some e) p s
  | (None, p) =>
      if 0 <? payloadLen p - payloadRead p then
        let '(m, p) := take_payload (drop n src) p in
        if payloadRead p <? payloadLen p then Continue (n + m) p s else emit_frame (n + m) p s
      else emit_frame n p s
  end.

Definition feed_round (src : list Z) (p : Parser) (s : S) : feed_next S :=
  if (headerLen p <? headerNeed p)%nat then
    let '(n, p) := copy_header src p in
    if (headerLen p <? headerNeed p)%nat then Continue n p s
    else
      match (if (headerNeed p =? 2)%nat then prepareHeader p else (None, p)) with
      | (Some e, p) => Return n (Some e) p s
      | (None, p) =>
          if (headerLen p <? headerNeed p)%nat then Continue n p s
          else
            match (if is_nil (p_payload p) && (0 <? payloadLen p) then finishHeader p else (None, p)) with
            | (Some e, p) => Return n (Some e) p s
            | (None, p) => feed_payload n src p s
            end
      end
  else feed_payload 0 src p s.

(** feedTo: [src] is what is left of the input, [fuel] bounds the rounds. *)
Fixpoint feedTo (fuel : nat) (src : list Z) (finish : bool) (consumed : nat) (p : Parser) (s : S) : outcome (nat * option ws_error * Parser * S) :=
  match src with
  | [] => Ret (consumed, None, p, s)
  | _ =>
      match fuel with
      | O => Panic FuelExhausted
      | Datatypes.S fuel =>
          let round :=
            match feed_round src p s with
            | Return n err p s => Ret ((consumed + n)%nat, err, p, s)
            | Continue n p s => feedTo fuel (drop n src) finish (consumed + n)%nat p s
            end in
          if (headerLen p =? 0)%nat then
            if finish then Ret (consumed, None, p, s)
            else
              match ParseFrame src (p_cfg p) with
              | PError e => Ret (consumed, Some e, p, s)
              | PFrame f size =>
                  match AcceptFrame f s with
                  | (Some e, s) => Ret ((consumed + size)%nat, Some e, p, s)
                  | (None, s) => feedTo fuel (drop size src) finish (consumed + size)%nat p s
                  end
              | PIncomplete => round
              end
          else round
      end
  end.

Definition FeedTo (src : list Z) (p : Parser) (s : S) : outcome (nat * option ws_error * Parser * S) :=
  feedTo (length src) src false 0 p s.

Definition FinishFrame (src : list Z) (p : Parser) (s : S) : outcome (nat * option ws_error * Parser * S) :=
  feedTo (length src) src true 0 p s.
End Feed.

End Parse.

Arguments Continue {S} n p s.
Arguments Return {S} n err p s.

(** ** The parts of a header *)

Definition prefix_error (cfg : option ParserConfig) (b0 b1 : Z) : option ws_error :=
  if bit 48 b0 then Some (ErrProtocol ReservedBits)
  else if bit 64 b0 && negb (parserAllowRSV1 cfg) then Some (ErrProtocol UnexpectedRSV1)
  else if negb (validOpcode (Z.land b0 15)) then Some (ErrProtocol InvalidOpcode)
  else if negb (eqb (bit 128 b1) (parserExpectMask cfg)) then Some (ErrProtocol InvalidMaskBit)
  else if (8 <=? Z.land b0 15) && (negb (bit 128 b0) || (126 <=? Z.land b1 127) || bit 64 b0) then Some (ErrProtocol InvalidControlFrame)
  else None.

(** The length code, the header's size, the payload's length and the key that a
    byte string starting with a whole header carries. *)
Definition code_of (q : list Z) : Z := Z.land (nth 1 q 0) 127.
Definition masked_of (q : list Z) : bool := bit 128 (nth 1 q 0).
Definition need_of (q : list Z) : nat := headerSizeOf (code_of q) (masked_of q).
Definition len_of (q : list Z) : Z :=
  if code_of q =? 126 then be_val (take 2 (drop 2 q))
  else if code_of q =? 127 then be_val (take 8 (drop 2 q))
  else code_of q.
Definition key_of (q : list Z) : list Z := if masked_of q then take 4 (drop (need_of q - 4) q) else [0; 0; 0; 0].

Definition length_error (cfg : option ParserConfig) (q : list Z) : option ws_error :=
  if (code_of q =? 126) && (len_of q <? 126) then Some (ErrProtocol NonCanonicalLength)
  else if (code_of q =? 127) && bit 128 (nth 2 q 0) then Some (ErrProtocol LengthReservedBit)
  else if (code_of q =? 127) && (len_of q <? 65536) then Some (ErrProtocol NonCanonicalLength)
  else if (parserMaxFramePayload cfg <? len_of q) || (maxInt - Z.of_nat (need_of q) <? len_of q) then Some ErrMessageTooBig
  else None.

Section Facts.
Context `{Vector}.

Definition close_error (op : OpCode) (payload : list Z) : option ws_error :=
  if op =? CloseOp then ValidateClosePayload payload else None.

(** ParseFrame by its parts. *)
Lemma ParseFrame_eq q cfg :
  ParseFrame q cfg =
    if (length q <? 2)%nat then PIncomplete
    else match prefix_error cfg (nth 0 q 0) (nth 1 q 0) with
    | Some e => PError e
    | None =>
        if (length q <? need_of q)%nat then PIncomplete
        else match length_error cfg q with
        | Some e => PError e
        | None =>
            if (length q <? need_of q + Z.to_nat (len_of q))%nat then PIncomplete
            else
              let body := take (Z.to_nat (len_of q)) (drop (need_of q) q) in
              let body := if masked_of q then unmask body (key_of q) 0 else body in
              match close_error (Z.land (nth 0 q 0) 15) body with
              | Some e => PError e
              | None => PFrame (MkFrame (bit 128 (nth 0 q 0)) (bit 64 (nth 0 q 0)) (Z.land (nth 0 q 0) 15) (masked_of q) true body)
                          (need_of q + Z.to_nat (len_of q))
              end
        end
    end.
Proof.
  unfold ParseFrame, prefix_error, length_error, key_of, close_error.
  destruct (length q <? 2)%nat; [done|]. cbv zeta.
  repeat match goal with |- context [if ?c then PError ?e else _] =>
    lazymatch c with context [nth 0 q 0] => destruct c; [done|] | negb (eqb _ _) => destruct c; [done|] end end.
  fold (masked_of q). fold (code_of q). fold (need_of q).
  replace (need_of q + Z.to_nat (len_of q) - need_of q)%nat with (Z.to_nat (len_of q)) by lia.
  destruct (length q <? need_of q)%nat; [done|].
  change (if code_of q =? 126 then be_val (take 2 (drop 2 q)) else if code_of q =? 127 then be_val (take 8 (drop 2 q)) else code_of q)
    with (len_of q).
  replace (need_of q + Z.to_nat (len_of q) - need_of q)%nat with (Z.to_nat (len_of q)) by lia.
  destruct (Z.eqb_spec (code_of q) 126) as [E|]; cbn [andb].
  - destruct (len_of q <? 126); [done|]. destruct (Z.eqb_spec (code_of q) 127); [congruence|]. cbn [andb]. by destruct (_ || _).
  - destruct (Z.eqb_spec (code_of q) 127); cbn [andb]; [|by destruct (_ || _)].
    destruct (bit 128 (nth 2 q 0)); [done|]. destruct (len_of q <? 65536); [done|]. by destruct (_ || _).
Qed.

(** ** The parser's states *)

Definition zero_key : list Z := [0; 0; 0; 0].

(** Waiting for the first two bytes; for the rest of the header; for payload. *)
Definition st_start (cfg : option ParserConfig) (h : list Z) (n : nat) : Parser :=
  MkParser cfg h n 2 false false 0 false 0 0 zero_key 0 None false.

Definition st_header (cfg : option ParserConfig) (h : list Z) (n : nat) : Parser :=
  MkParser cfg h n (need_of h) (bit 128 (nth 0 h 0)) (bit 64 (nth 0 h 0)) (Z.land (nth 0 h 0) 15) (masked_of h)
    (if (code_of h =? 126) || (code_of h =? 127) then 0 else code_of h) 0 zero_key 0 None false.

Definition st_body (cfg : option ParserConfig) (h : list Z) (body : list Z) : Parser :=
  MkParser cfg h (need_of h) (need_of h) (bit 128 (nth 0 h 0)) (bit 64 (nth 0 h 0)) (Z.land (nth 0 h 0) 15) (masked_of h)
    (len_of h) (Z.of_nat (length body)) (key_of h) (Z.land (Z.of_nat (length body)) 3) (Some body) (0 <? len_of h).

(** [reps cfg p held]: [p] consumed [held], the beginning of one frame. *)
Inductive reps (cfg : option ParserConfig) : Parser -> list Z -> Prop :=
| reps_start h held : length h = 14%nat -> Forall is_byte h -> (length held < 2)%nat -> take (length held) h = held ->
    reps cfg (st_start cfg h (length held)) held
| reps_header h held : length h = 14%nat -> Forall is_byte h -> (2 <= length held < need_of h)%nat -> take (length held) h = held ->
    prefix_error cfg (nth 0 h 0) (nth 1 h 0) = None ->
    reps cfg (st_header cfg h (length held)) held
| reps_body h held : length h = 14%nat -> Forall is_byte h ->
    (need_of h <= length held < need_of h + Z.to_nat (len_of h))%nat ->
    take (need_of h) h = take (need_of h) held ->
    prefix_error cfg (nth 0 h 0) (nth 1 h 0) = None -> length_error cfg h = None ->
    reps cfg (st_body cfg h (mask_bytes (key_of h) 0 (drop (need_of h) held))) held.

Lemma code_range q : 0 <= code_of q <= 127.
Proof. unfold code_of. change 127 with (Z.ones 7) at 1 2. rewrite Z.land_ones by lia. pose proof (Z.mod_pos_bound (nth 1 q 0) (2 ^ 7)). lia. Qed.

Lemma need_range q : (2 <= need_of q <= 14)%nat.
Proof. unfold need_of, headerSizeOf. repeat case_match; lia. Qed.

Lemma nth_take_eq (a b : list Z) n i : take n a = take n b -> (i < n)%nat -> nth i a 0 = nth i b 0.
Proof.
  intros E Hi. rewrite <-(take_drop n a), <-(take_drop n b), E.
  destruct (decide (i < length (take n b))%nat) as [Hl|Hl]; [by rewrite !app_nth1|].
  assert (length (take n a) = length (take n b)) by (by rewrite E). rewrite !length_take in *.
  rewrite <-E. rewrite !nth_overflow; [done|..]; rewrite length_app, length_take, length_drop; lia.
Qed.

(** Two strings that agree on a whole header have the same parts. *)
Lemma parts_agree a b :
  take 2 a = take 2 b ->
  nth 0 a 0 = nth 0 b 0 /\ nth 1 a 0 = nth 1 b 0 /\ code_of a = code_of b /\ masked_of a = masked_of b /\ need_of a = need_of b.
Proof.
  intros E. assert (E0 : nth 0 a 0 = nth 0 b 0) by (eapply nth_take_eq; [exact E|lia]).
  assert (E1 : nth 1 a 0 = nth 1 b 0) by (eapply nth_take_eq; [exact E|lia]).
  unfold need_of, code_of, masked_of. rewrite E0, E1. done.
Qed.

Lemma take_le_eq {A} (a b : list A) n m : take n a = take n b -> (m <= n)%nat -> take m a = take m b.
Proof.
  intros E Hm. assert (E' : take m (take n a) = take m (take n b)) by (by rewrite E).
  by rewrite !take_take, Nat.min_l in E' by done.
Qed.

Lemma sub_agree {A} (a b : list A) n i k : take n a = take n b -> (i + k <= n)%nat -> take k (drop i a) = take k (drop i b).
Proof. intros E Hk. rewrite !take_drop_commute. by rewrite (take_le_eq a b n (i + k) E Hk). Qed.

Lemma header_agrees cfg a b :
  take (need_of a) a = take (need_of a) b ->
  len_of a = len_of b /\ key_of a = key_of b /\ length_error cfg a = length_error cfg b.
Proof.
  intros E. pose proof (need_range a). destruct (parts_agree a b) as (E0 & E1 & Ec & Em & En); [eapply take_le_eq; [exact E|lia]|].
  assert (Hlen : len_of a = len_of b).
  { unfold len_of. rewrite <-Ec. unfold need_of, headerSizeOf in E.
    destruct (code_of a =? 126); [erewrite sub_agree; [done|exact E|case_match; lia]|].
    destruct (code_of a =? 127); [erewrite sub_agree; [done|exact E|case_match; lia]|done]. }
  assert (Hkey : key_of a = key_of b).
  { unfold key_of. rewrite <-Em, <-En. destruct (masked_of a) eqn:Ea; [|done].
    erewrite sub_agree; [done|exact E|]. unfold need_of, headerSizeOf. rewrite Ea. lia. }
  split; [done|]. split; [done|]. unfold length_error. rewrite <-Ec, <-Hlen, <-En.
  destruct (Z.eqb_spec (code_of a) 127) as [E127|]; [|done].
  erewrite (nth_take_eq a b); [done|exact E|]. unfold need_of, headerSizeOf. rewrite E127. simpl. case_match; lia.
Qed.

Lemma reps_incomplete cfg p held : reps cfg p held -> ParseFrame held cfg = PIncomplete.
Proof.
  intros Hr. rewrite ParseFrame_eq. destruct Hr as [h held Hh _ Hl Ht|h held Hh _ Hl Ht Hp|h held Hh _ Hl Ht Hp He].
  - destruct (Nat.ltb_spec (length held) 2); [done|lia].
  - destruct (Nat.ltb_spec (length held) 2); [lia|].
    destruct (parts_agree h held) as (E0 & E1 & _ & _ & En); [rewrite <-Ht, take_take, Nat.min_l by lia; done|].
    rewrite <-E0, <-E1, Hp, <-En. destruct (Nat.ltb_spec (length held) (need_of h)); [done|lia].
  - pose proof (need_range h). destruct (Nat.ltb_spec (length held) 2); [lia|].
    destruct (parts_agree h held) as (E0 & E1 & _ & _ & En); [eapply take_le_eq; [exact Ht|lia]|].
    destruct (header_agrees cfg h held Ht) as (El & _ & Ee).
    rewrite <-E0, <-E1, Hp, <-En, <-Ee, He, <-El. destruct (Nat.ltb_spec (length held) (need_of h)); [done|].
    destruct (Nat.ltb_spec (length held) (need_of h + Z.to_nat (len_of h))); [done|lia].
Qed.

(** ** One round of the parser *)

(** Errors up to the wording of a protocol error. *)
Definition err_kind (e : ws_error) : ws_error :=
  match e with ErrProtocol _ => ErrProtocol ReservedBits | e => e end.

Lemma prepareHeader_spec cfg h n :
  match prefix_error cfg (nth 0 h 0) (nth 1 h 0) with
  | Some e0 => exists e p, prepareHeader (st_start cfg h n) = (Some e, p) /\ err_kind e = err_kind e0
  | None => prepareHeader (st_start cfg h n) = (None, st_header cfg h n)
  end.
Proof.
  unfold prefix_error, prepareHeader, st_header, need_of, headerSizeOf. cbn [p_cfg header headerLen headerNeed payloadLen payloadRead maskKey maskOffset p_payload payloadBuf st_start].
  fold (code_of h). fold (masked_of h).
  destruct (bit 48 (nth 0 h 0)); [by eexists _, _|].
  destruct (bit 64 (nth 0 h 0) && negb (parserAllowRSV1 cfg)); [by eexists _, _|].
  destruct (negb (validOpcode (Z.land (nth 0 h 0) 15))); [by eexists _, _|].
  destruct (negb (eqb (masked_of h) (parserExpectMask cfg))); [by eexists _, _|].
  destruct (8 <=? Z.land (nth 0 h 0) 15); cbn [andb].
  - destruct (bit 64 (nth 0 h 0)).
    + rewrite orb_true_r. by eexists _, _.
    + rewrite orb_false_r. destruct (negb _ || _); [by eexists _, _|].
      destruct (code_of h =? 126); [done|]. by destruct (code_of h =? 127).
  - destruct (code_of h =? 126); [done|]. by destruct (code_of h =? 127).
Qed.

Lemma finishHeader_spec cfg h n :
  match length_error cfg h with
  | Some e => exists p, finishHeader (st_header cfg h n) = (Some e, p)
  | None => finishHeader (st_header cfg h (need_of h)) = (None, st_body cfg h [])
  end.
Proof.
  assert (Hl : (if code_of h =? 126 then be_val (take 2 (drop 2 h)) else if code_of h =? 127 then be_val (take 8 (drop 2 h))
    else payloadLen (st_header cfg h n)) = len_of h).
  { unfold len_of, st_header; cbn. destruct (code_of h =? 126); [done|]. by destruct (code_of h =? 127). }
  unfold length_error, finishHeader. cbn [p_cfg header headerLen headerNeed p_fin p_rsv1 p_opcode p_masked payloadLen payloadRead maskKey maskOffset p_payload payloadBuf st_header].
  fold (code_of h). cbn in Hl. rewrite Hl.
  destruct (_ && (len_of h <? 126)); [by eexists|].
  destruct (_ && bit 128 (nth 2 h 0)); [by eexists|].
  destruct (_ && (len_of h <? 65536)); [by eexists|].
  destruct ((parserMaxFramePayload cfg <? len_of h) || _); [by eexists|]. unfold st_body. cbn [length]. f_equal. f_equal.
  - unfold key_of, need_of, headerSizeOf. destruct (masked_of h); [|done]. f_equal. f_equal.
    destruct (code_of h =? 126); [done|]. by destruct (code_of h =? 127).
  - by destruct (0 <? len_of h).
Qed.

Lemma len_nonneg q : Forall is_byte q -> 0 <= len_of q.
Proof.
  intros Hq. unfold len_of. pose proof (code_range q).
  destruct (_ =? 126); [apply be_val_uint; by apply Forall_take, Forall_drop|].
  destruct (_ =? 127); [apply be_val_uint; by apply Forall_take, Forall_drop|lia].
Qed.

Lemma key_of_ok q : Forall is_byte q -> (need_of q <= length q)%nat -> length (key_of q) = 4%nat /\ Forall is_byte (key_of q).
Proof.
  intros Hq Hn. unfold key_of. destruct (masked_of q) eqn:Em; [|split; [done|repeat (apply Forall_cons_2; [split; lia|]); constructor]].
  split; [|by apply Forall_take, Forall_drop]. rewrite length_take, length_drop.
  unfold need_of, headerSizeOf in *. rewrite Em in *. lia.
Qed.

Section FeedFacts.
Context {S : Type} (AcceptFrame : Frame -> S -> option ws_error * S).

(** Taking payload into a partly read body: as much as there is and is due. *)
Lemma take_payload_spec cfg h body src :
  Forall is_byte h -> (need_of h <= length h)%nat -> Forall is_byte src ->
  let m := Nat.min (length src) (Z.to_nat (len_of h - Z.of_nat (length body))) in
  take_payload src (st_body cfg h body) =
    (m, st_body cfg h (body ++ mask_bytes (key_of h) (Z.of_nat (length body)) (take m src))).
Proof.
  intros Hh Hn Hs m. destruct (key_of_ok h Hh Hn) as [Hk Hkb].
  unfold take_payload, st_body. cbn [payloadLen payloadRead p_payload default maskKey maskOffset]. cbn [p_cfg header headerLen headerNeed p_fin p_rsv1 p_opcode p_masked payloadBuf].
  fold m. rewrite unmask_spec by (try done; by apply Forall_take). f_equal.
  assert (Hl : length (take m src) = m) by (rewrite length_take; lia).
  assert (Hmod : forall z, Z.land z 3 mod 4 = z mod 4).
  { intros z. change 3 with (Z.ones 2). rewrite Z.land_ones by lia. apply Z.mod_mod. lia. }
  f_equal; rewrite ?length_app, ?length_mask_bytes, ?Hl; [lia| |].
  - rewrite Nat2Z.inj_add. change 3 with (Z.ones 2). rewrite !Z.land_ones by lia. apply Z.add_mod_idemp_l. lia.
  - do 2 f_equal. by apply mask_bytes_mod.
Qed.

(** The rest of a round from a body of which [body] was read. *)
Lemma feed_payload_body cfg h body n src s :
  Forall is_byte h -> (need_of h <= length h)%nat -> Forall is_byte src ->
  (length body <= Z.to_nat (len_of h))%nat ->
  let due := (Z.to_nat (len_of h) - length body)%nat in
  let rest := drop n src in
  feed_payload AcceptFrame n src (st_body cfg h body) s =
    if (length rest <? due)%nat
    then Continue (n + length rest) (st_body cfg h (body ++ mask_bytes (key_of h) (Z.of_nat (length body)) rest)) s
    else emit_frame AcceptFrame (n + due) (st_body cfg h (body ++ mask_bytes (key_of h) (Z.of_nat (length body)) (take due rest))) s.
Proof.
  intros Hh Hn Hs Hb due rest. pose proof (len_nonneg h Hh) as Hl.
  unfold feed_payload. change (is_nil (p_payload (st_body cfg h body))) with false. cbn [andb].
  change (payloadLen (st_body cfg h body)) with (len_of h). change (payloadRead (st_body cfg h body)) with (Z.of_nat (length body)).
  destruct (Z.ltb_spec 0 (len_of h - Z.of_nat (length body))) as [Hd|Hd].
  - rewrite take_payload_spec by (try done; by apply Forall_drop). cbv zeta. fold rest.
    set (m := Nat.min _ _). assert (Hm : m = Nat.min (length rest) due) by (unfold m, due; lia).
    change (payloadLen (st_body cfg h _)) with (len_of h).
    change (payloadRead (st_body cfg h (body ++ mask_bytes (key_of h) (Z.of_nat (length body)) (take m rest))))
      with (Z.of_nat (length (body ++ mask_bytes (key_of h) (Z.of_nat (length body)) (take m rest)))).
    rewrite length_app, length_mask_bytes, length_take.
    destruct (Nat.ltb_spec (length rest) due).
    + destruct (Z.ltb_spec (Z.of_nat (length body + Nat.min m (length rest))) (len_of h)); [|lia].
      rewrite Hm, Nat.min_l, firstn_all by lia. done.
    + destruct (Z.ltb_spec (Z.of_nat (length body + Nat.min m (length rest))) (len_of h)); [lia|].
      rewrite Hm, Nat.min_r by lia. done.
  - assert (due = 0%nat) as -> by lia. destruct (Nat.ltb_spec (length rest) 0); [lia|].
    rewrite take_0, Nat.add_0_r. cbn [mask_bytes]. by rewrite app_nil_r.
Qed.

Lemma after_header_spec cfg h n src s :
  Forall is_byte h ->
  let p := st_header cfg h (need_of h) in
  let r := match (if is_nil (p_payload p) && (0 <? payloadLen p) then finishHeader p else (None, p)) with
           | (Some e, p) => Return n (Some e) p s
           | (None, p) => feed_payload AcceptFrame n src p s
           end in
  match length_error cfg h with
  | Some e => exists p', r = Return n (Some e) p' s
  | None => r = feed_payload AcceptFrame n src (st_body cfg h []) s
  end.
Proof.
  intros Hh p r. pose proof (finishHeader_spec cfg h (need_of h)) as HF. fold p in HF. unfold r.
  change (is_nil (p_payload p)) with true. cbn [andb]. destruct (Z.ltb_spec 0 (payloadLen p)) as [Hp|Hp].
  - destruct (length_error cfg h); [destruct HF as [p' ->]; by eexists|by rewrite HF].
  - assert (E0 : payloadLen p = 0).
    { unfold p, st_header in *; cbn in *. pose proof (code_range h). repeat case_match; lia. }
    assert (Hfp : feed_payload AcceptFrame n src p s =
      match finishHeader p with
      | (Some e, p) => Return n (Some e) p s
      | (None, p) => if 0 <? payloadLen p - payloadRead p then
          let '(m, p) := take_payload (drop n src) p in
          if payloadRead p <? payloadLen p then Continue (n + m) p s else emit_frame AcceptFrame (n + m) p s
        else emit_frame AcceptFrame n p s
      end) by (unfold feed_payload; change (is_nil (p_payload p)) with true; by rewrite E0).
    rewrite Hfp. destruct (length_error cfg h); [destruct HF as [p' ->]; by eexists|by rewrite HF].
Qed.

(** What a round may do, against ParseFrame on everything consumed and offered. *)
Definition round_ok (cfg : option ParserConfig) (held src : list Z) (s : S) (r : feed_next S) : Prop :=
  match r with
  | Return n err p' s' => exists e, err = Some e /\ (n <= length src)%nat /\
      ((exists e0, ParseFrame (held ++ src) cfg = PError e0 /\ err_kind e = err_kind e0 /\ s' = s) \/
       (exists f, ParseFrame (held ++ src) cfg = PFrame f (length held + n) /\ AcceptFrame f s = (Some e, s') /\ reps cfg p' []))
  | Continue n p' s' => (0 < n <= length src)%nat /\
      ((s' = s /\ reps cfg p' (held ++ take n src)) \/
       (exists f, ParseFrame (held ++ src) cfg = PFrame f (length held + n) /\ AcceptFrame f s = (None, s') /\ reps cfg p' []))
  end.

Definition unborrow (f : Frame) : Frame := MkFrame (Fin f) (RSV1 f) (Opcode f) (Masked f) true (Payload f).

Hypothesis sink_ignores_borrowed : forall f s, AcceptFrame f s = AcceptFrame (unborrow f) s.

Lemma mask_zero_key i p : mask_bytes zero_key i p = p.
Proof.
  revert i. induction p as [|b p IH]; intros i; simpl; [done|]. rewrite IH.
  replace (key_at zero_key i) with 0; [by rewrite Z.lxor_0_r|].
  unfold key_at. by destruct (Z.to_nat (Z.land i 3)) as [|[|[|[|[|]]]]].
Qed.

Lemma ParseFrame_body cfg h q :
  Forall is_byte h -> (need_of h <= length h)%nat -> Forall is_byte q -> take (need_of h) h = take (need_of h) q ->
  prefix_error cfg (nth 0 h 0) (nth 1 h 0) = None -> length_error cfg h = None ->
  (need_of h + Z.to_nat (len_of h) <= length q)%nat ->
  let body := mask_bytes (key_of h) 0 (take (Z.to_nat (len_of h)) (drop (need_of h) q)) in
  ParseFrame q cfg = match close_error (Z.land (nth 0 h 0) 15) body with
    | Some e => PError e
    | None => PFrame (MkFrame (bit 128 (nth 0 h 0)) (bit 64 (nth 0 h 0)) (Z.land (nth 0 h 0) 15) (masked_of h) true body)
                (need_of h + Z.to_nat (len_of h))
    end.
Proof.
  intros Hh Hn Hq Ht Hp He Hl body. pose proof (need_range h). destruct (key_of_ok h Hh Hn) as [Hk Hkb].
  destruct (parts_agree h q) as (E0 & E1 & _ & Em & En); [eapply take_le_eq; [exact Ht|lia]|].
  destruct (header_agrees cfg h q Ht) as (El & Ek & Ee).
  rewrite ParseFrame_eq. rewrite <-E0, <-E1, Hp, <-Em, <-En, <-El, <-Ek, <-Ee, He.
  destruct (Nat.ltb_spec (length q) 2); [lia|]. destruct (Nat.ltb_spec (length q) (need_of h)); [lia|].
  destruct (Nat.ltb_spec (length q) (need_of h + Z.to_nat (len_of h))); [lia|]. cbv zeta.
  assert ((if masked_of h then unmask (take (Z.to_nat (len_of h)) (drop (need_of h) q)) (key_of h) 0
    else take (Z.to_nat (len_of h)) (drop (need_of h) q)) = body) as ->; [|done].
  unfold body. destruct (masked_of h) eqn:E; [apply unmask_spec; try done; by apply Forall_take, Forall_drop|].
  unfold key_of. rewrite E. symmetry. apply mask_zero_key.
Qed.

Lemma reps_reset cfg h : length h = 14%nat -> Forall is_byte h -> reps cfg (st_start cfg h 0) [].
Proof. intros Hl Hh. apply (reps_start cfg h []); [done|done|simpl; lia|by rewrite take_0]. Qed.

Lemma emit_round_ok cfg h held src k s :
  length h = 14%nat -> Forall is_byte h -> Forall is_byte (held ++ src) ->
  take (need_of h) h = take (need_of h) (held ++ src) ->
  prefix_error cfg (nth 0 h 0) (nth 1 h 0) = None -> length_error cfg h = None ->
  (length held + k = need_of h + Z.to_nat (len_of h))%nat -> (0 < k <= length src)%nat ->
  round_ok cfg held src s (emit_frame AcceptFrame k
    (st_body cfg h (mask_bytes (key_of h) 0 (take (Z.to_nat (len_of h)) (drop (need_of h) (held ++ src))))) s).
Proof.
  intros Hl Hh Hq Ht Hp He Hk Hks. pose proof (need_range h).
  pose proof (ParseFrame_body cfg h (held ++ src) Hh ltac:(lia) Hq Ht Hp He) as HPF.
  rewrite length_app in HPF. specialize (HPF ltac:(lia)). cbv zeta in HPF.
  set (body := mask_bytes _ _ _) in *. unfold emit_frame. cbv zeta.
  change (Opcode _) with (Z.land (nth 0 h 0) 15). change (Payload _) with body. fold (close_error (Z.land (nth 0 h 0) 15) body).
  change (resetState (st_body cfg h body)) with (st_start cfg h 0).
  destruct (close_error _ body) as [e|].
  - exists e. split; [done|]. split; [lia|]. left. by exists e.
  - rewrite sink_ignores_borrowed. set (f := unborrow _). destruct (AcceptFrame f s) as [[e|] s'] eqn:Ea.
    + exists e. split; [done|]. split; [lia|]. right. exists f. rewrite HPF, Hk.
      split; [done|]. split; [done|]. by apply reps_reset.
    + split; [lia|]. right. exists f. rewrite HPF, Hk. split; [done|]. split; [done|]. by apply reps_reset.
Qed.

Lemma body_round_ok cfg h held src n s :
  length h = 14%nat -> Forall is_byte h -> Forall is_byte (held ++ src) ->
  take (need_of h) h = take (need_of h) (held ++ src) ->
  prefix_error cfg (nth 0 h 0) (nth 1 h 0) = None -> length_error cfg h = None ->
  (need_of h <= length held + n <= need_of h + Z.to_nat (len_of h))%nat -> (n <= length src)%nat ->
  ((0 < n)%nat \/ (length held < need_of h + Z.to_nat (len_of h) /\ src <> [])%nat) ->
  round_ok cfg held src s (feed_payload AcceptFrame n src
    (st_body cfg h (mask_bytes (key_of h) 0 (drop (need_of h) (held ++ take n src)))) s).
Proof.
  intros Hl Hh Hq Ht Hp He Hr Hn Hpos. pose proof (need_range h). pose proof Hq as [_ Hsrc]%Forall_app.
  assert (Hlb : length (drop (need_of h) (held ++ take n src)) = (length held + n - need_of h)%nat).
  { rewrite length_drop, length_app, length_take. lia. }
  rewrite feed_payload_body by first [done | lia | rewrite length_mask_bytes; lia].
  rewrite length_mask_bytes, Hlb. cbv zeta. rewrite length_drop.
  assert (Hs0 : (0 < length src)%nat) by (destruct Hpos as [|[_ Hne]]; [lia|]; destruct src; [done|simpl; lia]).
  assert (Hcat : forall t, mask_bytes (key_of h) 0 (drop (need_of h) (held ++ take n src)) ++
    mask_bytes (key_of h) (Z.of_nat (length held + n - need_of h)) t =
    mask_bytes (key_of h) 0 (drop (need_of h) (held ++ take n src) ++ t)).
  { intros t. rewrite mask_bytes_app, Hlb, Z.add_0_l. done. }
  rewrite !Hcat. destruct (Nat.ltb_spec (length src - n) (Z.to_nat (len_of h) - (length held + n - need_of h))) as [Hlt|Hge].
  - replace (n + (length src - n))%nat with (length src) by lia. split; [lia|]. left. split; [done|].
    rewrite firstn_all. rewrite <-drop_app_le by (rewrite length_app, length_take; lia).
    rewrite <-app_assoc, take_drop. apply reps_body; try done. rewrite length_app. lia.
  - set (due := (Z.to_nat (len_of h) - _)%nat).
    assert (Hb : drop (need_of h) (held ++ take n src) ++ take due (drop n src) =
      take (Z.to_nat (len_of h)) (drop (need_of h) (held ++ src))).
    { rewrite <-(take_drop n src) at 3. rewrite app_assoc, (drop_app_le (held ++ take n src)) by (rewrite length_app, length_take; lia).
      rewrite (take_app_ge _ _ (Z.to_nat (len_of h))) by lia. by rewrite Hlb. }
    rewrite Hb. apply emit_round_ok; try done; unfold due; [lia|].
    destruct Hpos as [|[Hlt _]]; lia.
Qed.

Definition new_header (h held src : list Z) (n : nat) : list Z := held ++ take n src ++ drop (length held + n) h.

Lemma new_header_ok h held src n :
  length h = 14%nat -> Forall is_byte h -> Forall is_byte (held ++ src) -> (n <= length src)%nat -> (length held + n <= 14)%nat ->
  length (new_header h held src n) = 14%nat /\ Forall is_byte (new_header h held src n) /\
  take (length held + n) (new_header h held src n) = held ++ take n src /\
  (forall k, (k <= length held + n)%nat -> take k (new_header h held src n) = take k (held ++ src)).
Proof.
  intros Hl Hh [Hhe Hs]%Forall_app Hn Hk. unfold new_header.
  assert (Hlen : length (held ++ take n src) = (length held + n)%nat) by (rewrite length_app, length_take; lia).
  assert (Ht : take (length held + n) (held ++ take n src ++ drop (length held + n) h) = held ++ take n src)
    by (rewrite app_assoc; by apply take_app_length').
  split; [rewrite !length_app, length_take, length_drop; lia|]. split.
  { apply Forall_app_2; [done|]. apply Forall_app_2; [by apply Forall_take|by apply Forall_drop]. }
  split; [done|]. intros k Hk'. eapply take_le_eq; [|exact Hk'].
  rewrite Ht, take_app_ge by lia. f_equal. f_equal. lia.
Qed.

Lemma header_done_ok cfg h held src n s :
  length h = 14%nat -> Forall is_byte h -> Forall is_byte (held ++ src) ->
  take (need_of h) h = take (need_of h) (held ++ src) ->
  prefix_error cfg (nth 0 h 0) (nth 1 h 0) = None ->
  (length held + n = need_of h)%nat -> (0 < n <= length src)%nat ->
  let p := st_header cfg h (need_of h) in
  round_ok cfg held src s
    (match (if is_nil (p_payload p) && (0 <? payloadLen p) then finishHeader p else (None, p)) with
     | (Some e, p) => Return n (Some e) p s
     | (None, p) => feed_payload AcceptFrame n src p s
     end).
Proof.
  intros Hl Hh Hq Ht Hp Hk Hn p. pose proof (need_range h).
  pose proof (after_header_spec cfg h n src s Hh) as HA. cbv zeta in HA. fold p in HA.
  destruct (header_agrees cfg h (held ++ src) Ht) as (El & Ek & Ee).
  destruct (parts_agree h (held ++ src)) as (E0 & E1 & _ & _ & En); [eapply take_le_eq; [exact Ht|lia]|].
  destruct (length_error cfg h) as [e|] eqn:Ele.
  - destruct HA as [p' ->]. exists e. split; [done|]. split; [lia|]. left. exists e. split; [|done].
    rewrite ParseFrame_eq, <-E0, <-E1, Hp, <-En, <-Ee, length_app.
    destruct (Nat.ltb_spec (length held + length src) 2); [lia|].
    by destruct (Nat.ltb_spec (length held + length src) (need_of h)); [lia|].
  - rewrite HA. assert (Hnil : [] = mask_bytes (key_of h) 0 (drop (need_of h) (held ++ take n src))).
    { rewrite drop_ge; [done|]. rewrite length_app, length_take. lia. }
    rewrite Hnil. apply body_round_ok; try done; lia.
Qed.

Lemma round_start_ok cfg h held src s :
  length h = 14%nat -> Forall is_byte h -> (length held < 2)%nat -> take (length held) h = held ->
  src <> [] -> Forall is_byte (held ++ src) ->
  round_ok cfg held src s (feed_round AcceptFrame src (st_start cfg h (length held)) s).
Proof.
  intros Hl Hh Hlt Ht Hne Hq. assert (Hs0 : (0 < length src)%nat) by (destruct src; [done|simpl; lia]).
  unfold feed_round. change (headerLen (st_start cfg h (length held))) with (length held).
  change (headerNeed (st_start cfg h (length held))) with 2%nat.
  destruct (Nat.ltb_spec (length held) 2); [|lia]. unfold copy_header. cbn [headerNeed headerLen header st_start].
  set (n := Nat.min (2 - length held) (length src)). rewrite Ht. fold (new_header h held src n).
  cbn [p_cfg p_fin p_rsv1 p_opcode p_masked payloadLen payloadRead maskKey maskOffset p_payload payloadBuf st_start].
  destruct (new_header_ok h held src n) as (Hl' & Hh' & Ht' & Htk); [done..|unfold n; lia|unfold n; lia|].
  set (h' := new_header h held src n) in *. fold zero_key. fold (st_start cfg h' (length held + n)).
  change (headerLen (st_start cfg h' (length held + n))) with (length held + n)%nat.
  change (headerNeed (st_start cfg h' (length held + n))) with 2%nat.
  assert (Hlen : length (held ++ take n src) = (length held + n)%nat) by (rewrite length_app, length_take; lia).
  destruct (Nat.ltb_spec (length held + n) 2) as [Hn2|Hn2].
  { split; [unfold n in *; lia|]. left. split; [done|]. rewrite <-Hlen. apply reps_start; [done|done|lia|by rewrite Hlen]. }
  assert (Hn : (length held + n = 2)%nat) by (unfold n in *; lia). rewrite Hn in *. cbn [Nat.eqb].
  pose proof (prepareHeader_spec cfg h' 2) as HP. specialize (Htk 2%nat ltac:(lia)).
  destruct (parts_agree h' (held ++ src) Htk) as (E0 & E1 & _ & _ & En).
  destruct (prefix_error cfg (nth 0 h' 0) (nth 1 h' 0)) as [e0|] eqn:Ep.
  { destruct HP as (e & p' & -> & Hk). exists e. split; [done|]. split; [unfold n; lia|]. left. exists e0.
    split; [|done]. rewrite ParseFrame_eq, <-E0, <-E1, Ep, length_app. by destruct (Nat.ltb_spec (length held + length src) 2); [unfold n in *; lia|]. }
  rewrite HP. change (headerLen (st_header cfg h' 2)) with 2%nat. change (headerNeed (st_header cfg h' 2)) with (need_of h').
  destruct (Nat.ltb_spec 2 (need_of h')) as [Hm|Hm].
  - split; [unfold n; lia|]. left. split; [done|]. rewrite <-Hlen. apply reps_header; [done|done|lia|by rewrite Hlen|done].
  - pose proof (need_range h'). assert (En2 : need_of h' = 2%nat) by lia.
    replace (st_header cfg h' 2) with (st_header cfg h' (need_of h')) by (by rewrite En2).
    apply header_done_ok; try done; rewrite ?En2; try done; unfold n in *; lia.
Qed.

Lemma round_header_ok cfg h held src s :
  length h = 14%nat -> Forall is_byte h -> (2 <= length held < need_of h)%nat -> take (length held) h = held ->
  prefix_error cfg (nth 0 h 0) (nth 1 h 0) = None -> src <> [] -> Forall is_byte (held ++ src) ->
  round_ok cfg held src s (feed_round AcceptFrame src (st_header cfg h (length held)) s).
Proof.
  intros Hl Hh Hlt Ht Hp Hne Hq. assert (Hs0 : (0 < length src)%nat) by (destruct src; [done|simpl; lia]).
  pose proof (need_range h). unfold feed_round. change (headerLen (st_header cfg h (length held))) with (length held).
  change (headerNeed (st_header cfg h (length held))) with (need_of h).
  destruct (Nat.ltb_spec (length held) (need_of h)); [|lia]. unfold copy_header. cbn [headerNeed headerLen header st_header].
  set (n := Nat.min (need_of h - length held) (length src)). rewrite Ht. fold (new_header h held src n).
  cbn [p_cfg p_fin p_rsv1 p_opcode p_masked payloadLen payloadRead maskKey maskOffset p_payload payloadBuf st_header].
  destruct (new_header_ok h held src n) as (Hl' & Hh' & Ht' & Htk); [done..|unfold n; lia|unfold n; lia|].
  set (h' := new_header h held src n) in *.
  assert (Hag : take 2 h = take 2 h').
  { rewrite Htk by lia. rewrite take_app_le by lia. rewrite <-Ht, take_take, Nat.min_l by lia. done. }
  destruct (parts_agree h h' Hag) as (E0 & E1 & Ec & Em & En).
  rewrite E0, Em, Ec. fold zero_key. rewrite En. fold (st_header cfg h' (length held + n)). rewrite <-En.
  change (headerLen (st_header cfg h' (length held + n))) with (length held + n)%nat.
  change (headerNeed (st_header cfg h' (length held + n))) with (need_of h'). rewrite <-?En.
  rewrite E0, E1 in Hp.
  assert (Hlen : length (held ++ take n src) = (length held + n)%nat) by (rewrite length_app, length_take; lia).
  destruct (Nat.ltb_spec (length held + n) (need_of h)) as [Hn2|Hn2].
  { split; [unfold n in *; lia|]. left. split; [done|]. rewrite <-Hlen.
    apply reps_header; [done|done|rewrite <-En; lia|by rewrite Hlen|done]. }
  destruct (Nat.eqb_spec (need_of h) 2); [lia|].
  change (headerLen (st_header cfg h' (length held + n))) with (length held + n)%nat.
  change (headerNeed (st_header cfg h' (length held + n))) with (need_of h'). rewrite <-?En.
  destruct (Nat.ltb_spec (length held + n) (need_of h)); [lia|].
  assert (Hk : (length held + n = need_of h')%nat) by (unfold n in *; lia). rewrite Hk.
  apply header_done_ok; try done; [apply Htk; lia|unfold n in *; lia].
Qed.

Lemma feed_round_ok cfg p held src s :
  reps cfg p held -> src <> [] -> Forall is_byte (held ++ src) -> round_ok cfg held src s (feed_round AcceptFrame src p s).
Proof.
  intros Hr Hne Hq. destruct Hr as [h held Hh Hb Hl Ht|h held Hh Hb Hl Ht Hp|h held Hh Hb Hl Ht Hp He];
    [by apply round_start_ok|by apply round_header_ok|].
  pose proof (need_range h). unfold feed_round. cbn [headerLen headerNeed st_body]. rewrite Nat.ltb_irrefl.
  replace held with (held ++ take 0 src) at 2 by (by rewrite take_0, app_nil_r).
  apply body_round_ok; try done; try lia; [|right; split; [lia|done]].
  rewrite Ht. by rewrite take_app_le by lia.
Qed.

(** The reference: whole frames from the front of the stream, one ParseFrame
    after the other, until one is incomplete or an error ends it. *)
Fixpoint parse_stream (fuel : nat) (cfg : option ParserConfig) (q : list Z) (s : S) : option ws_error * list Z * S :=
  match fuel with
  | O => (None, q, s)
  | Datatypes.S fuel =>
      match ParseFrame q cfg with
      | PIncomplete => (None, q, s)
      | PError e => (Some e, q, s)
      | PFrame f n =>
          match AcceptFrame f s with
          | (Some e, s) => (Some e, drop n q, s)
          | (None, s) => parse_stream fuel cfg (drop n q) s
          end
      end
  end.

Lemma ParseFrame_size q cfg f n : ParseFrame q cfg = PFrame f n -> (2 <= n <= length q)%nat.
Proof.
  rewrite ParseFrame_eq. pose proof (need_range q). destruct (length q <? 2)%nat; [done|].
  destruct (prefix_error _ _ _); [done|]. destruct (length q <? need_of q)%nat; [done|].
  destruct (length_error _ _); [done|].
  destruct (Nat.ltb_spec (length q) (need_of q + Z.to_nat (len_of q))); [done|]. cbv zeta.
  destruct (close_error _ _); [done|]. intros E. assert (n = need_of q + Z.to_nat (len_of q))%nat by congruence. lia.
Qed.

Lemma reps_held cfg p held : reps cfg p held -> p_cfg p = cfg /\ (headerLen p = 0%nat <-> held = []).
Proof.
  intros Hr. destruct Hr as [h held Hh Hb Hl Ht|h held Hh Hb Hl Ht Hp|h held Hh Hb Hl Ht Hp He]; cbn.
  1-2: (split; [done|]); split; [intros; by apply nil_length_inv|by intros ->].
  pose proof (need_range h). split; [done|]. split; [intros; lia|]. intros ->. simpl in Hl. lia.
Qed.

(** What a Feed leaves behind, against the reference on the same bytes. *)
Definition feed_agrees (cfg : option ParserConfig) (q : list Z) (s : S) (avail : nat)
    (r : outcome (nat * option ws_error * Parser * S)) : Prop :=
  exists n err p' s' err0 rest, r = Ret (n, err, p', s') /\
    (forall fuel, (length q < fuel)%nat -> parse_stream fuel cfg q s = (err0, rest, s')) /\
    option_map err_kind err = option_map err_kind err0 /\
    (err = None -> n = avail /\ reps cfg p' rest).

Lemma agrees_frame cfg q f n s s' avail r :
  ParseFrame q cfg = PFrame f n -> AcceptFrame f s = (None, s') ->
  feed_agrees cfg (drop n q) s' avail r -> feed_agrees cfg q s avail r.
Proof.
  intros Ep Ea (n1 & err & p1 & s1 & err0 & rest & Er & Hps & Hk & Hn1).
  exists n1, err, p1, s1, err0, rest. split; [done|]. split; [|done].
  intros [|fuel] Hf; [lia|]. cbn [parse_stream]. rewrite Ep, Ea. apply Hps.
  pose proof (ParseFrame_size _ _ _ _ Ep). rewrite length_drop. lia.
Qed.

Lemma agrees_parse_error cfg q s avail n p e e0 :
  ParseFrame q cfg = PError e0 -> err_kind e = err_kind e0 -> feed_agrees cfg q s avail (Ret (n, Some e, p, s)).
Proof.
  intros Ep Ek. exists n, (Some e), p, s, (Some e0), q. split; [done|]. split; [|split; [simpl; congruence|done]].
  intros [|fuel] Hf; [lia|]. cbn [parse_stream]. by rewrite Ep.
Qed.

Lemma agrees_sink_error cfg q s s' avail n k p e f :
  ParseFrame q cfg = PFrame f k -> AcceptFrame f s = (Some e, s') -> feed_agrees cfg q s avail (Ret (n, Some e, p, s')).
Proof.
  intros Ep Ea. exists n, (Some e), p, s', (Some e), (drop k q). split; [done|]. split; [|done].
  intros [|fuel] Hf; [lia|]. cbn [parse_stream]. by rewrite Ep, Ea.
Qed.

Lemma agrees_end cfg p held s avail : reps cfg p held -> feed_agrees cfg held s avail (Ret (avail, None, p, s)).
Proof.
  intros Hr. exists avail, None, p, s, None, held. split; [done|]. split; [|done].
  intros [|fuel] Hf; [lia|]. cbn [parse_stream]. by rewrite (reps_incomplete cfg p held Hr).
Qed.

(** feedTo's loop on a non-empty input. *)
Lemma feedTo_step fuel src consumed p s :
  src <> [] ->
  feedTo AcceptFrame (Datatypes.S fuel) src false consumed p s =
    let round := match feed_round AcceptFrame src p s with
            | Return n err p s => Ret ((consumed + n)%nat, err, p, s)
            | Continue n p s => feedTo AcceptFrame fuel (drop n src) false (consumed + n)%nat p s
            end in
    if (headerLen p =? 0)%nat then
      match ParseFrame src (p_cfg p) with
      | PError e => Ret (consumed, Some e, p, s)
      | PFrame f size =>
          match AcceptFrame f s with
          | (Some e, s) => Ret ((consumed + size)%nat, Some e, p, s)
          | (None, s) => feedTo AcceptFrame fuel (drop size src) false (consumed + size)%nat p s
          end
      | PIncomplete => round
      end else round.
Proof. by destruct src. Qed.

Lemma feedTo_spec cfg fuel src consumed p held s :
  reps cfg p held -> Forall is_byte (held ++ src) -> (length src <= fuel)%nat ->
  feed_agrees cfg (held ++ src) s (consumed + length src) (feedTo AcceptFrame fuel src false consumed p s).
Proof.
  revert src consumed p held s. induction fuel as [|fuel IH]; intros src consumed p held s Hr Hq Hf.
  all: destruct (decide (src = [])) as [->|Hne]; [rewrite app_nil_r; cbn; rewrite Nat.add_0_r; by apply agrees_end|].
  { destruct src; [done|simpl in Hf; lia]. }
  assert (Hs0 : (0 < length src)%nat) by (destruct src; [done|simpl; lia]).
  (* after [n] bytes the loop goes on with what follows them *)
  assert (Hgo : forall n p' held' s', (0 < n <= length src)%nat -> reps cfg p' held' -> Forall is_byte (held' ++ drop n src) ->
    feed_agrees cfg (held' ++ drop n src) s' (consumed + length src) (feedTo AcceptFrame fuel (drop n src) false (consumed + n)%nat p' s')).
  { intros n p' held' s' Hn Hr' Hq'.
    replace (consumed + length src)%nat with (consumed + n + length (drop n src))%nat by (rewrite length_drop; lia).
    apply IH; [done|done|rewrite length_drop; lia]. }
  assert (Hdrop : forall n, Forall is_byte (drop n src)) by (intros; apply Forall_app in Hq as [_ ?]; by apply Forall_drop).
  rewrite feedTo_step by done. cbv zeta.
  set (round := match feed_round AcceptFrame src p s with Return _ _ _ _ => _ | Continue _ _ _ => _ end).
  assert (Hround : feed_agrees cfg (held ++ src) s (consumed + length src) round).
  { unfold round. pose proof (feed_round_ok cfg p held src s Hr Hne Hq) as HR.
    destruct (feed_round AcceptFrame src p s) as [n p' s'|n err p' s'].
    - destruct HR as [Hn [[-> Hr']|(f & Ep & Ea & Hr')]].
      + replace (held ++ src) with ((held ++ take n src) ++ drop n src) in * by (by rewrite <-app_assoc, take_drop).
        by apply Hgo.
      + apply (agrees_frame _ _ _ _ _ _ _ _ Ep Ea). rewrite drop_app_ge by lia.
        replace (length held + n - length held)%nat with n by lia. apply (Hgo n p' []); [done|done|apply Hdrop].
    - destruct HR as (e & -> & Hn & [(e0 & Ep & Hk & ->)|(f & Ep & Ea & Hr')]);
        [exact (agrees_parse_error _ _ _ _ _ _ _ _ Ep Hk)|exact (agrees_sink_error _ _ _ _ _ _ _ _ _ _ Ep Ea)]. }
  destruct (Nat.eqb_spec (headerLen p) 0) as [E|]; [|done].
  destruct (reps_held cfg p held Hr) as [Hcfg Hheld]. apply Hheld in E as ->. rewrite Hcfg. rewrite app_nil_l in *.
  destruct (ParseFrame src cfg) as [|e|f n] eqn:Ep; [done|exact (agrees_parse_error _ _ _ _ _ _ _ _ Ep eq_refl)|].
  destruct (AcceptFrame f s) as [[e|] s'] eqn:Ea; [exact (agrees_sink_error _ _ _ _ _ _ _ _ _ _ Ep Ea)|].
  apply (agrees_frame _ _ _ _ _ _ _ _ Ep Ea). apply (Hgo n p []); [|done|apply Hdrop].
  pose proof (ParseFrame_size _ _ _ _ Ep). lia.
Qed.


(** *** A frame does not depend on what follows it *)

Lemma ParseFrame_app q more cfg :
  Forall is_byte q ->
  match ParseFrame q cfg with
  | PIncomplete => True
  | r => ParseFrame (q ++ more) cfg = r
  end.
Proof.
  intros Hq. rewrite !ParseFrame_eq. destruct (Nat.ltb_spec (length q) 2); [done|]. pose proof (need_range q).
  destruct (parts_agree q (q ++ more)) as (E0 & E1 & _ & Em & En); [by rewrite take_app_le by lia|].
  rewrite <-E0, <-E1, <-En, length_app. destruct (Nat.ltb_spec (length q + length more) 2); [lia|].
  destruct (prefix_error _ _ _); [done|]. destruct (Nat.ltb_spec (length q) (need_of q)); [done|].
  destruct (Nat.ltb_spec (length q + length more) (need_of q)); [lia|].
  destruct (header_agrees cfg q (q ++ more)) as (El & Ek & Ee); [by rewrite take_app_le by lia|].
  rewrite <-El, <-Ek, <-Ee, <-Em. destruct (length_error _ _); [done|].
  destruct (Nat.ltb_spec (length q) (need_of q + Z.to_nat (len_of q))); [done|].
  destruct (Nat.ltb_spec (length q + length more) (need_of q + Z.to_nat (len_of q))); [lia|]. cbv zeta.
  rewrite drop_app_le, take_app_le by (rewrite ?length_drop; lia).
  by destruct (close_error _ _).
Qed.

Definition stream (cfg : option ParserConfig) (q : list Z) (s : S) : option ws_error * list Z * S :=
  parse_stream (Datatypes.S (length q)) cfg q s.

Lemma parse_stream_fuel fuel cfg q s : (length q < fuel)%nat -> parse_stream fuel cfg q s = stream cfg q s.
Proof.
  unfold stream. remember (length q) as n eqn:En. revert fuel q s En. induction n as [n IH] using lt_wf_ind.
  intros [|fuel] q s En Hf; [lia|]. cbn [parse_stream]. destruct (ParseFrame q cfg) as [| |f k] eqn:Ep; [done..|].
  destruct (AcceptFrame f s) as [[e|] s']; [done|]. pose proof (ParseFrame_size _ _ _ _ Ep).
  assert (Hlt : (length (drop k q) < n)%nat) by (rewrite length_drop; lia).
  rewrite (IH _ Hlt fuel (drop k q) s' eq_refl) by lia. symmetry. apply (IH _ Hlt n (drop k q) s' eq_refl). lia.
Qed.

Lemma stream_eq cfg q s :
  stream cfg q s = match ParseFrame q cfg with
    | PIncomplete => (None, q, s)
    | PError e => (Some e, q, s)
    | PFrame f n => match AcceptFrame f s with
                    | (Some e, s) => (Some e, drop n q, s)
                    | (None, s) => stream cfg (drop n q) s
                    end
    end.
Proof.
  unfold stream at 1. cbn [parse_stream]. destruct (ParseFrame q cfg) as [| |f k] eqn:Ep; [done..|].
  destruct (AcceptFrame f s) as [[e|] s']; [done|]. apply parse_stream_fuel.
  pose proof (ParseFrame_size _ _ _ _ Ep). rewrite length_drop. lia.
Qed.

(** Bytes that come later are parsed with what the earlier ones left. *)
Lemma stream_app cfg q more s :
  Forall is_byte q ->
  match stream cfg q s with
  | (Some e, rest, s') => exists rest', stream cfg (q ++ more) s = (Some e, rest', s')
  | (None, rest, s') => stream cfg (q ++ more) s = stream cfg (rest ++ more) s'
  end.
Proof.
  remember (length q) as n eqn:En. revert q s En. induction n as [n IH] using lt_wf_ind. intros q s En Hq.
  rewrite (stream_eq cfg q s). pose proof (ParseFrame_app q more cfg Hq) as HA.
  destruct (ParseFrame q cfg) as [|e|f k] eqn:Ep; [done| |].
  - exists (q ++ more). rewrite stream_eq. by rewrite HA.
  - pose proof (ParseFrame_size _ _ _ _ Ep). rewrite (stream_eq cfg (q ++ more)), HA.
    destruct (AcceptFrame f s) as [[e|] s']; [by eexists|]. rewrite drop_app_le by lia.
    apply (IH (length (drop k q))); [rewrite length_drop; lia|done|by apply Forall_drop].
Qed.

(** ** Any chunking *)

(** One Feed per chunk, up to the first error. *)
Fixpoint feed_chunks (chunks : list (list Z)) (p : Parser) (s : S) : outcome (option ws_error * Parser * S) :=
  match chunks with
  | [] => Ret (None, p, s)
  | c :: chunks =>
      '(_, err, p, s) ← FeedTo AcceptFrame c p s;
      match err with
      | Some e => Ret (Some e, p, s)
      | None => feed_chunks chunks p s
      end
  end.

Lemma feed_chunks_spec cfg chunks p held s :
  reps cfg p held -> Forall is_byte (held ++ concat chunks) ->
  exists err p' s' err0 rest, feed_chunks chunks p s = Ret (err, p', s') /\
    stream cfg (held ++ concat chunks) s = (err0, rest, s') /\ option_map err_kind err = option_map err_kind err0 /\
    (err = None -> reps cfg p' rest).
Proof.
  revert p held s. induction chunks as [|c chunks IH]; intros p held s Hr Hq; cbn [feed_chunks concat] in *.
  { rewrite app_nil_r. exists None, p, s, None, held. rewrite stream_eq, (reps_incomplete cfg p held Hr). by split_and!. }
  rewrite app_assoc in *. apply Forall_app in Hq as [Hq1 Hq2].
  destruct (feedTo_spec cfg (length c) c 0 p held s Hr Hq1 (Nat.le_refl _)) as (n & err & p1 & s1 & err0 & rest & E & Hps & Hk & Hn).
  specialize (Hps _ (Nat.lt_succ_diag_r _)). fold (stream cfg (held ++ c) s) in Hps.
  unfold FeedTo. rewrite E. cbn [mbind outcome_bind]. pose proof (stream_app cfg (held ++ c) (concat chunks) s Hq1) as HS.
  rewrite Hps in HS. destruct err as [e|], err0 as [e0|]; try done.
  - destruct HS as [rest' HS]. exists (Some e), p1, s1, (Some e0), rest'. by split_and!.
  - destruct (Hn eq_refl) as [_ Hr1]. rewrite HS. apply IH; [done|].
    apply Forall_app_2; [|done]. clear - Hr1 Hps Hq1.
    revert Hps. unfold stream. generalize (Datatypes.S (length (held ++ c))). generalize (held ++ c), s, Hq1. clear.
    intros q s Hq fuel. revert q s Hq. induction fuel as [|fuel IH]; intros q s Hq; cbn [parse_stream]; [by intros [= <- <-]|].
    destruct (ParseFrame q cfg) as [| |f k]; [by intros [= <- <-]|done|].
    destruct (AcceptFrame f s) as [[e|] s']; [done|]. apply IH. by apply Forall_drop.
Qed.
End FeedFacts.
End Facts.

(** C26. Splitting the input never changes what the parser delivers: for every
    configuration, every sink that does not look at Frame.Borrowed and every way
    to cut a byte stream into reads, feeding the pieces one by one always
    returns, delivers exactly the frames that ParseFrame finds in the whole
    stream, in order, with their unmasked payloads, and ends with the same kind
    of error or with the same bytes of an unfinished frame pending. *)
Theorem incremental_parse_is_whole_parse `{Vector} {S : Type} (AcceptFrame : Frame -> S -> option ws_error * S) cfg chunks s :
  (forall f s, AcceptFrame f s = AcceptFrame (unborrow f) s) -> Forall is_byte (concat chunks) ->
  exists err p' s' err0 rest,
    feed_chunks AcceptFrame chunks (NewParser cfg) s = Ret (err, p', s') /\
    stream AcceptFrame (Some cfg) (concat chunks) s = (err0, rest, s') /\
    option_map err_kind err = option_map err_kind err0 /\
    (err = None -> reps (Some cfg) p' rest).
Proof.
  intros Hs Hq. apply (feed_chunks_spec AcceptFrame Hs (Some cfg) chunks (NewParser cfg) [] s); [|done].
  change (NewParser cfg) with (st_start (Some cfg) (replicate 14 0) 0). apply reps_reset; [done|].
  apply Forall_replicate. split; lia.
Qed.

(** A sink that keeps every frame. *)
Definition collect (f : Frame) (s : list Frame) : option ws_error * list Frame := (None, s ++ [unborrow f]).

Definition client_config : ParserConfig := MkParserConfig true false 0.
Definition masked_hi : list Z := [129; 130; 1; 2; 3; 4; 73; 107].

Lemma incremental_parse_is_whole_parse_witness :
  exists p', @feed_chunks generic_vector _ collect [[129]; [130; 1; 2]; [3; 4; 73]; [107]] (NewParser client_config) [] =
    Ret (None, p', [MkFrame true false Text true true [72; 105]]).
Proof.
  destruct (@incremental_parse_is_whole_parse generic_vector _ collect client_config [[129]; [130; 1; 2]; [3; 4; 73]; [107]] [])
    as (err & p' & s' & err0 & rest & E & Es & Ek & _).
  - reflexivity.
  - repeat (apply Forall_cons_2; [split; lia|]). constructor.
  - exists p'. rewrite E. vm_compute in Es. injection Es as <- <- <-. by destruct err.
Defined.

(** ** Encoding *)

Record frame_valid (cfg : option ParserConfig) (f : Frame) : Prop := {
  fv_op : validOpcode (Opcode f) = true;
  fv_mask : Masked f = parserExpectMask cfg;
  fv_rsv1 : RSV1 f = true -> parserAllowRSV1 cfg = true;
  fv_control : 8 <= Opcode f -> Fin f = true /\ RSV1 f = false /\ (length (Payload f) < 126)%nat;
  fv_bytes : Forall is_byte (Payload f);
  fv_max : Z.of_nat (length (Payload f)) <= parserMaxFramePayload cfg;
  fv_int : Z.of_nat (length (Payload f)) <= maxInt - 14
}.

Definition first_of (f : Frame) : Z :=
  let b := if Fin f then Z.lor (Opcode f) 128 else Opcode f in if RSV1 f then Z.lor b 64 else b.

Lemma first_of_bits f :
  validOpcode (Opcode f) = true ->
  bit 48 (first_of f) = false /\ bit 64 (first_of f) = RSV1 f /\ bit 128 (first_of f) = Fin f /\
  Z.land (first_of f) 15 = Opcode f.
Proof.
  unfold validOpcode, first_of. intros Ho. repeat (apply orb_prop in Ho as [Ho|Ho]); apply Z.eqb_eq in Ho; rewrite Ho;
    destruct (Fin f), (RSV1 f); done.
Qed.

Lemma second_byte (masked : bool) c :
  0 <= c <= 127 -> let b := Z.lor (if masked then 128 else 0) c in bit 128 b = masked /\ Z.land b 127 = c /\ is_byte b.
Proof.
  intros Hc b. assert (Hb : b = (if masked then 128 else 0) + c).
  { unfold b. destruct masked; [|by rewrite Z.lor_0_l]. rewrite <-Z.lxor_lor, <-Z.add_nocarry_lxor; [done|..];
      replace c with (Z.land c (Z.ones 7)) by (rewrite Z.land_ones by lia; apply Z.mod_small; lia);
      rewrite (Z.land_comm c), Z.land_assoc; by rewrite Z.land_0_l. }
  assert (Hl : Z.land b 127 = c).
  { change 127 with (Z.ones 7). rewrite Z.land_ones, Hb by lia. destruct masked; [|by rewrite Z.mod_small by lia].
    replace (128 + c) with (c + 1 * 2 ^ 7) by lia. rewrite Z.mod_add by lia. apply Z.mod_small. lia. }
  split; [|split; [done|destruct masked; rewrite Hb; split; lia]].
  unfold bit. destruct masked.
  - destruct (Z.eqb_spec (Z.land b 128) 0) as [E|]; [|done]. exfalso.
    assert (Ht : Z.testbit (Z.land b 128) 7 = true) by (unfold b; rewrite Z.land_spec, Z.lor_spec; done).
    by rewrite E in Ht.
  - assert (E : Z.land b 128 = 0); [|by rewrite E]. rewrite <-Hl in Hb. unfold b. rewrite Z.lor_0_l.
    replace c with (Z.land c (Z.ones 7)) by (rewrite Z.land_ones by lia; apply Z.mod_small; lia).
    rewrite <-Z.land_assoc. by rewrite Z.land_0_r.
Qed.

(** The header as prefix, length code, extended length and key. *)
Definition code_bytes (f : Frame) : Z * list Z :=
  let n := Z.of_nat (length (Payload f)) in
  if n <? 126 then (n, []) else if n <=? 65535 then (126, be_bytes 2 n) else (127, be_bytes 8 n).

Lemma AppendHeader_eq dst f key :
  AppendHeader dst f key = dst ++ first_of f :: Z.lor (if Masked f then 128 else 0) (code_bytes f).1 :: (code_bytes f).2 ++
    (if Masked f then key else []).
Proof.
  unfold AppendHeader, code_bytes, first_of. cbv zeta. set (n := Z.of_nat (length (Payload f))).
  assert (Hn : 0 <= n) by lia. destruct (Z.ltb_spec n 126).
  - rewrite wrap_id by (split; lia). cbn [fst snd]. destruct (Masked f); by rewrite <-?app_assoc, ?app_nil_r.
  - destruct (Z.leb_spec n 65535); cbn [fst snd]; destruct (Masked f); by rewrite <-?app_assoc, ?app_nil_r; cbn; rewrite <-?app_assoc, ?app_nil_r.
Qed.

Section Encode.
Context `{Vector}.

Lemma code_bytes_ok f :
  Z.of_nat (length (Payload f)) <= maxInt - 14 ->
  let '(c, ext) := code_bytes f in
  let n := Z.of_nat (length (Payload f)) in
  0 <= c <= 127 /\ length ext = (if (c =? 126)%Z then 2 else if (c =? 127)%Z then 8 else 0)%nat /\ Forall is_byte ext /\
  (if c =? 126 then be_val ext else if c =? 127 then be_val ext else c) = n /\
  ((c =? 126) && (n <? 126) = false) /\ ((c =? 127) && (n <? 65536) = false) /\
  ((c =? 127) && bit 128 (nth 0 ext 0) = false) /\ (n < 126 -> c < 126).
Proof.
  intros Hmax. unfold code_bytes. cbv zeta. set (n := Z.of_nat (length (Payload f))) in *.
  assert (Hn : 0 <= n) by lia. unfold maxInt in Hmax.
  destruct (Z.ltb_spec n 126); [|destruct (Z.leb_spec n 65535)].
  - destruct (Z.eqb_spec n 126); [lia|]. destruct (Z.eqb_spec n 127); [lia|]. split_and!; try done; lia.
  - cbn [Z.eqb Pos.eqb]. rewrite length_be_bytes, be_val_be_bytes by (split; lia).
    split_and!; auto using be_bytes_byte; try lia; try done; apply Z.ltb_ge; lia.
  - cbn [Z.eqb Pos.eqb]. rewrite length_be_bytes, be_val_be_bytes by (split; lia).
    split_and!; auto using be_bytes_byte; try lia; try done; cbn [andb]; try (apply Z.ltb_ge; lia).
    change (nth 0 (be_bytes 8 n) 0) with (Z.land (Z.shiftr (Z.shiftr (Z.shiftr (Z.shiftr (Z.shiftr (Z.shiftr (Z.shiftr n 8) 8) 8) 8) 8) 8) 8) 255).
    rewrite !Z.shiftr_shiftr by lia.
    match goal with |- context [Z.shiftr n ?e] => replace e with 56 by lia end. unfold bit. rewrite <-Z.land_assoc. change (Z.land 255 128) with 128.
    assert (Hs : Z.shiftr n 56 < 128 /\ 0 <= Z.shiftr n 56).
    { rewrite Z.shiftr_div_pow2 by lia. split; [apply Z.div_lt_upper_bound; lia|apply Z.div_pos; lia]. }
    replace (Z.shiftr n 56) with (Z.land (Z.shiftr n 56) (Z.ones 7)) by (rewrite Z.land_ones by lia; apply Z.mod_small; lia).
    rewrite <-Z.land_assoc. by rewrite Z.land_0_r.
Qed.

(** The parts of an encoded frame with anything behind it. *)
Lemma encoded_parts f b1 c ext (k body rest : list Z) :
  bit 128 b1 = Masked f -> Z.land b1 127 = c ->
  length ext = (if (c =? 126)%Z then 2 else if (c =? 127)%Z then 8 else 0)%nat ->
  length k = (if Masked f then 4 else 0)%nat ->
  let q := first_of f :: b1 :: ext ++ k ++ body ++ rest in
  need_of q = (2 + length ext + length k)%nat /\ drop (need_of q) q = body ++ rest /\
  masked_of q = Masked f /\ code_of q = c /\
  len_of q = (if c =? 126 then be_val ext else if c =? 127 then be_val ext else c) /\
  key_of q = (if Masked f then k else zero_key) /\ ((0 < length ext)%nat -> nth 2 q 0 = nth 0 ext 0).
Proof.
  intros Hm Hc He Hk q. assert (Em : masked_of q = Masked f) by done. assert (Ec : code_of q = c) by done.
  assert (En : need_of q = (2 + length ext + length k)%nat).
  { unfold need_of, headerSizeOf. rewrite Em, Ec, He, Hk. done. }
  split; [done|]. split.
  { rewrite En. change q with ([first_of f; b1] ++ ext ++ k ++ body ++ rest). rewrite !app_assoc.
    rewrite <-app_assoc. apply drop_app_length'. rewrite !length_app. simpl. lia. }
  split; [done|]. split; [done|]. split.
  { unfold len_of. rewrite Ec. change (drop 2 q) with (ext ++ k ++ body ++ rest).
    destruct (c =? 126); [by rewrite take_app_length' by lia|]. destruct (c =? 127); [by rewrite take_app_length' by lia|done]. }
  split.
  { unfold key_of. rewrite Em. destruct (Masked f); [|done]. rewrite En.
    change q with ([first_of f; b1] ++ ext ++ k ++ body ++ rest). rewrite (app_assoc _ ext), drop_app_length' by (rewrite length_app; simpl; lia).
    apply take_app_length'. lia. }
  intros Hpos. unfold q. destruct ext; [simpl in Hpos; lia|done].
Qed.

Lemma encoded_prefix_ok cfg f b1 c :
  frame_valid cfg f -> bit 128 b1 = Masked f -> Z.land b1 127 = c ->
  (Z.of_nat (length (Payload f)) < 126 -> c < 126) -> prefix_error cfg (first_of f) b1 = None.
Proof.
  intros [Ho Hm Hr Hctl _ _ _] Hb1m Hb1c Hsmall. destruct (first_of_bits f Ho) as (B48 & B64 & B128 & B15).
  unfold prefix_error. rewrite B48, B64, B128, B15, Hb1m, Hb1c, Ho, Hm, eqb_reflx. cbn [negb].
  destruct (RSV1 f) eqn:Er; [rewrite Hr by done|]; cbn; (destruct (Z.leb_spec 8 (Opcode f)) as [H8|]; [|done]);
    destruct (Hctl H8) as (-> & ? & ?); [done|]. cbn. destruct (Z.leb_spec 126 c); [lia|done].
Qed.

(** C27. Encoding then parsing gives the frame back: for every frame the
    configuration allows, of any payload length up to the largest representable,
    masked or not, ParseFrame on the encoded bytes followed by anything returns
    that frame (its payload now aliasing the input) and the encoded size. *)
Theorem append_parse_roundtrip cfg f key dst rest :
  frame_valid cfg f -> (Masked f = true -> length key = 4%nat /\ Forall is_byte key) ->
  close_error (Opcode f) (Payload f) = None ->
  exists wire, Append dst f key = dst ++ wire /\
    ParseFrame (wire ++ rest) cfg = PFrame (unborrow f) (length wire).
Proof.
  intros Hf Hkey Hclose. pose proof Hf as [Ho Hm Hr Hctl Hb Hmax Hint].
  pose proof (code_bytes_ok f Hint) as HC. destruct (code_bytes f) as [c ext] eqn:Ecb. cbv zeta in HC.
  destruct HC as (Hc & Hle & Hbe & Hlen & Hn126 & Hn127 & Hrb & Hsmall).
  destruct (second_byte (Masked f) c Hc) as (Hb1m & Hb1c & _). set (b1 := Z.lor _ c) in *.
  set (k := if Masked f then key else []).
  assert (Hk : length k = (if Masked f then 4 else 0)%nat) by (unfold k; destruct (Masked f); [apply Hkey|]; done).
  set (body := if Masked f then unmask (Payload f) key 0 else Payload f).
  assert (Hbl : length body = length (Payload f)).
  { unfold body. destruct (Masked f) eqn:E; [|done]. destruct (Hkey eq_refl). by rewrite unmask_spec, length_mask_bytes by done. }
  destruct (encoded_parts f b1 c ext k body rest Hb1m Hb1c Hle Hk) as (En & Ed & Em & Ecq & El & Ekq & Enth).
  exists (first_of f :: b1 :: ext ++ k ++ body). split.
  { unfold Append. rewrite AppendHeader_eq, Ecb. cbn [fst snd]. fold b1 k. destruct (Masked f); by rewrite <-app_assoc; simpl; rewrite <-app_assoc. }
  cbn [app]. rewrite <-!app_assoc. set (q := first_of f :: b1 :: ext ++ k ++ body ++ rest) in *.
  destruct (first_of_bits f Ho) as (_ & B64 & B128 & B15).
  assert (Hql : length q = (need_of q + length (Payload f) + length rest)%nat).
  { rewrite En. unfold q. cbn [length]. rewrite !length_app. lia. }
  rewrite ParseFrame_eq. change (nth 0 q 0) with (first_of f). change (nth 1 q 0) with b1.
  destruct (Nat.ltb_spec (length q) 2); [lia|].
  rewrite (encoded_prefix_ok cfg f b1 c Hf Hb1m Hb1c) by lia.
  destruct (Nat.ltb_spec (length q) (need_of q)); [lia|]. rewrite Hlen in El.
  assert (length_error cfg q = None) as ->.
  { unfold length_error. rewrite Ecq, El, Hn126, Hn127.
    assert ((c =? 127) && bit 128 (nth 2 q 0) = false) as ->.
    { destruct (c =? 127) eqn:E; [|done]. rewrite Enth; [exact Hrb|]. rewrite Hle. destruct (c =? 126); simpl; lia. }
    destruct (Z.ltb_spec (parserMaxFramePayload cfg) (Z.of_nat (length (Payload f)))); [lia|].
    pose proof (need_range q). by destruct (Z.ltb_spec (maxInt - Z.of_nat (need_of q)) (Z.of_nat (length (Payload f)))); [lia|]. }
  rewrite El, Nat2Z.id. destruct (Nat.ltb_spec (length q) (need_of q + length (Payload f))); [lia|]. cbv zeta.
  rewrite Ed, Em, Ekq, B128, B64, B15, <-Hbl, take_app_length.
  assert ((if Masked f then unmask body (if Masked f then k else zero_key) 0 else body) = Payload f) as ->.
  { unfold body, k. destruct (Masked f) eqn:E; [|done]. destruct (Hkey eq_refl) as [Hkl Hkb].
    by apply unmask_involutive. }
  rewrite Hclose, En. f_equal. unfold q. cbn [length]. rewrite !length_app. lia.
Qed.
End Encode.

Definition sample_frame : Frame := MkFrame true false Binary true false (Z.of_nat <$> seq 0 200).

Lemma append_parse_roundtrip_witness :
  exists wire, @Append generic_vector [] sample_frame sample_key = wire /\
    @ParseFrame generic_vector (wire ++ [1; 2]) (Some client_config) = PFrame (unborrow sample_frame) (length wire).
Proof.
  destruct (@append_parse_roundtrip generic_vector (Some client_config) sample_frame sample_key [] [1; 2]) as (wire & E & EP).
  - split; try done. apply Forall_forall. intros z Hz. apply list_elem_of_fmap in Hz as (n & -> & Hn).
    apply elem_of_seq in Hn. split; lia.
  - intros _. split; [reflexivity|apply sample_key_bytes].
  - reflexivity.
  - exists wire. split; [exact E|exact EP].
Defined.
