(* ===== verification/WsAssembler.v ===== *)
(** * uws/internal/frame/frame.go: joining fragments into messages

    [Accept] applies the message-level rules to one frame.  Its callbacks are
    functions on a client state [T]; a nil callback is [None]. *)

From S2P Require Import Prelude.
From S2P Require Import Utf8 WsMask WsFrame.
Local Open Scope Z_scope.

Record Message : Type := MkMessage {
  m_opcode : OpCode;
  m_payload : list Z;
  Compressed : bool;
  m_borrowed : bool
}.

Record AssemblerConfig : Type := MkAssemblerConfig {
  MaxMessage : Z;
  MaxCompressedPayload : Z;
  ValidateUTF8 : bool
}.

Record Assembler : Type := MkAssembler {
  a_cfg : option AssemblerConfig;
  fragmented : bool;
  a_opcode : OpCode;
  compressed : bool;
  a_payload : list Z
}.

Definition assemblerMaxMessage (cfg : option AssemblerConfig) : Z :=
  match cfg with Some c => if MaxMessage c =? 0 then maxInt else MaxMessage c | None => maxInt end.
Definition assemblerMaxCompressedPayload (cfg : option AssemblerConfig) : Z :=
  match cfg with Some c => if MaxCompressedPayload c =? 0 then maxInt else MaxCompressedPayload c | None => maxInt end.
Definition assemblerValidateUTF8 (cfg : option AssemblerConfig) : bool :=
  match cfg with Some c => ValidateUTF8 c | None => true end.

Definition NewAssemblerWithLimits (maxMessage maxCompressedPayload : Z) : Assembler :=
  MkAssembler (Some (MkAssemblerConfig maxMessage maxCompressedPayload true)) false 0 false [].
Definition NewAssembler (maxMessage : Z) : Assembler := NewAssemblerWithLimits maxMessage maxMessage.

Definition AsmReset (a : Assembler) : Assembler := MkAssembler (a_cfg a) false 0 false [].
Definition AsmInit (cfg : option AssemblerConfig) (a : Assembler) : Assembler :=
  let a := AsmReset a in MkAssembler cfg (fragmented a) (a_opcode a) (compressed a) (a_payload a).
Definition AtMessageBoundary (a : Assembler) : bool := negb (fragmented a).

Definition exceedsPayloadLimit (incoming : nat) (comp : bool) (a : Assembler) : bool :=
  let limit := if comp then assemblerMaxCompressedPayload (a_cfg a) else assemblerMaxMessage (a_cfg a) in
  let current := Z.of_nat (length (a_payload a)) in
  let n := Z.of_nat incoming in
  (limit <? current) || (wrap 64 (limit - current) <? n).

Section Accept.
Context `{Vector} {T : Type}.
Variable onControl : option (Frame -> T -> option ws_error * T).
Variable onMessage : option (Message -> T -> option ws_error * T).

Definition emitMessage (cfg : option AssemblerConfig) (m : Message) (cb : Message -> T -> option ws_error * T) (t : T) : option ws_error * T :=
  if assemblerValidateUTF8 cfg && (m_opcode m =? Text) && negb (Compressed m) && negb (ValidUTF8 (m_payload m))
  then (Some ErrInvalidUTF8, t)
  else cb m t.

Definition accept_control (f : Frame) (t : T) : option ws_error * T :=
  if RSV1 f then (Some (ErrProtocol RSV1OnControl), t)
  else match onControl with None => (Some ErrNilCallback, t) | Some cb => cb f t end.

Definition AcceptSingle (f : Frame) (cfg : option AssemblerConfig) (t : T) : option ws_error * T :=
  if 8 <=? Opcode f then accept_control f t
  else match onMessage with
  | None => (Some ErrNilCallback, t)
  | Some cb =>
      if negb (Opcode f =? Text) && negb (Opcode f =? Binary) then (Some (ErrProtocol InvalidDataOpcode), t)
      else if negb (Fin f) then (Some (ErrProtocol FragmentedNeedsAssembler), t)
      else
        let a := MkAssembler cfg false 0 false [] in
        if exceedsPayloadLimit (length (Payload f)) (RSV1 f) a then (Some ErrMessageTooBig, t)
        else emitMessage cfg (MkMessage (Opcode f) (Payload f) (RSV1 f) (Borrowed f)) cb t
  end.

Definition Accept (f : Frame) (a : Assembler) (t : T) : option ws_error * Assembler * T :=
  if 8 <=? Opcode f then let '(e, t) := accept_control f t in (e, a, t)
  else match onMessage with
  | None => (Some ErrNilCallback, a, t)
  | Some cb =>
      if (Opcode f =? Text) || (Opcode f =? Binary) then
        if fragmented a then (Some (ErrProtocol NewDataWhileFragmented), a, t)
        else if exceedsPayloadLimit (length (Payload f)) (RSV1 f) a then (Some ErrMessageTooBig, a, t)
        else if Fin f then
          let '(e, t) := emitMessage (a_cfg a) (MkMessage (Opcode f) (Payload f) (RSV1 f) (Borrowed f)) cb t in (e, a, t)
        else (None, MkAssembler (a_cfg a) true (Opcode f) (RSV1 f) (Payload f), t)
      else if Opcode f =? Continuation then
        if negb (fragmented a) then (Some (ErrProtocol ContinuationWithoutMessage), a, t)
        else if RSV1 f then (Some (ErrProtocol RSV1OnContinuation), a, t)
        else if exceedsPayloadLimit (length (Payload f)) (compressed a) a then (Some ErrMessageTooBig, a, t)
        else
          let a := MkAssembler (a_cfg a) (fragmented a) (a_opcode a) (compressed a) (a_payload a ++ Payload f) in
          if negb (Fin f) then (None, a, t)
          else
            let message := MkMessage (a_opcode a) (a_payload a) (compressed a) false in
            let a := AsmReset a in
            let '(e, t) := emitMessage (a_cfg a) message cb t in (e, a, t)
      else (Some (ErrProtocol InvalidDataOpcode), a, t)
  end.

(** Frames accepted one after the other, up to the first error. *)
Fixpoint accept_all (fs : list Frame) (a : Assembler) (t : T) : option ws_error * Assembler * T :=
  match fs with
  | [] => (None, a, t)
  | f :: fs =>
      match Accept f a t with
      | (Some e, a, t) => (Some e, a, t)
      | (None, a, t) => accept_all fs a t
      end
  end.
End Accept.

(** ** What is delivered *)

Inductive event : Type := EControl (f : Frame) | EMessage (m : Message).

Definition log_control : Frame -> list event -> option ws_error * list event := fun f t => (None, t ++ [EControl f]).
Definition log_message : Message -> list event -> option ws_error * list event := fun m t => (None, t ++ [EMessage m]).

Definition limit_of (cfg : option AssemblerConfig) (comp : bool) : Z :=
  if comp then assemblerMaxCompressedPayload cfg else assemblerMaxMessage cfg.

(** Configured limits are uint64 values. *)
Definition limits_ok (cfg : option AssemblerConfig) : Prop := forall comp, is_uint 64 (limit_of cfg comp).

Lemma exceeds_spec n comp a :
  limits_ok (a_cfg a) ->
  exceedsPayloadLimit n comp a = negb (Z.of_nat (length (a_payload a) + n) <=? limit_of (a_cfg a) comp).
Proof.
  intros Hl. specialize (Hl comp). unfold exceedsPayloadLimit. fold (limit_of (a_cfg a) comp). cbv zeta.
  unfold is_uint in Hl. destruct (Z.ltb_spec (limit_of (a_cfg a) comp) (Z.of_nat (length (a_payload a)))) as [Hlt|Hge].
  - cbn [orb]. destruct (Z.leb_spec (Z.of_nat (length (a_payload a) + n)) (limit_of (a_cfg a) comp)); [lia|done].
  - cbn [orb]. rewrite wrap_id by (split; lia).
    destruct (Z.ltb_spec (limit_of (a_cfg a) comp - Z.of_nat (length (a_payload a))) (Z.of_nat n));
      destruct (Z.leb_spec (Z.of_nat (length (a_payload a) + n)) (limit_of (a_cfg a) comp)); (done || lia).
Qed.

(** A message as a sender may cut it: the first fragment, then continuation
    fragments, each preceded by control frames. *)
Record outgoing : Type := MkOutgoing {
  o_op : OpCode;
  o_comp : bool;
  o_first : list Z;
  o_rest : list (list Frame * list Z)
}.

Fixpoint continuation_frames (rest : list (list Frame * list Z)) : list Frame :=
  match rest with
  | [] => []
  | (ctl, p) :: rest => ctl ++ MkFrame (match rest with [] => true | _ => false end) false Continuation false false p :: continuation_frames rest
  end.

Definition frames_of (o : outgoing) : list Frame :=
  MkFrame (match o_rest o with [] => true | _ => false end) (o_comp o) (o_op o) false false (o_first o) :: continuation_frames (o_rest o).

Definition whole (o : outgoing) : list Z := o_first o ++ concat (o_rest o).*2.
Definition controls (o : outgoing) : list Frame := concat (o_rest o).*1.

Section AcceptFacts.
Context `{Vector}.

Definition control_ok (f : Frame) : Prop := 8 <= Opcode f /\ RSV1 f = false.

Record outgoing_ok (cfg : option AssemblerConfig) (o : outgoing) : Prop := {
  og_op : o_op o = Text \/ o_op o = Binary;
  og_controls : Forall control_ok (controls o);
  og_limit : Z.of_nat (length (whole o)) <= limit_of cfg (o_comp o);
  og_text : assemblerValidateUTF8 cfg = true -> o_op o = Text -> o_comp o = false -> ValidUTF8 (whole o) = true
}.

Abbreviation accepting := (accept_all (Some log_control) (Some log_message)).

Lemma accept_all_app fs gs a t :
  accepting (fs ++ gs) a t = match accepting fs a t with
    | (Some e, a, t) => (Some e, a, t)
    | (None, a, t) => accepting gs a t
    end.
Proof.
  revert a t. induction fs as [|f fs IH]; intros a t; simpl; [done|].
  destruct (Accept _ _ f a t) as [[[e|] a'] t']; [done|apply IH].
Qed.

Lemma accept_controls ctl a t : Forall control_ok ctl -> accepting ctl a t = (None, a, t ++ (EControl <$> ctl)).
Proof.
  intros Hc. revert t. induction Hc as [|f ctl [Ho Hr] _ IH]; intros t; csimpl; [by rewrite app_nil_r|].
  unfold Accept, accept_control. destruct (Z.leb_spec 8 (Opcode f)); [|lia]. rewrite Hr. cbn [log_control].
  rewrite IH, <-app_assoc. done.
Qed.

Lemma emit_ok cfg m t :
  (assemblerValidateUTF8 cfg = true -> m_opcode m = Text -> Compressed m = false -> ValidUTF8 (m_payload m) = true) ->
  emitMessage cfg m log_message t = (None, t ++ [EMessage m]).
Proof.
  intros Hv. unfold emitMessage. destruct (assemblerValidateUTF8 cfg); [|done]. destruct (Z.eqb_spec (m_opcode m) Text); [|done].
  destruct (Compressed m); [done|]. by rewrite Hv.
Qed.

Lemma accept_continuations cfg op comp acc rest t :
  limits_ok cfg -> rest <> [] -> Forall control_ok (concat rest.*1) ->
  Z.of_nat (length (acc ++ concat rest.*2)) <= limit_of cfg comp ->
  (assemblerValidateUTF8 cfg = true -> op = Text -> comp = false -> ValidUTF8 (acc ++ concat rest.*2) = true) ->
  accepting (continuation_frames rest) (MkAssembler cfg true op comp acc) t =
    (None, MkAssembler cfg false 0 false [], t ++ (EControl <$> concat rest.*1) ++ [EMessage (MkMessage op (acc ++ concat rest.*2) comp false)]).
Proof.
  intros Hl. revert acc t. induction rest as [|[ctl p] rest IH]; intros acc t Hne Hc Hlen Hv; [done|].
  csimpl in *. apply Forall_app in Hc as [Hc1 Hc2]. rewrite accept_all_app, accept_controls by done. cbn [accept_all].
  unfold Accept. cbn [Opcode Z.leb Z.compare Z.eqb Text Binary Continuation orb fragmented negb RSV1 compressed Payload a_cfg a_opcode a_payload Fin].
  rewrite exceeds_spec by done. cbn [a_cfg a_payload]. rewrite !length_app in Hlen.
  destruct (Z.leb_spec (Z.of_nat (length acc + length p)) (limit_of cfg comp)); [|lia]. cbn [negb].
  destruct rest as [|r rest].
  - csimpl in *. rewrite !app_nil_r in *. rewrite emit_ok by done. cbn [accept_all AsmReset a_cfg].
    by rewrite <-app_assoc.
  - cbn [negb]. rewrite IH; [|done|done|rewrite !length_app; lia|by rewrite <-app_assoc].
    rewrite fmap_app, <-!app_assoc. done.
Qed.


(** *** What can never be delivered or kept *)

Definition message_ok (cfg : option AssemblerConfig) (m : Message) : Prop :=
  Z.of_nat (length (m_payload m)) <= limit_of cfg (Compressed m) /\
  (assemblerValidateUTF8 cfg = true -> m_opcode m = Text -> Compressed m = false -> ValidUTF8 (m_payload m) = true).

Record asm_ok (a : Assembler) : Prop := {
  asm_limits : limits_ok (a_cfg a);
  asm_idle : fragmented a = false -> a_payload a = [];
  asm_bound : Z.of_nat (length (a_payload a)) <= limit_of (a_cfg a) (compressed a)
}.

Definition event_ok (cfg : option AssemblerConfig) (e : event) : Prop :=
  match e with EControl f => control_ok f | EMessage m => message_ok cfg m end.

Lemma emit_event_ok cfg m t :
  Forall (event_ok cfg) t -> Z.of_nat (length (m_payload m)) <= limit_of cfg (Compressed m) ->
  Forall (event_ok cfg) (emitMessage cfg m log_message t).2.
Proof.
  intros Ht Hm. unfold emitMessage. destruct (_ && _) eqn:E; [done|]. cbn. apply Forall_app_2; [done|].
  apply Forall_singleton. split; [done|]. intros Hv Ho Hc. rewrite Hv, Ho, Hc in E. cbn in E. by apply negb_false_iff in E.
Qed.

Lemma Accept_ok f a t :
  asm_ok a -> Forall (event_ok (a_cfg a)) t ->
  let '(e, a', t') := Accept (Some log_control) (Some log_message) f a t in
  asm_ok a' /\ a_cfg a' = a_cfg a /\ Forall (event_ok (a_cfg a)) t'.
Proof.
  intros Ha Ht. pose proof Ha as [Hl Hi Hb]. unfold Accept, accept_control.
  destruct (Z.leb_spec 8 (Opcode f)).
  { destruct (RSV1 f) eqn:Er; cbn; [done|]. split_and!; try done. apply Forall_app_2; [done|]. by apply Forall_singleton. }
  destruct (_ || _).
  - destruct (fragmented a) eqn:Ef; [done|]. rewrite exceeds_spec, (Hi eq_refl) by done. cbn [length Nat.add].
    destruct (Z.leb_spec (Z.of_nat (length (Payload f))) (limit_of (a_cfg a) (RSV1 f))); cbn [negb]; [|done].
    destruct (Fin f); [|split_and!; done].
    pose proof (emit_event_ok (a_cfg a) (MkMessage (Opcode f) (Payload f) (RSV1 f) (Borrowed f)) t Ht) as He.
    destruct (emitMessage _ _ _ t) as [e t']. split_and!; auto.
  - destruct (Opcode f =? Continuation); [|done]. destruct (fragmented a) eqn:Ef; cbn [negb]; [|done].
    destruct (RSV1 f); [done|]. rewrite exceeds_spec by done.
    destruct (Z.leb_spec (Z.of_nat (length (a_payload a) + length (Payload f))) (limit_of (a_cfg a) (compressed a))); cbn [negb]; [|done].
    rewrite <-length_app in *. destruct (Fin f); cbn [negb]; [|split_and!; done].
    pose proof (emit_event_ok (a_cfg a) (MkMessage (a_opcode a) (a_payload a ++ Payload f) (compressed a) false) t Ht) as He.
    cbn [a_cfg AsmReset]. cbn [a_opcode a_payload compressed]. destruct (emitMessage _ _ _ t) as [e t'].
    assert (Hz : asm_ok (MkAssembler (a_cfg a) false 0 false [])).
    { split; [done|done|]. destruct (Hl false) as [Hz _]. exact Hz. }
    split_and!; auto.
Qed.

(** C30. Whatever frames arrive, legal or not, the assembler never keeps or
    delivers more than the configured limit for the message's kind, and a text
    message it delivers uncompressed is valid UTF-8 when validation is on. *)
Theorem assembler_limits fs a :
  asm_ok a ->
  let '(_, a', t) := accepting fs a [] in
  asm_ok a' /\ Forall (event_ok (a_cfg a)) t.
Proof.
  intros Ha. cut (forall t, Forall (event_ok (a_cfg a)) t ->
    let '(_, a', t) := accepting fs a t in asm_ok a' /\ Forall (event_ok (a_cfg a)) t); [intros Hc; by apply Hc|].
  revert a Ha. induction fs as [|f fs IH]; intros a Ha t Ht; cbn [accept_all]; [done|].
  pose proof (Accept_ok f a t Ha Ht) as HA. destruct (Accept _ _ f a t) as [[[e|] a'] t'].
  - by destruct HA as (? & ? & ?).
  - destruct HA as (Ha' & Hcfg & Ht'). rewrite <-Hcfg in *. by apply IH.
Qed.
End AcceptFacts.

Definition sample_limits : option AssemblerConfig := Some (MkAssemblerConfig 10 20 true).

Lemma sample_limits_ok : limits_ok sample_limits.
Proof. intros [|]; split; vm_compute; intros; discriminate || reflexivity. Qed.

Definition sample_outgoing : list outgoing :=
  [MkOutgoing Text false [104; 105] [([MkFrame true false Ping false false [7]], [33])]; MkOutgoing Binary true [1; 2] []].


Lemma assembler_limits_witness :
  let '(_, a', t) := @accept_all generic_vector _ (Some log_control) (Some log_message)
    [MkFrame false false Text false false [1; 2; 3; 4; 5; 6]; MkFrame true false Continuation false false [7; 8; 9; 10; 11]]
    (MkAssembler sample_limits false 0 false []) [] in
  asm_ok a' /\ Forall (@event_ok generic_vector sample_limits) t.
Proof.
  apply (@assembler_limits generic_vector _ (MkAssembler sample_limits false 0 false [])).
  split; [apply sample_limits_ok|done|done].
Defined.
