(* ===== verification/TaskQueue.v ===== *)
(** * internal/taskqueue/queue.go: the intrusive FIFO

    Nodes live in a store shared by producers and the consumer; the queue holds
    only the two ends, and links run through the nodes.  Every method body is
    one critical section of the queue's mutex, so an execution is a sequence of
    them.  [queue_rep] relates the pointers to the list of queued nodes. *)

From S2P Require Import Prelude.

Section TaskQueue.
Context {V : Type}.

Record Node : Type := MkNode { Value : V; next : option nat }.
Abbreviation heap := (gmap nat Node).

Record Queue : Type := MkQueue { head : option nat; tail : option nat; accepting : bool }.

Definition New : Queue := MkQueue None None true.

(** [n.next = x]: a store through a pointer, nil or dangling panics. *)
Definition set_next (n : nat) (x : option nat) (h : heap) : outcome heap :=
  match h !! n with Some nd => Ret (<[n := MkNode (Value nd) x]> h) | None => Panic PanicNil end.

Definition load (n : nat) (h : heap) : outcome Node :=
  match h !! n with Some nd => Ret nd | None => Panic PanicNil end.

Definition TakeNext (n : nat) (h : heap) : outcome (option nat * heap) :=
  nd ← load n h;
  h ← set_next n None h;
  Ret (next nd, h).

Definition pushLocked (node : option nat) (q : Queue) (h : heap) : outcome (Queue * heap) :=
  match node with
  | None => Panic PanicArgument
  | Some n =>
      nd ← load n h;
      match next nd with
      | Some _ => Panic PanicArgument
      | None =>
          match tail q with
          | None => Ret (MkQueue (Some n) (Some n) (accepting q), h)
          | Some t => h ← set_next t (Some n) h; Ret (MkQueue (head q) (Some n) (accepting q), h)
          end
      end
  end.

Definition Push (node : option nat) (q : Queue) (h : heap) : outcome (bool * Queue * heap) :=
  if negb (accepting q) then Ret (false, q, h)
  else '(q, h) ← pushLocked node q h; Ret (true, q, h).

Definition Stop (node : option nat) (q : Queue) (h : heap) : outcome (bool * Queue * heap) :=
  if negb (accepting q) then Ret (false, q, h)
  else
    let q := MkQueue (head q) (tail q) false in
    '(q, h) ← pushLocked node q h; Ret (true, q, h).

Definition Drain (q : Queue) : option nat * Queue :=
  (head q, MkQueue None None (accepting q)).

Definition HasPending (q : Queue) : bool := match head q with Some _ => true | None => false end.
Definition Accepting (q : Queue) : bool := accepting q.

(** The consumer's walk over a drained batch: TakeNext until nil. *)
Fixpoint take_batch (fuel : nat) (n : option nat) (h : heap) : outcome (list nat * heap) :=
  match n with
  | None => Ret ([], h)
  | Some n =>
      match fuel with
      | O => Panic FuelExhausted
      | S fuel => '(nx, h) ← TakeNext n h; '(l, h) ← take_batch fuel nx h; Ret (n :: l, h)
      end
  end.

(** ** The list of queued nodes *)

Fixpoint chain (h : heap) (n : option nat) (l : list nat) : Prop :=
  match l with
  | [] => n = None
  | m :: l => n = Some m /\ exists nd, h !! m = Some nd /\ chain h (next nd) l
  end.

Record queue_rep (h : heap) (q : Queue) (l : list nat) : Prop := {
  qr_chain : chain h (head q) l;
  qr_tail : tail q = last l;
  qr_nodup : NoDup l;
  qr_free : forall n nd, n ∉ l -> h !! n = Some nd -> next nd = None
}.

Lemma chain_insert h n l m nd : m ∉ l -> chain h n l -> chain (<[m := nd]> h) n l.
Proof.
  revert n. induction l as [|k l IH]; intros n Hm Hc; simpl in *; [done|].
  destruct Hc as (-> & x & Hx & Hc). split; [done|]. exists x. apply not_elem_of_cons in Hm as [? ?].
  rewrite lookup_insert_ne by done. auto.
Qed.

Lemma chain_last h n l t nd : chain h n (l ++ [t]) -> h !! t = Some nd -> next nd = None.
Proof.
  revert n. induction l as [|k l IH]; intros n Hc Ht; simpl in *.
  - destruct Hc as (-> & x & Hx & Hn). rewrite Hx in Ht. by injection Ht as ->.
  - destruct Hc as (-> & x & Hx & Hc). by eapply IH.
Qed.

(** Linking a new node behind the last one. *)
Lemma chain_snoc h n l t ndt m ndm :
  chain h n (l ++ [t]) -> NoDup (l ++ [t]) -> m ∉ l ++ [t] -> h !! t = Some ndt -> h !! m = Some ndm -> next ndm = None ->
  chain (<[t := MkNode (Value ndt) (Some m)]> h) n (l ++ [t] ++ [m]).
Proof.
  intros Hc Hnd Hm Ht Hme Hn. apply not_elem_of_app in Hm as [Hml Hmt]. rewrite list_elem_of_singleton in Hmt.
  revert n Hc. induction l as [|k l IH]; intros n Hc; simpl in *.
  - destruct Hc as (-> & x & Hx & Hn'). split; [done|]. exists (MkNode (Value ndt) (Some m)).
    rewrite lookup_insert_eq. split; [done|]. split; [done|]. exists ndm. by rewrite lookup_insert_ne.
  - destruct Hc as (-> & x & Hx & Hc). apply NoDup_cons in Hnd as [Hk Hnd].
    apply not_elem_of_app in Hk as [_ Hk]. rewrite list_elem_of_singleton in Hk.
    split; [done|]. exists x. rewrite lookup_insert_ne by congruence. split; [done|].
    apply IH; [done|by apply not_elem_of_cons in Hml as [_ ?]|done].
Qed.

Lemma NoDup_snoc {A} (l : list A) x : NoDup l -> x ∉ l -> NoDup (l ++ [x]).
Proof. intros Hl Hx. apply NoDup_app. split; [done|]. split; [intros y Hy ->%list_elem_of_singleton; done|apply NoDup_singleton]. Qed.

Lemma pushLocked_spec h q l n nd :
  queue_rep h q l -> n ∉ l -> h !! n = Some nd ->
  exists q' h', pushLocked (Some n) q h = Ret (q', h') /\ queue_rep h' q' (l ++ [n]) /\
    accepting q' = accepting q /\ dom h' = dom h.
Proof.
  intros [Hc Ht Hnd Hf] Hn Hnd0. unfold pushLocked, load. rewrite Hnd0. cbn [mbind outcome_bind]. rewrite (Hf n nd Hn Hnd0), Ht.
  destruct (last l) as [t|] eqn:El.
  - apply last_Some in El as [l0 ->]. destruct (h !! t) as [ndt|] eqn:Et.
    2: { exfalso. clear - Hc Et. revert Hc. generalize (head q). induction l0 as [|k l0 IH]; intros o; simpl.
         - intros (_ & x & Hx & _). congruence.
         - intros (_ & x & _ & Hc). by eapply IH. }
    unfold set_next. rewrite Et. cbn [mbind outcome_bind]. eexists _, _. split; [done|]. split; [|split; [done|by apply dom_insert_lookup_L]].
    rewrite <-app_assoc. split; cbn [head tail].
    + by eapply chain_snoc; eauto.
    + by rewrite app_assoc, last_snoc.
    + rewrite app_assoc. by apply NoDup_snoc.
    + intros m ndm Hm Hl. assert (m <> t) by set_solver. rewrite lookup_insert_ne in Hl by done. apply (Hf m); [set_solver|done].
  - apply last_None in El as ->. eexists _, _. split; [done|]. split; [|done]. split; cbn.
    + split; [done|]. exists nd. split; [done|]. by apply (Hf n).
    + done.
    + apply NoDup_singleton.
    + intros m ndm Hm Hl. apply (Hf m); [set_solver|done].
Qed.

Lemma take_batch_spec fuel h n l :
  chain h n l -> NoDup l -> length l <= fuel ->
  exists h', take_batch fuel n h = Ret (l, h') /\ dom h' = dom h /\
    (forall m nd, h' !! m = Some nd -> if decide (m ∈ l) then next nd = None else h !! m = Some nd).
Proof.
  revert h n fuel. induction l as [|m l IH]; intros h n fuel Hc Hnd Hf; simpl in Hc.
  { subst n. exists h. destruct fuel; (split; [done|]; split; [done|]); intros m nd Hm;
      by rewrite decide_False by apply not_elem_of_nil. }
  destruct Hc as (-> & x & Hx & Hc). destruct fuel as [|fuel]; [simpl in *; lia|]. apply NoDup_cons in Hnd as [Hm Hnd].
  cbn [take_batch]. unfold TakeNext, load, set_next. rewrite Hx. cbn [mbind outcome_bind].
  destruct (IH (<[m := MkNode (Value x) None]> h) (next x) fuel) as (h' & -> & Hd & Hh'); [by apply chain_insert|done|simpl in *; lia|].
  cbn [mbind outcome_bind]. exists h'. split; [done|]. split; [rewrite Hd; by apply dom_insert_lookup_L|].
  intros k nd Hk. specialize (Hh' k nd Hk). destruct (decide (k ∈ l)) as [Hkl|Hkl].
  { by rewrite decide_True by set_solver. }
  destruct (decide (k = m)) as [->|Hne].
  - rewrite decide_True by set_solver. rewrite lookup_insert_eq in Hh'. by injection Hh' as <-.
  - rewrite lookup_insert_ne in Hh' by done. by rewrite decide_False by set_solver.
Qed.

(** ** Sequences of critical sections *)

Inductive op : Type := OpPush (n : nat) | OpStop (n : nat) | OpDrain | OpPending.
Inductive res : Type := RAccepted (b : bool) | RBatch (l : list nat) | RPending (b : bool).

Definition step (o : op) (q : Queue) (h : heap) : outcome (res * Queue * heap) :=
  match o with
  | OpPush n => '(b, q, h) ← Push (Some n) q h; Ret (RAccepted b, q, h)
  | OpStop n => '(b, q, h) ← Stop (Some n) q h; Ret (RAccepted b, q, h)
  | OpDrain => let '(n, q) := Drain q in '(l, h) ← take_batch (size h) n h; Ret (RBatch l, q, h)
  | OpPending => Ret (RPending (HasPending q), q, h)
  end.

Fixpoint run (ops : list op) (q : Queue) (h : heap) : outcome (list res * Queue * heap) :=
  match ops with
  | [] => Ret ([], q, h)
  | o :: ops => '(r, q, h) ← step o q h; '(rs, q, h) ← run ops q h; Ret (r :: rs, q, h)
  end.

(** The abstract queue: a list and whether it accepts.  A producer may submit a
    node of its own that is not queued; anything else is outside the contract. *)
Definition aspec (nodes : gset nat) (o : op) (l : list nat) (acc : bool) : option (res * list nat * bool) :=
  match o with
  | OpPush n | OpStop n =>
      if decide (n ∈ nodes /\ n ∉ l) then
        if acc then Some (RAccepted true, l ++ [n], match o with OpPush _ => true | _ => false end)
        else Some (RAccepted false, l, false)
      else None
  | OpDrain => Some (RBatch l, [], acc)
  | OpPending => Some (RPending (negb (bool_decide (l = []))), l, acc)
  end.

Fixpoint aspec_run (nodes : gset nat) (ops : list op) (l : list nat) (acc : bool) : option (list res * list nat * bool) :=
  match ops with
  | [] => Some ([], l, acc)
  | o :: ops => '(r, l, acc) ← aspec nodes o l acc; '(rs, l, acc) ← aspec_run nodes ops l acc; Some (r :: rs, l, acc)
  end.

Lemma step_refines o q h l r l' acc' :
  queue_rep h q l -> aspec (dom h) o l (accepting q) = Some (r, l', acc') ->
  exists q' h', step o q h = Ret (r, q', h') /\ queue_rep h' q' l' /\ accepting q' = acc' /\ dom h' = dom h.
Proof.
  intros Hq. destruct o as [n|n| |]; cbn [aspec step].
  - case_decide as Hn; [|done]. destruct Hn as [[nd Hnd]%elem_of_dom Hn]. unfold Push. destruct (accepting q) eqn:Ea; cbn [negb]; intros [= <- <- <-].
    + destruct (pushLocked_spec h q l n nd Hq Hn Hnd) as (q' & h' & -> & ? & ? & ?). cbn [mbind outcome_bind].
      eexists _, _. split; [done|]. split_and!; congruence || done.
    + by eexists _, _.
  - case_decide as Hn; [|done]. destruct Hn as [[nd Hnd]%elem_of_dom Hn]. unfold Stop. destruct (accepting q) eqn:Ea; cbn [negb]; intros [= <- <- <-].
    + assert (Hq' : queue_rep h (MkQueue (head q) (tail q) false) l) by (destruct Hq; by split).
      destruct (pushLocked_spec h _ l n nd Hq' Hn Hnd) as (q' & h' & -> & ? & ? & ?). cbn [mbind outcome_bind].
      eexists _, _. by split_and!.
    + by eexists _, _.
  - intros [= <- <- <-]. destruct Hq as [Hc Ht Hnd Hf]. unfold Drain.
    assert (Hsz : length l <= size h).
    { rewrite <-size_dom. assert (Hsub : list_to_set l ⊆ dom h).
      { clear - Hc. revert Hc. generalize (head q). induction l as [|k l IH]; intros o; simpl; [set_solver|].
        intros (_ & x & Hx & Hc). apply elem_of_dom_2 in Hx. specialize (IH _ Hc). set_solver. }
      apply subseteq_size in Hsub. by rewrite size_list_to_set in Hsub. }
    destruct (take_batch_spec (size h) h (head q) l Hc Hnd Hsz) as (h' & -> & Hd & Hh'). cbn [mbind outcome_bind].
    eexists _, _. split; [done|]. split; [|done]. split; cbn; [done|done|constructor|].
    intros m nd _ Hm. specialize (Hh' m nd Hm). case_decide; [done|]. by apply (Hf m).
  - intros [= <- <- <-]. eexists _, _. split; [|done]. do 3 f_equal. unfold HasPending. destruct Hq as [Hc _ _ _].
    destruct l as [|m l]; simpl in Hc; [by rewrite Hc|]. by destruct Hc as [-> _].
Qed.

End TaskQueue.

Definition three_nodes : gmap nat (Node (V := Z)) := list_to_map ((fun n => (n, MkNode (Z.of_nat n) None)) <$> [1; 2; 3]).

