(* ===== verification/ReadControl.v ===== *)
(** * internal/readcontrol/control.go: counted read pauses

    A control counts the owners that hold a pause and remembers a release whose
    resume turn has not reached the consumer.  Owners and the consumer run
    concurrently: the model's steps are the single atomic operations of the
    methods, in the order the methods perform them, so every interleaving the
    code allows is an execution.  An owner's own mutex makes its Pause and
    Resume exclude each other, which is its program counter here. *)

From S2P Require Import Prelude.
Local Open Scope Z_scope.

(** Where an owner is: between methods, after Pause's Add, after Resume's
    Store(false), after Resume's owed.Store(true). *)
Inductive owner_pc : Type := Idle | PAdded | RCleared | ROwed.

Record owner : Type := MkOwner { paused : bool; pc : owner_pc }.

(** Where the consumer's turn is: not running, started, past the pause check,
    past ConsumerRuns' owed.Load() that returned true. *)
Inductive consumer_pc : Type := CIdle | CStarted | CChecked | CLoaded.

Record Control : Type := MkControl {
  owners : Z;
  owed : bool;
  pauses : list owner;
  calls : nat;               (* Resumes that saw the count reach zero and are about to call resume *)
  requested : bool;          (* resume asked for a turn that has not started *)
  consumer : consumer_pc
}.

Definition set_owner (i : nat) (o : owner) (c : Control) : Control :=
  MkControl (owners c) (owed c) (<[i := o]> (pauses c)) (calls c) (requested c) (consumer c).

Definition NewControl : Control := MkControl 0 false [] 0 false CIdle.

Definition ReadsPaused (c : Control) : bool := negb (owners c =? 0).
Definition Held (c : Control) : bool := negb (owners c =? 0) || owed c.
Definition Paused (o : owner) : bool := paused o.

(** NewPause: one more owner, initially unpaused. *)
Definition NewPause (c : Control) : Control :=
  MkControl (owners c) (owed c) (pauses c ++ [MkOwner false Idle]) (calls c) (requested c) (consumer c).

(** The next atomic operation of owner [i] inside Pause: Load, Add(1), then
    Store(true). *)
Definition Pause (i : nat) (c : Control) : option Control :=
  match pauses c !! i with
  | Some (MkOwner true Idle) => Some c
  | Some (MkOwner false Idle) =>
      Some (set_owner i (MkOwner false PAdded)
        (MkControl (owners c + 1) (owed c) (pauses c) (calls c) (requested c) (consumer c)))
  | Some (MkOwner _ PAdded) => Some (set_owner i (MkOwner true Idle) c)
  | _ => None
  end.

(** The next atomic operation of owner [i] inside Resume: Store(false), then
    owed.Store(true), then Add(-1), whose zero result makes this call the last. *)
Definition Resume (i : nat) (c : Control) : option Control :=
  match pauses c !! i with
  | Some (MkOwner false Idle) => Some c
  | Some (MkOwner true Idle) => Some (set_owner i (MkOwner false RCleared) c)
  | Some (MkOwner _ RCleared) =>
      Some (set_owner i (MkOwner false ROwed)
        (MkControl (owners c) true (pauses c) (calls c) (requested c) (consumer c)))
  | Some (MkOwner _ ROwed) =>
      let n := owners c - 1 in
      Some (set_owner i (MkOwner false Idle)
        (MkControl n (owed c) (pauses c) (if n =? 0 then S (calls c) else calls c) (requested c) (consumer c)))
  | _ => None
  end.

(** The last releaser calls the boundary's resume, which asks for a turn. *)
Definition call_resume (c : Control) : option Control :=
  match calls c with
  | O => None
  | S n => Some (MkControl (owners c) (owed c) (pauses c) n true (consumer c))
  end.

(** The consumer's turn: it starts, it checks ReadsPaused, and ConsumerRuns
    loads and, when set, clears what is owed. *)
Definition ConsumerRuns (c : Control) : option Control :=
  let at_ pc := MkControl (owners c) (owed c) (pauses c) (calls c) (requested c) pc in
  match consumer c with
  | CIdle => Some (MkControl (owners c) (owed c) (pauses c) (calls c) false CStarted)
  | CStarted => Some (at_ (if ReadsPaused c then CIdle else CChecked))
  | CChecked => Some (at_ (if owed c then CLoaded else CIdle))
  | CLoaded => Some (MkControl (owners c) false (pauses c) (calls c) (requested c) CIdle)
  end.

Inductive rstep : Control -> Control -> Prop :=
| step_new c : rstep c (NewPause c)
| step_pause i c c' : Pause i c = Some c' -> rstep c c'
| step_resume i c c' : Resume i c = Some c' -> rstep c c'
| step_call c c' : call_resume c = Some c' -> rstep c c'
| step_consumer c c' : ConsumerRuns c = Some c' -> rstep c c'.

Definition reachable (c : Control) : Prop := rtc rstep NewControl c.

(** ** The invariant *)

(** An owner is counted from its Add(1) to its Add(-1). *)
Definition counted (o : owner) : nat :=
  match pc o with Idle => if paused o then 1 else 0 | _ => 1 end.

Record control_ok (c : Control) : Prop := {
  ok_count : owners c = Z.of_nat (sum_list_with counted (pauses c));
  ok_turn : owed c = true -> owners c = 0 ->
    requested c = true \/ (0 < calls c)%nat \/ consumer c <> CIdle
}.

Lemma sum_counted_insert i o o' l :
  l !! i = Some o ->
  (sum_list_with counted (<[i := o']> l) + counted o = sum_list_with counted l + counted o')%nat.
Proof.
  revert i. induction l as [|x l IH]; intros [|i] Hi; simpl in *; [done..| |].
  - injection Hi as ->. lia.
  - specialize (IH i Hi). lia.
Qed.

(** Counting after owner [i] moved from [o] to [o']. *)
Lemma recount c i o o' :
  control_ok c -> pauses c !! i = Some o ->
  Z.of_nat (sum_list_with counted (<[i := o']> (pauses c))) = owners c + Z.of_nat (counted o') - Z.of_nat (counted o).
Proof. intros [Hc _] Hi. pose proof (sum_counted_insert i o o' (pauses c) Hi). lia. Qed.

Lemma counted_pos c i o : control_ok c -> pauses c !! i = Some o -> counted o = 1%nat -> 0 < owners c.
Proof.
  intros Hok Hi Ho. pose proof (recount c i o (MkOwner false Idle) Hok Hi) as Hr. rewrite Ho in Hr. cbn [counted pc paused] in Hr. lia.
Qed.

Lemma pause_ok i c c' : control_ok c -> Pause i c = Some c' -> control_ok c'.
Proof.
  intros Hok. unfold Pause. destruct (pauses c !! i) as [[[] []]|] eqn:Hi; try done; intros [= <-]; try done; split; cbn.
  - rewrite (recount c i _ _ Hok Hi). cbn [counted pc paused]. lia.
  - apply (ok_turn c Hok).
  - rewrite (recount c i _ _ Hok Hi). cbn [counted pc paused]. lia.
  - pose proof (ok_count c Hok). lia.
  - rewrite (recount c i _ _ Hok Hi). cbn [counted pc paused]. lia.
  - apply (ok_turn c Hok).
Qed.

Lemma resume_ok i c c' : control_ok c -> Resume i c = Some c' -> control_ok c'.
Proof.
  intros Hok. unfold Resume. destruct (pauses c !! i) as [[[] []]|] eqn:Hi; try done; intros [= <-]; try done; split; cbn;
    try (rewrite (recount c i _ _ Hok Hi); cbn [counted pc paused]; lia); try (apply (ok_turn c Hok));
    try (intros _ Hz; rewrite (proj2 (Z.eqb_eq _ _) Hz); right; left; lia);
    intros; pose proof (counted_pos c i _ Hok Hi eq_refl); lia.
Qed.

Lemma rstep_ok c c' : rstep c c' -> control_ok c -> control_ok c'.
Proof.
  intros Hs Hok. destruct Hs as [c|i c c' E|i c c' E|c c' E|c c' E].
  - destruct Hok as [Hc Ht]. split; cbn; [rewrite sum_list_with_app; simpl; lia|done].
  - by eapply pause_ok.
  - by eapply resume_ok.
  - unfold call_resume in E. destruct (calls c); [done|]. injection E as <-. destruct Hok as [Hc Ht]. split; cbn; auto.
  - unfold ConsumerRuns, ReadsPaused in E. destruct Hok as [Hc Ht].
    destruct (consumer c) eqn:Ec; injection E as <-; split; cbn; try done.
    + intros _ _. by right; right.
    + intros Ho Hz. rewrite Hz. cbn. by right; right.
    + intros Ho Hz. rewrite Ho. by right; right.
Qed.

Lemma reachable_ok c : reachable c -> control_ok c.
Proof.
  intros Hr. apply (rtc_ind_r (R := rstep) control_ok NewControl); [by split| |exact Hr].
  intros y z _ Hs Hy. by eapply rstep_ok.
Qed.


(** One owner pauses and releases: the turn it is owed is about to be requested. *)
Definition released : Control := MkControl 0 true [MkOwner false Idle] 1 false CIdle.

Lemma released_reachable : reachable released.
Proof.
  unfold reachable.
  apply (rtc_l _ _ (MkControl 0 false [MkOwner false Idle] 0 false CIdle)); [apply step_new|].
  apply (rtc_l _ _ (MkControl 1 false [MkOwner false PAdded] 0 false CIdle)); [by apply (step_pause 0)|].
  apply (rtc_l _ _ (MkControl 1 false [MkOwner true Idle] 0 false CIdle)); [by apply (step_pause 0)|].
  apply (rtc_l _ _ (MkControl 1 false [MkOwner false RCleared] 0 false CIdle)); [by apply (step_resume 0)|].
  apply (rtc_l _ _ (MkControl 1 true [MkOwner false ROwed] 0 false CIdle)); [by apply (step_resume 0)|].
  apply (rtc_l _ _ released); [by apply (step_resume 0)|]. apply rtc_refl.
Qed.

