(* ===== verification/FdMap.v ===== *)
(** * internal/fdmap/fdmap_unix.go: the descriptor table

    A two-level direct-index table: [maxSegments] segment pointers, each segment
    an array of [segmentSlots] value pointers.  A nil pointer is an absent key
    of the map that models the array.  Each method performs one atomic load,
    store, swap or compare-and-swap of a slot, so an execution is a sequence of
    whole methods; the segment's own publication race has one winner and every
    caller continues on that winner. *)

From S2P Require Import Prelude.
Local Open Scope Z_scope.

Definition maxOpenFilesCeiling : Z := Z.shiftl 1 20.

Definition openFileCapacity (limit : Z) : Z :=
  if (0 <? limit) && (limit <? maxOpenFilesCeiling) then limit else maxOpenFilesCeiling.

Definition segmentShift : Z := 15.
Definition segmentSlots : Z := Z.shiftl 1 segmentShift.
Definition maxSegments : Z := Z.shiftr maxOpenFilesCeiling segmentShift.

Inductive fd_error : Type := ErrOutOfRange.

Section FdMap.
Context {V : Type} `{EqDecision V}.


Record Map : Type := MkMap { segments : gmap Z (gmap Z V); limit : Z }.

Definition NewMap (MaxOpenFiles : Z) : Map := MkMap ∅ (Z.min MaxOpenFiles maxOpenFilesCeiling).

Definition seg_of (k : Z) : Z := Z.shiftr k segmentShift.
Definition off_of (k : Z) : Z := Z.land k (segmentSlots - 1).

(** [uint(k) >= uint(m.limit)] for a non-negative limit *)
Definition out_of_range (k : Z) (m : Map) : bool := (k <? 0) || (limit m <=? k).

(** slot: the segment and offset of [k], when there is one. *)
Definition slot (k : Z) (m : Map) : option (Z * gmap Z V * Z) :=
  if out_of_range k m then None
  else match segments m !! seg_of k with
  | None => None
  | Some seg => Some (seg_of k, seg, off_of k)
  end.

Definition Put (k : Z) (v : V) (m : Map) : option fd_error * Map :=
  if out_of_range k m then (Some ErrOutOfRange, m)
  else
    let seg := match segments m !! seg_of k with Some seg => seg | None => ∅ end in
    (None, MkMap (<[seg_of k := <[off_of k := v]> seg]> (segments m)) (limit m)).

Definition Get (k : Z) (m : Map) : option V :=
  match slot k m with
  | None => None
  | Some (_, seg, i) => seg !! i
  end.

Definition Delete (k : Z) (m : Map) : Map :=
  match slot k m with
  | None => m
  | Some (s, seg, i) => MkMap (<[s := delete i seg]> (segments m)) (limit m)
  end.

Definition DeleteValue (k : Z) (v : V) (m : Map) : Map :=
  match slot k m with
  | None => m
  | Some (s, seg, i) =>
      if decide (seg !! i = Some v) then MkMap (<[s := delete i seg]> (segments m)) (limit m) else m
  end.

(** Clear swaps every segment out and empties it. *)
Definition Clear (m : Map) : Map :=
  MkMap (fold_left (fun segs s => delete s segs) (seqZ 0 maxSegments) (segments m)) (limit m).

(** Range's visits, in order, to a table that does not change meanwhile. *)
Definition Range (MaxOpenFiles : Z) (m : Map) : list (Z * V) :=
  concat ((fun s =>
    match segments m !! s with
    | None => []
    | Some seg =>
        omap (fun i => if s * segmentSlots + i <? MaxOpenFiles then pair (s * segmentSlots + i) <$> seg !! i else None)
          (seqZ 0 segmentSlots)
    end) <$> seqZ 0 maxSegments).

(** ** The table as a partial map *)

Record map_ok (m : Map) : Prop := {
  mo_limit : 0 <= limit m <= maxOpenFilesCeiling;
  mo_slots : forall s seg i v, segments m !! s = Some seg -> seg !! i = Some v ->
    0 <= s /\ 0 <= i < segmentSlots /\ s * segmentSlots + i < limit m
}.

Lemma seg_off k : k = seg_of k * segmentSlots + off_of k /\ 0 <= off_of k < segmentSlots.
Proof.
  unfold seg_of, off_of, segmentSlots, segmentShift. change (Z.shiftl 1 15) with 32768.
  change (32768 - 1) with (Z.ones 15). rewrite Z.land_ones, Z.shiftr_div_pow2 by lia. change (2 ^ 15) with 32768.
  pose proof (Z.div_mod k 32768). pose proof (Z.mod_pos_bound k 32768). lia.
Qed.

Lemma seg_off_unique s i k : k = s * segmentSlots + i -> 0 <= i < segmentSlots -> s = seg_of k /\ i = off_of k.
Proof.
  intros Hk Hi. destruct (seg_off k) as [E H]. unfold segmentSlots, segmentShift in *. change (Z.shiftl 1 15) with 32768 in *. lia.
Qed.

(** The location of a key determines it. *)
Lemma location_inj k k' : seg_of k = seg_of k' -> off_of k = off_of k' -> k = k'.
Proof. intros E1 E2. destruct (seg_off k) as [-> _], (seg_off k') as [-> _]. by rewrite E1, E2. Qed.

Definition valid (k : Z) (m : Map) : Prop := 0 <= k < limit m.

Lemma out_of_range_spec k m : out_of_range k m = false <-> valid k m.
Proof.
  unfold out_of_range, valid. rewrite orb_false_iff. destruct (Z.ltb_spec k 0), (Z.leb_spec (limit m) k); split; (lia || by intros []).
Qed.

Lemma Get_alt k m : Get k m = if out_of_range k m then None else segments m !! seg_of k ≫= (.!! off_of k).
Proof. unfold Get, slot. destruct (out_of_range k m); [done|]. by destruct (segments m !! seg_of k). Qed.

(** Storing [f seg] in [k]'s segment changes the table at [k] only, when [f]
    changes the segment at [k]'s offset only. *)
Lemma Get_store k k' (seg : gmap Z V) x m :
  valid k m -> segments m !! seg_of k = Some seg \/ (segments m !! seg_of k = None /\ seg = ∅) ->
  Get k' (MkMap (<[seg_of k := partial_alter (fun _ => x) (off_of k) seg]> (segments m)) (limit m)) =
    if decide (k' = k) then x else Get k' m.
Proof.
  intros Hv Hseg. rewrite !Get_alt. unfold out_of_range; cbn [limit segments]. fold (out_of_range k' m).
  destruct (decide (k' = k)) as [->|Hne].
  - rewrite (proj2 (out_of_range_spec k m) Hv), lookup_insert_eq. cbn. by rewrite lookup_partial_alter_eq.
  - destruct (out_of_range k' m); [done|]. destruct (decide (seg_of k' = seg_of k)) as [E|E].
    + rewrite E, lookup_insert_eq. cbn. rewrite lookup_partial_alter_ne by (intros E'; by apply Hne, location_inj).
      destruct Hseg as [->|[-> ->]]; [done|]. by rewrite lookup_empty.
    + by rewrite lookup_insert_ne.
Qed.

Lemma store_ok k (seg : gmap Z V) x m :
  map_ok m -> valid k m -> segments m !! seg_of k = Some seg \/ (segments m !! seg_of k = None /\ seg = ∅) ->
  map_ok (MkMap (<[seg_of k := partial_alter (fun _ => x) (off_of k) seg]> (segments m)) (limit m)).
Proof.
  intros [Hl Hs] Hv Hseg. split; cbn; [done|]. intros s sg i v Hsg Hi.
  apply lookup_insert_Some in Hsg as [[<- <-]|[Hne Hsg]]; [|by eapply Hs].
  destruct (seg_off k) as [E Ho]. destruct (decide (i = off_of k)) as [->|Hio].
  - unfold valid in Hv. unfold segmentSlots, segmentShift in *. change (Z.shiftl 1 15) with 32768 in *. lia.
  - rewrite lookup_partial_alter_ne in Hi by done. destruct Hseg as [Hseg|[_ ->]]; [by eapply Hs|done].
Qed.

Inductive fop : Type := FPut (k : Z) (v : V) | FGet (k : Z) | FDelete (k : Z) | FDeleteValue (k : Z) (v : V).
Inductive fres : Type := FErr (e : option fd_error) | FVal (v : option V) | FUnit.

Definition fstep (o : fop) (m : Map) : fres * Map :=
  match o with
  | FPut k v => let '(e, m) := Put k v m in (FErr e, m)
  | FGet k => (FVal (Get k m), m)
  | FDelete k => (FUnit, Delete k m)
  | FDeleteValue k v => (FUnit, DeleteValue k v m)
  end.

(** The abstract table: a finite map on the descriptors below the limit. *)
Definition fspec (lim : Z) (o : fop) (t : gmap Z V) : fres * gmap Z V :=
  match o with
  | FPut k v => if decide (0 <= k < lim) then (FErr None, <[k := v]> t) else (FErr (Some ErrOutOfRange), t)
  | FGet k => (FVal (t !! k), t)
  | FDelete k => (FUnit, delete k t)
  | FDeleteValue k v => (FUnit, if decide (t !! k = Some v) then delete k t else t)
  end.

Fixpoint frun (ops : list fop) (m : Map) : list fres * Map :=
  match ops with
  | [] => ([], m)
  | o :: ops => let '(r, m) := fstep o m in let '(rs, m) := frun ops m in (r :: rs, m)
  end.

Fixpoint fspec_run (lim : Z) (ops : list fop) (t : gmap Z V) : list fres * gmap Z V :=
  match ops with
  | [] => ([], t)
  | o :: ops => let '(r, t) := fspec lim o t in let '(rs, t) := fspec_run lim ops t in (r :: rs, t)
  end.

Definition map_rep (m : Map) (t : gmap Z V) : Prop := map_ok m /\ forall k, Get k m = t !! k.

Lemma Get_valid k m v : Get k m = Some v -> valid k m.
Proof. rewrite Get_alt. destruct (out_of_range k m) eqn:E; [done|]. intros _. by apply out_of_range_spec. Qed.

Lemma Delete_rep k m t : map_rep m t -> map_rep (Delete k m) (delete k t) /\ limit (Delete k m) = limit m.
Proof.
  intros [Hok Hr]. unfold Delete, slot. destruct (out_of_range k m) eqn:Eo.
  { split; [|done]. split; [done|]. intros k'. rewrite Hr. destruct (decide (k' = k)) as [->|]; [|by rewrite lookup_delete_ne].
    rewrite lookup_delete_eq, <-Hr, Get_alt, Eo. done. }
  apply out_of_range_spec in Eo. destruct (segments m !! seg_of k) as [seg|] eqn:Es.
  - split; [|done]. split; [apply (store_ok k seg None m Hok Eo); by left|]. intros k'.
    pose proof (Get_store k k' seg None m Eo (or_introl Es)) as HG. unfold delete, map_delete. rewrite HG.
    case_decide as Hk; [subst; by rewrite lookup_partial_alter_eq|]. rewrite lookup_partial_alter_ne by done. apply Hr.
  - split; [|done]. split; [done|]. intros k'. rewrite Hr. destruct (decide (k' = k)) as [->|]; [|by rewrite lookup_delete_ne].
    rewrite lookup_delete_eq, <-Hr, Get_alt, Es. by destruct (out_of_range k m).
Qed.

Lemma fstep_refines o m t :
  map_rep m t -> let '(r, m') := fstep o m in let '(r', t') := fspec (limit m) o t in
  r = r' /\ map_rep m' t' /\ limit m' = limit m.
Proof.
  intros Hm. pose proof Hm as [Hok Hr]. destruct o as [k v|k|k|k v]; cbn [fstep fspec].
  - unfold Put. destruct (out_of_range k m) eqn:Eo.
    { case_decide as Hk; [|done]. apply out_of_range_spec in Hk. congruence. }
    apply out_of_range_spec in Eo. rewrite decide_True by apply Eo. split; [done|]. split; [|done].
    set (seg := match segments m !! seg_of k with Some seg => seg | None => ∅ end).
    assert (Hseg : segments m !! seg_of k = Some seg \/ (segments m !! seg_of k = None /\ seg = ∅))
      by (unfold seg; destruct (segments m !! seg_of k); auto).
    split; [apply (store_ok k seg (Some v) m Hok Eo Hseg)|]. intros k'.
    pose proof (Get_store k k' seg (Some v) m Eo Hseg) as HG. unfold insert at 2, map_insert at 2. rewrite HG.
    case_decide as Hk; [subst; by rewrite lookup_insert_eq|]. by rewrite lookup_insert_ne.
  - by rewrite Hr.
  - split; [done|]. by apply Delete_rep.
  - split; [done|]. assert (E : DeleteValue k v m = if decide (t !! k = Some v) then Delete k m else m).
    { rewrite <-Hr. unfold DeleteValue, Delete. rewrite Get_alt. unfold slot.
      destruct (out_of_range k m); [by case_decide|]. destruct (segments m !! seg_of k); [done|by case_decide]. }
    rewrite E. case_decide; [by apply Delete_rep|done].
Qed.

(** C36. The segmented table is a partial map from descriptors: for any sequence
    of Put, Get, Delete and DeleteValue on a new table, every answer is the
    map's, a descriptor outside the table's limit is refused by Put and absent
    for everything else, and no operation disturbs another descriptor, in the
    same segment or not. *)
Theorem fdmap_refines_partial_map MaxOpenFiles ops :
  0 <= MaxOpenFiles ->
  let '(rs, m) := frun ops (NewMap MaxOpenFiles) in
  let '(rs', t) := fspec_run (Z.min MaxOpenFiles maxOpenFilesCeiling) ops ∅ in
  rs = rs' /\ forall k, Get k m = t !! k.
Proof.
  intros Hmax. assert (Hrep : map_rep (NewMap MaxOpenFiles) ∅).
  { split; [split; cbn; [unfold maxOpenFilesCeiling; change (Z.shiftl 1 20) with 1048576; lia|]|].
    - intros s seg i v Hs. by rewrite lookup_empty in Hs.
    - intros k. rewrite lookup_empty, Get_alt. cbn. rewrite lookup_empty. by destruct (out_of_range _ _). }
  change (Z.min MaxOpenFiles maxOpenFilesCeiling) with (limit (NewMap MaxOpenFiles)).
  revert Hrep. generalize (NewMap MaxOpenFiles) as m, (∅ : gmap Z V) as t.
  induction ops as [|o ops IH]; intros m t Hm; cbn [frun fspec_run]; [split; [done|apply Hm]|].
  pose proof (fstep_refines o m t Hm) as HS. destruct (fstep o m) as [r m1], (fspec (limit m) o t) as [r' t1].
  destruct HS as (-> & Hm1 & <-). specialize (IH m1 t1 Hm1).
  destruct (frun ops m1), (fspec_run (limit m1) ops t1). destruct IH as [-> ?]. done.
Qed.
End FdMap.

Lemma fdmap_refines_partial_map_witness :
  let ops := [FPut 5 7; FPut 40000 8; FDeleteValue 5 9; FGet 5; FDelete 40000; FGet 40000; FPut 70000 1] in
  let '(rs, m) := frun ops (NewMap 65536) in
  let '(rs', t) := fspec_run (Z.min 65536 maxOpenFilesCeiling) ops ∅ in
  rs = rs' /\ forall k, Get k m = t !! k.
Proof.
  apply (fdmap_refines_partial_map 65536 [FPut 5 7; FPut 40000 8; FDeleteValue 5 9; FGet 5; FDelete 40000; FGet 40000; FPut 70000 1]).
  lia.
Defined.
