(* ===== verification/WheelHeap.v ===== *)
(** * internal/timewheel/wheel.go: the overflow heap

    Entries are allocated by their owners and shared with the wheel, so they
    live in a store [mem]; a wheel holds pointers.  Deadlines past the wheel's
    window wait on a binary min-heap of entry pointers in which every entry
    carries its own place, so that an entry can be removed from the middle.
    The loops take fuel, an index or a distance to the end bounds each. *)

From Stdlib Require Import ZifyNat.
From S2P Require Import Prelude.
Local Open Scope Z_scope.
Ltac Zify.zify_post_hook ::= Z.div_mod_to_equations.

(** ** Entries *)

(** Entry: [Val] is opaque to the wheel and identified with the pointer.  Times
    are nanoseconds since the Unix epoch. *)
Record Entry : Type := MkEntry {
  next : option nat; prev : option nat; bucket : Z; When : Z; Period : Z; heap : Z }.
Abbreviation mem := (gmap nat Entry).

Definition int32 (z : Z) : Z := (z + 2 ^ 31) mod 2 ^ 32 - 2 ^ 31.

Lemma int32_id z : - 2 ^ 31 <= z < 2 ^ 31 -> int32 z = z.
Proof. unfold int32. intros. rewrite Z.mod_small; lia. Qed.

Definition set_heap (v : Z) (e : Entry) : Entry := MkEntry (next e) (prev e) (bucket e) (When e) (Period e) v.

Definition load (x : nat) (m : mem) : outcome Entry :=
  match m !! x with Some e => Ret e | None => Panic PanicNil end.
(** A store through a pointer. *)
Definition modify (x : nat) (f : Entry -> Entry) (m : mem) : outcome mem :=
  match m !! x with Some e => Ret (<[x := f e]> m) | None => Panic PanicNil end.
Definition at_index (ov : list nat) (i : nat) : outcome nat :=
  match ov !! i with Some x => Ret x | None => Panic PanicSliceBounds end.

(** ** Operations *)

(** [w.overflow[i], w.overflow[j] = w.overflow[j], w.overflow[i]] and the two
    entries' places. *)
Definition heap_swap (i j : nat) (ov : list nat) (m : mem) : outcome (list nat * mem) :=
  x ← at_index ov i; y ← at_index ov j;
  let ov := <[j := x]> (<[i := y]> ov) in
  m ← modify y (set_heap (int32 (Z.of_nat i + 1))) m;
  m ← modify x (set_heap (int32 (Z.of_nat j + 1))) m;
  Ret (ov, m).

Definition when_at (ov : list nat) (m : mem) (i : nat) : outcome Z :=
  x ← at_index ov i; e ← load x m; Ret (When e).

Fixpoint heapUpLocked (fuel i : nat) (ov : list nat) (m : mem) : outcome (list nat * mem) :=
  match fuel with
  | O => Panic FuelExhausted
  | S fuel =>
      if (i =? 0)%nat then Ret (ov, m)
      else
        let parent := ((i - 1) / 2)%nat in
        wp ← when_at ov m parent; wi ← when_at ov m i;
        if negb (wi <? wp) then Ret (ov, m)
        else '(ov, m) ← heap_swap i parent ov m; heapUpLocked fuel parent ov m
  end.

(** One comparison of heapDownLocked: the child, when it exists and is earlier
    than the smallest so far. *)
Definition smaller_child (child smallest : nat) (ov : list nat) (m : mem) : outcome nat :=
  if (child <? length ov)%nat
  then wc ← when_at ov m child; ws ← when_at ov m smallest; Ret (if wc <? ws then child else smallest)
  else Ret smallest.

Fixpoint heapDownLocked (fuel i : nat) (ov : list nat) (m : mem) : outcome (list nat * mem) :=
  match fuel with
  | O => Panic FuelExhausted
  | S fuel =>
      let left := (2 * i + 1)%nat in
      let right := (2 * i + 2)%nat in
      smallest ← smaller_child left i ov m;
      smallest ← smaller_child right smallest ov m;
      if (smallest =? i)%nat then Ret (ov, m)
      else '(ov, m) ← heap_swap i smallest ov m; heapDownLocked fuel smallest ov m
  end.

Definition heapPushLocked (e : nat) (ov : list nat) (m : mem) : outcome (list nat * mem) :=
  let ov := ov ++ [e] in
  m ← modify e (set_heap (int32 (Z.of_nat (length ov)))) m;
  heapUpLocked (length ov) (length ov - 1) ov m.

Definition heapPopLocked (ov : list nat) (m : mem) : outcome (list nat * mem) :=
  match ov with
  | [] => Panic PanicSliceBounds
  | top :: _ =>
      let last := (length ov - 1)%nat in
      if (last =? 0)%nat then m ← modify top (set_heap 0) m; Ret ([], m)
      else
        moved ← at_index ov last;
        m ← modify top (set_heap 0) m;
        let ov := <[0%nat := moved]> (take last ov) in
        m ← modify moved (set_heap 1) m;
        heapDownLocked (length ov) 0 ov m
  end.

Definition heapRemoveLocked (x : nat) (ov : list nat) (m : mem) : outcome (bool * list nat * mem) :=
  e ← load x m;
  let i := heap e - 1 in
  if (i <? 0) || (Z.of_nat (length ov) <=? i) then Ret (false, ov, m)
  else
    let i := Z.to_nat i in
    y ← at_index ov i;
    if negb (y =? x)%nat then Ret (false, ov, m)
    else
      let last := (length ov - 1)%nat in
      if (i =? last)%nat then m ← modify x (set_heap 0) m; Ret (true, take last ov, m)
      else
        moved ← at_index ov last;
        let ov := <[i := moved]> (take last ov) in
        m ← modify moved (set_heap (int32 (Z.of_nat i + 1))) m;
        m ← modify x (set_heap 0) m;
        up ← (if (i =? 0)%nat then Ret false
              else em ← load moved m; wp ← when_at ov m ((i - 1) / 2); Ret (When em <? wp));
        '(ov, m) ← (if up : bool then heapUpLocked (S i) i ov m else heapDownLocked (length ov) i ov m);
        Ret (true, ov, m).

(** ** The heap property *)

(** Stores that differ in the entries' heap places only. *)
Definition heap_only (m m' : mem) : Prop := forall x, set_heap 0 <$> m !! x = set_heap 0 <$> m' !! x.

#[export] Instance heap_only_equiv : Equivalence heap_only.
Proof.
  split; [done|by intros m m' H x; symmetry|]. intros m1 m2 m3 H1 H2 x. by rewrite H1.
Qed.

Definition deadline (m : mem) (x : nat) : Z := default 0 (When <$> m !! x).

Lemma heap_only_deadline m m' x : heap_only m m' -> deadline m' x = deadline m x.
Proof.
  intros H. specialize (H x). unfold deadline.
  destruct (m !! x) as [[]|], (m' !! x) as [[]|]; simplify_eq/=; done.
Qed.

(** Every pointer of the heap is an entry that knows its place. *)
Definition placed (ov : list nat) (m : mem) : Prop :=
  forall i x, ov !! i = Some x -> exists e, m !! x = Some e /\ heap e = Z.of_nat i + 1.

Definition parent (i : nat) : nat := ((i - 1) / 2)%nat.
Definition key (m : mem) (ov : list nat) (i : nat) : Z := deadline m (ov !!! i).
Definition ordered (f : nat -> Z) (n : nat) : Prop := forall j, (0 < j < n)%nat -> f (parent j) <= f j.

(** Ordered but for the edge above [i], respectively the edges below it. *)
Definition but_above (f : nat -> Z) (n i : nat) : Prop :=
  (forall j, (0 < j < n)%nat -> j <> i -> f (parent j) <= f j) /\
  (forall j, (0 < i)%nat -> (0 < j < n)%nat -> parent j = i -> f (parent i) <= f j).
Definition but_below (f : nat -> Z) (n i : nat) : Prop :=
  (forall j, (0 < j < n)%nat -> parent j <> i -> f (parent j) <= f j) /\
  (forall j, (0 < i)%nat -> (0 < j < n)%nat -> parent j = i -> f (parent i) <= f j).

Record heap_ok (ov : list nat) (m : mem) : Prop := {
  ho_placed : placed ov m;
  ho_ordered : ordered (key m ov) (length ov);
  ho_small : Z.of_nat (length ov) < 2 ^ 31 }.

Definition swapped (f : nat -> Z) (i j k : nat) : Z :=
  if (k =? j)%nat then f i else if (k =? i)%nat then f j else f k.

Lemma parent_lt j : (0 < j)%nat -> (parent j < j)%nat.
Proof. unfold parent. lia. Qed.

(** Decide the index comparisons of a goal, rewriting with the equal ones. *)
Ltac index_cases :=
  repeat match goal with
  | |- context [(?a =? ?b)%nat] => destruct (Nat.eqb_spec a b) as [?E|?E]; [try rewrite E in *; try (subst; congruence)|]
  end.

Lemma but_above_step f n i :
  but_above f n i -> (0 < i < n)%nat -> f i < f (parent i) -> but_above (swapped f i (parent i)) n (parent i).
Proof.
  intros [H1 H2] Hi Hlt. pose proof (parent_lt i ltac:(lia)). unfold swapped. split.
  - intros j Hj Hne. pose proof (parent_lt j ltac:(lia)). pose proof (H1 j Hj). pose proof (H2 j ltac:(lia) Hj).
    index_cases; lia.
  - intros j Hp Hj Hpar. pose proof (parent_lt (parent i) ltac:(lia)). pose proof (H1 j Hj).
    pose proof (H1 (parent i) ltac:(lia) ltac:(lia)). rewrite Hpar in *. index_cases; lia.
Qed.

(** The edges below an index are those of its two children. *)
Lemma children_of j i : (0 < j)%nat -> parent j = i <-> j = (2 * i + 1)%nat \/ j = (2 * i + 2)%nat.
Proof. unfold parent. lia. Qed.

Lemma but_below_step f n i s :
  but_below f n i -> (0 < s < n)%nat -> parent s = i -> f s < f i ->
  (forall j, (0 < j < n)%nat -> parent j = i -> f s <= f j) -> but_below (swapped f i s) n s.
Proof.
  intros [H1 H2] Hs Hp Hlt Hmin. pose proof (parent_lt s ltac:(lia)). unfold swapped. split.
  - intros j Hj Hne. pose proof (parent_lt j ltac:(lia)). pose proof (H1 j Hj). pose proof (Hmin j Hj).
    pose proof (H2 s) as H2s. index_cases; subst; try lia.
  - intros j _ Hj Hpar. pose proof (H1 j Hj). rewrite Hpar in *. pose proof (parent_lt j ltac:(lia)). index_cases; lia.
Qed.

Lemma but_below_done f n i :
  but_below f n i -> (forall j, (0 < j < n)%nat -> parent j = i -> f i <= f j) -> ordered f n.
Proof.
  intros [H1 H2] H j Hj. destruct (decide (parent j = i)) as [E|E]; [rewrite E; auto|auto].
Qed.

Lemma but_above_done f n i :
  but_above f n i -> (i = 0%nat \/ f (parent i) <= f i) -> ordered f n.
Proof.
  intros [H1 H2] H j Hj. destruct (decide (j = i)) as [->|E]; [|auto]. destruct H; [lia|done].
Qed.

Lemma ordered_top f n j : ordered f n -> (j < n)%nat -> f 0%nat <= f j.
Proof.
  intros H. induction j as [j IH] using (well_founded_induction lt_wf). intros Hj.
  destruct (decide (j = 0%nat)) as [->|E]; [done|]. pose proof (parent_lt j ltac:(lia)).
  pose proof (IH (parent j) ltac:(lia) ltac:(lia)). pose proof (H j ltac:(lia)). lia.
Qed.

(** ** Rearrangements *)

(** What one swap, and so a whole sift, does: the same entries in new places,
    and nothing of the store but places. *)
Record rearranged (ov : list nat) (m : mem) (ov' : list nat) (m' : mem) : Prop := {
  re_elem : forall z, z ∈ ov' <-> z ∈ ov;
  re_len : length ov' = length ov;
  re_only : heap_only m m';
  re_frame : forall z, z ∉ ov -> m' !! z = m !! z;
  re_placed : placed ov' m' }.

Lemma rearranged_refl ov m : placed ov m -> rearranged ov m ov m.
Proof. by split. Qed.

Lemma rearranged_trans ov1 m1 ov2 m2 ov3 m3 :
  rearranged ov1 m1 ov2 m2 -> rearranged ov2 m2 ov3 m3 -> rearranged ov1 m1 ov3 m3.
Proof.
  intros [A1 A2 A3 A4 A5] [B1 B2 B3 B4 B5]. split; [by setoid_rewrite B1|congruence|by etrans| |done].
  intros z Hz. rewrite B4 by (by rewrite A1). auto.
Qed.

Lemma modify_spec x f m e : m !! x = Some e -> modify x f m = Ret (<[x := f e]> m).
Proof. unfold modify. by intros ->. Qed.

Lemma at_index_spec ov i x : ov !! i = Some x -> at_index ov i = Ret x.
Proof. unfold at_index. by intros ->. Qed.

Lemma heap_only_insert m x e v : m !! x = Some e -> heap_only m (<[x := set_heap v e]> m).
Proof.
  intros Hx y. destruct (decide (y = x)) as [->|]; [rewrite Hx, lookup_insert; by destruct (decide (x = x))|].
  by rewrite lookup_insert_ne by done.
Qed.

Lemma placed_inj ov m i j x : placed ov m -> ov !! i = Some x -> ov !! j = Some x -> i = j.
Proof. intros H Hi Hj. destruct (H _ _ Hi) as (e & He & H1), (H _ _ Hj) as (e' & He' & H2). simplify_eq. lia. Qed.

Lemma placed_nodup ov m : placed ov m -> NoDup ov.
Proof. intros H. apply NoDup_alt. intros. by eapply placed_inj. Qed.

Lemma heap_only_lookup m m' x e : heap_only m m' -> m !! x = Some e -> exists v, m' !! x = Some (set_heap v e).
Proof.
  intros H Hx. specialize (H x). rewrite Hx in H. destruct (m' !! x) as [[n p b w pe h]|]; [|done].
  destruct e as [n' p' b' w' pe' h']. simpl in H. injection H as <- <- <- <- <-. by exists h.
Qed.

Lemma when_at_spec ov m i : placed ov m -> (i < length ov)%nat -> when_at ov m i = Ret (key m ov i).
Proof.
  intros H Hi. destruct (lookup_lt_is_Some_2 ov i Hi) as [x Hx]. destruct (H _ _ Hx) as (e & He & _).
  unfold when_at, at_index, load, key, deadline. rewrite Hx. cbn [mbind outcome_bind].
  rewrite He, (list_lookup_total_correct _ _ _ Hx), He. done.
Qed.

Section swap.
Context (ov : list nat) (m : mem) (i j : nat) (x y : nat).
Hypothesis Hplaced : placed ov m.
Hypothesis Hsmall : Z.of_nat (length ov) < 2 ^ 31.
Hypothesis Hi : ov !! i = Some x.
Hypothesis Hj : ov !! j = Some y.
Hypothesis Hne : i <> j.

Lemma heap_swap_spec :
  exists ov' m', heap_swap i j ov m = Ret (ov', m') /\ rearranged ov m ov' m' /\
    forall k, (k < length ov)%nat -> key m' ov' k = swapped (key m ov) i j k.
Proof.
  destruct (Hplaced _ _ Hi) as (ex & Hex & Px), (Hplaced _ _ Hj) as (ey & Hey & Py).
  assert (x <> y) as Hxy by (intros ->; simplify_eq; lia).
  pose proof (lookup_lt_Some _ _ _ Hi). pose proof (lookup_lt_Some _ _ _ Hj).
  exists (<[j := x]> (<[i := y]> ov)).
  exists (<[x := set_heap (Z.of_nat j + 1) ex]> (<[y := set_heap (Z.of_nat i + 1) ey]> m)).
  assert (heap_only m (<[x := set_heap (Z.of_nat j + 1) ex]> (<[y := set_heap (Z.of_nat i + 1) ey]> m))) as Honly.
  { etrans; [by apply (heap_only_insert m y ey)|]. apply heap_only_insert. by rewrite lookup_insert_ne. }
  assert (forall k z, <[j := x]> (<[i := y]> ov) !! k = Some z <->
     k = j /\ z = x \/ k = i /\ z = y \/ k <> j /\ k <> i /\ ov !! k = Some z) as Hlook.
  { intros k z. rewrite !list_lookup_insert_Some, length_insert. naive_solver lia. }
  split; [|split; [split|]].
  - unfold heap_swap. rewrite (at_index_spec _ _ _ Hi), (at_index_spec _ _ _ Hj). cbn [mbind outcome_bind].
    rewrite (modify_spec _ _ _ _ Hey). cbn [mbind outcome_bind].
    rewrite (modify_spec _ _ _ ex) by (by rewrite lookup_insert_ne). cbn [mbind outcome_bind].
    rewrite !int32_id by lia. done.
  - intros z. rewrite !list_elem_of_lookup. setoid_rewrite Hlook. split.
    + intros (k & [[-> ->]|[[-> ->]|(? & ? & ?)]]); eauto.
    + intros (k & Hk). destruct (decide (k = j)) as [->|]; [simplify_eq; exists i; eauto|].
      destruct (decide (k = i)) as [->|]; [simplify_eq; exists j; eauto|]. exists k. eauto.
  - by rewrite !length_insert.
  - done.
  - intros z Hz. rewrite !lookup_insert_ne; [done|..]; intros ->; apply Hz; eapply list_elem_of_lookup_2; eauto.
  - intros k z Hk. apply Hlook in Hk as [[-> ->]|[[-> ->]|(? & ? & Hk)]].
    + rewrite lookup_insert. destruct (decide (x = x)); [|done]. eauto.
    + rewrite lookup_insert_ne, lookup_insert by done. destruct (decide (y = y)); [|done]. eauto.
    + assert (z <> x /\ z <> y) as [? ?] by (split; intros ->; eauto using placed_inj).
      rewrite !lookup_insert_ne by done. eauto.
  - intros k Hk. unfold key at 1. rewrite (heap_only_deadline m) by done. unfold swapped, key.
    rewrite !list_lookup_total_alt. destruct (Nat.eqb_spec k j) as [->|]; [|destruct (Nat.eqb_spec k i) as [->|]].
    + rewrite list_lookup_insert_eq by (rewrite length_insert; lia). by rewrite Hi.
    + rewrite list_lookup_insert_ne, list_lookup_insert_eq by lia. by rewrite Hj.
    + by rewrite !list_lookup_insert_ne by lia.
Qed.
End swap.

Lemma ordered_ext f g n : (forall k, (k < n)%nat -> f k = g k) -> ordered g n -> ordered f n.
Proof. intros E H j Hj. pose proof (parent_lt j ltac:(lia)). rewrite !E by lia. auto. Qed.

Lemma but_above_ext f g n i : (i < n)%nat -> (forall k, (k < n)%nat -> f k = g k) -> but_above g n i -> but_above f n i.
Proof.
  intros Hi E [H1 H2]. split.
  - intros j Hj Hne. pose proof (parent_lt j ltac:(lia)). rewrite !E by lia. auto.
  - intros j Hp Hj Hpar. pose proof (parent_lt i ltac:(lia)). rewrite !E by lia. auto.
Qed.

Lemma but_below_ext f g n i : (i < n)%nat -> (forall k, (k < n)%nat -> f k = g k) -> but_below g n i -> but_below f n i.
Proof.
  intros Hi E [H1 H2]. split.
  - intros j Hj Hne. pose proof (parent_lt j ltac:(lia)). rewrite !E by lia. auto.
  - intros j Hp Hj Hpar. pose proof (parent_lt i ltac:(lia)). rewrite !E by lia. auto.
Qed.

(** ** The sifts *)

Lemma heapUpLocked_spec fuel i ov m :
  placed ov m -> Z.of_nat (length ov) < 2 ^ 31 -> (i < length ov)%nat -> (i < fuel)%nat ->
  but_above (key m ov) (length ov) i ->
  exists ov' m', heapUpLocked fuel i ov m = Ret (ov', m') /\ rearranged ov m ov' m' /\ heap_ok ov' m'.
Proof.
  revert i ov m. induction fuel as [|fuel IH]; intros i ov m Hpl Hsm Hi Hf Hab; [lia|]. cbn [heapUpLocked].
  destruct (Nat.eqb_spec i 0) as [->|Hi0].
  { exists ov, m. split; [done|]. split; [by apply rearranged_refl|]. split; [done| |done]. eapply but_above_done; eauto. }
  change ((i - 1) / 2)%nat with (parent i). pose proof (parent_lt i ltac:(lia)).
  rewrite !when_at_spec by (done || lia). cbn [mbind outcome_bind].
  destruct (Z.ltb_spec (key m ov i) (key m ov (parent i))) as [Hlt|Hge]; simpl.
  - destruct (lookup_lt_is_Some_2 ov i Hi) as [x Hx], (lookup_lt_is_Some_2 ov (parent i) ltac:(lia)) as [y Hy].
    destruct (heap_swap_spec ov m i (parent i) x y) as (ov1 & m1 & E1 & R1 & K1); try done; [lia|].
    rewrite E1. cbn [mbind outcome_bind]. pose proof (re_len _ _ _ _ R1) as L1.
    destruct (IH (parent i) ov1 m1) as (ov2 & m2 & E2 & R2 & H2); [apply R1|lia|lia|lia| |].
    + rewrite L1. eapply but_above_ext; [lia|exact K1|]. apply but_above_step; [done|lia|done].
    + exists ov2, m2. split; [done|]. split; [by eapply rearranged_trans|done].
  - exists ov, m. split; [done|]. split; [by apply rearranged_refl|]. split; [done| |done]. eapply but_above_done; eauto.
Qed.

(** The smallest of [i] and its children, as the two comparisons find it. *)
Lemma smallest_child ov m i :
  placed ov m -> (i < length ov)%nat ->
  exists s, (smaller_child (2 * i + 1) i ov m ≫= fun s => smaller_child (2 * i + 2) s ov m) = Ret s /\
    (s = i \/ (0 < s < length ov)%nat /\ parent s = i /\ key m ov s < key m ov i) /\
    (forall j, (0 < j < length ov)%nat -> parent j = i -> key m ov s <= key m ov j).
Proof.
  intros Hpl Hi. unfold smaller_child.
  assert (forall j, (0 < j)%nat -> parent j = i -> j = (2 * i + 1)%nat \/ j = (2 * i + 2)%nat) as Hch
    by (intros; by apply children_of).
  assert (parent (2 * i + 1) = i /\ parent (2 * i + 2) = i) as [Hl Hr] by (split; apply children_of; lia).
  destruct (Nat.ltb_spec (2 * i + 1) (length ov)) as [L|L].
  - rewrite (when_at_spec ov m (2 * i + 1)), (when_at_spec ov m i) by (done || lia). cbn [mbind outcome_bind].
    destruct (Nat.ltb_spec (2 * i + 2) (length ov)) as [R|R].
    + rewrite !when_at_spec by (done || (case_match; lia)). cbn [mbind outcome_bind]. eexists. split; [done|].
      repeat (case_match; rewrite ?Z.ltb_lt, ?Z.ltb_ge in * ); (split; [naive_solver lia|]);
        intros j Hj Hp; destruct (Hch j) as [->| ->]; first [done | lia].
    + eexists. split; [done|]. case_match; rewrite ?Z.ltb_lt, ?Z.ltb_ge in *; (split; [naive_solver lia|]);
        intros j Hj Hp; destruct (Hch j) as [->| ->]; first [done | lia].
  - destruct (Nat.ltb_spec (2 * i + 2) (length ov)) as [R|R]; [lia|]. cbn [mbind outcome_bind].
    exists i. split; [done|]. split; [by left|]. intros j Hj Hp; destruct (Hch j) as [->| ->]; first [done | lia].
Qed.

Lemma heapDownLocked_spec fuel i ov m :
  placed ov m -> Z.of_nat (length ov) < 2 ^ 31 -> (i < length ov)%nat -> (length ov <= i + fuel)%nat ->
  but_below (key m ov) (length ov) i ->
  exists ov' m', heapDownLocked fuel i ov m = Ret (ov', m') /\ rearranged ov m ov' m' /\ heap_ok ov' m'.
Proof.
  revert i ov m. induction fuel as [|fuel IH]; intros i ov m Hpl Hsm Hi Hf Hbe; [lia|].
  cbn [heapDownLocked]. destruct (smallest_child ov m i Hpl Hi) as (s & Es & Hs & Hmin).
  destruct (smaller_child (2 * i + 1) i ov m) as [s1|] eqn:E1; [|done]. cbn [mbind outcome_bind] in *.
  rewrite Es. cbn [mbind outcome_bind].
  destruct (Nat.eqb_spec s i) as [->|Hne].
  - exists ov, m. split; [done|]. split; [by apply rearranged_refl|]. split; [done| |done]. eapply but_below_done; eauto.
  - destruct Hs as [?|(Hs & Hp & Hlt)]; [done|].
    destruct (lookup_lt_is_Some_2 ov i Hi) as [x Hx], (lookup_lt_is_Some_2 ov s ltac:(lia)) as [y Hy].
    destruct (heap_swap_spec ov m i s x y) as (ov1 & m1 & E2 & R1 & K1); try done.
    rewrite E2. cbn [mbind outcome_bind]. pose proof (re_len _ _ _ _ R1) as L1. pose proof (parent_lt s ltac:(lia)).
    destruct (IH s ov1 m1) as (ov2 & m2 & E3 & R2 & H2); [apply R1|lia|lia|lia| |].
    + rewrite L1. eapply but_below_ext; [lia|exact K1|]. by apply but_below_step.
    + exists ov2, m2. split; [done|]. split; [by eapply rearranged_trans|done].
Qed.

(** ** Adding and removing entries *)

Lemma key_heap_only m m' ov k : heap_only m m' -> key m' ov k = key m ov k.
Proof. intros. by apply heap_only_deadline. Qed.

Lemma heapPushLocked_spec e ee ov m :
  heap_ok ov m -> Z.of_nat (length ov) + 1 < 2 ^ 31 -> m !! e = Some ee -> e ∉ ov ->
  exists ov' m', heapPushLocked e ov m = Ret (ov', m') /\ heap_ok ov' m' /\ heap_only m m' /\
    (forall z, z ∈ ov' <-> z = e \/ z ∈ ov) /\ (forall z, z ∉ ov -> z <> e -> m' !! z = m !! z).
Proof.
  intros [Hpl Hord Hsm] Hlen He Hnot. unfold heapPushLocked. rewrite (modify_spec _ _ _ _ He). cbn [mbind outcome_bind].
  rewrite length_app. simpl length. rewrite int32_id by lia. pose proof (heap_only_insert m e ee (Z.of_nat (length ov + 1)) He) as Honly.
  destruct (heapUpLocked_spec (length ov + 1) (length ov + 1 - 1) (ov ++ [e]) (<[e := set_heap (Z.of_nat (length ov + 1)) ee]> m))
    as (ov' & m' & E & R & H'); rewrite ?length_app; simpl; try lia.
  - intros i x Hx. apply lookup_snoc_Some in Hx as [[Hi Hx]|[-> <-]].
    + destruct (Hpl _ _ Hx) as (ex & Hex & P). exists ex. rewrite lookup_insert_ne; [done|]. intros ->.
      apply Hnot. eapply list_elem_of_lookup_2; eauto.
    + eexists. rewrite lookup_insert. destruct (decide (e = e)); [|done]. split; [done|]. simpl. lia.
  - assert (forall k, (k < length ov)%nat -> key (<[e := set_heap (Z.of_nat (length ov + 1)) ee]> m) (ov ++ [e]) k = key m ov k) as Hk.
    { intros k Hk. rewrite (key_heap_only m) by done. unfold key. by rewrite !list_lookup_total_alt, lookup_app_l. }
    replace (length ov + 1 - 1)%nat with (length ov) by lia. split.
    + intros j Hj Hne. pose proof (parent_lt j ltac:(lia)). rewrite !Hk by lia. apply Hord. lia.
    + intros j H0 Hj Hp. pose proof (parent_lt j ltac:(lia)). lia.
  - exists ov', m'. split; [done|]. split; [done|]. split; [by etrans; [|apply R]|]. split.
    + intros z. rewrite (re_elem _ _ _ _ R), elem_of_app, list_elem_of_singleton. naive_solver.
    + intros z Hz Hne. rewrite (re_frame _ _ _ _ R) by (rewrite elem_of_app, list_elem_of_singleton; naive_solver).
      by rewrite lookup_insert_ne.
Qed.

(** The array after the last entry has been moved over the one at [i]. *)
Section cut.
Context (ov : list nat) (m : mem) (i : nat) (x moved : nat) (ex em : Entry).
Hypothesis Hok : heap_ok ov m.
Hypothesis Hi : ov !! i = Some x.
Hypothesis Hlast : ov !! (length ov - 1)%nat = Some moved.
Hypothesis Hne : i <> (length ov - 1)%nat.
Hypothesis Hex : m !! x = Some ex.
Hypothesis Hem : m !! moved = Some em.
Let ov1 := <[i := moved]> (take (length ov - 1) ov).
Let m1 := <[moved := set_heap (Z.of_nat i + 1) em]> (<[x := set_heap 0 ex]> m).

Lemma cut_length : length ov1 = (length ov - 1)%nat.
Proof. unfold ov1. rewrite length_insert, length_take. lia. Qed.

Lemma cut_index : (i < length ov - 1)%nat.
Proof. pose proof (lookup_lt_Some _ _ _ Hi). lia. Qed.

Lemma cut_distinct : x <> moved.
Proof. intros ->. pose proof (placed_inj _ _ _ _ _ (ho_placed _ _ Hok) Hi Hlast). done. Qed.

Lemma cut_lookup k z : ov1 !! k = Some z <-> k = i /\ z = moved \/ k <> i /\ (k < length ov - 1)%nat /\ ov !! k = Some z.
Proof.
  unfold ov1. pose proof cut_index. rewrite list_lookup_insert_Some, lookup_take_Some, length_take. naive_solver lia.
Qed.

Lemma cut_elem z : z ∈ ov1 <-> z ∈ ov /\ z <> x.
Proof.
  pose proof cut_distinct. pose proof cut_index. pose proof (ho_placed _ _ Hok) as Hpl.
  rewrite !list_elem_of_lookup. setoid_rewrite cut_lookup. split.
  - intros (k & [[-> ->]|(Hk & Hk' & Hz)]); [naive_solver|]. split; [eauto|]. intros ->. eauto using placed_inj.
  - intros [(k & Hz) Hzx]. destruct (decide (k = length ov - 1)%nat) as [->|]; [simplify_eq; exists i; auto|].
    exists k. right. pose proof (lookup_lt_Some _ _ _ Hz). split; [naive_solver|]. split; [lia|done].
Qed.

Lemma cut_only : heap_only m m1.
Proof.
  pose proof cut_distinct. etrans; [by apply (heap_only_insert m x ex 0)|]. apply heap_only_insert. by rewrite lookup_insert_ne.
Qed.

Lemma cut_placed : placed ov1 m1.
Proof.
  pose proof (ho_placed _ _ Hok) as Hpl. intros k z Hk. apply cut_lookup in Hk as [[-> ->]|(Hk & Hk' & Hz)].
  - eexists. unfold m1. rewrite lookup_insert. destruct (decide (moved = moved)); [|done]. done.
  - assert (z <> x /\ z <> moved) as [? ?] by (split; intros ->; [eauto using placed_inj|pose proof (placed_inj _ _ _ _ _ Hpl Hz Hlast); lia]).
    unfold m1. rewrite !lookup_insert_ne by done. eauto.
Qed.

Lemma cut_key k : (k < length ov - 1)%nat -> key m1 ov1 k = if (k =? i)%nat then deadline m moved else key m ov k.
Proof.
  intros Hk. rewrite (key_heap_only m) by apply cut_only. unfold key. rewrite !list_lookup_total_alt. unfold ov1.
  destruct (Nat.eqb_spec k i) as [->|].
  - rewrite list_lookup_insert_eq by (rewrite length_take; lia). done.
  - rewrite list_lookup_insert_ne, lookup_take_lt by lia. done.
Qed.

Lemma cut_below : (i = 0%nat \/ key m ov (parent i) <= deadline m moved) -> but_below (key m1 ov1) (length ov - 1) i.
Proof.
  intros Hup. pose proof cut_index. pose proof (ho_ordered _ _ Hok) as Hord. split.
  - intros j Hj Hp. pose proof (parent_lt j ltac:(lia)). rewrite !cut_key by lia. pose proof (Hord j ltac:(lia)). index_cases; subst; lia.
  - intros j H0 Hj Hp. pose proof (parent_lt i ltac:(lia)). pose proof (parent_lt j ltac:(lia)). rewrite !cut_key by lia.
    pose proof (Hord j ltac:(lia)). pose proof (Hord i ltac:(lia)). rewrite Hp in *. index_cases; subst; lia.
Qed.

Lemma cut_above : deadline m moved < key m ov (parent i) -> (0 < i)%nat -> but_above (key m1 ov1) (length ov - 1) i.
Proof.
  intros Hup H0. pose proof cut_index. pose proof (ho_ordered _ _ Hok) as Hord. pose proof (parent_lt i ltac:(lia)). split.
  - intros j Hj Hp. pose proof (parent_lt j ltac:(lia)). rewrite !cut_key by lia. pose proof (Hord j ltac:(lia)).
    pose proof (Hord i ltac:(lia)). index_cases; subst; lia.
  - intros j _ Hj Hp. pose proof (parent_lt j ltac:(lia)). rewrite !cut_key by lia.
    pose proof (Hord j ltac:(lia)). pose proof (Hord i ltac:(lia)). rewrite Hp in *. index_cases; subst; lia.
Qed.

(** Either sift then restores the heap, without [x]. *)
Lemma cut_finish ov' m' :
  rearranged ov1 m1 ov' m' ->
  heap_only m m' /\ (forall z, z ∈ ov' <-> z ∈ ov /\ z <> x) /\ (forall z, z ∉ ov -> m' !! z = m !! z).
Proof.
  intros R. split; [etrans; [apply cut_only|apply R]|]. split; [intros; by rewrite (re_elem _ _ _ _ R), cut_elem|].
  intros z Hz. rewrite (re_frame _ _ _ _ R) by (rewrite cut_elem; naive_solver). unfold m1.
  rewrite !lookup_insert_ne; [done|..]; intros ->; apply Hz; eapply list_elem_of_lookup_2; eauto.
Qed.
End cut.

(** The store after a lone entry left the heap. *)
Lemma drop_last_ok ov m x ex :
  heap_ok ov m -> ov !! (length ov - 1)%nat = Some x -> m !! x = Some ex ->
  let m' := <[x := set_heap 0 ex]> m in
  heap_ok (take (length ov - 1) ov) m' /\ heap_only m m' /\
  (forall z, z ∈ take (length ov - 1) ov <-> z ∈ ov /\ z <> x) /\ (forall z, z ∉ ov -> m' !! z = m !! z).
Proof.
  intros [Hpl Hord Hsm] Hx Hex m'. pose proof (lookup_lt_Some _ _ _ Hx).
  assert (heap_only m m') as Honly by (by apply heap_only_insert).
  assert (forall k z, take (length ov - 1) ov !! k = Some z -> z <> x) as Hz.
  { intros k z. rewrite lookup_take_Some. intros [Hk Hl] ->. pose proof (placed_inj _ _ _ _ _ Hpl Hk Hx). lia. }
  split; [|split; [done|split]].
  - split; rewrite ?length_take; [| |lia].
    + intros k z Hk. pose proof (Hz _ _ Hk). apply lookup_take_Some in Hk as [Hk _]. unfold m'. rewrite lookup_insert_ne by done. eauto.
    + apply (ordered_ext _ (key m ov)).
      * intros k Hk. rewrite (key_heap_only m) by done. unfold key. by rewrite !list_lookup_total_alt, lookup_take_lt by lia.
      * intros j Hj. apply Hord. lia.
  - intros z. rewrite !list_elem_of_lookup. split.
    + intros (k & Hk). pose proof (Hz _ _ Hk). apply lookup_take_Some in Hk as [Hk _]. eauto.
    + intros [(k & Hk) Hne]. exists k. apply lookup_take_Some. split; [done|]. pose proof (lookup_lt_Some _ _ _ Hk).
      destruct (decide (k = length ov - 1)%nat) as [->|]; [by simplify_eq|lia].
  - intros z Hn. unfold m'. rewrite lookup_insert_ne; [done|]. intros ->. apply Hn. eapply list_elem_of_lookup_2; eauto.
Qed.

Lemma heapPopLocked_spec x ov0 m :
  let ov := x :: ov0 in
  heap_ok ov m ->
  exists ov' m', heapPopLocked ov m = Ret (ov', m') /\ heap_ok ov' m' /\ heap_only m m' /\
    (forall z, z ∈ ov' <-> z ∈ ov /\ z <> x) /\ (forall z, z ∉ ov -> m' !! z = m !! z).
Proof.
  intros ov Hok. pose proof (ho_placed _ _ Hok) as Hpl. assert (ov !! 0%nat = Some x) as H0 by done.
  destruct (Hpl _ _ H0) as (ex & Hex & _). cbv beta iota zeta delta [heapPopLocked ov]. fold ov.
  destruct (Nat.eqb_spec (length ov - 1) 0) as [El|El].
  - rewrite (modify_spec _ _ _ _ Hex). cbn [mbind outcome_bind].
    destruct (drop_last_ok ov m x ex Hok) as (A & B & Cc & D); [by rewrite El|done|].
    replace (take (length ov - 1) ov) with (@nil nat) in * by (by rewrite El). eauto 10.
  - destruct (lookup_lt_is_Some_2 ov (length ov - 1)) as [mv Hmv]; [simpl; lia|].
    destruct (Hpl _ _ Hmv) as (em & Hem & _). rewrite (at_index_spec _ _ _ Hmv). cbn [mbind outcome_bind].
    rewrite (modify_spec _ _ _ _ Hex). cbn [mbind outcome_bind].
    assert (x <> mv) by (eapply cut_distinct; eauto).
    rewrite (modify_spec _ _ _ em) by (by rewrite lookup_insert_ne). cbn [mbind outcome_bind].
    destruct (heapDownLocked_spec (length (<[0%nat := mv]> (take (length ov - 1) ov))) 0 (<[0%nat := mv]> (take (length ov - 1) ov))
       (<[mv := set_heap 1 em]> (<[x := set_heap 0 ex]> m))) as (ov' & m' & E & R & H'); rewrite ?cut_length; try lia.
    + eapply (cut_placed ov m 0); eauto.
    + pose proof (ho_small _ _ Hok). lia.
    + eapply (cut_below ov m 0 x mv ex em); [done..|by left].
    + rewrite cut_length in E by lia. exists ov', m'. split; [done|]. split; [done|]. by apply (cut_finish ov m 0 x mv ex em).
Qed.

Lemma heapRemoveLocked_spec x ov m :
  heap_ok ov m -> x ∈ ov ->
  exists ov' m', heapRemoveLocked x ov m = Ret (true, ov', m') /\ heap_ok ov' m' /\ heap_only m m' /\
    (forall z, z ∈ ov' <-> z ∈ ov /\ z <> x) /\ (forall z, z ∉ ov -> m' !! z = m !! z).
Proof.
  intros Hok Hx. pose proof (ho_placed _ _ Hok) as Hpl. pose proof (ho_small _ _ Hok) as Hsm.
  apply list_elem_of_lookup in Hx as [i Hi]. destruct (Hpl _ _ Hi) as (ex & Hex & Px). pose proof (lookup_lt_Some _ _ _ Hi) as Hlen.
  unfold heapRemoveLocked, load. rewrite Hex. cbn [mbind outcome_bind]. rewrite Px.
  replace (Z.of_nat i + 1 - 1) with (Z.of_nat i) by lia.
  destruct (Z.ltb_spec (Z.of_nat i) 0); [lia|]. destruct (Z.leb_spec (Z.of_nat (length ov)) (Z.of_nat i)); [lia|]. cbn [orb].
  rewrite Nat2Z.id, (at_index_spec _ _ _ Hi). cbn [mbind outcome_bind]. rewrite Nat.eqb_refl. cbn [negb].
  destruct (Nat.eqb_spec i (length ov - 1)) as [->|Hne].
  { rewrite (modify_spec _ _ _ _ Hex). cbn [mbind outcome_bind].
    destruct (drop_last_ok ov m x ex Hok Hi Hex) as (A & B & Cc & D). eauto 10. }
  destruct (lookup_lt_is_Some_2 ov (length ov - 1)) as [mv Hmv]; [lia|].
  destruct (Hpl _ _ Hmv) as (em & Hem & _). rewrite (at_index_spec _ _ _ Hmv). cbn [mbind outcome_bind].
  assert (x <> mv) by (eapply cut_distinct; eauto).
  rewrite (modify_spec _ _ _ _ Hem). cbn [mbind outcome_bind]. rewrite int32_id by lia.
  rewrite (modify_spec _ _ _ ex) by (by rewrite lookup_insert_ne). cbn [mbind outcome_bind].
  rewrite insert_insert_ne by done.
  pose proof (cut_placed ov m i x mv ex em Hok Hi Hmv Hne Hem) as Hpl1. pose proof (cut_index ov i x Hi Hne) as Hci.
  set (ov1 := <[i := mv]> (take (length ov - 1) ov)) in *.
  set (m1 := <[mv := set_heap (Z.of_nat i + 1) em]> (<[x := set_heap 0 ex]> m)) in *.
  assert (length ov1 = length ov - 1)%nat as L1 by (by eapply cut_length).
  assert (m1 !! mv = Some (set_heap (Z.of_nat i + 1) em)) as Hm1mv by (unfold m1; rewrite lookup_insert; by destruct (decide (mv = mv))).
  assert (deadline m mv = When em) as Hdl by (unfold deadline; by rewrite Hem).
  change ((i - 1) / 2)%nat with (parent i).
  assert (exists b : bool, (if (i =? 0)%nat then Ret false
            else em0 ← match m1 !! mv with Some e => Ret e | None => Panic PanicNil end;
                 wp ← when_at ov1 m1 (parent i); Ret (When em0 <? wp)) = Ret b /\
          (b = true -> (0 < i)%nat /\ deadline m mv < key m ov (parent i)) /\
          (b = false -> i = 0%nat \/ key m ov (parent i) <= deadline m mv)) as (b & Eb & Hb1 & Hb2).
  { destruct (Nat.eqb_spec i 0) as [->|Hi0]; [exists false; naive_solver|]. pose proof (parent_lt i ltac:(lia)).
    rewrite Hm1mv. cbn [mbind outcome_bind]. rewrite when_at_spec by (done || lia). cbn [mbind outcome_bind].
    eexists. split; [done|]. subst ov1 m1. rewrite (cut_key ov m i x mv ex em), Hdl by (done || lia). simpl When.
    destruct (Nat.eqb_spec (parent i) i); [lia|]. rewrite Z.ltb_lt, Z.ltb_ge. split; [lia|auto]. }
  rewrite Eb. cbn [mbind outcome_bind]. destruct b.
  - destruct (Hb1 eq_refl) as [Hi0 Hlt].
    destruct (heapUpLocked_spec (S i) i ov1 m1) as (ov' & m' & E & R & H'); rewrite ?L1; try (done || lia).
    + by eapply cut_above.
    + rewrite E. cbn [mbind outcome_bind]. exists ov', m'. split; [done|]. split; [done|]. by apply (cut_finish ov m i x mv ex em).
  - destruct (heapDownLocked_spec (length ov1) i ov1 m1) as (ov' & m' & E & R & H'); rewrite ?L1; try (done || lia).
    + eapply cut_below; eauto.
    + rewrite L1 in E. rewrite E. cbn [mbind outcome_bind]. exists ov', m'. split; [done|]. split; [done|].
      by apply (cut_finish ov m i x mv ex em).
Qed.
