(* ===== verification/WheelRing.v ===== *)
(** * internal/timewheel/wheel.go: slots and their summary

    A ring slot heads a doubly linked list through its entries, and one bit of
    the summary says whether the slot holds any.  This file has the link
    surgery and the bitmap; [ring_rep] relates both to the list of entries of
    every slot. *)

From Stdlib Require Import ZifyNat.
From S2P Require Import Prelude WheelHeap.
Local Open Scope Z_scope.
Ltac Zify.zify_post_hook ::= Z.div_mod_to_equations.

(** ** The summary bitmap *)

(** bits.TrailingZeros64. *)
Fixpoint tz_from (fuel : nat) (i : Z) (x : Z) : Z :=
  match fuel with
  | O => i
  | S fuel => if Z.testbit x i then i else tz_from fuel (i + 1) x
  end.
Definition TrailingZeros64 (x : Z) : Z := tz_from 64 0 x.

Definition setSummaryLocked (slot : Z) (sm : list Z) : outcome (list Z) :=
  word ← index sm (slot / 64);
  Ret (<[Z.to_nat (slot / 64) := Z.lor word (Z.shiftl 1 (slot mod 64))]> sm).

Definition clearSummaryLocked (slot : Z) (sm : list Z) : outcome (list Z) :=
  word ← index sm (slot / 64);
  Ret (<[Z.to_nat (slot / 64) := Z.ldiff word (Z.shiftl 1 (slot mod 64))]> sm).

(** The words after the first, cyclically, until one is occupied or the scan is
    back at the first. *)
Fixpoint scan_words (fuel : nat) (word firstWord words : Z) (sm : list Z) : outcome (option Z) :=
  match fuel with
  | O => Panic FuelExhausted
  | S fuel =>
      if word =? firstWord then Ret None
      else
        occupied ← index sm word;
        if negb (occupied =? 0) then Ret (Some (word * 64 + TrailingZeros64 occupied))
        else scan_words fuel ((word + 1) mod words) firstWord words sm
  end.

(** firstOccupiedLocked, from the slot [start] after the cursor. *)
Definition first_occupied (start : Z) (sm : list Z) : outcome (option Z) :=
  let firstWord := start / 64 in
  let bit := start mod 64 in
  first ← index sm firstWord;
  let occupied := Z.shiftr first bit in
  if negb (occupied =? 0) then Ret (Some (firstWord * 64 + bit + TrailingZeros64 occupied))
  else
    let words := Z.of_nat (length sm) in
    found ← scan_words (S (length sm)) ((firstWord + 1) mod words) firstWord words sm;
    match found with
    | Some slot => Ret (Some slot)
    | None =>
        if negb (bit =? 0) then
          let occupied := Z.land first (Z.shiftl 1 bit - 1) in
          if negb (occupied =? 0) then Ret (Some (firstWord * 64 + TrailingZeros64 occupied)) else Ret None
        else Ret None
    end.

(** ** Links *)

Definition set_bucket (b : Z) (e : Entry) : Entry := MkEntry (next e) (prev e) b (When e) (Period e) (heap e).
Definition set_next (n : option nat) (e : Entry) : Entry := MkEntry n (prev e) (bucket e) (When e) (Period e) (heap e).
Definition set_prev (p : option nat) (e : Entry) : Entry := MkEntry (next e) p (bucket e) (When e) (Period e) (heap e).

Abbreviation slots := (list (option nat)).

(** The end of linkLocked: the entry becomes the head of its slot. *)
Definition slot_push (x : nat) (slot : Z) (ring : slots) (sm : list Z) (m : mem) : outcome (slots * list Z * mem) :=
  m ← modify x (set_bucket (int32 slot + 1)) m;
  head ← index ring slot;
  '(sm, m) ← match head with
             | Some h =>
                 m ← modify h (set_prev (Some x)) m;
                 m ← modify x (set_next (Some h)) m;
                 Ret (sm, m)
             | None =>
                 m ← modify x (set_next None) m;
                 sm ← setSummaryLocked slot sm;
                 Ret (sm, m)
             end;
  m ← modify x (set_prev None) m;
  Ret (<[Z.to_nat slot := Some x]> ring, sm, m).

Definition unlinkLocked (x : nat) (ring : slots) (sm : list Z) (m : mem) : outcome (slots * list Z * mem) :=
  e ← load x m;
  let slot := bucket e - 1 in
  '(ring, m) ← match prev e with
               | Some p => m ← modify p (set_next (next e)) m; Ret (ring, m)
               | None => _ ← index ring slot; Ret (<[Z.to_nat slot := next e]> ring, m)
               end;
  m ← match next e with
      | Some s => modify s (set_prev (prev e)) m
      | None => Ret m
      end;
  head ← index ring slot;
  sm ← match head with None => clearSummaryLocked slot sm | Some _ => Ret sm end;
  m ← modify x (fun e => set_next None (set_prev None e)) m;
  Ret (ring, sm, m).

(** ** Facts about the bitmap *)

Definition word (sm : list Z) (w : Z) : Z := sm !!! Z.to_nat w.
Definition sbit (sm : list Z) (s : Z) : bool := Z.testbit (word sm (s / 64)) (s mod 64).

Record summary_ok (n : Z) (sm : list Z) : Prop := {
  so_len : Z.of_nat (length sm) = (n - 1) / 64 + 1;
  so_word : forall w, 0 <= w < Z.of_nat (length sm) -> is_uint 64 (word sm w);
  so_out : forall s, n <= s < 64 * Z.of_nat (length sm) -> sbit sm s = false }.

Lemma tz_from_spec fuel i x :
  0 <= i -> (exists j, i <= j < i + Z.of_nat fuel /\ Z.testbit x j = true) ->
  Z.testbit x (tz_from fuel i x) = true /\ i <= tz_from fuel i x < i + Z.of_nat fuel /\
  forall j, i <= j < tz_from fuel i x -> Z.testbit x j = false.
Proof.
  revert i. induction fuel as [|fuel IH]; intros i Hi (j & Hj & Hb); [lia|]. cbn [tz_from].
  destruct (Z.testbit x i) eqn:E; [split; [done|]; split; lia|].
  destruct (IH (i + 1)) as (A & B & Cc); [lia|exists j; split; [|done]|].
  { destruct (decide (j = i)); [congruence|lia]. }
  split; [done|]. split; [lia|]. intros k Hk. destruct (decide (k = i)) as [->|]; [done|]. apply Cc. lia.
Qed.

Lemma uint_bit_high w x j : is_uint w x -> w <= j -> Z.testbit x j = false.
Proof.
  unfold is_uint. intros Hx Hj. destruct (decide (x = 0)) as [->|]; [apply Z.testbit_0_l|].
  apply Z.bits_above_log2; [lia|]. apply Z.log2_lt_pow2; [lia|].
  pose proof (Z.pow_le_mono_r 2 w j). lia.
Qed.

Lemma TrailingZeros64_spec x :
  is_uint 64 x -> x <> 0 ->
  Z.testbit x (TrailingZeros64 x) = true /\ 0 <= TrailingZeros64 x < 64 /\
  forall j, 0 <= j < TrailingZeros64 x -> Z.testbit x j = false.
Proof.
  intros Hx H0. apply tz_from_spec; [lia|]. exists (Z.log2 x).
  pose proof (Z.log2_nonneg x). unfold is_uint in Hx. split; [|apply Z.bit_log2; lia].
  split; [done|]. simpl. apply Z.log2_lt_pow2; lia.
Qed.

Lemma index_word sm w : 0 <= w < Z.of_nat (length sm) -> index sm w = Ret (word sm w).
Proof.
  intros H. apply index_Ret. split; [lia|]. unfold word. apply list_lookup_lookup_total_lt. lia.
Qed.

Lemma word_insert sm w v u :
  0 <= w < Z.of_nat (length sm) -> 0 <= u -> word (<[Z.to_nat w := v]> sm) u = if u =? w then v else word sm u.
Proof.
  intros Hw Hu. unfold word. rewrite !list_lookup_total_alt. destruct (Z.eqb_spec u w) as [->|].
  - rewrite list_lookup_insert_eq by lia. done.
  - by rewrite list_lookup_insert_ne by lia.
Qed.

(** Replacing one bit of one word. *)
Section one_bit.
Context (n s : Z) (sm : list Z) (v : Z).
Hypothesis Hok : summary_ok n sm.
Hypothesis Hs : 0 <= s < n.
Hypothesis Hv : forall i, 0 <= i -> i <> s mod 64 -> Z.testbit v i = Z.testbit (word sm (s / 64)) i.
Hypothesis Hv0 : 0 <= v.

Lemma one_bit_sbit t : 0 <= t ->
  sbit (<[Z.to_nat (s / 64) := v]> sm) t = if t =? s then Z.testbit v (s mod 64) else sbit sm t.
Proof.
  intros Ht. pose proof (so_len _ _ Hok). unfold sbit. rewrite word_insert by lia.
  destruct (Z.eqb_spec t s) as [->|Hne].
  - by rewrite Z.eqb_refl.
  - destruct (Z.eqb_spec (t / 64) (s / 64)) as [E|E]; [|done]. rewrite Hv, E by lia. done.
Qed.

Lemma one_bit_ok : summary_ok n (<[Z.to_nat (s / 64) := v]> sm).
Proof.
  pose proof (so_len _ _ Hok). split; rewrite ?length_insert; [done| |].
  - intros w Hw. rewrite word_insert by lia. destruct (Z.eqb_spec w (s / 64)) as [->|]; [|by apply Hok].
    split; [done|]. destruct (decide (v = 0)) as [->|]; [lia|]. apply Z.log2_lt_pow2; [lia|].
    destruct (Z_lt_le_dec (Z.log2 v) 64) as [|Hge]; [done|]. pose proof (Z.bit_log2 v ltac:(lia)) as Hb.
    rewrite Hv in Hb by lia. rewrite (uint_bit_high 64) in Hb; [done| |lia]. apply Hok. lia.
  - intros t Ht. rewrite one_bit_sbit by lia. destruct (Z.eqb_spec t s); [lia|]. apply Hok. lia.
Qed.
End one_bit.

Lemma one_shifted_bit k i : 0 <= k -> Z.testbit (Z.shiftl 1 k) i = (i =? k).
Proof. intros. rewrite Z.shiftl_1_l, Z.pow2_bits_eqb by lia. apply Z.eqb_sym. Qed.

Lemma setSummaryLocked_spec n s sm :
  summary_ok n sm -> 0 <= s < n ->
  exists sm', setSummaryLocked s sm = Ret sm' /\ summary_ok n sm' /\
    forall t, 0 <= t -> sbit sm' t = (t =? s) || sbit sm t.
Proof.
  intros Hok Hs. pose proof (so_len _ _ Hok). unfold setSummaryLocked. rewrite index_word by lia. cbn [mbind outcome_bind].
  eexists. split; [done|]. set (v := Z.lor _ _).
  assert (forall i, Z.testbit v i = Z.testbit (word sm (s / 64)) i || (i =? s mod 64)) as Hv
    by (intros; unfold v; by rewrite Z.lor_spec, one_shifted_bit by lia).
  assert (0 <= v) by (apply Z.lor_nonneg; split; [apply Hok; lia|apply Z.shiftl_nonneg; lia]).
  assert (forall i, 0 <= i -> i <> s mod 64 -> Z.testbit v i = Z.testbit (word sm (s / 64)) i) as Hv'.
  { intros i Hi Hne. rewrite Hv. destruct (Z.eqb_spec i (s mod 64)); [done|]. apply orb_false_r. }
  split; [by apply one_bit_ok|]. intros t Ht. rewrite (one_bit_sbit n) by done.
  destruct (Z.eqb_spec t s); [|done]. rewrite Hv, Z.eqb_refl. apply orb_true_r.
Qed.

Lemma clearSummaryLocked_spec n s sm :
  summary_ok n sm -> 0 <= s < n ->
  exists sm', clearSummaryLocked s sm = Ret sm' /\ summary_ok n sm' /\
    forall t, 0 <= t -> sbit sm' t = negb (t =? s) && sbit sm t.
Proof.
  intros Hok Hs. pose proof (so_len _ _ Hok). unfold clearSummaryLocked. rewrite index_word by lia. cbn [mbind outcome_bind].
  eexists. split; [done|]. set (v := Z.ldiff _ _).
  assert (forall i, Z.testbit v i = Z.testbit (word sm (s / 64)) i && negb (i =? s mod 64)) as Hv
    by (intros; unfold v; by rewrite Z.ldiff_spec, one_shifted_bit by lia).
  assert (0 <= v) by (apply Z.ldiff_nonneg; left; apply Hok; lia).
  assert (forall i, 0 <= i -> i <> s mod 64 -> Z.testbit v i = Z.testbit (word sm (s / 64)) i) as Hv'.
  { intros i Hi Hne. rewrite Hv. destruct (Z.eqb_spec i (s mod 64)); [done|]. apply andb_true_r. }
  split; [by apply one_bit_ok|]. intros t Ht. rewrite (one_bit_sbit n) by done.
  destruct (Z.eqb_spec t s); [|done]. rewrite Hv, Z.eqb_refl. apply andb_false_r.
Qed.

(** ** The cyclic scan *)

(** How far [t] is ahead of [start] on a ring of [n]. *)
Definition cyc (n start t : Z) : Z := if start <=? t then t - start else t - start + n.

Lemma sbit_word sm t : sbit sm t = true -> word sm (t / 64) <> 0.
Proof. unfold sbit. intros H E. by rewrite E, Z.testbit_0_l in H. Qed.

(** Unfold the cyclic positions of a goal of linear arithmetic. *)
Ltac cyclic := unfold cyc in *;
  repeat (case_match; rewrite ?Z.leb_le, ?Z.leb_gt, ?Z.ltb_lt, ?Z.ltb_ge in * ); lia.

Section scan.
Context (sm : list Z) (f : Z).
Let W := Z.of_nat (length sm).
Hypothesis Hf : 0 <= f < W.
(** The position of a word in scan order: [f] itself comes last. *)
Let pos w := cyc W (f + 1) w.

Lemma pos_next w : 0 <= w < W -> w <> f -> 0 <= (w + 1) mod W < W /\ pos ((w + 1) mod W) = pos w + 1.
Proof.
  intros Hw Hne. unfold pos. destruct (decide (w + 1 = W)) as [E|E].
  - rewrite E, Z.mod_same by lia. split; [lia|]. cyclic.
  - rewrite Z.mod_small by lia. split; [lia|]. cyclic.
Qed.

Lemma scan_words_spec fuel w :
  0 <= w < W -> W - pos w <= Z.of_nat fuel ->
  exists r, scan_words fuel w f W sm = Ret r /\
    match r with
    | None => forall v, 0 <= v < W -> v <> f -> pos w <= pos v -> word sm v = 0
    | Some z => exists u, 0 <= u < W /\ u <> f /\ word sm u <> 0 /\ z = u * 64 + TrailingZeros64 (word sm u) /\
                  forall v, 0 <= v < W -> v <> f -> pos w <= pos v < pos u -> word sm v = 0
    end.
Proof.
  revert w. induction fuel as [|fuel IH]; intros w Hw Hfuel; [unfold pos in *; cyclic|]. cbn [scan_words].
  destruct (Z.eqb_spec w f) as [->|E].
  { exists None. split; [done|]. intros v Hv Hne Hp. unfold pos in *; cyclic. }
  rewrite index_word by done. cbn [mbind outcome_bind].
  destruct (Z.eqb_spec (word sm w) 0) as [E0|E0]; cbn [negb].
  - destruct (pos_next w Hw E) as [Hw' Hp]. destruct (IH ((w + 1) mod W) Hw') as (r & Er & Hr); [lia|]. exists r. split; [done|].
    assert (forall v, 0 <= v < W -> v <> f -> pos w <= pos v -> v = w \/ pos ((w + 1) mod W) <= pos v) as Hcase
      by (intros v ? ? ?; rewrite Hp; destruct (decide (v = w)); [by left|right]; unfold pos in *; cyclic).
    destruct r as [z|].
    + destruct Hr as (u & Hu & Huf & Hw0 & Hz & Hj). exists u. repeat (split; [done|]). intros v Hv Hvf Hv'.
      destruct (Hcase v) as [->|]; [done..|lia|done|]. apply Hj; lia.
    + intros v Hv Hvf Hv'. destruct (Hcase v) as [->|]; auto.
  - eexists. split; [done|]. exists w. repeat (split; [done|]). lia.
Qed.
End scan.

Lemma sbit_at sm w b : 0 <= b < 64 -> sbit sm (w * 64 + b) = Z.testbit (word sm w) b.
Proof. intros. unfold sbit. replace ((w * 64 + b) / 64) with w by lia. by replace ((w * 64 + b) mod 64) with b by lia. Qed.

(** The scan's answer: the occupied slot closest ahead of [start]. *)
Definition closest (n start : Z) (sm : list Z) (r : option Z) : Prop :=
  match r with
  | None => forall t, 0 <= t < n -> sbit sm t = false
  | Some z => 0 <= z < n /\ sbit sm z = true /\ forall t, 0 <= t < n -> sbit sm t = true -> cyc n start z <= cyc n start t
  end.

Lemma occupied_slot n sm z : summary_ok n sm -> 0 <= z < 64 * Z.of_nat (length sm) -> sbit sm z = true -> z < n.
Proof. intros Hok Hz Hb. destruct (Z_lt_le_dec z n); [done|]. rewrite (so_out _ _ Hok) in Hb; [done|]. lia. Qed.

Section first.
Context (n start : Z) (sm : list Z).
Hypothesis Hok : summary_ok n sm.
Hypothesis Hstart : 0 <= start < n.
Let W := Z.of_nat (length sm).
Let f := start / 64.

Lemma closest_here w z :
  w = word sm f -> Z.shiftr w (start mod 64) <> 0 ->
  z = f * 64 + start mod 64 + TrailingZeros64 (Z.shiftr w (start mod 64)) -> closest n start sm (Some z).
Proof.
  intros Ew Hne Hz. pose proof (so_len _ _ Hok) as Hlen. assert (0 <= f < W) as Hf by (unfold W, f; lia).
  assert (is_uint 64 w) as Hu by (rewrite Ew; by apply Hok).
  assert (is_uint 64 (Z.shiftr w (start mod 64))) as Hu'.
  { unfold is_uint in *. split; [apply Z.shiftr_nonneg; lia|]. rewrite Z.shiftr_div_pow2 by lia.
    apply Z.le_lt_trans with w; [|lia]. apply Z.div_le_upper_bound; [lia|]. pose proof (Z.pow_pos_nonneg 2 (start mod 64)). nia. }
  destruct (TrailingZeros64_spec _ Hu' Hne) as (A & B & Cc). set (tz := TrailingZeros64 _) in *.
  rewrite Z.shiftr_spec in A by lia. set (b := start mod 64) in *. assert (0 <= b < 64) by (unfold b; lia).
  assert (tz + b < 64). { destruct (Z_lt_le_dec (tz + b) 64); [done|]. rewrite (uint_bit_high 64) in A; [done|done|lia]. }
  assert (sbit sm z = true) as Hb. { rewrite Hz. replace (f * 64 + b + tz) with (f * 64 + (tz + b)) by lia. rewrite sbit_at by lia. by rewrite <- Ew. }
  assert (z < n) by (apply (occupied_slot n sm z Hok); [unfold W in *; lia|done]).
  split; [lia|]. split; [done|]. intros t Ht Hbt. unfold cyc.
  destruct (Z.leb_spec start z); [|unfold f, b in *; lia]. destruct (Z.leb_spec start t); [|lia].
  destruct (Z_lt_le_dec t z); [|lia]. exfalso. specialize (Cc (t - start)). rewrite Z.shiftr_spec in Cc by lia.
  assert (t = f * 64 + (t - start + b)) as Et by (unfold f, b in *; lia). rewrite Et, sbit_at, <- Ew, Cc in Hbt; [done|..]; unfold f, b in *; lia.
Qed.

(** A slot the first word did not show lies in another word, or below the start
    bit. *)
Lemma not_here t :
  Z.shiftr (word sm f) (start mod 64) = 0 -> 0 <= t < n -> sbit sm t = true -> t / 64 <> f \/ t < start.
Proof.
  intros E Ht Hb. destruct (decide (t / 64 = f)) as [Ef|]; [|by left]. right. destruct (Z_lt_le_dec t start); [done|]. exfalso.
  unfold sbit in Hb. rewrite Ef in Hb. replace (t mod 64) with ((t mod 64 - start mod 64) + start mod 64) in Hb by lia.
  rewrite <- Z.shiftr_spec, E, Z.testbit_0_l in Hb; [done|]. unfold f in *. lia.
Qed.

Hypothesis Hnone : Z.shiftr (word sm f) (start mod 64) = 0.

(** The first occupied word after the start's own holds the closest slot. *)
Lemma closest_next u z :
  0 <= u < W -> u <> f -> word sm u <> 0 -> z = u * 64 + TrailingZeros64 (word sm u) ->
  (forall v, 0 <= v < W -> v <> f -> cyc W (f + 1) v < cyc W (f + 1) u -> word sm v = 0) -> closest n start sm (Some z).
Proof.
  intros Hu Huf Hw Hz Hbefore. pose proof (so_len _ _ Hok) as Hlen. fold W in Hlen.
  destruct (TrailingZeros64_spec (word sm u)) as (A & B & Cc); [by apply Hok|done|]. set (tz := TrailingZeros64 (word sm u)) in *.
  assert (sbit sm z = true) as Hb by (rewrite Hz, sbit_at by lia; done).
  assert (z < n) by (apply (occupied_slot n sm z Hok); [unfold W in *; lia|done]).
  split; [lia|]. split; [done|]. intros t Ht Hbt.
  assert (t / 64 = u -> z <= t) as Hsame.
  { intros Et. destruct (Z_lt_le_dec t z); [|done]. exfalso. unfold sbit in Hbt. rewrite Et, Cc in Hbt; [done|lia]. }
  assert (t / 64 <> f -> cyc W (f + 1) u <= cyc W (f + 1) (t / 64)) as Hpos.
  { intros Hne. apply sbit_word in Hbt. destruct (Z_lt_le_dec (cyc W (f + 1) (t / 64)) (cyc W (f + 1) u)); [|done].
    exfalso. apply Hbt, Hbefore; [lia|done|done]. }
  pose proof (not_here t Hnone Ht Hbt) as Hnot. unfold f in *.
  destruct (decide (t / 64 = u)) as [E|E]; [specialize (Hsame E)|clear Hsame].
  - clear -Hsame E Hu Huf Hlen Ht Hz B H Hstart. cyclic.
  - destruct (decide (t / 64 = start / 64)) as [E'|E']; [|specialize (Hpos E')]; clear -Hpos Hnot E E' Hu Huf Hlen Ht Hz B H Hstart; cyclic.
Qed.

(** With every other word empty, what is left is below the start bit. *)
Lemma closest_low :
  (forall v, 0 <= v < W -> v <> f -> word sm v = 0) ->
  let occupied := Z.land (word sm f) (Z.shiftl 1 (start mod 64) - 1) in
  closest n start sm (if negb (start mod 64 =? 0) then
     (if negb (occupied =? 0) then Some (f * 64 + TrailingZeros64 occupied) else None) else None).
Proof.
  intros Hothers occupied. pose proof (so_len _ _ Hok) as Hlen. fold W in Hlen. assert (0 <= f < W) as Hf by (unfold f; lia).
  assert (forall t, 0 <= t < n -> sbit sm t = true -> t / 64 = f /\ t < start) as Hlow.
  { intros t Ht Hbt. destruct (not_here t Hnone Ht Hbt) as [Hne|Hlt]; [exfalso|split; [|done]].
    - apply sbit_word in Hbt. apply Hbt, Hothers; [lia|done].
    - destruct (decide (t / 64 = f)) as [|Hne]; [done|]. exfalso. apply sbit_word in Hbt. apply Hbt, Hothers; [lia|done]. }
  assert (forall j, 0 <= j -> Z.testbit occupied j = (j <? start mod 64) && Z.testbit (word sm f) j) as Hland.
  { intros j Hj. unfold occupied. rewrite Z.land_spec, Z.shiftl_1_l, Z.sub_1_r, <- Z.ones_equiv, Z.testbit_ones by lia.
    destruct (Z.leb_spec 0 j); [|lia]. simpl. apply andb_comm. }
  assert (forall t, 0 <= t < n -> sbit sm t = true -> Z.testbit occupied (t mod 64) = true /\ t = f * 64 + t mod 64) as Hocc.
  { intros t Ht Hbt. destruct (Hlow t Ht Hbt) as [Ef Hlt]. split; [|lia]. rewrite Hland by lia. unfold sbit in Hbt. rewrite Ef in Hbt.
    rewrite Hbt. destruct (Z.ltb_spec (t mod 64) (start mod 64)); [done|]. unfold f in Ef. lia. }
  destruct (Z.eqb_spec (start mod 64) 0) as [E0|E0]; cbn [negb].
  { intros t Ht. destruct (sbit sm t) eqn:Eb; [|done]. destruct (Hlow t Ht Eb). unfold f in *. lia. }
  destruct (Z.eqb_spec occupied 0) as [E1|E1]; cbn [negb].
  { intros t Ht. destruct (sbit sm t) eqn:Eb; [|done]. destruct (Hocc t Ht Eb) as [Hb _]. by rewrite E1, Z.testbit_0_l in Hb. }
  assert (is_uint 64 occupied) as Hu.
  { unfold occupied. pose proof (so_word _ _ Hok f Hf) as [? ?]. rewrite Z.shiftl_1_l, Z.sub_1_r, <- Z.ones_equiv, Z.land_ones by lia.
    pose proof (Z.pow_pos_nonneg 2 (start mod 64)). pose proof (Z.mod_le (word sm f) (2 ^ (start mod 64))).
    pose proof (Z.mod_pos_bound (word sm f) (2 ^ (start mod 64))). split; lia. }
  destruct (TrailingZeros64_spec _ Hu E1) as (A & B & Cc). rewrite Hland in A by lia. apply andb_true_iff in A as [A1 A2]. apply Z.ltb_lt in A1.
  split; [unfold f in *; lia|]. split; [by rewrite sbit_at by lia|]. intros t Ht Hbt.
  destruct (Hlow t Ht Hbt) as [Ef Hlt]. destruct (Hocc t Ht Hbt) as [Hb Et].
  assert (TrailingZeros64 occupied <= t mod 64).
  { destruct (Z_lt_le_dec (t mod 64) (TrailingZeros64 occupied)); [|done]. rewrite Cc in Hb; [done|lia]. }
  unfold f in *. clear -H A1 B Et Hlt Hstart Ef. cyclic.
Qed.
End first.

Lemma first_occupied_spec n start sm :
  summary_ok n sm -> 0 <= start < n -> exists r, first_occupied start sm = Ret r /\ closest n start sm r.
Proof.
  intros Hok Hstart. pose proof (so_len _ _ Hok) as Hlen. unfold first_occupied.
  set (f := start / 64). assert (0 <= f < Z.of_nat (length sm)) as Hf by (unfold f; lia).
  rewrite index_word by done. cbn [mbind outcome_bind].
  destruct (Z.eqb_spec (Z.shiftr (word sm f) (start mod 64)) 0) as [E|E]; cbn [negb].
  2: { eexists. split; [done|]. by eapply closest_here. }
  pose proof (Z.mod_pos_bound (f + 1) (Z.of_nat (length sm)) ltac:(lia)) as Hmod.
  assert (cyc (Z.of_nat (length sm)) (f + 1) ((f + 1) mod Z.of_nat (length sm)) = 0) as Hpos0.
  { destruct (decide (f + 1 = Z.of_nat (length sm))) as [E1|E1]; [rewrite E1, Z.mod_same in * by lia|rewrite Z.mod_small in * by lia]; cyclic. }
  destruct (scan_words_spec sm f Hf (S (length sm)) ((f + 1) mod Z.of_nat (length sm)) Hmod) as (r & Er & Hr); [lia|].
  rewrite Er, Hpos0 in *. cbn [mbind outcome_bind].
  assert (forall v, 0 <= v < Z.of_nat (length sm) -> 0 <= cyc (Z.of_nat (length sm)) (f + 1) v) as Hnn by (intros; cyclic).
  destruct r as [z|].
  - eexists. split; [done|]. destruct Hr as (u & Hu & Huf & Hw & Hz & Hbefore).
    eapply closest_next; try done. intros v Hv Hvf Hlt. apply Hbefore; auto.
  - pose proof (closest_low n start sm Hok Hstart E) as Hlow. cbv zeta in Hlow. fold f in Hlow.
    eexists. split; [|apply Hlow; auto]. by destruct (start mod 64 =? 0), (Z.land (word sm f) (Z.shiftl 1 (start mod 64) - 1) =? 0).
Qed.

(** ** The entries of each slot *)

Fixpoint dchain (m : mem) (p hd : option nat) (l : list nat) : Prop :=
  match l with
  | [] => hd = None
  | x :: l => hd = Some x /\ exists e, m !! x = Some e /\ prev e = p /\ dchain m (Some x) (next e) l
  end.

Definition links (e : Entry) : option nat * option nat := (next e, prev e).
(** What an entry says apart from its list links. *)
Definition core (e : Entry) : Z * Z * Z * Z := (bucket e, When e, Period e, heap e).

Lemma modify_alter x f m : is_Some (m !! x) -> modify x f m = Ret (alter f x m).
Proof.
  intros [e He]. rewrite (modify_spec _ _ _ _ He). f_equal. apply map_eq. intros y.
  destruct (decide (y = x)) as [->|].
  - rewrite lookup_insert, lookup_alter, He. by destruct (decide (x = x)).
  - by rewrite lookup_insert_ne, lookup_alter_ne by done.
Qed.

Lemma dchain_frame m m' p hd l :
  (forall y, y ∈ l -> links <$> m' !! y = links <$> m !! y) -> dchain m p hd l -> dchain m' p hd l.
Proof.
  revert p hd. induction l as [|x l IH]; intros p hd Hf Hc; simpl in *; [done|]. destruct Hc as (-> & e & He & Hp & Hc).
  split; [done|]. pose proof (Hf x ltac:(set_solver)) as Hx. rewrite He in Hx. destruct (m' !! x) as [e'|]; [|done].
  simpl in Hx. unfold links in Hx. injection Hx as Hn Hp'. exists e'. rewrite Hn, Hp'. split; [done|]. split; [done|]. apply IH; [|done]. set_solver.
Qed.

Lemma dchain_is_Some m p hd l x : dchain m p hd l -> x ∈ l -> is_Some (m !! x).
Proof.
  revert p hd. induction l as [|y l IH]; intros p hd Hc Hx; [set_solver|]. simpl in Hc. destruct Hc as (-> & e & He & _ & Hc).
  apply elem_of_cons in Hx as [->|Hx]; eauto.
Qed.

(** Giving the head of a list another predecessor. *)
Definition relink (hd q : option nat) (m : mem) : mem :=
  match hd with Some b => alter (set_prev q) b m | None => m end.

Lemma relink_lookup_ne hd q m x : hd <> Some x -> relink hd q m !! x = m !! x.
Proof. destruct hd; simpl; [|done]. intros. by rewrite lookup_alter_ne by congruence. Qed.

Lemma relink_core hd q m x : core <$> relink hd q m !! x = core <$> m !! x.
Proof.
  destruct hd as [b|]; simpl; [|done]. destruct (decide (b = x)) as [->|]; [|by rewrite lookup_alter_ne].
  rewrite lookup_alter. destruct (decide (x = x)); [|done]. by destruct (m !! x).
Qed.

Lemma dchain_head m p hd l x : dchain m p hd l -> hd = Some x -> x ∈ l.
Proof. destruct l; simpl; intros H E; [congruence|]. destruct H as [H _]. rewrite H in E. injection E as ->. set_solver. Qed.

Lemma dchain_relink m p q hd l : NoDup l -> dchain m p hd l -> dchain (relink hd q m) q hd l.
Proof.
  destruct l as [|x l]; simpl; [by intros _ ->|]. intros Hnd (-> & e & He & Hp & Hc). apply NoDup_cons in Hnd as [Hx _]. split; [done|].
  exists (set_prev q e). simpl. rewrite lookup_alter, He. destruct (decide (x = x)); [|done].
  split; [done|]. split; [done|]. eapply dchain_frame; [|exact Hc]. intros y Hy. rewrite lookup_alter_ne; [done|]. by intros ->.
Qed.

(** Cutting an entry out behind another. *)
Lemma dchain_cut m p hd l1 a x l2 e :
  NoDup (l1 ++ a :: x :: l2) -> m !! x = Some e -> dchain m p hd (l1 ++ a :: x :: l2) ->
  prev e = Some a /\ dchain (relink (next e) (Some a) (alter (set_next (next e)) a m)) p hd (l1 ++ a :: l2).
Proof.
  revert p hd. induction l1 as [|y l1 IH]; intros p hd Hnd He Hc; simpl in *.
  - destruct Hc as (-> & ea & Ha & Hp & Hx & ex & Hex & Hpx & Hc). simplify_eq. split; [done|].
    apply NoDup_cons in Hnd as [Ha' Hnd]. apply NoDup_cons in Hnd as [Hx' Hnd]. split; [done|].
    exists (set_next (next e) ea). assert (next e <> Some a) by (intros E; apply Ha'; right; by eapply dchain_head).
    rewrite relink_lookup_ne, lookup_alter, Ha by done. destruct (decide (a = a)); [|done]. split; [done|]. split; [done|].
    apply (dchain_relink _ (Some x)); [done|]. eapply dchain_frame; [|exact Hc]. intros z Hz. rewrite lookup_alter_ne; [done|]. intros ->. set_solver.
  - destruct Hc as (-> & ey & Hy & Hp & Hc). apply NoDup_cons in Hnd as [Hy' Hnd]. destruct (IH _ _ Hnd He Hc) as [Hpe IHc].
    split; [done|]. split; [done|]. exists ey. assert (forall z, next e = Some z -> z <> y) as Hz.
    { intros z Ez ->. apply Hy'. apply elem_of_app. right. right. right. clear -Hc He Ez. revert Hc. generalize (Some y) (next ey).
      induction l1 as [|w l1 IH']; simpl; intros p h.
      - intros (_ & ea & _ & _ & _ & ex & Hex & _ & Hc). simplify_eq. by eapply dchain_head.
      - intros (_ & ew & _ & _ & Hc). eauto. }
    rewrite relink_lookup_ne, lookup_alter_ne; [done|..].
    + intros ->. set_solver.
    + intros E. by apply (Hz y).
Qed.

Definition upd {A} (L : Z -> A) (s : Z) (l : A) (t : Z) : A := if t =? s then l else L t.

Lemma upd_same {A} (L : Z -> A) s l : upd L s l s = l.
Proof. unfold upd. by rewrite Z.eqb_refl. Qed.
Lemma upd_other {A} (L : Z -> A) s l t : t <> s -> upd L s l t = L t.
Proof. unfold upd. intros. by destruct (Z.eqb_spec t s). Qed.

Definition occupied (l : list nat) : bool := match l with [] => false | _ => true end.

Record ring_rep (n : Z) (ring : slots) (sm : list Z) (m : mem) (L : Z -> list nat) : Prop := {
  rr_n : 0 < n < 2 ^ 31;
  rr_len : Z.of_nat (length ring) = n;
  rr_summary : summary_ok n sm;
  rr_chain : forall s, 0 <= s < n -> exists hd, ring !! Z.to_nat s = Some hd /\ dchain m None hd (L s);
  rr_nodup : forall s, 0 <= s < n -> NoDup (L s);
  rr_bucket : forall s x, 0 <= s < n -> x ∈ L s -> bucket <$> m !! x = Some (s + 1);
  rr_bit : forall s, 0 <= s < n -> sbit sm s = occupied (L s) }.

Lemma ring_rep_ext n ring sm m L L' : (forall s, 0 <= s < n -> L' s = L s) -> ring_rep n ring sm m L -> ring_rep n ring sm m L'.
Proof.
  intros E [A1 A2 A3 A4 A5 A6 A7]. split; try done.
  - intros s Hs. rewrite E by done. auto.
  - intros s Hs. rewrite E by done. auto.
  - intros s x Hs. rewrite E by done. auto.
  - intros s Hs. rewrite E by done. auto.
Qed.

(** Stores that agree on the ring's entries carry the same ring. *)
Lemma ring_rep_frame n ring sm m m' L :
  (forall s x, 0 <= s < n -> x ∈ L s -> links <$> m' !! x = links <$> m !! x /\ bucket <$> m' !! x = bucket <$> m !! x) ->
  ring_rep n ring sm m L -> ring_rep n ring sm m' L.
Proof.
  intros Hf [A1 A2 A3 A4 A5 A6 A7]. split; try done.
  - intros s Hs. destruct (A4 s Hs) as (hd & Hhd & Hc). exists hd. split; [done|]. eapply dchain_frame; [|done].
    intros y Hy. by apply (Hf s).
  - intros s x Hs Hx. destruct (Hf s x Hs Hx) as [_ ->]. auto.
Qed.

Lemma ring_rep_disjoint n ring sm m L s t x :
  ring_rep n ring sm m L -> 0 <= s < n -> 0 <= t < n -> x ∈ L s -> x ∈ L t -> s = t.
Proof.
  intros R Hs Ht Hxs Hxt. pose proof (rr_bucket _ _ _ _ _ R s x Hs Hxs) as E1.
  pose proof (rr_bucket _ _ _ _ _ R t x Ht Hxt) as E2. rewrite E1 in E2. injection E2. lia.
Qed.

(** Replacing one slot's list: the other slots' entries must keep their links. *)
Lemma ring_rep_slot n ring sm m L s hd l sm' m' :
  ring_rep n ring sm m L -> 0 <= s < n -> dchain m' None hd l -> NoDup l ->
  (forall x, x ∈ l -> bucket <$> m' !! x = Some (s + 1)) ->
  summary_ok n sm' -> (forall t, 0 <= t < n -> sbit sm' t = if t =? s then occupied l else sbit sm t) ->
  (forall t x, 0 <= t < n -> t <> s -> x ∈ L t -> links <$> m' !! x = links <$> m !! x /\ bucket <$> m' !! x = bucket <$> m !! x) ->
  ring_rep n (<[Z.to_nat s := hd]> ring) sm' m' (upd L s l).
Proof.
  intros [A1 A2 A3 A4 A5 A6 A7] Hs Hc Hnd Hb Hsm Hbits Hf. split; rewrite ?length_insert; try done.
  - intros t Ht. destruct (decide (t = s)) as [->|Hne].
    + exists hd. rewrite upd_same, list_lookup_insert_eq by lia. done.
    + rewrite upd_other, list_lookup_insert_ne by (done || lia). destruct (A4 t Ht) as (h & Hh & Hct). exists h. split; [done|].
      eapply dchain_frame; [|done]. intros y Hy. by apply (Hf t).
  - intros t Ht. destruct (decide (t = s)) as [->|Hne]; [by rewrite upd_same|rewrite upd_other by done; auto].
  - intros t x Ht Hx. destruct (decide (t = s)) as [->|Hne]; [rewrite upd_same in Hx; auto|].
    rewrite upd_other in Hx by done. destruct (Hf t x Ht Hne Hx) as [_ ->]. auto.
  - intros t Ht. rewrite Hbits by done. unfold upd. destruct (Z.eqb_spec t s); [done|auto].
Qed.

Lemma index_slot {A} (ring : list A) s h : 0 <= s -> ring !! Z.to_nat s = Some h -> index ring s = Ret h.
Proof. intros. apply index_Ret. done. Qed.

Lemma slot_push_spec n ring sm m L x s e :
  ring_rep n ring sm m L -> 0 <= s < n -> m !! x = Some e -> (forall t, 0 <= t < n -> x ∉ L t) ->
  exists ring' sm' m', slot_push x s ring sm m = Ret (ring', sm', m') /\
    ring_rep n ring' sm' m' (upd L s (x :: L s)) /\
    (forall y, y <> x -> core <$> m' !! y = core <$> m !! y) /\
    core <$> m' !! x = Some (s + 1, When e, Period e, heap e) /\
    (forall y, y <> x -> y ∉ L s -> m' !! y = m !! y).
Proof.
  intros R Hs He Hx. pose proof (rr_n _ _ _ _ _ R) as Hn. destruct (rr_chain _ _ _ _ _ R s Hs) as (hd & Hhd & Hc).
  pose proof (rr_summary _ _ _ _ _ R) as Hsm. specialize (Hx s Hs) as Hxs.
  assert (exists sm', match hd with Some _ => Ret sm | None => setSummaryLocked s sm end = Ret sm' /\ summary_ok n sm' /\
     forall t, 0 <= t < n -> sbit sm' t = if t =? s then true else sbit sm t) as (sm' & Esm & Hsm' & Hbits).
  { destruct hd as [h|].
    - exists sm. split; [done|]. split; [done|]. intros t Ht. destruct (Z.eqb_spec t s) as [->|]; [|done].
      rewrite (rr_bit _ _ _ _ _ R) by done. destruct (L s); [|done]. simpl in Hc. done.
    - destruct (setSummaryLocked_spec n s sm Hsm Hs) as (sm' & E & Hok & Hb). exists sm'. split; [done|]. split; [done|].
      intros t Ht. rewrite Hb by lia. by destruct (Z.eqb_spec t s). }
  set (m' := alter (set_prev None) x (alter (set_next hd) x (relink hd (Some x) (alter (set_bucket (s + 1)) x m)))).
  assert (forall y, y <> x -> m' !! y = relink hd (Some x) m !! y) as Hother.
  { intros y Hy. unfold m'. rewrite !lookup_alter_ne by done. destruct hd as [h|]; simpl; [|by rewrite lookup_alter_ne].
    destruct (decide (h = y)) as [->|]; [|by rewrite !lookup_alter_ne by done]. rewrite !lookup_alter. destruct (decide (y = y)); [|done].
    by destruct (decide (x = y)). }
  assert (hd <> Some x) as Hhx by (intros E; apply Hxs; by eapply dchain_head).
  assert (m' !! x = Some (MkEntry hd None (s + 1) (When e) (Period e) (heap e))) as Hmx.
  { unfold m'. rewrite !lookup_alter. destruct (decide (x = x)); [|done]. rewrite relink_lookup_ne, lookup_alter, He by done.
    by destruct (decide (x = x)). }
  exists (<[Z.to_nat s := Some x]> ring), sm', m'. split; [|split; [|split; [|split]]].
  - unfold slot_push. rewrite modify_alter by eauto. cbn [mbind outcome_bind]. rewrite (index_slot _ _ hd) by (done || lia).
    cbn [mbind outcome_bind]. rewrite int32_id by lia.
    assert (forall m0, is_Some (m0 !! x) -> is_Some (alter (set_next hd) x m0 !! x)) as Hsome
      by (intros m0 [e0 E0]; rewrite lookup_alter, E0; destruct (decide (x = x)); [by eexists|done]).
    assert (is_Some (alter (set_bucket (s + 1)) x m !! x)) as Hb by (rewrite lookup_alter, He; destruct (decide (x = x)); [by eexists|done]).
    destruct hd as [h|].
    + assert (is_Some (m !! h)) as Hh by (eapply dchain_is_Some; [done|by eapply dchain_head]).
      rewrite (modify_alter h) by (rewrite lookup_alter_ne; [done|congruence]). cbn [mbind outcome_bind].
      rewrite (modify_alter x) by (rewrite lookup_alter_ne; [done|congruence]). cbn [mbind outcome_bind]. injection Esm as <-.
      rewrite (modify_alter x) by (apply Hsome; rewrite lookup_alter_ne; [done|congruence]). done.
    + rewrite (modify_alter x) by done. cbn [mbind outcome_bind]. rewrite Esm. cbn [mbind outcome_bind].
      rewrite (modify_alter x) by (by apply Hsome). done.
  - eapply ring_rep_slot; try done.
    + simpl. split; [done|]. eexists. split; [exact Hmx|]. split; [done|]. simpl.
      eapply dchain_frame; [|apply (dchain_relink m None (Some x)); [by eapply rr_nodup|exact Hc]].
      intros y Hy. rewrite Hother; [done|]. by intros ->.
    + apply NoDup_cons. split; [done|by eapply rr_nodup].
    + intros y Hy. apply elem_of_cons in Hy as [->|Hy]; [by rewrite Hmx|]. rewrite Hother by (by intros ->).
      pose proof (relink_core hd (Some x) m y) as E. pose proof (rr_bucket _ _ _ _ _ R s y Hs Hy) as Eb.
      destruct (relink hd (Some x) m !! y) as [e1|], (m !! y) as [e2|]; simpl in *; try done. unfold core in E. congruence.
    + intros t y Ht Hne Hy. rewrite Hother by (intros ->; by apply (Hx t)). rewrite relink_lookup_ne; [done|].
      intros E. apply Hne. eapply ring_rep_disjoint; eauto using dchain_head.
  - intros y Hy. rewrite Hother by done. apply relink_core.
  - by rewrite Hmx.
  - intros y Hy Hys. rewrite Hother by done. apply relink_lookup_ne. intros E. apply Hys. by eapply dchain_head.
Qed.

Definition set_unlinked (e : Entry) : Entry := set_next None (set_prev None e).

Lemma alter_core f x (m : mem) y :
  (forall e, core (f e) = core e) -> core <$> alter f x m !! y = core <$> m !! y.
Proof.
  intros Hf. destruct (decide (x = y)) as [->|]; [|by rewrite lookup_alter_ne]. rewrite lookup_alter.
  destruct (decide (y = y)); [|done]. destruct (m !! y); simpl; [by rewrite Hf|done].
Qed.

Lemma core_bucket (m m' : mem) y : core <$> m' !! y = core <$> m !! y -> bucket <$> m' !! y = bucket <$> m !! y.
Proof. unfold core. destruct (m !! y), (m' !! y); simpl; intros; simplify_eq; congruence. Qed.

(** The pointer writes of unlinkLocked, before the summary is looked at. *)
Definition unlinked (x : nat) (e : Entry) (m : mem) : mem :=
  relink (next e) (prev e) (match prev e with Some a => alter (set_next (next e)) a m | None => m end).

Lemma unlinked_chain m hd l1 x l2 e :
  NoDup (l1 ++ x :: l2) -> m !! x = Some e -> dchain m None hd (l1 ++ x :: l2) ->
  dchain (unlinked x e m) None (match prev e with Some _ => hd | None => next e end) (l1 ++ l2) /\
  (forall y, prev e = Some y -> y ∈ l1) /\ (forall y, next e = Some y -> y ∈ l2) /\ (prev e = None -> l1 = []).
Proof.
  intros Hnd He Hc. unfold unlinked.
  assert (forall p h, dchain m p h (l1 ++ x :: l2) -> exists q, dchain m q (next e) l2) as Hnext.
  { clear Hc Hnd. induction l1 as [|y l1 IH]; simpl; intros p h.
    - intros (_ & e' & He' & _ & Hc). simplify_eq. eauto.
    - intros (_ & e' & _ & _ & Hc). eauto. }
  destruct (Hnext _ _ Hc) as [q Hq]. destruct l1 as [|a l1 _] using rev_ind; simpl in *.
  - destruct Hc as (-> & e' & He' & Hp & Hc). simplify_eq. rewrite Hp. apply NoDup_cons in Hnd as [_ Hnd].
    split; [by apply (dchain_relink m (Some x))|]. split; [done|]. split; [|done]. intros y Hy. by eapply dchain_head.
  - rewrite <- app_assoc in Hnd, Hc. simpl in *. destruct (dchain_cut _ _ _ _ _ _ _ _ Hnd He Hc) as [Hp Hc']. rewrite Hp.
    rewrite <- app_assoc. split; [done|]. split; [intros; simplify_eq; set_solver|]. split; [|done]. intros y Hy. by eapply dchain_head.
Qed.

Lemma unlinked_frame m x e y : prev e <> Some y -> next e <> Some y -> unlinked x e m !! y = m !! y.
Proof.
  intros Hp Hn. unfold unlinked. rewrite relink_lookup_ne by done. destruct (prev e) as [a|]; [|done].
  apply lookup_alter_ne. congruence.
Qed.

Lemma unlinked_core m x e y : core <$> unlinked x e m !! y = core <$> m !! y.
Proof. unfold unlinked. rewrite relink_core. destruct (prev e); [|done]. by apply alter_core. Qed.

Lemma NoDup_app_remove {A} (l1 l2 : list A) x : NoDup (l1 ++ x :: l2) -> NoDup (l1 ++ l2) /\ x ∉ l1 ++ l2.
Proof. rewrite <- Permutation_middle, NoDup_cons. tauto. Qed.

Lemma unlinkLocked_run ring sm m x e s hd sm' :
  m !! x = Some e -> bucket e = s + 1 -> 0 <= s -> ring !! Z.to_nat s = Some hd ->
  (forall y, prev e = Some y -> is_Some (m !! y)) -> (forall y, next e = Some y -> is_Some (m !! y)) ->
  let hd' := match prev e with Some _ => hd | None => next e end in
  match hd' with None => clearSummaryLocked s sm | Some _ => Ret sm end = Ret sm' ->
  unlinkLocked x ring sm m = Ret (<[Z.to_nat s := hd']> ring, sm', alter set_unlinked x (unlinked x e m)).
Proof.
  intros He Hb Hs Hhd Hp Hn hd' Hsm. unfold unlinkLocked, load. rewrite He. cbn [mbind outcome_bind].
  rewrite Hb, Z.add_simpl_r. rewrite !(index_slot _ _ hd) by done. pose proof (lookup_lt_Some _ _ _ Hhd).
  assert (forall (m0 : mem) f y, is_Some (m0 !! y) -> forall z, is_Some (alter f z m0 !! y)) as Halt.
  { intros m0 f y [e0 E0] z. rewrite lookup_alter. destruct (decide (z = y)) as [->|]; rewrite E0; simpl; eauto. }
  unfold unlinked. destruct (prev e) as [a|] eqn:Ep.
  - rewrite modify_alter by auto. cbn [mbind outcome_bind].
    assert (forall (k : mem -> outcome (slots * list Z * mem)),
      (match next e with Some s0 => modify s0 (set_prev (Some a)) (alter (set_next (next e)) a m)
       | None => Ret (alter (set_next (next e)) a m) end ≫= k) = k (relink (next e) (Some a) (alter (set_next (next e)) a m))) as ->.
    { intros k. destruct (next e); [rewrite modify_alter by auto|]; done. }
    rewrite (index_slot _ _ hd) by done. cbn [mbind outcome_bind]. unfold hd' in Hsm. rewrite Hsm. cbn [mbind outcome_bind].
    rewrite modify_alter; [|destruct (next e); simpl; eauto]. cbn [mbind outcome_bind]. unfold hd'. by rewrite list_insert_id.
  - cbn [mbind outcome_bind].
    assert (forall (k : mem -> outcome (slots * list Z * mem)),
      (match next e with Some s0 => modify s0 (set_prev None) m | None => Ret m end ≫= k) = k (relink (next e) None m)) as ->.
    { intros k. destruct (next e); [rewrite modify_alter by auto|]; done. }
    rewrite (index_slot _ _ (next e)) by (rewrite ?list_lookup_insert_eq; done || lia). cbn [mbind outcome_bind].
    unfold hd' in Hsm. rewrite Hsm. cbn [mbind outcome_bind]. rewrite modify_alter; [done|]. destruct (next e); simpl; eauto.
Qed.

Lemma unlinkLocked_spec n ring sm m L x s :
  ring_rep n ring sm m L -> 0 <= s < n -> x ∈ L s ->
  exists ring' sm' m' l1 l2, unlinkLocked x ring sm m = Ret (ring', sm', m') /\ L s = l1 ++ x :: l2 /\
    ring_rep n ring' sm' m' (upd L s (l1 ++ l2)) /\
    (forall y, core <$> m' !! y = core <$> m !! y) /\ (forall y, y ∉ L s -> m' !! y = m !! y).
Proof.
  intros R Hs Hx. destruct (rr_chain _ _ _ _ _ R s Hs) as (hd & Hhd & Hc).
  pose proof (rr_nodup _ _ _ _ _ R s Hs) as Hnd. pose proof (rr_bucket _ _ _ _ _ R s x Hs Hx) as Hb.
  destruct (m !! x) as [e|] eqn:He; [|done]. simpl in Hb. injection Hb as Hb. apply list_elem_of_split in Hx as (l1 & l2 & El).
  rewrite El in *. destruct (unlinked_chain m hd l1 x l2 e Hnd He Hc) as (Hc' & Hp & Hnx & Hp0).
  pose proof (NoDup_app_remove l1 l2 x Hnd) as [Hnd' Hx'].
  set (hd' := match prev e with Some _ => hd | None => next e end) in *. set (m' := alter set_unlinked x (unlinked x e m)).
  assert (exists sm', match hd' with None => clearSummaryLocked s sm | Some _ => Ret sm end = Ret sm' /\ summary_ok n sm' /\
     forall t, 0 <= t < n -> sbit sm' t = if t =? s then occupied (l1 ++ l2) else sbit sm t) as (sm' & Esm & Hsm' & Hbits).
  { pose proof (rr_summary _ _ _ _ _ R) as Hsm. destruct (l1 ++ l2) as [|z l] eqn:Ell.
    - simpl in Hc'. rewrite Hc'. destruct (clearSummaryLocked_spec n s sm Hsm Hs) as (sm' & E & Hok & Hbt). exists sm'.
      split; [done|]. split; [done|]. intros t Ht. rewrite Hbt by lia. by destruct (Z.eqb_spec t s).
    - destruct Hc' as [-> _]. exists sm. split; [done|]. split; [done|]. intros t Ht. destruct (Z.eqb_spec t s) as [->|]; [|done].
      rewrite (rr_bit _ _ _ _ _ R), El by done. by destruct l1. }
  exists (<[Z.to_nat s := hd']> ring), sm', m', l1, l2. split; [|split; [done|split; [|split]]].
  - assert (forall y, y ∈ l1 \/ y ∈ l2 -> is_Some (m !! y)) as Hin by (intros y Hy; eapply dchain_is_Some; [exact Hc|set_solver]).
    apply (unlinkLocked_run _ _ _ _ _ _ hd); auto; lia.
  - assert (forall y, y <> x -> m' !! y = unlinked x e m !! y) as Hm' by (intros; unfold m'; by rewrite lookup_alter_ne).
    eapply ring_rep_slot; try done.
    + eapply dchain_frame; [|exact Hc']. intros y Hy. rewrite Hm'; [done|]. by intros ->.
    + intros y Hy. rewrite Hm' by (by intros ->). rewrite (core_bucket m) by apply unlinked_core.
      eapply rr_bucket; [done|done|]. rewrite El. set_solver.
    + intros t y Ht Hne Hy. assert (y ∉ l1 ++ x :: l2) as Hy'.
      { rewrite <- El. intros Hy'. apply Hne. by eapply ring_rep_disjoint. }
      rewrite Hm' by (intros ->; set_solver). rewrite unlinked_frame; [done|..]; intros E; [apply Hp in E|apply Hnx in E]; set_solver.
  - intros y. unfold m'. rewrite alter_core by done. apply unlinked_core.
  - intros y Hy. unfold m'. rewrite lookup_alter_ne by (intros ->; apply Hy; set_solver).
    apply unlinked_frame; intros E; apply Hy; [apply Hp in E|apply Hnx in E]; set_solver.
Qed.

(** C38. The word-at-a-time scan of the summary bitmap, from any start slot of
    a ring of [n] slots, finds the occupied slot that comes first in cyclic
    slot order from the start, and reports none only when no slot is
    occupied. *)
Theorem scan_finds_closest_slot n start sm :
  summary_ok n sm -> 0 <= start < n ->
  exists r, first_occupied start sm = Ret r /\
    match r with
    | None => forall t, 0 <= t < n -> sbit sm t = false
    | Some z => 0 <= z < n /\ sbit sm z = true /\
        forall t, 0 <= t < n -> sbit sm t = true -> (z - start) mod n <= (t - start) mod n
    end.
Proof.
  intros Hok Hs. destruct (first_occupied_spec n start sm Hok Hs) as (r & E & Hr). exists r. split; [done|].
  assert (forall t, 0 <= t < n -> (t - start) mod n = cyc n start t) as Hcyc.
  { intros t Ht. unfold cyc. destruct (Z.leb_spec start t); [apply Z.mod_small; lia|].
    rewrite <- (Z.mod_add (t - start) 1 n), Z.mod_small by lia. lia. }
  destruct r as [z|]; [|done]. destruct Hr as (Hz & Hb & Hmin). split; [done|]. split; [done|].
  intros t Ht Hbt. rewrite !Hcyc by done. auto.
Qed.

(** A ring of 130 slots, 5 and 100 occupied, scanned from slot 70. *)
Lemma scan_finds_closest_slot_witness : exists r, first_occupied 70 [32; 68719476736; 0] = Ret r.
Proof.
  destruct (scan_finds_closest_slot 130 70 [32; 68719476736; 0]) as (r & E & _); [|lia|by exists r]. split.
  - reflexivity.
  - intros w Hw. simpl in Hw. assert (w = 0 \/ w = 1 \/ w = 2) as [->|[->| ->]] by lia; vm_compute; split; [intros H; discriminate H|reflexivity|intros H; discriminate H|reflexivity|intros H; discriminate H|reflexivity].
  - intros s Hs. simpl in Hs. unfold sbit, word. assert (s / 64 = 2) as -> by lia. apply Z.testbit_0_l.
Defined.
