(* ===== verification/Wheel.v ===== *)
(** * internal/timewheel/wheel.go: the timing wheel

    The wheel over its ring ([WheelRing]) and overflow heap ([WheelHeap]).
    Every method body is one critical section of the wheel's mutex, so an
    execution is a sequence of calls.  Times are nanoseconds since the Unix
    epoch without a monotonic reading; [zeroTime] is Go's zero [time.Time].
    The arm callback is modelled by what it heard.  Ticks and slots are never
    negative, so Go's [/] and [%] on them are [Z.div] and [Z.modulo], and the
    difference of two ticks stays within an int64. *)

From Stdlib Require Import ZifyNat.
From S2P Require Import Prelude WheelHeap WheelRing.
Local Open Scope Z_scope.
Ltac Zify.zify_post_hook ::= Z.div_mod_to_equations.

Definition maxBuckets : Z := 2 ^ 31 - 1.
Definition notInWheel : Z := 0.
Definition inOverflow : Z := -1.

(** January 1, year 1, UTC. *)
Definition zeroTime : Z := -62135596800 * 1000000000.
Definition IsZero (t : Z) : bool := t =? zeroTime.

Record Wheel : Type := MkWheel {
  tick : Z; buckets : Z; ring : slots; summary : list Z; cursor : Z;
  overflow : list nat; count : Z; earliest : Z;
  arm : bool;            (* the callback is not nil *)
  heard : list Z         (* what it was told, the latest first *) }.

Definition with_ring (r : slots) (sm : list Z) (w : Wheel) : Wheel :=
  MkWheel (tick w) (buckets w) r sm (cursor w) (overflow w) (count w) (earliest w) (arm w) (heard w).
Definition with_cursor (c : Z) (w : Wheel) : Wheel :=
  MkWheel (tick w) (buckets w) (ring w) (summary w) c (overflow w) (count w) (earliest w) (arm w) (heard w).
Definition with_overflow (ov : list nat) (w : Wheel) : Wheel :=
  MkWheel (tick w) (buckets w) (ring w) (summary w) (cursor w) ov (count w) (earliest w) (arm w) (heard w).
Definition with_count (c : Z) (w : Wheel) : Wheel :=
  MkWheel (tick w) (buckets w) (ring w) (summary w) (cursor w) (overflow w) c (earliest w) (arm w) (heard w).
Definition with_earliest (t : Z) (w : Wheel) : Wheel :=
  MkWheel (tick w) (buckets w) (ring w) (summary w) (cursor w) (overflow w) (count w) t (arm w)
    (if arm w then t :: heard w else heard w).

(** ** Operations *)

Definition unixEpoch : Z := 0.
Definition lastNano : Z := maxInt.

Definition tickOf (w : Wheel) (when : Z) : Z :=
  if when <? unixEpoch then 0
  else if lastNano <? when then maxInt / tick w
  else when / tick w.

Definition New (tick buckets now : Z) (arm : bool) : outcome Wheel :=
  if (tick <=? 0) || (buckets <=? 0) || (maxBuckets <? buckets) || IsZero now then Panic PanicArgument
  else
    let w := MkWheel tick (int32 buckets) (replicate (Z.to_nat buckets) None)
               (replicate (Z.to_nat ((buckets - 1) / 64 + 1)) 0) 0 [] 0 zeroTime arm [] in
    Ret (with_cursor (tickOf w now) w).

Definition nextSlotLocked (w : Wheel) : Z := (cursor w mod buckets w + 1) mod buckets w.

Definition firstOccupiedLocked (w : Wheel) : outcome (option Z) := first_occupied (nextSlotLocked w) (summary w).

Definition linkLocked (x : nat) (w : Wheel) (m : mem) : outcome (Wheel * mem) :=
  e ← load x m;
  if buckets w <? tickOf w (When e) - cursor w then
    m ← modify x (fun e => set_next None (set_prev None (set_bucket inOverflow e))) m;
    '(ov, m) ← heapPushLocked x (overflow w) m;
    Ret (with_overflow ov w, m)
  else
    let tick := tickOf w (When e) in
    let slot := tick mod buckets w in
    let slot := if tick <=? cursor w then nextSlotLocked w else slot in
    '(r, sm, m) ← slot_push x slot (ring w) (summary w) m;
    Ret (with_ring r sm w, m).

Definition attachLocked (x : nat) (w : Wheel) (m : mem) : outcome (Wheel * mem) :=
  '(w, m) ← linkLocked x w m;
  Ret (with_count (count w + 1) w, m).

Definition detachLocked (x : nat) (w : Wheel) (m : mem) : outcome (Wheel * mem) :=
  e ← load x m;
  if bucket e =? notInWheel then Ret (w, m)
  else if bucket e =? inOverflow then
    '(removed, ov, m) ← heapRemoveLocked x (overflow w) m;
    let w := with_overflow ov w in
    m ← modify x (set_bucket notInWheel) m;
    if removed : bool then Ret (with_count (count w - 1) w, m) else Ret (w, m)
  else
    '(r, sm, m) ← unlinkLocked x (ring w) (summary w) m;
    let w := with_ring r sm w in
    m ← modify x (set_bucket notInWheel) m;
    Ret (with_count (count w - 1) w, m).

(** The walk of rearmEarliestLocked over one slot. *)
Fixpoint earliest_in (fuel : nat) (x : option nat) (acc : Z) (m : mem) : outcome Z :=
  match x with
  | None => Ret acc
  | Some x =>
      match fuel with
      | O => Panic FuelExhausted
      | S fuel =>
          e ← load x m;
          earliest_in fuel (next e) (if IsZero acc || (When e <? acc) then When e else acc) m
      end
  end.

Definition rearmEarliestLocked (w : Wheel) (m : mem) : outcome Wheel :=
  if count w =? 0 then Ret (with_earliest zeroTime w)
  else
    acc ← match overflow w with
          | [] => Ret zeroTime
          | top :: _ => e ← load top m; Ret (When e)
          end;
    found ← firstOccupiedLocked w;
    t ← match found with
        | None => Ret acc
        | Some slot => hd ← index (ring w) slot; earliest_in (size m) hd acc m
        end;
    Ret (with_earliest t w).

Definition Cancel (x : nat) (w : Wheel) (m : mem) : outcome (Wheel * mem) :=
  e ← load x m;
  let wasEarliest := (When e =? earliest w) && negb (bucket e =? notInWheel) in
  '(w, m) ← detachLocked x w m;
  if wasEarliest then w ← rearmEarliestLocked w m; Ret (w, m) else Ret (w, m).

Definition Arm (x : nat) (when period : Z) (w : Wheel) (m : mem) : outcome (Wheel * mem) :=
  if IsZero when then Cancel x w m
  else
    e ← load x m;
    let wasEarliest := When e =? earliest w in
    '(w, m) ← detachLocked x w m;
    m ← modify x (fun e => MkEntry (next e) (prev e) (bucket e) when period (heap e)) m;
    '(w, m) ← attachLocked x w m;
    if IsZero (earliest w) || (when <? earliest w) || wasEarliest
    then w ← rearmEarliestLocked w m; Ret (w, m)
    else Ret (w, m).

(** The loop of reportSlotLocked over the popped slot's list. *)
Fixpoint report_list (fuel : nat) (x : option nat) (now : Z) (due : list nat) (w : Wheel) (m : mem) : outcome (list nat * Wheel * mem) :=
  match x with
  | None => Ret (due, w, m)
  | Some x =>
      match fuel with
      | O => Panic FuelExhausted
      | S fuel =>
          e ← load x m;
          m ← modify x (fun e => set_bucket notInWheel (set_next None (set_prev None e))) m;
          if When e <=? now then report_list fuel (next e) now (due ++ [x]) (with_count (count w - 1) w) m
          else '(w, m) ← linkLocked x w m; report_list fuel (next e) now due w m
      end
  end.

Definition reportSlotLocked (due : list nat) (idx now : Z) (w : Wheel) (m : mem) : outcome (list nat * Wheel * mem) :=
  slot ← index (ring w) idx;
  match slot with
  | None => Ret (due, w, m)
  | Some _ =>
      let r := <[Z.to_nat idx := None]> (ring w) in
      sm ← clearSummaryLocked (int32 idx) (summary w);
      report_list (size m) slot now due (with_ring r sm w) m
  end.

(** The sweep of one summary word, bit by bit from a copy of it. *)
Fixpoint sweep_word (fuel : nat) (word occupied now : Z) (due : list nat) (w : Wheel) (m : mem) : outcome (list nat * Wheel * mem) :=
  if occupied =? 0 then Ret (due, w, m)
  else
    match fuel with
    | O => Panic FuelExhausted
    | S fuel =>
        let bit := TrailingZeros64 occupied in
        let occupied := Z.ldiff occupied (Z.shiftl 1 bit) in
        '(due, w, m) ← reportSlotLocked due (word * 64 + bit) now w m;
        sweep_word fuel word occupied now due w m
    end.

(** [for word := range w.summary], [k] words from [word] on. *)
Fixpoint sweep (k : nat) (word now : Z) (due : list nat) (w : Wheel) (m : mem) : outcome (list nat * Wheel * mem) :=
  match k with
  | O => Ret (due, w, m)
  | S k =>
      occupied ← index (summary w) word;
      '(due, w, m) ← sweep_word 64 word occupied now due w m;
      sweep k (word + 1) now due w m
  end.

(** [for w.cursor < current], a tick at a time. *)
Fixpoint walk (fuel : nat) (current now : Z) (due : list nat) (w : Wheel) (m : mem) : outcome (list nat * Wheel * mem) :=
  if current <=? cursor w then Ret (due, w, m)
  else
    match fuel with
    | O => Panic FuelExhausted
    | S fuel =>
        let w := with_cursor (cursor w + 1) w in
        '(due, w, m) ← reportSlotLocked due (cursor w mod buckets w) now w m;
        walk fuel current now due w m
    end.

(** The overflow loop of AdvanceInto. *)
Fixpoint promote (fuel : nat) (now : Z) (due : list nat) (w : Wheel) (m : mem) : outcome (list nat * Wheel * mem) :=
  match overflow w with
  | [] => Ret (due, w, m)
  | x :: _ =>
      e ← load x m;
      if (now <? When e) && (buckets w <? tickOf w (When e) - cursor w) then Ret (due, w, m)
      else
        match fuel with
        | O => Panic FuelExhausted
        | S fuel =>
            '(ov, m) ← heapPopLocked (overflow w) m;
            let w := with_overflow ov w in
            m ← modify x (set_bucket notInWheel) m;
            if When e <=? now then promote fuel now (due ++ [x]) (with_count (count w - 1) w) m
            else '(w, m) ← linkLocked x w m; promote fuel now due w m
        end
  end.

(** The re-arming loop over [due[start:]]. *)
Fixpoint rearm_periodic (l : list nat) (now : Z) (w : Wheel) (m : mem) : outcome (Wheel * mem) :=
  match l with
  | [] => Ret (w, m)
  | x :: l =>
      e ← load x m;
      if 0 <? Period e then
        let when := When e + Period e in
        let when := if when <=? now then now + Period e else when in
        m ← modify x (fun e => MkEntry (next e) (prev e) (bucket e) when (Period e) (heap e)) m;
        '(w, m) ← attachLocked x w m;
        rearm_periodic l now w m
      else rearm_periodic l now w m
  end.

Definition AdvanceInto (now : Z) (due : list nat) (w : Wheel) (m : mem) : outcome (list nat * Wheel * mem) :=
  let start := length due in
  let current := tickOf w now in
  '(due, w, m) ← (if buckets w <? current - cursor w then
                    let w := with_cursor (current - buckets w) w in
                    '(due, w, m) ← sweep (length (summary w)) 0 now due w m;
                    Ret (due, with_cursor current w, m)
                  else walk (Z.to_nat (current - cursor w)) current now due w m);
  '(due, w, m) ← (if (0 <? count w) && negb (IsZero (earliest w)) && (earliest w <=? now)
                  then reportSlotLocked due (nextSlotLocked w) now w m
                  else Ret (due, w, m));
  '(due, w, m) ← promote (length (overflow w)) now due w m;
  '(w, m) ← rearm_periodic (drop start due) now w m;
  w ← rearmEarliestLocked w m;
  Ret (due, w, m).

Definition Advance (now : Z) (w : Wheel) (m : mem) : outcome (list nat * Wheel * mem) := AdvanceInto now [] w m.

Definition Empty (w : Wheel) : bool := count w =? 0.
Definition Len (w : Wheel) : Z := count w.

(** ** Structure *)

(** What the wheel goes by: where an entry is, and when it is due. *)
Definition face (e : Entry) : Z * Z * Z := (bucket e, When e, Period e).

(** The structural invariant; [P] are entries cut from their slot that still
    carry its number, as in the middle of reportSlotLocked. *)
Record wheel_ok (w : Wheel) (m : mem) (P : list nat) : Prop := {
  wo_tick : 0 < tick w;
  wo_cursor : 0 <= cursor w;
  wo_small : Z.of_nat (size m) < 2 ^ 31;
  wo_ring : exists L, ring_rep (buckets w) (ring w) (summary w) m L /\
    forall s x, 0 <= s < buckets w -> x ∈ L s <-> bucket <$> m !! x = Some (s + 1) /\ x ∉ P;
  wo_heap : heap_ok (overflow w) m;
  wo_over : forall x, x ∈ overflow w <-> bucket <$> m !! x = Some inOverflow;
  wo_range : forall x e, m !! x = Some e -> bucket e = notInWheel \/ bucket e = inOverflow \/ 0 < bucket e <= buckets w;
  wo_pend : forall x, x ∈ P -> exists s, 0 <= s < buckets w /\ bucket <$> m !! x = Some (s + 1) }.

Definition link_slot (w : Wheel) (d : Z) : Z :=
  if tickOf w d <=? cursor w then nextSlotLocked w else tickOf w d mod buckets w.

Lemma tickOf_range w d : 0 < tick w -> 0 <= tickOf w d <= maxInt.
Proof.
  intros Ht. unfold tickOf, unixEpoch, lastNano, maxInt.
  destruct (Z.ltb_spec d 0); [lia|]. destruct (Z.ltb_spec (2 ^ 63 - 1) d).
  - split; [apply Z.div_pos; lia|]. apply Z.div_le_upper_bound; [lia|]. nia.
  - split; [apply Z.div_pos; lia|]. apply Z.div_le_upper_bound; [lia|]. nia.
Qed.

Lemma tickOf_mono w d d' : 0 < tick w -> d <= d' -> tickOf w d <= tickOf w d'.
Proof.
  intros Ht Hd. pose proof (tickOf_range w d' Ht). unfold tickOf, unixEpoch, lastNano in *.
  repeat (case_match; rewrite ?Z.ltb_lt, ?Z.ltb_ge in * ); try lia; apply Z.div_le_mono; lia.
Qed.

Lemma nextSlot_range w : 0 < buckets w -> 0 <= nextSlotLocked w < buckets w.
Proof. intros. apply Z.mod_pos_bound. done. Qed.

Lemma nextSlot_alt w : 0 < buckets w -> nextSlotLocked w = (cursor w + 1) mod buckets w.
Proof. intros. unfold nextSlotLocked. by rewrite Z.add_mod_idemp_l by lia. Qed.

Lemma link_slot_range w d : 0 < buckets w -> 0 <= link_slot w d < buckets w.
Proof. intros. unfold link_slot. case_match; [by apply nextSlot_range|apply Z.mod_pos_bound; done]. Qed.

Lemma wheel_ok_buckets w m P : wheel_ok w m P -> 0 < buckets w < 2 ^ 31.
Proof. intros H. destruct (wo_ring _ _ _ H) as (L & R & _). by apply R. Qed.

Lemma face_bucket (m m' : mem) x : face <$> m' !! x = face <$> m !! x -> bucket <$> m' !! x = bucket <$> m !! x.
Proof. unfold face. destruct (m !! x), (m' !! x); simpl; intros; simplify_eq; congruence. Qed.

Lemma core_face (m m' : mem) x : core <$> m' !! x = core <$> m !! x -> face <$> m' !! x = face <$> m !! x.
Proof. unfold face, core. destruct (m !! x), (m' !! x); simpl; intros; simplify_eq; congruence. Qed.

Lemma heap_only_face m m' x : heap_only m m' -> face <$> m' !! x = face <$> m !! x.
Proof. intros H. specialize (H x). unfold face. destruct (m !! x) as [[]|], (m' !! x) as [[]|]; simplify_eq/=; done. Qed.

Lemma overflow_small w m P x e :
  wheel_ok w m P -> m !! x = Some e -> x ∉ overflow w -> Z.of_nat (length (overflow w)) + 1 < 2 ^ 31.
Proof.
  intros H He Hx. pose proof (wo_small _ _ _ H). pose proof (placed_nodup _ _ (ho_placed _ _ (wo_heap _ _ _ H))) as Hnd.
  assert (NoDup (x :: overflow w)) as Hnd' by (by apply NoDup_cons).
  assert (list_to_set (x :: overflow w) ⊆ dom m) as Hsub.
  { intros y Hy. apply elem_of_list_to_set, elem_of_cons in Hy as [->|Hy]; apply elem_of_dom; [eauto|].
    apply (wo_over _ _ _ H) in Hy. destruct (m !! y); [eauto|done]. }
  apply subseteq_size in Hsub. rewrite size_list_to_set, size_dom in Hsub by done. simpl in Hsub. lia.
Qed.

Lemma same_dom_size (m m' : mem) : (forall y, is_Some (m' !! y) <-> is_Some (m !! y)) -> size m' = size m.
Proof. intros H. rewrite <- !size_dom. f_equal. apply set_eq. intros y. rewrite !elem_of_dom. apply H. Qed.

Lemma fmap_is_Some_iff {A B} (f g : A -> B) (o o' : option A) : f <$> o' = g <$> o -> is_Some o' <-> is_Some o.
Proof. destruct o, o'; simpl; intros; split; intros [? ?]; eauto; congruence. Qed.

Lemma heap_ok_frame ov m m' :
  (forall y, y ∈ ov -> When <$> m' !! y = When <$> m !! y /\ heap <$> m' !! y = heap <$> m !! y) -> heap_ok ov m -> heap_ok ov m'.
Proof.
  intros Hf [H1 H2 H3]. split; [| |done].
  - intros i x Hi. destruct (H1 i x Hi) as (e & He & Hh). destruct (Hf x) as [_ Hf']; [by eapply list_elem_of_lookup_2|].
    rewrite He in Hf'. destruct (m' !! x) as [e'|]; [|done]. simpl in Hf'. injection Hf' as Hf'. exists e'. split; [done|lia].
  - apply (ordered_ext _ (key m ov)); [|done]. intros k Hk. unfold key, deadline. f_equal.
    destruct (lookup_lt_is_Some_2 ov k Hk) as [x Hx]. rewrite (list_lookup_total_correct _ _ _ Hx). apply Hf. by eapply list_elem_of_lookup_2.
Qed.

Lemma core_when_heap (m m' : mem) y : core <$> m' !! y = core <$> m !! y ->
  When <$> m' !! y = When <$> m !! y /\ heap <$> m' !! y = heap <$> m !! y.
Proof. unfold core. destruct (m !! y), (m' !! y); simpl; intros; simplify_eq; split; congruence. Qed.

Lemma pending_bucket w m P x e : wheel_ok w m P -> m !! x = Some e -> bucket e = notInWheel -> x ∉ P.
Proof. intros H He Hb HP. destruct (wo_pend _ _ _ H x HP) as (s & Hs & E). rewrite He in E. simpl in E. injection E. unfold notInWheel in *. lia. Qed.

Section link.
Context (w : Wheel) (m : mem) (P : list nat) (x : nat) (e : Entry).
Hypothesis Hok : wheel_ok w m P.
Hypothesis He : m !! x = Some e.
Hypothesis Hfree : bucket e = notInWheel.

(** Linking within the window: the entry heads the slot its deadline picks. *)
Lemma linkLocked_near :
  tickOf w (When e) - cursor w <= buckets w ->
  exists r sm m', linkLocked x w m = Ret (with_ring r sm w, m') /\ wheel_ok (with_ring r sm w) m' P /\
    (forall y, y <> x -> face <$> m' !! y = face <$> m !! y) /\
    face <$> m' !! x = Some (link_slot w (When e) + 1, When e, Period e) /\
    (forall y, y <> x -> y ∈ P -> m' !! y = m !! y).
Proof.
  intros Hnear. pose proof (wheel_ok_buckets _ _ _ Hok) as Hn. destruct (wo_ring _ _ _ Hok) as (L & R & HL).
  pose proof (link_slot_range w (When e) ltac:(lia)) as Hs. set (s := link_slot w (When e)) in *.
  assert (forall t, 0 <= t < buckets w -> x ∉ L t) as Hx.
  { intros t Ht Hxt. apply HL in Hxt as [E _]; [|done]. rewrite He in E. injection E. rewrite Hfree. unfold notInWheel. lia. }
  destruct (slot_push_spec _ _ _ _ _ x s e R Hs He Hx) as (r & sm & m' & E & R' & Hcore & Hcx & Hfr).
  assert (forall y, When <$> m' !! y = When <$> m !! y /\ heap <$> m' !! y = heap <$> m !! y) as Hwh.
  { intros y. destruct (decide (y = x)) as [->|Hy]; [|apply core_when_heap; auto].
    destruct (m' !! x) as [e'|]; [|done]. rewrite He. unfold core in Hcx. simpl in *. injection Hcx as ? ? ? ?. split; congruence. }
  assert (bucket <$> m' !! x = Some (s + 1)) as Hbx
    by (destruct (m' !! x) as [e'|]; [|done]; unfold core in Hcx; simpl in *; congruence).
  assert (x ∉ P) as HxP by (by eapply pending_bucket).
  exists r, sm, m'. split; [|split; [|split; [|split]]].
  - unfold linkLocked, load. rewrite He. cbn [mbind outcome_bind]. destruct (Z.ltb_spec (buckets w) (tickOf w (When e) - cursor w)); [lia|].
    fold (link_slot w (When e)). fold s. rewrite E. done.
  - split; simpl; try apply Hok.
    + rewrite (same_dom_size m); [apply Hok|]. intros y. exact (fmap_is_Some_iff _ _ _ _ (proj1 (Hwh y))).
    + exists (upd L s (x :: L s)). split; [done|]. intros t y Ht. destruct (decide (y = x)) as [->|Hy].
      * rewrite Hbx. destruct (decide (t = s)) as [->|Hts]; [rewrite upd_same; set_solver|]. rewrite upd_other by done.
        split; [intros Hxt; by apply Hx in Hxt|]. intros [E1 _]. injection E1. lia.
      * rewrite (core_bucket m m') by auto. rewrite <- HL by done.
        destruct (decide (t = s)) as [->|Hts]; [rewrite upd_same; set_solver|]. by rewrite upd_other.
    + eapply heap_ok_frame; [|apply Hok]. auto.
    + intros y. destruct (decide (y = x)) as [->|Hy].
      * rewrite Hbx, (wo_over _ _ _ Hok), He. simpl. rewrite Hfree. unfold notInWheel, inOverflow. split; intros E1; injection E1; lia.
      * rewrite (core_bucket m m') by auto. apply Hok.
    + intros y ey Hey. destruct (decide (y = x)) as [->|Hy].
      * rewrite Hey in Hbx. injection Hbx as ->. right. right. lia.
      * pose proof (core_bucket m m' y ltac:(auto)) as Eb. rewrite Hey in Eb. destruct (m !! y) as [ey'|] eqn:Ey; [|done].
        injection Eb as ->. by eapply wo_range.
    + intros y HyP. destruct (wo_pend _ _ _ Hok y HyP) as (t & Ht & Hb). exists t. split; [done|].
      rewrite (core_bucket m m'); [done|]. apply Hcore. by intros ->.
  - intros y Hy. apply core_face. auto.
  - destruct (m' !! x) as [e'|]; [|done]. unfold core, face in *. simpl in *. congruence.
  - intros y Hy HyP. apply Hfr; [done|]. intros HyL. apply HL in HyL as [_ ?]; done.
Qed.

(** Past the window it goes to the overflow heap. *)
Lemma linkLocked_far :
  buckets w < tickOf w (When e) - cursor w ->
  exists ov m', linkLocked x w m = Ret (with_overflow ov w, m') /\ wheel_ok (with_overflow ov w) m' P /\
    (forall y, y <> x -> face <$> m' !! y = face <$> m !! y) /\
    face <$> m' !! x = Some (inOverflow, When e, Period e) /\ (forall y, y ∈ ov <-> y = x \/ y ∈ overflow w) /\
    (forall y, y <> x -> y ∈ P -> m' !! y = m !! y).
Proof.
  intros Hfar. set (e1 := MkEntry None None inOverflow (When e) (Period e) (heap e)). set (m1 := <[x := e1]> m).
  assert (forall y, y <> x -> m1 !! y = m !! y) as Hm1 by (intros; unfold m1; by rewrite lookup_insert_ne).
  assert (m1 !! x = Some e1) as Hm1x by (unfold m1; rewrite lookup_insert; by destruct (decide (x = x))).
  assert (x ∉ overflow w) as Hxo.
  { rewrite (wo_over _ _ _ Hok), He. simpl. rewrite Hfree. unfold notInWheel, inOverflow. intros E. injection E. lia. }
  assert (heap_ok (overflow w) m1) as Hh.
  { eapply heap_ok_frame; [|apply Hok]. intros y Hy. rewrite Hm1 by (intros ->; done). done. }
  assert (x ∉ P) as HxP by (by eapply pending_bucket).
  destruct (heapPushLocked_spec x e1 (overflow w) m1 Hh) as (ov & m' & E & Hh' & Honly & Hel & Hfr); [by eapply overflow_small|done..|].
  assert (forall y, y <> x -> face <$> m' !! y = face <$> m !! y) as Hface.
  { intros y Hy. rewrite (heap_only_face m1) by done. by rewrite Hm1. }
  assert (face <$> m' !! x = Some (inOverflow, When e, Period e)) as Hfx by (by rewrite (heap_only_face m1), Hm1x by done).
  assert (bucket <$> m' !! x = Some inOverflow) as Hbx
    by (destruct (m' !! x) as [e'|]; [|done]; unfold face in Hfx; simpl in *; congruence).
  pose proof (wheel_ok_buckets _ _ _ Hok) as Hn.
  exists ov, m'. split; [|split; [|split; [done|split; [done|split; [done|]]]]].
  - unfold linkLocked, load. rewrite He. cbn [mbind outcome_bind]. destruct (Z.ltb_spec (buckets w) (tickOf w (When e) - cursor w)); [|lia].
    rewrite (modify_spec _ _ _ _ He). cbn [mbind outcome_bind]. unfold set_next, set_prev, set_bucket. simpl. fold e1 m1. by rewrite E.
  - split; simpl; try apply Hok; try done.
    + rewrite (same_dom_size m); [apply Hok|]. intros y. destruct (decide (y = x)) as [->|Hy]; [|exact (fmap_is_Some_iff _ _ _ _ (Hface y Hy))].
      rewrite He. destruct (m' !! x); [|done]. split; eauto.
    + destruct (wo_ring _ _ _ Hok) as (L & R & HL). exists L. split.
      * eapply ring_rep_frame; [|exact R]. intros s y Hs Hy. apply HL in Hy as [Hb _]; [|done].
        assert (y <> x) as Hyx by (intros ->; rewrite He in Hb; injection Hb; rewrite Hfree; unfold notInWheel; lia).
        assert (y ∉ overflow w) as Hyo by (rewrite (wo_over _ _ _ Hok), Hb; unfold inOverflow; intros E1; injection E1; lia).
        rewrite Hfr, Hm1 by done. done.
      * intros s y Hs. rewrite HL by done. destruct (decide (y = x)) as [->|Hy]; [|by rewrite (face_bucket m m') by auto].
        rewrite Hbx, He. simpl. rewrite Hfree. unfold notInWheel, inOverflow. split; intros [E1 _]; injection E1; lia.
    + intros y. rewrite Hel. destruct (decide (y = x)) as [->|Hy]; [rewrite Hbx; naive_solver|].
      rewrite (wo_over _ _ _ Hok), (face_bucket m m') by auto. naive_solver.
    + intros y ey Hey. destruct (decide (y = x)) as [->|Hy]; [rewrite Hey in Hbx; injection Hbx; auto|].
      pose proof (face_bucket m m' y ltac:(auto)) as Eb. rewrite Hey in Eb. destruct (m !! y) as [ey'|] eqn:Ey; [|done].
      injection Eb as ->. by eapply wo_range.
    + intros y HyP. destruct (wo_pend _ _ _ Hok y HyP) as (t & Ht & Hb). exists t. split; [done|].
      rewrite (face_bucket m m'); [done|]. apply Hface. by intros ->.
  - intros y Hy HyP. rewrite Hfr, Hm1; [done|done| |done]. intros Hyo. apply (wo_over _ _ _ Hok) in Hyo.
    destruct (wo_pend _ _ _ Hok y HyP) as (t & Ht & Hb). rewrite Hb in Hyo. injection Hyo. unfold inOverflow. lia.
Qed.
End link.

(** ** Detaching *)

(** Two wheels that differ in what they hold only. *)
Record same_clock (w w' : Wheel) : Prop := {
  sc_tick : tick w' = tick w; sc_buckets : buckets w' = buckets w; sc_cursor : cursor w' = cursor w;
  sc_earliest : earliest w' = earliest w; sc_arm : arm w' = arm w; sc_heard : heard w' = heard w }.

#[export] Instance same_clock_equiv : Equivalence same_clock.
Proof. split; [done|by intros ? ? []|]. intros w1 w2 w3 [] []. split; congruence. Qed.

(** An entry that leaves ring and heap: the rest of the store keeps its face. *)
Record left_out (x : nat) (e : Entry) (m m' : mem) : Prop := {
  lo_other : forall y, y <> x -> face <$> m' !! y = face <$> m !! y;
  lo_self : face <$> m' !! x = Some (notInWheel, When e, Period e) }.

Lemma clear_bucket m x e :
  m !! x = Some e -> exists m', modify x (set_bucket notInWheel) m = Ret m' /\
    (forall y, y <> x -> m' !! y = m !! y) /\ m' !! x = Some (set_bucket notInWheel e).
Proof.
  intros He. rewrite (modify_spec _ _ _ _ He). eexists. split; [done|]. split; [intros; by rewrite lookup_insert_ne|].
  rewrite lookup_insert. by destruct (decide (x = x)).
Qed.

Lemma left_out_some m m' x e : m !! x = Some e -> left_out x e m m' -> forall y, is_Some (m' !! y) <-> is_Some (m !! y).
Proof.
  intros He [Ho Hs] y. destruct (decide (y = x)) as [->|Hy]; [|exact (fmap_is_Some_iff _ _ _ _ (Ho y Hy))].
  rewrite He. destruct (m' !! x); [|done]. split; eauto.
Qed.

Lemma left_out_ok w w' m m' x e :
  wheel_ok w m [] -> m !! x = Some e -> left_out x e m m' -> same_clock w w' ->
  (exists L, ring_rep (buckets w) (ring w') (summary w') m' L /\
     forall s y, 0 <= s < buckets w -> y ∈ L s <-> bucket <$> m' !! y = Some (s + 1)) ->
  heap_ok (overflow w') m' -> (forall y, y ∈ overflow w' <-> y ∈ overflow w /\ y <> x) -> wheel_ok w' m' [].
Proof.
  intros Hok He Hl [E1 E2 E3 _ _ _] (L & R & HL) Hh Hov. pose proof (left_out_some _ _ _ _ He Hl) as Hdom. destruct Hl as [Ho Hs].
  assert (bucket <$> m' !! x = Some notInWheel) as Hbx by (destruct (m' !! x) as [e'|]; [|done]; unfold face in Hs; simpl in *; congruence).
  split; rewrite ?E1, ?E2, ?E3; try apply Hok; try done.
  - rewrite (same_dom_size m) by done. apply Hok.
  - exists L. split; [done|]. intros s y Hs'. rewrite HL by done. set_solver.
  - intros y. rewrite Hov, (wo_over _ _ _ Hok). destruct (decide (y = x)) as [->|Hy].
    + rewrite Hbx. split; [naive_solver|]. intros E. injection E. unfold notInWheel, inOverflow. lia.
    + rewrite (face_bucket m m') by auto. naive_solver.
  - intros y ey Hey. destruct (decide (y = x)) as [->|Hy]; [rewrite Hey in Hbx; injection Hbx; auto|].
    pose proof (face_bucket m m' y ltac:(auto)) as Eb. rewrite Hey in Eb. destruct (m !! y) as [ey'|] eqn:Ey; [|done].
    injection Eb as ->. by eapply wo_range.
  - set_solver.
Qed.

Lemma wheel_ok_count w m P c : wheel_ok w m P -> wheel_ok (with_count c w) m P.
Proof. intros H. split; apply H. Qed.

Section detach.
Context (w : Wheel) (m : mem) (x : nat) (e : Entry).
Hypothesis Hok : wheel_ok w m [].
Hypothesis He : m !! x = Some e.

(** Out of the heap by whichever way, then marked as free. *)
Lemma overflow_removed ov m1 :
  bucket e = inOverflow -> heap_ok ov m1 -> heap_only m m1 -> (forall y, y ∈ ov <-> y ∈ overflow w /\ y <> x) ->
  (forall y, y ∉ overflow w -> m1 !! y = m !! y) ->
  exists m', modify x (set_bucket notInWheel) m1 = Ret m' /\ wheel_ok (with_overflow ov w) m' [] /\ left_out x e m m'.
Proof.
  intros Hb Hh Honly Hel Hfr.
  destruct (heap_only_lookup _ _ _ _ Honly He) as (v & He1). destruct (clear_bucket m1 x _ He1) as (m' & E' & Hm' & Hmx).
  assert (left_out x e m m') as Hl.
  { split; [intros y Hy; rewrite Hm' by done; by apply heap_only_face|]. by rewrite Hmx. }
  exists m'. split; [done|]. split; [|done]. eapply left_out_ok; try done; simpl.
  - destruct (wo_ring _ _ _ Hok) as (L & R & HL). exists L.
    assert (forall s y, 0 <= s < buckets w -> y ∈ L s -> y <> x /\ y ∉ overflow w) as Hout.
    { intros s y Hs Hy. apply HL in Hy as [Hby _]; [|done]. split.
      - intros ->. rewrite He in Hby. injection Hby. rewrite Hb. unfold inOverflow. lia.
      - rewrite (wo_over _ _ _ Hok), Hby. intros E1. injection E1. unfold inOverflow. lia. }
    split.
    + eapply ring_rep_frame; [|exact R]. intros s y Hs Hy. destruct (Hout s y Hs Hy) as [Hyx Hyo]. by rewrite Hm', Hfr.
    + intros s y Hs. rewrite HL by done. destruct (decide (y = x)) as [->|Hy].
      * rewrite He, Hmx. simpl. rewrite Hb. unfold notInWheel, inOverflow. split; [intros [E1 _]|intros E1]; injection E1; lia.
      * rewrite <- (face_bucket m m') by (by apply Hl). set_solver.
  - eapply heap_ok_frame; [|exact Hh]. intros y Hy. apply Hel in Hy as [_ Hy]. by rewrite Hm'.
Qed.

Lemma detach_overflow :
  bucket e = inOverflow ->
  exists ov m', detachLocked x w m = Ret (with_count (count w - 1) (with_overflow ov w), m') /\
    wheel_ok (with_count (count w - 1) (with_overflow ov w)) m' [] /\ left_out x e m m'.
Proof.
  intros Hb. assert (x ∈ overflow w) as Hx by (apply (wo_over _ _ _ Hok); rewrite He; simpl; by rewrite Hb).
  destruct (heapRemoveLocked_spec x (overflow w) m (wo_heap _ _ _ Hok) Hx) as (ov & m1 & E & Hh & Honly & Hel & Hfr).
  destruct (overflow_removed ov m1 Hb Hh Honly Hel Hfr) as (m' & E' & Hok' & Hl).
  exists ov, m'. split; [|split; [by apply wheel_ok_count|done]].
  unfold detachLocked, load. rewrite He. cbn [mbind outcome_bind]. rewrite Hb, E. simpl. cbn [mbind outcome_bind]. by rewrite E'.
Qed.

Lemma detach_ring :
  bucket e <> notInWheel -> bucket e <> inOverflow ->
  exists r sm m', detachLocked x w m = Ret (with_count (count w - 1) (with_ring r sm w), m') /\
    wheel_ok (with_count (count w - 1) (with_ring r sm w)) m' [] /\ left_out x e m m'.
Proof.
  intros Hb0 Hb1. destruct (wo_range _ _ _ Hok x e He) as [?|[?|Hb]]; [done..|]. destruct (wo_ring _ _ _ Hok) as (L & R & HL).
  set (s := bucket e - 1). assert (0 <= s < buckets w) as Hs by (unfold s; lia).
  assert (x ∈ L s) as Hx by (apply HL; [done|]; rewrite He; simpl; split; [f_equal; unfold s; lia|set_solver]).
  destruct (unlinkLocked_spec _ _ _ _ _ _ _ R Hs Hx) as (r & sm & m1 & l1 & l2 & E & EL & R' & Hcore & Hfr).
  pose proof (Hcore x) as Hcx. rewrite He in Hcx. destruct (m1 !! x) as [e1|] eqn:He1; [|done].
  destruct (clear_bucket m1 x _ He1) as (m' & E' & Hm' & Hmx). pose proof (rr_nodup _ _ _ _ _ R s Hs) as Hnd. rewrite EL in Hnd.
  apply NoDup_app_remove in Hnd as [_ Hx'].
  assert (left_out x e m m') as Hl.
  { split; [intros y Hy; rewrite Hm' by done; by apply core_face|]. rewrite Hmx. unfold core, face in *. simpl in *. congruence. }
  assert (forall t y, 0 <= t < buckets w -> y ∈ upd L s (l1 ++ l2) t <-> y ∈ L t /\ y <> x) as Hupd.
  { intros t y Ht. destruct (decide (t = s)) as [->|Hts]; [rewrite upd_same, EL; set_solver|]. rewrite upd_other by done.
    split; [|naive_solver]. intros Hy. split; [done|]. intros ->. apply Hts. by apply (ring_rep_disjoint _ _ _ _ _ t s x R). }
  exists r, sm, m'. split; [|split; [|done]].
  - unfold detachLocked, load. rewrite He. cbn [mbind outcome_bind].
    destruct (Z.eqb_spec (bucket e) notInWheel); [done|]. destruct (Z.eqb_spec (bucket e) inOverflow); [done|].
    rewrite E. cbn [mbind outcome_bind]. by rewrite E'.
  - assert (x ∉ overflow w) as Hxo by (rewrite (wo_over _ _ _ Hok), He; simpl; congruence).
    eapply left_out_ok; try done; simpl.
    + exists (upd L s (l1 ++ l2)). split.
      * eapply ring_rep_frame; [|exact R']. intros t y Ht Hy. apply Hupd in Hy as [_ Hy]; [|done]. by rewrite Hm'.
      * intros t y Ht. rewrite Hupd, HL by done. destruct (decide (y = x)) as [->|Hy].
        -- rewrite Hmx. simpl. split; [naive_solver|]. unfold notInWheel. intros E1. injection E1. lia.
        -- rewrite (face_bucket m m') by (by apply Hl). set_solver.
    + eapply heap_ok_frame; [|apply Hok]. intros y Hy. rewrite Hm' by (by intros ->). by apply core_when_heap.
    + intros y. split; [|naive_solver]. intros Hy. split; [done|]. by intros ->.
Qed.

Lemma detachLocked_spec :
  exists w' m', detachLocked x w m = Ret (w', m') /\ wheel_ok w' m' [] /\ same_clock w w' /\ left_out x e m m' /\
    count w' = count w - (if bucket e =? notInWheel then 0 else 1).
Proof.
  destruct (Z.eqb_spec (bucket e) notInWheel) as [Hb|Hb].
  - exists w, m. unfold detachLocked, load. rewrite He. cbn [mbind outcome_bind]. rewrite Hb. simpl.
    split; [done|]. split; [done|]. split; [done|]. split; [|lia]. split; [done|]. rewrite He. unfold face. simpl. by rewrite Hb.
  - destruct (decide (bucket e = inOverflow)) as [Hb'|Hb'].
    + destruct (detach_overflow Hb') as (ov & m' & E & Hok' & Hl). do 2 eexists. split; [exact E|]. split; [exact Hok'|]. split; [by split|done].
    + destruct (detach_ring Hb Hb') as (r & sm & m' & E & Hok' & Hl). do 2 eexists. split; [exact E|]. split; [exact Hok'|]. split; [by split|done].
Qed.
End detach.

(** ** What is armed, and when it is due *)

(** The deadlines the wheel holds. *)
Definition armed (m : mem) : gmap nat (Z * Z) :=
  omap (fun e => if bucket e =? notInWheel then None else Some (When e, Period e)) m.

Lemma lookup_armed m x d p :
  armed m !! x = Some (d, p) <-> exists e, m !! x = Some e /\ bucket e <> notInWheel /\ When e = d /\ Period e = p.
Proof.
  unfold armed. rewrite lookup_omap. destruct (m !! x) as [e|]; simpl; [|naive_solver].
  destruct (Z.eqb_spec (bucket e) notInWheel); naive_solver.
Qed.

Lemma armed_face m m' x : face <$> m' !! x = face <$> m !! x -> armed m' !! x = armed m !! x.
Proof.
  unfold armed, face. rewrite !lookup_omap. destruct (m !! x), (m' !! x); simpl; intros E; simplify_eq; [|done]. by rewrite H, H0, H1.
Qed.

Lemma armed_none m x : bucket <$> m !! x = Some notInWheel -> armed m !! x = None.
Proof. unfold armed. rewrite lookup_omap. destruct (m !! x) as [e|]; simpl; [|done]. intros E. injection E as ->. done. Qed.

Definition fits (w : Wheel) (s d : Z) : Prop :=
  cursor w < tickOf w d <= cursor w + buckets w /\ tickOf w d mod buckets w = s \/
  tickOf w d <= cursor w /\ s = nextSlotLocked w.

(** Every ring entry is in a slot of which [F] holds; every overflow entry is
    past a window from tick [c]. *)
Definition timely (F : Z -> Z -> Prop) (m : mem) (X : list nat) : Prop :=
  forall x e, m !! x = Some e -> 0 < bucket e -> x ∉ X -> F (bucket e - 1) (When e).
Definition far (c : Z) (w : Wheel) (m : mem) : Prop :=
  forall x e, m !! x = Some e -> bucket e = inOverflow -> c + buckets w < tickOf w (When e).

Definition earliest_ok (A : gmap nat (Z * Z)) (z : Z) : Prop :=
  A = ∅ /\ z = zeroTime \/ (exists x p, A !! x = Some (z, p)) /\ forall y d p, A !! y = Some (d, p) -> z <= d.
Definition nonzero (A : gmap nat (Z * Z)) : Prop := forall x d p, A !! x = Some (d, p) -> d <> zeroTime.

Lemma window_slot n c t : 0 < n -> c < t <= c + n -> t = c + 1 + cyc n ((c + 1) mod n) (t mod n).
Proof.
  intros Hn Ht. pose proof (Z.mod_pos_bound (c + 1) n Hn) as Hr.
  assert (t mod n = ((c + 1) mod n + (t - (c + 1))) mod n) as E
    by (rewrite Z.add_mod_idemp_l by lia; f_equal; lia).
  rewrite E. set (r := (c + 1) mod n) in *. destruct (Z_lt_le_dec (r + (t - (c + 1))) n).
  - rewrite Z.mod_small by lia. clear E. cyclic.
  - replace (r + (t - (c + 1))) with ((r + (t - (c + 1)) - n) + 1 * n) by lia. rewrite Z.mod_add, Z.mod_small by lia. clear E. cyclic.
Qed.

(** Slots come in deadline order, scanned from behind the cursor. *)
Lemma fits_order w s s' d d' :
  0 < tick w -> 0 < buckets w -> 0 <= s < buckets w -> fits w s d -> fits w s' d' ->
  cyc (buckets w) (nextSlotLocked w) s < cyc (buckets w) (nextSlotLocked w) s' -> d < d'.
Proof.
  intros Ht Hn Hs Hd Hd' Hlt. destruct (Z_lt_le_dec d d') as [|Hle]; [done|]. exfalso.
  pose proof (tickOf_mono w d' d Ht Hle). pose proof (nextSlot_range w Hn). rewrite (nextSlot_alt w) in * by done.
  assert (0 <= cyc (buckets w) ((cursor w + 1) mod buckets w) s) by cyclic.
  destruct Hd' as [[Hd1 Hd2]|[Hd1 Hd2]].
  - pose proof (window_slot _ _ _ Hn Hd1) as E'. rewrite Hd2 in E'. destruct Hd as [[Hc1 Hc2]|[Hc1 Hc2]]; [|lia].
    pose proof (window_slot _ _ _ Hn Hc1) as E. rewrite Hc2 in E. lia.
  - rewrite (nextSlot_alt w) in Hd2 by done. rewrite Hd2 in Hlt. unfold cyc in Hlt at 2. rewrite Z.leb_refl in Hlt. lia.
Qed.

Lemma earliest_in_spec m l : forall fuel p hd acc,
  dchain m p hd l -> (length l <= fuel)%nat -> (forall x, x ∈ l -> deadline m x <> zeroTime) ->
  exists z, earliest_in fuel hd acc m = Ret z /\ (z = acc \/ exists x, x ∈ l /\ z = deadline m x) /\
    (forall x, x ∈ l -> z <= deadline m x) /\ (acc <> zeroTime -> z <= acc) /\ (z = zeroTime -> acc = zeroTime /\ l = []).
Proof.
  induction l as [|x l IH]; intros fuel p hd acc Hc Hf Hnz; simpl in Hc.
  - subst. exists acc. destruct fuel; simpl; (split; [done|]); (split; [by left|]); (split; [set_solver|]); split; naive_solver lia.
  - destruct Hc as (-> & e & He & _ & Hc). simpl in Hf. destruct fuel as [|fuel]; [lia|]. cbn [earliest_in]. unfold load. rewrite He.
    cbn [mbind outcome_bind]. assert (deadline m x = When e) as Hd by (unfold deadline; by rewrite He).
    assert (When e <> zeroTime) as Hnx by (rewrite <- Hd; apply Hnz; set_solver).
    set (acc' := if IsZero acc || (When e <? acc) then When e else acc).
    assert ((acc' = acc \/ acc' = When e) /\ acc' <= When e /\ (acc <> zeroTime -> acc' <= acc) /\ acc' <> zeroTime) as (Ha & Hb & Hcc & Hz).
    { unfold acc', IsZero. destruct (Z.eqb_spec acc zeroTime); simpl; [naive_solver lia|]. destruct (Z.ltb_spec (When e) acc); naive_solver lia. }
    destruct (IH fuel (Some x) (next e) acc' Hc ltac:(lia)) as (z & Ez & H1 & H2 & H3 & H4); [set_solver|].
    exists z. split; [done|]. specialize (H3 Hz). split; [|split; [|split]].
    + destruct H1 as [->|(y & Hy & ->)]; [|right; exists y; set_solver]. destruct Ha as [->| ->]; [by left|]. right. exists x. rewrite Hd. set_solver.
    + intros y Hy. apply elem_of_cons in Hy as [->|Hy]; [lia|auto].
    + intros. specialize (Hcc ltac:(done)). lia.
    + intros ->. destruct H4 as [? _]; done.
Qed.

Lemma nodup_dom_length (m : mem) l : NoDup l -> (forall x, x ∈ l -> is_Some (m !! x)) -> (length l <= size m)%nat.
Proof.
  intros Hnd Hin. assert (list_to_set l ⊆ dom m) as Hs by (intros x; rewrite elem_of_list_to_set, elem_of_dom; auto).
  apply subseteq_size in Hs. by rewrite size_list_to_set, size_dom in Hs.
Qed.

Lemma slot_view w m s :
  wheel_ok w m [] -> 0 <= s < buckets w ->
  exists hd l, index (ring w) s = Ret hd /\ dchain m None hd l /\ NoDup l /\ (length l <= size m)%nat /\
    (forall x, x ∈ l <-> bucket <$> m !! x = Some (s + 1)) /\ sbit (summary w) s = occupied l.
Proof.
  intros Hok Hs. destruct (wo_ring _ _ _ Hok) as (L & R & HL). destruct (rr_chain _ _ _ _ _ R s Hs) as (hd & Hhd & Hc).
  pose proof (rr_nodup _ _ _ _ _ R s Hs). exists hd, (L s). split; [apply index_slot; [lia|done]|]. split; [done|]. split; [done|].
  split; [apply nodup_dom_length; [done|]; intros; by eapply dchain_is_Some|].
  split; [|by eapply rr_bit]. intros x. rewrite HL by done. set_solver.
Qed.

Lemma overflow_top w m x ov y :
  wheel_ok w m [] -> overflow w = x :: ov -> y ∈ overflow w -> deadline m x <= deadline m y.
Proof.
  intros Hok E Hy. pose proof (wo_heap _ _ _ Hok) as [_ Hord _]. apply list_elem_of_lookup in Hy as [j Hj].
  pose proof (ordered_top _ _ j Hord (lookup_lt_Some _ _ _ Hj)) as H. unfold key in H.
  rewrite (list_lookup_total_correct _ _ _ Hj) in H. by rewrite E in H.
Qed.

Lemma armed_deadline m x d p : armed m !! x = Some (d, p) -> deadline m x = d.
Proof. intros H. apply lookup_armed in H as (e & He & _ & Hw & _). unfold deadline. by rewrite He. Qed.

Section rearm.
Context (w : Wheel) (m : mem).
Hypothesis Hok : wheel_ok w m [].
Hypothesis Htime : timely (fits w) m [].
Hypothesis Hnz : nonzero (armed m).

Lemma held_nonzero x b : bucket <$> m !! x = Some b -> b <> notInWheel -> deadline m x <> zeroTime /\ is_Some (armed m !! x).
Proof.
  intros Hb Hne. destruct (m !! x) as [e|] eqn:He; [|done]. injection Hb as Hb.
  assert (armed m !! x = Some (When e, Period e)) as Ha by (apply lookup_armed; exists e; split; [done|]; split; [congruence|done]).
  split; [|eauto]. rewrite (armed_deadline _ _ _ _ Ha). by eapply Hnz.
Qed.

(** Where an armed entry is. *)
Lemma armed_where x d p : armed m !! x = Some (d, p) ->
  deadline m x = d /\ (x ∈ overflow w \/ exists s, 0 <= s < buckets w /\ bucket <$> m !! x = Some (s + 1) /\ fits w s d).
Proof.
  intros Ha. split; [by eapply armed_deadline|]. apply lookup_armed in Ha as (e & He & Hb & Hw & _).
  destruct (wo_range _ _ _ Hok x e He) as [?|[Hb'|Hb']]; [done| |].
  - left. apply (wo_over _ _ _ Hok). rewrite He. simpl. by rewrite Hb'.
  - right. exists (bucket e - 1). split; [lia|]. rewrite He. simpl. split; [f_equal; lia|]. rewrite <- Hw. apply (Htime x); [done|lia|set_solver].
Qed.

Lemma overflow_first :
  exists acc, match overflow w with [] => Ret zeroTime | top :: _ => e ← load top m; Ret (When e) end = Ret acc /\
    (overflow w = [] /\ acc = zeroTime \/ acc <> zeroTime /\ (exists x, is_Some (armed m !! x) /\ deadline m x = acc) /\
       forall y, y ∈ overflow w -> acc <= deadline m y).
Proof.
  destruct (overflow w) as [|x ov] eqn:Eo; [eauto|]. assert (x ∈ overflow w) as Hx by (rewrite Eo; set_solver).
  apply (wo_over _ _ _ Hok) in Hx. destruct (held_nonzero _ _ Hx) as [Hn Ha]; [done|].
  exists (deadline m x). split.
  - unfold load, deadline. destruct (m !! x); [done|]. done.
  - right. split; [done|]. split; [eauto|]. intros y Hy. eapply overflow_top; [done|done|by rewrite Eo].
Qed.

Lemma rearmEarliestLocked_spec :
  count w = Z.of_nat (size (armed m)) ->
  exists z, rearmEarliestLocked w m = Ret (with_earliest z w) /\ earliest_ok (armed m) z.
Proof.
  intros Hcount. pose proof (wheel_ok_buckets _ _ _ Hok) as Hn. unfold rearmEarliestLocked.
  destruct (Z.eqb_spec (count w) 0) as [E0|E0].
  { eexists. split; [done|]. left. split; [|done]. apply map_size_empty_iff. lia. }
  destruct overflow_first as (acc & -> & Hacc). cbn [mbind outcome_bind].
  destruct (wo_ring _ _ _ Hok) as (L & R & HL). pose proof (nextSlot_range w ltac:(lia)) as Hns.
  destruct (first_occupied_spec _ _ _ (rr_summary _ _ _ _ _ R) Hns) as (r & Er & Hr). unfold firstOccupiedLocked. rewrite Er.
  cbn [mbind outcome_bind]. assert (exists x d p, armed m !! x = Some (d, p)) as (x0 & d0 & p0 & Hx0).
  { destruct (map_choose (armed m)) as (x & [d p] & Hx); [|eauto]. intros E. rewrite E, map_size_empty in Hcount. lia. }
  assert (forall z, (exists x, is_Some (armed m !! x) /\ deadline m x = z) -> (forall y d p, armed m !! y = Some (d, p) -> z <= d) ->
    earliest_ok (armed m) z) as Hdone.
  { intros z (x & [[d p] Hx] & Hz) Hmin. right. split; [|done]. rewrite (armed_deadline _ _ _ _ Hx) in Hz. subst. eauto. }
  destruct r as [s|]; simpl in Hr.
  - destruct Hr as (Hs & Hb & Hmin). destruct (slot_view w m s Hok Hs) as (hd & l & Ei & Hc & Hnd & Hlen & Hl & Hbl).
    rewrite Ei. cbn [mbind outcome_bind]. rewrite Hb in Hbl.
    assert (forall x, x ∈ l -> deadline m x <> zeroTime /\ is_Some (armed m !! x)) as Hln
      by (intros x Hx; apply Hl in Hx; apply (held_nonzero _ _ Hx); unfold notInWheel; lia).
    destruct (earliest_in_spec m l (size m) None hd acc Hc Hlen) as (z & Ez & H1 & H2 & H3 & H4); [naive_solver|].
    rewrite Ez. cbn [mbind outcome_bind]. eexists. split; [done|]. apply Hdone.
    + destruct H1 as [->|(x & Hx & ->)]; [|exists x; naive_solver]. destruct Hacc as [[? ->]|(_ & ? & _)]; [|done].
      destruct (H4 eq_refl) as [_ ->]. done.
    + intros y d p Hy. destruct (armed_where _ _ _ Hy) as [Hd [Hyo|(t & Ht & Hbt & Hft)]].
      * destruct Hacc as [[E ?]|(Hz & _ & Hmo)]; [rewrite E in Hyo; set_solver|]. specialize (H3 Hz). specialize (Hmo y Hyo). lia.
      * destruct (decide (t = s)) as [->|Hts]; [rewrite <- Hd; apply H2; by apply Hl|].
        assert (sbit (summary w) t = true) as Hst.
        { destruct (slot_view w m t Hok Ht) as (hd' & l' & _ & _ & _ & _ & Hl' & ->). apply Hl' in Hbt. by destruct l'; [set_solver|]. }
        destruct l as [|x l]; [done|]. assert (x ∈ x :: l) as Hx by set_solver. pose proof (H2 x Hx) as Hzx. apply Hl in Hx as Hbx.
        destruct (Hln x Hx) as [_ [[dx px] Hax]]. destruct (armed_where _ _ _ Hax) as [Hdx [Hxo|(s' & Hs' & Hbs & Hfs)]].
        { apply (wo_over _ _ _ Hok) in Hxo. rewrite Hxo in Hbx. injection Hbx. unfold inOverflow. lia. }
        rewrite Hbs in Hbx. injection Hbx as Hbx. assert (s' = s) as -> by lia.
        assert (dx < d); [|lia]. eapply fits_order; [apply Hok|lia|exact Hs|done|exact Hft|]. specialize (Hmin t Ht Hst).
        clear -Hmin Hts Hs Ht Hns. cyclic.
  - cbn [mbind outcome_bind]. exists acc. split; [done|].
    assert (forall y d p, armed m !! y = Some (d, p) -> y ∈ overflow w) as Hall.
    { intros y d p Hy. destruct (armed_where _ _ _ Hy) as [Hd [Hyo|(t & Ht & Hbt & Hft)]]; [done|]. exfalso.
      destruct (slot_view w m t Hok Ht) as (hd' & l' & _ & _ & _ & _ & Hl' & Hb'). apply Hl' in Hbt. rewrite Hr in Hb' by done. by destruct l'; [set_solver|]. }
    destruct Hacc as [[E ?]|(Hz & ? & Hmo)]; [specialize (Hall _ _ _ Hx0); rewrite E in Hall; set_solver|].
    apply Hdone; [done|]. intros y d p Hy. pose proof (armed_deadline _ _ _ _ Hy). specialize (Hmo y (Hall _ _ _ Hy)). lia.
Qed.
End rearm.

(** ** The invariant between calls *)

(** [good] without what concerns the earliest deadline, which a method updates
    last. *)
Record settled (w : Wheel) (m : mem) : Prop := {
  se_ok : wheel_ok w m [];
  se_time : timely (fits w) m [];
  se_far : far (cursor w) w m;
  se_count : count w = Z.of_nat (size (armed m));
  se_nonzero : nonzero (armed m) }.

Record good (w : Wheel) (m : mem) : Prop := {
  g_settled : settled w m;
  g_earliest : earliest_ok (armed m) (earliest w);
  g_heard : arm w = true -> default zeroTime (head (heard w)) = earliest w }.

Lemma tickOf_clock w w' d : same_clock w w' -> tickOf w' d = tickOf w d.
Proof. intros []. unfold tickOf. by rewrite sc_tick0. Qed.

Lemma fits_clock w w' s d : same_clock w w' -> fits w' s d <-> fits w s d.
Proof. intros H. unfold fits. rewrite (tickOf_clock w) by done. destruct H. unfold nextSlotLocked. by rewrite sc_buckets0, sc_cursor0. Qed.

Lemma link_slot_fits w d : tickOf w d - cursor w <= buckets w -> fits w (link_slot w d) d.
Proof. intros H. unfold fits, link_slot. destruct (Z.leb_spec (tickOf w d) (cursor w)); [by right|left; lia]. Qed.

Lemma face_Some (m m' : mem) x e' : face <$> m' !! x = face <$> m !! x -> m' !! x = Some e' ->
  exists e, m !! x = Some e /\ bucket e = bucket e' /\ When e = When e' /\ Period e = Period e'.
Proof. intros E He. rewrite He in E. destruct (m !! x) as [e|]; [|done]. unfold face in E. simpl in E. exists e. split; [done|]. split; [congruence|]. split; congruence. Qed.

Lemma timely_face (F : Z -> Z -> Prop) m m' X :
  (forall y, y ∉ X -> face <$> m' !! y = face <$> m !! y) -> timely F m X -> timely F m' X.
Proof.
  intros Hf H y ey Hey Hb Hy. destruct (face_Some _ _ _ _ (Hf y Hy) Hey) as (ey' & Hey' & E1 & E2 & _).
  rewrite <- E1, <- E2. apply (H y); [done|lia|done].
Qed.

Lemma armed_insert m m' x d p b :
  (forall y, y <> x -> face <$> m' !! y = face <$> m !! y) -> face <$> m' !! x = Some (b, d, p) -> b <> notInWheel ->
  armed m' = <[x := (d, p)]> (armed m).
Proof.
  intros Hf Hx Hb. apply map_eq. intros y. destruct (decide (y = x)) as [->|Hy].
  - rewrite lookup_insert. destruct (decide (x = x)); [|done]. destruct (m' !! x) as [ex|] eqn:E; [|done]. unfold face in Hx. simpl in Hx.
    apply lookup_armed. exists ex. split; [done|]. split; [congruence|]. split; congruence.
  - rewrite lookup_insert_ne by done. by apply armed_face, Hf.
Qed.

Lemma armed_left_out x e m m' : left_out x e m m' -> armed m' = delete x (armed m).
Proof.
  intros [Hf Hx]. apply map_eq. intros y. destruct (decide (y = x)) as [->|Hy].
  - rewrite lookup_delete. destruct (decide (x = x)); [|done]. apply armed_none.
    destruct (m' !! x); [|done]. unfold face in Hx. simpl in *. congruence.
  - rewrite lookup_delete_ne by done. by apply armed_face, Hf.
Qed.

Section attach.
Context (w : Wheel) (m : mem) (x : nat) (e : Entry).
Hypothesis Hs : settled w m.
Hypothesis He : m !! x = Some e.
Hypothesis Hfree : bucket e = notInWheel.
Hypothesis Hnz : When e <> zeroTime.

Lemma free_not_armed : armed m !! x = None.
Proof. apply armed_none. rewrite He. simpl. by rewrite Hfree. Qed.

Lemma attachLocked_spec :
  exists w' m', attachLocked x w m = Ret (w', m') /\ settled w' m' /\ same_clock w w' /\
    armed m' = <[x := (When e, Period e)]> (armed m) /\ (forall y, y <> x -> face <$> m' !! y = face <$> m !! y).
Proof.
  destruct Hs as [Hok Htime Hfar Hcount Hnzs]. pose proof (wheel_ok_buckets _ _ _ Hok) as Hn.
  assert (exists w' m' b, linkLocked x w m = Ret (w', m') /\ wheel_ok w' m' [] /\ same_clock w w' /\ count w' = count w /\
    (forall y, y <> x -> face <$> m' !! y = face <$> m !! y) /\ face <$> m' !! x = Some (b, When e, Period e) /\ b <> notInWheel /\
    (0 < b -> fits w (b - 1) (When e)) /\ (b = inOverflow -> cursor w + buckets w < tickOf w (When e)))
    as (w' & m' & b & E & Hok' & Hsc & Hc' & Hf & Hfx & Hb & Hb1 & Hb2).
  { destruct (Z_lt_le_dec (buckets w) (tickOf w (When e) - cursor w)) as [Hlt|Hle].
    - destruct (linkLocked_far w m [] x e Hok He Hfree Hlt) as (ov & m' & E & Hok' & Hf & Hfx & _ & _).
      exists (with_overflow ov w), m', inOverflow. split; [done|]. split; [done|]. split; [by split|]. split; [done|].
      split; [done|]. split; [done|]. unfold inOverflow, notInWheel. split; [lia|]. split; [lia|]. lia.
    - destruct (linkLocked_near w m [] x e Hok He Hfree Hle) as (r & sm & m' & E & Hok' & Hf & Hfx & _).
      pose proof (link_slot_range w (When e) ltac:(lia)).
      exists (with_ring r sm w), m', (link_slot w (When e) + 1). split; [done|]. split; [done|]. split; [by split|]. split; [done|].
      split; [done|]. split; [done|]. unfold inOverflow, notInWheel. split; [lia|]. split; [|lia]. rewrite Z.add_simpl_r. intros _. by apply link_slot_fits. }
  pose proof (armed_insert m m' x _ _ b Hf Hfx Hb) as Ha. pose proof free_not_armed as Hnone.
  unfold attachLocked. rewrite E. cbn [mbind outcome_bind]. do 2 eexists. split; [done|].
  assert (forall y ey, m' !! y = Some ey -> y = x /\ bucket ey = b /\ When ey = When e \/
     y <> x /\ exists ey', m !! y = Some ey' /\ bucket ey' = bucket ey /\ When ey' = When ey) as Hcase.
  { intros y ey Hey. destruct (decide (y = x)) as [->|Hy].
    - left. rewrite Hey in Hfx. unfold face in Hfx. simpl in Hfx. split; [done|]. split; congruence.
    - right. destruct (face_Some _ _ _ _ (Hf y Hy) Hey) as (ey' & ? & ? & ? & _). eauto. }
  destruct Hsc as [S1 S2 S3 S4 S5 S6]. assert (same_clock w w') as Hsc by (by split).
  split; [split|split; [by split|done]].
  - split; try apply Hok'.
  - intros y ey Hey Hby _. apply (fits_clock w); [by split|]. destruct (Hcase y ey Hey) as [(-> & <- & ->)|(Hy & ey' & Hey' & <- & <-)]; [auto|].
    apply (Htime y); [done| |set_solver]. destruct (Hcase y ey Hey) as [?|(_ & e2 & He2 & ? & _)]; [naive_solver|]. simplify_eq. lia.
  - intros y ey Hey Hby. rewrite (tickOf_clock w) by (by split). simpl. rewrite S2, S3.
    destruct (Hcase y ey Hey) as [(-> & E1 & ->)|(Hy & ey' & Hey' & E1 & <-)]; [apply Hb2; congruence|]. apply (Hfar y); [done|congruence].
  - simpl. rewrite Ha, map_size_insert_None by done. lia.
  - rewrite Ha. intros y d p Hy. apply lookup_insert_Some in Hy as [[<- Hy]|[? Hy]]; [congruence|by eapply Hnzs].
Qed.
End attach.

(** ** Writes to an entry no list holds *)

Lemma insert_lookups (m : mem) x e' : (<[x := e']> m) !! x = Some e' /\ forall y, y <> x -> (<[x := e']> m) !! y = m !! y.
Proof. split; [rewrite lookup_insert; by destruct (decide (x = x))|]. intros. by rewrite lookup_insert_ne. Qed.

Lemma wheel_ok_release w m P P' x e e' :
  wheel_ok w m P -> m !! x = Some e -> (bucket e = notInWheel \/ x ∈ P) -> bucket e' = notInWheel ->
  x ∉ P' -> (forall y, y <> x -> y ∈ P' <-> y ∈ P) -> wheel_ok w (<[x := e']> m) P'.
Proof.
  intros Hok He Hx He' HxP' HP'. destruct (insert_lookups m x e') as [Hmx Hm]. set (m' := <[x := e']> m) in *.
  destruct (wo_ring _ _ _ Hok) as (L & R & HL). pose proof (wheel_ok_buckets _ _ _ Hok) as Hn.
  assert (forall s, 0 <= s < buckets w -> x ∉ L s) as HxL.
  { intros s Hs Hxs. apply HL in Hxs as [Hb Hp]; [|done]. destruct Hx as [Hx|Hx]; [|done]. rewrite He in Hb. injection Hb. rewrite Hx. unfold notInWheel. lia. }
  assert (x ∉ overflow w) as Hxo.
  { rewrite (wo_over _ _ _ Hok). intros Hb. destruct Hx as [Hx|Hx].
    - rewrite He in Hb. injection Hb. rewrite Hx. unfold notInWheel, inOverflow. lia.
    - destruct (wo_pend _ _ _ Hok x Hx) as (s & Hs & Hb'). rewrite Hb in Hb'. injection Hb'. unfold inOverflow. lia. }
  split; try apply Hok.
  - rewrite (same_dom_size m); [apply Hok|]. intros y. destruct (decide (y = x)) as [->|Hy]; [rewrite Hmx, He; split; eauto|by rewrite Hm].
  - exists L. split.
    + eapply ring_rep_frame; [|exact R]. intros s y Hs Hy. rewrite Hm; [done|]. intros ->. by apply (HxL s).
    + intros s y Hs. destruct (decide (y = x)) as [->|Hy].
      * rewrite Hmx. simpl. rewrite He'. split; [intros Hxs; by apply HxL in Hxs|]. intros [E _]. injection E. unfold notInWheel. lia.
      * rewrite Hm, HP' by done. by apply HL.
  - eapply heap_ok_frame; [|apply Hok]. intros y Hy. rewrite Hm by (by intros ->). done.
  - intros y. destruct (decide (y = x)) as [->|Hy]; [|rewrite Hm by done; apply Hok].
    rewrite Hmx. simpl. rewrite He'. split; [done|]. intros E. injection E. unfold notInWheel, inOverflow. lia.
  - intros y ey Hey. destruct (decide (y = x)) as [->|Hy]; [rewrite Hmx in Hey; injection Hey as <-; auto|].
    rewrite Hm in Hey by done. by eapply wo_range.
  - intros y Hy. assert (y <> x) by (by intros ->). rewrite Hm by done. apply Hok. by apply HP'.
Qed.

Lemma settled_release w m x e e' :
  settled w m -> m !! x = Some e -> bucket e = notInWheel -> bucket e' = notInWheel ->
  settled w (<[x := e']> m) /\ armed (<[x := e']> m) = armed m.
Proof.
  intros [Hok Htime Hfar Hcount Hnz] He Hb Hb'. destruct (insert_lookups m x e') as [Hmx Hm].
  assert (armed (<[x := e']> m) = armed m) as Ha.
  { apply map_eq. intros y. destruct (decide (y = x)) as [->|Hy]; [|apply armed_face; by rewrite Hm].
    rewrite !armed_none; [done|rewrite He; simpl; congruence|rewrite Hmx; simpl; congruence]. }
  split; [|done]. split; rewrite ?Ha; try done.
  - eapply wheel_ok_release; eauto. set_solver.
  - intros y ey Hey Hby Hy. destruct (decide (y = x)) as [->|Hne]; [rewrite Hmx in Hey; injection Hey as <-; unfold notInWheel in *; lia|].
    rewrite Hm in Hey by done. by apply (Htime y).
  - intros y ey Hey Hby. destruct (decide (y = x)) as [->|Hne]; [rewrite Hmx in Hey; injection Hey as <-; unfold notInWheel, inOverflow in *; lia|].
    rewrite Hm in Hey by done. by apply (Hfar y).
Qed.

Lemma detach_settled w m x e :
  settled w m -> m !! x = Some e ->
  exists w' m', detachLocked x w m = Ret (w', m') /\ settled w' m' /\ same_clock w w' /\ left_out x e m m'.
Proof.
  intros [Hok Htime Hfar Hcount Hnz] He. destruct (detachLocked_spec w m x e Hok He) as (w' & m' & E & Hok' & Hsc & Hl & Hc).
  exists w', m'. split; [done|]. split; [|done]. pose proof (armed_left_out _ _ _ _ Hl) as Ha.
  assert (forall y ey, m' !! y = Some ey -> bucket ey <> notInWheel ->
    exists ey', m !! y = Some ey' /\ bucket ey' = bucket ey /\ When ey' = When ey) as Hcase.
  { intros y ey Hey Hb. destruct (decide (y = x)) as [->|Hy].
    - pose proof (lo_self _ _ _ _ Hl) as Hf. rewrite Hey in Hf. unfold face in Hf. simpl in Hf. congruence.
    - destruct (face_Some _ _ _ _ (lo_other _ _ _ _ Hl y Hy) Hey) as (ey' & ? & ? & ? & _). eauto. }
  split; [done| | | |].
  - intros y ey Hey Hb Hy. destruct (Hcase y ey Hey) as (ey' & Hey' & E1 & E2); [unfold notInWheel; lia|].
    apply (fits_clock w); [done|]. rewrite <- E1, <- E2. apply (Htime y); [done|lia|done].
  - intros y ey Hey Hb. destruct (Hcase y ey Hey) as (ey' & Hey' & E1 & E2); [rewrite Hb; done|].
    rewrite (tickOf_clock w) by done. destruct Hsc as [_ -> -> _ _ _]. rewrite <- E2. apply (Hfar y); [done|congruence].
  - rewrite Ha, Hc, map_size_delete. destruct (Z.eqb_spec (bucket e) notInWheel) as [Hb|Hb].
    + rewrite armed_none by (rewrite He; simpl; by rewrite Hb). cbn. lia.
    + assert (armed m !! x = Some (When e, Period e)) as Hx by (apply lookup_armed; eauto). rewrite Hx.
      assert (size (armed m) <> 0)%nat. { intros E0. apply map_size_empty_iff in E0. by rewrite E0 in Hx. } cbn. lia.
  - rewrite Ha. intros y d p Hy. apply lookup_delete_Some in Hy as [_ Hy]. by eapply Hnz.
Qed.

Lemma settled_rearm w m :
  settled w m -> exists w', rearmEarliestLocked w m = Ret w' /\ good w' m /\ arm w' = arm w.
Proof.
  intros Hs. destruct Hs as [Hok Htime Hfar Hcount Hnz]. destruct (rearmEarliestLocked_spec w m Hok Htime Hnz Hcount) as (z & E & Hz).
  exists (with_earliest z w). split; [done|]. split; [|done]. split; [|done|].
  - split; try done. split; apply Hok.
  - simpl. by intros ->.
Qed.

(** ** Arm and Cancel *)

Lemma earliest_keep A x z :
  earliest_ok A z -> (forall d p, A !! x = Some (d, p) -> d <> z) -> earliest_ok (delete x A) z.
Proof.
  intros [[-> ->]|[(y & q & Hy) Hmin]] Hx; [left; by rewrite delete_empty|]. right. split.
  - exists y, q. rewrite lookup_delete_ne; [done|]. intros ->. by apply (Hx _ _ Hy).
  - intros k dk pk Hk. apply lookup_delete_Some in Hk as [_ Hk]. by eapply Hmin.
Qed.

Lemma good_keep w w' m m' :
  good w m -> settled w' m' -> same_clock w w' -> earliest_ok (armed m') (earliest w) -> good w' m'.
Proof.
  intros [Hs He Hh] Hs' [_ _ _ E1 E2 E3] He'. split; [done|by rewrite E1|]. rewrite E1, E2, E3. done.
Qed.

Lemma Cancel_spec w m x :
  good w m -> is_Some (m !! x) ->
  exists w' m', Cancel x w m = Ret (w', m') /\ good w' m' /\ armed m' = delete x (armed m) /\ arm w' = arm w /\
    (forall y, is_Some (m' !! y) <-> is_Some (m !! y)).
Proof.
  intros Hg [e He]. destruct (detach_settled w m x e (g_settled _ _ Hg) He) as (w1 & m1 & E & Hs1 & Hsc & Hl).
  pose proof (armed_left_out _ _ _ _ Hl) as Ha. pose proof (left_out_some _ _ _ _ He Hl) as Hdom.
  unfold Cancel, load. rewrite He. cbn [mbind outcome_bind]. rewrite E. cbn [mbind outcome_bind].
  destruct ((When e =? earliest w) && negb (bucket e =? notInWheel)) eqn:Ew.
  - destruct (settled_rearm w1 m1 Hs1) as (w2 & E2 & Hg2 & Harm). rewrite E2. cbn [mbind outcome_bind]. exists w2, m1.
    split; [done|]. split; [done|]. split; [done|]. split; [|done]. rewrite Harm. apply Hsc.
  - exists w1, m1. split; [done|]. split; [|split; [done|split; [apply Hsc|done]]]. apply (good_keep w w1 m m1 Hg Hs1 Hsc). rewrite Ha.
    apply earliest_keep; [apply Hg|]. intros d p Hx ->. apply lookup_armed in Hx as (e' & He' & Hb & Hw & _). simplify_eq.
    apply andb_false_iff in Ew as [Ew|Ew]; [apply Z.eqb_neq in Ew; done|]. apply negb_false_iff, Z.eqb_eq in Ew. done.
Qed.

Lemma Arm_spec w m x when period :
  good w m -> is_Some (m !! x) ->
  exists w' m', Arm x when period w m = Ret (w', m') /\ good w' m' /\
    armed m' = (if IsZero when then delete x (armed m) else <[x := (when, period)]> (armed m)) /\ arm w' = arm w /\
    (forall y, is_Some (m' !! y) <-> is_Some (m !! y)).
Proof.
  intros Hg Hx. unfold Arm. destruct (IsZero when) eqn:Ez; [by apply Cancel_spec|].
  unfold IsZero in Ez. apply Z.eqb_neq in Ez. destruct Hx as [e He].
  destruct (detach_settled w m x e (g_settled _ _ Hg) He) as (w1 & m1 & E & Hs1 & Hsc & Hl).
  pose proof (armed_left_out _ _ _ _ Hl) as Ha. pose proof (left_out_some _ _ _ _ He Hl) as Hdom.
  unfold load. rewrite He. cbn [mbind outcome_bind]. rewrite E. cbn [mbind outcome_bind].
  pose proof (lo_self _ _ _ _ Hl) as Hf. destruct (m1 !! x) as [e1|] eqn:He1; [|done].
  assert (bucket e1 = notInWheel) as Hb1 by (unfold face in Hf; simpl in Hf; congruence).
  rewrite (modify_spec _ _ _ _ He1). cbn [mbind outcome_bind].
  set (e2 := MkEntry (next e1) (prev e1) (bucket e1) when period (heap e1)). set (m2 := <[x := e2]> m1).
  destruct (settled_release w1 m1 x e1 e2 Hs1 He1 Hb1 Hb1) as [Hs2 Ha2]. fold m2 in Hs2, Ha2. destruct (insert_lookups m1 x e2) as [Hm2x Hm2]. fold m2 in Hm2x, Hm2.
  destruct (attachLocked_spec w1 m2 x e2 Hs2 Hm2x Hb1 Ez) as (w3 & m3 & E3 & Hs3 & Hsc3 & Ha3 & Hf3).
  rewrite E3. cbn [mbind outcome_bind]. simpl in Ha3. rewrite Ha2, Ha, insert_delete_eq in Ha3.
  assert (forall y, is_Some (m3 !! y) <-> is_Some (m !! y)) as Hdom3.
  { intros y. rewrite <- Hdom. destruct (decide (y = x)) as [->|Hy].
    - rewrite He1. assert (armed m3 !! x = Some (when, period)) as H3 by (rewrite Ha3, lookup_insert; by destruct (decide (x = x))).
      apply lookup_armed in H3 as (e3 & -> & _). split; eauto.
    - rewrite (fmap_is_Some_iff _ _ _ _ (Hf3 y Hy)). by rewrite Hm2. }
  assert (same_clock w w3) as Hsc' by (by etrans). pose proof (sc_earliest _ _ Hsc') as Ee. rewrite Ee.
  destruct (IsZero (earliest w) || (when <? earliest w) || (When e =? earliest w)) eqn:Ew.
  - destruct (settled_rearm w3 m3 Hs3) as (w4 & E4 & Hg4 & Harm). rewrite E4. cbn [mbind outcome_bind]. exists w4, m3.
    split; [done|]. split; [done|]. split; [done|]. split; [|done]. rewrite Harm. apply Hsc'.
  - exists w3, m3. split; [done|]. split; [|split; [done|split; [apply Hsc'|done]]]. apply (good_keep w w3 m m3 Hg Hs3 Hsc'). rewrite Ha3.
    apply orb_false_iff in Ew as [Ew Ew3]. apply orb_false_iff in Ew as [Ew1 Ew2]. unfold IsZero in Ew1.
    apply Z.eqb_neq in Ew1, Ew3. apply Z.ltb_ge in Ew2. destruct (g_earliest _ _ Hg) as [[_ ?]|[(y & q & Hy) Hmin]]; [done|]. right. split.
    + exists y, q. rewrite lookup_insert_ne; [done|]. intros <-. apply lookup_armed in Hy as (e' & He' & _ & Hw & _). simplify_eq.
    + intros k d p Hk. apply lookup_insert_Some in Hk as [[<- Hk]|[_ Hk]]; [simplify_eq; done|]. by eapply Hmin.
Qed.

(** ** Reporting a slot *)

(** The list a popped slot's loop follows. *)
Fixpoint nchain (m : mem) (hd : option nat) (l : list nat) : Prop :=
  match l with
  | [] => hd = None
  | x :: l => hd = Some x /\ exists e, m !! x = Some e /\ nchain m (next e) l
  end.

Lemma dchain_nchain m p hd l : dchain m p hd l -> nchain m hd l.
Proof. revert p hd. induction l as [|x l IH]; simpl; [done|]. intros p hd (-> & e & He & _ & Hc). eauto. Qed.

Lemma nchain_frame m m' hd l : (forall y, y ∈ l -> m' !! y = m !! y) -> nchain m hd l -> nchain m' hd l.
Proof.
  revert hd. induction l as [|x l IH]; simpl; [done|]. intros hd Hf (-> & e & He & Hc). split; [done|]. exists e.
  rewrite Hf by set_solver. split; [done|]. apply IH; [|done]. intros y Hy. apply Hf. set_solver.
Qed.

Lemma link_slot_clock w w' d : same_clock w w' -> link_slot w' d = link_slot w d.
Proof. intros H. unfold link_slot. rewrite (tickOf_clock w) by done. destruct H. unfold nextSlotLocked. by rewrite sc_buckets0, sc_cursor0. Qed.

Lemma armed_pending w m P x e : wheel_ok w m P -> x ∈ P -> m !! x = Some e -> armed m !! x = Some (When e, Period e).
Proof.
  intros Hok Hx He. apply lookup_armed. exists e. split; [done|]. split; [|done]. destruct (wo_pend _ _ _ Hok x Hx) as (s & Hs & Hb).
  rewrite He in Hb. injection Hb as ->. unfold notInWheel. lia.
Qed.

Lemma size_delete_armed (A : gmap nat (Z * Z)) x v : A !! x = Some v -> Z.of_nat (size (delete x A)) = Z.of_nat (size A) - 1.
Proof.
  intros Hx. rewrite map_size_delete, Hx. cbn. assert (size A <> 0)%nat; [|lia]. intros E. apply map_size_empty_iff in E. by rewrite E in Hx.
Qed.

Lemma filter_deadline_ext (m m' : mem) now (l : list nat) :
  (forall x, x ∈ l -> m' !! x = m !! x) -> filter (fun x => deadline m' x <= now) l = filter (fun x => deadline m x <= now) l.
Proof.
  induction l as [|x l IH]; intros H; [done|]. rewrite !filter_cons, IH by set_solver. unfold deadline. by rewrite (H x) by set_solver.
Qed.

Section report.
Context (now : Z) (F : Z -> Z -> Prop).

(** What becomes of an entry of the popped slot. *)
Definition reported (w : Wheel) (e : Entry) : Z * Z * Z :=
  (if When e <=? now then notInWheel else link_slot w (When e) + 1, When e, Period e).

Definition relinkable (w : Wheel) (m : mem) (P : list nat) : Prop :=
  forall x e, x ∈ P -> m !! x = Some e -> now < When e ->
    tickOf w (When e) - cursor w <= buckets w /\ F (link_slot w (When e)) (When e).

Lemma relinkable_frame w w' m m' P :
  same_clock w w' -> (forall y, y ∈ P -> m' !! y = m !! y) -> relinkable w m P -> relinkable w' m' P.
Proof.
  intros Hsc Hf H y ey Hy Hey Hlt. rewrite Hf in Hey by done. rewrite (link_slot_clock w), (tickOf_clock w) by done.
  destruct Hsc as [_ -> -> _ _ _]. by apply (H y).
Qed.

(** One entry of the popped list. *)
Lemma report_one w m x P e :
  wheel_ok w m (x :: P) -> NoDup (x :: P) -> m !! x = Some e -> timely F m (x :: P) -> count w = Z.of_nat (size (armed m)) ->
  relinkable w m (x :: P) ->
  let m1 := <[x := set_bucket notInWheel (set_next None (set_prev None e))]> m in
  exists w2 m2, (if When e <=? now then Ret (with_count (count w - 1) w, m1) else linkLocked x w m1) = Ret (w2, m2) /\
    wheel_ok w2 m2 P /\ same_clock w w2 /\ overflow w2 = overflow w /\ timely F m2 P /\ count w2 = Z.of_nat (size (armed m2)) /\
    (forall y, y <> x -> face <$> m2 !! y = face <$> m !! y) /\ face <$> m2 !! x = Some (reported w e) /\
    (forall y, y ∈ P -> m2 !! y = m !! y).
Proof.
  intros Hok Hnd He Htime Hcount Hre m1. apply NoDup_cons in Hnd as [HxP Hnd].
  destruct (insert_lookups m x (set_bucket notInWheel (set_next None (set_prev None e)))) as [Hm1x Hm1]. fold m1 in Hm1x, Hm1.
  assert (left_out x e m m1) as Hl by (split; [intros y Hy; by rewrite Hm1|by rewrite Hm1x]).
  pose proof (armed_left_out _ _ _ _ Hl) as Ha1. assert (armed m !! x = Some (When e, Period e)) as Hax by (eapply armed_pending; [done|set_solver|done]).
  assert (wheel_ok w m1 P) as Hok1 by (eapply wheel_ok_release; [done|done|right; set_solver|done|done|set_solver]).
  unfold reported. destruct (Z.leb_spec (When e) now) as [Hdue|Hlate].
  - exists (with_count (count w - 1) w), m1. split; [done|]. split; [by apply wheel_ok_count|]. split; [by split|]. split; [done|].
    split; [|split; [simpl; rewrite Ha1, (size_delete_armed _ _ _ Hax); lia|split; [intros; by rewrite Hm1|split; [by rewrite Hm1x|]]]].
    + intros y ey Hey Hb Hy. destruct (decide (y = x)) as [->|Hyx]; [rewrite Hm1x in Hey; injection Hey as <-; simpl in Hb; unfold notInWheel in Hb; lia|].
      rewrite Hm1 in Hey by done. apply (Htime y); [done|done|set_solver].
    + intros y Hy. apply Hm1. by intros ->.
  - destruct (Hre x e ltac:(set_solver) He Hlate) as [Hnear HF].
    destruct (linkLocked_near w m1 P x _ Hok1 Hm1x eq_refl Hnear) as (r & sm & m2 & E & Hok2 & Hf & Hfx & Hfr). simpl in Hfx.
    pose proof (link_slot_range w (When e) ltac:(by pose proof (wheel_ok_buckets _ _ _ Hok); lia)) as Hs.
    assert (forall y, y <> x -> face <$> m2 !! y = face <$> m !! y) as Hf2 by (intros; rewrite Hf, Hm1; done).
    exists (with_ring r sm w), m2. split; [done|]. split; [done|]. split; [by split|]. split; [done|].
    split; [|split; [|split; [done|split; [done|]]]].
    + intros y ey Hey Hb Hy. destruct (decide (y = x)) as [->|Hyx].
      * rewrite Hey in Hfx. unfold face in Hfx. simpl in Hfx. injection Hfx as -> -> _. by rewrite Z.add_simpl_r.
      * destruct (face_Some _ _ _ _ (Hf2 y Hyx) Hey) as (ey' & Hey' & E1 & E2 & _). rewrite <- E1, <- E2. apply (Htime y); [done|lia|set_solver].
    + simpl. rewrite (armed_insert m1 m2 x _ _ _ Hf Hfx) by (unfold notInWheel; lia). rewrite Ha1, insert_delete_eq, insert_id; done.
    + intros y Hy. assert (y <> x) by (by intros ->). by rewrite Hfr, Hm1.
Qed.

Lemma report_list_spec P : forall fuel hd due w m,
  wheel_ok w m P -> nchain m hd P -> NoDup P -> (length P <= fuel)%nat -> timely F m P ->
  count w = Z.of_nat (size (armed m)) -> relinkable w m P ->
  exists w' m', report_list fuel hd now due w m = Ret (due ++ filter (fun x => deadline m x <= now) P, w', m') /\
    wheel_ok w' m' [] /\ same_clock w w' /\ overflow w' = overflow w /\ timely F m' [] /\ count w' = Z.of_nat (size (armed m')) /\
    (forall y, y ∉ P -> face <$> m' !! y = face <$> m !! y) /\
    (forall y e, y ∈ P -> m !! y = Some e -> face <$> m' !! y = Some (reported w e)).
Proof.
  induction P as [|x P IH]; intros fuel hd due w m Hok Hc Hnd Hfuel Htime Hcount Hre; simpl in Hc.
  - subst. exists w, m. destruct fuel; simpl; rewrite app_nil_r; (split; [done|]); repeat (split; [done|]); set_solver.
  - destruct Hc as (-> & e & He & Hc). simpl in Hfuel. destruct fuel as [|fuel]; [lia|]. cbn [report_list]. unfold load. rewrite He.
    cbn [mbind outcome_bind]. rewrite (modify_spec _ _ _ _ He). cbn [mbind outcome_bind].
    destruct (report_one w m x P e Hok Hnd He Htime Hcount Hre) as (w2 & m2 & E & Hok2 & Hsc & Hov & Htime2 & Hcount2 & Hf2 & Hfx & Hfr).
    apply NoDup_cons in Hnd as [HxP Hnd].
    destruct (IH fuel (next e) (if When e <=? now then due ++ [x] else due) w2 m2) as (w' & m' & E' & Hok' & Hsc' & Hov' & Ht' & Hc' & Hf' & Hr');
      try done; [by eapply nchain_frame|lia| |].
    { eapply relinkable_frame; [done|done|]. intros y ey Hy. apply Hre. set_solver. }
    exists w', m'. split; [|split; [done|split; [by etrans|split; [congruence|split; [done|split; [done|split]]]]]].
    + assert (filter (fun x => deadline m2 x <= now) P = filter (fun x => deadline m x <= now) P) as Efl.
      { by apply filter_deadline_ext. }
      rewrite Efl in E'. rewrite filter_cons. assert (deadline m x = When e) as -> by (unfold deadline; by rewrite He).
      destruct (Z.leb_spec (When e) now) as [Hle|Hgt]; [rewrite decide_True by done|rewrite decide_False by lia].
      * injection E as <- <-. rewrite E'. by rewrite <- app_assoc.
      * rewrite E. cbn [mbind outcome_bind]. done.
    + intros y Hy. rewrite Hf' by set_solver. apply Hf2. set_solver.
    + intros y ey Hy Hey. destruct (decide (y = x)) as [->|Hyx].
      * simplify_eq. rewrite Hf' by done. done.
      * assert (y ∈ P) as HyP by set_solver. rewrite (Hr' y ey) by (done || by rewrite Hfr). unfold reported. by rewrite (link_slot_clock w).
Qed.
End report.

(** ** Phases of an advance

    What each loop of AdvanceInto does to the wheel: it takes the entries [D],
    all due, out of it, and changes no deadline. *)
Definition times (e : Entry) : Z * Z := (When e, Period e).

Record swept (now : Z) (w : Wheel) (m : mem) (D : list nat) (w' : Wheel) (m' : mem) : Prop := {
  sw_ok : wheel_ok w' m' [];
  sw_tick : tick w' = tick w; sw_buckets : buckets w' = buckets w;
  sw_earliest : earliest w' = earliest w; sw_arm : arm w' = arm w; sw_heard : heard w' = heard w;
  sw_count : count w' = Z.of_nat (size (armed m'));
  sw_nodup : NoDup D;
  sw_due : forall x, x ∈ D -> exists d p, armed m !! x = Some (d, p) /\ d <= now /\ armed m' !! x = None;
  sw_keep : forall y, y ∉ D -> armed m' !! y = armed m !! y;
  sw_times : forall y, times <$> m' !! y = times <$> m !! y }.

Lemma swept_refl now w m : wheel_ok w m [] -> count w = Z.of_nat (size (armed m)) -> swept now w m [] w m.
Proof. intros. split; try done; [apply NoDup_nil_2|set_solver]. Qed.

Lemma swept_trans now w m D1 w1 m1 D2 w2 m2 :
  swept now w m D1 w1 m1 -> swept now w1 m1 D2 w2 m2 -> swept now w m (D1 ++ D2) w2 m2.
Proof.
  intros [A1 A2 A3 A4 A5 A6 A7 A8 A9 A10 A11] [B1 B2 B3 B4 B5 B6 B7 B8 B9 B10 B11].
  assert (forall x, x ∈ D1 -> x ∉ D2) as Hdisj.
  { intros x H1 H2. destruct (A9 x H1) as (_ & _ & _ & _ & E). destruct (B9 x H2) as (d & p & E' & _). congruence. }
  split; try congruence; try done.
  - apply NoDup_app. done.
  - intros x Hx. apply elem_of_app in Hx as [Hx|Hx].
    + destruct (A9 x Hx) as (d & p & ? & ? & ?). exists d, p. split; [done|]. split; [done|]. by rewrite B10 by auto.
    + destruct (B9 x Hx) as (d & p & E & ? & ?). exists d, p. rewrite A10 in E; [done|]. intros H1. by apply (Hdisj x).
  - intros y Hy. apply not_elem_of_app in Hy as [H1 H2]. rewrite B10, A10; done.
Qed.

Lemma face_times (m m' : mem) y : face <$> m' !! y = face <$> m !! y -> times <$> m' !! y = times <$> m !! y.
Proof. unfold face, times. destruct (m !! y), (m' !! y); simpl; intros; simplify_eq; congruence. Qed.

Lemma pop_slot w m s hd l :
  wheel_ok w m [] -> 0 <= s < buckets w -> index (ring w) s = Ret hd -> hd <> None ->
  (forall x, x ∈ l <-> bucket <$> m !! x = Some (s + 1)) ->
  exists sm, clearSummaryLocked s (summary w) = Ret sm /\ wheel_ok (with_ring (<[Z.to_nat s := None]> (ring w)) sm w) m l.
Proof.
  intros Hok Hs Hi Hhd Hl. destruct (wo_ring _ _ _ Hok) as (L & R & HL).
  destruct (clearSummaryLocked_spec _ s _ (rr_summary _ _ _ _ _ R) Hs) as (sm & E & Hsm & Hbits).
  exists sm. split; [done|]. split; try apply Hok.
  - exists (upd L s []). split.
    + simpl. eapply ring_rep_slot; try done; [apply NoDup_nil_2|set_solver|].
      intros t Ht. rewrite Hbits by lia. by destruct (Z.eqb_spec t s).
    + simpl. intros t y Ht. destruct (decide (t = s)) as [->|Hts]; [rewrite upd_same, Hl; set_solver|].
      rewrite upd_other, HL, Hl by done. split; [|set_solver]. intros [E1 _]. split; [done|]. rewrite E1. intros E2. injection E2. lia.
  - intros x Hx. apply Hl in Hx. eauto.
Qed.

Section report_slot.
Context (now : Z) (F : Z -> Z -> Prop) (w : Wheel) (m : mem) (s : Z).
Hypothesis Hok : wheel_ok w m [].
Hypothesis Hs : 0 <= s < buckets w.
Hypothesis Hcount : count w = Z.of_nat (size (armed m)).
Hypothesis Htime : forall x e, m !! x = Some e -> 0 < bucket e -> bucket e <> s + 1 -> F (bucket e - 1) (When e).
Hypothesis Hre : forall x e, m !! x = Some e -> bucket e = s + 1 -> now < When e ->
  tickOf w (When e) - cursor w <= buckets w /\ F (link_slot w (When e)) (When e).

Lemma reportSlotLocked_spec due :
  exists D w' m', reportSlotLocked due s now w m = Ret (due ++ D, w', m') /\ swept now w m D w' m' /\
    cursor w' = cursor w /\ overflow w' = overflow w /\ timely F m' [] /\
    (forall x, x ∈ D <-> exists e, m !! x = Some e /\ bucket e = s + 1 /\ When e <= now) /\
    (forall x e, m !! x = Some e -> face <$> m' !! x = Some (if bucket e =? s + 1 then reported now w e else face e)).
Proof.
  destruct (slot_view w m s Hok Hs) as (hd & l & Ei & Hc & Hnd & Hlen & Hl & _). unfold reportSlotLocked. rewrite Ei. cbn [mbind outcome_bind].
  pose proof (wheel_ok_buckets _ _ _ Hok) as Hn. destruct hd as [h|].
  2: { assert (l = []) as -> by (destruct l; [done|]; destruct Hc as [? _]; done).
       assert (forall x e, m !! x = Some e -> bucket e <> s + 1) as Hno.
       { intros x e He Hb. assert (x ∈ @nil nat) as Hx; [|set_solver]. apply Hl. rewrite He. simpl. congruence. }
       exists [], w, m. rewrite app_nil_r. split; [done|]. split; [by apply swept_refl|]. split; [done|]. split; [done|]. split; [|split].
       - intros x e He Hb _. apply (Htime x); [done|done|by eapply Hno].
       - intros x. split; [set_solver|]. intros (e & He & Hb & _). exfalso. by eapply Hno.
       - intros x e He. rewrite He. simpl. destruct (Z.eqb_spec (bucket e) (s + 1)); [|done]. exfalso. by eapply Hno. }
  destruct (pop_slot w m s (Some h) l Hok Hs Ei) as (sm & Esm & Hok1); [done|done|]. rewrite int32_id by lia. rewrite Esm. cbn [mbind outcome_bind].
  destruct (report_list_spec now F l (size m) (Some h) due (with_ring (<[Z.to_nat s := None]> (ring w)) sm w) m) as
    (w' & m' & E & Hok' & Hsc & Hov & Htime' & Hcount' & Hf & Hr); try done.
  - by eapply dchain_nchain.
  - intros x e He Hb Hx. apply (Htime x); [done|done|]. intros Hb'. apply Hx, Hl. rewrite He. simpl. congruence.
  - intros x e Hx He Hlt. apply Hl in Hx. rewrite He in Hx. injection Hx as Hx. by apply (Hre x).
  - assert (forall x, x ∈ filter (fun x => deadline m x <= now) l <-> exists e, m !! x = Some e /\ bucket e = s + 1 /\ When e <= now) as HD.
    { intros x. rewrite list_elem_of_filter, Hl. unfold deadline. split.
      - intros [Hd Hb]. destruct (m !! x) as [e|]; [|done]. injection Hb as Hb. exists e. done.
      - intros (e & -> & Hb & Hd). simpl. split; [done|congruence]. }
    assert (forall x e, m !! x = Some e -> face <$> m' !! x = Some (if bucket e =? s + 1 then reported now w e else face e)) as Hface.
    { intros x e He. destruct (Z.eqb_spec (bucket e) (s + 1)) as [Hb|Hb].
      - rewrite (Hr x e); [|apply Hl; rewrite He; simpl; congruence|done]. unfold reported. by rewrite (link_slot_clock w).
      - rewrite Hf; [by rewrite He|]. intros Hx. apply Hl in Hx. rewrite He in Hx. injection Hx. done. }
    exists (filter (fun x => deadline m x <= now) l), w', m'. split; [done|]. split; [|split; [apply Hsc|split; [done|split; [done|done]]]].
    destruct Hsc as [S1 S2 S3 S4 S5 S6]. split; try done; [by apply NoDup_filter|..].
    + intros x Hx. apply HD in Hx as (e & He & Hb & Hd). exists (When e), (Period e). split; [|split; [done|]].
      * apply lookup_armed. exists e. split; [done|]. split; [|done]. unfold notInWheel. lia.
      * apply armed_none. specialize (Hface x e He). rewrite Hb, Z.eqb_refl in Hface. unfold reported in Hface.
        destruct (Z.leb_spec (When e) now); [|lia]. destruct (m' !! x); [|done]. unfold face in Hface. simpl in *. congruence.
    + intros y Hy. destruct (m !! y) as [e|] eqn:He.
      * specialize (Hface y e He). destruct (Z.eqb_spec (bucket e) (s + 1)) as [Hb|Hb]; [|apply armed_face; by rewrite He].
        unfold reported in Hface. destruct (Z.leb_spec (When e) now); [exfalso; apply Hy, HD; eauto|].
        pose proof (link_slot_range w (When e) ltac:(lia)). assert (armed m !! y = Some (When e, Period e)) as ->.
        { apply lookup_armed. exists e. split; [done|]. split; [unfold notInWheel; lia|done]. }
        apply lookup_armed. destruct (m' !! y) as [e'|]; [|done]. unfold face in Hface. simpl in Hface. injection Hface as Eb Ew Ep.
        exists e'. split; [done|]. split; [unfold notInWheel; lia|done].
      * apply armed_face, Hf. intros Hx. apply Hl in Hx. by rewrite He in Hx.
    + intros y. destruct (m !! y) as [e|] eqn:He.
      * specialize (Hface y e He). destruct (m' !! y); [|done]. unfold face, reported, times in *. simpl in *. destruct (bucket e =? s + 1); congruence.
      * assert (y ∉ l) as Hyl by (intros Hx; apply Hl in Hx; by rewrite He in Hx). pose proof (Hf y Hyl) as E2. rewrite He in E2. by destruct (m' !! y).
Qed.
End report_slot.

Lemma fits_same w w' s d : tick w' = tick w -> buckets w' = buckets w -> cursor w' = cursor w -> fits w' s d <-> fits w s d.
Proof. intros E1 E2 E3. unfold fits, tickOf, nextSlotLocked. by rewrite E1, E2, E3. Qed.

Lemma timely_same w w' m X : tick w' = tick w -> buckets w' = buckets w -> cursor w' = cursor w -> timely (fits w) m X -> timely (fits w') m X.
Proof. intros E1 E2 E3 H x e He Hb Hx. apply (fits_same w w'); [done..|]. by apply (H x). Qed.

Lemma swept_cursor now w m D w' m' c : swept now (with_cursor c w) m D w' m' -> swept now w m D w' m'.
Proof. intros []. by split. Qed.

Lemma wheel_ok_cursor w m P c : 0 <= c -> wheel_ok w m P -> wheel_ok (with_cursor c w) m P.
Proof. intros Hc H. split; try apply H. done. Qed.

(** Moving the cursor one tick: only the slot it reaches is out of place. *)
Lemma fits_step w s d :
  0 < buckets w -> fits w s d -> s <> (cursor w + 1) mod buckets w -> fits (with_cursor (cursor w + 1) w) s d.
Proof.
  intros Hn [[Ht E]|[Ht E]] Hne; [|by rewrite nextSlot_alt in E]. left. change (tickOf (with_cursor (cursor w + 1) w) d) with (tickOf w d).
  simpl. split; [|done]. assert (tickOf w d <> cursor w + 1); [|lia]. intros Et. rewrite Et in E. by subst.
Qed.

Lemma fits_near w s d : 0 < buckets w -> fits w s d -> tickOf w d - cursor w <= buckets w.
Proof. intros Hn [[? _]|[? _]]; lia. Qed.

Lemma walk_spec now fuel : forall due w m,
  wheel_ok w m [] -> timely (fits w) m [] -> count w = Z.of_nat (size (armed m)) ->
  tickOf w now - cursor w <= Z.of_nat fuel ->
  exists D w' m', walk fuel (tickOf w now) now due w m = Ret (due ++ D, w', m') /\ swept now w m D w' m' /\
    cursor w' = Z.max (cursor w) (tickOf w now) /\ overflow w' = overflow w /\ timely (fits w') m' [].
Proof.
  induction fuel as [|fuel IH]; intros due w m Hok Htime Hcount Hfuel.
  - assert (tickOf w now <= cursor w) as Hle by lia. exists [], w, m. cbn [walk]. destruct (Z.leb_spec (tickOf w now) (cursor w)); [|lia].
    rewrite app_nil_r. split; [done|]. split; [by apply swept_refl|]. split; [lia|done].
  - cbn [walk]. destruct (Z.leb_spec (tickOf w now) (cursor w)) as [Hle|Hgt].
    { exists [], w, m. rewrite app_nil_r. split; [done|]. split; [by apply swept_refl|]. split; [lia|done]. }
    pose proof (wheel_ok_buckets _ _ _ Hok) as Hn. pose proof (wo_cursor _ _ _ Hok) as Hc. set (w1 := with_cursor (cursor w + 1) w).
    assert (wheel_ok w1 m []) as Hok1 by (apply wheel_ok_cursor; [lia|done]).
    destruct (reportSlotLocked_spec now (fits w1) w1 m (cursor w1 mod buckets w1) Hok1) with (due := due)
      as (D & w2 & m2 & E & Hsw & Hcur & Hov & Htime2 & _ & _); try done.
    + apply Z.mod_pos_bound. simpl. lia.
    + intros x e He Hb Hbs. apply fits_step; [lia|apply (Htime x); [done|done|set_solver]|]. simpl in Hbs. lia.
    + intros x e He Hb Hlt. assert (tickOf w1 (When e) - cursor w1 <= buckets w1) as Hnear.
      { pose proof (fits_near w _ _ ltac:(lia) (Htime x e He ltac:(pose proof (Z.mod_pos_bound (cursor w1) (buckets w1)); simpl in *; lia) ltac:(set_solver))) as H.
        change (tickOf w1 (When e)) with (tickOf w (When e)). simpl. lia. }
      split; [done|]. by apply link_slot_fits.
    + rewrite E. cbn [mbind outcome_bind]. apply swept_cursor in Hsw as Hsw'. simpl in Hcur, Hov.
      destruct (IH (due ++ D) w2 m2) as (D' & w3 & m3 & E3 & Hsw3 & Hcur3 & Hov3 & Htime3); [apply Hsw|by eapply timely_same; [apply Hsw|apply Hsw|done|]|apply Hsw| |].
      { unfold tickOf. rewrite (sw_tick _ _ _ _ _ _ Hsw). change (tickOf w now - cursor w2 <= Z.of_nat fuel). lia. }
      assert (tickOf w2 now = tickOf w now) as Et by (unfold tickOf; by rewrite (sw_tick _ _ _ _ _ _ Hsw)).
      rewrite Et in *. exists (D ++ D'), w3, m3. rewrite E3, app_assoc. split; [done|]. split; [by eapply swept_trans|].
      split; [lia|]. split; [congruence|done].
Qed.

(** ** The sweep of a long gap *)

Lemma sbit_held w m t :
  wheel_ok w m [] -> 0 <= t < buckets w -> sbit (summary w) t = true <-> exists x, bucket <$> m !! x = Some (t + 1).
Proof.
  intros Hok Ht. destruct (slot_view w m t Hok Ht) as (hd & l & _ & _ & _ & _ & Hl & ->). destruct l as [|y l]; simpl.
  - split; [done|]. intros (x & Hx). apply Hl in Hx. set_solver.
  - split; [|done]. intros _. exists y. apply Hl. set_solver.
Qed.

Lemma summary_ok_of w m P : wheel_ok w m P -> summary_ok (buckets w) (summary w).
Proof. intros Hok. destruct (wo_ring _ _ _ Hok) as (L & R & _). apply R. Qed.

(** Nothing new in the ring. *)
Definition thinner (m m' : mem) : Prop :=
  forall x e', m' !! x = Some e' -> 0 < bucket e' -> exists e, m !! x = Some e /\ bucket e = bucket e'.

Section sweep.
Context (now : Z).
Let late (s d : Z) : Prop := d <= now.

(** With every ring entry due, a report empties its slot and leaves the others. *)
Lemma sweep_one w m s due :
  wheel_ok w m [] -> timely late m [] -> count w = Z.of_nat (size (armed m)) -> 0 <= s < buckets w ->
  exists D w' m', reportSlotLocked due s now w m = Ret (due ++ D, w', m') /\ swept now w m D w' m' /\
    cursor w' = cursor w /\ overflow w' = overflow w /\ timely late m' [] /\
    forall x b, 0 < b -> bucket <$> m' !! x = Some b <-> bucket <$> m !! x = Some b /\ b <> s + 1.
Proof.
  intros Hok Htime Hcount Hs.
  destruct (reportSlotLocked_spec now late w m s Hok Hs Hcount) with (due := due) as (D & w' & m' & E & Hsw & Hcur & Hov & Ht' & _ & Hface).
  - intros x e He Hb _. apply (Htime x); [done|done|set_solver].
  - intros x e He Hb Hlt. assert (late (bucket e - 1) (When e)) as H by (apply (Htime x); [done|lia|set_solver]). unfold late in H. lia.
  - exists D, w', m'. repeat (split; [done|]). intros x b Hb. pose proof (sw_times _ _ _ _ _ _ Hsw x) as Htm.
    destruct (m !! x) as [e|] eqn:He; [|destruct (m' !! x); [done|naive_solver]]. specialize (Hface x e He). destruct (m' !! x) as [e'|]; [|done].
    unfold face, reported in Hface. simpl in *. destruct (Z.eqb_spec (bucket e) (s + 1)) as [Eb|Eb].
    + assert (late (bucket e - 1) (When e)) as H by (apply (Htime x); [done|lia|set_solver]). unfold late in H.
      destruct (Z.leb_spec (When e) now); [|lia]. injection Hface as -> _ _. unfold notInWheel. split; [intros E1; injection E1; lia|].
      intros [E1 ?]. injection E1. lia.
    + injection Hface as -> _ _. split; [|naive_solver]. intros E1. injection E1 as E1. split; [congruence|lia].
Qed.

Lemma clear_low_bit o i : is_uint 64 o -> o <> 0 -> 0 <= i ->
  Z.testbit (Z.ldiff o (Z.shiftl 1 (TrailingZeros64 o))) i = Z.testbit o i && negb (i =? TrailingZeros64 o).
Proof. intros Ho Hne Hi. destruct (TrailingZeros64_spec o Ho Hne) as (_ & ? & _). by rewrite Z.ldiff_spec, one_shifted_bit by lia. Qed.

Lemma bits_uint v : 0 <= v -> (forall j, 64 <= j -> Z.testbit v j = false) -> is_uint 64 v.
Proof.
  intros Hv Hb. split; [done|]. destruct (decide (v = 0)) as [->|]; [lia|]. apply Z.log2_lt_pow2; [lia|].
  destruct (Z_lt_le_dec (Z.log2 v) 64) as [|Hge]; [done|]. pose proof (Z.bit_log2 v ltac:(lia)) as H. by rewrite Hb in H.
Qed.

Lemma ldiff_uint o v : is_uint 64 o -> is_uint 64 (Z.ldiff o v).
Proof.
  intros Ho. apply bits_uint; [apply Z.ldiff_nonneg; left; apply Ho|]. intros j Hj.
  rewrite Z.ldiff_spec, (uint_bit_high 64) by (done || lia). done.
Qed.

(** The copied word [o] of a summary word, bits below [j] swept. *)
Definition copied (o : Z) (word j : Z) (w : Wheel) : Prop :=
  is_uint 64 o /\ (forall b, 0 <= b < 64 -> Z.testbit o b = sbit (summary w) (word * 64 + b)) /\ (forall b, 0 <= b < j -> Z.testbit o b = false).

Lemma copied_step w w' m m' o word j :
  wheel_ok w m [] -> wheel_ok w' m' [] -> buckets w' = buckets w -> 0 <= word < Z.of_nat (length (summary w)) -> o <> 0 -> copied o word j w ->
  let s := word * 64 + TrailingZeros64 o in
  (forall x b, 0 < b -> bucket <$> m' !! x = Some b <-> bucket <$> m !! x = Some b /\ b <> s + 1) ->
  copied (Z.ldiff o (Z.shiftl 1 (TrailingZeros64 o))) word (TrailingZeros64 o + 1) w'.
Proof.
  intros Hok Hok' En Hword Ho (Hu & Hb & Hj) s Hm. destruct (TrailingZeros64_spec o Hu Ho) as (A & B & Cc).
  pose proof (summary_ok_of _ _ _ Hok) as Hsm. pose proof (summary_ok_of _ _ _ Hok') as Hsm'.
  assert (length (summary w') = length (summary w)) as El by (pose proof (so_len _ _ Hsm); pose proof (so_len _ _ Hsm'); rewrite En in *; lia).
  split; [by apply ldiff_uint|]. split.
  - intros b Hb'. rewrite clear_low_bit by (done || lia). rewrite Hb by done. apply eq_true_iff_eq.
    rewrite andb_true_iff, negb_true_iff, Z.eqb_neq. destruct (Z_lt_le_dec (word * 64 + b) (buckets w)) as [Hin|Hout].
    + rewrite (sbit_held w m), (sbit_held w' m') by (done || lia). setoid_rewrite Hm; [|lia]. unfold s.
      split; [intros [(x & Hx) Hne]; exists x; split; [done|lia]|]. intros (x & Hx & Hne). split; [eauto|lia].
    + rewrite (so_out _ _ Hsm), (so_out _ _ Hsm') by lia. naive_solver.
  - intros b Hb'. rewrite clear_low_bit by (done || lia). destruct (Z.eqb_spec b (TrailingZeros64 o)); [apply andb_false_r|]. rewrite Cc by lia. done.
Qed.

Lemma sweep_word_spec fuel : forall due w m o word j,
  wheel_ok w m [] -> timely late m [] -> count w = Z.of_nat (size (armed m)) ->
  0 <= word < Z.of_nat (length (summary w)) -> 0 <= j -> 64 <= j + Z.of_nat fuel -> copied o word j w ->
  exists D w' m', sweep_word fuel word o now due w m = Ret (due ++ D, w', m') /\ swept now w m D w' m' /\
    cursor w' = cursor w /\ overflow w' = overflow w /\ timely late m' [] /\ thinner m m' /\
    (forall x e, m' !! x = Some e -> 0 < bucket e -> (bucket e - 1) / 64 <> word).
Proof.
  induction fuel as [|fuel IH]; intros due w m o word j Hok Htime Hcount Hword Hj Hfuel Hcp; cbn [sweep_word].
  all: pose proof Hcp as (Hu & Hb & Hlow); destruct (Z.eqb_spec o 0) as [->|Ho].
  2: { exfalso. destruct (TrailingZeros64_spec o Hu Ho) as (A & B & _). rewrite Hlow in A; [done|lia]. }
  3: { destruct (TrailingZeros64_spec o Hu Ho) as (A & B & Cc). set (s := word * 64 + TrailingZeros64 o).
       assert (sbit (summary w) s = true) as Hs by (unfold s; rewrite <- Hb by lia; done).
       assert (s < buckets w) as Hsn by (apply (occupied_slot _ _ s (summary_ok_of _ _ _ Hok)); [unfold s; lia|done]).
       destruct (sweep_one w m s due Hok Htime Hcount ltac:(unfold s in *; lia)) as (D & w1 & m1 & E & Hsw & Hcur & Hov & Ht1 & Hm1).
       rewrite E. cbn [mbind outcome_bind]. pose proof (sw_ok _ _ _ _ _ _ Hsw) as Hok1. pose proof (sw_buckets _ _ _ _ _ _ Hsw) as En.
       pose proof (so_len _ _ (summary_ok_of _ _ _ Hok)). pose proof (so_len _ _ (summary_ok_of _ _ _ Hok1)) as El1. rewrite En in El1.
       destruct (IH (due ++ D) w1 m1 (Z.ldiff o (Z.shiftl 1 (TrailingZeros64 o))) word (TrailingZeros64 o + 1)) as (D' & w2 & m2 & E2 & Hsw2 & Hcur2 & Hov2 & Ht2 & Hth2 & Hout);
         [done|done|apply Hsw|lia|lia| |exact (copied_step w w1 m m1 o word j Hok Hok1 En Hword Ho Hcp Hm1)|].
       { destruct (Z_lt_le_dec (TrailingZeros64 o) j); [|lia]. rewrite Hlow in A; [done|lia]. }
       exists (D ++ D'), w2, m2. rewrite E2, app_assoc. split; [done|]. split; [by eapply swept_trans|]. split; [congruence|]. split; [congruence|].
       split; [done|]. split; [|done]. intros x e2 He2 Hb2. destruct (Hth2 x e2 He2 Hb2) as (e1 & He1 & Eb).
       destruct (Hm1 x (bucket e2) Hb2) as [Hm _]. destruct Hm as [Hm _]; [rewrite He1; simpl; congruence|]. destruct (m !! x) as [e|]; [|done]. injection Hm as Hm. eauto. }
  all: exists [], w, m; rewrite app_nil_r; (split; [done|]); (split; [by apply swept_refl|]); (split; [done|]); (split; [done|]); (split; [done|]).
  all: split; [intros x e; eauto|]; intros x e He Hbx Ew.
  all: destruct (wo_range _ _ _ Hok x e He) as [E0|[E0|Hr]]; [unfold notInWheel in *; lia|unfold inOverflow in *; lia|].
  all: assert (sbit (summary w) (bucket e - 1) = true) as Hsb by (apply (sbit_held w m); [done|lia|]; exists x; rewrite He; simpl; f_equal; lia).
  all: specialize (Hb ((bucket e - 1) mod 64) ltac:(lia)); rewrite Z.testbit_0_l in Hb.
  all: replace (word * 64 + (bucket e - 1) mod 64) with (bucket e - 1) in Hb by lia; congruence.
Qed.

Lemma sweep_S k word due w m :
  sweep (S k) word now due w m = (occupied ← index (summary w) word; '(due, w, m) ← sweep_word 64 word occupied now due w m; sweep k (word + 1) now due w m).
Proof. reflexivity. Qed.

Lemma sweep_spec k : forall due w m word,
  wheel_ok w m [] -> timely late m [] -> count w = Z.of_nat (size (armed m)) ->
  0 <= word -> word + Z.of_nat k = Z.of_nat (length (summary w)) ->
  (forall x e, m !! x = Some e -> 0 < bucket e -> word * 64 < bucket e) ->
  exists D w' m', sweep k word now due w m = Ret (due ++ D, w', m') /\ swept now w m D w' m' /\
    cursor w' = cursor w /\ overflow w' = overflow w /\ (forall x e, m' !! x = Some e -> bucket e <= 0).
Proof.
  induction k as [|k IH]; intros due w m word Hok Htime Hcount H0 Hlen Hcl.
  - exists [], w, m. rewrite app_nil_r. split; [done|]. split; [by apply swept_refl|]. split; [done|]. split; [done|].
    intros x e He. destruct (Z_lt_le_dec 0 (bucket e)) as [Hb|]; [|done]. specialize (Hcl x e He Hb).
    pose proof (so_len _ _ (summary_ok_of _ _ _ Hok)). destruct (wo_range _ _ _ Hok x e He) as [E0|[E0|Hr]]; [unfold notInWheel in *; lia|unfold inOverflow in *; lia|]. lia.
  - rewrite sweep_S. assert (64 <= 0 + Z.of_nat 64) as HN by done. revert HN. generalize 64%nat. intros N HN. assert (0 <= word < Z.of_nat (length (summary w))) as Hword by lia. rewrite index_word by done. cbn [mbind outcome_bind].
    destruct (sweep_word_spec N due w m (WheelRing.word (summary w) word) word 0) as (D & w1 & m1 & E & Hsw & Hcur & Hov & Ht1 & Hth & Hout); try done.
    { split; [apply (summary_ok_of _ _ _ Hok); lia|]. split; [|lia]. intros b Hb. by rewrite sbit_at. }
    rewrite E. cbn [mbind outcome_bind]. pose proof (sw_ok _ _ _ _ _ _ Hsw) as Hok1.
    pose proof (so_len _ _ (summary_ok_of _ _ _ Hok)). pose proof (so_len _ _ (summary_ok_of _ _ _ Hok1)) as El1. rewrite (sw_buckets _ _ _ _ _ _ Hsw) in El1.
    destruct (IH (due ++ D) w1 m1 (word + 1)) as (D' & w2 & m2 & E2 & Hsw2 & Hcur2 & Hov2 & Hz); [done|done|apply Hsw|lia|lia| |].
    { intros x e1 He1 Hb1. destruct (Hth x e1 He1 Hb1) as (e & He & Eb). specialize (Hcl x e He ltac:(lia)). specialize (Hout x e1 He1 Hb1). lia. }
    exists (D ++ D'), w2, m2. rewrite E2, app_assoc. split; [done|]. split; [by eapply swept_trans|]. split; [congruence|]. split; [congruence|done].
Qed.
End sweep.

(** ** Promotion from the overflow heap *)

Definition undue (now : Z) (m : mem) : Prop := forall x d p, armed m !! x = Some (d, p) -> now < d.
Definition ring_undue (now : Z) (m : mem) : Prop := forall x e, m !! x = Some e -> 0 < bucket e -> now < When e.

Lemma overflow_shorter w m x ov ov' m' :
  wheel_ok w m [] -> overflow w = x :: ov -> heap_ok ov' m' -> (forall z, z ∈ ov' <-> z ∈ overflow w /\ z <> x) ->
  length ov' = length ov.
Proof.
  intros Hok Eo Hh Hel. pose proof (placed_nodup _ _ (ho_placed _ _ (wo_heap _ _ _ Hok))) as Hnd. rewrite Eo in Hnd, Hel.
  pose proof (placed_nodup _ _ (ho_placed _ _ Hh)) as Hnd'. apply NoDup_cons in Hnd as [Hx Hnd].
  apply Permutation_length, NoDup_Permutation; [done..|]. intros z. rewrite Hel, elem_of_cons. split; [naive_solver|].
  intros Hz. split; [auto|]. by intros ->.
Qed.

Section promote.
Context (now : Z).

(** The loop stops at a top that is both late and far, and so are all the others. *)
Lemma promote_stop w m x ov e :
  wheel_ok w m [] -> overflow w = x :: ov -> m !! x = Some e -> now < When e -> buckets w < tickOf w (When e) - cursor w ->
  ring_undue now m -> far (cursor w) w m /\ undue now m.
Proof.
  intros Hok Eo He Hlt Hfar Hring.
  assert (forall y ey, m !! y = Some ey -> bucket ey = inOverflow -> When e <= When ey) as Hmin.
  { intros y ey Hey Hb. assert (y ∈ overflow w) as Hy by (apply (wo_over _ _ _ Hok); rewrite Hey; simpl; congruence).
    pose proof (overflow_top w m x ov y Hok Eo Hy) as H. unfold deadline in H. by rewrite He, Hey in H. }
  split.
  - intros y ey Hey Hb. pose proof (tickOf_mono w _ _ (wo_tick _ _ _ Hok) (Hmin y ey Hey Hb)). lia.
  - intros y d p Hy. apply lookup_armed in Hy as (ey & Hey & Hb & <- & _).
    destruct (wo_range _ _ _ Hok y ey Hey) as [?|[Hb'|Hb']]; [done| |apply (Hring y); [done|lia]]. specialize (Hmin y ey Hey Hb'). lia.
Qed.

(** One turn of the loop. *)
Lemma promote_one w m x ov e :
  wheel_ok w m [] -> overflow w = x :: ov -> m !! x = Some e -> timely (fits w) m [] -> count w = Z.of_nat (size (armed m)) ->
  ring_undue now m -> (now < When e -> tickOf w (When e) - cursor w <= buckets w) ->
  exists ov1 m1 m2 w3 m3, heapPopLocked (overflow w) m = Ret (ov1, m1) /\ modify x (set_bucket notInWheel) m1 = Ret m2 /\
    (if When e <=? now then Ret (with_count (count w - 1) (with_overflow ov1 w), m2) else linkLocked x (with_overflow ov1 w) m2) = Ret (w3, m3) /\
    swept now w m (if When e <=? now then [x] else []) w3 m3 /\ cursor w3 = cursor w /\ overflow w3 = ov1 /\ length ov1 = length ov /\
    timely (fits w3) m3 [] /\ ring_undue now m3.
Proof.
  intros Hok Eo He Htime Hcount Hring Hnear.
  assert (x ∈ overflow w) as Hx by (rewrite Eo; set_solver). assert (bucket e = inOverflow) as Hb by (apply (wo_over _ _ _ Hok) in Hx; rewrite He in Hx; simpl in Hx; congruence).
  pose proof (wo_heap _ _ _ Hok) as Hh. rewrite Eo in Hh. destruct (heapPopLocked_spec x ov m Hh) as (ov1 & m1 & E1 & Hh1 & Honly & Hel & Hfr).
  rewrite <- Eo in E1, Hel, Hfr. destruct (overflow_removed w m x e Hok He ov1 m1 Hb Hh1 Honly Hel Hfr) as (m2 & E2 & Hok2 & Hl).
  pose proof (armed_left_out _ _ _ _ Hl) as Ha2. pose proof (overflow_shorter w m x ov ov1 m1 Hok Eo Hh1 Hel) as Hlen.
  assert (armed m !! x = Some (When e, Period e)) as Hax by (apply lookup_armed; exists e; split; [done|]; split; [rewrite Hb; done|done]).
  assert (forall y e', m2 !! y = Some e' -> 0 < bucket e' -> y <> x /\ exists e0, m !! y = Some e0 /\ bucket e0 = bucket e' /\ When e0 = When e') as Hcase.
  { intros y e' He' Hb'. destruct (decide (y = x)) as [->|Hy].
    - pose proof (lo_self _ _ _ _ Hl) as Hf. rewrite He' in Hf. unfold face in Hf. simpl in Hf. injection Hf as Hf _ _. unfold notInWheel in Hf. lia.
    - split; [done|]. destruct (face_Some _ _ _ _ (lo_other _ _ _ _ Hl y Hy) He') as (e0 & ? & ? & ? & _). eauto. }
  assert (forall y, times <$> m2 !! y = times <$> m !! y) as Htimes.
  { intros y. destruct (decide (y = x)) as [->|Hy]; [|apply face_times; by apply Hl]. pose proof (lo_self _ _ _ _ Hl) as Hf. rewrite He.
    destruct (m2 !! x); [|done]. unfold face, times in *. simpl in *. congruence. }
  exists ov1, m1, m2. destruct (Z.leb_spec (When e) now) as [Hdue|Hlate].
  - exists (with_count (count w - 1) (with_overflow ov1 w)), m2. split; [done|]. split; [done|]. split; [done|].
    split; [|split; [done|split; [done|split; [done|split]]]].
    + split; try done.
      * by apply wheel_ok_count.
      * simpl. rewrite Ha2, (size_delete_armed _ _ _ Hax). lia.
      * apply NoDup_singleton.
      * intros y Hy. apply list_elem_of_singleton in Hy as ->. exists (When e), (Period e). split; [done|]. split; [done|].
        rewrite Ha2. by rewrite lookup_delete, decide_True.
      * intros y Hy. rewrite list_elem_of_singleton in Hy. rewrite Ha2. by rewrite lookup_delete_ne.
    + intros y e' He' Hb' Hy. destruct (Hcase y e' He' Hb') as (_ & e0 & He0 & <- & <-).
      assert (fits w (bucket e0 - 1) (When e0)); [|done]. apply (Htime y); [done| |done]. destruct (Hcase y e' He' Hb') as (_ & e1 & He1 & ? & _). simplify_eq. lia.
    + intros y e' He' Hb'. destruct (Hcase y e' He' Hb') as (_ & e0 & He0 & Eb & <-). apply (Hring y); [done|lia].
  - specialize (Hnear Hlate). pose proof (lo_self _ _ _ _ Hl) as Hf. destruct (m2 !! x) as [e2|] eqn:He2; [|done]. unfold face in Hf. simpl in Hf. injection Hf as Hb2 Hw2 Hp2.
    destruct (linkLocked_near (with_overflow ov1 w) m2 [] x e2 Hok2 He2 Hb2) as (r & sm & m3 & E3 & Hok3 & Hf3 & Hfx3 & _);
      [rewrite Hw2; done|]. rewrite Hw2, Hp2 in Hfx3.
    pose proof (wheel_ok_buckets _ _ _ Hok) as Hn. pose proof (link_slot_range (with_overflow ov1 w) (When e) ltac:(simpl; lia)) as Hs.
    pose proof (armed_insert m2 m3 x _ _ _ Hf3 Hfx3 ltac:(unfold notInWheel; lia)) as Ha3. rewrite Ha2, insert_delete_eq, insert_id in Ha3 by done.
    assert (forall y e', m3 !! y = Some e' -> 0 < bucket e' -> y = x /\ bucket e' = link_slot w (When e) + 1 /\ When e' = When e \/
      exists e0, m !! y = Some e0 /\ bucket e0 = bucket e' /\ When e0 = When e') as Hcase3.
    { intros y e' He' Hb'. destruct (decide (y = x)) as [->|Hy].
      - left. rewrite He' in Hfx3. unfold face in Hfx3. simpl in Hfx3. injection Hfx3 as ? ? ?. done.
      - right. destruct (face_Some _ _ _ _ (Hf3 y Hy) He') as (e0 & He0 & Eb & Ew & _). destruct (Hcase y e0 He0 ltac:(lia)) as (_ & e1 & He1 & ? & ?). exists e1. split; [done|]. split; congruence. }
    eexists _, m3. split; [done|]. split; [done|]. split; [exact E3|]. split; [|split; [done|split; [done|split; [done|split]]]].
    + split; try done.
      * simpl. by rewrite Ha3.
      * apply NoDup_nil_2.
      * set_solver.
      * intros y _. by rewrite Ha3.
      * intros y. rewrite <- Htimes. destruct (decide (y = x)) as [->|Hy]; [|apply face_times; auto].
        rewrite He2. destruct (m3 !! x); [|done]. unfold face, times in *. simpl in *. congruence.
    + intros y e' He' Hb' Hy. assert (fits w (bucket e' - 1) (When e')); [|done].
      destruct (Hcase3 y e' He' Hb') as [(-> & -> & ->)|(e0 & He0 & Eb & Ew)]; [rewrite Z.add_simpl_r; by apply link_slot_fits|].
      rewrite <- Eb, <- Ew. apply (Htime y); [done|lia|done].
    + intros y e' He' Hb'. destruct (Hcase3 y e' He' Hb') as [(-> & _ & ->)|(e0 & He0 & Eb & Ew)]; [done|]. rewrite <- Ew. apply (Hring y); [done|lia].
Qed.

Lemma promote_spec fuel : forall due w m,
  wheel_ok w m [] -> timely (fits w) m [] -> count w = Z.of_nat (size (armed m)) -> ring_undue now m -> (length (overflow w) <= fuel)%nat ->
  exists D w' m', promote fuel now due w m = Ret (due ++ D, w', m') /\ swept now w m D w' m' /\ cursor w' = cursor w /\
    timely (fits w') m' [] /\ far (cursor w') w' m' /\ undue now m'.
Proof.
  induction fuel as [|fuel IH]; intros due w m Hok Htime Hcount Hring Hfuel; cbn [promote]; destruct (overflow w) as [|x ov] eqn:Eo.
  2: { simpl in Hfuel. lia. }
  1, 2: exists [], w, m; rewrite app_nil_r; (split; [done|]); (split; [by apply swept_refl|]); (split; [done|]); (split; [done|]); split.
  1, 3: intros y ey Hey Hb; assert (y ∈ overflow w) as Hy by (apply (wo_over _ _ _ Hok); rewrite Hey; simpl; congruence); rewrite Eo in Hy; set_solver.
  1, 2: intros y d p Hy; apply lookup_armed in Hy as (ey & Hey & Hb & <- & _); destruct (wo_range _ _ _ Hok y ey Hey) as [?|[Hb'|Hb']]; [done| |apply (Hring y); [done|lia]];
        assert (y ∈ overflow w) as Hy by (apply (wo_over _ _ _ Hok); rewrite Hey; simpl; congruence); rewrite Eo in Hy; set_solver.
  assert (x ∈ overflow w) as Hx by (rewrite Eo; set_solver). apply (wo_over _ _ _ Hok) in Hx. destruct (m !! x) as [e|] eqn:He; [|done]. clear Hx.
  unfold load. rewrite He. cbn [mbind outcome_bind].
  destruct ((now <? When e) && (buckets w <? tickOf w (When e) - cursor w)) eqn:Estop.
  - apply andb_true_iff in Estop as [H1 H2]. apply Z.ltb_lt in H1, H2. exists [], w, m. rewrite app_nil_r.
    split; [done|]. split; [by apply swept_refl|]. split; [done|]. split; [done|]. by eapply promote_stop.
  - destruct (promote_one w m x ov e Hok Eo He Htime Hcount Hring) as (ov1 & m1 & m2 & w3 & m3 & E1 & E2 & E3 & Hsw & Hcur & Hov & Hlen & Htime3 & Hring3).
    { intros Hlt. apply andb_false_iff in Estop as [H|H]; [apply Z.ltb_ge in H; lia|]. apply Z.ltb_ge in H. lia. }
    rewrite <- Eo, E1. cbn [mbind outcome_bind]. rewrite E2. cbn [mbind outcome_bind].
    destruct (IH (due ++ (if When e <=? now then [x] else [])) w3 m3) as (D & w' & m' & E & Hsw' & Hcur' & Ht' & Hf' & Hu');
      [apply Hsw|done|apply Hsw|done|rewrite Hov, Hlen; simpl in Hfuel; lia|].
    exists ((if When e <=? now then [x] else []) ++ D), w', m'. rewrite app_assoc. split; [|split; [by eapply swept_trans|split; [congruence|done]]].
    revert E E3. clear. destruct (When e <=? now); intros E E3; [injection E3 as <- <-; exact E|].
    rewrite E3. cbn [mbind outcome_bind]. rewrite app_nil_r in *. exact E.
Qed.
End promote.

(** ** AdvanceInto *)

(** The next deadline of a periodic entry. *)
Definition next_when (now d p : Z) : Z := if d + p <=? now then now + p else d + p.

(** What an advance leaves armed. *)
Definition after (now : Z) (A : gmap nat (Z * Z)) : gmap nat (Z * Z) :=
  omap (fun '(d, p) => if d <=? now then (if 0 <? p then Some (next_when now d p, p) else None) else Some (d, p)) A.

Definition again (now : Z) (e : Entry) : option (Z * Z) :=
  if 0 <? Period e then Some (next_when now (When e) (Period e), Period e) else None.

Lemma rearm_periodic_spec now D : forall w m,
  settled w m -> zeroTime <= now -> NoDup D -> (forall x, x ∈ D -> exists e, m !! x = Some e /\ bucket e = notInWheel) ->
  exists w' m', rearm_periodic D now w m = Ret (w', m') /\ settled w' m' /\ same_clock w w' /\
    (forall y, y ∉ D -> face <$> m' !! y = face <$> m !! y) /\
    (forall x e, x ∈ D -> m !! x = Some e -> is_Some (m' !! x) /\ armed m' !! x = again now e).
Proof.
  induction D as [|x D IH]; intros w m Hs Hnow Hnd Hfree; cbn [rearm_periodic].
  { exists w, m. split; [done|]. split; [done|]. split; [done|]. split; [done|set_solver]. }
  destruct (Hfree x) as (e & He & Hb); [set_solver|]. apply NoDup_cons in Hnd as [HxD Hnd].
  unfold load. rewrite He. cbn [mbind outcome_bind].
  assert (exists w2 m2, (if 0 <? Period e
     then m0 ← modify x (fun e0 => MkEntry (next e0) (prev e0) (bucket e0) (next_when now (When e) (Period e)) (Period e0) (heap e0)) m; attachLocked x w m0
     else Ret (w, m)) = Ret (w2, m2) /\ settled w2 m2 /\ same_clock w w2 /\ (forall y, y <> x -> face <$> m2 !! y = face <$> m !! y) /\
     is_Some (m2 !! x) /\ armed m2 !! x = again now e) as (w2 & m2 & E2 & Hs2 & Hsc2 & Hf2 & Hx2 & Ha2).
  { unfold again. destruct (Z.ltb_spec 0 (Period e)) as [Hp|Hp].
    - rewrite (modify_spec _ _ _ _ He). cbn [mbind outcome_bind]. set (e1 := MkEntry _ _ _ _ _ _).
      destruct (settled_release w m x e e1 Hs He Hb Hb) as [Hs1 Ha1]. destruct (insert_lookups m x e1) as [Hm1x Hm1].
      destruct (attachLocked_spec w (<[x := e1]> m) x e1 Hs1 Hm1x Hb) as (w2 & m2 & E & Hs2 & Hsc & Ha2 & Hf2).
      { simpl. unfold next_when. destruct (Z.leb_spec (When e + Period e) now); lia. }
      assert (armed m2 !! x = Some (When e1, Period e1)) as Hx2 by (rewrite Ha2, lookup_insert; by destruct (decide (x = x))).
      exists w2, m2. split; [done|]. split; [done|]. split; [done|]. split; [intros; by rewrite Hf2, Hm1|].
      split; [|done]. apply lookup_armed in Hx2 as (? & -> & _). eauto.
    - exists w, m. split; [done|]. split; [done|]. split; [done|]. split; [done|]. split; [eauto|]. apply armed_none. rewrite He. simpl. congruence. }
  destruct (IH w2 m2 Hs2 Hnow Hnd) as (w' & m' & E & Hs' & Hsc & Hf & Hr).
  { intros y Hy. destruct (Hfree y) as (ey & Hey & Hby); [set_solver|]. assert (y <> x) as Hyx by (by intros ->).
    pose proof (Hf2 y Hyx) as Hfy. rewrite Hey in Hfy. destruct (m2 !! y) as [e2|]; [|done]. unfold face in Hfy. simpl in Hfy. exists e2. split; [done|]. congruence. }
  exists w', m'. split; [|split; [done|split; [by etrans|split]]].
  - unfold next_when in E2. destruct (0 <? Period e).
    + destruct (modify x _ m) as [m0|]; [|done]. cbn [mbind outcome_bind] in *. rewrite E2. cbn [mbind outcome_bind]. done.
    + injection E2 as <- <-. done.
  - intros y Hy. rewrite Hf by set_solver. apply Hf2. set_solver.
  - intros y ey Hy Hey. destruct (decide (y = x)) as [->|Hyx].
    + simplify_eq. rewrite <- Ha2. split; [|by apply armed_face, Hf]. by apply (fmap_is_Some_iff _ _ _ _ (Hf x HxD)).
    + pose proof (Hf2 y Hyx) as Hfy. rewrite Hey in Hfy. destruct (m2 !! y) as [e2|] eqn:He2; [|done]. unfold face in Hfy. simpl in Hfy.
      destruct (Hr y e2 ltac:(set_solver) He2) as [? ->]. split; [done|]. unfold again. replace (Period e2) with (Period ey) by congruence. by replace (When e2) with (When ey) by congruence.
Qed.

Section advance.
Context (now : Z) (w : Wheel) (m : mem).
Hypothesis Hg : good w m.

(** Crossing the ticks up to now, one by one or in one sweep. *)
Lemma cross_spec due :
  let current := tickOf w now in
  exists D w' m',
    (if buckets w <? current - cursor w then
       '(due, w', m') ← sweep (length (summary w)) 0 now due (with_cursor (current - buckets w) w) m; Ret (due, with_cursor current w', m')
     else walk (Z.to_nat (current - cursor w)) current now due w m) = Ret (due ++ D, w', m') /\
    swept now w m D w' m' /\ current <= cursor w' /\ timely (fits w') m' [].
Proof.
  intros current. destruct (g_settled _ _ Hg) as [Hok Htime Hfar Hcount Hnz]. pose proof (wheel_ok_buckets _ _ _ Hok) as Hn.
  pose proof (wo_cursor _ _ _ Hok) as Hc. destruct (Z.ltb_spec (buckets w) (current - cursor w)) as [Hgap|Hgap].
  - destruct (sweep_spec now (length (summary w)) due (with_cursor (current - buckets w) w) m 0) as (D & w' & m' & E & Hsw & Hcur & Hov & Hz); try done.
    + apply wheel_ok_cursor; [lia|done].
    + intros x e He Hb Hx. pose proof (fits_near w _ _ ltac:(lia) (Htime x e He Hb Hx)) as Hnear. unfold current in *.
      destruct (Z_lt_le_dec now (When e)) as [Hlt|]; [|done]. pose proof (tickOf_mono w now (When e) (wo_tick _ _ _ Hok) ltac:(lia)). lia.
    + rewrite E. cbn [mbind outcome_bind]. exists D, (with_cursor current w'), m'. split; [done|].
      split; [|split; [simpl; lia|]].
      * apply swept_cursor in Hsw. destruct Hsw. split; try done. apply wheel_ok_cursor; [lia|done].
      * intros x e He Hb _. specialize (Hz x e He). lia.
  - destruct (walk_spec now (Z.to_nat (current - cursor w)) due w m Hok Htime Hcount ltac:(lia)) as (D & w' & m' & E & Hsw & Hcur & Hov & Ht').
    exists D, w', m'. split; [done|]. split; [done|]. split; [unfold current; lia|done].
Qed.

(** Then no entry of the ring is due, whether the parked slot was reported or
    nothing was due in the first place. *)
Lemma parked_spec due D1 w1 m1 :
  swept now w m D1 w1 m1 -> tickOf w now <= cursor w1 -> timely (fits w1) m1 [] ->
  exists D w' m',
    (if (0 <? count w1) && negb (IsZero (earliest w1)) && (earliest w1 <=? now)
     then reportSlotLocked due (nextSlotLocked w1) now w1 m1 else Ret (due, w1, m1)) = Ret (due ++ D, w', m') /\
    swept now w1 m1 D w' m' /\ timely (fits w') m' [] /\ ring_undue now m'.
Proof.
  intros Hsw Hcur Htime. pose proof (sw_ok _ _ _ _ _ _ Hsw) as Hok. pose proof (sw_count _ _ _ _ _ _ Hsw) as Hcount.
  pose proof (wheel_ok_buckets _ _ _ Hok) as Hn.
  assert (forall x e, m1 !! x = Some e -> 0 < bucket e -> When e <= now -> bucket e = nextSlotLocked w1 + 1) as Hparked.
  { intros x e He Hb Hle. destruct (Htime x e He Hb ltac:(set_solver)) as [[Ht _]|[_ Ht]]; [|lia].
    pose proof (tickOf_mono w1 (When e) now (wo_tick _ _ _ Hok) Hle). assert (tickOf w1 now = tickOf w now) as Et by (unfold tickOf; by rewrite (sw_tick _ _ _ _ _ _ Hsw)). lia. }
  destruct ((0 <? count w1) && negb (IsZero (earliest w1)) && (earliest w1 <=? now)) eqn:Ec.
  - destruct (reportSlotLocked_spec now (fits w1) w1 m1 (nextSlotLocked w1) Hok) with (due := due) as (D & w2 & m2 & E & Hsw2 & Hc2 & Hov2 & Ht2 & HD & Hface); try done.
    + apply nextSlot_range. lia.
    + intros x e He Hb _. apply (Htime x); [done|done|set_solver].
    + intros x e He Hb Hlt. pose proof (nextSlot_range w1 ltac:(lia)).
      pose proof (fits_near w1 _ _ ltac:(lia) (Htime x e He ltac:(lia) ltac:(set_solver))) as Hnear. split; [done|]. by apply link_slot_fits.
    + exists D, w2, m2. split; [done|]. split; [done|]. split; [by eapply timely_same; [apply Hsw2|apply Hsw2|done|]|].
      intros x e2 He2 Hb2. destruct (Z_lt_le_dec now (When e2)) as [|Hle]; [done|]. exfalso.
      pose proof (sw_times _ _ _ _ _ _ Hsw2 x) as Htm. rewrite He2 in Htm. destruct (m1 !! x) as [e|] eqn:He; [|done]. unfold times in Htm. simpl in Htm.
      specialize (Hface x e He). rewrite He2 in Hface. unfold face, reported in Hface. simpl in Hface.
      destruct (Z.eqb_spec (bucket e) (nextSlotLocked w1 + 1)) as [Eb|Eb].
      * assert (When e <= now) as Hle' by congruence. apply Z.leb_le in Hle'. rewrite Hle' in Hface. injection Hface as Hb0 _ _. unfold notInWheel in Hb0. lia.
      * apply Eb, (Hparked x); [done|injection Hface; lia|congruence].
  - exists [], w1, m1. rewrite app_nil_r. split; [done|]. split; [by apply swept_refl|]. split; [done|].
    intros x e He Hb. destruct (Z_lt_le_dec now (When e)) as [|Hle]; [done|]. exfalso.
    assert (armed m1 !! x = Some (When e, Period e)) as Ha by (apply lookup_armed; exists e; split; [done|]; split; [unfold notInWheel; lia|done]).
    assert (armed m !! x = Some (When e, Period e)) as Ha0.
    { rewrite <- (sw_keep _ _ _ _ _ _ Hsw); [done|]. intros HxD. destruct (sw_due _ _ _ _ _ _ Hsw x HxD) as (_ & _ & _ & _ & E). congruence. }
    destruct (g_earliest _ _ Hg) as [[E0 _]|[(y & q & Hy) Hmin]]; [by rewrite E0 in Ha0|]. pose proof (Hmin _ _ _ Ha0) as Hee.
    apply andb_false_iff in Ec as [Ec|Ec]; [|rewrite (sw_earliest _ _ _ _ _ _ Hsw) in Ec; apply Z.leb_gt in Ec; lia].
    apply andb_false_iff in Ec as [Ec|Ec].
    + apply Z.ltb_ge in Ec. rewrite Hcount in Ec. assert (size (armed m1) = 0)%nat as E0 by lia. apply map_size_empty_iff in E0. by rewrite E0 in Ha.
    + apply negb_false_iff in Ec. unfold IsZero in Ec. apply Z.eqb_eq in Ec. rewrite (sw_earliest _ _ _ _ _ _ Hsw) in Ec.
      apply (se_nonzero _ _ (g_settled _ _ Hg) _ _ _ Hy). done.
Qed.

Lemma AdvanceInto_spec due :
  zeroTime <= now ->
  exists D w' m', AdvanceInto now due w m = Ret (due ++ D, w', m') /\ good w' m' /\ NoDup D /\
    (forall x, x ∈ D <-> exists d p, armed m !! x = Some (d, p) /\ d <= now) /\ armed m' = after now (armed m) /\ arm w' = arm w /\
    (forall y, is_Some (m' !! y) <-> is_Some (m !! y)).
Proof.
  intros Hnow. destruct (cross_spec due) as (D1 & w1 & m1 & E1 & Hsw1 & Hcur1 & Ht1). cbv zeta in E1.
  destruct (parked_spec (due ++ D1) D1 w1 m1 Hsw1 Hcur1 Ht1) as (D2 & w2 & m2 & E2 & Hsw2 & Ht2 & Hring2).
  destruct (promote_spec now (length (overflow w2)) ((due ++ D1) ++ D2) w2 m2 (sw_ok _ _ _ _ _ _ Hsw2) Ht2 (sw_count _ _ _ _ _ _ Hsw2) Hring2 ltac:(lia))
    as (D3 & w3 & m3 & E3 & Hsw3 & Hc3 & Ht3 & Hf3 & Hu3).
  pose proof (swept_trans _ _ _ _ _ _ _ _ _ (swept_trans _ _ _ _ _ _ _ _ _ Hsw1 Hsw2) Hsw3) as Hsw. set (D := (D1 ++ D2) ++ D3) in *.
  assert (forall x, x ∈ D <-> exists d p, armed m !! x = Some (d, p) /\ d <= now) as HD.
  { intros x. split; [intros Hx; destruct (sw_due _ _ _ _ _ _ Hsw x Hx) as (d & p & ? & ? & _); eauto|]. intros (d & p & Hx & Hle).
    destruct (decide (x ∈ D)) as [|Hn]; [done|]. rewrite <- (sw_keep _ _ _ _ _ _ Hsw x Hn) in Hx. apply Hu3 in Hx. lia. }
  assert (settled w3 m3) as Hs3.
  { split; [apply Hsw|done|done|apply Hsw|]. intros x d p Hx. destruct (decide (x ∈ D)) as [HxD|Hn].
    - destruct (sw_due _ _ _ _ _ _ Hsw x HxD) as (_ & _ & _ & _ & E). congruence.
    - rewrite (sw_keep _ _ _ _ _ _ Hsw x Hn) in Hx. by eapply (se_nonzero _ _ (g_settled _ _ Hg)). }
  assert (forall x, x ∈ D -> exists e, m3 !! x = Some e /\ bucket e = notInWheel) as Hfree.
  { intros x Hx. destruct (sw_due _ _ _ _ _ _ Hsw x Hx) as (d & p & Ha & _ & Hnone). apply lookup_armed in Ha as (e & He & _).
    pose proof (sw_times _ _ _ _ _ _ Hsw x) as Htm. rewrite He in Htm. destruct (m3 !! x) as [e3|] eqn:He3; [|done]. exists e3. split; [done|].
    destruct (decide (bucket e3 = notInWheel)) as [|Hb]; [done|]. assert (armed m3 !! x = Some (When e3, Period e3)) by (apply lookup_armed; eauto). congruence. }
  destruct (rearm_periodic_spec now D w3 m3 Hs3 Hnow (sw_nodup _ _ _ _ _ _ Hsw) Hfree) as (w4 & m4 & E4 & Hs4 & Hsc4 & Hf4 & Hr4).
  destruct (settled_rearm w4 m4 Hs4) as (w5 & E5 & Hg5 & Harm5).
  assert (((due ++ D1) ++ D2) ++ D3 = due ++ D) as ED by (unfold D; by rewrite !app_assoc).
  exists D, w5, m4. split; [|split; [done|split; [apply Hsw|split; [done|split; [|split]]]]].
  - unfold AdvanceInto. cbv zeta. change (summary (with_cursor (tickOf w now - buckets w) w)) with (summary w). rewrite E1. cbn [mbind outcome_bind].
    rewrite E2. cbn [mbind outcome_bind]. rewrite E3. cbn [mbind outcome_bind]. rewrite ED, drop_app_length. rewrite E4. cbn [mbind outcome_bind].
    rewrite E5. done.
  - apply map_eq. intros x. unfold after. rewrite lookup_omap. destruct (decide (x ∈ D)) as [HxD|Hn].
    + destruct (sw_due _ _ _ _ _ _ Hsw x HxD) as (d & p & Ha & Hle & _). rewrite Ha. simpl. destruct (Z.leb_spec d now); [|lia].
      destruct (Hfree x HxD) as (e3 & He3 & _). destruct (Hr4 x e3 HxD He3) as [_ ->]. apply lookup_armed in Ha as (e & He & _ & <- & <-).
      pose proof (sw_times _ _ _ _ _ _ Hsw x) as Htm. rewrite He, He3 in Htm. unfold times in Htm. simpl in Htm. injection Htm as Hw Hp. unfold again. by rewrite Hw, Hp.
    + rewrite (armed_face _ _ x (Hf4 x Hn)), (sw_keep _ _ _ _ _ _ Hsw x Hn). destruct (armed m !! x) as [[d p]|] eqn:Ha; [|done]. simpl.
      destruct (Z.leb_spec d now); [|done]. exfalso. apply Hn, HD. eauto.
  - rewrite Harm5, (sc_arm _ _ Hsc4). apply Hsw.
  - intros y. rewrite <- (fmap_is_Some_iff _ _ _ _ (sw_times _ _ _ _ _ _ Hsw y)). destruct (decide (y ∈ D)) as [HyD|Hn].
    + destruct (Hfree y HyD) as (e3 & He3 & _). destruct (Hr4 y e3 HyD He3) as [? _]. rewrite He3. split; eauto.
    + exact (fmap_is_Some_iff _ _ _ _ (Hf4 y Hn)).
Qed.
End advance.

(** ** A fresh wheel, and runs of calls *)

Definition fresh (m : mem) : Prop := map_Forall (fun _ e => bucket e = notInWheel) m.

Lemma replicate_word k w : 0 <= w < Z.of_nat k -> word (replicate k 0) w = 0.
Proof. intros Hw. unfold word. apply list_lookup_total_correct, lookup_replicate. split; [done|lia]. Qed.

Lemma New_good tick0 buckets0 now arm0 m :
  0 < tick0 -> 0 < buckets0 <= maxBuckets -> now <> zeroTime -> fresh m -> Z.of_nat (size m) < 2 ^ 31 ->
  exists w, New tick0 buckets0 now arm0 = Ret w /\ good w m /\ armed m = ∅ /\ arm w = arm0.
Proof.
  intros Ht Hb Hnow Hfresh Hsize. unfold maxBuckets in *. unfold New, IsZero, maxBuckets.
  destruct (Z.leb_spec tick0 0); [lia|]. destruct (Z.leb_spec buckets0 0); [lia|]. destruct (Z.ltb_spec (2 ^ 31 - 1) buckets0); [lia|].
  destruct (Z.eqb_spec now zeroTime); [done|]. cbn [orb]. rewrite int32_id by lia. eexists. split; [done|].
  set (w0 := MkWheel _ _ _ _ _ _ _ _ _ _). assert (forall x e, m !! x = Some e -> bucket e = notInWheel) as Hf by (intros; by eapply Hfresh).
  assert (armed m = ∅) as Ha.
  { apply map_empty. intros x. destruct (armed m !! x) as [[d p]|] eqn:E; [|done]. apply lookup_armed in E as (e & He & Hne & _). by apply Hf in He. }
  split; [|done]. split; [split| |].
  - pose proof (tickOf_range w0 now Ht) as Hr. split; simpl; [done|lia|done|..].
    + exists (fun _ => []). split.
      * split; [simpl; lia|rewrite length_replicate; lia|..].
        -- split; [rewrite length_replicate; lia| |].
           ++ intros w Hw. rewrite length_replicate in Hw. by rewrite replicate_word.
           ++ intros s Hs. rewrite length_replicate in Hs. unfold sbit. by rewrite replicate_word, Z.testbit_0_l by lia.
        -- intros s Hs. exists None. split; [|done]. apply lookup_replicate. split; [done|lia].
        -- intros s _. apply NoDup_nil_2.
        -- intros s x _ Hx. set_solver.
        -- intros s Hs. unfold sbit. by rewrite replicate_word, Z.testbit_0_l by lia.
      * intros s x Hs. split; [set_solver|]. intros [E _]. destruct (m !! x) as [e|] eqn:He; [|done]. injection E. rewrite (Hf _ _ He). unfold notInWheel. lia.
    + split; [|intros j Hj; simpl in Hj; lia|simpl; lia]. intros i x Hi. done.
    + intros x. split; [set_solver|]. intros E. destruct (m !! x) as [e|] eqn:He; [|done]. injection E. rewrite (Hf _ _ He). unfold notInWheel, inOverflow. lia.
    + intros x e He. left. eauto.
    + set_solver.
  - intros x e He Hb0. rewrite (Hf _ _ He) in Hb0. unfold notInWheel in Hb0. lia.
  - intros x e He Hb0. rewrite (Hf _ _ He) in Hb0. unfold notInWheel, inOverflow in Hb0. lia.
  - simpl. by rewrite Ha, map_size_empty.
  - rewrite Ha. intros x d p Hx. done.
  - left. done.
  - done.
Qed.

Inductive wop : Type := WArm (x : nat) (when period : Z) | WCancel (x : nat) | WAdvance (now : Z) | WLen | WEmpty.
(** What a call shows: the reported entries, and the time the callback holds. *)
Inductive wres : Type := RTold (t : Z) | RDue (due : list nat) (t : Z) | RLen (n : Z) | REmpty (b : bool).

Definition told (w : Wheel) : Z := default zeroTime (head (heard w)).

Definition wstep (o : wop) (w : Wheel) (m : mem) : outcome (wres * Wheel * mem) :=
  match o with
  | WArm x when period => '(w, m) ← Arm x when period w m; Ret (RTold (told w), w, m)
  | WCancel x => '(w, m) ← Cancel x w m; Ret (RTold (told w), w, m)
  | WAdvance now => '(due, w, m) ← Advance now w m; Ret (RDue due (told w), w, m)
  | WLen => Ret (RLen (Len w), w, m)
  | WEmpty => Ret (REmpty (Empty w), w, m)
  end.

Fixpoint wrun (ops : list wop) (w : Wheel) (m : mem) : outcome (list wres * Wheel * mem) :=
  match ops with
  | [] => Ret ([], w, m)
  | o :: ops => '(r, w, m) ← wstep o w m; '(rs, w, m) ← wrun ops w m; Ret (r :: rs, w, m)
  end.

(** The contract, on a map from entries to deadlines and periods: an advance
    reports each entry whose deadline has come once, in some order. *)
Definition wspec (o : wop) (A : gmap nat (Z * Z)) (r : wres) (A' : gmap nat (Z * Z)) : Prop :=
  match o, r with
  | WArm x when period, RTold t => A' = (if IsZero when then delete x A else <[x := (when, period)]> A) /\ earliest_ok A' t
  | WCancel x, RTold t => A' = delete x A /\ earliest_ok A' t
  | WAdvance now, RDue due t =>
      A' = after now A /\ earliest_ok A' t /\ NoDup due /\ forall x, x ∈ due <-> exists d p, A !! x = Some (d, p) /\ d <= now
  | WLen, RLen n => A' = A /\ n = Z.of_nat (size A)
  | WEmpty, REmpty b => A' = A /\ b = bool_decide (A = ∅)
  | _, _ => False
  end.

Inductive wspec_run : list wop -> gmap nat (Z * Z) -> list wres -> gmap nat (Z * Z) -> Prop :=
| wspec_nil A : wspec_run [] A [] A
| wspec_cons o ops A r A' rs A'' : wspec o A r A' -> wspec_run ops A' rs A'' -> wspec_run (o :: ops) A (r :: rs) A''.

Definition op_ok (m : mem) (o : wop) : Prop :=
  match o with
  | WArm x _ _ | WCancel x => x ∈ dom m
  | WAdvance now => zeroTime <= now
  | WLen | WEmpty => True
  end.

Lemma wstep_spec o w m :
  good w m -> arm w = true -> op_ok m o ->
  exists r w' m', wstep o w m = Ret (r, w', m') /\ wspec o (armed m) r (armed m') /\ good w' m' /\ arm w' = true /\ dom m' = dom m.
Proof.
  intros Hg Harm Ho. assert (forall m' : mem, (forall y, is_Some (m' !! y) <-> is_Some (m !! y)) -> dom m' = dom m) as Hdom
    by (intros m' H; apply set_eq; intros y; rewrite !elem_of_dom; apply H).
  assert (forall w' m', good w' m' -> arm w' = true -> earliest_ok (armed m') (told w')) as Htold
    by (intros w' m' Hg' Ha; unfold told; rewrite (g_heard _ _ Hg' Ha); apply Hg').
  destruct o as [x when period|x|now| |]; simpl in Ho |- *.
  - destruct (Arm_spec w m x when period Hg) as (w' & m' & E & Hg' & Ha & Har & Hd); [by apply elem_of_dom|]. rewrite E. cbn [mbind outcome_bind].
    do 3 eexists. split; [done|]. split; [by split; [|apply Htold; [|congruence]]|]. split; [done|]. split; [congruence|auto].
  - destruct (Cancel_spec w m x Hg) as (w' & m' & E & Hg' & Ha & Har & Hd); [by apply elem_of_dom|]. rewrite E. cbn [mbind outcome_bind].
    do 3 eexists. split; [done|]. split; [by split; [|apply Htold; [|congruence]]|]. split; [done|]. split; [congruence|auto].
  - destruct (AdvanceInto_spec now w m Hg [] Ho) as (D & w' & m' & E & Hg' & Hnd & HD & Ha & Har & Hd). unfold Advance. rewrite E. cbn [mbind outcome_bind].
    do 3 eexists. split; [done|]. split; [split; [done|]; split; [apply Htold; [done|congruence]|done]|]. split; [done|]. split; [congruence|auto].
  - do 3 eexists. split; [done|]. simpl. unfold Len. rewrite (se_count _ _ (g_settled _ _ Hg)). auto 10.
  - do 3 eexists. split; [done|]. simpl. unfold Empty. split; [split; [done|]|auto]. rewrite (se_count _ _ (g_settled _ _ Hg)).
    destruct (Z.eqb_spec (Z.of_nat (size (armed m))) 0) as [E|E]; symmetry; [apply bool_decide_eq_true_2, map_size_empty_iff; lia|].
    apply bool_decide_eq_false_2. intros E0. apply E. by rewrite E0, map_size_empty.
Qed.

Lemma wrun_spec ops : forall w m,
  good w m -> arm w = true -> Forall (op_ok m) ops ->
  exists rs w' m', wrun ops w m = Ret (rs, w', m') /\ wspec_run ops (armed m) rs (armed m') /\ good w' m'.
Proof.
  induction ops as [|o ops IH]; intros w m Hg Harm Hops; cbn [wrun]; [do 3 eexists; split; [done|]; split; [constructor|done]|].
  apply Forall_cons_1 in Hops as [Ho Hops]. destruct (wstep_spec o w m Hg Harm Ho) as (r & w1 & m1 & E & Hr & Hg1 & Ha1 & Hd).
  destruct (IH w1 m1 Hg1 Ha1) as (rs & w2 & m2 & E2 & Hrs & Hg2).
  { eapply Forall_impl; [exact Hops|]. intros []; simpl; by rewrite ?Hd. }
  exists (r :: rs), w2, m2. rewrite E. cbn [mbind outcome_bind]. rewrite E2. split; [done|]. split; [by econstructor|done].
Qed.

(** C3. A timing wheel with a callback, over any finite store of fresh
    entries, implements a map from entries to deadlines: every sequence of Arm,
    Cancel, Advance, Len and Empty calls returns; an Advance reports each entry
    whose deadline has come exactly once and no other, re-arms the periodic ones
    and drops the rest; and after every call that can move it the callback's
    last time is the earliest deadline armed, or the zero time when none is. *)
Theorem wheel_refines_deadline_map tick0 buckets0 now m ops :
  0 < tick0 -> 0 < buckets0 <= maxBuckets -> now <> zeroTime -> fresh m -> Z.of_nat (size m) < 2 ^ 31 -> Forall (op_ok m) ops ->
  exists w rs w' m', New tick0 buckets0 now true = Ret w /\ wrun ops w m = Ret (rs, w', m') /\ wspec_run ops ∅ rs (armed m').
Proof.
  intros Ht Hb Hnow Hf Hs Hops. destruct (New_good tick0 buckets0 now true m Ht Hb Hnow Hf Hs) as (w & E & Hg & Ha & Harm).
  destruct (wrun_spec ops w m Hg Harm Hops) as (rs & w' & m' & E' & Hr & _). rewrite Ha in Hr. eauto 10.
Qed.

(** Entries 0 to 3 of an owner, and a day at 10 ms ticks over four slots. *)
Definition four_entries : mem := list_to_map ((fun x => (x, MkEntry None None 0 0 0 0)) <$> seq 0 4).
Definition sample_run : list wop :=
  [WArm 0 1000000000 0; WArm 1 1010000000 20000000; WArm 2 90000000000 0; WArm 3 1035000000 0; WLen; WAdvance 1011000000;
   WCancel 3; WAdvance 1032000000; WAdvance 95000000000; WArm 1 zeroTime 0; WEmpty].

Example sample_run_results :
  (w ← New 10000000 4 1000000000 true; '(rs, _, _) ← wrun sample_run w four_entries; Ret rs) =
  Ret [RTold 1000000000; RTold 1000000000; RTold 1000000000; RTold 1000000000; RLen 4; RDue [1; 0]%nat 1030000000;
       RTold 1030000000; RDue [1]%nat 1050000000; RDue [1; 2]%nat 95020000000; RTold zeroTime; REmpty true].
Proof. vm_compute. reflexivity. Qed.

Lemma wheel_refines_deadline_map_witness :
  exists w rs w' m', New 10000000 4 1000000000 true = Ret w /\ wrun sample_run w four_entries = Ret (rs, w', m') /\ wspec_run sample_run ∅ rs (armed m').
Proof.
  apply (wheel_refines_deadline_map 10000000 4 1000000000 four_entries sample_run).
  - lia.
  - unfold maxBuckets. lia.
  - unfold zeroTime. lia.
  - intros x e H. apply (elem_of_list_to_map_2 _ x e), list_elem_of_fmap in H as (y & E & _). by injection E as -> ->.
  - vm_compute. reflexivity.
  - repeat (apply Forall_cons; split; [vm_compute; first [done | intros H; discriminate H | set_solver]|]); apply Forall_nil_2.
Defined.
