(* ===== verification/GoHeap.v ===== *)
(** * Go's container/heap over a slice

    Push and Pop of the standard library, with the sifts of its up and down,
    for any comparison that orders the elements it meets by a key. *)

From S2P Require Import Prelude.
Local Open Scope nat_scope.

Section Heap.
Context {A : Type} (less : A -> A -> bool).
Implicit Types (l : list A).

Definition Swap (i j : nat) l : list A :=
  match l !! i, l !! j with
  | Some a, Some b => <[i := b]> (<[j := a]> l)
  | _, _ => l
  end.

Definition less_at l (i j : nat) : bool :=
  match l !! i, l !! j with Some a, Some b => less a b | _, _ => false end.

(** The parent [(j - 1) / 2]; at the root Go's division gives the root. *)
Fixpoint up (fuel : nat) (j : nat) l : list A :=
  match fuel with
  | O => l
  | S fuel =>
      let i := (j - 1) / 2 in
      if (i =? j) || negb (less_at l j i) then l else up fuel i (Swap i j l)
  end.

Fixpoint down (fuel : nat) (i n : nat) l : list A :=
  match fuel with
  | O => l
  | S fuel =>
      let j1 := 2 * i + 1 in
      if n <=? j1 then l
      else
        let j2 := j1 + 1 in
        let j := if (j2 <? n) && less_at l j2 j1 then j2 else j1 in
        if negb (less_at l j i) then l else down fuel j n (Swap i j l)
  end.

Definition heap_Push (x : A) l : list A := up (S (length l)) (length l) (l ++ [x]).

Definition heap_Pop l : option (A * list A) :=
  let n := length l - 1 in
  let l := down (S n) 0 n (Swap 0 n l) in
  x ← l !! n; Some (x, take n l).

(** ** Heap order *)

Context (key : A -> Z) (P : A -> Prop).
Hypothesis less_key : forall a b, P a -> P b -> less a b = (key a <? key b)%Z.

Definition parent (i : nat) : nat := (i - 1) / 2.
Definition kz l (i : nat) : Z := match l !! i with Some a => key a | None => 0%Z end.
Definition ordered l : Prop := forall i, 0 < i < length l -> (kz l (parent i) <= kz l i)%Z.
Definition good l : Prop := Forall P l /\ ordered l.

Lemma heap_parent_lt i : 0 < i -> parent i < i.
Proof. intros. unfold parent. apply Nat.Div0.div_lt_upper_bound. lia. Qed.

Lemma parent_child i k : 0 < k -> parent k = i <-> k = 2 * i + 1 \/ k = 2 * i + 2.
Proof.
  intros. unfold parent. pose proof (Nat.div_mod_eq (k - 1) 2). pose proof (Nat.mod_upper_bound (k - 1) 2). lia.
Qed.

Lemma Swap_perm i j l : Swap i j l ≡ₚ l.
Proof.
  unfold Swap. destruct (l !! i) as [a|] eqn:Ea; [|done]. destruct (l !! j) as [b|] eqn:Eb; [|done].
  destruct (decide (i = j)) as [<-|Hne].
  - rewrite list_insert_insert_eq, list_insert_id; [done|]. congruence.
  - apply (Permutation_inj _ l). split; [by rewrite !length_insert|].
    exists (fun k => if decide (k = i) then j else if decide (k = j) then i else k). split.
    + intros x y. repeat case_decide; congruence.
    + intros k. pose proof (lookup_lt_Some _ _ _ Ea). pose proof (lookup_lt_Some _ _ _ Eb).
      case_decide; [subst; by rewrite list_lookup_insert_eq by (by rewrite length_insert)|].
      rewrite list_lookup_insert_ne by done. case_decide; [subst; by rewrite list_lookup_insert_eq|]. by rewrite list_lookup_insert_ne.
Qed.

(** ** Whatever the comparison *)

Lemma up_perm fuel : forall j l, up fuel j l ≡ₚ l.
Proof. induction fuel as [|fuel IH]; intros j l; [done|]. cbn [up]. destruct (_ || _); [done|]. by rewrite IH, Swap_perm. Qed.

Lemma down_perm fuel : forall i n l, down fuel i n l ≡ₚ l.
Proof.
  induction fuel as [|fuel IH]; intros i n l; [done|]. cbn [down]. destruct (n <=? _); [done|].
  destruct (negb _); [done|]. by rewrite IH, Swap_perm.
Qed.

Lemma Push_perm x l : heap_Push x l ≡ₚ x :: l.
Proof. unfold heap_Push. by rewrite up_perm, Permutation_app_comm. Qed.

Lemma Pop_perm l : l <> [] -> exists x l', heap_Pop l = Some (x, l') /\ l ≡ₚ x :: l'.
Proof.
  intros Hne. unfold heap_Pop. set (n := length l - 1). assert (Hlen : length l = S n) by (destruct l; [done|subst n; cbn; lia]).
  assert (Hp : down (S n) 0 n (Swap 0 n l) ≡ₚ l) by (etrans; [apply down_perm|apply Swap_perm]). set (l2 := down _ _ _ _) in *. clearbody l2.
  assert (Hl2 : length l2 = S n) by (by rewrite Hp).
  destruct (lookup_lt_is_Some_2 l2 n) as [x Ex]; [lia|]. rewrite Ex. cbn. exists x, (take n l2). split; [done|].
  rewrite <- Hp. rewrite <- (take_drop n l2) at 1. rewrite (drop_S l2 x n), drop_ge by (done || lia). by rewrite Permutation_app_comm.
Qed.

Lemma length_Swap i j l : length (Swap i j l) = length l.
Proof. apply Permutation_length, Swap_perm. Qed.

Lemma kz_Swap i j l k : i < length l -> j < length l ->
  kz (Swap i j l) k = if decide (k = i) then kz l j else if decide (k = j) then kz l i else kz l k.
Proof.
  intros Hi Hj. destruct (lookup_lt_is_Some_2 _ _ Hi) as [a Ea]. destruct (lookup_lt_is_Some_2 _ _ Hj) as [b Eb].
  unfold Swap, kz. rewrite Ea, Eb. case_decide; [subst; by rewrite list_lookup_insert_eq by (by rewrite length_insert)|].
  rewrite list_lookup_insert_ne by done. case_decide; [subst; by rewrite list_lookup_insert_eq|]. by rewrite list_lookup_insert_ne.
Qed.

Lemma less_at_key l i j : Forall P l -> i < length l -> j < length l -> less_at l i j = (kz l i <? kz l j)%Z.
Proof.
  intros HP Hi Hj. destruct (lookup_lt_is_Some_2 _ _ Hi) as [a Ea]. destruct (lookup_lt_is_Some_2 _ _ Hj) as [b Eb].
  unfold less_at, kz. rewrite Ea, Eb. apply less_key; by eapply Forall_lookup_1.
Qed.

(** Ordered but for the element at [j], which may be smaller than its parent. *)
Definition rising l (j : nat) : Prop :=
  (forall i, 0 < i < length l -> i <> j -> (kz l (parent i) <= kz l i)%Z) /\
  (forall i, 0 < i < length l -> 0 < j -> parent i = j -> (kz l (parent j) <= kz l i)%Z).

Lemma up_spec fuel : forall j l, j < fuel -> j < length l -> Forall P l -> rising l j ->
  ordered (up fuel j l) /\ up fuel j l ≡ₚ l.
Proof.
  induction fuel as [|fuel IH]; intros j l Hf Hj HP [R1 R2]; [lia|]. cbn [up]. change ((j - 1) / 2) with (parent j).
  destruct (Nat.eqb_spec (parent j) j) as [E|E]; cbn [orb].
  { split; [|done]. intros i Hi. destruct (decide (i = j)) as [->|]; [rewrite E; lia|auto]. }
  assert (0 < j) by (destruct j; [done|lia]). pose proof (heap_parent_lt j).
  rewrite less_at_key by (done || lia). destruct (Z.ltb_spec (kz l j) (kz l (parent j))); cbn [negb].
  2: { split; [|done]. intros i Hi. destruct (decide (i = j)) as [->|]; auto. }
  destruct (IH (parent j) (Swap (parent j) j l)) as [O1 O2].
  - lia.
  - rewrite length_Swap. lia.
  - by rewrite Swap_perm.
  - assert (S1 : forall k, k <> parent j -> k <> j -> kz (Swap (parent j) j l) k = kz l k) by (intros; by rewrite kz_Swap, !decide_False by (done || lia)).
    assert (S2 : kz (Swap (parent j) j l) (parent j) = kz l j) by (by rewrite kz_Swap, decide_True by (done || lia)).
    assert (S3 : kz (Swap (parent j) j l) j = kz l (parent j)) by (by rewrite kz_Swap, decide_False, decide_True by (done || lia)).
    split; intros i Hi; rewrite length_Swap in Hi.
    + intros Hne. destruct (decide (i = j)) as [->|Hnj]; [lia|]. rewrite (S1 i) by done. specialize (R1 i Hi Hnj).
      destruct (decide (parent i = parent j)) as [E1|E1]; [rewrite E1, S2 in *; lia|].
      destruct (decide (parent i = j)) as [E2|E2]; [rewrite E2, S3 in *; by apply R2|]. by rewrite S1.
    + intros Hp Ei. pose proof (heap_parent_lt (parent j) Hp). rewrite (S1 (parent (parent j))) by lia.
      specialize (R1 (parent j) ltac:(lia) E) as R3. destruct (decide (i = j)) as [->|Hnj]; [lia|].
      specialize (R1 i Hi Hnj). pose proof (heap_parent_lt i). rewrite S1 by lia. rewrite Ei in *. lia.
  - split; [done|]. by rewrite O2, Swap_perm.
Qed.

(** Ordered up to [n] but for the children of [i]. *)
Definition sinking l (i n : nat) : Prop :=
  (forall k, 0 < k < n -> parent k <> i -> (kz l (parent k) <= kz l k)%Z) /\
  (forall k, 0 < k < n -> 0 < i -> parent k = i -> (kz l (parent i) <= kz l k)%Z).

Lemma down_spec fuel : forall i n l, n <= i + fuel -> n <= length l -> i < n -> Forall P l -> sinking l i n ->
  (forall k, 0 < k < n -> (kz (down fuel i n l) (parent k) <= kz (down fuel i n l) k)%Z) /\
  down fuel i n l ≡ₚ l /\ forall k, n <= k -> down fuel i n l !! k = l !! k.
Proof.
  induction fuel as [|fuel IH]; intros i n l Hf Hn Hi HP [R1 R2]; [lia|]. cbn [down].
  destruct (Nat.leb_spec n (2 * i + 1)) as [Hc|Hc].
  { split; [|done]. intros k Hk. apply R1; [done|]. intros E. apply parent_child in E; lia. }
  set (j := if _ && _ then _ else _).
  assert (kids : forall k, parent k = i -> 0 < k < n -> k = 2 * i + 1 \/ k = 2 * i + 1 + 1) by (intros k E Hk; apply parent_child in E; lia).
  assert (Hj : (j = 2 * i + 1 \/ j = 2 * i + 2) /\ j < n /\ forall k, 0 < k < n -> parent k = i -> (kz l j <= kz l k)%Z).
  { subst j. destruct (Nat.ltb_spec (2 * i + 1 + 1) n); cbn [andb].
    - rewrite less_at_key by (done || lia). destruct (Z.ltb_spec (kz l (2 * i + 1 + 1)) (kz l (2 * i + 1))).
      + split; [lia|]. split; [lia|]. intros k Hk E. destruct (kids k E Hk) as [->| ->]; lia.
      + split; [lia|]. split; [lia|]. intros k Hk E. destruct (kids k E Hk) as [->| ->]; lia.
    - split; [lia|]. split; [lia|]. intros k Hk E. destruct (kids k E Hk) as [->| ->]; lia. }
  clearbody j. destruct Hj as (Hj & Hjn & Hmin).
  assert (Epj : parent j = i) by (apply parent_child; lia).
  rewrite less_at_key by (done || lia). destruct (Z.ltb_spec (kz l j) (kz l i)) as [Hlt|Hge]; cbn [negb].
  2: { split; [|done]. intros k Hk. destruct (decide (parent k = i)) as [E|E]; [|auto]. specialize (Hmin k Hk E). rewrite E. lia. }
  assert (S1 : forall k, k <> i -> k <> j -> kz (Swap i j l) k = kz l k) by (intros; by rewrite kz_Swap, !decide_False by (done || lia)).
  assert (S2 : kz (Swap i j l) i = kz l j) by (by rewrite kz_Swap, decide_True by (done || lia)).
  assert (S3 : kz (Swap i j l) j = kz l i) by (by rewrite kz_Swap, decide_False, decide_True by (done || lia)).
  destruct (IH j n (Swap i j l)) as (O1 & O2 & O3); [lia|rewrite length_Swap; lia|lia|by rewrite Swap_perm|..].
  - split; intros k Hk.
    + intros Hne. destruct (decide (k = j)) as [->|Hkj]; [rewrite Epj; lia|].
      destruct (decide (parent k = i)) as [E|E].
      * specialize (Hmin k Hk E). rewrite E, S2, S1; [done| |done]. pose proof (heap_parent_lt k). lia.
      * rewrite (S1 (parent k)) by done. destruct (decide (k = i)) as [->|Hki].
        -- rewrite S2. apply R2; [lia|lia|done].
        -- rewrite S1 by done. auto.
    + intros _ E. rewrite Epj, S2. pose proof (heap_parent_lt k). rewrite S1 by lia. specialize (R1 k Hk). rewrite E in R1. apply R1. lia.
  - split; [done|]. split; [by rewrite O2, Swap_perm|]. intros k Hk. rewrite O3 by done.
    unfold Swap. destruct (l !! i); [|done]. destruct (l !! j); [|done]. rewrite !list_lookup_insert_ne by lia. done.
Qed.

Lemma Push_good x l : good l -> P x -> good (heap_Push x l) /\ heap_Push x l ≡ₚ x :: l.
Proof.
  intros [HP HO] Hx. unfold heap_Push.
  assert (HP' : Forall P (l ++ [x])) by (apply Forall_app; auto).
  destruct (up_spec (S (length l)) (length l) (l ++ [x])) as [O1 O2]; [lia|rewrite length_app; cbn; lia|done|..].
  - split; intros i Hi; rewrite length_app in Hi; cbn in Hi.
    + intros Hne. assert (Hk : forall k, k < length l -> kz (l ++ [x]) k = kz l k) by (intros; unfold kz; by rewrite lookup_app_l).
      pose proof (heap_parent_lt i). rewrite !Hk by lia. apply HO. lia.
    + intros _ E. pose proof (heap_parent_lt i). lia.
  - split; [split; [by rewrite O2|done]|]. rewrite O2. by rewrite Permutation_app_comm.
Qed.

Lemma root_least l : ordered l -> forall i, i < length l -> (kz l 0 <= kz l i)%Z.
Proof.
  intros HO i. induction i as [i IH] using lt_wf_ind. intros Hi. destruct (decide (i = 0)) as [->|]; [lia|].
  pose proof (heap_parent_lt i). specialize (IH (parent i) ltac:(lia) ltac:(lia)). specialize (HO i ltac:(lia)). lia.
Qed.

Lemma Pop_good l : good l -> l <> [] ->
  exists x l', heap_Pop l = Some (x, l') /\ good l' /\ l ≡ₚ x :: l' /\ Forall (fun y => (key x <= key y)%Z) l'.
Proof.
  intros [HP HO] Hne. unfold heap_Pop. set (n := length l - 1). assert (Hlen : length l = S n) by (destruct l; [done|cbn in n; subst n; cbn; lia]).
  set (l1 := Swap 0 n l). assert (HP1 : Forall P l1) by (unfold l1; by rewrite Swap_perm).
  assert (Hl1 : length l1 = S n) by (unfold l1; by rewrite length_Swap).
  destruct (lookup_lt_is_Some_2 l 0) as [x Ex]; [lia|].
  assert (En : l1 !! n = Some x).
  { unfold l1, Swap. rewrite Ex. destruct (lookup_lt_is_Some_2 l n) as [y Ey]; [lia|]. rewrite Ey.
    destruct (decide (n = 0)) as [E|E]; [rewrite E in *; rewrite list_lookup_insert_eq by (rewrite length_insert; lia); congruence|].
    rewrite list_lookup_insert_ne by lia. apply list_lookup_insert_eq. lia. }
  assert (Hd : (forall k, 0 < k < n -> (kz (down (S n) 0 n l1) (parent k) <= kz (down (S n) 0 n l1) k)%Z) /\
    down (S n) 0 n l1 ≡ₚ l1 /\ forall k, n <= k -> down (S n) 0 n l1 !! k = l1 !! k).
  { destruct (decide (n = 0)) as [E|E].
    - rewrite E. cbn. split; [lia|done].
    - apply down_spec; [lia|lia|lia|done|]. split; intros k Hk; [|lia]. intros Hp. pose proof (heap_parent_lt k).
      assert (Hs : forall i, i <> 0 -> i < n -> kz l1 i = kz l i) by (intros; unfold l1; by rewrite kz_Swap, !decide_False by lia).
      rewrite !Hs by lia. apply HO. lia. }
  destruct Hd as (D1 & D2 & D3). set (l2 := down (S n) 0 n l1) in *. clearbody l2.
  rewrite D3, En by lia. cbn. exists x, (take n l2). split; [done|].
  assert (Hl2 : length l2 = S n) by (by rewrite D2).
  assert (Hp : l ≡ₚ x :: take n l2).
  { rewrite <- (Swap_perm 0 n l). fold l1. rewrite <- D2. rewrite <- (take_drop n l2) at 1.
    rewrite (drop_S l2 x n), drop_ge by (lia || (rewrite D3 by lia; done)). by rewrite Permutation_app_comm. }
  split; [split|split; [done|]].
  - rewrite Hp in HP. by inversion HP.
  - intros i Hi. rewrite length_take in Hi. assert (Hk : forall k, k < n -> kz (take n l2) k = kz l2 k) by (intros; unfold kz; by rewrite lookup_take_lt).
    pose proof (heap_parent_lt i). rewrite !Hk by lia. apply D1. lia.
  - apply Forall_forall. intros y Hy. assert (Hin : y ∈ l) by (rewrite Hp; by right).
    apply list_elem_of_lookup in Hin as [i Hi]. pose proof (root_least l HO i (lookup_lt_Some _ _ _ Hi)) as HR.
    unfold kz in HR. by rewrite Ex, Hi in HR.
Qed.
End Heap.
