(* ===== verification/KcpRing.v ===== *)
(** * ukcp/internal/kcp/ringbuffer.go: the growing ring buffer

    A queue in a circular array that keeps one slot free and grows when full.
    Pointers into the array ([Peek], [At], the argument of a [ForEach]
    callback) are modelled by what the caller reads and writes through them. *)

From S2P Require Import Prelude Update.
Local Open Scope nat_scope.

Definition RINGBUFFER_MIN : nat := 8.
Definition RINGBUFFER_EXP : nat := 1024.

Record RingBuffer (T : Type) : Type := MkRing { head : nat; tail : nat; elements : list T }.
Arguments MkRing {T}.
Arguments head {T}.
Arguments tail {T}.
Arguments elements {T}.

Section Ring.
Context {T : Type} (zero : T).
Implicit Types (r : RingBuffer T) (q : list T).

Definition NewRingBuffer (size : Z) : RingBuffer T :=
  let size := if (size <=? Z.of_nat RINGBUFFER_MIN)%Z then RINGBUFFER_MIN else Z.to_nat size in
  MkRing 0 0 (replicate size zero).

Definition cap r : nat := length (elements r).

Definition Len r : nat :=
  if head r <=? tail r then tail r - head r else cap r - head r + tail r.

Definition IsEmpty r : bool := head r =? tail r.
Definition MaxLen r : nat := cap r - 1.
Definition IsFull r : bool := (tail r + 1) mod cap r =? head r.

Definition grow r : RingBuffer T :=
  let newSize :=
    if cap r <? RINGBUFFER_MIN then RINGBUFFER_MIN
    else if cap r <? RINGBUFFER_EXP then cap r * 2
    else cap r + (cap r + 9) / 10 in
  let live :=
    if head r <? tail r then take (tail r - head r) (drop (head r) (elements r))
    else drop (head r) (elements r) ++ take (tail r) (elements r) in
  MkRing 0 (Len r) (take newSize live ++ replicate (newSize - length live) zero).

Definition Push (v : T) r : outcome (RingBuffer T) :=
  let r := if IsFull r then grow r else r in
  if tail r <? cap r
  then Ret (MkRing (head r) ((tail r + 1) mod cap r) (<[tail r := v]> (elements r)))
  else Panic PanicSliceBounds.

Definition Pop r : outcome (option T * RingBuffer T) :=
  if Len r =? 0 then Ret (None, r)
  else v ← index (elements r) (Z.of_nat (head r));
       Ret (Some v, MkRing ((head r + 1) mod cap r) (tail r) (<[head r := zero]> (elements r))).

(** The element [Peek] points to. *)
Definition Peek r : outcome (option T) :=
  if Len r =? 0 then Ret None else Some <$> index (elements r) (Z.of_nat (head r)).

(** The slot [At] points to. *)
Definition at_slot (i : nat) r : nat :=
  let j := head r + i in
  if cap r <=? j then j - cap r else j.

Definition At (i : nat) r : outcome T := index (elements r) (Z.of_nat (at_slot i r)).

(** A write through the pointer [At] returned. *)
Definition store_at (i : nat) (f : T -> T) r : RingBuffer T :=
  MkRing (head r) (tail r) (alter f (at_slot i r) (elements r)).

(** clear(elements[a:b]) *)
Definition clear_range (a b : nat) q : outcome (list T) :=
  if (a <=? b) && (b <=? length q)
  then Ret (take a q ++ replicate (b - a) zero ++ drop b q)
  else Panic PanicSliceBounds.

Definition Clear r : RingBuffer T :=
  let wipe a b q := foldr (fun i => <[i := zero]>) q (seq a (b - a)) in
  MkRing 0 0
    (if head r <=? tail r then wipe (head r) (tail r) (elements r)
     else wipe 0 (tail r) (wipe (head r) (cap r) (elements r))).

Definition Discard (n : Z) r : outcome (Z * RingBuffer T) :=
  let currentLen := Z.of_nat (Len r) in
  let n := Z.min n currentLen in
  if (n =? currentLen)%Z then Ret (n, Clear r)
  else
    let end_ := (Z.of_nat (head r) + n)%Z in
    if (end_ <? 0)%Z then Panic PanicSliceBounds
    else if (end_ <? Z.of_nat (cap r))%Z then
      l ← clear_range (head r) (Z.to_nat end_) (elements r);
      Ret (n, MkRing (Z.to_nat end_) (tail r) l)
    else
      l ← clear_range (head r) (cap r) (elements r);
      l ← clear_range 0 (Z.to_nat end_ - cap r) l;
      Ret (n, MkRing (Z.to_nat end_ - cap r) (tail r) l).

(** The loops of ForEach and ForEachReverse: the callback sees an element and
    its own state, may replace both, and says whether to go on. *)
Fixpoint visit {S} (fn : T -> S -> T * S * bool) (idx : list nat) (l : list T) (st : S) : outcome (list T * S) :=
  match idx with
  | [] => Ret (l, st)
  | i :: idx =>
      x ← index l (Z.of_nat i);
      let '(x, st, more) := fn x st in
      let l := <[i := x]> l in
      if more then visit fn idx l st else Ret (l, st)
  end.

Definition live_slots r : list nat :=
  if head r <? tail r then seq (head r) (tail r - head r)
  else seq (head r) (cap r - head r) ++ seq 0 (tail r).

Definition ForEach {S} (fn : T -> S -> T * S * bool) r (st : S) : outcome (RingBuffer T * S) :=
  if Len r =? 0 then Ret (r, st)
  else '(l, st) ← visit fn (live_slots r) (elements r) st; Ret (MkRing (head r) (tail r) l, st).

Definition ForEachReverse {S} (fn : T -> S -> T * S * bool) r (st : S) : outcome (RingBuffer T * S) :=
  if Len r =? 0 then Ret (r, st)
  else '(l, st) ← visit fn (reverse (live_slots r)) (elements r) st; Ret (MkRing (head r) (tail r) l, st).

(** ** What a ring holds

    The queue lies in one run between blank slots, or in two runs around them;
    every slot outside it is blank, so the ring keeps no reference to what
    left it. *)
Inductive rep r q : Prop :=
| rep_one a n : elements r = replicate a zero ++ q ++ replicate (S n) zero ->
    head r = a -> tail r = a + length q -> rep r q
| rep_two q1 q2 n : q = q1 ++ q2 -> q1 <> [] -> elements r = q2 ++ replicate (S n) zero ++ q1 ->
    head r = length q2 + S n -> tail r = length q2 -> rep r q.

Ltac lens := rewrite ?length_app, ?length_replicate, ?length_insert, ?length_take, ?length_drop in *; cbn [length] in *.

Lemma rep_cap r q : rep r q -> length q < cap r /\ head r < cap r /\ tail r < cap r.
Proof.
  unfold cap. intros [a n E -> ->|q1 q2 n -> Hq E -> ->]; rewrite E; lens; [lia|].
  destruct q1; [done|]. cbn. lia.
Qed.

Lemma rep_Len r q : rep r q -> Len r = length q.
Proof.
  unfold Len, cap. intros [a n E -> ->|q1 q2 n -> Hq E -> ->]; rewrite ?E; lens.
  - destruct (Nat.leb_spec a (a + length q)); lia.
  - destruct (Nat.leb_spec (length q2 + S n) (length q2)); lia.
Qed.

Lemma rep_new size : rep (NewRingBuffer size) [].
Proof.
  unfold NewRingBuffer. set (m := if (size <=? _)%Z then _ else _).
  assert (Hm : exists n, m = S n) by (subst m; destruct (Z.leb_spec size (Z.of_nat RINGBUFFER_MIN)); [by exists 7|exists (Z.to_nat size - 1); unfold RINGBUFFER_MIN in *; lia]).
  destruct Hm as [n ->]. by apply (rep_one _ _ 0 n).
Qed.

Lemma insert_mid (l1 l2 : list T) x y i : i = length l1 -> <[i := y]> (l1 ++ x :: l2) = l1 ++ y :: l2.
Proof. intros ->. rewrite <- (Nat.add_0_r (length l1)), insert_app_r. done. Qed.

Lemma replicate_snoc n : replicate n zero ++ [zero] = replicate (S n) zero.
Proof. by rewrite <- replicate_S_end. Qed.

Lemma rep_live r q : rep r q -> 
  (if head r <? tail r then take (tail r - head r) (drop (head r) (elements r))
   else drop (head r) (elements r) ++ take (tail r) (elements r)) = q ++ (if decide (q = []) then elements r else []).
Proof.
  intros [a n E Ha Ht|q1 q2 n -> Hq E Hh Ht]; rewrite ?Ha, ?Ht, ?Hh, ?E.
  - rewrite drop_app_length' by (by rewrite length_replicate). case_decide as Hd.
    + subst q. cbn [length app]. destruct (Nat.ltb_spec a (a + 0)); [lia|]. rewrite Nat.add_0_r, take_app_length' by (by rewrite length_replicate).
      rewrite <- !replicate_add. f_equal. lia.
    + assert (0 < length q) by (destruct q; [done|cbn; lia]).
      destruct (Nat.ltb_spec a (a + length q)); [|lia]. rewrite take_app_length' by lia. by rewrite app_nil_r.
  - destruct (Nat.ltb_spec (length q2 + S n) (length q2)); [lia|].
    rewrite app_assoc, drop_app_length', <- app_assoc, take_app_length by (rewrite length_app, length_replicate; lia).
    rewrite decide_False, app_nil_r; [done|]. destruct q1; done.
Qed.

Lemma IsFull_rep r q : rep r q -> IsFull r = true <-> length q = cap r - 1.
Proof.
  intros Hr. pose proof (rep_cap _ _ Hr) as (C1 & C2 & C3). pose proof (rep_Len _ _ Hr) as HL. unfold IsFull, Len in *.
  rewrite Nat.eqb_eq. destruct (decide (tail r + 1 = cap r)) as [E|E].
  - rewrite E, Nat.Div0.mod_same. destruct (Nat.leb_spec (head r) (tail r)); lia.
  - rewrite Nat.mod_small by lia. destruct (Nat.leb_spec (head r) (tail r)); lia.
Qed.

Lemma grow_rep r q : rep r q -> IsFull r = true -> q <> [] ->
  exists n, elements (grow r) = q ++ replicate (S (S n)) zero /\ head (grow r) = 0 /\ tail (grow r) = length q.
Proof.
  intros Hr Hf Hq. pose proof (rep_cap _ _ Hr) as (C1 & _). apply (IsFull_rep r q Hr) in Hf.
  unfold grow. cbn [elements head tail]. rewrite (rep_live r q Hr), decide_False, app_nil_r, (rep_Len r q Hr) by done.
  set (m := if cap r <? RINGBUFFER_MIN then _ else _). assert (Hm : cap r < m).
  { subst m. unfold RINGBUFFER_MIN, RINGBUFFER_EXP. destruct (Nat.ltb_spec (cap r) 8); [lia|].
    destruct (Nat.ltb_spec (cap r) 1024); [lia|]. pose proof (Nat.div_le_lower_bound (cap r + 9) 10 1 ltac:(lia) ltac:(lia)). lia. }
  rewrite take_ge by lia. exists (m - length q - 2). split; [|done]. do 2 f_equal. lia.
Qed.

Lemma Push_room v r q : rep r q -> IsFull r = false ->
  exists r', (if tail r <? cap r then Ret (MkRing (head r) ((tail r + 1) mod cap r) (<[tail r := v]> (elements r))) else Panic PanicSliceBounds) = Ret r' /\
    rep r' (q ++ [v]).
Proof.
  intros Hr Hf. pose proof (rep_cap _ _ Hr) as (C1 & C2 & C3). destruct (Nat.ltb_spec (tail r) (cap r)); [|lia].
  eexists. split; [done|]. unfold IsFull in Hf. apply Nat.eqb_neq in Hf.
  destruct Hr as [a n E Ha Ht|q1 q2 n -> Hq E Hh Ht].
  - assert (Hc : cap r = a + length q + S n) by (unfold cap; rewrite E; lens; lia).
    assert (Ei : <[tail r := v]> (elements r) = replicate a zero ++ (q ++ [v]) ++ replicate n zero).
    { rewrite E, app_assoc. cbn [replicate]. rewrite insert_mid by (lens; lia). by rewrite <- !app_assoc. }
    rewrite Ei. destruct n as [|n].
    + replace (tail r + 1) with (cap r) in * by lia. rewrite Nat.Div0.mod_same in *. destruct a as [|a]; [lia|].
      apply (rep_two _ _ (q ++ [v]) [] a); cbn; rewrite ?app_nil_r; try done. by destruct q.
    + rewrite Nat.mod_small by lia. apply (rep_one _ _ a n); cbn; [done..|]. lens. lia.
  - assert (Hc : cap r = length q2 + S n + length q1) by (unfold cap; rewrite E; lens; lia).
    assert (0 < length q1) by (destruct q1; [done|cbn; lia]).
    rewrite Nat.mod_small in Hf by lia. destruct n as [|n]; [lia|].
    apply (rep_two _ _ q1 (q2 ++ [v]) n); cbn [head tail elements]; [by rewrite app_assoc|done|..].
    + rewrite E. cbn [replicate app]. rewrite insert_mid by lia. by rewrite <- app_assoc.
    + lens. lia.
    + rewrite Nat.mod_small by lia. lens. lia.
Qed.

Lemma Push_rep v r q : rep r q -> exists r', Push v r = Ret r' /\ rep r' (q ++ [v]).
Proof.
  intros Hr. unfold Push. destruct (IsFull r) eqn:Ef; [|by apply Push_room].
  assert (Hg : exists n, elements (grow r) = q ++ replicate (S (S n)) zero /\ head (grow r) = 0 /\ tail (grow r) = length q).
  { destruct q as [|x q]; [|by apply grow_rep]. pose proof (rep_cap _ _ Hr) as (C1 & C2 & C3).
    apply (IsFull_rep r [] Hr) in Ef. assert (E1 : cap r = 1) by (cbn in Ef, C1; lia). assert (head r = 0 /\ tail r = 0) as [E2 E3] by lia.
    unfold grow. cbn. unfold Len. rewrite E1, E2, E3. cbn. assert (exists y, elements r = [y]) as [y Ey].
    { unfold cap in E1. destruct (elements r) as [|y [|]]; try done. by exists y. }
    destruct Hr as [a n E Ha Ht|q1 q2 n E' Hq E Hh Ht]; [|destruct q1; done].
    rewrite E. rewrite Ey in E. destruct a; [|destruct a; done]. destruct n; [|done]. cbn in *. by exists 6. }
  destruct Hg as (n & E & Eh & Et). assert (Hr' : rep (grow r) q) by (by apply (rep_one _ _ 0 (S n))).
  apply Push_room; [done|]. apply not_true_iff_false. rewrite (IsFull_rep _ q Hr'). unfold cap. rewrite E. lens. lia.
Qed.

Lemma Pop_rep r q : rep r q ->
  match q with
  | [] => Pop r = Ret (None, r)
  | v :: q' => exists r', Pop r = Ret (Some v, r') /\ rep r' q'
  end.
Proof.
  intros Hr. unfold Pop. rewrite (rep_Len _ _ Hr). destruct q as [|v q']; [done|]. cbn [length Nat.eqb].
  pose proof (rep_cap _ _ Hr) as (C1 & C2 & C3).
  assert (Hx : exists l1 l2, elements r = l1 ++ v :: l2 /\ head r = length l1).
  { destruct Hr as [a n E Ha Ht|q1 q2 n Eq Hq E Hh Ht].
    - exists (replicate a zero), (q' ++ replicate (S n) zero). split; [done|lens; lia].
    - destruct q1 as [|x q1]; [done|]. injection Eq as <- Eq. exists (q2 ++ replicate (S n) zero), q1. split; [by rewrite E, <- app_assoc|lens; lia]. }
  destruct Hx as (l1 & l2 & E & Eh). rewrite (proj2 (index_Ret (elements r) (Z.of_nat (head r)) v)).
  2: { split; [lia|]. rewrite Nat2Z.id, E, Eh. by apply list_lookup_middle. }
  eexists. split; [done|]. rewrite E, insert_mid by done.
  destruct Hr as [a n E0 Ha Ht|q1 q2 n Eq Hq E0 Hh Ht].
  - assert (Hl : l1 = replicate a zero /\ v :: l2 = v :: q' ++ replicate (S n) zero) by (apply app_inj_1; [lens; lia|by rewrite <- E, E0]).
    destruct Hl as [-> [= ->]]. assert (Hc : cap r = a + S (length q') + S n) by (unfold cap; rewrite E0; lens; lia).
    rewrite Nat.mod_small by lia. apply (rep_one _ _ (S a) n); cbn [head tail elements]; [|lia|cbn in Ht; lia].
    rewrite <- replicate_snoc, <- app_assoc. done.
  - destruct q1 as [|x q1]; [done|]. injection Eq as <- Eq.
    assert (Hl : l1 = q2 ++ replicate (S n) zero /\ v :: l2 = v :: q1) by (apply app_inj_1; [lens; lia|by rewrite <- E, E0, <- app_assoc]).
    destruct Hl as [-> [= ->]]. assert (Hc : cap r = length q2 + S n + S (length q1)) by (unfold cap; rewrite E0; lens; lia).
    destruct q1 as [|y q1].
    + rewrite Eq. replace (head r + 1) with (cap r) by (cbn in Hc; lia). rewrite Nat.Div0.mod_same.
      apply (rep_one _ _ 0 (S n)); cbn [head tail elements]; [|done|cbn; lia].
      rewrite <- app_assoc, replicate_snoc. done.
    + rewrite Nat.mod_small by (cbn in Hc; lia). apply (rep_two _ _ (y :: q1) q2 (S n)); cbn [head tail elements]; [done..| |lia|done].
      rewrite <- (replicate_snoc (S n)), <- !app_assoc. done.
Qed.

Lemma Peek_rep r q : rep r q -> Peek r = Ret (q !! 0).
Proof.
  intros Hr. pose proof (Pop_rep r q Hr) as HP. unfold Pop, Peek in *. rewrite (rep_Len _ _ Hr) in *.
  destruct q as [|v q]; [done|]. cbn [length Nat.eqb] in *. destruct HP as (r' & E & _).
  destruct (index _ _); [|done]. cbn in *. by injection E as ->.
Qed.

(** The slot of the queue's element [i]. *)
Lemma slot_rep r q i : rep r q -> i < length q ->
  elements r !! at_slot i r = q !! i /\ forall f, rep (store_at i f r) (alter f i q).
Proof.
  intros Hr Hi. pose proof (rep_cap _ _ Hr) as (C1 & C2 & C3). unfold store_at, at_slot.
  destruct Hr as [a n E Ha Ht|q1 q2 n -> Hq E Hh Ht].
  - assert (Hc : cap r = a + length q + S n) by (unfold cap; rewrite E; lens; lia).
    destruct (Nat.leb_spec (cap r) (head r + i)); [lia|]. rewrite E, Ha. split.
    + rewrite lookup_app_r by (lens; lia). lens. replace (a + i - a) with i by lia. by apply lookup_app_l.
    + intros f. apply (rep_one _ _ a n); cbn [head tail elements]; [|done|by rewrite length_alter].
      rewrite alter_app_r_alt by (lens; lia). lens. replace (a + i - a) with i by lia. by rewrite alter_app_l.
  - assert (Hc : cap r = length q2 + S n + length q1) by (unfold cap; rewrite E; lens; lia). lens.
    destruct (Nat.leb_spec (cap r) (head r + i)).
    + replace (head r + i - cap r) with (i - length q1) by lia. rewrite E. split.
      * rewrite lookup_app_l, (lookup_app_r q1) by lia. done.
      * intros f. apply (rep_two _ _ q1 (alter f (i - length q1) q2) n); cbn [head tail elements];
          rewrite ?length_alter; try done; [by rewrite alter_app_r_alt by lia|by rewrite alter_app_l by lia].
    + rewrite E, app_assoc. split.
      * rewrite lookup_app_r, lookup_app_l by (lens; lia). lens. f_equal. lia.
      * intros f. apply (rep_two _ _ (alter f i q1) q2 n); cbn [head tail elements]; rewrite ?length_alter; try done.
        -- by rewrite alter_app_l by lia.
        -- intros X. apply Hq, nil_length_inv. apply (f_equal length) in X. by rewrite length_alter in X.
        -- rewrite alter_app_r_alt by (lens; lia). lens. replace (head r + i - (length q2 + S n)) with i by lia. by rewrite <- app_assoc.
Qed.

Lemma At_rep r q i x : rep r q -> q !! i = Some x -> At i r = Ret x.
Proof.
  intros Hr Hx. pose proof (lookup_lt_Some _ _ _ Hx) as Hi. apply index_Ret. split; [lia|].
  rewrite Nat2Z.id. rewrite (proj1 (slot_rep r q i Hr Hi)). done.
Qed.

Lemma wipe_spec (l1 l2 l3 : list T) a b : a = length l1 -> b = length l1 + length l2 ->
  foldr (fun i => <[i := zero]>) (l1 ++ l2 ++ l3) (seq a (b - a)) = l1 ++ replicate (length l2) zero ++ l3.
Proof.
  intros -> ->. replace (length l1 + length l2 - length l1) with (length l2) by lia.
  revert l1. induction l2 as [|x l2 IH]; intros l1; [done|]. cbn [length seq foldr replicate app].
  specialize (IH (l1 ++ [x])). rewrite length_app, Nat.add_1_r, <- !app_assoc in IH. cbn [app] in IH. rewrite IH.
  rewrite insert_mid by done. done.
Qed.

Lemma Clear_rep r q : rep r q -> rep (Clear r) [].
Proof.
  intros Hr. unfold Clear. pose proof (rep_cap _ _ Hr) as (C1 & C2 & C3).
  destruct Hr as [a n E Ha Ht|q1 q2 n -> Hq E Hh Ht].
  - destruct (Nat.leb_spec (head r) (tail r)); [|lia]. rewrite E, wipe_spec by (lens; lia).
    rewrite <- !replicate_add. replace (a + (length q + S n)) with (S (a + length q + n)) by lia. by apply (rep_one _ _ 0 (a + length q + n)).
  - assert (Hc : cap r = length q2 + S n + length q1) by (unfold cap; rewrite E; lens; lia).
    destruct (Nat.leb_spec (head r) (tail r)); [lia|].
    replace (elements r) with ((q2 ++ replicate (S n) zero) ++ q1 ++ []) by (by rewrite E, app_nil_r, app_assoc).
    rewrite wipe_spec by (lens; lia). rewrite <- app_assoc, app_nil_r, <- replicate_add.
    change (q2 ++ replicate (S n + length q1) zero) with ([] ++ q2 ++ replicate (S n + length q1) zero).
    rewrite wipe_spec by (lens; lia). cbn [app]. rewrite <- replicate_add.
    replace (length q2 + (S n + length q1)) with (S (length q2 + n + length q1)) by lia.
    by apply (rep_one _ _ 0 (length q2 + n + length q1)).
Qed.

Lemma clear_range_spec (l1 l2 l3 : list T) a b : a = length l1 -> b = length l1 + length l2 ->
  clear_range a b (l1 ++ l2 ++ l3) = Ret (l1 ++ replicate (length l2) zero ++ l3).
Proof.
  intros -> ->. unfold clear_range. rewrite !length_app.
  destruct (Nat.leb_spec (length l1) (length l1 + length l2)); [|lia].
  destruct (Nat.leb_spec (length l1 + length l2) (length l1 + (length l2 + length l3))); [|lia]. cbn [andb].
  rewrite take_app_length, (app_assoc l1 l2 l3), drop_app_length' by (by rewrite length_app).
  do 4 f_equal. lia.
Qed.

Lemma Discard_rep n r q : (0 <= n)%Z -> rep r q ->
  exists r', Discard n r = Ret (Z.min n (Z.of_nat (length q)), r') /\ rep r' (drop (Z.to_nat n) q).
Proof.
  intros Hn Hr. unfold Discard. rewrite (rep_Len _ _ Hr). pose proof (rep_cap _ _ Hr) as (C1 & C2 & C3).
  destruct (Z.eqb_spec (Z.min n (Z.of_nat (length q))) (Z.of_nat (length q))) as [E|E].
  { eexists. split; [done|]. rewrite drop_ge by lia. by eapply Clear_rep. }
  set (m := Z.to_nat n). replace (Z.min n (Z.of_nat (length q))) with (Z.of_nat m) by lia.
  assert (Hm : m < length q) by lia. clearbody m.
  destruct (Z.ltb_spec (Z.of_nat (head r) + Z.of_nat m) 0); [lia|].
  destruct Hr as [a k Er Ha Ht|q1 q2 k -> Hq Er Hh Ht].
  - assert (Hc : cap r = a + length q + S k) by (unfold cap; rewrite Er; lens; lia).
    destruct (Z.ltb_spec (Z.of_nat (head r) + Z.of_nat m) (Z.of_nat (cap r))); [|lia].
    rewrite Er, <- (take_drop m q), <- app_assoc, clear_range_spec by (lens; lia). cbn.
    eexists. split; [done|]. rewrite take_drop. apply (rep_one _ _ (a + m) k); cbn [head tail elements]; lens; [|lia..].
    rewrite app_assoc, <- replicate_add. do 2 f_equal. lia.
  - assert (Hc : cap r = length q2 + S k + length q1) by (unfold cap; rewrite Er; lens; lia). lens.
    destruct (Z.ltb_spec (Z.of_nat (head r) + Z.of_nat m) (Z.of_nat (cap r))).
    + assert (m < length q1) by lia.
      replace (elements r) with ((q2 ++ replicate (S k) zero) ++ take m q1 ++ drop m q1) by (by rewrite take_drop, Er, app_assoc).
      rewrite clear_range_spec by (lens; lia). cbn [mbind outcome_bind].
      eexists. split; [done|]. apply (rep_two _ _ (drop m q1) q2 (k + m)); cbn [head tail elements]; lens; [|..|lia|done].
      * by rewrite drop_app_le by lia.
      * intros X. apply (f_equal length) in X. lens. lia.
      * rewrite <- app_assoc, (app_assoc (replicate (S k) zero)), <- replicate_add. replace (S k + m `min` length q1) with (S (k + m)) by lia. done.
    + assert (length q1 <= m) by lia.
      replace (elements r) with ((q2 ++ replicate (S k) zero) ++ q1 ++ []) by (by rewrite Er, app_nil_r, app_assoc).
      rewrite clear_range_spec by (lens; lia). cbn [mbind outcome_bind]. rewrite app_nil_r, <- app_assoc, <- replicate_add.
      rewrite <- (take_drop (m - length q1) q2), <- app_assoc.
      change (take ?x ?y ++ ?z) with ([] ++ take x y ++ z). rewrite clear_range_spec by (lens; lia). cbn [mbind outcome_bind].
      rewrite take_drop. eexists. split; [done|]. cbn [app].
      apply (rep_one _ _ (m - length q1) (k + length q1)); cbn [head tail elements]; lens.
      * rewrite drop_app_ge by lia. replace ((m - length q1) `min` length q2) with (m - length q1) by lia. done.
      * lens. lia.
      * lens. lia.
Qed.

(** A callback's walk over a list: what it leaves, and its own state. *)
Fixpoint each {S} (fn : T -> S -> T * S * bool) q (st : S) : list T * S :=
  match q with
  | [] => ([], st)
  | x :: q =>
      let '(x, st, more) := fn x st in
      if more then let '(q, st) := each fn q st in (x :: q, st) else (x :: q, st)
  end.

(** The same walk by position. *)
Fixpoint each_at {S} (fn : T -> S -> T * S * bool) (js : list nat) q (st : S) : list T * S :=
  match js with
  | [] => (q, st)
  | i :: js =>
      match q !! i with
      | None => (q, st)
      | Some x =>
          let '(x, st, more) := fn x st in
          let q := <[i := x]> q in
          if more then each_at fn js q st else (q, st)
      end
  end.

Lemma each_at_forward {S} (fn : T -> S -> T * S * bool) q : forall p st,
  each_at fn (seq (length p) (length q)) (p ++ q) st = (p ++ (each fn q st).1, (each fn q st).2).
Proof.
  induction q as [|x q IH]; intros p st; [done|]. cbn [length seq each_at each].
  rewrite list_lookup_middle by done. destruct (fn x st) as [[y st'] more]. rewrite insert_mid by done.
  destruct more; [|done]. specialize (IH (p ++ [y]) st'). rewrite length_app, Nat.add_1_r, <- !app_assoc in IH. cbn [app] in IH.
  rewrite IH. by destruct (each fn q st').
Qed.

Lemma each_at_backward {S} (fn : T -> S -> T * S * bool) q : forall p st,
  each_at fn (reverse (seq 0 (length q))) (q ++ p) st =
    (reverse (each fn (reverse q) st).1 ++ p, (each fn (reverse q) st).2).
Proof.
  induction q as [|x q IH] using rev_ind; intros p st; [done|]. rewrite length_app, seq_app, reverse_app, reverse_snoc. cbn [length seq reverse each_at each app Nat.add].
  change (reverse [length q]) with [length q]. cbn [app each_at].
  rewrite <- app_assoc. cbn [app]. rewrite list_lookup_middle by done. destruct (fn x st) as [[y st'] more]. rewrite insert_mid by done.
  destruct more.
  - rewrite IH. destruct (each fn (reverse q) st') as [q' st'']. cbn [fst snd]. by rewrite reverse_cons, <- app_assoc.
  - cbn [fst snd]. by rewrite reverse_cons, reverse_involutive, <- app_assoc.
Qed.

Lemma live_slots_rep r q : rep r q -> q <> [] -> live_slots r = (fun i => at_slot i r) <$> seq 0 (length q).
Proof.
  intros Hr Hq. pose proof (rep_cap _ _ Hr) as (C1 & C2 & C3). unfold live_slots.
  assert (Hn : 0 < length q) by (destruct q; [done|cbn; lia]).
  assert (Hseq : forall a n, (forall i, i < n -> at_slot i r = a + i) -> (fun i => at_slot i r) <$> seq 0 n = seq a n).
  { intros a n H. apply list_eq. intros i. rewrite list_lookup_fmap. destruct (decide (i < n)).
    - rewrite !lookup_seq_lt by done. cbn. by rewrite H.
    - rewrite !lookup_seq_ge by lia. done. }
  destruct Hr as [a n E Ha Ht|q1 q2 n -> Hq1 E Hh Ht].
  - assert (Hc : cap r = a + length q + S n) by (unfold cap; rewrite E; lens; lia).
    destruct (Nat.ltb_spec (head r) (tail r)); [|lia]. replace (tail r - head r) with (length q) by lia. symmetry. apply Hseq.
    intros i Hi. unfold at_slot. destruct (Nat.leb_spec (cap r) (head r + i)); lia.
  - assert (Hc : cap r = length q2 + S n + length q1) by (unfold cap; rewrite E; lens; lia). lens.
    destruct (Nat.ltb_spec (head r) (tail r)); [lia|]. rewrite seq_app, fmap_app. f_equal.
    + replace (cap r - head r) with (length q1) by lia. symmetry. apply Hseq.
      intros i Hi. unfold at_slot. destruct (Nat.leb_spec (cap r) (head r + i)); lia.
    + rewrite Ht. apply list_eq. intros i. rewrite list_lookup_fmap. destruct (decide (i < length q2)).
      * rewrite !lookup_seq_lt by done. cbn. unfold at_slot. destruct (Nat.leb_spec (cap r) (head r + (length q1 + i))); f_equal; lia.
      * rewrite !lookup_seq_ge by lia. done.
Qed.

Lemma visit_rep {S} (fn : T -> S -> T * S * bool) js : forall r q st, rep r q -> Forall (fun i => i < length q) js ->
  exists l st', visit fn ((fun i => at_slot i r) <$> js) (elements r) st = Ret (l, st') /\
    rep (MkRing (head r) (tail r) l) (each_at fn js q st).1 /\ st' = (each_at fn js q st).2.
Proof.
  induction js as [|i js IH]; intros r q st Hr Hi; cbn [visit fmap list_fmap each_at].
  { exists (elements r), st. split; [done|]. split; [by destruct r|done]. }
  inversion Hi as [|? ? Hi0 Hi1]; subst. destruct (lookup_lt_is_Some_2 q i Hi0) as [x Hx]. rewrite Hx.
  destruct (slot_rep r q i Hr Hi0) as [Hs Hst]. rewrite Hx in Hs.
  rewrite (proj2 (index_Ret (elements r) (Z.of_nat (at_slot i r)) x)) by (split; [lia|by rewrite Nat2Z.id]). cbn [mbind outcome_bind].
  destruct (fn x st) as [[y st'] more]. specialize (Hst (fun _ => y)).
  assert (E1 : alter (fun _ => y) i q = <[i := y]> q).
  { apply list_eq. intros j. destruct (decide (i = j)) as [<-|Hne].
    - rewrite list_lookup_alter_eq, list_lookup_insert_eq by done. by rewrite Hx.
    - by rewrite list_lookup_alter_ne, list_lookup_insert_ne. }
  assert (E2 : elements (store_at i (fun _ => y) r) = <[at_slot i r := y]> (elements r)).
  { cbn. apply list_eq. intros j. pose proof (lookup_lt_Some _ _ _ Hs). destruct (decide (at_slot i r = j)) as [<-|Hne].
    - rewrite list_lookup_alter_eq, list_lookup_insert_eq by done. by rewrite Hs.
    - by rewrite list_lookup_alter_ne, list_lookup_insert_ne. }
  rewrite E1 in Hst. destruct more.
  - destruct (IH _ _ st' Hst) as (l & st'' & E & HR & HS). { by rewrite length_insert. }
    exists l, st''. split; [|done]. rewrite <- E2, <- E. f_equal. apply list_fmap_ext. intros ? j _. unfold at_slot, cap. cbn. by rewrite length_alter.
  - eexists _, st'. split; [done|]. split; [|done]. rewrite <- E2. exact Hst.
Qed.

Lemma ForEach_rep {S} (fn : T -> S -> T * S * bool) r q st : rep r q ->
  exists r', ForEach fn r st = Ret (r', (each fn q st).2) /\ rep r' (each fn q st).1.
Proof.
  intros Hr. unfold ForEach. rewrite (rep_Len _ _ Hr). destruct q as [|x q]; [by exists r|]. cbn [length Nat.eqb].
  rewrite (live_slots_rep r (x :: q)) by done.
  destruct (visit_rep fn (seq 0 (length (x :: q))) r (x :: q) st Hr) as (l & st' & E & HR & HS).
  { apply Forall_forall. intros i Hi. apply elem_of_seq in Hi. lia. }
  rewrite E. cbn [mbind outcome_bind]. pose proof (each_at_forward fn (x :: q) [] st) as HF. cbn [length app] in *. rewrite HF in *.
  eexists. split; [by rewrite HS|]. exact HR.
Qed.

Lemma ForEachReverse_rep {S} (fn : T -> S -> T * S * bool) r q st : rep r q ->
  exists r', ForEachReverse fn r st = Ret (r', (each fn (reverse q) st).2) /\ rep r' (reverse (each fn (reverse q) st).1).
Proof.
  intros Hr. unfold ForEachReverse. rewrite (rep_Len _ _ Hr). destruct q as [|x q]; [by exists r|]. cbn [length Nat.eqb].
  rewrite (live_slots_rep r (x :: q)) by done. rewrite <- fmap_reverse.
  destruct (visit_rep fn (reverse (seq 0 (length (x :: q)))) r (x :: q) st Hr) as (l & st' & E & HR & HS).
  { apply Forall_forall. intros i Hi. apply elem_of_reverse, elem_of_seq in Hi. lia. }
  rewrite E. cbn [mbind outcome_bind]. pose proof (each_at_backward fn (x :: q) [] st) as HF. rewrite !app_nil_r in HF. rewrite HF in *.
  eexists. split; [by rewrite HS|]. exact HR.
Qed.

(** ** Refinement of a queue *)

(** The calls, with the callback of a walk recording what it saw. *)
Inductive rop : Type :=
| RPush (v : T) | RPop | RPeek | RLen | RIsEmpty | RClear
| RDiscard (n : Z) | RAt (i : nat) (f : T -> T)
| RForEach (fn : T -> T * bool) | RForEachReverse (fn : T -> T * bool).

Inductive rres : Type :=
| Done | Elem (x : option T) | Count (n : Z) | Flag (b : bool) | Seen (l : list T).

Definition recording (fn : T -> T * bool) (x : T) (seen : list T) : T * list T * bool :=
  let '(y, more) := fn x in (y, seen ++ [x], more).

Definition rstep (o : rop) r : outcome (rres * RingBuffer T) :=
  match o with
  | RPush v => r ← Push v r; Ret (Done, r)
  | RPop => '(x, r) ← Pop r; Ret (Elem x, r)
  | RPeek => x ← Peek r; Ret (Elem x, r)
  | RLen => Ret (Count (Z.of_nat (Len r)), r)
  | RIsEmpty => Ret (Flag (IsEmpty r), r)
  | RClear => Ret (Done, Clear r)
  | RDiscard n => '(n, r) ← Discard n r; Ret (Count n, r)
  | RAt i f => x ← At i r; Ret (Elem (Some x), store_at i f r)
  | RForEach fn => '(r, seen) ← ForEach (recording fn) r []; Ret (Seen seen, r)
  | RForEachReverse fn => '(r, seen) ← ForEachReverse (recording fn) r []; Ret (Seen seen, r)
  end.

(** The queue; a negative Discard and an At past the end are misuse. *)
Definition rspec (o : rop) q : option (rres * list T) :=
  match o with
  | RPush v => Some (Done, q ++ [v])
  | RPop => Some (Elem (q !! 0), drop 1 q)
  | RPeek => Some (Elem (q !! 0), q)
  | RLen => Some (Count (Z.of_nat (length q)), q)
  | RIsEmpty => Some (Flag (bool_decide (length q = 0)), q)
  | RClear => Some (Done, [])
  | RDiscard n => if (n <? 0)%Z then None else Some (Count (Z.min n (Z.of_nat (length q))), drop (Z.to_nat n) q)
  | RAt i f => x ← q !! i; Some (Elem (Some x), alter f i q)
  | RForEach fn => let '(q, seen) := each (recording fn) q [] in Some (Seen seen, q)
  | RForEachReverse fn => let '(q, seen) := each (recording fn) (reverse q) [] in Some (Seen seen, reverse q)
  end.

Fixpoint rrun (os : list rop) r : outcome (list rres * RingBuffer T) :=
  match os with
  | [] => Ret ([], r)
  | o :: os => '(x, r) ← rstep o r; '(xs, r) ← rrun os r; Ret (x :: xs, r)
  end.

Fixpoint rspec_run (os : list rop) q : option (list rres * list T) :=
  match os with
  | [] => Some ([], q)
  | o :: os => '(x, q) ← rspec o q; '(xs, q) ← rspec_run os q; Some (x :: xs, q)
  end.

Lemma rep_empty r q : rep r q -> IsEmpty r = bool_decide (length q = 0).
Proof.
  intros Hr. pose proof (rep_Len _ _ Hr) as HL. pose proof (rep_cap _ _ Hr) as (C1 & C2 & C3).
  unfold Len, IsEmpty in *. rewrite <- HL.
  destruct (Nat.eqb_spec (head r) (tail r)), (Nat.leb_spec (head r) (tail r)); case_bool_decide; lia.
Qed.

Lemma rstep_refines o r q x q' : rep r q -> rspec o q = Some (x, q') ->
  exists r', rstep o r = Ret (x, r') /\ rep r' q'.
Proof.
  intros Hr Ho. destruct o; cbn [rstep rspec] in *.
  - simplify_eq. destruct (Push_rep v r q Hr) as (r' & -> & HR). by exists r'.
  - simplify_eq. pose proof (Pop_rep r q Hr) as HP. destruct q as [|v q]; [rewrite HP; by exists r|].
    destruct HP as (r' & -> & HR). by exists r'.
  - simplify_eq. rewrite (Peek_rep r q' Hr). by exists r.
  - simplify_eq. rewrite (rep_Len r q' Hr). by exists r.
  - simplify_eq. rewrite (rep_empty r q' Hr). by exists r.
  - simplify_eq. eexists. split; [done|]. by eapply Clear_rep.
  - destruct (Z.ltb_spec n 0); simplify_eq. destruct (Discard_rep n r q) as (r' & -> & HR); [lia|done|]. by exists r'.
  - destruct (q !! i) as [y|] eqn:E; simplify_eq/=. rewrite (At_rep r q i y Hr E). cbn.
    eexists. split; [done|]. apply slot_rep; [done|]. by eapply lookup_lt_Some.
  - destruct (ForEach_rep (recording fn) r q [] Hr) as (r' & -> & HR). destruct (each (recording fn) q []). simplify_eq. by exists r'.
  - destruct (ForEachReverse_rep (recording fn) r q [] Hr) as (r' & -> & HR). destruct (each (recording fn) (reverse q) []). simplify_eq. by exists r'.
Qed.

Lemma rrun_refines os : forall r q xs q', rep r q -> rspec_run os q = Some (xs, q') ->
  exists r', rrun os r = Ret (xs, r') /\ rep r' q'.
Proof.
  induction os as [|o os IH]; intros r q xs q' Hr H; cbn in *; [simplify_eq; by exists r|].
  apply bind_Some in H as ((x & q1) & H1 & H). apply bind_Some in H as ((xs1 & q2) & H2 & H). simplify_eq.
  destruct (rstep_refines o r q x q1 Hr H1) as (r1 & -> & HR1). cbn.
  destruct (IH r1 q1 xs1 q' HR1 H2) as (r2 & -> & HR2). by exists r2.
Qed.
End Ring.

(** C25. The ring buffer is a queue.  From a new ring of any requested size,
    every sequence of calls (pushes past the capacity, pops, peeks, discards
    across the wrap, walks in both directions that change elements or stop
    early, writes through At) returns without a panic what the queue returns,
    and leaves the slots outside the queue blank. *)
Theorem ring_refines_queue {T : Type} (zero : T) (size : Z) (os : list (@rop T)) xs q :
  rspec_run os [] = Some (xs, q) ->
  exists r, rrun zero os (NewRingBuffer zero size) = Ret (xs, r) /\ rep zero r q.
Proof. intros H. apply (rrun_refines zero os _ [] xs q); [apply rep_new|done]. Qed.

Definition ring_calls : list (@rop nat) :=
  (RPush <$> seq 1 7) ++ [RDiscard 5] ++ (RPush <$> seq 8 5) ++
  [RForEachReverse (fun x => (2 * x, negb (x =? 9))); RLen; RPush 99; RAt 2 (Nat.add 1); RDiscard 4; RPop; RForEach (fun x => (x, true))].

Lemma ring_refines_queue_witness :
  exists xs q r, rspec_run ring_calls [] = Some (xs, q) /\ length q = 3 /\
    rrun 0 ring_calls (NewRingBuffer 0 0) = Ret (xs, r) /\ rep 0 r q.
Proof.
  destruct (rspec_run ring_calls []) as [[xs q]|] eqn:E; [|exfalso; vm_compute in E; discriminate E].
  destruct (ring_refines_queue 0 0 ring_calls xs q E) as (r & H1 & H2).
  exists xs, q, r. split; [reflexivity|]. split; [vm_compute in E; injection E as <- <-; reflexivity|]. split; assumption.
Defined.
