(* ===== verification/Kcp.v ===== *)
(** * ukcp/internal/kcp: the KCP protocol engine

    kcp.go and ukcp_shim.go, one definition per function.  The three ring
    buffers are the queues KcpRing.v shows them to be, and an index loop over
    one is a walk along its list.  The output callback's calls are the list
    [outputs]; the values the coming clock readings return are [clock].  Two
    more fields record history for the theorems: [numbered], the segments
    given a sequence number, and [delivered], those the reader took.  The
    global statistics and the trace log are left out. *)

From S2P Require Import Prelude Update Endian GoHeap KcpRing.
Local Open Scope Z_scope.

(** ** Constants *)

Definition IKCP_RTO_NDL : Z := 30.
Definition IKCP_RTO_MIN : Z := 100.
Definition IKCP_RTO_DEF : Z := 200.
Definition IKCP_RTO_MAX : Z := 60000.
Definition IKCP_CMD_PUSH : Z := 81.
Definition IKCP_CMD_ACK : Z := 82.
Definition IKCP_CMD_WASK : Z := 83.
Definition IKCP_CMD_WINS : Z := 84.
Definition IKCP_ASK_SEND : Z := 1.
Definition IKCP_ASK_TELL : Z := 2.
Definition IKCP_WND_SND : Z := 32.
Definition IKCP_WND_RCV : Z := 32.
Definition IKCP_MTU_DEF : Z := 1400.
Definition IKCP_INTERVAL : Z := 100.
Definition IKCP_OVERHEAD : Z := 24.
Definition IKCP_DEADLINK : Z := 20.
Definition IKCP_THRESH_INIT : Z := 2.
Definition IKCP_THRESH_MIN : Z := 2.
Definition IKCP_PROBE_INIT : Z := 500.
Definition IKCP_PROBE_LIMIT : Z := 120000.
Definition mtuLimit : Z := 1500.

Inductive FlushType : Type := IKCP_FLUSH_ACKONLY | IKCP_FLUSH_FULL.
Inductive PacketType : Type := IKCP_PACKET_REGULAR | IKCP_PACKET_FEC.

(** ** 32-bit arithmetic *)

Definition u32 (z : Z) : Z := wrap 32 z.
Definition i32 (z : Z) : Z := (z + 2 ^ 31) mod 2 ^ 32 - 2 ^ 31.
Definition itimediff (later earlier : Z) : Z := i32 (later - earlier).
Definition max32 : Z := 2 ^ 32 - 1.

(** ** Segments *)

Record segment : Type := MkSeg {
  sconv : Z; cmd : Z; frg : Z; wnd : Z; ts : Z; sn : Z; una : Z;
  rto : Z; xmit : Z; resendts : Z; fastack : Z; acked : bool; data : list Z
}.

#[export] Instance segment_expanded : Expanded segment := fun g =>
  MkSeg (sconv g) (cmd g) (frg g) (wnd g) (ts g) (sn g) (una g) (rto g) (xmit g) (resendts g) (fastack g) (acked g) (data g).
#[export] Instance sconv_field : Field sconv := ltac:(field_updater).
#[export] Instance cmd_field : Field cmd := ltac:(field_updater).
#[export] Instance frg_field : Field frg := ltac:(field_updater).
#[export] Instance wnd_field : Field wnd := ltac:(field_updater).
#[export] Instance ts_field : Field ts := ltac:(field_updater).
#[export] Instance sn_field : Field sn := ltac:(field_updater).
#[export] Instance una_field : Field una := ltac:(field_updater).
#[export] Instance rto_field : Field rto := ltac:(field_updater).
#[export] Instance xmit_field : Field xmit := ltac:(field_updater).
#[export] Instance resendts_field : Field resendts := ltac:(field_updater).
#[export] Instance fastack_field : Field fastack := ltac:(field_updater).
#[export] Instance acked_field : Field acked := ltac:(field_updater).
#[export] Instance data_field : Field data := ltac:(field_updater).

Definition zero_segment : segment := MkSeg 0 0 0 0 0 0 0 0 0 0 0 false [].

Definition encode (g : segment) : list Z :=
  le_bytes 4 (sconv g) ++ [cmd g; frg g] ++ le_bytes 2 (wnd g) ++ le_bytes 4 (ts g) ++
  le_bytes 4 (sn g) ++ le_bytes 4 (una g) ++ le_bytes 4 (u32 (Z.of_nat (length (data g)))).

(** ** The receive buffer: a min-heap and the set of its sequence numbers *)

Record segmentHeap : Type := MkHeap { segments : list segment; marks : gset Z }.

Definition newSegmentHeap : segmentHeap := MkHeap [] ∅.
Definition Less (a b : segment) : bool := 0 <? itimediff (sn b) (sn a).
Definition Has (n : Z) (h : segmentHeap) : bool := bool_decide (n ∈ marks h).
Definition heapPush (g : segment) (h : segmentHeap) : segmentHeap :=
  MkHeap (heap_Push Less g (segments h)) ({[sn g]} ∪ marks h).
Definition heapPop (h : segmentHeap) : option (segment * segmentHeap) :=
  '(g, l) ← heap_Pop Less (segments h); Some (g, MkHeap l (marks h ∖ {[sn g]})).

Record ackItem : Type := MkAck { ack_sn : Z; ack_ts : Z }.

(** ** The engine *)

Record KCP : Type := MkKCP {
  conv : Z; mtu : Z; mss : Z; state : Z;
  snd_una : Z; snd_nxt : Z; rcv_nxt : Z;
  ssthresh : Z; rx_rttvar : Z; rx_srtt : Z; rx_rto : Z; rx_minrto : Z;
  snd_wnd : Z; rcv_wnd : Z; rmt_wnd : Z; cwnd : Z; incr : Z;
  probe : Z; ts_probe : Z; probe_wait : Z;
  interval : Z; ts_flush : Z; nodelay : Z; updated : Z;
  dead_link : Z; fastresend : Z; nocwnd : Z; stream : Z;
  snd_queue : list segment; rcv_queue : list segment; snd_buf : list segment;
  rcv_buf : segmentHeap;
  acklist : list ackItem;
  buffer : Z;                         (* the length of the encoding buffer *)
  outputs : list (list Z);
  clock : list Z;
  numbered : list (Z * list Z);
  delivered : list (Z * list Z)
}.

#[export] Instance KCP_expanded : Expanded KCP := fun k =>
  MkKCP (conv k) (mtu k) (mss k) (state k) (snd_una k) (snd_nxt k) (rcv_nxt k) (ssthresh k) (rx_rttvar k) (rx_srtt k)
    (rx_rto k) (rx_minrto k) (snd_wnd k) (rcv_wnd k) (rmt_wnd k) (cwnd k) (incr k) (probe k) (ts_probe k) (probe_wait k)
    (interval k) (ts_flush k) (nodelay k) (updated k) (dead_link k) (fastresend k) (nocwnd k) (stream k)
    (snd_queue k) (rcv_queue k) (snd_buf k) (rcv_buf k) (acklist k) (buffer k) (outputs k) (clock k) (numbered k) (delivered k).
#[export] Instance mtu_field : Field mtu := ltac:(field_updater).
#[export] Instance mss_field : Field mss := ltac:(field_updater).
#[export] Instance state_field : Field state := ltac:(field_updater).
#[export] Instance snd_una_field : Field snd_una := ltac:(field_updater).
#[export] Instance snd_nxt_field : Field snd_nxt := ltac:(field_updater).
#[export] Instance rcv_nxt_field : Field rcv_nxt := ltac:(field_updater).
#[export] Instance ssthresh_field : Field ssthresh := ltac:(field_updater).
#[export] Instance rx_rttvar_field : Field rx_rttvar := ltac:(field_updater).
#[export] Instance rx_srtt_field : Field rx_srtt := ltac:(field_updater).
#[export] Instance rx_rto_field : Field rx_rto := ltac:(field_updater).
#[export] Instance rx_minrto_field : Field rx_minrto := ltac:(field_updater).
#[export] Instance snd_wnd_field : Field snd_wnd := ltac:(field_updater).
#[export] Instance rcv_wnd_field : Field rcv_wnd := ltac:(field_updater).
#[export] Instance rmt_wnd_field : Field rmt_wnd := ltac:(field_updater).
#[export] Instance cwnd_field : Field cwnd := ltac:(field_updater).
#[export] Instance incr_field : Field incr := ltac:(field_updater).
#[export] Instance probe_field : Field probe := ltac:(field_updater).
#[export] Instance ts_probe_field : Field ts_probe := ltac:(field_updater).
#[export] Instance probe_wait_field : Field probe_wait := ltac:(field_updater).
#[export] Instance interval_field : Field interval := ltac:(field_updater).
#[export] Instance ts_flush_field : Field ts_flush := ltac:(field_updater).
#[export] Instance nodelay_field : Field nodelay := ltac:(field_updater).
#[export] Instance updated_field : Field updated := ltac:(field_updater).
#[export] Instance dead_link_field : Field dead_link := ltac:(field_updater).
#[export] Instance fastresend_field : Field fastresend := ltac:(field_updater).
#[export] Instance nocwnd_field : Field nocwnd := ltac:(field_updater).
#[export] Instance stream_field : Field stream := ltac:(field_updater).
#[export] Instance snd_queue_field : Field snd_queue := ltac:(field_updater).
#[export] Instance rcv_queue_field : Field rcv_queue := ltac:(field_updater).
#[export] Instance snd_buf_field : Field snd_buf := ltac:(field_updater).
#[export] Instance rcv_buf_field : Field rcv_buf := ltac:(field_updater).
#[export] Instance acklist_field : Field acklist := ltac:(field_updater).
#[export] Instance buffer_field : Field buffer := ltac:(field_updater).
#[export] Instance outputs_field : Field outputs := ltac:(field_updater).
#[export] Instance clock_field : Field clock := ltac:(field_updater).
#[export] Instance numbered_field : Field numbered := ltac:(field_updater).
#[export] Instance delivered_field : Field delivered := ltac:(field_updater).

Definition NewKCP (conv : Z) : KCP :=
  MkKCP conv IKCP_MTU_DEF (IKCP_MTU_DEF - IKCP_OVERHEAD) 0 0 0 0 IKCP_THRESH_INIT 0 0 IKCP_RTO_DEF IKCP_RTO_MIN
    IKCP_WND_SND IKCP_WND_RCV IKCP_WND_RCV 0 0 0 0 0 IKCP_INTERVAL IKCP_INTERVAL 0 0 IKCP_DEADLINK 0 0 0
    [] [] [] newSegmentHeap [] ((IKCP_MTU_DEF + IKCP_OVERHEAD) * 3) [] [] [] [].

Definition currentMs (k : KCP) : Z * KCP := (u32 (default 0 (clock k !! 0%nat)), k <| clock ::= drop 1 |>).

(** A pooled buffer holds [mtuLimit] bytes; slicing it longer panics. *)
Definition newSegment (bytes : list Z) : outcome segment :=
  if mtuLimit <? Z.of_nat (length bytes) then Panic PanicSliceBounds else Ret (zero_segment <| data := bytes |>).

Definition recycleSegment (g : segment) : segment := g <| data := [] |>.

(** What of a segment the reader gets. *)
Definition content (g : segment) : Z * list Z := (frg g, data g).

(** ** Receiving *)

Definition sum_data (l : list segment) : Z := Z.of_nat (sum_list_with (fun g => length (data g)) l).

(** The message at the front of the queue: up to the first segment that ends one. *)
Fixpoint first_message (l : list segment) : list segment :=
  match l with
  | [] => []
  | g :: l => if frg g =? 0 then [g] else g :: first_message l
  end.

Definition PeekSize (k : KCP) : Z :=
  match rcv_queue k with
  | [] => -1
  | g :: _ =>
      if frg g =? 0 then Z.of_nat (length (data g))
      else if Z.of_nat (length (rcv_queue k)) <? wrap 8 (frg g + 1) then -1
      else sum_data (first_message (rcv_queue k))
  end.

(** Moves what is in order from the heap to the queue: Recv's and parse_data's
    last loop. *)
Fixpoint move_ready (fuel : nat) (k : KCP) : outcome KCP :=
  match fuel with
  | O => Panic FuelExhausted
  | S fuel =>
      match segments (rcv_buf k) with
      | [] => Ret k
      | _ =>
          match heapPop (rcv_buf k) with
          | None => Panic PanicSliceBounds
          | Some (g, h) =>
              if (sn g =? rcv_nxt k) && (Z.of_nat (length (rcv_queue k)) <? rcv_wnd k)
              then move_ready fuel (k <| rcv_buf := h |> <| rcv_queue ::= (fun q => q ++ [g]) |> <| rcv_nxt ::= (fun n => u32 (n + 1)) |>)
              else Ret (k <| rcv_buf := heapPush g h |>)
          end
      end
  end.

Definition move_available (k : KCP) : outcome KCP := move_ready (S (length (segments (rcv_buf k)))) k.

(** The merge loop: pops segments into [room] bytes until one ends a message. *)
Fixpoint merge (room : nat) (q : list segment) (got : list Z) : outcome (list Z * list segment) :=
  match q with
  | [] => Ret (got, [])
  | g :: q =>
      if (room <? length (data g))%nat then Panic PanicSliceBounds
      else
        let got := got ++ data g in
        if frg g =? 0 then Ret (got, q) else merge (room - length (data g)) q got
  end.

(** Recv into a buffer of [room] bytes: the return value and the bytes. *)
Definition Recv (room : nat) (k : KCP) : outcome (Z * list Z * KCP) :=
  let peeksize := PeekSize k in
  if peeksize <? 0 then Ret (-1, [], k)
  else if Z.of_nat room <? peeksize then Ret (-2, [], k)
  else
    let fast_recover := rcv_wnd k <=? Z.of_nat (length (rcv_queue k)) in
    '(got, q) ← merge room (rcv_queue k) [];
    let taken := take (length (rcv_queue k) - length q) (rcv_queue k) in
    let k := k <| rcv_queue := q |> <| delivered ::= (fun l => l ++ (content <$> taken)) |> in
    k ← move_available k;
    let k := if (Z.of_nat (length (rcv_queue k)) <? rcv_wnd k) && fast_recover
             then k <| probe ::= (fun p => Z.lor p IKCP_ASK_TELL) |> else k in
    Ret (Z.of_nat (length got), got, k).

(** ** Sending *)

(** Fills up the last queued segment in stream mode: the queue and what is
    left of the buffer. *)
Definition append_last (k : KCP) (buf : list Z) : outcome (list segment * list Z) :=
  match last (snd_queue k) with
  | None => Ret (snd_queue k, buf)
  | Some g =>
      if Z.of_nat (length (data g)) <? mss k then
        let extend := Nat.min (length buf) (Z.to_nat (mss k) - length (data g)) in
        let bytes := data g ++ take extend buf in
        if mtuLimit <? Z.of_nat (length bytes) then Panic PanicSliceBounds
        else Ret (alter (fun g => g <| data := bytes |>) (length (snd_queue k) - 1)%nat (snd_queue k), drop extend buf)
      else Ret (snd_queue k, buf)
  end.

(** The fragments of a buffer, the last numbered 0 in message mode. *)
Fixpoint fragments (count : nat) (k : KCP) (buf : list Z) : outcome (list segment) :=
  match count with
  | O => Ret []
  | S rest =>
      let size := Nat.min (length buf) (Z.to_nat (mss k)) in
      g ← newSegment (take size buf);
      gs ← fragments rest k (drop size buf);
      Ret (g <| frg := (if stream k =? 0 then wrap 8 (Z.of_nat rest) else 0) |> :: gs)
  end.

Definition Send (buf : list Z) (k : KCP) : outcome (Z * KCP) :=
  match buf with
  | [] =>
      if stream k =? 0 then Ret (-1, k)
      else g ← newSegment []; Ret (0, k <| snd_queue ::= (fun q => q ++ [g]) |>)
  | _ =>
      '(q, buf) ← (if stream k =? 0 then Ret (snd_queue k, buf) else append_last k buf);
      let k := k <| snd_queue := q |> in
      if negb (stream k =? 0) && bool_decide (buf = []) then Ret (0, k)
      else
        let len := Z.of_nat (length buf) in
        let count := if len <=? mss k then 1 else (len + mss k - 1) / mss k in
        if 255 <? count then Ret (-2, k)
        else gs ← fragments (Z.to_nat count) k buf; Ret (0, k <| snd_queue ::= (fun q => q ++ gs) |>)
  end.

(** ** Acknowledgements *)

Definition update_ack (rtt : Z) (k : KCP) : KCP :=
  let '(srtt, rttvar) :=
    if rx_srtt k =? 0 then (rtt, Z.shiftr rtt 1)
    else
      let delta := i32 (rtt - rx_srtt k) in
      let srtt := i32 (rx_srtt k + Z.shiftr delta 3) in
      let delta := if delta <? 0 then i32 (- delta) else delta in
      let d := i32 (delta - rx_rttvar k) in
      (srtt, i32 (rx_rttvar k + Z.shiftr d (if rtt <? i32 (srtt - rx_rttvar k) then 5 else 2))) in
  let rto := u32 (u32 srtt + Z.max (interval k) (u32 (Z.shiftl (u32 rttvar) 2))) in
  k <| rx_srtt := srtt |> <| rx_rttvar := rttvar |> <| rx_rto := Z.min (Z.max (rx_minrto k) rto) IKCP_RTO_MAX |>.

Definition shrink_buf (k : KCP) : KCP :=
  k <| snd_una := match snd_buf k with g :: _ => sn g | [] => snd_nxt k end |>.

(** Whether [n] is outside the send window. *)
Definition not_inflight (n : Z) (k : KCP) : bool :=
  (itimediff n (snd_una k) <? 0) || (0 <=? itimediff n (snd_nxt k)).

Fixpoint mark_acked (n : Z) (l : list segment) : list segment :=
  match l with
  | [] => []
  | g :: l =>
      if n =? sn g then recycleSegment (g <| acked := true |>) :: l
      else if itimediff n (sn g) <? 0 then g :: l
      else g :: mark_acked n l
  end.

Definition parse_ack (n : Z) (k : KCP) : KCP :=
  if not_inflight n k then k else k <| snd_buf ::= mark_acked n |>.

Fixpoint count_fastack (n t resend : Z) (l : list segment) : bool * list segment :=
  match l with
  | [] => (false, [])
  | g :: l' =>
      if itimediff n (sn g) <? 0 then (false, l)
      else if negb (n =? sn g) && (itimediff (ts g) t <=? 0) && negb (fastack g =? max32) then
        let g := g <| fastack ::= (fun f => u32 (f + 1)) |> in
        let '(b, l') := count_fastack n t resend l' in ((u32 resend <=? fastack g) || b, g :: l')
      else let '(b, l') := count_fastack n t resend l' in (b, g :: l')
  end.

Definition parse_fastack (n t : Z) (k : KCP) : bool * KCP :=
  if not_inflight n k then (false, k)
  else let '(b, l) := count_fastack n t (fastresend k) (snd_buf k) in (b, k <| snd_buf := l |>).

(** How many segments at the front lie before [u]. *)
Fixpoint count_una (u : Z) (l : list segment) : nat :=
  match l with
  | g :: l => if 0 <? itimediff u (sn g) then S (count_una u l) else O
  | [] => O
  end.

Definition parse_una (u : Z) (k : KCP) : nat * KCP :=
  let n := count_una u (snd_buf k) in (n, k <| snd_buf ::= drop n |>).

Definition ack_push (n t : Z) (k : KCP) : KCP := k <| acklist ::= (fun l => l ++ [MkAck n t]) |>.

Definition parse_data (g : segment) (k : KCP) : outcome (bool * KCP) :=
  if (0 <=? itimediff (sn g) (u32 (rcv_nxt k + rcv_wnd k))) || (itimediff (sn g) (rcv_nxt k) <? 0) then Ret (true, k)
  else
    let repeat := Has (sn g) (rcv_buf k) in
    k ← (if repeat then Ret k
         else if mtuLimit <? Z.of_nat (length (data g)) then Panic PanicSliceBounds
         else Ret (k <| rcv_buf ::= heapPush g |>));
    k ← move_available k;
    Ret (repeat, k).

Definition wnd_unused (k : KCP) : Z :=
  let n := Z.of_nat (length (rcv_queue k)) in
  if n <? rcv_wnd k then wrap 16 (rcv_wnd k - n) else 0.

(** ** Flushing

    [w] is what lies in the encoding buffer before [ptr]. *)

Definition makeSpace (space : Z) (k : KCP) (w : list Z) : KCP * list Z :=
  if mtu k <? Z.of_nat (length w) + space then (k <| outputs ::= (fun l => l ++ [w]) |>, []) else (k, w).

(** Writing past the end of the encoding buffer panics. *)
Definition put (bytes : list Z) (k : KCP) (w : list Z) : outcome (list Z) :=
  if buffer k <? Z.of_nat (length w) + Z.of_nat (length bytes) then Panic PanicSliceBounds else Ret (w ++ bytes).

(** Phase 1: the acknowledgements owed; old ones but the last are dropped. *)
Fixpoint flush_acks (l : list ackItem) (g : segment) (k : KCP) (w : list Z) : outcome (segment * KCP * list Z) :=
  match l with
  | [] => Ret (g, k, w)
  | a :: l =>
      let '(k, w) := makeSpace IKCP_OVERHEAD k w in
      if (0 <=? itimediff (ack_sn a) (rcv_nxt k)) || bool_decide (l = []) then
        let g := g <| sn := ack_sn a |> <| ts := ack_ts a |> in
        w ← put (encode g) k w; flush_acks l g k w
      else flush_acks l g k w
  end.

(** Phase 2: when to probe a closed window. *)
Definition flush_probe (k : KCP) : KCP :=
  if rmt_wnd k =? 0 then
    let '(current, k) := currentMs k in
    if probe_wait k =? 0 then k <| probe_wait := IKCP_PROBE_INIT |> <| ts_probe := u32 (current + IKCP_PROBE_INIT) |>
    else if 0 <=? itimediff current (ts_probe k) then
      let wait := if probe_wait k <? IKCP_PROBE_INIT then IKCP_PROBE_INIT else probe_wait k in
      let wait := u32 (wait + wait / 2) in
      let wait := if IKCP_PROBE_LIMIT <? wait then IKCP_PROBE_LIMIT else wait in
      k <| probe_wait := wait |> <| ts_probe := u32 (current + wait) |> <| probe ::= (fun p => Z.lor p IKCP_ASK_SEND) |>
    else k
  else k <| ts_probe := 0 |> <| probe_wait := 0 |>.

(** Phase 3: one probe command, if its flag is set. *)
Definition flush_command (flag c : Z) (g : segment) (k : KCP) (w : list Z) : outcome (segment * KCP * list Z) :=
  if Z.land (probe k) flag =? 0 then Ret (g, k, w)
  else
    let g := g <| cmd := c |> in
    let '(k, w) := makeSpace IKCP_OVERHEAD k w in
    w ← put (encode g) k w; Ret (g, k, w).

(** Phase 4: segments enter the send window; how many did. *)
Fixpoint flush_window (q : list segment) (cwnd : Z) (n : nat) (k : KCP) : nat * KCP :=
  if 0 <=? itimediff (snd_nxt k) (u32 (snd_una k + cwnd)) then (n, k <| snd_queue := q |>)
  else
    match q with
    | [] => (n, k <| snd_queue := [] |>)
    | g :: q =>
        let g := g <| sconv := conv k |> <| cmd := IKCP_CMD_PUSH |> <| sn := snd_nxt k |> in
        flush_window q cwnd (S n)
          (k <| snd_buf ::= (fun b => b ++ [g]) |> <| snd_nxt ::= (fun x => u32 (x + 1)) |>
             <| numbered ::= (fun l => l ++ [content g]) |>)
    end.

(** Phase 5: which segments are sent again, and why. *)
Inductive resend_kind : Type := Initial | Fast | Early | Timeout | NotYet.

Definition resend_why (resent current : Z) (newSegs : nat) (g : segment) : resend_kind :=
  if xmit g =? 0 then Initial
  else if (resent <=? fastack g) && negb (fastack g =? max32) then Fast
  else if (0 <? fastack g) && negb (fastack g =? max32) && bool_decide (newSegs = 0%nat) then Early
  else if 0 <=? itimediff current (resendts g) then Timeout
  else NotYet.

Definition retimed (why : resend_kind) (k : KCP) (current : Z) (g : segment) : segment :=
  let fresh g := g <| rto := rx_rto k |> <| resendts := u32 (current + rx_rto k) |> in
  match why with
  | Initial => fresh g
  | Fast | Early => fresh (g <| fastack := max32 |>)
  | Timeout =>
      let r := u32 (rto g + (if nodelay k =? 0 then rx_rto k else rx_rto k / 2)) in
      g <| rto := r |> <| fastack := 0 |> <| resendts := u32 (current + r) |>
  | NotYet => g
  end.

Record sending : Type := MkSending { sk : KCP; sw : list Z; current : Z; change : Z; lostSegs : Z; nextUpdate : Z }.

#[export] Instance sending_expanded : Expanded sending := fun a =>
  MkSending (sk a) (sw a) (current a) (change a) (lostSegs a) (nextUpdate a).
#[export] Instance sk_field : Field sk := ltac:(field_updater).
#[export] Instance sw_field : Field sw := ltac:(field_updater).
#[export] Instance current_field : Field current := ltac:(field_updater).
#[export] Instance change_field : Field change := ltac:(field_updater).
#[export] Instance lostSegs_field : Field lostSegs := ltac:(field_updater).
#[export] Instance nextUpdate_field : Field nextUpdate := ltac:(field_updater).

(** Stamps a segment with the clock and the window, and puts it on the wire. *)
Definition transmit (hd g : segment) (a : sending) : outcome (segment * sending) :=
  let '(now, k) := currentMs (sk a) in
  let g := g <| xmit ::= (fun x => u32 (x + 1)) |> <| ts := now |> <| wnd := wnd hd |> <| una := una hd |> in
  let '(k, w) := makeSpace (IKCP_OVERHEAD + Z.of_nat (length (data g))) k (sw a) in
  w ← put (encode g ++ data g) k w;
  let k := if dead_link k <=? xmit g then k <| state := max32 |> else k in
  Ret (g, a <| sk := k |> <| sw := w |> <| current := now |>).

Definition resend_one (resent : Z) (newSegs : nat) (hd g : segment) (a : sending) : outcome (segment * sending) :=
  if acked g then Ret (g, a)
  else
    let why := resend_why resent (current a) newSegs g in
    let g := retimed why (sk a) (current a) g in
    let a := match why with
             | Fast | Early => a <| change ::= Z.add 1 |>
             | Timeout => a <| lostSegs ::= Z.add 1 |>
             | _ => a
             end in
    '(g, a) ← (match why with NotYet => Ret (g, a) | _ => transmit hd g a end);
    let rest := itimediff (resendts g) (current a) in
    Ret (g, if (0 <? rest) && (u32 rest <? nextUpdate a) then a <| nextUpdate := u32 rest |> else a).

Fixpoint resend (resent : Z) (newSegs : nat) (hd : segment) (l : list segment) (a : sending) : outcome (list segment * sending) :=
  match l with
  | [] => Ret ([], a)
  | g :: l =>
      '(g, a) ← resend_one resent newSegs hd g a;
      '(l, a) ← resend resent newSegs hd l a;
      Ret (g :: l, a)
  end.

(** Phase 6: the congestion window after losses. *)
Definition flush_cwnd (win resent : Z) (a : sending) : KCP :=
  let k := sk a in
  if nocwnd k =? 0 then
    let k := if 0 <? change a then
               let k := k <| ssthresh := Z.max (u32 (snd_nxt k - snd_una k) / 2) IKCP_THRESH_MIN |> in
               let k := k <| cwnd := u32 (ssthresh k + resent) |> in
               k <| incr := u32 (cwnd k * mss k) |>
             else k in
    let k := if 0 <? lostSegs a then
               k <| ssthresh := Z.max (win / 2) IKCP_THRESH_MIN |> <| cwnd := 1 |> <| incr := mss k |>
             else k in
    if cwnd k <? 1 then k <| cwnd := 1 |> <| incr := mss k |> else k
  else k.

Definition flush (ft : FlushType) (k : KCP) : outcome (Z * KCP) :=
  let g := zero_segment <| sconv := conv k |> <| cmd := IKCP_CMD_ACK |> <| wnd := wnd_unused k |> <| una := rcv_nxt k |> in
  '(g, k, w) ← flush_acks (acklist k) g k [];
  let k := flush_probe (k <| acklist := [] |>) in
  '(g, k, w) ← flush_command IKCP_ASK_SEND IKCP_CMD_WASK g k w;
  '(g, k, w) ← flush_command IKCP_ASK_TELL IKCP_CMD_WINS g k w;
  let k := k <| probe := 0 |> in
  let win := Z.min (snd_wnd k) (rmt_wnd k) in
  let win := if nocwnd k =? 0 then Z.min (cwnd k) win else win in
  let '(newSegs, k) := match ft with
                       | IKCP_FLUSH_FULL => flush_window (snd_queue k) win 0 k
                       | IKCP_FLUSH_ACKONLY => (0%nat, k)
                       end in
  let resent := if fastresend k <=? 0 then max32 else u32 (fastresend k) in
  let '(now, k) := currentMs k in
  let a := MkSending k w now 0 0 (interval k) in
  '(l, a) ← (match ft with
             | IKCP_FLUSH_FULL => resend resent newSegs g (snd_buf k) a
             | IKCP_FLUSH_ACKONLY => Ret (snd_buf k, a)
             end);
  let k := (flush_cwnd win resent a) <| snd_buf := l |> in
  let k := match sw a with [] => k | w => k <| outputs ::= (fun o => o ++ [w]) |> end in
  Ret (nextUpdate a, k).

(** ** Input *)

Definition bytes_at (off n : nat) (l : list Z) : Z := le_val (take n (drop off l)).

(** The header at the front of a datagram, and the length it announces. *)
Definition decode (d : list Z) : segment * Z :=
  (zero_segment <| sconv := bytes_at 0 4 d |> <| cmd := bytes_at 4 1 d |> <| frg := bytes_at 5 1 d |>
     <| wnd := bytes_at 6 2 d |> <| ts := bytes_at 8 4 d |> <| sn := bytes_at 12 4 d |> <| una := bytes_at 16 4 d |>,
   bytes_at 20 4 d).

Definition known_cmd (c : Z) : bool :=
  (c =? IKCP_CMD_PUSH) || (c =? IKCP_CMD_ACK) || (c =? IKCP_CMD_WASK) || (c =? IKCP_CMD_WINS).

(** What the loop over a datagram's segments carries along. *)
Record reading : Type := MkReading { rk : KCP; latest : option Z; flushSegments : bool }.

(** One segment of a datagram, with its payload. *)
Definition input_segment (pt : PacketType) (g : segment) (a : reading) : outcome reading :=
  let k := rk a in
  let k := match pt with IKCP_PACKET_REGULAR => k <| rmt_wnd := wnd g |> | IKCP_PACKET_FEC => k end in
  let '(n, k) := parse_una (una g) k in
  let fl := flushSegments a || (0 <? n)%nat in
  let k := shrink_buf k in
  if cmd g =? IKCP_CMD_ACK then
    let k := parse_ack (sn g) k in
    let '(b, k) := parse_fastack (sn g) (ts g) k in
    Ret (MkReading k (Some (ts g)) (fl || b))
  else if cmd g =? IKCP_CMD_PUSH then
    if itimediff (sn g) (u32 (rcv_nxt k + rcv_wnd k)) <? 0 then
      let k := ack_push (sn g) (ts g) k in
      if 0 <=? itimediff (sn g) (rcv_nxt k) then
        '(_, k) ← parse_data g k; Ret (MkReading k (latest a) fl)
      else Ret (MkReading k (latest a) fl)
    else Ret (MkReading k (latest a) fl)
  else if cmd g =? IKCP_CMD_WASK then
    Ret (MkReading (k <| probe ::= (fun p => Z.lor p IKCP_ASK_TELL) |>) (latest a) fl)
  else Ret (MkReading k (latest a) fl).

(** The loop; an error returns at once, with what was done so far. *)
Fixpoint input_loop (fuel : nat) (pt : PacketType) (d : list Z) (a : reading) : outcome (Z * reading) :=
  match fuel with
  | O => Panic FuelExhausted
  | S fuel =>
      if Z.of_nat (length d) <? IKCP_OVERHEAD then Ret (0, a)
      else
        let '(g, len) := decode d in
        let d := drop 24 d in
        if negb (sconv g =? conv (rk a)) then Ret (-1, a)
        else if Z.of_nat (length d) <? len then Ret (-2, a)
        else if negb (known_cmd (cmd g)) then Ret (-3, a)
        else
          a ← input_segment pt (g <| data := take (Z.to_nat len) d |>) a;
          input_loop fuel pt (drop (Z.to_nat len) d) a
  end.

(** The congestion window's growth when [snd_una] moved. *)
Definition grow_cwnd (k : KCP) : KCP :=
  let m := mss k in
  let k := if cwnd k <? ssthresh k then k <| cwnd ::= (fun c => u32 (c + 1)) |> <| incr ::= (fun c => u32 (c + m)) |>
           else
             let inc := if incr k <? m then m else incr k in
             let inc := u32 (inc + u32 (u32 (m * m) / inc + m / 16)) in
             let k := k <| incr := inc |> in
             if u32 (u32 (cwnd k + 1) * m) <=? inc
             then k <| cwnd := if 0 <? m then u32 (u32 (inc + m) - 1) / m else u32 (inc + m - 1) |> else k in
  if rmt_wnd k <? cwnd k then k <| cwnd := rmt_wnd k |> <| incr := u32 (rmt_wnd k * m) |> else k.

Definition Input (d : list Z) (pt : PacketType) (ackNoDelay : bool) (k : KCP) : outcome (Z * KCP) :=
  let una0 := snd_una k in
  if Z.of_nat (length d) <? IKCP_OVERHEAD then Ret (-1, k)
  else
    '(ret, a) ← input_loop (S (length d)) pt d (MkReading k None false);
    let k := rk a in
    if ret <? 0 then Ret (ret, k)
    else
      let k := match latest a, pt with
               | Some t, IKCP_PACKET_REGULAR =>
                   let '(now, k) := currentMs k in
                   if 0 <=? itimediff now t then update_ack (itimediff now t) k else k
               | _, _ => k
               end in
      let k := if (nocwnd k =? 0) && (0 <? itimediff (snd_una k) una0) && (cwnd k <? rmt_wnd k) then grow_cwnd k else k in
      '(_, k) ← (if flushSegments a then flush IKCP_FLUSH_FULL k
                 else if mtu k / IKCP_OVERHEAD <=? Z.of_nat (length (acklist k)) then flush IKCP_FLUSH_ACKONLY k
                 else if ackNoDelay && (0 <? length (acklist k))%nat then flush IKCP_FLUSH_ACKONLY k
                 else Ret (0, k));
      Ret (0, k).

(** ** Timers and settings *)

Definition Update (k : KCP) : outcome KCP :=
  let '(now, k) := currentMs k in
  let k := if updated k =? 0 then k <| updated := 1 |> <| ts_flush := now |> else k in
  let slap := itimediff now (ts_flush k) in
  let far := (10000 <=? slap) || (slap <? -10000) in
  let k := if far then k <| ts_flush := now |> else k in
  if 0 <=? (if far then 0 else slap) then
    let k := k <| ts_flush ::= (fun t => u32 (t + interval k)) |> in
    let k := if 0 <=? itimediff now (ts_flush k) then k <| ts_flush := u32 (now + interval k) |> else k in
    '(_, k) ← flush IKCP_FLUSH_FULL k; Ret k
  else Ret k.

(** Check's loop over the window: the nearest resend, or one already due. *)
Fixpoint nearest (now : Z) (l : list segment) (tm : Z) : option Z :=
  match l with
  | [] => Some tm
  | g :: l =>
      let diff := itimediff (resendts g) now in
      if diff <=? 0 then None else nearest now l (if diff <? tm then diff else tm)
  end.

Definition Check_ (k : KCP) : Z * KCP :=
  let '(now, k) := currentMs k in
  if updated k =? 0 then (now, k)
  else
    let d := itimediff now (ts_flush k) in
    let t := if (10000 <=? d) || (d <? -10000) then now else ts_flush k in
    if 0 <=? itimediff now t then (now, k)
    else
      let tm_flush := itimediff t now in
      match nearest now (snd_buf k) (2 ^ 31 - 1) with
      | None => (now, k)
      | Some tm_packet =>
          let minimal := if tm_flush <=? tm_packet then u32 tm_flush else u32 tm_packet in
          let minimal := if interval k <=? minimal then interval k else minimal in
          (u32 (now + minimal), k)
      end.

(** The larger of [b] and what the segment needs of the encoding buffer. *)
Definition widest (b : Z) (g : segment) : Z :=
  if b <? IKCP_OVERHEAD + Z.of_nat (length (data g)) then IKCP_OVERHEAD + Z.of_nat (length (data g)) else b.

Definition SetMtu (m : Z) (k : KCP) : Z * KCP :=
  if m <=? IKCP_OVERHEAD then (-1, k)
  else
    let size := foldl widest (foldl widest ((m + IKCP_OVERHEAD) * 3) (snd_buf k)) (snd_queue k) in
    (0, k <| mtu := u32 m |> <| mss := u32 (u32 m - IKCP_OVERHEAD) |> <| buffer := size |>).

Definition NoDelay (nd iv rs nc : Z) (k : KCP) : KCP :=
  let k := if 0 <=? nd then k <| nodelay := u32 nd |> <| rx_minrto := if nd =? 0 then IKCP_RTO_MIN else IKCP_RTO_NDL |> else k in
  let k := if 0 <=? iv then k <| interval := if 5000 <? iv then 5000 else if iv <? 10 then 10 else iv |> else k in
  let k := if 0 <=? rs then k <| fastresend := i32 rs |> else k in
  if 0 <=? nc then k <| nocwnd := i32 nc |> else k.

Definition WndSize (sw rw : Z) (k : KCP) : KCP :=
  let k := if 0 <? sw then k <| snd_wnd := u32 sw |> else k in
  if 0 <? rw then k <| rcv_wnd := u32 rw |> else k.

Definition WaitSnd (k : KCP) : nat := (length (snd_buf k) + length (snd_queue k))%nat.
Definition SetStreamMode (b : bool) (k : KCP) : KCP := k <| stream := if b then 1 else 0 |>.
Definition Flush (k : KCP) : outcome (Z * KCP) := '(ms, k) ← flush IKCP_FLUSH_FULL k; Ret (ms * 10 ^ 6, k).
Definition FlushAckOnly (k : KCP) : outcome KCP := '(_, k) ← flush IKCP_FLUSH_ACKONLY k; Ret k.
Definition AskWindow (k : KCP) : KCP := k <| probe ::= (fun p => Z.lor p IKCP_ASK_SEND) |>.
Definition IsDead (k : KCP) : bool := state k =? max32.
Definition SetDeadLink (n : Z) (k : KCP) : KCP := if 0 <? n then k <| dead_link := u32 n |> else k.
Definition QueuedBytes (k : KCP) : Z := sum_data (snd_queue k).
