(* ===== verification/KcpWire.v ===== *)
(** * KCP on the wire: datagrams and the segments in them

    A datagram is the encodings of its segments one after the other; Input's
    loop reads exactly those segments back. *)

From S2P Require Import Prelude Update Endian GoHeap KcpRing Kcp.
Local Open Scope Z_scope.

(** A segment whose header fields fit their widths. *)
Record wire_ok (g : segment) : Prop := {
  w_conv : is_uint 32 (sconv g);
  w_cmd : known_cmd (cmd g) = true;
  w_frg : is_byte (frg g);
  w_wnd : is_uint 16 (wnd g);
  w_ts : is_uint 32 (ts g);
  w_sn : is_uint 32 (sn g);
  w_una : is_uint 32 (una g);
  w_len : is_uint 32 (Z.of_nat (length (data g)))
}.

(** What of a segment crosses the wire. *)
Definition wired (g : segment) : segment :=
  MkSeg (sconv g) (cmd g) (frg g) (wnd g) (ts g) (sn g) (una g) 0 0 0 0 false (data g).

Definition dgram (gs : list segment) : list Z := concat ((fun g => encode g ++ data g) <$> gs).

Lemma dgram_snoc gs g : dgram (gs ++ [g]) = dgram gs ++ encode g ++ data g.
Proof. unfold dgram. rewrite fmap_app, concat_app. cbn. by rewrite app_nil_r. Qed.

Lemma length_encode g : length (encode g) = 24%nat.
Proof. unfold encode. rewrite !length_app, !length_le_bytes. done. Qed.

Lemma le_val_bytes n z : is_uint (8 * Z.of_nat n) z -> le_val (le_bytes n z) = z.
Proof. intros. rewrite le_val_le_bytes. by apply Z.mod_small. Qed.

Lemma known_cmd_byte c : known_cmd c = true -> is_byte c.
Proof.
  unfold known_cmd, IKCP_CMD_PUSH, IKCP_CMD_ACK, IKCP_CMD_WASK, IKCP_CMD_WINS, is_uint.
  rewrite !orb_true_iff, !Z.eqb_eq. lia.
Qed.

Lemma byte_val b : is_byte b -> le_val [b] = b.
Proof. intros Hb. cbn [le_val]. by rewrite Z.lor_0_r. Qed.

Lemma decode_encode g rest : wire_ok g ->
  decode (encode g ++ rest) = ((wired g) <| data := [] |>, Z.of_nat (length (data g))) /\ drop 24 (encode g ++ rest) = rest.
Proof.
  intros [H1 H2 H3 H4 H5 H6 H7 H8]. split; [|apply drop_app_length'; by rewrite length_encode].
  assert (E : forall off n bs, take n (drop off (encode g ++ rest)) = bs -> bytes_at off n (encode g ++ rest) = le_val bs) by (by intros ??? <-).
  unfold decode.
  rewrite (E 0%nat 4%nat (le_bytes 4 (sconv g))), (E 4%nat 1%nat [cmd g]), (E 5%nat 1%nat [frg g]), (E 6%nat 2%nat (le_bytes 2 (wnd g))),
    (E 8%nat 4%nat (le_bytes 4 (ts g))), (E 12%nat 4%nat (le_bytes 4 (sn g))), (E 16%nat 4%nat (le_bytes 4 (una g))),
    (E 20%nat 4%nat (le_bytes 4 (u32 (Z.of_nat (length (data g)))))) by reflexivity.
  rewrite !le_val_bytes, !byte_val by (done || by apply known_cmd_byte || by apply wrap_uint).
  unfold u32. rewrite wrap_id by done. reflexivity.
Qed.

(** Input's loop over the segments of a datagram. *)
Fixpoint input_all (pt : PacketType) (gs : list segment) (a : reading) : outcome reading :=
  match gs with
  | [] => Ret a
  | g :: gs => a ← input_segment pt g a; input_all pt gs a
  end.

(** The loop that moves ordered segments touches the receive side only. *)
Lemma move_ready_frame fuel : forall k k', move_ready fuel k = Ret k' ->
  exists h q n, k' = k <| rcv_buf := h |> <| rcv_queue := q |> <| rcv_nxt := n |>.
Proof.
  induction fuel as [|fuel IH]; intros k k' H; cbn [move_ready] in H; [done|].
  destruct (segments (rcv_buf k)) as [|g0 l0].
  { injection H as <-. exists (rcv_buf k), (rcv_queue k), (rcv_nxt k). by destruct k. }
  destruct (heapPop (rcv_buf k)) as [[g h]|]; [|done]. destruct (_ && _).
  - apply IH in H as (h' & q & n & ->). by exists h', q, n.
  - injection H as <-. exists (heapPush g h), (rcv_queue k), (rcv_nxt k). by destruct k.
Qed.

Lemma parse_data_frame g k b k' : parse_data g k = Ret (b, k') ->
  exists h q n, k' = k <| rcv_buf := h |> <| rcv_queue := q |> <| rcv_nxt := n |>.
Proof.
  unfold parse_data. intros H. destruct (_ || _); [injection H as _ <-; exists (rcv_buf k), (rcv_queue k), (rcv_nxt k); by destruct k|].
  destruct (Has _ _); cbn [mbind outcome_bind] in H.
  - apply outcome_bind_Ret in H as (k1 & H1 & H). injection H as _ <-. exact (move_ready_frame _ _ _ H1).
  - destruct (_ <? _); [done|]. cbn [mbind outcome_bind] in H. apply outcome_bind_Ret in H as (k1 & H1 & H). injection H as _ <-.
    apply move_ready_frame in H1 as (h & q & n & ->). by exists h, q, n.
Qed.

Lemma parse_ack_frame n k : exists l, parse_ack n k = k <| snd_buf := l |>.
Proof. unfold parse_ack. destruct (not_inflight n k); [exists (snd_buf k); by destruct k|by eexists]. Qed.

Lemma parse_fastack_frame n t k b k' : parse_fastack n t k = (b, k') -> exists l, k' = k <| snd_buf := l |>.
Proof.
  unfold parse_fastack. destruct (not_inflight n k); [intros [= _ <-]; exists (snd_buf k); by destruct k|].
  destruct (count_fastack _ _ _ _) as [b' l]. intros [= _ <-]. by exists l.
Qed.

Lemma input_segment_conv pt g a a' : input_segment pt g a = Ret a' -> conv (rk a') = conv (rk a).
Proof.
  unfold input_segment. set (k := match pt with IKCP_PACKET_REGULAR => _ | IKCP_PACKET_FEC => _ end).
  assert (Ek : conv k = conv (rk a)) by (by destruct pt). clearbody k. rewrite <- Ek. cbn [parse_una].
  set (k1 := shrink_buf _). assert (E1 : conv k1 = conv k) by done. clearbody k1. rewrite <- E1.
  destruct (cmd g =? IKCP_CMD_ACK).
  { destruct (parse_fastack _ _ _) as [b k2] eqn:E2. intros [= <-]. cbn.
    apply parse_fastack_frame in E2 as [l2 ->]. by destruct (parse_ack_frame (sn g) k1) as [l1 ->]. }
  destruct (cmd g =? IKCP_CMD_PUSH).
  - destruct (_ <? 0); [|by intros [= <-]]. destruct (0 <=? _); [|by intros [= <-]]. intros H.
    apply outcome_bind_Ret in H as ([b k2] & H & H'). injection H' as <-. by apply parse_data_frame in H as (? & ? & ? & ->).
  - destruct (cmd g =? IKCP_CMD_WASK); by intros [= <-].
Qed.

Lemma input_loop_dgram gs : forall fuel pt a, (length (dgram gs) < fuel)%nat ->
  Forall wire_ok gs -> Forall (fun g => sconv g = conv (rk a)) gs ->
  input_loop fuel pt (dgram gs) a = (a ← input_all pt (wired <$> gs) a; Ret (0, a)).
Proof.
  induction gs as [|g gs IH]; intros fuel pt a Hf Hw Hc; destruct fuel as [|fuel]; cbn [input_loop]; try (cbn in Hf; lia); [done|].
  inversion Hw as [|? ? Hg Hw']; inversion Hc as [|? ? Hcg Hc']; subst.
  assert (Ed : dgram (g :: gs) = encode g ++ (data g ++ dgram gs)) by (unfold dgram; rewrite fmap_cons; cbn [concat]; by rewrite <- app_assoc).
  rewrite Ed in *. destruct (decode_encode g (data g ++ dgram gs) Hg) as [E1 E2].
  rewrite length_app, length_encode, length_app in *.
  destruct (Z.ltb_spec (Z.of_nat (24 + (length (data g) + length (dgram gs)))) IKCP_OVERHEAD) as [X|_]; [unfold IKCP_OVERHEAD in X; lia|].
  rewrite E1, E2. cbn [sconv cmd wired over data_field]. rewrite Hcg, Z.eqb_refl. cbn [negb].
  rewrite length_app. destruct (Z.ltb_spec (Z.of_nat (length (data g) + length (dgram gs))) (Z.of_nat (length (data g)))) as [X|_]; [lia|].
  rewrite (w_cmd _ Hg). cbn [negb]. rewrite Nat2Z.id, take_app_length, drop_app_length.
  change ((wired g) <| data := [] |> <| data := data g |>) with (wired g). cbn [fmap list_fmap input_all].
  destruct (input_segment pt (wired g) a) as [a'|] eqn:E; [|done]. cbn [mbind outcome_bind].
  apply IH; [lia|done|]. apply input_segment_conv in E. by rewrite E.
Qed.
