(* ===== verification/KcpLink.v ===== *)
(** * KCP: reliable, ordered delivery over a network that loses, repeats and
    reorders

    Two engines, each fed any datagrams the other ever put out, in any order
    and any number of times.  Sequence numbers are compared modulo 2^32, so
    the statements hold as long as fewer than 2^31 segments were numbered. *)

From S2P Require Import Prelude Update Endian GoHeap KcpRing Kcp KcpWire.
Local Open Scope Z_scope.

Definition seq_bound : Z := 2 ^ 31.
Abbreviation few k := (Z.of_nat (length (numbered k)) < seq_bound).

Lemma itimediff_small a b : 0 <= a <= seq_bound -> 0 <= b <= seq_bound -> -seq_bound <= a - b < seq_bound -> itimediff a b = a - b.
Proof.
  unfold itimediff, i32, seq_bound. intros. rewrite Z.mod_small; lia.
Qed.

Lemma u32_small a : 0 <= a <= seq_bound -> u32 a = a.
Proof. intros. apply Z.mod_small. unfold seq_bound in *. lia. Qed.

(** ** What an engine has received *)

(** Segment [n] of the peer arrived: it is behind [rcv_nxt] or in the heap. *)
Definition has (k : KCP) (n : Z) : Prop := 0 <= n /\ (n < rcv_nxt k \/ n ∈ marks (rcv_buf k)).

(** The receive side of [k] against the peer's numbered segments [L]. *)
Record rcv_ok (L : list (Z * list Z)) (k : KCP) : Prop := {
  ro_nxt : 0 <= rcv_nxt k <= Z.of_nat (length L);
  ro_queue : delivered k ++ (content <$> rcv_queue k) = take (Z.to_nat (rcv_nxt k)) L;
  ro_heap : ordered sn (segments (rcv_buf k));
  ro_nodup : NoDup (sn <$> segments (rcv_buf k));
  ro_marks : marks (rcv_buf k) = list_to_set (sn <$> segments (rcv_buf k));
  ro_buf : Forall (fun g => rcv_nxt k <= sn g /\ L !! Z.to_nat (sn g) = Some (content g)) (segments (rcv_buf k))
}.

(** Only what arrived is acknowledged. *)
Definition acks_ok (L : list (Z * list Z)) (k : KCP) : Prop :=
  Forall (fun a => has k (ack_sn a) /\ ack_sn a < Z.of_nat (length L) /\ is_uint 32 (ack_ts a)) (acklist k).

(** ** What an engine has sent *)

(** A segment on its way from [k]. *)
Record from (k : KCP) (g : segment) : Prop := {
  fr_wire : wire_ok g;
  fr_conv : sconv g = conv k;
  fr_push : cmd g = IKCP_CMD_PUSH -> 0 <= sn g /\ numbered k !! Z.to_nat (sn g) = Some (content g);
  fr_una : 0 <= una g <= rcv_nxt k;
  fr_ack : cmd g = IKCP_CMD_ACK -> has k (sn g)
}.

Definition datagrams (k : KCP) (ds : list (list Z)) : Prop :=
  Forall (fun d => exists gs, d = dgram gs /\ Forall (from k) gs) ds.

(** A segment in the send window of [k], with number [n], against what the
    peer [p] has. *)
Record inflight (k p : KCP) (n : Z) (g : segment) : Prop := {
  in_sn : sn g = n;
  in_conv : sconv g = conv k;
  in_cmd : cmd g = IKCP_CMD_PUSH;
  in_frg : is_byte (frg g);
  in_len : is_uint 32 (Z.of_nat (length (data g)));
  in_data : acked g = false -> numbered k !! Z.to_nat n = Some (content g);
  in_acked : acked g = true -> has p n
}.

(** A segment still in the send queue. *)
Definition queued_ok (g : segment) : Prop :=
  is_byte (frg g) /\ is_uint 32 (Z.of_nat (length (data g))) /\ acked g = false.

Record snd_ok (k p : KCP) : Prop := {
  so_nxt : snd_nxt k = Z.of_nat (length (numbered k));
  so_una : 0 <= snd_una k /\ snd_una k + Z.of_nat (length (snd_buf k)) = snd_nxt k;
  so_got : snd_una k <= rcv_nxt p;
  so_buf : forall i g, snd_buf k !! i = Some g -> inflight k p (snd_una k + Z.of_nat i) g;
  so_queue : Forall queued_ok (snd_queue k)
}.

Record ok (k p : KCP) : Prop := {
  ok_conv : is_uint 32 (conv k) /\ conv k = conv p;
  ok_snd : snd_ok k p;
  ok_rcv : rcv_ok (numbered p) k;
  ok_acks : acks_ok (numbered p) k;
  ok_outs : datagrams k (outputs k)
}.

(** ** How an engine evolves *)

Record evolves (k k' : KCP) : Prop := {
  ev_conv : conv k' = conv k;
  ev_numbered : numbered k `prefix_of` numbered k';
  ev_nxt : rcv_nxt k <= rcv_nxt k';
  ev_has : forall n, has k n -> has k' n
}.

#[export] Instance evolves_preorder : PreOrder evolves.
Proof.
  split; [by split|]. intros a b c [A1 A2 A3 A4] [B1 B2 B3 B4]. split; [congruence|by etrans|lia|auto].
Qed.

Lemma from_evolves k k' g : evolves k k' -> from k g -> from k' g.
Proof.
  intros [E1 E2 E3 E4] [F1 F2 F3 F4 F5]. split; [done|congruence| |lia|auto].
  intros Hc. destruct (F3 Hc) as [A B]. split; [done|]. by eapply prefix_lookup_Some.
Qed.

Lemma datagrams_evolve k k' ds : evolves k k' -> datagrams k ds -> datagrams k' ds.
Proof.
  intros E HD. eapply Forall_impl; [exact HD|]. intros d (gs & -> & H). exists gs. split; [done|].
  eapply Forall_impl; [exact H|]. intros g. by apply from_evolves.
Qed.

Lemma rcv_ok_prefix L L' k : L `prefix_of` L' -> rcv_ok L k -> rcv_ok L' k.
Proof.
  intros HL [R1 R2 R3 R4 R5 R6]. pose proof (prefix_length _ _ HL). split; [lia|..|done|done|done|].
  - rewrite R2. destruct HL as [t ->]. rewrite take_app_le by lia. done.
  - eapply Forall_impl; [exact R6|]. intros g [A B]. split; [done|]. by eapply prefix_lookup_Some.
Qed.

Lemma acks_ok_mono L L' k k' : (length L <= length L')%nat -> (forall n, has k n -> has k' n) -> acklist k' = acklist k ->
  acks_ok L k -> acks_ok L' k'.
Proof.
  unfold acks_ok. intros HL Hh ->. intros H. eapply Forall_impl; [exact H|]. intros a (A & B & C). split; [auto|]. split; [lia|done].
Qed.

Lemma ok_evolves k p p' : evolves p p' -> ok k p -> ok k p'.
Proof.
  intros E [O1 [S1 S2 S3 S4 S5] O3 OA O4]. destruct E as [E1 E2 E3 E4].
  split; [|split|by eapply rcv_ok_prefix|by eapply acks_ok_mono; [apply prefix_length|..]|done].
  - rewrite E1. done.
  - done.
  - done.
  - lia.
  - intros i g Hg. destruct (S4 i g Hg). split; auto.
  - done.
Qed.

(** What these statements look at. *)
Definition vital (k : KCP) :=
  (conv k, numbered k, (snd_una k, snd_nxt k, snd_buf k, snd_queue k), (rcv_nxt k, rcv_queue k, rcv_buf k, acklist k, delivered k), outputs k).

Lemma vital_ok k k' p : vital k' = vital k -> ok k p -> ok k' p /\ evolves k k'.
Proof.
  intros E. unfold vital in E. injection E as E1 E2 E3 E4 E5 E6 E7 E8 E9 E10 E11 E12.
  assert (Hh : forall n, has k n -> has k' n) by (intros n; unfold has; by rewrite E7, E9).
  assert (He : evolves k k') by (split; [done|by rewrite E2|lia|done]).
  intros [O1 [S1 S2 S3 S4 S5] [R1 R2 R3 R4 R5 R6] OA O4]. split; [|done]. split; [by rewrite E1|split|split|..].
  all: rewrite ?E1, ?E2, ?E3, ?E4, ?E5, ?E6, ?E7, ?E8, ?E9, ?E10, ?E11, ?E12; try done.
  - intros i g Hg. destruct (S4 i g Hg). split; try done; by rewrite ?E1, ?E2.
  - by apply (acks_ok_mono (numbered p) _ k).
  - by eapply datagrams_evolve.
Qed.

(** ** Receiving *)

Record buf_ok (L : list (Z * list Z)) (n : Z) (h : segmentHeap) : Prop := {
  bo_heap : ordered sn (segments h);
  bo_nodup : NoDup (sn <$> segments h);
  bo_marks : marks h = list_to_set (sn <$> segments h);
  bo_buf : Forall (fun g => n <= sn g /\ L !! Z.to_nat (sn g) = Some (content g)) (segments h)
}.

Definition numbered_low (g : segment) : Prop := 0 <= sn g < seq_bound.

Lemma Less_sn a b : numbered_low a -> numbered_low b -> Less a b = (sn a <? sn b).
Proof.
  unfold numbered_low, Less. intros. rewrite itimediff_small by lia.
  destruct (Z.ltb_spec 0 (sn b - sn a)), (Z.ltb_spec (sn a) (sn b)); lia.
Qed.

Section Buffer.
Context (L : list (Z * list Z)).
Hypothesis few_L : Z.of_nat (length L) < seq_bound.

Lemma buf_low n h : 0 <= n -> buf_ok L n h -> Forall numbered_low (segments h).
Proof.
  intros Hn [_ _ _ B]. eapply Forall_impl; [exact B|]. intros g [H1 H2]. apply lookup_lt_Some in H2. unfold numbered_low. lia.
Qed.

Lemma heapPop_ok n h : 0 <= n -> buf_ok L n h -> segments h <> [] ->
  exists g h', heapPop h = Some (g, h') /\ segments h ≡ₚ g :: segments h' /\ buf_ok L n h' /\
    marks h' = marks h ∖ {[sn g]} /\ n <= sn g /\ L !! Z.to_nat (sn g) = Some (content g) /\
    Forall (fun x => sn g < sn x) (segments h') /\ sn g ∈ marks h.
Proof.
  intros Hn HB Hne. pose proof (buf_low n h Hn HB) as HP. destruct HB as [B1 B2 B3 B4].
  destruct (Pop_good Less sn numbered_low Less_sn (segments h) (conj HP B1) Hne) as (g & l & E & [HP' HO] & Hp & Hm).
  exists g, (MkHeap l (marks h ∖ {[sn g]})). unfold heapPop. rewrite E. cbn. split; [done|]. split; [done|].
  assert (Hp' : sn <$> segments h ≡ₚ sn g :: (sn <$> l)) by (by rewrite Hp). rewrite Hp' in B2. apply NoDup_cons in B2 as [N1 N2].
  rewrite Hp in B4. inversion B4 as [|? ? [G1 G2] B4']; subst.
  split; [split; cbn; [done|done| |done]|split; [done|split; [done|split; [done|]]]].
  - rewrite B3, Hp'. cbn. set_solver.
  - split; [|rewrite B3, Hp'; cbn; set_solver]. apply Forall_forall. intros x Hx. rewrite Forall_forall in Hm. specialize (Hm x Hx).
    cbn in Hm. assert (sn x <> sn g); [|lia]. intros Ex. apply N1. rewrite <- Ex. by apply list_elem_of_fmap_2.
Qed.

Lemma heapPush_ok n h g : 0 <= n -> buf_ok L n h -> n <= sn g -> L !! Z.to_nat (sn g) = Some (content g) -> sn g ∉ marks h ->
  buf_ok L n (heapPush g h).
Proof.
  intros Hn HB H1 H2 H3. pose proof (buf_low n h Hn HB) as HP. destruct HB as [B1 B2 B3 B4].
  assert (Hg : numbered_low g) by (apply lookup_lt_Some in H2; unfold numbered_low; lia).
  destruct (Push_good Less sn numbered_low Less_sn g (segments h) (conj HP B1) Hg) as [[HP' HO] Hp].
  unfold heapPush. split; cbn [segments marks]; [done|..].
  - rewrite Hp. cbn. apply NoDup_cons. split; [|done]. rewrite B3 in H3. set_solver.
  - rewrite Hp. cbn. by rewrite B3.
  - rewrite Hp. by constructor.
Qed.
End Buffer.

Lemma rcv_buf_ok L k : rcv_ok L k -> buf_ok L (rcv_nxt k) (rcv_buf k).
Proof. by intros []. Qed.

Lemma move_ready_ok L fuel : forall k, Z.of_nat (length L) < seq_bound -> rcv_ok L k -> (length (segments (rcv_buf k)) < fuel)%nat ->
  exists k', move_ready fuel k = Ret k' /\ rcv_ok L k' /\ evolves k k'.
Proof.
  induction fuel as [|fuel IH]; intros k HL HR Hf; [lia|]. cbn [move_ready].
  destruct (segments (rcv_buf k)) as [|g0 l0] eqn:Es; [by exists k|]. rewrite <- Es in Hf.
  pose proof (rcv_buf_ok L k HR) as HB. destruct HR as [R1 R2 R3 R4 R5 R6].
  destruct (heapPop_ok L HL (rcv_nxt k) (rcv_buf k) ltac:(lia) HB) as (g & h & -> & Hp & HB' & Hm & G1 & G2 & G3 & G4); [by rewrite Es|].
  assert (Hlen : length (segments (rcv_buf k)) = S (length (segments h))) by (by rewrite Hp).
  pose proof (lookup_lt_Some _ _ _ G2) as Hlt.
  destruct ((sn g =? rcv_nxt k) && _) eqn:Ec.
  2: { exists (k <| rcv_buf := heapPush g h |>). split; [done|].
       assert (HN : sn g ∉ marks h) by (rewrite Hm; set_solver).
       destruct (heapPush_ok L HL (rcv_nxt k) h g ltac:(lia) HB' G1 G2 HN) as [B1 B2 B3 B4].
       assert (Hh : forall n, has k n -> has (k <| rcv_buf := heapPush g h |>) n).
       { intros n [H1 [H2|H2]]; split; try done; [by left|right]. cbn. rewrite Hm. destruct (decide (n = sn g)); set_solver. }
       split; [by split|by split]. }
  apply andb_true_iff in Ec as [Eg _]. apply Z.eqb_eq in Eg.
  set (k1 := (k <| rcv_buf := h |> <| rcv_queue ::= (fun q => q ++ [g]) |>) <| rcv_nxt ::= (fun n => u32 (n + 1)) |>).
  assert (En : rcv_nxt k1 = rcv_nxt k + 1) by (cbn; apply u32_small; unfold seq_bound in *; lia).
  assert (Hh : forall n, has k n -> has k1 n).
  { intros n [H1 [H2|H2]]; split; try done; rewrite En; [left; lia|]. destruct (decide (n = sn g)) as [->|]; [left; lia|].
    right. change (n ∈ marks h). rewrite Hm. set_solver. }
  assert (HE : evolves k k1) by (split; [done|done|rewrite En; lia|done]).
  destruct (IH k1) as (k' & -> & HR' & HE').
  - done.
  - destruct HB' as [B1 B2 B3 B4]. split; try done.
    + rewrite En. lia.
    + rewrite En. change (delivered k ++ (content <$> rcv_queue k ++ [g]) = take (Z.to_nat (rcv_nxt k + 1)) L).
      rewrite fmap_app, app_assoc, R2. replace (Z.to_nat (rcv_nxt k + 1)) with (S (Z.to_nat (rcv_nxt k))) by lia.
      symmetry. apply take_S_r. by rewrite <- Eg.
    + rewrite En. change (segments (rcv_buf k1)) with (segments h). rewrite Forall_forall in *. intros x Hx.
      specialize (G3 x Hx). specialize (B4 x Hx) as [_ B4]. cbn in G3. split; [lia|done].
  - change (length (segments h) < fuel)%nat. lia.
  - exists k'. split; [done|]. split; [done|]. by etrans.
Qed.

Lemma parse_data_ok L g k b k' :
  Z.of_nat (length L) < seq_bound -> rcv_ok L k -> 0 <= sn g -> L !! Z.to_nat (sn g) = Some (content g) ->
  parse_data g k = Ret (b, k') -> rcv_ok L k' /\ evolves k k' /\
    (itimediff (sn g) (u32 (rcv_nxt k + rcv_wnd k)) < 0 -> 0 <= itimediff (sn g) (rcv_nxt k) -> has k' (sn g)).
Proof.
  intros HL HR G0 G1 H. unfold parse_data in H. pose proof (ro_nxt _ _ HR) as Hn. pose proof (lookup_lt_Some _ _ _ G1) as Hlt.
  destruct (Z.leb_spec 0 (itimediff (sn g) (u32 (rcv_nxt k + rcv_wnd k)))); cbn [orb] in H.
  { injection H as _ <-. split; [done|]. split; [done|lia]. }
  destruct (Z.ltb_spec (itimediff (sn g) (rcv_nxt k)) 0) as [X|X].
  { injection H as _ <-. split; [done|]. split; [done|lia]. }
  rewrite itimediff_small in X by (unfold seq_bound in *; lia).
  assert (HM : forall k1 r, rcv_ok L k1 -> has k1 (sn g) -> evolves k k1 -> (k ← move_available k1; Ret (r, k)) = Ret (b, k') ->
    rcv_ok L k' /\ evolves k k' /\ has k' (sn g)).
  { intros k1 r HR1 Hh HE HX. apply outcome_bind_Ret in HX as (k2 & HX & E2). injection E2 as _ <-.
    destruct (move_ready_ok L _ k1 HL HR1 (Nat.lt_succ_diag_r _)) as (k3 & E3 & HR3 & HE3).
    unfold move_available in HX. rewrite E3 in HX. injection HX as <-. split; [done|]. split; [by etrans|]. by apply (ev_has _ _ HE3). }
  unfold Has in H. case_bool_decide as Hm; cbn [mbind outcome_bind] in H.
  - destruct (HM k true HR) as (A & B & C); [split; [lia|by right]|done|exact H|]. done.
  - destruct (_ <? _); [done|]. cbn [mbind outcome_bind] in H.
    destruct (heapPush_ok L HL (rcv_nxt k) (rcv_buf k) g ltac:(lia) (rcv_buf_ok _ _ HR) ltac:(lia) G1 Hm) as [B1 B2 B3 B4].
    destruct (HM (k <| rcv_buf ::= heapPush g |>) false) as (A & B & C).
    + destruct HR. by split.
    + split; [lia|]. right. cbn. set_solver.
    + split; [done|done|done|]. intros n [H1 [H2|H2]]; (split; [done|]); [by left|right; cbn; set_solver].
    + exact H.
    + done.
Qed.

(** A step of the receive side alone. *)
Definition sender (k : KCP) := (conv k, numbered k, snd_una k, snd_nxt k, snd_buf k, snd_queue k, outputs k).

Lemma ok_received k k' p : ok k p -> sender k' = sender k -> rcv_ok (numbered p) k' -> acks_ok (numbered p) k' -> evolves k k' -> ok k' p.
Proof.
  intros [O1 [S1 S2 S3 S4 S5] O3 OA O4] E HR HA HE. unfold sender in E. injection E as E1 E2 E3 E4 E5 E6 E7.
  split; [by rewrite E1|split|done|done|].
  all: rewrite ?E1, ?E2, ?E3, ?E4, ?E5, ?E6, ?E7; try done.
  - intros i g Hg. destruct (S4 i g Hg). split; try done; by rewrite ?E1, ?E2.
  - by eapply datagrams_evolve.
Qed.

Lemma merge_takes q : forall room got got' q', merge room q got = Ret (got', q') ->
  exists t, q = t ++ q' /\ got' = got ++ concat (data <$> t).
Proof.
  induction q as [|g q IH]; intros room got got' q' H; cbn [merge] in H.
  { injection H as <- <-. exists []. cbn. by rewrite app_nil_r. }
  destruct (_ <? _)%nat; [done|]. destruct (frg g =? 0).
  - injection H as <- <-. exists [g]. cbn. by rewrite app_nil_r.
  - apply IH in H as (t & -> & ->). exists (g :: t). cbn. by rewrite app_assoc.
Qed.

Lemma snd_content (l : list segment) : snd <$> (content <$> l) = data <$> l.
Proof. rewrite <- list_fmap_compose. done. Qed.

Lemma Recv_ok room k p n got k' : few p -> ok k p -> Recv room k = Ret (n, got, k') ->
  ok k' p /\ evolves k k' /\ sender k' = sender k /\ exists t, delivered k' = delivered k ++ t /\ got = concat (snd <$> t).
Proof.
  intros Hp HO H. unfold Recv in H.
  destruct (PeekSize k <? 0); [injection H as _ <- <-; repeat (split; [done|]); exists []; cbn; by rewrite app_nil_r|].
  destruct (_ <? PeekSize k); [injection H as _ <- <-; repeat (split; [done|]); exists []; cbn; by rewrite app_nil_r|].
  apply outcome_bind_Ret in H as ([got1 q] & HM & H). apply merge_takes in HM as (t & Eq & ->). cbn [app] in H.
  rewrite Eq in H. rewrite length_app, Nat.add_sub, take_app_length in H.
  set (k1 := (k <| rcv_queue := q |>) <| delivered ::= _ |>) in H.
  destruct HO as [O1 O2 O3 OA O4]. assert (HO : ok k p) by done.
  assert (HR1 : rcv_ok (numbered p) k1).
  { destruct O3 as [R1 R2 R3 R4 R5 R6]. split; try done.
    change ((delivered k ++ (content <$> t)) ++ (content <$> q) = take (Z.to_nat (rcv_nxt k)) (numbered p)).
    by rewrite <- R2, Eq, fmap_app, app_assoc. }
  assert (HE1 : evolves k k1) by done.
  apply outcome_bind_Ret in H as (k2 & HX & H).
  destruct (move_ready_ok _ _ k1 Hp HR1 (Nat.lt_succ_diag_r _)) as (k3 & E3 & HR3 & HE3).
  unfold move_available in HX. rewrite E3 in HX. injection HX as ->.
  pose proof (move_ready_frame _ _ _ E3) as (h & q' & m & Ek2).
  assert (HE2 : evolves k k2) by (by etrans).
  assert (Hs2 : sender k2 = sender k) by (by rewrite Ek2).
  assert (Hd2 : delivered k2 = delivered k ++ (content <$> t)) by (by rewrite Ek2).
  assert (HO2 : ok k2 p).
  { apply (ok_received k); try done. apply (acks_ok_mono (numbered p) (numbered p) k); [done|apply HE2|by rewrite Ek2|done]. }
  assert (Hv : forall f, ok (k2 <| probe ::= f |>) p /\ evolves k (k2 <| probe ::= f |>) /\ sender (k2 <| probe ::= f |>) = sender k /\ delivered (k2 <| probe ::= f |>) = delivered k ++ (content <$> t)).
  { intros f. assert (Ev : vital (k2 <| probe ::= f |>) = vital k2) by done. destruct (vital_ok _ _ p Ev HO2) as [A B]. split; [exact A|]. split; [by etrans|]. split; [exact Hs2|exact Hd2]. }
  destruct (_ && _); injection H as _ <- <-.
  - destruct (Hv (fun p0 => Z.lor p0 IKCP_ASK_TELL)) as (A & B & C & D). split; [done|]. split; [done|]. split; [done|]. exists (content <$> t). split; [done|]. by rewrite snd_content.
  - split; [done|]. split; [done|]. split; [done|]. exists (content <$> t). split; [done|]. by rewrite snd_content.
Qed.

(** ** Sending *)

(** The bytes an engine took from its writer, in order. *)
Definition bytes_out (k : KCP) : list Z := concat (snd <$> numbered k) ++ concat (data <$> snd_queue k).

Lemma concat_data_app (l1 l2 : list segment) : concat (data <$> l1 ++ l2) = concat (data <$> l1) ++ concat (data <$> l2).
Proof. by rewrite fmap_app, concat_app. Qed.

Lemma small_len (l : list Z) : (mtuLimit <? Z.of_nat (length l)) = false -> is_uint 32 (Z.of_nat (length l)).
Proof. intros H. apply Z.ltb_ge in H. unfold mtuLimit, is_uint in *. lia. Qed.

Lemma newSegment_ok bytes g : newSegment bytes = Ret g -> g = zero_segment <| data := bytes |> /\ is_uint 32 (Z.of_nat (length bytes)).
Proof. unfold newSegment. destruct (_ <? _) eqn:E; [done|]. intros [= <-]. split; [done|]. by apply small_len. Qed.

Lemma append_last_ok k buf q buf' : append_last k buf = Ret (q, buf') -> Forall queued_ok (snd_queue k) ->
  Forall queued_ok q /\ concat (data <$> q) ++ buf' = concat (data <$> snd_queue k) ++ buf.
Proof.
  unfold append_last. destruct (last (snd_queue k)) as [g|] eqn:El; [|by intros [= <- <-]].
  apply last_Some in El as [q0 E]. rewrite E.
  destruct (_ <? mss k); [|by intros [= <- <-]]. destruct (_ <? _) eqn:Eb; [done|]. intros [= <- <-] HF.
  apply small_len in Eb. apply Forall_app in HF as [HF Hg]. inversion Hg as [|? ? [G1 [G2 G3]] _]; subst.
  rewrite length_app. cbn [length]. rewrite Nat.add_sub. rewrite alter_app_r_alt, Nat.sub_diag by lia. cbn [alter list_alter].
  split; [apply Forall_app; split; [done|]; constructor; [done|constructor]|].
  rewrite !concat_data_app. cbn. rewrite !app_nil_r, <- !app_assoc. by rewrite take_drop.
Qed.

Lemma fragments_ok k count : forall buf gs, 0 < mss k -> Z.of_nat (length buf) <= Z.of_nat count * mss k ->
  fragments count k buf = Ret gs -> Forall queued_ok gs /\ concat (data <$> gs) = buf.
Proof.
  induction count as [|rest IH]; intros buf gs Hm Hl H; cbn [fragments] in H.
  { injection H as <-. split; [constructor|]. destruct buf; [done|cbn in Hl; lia]. }
  apply outcome_bind_Ret in H as (g & H1 & H). apply outcome_bind_Ret in H as (gs' & H2 & H). injection H as <-.
  apply newSegment_ok in H1 as [-> Hu].
  apply IH in H2 as [HF HC]; [|done|rewrite length_drop; lia].
  split; [constructor; [|done]|].
  - split; [cbn; destruct (stream k =? 0); [by apply wrap_uint|unfold is_uint; lia]|]. done.
  - cbn [fmap list_fmap concat]. rewrite HC. cbn. by rewrite take_drop.
Qed.

Lemma Send_ok buf k r k' : 0 < mss k -> Forall queued_ok (snd_queue k) -> Send buf k = Ret (r, k') ->
  exists q, k' = k <| snd_queue := q |> /\ Forall queued_ok q /\
    (r = 0 -> bytes_out k' = bytes_out k ++ buf).
Proof.
  intros Hm HF H. unfold Send, bytes_out in *. destruct buf as [|b buf0].
  { destruct (stream k =? 0); [injection H as <- <-; exists (snd_queue k); split; [by destruct k|]; split; [done|lia]|].
    cbn in H. injection H as <- <-. eexists. split; [reflexivity|]. split; [apply Forall_app; split; [done|]; constructor; [done|constructor]|].
    intros _. cbn. rewrite concat_data_app. cbn. by rewrite !app_nil_r. }
  set (buf := b :: buf0) in *. clearbody buf.
  apply outcome_bind_Ret in H as ([q rest] & H1 & H).
  assert (HQ : Forall queued_ok q /\ concat (data <$> q) ++ rest = concat (data <$> snd_queue k) ++ buf).
  { destruct (stream k =? 0); [by injection H1 as <- <-|]. by eapply append_last_ok. }
  destruct HQ as [Q1 Q2]. destruct (_ && _) eqn:Ee.
  { injection H as <- <-. exists q. split; [done|]. split; [done|]. intros _. cbn.
    apply andb_true_iff in Ee as [_ Ee]. apply bool_decide_eq_true in Ee. subst rest. rewrite app_nil_r in Q2. by rewrite Q2, app_assoc. }
  cbn [mss over snd_queue_field] in H. set (count := if _ <=? _ then 1 else _) in H.
  destruct (255 <? count); [injection H as <- <-; exists q; split; [done|]; split; [done|lia]|].
  apply outcome_bind_Ret in H as (gs & H2 & H). injection H as <- <-.
  apply fragments_ok in H2 as [F1 F2]; [|done|].
  2: { cbn [mss over snd_queue_field]. subst count. destruct (Z.leb_spec (Z.of_nat (length rest)) (mss k)); [lia|].
       pose proof (Z.div_mod (Z.of_nat (length rest) + mss k - 1) (mss k) ltac:(lia)).
       pose proof (Z.mod_pos_bound (Z.of_nat (length rest) + mss k - 1) (mss k) Hm).
       rewrite Z2Nat.id by (apply Z.div_pos; lia). lia. }
  exists (q ++ gs). split; [done|]. split; [by apply Forall_app|]. intros _. cbn.
  rewrite concat_data_app, F2, Q2. by rewrite app_assoc.
Qed.

(** ** Acknowledgements *)

Lemma count_una_spec u l : forall base, 0 <= base -> base + Z.of_nat (length l) <= seq_bound -> 0 <= u < seq_bound ->
  (forall i g, l !! i = Some g -> sn g = base + Z.of_nat i) ->
  (count_una u l <= length l)%nat /\ ((0 < count_una u l)%nat -> base + Z.of_nat (count_una u l) <= u).
Proof.
  induction l as [|g l IH]; intros base Hb Hl Hu Hs; [cbn; lia|]. cbn [count_una length] in *.
  pose proof (Hs 0%nat g eq_refl) as Eg. destruct (Z.ltb_spec 0 (itimediff u (sn g))) as [H|H]; [|lia].
  destruct (IH (base + 1)) as [A B]; [lia|lia|done|intros i x Hx; rewrite (Hs (S i) x Hx); lia|].
  rewrite itimediff_small in H by lia. split; [lia|]. intros _.
  destruct (decide (0 < count_una u l)%nat) as [X|X]; [specialize (B X); lia|lia].
Qed.

(** The engine with another send window. *)
Definition rewindow (una : Z) (l : list segment) (k : KCP) : KCP := k <| snd_buf := l |> <| snd_una := una |>.

Lemma ok_rewindow una l k p : ok k p -> 0 <= una -> una + Z.of_nat (length l) = snd_nxt k -> una <= rcv_nxt p ->
  (forall i g, l !! i = Some g -> inflight k p (una + Z.of_nat i) g) -> ok (rewindow una l k) p /\ evolves k (rewindow una l k).
Proof.
  intros [O1 [S1 S2 S3 S4 S5] O3 OA O4] H1 H2 H3 H4. split; [|done]. split; [done|split|..]; try done.
  - intros i g Hg. destruct (H4 i g Hg). by split.
  - by destruct O3; split.
  - by apply (datagrams_evolve k).
Qed.

Lemma una_ok u k p : ok k p -> few k -> 0 <= u <= rcv_nxt p -> few p -> rcv_nxt p <= Z.of_nat (length (numbered k)) ->
  ok (shrink_buf (parse_una u k).2) p /\ evolves k (shrink_buf (parse_una u k).2).
Proof.
  intros HO Hk Hu Hp Hn. pose proof (ok_snd _ _ HO) as [S1 S2 S3 S4 S5]. cbn [parse_una snd].
  destruct (count_una_spec u (snd_buf k) (snd_una k)) as [C1 C2].
  { lia. } { unfold seq_bound in *. lia. } { unfold seq_bound in *. lia. } { intros i g Hg. apply (S4 i g Hg). }
  set (n := count_una u (snd_buf k)) in *.
  assert (Eh : match drop n (snd_buf k) with g :: _ => sn g | [] => snd_nxt k end = snd_una k + Z.of_nat n).
  { destruct (drop n (snd_buf k)) as [|g l] eqn:Ed.
    - assert (length (drop n (snd_buf k)) = 0%nat) by (by rewrite Ed). rewrite length_drop in *. lia.
    - assert (Hg : snd_buf k !! n = Some g) by (rewrite <- (Nat.add_0_r n), <- lookup_drop, Ed; done).
      apply (S4 n g Hg). }
  assert (E : shrink_buf (k <| snd_buf ::= drop n |>) = rewindow (snd_una k + Z.of_nat n) (drop n (snd_buf k)) k).
  { rewrite <- Eh. reflexivity. }
  rewrite E. apply ok_rewindow; [done|lia|rewrite length_drop; lia|lia|].
  intros i g Hg. rewrite lookup_drop in Hg. replace (snd_una k + Z.of_nat n + Z.of_nat i) with (snd_una k + Z.of_nat (n + i)) by lia. by apply S4.
Qed.

Lemma ok_restamp l k p : ok k p -> length l = length (snd_buf k) ->
  (forall i g, l !! i = Some g -> inflight k p (snd_una k + Z.of_nat i) g) -> ok (k <| snd_buf := l |>) p /\ evolves k (k <| snd_buf := l |>).
Proof.
  intros HO Hl Hi. pose proof (ok_snd _ _ HO) as [S1 S2 S3 S4 S5].
  destruct (ok_rewindow (snd_una k) l k p HO) as [A B]; [lia|lia|done|done|]. 
  assert (Ev : vital (k <| snd_buf := l |>) = vital (rewindow (snd_una k) l k)) by done.
  destruct (vital_ok _ _ p Ev A) as [A' _]. by split.
Qed.

Lemma mark_acked_lookup n l : forall i g', mark_acked n l !! i = Some g' ->
  exists g, l !! i = Some g /\ (g' = g \/ sn g = n /\ g' = recycleSegment (g <| acked := true |>)).
Proof.
  induction l as [|g l IH]; intros i g' H; [done|]. cbn [mark_acked] in H. destruct (Z.eqb_spec n (sn g)).
  - destruct i; cbn in *; [injection H as <-; eauto|eauto].
  - destruct (_ <? 0); [eauto|]. destruct i; cbn in *; [injection H as <-; eauto|eauto].
Qed.

Lemma length_mark_acked n l : length (mark_acked n l) = length l.
Proof. induction l as [|g l IH]; [done|]. cbn [mark_acked]. repeat (case_match; cbn); auto. Qed.

Lemma count_fastack_lookup n t r l : forall b l', count_fastack n t r l = (b, l') ->
  length l' = length l /\ forall i g', l' !! i = Some g' -> exists g f, l !! i = Some g /\ g' = g <| fastack := f |>.
Proof.
  induction l as [|g l IH]; intros b l' H; cbn [count_fastack] in H; [by injection H as <- <-|].
  assert (Hid : forall (i : nat) (x : segment) (m : list segment), m !! i = Some x -> exists g f, m !! i = Some g /\ x = g <| fastack := f |>).
  { intros i x m Hx. exists x, (fastack x). split; [done|]. by destruct x. }
  destruct (_ <? 0); [injection H as <- <-; split; [done|]; intros i x; apply Hid|].
  destruct (count_fastack n t r l) as [b1 l1]. destruct (IH _ _ eq_refl) as [A B].
  destruct (_ && _); injection H as <- <-; (split; [cbn; lia|]); intros [|i] x Hx; cbn in *.
  - injection Hx as <-. by exists g, (u32 (fastack g + 1)).
  - by apply B.
  - injection Hx as <-. by apply (Hid 0%nat _ (g :: l)).
  - by apply B.
Qed.

Lemma inflight_same k p n g g' : inflight k p n g ->
  (sn g', sconv g', cmd g', frg g', acked g', data g') = (sn g, sconv g, cmd g, frg g, acked g, data g) -> inflight k p n g'.
Proof. intros [I1 I2 I3 I4 I5 I6 I7] [= E1 E2 E3 E4 E5 E6]. split; unfold content in *; rewrite ?E1, ?E2, ?E3, ?E4, ?E5, ?E6; done. Qed.

Lemma ack_ok n t k p b k' : ok k p -> has p n -> parse_fastack n t (parse_ack n k) = (b, k') -> ok k' p /\ evolves k k'.
Proof.
  intros HO Hh H.
  assert (H1 : ok (parse_ack n k) p /\ evolves k (parse_ack n k)).
  { unfold parse_ack. destruct (not_inflight n k); [done|]. pose proof (ok_snd _ _ HO) as [S1 S2 S3 S4 S5].
    apply (ok_restamp (mark_acked n (snd_buf k)) k p HO); [apply length_mark_acked|].
    intros i g' Hg. apply mark_acked_lookup in Hg as (g & Hg & [->|[En ->]]); [by apply S4|].
    destruct (S4 i g Hg) as [I1 I2 I3 I4 I5 I6 I7]. split; try done. intros _. by rewrite <- I1, En. }
  destruct H1 as [HO1 HE1]. set (k1 := parse_ack n k) in *. clearbody k1. unfold parse_fastack in H.
  destruct (not_inflight n k1); [by injection H as _ <-|]. destruct (count_fastack _ _ _ _) as [b' l] eqn:Ec. injection H as _ <-.
  apply count_fastack_lookup in Ec as [A B]. pose proof (ok_snd _ _ HO1) as [S1 S2 S3 S4 S5].
  destruct (ok_restamp l k1 p HO1 A) as [C D]; [|split; [done|by etrans]].
  intros i g' Hg. destruct (B i g' Hg) as (g & f & Hg' & ->). eapply inflight_same; [by apply S4|done].
Qed.

(** ** One segment of a datagram *)

Definition kept (k k' : KCP) : Prop := numbered k' = numbered k /\ snd_queue k' = snd_queue k /\ delivered k' = delivered k /\ mss k' = mss k.

Lemma kept_trans k1 k2 k3 : kept k1 k2 -> kept k2 k3 -> kept k1 k3.
Proof. unfold kept. naive_solver congruence. Qed.

Lemma input_segment_ok pt g a a' p : ok (rk a) p -> ok p (rk a) -> few (rk a) -> few p -> from p g ->
  input_segment pt (wired g) a = Ret a' -> ok (rk a') p /\ evolves (rk a) (rk a') /\ kept (rk a) (rk a').
Proof.
  intros HO HP Hk Hp Hg H. unfold input_segment in H. cbn [una cmd sn ts wnd wired] in H.
  set (k0 := match pt with IKCP_PACKET_REGULAR => _ | IKCP_PACKET_FEC => _ end) in H.
  assert (E0 : vital k0 = vital (rk a) /\ kept (rk a) k0) by (by destruct pt). destruct E0 as [E0 K0].
  destruct (vital_ok _ _ p E0 HO) as [HO0 HE0]. assert (Hk0 : few k0) by (destruct K0 as [-> _]; done).
  assert (Hn0 : rcv_nxt p <= Z.of_nat (length (numbered k0))).
  { destruct K0 as [-> _]. apply (ok_rcv _ _ HP). }
  clearbody k0. destruct (una_ok (una g) k0 p HO0 Hk0 (fr_una _ _ Hg) Hp Hn0) as [HO1 HE1].
  destruct (parse_una (una g) k0) as [n k0'] eqn:Eu. cbn [snd] in *.
  assert (K1 : kept k0 (shrink_buf k0')) by (unfold parse_una in Eu; by injection Eu as _ <-).
  set (k1 := shrink_buf k0') in *. clearbody k1. clear Eu.
  assert (HE : evolves (rk a) k1) by (by etrans). assert (K : kept (rk a) k1) by (by eapply kept_trans).
  destruct (Z.eqb_spec (cmd g) IKCP_CMD_ACK) as [Ec|Ec].
  { destruct (parse_fastack _ _ _) as [b k2] eqn:E2. injection H as <-. cbn [rk].
    destruct (ack_ok _ _ _ p _ _ HO1 (fr_ack _ _ Hg Ec) E2) as [A B]. split; [done|]. split; [by etrans|].
    apply (kept_trans _ _ _ K). apply parse_fastack_frame in E2 as [l2 ->]. by destruct (parse_ack_frame (sn g) k1) as [l1 ->]. }
  destruct (Z.eqb_spec (cmd g) IKCP_CMD_PUSH) as [Ep|Ep].
  2: { destruct (cmd g =? IKCP_CMD_WASK); injection H as <-; cbn [rk]; [|done].
       assert (Ev : vital (k1 <| probe ::= (fun x => Z.lor x IKCP_ASK_TELL) |>) = vital k1) by done.
       destruct (vital_ok _ _ p Ev HO1) as [A B]. split; [done|]. split; [by etrans|]. exact K. }
  destruct (Z.ltb_spec (itimediff (sn g) (u32 (rcv_nxt k1 + rcv_wnd k1))) 0) as [Hw|Hw]; [|by injection H as <-].
  destruct (fr_push _ _ Hg Ep) as [G0 G1]. pose proof (lookup_lt_Some _ _ _ G1) as Hlt.
  set (k2 := ack_push (sn g) (ts g) k1) in H.
  assert (HR2 : rcv_ok (numbered p) k2) by (destruct (ok_rcv _ _ HO1); by split).
  assert (HE2 : evolves k1 k2) by done.
  assert (Hfin : forall k3, rcv_ok (numbered p) k3 -> evolves k2 k3 -> has k3 (sn g) -> sender k3 = sender k1 ->
    acklist k3 = acklist k2 -> kept k1 k3 -> ok k3 p /\ evolves (rk a) k3 /\ kept (rk a) k3).
  { intros k3 HR3 HE3 Hh Es Ea K3. assert (HE13 : evolves k1 k3) by (by etrans). split; [|split; [by etrans|by eapply kept_trans]].
    apply (ok_received k1); try done. unfold acks_ok. rewrite Ea. unfold k2, ack_push. cbn. apply Forall_app. split.
    - pose proof (ok_acks _ _ HO1) as HA. eapply Forall_impl; [exact HA|]. intros x (A & B & C). split; [by apply (ev_has _ _ HE13)|done].
    - constructor; [|constructor]. cbn. split; [done|]. split; [lia|]. apply (fr_wire _ _ Hg). }
  destruct (Z.leb_spec 0 (itimediff (sn g) (rcv_nxt k2))) as [Hr|Hr].
  - apply outcome_bind_Ret in H as ([b k3] & H & H'). injection H' as <-. cbn [rk].
    destruct (parse_data_ok (numbered p) (wired g) k2 b k3 Hp HR2 G0 G1 H) as (A & B & C).
    apply parse_data_frame in H as (h & q & m & ->). apply Hfin; try done. by apply C.
  - injection H as <-. cbn [rk]. apply Hfin; try done. split; [done|]. left.
    pose proof (ro_nxt _ _ HR2). rewrite itimediff_small in Hr by (unfold seq_bound in *; lia). lia.
Qed.

Lemma input_all_ok pt gs p : forall a a', ok (rk a) p -> ok p (rk a) -> few (rk a) -> few p -> Forall (from p) gs ->
  input_all pt (wired <$> gs) a = Ret a' -> ok (rk a') p /\ evolves (rk a) (rk a') /\ kept (rk a) (rk a').
Proof.
  induction gs as [|g gs IH]; intros a a' HO HP Hk Hp HF H; cbn [fmap list_fmap input_all] in H; [by injection H as <-|].
  inversion HF as [|? ? Hg HF']; subst. apply outcome_bind_Ret in H as (a1 & H1 & H).
  destruct (input_segment_ok pt g a a1 p HO HP Hk Hp Hg H1) as (A & B & C).
  destruct (IH a1 a') as (A' & B' & C'); [done|by eapply ok_evolves|destruct C as [-> _]; done|done|done|done|].
  split; [done|]. split; [by etrans|by eapply kept_trans].
Qed.

(** ** Flushing *)

(** The buffer before [ptr] holds whole segments, like every datagram out. *)
Definition writing (k : KCP) (w : list Z) : Prop :=
  datagrams k (outputs k) /\ exists gs, w = dgram gs /\ Forall (from k) gs.

(** Everything a flush's writes leave alone. *)
Definition steady (k : KCP) :=
  (conv k, numbered k, (snd_una k, snd_nxt k, snd_buf k, snd_queue k), (rcv_nxt k, rcv_queue k, rcv_buf k, acklist k, delivered k), mss k).

Lemma steady_evolves k k' : steady k' = steady k -> evolves k k'.
Proof.
  unfold steady. intros [= E1 E2 E3 E4 E5 E6 E7 E8 E9 E10 E11 E12].
  split; [done|by rewrite E2|lia|]. intros n. unfold has. by rewrite E7, E9.
Qed.

Lemma steady_ok k k' p : steady k' = steady k -> ok k p -> datagrams k' (outputs k') -> ok k' p /\ evolves k k'.
Proof.
  intros Es [O1 [S1 S2 S3 S4 S5] [R1 R2 R3 R4 R5 R6] OA O4] HD. pose proof (steady_evolves _ _ Es) as HE. split; [|done].
  unfold steady in Es. injection Es as E1 E2 E3 E4 E5 E6 E7 E8 E9 E10 E11 E12.
  split; [by rewrite E1|split|split|..|done].
  all: rewrite ?E1, ?E2, ?E3, ?E4, ?E5, ?E6, ?E7, ?E8, ?E9, ?E10, ?E11, ?E12; try done.
  - intros i g Hg. destruct (S4 i g Hg). split; try done; by rewrite ?E1, ?E2.
  - apply (acks_ok_mono (numbered p) _ k); [done|apply HE|done|done].
Qed.

Lemma rcv_ok_steady L k k' : steady k' = steady k -> rcv_ok L k -> rcv_ok L k'.
Proof.
  unfold steady. intros [= E1 E2 E3 E4 E5 E6 E7 E8 E9 E10 E11 E12] [R1 R2 R3 R4 R5 R6]. split; rewrite ?E7, ?E8, ?E9, ?E11; done.
Qed.

Lemma writing_evolves k k' w : evolves k k' -> outputs k' = outputs k -> writing k w -> writing k' w.
Proof.
  intros HE Eo [W1 (gs & -> & W2)]. split; [rewrite Eo; by eapply datagrams_evolve|].
  exists gs. split; [done|]. eapply Forall_impl; [exact W2|]. intros g. by apply from_evolves.
Qed.

Lemma makeSpace_ok sp k w k' w' : makeSpace sp k w = (k', w') -> writing k w -> writing k' w' /\ steady k' = steady k.
Proof.
  unfold makeSpace. destruct (_ <? _); [|by intros [= <- <-]]. intros [= <- <-] HW. split; [|done].
  apply (writing_evolves k k w) in HW as [W1 (gs & -> & W2)]; [|done|done]. split; [|by exists []].
  apply Forall_app. split.
  - by apply (datagrams_evolve k).
  - constructor; [|constructor]. exists gs. split; [done|]. eapply Forall_impl; [exact W2|]. intros g. by apply from_evolves.
Qed.

Lemma put_ok g k w w' : put (encode g ++ data g) k w = Ret w' -> from k g -> writing k w -> writing k w'.
Proof.
  unfold put. destruct (_ <? _); [done|]. intros [= <-] Hg [W1 (gs & -> & W2)]. split; [done|].
  exists (gs ++ [g]). rewrite dgram_snoc. split; [done|]. apply Forall_app. by split; [|constructor].
Qed.

Lemma put_header_ok g k w w' : put (encode g) k w = Ret w' -> data g = [] -> from k g -> writing k w -> writing k w'.
Proof. intros H Hd. apply put_ok. by rewrite Hd, app_nil_r. Qed.

(** The header the acknowledgements and probes share. *)
Record heading (k : KCP) (g : segment) : Prop := {
  hd_conv : sconv g = conv k;
  hd_frg : frg g = 0;
  hd_wnd : is_uint 16 (wnd g);
  hd_una : una g = rcv_nxt k;
  hd_ts : is_uint 32 (ts g);
  hd_sn : is_uint 32 (sn g);
  hd_data : data g = []
}.

Lemma heading_steady k k' g : steady k' = steady k -> heading k g -> heading k' g.
Proof. unfold steady. intros [= E1 _ _ _ _ _ E7 _ _ _ _ _] []. split; congruence. Qed.

Lemma heading_from L k g c : Z.of_nat (length L) < seq_bound -> rcv_ok L k -> is_uint 32 (conv k) -> heading k g -> known_cmd c = true ->
  c <> IKCP_CMD_PUSH -> (c = IKCP_CMD_ACK -> has k (sn g)) -> from k (g <| cmd := c |>).
Proof.
  intros HL HR Hc [H1 H2 H3 H4 H5 H6 H7] Hk Hp Ha. pose proof (ro_nxt _ _ HR). split; cbn; try done.
  - split; cbn; try done; rewrite ?H1, ?H2, ?H4, ?H7; unfold is_uint, seq_bound in *; cbn; lia.
  - lia.
Qed.

Lemma flush_acks_ok L l : forall g k w g' k' w', Z.of_nat (length L) < seq_bound -> rcv_ok L k -> is_uint 32 (conv k) -> heading k g -> cmd g = IKCP_CMD_ACK ->
  Forall (fun a => has k (ack_sn a) /\ ack_sn a < Z.of_nat (length L) /\ is_uint 32 (ack_ts a)) l -> writing k w ->
  flush_acks l g k w = Ret (g', k', w') -> writing k' w' /\ steady k' = steady k /\ heading k' g'.
Proof.
  induction l as [|a l IH]; intros g k w g' k' w' HL HR Hc Hg Hcmd HF HW H; cbn [flush_acks] in H; [by injection H as <- <- <-|].
  inversion HF as [|? ? (A1 & A2 & A3) HF']; subst.
  destruct (makeSpace IKCP_OVERHEAD k w) as [k1 w1] eqn:Em. destruct (makeSpace_ok _ _ _ _ _ Em HW) as [HW1 Es].
  pose proof (steady_evolves _ _ Es) as HE.
  assert (HR1 : rcv_ok L k1) by (by apply (rcv_ok_steady L k)).
  assert (Hc1 : is_uint 32 (conv k1)) by (by rewrite (ev_conv _ _ HE)).
  assert (Hg1 : heading k1 g) by (by apply (heading_steady k)).
  assert (HF1 : Forall (fun a => has k1 (ack_sn a) /\ ack_sn a < Z.of_nat (length L) /\ is_uint 32 (ack_ts a)) l).
  { eapply Forall_impl; [exact HF'|]. intros x (X1 & X2 & X3). split; [by apply (ev_has _ _ HE)|done]. }
  destruct (_ || _).
  - set (g1 := (g <| sn := ack_sn a |>) <| ts := ack_ts a |>) in H. apply outcome_bind_Ret in H as (w2 & Hw & H).
    assert (Hg2 : heading k1 g1). { destruct Hg1. split; try done. cbn. destruct A1. unfold is_uint, seq_bound in *. lia. }
    assert (Hfr : from k1 g1).
    { pose proof (heading_from L k1 g1 IKCP_CMD_ACK HL HR1 Hc1 Hg2 eq_refl ltac:(done) (fun _ => ev_has _ _ HE _ A1)) as X.
      replace (g1 <| cmd := IKCP_CMD_ACK |>) with g1 in X; [done|]. unfold g1. destruct g. cbn in *. by subst. }
    apply put_header_ok in Hw; [|apply Hg2|done|done].
    destruct (IH g1 k1 w2 g' k' w') as (B1 & B2 & B3); [done..|]. split; [done|]. split; [congruence|done].
  - destruct (IH g k1 w1 g' k' w') as (B1 & B2 & B3); [done..|]. split; [done|]. split; [congruence|done].
Qed.

Lemma flush_command_ok L flag c g k w g' k' w' : Z.of_nat (length L) < seq_bound -> rcv_ok L k -> is_uint 32 (conv k) -> heading k g ->
  known_cmd c = true -> c <> IKCP_CMD_PUSH -> c <> IKCP_CMD_ACK -> writing k w ->
  flush_command flag c g k w = Ret (g', k', w') -> writing k' w' /\ steady k' = steady k /\ heading k' g' /\ rcv_ok L k'.
Proof.
  intros HL HR Hc Hg Hk Hp Ha HW H. unfold flush_command in H. destruct (_ =? 0); [by injection H as <- <- <-|].
  destruct (makeSpace IKCP_OVERHEAD k w) as [k1 w1] eqn:Em. destruct (makeSpace_ok _ _ _ _ _ Em HW) as [HW1 Es].
  pose proof (steady_evolves _ _ Es) as HE.
  assert (HR1 : rcv_ok L k1) by (by apply (rcv_ok_steady L k)).
  apply outcome_bind_Ret in H as (w2 & Hw & H). injection H as <- <- <-.
  assert (Hg1 : heading k1 g) by (by apply (heading_steady k)).
  apply put_header_ok in Hw; [|apply Hg1| |done].
  - split; [done|]. split; [done|]. split; [by destruct Hg1; split|done].
  - eapply heading_from; eauto. by rewrite (ev_conv _ _ HE). by intros X.
Qed.

(** A segment enters the send window. *)
Definition enter (g : segment) (k : KCP) : KCP :=
  let g := g <| sconv := conv k |> <| cmd := IKCP_CMD_PUSH |> <| sn := snd_nxt k |> in
  k <| snd_buf ::= (fun b => b ++ [g]) |> <| snd_nxt ::= (fun x => u32 (x + 1)) |> <| numbered ::= (fun l => l ++ [content g]) |>.

Lemma flush_window_frame q win : forall n k n' k', flush_window q win n k = (n', k') ->
  (numbered k `prefix_of` numbered k') /\
  exists b x l r, k' = k <| snd_buf := b |> <| snd_nxt := x |> <| numbered := l |> <| snd_queue := r |>.
Proof.
  induction q as [|g q IH]; intros n k n' k' H; cbn [flush_window] in H.
  - destruct (0 <=? _); injection H as _ <-; (split; [done|]); exists (snd_buf k), (snd_nxt k), (numbered k), []; by destruct k.
  - destruct (0 <=? _).
    + injection H as _ <-. split; [done|]. exists (snd_buf k), (snd_nxt k), (numbered k), (g :: q). by destruct k.
    + apply IH in H as [HP (b & x & l & r & ->)]. split; [|by exists b, x, l, r].
      etrans; [|exact HP]. cbn. by apply prefix_app_r.
Qed.

Lemma enter_ok g q k p : ok (k <| snd_queue := g :: q |>) p -> Z.of_nat (length (numbered k)) + 1 < seq_bound ->
  ok ((enter g k) <| snd_queue := q |>) p /\ evolves k (enter g k).
Proof.
  intros [O1 [S1 S2 S3 S4 S5] O3 OA O4] Hb. cbn in *.
  assert (HE : evolves k (enter g k)) by (split; [done|cbn; by apply prefix_app_r|done|done]). split; [|done].
  inversion S5 as [|? ? (Q1 & Q2 & Q3) S5']; subst.
  assert (En : u32 (snd_nxt k + 1) = snd_nxt k + 1) by (apply u32_small; unfold seq_bound in *; lia).
  split; [done|split|..]; cbn; try done.
  - rewrite En, length_app. cbn. lia.
  - rewrite En, length_app. cbn. lia.
  - intros i x Hx. apply lookup_app_Some in Hx as [Hx|[Hl Hx]].
    + destruct (S4 i x Hx) as [I1 I2 I3 I4 I5 I6 I7]. split; try done. intros Ha. cbn. specialize (I6 Ha).
      apply lookup_app_l_Some. exact I6.
    + apply list_lookup_singleton_Some in Hx as [Hi <-]. split; cbn; try done.
      * lia.
      * intros _. rewrite lookup_app_r by lia. replace (Z.to_nat (snd_una k + Z.of_nat i) - length (numbered k))%nat with 0%nat by lia. done.
      * by rewrite Q3.
  - by destruct O3; split.
  - apply (datagrams_evolve (k <| snd_queue := g :: q |>)); [|done]. by destruct HE; split.
Qed.

Lemma flush_window_ok q win p : forall n k n' k', ok (k <| snd_queue := q |>) p -> few k' -> flush_window q win n k = (n', k') ->
  ok k' p /\ evolves k k' /\ bytes_out k' = bytes_out (k <| snd_queue := q |>).
Proof.
  induction q as [|g q IH]; intros n k n' k' HO Hf H; cbn [flush_window] in H.
  - destruct (0 <=? _); by injection H as _ <-.
  - destruct (0 <=? _); [by injection H as _ <-|]. fold (enter g k) in H.
    pose proof (flush_window_frame _ _ _ _ _ _ H) as [HP _]. apply prefix_length in HP.
    destruct (enter_ok g q k p HO) as [HO1 HE1].
    { unfold enter in HP. cbn in HP. rewrite length_app in HP. cbn in HP. lia. }
    destruct (IH _ _ _ _ HO1 Hf H) as (A & B & C). split; [done|]. split; [by etrans|]. rewrite C. unfold bytes_out. cbn.
    rewrite fmap_app, concat_app. cbn. rewrite app_nil_r, <- !app_assoc. done.
Qed.

(** ** Retransmission *)

(** A loop state that has only written and read the clock. *)
Definition sends (k : KCP) (a : sending) : Prop := steady (sk a) = steady k /\ writing (sk a) (sw a).

Lemma transmit_ok L n k p hd g a g' a' : Z.of_nat (length L) < seq_bound -> rcv_ok L k -> is_uint 32 (conv k) -> few k -> heading k hd ->
  sends k a -> inflight k p n g -> 0 <= n -> acked g = false -> transmit hd g a = Ret (g', a') ->
  sends k a' /\ inflight k p n g'.
Proof.
  intros HL HR Hc Hk Hh [Es HW] Hi Hn Ha H. unfold transmit in H. cbn [currentMs] in H.
  set (now := u32 (default 0 (clock (sk a) !! 0%nat))) in H.
  set (g1 := (((g <| xmit ::= _ |>) <| ts := now |>) <| wnd := wnd hd |>) <| una := una hd |>) in H.
  set (k1 := (sk a) <| clock ::= drop 1 |>) in H.
  assert (Es1 : steady k1 = steady k) by exact Es.
  assert (HW1 : writing k1 (sw a)) by (by apply (writing_evolves (sk a)); [apply steady_evolves|..]).
  destruct (makeSpace _ k1 (sw a)) as [k2 w2] eqn:Em. destruct (makeSpace_ok _ _ _ _ _ Em HW1) as [HW2 Es2].
  assert (Es3 : steady k2 = steady k) by congruence.
  apply outcome_bind_Ret in H as (w3 & Hw & H). injection H as <- <-.
  assert (Hi1 : inflight k p n g1) by (eapply inflight_same; [exact Hi|done]). split; [|done].
  assert (Hfr : from k g1).
  { destruct Hi as [I1 I2 I3 I4 I5 I6 I7], Hh as [H1 H2 H3 H4 H5 H6 H7]. pose proof (ro_nxt _ _ HR). specialize (I6 Ha).
    pose proof (lookup_lt_Some _ _ _ I6) as Hlt. split; cbn; try done.
    - split; cbn; try done; [by rewrite I2|by rewrite I3|by apply wrap_uint|..].
      + rewrite I1. unfold is_uint, seq_bound in *. lia.
      + rewrite H4. unfold is_uint, seq_bound in *. lia.
    - intros _. rewrite I1. split; [done|exact I6].
    - rewrite H4. lia.
    - rewrite I3. done. }
  assert (Hfr2 : from k2 g1) by (by apply (from_evolves k); [apply steady_evolves|]).
  apply put_ok in Hw; [|done|done].
  destruct (_ <=? _); (split; [exact Es3|]); [|done]. by apply (writing_evolves k2); [apply steady_evolves|..].
Qed.

Lemma inflight_retimed k p n why k0 c g : inflight k p n g -> inflight k p n (retimed why k0 c g).
Proof. intros Hi. eapply inflight_same; [exact Hi|]. by destruct why. Qed.

Lemma resend_one_ok L n k p resent news hd g a g' a' : Z.of_nat (length L) < seq_bound -> rcv_ok L k -> is_uint 32 (conv k) -> few k -> heading k hd ->
  sends k a -> inflight k p n g -> 0 <= n -> resend_one resent news hd g a = Ret (g', a') -> sends k a' /\ inflight k p n g'.
Proof.
  intros HL HR Hc Hk Hh HS Hi Hn H. unfold resend_one in H. destruct (acked g) eqn:Ea; [by injection H as <- <-|].
  set (why := resend_why _ _ _ _) in H. set (a1 := match why with Fast | Early => a <| change ::= Z.add 1 |> | Timeout => a <| lostSegs ::= Z.add 1 |> | _ => a end) in H.
  assert (HS1 : sends k a1) by (subst a1; by destruct why).
  assert (Hi1 : inflight k p n (retimed why (sk a) (current a) g)) by (by apply inflight_retimed).
  assert (Ha1 : acked (retimed why (sk a) (current a) g) = false) by (by destruct why).
  apply outcome_bind_Ret in H as ([g2 a2] & H & H'). injection H' as <- <-.
  assert (H2 : sends k a2 /\ inflight k p n g2).
  { assert (HT : transmit hd (retimed why (sk a) (current a) g) a1 = Ret (g2, a2) \/ (retimed why (sk a) (current a) g, a1) = (g2, a2)).
    { clearbody a1. destruct why; [by left..|]. right. by injection H as <- <-. }
    destruct HT as [HT|HT]; [|by injection HT as <- <-].
    exact (transmit_ok L n k p hd _ a1 g2 a2 HL HR Hc Hk Hh HS1 Hi1 Hn Ha1 HT). }
  destruct H2 as [HS2 Hi2]. split; [|done]. by destruct (_ && _).
Qed.

Lemma resend_ok L k p resent news hd l : forall n a l' a', Z.of_nat (length L) < seq_bound -> rcv_ok L k -> is_uint 32 (conv k) -> few k -> heading k hd ->
  sends k a -> 0 <= n -> (forall i g, l !! i = Some g -> inflight k p (n + Z.of_nat i) g) ->
  resend resent news hd l a = Ret (l', a') ->
  sends k a' /\ length l' = length l /\ forall i g, l' !! i = Some g -> inflight k p (n + Z.of_nat i) g.
Proof.
  induction l as [|g l IH]; intros n a l' a' HL HR Hc Hk Hh HS Hn Hi H; cbn [resend] in H; [by injection H as <- <-|].
  apply outcome_bind_Ret in H as ([g1 a1] & H1 & H). apply outcome_bind_Ret in H as ([l1 a2] & H2 & H). injection H as <- <-.
  pose proof (Hi 0%nat g eq_refl) as Hi0. rewrite Z.add_0_r in Hi0.
  destruct (resend_one_ok L n k p resent news hd g a g1 a1 HL HR Hc Hk Hh HS Hi0 Hn H1) as [HS1 Hi1].
  destruct (IH (n + 1) a1 l1 a2) as (A & B & C); [done..|lia|intros i x Hx; specialize (Hi (S i) x Hx); by replace (n + 1 + Z.of_nat i) with (n + Z.of_nat (S i)) by lia|done|].
  split; [done|]. split; [cbn; lia|]. intros [|i] x Hx; cbn in Hx.
  - injection Hx as <-. by rewrite Z.add_0_r.
  - replace (n + Z.of_nat (S i)) with (n + 1 + Z.of_nat i) by lia. by apply C.
Qed.

Lemma flush_probe_vital k : vital (flush_probe k) = vital k /\ delivered (flush_probe k) = delivered k /\ mss (flush_probe k) = mss k.
Proof. unfold flush_probe. cbn [currentMs]. repeat (case_match; try done). Qed.

Lemma flush_cwnd_vital win resent a : vital (flush_cwnd win resent a) = vital (sk a) /\ mss (flush_cwnd win resent a) = mss (sk a).
Proof. unfold flush_cwnd. repeat (case_match; try done). Qed.

Lemma inflight_steady k k' p n g : steady k' = steady k -> inflight k p n g -> inflight k' p n g.
Proof. unfold steady. intros [= E1 E2 _ _ _ _ _ _ _ _ _ _] []. split; rewrite ?E1, ?E2; done. Qed.

Lemma wnd_unused_uint k : is_uint 16 (wnd_unused k).
Proof. unfold wnd_unused. case_match; [by apply wrap_uint|unfold is_uint; lia]. Qed.

(** What every call preserves, with the bytes in and out of the engine. *)
Record safe_step (k k' p : KCP) : Prop := {
  ss_ok : ok k' p;
  ss_evolves : evolves k k';
  ss_bytes : bytes_out k' = bytes_out k;
  ss_delivered : delivered k' = delivered k;
  ss_mss : mss k' = mss k
}.

Lemma safe_trans k1 k2 k3 p : safe_step k1 k2 p -> safe_step k2 k3 p -> safe_step k1 k3 p.
Proof. intros [] []. split; [done|by etrans|congruence..]. Qed.

Lemma safe_vital k k' p : ok k p -> vital k' = vital k -> mss k' = mss k -> safe_step k k' p.
Proof.
  intros HO Ev Em. destruct (vital_ok _ _ p Ev HO) as [A B]. unfold vital in Ev. injection Ev as E1 E2 E3 E4 E5 E6 E7 E8 E9 E10 E11 E12.
  split; try done. unfold bytes_out. by rewrite E2, E6.
Qed.

Lemma safe_steady k k' p : ok k p -> steady k' = steady k -> datagrams k' (outputs k') -> safe_step k k' p.
Proof.
  intros HO Es HD. destruct (steady_ok _ _ p Es HO HD) as [A B]. unfold steady in Es. injection Es as E1 E2 E3 E4 E5 E6 E7 E8 E9 E10 E11 E12.
  split; try done. unfold bytes_out. by rewrite E2, E6.
Qed.

(** The writes of the first three phases. *)
Lemma flush_answers k p g0 g1 k1 w1 : ok k p -> few p ->
  heading k g0 -> cmd g0 = IKCP_CMD_ACK -> flush_acks (acklist k) g0 k [] = Ret (g1, k1, w1) ->
  safe_step k (flush_probe (k1 <| acklist := [] |>)) p /\ writing (flush_probe (k1 <| acklist := [] |>)) w1 /\
  heading (flush_probe (k1 <| acklist := [] |>)) g1.
Proof.
  intros HO Hp Hg0 Hc0 H.
  assert (HW : writing k []) by (split; [apply HO|by exists []]).
  destruct (flush_acks_ok (numbered p) _ _ _ _ _ _ _ Hp (ok_rcv _ _ HO) (proj1 (ok_conv _ _ HO)) Hg0 Hc0 (ok_acks _ _ HO) HW H) as (W1 & Es1 & Hg1).
  assert (S1 : safe_step k k1 p) by (apply safe_steady; [done|done|apply W1]).
  set (k2 := k1 <| acklist := [] |>).
  assert (S2 : safe_step k1 k2 p).
  { split; try done. apply (ok_received k1); [apply S1|done|destruct (ok_rcv _ _ (ss_ok _ _ _ S1)); by split|constructor|done]. }
  destruct (flush_probe_vital k2) as (Ev & _ & Em).
  assert (S3 : safe_step k2 (flush_probe k2) p) by (apply safe_vital; [apply S2|done|done]).
  split; [by eapply safe_trans; [|eapply safe_trans]|].
  assert (HE : evolves k1 (flush_probe k2)) by (etrans; [apply S2|apply S3]).
  unfold vital in Ev. injection Ev as E1 E2 E3 E4 E5 E6 E7 E8 E9 E10 E11 E12.
  split; [by apply (writing_evolves k1)|]. destruct Hg1. split; try done; by rewrite ?E1, ?E7.
Qed.

Lemma flush_commands k p g w g1 k1 w1 g2 k2 w2 : ok k p -> few p -> heading k g -> writing k w ->
  flush_command IKCP_ASK_SEND IKCP_CMD_WASK g k w = Ret (g1, k1, w1) ->
  flush_command IKCP_ASK_TELL IKCP_CMD_WINS g1 k1 w1 = Ret (g2, k2, w2) ->
  safe_step k (k2 <| probe := 0 |>) p /\ writing (k2 <| probe := 0 |>) w2 /\ heading (k2 <| probe := 0 |>) g2.
Proof.
  intros HO Hp Hg HW H1 H2.
  destruct (flush_command_ok (numbered p) IKCP_ASK_SEND IKCP_CMD_WASK _ _ _ _ _ _ Hp (ok_rcv _ _ HO) (proj1 (ok_conv _ _ HO)) Hg eq_refl ltac:(done) ltac:(done) HW H1) as (W1 & Es1 & Hg1 & HR1).
  assert (S1 : safe_step k k1 p) by (apply safe_steady; [done|done|apply W1]).
  destruct (flush_command_ok (numbered p) IKCP_ASK_TELL IKCP_CMD_WINS _ _ _ _ _ _ Hp HR1 (proj1 (ok_conv _ _ (ss_ok _ _ _ S1))) Hg1 eq_refl ltac:(done) ltac:(done) W1 H2) as (W2 & Es2 & Hg2 & HR2).
  assert (S2 : safe_step k1 k2 p) by (apply safe_steady; [apply S1|done|apply W2]).
  assert (S3 : safe_step k2 (k2 <| probe := 0 |>) p) by (apply safe_vital; [apply S2|done|done]).
  split; [by eapply safe_trans; [|eapply safe_trans]|]. split; [by apply (writing_evolves k2); [apply S3|..]|]. by destruct Hg2; split.
Qed.

(** The end of a flush, after the loop over the window. *)
Lemma flush_finish k p win resent a l w : ok k p -> sends k a -> length l = length (snd_buf k) ->
  (forall i g, l !! i = Some g -> inflight k p (snd_una k + Z.of_nat i) g) -> w = sw a ->
  let k1 := (flush_cwnd win resent a) <| snd_buf := l |> in
  safe_step k (match w with [] => k1 | w => k1 <| outputs ::= (fun o => o ++ [w]) |> end) p.
Proof.
  intros HO [Es HW] Hl Hi ->. cbn zeta.
  assert (S1 : safe_step k (sk a) p) by (apply safe_steady; [done|done|apply HW]).
  destruct (flush_cwnd_vital win resent a) as [Ev Em]. set (k2 := flush_cwnd win resent a) in *. clearbody k2.
  assert (S2 : safe_step (sk a) k2 p) by (apply safe_vital; [apply S1|done|done]).
  assert (Es2 : steady k2 = steady k).
  { rewrite <- Es. unfold vital in Ev. injection Ev as E1 E2 E3 E4 E5 E6 E7 E8 E9 E10 E11 E12. unfold steady. congruence. }
  assert (S3 : safe_step k2 (k2 <| snd_buf := l |>) p).
  { pose proof Es2 as Es2'. unfold steady in Es2. injection Es2 as E1 E2 E3 E4 E5 E6 E7 E8 E9 E10 E11 E12.
    destruct (ok_restamp l k2 p) as [A B]; [apply S2|congruence| |by split].
    intros i g Hg. rewrite E3. by apply (inflight_steady k), Hi. }
  assert (S : safe_step k (k2 <| snd_buf := l |>) p) by (by eapply safe_trans; [|eapply safe_trans]).
  assert (HW3 : writing (k2 <| snd_buf := l |>) (sw a)).
  { apply (writing_evolves (sk a)); [etrans; [apply S2|apply S3]| |done]. unfold vital in Ev. cbn. congruence. }
  destruct (sw a) as [|b w] eqn:Ew; [done|]. eapply safe_trans; [exact S|]. apply safe_steady; [apply S|done|].
  destruct HW3 as [W1 (gs & Eg & W2)]. apply Forall_app. split.
  - apply (datagrams_evolve (k2 <| snd_buf := l |>)); [done|exact W1].
  - constructor; [|constructor]. exists gs. split; [done|]. eapply Forall_impl; [exact W2|]. intros g. by apply from_evolves.
Qed.

(** Sending again numbers nothing. *)
Lemma makeSpace_numbered sp k w : numbered (makeSpace sp k w).1 = numbered k.
Proof. unfold makeSpace. by case_match. Qed.

Lemma resend_one_numbered resent news hd g a g' a' : resend_one resent news hd g a = Ret (g', a') -> numbered (sk a') = numbered (sk a).
Proof.
  unfold resend_one. destruct (acked g); [by intros [= <- <-]|]. set (why := resend_why _ _ _ _).
  set (a1 := match why with Fast | Early => _ | Timeout => _ | _ => a end). assert (E1 : sk a1 = sk a) by (subst a1; by destruct why).
  rewrite <- E1. clearbody a1. set (g1 := retimed _ _ _ _). clearbody g1. intros H. apply outcome_bind_Ret in H as ([g2 a2] & H & H').
  assert (E2 : numbered (sk a2) = numbered (sk a1)).
  { assert (HT : transmit hd g1 a1 = Ret (g2, a2) \/ (g1, a1) = (g2, a2)) by (destruct why; [by left..|right; by injection H as <- <-]).
    destruct HT as [HT|HT]; [|by injection HT as <- <-]. unfold transmit in HT. destruct (currentMs (sk a1)) as [now k] eqn:Ek.
    assert (numbered k = numbered (sk a1)) by (unfold currentMs in Ek; by injection Ek as _ <-).
    match type of HT with context [makeSpace ?s ?k ?w] => pose proof (makeSpace_numbered s k w); destruct (makeSpace s k w) as [k1 w1] end.
    apply outcome_bind_Ret in HT as (w3 & _ & HT). injection HT as <- <-. cbn [fst] in *. transitivity (numbered k1); [|congruence]. cbn [sk over sk_field sw_field current_field]. by destruct (_ <=? _). }
  rewrite <- E2. injection H' as _ <-. by destruct (_ && _).
Qed.

Lemma resend_numbered resent news hd l : forall a l' a', resend resent news hd l a = Ret (l', a') -> numbered (sk a') = numbered (sk a).
Proof.
  induction l as [|g l IH]; intros a l' a' H; cbn [resend] in H; [by injection H as _ <-|].
  apply outcome_bind_Ret in H as ([g1 a1] & H1 & H). apply outcome_bind_Ret in H as ([l1 a2] & H2 & H). injection H as _ <-.
  apply resend_one_numbered in H1. apply IH in H2. congruence.
Qed.

Lemma flush_head k : heading k (zero_segment <| sconv := conv k |> <| cmd := IKCP_CMD_ACK |> <| wnd := wnd_unused k |> <| una := rcv_nxt k |>).
Proof. split; cbn; try done. apply wnd_unused_uint. Qed.

Lemma heading_safe k k' g : conv k' = conv k -> rcv_nxt k' = rcv_nxt k -> heading k g -> heading k' g.
Proof. intros E1 E2 []. split; congruence. Qed.

(** Phase 4 and the clock reading after it. *)
Lemma flush_enter ft k p g w win n k1 : ok k p -> few k1 -> heading k g -> writing k w ->
  match ft with IKCP_FLUSH_FULL => flush_window (snd_queue k) win 0 k | IKCP_FLUSH_ACKONLY => (0%nat, k) end = (n, k1) ->
  safe_step k (currentMs k1).2 p /\ writing (currentMs k1).2 w /\ heading (currentMs k1).2 g /\
  numbered (currentMs k1).2 = numbered k1.
Proof.
  intros HO Hf Hg HW H.
  assert (H1 : safe_step k k1 p /\ outputs k1 = outputs k /\ conv k1 = conv k /\ rcv_nxt k1 = rcv_nxt k).
  { destruct ft; [by injection H as _ <-|].
    assert (Eq : k <| snd_queue := snd_queue k |> = k) by (by destruct k).
    destruct (flush_window_ok (snd_queue k) win p 0 k n k1) as (A & B & C); [by rewrite Eq|done|done|]. rewrite Eq in C.
    destruct (flush_window_frame _ _ _ _ _ _ H) as [_ (b & x & l & r & ->)]. done. }
  destruct H1 as (S1 & Eo & Ec & En).
  assert (S2 : safe_step k1 (currentMs k1).2 p) by (apply safe_vital; [apply S1|done|done]).
  split; [by eapply safe_trans|]. split; [apply (writing_evolves k); [etrans; [apply S1|apply S2]|exact Eo|done]|].
  split; [|done]. by apply (heading_safe k).
Qed.

Lemma flush_ok ft k p nu k' : ok k p -> few p -> few k' -> flush ft k = Ret (nu, k') -> safe_step k k' p.
Proof.
  intros HO Hp Hf H. unfold flush in H.
  apply outcome_bind_Ret in H as ([[g1 k1] w1] & H1 & H).
  destruct (flush_answers k p _ g1 k1 w1 HO Hp (flush_head k) eq_refl H1) as (S1 & W1 & G1).
  set (k2 := flush_probe _) in *. clearbody k2. clear H1.
  apply outcome_bind_Ret in H as ([[g3 k3] w3] & H3 & H). apply outcome_bind_Ret in H as ([[g4 k4] w4] & H4 & H).
  destruct (flush_commands k2 p g1 w1 g3 k3 w3 g4 k4 w4 (ss_ok _ _ _ S1) Hp G1 W1 H3 H4) as (S2 & W2 & G2).
  set (k5 := k4 <| probe := 0 |>) in *. clearbody k5. clear H3 H4.
  pose proof (safe_trans _ _ _ _ S1 S2) as S5. clear S1 S2 W1 G1.
  set (win := if nocwnd k5 =? 0 then _ else _) in H. clearbody win.
  destruct (match ft with IKCP_FLUSH_FULL => flush_window (snd_queue k5) win 0 k5 | IKCP_FLUSH_ACKONLY => (0%nat, k5) end) as [n k6] eqn:E6.
  pose proof (flush_enter ft k5 p g4 w4 win n k6 (ss_ok _ _ _ S5)) as HX.
  set (resent := if fastresend k6 <=? 0 then _ else _) in H. clearbody resent.
  destruct (currentMs k6) as [now k7] eqn:E7. cbn [snd] in HX.
  apply outcome_bind_Ret in H as ([l a] & H8 & H).
  assert (Ek : k' = match sw a with [] => (flush_cwnd win resent a) <| snd_buf := l |> | w => (flush_cwnd win resent a) <| snd_buf := l |> <| outputs ::= (fun o => o ++ [w]) |> end).
  { injection H as _ <-. done. }
  clear H. assert (Hn : numbered k7 = numbered k6) by (unfold currentMs in E7; injection E7 as _ <-; done).
  assert (H9 : few k6 /\ sends k7 a /\ length l = length (snd_buf k7) /\ forall i g, l !! i = Some g -> inflight k7 p (snd_una k7 + Z.of_nat i) g); cycle 1.
  { destruct H9 as (F6 & HS & Hl & Hi). destruct (HX F6 G2 W2 E6) as (S7 & _). rewrite Ek. eapply safe_trans; [exact S5|]. eapply safe_trans; [exact S7|].
    pose proof (flush_finish k7 p win resent a l (sw a) (ss_ok _ _ _ S7) HS Hl Hi eq_refl) as HF. cbn zeta in HF. by destruct (sw a). }
  assert (Ha : numbered (sk a) = numbered k7).
  { destruct ft; [by injection H8 as _ <-|]. by apply resend_numbered in H8. }
  assert (F6 : few k6).
  { rewrite <- Hn, <- Ha. replace (numbered (sk a)) with (numbered k'); [done|]. rewrite Ek.
    destruct (flush_cwnd_vital win resent a) as [Ev _]. unfold vital in Ev. injection Ev as _ Ev _. case_match; exact Ev. }
  destruct (HX F6 G2 W2 E6) as (S7 & W7 & G7 & _). split; [done|].
  assert (HS : sends k7 (MkSending k7 w4 now 0 0 (interval k7))) by done.
  pose proof (ok_snd _ _ (ss_ok _ _ _ S7)) as [T1 T2 T3 T4 T5].
  destruct ft; [injection H8 as <- <-; done|].
  apply (resend_ok (numbered p) k7 p resent n g4 (snd_buf k7) (snd_una k7)) in H8; try done.
  - apply (ok_rcv _ _ (ss_ok _ _ _ S7)).
  - apply (ok_conv _ _ (ss_ok _ _ _ S7)).
  - by rewrite Hn.
  - lia.
Qed.

(** ** Input *)

Lemma grow_cwnd_vital k : vital (grow_cwnd k) = vital k /\ mss (grow_cwnd k) = mss k.
Proof. unfold grow_cwnd. repeat (case_match; try done). Qed.

Lemma update_ack_vital rtt k : vital (update_ack rtt k) = vital k /\ mss (update_ack rtt k) = mss k.
Proof. unfold update_ack. by case_match. Qed.

(** What Input does after its loop: the round trip time, the congestion window. *)
Lemma input_timing_vital pt (lt : option Z) u0 k :
  let k1 := match lt, pt with
            | Some t, IKCP_PACKET_REGULAR => let '(now, k) := currentMs k in if 0 <=? itimediff now t then update_ack (itimediff now t) k else k
            | _, _ => k
            end in
  let k2 := if (nocwnd k1 =? 0) && (0 <? itimediff (snd_una k1) u0) && (cwnd k1 <? rmt_wnd k1) then grow_cwnd k1 else k1 in
  vital k2 = vital k /\ mss k2 = mss k.
Proof.
  intros k1 k2. assert (H1 : vital k1 = vital k /\ mss k1 = mss k).
  { subst k1. destruct lt as [t|], pt; try done. cbn [currentMs]. destruct (0 <=? _); [|done].
    match goal with |- context [update_ack ?r ?x] => destruct (update_ack_vital r x) as [A B] end. by rewrite A, B. }
  clearbody k1. subst k2. destruct (_ && _); [|done]. destruct (grow_cwnd_vital k1) as [A B]. by rewrite A, B.
Qed.

Lemma Input_ok d pt nd k p r k' : ok k p -> ok p k -> few k -> few p -> few k' -> d ∈ outputs p ->
  Input d pt nd k = Ret (r, k') -> safe_step k k' p.
Proof.
  intros HO HP Hk Hp Hf Hd H. unfold Input in H. destruct (_ <? IKCP_OVERHEAD); [by injection H as _ <-|].
  pose proof (ok_outs _ _ HP) as HD. unfold datagrams in HD. rewrite Forall_forall in HD. destruct (HD d Hd) as (gs & -> & Hgs).
  rewrite input_loop_dgram in H; [|lia|eapply Forall_impl; [exact Hgs|]; by intros g []|].
  2: { eapply Forall_impl; [exact Hgs|]. intros g []. cbn. rewrite fr_conv0. symmetry. apply HO. }
  apply outcome_bind_Ret in H as ([ret a] & H0 & H). apply outcome_bind_Ret in H0 as (a1 & H1 & H0). injection H0 as <- ->.
  destruct (input_all_ok pt gs p (MkReading k None false) a HO HP Hk Hp Hgs H1) as (A & B & K1 & K2 & K3 & K4). cbn [rk] in *.
  assert (S1 : safe_step k (rk a) p) by (split; try done; unfold bytes_out; by rewrite K1, K2).
  cbn [Z.ltb Z.compare] in H. destruct (input_timing_vital pt (latest a) (snd_una k) (rk a)) as [Ev Em].
  set (k1 := match latest a, pt with Some _, IKCP_PACKET_REGULAR => _ | _, _ => _ end) in *.
  set (k2 := if _ && _ then grow_cwnd k1 else k1) in *. clearbody k2. clear k1.
  assert (S2 : safe_step (rk a) k2 p) by (by apply safe_vital).
  apply outcome_bind_Ret in H as ([nu k3] & H3 & H). injection H as _ <-.
  eapply safe_trans; [exact S1|]. eapply safe_trans; [exact S2|].
  destruct (flushSegments a); [eapply flush_ok; [apply S2|eassumption..]|].
  destruct (_ <=? _); [eapply flush_ok; [apply S2|eassumption..]|].
  destruct (_ && _); [eapply flush_ok; [apply S2|eassumption..]|]. injection H3 as _ <-. split; try done. apply S2.
Qed.

Lemma Update_ok k p k' : ok k p -> few p -> few k' -> Update k = Ret k' -> safe_step k k' p.
Proof.
  intros HO Hp Hf H. unfold Update in H. cbn [currentMs] in H. set (k0 := k <| clock ::= drop 1 |>) in H.
  set (k1 := if updated k0 =? 0 then _ else _) in H.
  assert (E1 : vital k1 = vital k /\ mss k1 = mss k) by (subst k1; by destruct (_ =? _)).
  clearbody k1. set (far := _ || _) in H. set (k2 := if far then _ else k1) in H.
  assert (E2 : vital k2 = vital k /\ mss k2 = mss k) by (subst k2; destruct E1; by destruct far).
  clearbody k2. destruct (0 <=? _); [|injection H as <-; apply safe_vital; [done|apply E2..]].
  set (k3 := k2 <| ts_flush ::= _ |>) in H.
  set (k4 := if 0 <=? _ then _ else k3) in H.
  assert (E4 : vital k4 = vital k /\ mss k4 = mss k) by (subst k4 k3; destruct E2; by destruct (0 <=? _)).
  clearbody k4. apply outcome_bind_Ret in H as ([nu k5] & H & H'). injection H' as <-.
  assert (S4 : safe_step k k4 p) by (apply safe_vital; [done|apply E4..]).
  eapply safe_trans; [exact S4|]. eapply flush_ok; [apply S4|done..].
Qed.
