(* ===== verification/KcpReliable.v ===== *)
(** * KCP: two engines and the network between them

    Either side may at any time write, read, flush, let its timer fire, change
    its settings, or be handed any datagram the other side ever put out: the
    network loses, repeats and reorders as it likes. *)

From S2P Require Import Prelude Update Endian GoHeap KcpRing Kcp KcpWire KcpLink.
Local Open Scope Z_scope.

(** An engine with what its user wrote and read so far. *)
Record endpoint : Type := MkEnd { engine : KCP; wrote : list Z; got : list Z }.

(** One call on an engine.  A write is sized as OnWrite of ukcp/conn.go sizes
    it, an MTU as the session's options allow it. *)
Inductive op : Type :=
| OSend (buf : list Z) | ORecv (room : nat)
| OInput (i : nat) (pt : PacketType) (ackNoDelay : bool)
| OUpdate | OFlush | OFlushAckOnly | OCheck | OAskWindow
| ONoDelay (nd iv rs nc : Z) | OWndSize (sw rw : Z) | OSetMtu (m : Z) | OSetStreamMode (b : bool) | OSetDeadLink (n : Z)
| OClock (readings : list Z).

(** The call's effect; [wire] is what the peer put out so far. *)
Definition perform (o : op) (wire : list (list Z)) (e : endpoint) : option endpoint :=
  let k := engine e in
  let quiet k := Some (MkEnd k (wrote e) (got e)) in
  match o with
  | OSend buf =>
      if Z.of_nat (length buf) <=? 255 * mss k then
        match Send buf k with Ret (_, k) => Some (MkEnd k (wrote e ++ buf) (got e)) | _ => None end
      else None
  | ORecv room => match Recv room k with Ret (_, bytes, k) => Some (MkEnd k (wrote e) (got e ++ bytes)) | _ => None end
  | OInput i pt nd =>
      d ← wire !! i; match Input d pt nd k with Ret (_, k) => quiet k | _ => None end
  | OUpdate => match Update k with Ret k => quiet k | _ => None end
  | OFlush => match Flush k with Ret (_, k) => quiet k | _ => None end
  | OFlushAckOnly => match FlushAckOnly k with Ret k => quiet k | _ => None end
  | OCheck => quiet (Check_ k).2
  | OAskWindow => quiet (AskWindow k)
  | ONoDelay nd iv rs nc => quiet (NoDelay nd iv rs nc k)
  | OWndSize sw rw => quiet (WndSize sw rw k)
  | OSetMtu m => if m <=? mtuLimit then quiet (SetMtu m k).2 else None
  | OSetStreamMode b => quiet (SetStreamMode b k)
  | OSetDeadLink n => quiet (SetDeadLink n k)
  | OClock l => quiet (k <| clock := l |>)
  end.

Definition fresh (conv : Z) : endpoint := MkEnd (NewKCP conv) [] [].

(** One step of either side; sequence numbers stay below [seq_bound]. *)
Inductive step : endpoint * endpoint -> endpoint * endpoint -> Prop :=
| step_left o x x' y : perform o (outputs (engine y)) x = Some x' -> few (engine x') -> step (x, y) (x', y)
| step_right o x y y' : perform o (outputs (engine x)) y = Some y' -> few (engine y') -> step (x, y) (x, y').

Definition reachable (conv : Z) (w : endpoint * endpoint) : Prop := rtc step (fresh conv, fresh conv) w.

(** ** The invariant of one side *)

Record side (x y : endpoint) : Prop := {
  sd_ok : ok (engine x) (engine y);
  sd_few : few (engine x);
  sd_mss : 0 < mss (engine x);
  sd_wrote : wrote x = bytes_out (engine x);
  sd_got : got x = concat (snd <$> delivered (engine x))
}.

Lemma Send_takes buf k r k' : 0 < mss k -> Z.of_nat (length buf) <= 255 * mss k -> Send buf k = Ret (r, k') -> r = 0 \/ buf = [] /\ k' = k.
Proof.
  intros Hm Hl H. unfold Send in H. destruct buf as [|b buf0].
  { destruct (stream k =? 0); [injection H as _ <-; by right|]. cbn in H. injection H as <- _. by left. }
  set (buf := b :: buf0) in *. clearbody buf. left.
  apply outcome_bind_Ret in H as ([q rest] & H1 & H).
  assert (Hr : (length rest <= length buf)%nat).
  { destruct (stream k =? 0); [by injection H1 as _ <-|]. unfold append_last in H1.
    destruct (last (snd_queue k)) as [g|]; [|by injection H1 as _ <-]. destruct (_ <? mss k); [|by injection H1 as _ <-].
    destruct (mtuLimit <? _); [done|]. injection H1 as _ <-. rewrite length_drop. lia. }
  destruct (_ && _); [by injection H as <- _|]. cbn [mss over snd_queue_field] in H.
  set (count := if _ <=? _ then 1 else _) in H.
  assert (Hc : count <= 255).
  { subst count. destruct (_ <=? _); [lia|]. apply Z.lt_succ_r, Z.div_lt_upper_bound; lia. }
  destruct (Z.ltb_spec 255 count); [lia|]. apply outcome_bind_Ret in H as (gs & _ & H). by injection H as <- _.
Qed.

Lemma Send_safe buf k p r k' : ok k p -> 0 < mss k -> Z.of_nat (length buf) <= 255 * mss k -> Send buf k = Ret (r, k') ->
  ok k' p /\ evolves k k' /\ bytes_out k' = bytes_out k ++ buf /\ delivered k' = delivered k /\ mss k' = mss k.
Proof.
  intros HO Hm Hl H. pose proof (Send_takes _ _ _ _ Hm Hl H) as HT.
  destruct (Send_ok _ _ _ _ Hm (so_queue _ _ (ok_snd _ _ HO)) H) as (q & -> & Hq & Hb).
  split; [|split; [done|split; [|done]]].
  - destruct HO as [O1 [S1 S2 S3 S4 S5] [R1 R2 R3 R4 R5 R6] OA O4]. split; [done| |by split|done|].
    + split; try done. intros i g Hg. by destruct (S4 i g Hg).
    + by apply (datagrams_evolve k).
  - destruct HT as [->|[-> ->]]; [by apply Hb|]. by rewrite app_nil_r.
Qed.

(** The settings leave everything the link's statements look at alone. *)
Lemma NoDelay_vital nd iv rs nc k : vital (NoDelay nd iv rs nc k) = vital k /\ mss (NoDelay nd iv rs nc k) = mss k.
Proof. unfold NoDelay. repeat (case_match; try done). Qed.

Lemma WndSize_vital s r k : vital (WndSize s r k) = vital k /\ mss (WndSize s r k) = mss k.
Proof. unfold WndSize. repeat (case_match; try done). Qed.

Lemma Check_vital k : vital (Check_ k).2 = vital k /\ mss (Check_ k).2 = mss k.
Proof. unfold Check_. cbn [currentMs]. repeat (case_match; try done). Qed.

Lemma SetMtu_vital m k : m <= mtuLimit -> 0 < mss k -> vital (SetMtu m k).2 = vital k /\ 0 < mss (SetMtu m k).2.
Proof.
  intros Hm Hk. unfold SetMtu. destruct (Z.leb_spec m IKCP_OVERHEAD); [done|]. cbn [snd]. split; [done|]. cbn.
  unfold u32, mtuLimit, IKCP_OVERHEAD in *. rewrite (wrap_id 32 m) by (unfold is_uint; lia). rewrite wrap_id by (unfold is_uint; lia). lia.
Qed.

Lemma Recv_mss room k n bytes k' : Recv room k = Ret (n, bytes, k') -> mss k' = mss k.
Proof.
  unfold Recv. destruct (PeekSize k <? 0); [by intros [= _ _ <-]|]. destruct (_ <? PeekSize k); [by intros [= _ _ <-]|]. intros H.
  apply outcome_bind_Ret in H as ([got1 q] & _ & H). apply outcome_bind_Ret in H as (k2 & HX & H).
  unfold move_available in HX. apply move_ready_frame in HX as (h & q' & m & ->). by destruct (_ && _); injection H as _ _ <-.
Qed.

Lemma side_quiet x y k' : side x y -> few k' -> safe_step (engine x) k' (engine y) -> side (MkEnd k' (wrote x) (got x)) y.
Proof. intros [] Hf []. split; cbn; try done; congruence. Qed.

Lemma perform_safe o x y x' : side x y -> side y x -> perform o (outputs (engine y)) x = Some x' -> few (engine x') ->
  side x' y /\ evolves (engine x) (engine x').
Proof.
  intros HX HY H Hf. pose proof HX as [X1 X2 X3 X4 X5]. pose proof HY as [Y1 Y2 Y3 Y4 Y5].
  assert (Hq : forall k', few k' -> safe_step (engine x) k' (engine y) -> Some (MkEnd k' (wrote x) (got x)) = Some x' -> side x' y /\ evolves (engine x) (engine x')).
  { intros k' Hk' HS [= <-]. split; [by apply side_quiet|apply HS]. }
  assert (Hv : forall k', vital k' = vital (engine x) /\ mss k' = mss (engine x) -> Some (MkEnd k' (wrote x) (got x)) = Some x' -> side x' y /\ evolves (engine x) (engine x')).
  { intros k' [A B]. apply Hq; [|by apply safe_vital]. unfold vital in A. injection A as _ A _. by rewrite A. }
  destruct o; cbn [perform] in H.
  - destruct (Z.leb_spec (Z.of_nat (length buf)) (255 * mss (engine x))); [|done].
    destruct (Send buf (engine x)) as [[r k']|] eqn:E; [|done]. injection H as <-.
    destruct (Send_safe _ _ _ _ _ X1 X3 H0 E) as (A & B & C & D & F). split; [|done]. split; cbn in *; congruence.
  - destruct (Recv room (engine x)) as [[[r bytes] k']|] eqn:E; [|done]. injection H as <-.
    destruct (Recv_ok _ _ _ _ _ _ Y2 X1 E) as (A & B & C & t & D & F). split; [|done]. pose proof (Recv_mss _ _ _ _ _ E) as Em.
    unfold sender in C. injection C as C1 C2 C3 C4 C5 C6 C7. split; cbn in *; try congruence.
    + unfold bytes_out. by rewrite C2, C6.
    + rewrite D, fmap_app, concat_app. congruence.
  - destruct (outputs (engine y) !! i) as [d|] eqn:Ed; [|done]. cbn in H.
    destruct (Input d pt ackNoDelay (engine x)) as [[r k']|] eqn:E; [|done].
    assert (Hk' : few k') by (by injection H as <-).
    apply (Hq k'); [done| |done]. eapply Input_ok; try done. by eapply list_elem_of_lookup_2.
  - destruct (Update (engine x)) as [k'|] eqn:E; [|done]. assert (Hk' : few k') by (by injection H as <-).
    apply (Hq k'); [done|by eapply Update_ok|done].
  - unfold Flush in H. destruct (flush IKCP_FLUSH_FULL (engine x)) as [[nu k']|] eqn:E; [|done].
    assert (Hk' : few k') by (by injection H as <-). apply (Hq k'); [done|by eapply flush_ok|done].
  - unfold FlushAckOnly in H. destruct (flush IKCP_FLUSH_ACKONLY (engine x)) as [[nu k']|] eqn:E; [|done].
    assert (Hk' : few k') by (by injection H as <-). apply (Hq k'); [done|by eapply flush_ok|done].
  - exact (Hv _ (Check_vital _) H).
  - by refine (Hv _ _ H).
  - exact (Hv _ (NoDelay_vital _ _ _ _ _) H).
  - exact (Hv _ (WndSize_vital _ _ _) H).
  - destruct (Z.leb_spec m mtuLimit); [|done]. destruct (SetMtu_vital m (engine x) H0 X3) as [A B].
    set (k' := (SetMtu m (engine x)).2) in *. clearbody k'. injection H as <-.
    destruct (vital_ok _ _ (engine y) A X1) as [C D]. split; [|done]. unfold vital in A. injection A as _ A2 _ _ _ A6 _ _ _ _ A11 _.
    split; cbn in *; try congruence. unfold bytes_out. by rewrite A2, A6.
  - by refine (Hv _ _ H).
  - refine (Hv _ _ H). unfold SetDeadLink. by case_match.
  - by refine (Hv _ _ H).
Qed.

Lemma side_peer x x' y : side y x -> evolves (engine x) (engine x') -> side y x'.
Proof. intros [] HE. split; try done. by eapply ok_evolves. Qed.

Lemma fresh_ok conv : is_uint 32 conv -> side (fresh conv) (fresh conv).
Proof.
  intros Hc. split; cbn; try done. split; cbn; [done| | |constructor|constructor].
  - split; cbn; [done|done|done|done|constructor].
  - split; cbn; [done|done|intros i Hi; cbn in Hi; lia|constructor|done|constructor].
Qed.

Lemma reachable_sides conv w : is_uint 32 conv -> reachable conv w -> side w.1 w.2 /\ side w.2 w.1.
Proof.
  intros Hc H. unfold reachable in H. apply (rtc_ind_r (fun w => side w.1 w.2 /\ side w.2 w.1) (fresh conv, fresh conv)) in H; [done|by split; apply fresh_ok|].
  intros v u _ Hs [A B]. inversion Hs as [o x x' y HP Hf|o x y y' HP Hf]; subst; cbn [fst snd] in *.
  - destruct (perform_safe _ _ _ _ A B HP Hf) as [C D]. split; [done|]. by eapply side_peer.
  - destruct (perform_safe _ _ _ _ B A HP Hf) as [C D]. split; [|done]. by eapply side_peer.
Qed.

(** ** Reliable, ordered delivery *)

(** What [y] has of the bytes [x] wrote, and where the rest is: read by the
    user, waiting in order, numbered but not yet in order, not yet numbered. *)
Definition accounted (x y : endpoint) : Prop :=
  wrote x = got y ++ concat (data <$> rcv_queue (engine y)) ++
    concat (snd <$> drop (Z.to_nat (rcv_nxt (engine y))) (numbered (engine x))) ++ concat (data <$> snd_queue (engine x)).

(** Each numbered segment that is not in order at [y] waits in its heap, or
    unacknowledged in the window of [x], which goes on sending it. *)
Definition nothing_lost (x y : endpoint) : Prop :=
  forall n, rcv_nxt (engine y) <= n < Z.of_nat (length (numbered (engine x))) ->
    exists g, sn g = n /\ numbered (engine x) !! Z.to_nat n = Some (content g) /\
      (g ∈ segments (rcv_buf (engine y)) \/ g ∈ snd_buf (engine x) /\ acked g = false).

Lemma side_accounted x y : side x y -> side y x -> accounted x y.
Proof.
  intros [X1 X2 X3 X4 X5] [Y1 Y2 Y3 Y4 Y5]. unfold accounted. rewrite X4, Y5. unfold bytes_out.
  pose proof (ro_queue _ _ (ok_rcv _ _ Y1)) as E.
  rewrite <- (take_drop (Z.to_nat (rcv_nxt (engine y))) (numbered (engine x))) at 1.
  rewrite <- E, !fmap_app, !concat_app, snd_content, <- !app_assoc. done.
Qed.

Lemma side_nothing_lost x y : side x y -> side y x -> nothing_lost x y.
Proof.
  intros [X1 X2 X3 X4 X5] [Y1 Y2 Y3 Y4 Y5] n Hn. pose proof (ok_snd _ _ X1) as [S1 S2 S3 S4 S5]. pose proof (ok_rcv _ _ Y1) as [R1 R2 R3 R4 R5 R6].
  destruct (lookup_lt_is_Some_2 (snd_buf (engine x)) (Z.to_nat (n - snd_una (engine x)))) as [g Hg]; [lia|].
  pose proof (S4 _ _ Hg) as [I1 I2 I3 I4 I5 I6 I7]. replace (snd_una (engine x) + Z.of_nat (Z.to_nat (n - snd_una (engine x)))) with n in * by lia.
  destruct (acked g) eqn:Ea.
  - destruct (I7 eq_refl) as [_ [?|Hm]]; [lia|]. rewrite R5, elem_of_list_to_set, list_elem_of_fmap in Hm. destruct Hm as (h & -> & Hh).
    rewrite Forall_forall in R6. destruct (R6 h Hh). exists h. auto.
  - exists g. split; [done|]. split; [by apply I6|]. right. split; [by eapply list_elem_of_lookup_2|done].
Qed.

(** C5. Reliable, ordered, exactly-once delivery.  Whatever the two users do and
    whatever the network loses, repeats or reorders, and as long as fewer than
    2^31 segments were numbered, the bytes one side wrote are, in order and
    each once: what the other side's user read, what waits in order for it,
    the segments on their way, and what is not yet numbered; and every segment
    on its way is in the receiver's heap or unacknowledged in the sender's
    window, in both directions. *)
Theorem kcp_reliable conv x y : is_uint 32 conv -> reachable conv (x, y) ->
  (accounted x y /\ nothing_lost x y) /\ (accounted y x /\ nothing_lost y x).
Proof.
  intros Hc H. apply reachable_sides in H as [A B]; [|done]. cbn [fst snd] in *.
  split; (split; [by apply side_accounted|by apply side_nothing_lost]).
Qed.

(** *** A run that loses, repeats and reorders *)

Definition fewb (k : KCP) : bool := Z.of_nat (length (numbered k)) <? seq_bound.

(** Plays a script, a call of the left side or of the right side at a time. *)
Fixpoint play (script : list (op + op)) (w : endpoint * endpoint) : option (endpoint * endpoint) :=
  match script with
  | [] => Some w
  | inl o :: rest => x ← perform o (outputs (engine w.2)) w.1; if fewb (engine x) then play rest (x, w.2) else None
  | inr o :: rest => y ← perform o (outputs (engine w.1)) w.2; if fewb (engine y) then play rest (w.1, y) else None
  end.

Lemma play_reachable script : forall w w', play script w = Some w' -> rtc step w w'.
Proof.
  induction script as [|[o|o] rest IH]; intros [x y] w' H; cbn [play fst snd] in H; [injection H as <-; done|..].
  - apply bind_Some in H as (x' & HP & H). destruct (fewb (engine x')) eqn:Ef; [|done].
    eapply rtc_l; [|by apply IH]. eapply step_left; [exact HP|]. by apply Z.ltb_lt in Ef.
  - apply bind_Some in H as (y' & HP & H). destruct (fewb (engine y')) eqn:Ef; [|done].
    eapply rtc_l; [|by apply IH]. eapply step_right; [exact HP|]. by apply Z.ltb_lt in Ef.
Qed.

(** Segment 2 arrives before segment 0 and twice, segment 1 is lost and sent
    again after its timeout. *)
Definition lossy_run : list (op + op) :=
  [inl (ONoDelay 1 10 2 1); inr (ONoDelay 1 10 2 1); inl (OSetStreamMode true); inr (OSetStreamMode true); inl (OSetMtu 26);
   inl (OSend [1; 2; 3; 4; 5]); inl OFlush;
   inr (OInput 2 IKCP_PACKET_REGULAR true); inr (OInput 0 IKCP_PACKET_REGULAR true); inr (OInput 2 IKCP_PACKET_REGULAR false);
   inr (ORecv 100); inl (OInput 0 IKCP_PACKET_REGULAR false); inl (OSend [6]); inl (OClock [900; 900; 900; 900; 900]); inl OFlush;
   inr (OInput 4 IKCP_PACKET_REGULAR true); inr (ORecv 100); inr (ORecv 100)].

Definition lossy_end : option (endpoint * endpoint) := Eval vm_compute in play lossy_run (fresh 7, fresh 7).

Lemma kcp_reliable_witness : exists x y, lossy_end = Some (x, y) /\ got y = [1; 2; 3; 4; 5] /\ wrote x = [1; 2; 3; 4; 5; 6] /\
  accounted x y /\ nothing_lost x y.
Proof.
  destruct lossy_end as [[x y]|] eqn:E; [|discriminate E]. exists x, y. split; [reflexivity|].
  split; [by injection E as <- <-|]. split; [by injection E as <- <-|].
  apply (kcp_reliable 7 x y); [by split|]. apply (play_reachable lossy_run). rewrite <- E. vm_compute. reflexivity.
Defined.
