(* ===== verification/KcpBounds.v ===== *)
(** * KCP against any peer: no panic, bounded memory

    Nothing is assumed of the datagrams an engine is fed but their size: it
    never panics, its queues stay within their windows, its datagrams within
    the MTU, and its retransmission timeout within its limits. *)

From S2P Require Import Prelude Update Endian GoHeap KcpRing Kcp KcpWire KcpLink KcpReliable.
Local Open Scope Z_scope.

(** ** Distances modulo 2^32 *)

Definition ahead (a b : Z) : Z := u32 (a - b).

Ltac mod32 := unfold ahead, itimediff, i32, u32, wrap in *; change (2 ^ 32) with 4294967296 in *; change (2 ^ 31) with 2147483648 in *; Z.div_mod_to_equations; lia.

Lemma u32_uint a : is_uint 32 (u32 a).
Proof. by apply wrap_uint. Qed.

Lemma u32_plus a b : u32 (u32 a + b) = u32 (a + b).
Proof. unfold u32, wrap. by rewrite Zplus_mod_idemp_l. Qed.

Lemma window_ahead s n w : 0 <= w < 2 ^ 31 -> 0 <= itimediff s n -> itimediff s (u32 (n + w)) < 0 -> ahead s n < w.
Proof. intros. mod32. Qed.

Lemma ahead_succ s n w : is_uint 32 s -> is_uint 32 n -> s <> n -> 0 <= w < 2 ^ 31 -> ahead s n < w -> ahead s (u32 (n + 1)) < w.
Proof. unfold is_uint. intros. mod32. Qed.

Lemma ahead_inj a b n : is_uint 32 a -> is_uint 32 b -> ahead a n = ahead b n -> a = b.
Proof. unfold is_uint. intros. mod32. Qed.

Lemma ahead_count n w l : 0 <= w -> NoDup l -> Forall (fun s => is_uint 32 s /\ ahead s n < w) l -> Z.of_nat (length l) <= w.
Proof.
  intros Hw Hd HF. assert (HD : NoDup ((fun s => ahead s n) <$> l)).
  { induction l as [|s l IH]; [constructor|]. apply NoDup_cons in Hd as [N1 N2]. inversion HF as [|? ? [F1 F2] HF']; subst.
    cbn. apply NoDup_cons. split; [|auto]. intros Hin. apply list_elem_of_fmap in Hin as (t & Et & Ht). apply N1.
    rewrite Forall_forall in HF'. destruct (HF' t Ht). by rewrite (ahead_inj s t n). }
  assert (HS : (fun s => ahead s n) <$> l ⊆+ seqZ 0 w).
  { apply NoDup_submseteq; [done|]. intros x Hx. apply list_elem_of_fmap in Hx as (t & -> & Ht). rewrite Forall_forall in HF.
    destruct (HF t Ht) as [_ F2]. apply elem_of_seqZ. pose proof (u32_uint (t - n)) as [? ?]. unfold ahead in *. lia. }
  apply submseteq_length in HS. rewrite length_fmap, length_seqZ in HS. lia.
Qed.

Lemma itimediff_offset u a b : 0 <= a < 2 ^ 31 -> 0 <= b < 2 ^ 31 -> itimediff (u32 (u + a)) (u32 (u + b)) = a - b.
Proof. intros. mod32. Qed.

(** ** A sane engine *)

(** The largest MTU set and the least, the two windows in segments, and what is known of
    every segment received. *)
Record limits : Type := MkLimits { most :> Z; least : Z; swin : Z; rwin : Z; holds : segment -> Prop }.

(** A segment to send fits a datagram, and the encoding buffer. *)
Definition sendable (M b : Z) (g : segment) : Prop :=
  IKCP_OVERHEAD + Z.of_nat (length (data g)) <= M /\ IKCP_OVERHEAD + Z.of_nat (length (data g)) <= b.

(** A segment received: what the pool's buffers hold. *)
Definition storable (g : segment) : Prop := Z.of_nat (length (data g)) <= mtuLimit.

Record sane (M : limits) (k : KCP) : Prop := {
  sa_mtu : IKCP_OVERHEAD < mtu k <= M /\ mss k = mtu k - IKCP_OVERHEAD /\ mtu k <= buffer k;
  sa_wnd : 0 < snd_wnd k < 2 ^ 31 /\ 0 < rcv_wnd k < 2 ^ 31 /\ 0 <= rmt_wnd k /\ 0 <= cwnd k;
  sa_rto : IKCP_RTO_NDL <= rx_minrto k <= IKCP_RTO_MAX /\ IKCP_RTO_NDL <= rx_rto k <= IKCP_RTO_MAX;
  sa_queue : Forall (sendable M (buffer k)) (snd_queue k);
  sa_buf : Forall (sendable M (buffer k)) (snd_buf k);
  sa_sent : Z.of_nat (length (snd_buf k)) <= snd_wnd k;
  sa_sn : forall i g, snd_buf k !! i = Some g -> sn g = u32 (snd_una k + Z.of_nat i);
  sa_nxt : snd_nxt k = u32 (snd_una k + Z.of_nat (length (snd_buf k)));
  sa_rcv : Z.of_nat (length (rcv_queue k)) <= rcv_wnd k /\ Forall (holds M) (rcv_queue k) /\ is_uint 32 (rcv_nxt k);
  sa_heap : NoDup (sn <$> segments (rcv_buf k)) /\ marks (rcv_buf k) = list_to_set (sn <$> segments (rcv_buf k));
  sa_held : Forall (fun g => holds M g /\ is_uint 32 (sn g) /\ ahead (sn g) (rcv_nxt k) < rcv_wnd k) (segments (rcv_buf k));
  sa_outs : Forall (fun d => Z.of_nat (length d) <= M) (outputs k);
  sa_set : snd_wnd k = swin M /\ rcv_wnd k = rwin M /\ least M <= mtu k
}.

Lemma sane_held M k : sane M k -> Z.of_nat (length (segments (rcv_buf k))) <= rcv_wnd k.
Proof.
  intros [S1 S2 S3 S4 S5 S6 S7 S8 S9 [H1 H2] H3 S12 S13]. rewrite <- (length_fmap sn). apply (ahead_count (rcv_nxt k)); [lia|done|].
  apply Forall_fmap. eapply Forall_impl; [exact H3|]. by intros g (_ & A & B).
Qed.

(** What the bounds depend on, the datagrams put out apart. *)
Definition core (k : KCP) :=
  (mtu k, mss k, buffer k, (snd_wnd k, rcv_wnd k, rmt_wnd k, cwnd k), (rx_rto k, rx_minrto k),
   (snd_una k, snd_nxt k, snd_buf k, snd_queue k), (rcv_nxt k, rcv_queue k, rcv_buf k)).

Lemma sane_core (M : limits) k k' : core k' = core k -> Forall (fun d => Z.of_nat (length d) <= M) (outputs k') -> sane M k -> sane M k'.
Proof.
  unfold core. intros [= E1 E2 E3 E4 E5 E6 E7 E8 E9 E10 E11 E12 E13 E14 E15 E16] HO [S1 S2 S3 S4 S5 S6 S7 S8 S9 S10 S11 S12 S13].
  split; rewrite ?E1, ?E2, ?E3, ?E4, ?E5, ?E6, ?E7, ?E8, ?E9, ?E10, ?E11, ?E12, ?E13, ?E14, ?E15, ?E16; done.
Qed.

(** ** Receiving *)

(** The receive side alone. *)
Definition received (k : KCP) (h : segmentHeap) (q : list segment) (n : Z) : KCP := k <| rcv_buf := h |> <| rcv_queue := q |> <| rcv_nxt := n |>.

Record rcv_sane (P : segment -> Prop) (w : Z) (h : segmentHeap) (q : list segment) (n : Z) : Prop := {
  rs_queue : Z.of_nat (length q) <= w /\ Forall P q /\ is_uint 32 n;
  rs_heap : NoDup (sn <$> segments h) /\ marks h = list_to_set (sn <$> segments h);
  rs_held : Forall (fun g => P g /\ is_uint 32 (sn g) /\ ahead (sn g) n < w) (segments h)
}.

Lemma sane_rcv_side M k : sane M k -> rcv_sane (holds M) (rcv_wnd k) (rcv_buf k) (rcv_queue k) (rcv_nxt k).
Proof. by intros []. Qed.

Lemma sane_received M k h q n : sane M k -> rcv_sane (holds M) (rcv_wnd k) h q n -> sane M (received k h q n).
Proof. intros [] []. by split. Qed.

Lemma heapPop_perm h : segments h <> [] -> exists g h', heapPop h = Some (g, h') /\ segments h ≡ₚ g :: segments h' /\ marks h' = marks h ∖ {[sn g]}.
Proof.
  intros Hne. destruct (Pop_perm Less (segments h) Hne) as (g & l & E & Hp). exists g, (MkHeap l (marks h ∖ {[sn g]})).
  unfold heapPop. by rewrite E.
Qed.

Lemma heapPush_perm g h : segments (heapPush g h) ≡ₚ g :: segments h /\ marks (heapPush g h) = {[sn g]} ∪ marks h.
Proof. split; [apply Push_perm|done]. Qed.

Lemma rcv_sane_pop P w h q n g h' : rcv_sane P w h q n -> segments h ≡ₚ g :: segments h' -> marks h' = marks h ∖ {[sn g]} ->
  rcv_sane P w h' q n /\ (P g /\ is_uint 32 (sn g) /\ ahead (sn g) n < w) /\ sn g ∉ marks h'.
Proof.
  intros [R1 [R2 R3] R4] Hp Hm. assert (Hp' : sn <$> segments h ≡ₚ sn g :: (sn <$> segments h')) by (by rewrite Hp).
  rewrite Hp' in R2. apply NoDup_cons in R2 as [N1 N2]. rewrite Hp in R4. inversion R4 as [|? ? G R4']; subst.
  split; [|split; [done|rewrite Hm; set_solver]]. split; [done| |done]. split; [done|]. rewrite Hm, R3, Hp'. cbn. set_solver.
Qed.

Lemma rcv_sane_push P w h q n g : rcv_sane P w h q n -> P g -> is_uint 32 (sn g) -> ahead (sn g) n < w -> sn g ∉ marks h ->
  rcv_sane P w (heapPush g h) q n.
Proof.
  intros [R1 [R2 R3] R4] G1 G2 G3 G4. destruct (heapPush_perm g h) as [Hp Hm].
  assert (Hp' : sn <$> segments (heapPush g h) ≡ₚ sn g :: (sn <$> segments h)) by (by rewrite Hp).
  split; [done| |by rewrite Hp; constructor]. rewrite Hp', Hm, R3. split; [|done]. apply NoDup_cons. split; [|done]. rewrite R3 in G4. set_solver.
Qed.

Lemma rcv_sane_next P w h q n g : 0 < w < 2 ^ 31 -> rcv_sane P w h q n -> P g -> sn g = n -> Z.of_nat (length q) < w -> n ∉ marks h ->
  rcv_sane P w h (q ++ [g]) (u32 (n + 1)).
Proof.
  intros Hw [[R1 [R2 Rn]] [R3 R4] R5] G1 G2 Hl Hm. split; [|done|].
  - split; [rewrite length_app; cbn; lia|]. split; [apply Forall_app; by repeat constructor|apply u32_uint].
  - apply Forall_forall. intros x Hx. rewrite Forall_forall in R5. destruct (R5 x Hx) as (A & B & C). split; [done|]. split; [done|].
    apply ahead_succ; try done; [|lia]. intros E. apply Hm. rewrite R4, <- E. apply elem_of_list_to_set. by apply list_elem_of_fmap_2.
Qed.

Lemma move_ready_sane M fuel : forall k, sane M k -> (length (segments (rcv_buf k)) < fuel)%nat ->
  exists k', move_ready fuel k = Ret k' /\ sane M k'.
Proof.
  induction fuel as [|fuel IH]; intros k HS Hf; [lia|]. cbn [move_ready].
  destruct (segments (rcv_buf k)) as [|g0 l0] eqn:Es; [by exists k|]. rewrite <- Es in Hf.
  destruct (heapPop_perm (rcv_buf k)) as (g & h & -> & Hp & Hm); [by rewrite Es|].
  pose proof (sa_wnd _ _ HS) as (_ & W & _).
  destruct (rcv_sane_pop _ _ _ _ _ _ _ (sane_rcv_side _ _ HS) Hp Hm) as (HR & (G1 & G2 & G3) & G4).
  assert (Hlen : length (segments (rcv_buf k)) = S (length (segments h))) by (by rewrite Hp).
  destruct ((sn g =? rcv_nxt k) && _) eqn:Ec.
  - apply andb_true_iff in Ec as [E1 E2]. apply Z.eqb_eq in E1. apply Z.ltb_lt in E2. apply IH; [|cbn; lia].
    apply (sane_received M k h (rcv_queue k ++ [g]) (u32 (rcv_nxt k + 1)) HS). apply rcv_sane_next; try done. by rewrite <- E1.
  - eexists. split; [reflexivity|]. apply (sane_received M k (heapPush g h) (rcv_queue k) (rcv_nxt k) HS). by apply rcv_sane_push.
Qed.

Lemma move_available_sane M k : sane M k -> exists k', move_available k = Ret k' /\ sane M k' /\
  exists h q n, k' = k <| rcv_buf := h |> <| rcv_queue := q |> <| rcv_nxt := n |>.
Proof.
  intros HS. destruct (move_ready_sane M _ k HS (Nat.lt_succ_diag_r _)) as (k' & E & HS'). exists k'. split; [done|]. split; [done|].
  by eapply move_ready_frame.
Qed.

Lemma parse_data_sane M g k : sane M k -> storable g -> holds M g -> is_uint 32 (sn g) -> exists b k', parse_data g k = Ret (b, k') /\ sane M k'.
Proof.
  intros HS G1 GH G2. unfold parse_data. destruct (Z.leb_spec 0 (itimediff (sn g) (u32 (rcv_nxt k + rcv_wnd k)))); cbn [orb]; [by eexists _, _|].
  destruct (Z.ltb_spec (itimediff (sn g) (rcv_nxt k)) 0); [by eexists _, _|].
  assert (HM : forall k1 (r : bool), sane M k1 -> exists b k', (k ← move_available k1; Ret (r, k)) = Ret (b, k') /\ sane M k').
  { intros k1 r H1. destruct (move_available_sane M k1 H1) as (k2 & -> & H2 & _). by exists r, k2. }
  unfold Has. case_bool_decide as Hm; cbn [mbind outcome_bind]; [by apply HM|].
  destruct (Z.ltb_spec mtuLimit (Z.of_nat (length (data g)))) as [X|X]; [unfold storable in G1; lia|]. cbn [mbind outcome_bind]. apply HM.
  apply (sane_received M k (heapPush g (rcv_buf k)) (rcv_queue k) (rcv_nxt k) HS). pose proof (sa_wnd _ _ HS) as (_ & W & _).
  apply rcv_sane_push; try done; [by apply (sane_rcv_side M)|]. apply window_ahead; [lia|done|done].
Qed.

(** The merge loop takes what PeekSize counted. *)
Lemma merge_fits q : forall room got, (sum_list_with (fun g => length (data g)) (first_message q) <= room)%nat -> exists got' q', merge room q got = Ret (got', q') /\
  (Z.of_nat (length q') <= Z.of_nat (length q)).
Proof.
  induction q as [|g q IH]; intros room got H; cbn [merge first_message] in *; [by eexists _, _|].
  destruct (frg g =? 0); cbn [sum_list_with] in H; (destruct (Nat.ltb_spec room (length (data g))); [lia|]).
  - eexists _, _. split; [reflexivity|]. cbn. lia.
  - destruct (IH (room - length (data g))%nat (got ++ data g) ltac:(lia)) as (a & b & E & L). exists a, b. split; [exact E|]. cbn. lia.
Qed.

Lemma Recv_sane M room k : sane M k -> exists n bytes k', Recv room k = Ret (n, bytes, k') /\ sane M k'.
Proof.
  intros HS. unfold Recv. destruct (Z.ltb_spec (PeekSize k) 0) as [|Hp]; [by eexists _, _, _|].
  destruct (Z.ltb_spec (Z.of_nat room) (PeekSize k)) as [|Hr]; [by eexists _, _, _|].
  assert (HF : (sum_list_with (fun g => length (data g)) (first_message (rcv_queue k)) <= room)%nat).
  { unfold PeekSize in Hp, Hr. destruct (rcv_queue k) as [|g q]; [lia|]. cbn [first_message] in *. destruct (frg g =? 0); [cbn; lia|].
    destruct (_ <? _); [lia|]. unfold sum_data in Hr. lia. }
  destruct (merge_fits _ room [] HF) as (got & q & E & Hl). rewrite E. cbn [mbind outcome_bind].
  apply merge_takes in E as (t & Eq & _).
  set (k1 := (k <| rcv_queue := q |>) <| delivered ::= _ |>).
  assert (HS1 : sane M k1).
  { pose proof (sa_rcv _ _ HS) as (R1 & R2 & R3). rewrite Eq in R2. apply Forall_app in R2 as [_ R2].
    assert (HS0 : sane M (received k (rcv_buf k) q (rcv_nxt k))) by (apply sane_received; [done|]; destruct HS; split; [split; [lia|done]|done|done]).
    apply (sane_core M _ k1) in HS0; [done|done|apply HS]. }
  destruct (move_available_sane M k1 HS1) as (k2 & -> & HS2 & _). cbn [mbind outcome_bind].
  destruct (_ && _); (eexists _, _, _; split; [reflexivity|]); [|done]. by apply (sane_core M k2); [done|apply HS2|].
Qed.

(** ** Sending *)

Section Sending.
Context (M : limits).
Hypothesis M_limit : M <= mtuLimit.

Lemma sane_queue k q : sane M k -> Forall (sendable M (buffer k)) q -> sane M (k <| snd_queue := q |>).
Proof. intros [] ?. by split. Qed.

Lemma append_last_sane k buf : sane M k -> exists q rest, append_last k buf = Ret (q, rest) /\ Forall (sendable M (buffer k)) q.
Proof.
  intros HS. pose proof (sa_queue _ _ HS) as HQ. pose proof (sa_mtu _ _ HS) as (H1 & H2 & H3). unfold append_last.
  destruct (last (snd_queue k)) as [g|] eqn:El; [|by eexists _, _]. apply last_Some in El as [q0 E]. rewrite E in *.
  destruct (Z.ltb_spec (Z.of_nat (length (data g))) (mss k)) as [X|X]; [|by eexists _, _].
  assert (Hb : Z.of_nat (length (data g ++ take (length buf `min` (Z.to_nat (mss k) - length (data g))) buf)) <= mss k).
  { rewrite length_app, length_take. lia. }
  destruct (Z.ltb_spec mtuLimit (Z.of_nat (length (data g ++ take (length buf `min` (Z.to_nat (mss k) - length (data g))) buf)))) as [Y|Y].
  { unfold IKCP_OVERHEAD in *. lia. }
  eexists _, _. split; [reflexivity|]. apply Forall_app in HQ as [Q1 Q2]. rewrite length_app. cbn [length]. rewrite Nat.add_sub.
  rewrite alter_app_r_alt, Nat.sub_diag by lia. cbn [alter list_alter]. apply Forall_app. split; [done|]. constructor; [|constructor].
  unfold sendable. cbn [data over data_field]. lia.
Qed.

Lemma fragments_sane k count : forall buf, sane M k -> exists gs, fragments count k buf = Ret gs /\ Forall (sendable M (buffer k)) gs.
Proof.
  induction count as [|rest IH]; intros buf HS; cbn [fragments]; [by eexists|]. pose proof (sa_mtu _ _ HS) as (H1 & H2 & H3).
  set (size := (_ `min` _)%nat). assert (Hs : Z.of_nat (length (take size buf)) <= mss k) by (rewrite length_take; lia).
  unfold newSegment. destruct (Z.ltb_spec mtuLimit (Z.of_nat (length (take size buf)))) as [X|X]; [unfold IKCP_OVERHEAD in *; lia|].
  cbn [mbind outcome_bind]. destruct (IH (drop size buf) HS) as (gs & -> & HF). cbn [mbind outcome_bind].
  eexists. split; [reflexivity|]. constructor; [|done]. unfold sendable. cbn [data over data_field frg_field]. lia.
Qed.

Lemma Send_sane buf k : sane M k -> exists r k', Send buf k = Ret (r, k') /\ sane M k'.
Proof.
  intros HS. pose proof (sa_mtu _ _ HS) as (H1 & H2 & H3). unfold Send. destruct buf as [|b buf0].
  { destruct (stream k =? 0); [by eexists _, _|]. cbn [newSegment mbind outcome_bind]. eexists _, _. split; [reflexivity|].
    apply (sane_queue k (snd_queue k ++ [zero_segment <| data := [] |>]) HS). apply Forall_app. split; [apply HS|].
    constructor; [|constructor]. unfold sendable. cbn. unfold IKCP_OVERHEAD in *. lia. }
  set (buf := b :: buf0) in *. clearbody buf.
  assert (HA : exists q rest, (if stream k =? 0 then Ret (snd_queue k, buf) else append_last k buf) = Ret (q, rest) /\ Forall (sendable M (buffer k)) q).
  { destruct (stream k =? 0); [|by apply append_last_sane]. eexists _, _. split; [done|apply HS]. }
  destruct HA as (q & rest & -> & HQ). cbn [mbind outcome_bind]. pose proof (sane_queue k q HS HQ) as HS1.
  set (k1 := k <| snd_queue := q |>) in *. destruct (_ && _); [by eexists _, _|]. destruct (255 <? _); [by eexists _, _|].
  match goal with |- context [fragments ?c k1 rest] => destruct (fragments_sane k1 c rest HS1) as (gs & -> & HF) end.
  cbn [mbind outcome_bind]. eexists _, _. split; [reflexivity|].
  apply (sane_queue k1 (q ++ gs) HS1). by apply Forall_app.
Qed.

(** ** Acknowledgements *)

(** Another send window, cut from the front of the old one. *)
Lemma sane_window k u l : sane M k -> (exists n, u = u32 (snd_una k + Z.of_nat n) /\ (n <= length (snd_buf k))%nat /\ length l = (length (snd_buf k) - n)%nat /\
    forall i g, l !! i = Some g -> exists g0, snd_buf k !! (n + i)%nat = Some g0 /\ sn g = sn g0 /\ (length (data g) <= length (data g0))%nat) ->
  sane M (k <| snd_buf := l |> <| snd_una := u |>).
Proof.
  intros [S1 S2 S3 S4 S5 S6 S7 S8 S9 S10 S11 S12 S13] (n & -> & Hn & Hl & Hg). split; cbn; try done.
  - apply Forall_lookup. intros i g Hi. destruct (Hg i g Hi) as (g0 & H0 & _ & Hd). rewrite Forall_lookup in S5.
    specialize (S5 _ _ H0) as [A B]. unfold sendable. lia.
  - lia.
  - intros i g Hi. destruct (Hg i g Hi) as (g0 & H0 & E & _). rewrite E, (S7 _ _ H0), u32_plus. f_equal. lia.
  - rewrite S8, u32_plus. f_equal. lia.
Qed.

Lemma una_sane u k : sane M k -> sane M (shrink_buf (parse_una u k).2).
Proof.
  intros HS. cbn [parse_una snd]. set (n := count_una u (snd_buf k)).
  assert (Hn : (n <= length (snd_buf k))%nat).
  { subst n. generalize (snd_buf k). intros l. induction l as [|g l IH]; cbn; [lia|]. case_match; cbn; lia. }
  pose proof (sane_window k (match drop n (snd_buf k) with g :: _ => sn g | [] => snd_nxt k end) (drop n (snd_buf k)) HS) as HX.
  apply HX. exists n. split; [|split; [done|split; [by rewrite length_drop|]]].
  - destruct (drop n (snd_buf k)) as [|g l] eqn:Ed.
    + assert (length (drop n (snd_buf k)) = 0%nat) by (by rewrite Ed). rewrite length_drop in *. rewrite (sa_nxt _ _ HS). f_equal. lia.
    + apply (sa_sn _ _ HS). rewrite <- (Nat.add_0_r n), <- lookup_drop, Ed. done.
  - intros i g Hi. rewrite lookup_drop in Hi. by exists g.
Qed.

Lemma sane_restamp k l : sane M k -> length l = length (snd_buf k) ->
  (forall i g, l !! i = Some g -> exists g0, snd_buf k !! i = Some g0 /\ sn g = sn g0 /\ (length (data g) <= length (data g0))%nat) -> sane M (k <| snd_buf := l |>).
Proof.
  intros [S1 S2 S3 S4 S5 S6 S7 S8 S9 S10 S11 S12 S13] Hl Hg. split; cbn; rewrite ?Hl; try done.
  - apply Forall_lookup. intros i g Hi. destruct (Hg i g Hi) as (g0 & H0 & _ & Hd). rewrite Forall_lookup in S5.
    specialize (S5 _ _ H0) as [A B]. unfold sendable. lia.
  - intros i g Hi. destruct (Hg i g Hi) as (g0 & H0 & E & _). by rewrite E, (S7 _ _ H0).
Qed.

Lemma ack_sane n t k b k' : sane M k -> parse_fastack n t (parse_ack n k) = (b, k') -> sane M k'.
Proof.
  intros HS H. assert (H1 : sane M (parse_ack n k)).
  { unfold parse_ack. destruct (not_inflight n k); [done|]. apply (sane_restamp k (mark_acked n (snd_buf k)) HS); [apply length_mark_acked|].
    intros i g' Hg. apply mark_acked_lookup in Hg as (g & Hg & [->|[En ->]]); exists g; (split; [done|]); [done|]. cbn. split; [done|lia]. }
  set (k1 := parse_ack n k) in *. clearbody k1. unfold parse_fastack in H.
  destruct (not_inflight n k1); [by injection H as _ <-|]. destruct (count_fastack _ _ _ _) as [b' l] eqn:Ec. injection H as _ <-.
  apply count_fastack_lookup in Ec as [A B]. apply (sane_restamp k1 l H1 A).
  intros i g' Hg. destruct (B i g' Hg) as (g & f & Hg' & ->). by exists g.
Qed.

(** ** Flushing *)

(** A flush of [k0] on its way: it changed none of what the bounds depend on. *)
Record fits (k0 k : KCP) (w : list Z) : Prop := {
  ft_core : core k = core k0;
  ft_outs : Forall (fun d => Z.of_nat (length d) <= M) (outputs k);
  ft_len : Z.of_nat (length w) <= M
}.

Lemma fits_settings k0 k w : fits k0 k w -> mtu k = mtu k0 /\ buffer k = buffer k0.
Proof. intros [E _ _]. unfold core in E. by injection E. Qed.

Lemma fits_sane k0 k w : sane M k0 -> fits k0 k w -> sane M k.
Proof. intros HS [E HO _]. by apply (sane_core M k0). Qed.

Lemma makeSpace_fits sp k0 k w k' w' : makeSpace sp k w = (k', w') -> fits k0 k w ->
  fits k0 k' w' /\ (w' = [] \/ Z.of_nat (length w') + sp <= mtu k0).
Proof.
  unfold makeSpace. intros H HF. destruct (fits_settings _ _ _ HF) as [Em _]. rewrite Em in H. destruct HF as [F1 F2 F3].
  destruct (Z.ltb_spec (mtu k0) (Z.of_nat (length w) + sp)) as [X|X]; injection H as <- <-.
  - split; [|by left]. split; [done| |cbn in *; lia]. cbn. apply Forall_app. by repeat constructor.
  - split; [done|by right].
Qed.

Lemma put_fits bytes k0 k w : sane M k0 -> fits k0 k w -> (w = [] \/ Z.of_nat (length w) + Z.of_nat (length bytes) <= mtu k0) ->
  Z.of_nat (length bytes) <= M -> Z.of_nat (length bytes) <= buffer k0 -> exists w', put bytes k w = Ret w' /\ fits k0 k w'.
Proof.
  intros HS HF Hw HM Hb. destruct (fits_settings _ _ _ HF) as [_ Eb]. destruct HF as [F1 F2 F3]. pose proof (sa_mtu _ _ HS) as (H1 & _ & H3).
  unfold put. rewrite Eb. destruct (Z.ltb_spec (buffer k0) (Z.of_nat (length w) + Z.of_nat (length bytes))) as [X|X].
  { destruct Hw as [->|Hw]; cbn in *; lia. }
  eexists. split; [reflexivity|]. split; [done|done|]. rewrite length_app. destruct Hw as [->|Hw]; cbn in *; lia.
Qed.

Lemma space_fits sp bytes k0 k w : sane M k0 -> fits k0 k w -> sp = Z.of_nat (length bytes) ->
  Z.of_nat (length bytes) <= M -> Z.of_nat (length bytes) <= buffer k0 ->
  exists k' w' w'', makeSpace sp k w = (k', w') /\ fits k0 k' w' /\ put bytes k' w' = Ret w'' /\ fits k0 k' w''.
Proof.
  intros HS HF -> HM Hb. destruct (makeSpace _ k w) as [k' w'] eqn:Em. destruct (makeSpace_fits _ _ _ _ _ _ Em HF) as [HF' Hw].
  destruct (put_fits bytes k0 k' w' HS HF' Hw HM Hb) as (w'' & E & HF''). by exists k', w', w''.
Qed.

Lemma header_fits g k0 k w : sane M k0 -> fits k0 k w ->
  exists k' w' w'', makeSpace IKCP_OVERHEAD k w = (k', w') /\ fits k0 k' w' /\ (forall g, exists w'', put (encode g) k' w' = Ret w'' /\ fits k0 k' w'') /\
    put (encode g) k' w' = Ret w'' /\ fits k0 k' w''.
Proof.
  intros HS HF. pose proof (sa_mtu _ _ HS) as (H1 & _ & H3). destruct (makeSpace _ k w) as [k' w'] eqn:Em.
  destruct (makeSpace_fits _ _ _ _ _ _ Em HF) as [HF' Hw].
  assert (HP : forall g, exists w'', put (encode g) k' w' = Ret w'' /\ fits k0 k' w'').
  { intros x. apply put_fits; [done|done|rewrite length_encode; exact Hw|rewrite length_encode; unfold IKCP_OVERHEAD in *; lia..]. }
  destruct (HP g) as (w'' & E & HF''). by exists k', w', w''.
Qed.

Lemma flush_acks_sane k0 l : forall g k w, sane M k0 -> fits k0 k w -> exists g' k' w', flush_acks l g k w = Ret (g', k', w') /\ fits k0 k' w'.
Proof.
  induction l as [|a l IH]; intros g k w HS HF; cbn [flush_acks]; [by eexists _, _, _|].
  destruct (header_fits g k0 k w HS HF) as (k1 & w1 & _ & -> & HF1 & HP & _). destruct (_ || _); [|by apply IH].
  match goal with |- context [encode ?x] => destruct (HP x) as (w2 & -> & HF2) end. cbn [mbind outcome_bind]. by apply IH.
Qed.

Lemma flush_command_sane k0 flag c g k w : sane M k0 -> fits k0 k w -> exists g' k' w', flush_command flag c g k w = Ret (g', k', w') /\ fits k0 k' w'.
Proof.
  intros HS HF. unfold flush_command. destruct (_ =? 0); [by eexists _, _, _|].
  destruct (header_fits (g <| cmd := c |>) k0 k w HS HF) as (k1 & w1 & w2 & -> & _ & _ & -> & HF2). cbn [mbind outcome_bind]. by eexists _, _, _.
Qed.

Lemma flush_probe_core k : core (flush_probe k) = core k /\ outputs (flush_probe k) = outputs k.
Proof. unfold flush_probe. cbn [currentMs]. repeat (case_match; try done). Qed.

Lemma flush_window_sane q win : forall n k n' k', sane M (k <| snd_queue := q |>) -> 0 <= win <= snd_wnd k -> flush_window q win n k = (n', k') ->
  sane M k' /\ outputs k' = outputs k.
Proof.
  induction q as [|g q IH]; intros n k n' k' HS Hw H; cbn [flush_window] in H; [destruct (0 <=? _); by injection H as _ <-|].
  destruct (Z.leb_spec 0 (itimediff (snd_nxt k) (u32 (snd_una k + win)))) as [X|X]; [by injection H as _ <-|].
  destruct HS as [S1 S2 S3 S4 S5 S6 S7 S8 S9 S10 S11 S12 S13]. cbn in *. inversion S4 as [|? ? G S4']; subst.
  rewrite S8, itimediff_offset in X by lia.
  apply IH in H as [A B]; [by split| |done]. split; cbn; try done.
  - apply Forall_app. split; [done|]. constructor; [done|constructor].
  - rewrite length_app. cbn. lia.
  - intros i x Hx. apply lookup_app_Some in Hx as [Hx|[Hl Hx]]; [by apply S7|].
    apply list_lookup_singleton_Some in Hx as [Hi <-]. cbn. rewrite S8. f_equal. lia.
  - rewrite S8, length_app, u32_plus. cbn. f_equal. lia.
Qed.

(** The loop over the window. *)
Definition carrying (k0 : KCP) (a : sending) : Prop := fits k0 (sk a) (sw a).

Lemma transmit_sane k0 hd g a : sane M k0 -> carrying k0 a -> sendable M (buffer k0) g ->
  exists g' a', transmit hd g a = Ret (g', a') /\ carrying k0 a' /\ sn g' = sn g /\ data g' = data g.
Proof.
  intros HS HF [G1 G2]. unfold transmit. cbn [currentMs]. set (k1 := (sk a) <| clock ::= drop 1 |>).
  assert (HF1 : fits k0 k1 (sw a)) by (by destruct HF; split).
  set (now := u32 _). set (g1 := (((g <| xmit ::= _ |>) <| ts := now |>) <| wnd := wnd hd |>) <| una := una hd |>).
  destruct (space_fits (IKCP_OVERHEAD + Z.of_nat (length (data g1))) (encode g1 ++ data g1) k0 k1 (sw a) HS HF1) as (k2 & w2 & w3 & -> & _ & -> & HF3).
  { rewrite length_app, length_encode. unfold IKCP_OVERHEAD. lia. }
  { rewrite length_app, length_encode. unfold IKCP_OVERHEAD in *. cbn. lia. }
  { rewrite length_app, length_encode. unfold IKCP_OVERHEAD in *. cbn. lia. }
  cbn [mbind outcome_bind]. eexists _, _. split; [reflexivity|]. split; [|done]. destruct HF3 as [A B C].
  destruct (_ <=? _); split; done.
Qed.

Lemma retimed_same why k c g : sn (retimed why k c g) = sn g /\ data (retimed why k c g) = data g.
Proof. by destruct why. Qed.

Lemma resend_one_sane k0 resent news hd g a : sane M k0 -> carrying k0 a -> sendable M (buffer k0) g ->
  exists g' a', resend_one resent news hd g a = Ret (g', a') /\ carrying k0 a' /\ sn g' = sn g /\ (length (data g') <= length (data g))%nat.
Proof.
  intros HS HF HG. unfold resend_one. destruct (acked g); [by eexists _, _|]. set (why := resend_why _ _ _ _).
  set (a1 := match why with Fast | Early => _ | Timeout => _ | _ => a end).
  assert (HF1 : carrying k0 a1) by (subst a1; by destruct why). clearbody a1.
  destruct (retimed_same why (sk a) (current a) g) as [R1 R2]. set (g1 := retimed _ _ _ _) in *. clearbody g1.
  assert (HT : exists g' a', match why with NotYet => Ret (g1, a1) | _ => transmit hd g1 a1 end = Ret (g', a') /\ carrying k0 a' /\ sn g' = sn g1 /\ data g' = data g1).
  { assert (HT : exists g' a', transmit hd g1 a1 = Ret (g', a') /\ carrying k0 a' /\ sn g' = sn g1 /\ data g' = data g1).
    { apply transmit_sane; try done. unfold sendable in *. by rewrite R2. }
    destruct why; try done. by exists g1, a1. }
  destruct HT as (g2 & a2 & -> & HF2 & E1 & E2). cbn [mbind outcome_bind]. eexists _, _. split; [reflexivity|].
  split; [by destruct (_ && _)|]. split; [congruence|]. rewrite E2, R2. lia.
Qed.

Lemma resend_sane k0 resent news hd l : forall a, sane M k0 -> carrying k0 a -> Forall (sendable M (buffer k0)) l ->
  exists l' a', resend resent news hd l a = Ret (l', a') /\ carrying k0 a' /\ length l' = length l /\
    forall i g, l' !! i = Some g -> exists g0, l !! i = Some g0 /\ sn g = sn g0 /\ (length (data g) <= length (data g0))%nat.
Proof.
  induction l as [|g l IH]; intros a HS HF HG; cbn [resend]; [by eexists _, _|]. inversion HG as [|? ? G HG']; subst.
  destruct (resend_one_sane k0 resent news hd g a HS HF G) as (g1 & a1 & -> & HF1 & E1 & E2). cbn [mbind outcome_bind].
  destruct (IH a1 HS HF1 HG') as (l2 & a2 & -> & HF2 & E3 & E4). cbn [mbind outcome_bind]. eexists _, _. split; [reflexivity|].
  split; [done|]. split; [cbn; lia|]. intros [|i] x Hx; cbn in *; [injection Hx as <-; by exists g|by apply E4].
Qed.

Lemma flush_cwnd_sane win resent a k0 : sane M k0 -> carrying k0 a -> sane M (flush_cwnd win resent a) /\
  (snd_buf (flush_cwnd win resent a) = snd_buf k0) /\ outputs (flush_cwnd win resent a) = outputs (sk a).
Proof.
  intros HS HF. pose proof (fits_sane _ _ _ HS HF) as HK. destruct HF as [E _ _]. unfold core in E. injection E as _ _ _ _ _ _ _ _ _ _ _ Eb _ _ _ _.
  assert (HX : forall s c i, 0 <= c -> sane M ((sk a) <| ssthresh := s |> <| cwnd := c |> <| incr := i |>)).
  { intros s c i Hc. destruct HK as [S1 S2 S3 S4 S5 S6 S7 S8 S9 S10 S11 S12 S13]. split; try done. cbn. lia. }
  unfold flush_cwnd. destruct (nocwnd (sk a) =? 0); [|done].
  set (k1 := if 0 <? change a then _ else sk a).
  assert (H1 : exists s c i, k1 = (sk a) <| ssthresh := s |> <| cwnd := c |> <| incr := i |> /\ 0 <= c).
  { subst k1. destruct (0 <? change a).
    - eexists _, _, _. split; [reflexivity|]. apply u32_uint.
    - exists (ssthresh (sk a)), (cwnd (sk a)), (incr (sk a)). split; [by destruct (sk a)|]. apply HK. }
  destruct H1 as (s1 & c1 & i1 & E1 & C1). clearbody k1. subst k1. destruct (0 <? lostSegs a).
  - cbn [cwnd over cwnd_field incr_field ssthresh_field]. cbn. split; [|done]. by apply (HX (Z.max (win / 2) IKCP_THRESH_MIN) 1 (mss (sk a))).
  - match goal with |- context [if ?c <? 1 then _ else _] => destruct (c <? 1) end; cbn; (split; [|done]).
    + by apply (HX s1 1 (mss (sk a))).
    + by apply HX.
Qed.

Lemma flush_sane ft k : sane M k -> exists nu k', flush ft k = Ret (nu, k') /\ sane M k'.
Proof.
  intros HS. unfold flush. set (g0 := zero_segment <| sconv := _ |> <| cmd := _ |> <| wnd := _ |> <| una := _ |>). clearbody g0.
  assert (HF0 : fits k k []) by (split; [done|apply HS|pose proof (sa_mtu _ _ HS); cbn; unfold IKCP_OVERHEAD in *; lia]).
  destruct (flush_acks_sane k (acklist k) g0 k [] HS HF0) as (g1 & k1 & w1 & -> & HF1). cbn [mbind outcome_bind].
  destruct (flush_probe_core (k1 <| acklist := [] |>)) as [Ec Eo]. set (k2 := flush_probe _) in *. clearbody k2.
  assert (HF2 : fits k k2 w1) by (destruct HF1; split; [by rewrite Ec|by rewrite Eo|done]).
  destruct (flush_command_sane k IKCP_ASK_SEND IKCP_CMD_WASK g1 k2 w1 HS HF2) as (g3 & k3 & w3 & -> & HF3). cbn [mbind outcome_bind].
  destruct (flush_command_sane k IKCP_ASK_TELL IKCP_CMD_WINS g3 k3 w3 HS HF3) as (g4 & k4 & w4 & -> & HF4). cbn [mbind outcome_bind].
  set (k5 := k4 <| probe := 0 |>). assert (HF5 : fits k k5 w4) by (by destruct HF4; split).
  pose proof (fits_sane _ _ _ HS HF5) as HS5. clearbody k5.
  set (win := if nocwnd k5 =? 0 then _ else _).
  assert (Hwin : 0 <= win <= snd_wnd k5) by (pose proof (sa_wnd _ _ HS5); subst win; destruct (_ =? _); lia). clearbody win.
  destruct (match ft with IKCP_FLUSH_FULL => flush_window (snd_queue k5) win 0 k5 | IKCP_FLUSH_ACKONLY => (0%nat, k5) end) as [n k6] eqn:E6.
  assert (H6 : sane M k6 /\ outputs k6 = outputs k5).
  { destruct ft; [by injection E6 as _ <-|]. eapply flush_window_sane; [|exact Hwin|exact E6]. by destruct k5. }
  destruct H6 as [HS6 Eo6]. set (resent := if fastresend k6 <=? 0 then _ else _). clearbody resent. cbn [currentMs].
  set (k7 := k6 <| clock ::= drop 1 |>). assert (HS7 : sane M k7) by (by apply (sane_core M k6); [done|apply HS6|]).
  set (a0 := MkSending k7 w4 _ 0 0 _). assert (HF7 : carrying k7 a0) by (split; [done|apply HS7|apply HF5]). clearbody a0.
  assert (HR : exists l a, match ft with IKCP_FLUSH_FULL => resend resent n g4 (snd_buf k7) a0 | IKCP_FLUSH_ACKONLY => Ret (snd_buf k7, a0) end = Ret (l, a) /\
    carrying k7 a /\ length l = length (snd_buf k7) /\
    forall i g, l !! i = Some g -> exists g0, snd_buf k7 !! i = Some g0 /\ sn g = sn g0 /\ (length (data g) <= length (data g0))%nat).
  { destruct ft; [exists (snd_buf k7), a0; split; [done|]; split; [done|]; split; [done|]; intros i g Hg; by exists g|].
    by apply resend_sane; [done|done|apply HS7]. }
  destruct HR as (l & a & -> & HF8 & Hl & Hg). cbn [mbind outcome_bind].
  destruct (flush_cwnd_sane win resent a k7 HS7 HF8) as (HS9 & Eb & Eo9). set (k9 := flush_cwnd win resent a) in *. clearbody k9.
  assert (HS10 : sane M (k9 <| snd_buf := l |>)) by (by apply sane_restamp; rewrite ?Eb).
  eexists _, _. split; [reflexivity|]. destruct (sw a) as [|b w] eqn:Ew; [done|].
  apply (sane_core M (k9 <| snd_buf := l |>)); [done| |done]. cbn. apply Forall_app. split; [apply HS10|]. constructor; [|constructor].
  rewrite <- Ew. apply HF8.
Qed.

(** ** Input *)

(** The header of a datagram of bytes has fields of their widths. *)
Lemma bytes_at_uint off n d : Forall is_byte d -> is_uint (8 * Z.of_nat n) (bytes_at off n d).
Proof.
  intros HB. unfold bytes_at. destruct (le_val_uint (take n (drop off d))) as [A B]; [by apply Forall_take, Forall_drop|].
  split; [done|]. eapply Z.lt_le_trans; [exact B|]. apply Z.pow_le_mono_r; [lia|]. rewrite length_take. lia.
Qed.

(** The segments a datagram announces, as far as it is well formed. *)
Fixpoint announced (fuel : nat) (d : list Z) : list segment :=
  match fuel with
  | O => []
  | S fuel =>
      if Z.of_nat (length d) <? IKCP_OVERHEAD then []
      else
        let '(g, len) := decode d in
        let d := drop 24 d in
        if Z.of_nat (length d) <? len then []
        else g <| data := take (Z.to_nat len) d |> :: announced fuel (drop (Z.to_nat len) d)
  end.

Lemma announced_storable fuel : forall d, Z.of_nat (length d) <= IKCP_OVERHEAD + mtuLimit -> Forall storable (announced fuel d).
Proof.
  induction fuel as [|fuel IH]; intros d Hd; cbn [announced]; [constructor|].
  destruct (Z.ltb_spec (Z.of_nat (length d)) IKCP_OVERHEAD) as [|X]; [constructor|]. destruct (decode d) as [g len].
  destruct (_ <? len); [constructor|]. unfold IKCP_OVERHEAD, mtuLimit in *. constructor.
  - unfold storable, mtuLimit. cbn [data over data_field]. rewrite length_take, length_drop. lia.
  - apply IH. rewrite !length_drop. lia.
Qed.

Lemma input_segment_sane pt g a : sane M (rk a) -> storable g -> holds M g -> is_uint 32 (sn g) -> 0 <= wnd g -> exists a', input_segment pt g a = Ret a' /\ sane M (rk a').
Proof.
  intros HS G1 GH G2 G3. unfold input_segment. set (k0 := match pt with IKCP_PACKET_REGULAR => _ | IKCP_PACKET_FEC => _ end).
  assert (HS0 : sane M k0).
  { subst k0. destruct pt; [|done]. destruct HS as [S1 S2 S3 S4 S5 S6 S7 S8 S9 S10 S11 S12 S13]. split; try done. cbn. lia. }
  clearbody k0. pose proof (una_sane (una g) k0 HS0) as HS1. destruct (parse_una (una g) k0) as [n k0'] eqn:Eu. cbn [snd] in HS1.
  set (k1 := shrink_buf k0') in *. clearbody k1. destruct (cmd g =? IKCP_CMD_ACK).
  { destruct (parse_fastack _ _ _) as [b k2] eqn:E2. eexists. split; [reflexivity|]. by eapply ack_sane. }
  destruct (cmd g =? IKCP_CMD_PUSH).
  2: { destruct (cmd g =? IKCP_CMD_WASK); (eexists; split; [reflexivity|]); [|done]. by apply (sane_core M k1); [done|apply HS1|]. }
  destruct (_ <? 0); [|by eexists]. assert (HS2 : sane M (ack_push (sn g) (ts g) k1)) by (by apply (sane_core M k1); [done|apply HS1|]).
  destruct (0 <=? _); [|by eexists]. destruct (parse_data_sane M g _ HS2 G1 GH G2) as (b & k3 & -> & HS3). cbn [mbind outcome_bind]. by eexists.
Qed.

Lemma input_loop_sane pt fuel : forall d a, sane M (rk a) -> Forall is_byte d -> Forall (fun g => storable g /\ holds M g) (announced fuel d) -> (length d < fuel)%nat ->
  exists r a', input_loop fuel pt d a = Ret (r, a') /\ sane M (rk a').
Proof.
  induction fuel as [|fuel IH]; intros d a HS HB HA Hf; [lia|]. cbn [input_loop announced] in *.
  destruct (Z.ltb_spec (Z.of_nat (length d)) IKCP_OVERHEAD) as [|X]; [by eexists _, _|].
  destruct (decode d) as [g len] eqn:Ed. destruct (negb _); [by eexists _, _|].
  destruct (Z.ltb_spec (Z.of_nat (length (drop 24 d))) len) as [|Hlen]; [by eexists _, _|].
  destruct (negb _); [by eexists _, _|]. unfold IKCP_OVERHEAD in *. inversion HA as [|? ? [G1 G2] HA']; subst.
  destruct (input_segment_sane pt (g <| data := take (Z.to_nat len) (drop 24 d) |>) a HS G1 G2) as (a1 & -> & HS1).
  - unfold decode in Ed. injection Ed as <- _. cbn. by apply (bytes_at_uint 12 4).
  - unfold decode in Ed. injection Ed as <- _. cbn. by apply (bytes_at_uint 6 2).
  - cbn [mbind outcome_bind]. apply IH; [done|by do 2 apply Forall_drop|done|]. rewrite !length_drop. lia.
Qed.

Lemma update_ack_sane rtt k : sane M k -> sane M (update_ack rtt k).
Proof.
  intros [S1 S2 S3 S4 S5 S6 S7 S8 S9 S10 S11 S12 S13]. unfold update_ack. case_match. split; try done. cbn. unfold IKCP_RTO_NDL, IKCP_RTO_MAX in *. lia.
Qed.

Lemma grow_cwnd_sane k : sane M k -> sane M (grow_cwnd k).
Proof.
  intros HK. pose proof (sa_mtu _ _ HK) as Hm.
  assert (HX : forall c i, 0 <= c -> sane M (k <| cwnd := c |> <| incr := i |>)).
  { intros c i Hc. destruct HK as [S1 S2 S3 S4 S5 S6 S7 S8 S9 S10 S11 S12 S13]. split; try done. cbn. lia. }
  unfold grow_cwnd. match goal with |- sane M (if _ <? cwnd ?x then _ else _) => set (k1 := x) end.
  assert (H1 : exists c i, k1 = k <| cwnd := c |> <| incr := i |> /\ 0 <= c).
  { subst k1. destruct (_ <? ssthresh k); [eexists _, _; split; [reflexivity|]; apply u32_uint|].
    cbn zeta. destruct (_ <=? _); [|exists (cwnd k); eexists; split; [destruct k; reflexivity|apply HK]].
    eexists _, _. split; [reflexivity|]. destruct (0 <? _); [apply Z.div_pos; [apply u32_uint|unfold IKCP_OVERHEAD in *; lia]|apply u32_uint]. }
  destruct H1 as (c & i & -> & Hc). destruct (_ <? _); [|by apply HX].
  apply (HX (rmt_wnd k) (u32 (rmt_wnd k * mss k))). apply HK.
Qed.

Lemma Input_sane d pt nd k : sane M k -> Forall is_byte d -> Forall (fun g => storable g /\ holds M g) (announced (S (length d)) d) ->
  exists r k', Input d pt nd k = Ret (r, k') /\ sane M k'.
Proof.
  intros HS HB Hd. unfold Input. destruct (_ <? IKCP_OVERHEAD); [by eexists _, _|].
  destruct (input_loop_sane pt (S (length d)) d (MkReading k None false) HS HB Hd ltac:(lia)) as (ret & a & -> & HS1). cbn [mbind outcome_bind].
  destruct (ret <? 0); [by eexists _, _|].
  set (k1 := match latest a, pt with Some _, IKCP_PACKET_REGULAR => _ | _, _ => _ end).
  assert (H1 : sane M k1).
  { subst k1. destruct (latest a) as [t|], pt; try done. cbn [currentMs].
    assert (HC : sane M ((rk a) <| clock ::= drop 1 |>)) by (by apply (sane_core M (rk a)); [done|apply HS1|]).
    destruct (0 <=? _); [by apply update_ack_sane|done]. }
  clearbody k1. set (k2 := if _ && _ then grow_cwnd k1 else k1).
  assert (H2 : sane M k2) by (subst k2; destruct (_ && _); [by apply grow_cwnd_sane|done]). clearbody k2.
  assert (HF : forall ft, exists r k', ('(_, k) ← flush ft k2; Ret (0, k)) = Ret (r, k') /\ sane M k').
  { intros ft. destruct (flush_sane ft k2 H2) as (nu & k3 & -> & H3). by eexists _, _. }
  destruct (flushSegments a); [apply HF|]. destruct (_ <=? _); [apply HF|]. destruct (_ && _); [apply HF|]. by eexists _, _.
Qed.
End Sending.

(** ** Timers and settings *)

Lemma Update_sane (M : limits) k : M <= mtuLimit -> sane M k -> exists k', Update k = Ret k' /\ sane M k'.
Proof.
  intros HM HS. assert (HC : forall k', core k' = core k /\ outputs k' = outputs k -> sane M k').
  { intros k' [A B]. apply (sane_core M k); [done| |done]. rewrite B. apply HS. }
  unfold Update. cbn [currentMs]. set (k0 := k <| clock ::= drop 1 |>).
  set (k1 := if updated k0 =? 0 then _ else _).
  assert (E1 : core k1 = core k /\ outputs k1 = outputs k) by (subst k1; by destruct (_ =? _)).
  clearbody k1. set (far := _ || _). set (k2 := if far then _ else k1).
  assert (E2 : core k2 = core k /\ outputs k2 = outputs k) by (subst k2; destruct E1; by destruct far).
  clearbody k2. destruct (0 <=? _); [|eexists; split; [reflexivity|]; by apply HC].
  set (k3 := k2 <| ts_flush ::= _ |>). set (k4 := if 0 <=? _ then _ else k3).
  assert (E4 : core k4 = core k /\ outputs k4 = outputs k) by (subst k4 k3; destruct E2; by destruct (0 <=? _)).
  clearbody k4. destruct (flush_sane M IKCP_FLUSH_FULL k4 (HC _ E4)) as (nu & k5 & -> & HS5). cbn [mbind outcome_bind]. by eexists.
Qed.

Lemma NoDelay_sane M nd iv rs nc k : sane M k -> sane M (NoDelay nd iv rs nc k).
Proof.
  intros HS. unfold NoDelay. set (k1 := if 0 <=? nd then _ else k).
  assert (H1 : sane M k1).
  { subst k1. destruct (0 <=? nd); [|done]. destruct HS as [S1 S2 S3 S4 S5 S6 S7 S8 S9 S10 S11 S12 S13]. split; try done. cbn.
    destruct (nd =? 0); unfold IKCP_RTO_NDL, IKCP_RTO_MIN, IKCP_RTO_MAX in *; lia. }
  clearbody k1. apply (sane_core M k1); [..|done]; repeat (case_match; try done); apply H1.
Qed.

(** The widest segment the new encoding buffer must hold. *)
Lemma widest_fold (l : list segment) : forall b,
  b <= foldl widest b l /\ Forall (fun g => IKCP_OVERHEAD + Z.of_nat (length (data g)) <= foldl widest b l) l.
Proof.
  induction l as [|g l IH]; intros b; cbn [foldl]; [by split|]. destruct (IH (widest b g)) as [A B].
  assert (Hb : b <= widest b g /\ IKCP_OVERHEAD + Z.of_nat (length (data g)) <= widest b g).
  { unfold widest. destruct (Z.ltb_spec b (IKCP_OVERHEAD + Z.of_nat (length (data g)))); lia. }
  split; [lia|]. constructor; [lia|exact B].
Qed.

Lemma SetMtu_sane (M : limits) m k : M <= mtuLimit -> m <= M -> least M <= Z.max m (IKCP_OVERHEAD + 1) -> sane M k -> sane M (SetMtu m k).2.
Proof.
  intros HM Hm HL HS. unfold SetMtu. destruct (Z.leb_spec m IKCP_OVERHEAD) as [|X]; [done|]. cbn [snd].
  destruct HS as [S1 S2 S3 S4 S5 S6 S7 S8 S9 S10 S11 S12 S13].
  set (b1 := foldl widest _ (snd_buf k)). set (b2 := foldl widest b1 (snd_queue k)).
  destruct (widest_fold (snd_buf k) ((m + IKCP_OVERHEAD) * 3)) as [A1 A2]. destruct (widest_fold (snd_queue k) b1) as [B1 B2].
  fold b1 in A1, A2. fold b2 in B1, B2. unfold IKCP_OVERHEAD, mtuLimit in *.
  assert (Em : u32 m = m) by (apply wrap_id; unfold is_uint; lia). assert (Es : u32 (m - 24) = m - 24) by (apply wrap_id; unfold is_uint; lia).
  split; cbn [mtu mss buffer over mtu_field mss_field buffer_field]; try done.
  - rewrite Em, Es. unfold IKCP_OVERHEAD. lia.
  - apply Forall_forall. intros g Hg. rewrite Forall_forall in S4, B2. destruct (S4 g Hg). split; [done|]. by apply B2.
  - apply Forall_forall. intros g Hg. rewrite Forall_forall in S5, A2. destruct (S5 g Hg). split; [done|]. specialize (A2 g Hg). cbn in A2. unfold IKCP_OVERHEAD. lia.
  - rewrite Em. destruct S13 as (S13 & S14 & _). split; [done|]. split; [done|]. lia.
Qed.

(** ** The theorem *)

(** A call any peer can bring about and any user may make: datagrams of any
    bytes, writes sized by the session, MTUs up to the largest. *)
Definition admissible (M : limits) (o : op) (wire : list (list Z)) (k : KCP) : Prop :=
  match o with
  | OSend buf => Z.of_nat (length buf) <= 255 * mss k
  | OInput i _ _ => exists d, wire !! i = Some d /\ Forall is_byte d /\ Z.of_nat (length d) <= IKCP_OVERHEAD + mtuLimit
  | OSetMtu m => m <= M
  | OWndSize _ _ => False
  | _ => True
  end.

Definition hostile_step (M : limits) (e e' : endpoint) : Prop :=
  exists o wire, admissible M o wire (engine e) /\ perform o wire e = Some e'.

(** A new session's engine with its windows set. *)
Definition configured (conv : Z) (M : limits) : endpoint := MkEnd (WndSize (swin M) (rwin M) (NewKCP conv)) [] [].

Record bounded (M : limits) (k : KCP) : Prop := {
  bd_queue : Z.of_nat (length (rcv_queue k)) <= rwin M;
  bd_held : Z.of_nat (length (segments (rcv_buf k))) <= rwin M;
  bd_sent : Z.of_nat (length (snd_buf k)) <= swin M;
  bd_outs : Forall (fun d => Z.of_nat (length d) <= M) (outputs k);
  bd_rto : IKCP_RTO_NDL <= rx_rto k <= IKCP_RTO_MAX
}.

Lemma sane_bounded M k : sane M k -> bounded M k.
Proof.
  intros HS. pose proof (sane_held _ _ HS). pose proof (sa_set _ _ HS) as (E1 & E2 & _). pose proof (sa_rcv _ _ HS) as (R & _). pose proof (sa_sent _ _ HS).
  rewrite E1, E2 in *. split; try done; apply HS.
Qed.

Lemma perform_sane (M : limits) o wire e : M <= mtuLimit -> (forall g, storable g -> holds M g) /\ least M <= IKCP_OVERHEAD + 1 -> sane M (engine e) -> admissible M o wire (engine e) ->
  exists e', perform o wire e = Some e' /\ sane M (engine e').
Proof.
  intros HM [HH HL] HS HA. assert (HC : forall k', core k' = core (engine e) /\ outputs k' = outputs (engine e) -> sane M k').
  { intros k' [A B]. apply (sane_core M (engine e)); [done| |done]. rewrite B. apply HS. }
  destruct o; cbn [perform admissible] in *.
  - apply Z.leb_le in HA. rewrite HA. destruct (Send_sane M HM buf _ HS) as (r & k' & -> & H). by eexists.
  - destruct (Recv_sane M room _ HS) as (r & b & k' & -> & H). by eexists.
  - destruct HA as (d & -> & HB & Hd). cbn. destruct (Input_sane M d pt ackNoDelay _ HS HB) as (r & k' & -> & H); [|by eexists].
    eapply Forall_impl; [by apply announced_storable|]. intros g Hg. by split; [|apply HH].
  - destruct (Update_sane M _ HM HS) as (k' & -> & H). by eexists.
  - unfold Flush. destruct (flush_sane M IKCP_FLUSH_FULL _ HS) as (nu & k' & -> & H). by eexists.
  - unfold FlushAckOnly. destruct (flush_sane M IKCP_FLUSH_ACKONLY _ HS) as (nu & k' & -> & H). by eexists.
  - eexists. split; [reflexivity|]. apply HC. unfold Check_. cbn [currentMs]. repeat (case_match; try done).
  - eexists. split; [reflexivity|]. by apply HC.
  - eexists. split; [reflexivity|]. by apply NoDelay_sane.
  - done.
  - destruct (Z.leb_spec m mtuLimit); [|lia]. eexists. split; [reflexivity|]. apply SetMtu_sane; [done|done|lia|done].
  - eexists. split; [reflexivity|]. by apply HC.
  - eexists. split; [reflexivity|]. apply HC. unfold SetDeadLink. by case_match.
  - eexists. split; [reflexivity|]. by apply HC.
Qed.

Lemma configured_sane conv (M : limits) : IKCP_MTU_DEF <= M -> least M <= IKCP_OVERHEAD + 1 -> 0 < swin M < 2 ^ 31 -> 0 < rwin M < 2 ^ 31 -> sane M (engine (configured conv M)).
Proof.
  intros HM HL Hs Hr. unfold configured, WndSize. destruct (Z.ltb_spec 0 (swin M)); [|lia]. destruct (Z.ltb_spec 0 (rwin M)); [|lia].
  assert (E1 : u32 (swin M) = swin M) by (apply wrap_id; unfold is_uint; lia). assert (E2 : u32 (rwin M) = rwin M) by (apply wrap_id; unfold is_uint; lia).
  rewrite E1, E2. unfold IKCP_MTU_DEF in *. split; cbn; try done; try lia; try (by constructor).
  - split; [lia|]. split; [constructor|done].
  - split; [constructor|done].
  - split; [done|]. split; [done|]. unfold IKCP_MTU_DEF, IKCP_OVERHEAD in *. lia.
Qed.

Lemma hostile_sane conv (M : limits) e : IKCP_MTU_DEF <= M <= mtuLimit -> (forall g, storable g -> holds M g) /\ least M <= IKCP_OVERHEAD + 1 -> 0 < swin M < 2 ^ 31 -> 0 < rwin M < 2 ^ 31 ->
  rtc (hostile_step M) (configured conv M) e -> sane M (engine e).
Proof.
  intros [HM HL] HH Hs Hr H. apply (rtc_ind_r (fun e => sane M (engine e)) (configured conv M)) in H; [done|apply configured_sane; [done|apply HH|done..]|].
  intros x y _ (o & wire & HA & HP) HS. destruct (perform_sane M o wire x HL HH HS HA) as (e' & E & H'). rewrite E in HP. by injection HP as <-.
Qed.


(** A forged datagram: an acknowledgement of everything, then a push with the
    next sequence number. *)
Definition forged : list Z :=
  encode (MkSeg 7 82 0 0 0 0 4294967295 0 0 0 0 false []) ++ encode (MkSeg 7 81 255 65535 0 0 4294967295 0 0 0 0 false [9]) ++ [9].

