(* ===== verification/KcpOptions.v ===== *)
(** * ukcp: a session's options

    The protocol's and the transport's settings of ukcp.go, the defaults
    resolve applies and what it and the two checks refuse.  Durations are in
    nanoseconds.  Of a Handler and an Executor only whether one is set. *)

From S2P Require Import Prelude Update.
Local Open Scope Z_scope.

Definition Millisecond : Z := 10 ^ 6.
Definition Second : Z := 10 ^ 9.

Definition defaultMTU : Z := 1400.
Definition maxMTU : Z := 1500.
Definition kcpOverhead : Z := 24.
Definition maxSegmentPayload : Z := maxMTU - kcpOverhead.
Definition defaultWindow : Z := 1024.
Definition defaultInterval : Z := 30 * Millisecond.
Definition defaultResend : Z := 2.
Definition defaultDeadLink : Z := 20.
Definition defaultHandshakeTimeout : Z := 10 * Second.
Definition maxWindow : Z := Z.shiftl 1 16 - 1.
Definition defaultKeepAlive : Z := 10 * Second.
Definition defaultMaxBuffered : Z := Z.shiftl 4 20.
Definition DefaultSocketBuffer : Z := Z.shiftl 4 20.

Record Options : Type := MkOptions {
  Handler : bool;
  MTU : Z; SendWindow : Z; RecvWindow : Z;
  NoDelay_ : bool; Interval : Z; Resend : Z; CongestionControl : bool; DeadLink : Z;
  HandshakeTimeout : Z; KeepAlive : Z; MaxBuffered : Z;
  MaxBufferSize : Z; WriteBufferedThreshold : Z; MaxOutboundBuffered : Z; AllowHalfOpen : bool;
  Pollers : Z; ReusePort : bool; Executor : bool;
  SocketReadBuffer : Z; SocketWriteBuffer : Z
}.

#[export] Instance Options_expanded : Expanded Options := fun o =>
  MkOptions (Handler o) (MTU o) (SendWindow o) (RecvWindow o) (NoDelay_ o) (Interval o) (Resend o) (CongestionControl o) (DeadLink o)
    (HandshakeTimeout o) (KeepAlive o) (MaxBuffered o) (MaxBufferSize o) (WriteBufferedThreshold o) (MaxOutboundBuffered o) (AllowHalfOpen o)
    (Pollers o) (ReusePort o) (Executor o) (SocketReadBuffer o) (SocketWriteBuffer o).
#[export] Instance MTU_field : Field MTU := ltac:(field_updater).
#[export] Instance SendWindow_field : Field SendWindow := ltac:(field_updater).
#[export] Instance RecvWindow_field : Field RecvWindow := ltac:(field_updater).
#[export] Instance Interval_field : Field Interval := ltac:(field_updater).
#[export] Instance Resend_field : Field Resend := ltac:(field_updater).
#[export] Instance DeadLink_field : Field DeadLink := ltac:(field_updater).
#[export] Instance HandshakeTimeout_field : Field HandshakeTimeout := ltac:(field_updater).
#[export] Instance KeepAlive_field : Field KeepAlive := ltac:(field_updater).
#[export] Instance MaxBuffered_field : Field MaxBuffered := ltac:(field_updater).
#[export] Instance SocketReadBuffer_field : Field SocketReadBuffer := ltac:(field_updater).
#[export] Instance SocketWriteBuffer_field : Field SocketWriteBuffer := ltac:(field_updater).

Definition zero_options : Options := MkOptions false 0 0 0 false 0 0 false 0 0 0 0 0 0 0 false 0 false false 0 0.

(** What is refused, each under ErrInvalidOptions. *)
Inductive refusal : Type :=
| BadMTU | MTUNoPayload | MTUTooLarge | BadWindows | WindowsAboveWire | BadInterval | IntervalOutside | BadDeadLink | BadMaxBuffered
| LayerHandler | LayerThreshold | LayerOutbound | LayerHalfOpen | LayerLoops | LayerSockets | BufferBelowMTU.

Definition checked (A : Type) : Type := (A + refusal)%type.
#[export] Instance checked_bind : MBind checked := fun A B f m => match m with inl a => f a | inr e => inr e end.

(** *** resolve, a switch at a time *)

Definition resolve_mtu (o : Options) : checked Options :=
  if MTU o <? 0 then inr BadMTU
  else if MTU o =? 0 then inl (o <| MTU := defaultMTU |>)
  else if MTU o <=? kcpOverhead then inr MTUNoPayload
  else if maxMTU <? MTU o then inr MTUTooLarge
  else inl o.

Definition resolve_windows (o : Options) : checked Options :=
  if (SendWindow o <? 0) || (RecvWindow o <? 0) then inr BadWindows
  else
    let o := if SendWindow o =? 0 then o <| SendWindow := defaultWindow |> else o in
    let o := if RecvWindow o =? 0 then o <| RecvWindow := defaultWindow |> else o in
    if (maxWindow <? SendWindow o) || (maxWindow <? RecvWindow o) then inr WindowsAboveWire else inl o.

Definition resolve_interval (o : Options) : checked Options :=
  if Interval o <? 0 then inr BadInterval
  else if Interval o =? 0 then inl (o <| Interval := defaultInterval |>)
  else if (Interval o <? 10 * Millisecond) || (5 * Second <? Interval o) then inr IntervalOutside
  else inl o.

Definition resolve_resend (o : Options) : Options :=
  if Resend o <? 0 then o <| Resend := 0 |> else if Resend o =? 0 then o <| Resend := defaultResend |> else o.

Definition resolve_deadlink (o : Options) : checked Options :=
  if DeadLink o <? 0 then inr BadDeadLink
  else if DeadLink o =? 0 then inl (o <| DeadLink := defaultDeadLink |>) else inl o.

Definition resolve_timeouts (o : Options) : Options :=
  let o := if HandshakeTimeout o <? 0 then o <| HandshakeTimeout := 0 |>
           else if HandshakeTimeout o =? 0 then o <| HandshakeTimeout := defaultHandshakeTimeout |> else o in
  if KeepAlive o <? 0 then o <| KeepAlive := 0 |>
  else if KeepAlive o =? 0 then o <| KeepAlive := defaultKeepAlive |> else o.

Definition resolve_buffered (o : Options) : checked Options :=
  if MaxBuffered o <? 0 then inr BadMaxBuffered
  else if MaxBuffered o =? 0 then inl (o <| MaxBuffered := defaultMaxBuffered |>) else inl o.

Definition resolve_sockets (o : Options) : Options :=
  let o := if SocketReadBuffer o =? 0 then o <| SocketReadBuffer := DefaultSocketBuffer |> else o in
  if SocketWriteBuffer o =? 0 then o <| SocketWriteBuffer := DefaultSocketBuffer |> else o.

Definition resolve (o : Options) : checked Options :=
  o ← resolve_mtu o;
  o ← resolve_windows o;
  o ← resolve_interval o;
  let o := resolve_resend o in
  o ← resolve_deadlink o;
  let o := resolve_timeouts o in
  o ← resolve_buffered o;
  inl (resolve_sockets o).

Definition checkLayerOptions (o : Options) : option refusal :=
  if Handler o then Some LayerHandler
  else if negb (WriteBufferedThreshold o =? 0) then Some LayerThreshold
  else if negb (MaxOutboundBuffered o =? 0) then Some LayerOutbound
  else if AllowHalfOpen o then Some LayerHalfOpen
  else if negb (Pollers o =? 0) || ReusePort o || Executor o then Some LayerLoops
  else if negb (SocketReadBuffer o =? 0) || negb (SocketWriteBuffer o =? 0) then Some LayerSockets
  else None.

Definition checkTransport (o : Options) : option refusal :=
  if (0 <? MaxBufferSize o) && (MaxBufferSize o <? MTU o) then Some BufferBelowMTU else None.

(** ** What a session runs with *)

Record runnable (o : Options) : Prop := {
  run_mtu : kcpOverhead < MTU o <= maxMTU;
  run_windows : 0 < SendWindow o <= maxWindow /\ 0 < RecvWindow o <= maxWindow;
  run_interval : 10 * Millisecond <= Interval o <= 5 * Second;
  run_resend : 0 <= Resend o;
  run_deadlink : 0 < DeadLink o;
  run_timeouts : 0 <= HandshakeTimeout o /\ 0 <= KeepAlive o;
  run_buffered : 0 < MaxBuffered o
}.

Ltac crush_switch := repeat match goal with
  | H : context [if ?a <? ?b then _ else _] |- _ => destruct (Z.ltb_spec a b)
  | H : context [if ?a =? ?b then _ else _] |- _ => destruct (Z.eqb_spec a b)
  | H : context [if ?a <=? ?b then _ else _] |- _ => destruct (Z.leb_spec a b)
  | H : context [if (?a <? ?b) || _ then _ else _] |- _ => destruct (Z.ltb_spec a b); cbn [orb] in H
  | H : inl _ = inl _ |- _ => injection H as <-
  | H : inr _ = inl _ |- _ => discriminate H
  end.

Lemma checked_bind_inl {A B} (m : checked A) (f : A -> checked B) b : (m ≫= f) = inl b -> exists a, m = inl a /\ f a = inl b.
Proof. destruct m as [a|e]; [|done]. intros H. by exists a. Qed.

Lemma resolve_runnable o r : resolve o = inl r -> runnable r.
Proof.
  intros H. unfold resolve in H.
  apply checked_bind_inl in H as (o1 & H1 & H). apply checked_bind_inl in H as (o2 & H2 & H). apply checked_bind_inl in H as (o3 & H3 & H).
  apply checked_bind_inl in H as (o5 & H5 & H). apply checked_bind_inl in H as (o7 & H7 & H). injection H as <-.
  assert (R1 : kcpOverhead < MTU o1 <= maxMTU).
  { unfold resolve_mtu, defaultMTU, kcpOverhead, maxMTU in *. crush_switch; cbn; lia. }
  assert (R2 : MTU o2 = MTU o1 /\ 0 < SendWindow o2 <= maxWindow /\ 0 < RecvWindow o2 <= maxWindow).
  { unfold resolve_windows, defaultWindow, maxWindow in *. crush_switch; cbn in *; lia. }
  assert (R3 : (MTU o3, SendWindow o3, RecvWindow o3) = (MTU o2, SendWindow o2, RecvWindow o2) /\ 10 * Millisecond <= Interval o3 <= 5 * Second).
  { unfold resolve_interval, defaultInterval, Millisecond, Second in *. crush_switch; cbn; (split; [done|lia]). }
  assert (R4 : (MTU (resolve_resend o3), SendWindow (resolve_resend o3), RecvWindow (resolve_resend o3), Interval (resolve_resend o3)) =
    (MTU o3, SendWindow o3, RecvWindow o3, Interval o3) /\ 0 <= Resend (resolve_resend o3)).
  { unfold resolve_resend, defaultResend. destruct (Z.ltb_spec (Resend o3) 0); [|destruct (Z.eqb_spec (Resend o3) 0)]; cbn; (split; [done|lia]). }
  set (o4 := resolve_resend o3) in *. clearbody o4.
  assert (R5 : (MTU o5, SendWindow o5, RecvWindow o5, Interval o5, Resend o5) = (MTU o4, SendWindow o4, RecvWindow o4, Interval o4, Resend o4) /\ 0 < DeadLink o5).
  { unfold resolve_deadlink, defaultDeadLink in *. crush_switch; cbn; (split; [done|lia]). }
  assert (R6 : (MTU (resolve_timeouts o5), SendWindow (resolve_timeouts o5), RecvWindow (resolve_timeouts o5), Interval (resolve_timeouts o5), Resend (resolve_timeouts o5), DeadLink (resolve_timeouts o5)) =
    (MTU o5, SendWindow o5, RecvWindow o5, Interval o5, Resend o5, DeadLink o5) /\ 0 <= HandshakeTimeout (resolve_timeouts o5) /\ 0 <= KeepAlive (resolve_timeouts o5)).
  { unfold resolve_timeouts, defaultHandshakeTimeout, defaultKeepAlive, Second.
    destruct (Z.ltb_spec (HandshakeTimeout o5) 0); [|destruct (Z.eqb_spec (HandshakeTimeout o5) 0)]; cbn;
      (destruct (Z.ltb_spec (KeepAlive o5) 0); [|destruct (Z.eqb_spec (KeepAlive o5) 0)]); cbn; (split; [done|lia]). }
  set (o6 := resolve_timeouts o5) in *. clearbody o6.
  assert (R7 : (MTU o7, SendWindow o7, RecvWindow o7, Interval o7, Resend o7, DeadLink o7, HandshakeTimeout o7, KeepAlive o7) =
    (MTU o6, SendWindow o6, RecvWindow o6, Interval o6, Resend o6, DeadLink o6, HandshakeTimeout o6, KeepAlive o6) /\ 0 < MaxBuffered o7).
  { unfold resolve_buffered in *. change defaultMaxBuffered with 4194304 in *. crush_switch; (split; [done|cbn; lia]). }
  assert (R : runnable o7).
  { repeat match goal with H : _ /\ _ |- _ => destruct H | H : (_, _) = (_, _) |- _ => injection H; clear H; intros end. split; lia. }
  unfold resolve_sockets. destruct (_ =? 0); cbn; (destruct (_ =? 0)); by destruct R; split.
Qed.
