(* ===== verification/KcpConn.v ===== *)
(** * ukcp: one session

    conn of ukcp/conn.go: the engine between a connection below, of datagrams
    or of a byte stream, and the stream it makes for the layer above.  One
    definition per method; each runs under the session's lock, so a step is a
    whole call.  Calls to the layers around it, and the segments
    handed to the engine, are recorded in [events]; what
    they and the clocks answer is read from the session's oracles [nows],
    [backlog], [written] and [timers], any answers in any order.  The debug
    notes are left out. *)

From S2P Require Import Prelude Update Endian GoHeap KcpRing Kcp KcpWire KcpOptions.
Local Open Scope Z_scope.

(** ** Time *)

(** A time.Time in nanoseconds of the Unix clock; [None] is the zero Time, the
    first of January of year 1.  A difference saturates. *)
Definition Time : Type := option Z.
Definition zeroTime : Z := -62135596800 * 10 ^ 9.
Definition unix (t : Time) : Z := default zeroTime t.
Definition maxDuration : Z := 2 ^ 63 - 1.
Definition minDuration : Z := - 2 ^ 63.

Definition Before (a b : Time) : bool := unix a <? unix b.
Definition Sub (now : Z) (t : Time) : Z := Z.min maxDuration (Z.max minDuration (now - unix t)).

(** ** Errors and the calls a session makes *)

(** What a write below may fail with. *)
Inductive lower_error : Type := LowerNetClosed | LowerClosedPipe | LowerOverflow | LowerOther (code : Z).

Inductive session_error : Type :=
| ErrInvalidOptions (why : refusal) | ErrMTUAboveRead | ErrRandom
| ErrDeadLink | ErrKeepAliveTimeout | ErrProtocol (frg : Z) | ErrPeerSilent
| errMessageTooLarge | errSegmentTooLarge | ErrUnexpectedEOF
| ErrNetClosed | ErrOutboundOverflow | ErrRefusedWrite | ErrLower (e : lower_error).

(** Whether an error says that the connection below is gone. *)
Definition closed_error (e : lower_error) : bool := match e with LowerNetClosed | LowerClosedPipe => true | _ => false end.

Inductive event : Type :=
| UpOpen | UpWrite (p : list Z) | UpEnd | UpYield
| KcpInput (seg : list Z)
| DownWritev (vec : list (list Z)) | DownDiscard (n : nat)
| SetTimer (t : Z) | Abort (e : session_error).

Record SessionState : Type := MkState { Conv : Z; SRTT : Z; RTO : Z; CWnd : Z; RemoteWnd : Z; Queued : nat; Inflight : nat }.

(** ** The session *)

Record conn : Type := MkConn {
  client : bool;
  layer_err : option refusal;
  opts : Options;
  kcp : option KCP;
  cconv : Z;
  packet : bool;
  cmss : Z;
  pending : list Z;
  outVec : list (list Z);
  finQueued : bool; peerFin : bool; lowerEnded : bool; ended : bool; closed : bool;
  writeErr : option session_error;
  lastInbound : Time; lastProbe : Time; armedAt : Time;
  held : Z;
  published : option SessionState;
  events : list event;
  nows : list Z;                          (* what time.Now returns next *)
  msnows : list Z;                        (* what the engine's clock returns next *)
  backlog : list Z;                       (* what Up().Buffered returns next *)
  written : list (option lower_error);    (* what Down().Writev returns next *)
  timers : list bool                      (* whether SetTimer succeeds next *)
}.

#[export] Instance conn_expanded : Expanded conn := fun c =>
  MkConn (client c) (layer_err c) (opts c) (kcp c) (cconv c) (packet c) (cmss c) (pending c) (outVec c) (finQueued c) (peerFin c) (lowerEnded c)
    (ended c) (closed c) (writeErr c) (lastInbound c) (lastProbe c) (armedAt c) (held c) (published c) (events c) (nows c) (msnows c) (backlog c) (written c) (timers c).
#[export] Instance kcp_field : Field kcp := ltac:(field_updater).
#[export] Instance cconv_field : Field cconv := ltac:(field_updater).
#[export] Instance packet_field : Field packet := ltac:(field_updater).
#[export] Instance cmss_field : Field cmss := ltac:(field_updater).
#[export] Instance pending_field : Field pending := ltac:(field_updater).
#[export] Instance outVec_field : Field outVec := ltac:(field_updater).
#[export] Instance finQueued_field : Field finQueued := ltac:(field_updater).
#[export] Instance peerFin_field : Field peerFin := ltac:(field_updater).
#[export] Instance lowerEnded_field : Field lowerEnded := ltac:(field_updater).
#[export] Instance ended_field : Field ended := ltac:(field_updater).
#[export] Instance closed_field : Field closed := ltac:(field_updater).
#[export] Instance writeErr_field : Field writeErr := ltac:(field_updater).
#[export] Instance lastInbound_field : Field lastInbound := ltac:(field_updater).
#[export] Instance lastProbe_field : Field lastProbe := ltac:(field_updater).
#[export] Instance armedAt_field : Field armedAt := ltac:(field_updater).
#[export] Instance held_field : Field held := ltac:(field_updater).
#[export] Instance published_field : Field published := ltac:(field_updater).
#[export] Instance events_field : Field events := ltac:(field_updater).
#[export] Instance nows_field : Field nows := ltac:(field_updater).
#[export] Instance msnows_field : Field msnows := ltac:(field_updater).
#[export] Instance backlog_field : Field backlog := ltac:(field_updater).
#[export] Instance written_field : Field written := ltac:(field_updater).
#[export] Instance timers_field : Field timers := ltac:(field_updater).

(** kcpLayer: newLayer, newResolvedLayer and Attach. *)
Definition attached (opts : Options) (client : bool) (err : option refusal) : conn :=
  MkConn client err opts None 0 false 0 [] [] false false false false false None None None None 0 None [] [] [] [] [] [].

Definition newLayer (o : Options) (client : bool) : conn :=
  match checkLayerOptions o with
  | Some e => attached o client (Some e)
  | None => match resolve o with inl r => attached r client None | inr e => attached zero_options client (Some e) end
  end.

Definition newResolvedLayer (r : Options) (client : bool) : conn := attached r client None.

(** ** What the layers around answer *)

Definition emit (e : event) (c : conn) : conn := c <| events ::= (fun l => l ++ [e]) |>.
Definition Now (c : conn) : Z * conn := (default 0 (nows c !! 0%nat), c <| nows ::= drop 1 |>).
Definition Buffered (c : conn) : Z * conn := (default 0 (backlog c !! 0%nat), c <| backlog ::= drop 1 |>).
Definition Writev (vec : list (list Z)) (c : conn) : option lower_error * conn :=
  (default None (written c !! 0%nat), emit (DownWritev vec) (c <| written ::= drop 1 |>)).

(** SetTimer, and the note of its deadline when it took. *)
Definition setTimer (t : Z) (c : conn) : conn :=
  let ok := default true (timers c !! 0%nat) in
  let c := emit (SetTimer t) (c <| timers ::= drop 1 |>) in
  if ok then c <| armedAt := Some t |> else c.

(** ** Ending *)

Definition fatal (e : session_error) (c : conn) : conn :=
  let c := match writeErr c with None => c <| writeErr := Some e |> | Some _ => c end in
  emit (Abort e) (c <| ended := true |> <| held := 0 |> <| published := None |>).

(** ** The engine *)

(** output stages each datagram the engine puts out, unless the session ended. *)
Definition staging (k k' : KCP) (c : conn) : conn :=
  let c := c <| kcp := Some k' |> <| msnows := clock k' |> in
  if ended c || closed c then c else c <| outVec ::= (fun v => v ++ drop (length (outputs k)) (outputs k')) |>.

(** A call into the engine, on the clock the session reads. *)
Definition call_kcp {A} (f : KCP -> outcome (A * KCP)) (c : conn) : outcome (A * conn) :=
  match kcp c with
  | Some k => '(a, k') ← f (k <| clock := msnows c |>); Ret (a, staging k k' c)
  | None => Panic PanicNil
  end.

Definition RTT (k : KCP) : Z * Z := (rx_srtt k * Millisecond, rx_rto k * Millisecond).

Definition publishState (c : conn) : conn :=
  match kcp c with
  | Some k =>
      if ended c then c <| published := None |>
      else c <| published := Some (MkState (cconv c) (RTT k).1 (RTT k).2 (cwnd k) (rmt_wnd k) (length (snd_queue k)) (length (snd_buf k))) |>
  | None => c <| published := None |>
  end.
Definition State (c : conn) : SessionState := default (MkState 0 0 0 0 0 0 0) (published c).

(** ** Timers *)

Definition armFor (deadline : Z) (c : conn) : conn :=
  match armedAt c with
  | Some a => if a <=? deadline then c else setTimer deadline c
  | None => setTimer deadline c
  end.

Definition keepAliveDeadline (c : conn) : Time :=
  match kcp c with
  | Some _ =>
      if KeepAlive (opts c) <=? 0 then None
      else
        let base := if Before (lastInbound c) (lastProbe c) then lastProbe c else lastInbound c in
        Some (unix base + KeepAlive (opts c))
  | None => None
  end.

Definition arm (next : Z) (c : conn) : conn :=
  match kcp c with
  | Some k =>
      if closed c || ended c then c
      else
        let '(deadline, c) :=
          if (0 <? WaitSnd k)%nat
          then let next := if next <=? 0 then Millisecond else next in let '(now, c) := Now c in (Some (now + next), c)
          else (None, c) in
        let deadline := match keepAliveDeadline c, deadline with
                        | Some ka, None => Some ka
                        | Some ka, Some d => if ka <? d then Some ka else Some d
                        | None, d => d
                        end in
        match deadline with
        | Some d => armFor d c
        | None => c
        end
  | None => c
  end.

(** ** Writing below *)

Definition ackHoldDelay : Z := Millisecond.
Definition holdBatch : nat := 16.

Definition releaseStaging (c : conn) : conn := c <| outVec := [] |>.

Definition sendBatch (hold : bool) (c : conn) : conn :=
  match outVec c with
  | [] => c
  | vec =>
      if hold && (length vec <=? holdBatch)%nat then let '(now, c) := Now c in armFor (now + ackHoldDelay) c
      else
        let '(err, c) := Writev vec c in
        let c := releaseStaging c in
        match err with
        | Some e => if packet c && negb (closed_error e) then c else fatal (ErrLower e) c
        | None => c
        end
  end.

(** The payload length a header claims, when a segment can carry it. *)
Definition segmentLength (seg : list Z) : option Z :=
  if Z.of_nat (length seg) <? kcpOverhead then None
  else
    let length := bytes_at 20 4 seg in
    if maxSegmentPayload <? length then None else Some length.

(** The application bytes of a staged datagram; every round consumes a header. *)
Fixpoint push_bytes (fuel : nat) (rest : list Z) : Z :=
  match fuel with
  | O => 0
  | S fuel =>
      match segmentLength rest with
      | Some length =>
          let total := kcpOverhead + length in
          if Z.of_nat (List.length rest) <? total then 0
          else (if bytes_at 4 1 rest =? IKCP_CMD_PUSH then length else 0) + push_bytes fuel (drop (Z.to_nat total) rest)
      | None => 0
      end
  end.
Definition pushBytes (datagram : list Z) : Z := push_bytes (S (length datagram)) datagram.

Definition noteHeld (c : conn) : conn :=
  match kcp c with
  | Some k =>
      if ended c then c <| held := 0 |> <| published := None |>
      else publishState (c <| held := foldl (fun h d => h + pushBytes d) (QueuedBytes k) (outVec c) |>)
  | None => c <| held := 0 |> <| published := None |>
  end.

Definition dead (c : conn) : bool := match kcp c with Some k => IsDead k | None => false end.

Definition maintain (c : conn) : outcome conn :=
  '(next, c) ← call_kcp Flush c;
  let c := noteHeld (sendBatch false c) in
  Ret (if dead c then fatal ErrDeadLink c else arm next c).

Definition quiet (f : KCP -> outcome KCP) (k : KCP) : outcome (unit * KCP) := k ← f k; Ret (tt, k).

Definition probe_peer (c : conn) : outcome conn :=
  '(_, c) ← call_kcp (quiet (fun k => Ret (AskWindow k))) c;
  '(_, c) ← call_kcp (quiet FlushAckOnly) c;
  Ret (sendBatch false c).

Definition keepAlive (now : Z) (c : conn) : outcome conn :=
  let period := KeepAlive (opts c) in
  if (period <=? 0) || negb (bool_decide (is_Some (kcp c))) || ended c then Ret c
  else if 3 * period <=? Sub now (lastInbound c) then Ret (fatal ErrKeepAliveTimeout c)
  else if (period <=? Sub now (lastInbound c)) && (period <=? Sub now (lastProbe c)) then probe_peer (c <| lastProbe := Some now |>)
  else Ret c.

(** ** Opening *)

Definition boolInt (b : bool) : Z := if b then 1 else 0.

Definition established (conv : Z) (o : Options) : KCP :=
  let k := SetStreamMode true (NewKCP conv) in
  let k := NoDelay (boolInt (NoDelay_ o)) (Interval o / Millisecond) (Resend o) (boolInt (negb (CongestionControl o))) k in
  let k := WndSize (SendWindow o) (RecvWindow o) k in
  let k := (SetMtu (MTU o) k).2 in
  SetDeadLink (DeadLink o) k.

Definition establish (conv : Z) (c : conn) : conn :=
  let c := c <| kcp := Some (established conv (opts c)) |> <| cconv := conv |> <| cmss := MTU (opts c) - kcpOverhead |> in
  let '(now, c) := Now c in
  arm 0 (publishState (c <| lastInbound := Some now |>)).

(** [readSize] is the socket's read size where the connection below knows it,
    [seed] what the random source gave. *)
Definition OnOpen (packetDown : bool) (readSize : option Z) (seed : option (list Z)) (c : conn) : conn :=
  match layer_err c with
  | Some e => emit (Abort (ErrInvalidOptions e)) (c <| closed := true |>)
  | None =>
      let c := c <| packet := packetDown |> in
      let truncates := packet c && match readSize with Some size => (0 <? size) && (size <? MTU (opts c)) | None => false end in
      if truncates then emit (Abort ErrMTUAboveRead) (c <| ended := true |>)
      else if negb (client c) then
        if 0 <? HandshakeTimeout (opts c) then let '(now, c) := Now c in armFor (now + HandshakeTimeout (opts c)) c else c
      else
        match seed with
        | None => emit (Abort ErrRandom) (c <| closed := true |>)
        | Some seed => emit UpOpen (establish (le_val seed) c)
        end
  end.

(** ** Reading from below *)

Definition knownCommand (cmd : Z) : bool :=
  (cmd =? IKCP_CMD_PUSH) || (cmd =? IKCP_CMD_ACK) || (cmd =? IKCP_CMD_WASK) || (cmd =? IKCP_CMD_WINS).

Definition feed (seg : list Z) (c : conn) : outcome (bool * conn) :=
  if negb (bytes_at 5 1 seg =? 0) then
    Ret (false, if negb (bool_decide (is_Some (kcp c))) || (bytes_at 0 4 seg =? cconv c)
                then fatal (ErrProtocol (bytes_at 5 1 seg)) c else c)
  else
    let founds := negb (bool_decide (is_Some (kcp c))) in
    if founds && (client c || negb (knownCommand (bytes_at 4 1 seg))) then Ret (false, c)
    else
      let c := if founds then emit UpOpen (establish (bytes_at 0 4 seg) c) else c in
      '(r, c) ← call_kcp (Input seg IKCP_PACKET_REGULAR true) (emit (KcpInput seg) c);
      Ret (r =? 0, c).

(** Both loops consume a header a round. *)
Fixpoint input_packet (fuel : nat) (rest : list Z) (fed : bool) (c : conn) : outcome (bool * conn) :=
  match fuel with
  | O => Panic FuelExhausted
  | S fuel =>
      match rest with
      | [] => Ret (fed, c)
      | _ =>
          match segmentLength rest with
          | None => Ret (fed, c)
          | Some length =>
              let total := kcpOverhead + length in
              if Z.of_nat (List.length rest) <? total then Ret (fed, c)
              else
                '(b, c) ← feed (take (Z.to_nat total) rest) c;
                input_packet fuel (drop (Z.to_nat total) rest) (fed || b) c
          end
      end
  end.
Definition inputPacket (packet : list Z) (c : conn) : outcome (bool * conn) := input_packet (S (length packet)) packet false c.

Fixpoint input_stream (fuel : nat) (rest : list Z) (fed : bool) (c : conn) : outcome (bool * list Z * conn) :=
  match fuel with
  | O => Panic FuelExhausted
  | S fuel =>
      if Z.of_nat (length rest) <? kcpOverhead then Ret (fed, rest, c)
      else
        match segmentLength rest with
        | None => Ret (fed, rest, fatal errSegmentTooLarge c)
        | Some length =>
            let total := kcpOverhead + length in
            if Z.of_nat (List.length rest) <? total then Ret (fed, rest, c)
            else
              '(b, c) ← feed (take (Z.to_nat total) rest) c;
              input_stream fuel (drop (Z.to_nat total) rest) (fed || b) c
        end
  end.
Definition inputStream (c : conn) : outcome (bool * conn) :=
  '(fed, rest, c) ← input_stream (S (length (pending c))) (pending c) false c;
  Ret (fed, c <| pending := rest |>).

(** ** Delivering above *)

Definition endLower (c : conn) : conn :=
  if negb (lowerEnded c) || peerFin c then c else emit UpEnd (c <| peerFin := true |>).

Definition recv (k : KCP) : outcome (Z * list Z * KCP) := Recv (Z.to_nat maxSegmentPayload) k.

Fixpoint deliver_loop (fuel : nat) (c : conn) : outcome conn :=
  match fuel with
  | O => Panic FuelExhausted
  | S fuel =>
      let '(b, c) := Buffered c in
      if RecvWindow (opts c) * cmss c <=? b then Ret (emit UpYield c)
      else
        '(n, p, c) ← call_kcp recv c;
        if n =? -2 then Ret (fatal errMessageTooLarge c)
        else if n <? 0 then Ret (endLower c)
        else if n =? 0 then Ret (emit UpEnd (c <| peerFin := true |>))
        else deliver_loop fuel (emit (UpWrite p) c)
  end.

(** Each round takes a segment of the queue, or of the heap behind it. *)
Definition waiting (c : conn) : nat :=
  match kcp c with Some k => (length (rcv_queue k) + length (segments (rcv_buf k)))%nat | None => 0%nat end.

Definition deliver (c : conn) : outcome conn :=
  if ended c || peerFin c || negb (bool_decide (is_Some (kcp c))) then Ret c else deliver_loop (S (waiting c)) c.

(** [lowerEnd]: whether the connection below reports its peer's end. *)
Definition streamLowerEnded (lowerEnd : bool) (c : conn) : outcome conn :=
  if ended c || peerFin c || closed c || negb (bool_decide (is_Some (kcp c))) then Ret c
  else if negb lowerEnd then Ret c
  else if bool_decide (pending c <> []) then Ret (fatal ErrUnexpectedEOF c)
  else deliver (c <| lowerEnded := true |>).

(** What a chunk from below holds, into the engine. *)
Definition takeChunk (chunk : list Z) (c : conn) : outcome (bool * conn) :=
  match chunk with
  | [] => Ret (false, c)
  | _ =>
      if packet c then
        '(fed, c) ← inputPacket chunk c; Ret (fed, emit (DownDiscard (length chunk)) c)
      else
        inputStream (emit (DownDiscard (length chunk)) (c <| pending ::= (fun p => p ++ chunk) |>))
  end.

Definition unsent (c : conn) : bool := match kcp c with Some k => (0 <? length (snd_queue k))%nat | None => false end.

(** What a read turn answers: a full flush when data waits for the window.
    Whether the turn goes on. *)
Definition answer (c : conn) : outcome (bool * conn) :=
  if unsent c then
    '(next, c) ← call_kcp Flush c;
    let c := noteHeld (sendBatch true c) in
    Ret (if dead c then (false, fatal ErrDeadLink c) else (true, arm next c))
  else
    '(_, c) ← call_kcp (quiet FlushAckOnly) c;
    Ret (true, arm (Interval (opts c)) (noteHeld (sendBatch true c))).

Definition OnRead (chunk : list Z) (lowerEnd : bool) (c : conn) : outcome conn :=
  let '(now, c) := Now c in
  if closed c || ended c then Ret c
  else
    '(fed, c) ← takeChunk chunk c;
    let c := if (fed : bool) then c <| lastInbound := Some now |> else c in
    if negb (bool_decide (is_Some (kcp c))) || ended c then Ret c
    else
      c ← deliver c;
      '(goes_on, c) ← answer c;
      if negb goes_on || packet c then Ret c else streamLowerEnded lowerEnd c.

Definition OnTimer (c : conn) : outcome conn :=
  let c := c <| armedAt := None |> in
  if closed c || ended c then Ret c
  else if negb (bool_decide (is_Some (kcp c))) then Ret (fatal ErrPeerSilent c)
  else
    c ← maintain c;
    c ← deliver c;
    let '(now, c) := Now c in
    keepAlive now c.

(** ** The writer's calls *)

(** OnWrite's loop: pieces of at most 255 segments. *)
Fixpoint write_pieces (fuel : nat) (rest : list Z) (c : conn) : outcome (bool * conn) :=
  match fuel with
  | O => Panic FuelExhausted
  | S fuel =>
      match rest with
      | [] => Ret (true, c)
      | _ =>
          let most := 255 * cmss c in
          let n := if most <? Z.of_nat (length rest) then Z.to_nat most else length rest in
          '(ret, c) ← call_kcp (Send (take n rest)) c;
          if negb (ret =? 0) then Ret (false, fatal ErrRefusedWrite c) else write_pieces fuel (drop n rest) c
      end
  end.

Definition OnWrite (p : list Z) (c : conn) : outcome (Z * option session_error * conn) :=
  match p with
  | [] => Ret (0, None, c)
  | _ =>
      match kcp c with
      | Some k =>
          if ended c || closed c then Ret (0, Some ErrNetClosed, c)
          else if (SendWindow (opts c) <=? Z.of_nat (WaitSnd k)) || (MaxBuffered (opts c) <? held c + Z.of_nat (length p))
          then Ret (0, Some ErrOutboundOverflow, c)
          else
            '(ok, c) ← write_pieces (S (length p)) p c;
            if (ok : bool) then
              c ← maintain c;
              Ret (if ended c then (0, writeErr c, c) else (Z.of_nat (length p), None, c))
            else Ret (0, writeErr c, c)
      | None => Ret (0, Some ErrNetClosed, c)
      end
  end.

Definition CloseWrite (c : conn) : outcome conn :=
  if ended c || closed c || finQueued c || negb (bool_decide (is_Some (kcp c))) then Ret c
  else
    '(ret, c) ← call_kcp (Send []) (c <| finQueued := true |>);
    if negb (ret =? 0) then Ret c else maintain c.

Definition CloseGracefully (c : conn) : outcome conn :=
  c ← (if negb (ended c) && negb (closed c) && negb (finQueued c) && bool_decide (is_Some (kcp c)) then
         '(ret, c) ← call_kcp (Send []) (c <| finQueued := true |>);
         if ret =? 0 then '(_, c) ← call_kcp Flush c; Ret (sendBatch false c) else Ret c
       else Ret c);
  Ret (c <| ended := true |> <| held := 0 |> <| published := None |>).

Definition OnClose (c : conn) : conn :=
  c <| closed := true |> <| ended := true |> <| kcp := None |> <| pending := [] |> <| outVec := [] |> <| held := 0 |> <| published := None |>.

Definition OutboundHeld (c : conn) : Z := held c.
