(* ===== verification/KcpSession.v ===== *)
(** * ukcp: a session withstands its peer and its user

    Whatever arrives from below and whatever the layers around do, every
    handler of a session returns, the engine keeps within its options, and the
    two errors the code calls impossible never occur. *)

From S2P Require Import Prelude Update Endian GoHeap KcpRing Kcp KcpWire KcpLink KcpReliable KcpBounds KcpOptions KcpConn.
Local Open Scope Z_scope.

(** What the stream dialect lets in. *)
Definition stream_segment (g : segment) : Prop := frg g = 0 /\ Z.of_nat (length (data g)) <= maxSegmentPayload.

Definition limits_of (o : Options) : limits := MkLimits (MTU o) (MTU o) (SendWindow o) (RecvWindow o) stream_segment.

Lemma runnable_limit o : runnable o -> limits_of o <= mtuLimit.
Proof. intros []. cbn. unfold mtuLimit, maxMTU in *. lia. Qed.

(** What the latency settings leave alone. *)
Definition untouched (k : KCP) :=
  (rx_rto k, rmt_wnd k, cwnd k, snd_una k, snd_nxt k, rcv_nxt k, snd_queue k, snd_buf k, rcv_queue k, rcv_buf k, outputs k).

(** The engine a session runs on. *)
Lemma established_sane conv o : runnable o -> sane (limits_of o) (established conv o).
Proof.
  intros [R1 [R2 R3] R4 R5 R6 R7 R8]. unfold established. set (k0 := SetStreamMode true (NewKCP conv)).
  set (k1 := NoDelay _ _ _ _ k0).
  assert (E1 : (untouched k1 = untouched k0) /\ IKCP_RTO_NDL <= rx_minrto k1 <= IKCP_RTO_MAX).
  { unfold k1, NoDelay. repeat case_match; (split; [done|]); cbn; unfold IKCP_RTO_NDL, IKCP_RTO_MIN, IKCP_RTO_MAX; lia. }
  destruct E1 as [E1 Hmr]. unfold untouched in E1. injection E1 as F1 F2 F3 F4 F5 F6 F7 F8 F9 F10 F11. clearbody k1. subst k0. cbn in F1, F2, F3, F4, F5, F6, F7, F8, F9, F10, F11. change maxWindow with 65535 in *. unfold WndSize.
  destruct (Z.ltb_spec 0 (SendWindow o)); [|lia]. destruct (Z.ltb_spec 0 (RecvWindow o)); [|lia].
  assert (W1 : u32 (SendWindow o) = SendWindow o) by (apply wrap_id; unfold is_uint; lia).
  assert (W2 : u32 (RecvWindow o) = RecvWindow o) by (apply wrap_id; unfold is_uint; lia).
  rewrite W1, W2. unfold SetMtu. unfold kcpOverhead, maxMTU in *. destruct (Z.leb_spec (MTU o) IKCP_OVERHEAD); [unfold IKCP_OVERHEAD in *; lia|].
  assert (W3 : u32 (MTU o) = MTU o) by (apply wrap_id; unfold is_uint; lia). rewrite W3. cbn [snd].
  assert (W4 : u32 (MTU o - IKCP_OVERHEAD) = MTU o - IKCP_OVERHEAD) by (apply wrap_id; unfold is_uint, IKCP_OVERHEAD in *; lia). rewrite W4.
  match goal with |- sane _ (SetDeadLink _ ?x) => set (k5 := x) end.
  assert (HS : sane (limits_of o) k5).
  { unfold IKCP_OVERHEAD in *. split; cbn; rewrite ?F1, ?F2, ?F3, ?F4, ?F5, ?F6, ?F7, ?F8, ?F9, ?F10, ?F11; try done; try lia; try (by constructor).
    - unfold IKCP_OVERHEAD. cbn [foldl]. lia.
    - unfold IKCP_WND_RCV. lia.
    - cbn. lia.
    - split; [cbn; lia|]. by split; [constructor|].
    - split; [constructor|done]. }
  unfold SetDeadLink. destruct (0 <? _); [|done]. by apply (sane_core _ k5); [done|apply HS|].
Qed.

(** ** The session's invariant *)

Section Session.
Context (o : Options).
Hypothesis o_runs : runnable o.
Abbreviation L := (limits_of o).

(** What a session may do: datagrams within the MTU, and no impossible error. *)
Definition fair (e : event) : Prop :=
  match e with
  | DownWritev vec => Forall (fun d => Z.of_nat (length d) <= MTU o) vec
  | Abort errMessageTooLarge | Abort ErrRefusedWrite => False
  | _ => True
  end.

Record session_sane (c : conn) : Prop := {
  se_opts : opts c = o;
  se_kcp : forall k, kcp c = Some k -> sane L k /\ cmss c = MTU o - kcpOverhead;
  se_out : Forall (fun d => Z.of_nat (length d) <= MTU o) (outVec c);
  se_pending : Forall is_byte (pending c);
  se_events : Forall fair (events c)
}.

(** What the invariant looks at, the calls made apart. *)
Definition surface (c : conn) := (opts c, kcp c, cmss c, outVec c, pending c).

(** Same surface, and only fair calls made meanwhile. *)
Definition glides (c c' : conn) : Prop := surface c' = surface c /\ (Forall fair (events c) -> Forall fair (events c')).

#[local] Instance glides_preorder : PreOrder glides.
Proof. split; [by split|]. intros a b c [A1 A2] [B1 B2]. split; [congruence|auto]. Qed.

Lemma sane_glides c c' : session_sane c -> glides c c' -> session_sane c'.
Proof. intros [S1 S2 S3 S4 S5] [E HF]. unfold surface in E. injection E as E1 E2 E3 E4 E5. split; rewrite ?E1, ?E2, ?E3, ?E4, ?E5; auto. Qed.

Lemma emit_glides e c : fair e -> glides c (emit e c).
Proof. intros He. split; [done|]. cbn. intros H. apply Forall_app. by repeat constructor. Qed.

Lemma setTimer_glides t c : glides c (setTimer t c).
Proof. unfold setTimer. split; [by case_match|]. intros H. assert (X : Forall fair (events c ++ [SetTimer t])) by (apply Forall_app; by repeat constructor). by case_match. Qed.

Lemma armFor_glides t c : glides c (armFor t c).
Proof. unfold armFor. repeat case_match; (done || apply setTimer_glides). Qed.

Lemma arm_glides next c : glides c (arm next c).
Proof.
  unfold arm. destruct (kcp c) as [k|]; [|done]. destruct (closed c || ended c); [done|].
  set (x := if (0 <? WaitSnd k)%nat then _ else _). assert (Hx : glides c x.2) by (subst x; by case_match). destruct x as [d c1]. cbn [snd] in Hx.
  etrans; [exact Hx|]. repeat case_match; (done || apply armFor_glides).
Qed.

Lemma publishState_glides c : glides c (publishState c).
Proof. unfold publishState. by repeat case_match. Qed.

Lemma noteHeld_glides c : glides c (noteHeld c).
Proof. unfold noteHeld. destruct (kcp c); [|done]. destruct (ended c); [done|]. etrans; [|apply publishState_glides]. done. Qed.

Lemma fatal_glides e c : fair (Abort e) -> glides c (fatal e c).
Proof. intros He. unfold fatal. destruct (writeErr c); (etrans; [|by apply emit_glides]); done. Qed.

Lemma endLower_glides c : glides c (endLower c).
Proof. unfold endLower. destruct (_ || _); [done|]. etrans; [|by apply emit_glides]. done. Qed.

Lemma sendBatch_sane hold c : session_sane c -> session_sane (sendBatch hold c).
Proof.
  intros HS. unfold sendBatch. destruct (outVec c) as [|d v] eqn:Ev; [done|]. destruct (_ && _).
  - destruct (Now c) as [now c1] eqn:En. assert (G : glides c c1) by (unfold Now in En; by injection En as _ <-).
    eapply sane_glides; [exact HS|]. etrans; [exact G|apply armFor_glides].
  - destruct (Writev (d :: v) c) as [err c1] eqn:Ew. unfold Writev in Ew. injection Ew as <- <-.
    set (c2 := releaseStaging _). assert (H2 : session_sane c2).
    { destruct HS as [S1 S2 S3 S4 S5]. rewrite Ev in S3. split; [done..|constructor|done|]. cbn. apply Forall_app. split; [done|]. constructor; [exact S3|constructor]. }
    destruct (written c !! 0%nat) as [[e|]|] eqn:E0; cbn [from_option id]; [|done..].
    destruct (_ && _); [done|]. eapply sane_glides; [exact H2|]. by apply fatal_glides.
Qed.
(** ** Calls into the engine *)

Lemma call_kcp_sane {A} (f : KCP -> outcome (A * KCP)) c : session_sane c -> is_Some (kcp c) ->
  (forall k, sane L k -> exists a k', f k = Ret (a, k') /\ sane L k') ->
  exists k a k', kcp c = Some k /\ sane L k /\ f (k <| clock := msnows c |>) = Ret (a, k') /\ call_kcp f c = Ret (a, staging k k' c) /\ session_sane (staging k k' c).
Proof.
  intros HS [k Ek] Hf. destruct (se_kcp _ HS k Ek) as [HK Em].
  assert (HK' : sane L (k <| clock := msnows c |>)) by (apply (sane_core L k); [done|apply HK|done]).
  destruct (Hf _ HK') as (a & k' & E & H'). exists k, a, k'. unfold call_kcp. rewrite Ek, E. repeat (split; [done|]).
  destruct HS as [S1 S2 S3 S4 S5].
  assert (HB : session_sane (c <| kcp := Some k' |> <| msnows := clock k' |>)) by (split; try done; cbn; intros x [= <-]; done).
  unfold staging. destruct (_ || _); [done|]. destruct HB. split; try done. cbn. apply Forall_app. split; [done|]. apply Forall_drop, H'.
Qed.

Lemma kcp_staging k k' c : kcp (staging k k' c) = Some k'.
Proof. unfold staging. by destruct (_ || _). Qed.

Lemma Flush_sane k : sane L k -> exists a k', Flush k = Ret (a, k') /\ sane L k'.
Proof. intros H. unfold Flush. destruct (flush_sane L IKCP_FLUSH_FULL k H) as (nu & k' & -> & H'). by eexists _, _. Qed.

Lemma FlushAckOnly_sane k : sane L k -> exists a k', quiet FlushAckOnly k = Ret (a, k') /\ sane L k'.
Proof. intros H. unfold quiet, FlushAckOnly. destruct (flush_sane L IKCP_FLUSH_ACKONLY k H) as (nu & k' & -> & H'). by eexists _, _. Qed.

Lemma AskWindow_sane k : sane L k -> exists a k', quiet (fun k => Ret (AskWindow k)) k = Ret (a, k') /\ sane L k'.
Proof. intros H. eexists _, _. split; [reflexivity|]. by apply (sane_core L k); [done|apply H|]. Qed.

(** ** Flushing *)

Lemma maintain_sane c : session_sane c -> is_Some (kcp c) -> exists c', maintain c = Ret c' /\ session_sane c'.
Proof.
  intros HS Hk. unfold maintain. destruct (call_kcp_sane Flush c HS Hk Flush_sane) as (k & a & k' & _ & _ & _ & -> & H1). cbn [mbind outcome_bind].
  eexists. split; [reflexivity|]. assert (H2 : session_sane (noteHeld (sendBatch false (staging k k' c)))) by (eapply sane_glides; [by apply sendBatch_sane|apply noteHeld_glides]).
  destruct (dead _); eapply sane_glides; [exact H2|by apply fatal_glides|exact H2|apply arm_glides].
Qed.

Lemma answer_sane c : session_sane c -> is_Some (kcp c) -> exists b c', answer c = Ret (b, c') /\ session_sane c'.
Proof.
  intros HS Hk. unfold answer. destruct (unsent c).
  - destruct (call_kcp_sane Flush c HS Hk Flush_sane) as (k & a & k' & _ & _ & _ & -> & H1). cbn [mbind outcome_bind].
    assert (H2 : session_sane (noteHeld (sendBatch true (staging k k' c)))) by (eapply sane_glides; [by apply sendBatch_sane|apply noteHeld_glides]).
    destruct (dead _); (eexists _, _; split; [reflexivity|]); eapply sane_glides; [exact H2|by apply fatal_glides|exact H2|apply arm_glides].
  - destruct (call_kcp_sane (quiet FlushAckOnly) c HS Hk FlushAckOnly_sane) as (k & a & k' & _ & _ & _ & -> & H1). cbn [mbind outcome_bind].
    eexists _, _. split; [reflexivity|]. eapply sane_glides; [by apply sendBatch_sane|]. etrans; [apply noteHeld_glides|apply arm_glides].
Qed.

Lemma probe_peer_sane c : session_sane c -> is_Some (kcp c) -> exists c', probe_peer c = Ret c' /\ session_sane c'.
Proof.
  intros HS Hk. unfold probe_peer. destruct (call_kcp_sane _ c HS Hk AskWindow_sane) as (k & a & k' & _ & _ & _ & -> & H1). cbn [mbind outcome_bind].
  destruct (call_kcp_sane _ _ H1 (ex_intro _ _ (kcp_staging _ _ _)) FlushAckOnly_sane) as (k2 & a2 & k2' & _ & _ & _ & -> & H2). cbn [mbind outcome_bind].
  eexists. split; [reflexivity|]. by apply sendBatch_sane.
Qed.

Lemma keepAlive_sane now c : session_sane c -> exists c', keepAlive now c = Ret c' /\ session_sane c'.
Proof.
  intros HS. unfold keepAlive. case_bool_decide as Hk; cbn [negb orb]; [|rewrite orb_true_r; by eexists]. rewrite orb_false_r.
  destruct (_ || _); [by eexists|]. destruct (_ <=? _); [eexists; split; [reflexivity|]; eapply sane_glides; [exact HS|by apply fatal_glides]|].
  destruct (_ && _); [|by eexists]. apply probe_peer_sane; [|done]. by apply (sane_glides c).
Qed.

(** ** Delivering *)

Lemma move_ready_count fuel : forall k k', move_ready fuel k = Ret k' ->
  (length (rcv_queue k') + length (segments (rcv_buf k')) = length (rcv_queue k) + length (segments (rcv_buf k)))%nat.
Proof.
  induction fuel as [|fuel IH]; intros k k' H; cbn [move_ready] in H; [done|].
  destruct (segments (rcv_buf k)) as [|g0 l0] eqn:Es; [injection H as <-; by rewrite Es|].
  destruct (heapPop_perm (rcv_buf k)) as (g & h & Ep & Hp & _); [by rewrite Es|]. rewrite Ep in H. rewrite Es in Hp.
  apply Permutation_length in Hp. cbn [length] in *. destruct (_ && _).
  - apply IH in H. cbn in H. rewrite length_app in H. cbn in H. lia.
  - injection H as <-. cbn. destruct (heapPush_perm g h) as [Hq _]. apply Permutation_length in Hq. cbn in *. lia.
Qed.

Lemma merge_nonempty g q room got got' q' : merge room (g :: q) got = Ret (got', q') -> (length q' < length (g :: q))%nat.
Proof.
  intros H. cbn [merge] in H. destruct (_ <? _)%nat; [done|]. destruct (frg g =? 0); [injection H as <- <-; cbn; lia|].
  apply merge_takes in H as (t & -> & _). cbn. rewrite length_app. lia.
Qed.

Lemma Recv_stream k : sane L k -> exists n p k', recv k = Ret (n, p, k') /\ sane L k' /\ n <> -2 /\
  (0 <= n -> (length (rcv_queue k') + length (segments (rcv_buf k')) < length (rcv_queue k) + length (segments (rcv_buf k)))%nat).
Proof.
  intros HS. destruct (Recv_sane L (Z.to_nat maxSegmentPayload) k HS) as (n & p & k' & E & H'). exists n, p, k'. unfold recv. split; [done|]. split; [done|].
  unfold Recv in E. destruct (Z.ltb_spec (PeekSize k) 0) as [|Hp]; [injection E as <- <- <-; lia|].
  destruct (rcv_queue k) as [|g q] eqn:Eq; [unfold PeekSize in Hp; rewrite Eq in Hp; lia|].
  assert (Hg : PeekSize k <= maxSegmentPayload).
  { pose proof (sa_rcv _ _ HS) as (_ & HF & _). rewrite Eq in HF. inversion HF as [|? ? [G1 G2] _]; subst. unfold PeekSize. by rewrite Eq, G1. }
  destruct (Z.ltb_spec (Z.of_nat (Z.to_nat maxSegmentPayload)) (PeekSize k)) as [X|_]; [unfold maxSegmentPayload, maxMTU, kcpOverhead in *; lia|].
  apply outcome_bind_Ret in E as ([got1 q1] & HM & E). apply merge_nonempty in HM.
  apply outcome_bind_Ret in E as (k2 & HX & E). unfold move_available in HX. apply move_ready_count in HX. cbn in HX.
  destruct (_ && _); injection E as <- <- <-; (split; [lia|]); intros _; cbn in *; lia.
Qed.

Lemma deliver_loop_sane fuel : forall c, session_sane c -> is_Some (kcp c) -> (waiting c < fuel)%nat -> exists c', deliver_loop fuel c = Ret c' /\ session_sane c'.
Proof.
  induction fuel as [|fuel IH]; intros c HS Hk Hw; [lia|]. cbn [deliver_loop]. destruct (Buffered c) as [b c1] eqn:Eb.
  assert (G : glides c c1) by (unfold Buffered in Eb; by injection Eb as _ <-). assert (H1 : session_sane c1) by (by eapply sane_glides).
  assert (Ek : kcp c1 = kcp c) by (unfold Buffered in Eb; by injection Eb as _ <-).
  destruct (_ <=? b); [eexists; split; [reflexivity|]; eapply sane_glides; [exact H1|by apply emit_glides]|].
  assert (Hk1 : is_Some (kcp c1)) by (by rewrite Ek).
  destruct (call_kcp_sane recv c1 H1 Hk1) as (k & [n p] & k' & Ek1 & HK & Er & -> & H2).
  { intros k HK. destruct (Recv_stream k HK) as (n & p & k' & E & H' & _). by exists (n, p), k'. }
  destruct (Recv_stream (k <| clock := msnows c1 |>)) as (n' & p' & k'' & Er' & _ & Hn & Hd); [by apply (sane_core L k); [done|apply HK|]|].
  rewrite Er in Er'. injection Er' as <- <- <-. cbn [mbind outcome_bind].
  destruct (Z.eqb_spec n (-2)); [done|].
  destruct (Z.ltb_spec n 0); [eexists; split; [reflexivity|]; eapply sane_glides; [exact H2|apply endLower_glides]|].
  destruct (n =? 0).
  { eexists. split; [reflexivity|]. eapply sane_glides; [exact H2|]. etrans; [|by apply emit_glides]. done. }
  apply IH; [eapply sane_glides; [exact H2|by apply emit_glides]|cbn; rewrite kcp_staging; by eexists|].
  unfold waiting in *. cbn. rewrite kcp_staging. rewrite <- Ek, Ek1 in Hw. specialize (Hd ltac:(lia)). cbn in Hd. lia.
Qed.

Lemma deliver_sane c : session_sane c -> exists c', deliver c = Ret c' /\ session_sane c'.
Proof.
  intros HS. unfold deliver. case_bool_decide as Hk; cbn [negb]; [|rewrite orb_true_r; by eexists]. rewrite orb_false_r.
  destruct (_ || _); [by eexists|]. apply deliver_loop_sane; [done|done|lia].
Qed.

(** ** Reading from below *)

Lemma bytes_at_take off n m l : (off + n <= m)%nat -> bytes_at off n (take m l) = bytes_at off n l.
Proof. intros H. unfold bytes_at. f_equal. rewrite skipn_firstn_comm, take_take. f_equal. lia. Qed.

(** A whole segment: what a header announced, cut out. *)
Definition whole (seg : list Z) : Prop :=
  Forall is_byte seg /\ 0 <= bytes_at 20 4 seg <= maxSegmentPayload /\ Z.of_nat (length seg) = kcpOverhead + bytes_at 20 4 seg.

Lemma cut_whole rest len : Forall is_byte rest -> segmentLength rest = Some len -> kcpOverhead + len <= Z.of_nat (length rest) ->
  whole (take (Z.to_nat (kcpOverhead + len)) rest) /\ 0 <= len.
Proof.
  intros HB Hs Hl. unfold segmentLength in Hs. destruct (_ <? kcpOverhead); [done|]. destruct (Z.ltb_spec maxSegmentPayload (bytes_at 20 4 rest)) as [|X]; [done|].
  injection Hs as <-. destruct (bytes_at_uint 20 4 rest HB) as [Y _]. unfold kcpOverhead in *. split; [|done].
  split; [by apply Forall_take|]. rewrite bytes_at_take by lia. split; [done|]. rewrite length_take. unfold kcpOverhead. lia.
Qed.

Lemma whole_announces seg : whole seg -> bytes_at 5 1 seg = 0 -> Forall (fun g => storable g /\ stream_segment g) (announced (S (length seg)) seg).
Proof.
  intros (HB & Hl & Hn) Hf. cbn [announced]. unfold kcpOverhead in *. destruct (Z.ltb_spec (Z.of_nat (length seg)) IKCP_OVERHEAD) as [|X]; [constructor|].
  cbn [decode]. destruct (Z.ltb_spec (Z.of_nat (length (drop 24 seg))) (bytes_at 20 4 seg)) as [|Y]; [constructor|].
  assert (Ed : drop (Z.to_nat (bytes_at 20 4 seg)) (drop 24 seg) = []) by (apply nil_length_inv; rewrite !length_drop; lia).
  rewrite Ed. constructor.
  - unfold storable, stream_segment. cbn [data frg over data_field sconv_field cmd_field frg_field wnd_field ts_field sn_field una_field].
    rewrite length_take, length_drop. unfold mtuLimit, maxSegmentPayload, maxMTU, kcpOverhead in *. split; [lia|]. split; [exact Hf|lia].
  - destruct (length seg); cbn; constructor.
Qed.

Lemma establish_sane conv c : session_sane c -> session_sane (establish conv c) /\ is_Some (kcp (establish conv c)).
Proof.
  intros HS. unfold establish. set (c1 := ((c <| kcp := _ |>) <| cconv := conv |>) <| cmss := _ |>).
  assert (H1 : session_sane c1).
  { destruct HS as [S1 S2 S3 S4 S5]. split; try done. cbn. intros k [= <-]. rewrite S1. split; [by apply established_sane|done]. }
  set (c2 := (Now c1).2 <| lastInbound := Some (Now c1).1 |>). change (let '(now, c) := Now c1 in arm 0 (publishState (c <| lastInbound := Some now |>))) with (arm 0 (publishState c2)).
  assert (G : glides c1 (arm 0 (publishState c2))) by (etrans; [|etrans; [apply publishState_glides|apply arm_glides]]; done).
  split; [by apply (sane_glides c1)|]. destruct G as [E _]. unfold surface in E. injection E as _ E _ _ _. rewrite E. by eexists.
Qed.

Lemma feed_sane seg c : session_sane c -> whole seg -> exists b c', feed seg c = Ret (b, c') /\ session_sane c'.
Proof.
  intros HS HW. unfold feed. destruct (Z.eqb_spec (bytes_at 5 1 seg) 0) as [Hf|Hf]; cbn [negb].
  2: { eexists _, _. split; [reflexivity|]. destruct (_ || _); [|done]. eapply sane_glides; [exact HS|by apply fatal_glides]. }
  set (founds := negb _). destruct (founds && _); [by eexists _, _|].
  set (c1 := if founds then _ else c).
  assert (H1 : session_sane c1 /\ is_Some (kcp c1)).
  { subst c1 founds. case_bool_decide as Hk; cbn [negb]; [done|]. destruct (establish_sane (bytes_at 0 4 seg) c HS) as [A B].
    split; [|done]. eapply sane_glides; [exact A|by apply emit_glides]. }
  destruct H1 as [H1 Hk1]. assert (H1' : session_sane (emit (KcpInput seg) c1)) by (eapply sane_glides; [exact H1|by apply emit_glides]).
  destruct (call_kcp_sane (Input seg IKCP_PACKET_REGULAR true) (emit (KcpInput seg) c1) H1' Hk1) as (k & r & k' & _ & _ & _ & -> & H2).
  { intros k HK. apply (Input_sane L); [done|apply HW|by apply whole_announces]. }
  cbn [mbind outcome_bind]. by eexists _, _.
Qed.

Lemma input_packet_sane fuel : forall rest fed c, session_sane c -> Forall is_byte rest -> (length rest < fuel)%nat ->
  exists b c', input_packet fuel rest fed c = Ret (b, c') /\ session_sane c'.
Proof.
  induction fuel as [|fuel IH]; intros rest fed c HS HB Hf; [lia|]. cbn [input_packet]. destruct rest as [|x r]; [by eexists _, _|].
  set (rest := x :: r) in *. assert (Hr : (0 < length rest)%nat) by (subst rest; cbn; lia). clearbody rest.
  destruct (segmentLength rest) as [len|] eqn:Es; [|by eexists _, _].
  destruct (Z.ltb_spec (Z.of_nat (length rest)) (kcpOverhead + len)) as [|X]; [by eexists _, _|].
  destruct (cut_whole rest len HB Es X) as [HW Hlen]. destruct (feed_sane _ c HS HW) as (b & c1 & -> & H1). cbn [mbind outcome_bind].
  apply IH; [done|by apply Forall_drop|]. rewrite length_drop. unfold kcpOverhead in *. lia.
Qed.

Lemma input_stream_sane fuel : forall rest fed c, session_sane c -> Forall is_byte rest -> (length rest < fuel)%nat ->
  exists b l c', input_stream fuel rest fed c = Ret (b, l, c') /\ session_sane c' /\ Forall is_byte l.
Proof.
  induction fuel as [|fuel IH]; intros rest fed c HS HB Hf; [lia|]. cbn [input_stream]. destruct (Z.ltb_spec (Z.of_nat (length rest)) kcpOverhead) as [|Y]; [by eexists _, _, _|].
  destruct (segmentLength rest) as [len|] eqn:Es; [|eexists _, _, _; split; [reflexivity|]; split; [eapply sane_glides; [exact HS|by apply fatal_glides]|done]].
  destruct (Z.ltb_spec (Z.of_nat (length rest)) (kcpOverhead + len)) as [|X]; [by eexists _, _, _|].
  destruct (cut_whole rest len HB Es X) as [HW Hlen]. destruct (feed_sane _ c HS HW) as (b & c1 & -> & H1). cbn [mbind outcome_bind].
  apply IH; [done|by apply Forall_drop|]. rewrite length_drop. unfold kcpOverhead in *. lia.
Qed.

Lemma takeChunk_sane chunk c : session_sane c -> Forall is_byte chunk -> exists b c', takeChunk chunk c = Ret (b, c') /\ session_sane c'.
Proof.
  intros HS HB. unfold takeChunk. destruct chunk as [|x r]; [by eexists _, _|]. set (chunk := x :: r) in *. clearbody chunk. destruct (packet c).
  - unfold inputPacket. destruct (input_packet_sane (S (length chunk)) chunk false c HS HB ltac:(lia)) as (b & c1 & -> & H1). cbn [mbind outcome_bind].
    eexists _, _. split; [reflexivity|]. eapply sane_glides; [exact H1|by apply emit_glides].
  - set (c1 := emit _ _). assert (H1 : session_sane c1).
    { unfold c1. eapply sane_glides; [|by apply emit_glides]. destruct HS as [S1 S2 S3 S4 S5]. split; try done. cbn. by apply Forall_app. }
    unfold inputStream. destruct (input_stream_sane (S (length (pending c1))) (pending c1) false c1 H1 (se_pending _ H1) ltac:(lia)) as (b & l & c2 & -> & H2 & Hl).
    cbn [mbind outcome_bind]. eexists _, _. split; [reflexivity|]. destruct H2 as [S1 S2 S3 S4 S5]. by split.
Qed.

Lemma streamLowerEnded_sane e c : session_sane c -> exists c', streamLowerEnded e c = Ret c' /\ session_sane c'.
Proof.
  intros HS. unfold streamLowerEnded. destruct (_ || _); [by eexists|]. destruct (negb e); [by eexists|]. case_bool_decide.
  - eexists. split; [reflexivity|]. eapply sane_glides; [exact HS|by apply fatal_glides].
  - apply deliver_sane. by apply (sane_glides c).
Qed.

(** Delivering leaves the engine in place. *)
Lemma staging_kcp_some {A} (f : KCP -> outcome (A * KCP)) c a c' : call_kcp f c = Ret (a, c') -> is_Some (kcp c').
Proof.
  unfold call_kcp. destruct (kcp c) as [k|]; [|done]. intros H. apply outcome_bind_Ret in H as ([a1 k1] & _ & H). injection H as _ <-.
  rewrite kcp_staging. by eexists.
Qed.

Lemma deliver_loop_kcp fuel : forall c c', deliver_loop fuel c = Ret c' -> is_Some (kcp c) -> is_Some (kcp c').
Proof.
  induction fuel as [|fuel IH]; intros c c' H Hk; cbn [deliver_loop] in H; [done|]. destruct (Buffered c) as [b c1] eqn:Eb.
  assert (Hk1 : is_Some (kcp c1)) by (unfold Buffered in Eb; by injection Eb as _ <-).
  destruct (_ <=? b); [by injection H as <-|]. apply outcome_bind_Ret in H as ([[n p] c2] & H2 & H). apply staging_kcp_some in H2.
  destruct (n =? -2); [injection H as <-; unfold fatal; by destruct (writeErr c2)|]. destruct (n <? 0); [injection H as <-; unfold endLower; by destruct (_ || _)|].
  destruct (n =? 0); [by injection H as <-|]. by eapply IH.
Qed.

Lemma deliver_kcp c c' : deliver c = Ret c' -> is_Some (kcp c) -> is_Some (kcp c').
Proof. unfold deliver. destruct (_ || _); [by intros [= <-]|apply deliver_loop_kcp]. Qed.

(** ** The handlers *)

Lemma OnRead_sane chunk e c : session_sane c -> Forall is_byte chunk -> exists c', OnRead chunk e c = Ret c' /\ session_sane c'.
Proof.
  intros HS HB. unfold OnRead. destruct (Now c) as [now c1] eqn:En.
  assert (H1 : session_sane c1) by (apply (sane_glides c); [done|]; unfold Now in En; by injection En as _ <-).
  destruct (_ || _); [by eexists|]. destruct (takeChunk_sane chunk c1 H1 HB) as (fed & c2 & -> & H2). cbn [mbind outcome_bind].
  set (c3 := if fed then _ else c2). assert (H3 : session_sane c3) by (subst c3; destruct fed; [by apply (sane_glides c2)|done]).
  case_bool_decide as Hk; cbn [negb orb]; [|by eexists]. destruct (ended c3); [by eexists|].
  destruct (deliver_sane c3 H3) as (c4 & E4 & H4). pose proof (deliver_kcp _ _ E4 Hk) as Hk4. rewrite E4. cbn [mbind outcome_bind].
  destruct (answer_sane c4 H4 Hk4) as (b & c5 & -> & H5). cbn [mbind outcome_bind]. destruct (_ || _); [by eexists|]. by apply streamLowerEnded_sane.
Qed.

Lemma OnTimer_sane c : session_sane c -> exists c', OnTimer c = Ret c' /\ session_sane c'.
Proof.
  intros HS. unfold OnTimer. set (c0 := c <| armedAt := None |>). assert (H0 : session_sane c0) by (by apply (sane_glides c)).
  destruct (_ || _); [by eexists|]. case_bool_decide as Hk; cbn [negb]; [|eexists; split; [reflexivity|]; eapply sane_glides; [exact H0|by apply fatal_glides]].
  destruct (maintain_sane c0 H0 Hk) as (c1 & -> & H1). cbn [mbind outcome_bind]. destruct (deliver_sane c1 H1) as (c2 & -> & H2). cbn [mbind outcome_bind].
  destruct (Now c2) as [now c3] eqn:En. apply keepAlive_sane. apply (sane_glides c2); [done|]. unfold Now in En. by injection En as _ <-.
Qed.

Lemma Send_whole buf k : sane L k -> Z.of_nat (length buf) <= 255 * (MTU o - kcpOverhead) -> exists r k', Send buf k = Ret (r, k') /\ sane L k' /\ (buf <> [] -> r = 0).
Proof.
  intros HK Hl. pose proof (sa_mtu _ _ HK) as (M1 & M2 & _). pose proof (sa_set _ _ HK) as (_ & _ & M3). cbn in M1, M3.
  destruct (Send_sane L (runnable_limit o o_runs) buf k HK) as (r & k' & E & H'). exists r, k'. split; [done|]. split; [done|]. intros Hne.
  unfold kcpOverhead, IKCP_OVERHEAD in *. apply Send_takes in E as [->|[-> _]]; [done|done|lia|]. rewrite M2. unfold IKCP_OVERHEAD. lia.
Qed.

Lemma write_pieces_sane fuel : forall rest c, session_sane c -> is_Some (kcp c) -> (length rest < fuel)%nat ->
  exists c', write_pieces fuel rest c = Ret (true, c') /\ session_sane c' /\ is_Some (kcp c').
Proof.
  induction fuel as [|fuel IH]; intros rest c HS Hk Hf; [lia|]. cbn [write_pieces]. destruct rest as [|x r]; [by eexists|].
  set (rest := x :: r) in *. assert (Hr : (0 < length rest)%nat) by (subst rest; cbn; lia). clearbody rest.
  destruct Hk as [k0 Ek]. destruct (se_kcp _ HS k0 Ek) as [_ Em]. rewrite Em. pose proof (run_mtu _ o_runs) as Hmtu. unfold kcpOverhead in Hmtu.
  set (n := if _ <? _ then _ else _).
  assert (Hn : (0 < n <= length rest)%nat /\ Z.of_nat n <= 255 * (MTU o - kcpOverhead)).
  { subst n. unfold kcpOverhead. destruct (Z.ltb_spec (255 * (MTU o - 24)) (Z.of_nat (length rest))); lia. }
  assert (Hl : length (take n rest) = n) by (rewrite length_take; lia).
  destruct (call_kcp_sane (Send (take n rest)) c HS (ex_intro _ k0 Ek)) as (k & a & k' & Ek1 & HK & Ea & -> & H1).
  { intros k HK. destruct (Send_whole (take n rest) k HK) as (r1 & k1 & E & H' & _); [lia|]. by eexists _, _. }
  destruct (Send_whole (take n rest) (k <| clock := msnows c |>)) as (r1 & k1 & E & _ & H0); [by apply (sane_core L k); [done|apply HK|]|lia|].
  rewrite E in Ea. injection Ea as <- <-. rewrite H0 by (intros X; apply (f_equal length) in X; cbn in X; lia). cbn [mbind outcome_bind negb Z.eqb].
  apply IH; [done|rewrite kcp_staging; by eexists|]. rewrite length_drop. lia.
Qed.

Lemma OnWrite_sane p c : session_sane c -> exists r c', OnWrite p c = Ret (r, c') /\ session_sane c'.
Proof.
  intros HS. unfold OnWrite. destruct p as [|x r]; [by eexists (_, _), _|]. set (p := x :: r). clearbody p.
  destruct (kcp c) as [k|] eqn:Ek; [|by eexists (_, _), _]. destruct (_ || _); [by eexists (_, _), _|]. destruct (_ || _); [by eexists (_, _), _|].
  destruct (write_pieces_sane (S (length p)) p c HS) as (c1 & -> & H1 & Hk1); [by rewrite Ek; eexists|lia|]. cbn [mbind outcome_bind].
  destruct (maintain_sane c1 H1 Hk1) as (c2 & -> & H2). cbn [mbind outcome_bind]. destruct (ended c2); by eexists (_, _), _.
Qed.

Lemma Send_end k : sane L k -> exists r k', Send [] k = Ret (r, k') /\ sane L k'.
Proof. apply (Send_sane L (runnable_limit o o_runs)). Qed.

Lemma CloseWrite_sane c : session_sane c -> exists c', CloseWrite c = Ret c' /\ session_sane c'.
Proof.
  intros HS. unfold CloseWrite. case_bool_decide as Hk; cbn [negb]; [|rewrite orb_true_r; by eexists]. rewrite orb_false_r. destruct (_ || _); [by eexists|].
  assert (H0 : session_sane (c <| finQueued := true |>)) by (by apply (sane_glides c)).
  destruct (call_kcp_sane (Send []) _ H0 Hk Send_end) as (k & a & k' & _ & _ & _ & -> & H1). cbn [mbind outcome_bind].
  destruct (negb _); [by eexists|]. apply maintain_sane; [done|]. rewrite kcp_staging. by eexists.
Qed.

Lemma CloseGracefully_sane c : session_sane c -> exists c', CloseGracefully c = Ret c' /\ session_sane c'.
Proof.
  intros HS. unfold CloseGracefully.
  assert (HE : forall c1, session_sane c1 -> session_sane (c1 <| ended := true |> <| held := 0 |> <| published := None |>)) by (intros c1 H1; by apply (sane_glides c1)).
  case_bool_decide as Hk; [|rewrite andb_false_r; eexists; split; [reflexivity|by apply HE]]. rewrite andb_true_r.
  destruct (_ && _); [|eexists; split; [reflexivity|by apply HE]].
  assert (H0 : session_sane (c <| finQueued := true |>)) by (by apply (sane_glides c)).
  destruct (call_kcp_sane (Send []) _ H0 Hk Send_end) as (k & a & k' & _ & _ & _ & -> & H1). cbn [mbind outcome_bind].
  destruct (a =? 0); [|eexists; split; [reflexivity|by apply HE]].
  destruct (call_kcp_sane Flush _ H1 (ex_intro _ _ (kcp_staging _ _ _)) Flush_sane) as (k2 & a2 & k2' & _ & _ & _ & -> & H2). cbn [mbind outcome_bind].
  eexists. split; [reflexivity|]. by apply HE, sendBatch_sane.
Qed.

Lemma OnClose_sane c : session_sane c -> session_sane (OnClose c).
Proof. intros [S1 S2 S3 S4 S5]. split; try done; constructor. Qed.

Lemma OnOpen_sane packetDown readSize seed c : session_sane c -> session_sane (OnOpen packetDown readSize seed c).
Proof.
  intros HS. unfold OnOpen. destruct (layer_err c); [eapply sane_glides; [exact HS|]; etrans; [|by apply emit_glides]; done|].
  set (c1 := c <| packet := packetDown |>). assert (H1 : session_sane c1) by (by apply (sane_glides c)).
  destruct (_ && _); [eapply sane_glides; [exact H1|]; etrans; [|by apply emit_glides]; done|].
  destruct (negb (client c1)).
  - destruct (0 <? _); [|done]. destruct (Now c1) as [now c2] eqn:En. eapply sane_glides; [exact H1|]. etrans; [|apply armFor_glides]. unfold Now in En. by injection En as _ <-.
  - destruct seed as [seed|]; [|eapply sane_glides; [exact H1|]; etrans; [|by apply emit_glides]; done].
    eapply sane_glides; [by apply establish_sane|by apply emit_glides].
Qed.
End Session.

(** ** Any run of a session *)

(** The calls the framework makes on a session, and fresh answers for it. *)
Inductive call : Type :=
| CRead (chunk : list Z) (lowerEnd : bool) | CTimer | CWrite (p : list Z)
| CCloseWrite | CCloseGracefully | CClose
| CSupply (ns ms bl : list Z) (ws : list (option lower_error)) (ts : list bool).

Definition supply (ns ms bl : list Z) (ws : list (option lower_error)) (ts : list bool) (c : conn) : conn :=
  c <| nows := ns |> <| msnows := ms |> <| backlog := bl |> <| written := ws |> <| timers := ts |>.

Definition handle (h : call) (c : conn) : outcome conn :=
  match h with
  | CRead chunk e => OnRead chunk e c
  | CTimer => OnTimer c
  | CWrite p => '(_, c) ← OnWrite p c; Ret c
  | CCloseWrite => CloseWrite c
  | CCloseGracefully => CloseGracefully c
  | CClose => Ret (OnClose c)
  | CSupply ns ms bl ws ts => Ret (supply ns ms bl ws ts c)
  end.

Definition legal (h : call) : Prop := match h with CRead chunk _ => Forall is_byte chunk | _ => True end.

Definition session_step (c c' : conn) : Prop := exists h, legal h /\ handle h c = Ret c'.

Lemma handle_sane o h c : runnable o -> session_sane o c -> legal h -> exists c', handle h c = Ret c' /\ session_sane o c'.
Proof.
  intros Ho HS HL. destruct h; cbn [handle legal] in *.
  - by apply OnRead_sane.
  - by apply OnTimer_sane.
  - destruct (OnWrite_sane o Ho p c HS) as (r & c' & -> & H). by eexists.
  - by apply CloseWrite_sane.
  - by apply CloseGracefully_sane.
  - eexists. split; [reflexivity|]. by apply OnClose_sane.
  - eexists. split; [reflexivity|]. by apply (sane_glides o c).
Qed.

(** A session from the moment it opened. *)
Definition opened (r : Options) (client packetDown : bool) (readSize : option Z) (seed : option (list Z)) : conn :=
  OnOpen packetDown readSize seed (newResolvedLayer r client).

Lemma run_sane o r client pd rs seed c : resolve o = inl r -> rtc session_step (opened r client pd rs seed) c -> session_sane r c.
Proof.
  intros Hr H. apply resolve_runnable in Hr. apply (rtc_ind_r (fun c => session_sane r c) (opened r client pd rs seed)) in H; [done|..].
  - apply OnOpen_sane; [done|]. split; try done; constructor.
  - intros x y _ (h & HL & HP) HS. destruct (handle_sane r h x Hr HS HL) as (c' & E & H'). rewrite E in HP. by injection HP as <-.
Qed.

(** C6. No peer, user or network breaks a session.  With any options resolve
    accepts, from its opening on, whatever bytes arrive over a packet or a
    stream connection, whatever the layer above writes and however the layers
    around answer: every handler returns (no panic, no endless loop), the
    engine's queues stay within RecvWindow and SendWindow, every datagram
    handed below is within MTU, and the session never ends with the two errors
    its code calls impossible: a message its scratch cannot hold, or a write
    the engine refuses. *)
Theorem session_withstands o r client pd rs seed c h : resolve o = inl r -> rtc session_step (opened r client pd rs seed) c -> legal h ->
  exists c', handle h c = Ret c' /\ (forall k, kcp c' = Some k -> bounded (limits_of r) k) /\ Forall (fair r) (events c').
Proof.
  intros Hr H HL. pose proof (run_sane _ _ _ _ _ _ _ Hr H) as HS. apply resolve_runnable in Hr as Hrun.
  destruct (handle_sane r h c Hrun HS HL) as (c' & E & H'). exists c'. split; [done|]. split; [|apply H'].
  intros k Ek. apply sane_bounded. apply (se_kcp _ _ H' k Ek).
Qed.

(** A server whose first datagram founds a session and pushes two bytes. *)
Definition first_datagram : list Z := encode (MkSeg 7 81 0 32 0 0 0 0 0 0 0 false [8; 9]) ++ [8; 9].

Lemma session_withstands_witness : exists r c', resolve zero_options = inl r /\
  handle (CRead first_datagram false) (opened r false true None None) = Ret c' /\
  (forall k, kcp c' = Some k -> bounded (limits_of r) k) /\ Forall (fair r) (events c').
Proof.
  destruct (resolve zero_options) as [r|e] eqn:Er; [|discriminate Er].
  destruct (session_withstands zero_options r false true None None (opened r false true None None) (CRead first_datagram false) Er) as (c' & E & H);
    [apply rtc_refl|by repeat constructor|]. exists r, c'. split; [reflexivity|]. split; [exact E|exact H].
Defined.
