(* ===== verification/KcpLive.v ===== *)
(** * ukcp: a session never sleeps through its work

    The session has no goroutine: what it has to send, send again or notice
    happens only on a turn its timer or its connection brings.  As long as
    SetTimer takes, a live session with something to do has a timer armed. *)

From S2P Require Import Prelude Update Endian GoHeap KcpRing Kcp KcpWire KcpLink KcpReliable KcpBounds KcpOptions KcpConn KcpSession.
Local Open Scope Z_scope.

Definition alive (c : conn) : Prop := ended c = false /\ closed c = false.
Definition working (c : conn) : Prop := Forall (eq true) (timers c).

(** The timer a live session needs. *)
Record timed (c : conn) : Prop := {
  td_data : forall k, kcp c = Some k -> alive c -> (0 < WaitSnd k)%nat \/ outVec c <> [] -> is_Some (armedAt c);
  td_keep : forall t, alive c -> keepAliveDeadline c = Some t -> exists a, armedAt c = Some a /\ a <= t;
  td_first : kcp c = None -> alive c -> client c = false -> 0 < HandshakeTimeout (opts c) -> is_Some (armedAt c)
}.

Lemma timed_dead c : ended c = true \/ closed c = true -> timed c.
Proof. intros H. split; intros; destruct H, (ltac:(assumption) : alive c); congruence. Qed.

(** ** What the helpers leave alone *)

(** Everything of the session but its timer and its calls. *)
Definition body (c : conn) := (kcp c, outVec c, opts c, ended c, closed c, client c, lastInbound c, lastProbe c, peerFin c, pending c).

(** The session apart from the engine and what it staged. *)
Definition shell (c : conn) := (opts c, ended c, closed c, client c, lastInbound c, lastProbe c, armedAt c, timers c).

Lemma fatal_dead e c : ended (fatal e c) = true /\ timers (fatal e c) = timers c.
Proof. unfold fatal. by destruct (writeErr c). Qed.

Lemma armFor_arms t c : working c -> body (armFor t c) = body c /\ working (armFor t c) /\
  (exists a, armedAt (armFor t c) = Some a /\ a <= t) /\
  (forall a0, armedAt c = Some a0 -> exists a, armedAt (armFor t c) = Some a /\ a <= a0).
Proof.
  intros HW. assert (HT : body (setTimer t c) = body c /\ working (setTimer t c) /\ armedAt (setTimer t c) = Some t).
  { unfold setTimer, working in *. destruct (timers c) as [|b l] eqn:Et; cbn; rewrite ?Et; [done|]. inversion HW as [|? ? <- HW']; subst. cbn. by rewrite Et. }
  destruct HT as (T1 & T2 & T3). unfold armFor. destruct (armedAt c) as [a|] eqn:Ea.
  - destruct (Z.leb_spec a t); [rewrite Ea; split; [done|]; split; [done|]; split; [by exists a|intros a0 [= <-]; by exists a]|].
    rewrite T3. split; [done|]. split; [done|]. split; [by exists t|]. intros a0 [= <-]. exists t. split; [done|lia].
  - rewrite T3. split; [done|]. split; [done|]. split; [by exists t|done].
Qed.

Lemma keepAliveDeadline_body c c' : body c' = body c -> keepAliveDeadline c' = keepAliveDeadline c.
Proof. unfold body, keepAliveDeadline. intros [= -> _ -> _ _ _ -> -> _ _]. done. Qed.

Lemma armed_timed c d : working c -> (forall k, kcp c = Some k -> keepAliveDeadline c = None \/ exists t, keepAliveDeadline c = Some t /\ d <= t) ->
  is_Some (kcp c) -> timed (armFor d c).
Proof.
  intros HW Hd [k Ek]. destruct (armFor_arms d c HW) as (B & W & (a & Ea & La) & _). pose proof (keepAliveDeadline_body _ _ B) as Ed.
  unfold body in B. injection B as B1 B2 B3 B4 B5 B6 B7 B8 B9 B10. split.
  - intros. rewrite Ea. by eexists.
  - intros t _ Ht. exists a. split; [done|]. rewrite Ed in Ht. destruct (Hd k Ek) as [E|(t' & E & L)]; rewrite E in Ht; [done|]. injection Ht as <-. lia.
  - rewrite B1, Ek. done.
Qed.

(** The timer a flush leaves. *)
Lemma arm_timed next c : working c -> is_Some (kcp c) -> (outVec c <> [] -> is_Some (armedAt c)) -> timed (arm next c) /\ working (arm next c).
Proof.
  intros HW Hk Ho. unfold arm. destruct (kcp c) as [k|] eqn:Ek; [|by destruct Hk]. destruct (closed c || ended c) eqn:Ee.
  { split; [|done]. apply timed_dead. apply orb_true_iff in Ee. tauto. }
  set (x := if (0 <? WaitSnd k)%nat then _ else _).
  assert (Hx : body x.2 = body c /\ working x.2 /\ armedAt x.2 = armedAt c /\ (x.1 = None -> WaitSnd k = 0%nat)).
  { subst x. destruct (Nat.ltb_spec 0 (WaitSnd k)); cbn; (split; [done|]); (split; [done|]); (split; [done|]); [done|lia]. }
  destruct x as [d c1]. cbn [fst snd] in Hx. destruct Hx as (B & W & Ea & Hn). rewrite (keepAliveDeadline_body _ _ B).
  pose proof B as B'. unfold body in B'. injection B' as B1 B2 B3 B4 B5 B6 B7 B8 B9 B10. pose proof (keepAliveDeadline_body _ _ B) as Ed.
  assert (Hk1 : is_Some (kcp c1)) by (rewrite B1, Ek; by eexists).
  assert (HA : forall d', (forall t, keepAliveDeadline c = Some t -> d' <= t) -> timed (armFor d' c1) /\ working (armFor d' c1)).
  { intros d' Hd. split; [|by apply armFor_arms]. apply armed_timed; [done| |done]. intros k' _. rewrite Ed. destruct (keepAliveDeadline c) as [t|]; [right; exists t; auto|by left]. }
  destruct (keepAliveDeadline c) as [ka|] eqn:Eka, d as [d|].
  - destruct (Z.ltb_spec ka d); apply HA; intros t [= <-]; lia.
  - apply HA. intros t [= <-]. lia.
  - apply HA. done.
  - split; [|done]. split; [|intros t _ Ht; by rewrite Ed in Ht|rewrite B1, Ek; done].
    intros k' Hk' _ [Hw|Hw]; [rewrite B1, Ek in Hk'; injection Hk' as <-; specialize (Hn eq_refl); lia|]. rewrite Ea. apply Ho. by rewrite <- B2.
Qed.

Lemma sendBatch_timer hold c : working c -> working (sendBatch hold c) /\ (outVec (sendBatch hold c) <> [] -> is_Some (armedAt (sendBatch hold c))) /\ kcp (sendBatch hold c) = kcp c.
Proof.
  intros HW. unfold sendBatch. destruct (outVec c) as [|d v] eqn:Ev; [by rewrite Ev|]. destruct (_ && _).
  - destruct (Now c) as [now c1] eqn:En. assert (H1 : body c1 = body c /\ working c1) by (unfold Now in En; by injection En as _ <-). destruct H1 as [B1 W1].
    destruct (armFor_arms (now + ackHoldDelay) c1 W1) as (B & W & (a & Ea & _) & _). split; [done|]. split; [intros _; rewrite Ea; by eexists|].
    unfold body in *. congruence.
  - destruct (Writev (d :: v) c) as [err c1] eqn:Ew. unfold Writev in Ew. injection Ew as <- <-. set (c2 := releaseStaging _).
    assert (H2 : working c2 /\ outVec c2 = [] /\ kcp c2 = kcp c) by done. clearbody c2. destruct H2 as (W & E & Ek).
    set (err := default None _). clearbody err. destruct err as [e|]; [|by rewrite E]. destruct (_ && _); [by rewrite E|].
    unfold fatal. by destruct (writeErr c2); cbn; rewrite ?E.
Qed.

Lemma noteHeld_body c : body (noteHeld c) = body c /\ armedAt (noteHeld c) = armedAt c /\ timers (noteHeld c) = timers c.
Proof. unfold noteHeld, publishState. repeat (case_match; try done). Qed.

Lemma call_kcp_shell {A} (f : KCP -> outcome (A * KCP)) c a c' : call_kcp f c = Ret (a, c') ->
  shell c' = shell c /\ is_Some (kcp c') /\ (peerFin c', pending c', events c') = (peerFin c, pending c, events c).
Proof.
  unfold call_kcp. destruct (kcp c) as [k|]; [|done]. intros H. apply outcome_bind_Ret in H as ([a1 k1] & _ & H). injection H as _ <-.
  unfold staging. destruct (_ || _); cbn; (split; [done|]); (split; [by eexists|done]).
Qed.

Lemma maintain_timed c c' : working c -> maintain c = Ret c' -> timed c' /\ working c'.
Proof.
  intros HW H. unfold maintain in H. apply outcome_bind_Ret in H as ([next c1] & H1 & H). injection H as <-.
  apply call_kcp_shell in H1 as (Es & Hk & _). assert (W1 : working c1) by (unfold working, shell in *; injection Es as _ _ _ _ _ _ _ ->; done).
  destruct (sendBatch_timer false c1 W1) as (W2 & O2 & K2). set (c2 := sendBatch false c1) in *. clearbody c2.
  destruct (noteHeld_body c2) as (B3 & A3 & T3). set (c3 := noteHeld c2) in *. clearbody c3.
  assert (W3 : working c3) by (unfold working; by rewrite T3). unfold body in B3. injection B3 as B31 B32 _ _ _ _ _ _ _ _.
  destruct (dead c3); [destruct (fatal_dead ErrDeadLink c3) as [D1 D2]; split; [apply timed_dead; by left|unfold working; by rewrite D2]|].
  apply arm_timed; [done|by rewrite B31, K2|]. by rewrite B32, A3.
Qed.

Lemma answer_timed c b c' : working c -> answer c = Ret (b, c') -> timed c' /\ working c'.
Proof.
  intros HW H. unfold answer in H. destruct (unsent c).
  all: apply outcome_bind_Ret in H as ([next c1] & H1 & H); apply call_kcp_shell in H1 as (Es & Hk & _).
  all: assert (W1 : working c1) by (unfold working, shell in *; injection Es as _ _ _ _ _ _ _ ->; done).
  all: destruct (sendBatch_timer true c1 W1) as (W2 & O2 & K2); set (c2 := sendBatch true c1) in *; clearbody c2.
  all: destruct (noteHeld_body c2) as (B3 & A3 & T3); set (c3 := noteHeld c2) in *; clearbody c3.
  all: assert (W3 : working c3) by (unfold working; by rewrite T3); unfold body in B3; injection B3 as B31 B32 _ _ _ _ _ _ _ _.
  1: destruct (dead c3); [injection H as _ <-; destruct (fatal_dead ErrDeadLink c3) as [D1 D2]; split; [apply timed_dead; by left|unfold working; by rewrite D2]|].
  all: injection H as _ <-; apply arm_timed; [done|by rewrite B31, K2|]; by rewrite B32, A3.
Qed.

(** ** Delivering needs no timer *)

Definition view (c : conn) := (WaitSnd <$> kcp c, outVec c, shell c).

Lemma timed_view c c' : view c' = view c -> timed c -> timed c'.
Proof.
  unfold view, shell. intros [= E1 E2 E3 E4 E5 E6 E7 E8 E9 E10] [T1 T2 T3].
  assert (Ha : alive c' -> alive c) by (unfold alive; by rewrite E4, E5). split.
  - intros k Hk HA Hw. rewrite Hk in E1. cbn in E1. destruct (kcp c) as [k0|] eqn:Ek; [|done]. injection E1 as E1. rewrite E9. apply (T1 k0); [done|auto|]. by rewrite <- E1, <- E2.
  - intros t HA Ht. rewrite E9. apply T2; [auto|]. unfold keepAliveDeadline in *. rewrite E3, E7, E8 in Ht. destruct (kcp c'), (kcp c); done.
  - intros Hk HA Hc Hh. rewrite E9. apply T3; [|auto|congruence|by rewrite <- E3]. rewrite Hk in E1. by destruct (kcp c).
Qed.

Lemma timed_none c c' : kcp c = None -> kcp c' = None -> (opts c', ended c', closed c', client c', armedAt c') = (opts c, ended c, closed c, client c, armedAt c) ->
  timed c -> timed c'.
Proof.
  intros Hk Hk' [= E1 E2 E3 E4 E5] [T1 T2 T3]. split.
  - congruence.
  - unfold keepAliveDeadline. rewrite Hk'. done.
  - intros _ HA Hc Hh. rewrite E5. apply T3; [done| |congruence|congruence]. unfold alive in *. by rewrite <- E2, <- E3.
Qed.

Lemma view_working c c' : view c' = view c -> working c -> working c'.
Proof. unfold view, shell, working. intros [= _ _ _ _ _ _ _ _ _ ->]. done. Qed.

Lemma Recv_sends room k n p k' : Recv room k = Ret (n, p, k') -> (snd_buf k', snd_queue k', outputs k') = (snd_buf k, snd_queue k, outputs k).
Proof.
  unfold Recv. destruct (PeekSize k <? 0); [by intros [= _ _ <-]|]. destruct (_ <? PeekSize k); [by intros [= _ _ <-]|]. intros H.
  apply outcome_bind_Ret in H as ([got1 q] & _ & H). apply outcome_bind_Ret in H as (k2 & HX & H).
  unfold move_available in HX. apply move_ready_frame in HX as (h & q' & m & ->). by destruct (_ && _); injection H as _ _ <-.
Qed.

Lemma recv_view c a c' : call_kcp recv c = Ret (a, c') -> view c' = view c.
Proof.
  intros H. unfold call_kcp in H. destruct (kcp c) as [k|] eqn:Ek; [|done]. apply outcome_bind_Ret in H as ([[n p] k1] & H1 & H). injection H as _ <-.
  apply Recv_sends in H1. cbn in H1. injection H1 as E1 E2 E3. unfold view, staging. rewrite Ek.
  assert (Ew : WaitSnd k1 = WaitSnd k) by (unfold WaitSnd; by rewrite E1, E2).
  destruct (_ || _); cbn; rewrite ?E3, Ew, ?drop_all, ?app_nil_r; done.
Qed.

Lemma deliver_loop_timed fuel : forall c c', timed c -> working c -> deliver_loop fuel c = Ret c' -> timed c' /\ working c'.
Proof.
  induction fuel as [|fuel IH]; intros c c' HT HW H; cbn [deliver_loop] in H; [done|]. destruct (Buffered c) as [b c1] eqn:Eb.
  assert (V1 : view c1 = view c) by (unfold Buffered in Eb; by injection Eb as _ <-).
  assert (T1 : timed c1 /\ working c1) by (split; [by eapply timed_view|by eapply view_working]). clear Eb V1.
  destruct (_ <=? b); [injection H as <-; split; [eapply timed_view; [|apply T1]; done|apply T1]|].
  apply outcome_bind_Ret in H as ([[n p] c2] & H2 & H). apply recv_view in H2.
  assert (T2 : timed c2 /\ working c2) by (split; [by eapply timed_view; [|apply T1]|by eapply view_working; [|apply T1]]). clear H2.
  destruct (n =? -2); [injection H as <-; destruct (fatal_dead errMessageTooLarge c2) as [D1 D2]; split; [apply timed_dead; by left|unfold working; rewrite D2; apply T2]|].
  destruct (n <? 0).
  { injection H as <-. assert (V : view (endLower c2) = view c2) by (unfold endLower; by destruct (_ || _)). split; [eapply timed_view; [exact V|apply T2]|eapply view_working; [exact V|apply T2]]. }
  destruct (n =? 0); [injection H as <-; split; [eapply timed_view; [|apply T2]; done|apply T2]|].
  eapply IH; [| |exact H]; [eapply timed_view; [|apply T2]; done|apply T2].
Qed.

Lemma deliver_timed c c' : timed c -> working c -> deliver c = Ret c' -> timed c' /\ working c'.
Proof. intros HT HW. unfold deliver. destruct (_ || _); [by intros [= <-]|by apply deliver_loop_timed]. Qed.

(** ** Before a session is founded *)

(** A turn that leaves no engine and does not end the session changed neither
    its timer nor its settings. *)
Record unfounded (c c' : conn) : Prop := {
  un_working : working c -> working c';
  un_kcp : kcp c' = None -> kcp c = None /\ (ended c' = true \/
    (opts c', ended c', closed c', client c', armedAt c') = (opts c, ended c, closed c, client c, armedAt c))
}.

#[local] Instance unfounded_preorder : PreOrder unfounded.
Proof.
  split; [intros c; split; [done|]; intros; split; [done|by right]|]. intros a b c [A1 A2] [B1 B2]. split; [auto|]. intros Hc.
  destruct (B2 Hc) as [Hb HB]. destruct (A2 Hb) as [Ha HA]. split; [done|]. destruct HB as [HB|HB]; [by left|].
  destruct HA as [HA|HA]; [left; injection HB; congruence|right; congruence].
Qed.

Lemma arm_unfounded next c : is_Some (kcp c) -> working c -> working (arm next c) /\ is_Some (kcp (arm next c)).
Proof.
  intros Hk HW. unfold arm. destruct (kcp c) as [k|] eqn:Ek; [|by destruct Hk]. destruct (closed c || ended c); [by rewrite Ek|].
  set (x := if (0 <? WaitSnd k)%nat then _ else _).
  assert (Hx : kcp x.2 = kcp c /\ working x.2) by (subst x; by destruct (0 <? WaitSnd k)%nat).
  destruct x as [d c1]. cbn [fst snd] in Hx. destruct Hx as [K1 W1].
  assert (HA : forall d', working (armFor d' c1) /\ is_Some (kcp (armFor d' c1))).
  { intros d'. destruct (armFor_arms d' c1 W1) as (B & W & _). split; [done|]. unfold body in B. injection B as -> _ _ _ _ _ _ _ _ _. rewrite K1, Ek. by eexists. }
  repeat case_match; try apply HA; (split; [done|rewrite K1, Ek; by eexists]).
Qed.

Lemma establish_founds conv c : is_Some (kcp (establish conv c)) /\ (working c -> working (establish conv c)).
Proof.
  unfold establish. set (c1 := ((c <| kcp := _ |>) <| cconv := conv |>) <| cmss := _ |>).
  set (c2 := publishState ((Now c1).2 <| lastInbound := Some (Now c1).1 |>)).
  change (let '(now, c) := Now c1 in arm 0 (publishState (c <| lastInbound := Some now |>))) with (arm 0 c2).
  assert (Hk : is_Some (kcp c2)) by (unfold c2, publishState; cbn; destruct (ended c); by eexists).
  assert (HW : working c -> working c2) by (unfold c2, publishState; cbn; by destruct (ended c)).
  split; [|intros W; by apply arm_unfounded; [|apply HW]].
  unfold arm. destruct (kcp c2) as [k|] eqn:Ek; [|by destruct Hk]. destruct (_ || _); [rewrite Ek; by eexists|].
  set (x := if (0 <? WaitSnd k)%nat then _ else _). assert (Hx : kcp x.2 = kcp c2) by (subst x; by destruct (0 <? WaitSnd k)%nat).
  destruct x as [d c3]. cbn [snd] in Hx.
  assert (HA : forall d', kcp (armFor d' c3) = kcp c3) by (intros; unfold armFor, setTimer; repeat (case_match; try done)).
  repeat case_match; rewrite ?HA, Hx, Ek; by eexists.
Qed.

Lemma feed_unfounded seg c b c' : feed seg c = Ret (b, c') -> unfounded c c'.
Proof.
  unfold feed. destruct (negb (_ =? 0)).
  { intros [= _ <-]. destruct (_ || _) eqn:E; [|done]. destruct (fatal_dead (ErrProtocol (bytes_at 5 1 seg)) c) as [D1 D2].
    split; [unfold working; by rewrite D2|]. intros Hk. split; [|by left]. unfold fatal in Hk. by destruct (writeErr c). }
  set (founds := negb _). destruct (founds && _); [by intros [= _ <-]|]. intros H.
  set (c1 := if founds then _ else c) in H. apply outcome_bind_Ret in H as ([r c2] & H2 & H). injection H as _ <-.
  apply call_kcp_shell in H2 as (Es & [k Hk] & _). split; [|by rewrite Hk].
  intros W. assert (W1 : working c1) by (subst c1; destruct founds; [by apply establish_founds|done]).
  unfold shell, working in *. injection Es as _ _ _ _ _ _ _ ->. done.
Qed.

Lemma input_packet_unfounded fuel : forall rest fed c b c', input_packet fuel rest fed c = Ret (b, c') -> unfounded c c'.
Proof.
  induction fuel as [|fuel IH]; intros rest fed c b c' H; cbn [input_packet] in H; [done|]. destruct rest as [|x r]; [by injection H as _ <-|].
  set (rest := x :: r) in *. clearbody rest. destruct (segmentLength rest); [|by injection H as _ <-]. destruct (_ <? _); [by injection H as _ <-|].
  apply outcome_bind_Ret in H as ([b1 c1] & H1 & H). apply feed_unfounded in H1. apply IH in H. by etrans.
Qed.

Lemma input_stream_unfounded fuel : forall rest fed c b l c', input_stream fuel rest fed c = Ret (b, l, c') -> unfounded c c'.
Proof.
  induction fuel as [|fuel IH]; intros rest fed c b l c' H; cbn [input_stream] in H; [done|]. destruct (_ <? kcpOverhead); [by injection H as _ _ <-|].
  destruct (segmentLength rest).
  - destruct (_ <? _); [by injection H as _ _ <-|]. apply outcome_bind_Ret in H as ([b1 c1] & H1 & H). apply feed_unfounded in H1. apply IH in H. by etrans.
  - injection H as _ _ <-. destruct (fatal_dead errSegmentTooLarge c) as [D1 D2].
    split; [unfold working; by rewrite D2|]. intros Hk. split; [|by left]. unfold fatal in Hk. by destruct (writeErr c).
Qed.

Lemma takeChunk_unfounded chunk c b c' : takeChunk chunk c = Ret (b, c') -> unfounded c c'.
Proof.
  unfold takeChunk. destruct chunk as [|x r]; [by intros [= _ <-]|]. set (chunk := x :: r). clearbody chunk. destruct (packet c); intros H.
  - apply outcome_bind_Ret in H as ([b1 c1] & H1 & H). injection H as _ <-. apply input_packet_unfounded in H1. destruct H1 as [A B]. by split.
  - unfold inputStream in H. apply outcome_bind_Ret in H as ([[b1 l] c1] & H1 & H). injection H as _ <-. apply input_stream_unfounded in H1. destruct H1 as [A B]. by split.
Qed.

Lemma deliver_loop_working fuel : forall c c', working c -> deliver_loop fuel c = Ret c' -> working c'.
Proof.
  induction fuel as [|fuel IH]; intros c c' HW H; cbn [deliver_loop] in H; [done|]. destruct (Buffered c) as [b c1] eqn:Eb.
  assert (W1 : working c1) by (unfold Buffered in Eb; by injection Eb as _ <-). destruct (_ <=? b); [by injection H as <-|].
  apply outcome_bind_Ret in H as ([[n p] c2] & H2 & H). apply recv_view in H2. assert (W2 : working c2) by (by eapply view_working).
  destruct (n =? -2); [injection H as <-; destruct (fatal_dead errMessageTooLarge c2) as [D1 D2]; unfold working; by rewrite D2|].
  destruct (n <? 0); [injection H as <-; unfold endLower; by destruct (_ || _)|]. destruct (n =? 0); [by injection H as <-|]. eapply IH; [|exact H]. done.
Qed.

Lemma deliver_working c c' : working c -> deliver c = Ret c' -> working c'.
Proof. intros HW. unfold deliver. destruct (_ || _); [by intros [= <-]|by apply deliver_loop_working]. Qed.

(** A flush that holds nothing back either ends the session or leaves it. *)
Lemma sendBatch_false c : ended (sendBatch false c) = true \/
  (kcp (sendBatch false c), opts (sendBatch false c), ended (sendBatch false c), closed (sendBatch false c), client (sendBatch false c), lastInbound (sendBatch false c), lastProbe (sendBatch false c), timers (sendBatch false c)) =
  (kcp c, opts c, ended c, closed c, client c, lastInbound c, lastProbe c, timers c) /\ armedAt (sendBatch false c) = armedAt c.
Proof.
  unfold sendBatch. destruct (outVec c) as [|d v]; [by right|]. cbn [andb]. destruct (Writev (d :: v) c) as [err c1] eqn:Ew. unfold Writev in Ew. injection Ew as <- <-.
  set (err := default None _). clearbody err. destruct err as [e|]; [|by right]. destruct (_ && _); [by right|]. left. unfold fatal. cbn. by destruct (writeErr c).
Qed.

(** ** The handlers *)

Definition ready (c : conn) : Prop := timed c /\ working c.

Lemma ready_view c c' : view c' = view c -> ready c -> ready c'.
Proof. intros V [T W]. split; [by eapply timed_view|by eapply view_working]. Qed.

Lemma ready_dead c : working c -> ended c = true \/ closed c = true -> ready c.
Proof. intros W H. split; [by apply timed_dead|done]. Qed.

Lemma fatal_ready e c : working c -> ready (fatal e c).
Proof. intros W. destruct (fatal_dead e c) as [D1 D2]. apply ready_dead; [unfold working; by rewrite D2|by left]. Qed.

Lemma OnRead_ready chunk e c c' : ready c -> OnRead chunk e c = Ret c' -> ready c'.
Proof.
  intros HR H. unfold OnRead in H. destruct (Now c) as [now c1] eqn:En.
  assert (R1 : ready c1) by (apply (ready_view c); [unfold Now in En; by injection En as _ <-|done]). clear En HR.
  destruct (closed c1 || ended c1); [by injection H as <-|]. apply outcome_bind_Ret in H as ([fed c2] & H2 & H). apply takeChunk_unfounded in H2 as [U1 U2].
  set (c3 := if fed then _ else c2) in H.
  assert (H3 : (kcp c3, timers c3) = (kcp c2, timers c2) /\ (opts c3, ended c3, closed c3, client c3, armedAt c3) = (opts c2, ended c2, closed c2, client c2, armedAt c2)) by (subst c3; by destruct fed).
  destruct H3 as [[= Ek3 Et3] E3]. assert (W3 : working c3) by (unfold working; rewrite Et3; by apply U1, R1).
  case_bool_decide as Hk; cbn [negb orb] in H.
  2: { injection H as <-. assert (Hn : kcp c3 = None) by (by destruct (kcp c3); [destruct Hk; eexists|]). destruct (U2 ltac:(congruence)) as [Hc [He|He]].
       - apply ready_dead; [done|]. left. by injection E3 as _ -> _ _ _.
       - split; [|done]. apply (timed_none c1); [done|done|congruence|apply R1]. }
  destruct (ended c3) eqn:Ee; [injection H as <-; apply ready_dead; [done|by left]|].
  apply outcome_bind_Ret in H as (c4 & H4 & H).
  assert (W4 : working c4) by (by eapply deliver_working).
  apply outcome_bind_Ret in H as ([b c5] & H5 & H). destruct (answer_timed _ _ _ W4 H5) as [T5 W5].
  destruct (_ || _); [by injection H as <-|]. unfold streamLowerEnded in H. destruct (_ || _); [by injection H as <-|].
  destruct (negb e); [by injection H as <-|]. case_bool_decide; [injection H as <-; by apply fatal_ready|].
  eapply deliver_timed; [| |exact H]; [by apply (timed_view c5)|done].
Qed.

Lemma probe_peer_ready c c' : ready c -> is_Some (armedAt c) -> (forall t, keepAliveDeadline c = Some t -> exists a, armedAt c = Some a /\ a <= t) ->
  is_Some (kcp c) -> probe_peer c = Ret c' -> ready c'.
Proof.
  intros [T W] [a Ea] Hka Hk H. unfold probe_peer in H. apply outcome_bind_Ret in H as ([[] c1] & H1 & H). apply outcome_bind_Ret in H as ([[] c2] & H2 & H). injection H as <-.
  apply call_kcp_shell in H1 as (S1 & _ & _). apply call_kcp_shell in H2 as (S2 & K2 & _). rewrite S1 in S2. clear S1.
  unfold shell in S2. injection S2 as E1 E2 E3 E4 E5 E6 E7 E8.
  assert (W2 : working c2) by (unfold working; by rewrite E8). destruct (sendBatch_timer false c2 W2) as (W3 & O3 & K3).
  split; [|done]. destruct (sendBatch_false c2) as [Hd|HB]; [apply timed_dead; by left|]. destruct HB as [B1 B2]. unfold body in B1. 
  injection B1 as B11 B12 B13 B14 B15 B16 B17 B18. split.
  - intros. rewrite B2, E7, Ea. by eexists.
  - intros t _ Ht. rewrite B2, E7. apply Hka. unfold keepAliveDeadline in *. rewrite B12, B16, B17, E1, E5, E6 in Ht. destruct Hk as [k ->]. by destruct (kcp (sendBatch false c2)).
  - intros Hn. rewrite K3 in Hn. destruct K2. congruence.
Qed.

Lemma keepAlive_ready now c c' : ready c -> alive c -> keepAlive now c = Ret c' -> ready c'.
Proof.
  intros HR HA H. unfold keepAlive in H. destruct (Z.leb_spec (KeepAlive (opts c)) 0) as [|Hp]; cbn [orb] in H; [by injection H as <-|].
  case_bool_decide as Hk; cbn [negb orb] in H; [|by injection H as <-]. destruct (ended c); [by injection H as <-|].
  destruct (_ <=? _); [injection H as <-; by apply fatal_ready, HR|]. destruct (_ && _) eqn:Ec; [|by injection H as <-].
  apply andb_true_iff in Ec as [C1 C2]. apply Z.leb_le in C1, C2. destruct HR as [T W].
  assert (Hd : keepAliveDeadline c <> None) by (unfold keepAliveDeadline; destruct Hk as [k ->]; destruct (Z.leb_spec (KeepAlive (opts c)) 0); [lia|done]).
  destruct (keepAliveDeadline c) as [t|] eqn:Et; [|done]. destruct (td_keep _ T t HA Et) as (a & Ea & La).
  assert (Hlater : forall t', keepAliveDeadline (c <| lastProbe := Some now |>) = Some t' -> t <= t').
  { intros t'. unfold keepAliveDeadline in *. cbn. destruct Hk as [k Ek]. rewrite Ek in *. destruct (KeepAlive (opts c) <=? 0); [done|]. intros [= <-]. injection Et as <-.
    unfold Before, Sub, minDuration, maxDuration in *. change (unix (Some now)) with now.
    destruct (Z.ltb_spec (unix (lastInbound c)) now), (Z.ltb_spec (unix (lastInbound c)) (unix (lastProbe c))); change (unix (Some now)) with now; lia. }
  eapply probe_peer_ready; [| | | |exact H].
  - split; [|done]. split.
    + intros k Ek' HA' Hw. exists a. exact Ea.
    + intros t' HA' Ht'. exists a. split; [done|]. specialize (Hlater t' Ht'). lia.
    + intros Hn. cbn in Hn. destruct Hk. congruence.
  - exists a. exact Ea.
  - intros t' Ht'. exists a. split; [done|]. specialize (Hlater t' Ht'). lia.
  - done.
Qed.

(** Only OnOpen and OnClose close. *)
Lemma closed_armFor t c : closed (armFor t c) = closed c.
Proof. unfold armFor, setTimer. repeat (case_match; try done). Qed.

Lemma closed_arm next c : closed (arm next c) = closed c.
Proof.
  unfold arm. destruct (kcp c) as [k|]; [|done]. destruct (_ || _); [done|]. set (x := if (0 <? WaitSnd k)%nat then _ else _).
  assert (Hx : closed x.2 = closed c) by (subst x; by destruct (0 <? WaitSnd k)%nat). destruct x as [d c1]. cbn [snd] in Hx. rewrite <- Hx.
  repeat case_match; try done; apply closed_armFor.
Qed.

Lemma closed_fatal e c : closed (fatal e c) = closed c.
Proof. unfold fatal. by destruct (writeErr c). Qed.

Lemma closed_sendBatch hold c : closed (sendBatch hold c) = closed c.
Proof.
  unfold sendBatch. destruct (outVec c); [done|]. destruct (_ && _); [unfold Now; by rewrite closed_armFor|]. destruct (Writev _ c) as [err c1] eqn:Ew. unfold Writev in Ew. injection Ew as <- <-.
  set (err := default None _). clearbody err. destruct err; [|done]. destruct (_ && _); [done|]. by rewrite closed_fatal.
Qed.

Lemma closed_maintain c c' : maintain c = Ret c' -> closed c' = closed c.
Proof.
  intros H. unfold maintain in H. apply outcome_bind_Ret in H as ([next c1] & H1 & H). injection H as <-. apply call_kcp_shell in H1 as (Es & _).
  unfold shell in Es. injection Es as _ _ Ec _ _ _ _ _. destruct (noteHeld_body (sendBatch false c1)) as (B & _). unfold body in B. injection B as _ _ _ _ B _ _ _ _ _.
  destruct (dead _); rewrite ?closed_fatal, ?closed_arm, B, closed_sendBatch; done.
Qed.

Lemma closed_deliver c c' : deliver c = Ret c' -> closed c' = closed c.
Proof.
  unfold deliver. destruct (_ || _); [by intros [= <-]|]. generalize (S (waiting c)). intros fuel. revert c.
  induction fuel as [|fuel IH]; intros c H; cbn [deliver_loop] in H; [done|]. destruct (Buffered c) as [b c1] eqn:Eb.
  assert (E1 : closed c1 = closed c) by (unfold Buffered in Eb; by injection Eb as _ <-). rewrite <- E1. destruct (_ <=? b); [by injection H as <-|].
  apply outcome_bind_Ret in H as ([[n p] c2] & H2 & H). apply call_kcp_shell in H2 as (Es & _). unfold shell in Es. injection Es as _ _ Ec _ _ _ _ _. rewrite <- Ec.
  destruct (n =? -2); [injection H as <-; apply closed_fatal|]. destruct (n <? 0); [injection H as <-; unfold endLower; by destruct (_ || _)|].
  destruct (n =? 0); [by injection H as <-|]. by apply IH in H.
Qed.

Lemma OnTimer_ready c c' : ready c -> OnTimer c = Ret c' -> ready c'.
Proof.
  intros [T W] H. unfold OnTimer in H. set (c0 := c <| armedAt := None |>) in H. assert (W0 : working c0) by done.
  destruct (closed c0 || ended c0) eqn:Ee; [injection H as <-; apply ready_dead; [done|]; apply orb_true_iff in Ee; tauto|].
  apply orb_false_iff in Ee as [Ec _]. destruct (negb _); [injection H as <-; by apply fatal_ready|].
  apply outcome_bind_Ret in H as (c1 & H1 & H). destruct (maintain_timed _ _ W0 H1) as [T1 W1]. apply closed_maintain in H1.
  apply outcome_bind_Ret in H as (c2 & H2 & H). destruct (deliver_timed _ _ T1 W1 H2) as [T2 W2]. apply closed_deliver in H2.
  destruct (Now c2) as [now c3] eqn:En. unfold Now in En. injection En as _ <-.
  destruct (ended c2) eqn:Ee; [|eapply keepAlive_ready; [| |exact H]; [by apply (ready_view c2)|split; [done|cbn; congruence]]].
  unfold keepAlive in H. cbn in H. rewrite Ee, orb_true_r in H. injection H as <-. apply ready_dead; [done|by left].
Qed.

Lemma write_pieces_working fuel : forall rest c b c', working c -> write_pieces fuel rest c = Ret (b, c') -> working c' /\ (b = false -> ended c' = true).
Proof.
  induction fuel as [|fuel IH]; intros rest c b c' HW H; cbn [write_pieces] in H; [done|]. destruct rest as [|x r]; [by injection H as <- <-|].
  set (rest := x :: r) in *. clearbody rest. apply outcome_bind_Ret in H as ([ret c1] & H1 & H). apply call_kcp_shell in H1 as (Es & _).
  assert (W1 : working c1) by (unfold working, shell in *; injection Es as _ _ _ _ _ _ _ ->; done).
  destruct (negb _); [injection H as <- <-; destruct (fatal_dead ErrRefusedWrite c1) as [D1 D2]; split; [unfold working; by rewrite D2|done]|].
  eapply IH; [|exact H]. done.
Qed.

Lemma OnWrite_ready p c r c' : ready c -> OnWrite p c = Ret (r, c') -> ready c'.
Proof.
  intros HR H. unfold OnWrite in H. destruct p as [|x q]; [by injection H as _ <-|]. set (p := x :: q) in *. clearbody p.
  destruct (kcp c) as [k|]; [|by injection H as _ <-]. destruct (_ || _); [by injection H as _ <-|]. destruct (_ || _); [by injection H as _ <-|].
  apply outcome_bind_Ret in H as ([b c1] & H1 & H). destruct (write_pieces_working _ _ _ _ _ (proj2 HR) H1) as [W1 D1].
  destruct b; [|injection H as _ <-; apply ready_dead; [done|left; by apply D1]].
  apply outcome_bind_Ret in H as (c2 & H2 & H). destruct (maintain_timed _ _ W1 H2) as [T2 W2]. by destruct (ended c2); injection H as _ <-.
Qed.

Lemma CloseWrite_ready c c' : ready c -> CloseWrite c = Ret c' -> ready c'.
Proof.
  intros [T W] H. unfold CloseWrite in H. destruct (_ || _); [by injection H as <-|]. apply outcome_bind_Ret in H as ([ret c1] & H1 & H).
  pose proof (call_kcp_shell _ _ _ _ H1) as (Es & Hk & _). assert (W1 : working c1) by (unfold working, shell in *; injection Es as _ _ _ _ _ _ _ ->; done).
  destruct (Z.eqb_spec ret 0) as [|Hr]; cbn [negb] in H; [by eapply maintain_timed|]. injection H as <-. apply (ready_view c); [|done].
  unfold call_kcp in H1. cbn in H1. destruct (kcp c) as [k|] eqn:Ek; [|done]. apply outcome_bind_Ret in H1 as ([a k1] & HS & H1). injection H1 as <- <-.
  unfold Send in HS. destruct (stream _ =? 0); [|cbn in HS; by injection HS as <- _]. injection HS as _ <-.
  unfold view, staging. cbn. destruct (_ || _); cbn; rewrite Ek, ?drop_all, ?app_nil_r; done.
Qed.

Lemma CloseGracefully_ready c c' : ready c -> CloseGracefully c = Ret c' -> ready c'.
Proof.
  intros [T W] H. unfold CloseGracefully in H. apply outcome_bind_Ret in H as (c1 & H1 & H). injection H as <-. apply ready_dead; [|by left].
  destruct (_ && _); [|by injection H1 as <-]. apply outcome_bind_Ret in H1 as ([ret c2] & H2 & H1). apply call_kcp_shell in H2 as (Es & _).
  assert (W2 : working c2) by (unfold working, shell in *; injection Es as _ _ _ _ _ _ _ ->; done).
  destruct (ret =? 0); [|by injection H1 as <-]. apply outcome_bind_Ret in H1 as ([x c3] & H3 & H1). injection H1 as <-. apply call_kcp_shell in H3 as (Es3 & _).
  assert (W3 : working c3) by (unfold working, shell in *; injection Es3 as _ _ _ _ _ _ _ ->; done). by apply (sendBatch_timer false c3 W3).
Qed.

Lemma establish_ready conv c : working c -> outVec c = [] -> ready (establish conv c).
Proof.
  intros W Ho. unfold establish. set (c1 := ((c <| kcp := _ |>) <| cconv := conv |>) <| cmss := _ |>).
  set (c2 := publishState ((Now c1).2 <| lastInbound := Some (Now c1).1 |>)).
  change (let '(now, c) := Now c1 in arm 0 (publishState (c <| lastInbound := Some now |>))) with (arm 0 c2).
  assert (Hk : is_Some (kcp c2)) by (unfold c2, publishState; cbn; destruct (ended c); by eexists).
  assert (HW : working c2) by (unfold c2, publishState; cbn; by destruct (ended c)).
  assert (HO : outVec c2 = []) by (unfold c2, publishState; cbn; by destruct (ended c)).
  apply arm_timed; [done|done|by rewrite HO].
Qed.

Lemma armFor_first t c : working c -> kcp c = None -> ready (armFor t c).
Proof.
  intros W Hk. destruct (armFor_arms t c W) as (B & W1 & (a & Ea & _) & _). split; [|done].
  unfold body in B. injection B as B1 _ _ _ _ _ _ _ _ _. rewrite Hk in B1.
  split; [by rewrite B1|unfold keepAliveDeadline; by rewrite B1|]. intros. by exists a.
Qed.

Lemma timer_view_emit e c : view (emit e c) = view c.
Proof. done. Qed.

Lemma OnOpen_ready pd rs seed r cl : ready (opened r cl pd rs seed).
Proof.
  unfold opened, OnOpen, newResolvedLayer. cbn [layer_err attached]. set (c := (attached r cl None) <| packet := pd |>).
  assert (W : working c) by constructor. destruct (_ && _); [apply ready_dead; [done|by left]|]. destruct (client c) eqn:Ec; cbn [negb].
  - destruct seed as [seed|]; [|apply ready_dead; [done|by right]]. apply (ready_view (establish (le_val seed) c)); [apply timer_view_emit|by apply establish_ready].
  - destruct (Z.ltb_spec 0 (HandshakeTimeout (opts c))) as [Hh|Hh].
    + unfold Now. by apply armFor_first.
    + split; [|done]. split; [done|done|]. intros _ _ _ Hh'. lia.
Qed.

(** ** Any run *)

(** SetTimer takes whenever it is asked. *)
Definition timers_take (h : call) : Prop := match h with CSupply _ _ _ _ ts => Forall (eq true) ts | _ => True end.

Definition timed_step (c c' : conn) : Prop := exists h, timers_take h /\ handle h c = Ret c'.

Lemma handle_ready h c c' : ready c -> timers_take h -> handle h c = Ret c' -> ready c'.
Proof.
  intros HR HT H. destruct h; cbn [handle timers_take] in *.
  - by eapply OnRead_ready.
  - by eapply OnTimer_ready.
  - apply outcome_bind_Ret in H as ([[r1 r2] c1] & H1 & H). injection H as <-. by eapply OnWrite_ready.
  - by eapply CloseWrite_ready.
  - by eapply CloseGracefully_ready.
  - injection H as <-. apply ready_dead; [apply HR|by left].
  - injection H as <-. destruct HR as [T W]. split; [|done]. destruct T as [T1 T2 T3]. by split.
Qed.


(** Handles a script of calls. *)
Fixpoint handle_all (hs : list call) (c : conn) : outcome conn :=
  match hs with [] => Ret c | h :: hs => c ← handle h c; handle_all hs c end.

Lemma handle_all_steps hs : forall c c', Forall timers_take hs -> handle_all hs c = Ret c' -> rtc timed_step c c'.
Proof.
  induction hs as [|h hs IH]; intros c c' HF H; cbn [handle_all] in H; [injection H as <-; done|]. inversion HF as [|? ? Hh HF']; subst.
  apply outcome_bind_Ret in H as (c1 & H1 & H). eapply rtc_l; [by exists h|]. by apply IH.
Qed.

(** A client that writes and hears nothing: its timer fires, sends again, and
    is armed again. *)
Definition silent_peer : list call := [CSupply [0; 0; 5; 6] [7; 7; 500; 500; 500] [] [] []; CWrite [1; 2; 3]; CTimer].
Definition plain_options : Options := Eval vm_compute in match resolve zero_options with inl r => r | inr _ => zero_options end.

