(* ===== verification/KcpStream.v ===== *)
(** * ukcp: the stream a session makes

    What the layer above sees is a well-formed stream, and over a connection
    that carries bytes the segments survive any segmentation of it. *)

From S2P Require Import Prelude Update Endian GoHeap KcpRing Kcp KcpWire KcpLink KcpReliable KcpBounds KcpOptions KcpConn KcpSession KcpLive.
Local Open Scope Z_scope.

(** ** The protocol with the layer above *)

Inductive up_state : Type := Unopened | Flowing | Finished.

(** Open once, then bytes and yields, then one end and nothing after it. *)
Definition up_step (s : option up_state) (e : event) : option up_state :=
  match e, s with
  | UpOpen, Some Unopened => Some Flowing
  | UpWrite p, Some Flowing => if bool_decide (p = []) then None else Some Flowing
  | UpYield, Some Flowing => Some Flowing
  | UpEnd, Some Flowing => Some Finished
  | UpOpen, _ | UpWrite _, _ | UpYield, _ | UpEnd, _ => None
  | _, s => s
  end.
Definition up_run (es : list event) : option up_state := foldl up_step (Some Unopened) es.

Definition founded (c : conn) : bool := bool_decide (is_Some (kcp c)).

Record shaped (c : conn) : Prop := {
  sh_runs : is_Some (up_run (events c));
  sh_unfounded : founded c = false -> closed c = false -> up_run (events c) = Some Unopened /\ peerFin c = false;
  sh_founded : founded c = true -> up_run (events c) = Some (if peerFin c then Finished else Flowing)
}.

(** What the shape depends on. *)
Definition outline (c : conn) := (up_run (events c), founded c, peerFin c, closed c).

Lemma shaped_outline c c' : outline c' = outline c -> shaped c -> shaped c'.
Proof. unfold outline. intros [= E1 E2 E3 E4] [S1 S2 S3]. split; rewrite ?E1, ?E2, ?E3, ?E4; done. Qed.

(** A call that is none of the layer above's business. *)
Definition downward (e : event) : bool := match e with UpOpen | UpWrite _ | UpYield | UpEnd => false | _ => true end.

Lemma up_run_snoc es e : up_run (es ++ [e]) = up_step (up_run es) e.
Proof. unfold up_run. by rewrite foldl_snoc. Qed.

Lemma outline_emit e c : downward e = true -> outline (emit e c) = outline c.
Proof. intros He. unfold outline. cbn [events emit over events_field]. change (events (emit e c)) with (events c ++ [e]). rewrite up_run_snoc. by destruct e. Qed.

Lemma outline_armFor t c : outline (armFor t c) = outline c.
Proof.
  assert (HT : outline (setTimer t c) = outline c).
  { unfold setTimer. pose proof (outline_emit (SetTimer t) (c <| timers ::= drop 1 |>) eq_refl) as E. destruct (default true _); exact E. }
  unfold armFor. repeat (case_match; try done).
Qed.

Lemma outline_arm next c : outline (arm next c) = outline c.
Proof.
  unfold arm. destruct (kcp c) as [k|]; [|done]. destruct (_ || _); [done|]. set (x := if (0 <? WaitSnd k)%nat then _ else _).
  assert (Hx : outline x.2 = outline c) by (subst x; by destruct (0 <? WaitSnd k)%nat). destruct x as [d c1]. cbn [snd] in Hx. rewrite <- Hx.
  repeat case_match; try done; apply outline_armFor.
Qed.

Lemma outline_fatal e c : outline (fatal e c) = outline c.
Proof. unfold fatal. destruct (writeErr c); by rewrite outline_emit. Qed.

Lemma outline_noteHeld c : outline (noteHeld c) = outline c.
Proof.
  destruct (noteHeld_body c) as (B & _). assert (E : events (noteHeld c) = events c) by (unfold noteHeld, publishState; repeat (case_match; try done)).
  unfold body in B. injection B as B1 _ _ _ B5 _ _ _ B9 _. unfold outline, founded. by rewrite E, B1, B5, B9.
Qed.

Lemma outline_sendBatch hold c : outline (sendBatch hold c) = outline c.
Proof.
  unfold sendBatch. destruct (outVec c); [done|]. destruct (_ && _); [unfold Now; by rewrite outline_armFor|]. destruct (Writev _ c) as [err c1] eqn:Ew. unfold Writev in Ew. injection Ew as <- <-.
  set (c2 := releaseStaging _). assert (E2 : outline c2 = outline c).
  { unfold c2. transitivity (outline (emit (DownWritev (l :: l0)) (c <| written ::= drop 1 |>))); [done|]. by rewrite outline_emit. }
  clearbody c2. set (err := default None _). clearbody err. destruct err; [|done]. destruct (_ && _); [done|]. by rewrite outline_fatal.
Qed.

Lemma outline_call {A} (f : KCP -> outcome (A * KCP)) c a c' : call_kcp f c = Ret (a, c') -> outline c' = outline c.
Proof.
  unfold call_kcp. destruct (kcp c) as [k|] eqn:Ek; [|done]. intros H. apply outcome_bind_Ret in H as ([a1 k1] & _ & H). injection H as _ <-.
  unfold outline, founded, staging. rewrite Ek. destruct (_ || _); cbn; done.
Qed.

Lemma outline_maintain c c' : maintain c = Ret c' -> outline c' = outline c.
Proof.
  intros H. unfold maintain in H. apply outcome_bind_Ret in H as ([next c1] & H1 & H). injection H as <-. apply outline_call in H1.
  destruct (dead _); rewrite ?outline_fatal, ?outline_arm, outline_noteHeld, outline_sendBatch; done.
Qed.

Lemma outline_answer c b c' : answer c = Ret (b, c') -> outline c' = outline c.
Proof.
  intros H. unfold answer in H. destruct (unsent c); apply outcome_bind_Ret in H as ([next c1] & H1 & H); apply outline_call in H1.
  - destruct (dead _); injection H as _ <-; rewrite ?outline_fatal, ?outline_arm, outline_noteHeld, outline_sendBatch; done.
  - injection H as _ <-. by rewrite outline_arm, outline_noteHeld, outline_sendBatch.
Qed.

Lemma outline_keepAlive now c c' : keepAlive now c = Ret c' -> outline c' = outline c.
Proof.
  unfold keepAlive. destruct (_ || _); [by intros [= <-]|]. destruct (_ <=? _); [intros [= <-]; apply outline_fatal|]. destruct (_ && _); [|by intros [= <-]].
  intros H. unfold probe_peer in H. apply outcome_bind_Ret in H as ([[] c1] & H1 & H). apply outcome_bind_Ret in H as ([[] c2] & H2 & H). injection H as <-.
  apply outline_call in H1, H2. rewrite outline_sendBatch, H2, H1. done.
Qed.

Lemma outline_write fuel : forall rest c b c', write_pieces fuel rest c = Ret (b, c') -> outline c' = outline c.
Proof.
  induction fuel as [|fuel IH]; intros rest c b c' H; cbn [write_pieces] in H; [done|]. destruct rest as [|x r]; [by injection H as _ <-|].
  set (rest := x :: r) in *. clearbody rest. apply outcome_bind_Ret in H as ([ret c1] & H1 & H). apply outline_call in H1.
  destruct (negb _); [injection H as _ <-; by rewrite outline_fatal|]. apply IH in H. congruence.
Qed.

(** ** Delivering *)

Lemma shaped_emit e c s : shaped c -> founded c = true -> up_step (up_run (events c)) e = Some s ->
  s = (if peerFin c then Finished else Flowing) -> shaped (emit e c).
Proof.
  intros [S1 S2 S3] Hf Hs ->. split.
  - change (is_Some (up_run (events c ++ [e]))). rewrite up_run_snoc, Hs. by eexists.
  - change (founded c = false -> closed c = false -> up_run (events c ++ [e]) = Some Unopened /\ peerFin c = false). congruence.
  - intros _. change (up_run (events c ++ [e]) = Some (if peerFin c then Finished else Flowing)). by rewrite up_run_snoc, Hs.
Qed.

Lemma shaped_end c : shaped c -> founded c = true -> peerFin c = false -> shaped (emit UpEnd (c <| peerFin := true |>)).
Proof.
  intros [S1 S2 S3] Hf Hp. specialize (S3 Hf). rewrite Hp in S3.
  assert (E : up_run (events c ++ [UpEnd]) = Some Finished) by (by rewrite up_run_snoc, S3). split.
  - change (is_Some (up_run (events c ++ [UpEnd]))). rewrite E. by eexists.
  - change (founded c = false -> closed c = false -> up_run (events c ++ [UpEnd]) = Some Unopened /\ true = false). congruence.
  - intros _. exact E.
Qed.

Lemma recv_bytes c n p c' : call_kcp recv c = Ret (n, p, c') -> 0 < n -> p <> [].
Proof.
  unfold call_kcp. destruct (kcp c) as [k|]; [|done]. intros H Hn. apply outcome_bind_Ret in H as ([[n1 p1] k1] & H1 & H). injection H as -> -> _.
  unfold recv, Recv in H1. destruct (_ <? 0); [injection H1; lia|]. destruct (_ <? _); [injection H1; lia|].
  apply outcome_bind_Ret in H1 as ([got1 q] & _ & H1). apply outcome_bind_Ret in H1 as (k2 & _ & H1). injection H1 as <- <- _. intros ->. cbn in Hn. lia.
Qed.

Lemma deliver_loop_shaped fuel : forall c c', shaped c -> founded c = true -> peerFin c = false -> deliver_loop fuel c = Ret c' -> shaped c'.
Proof.
  induction fuel as [|fuel IH]; intros c c' HS Hf Hp H; cbn [deliver_loop] in H; [done|]. destruct (Buffered c) as [b c1] eqn:Eb.
  assert (O1 : outline c1 = outline c) by (unfold Buffered in Eb; by injection Eb as _ <-). apply (shaped_outline _ _ O1) in HS.
  unfold outline in O1. injection O1 as _ F1 P1 _. rewrite <- F1 in Hf. rewrite <- P1 in Hp. clear Eb F1 P1. pose proof (sh_founded _ HS Hf) as R1. rewrite Hp in R1.
  destruct (_ <=? b); [injection H as <-; eapply shaped_emit; [done|done|by rewrite R1|by rewrite Hp]|].
  apply outcome_bind_Ret in H as ([[n p] c2] & H2 & H). pose proof (recv_bytes _ _ _ _ H2) as Hne. apply outline_call in H2. apply (shaped_outline _ _ H2) in HS.
  unfold outline in H2. injection H2 as E2 F2 P2 _. rewrite <- F2 in Hf. rewrite <- P2 in Hp. rewrite <- E2 in R1. clear E2 F2 P2.
  destruct (n =? -2); [injection H as <-; apply (shaped_outline c2); [apply outline_fatal|done]|].
  destruct (Z.ltb_spec n 0); [injection H as <-; unfold endLower; destruct (_ || _); [done|by apply shaped_end]|].
  destruct (Z.eqb_spec n 0); [injection H as <-; by apply shaped_end|].
  eapply IH; [| | |exact H]; [|done|done]. eapply shaped_emit; [done|done| |by rewrite Hp]. rewrite R1. cbn. rewrite bool_decide_eq_false_2; [done|]. apply Hne. lia.
Qed.

Lemma deliver_shaped c c' : shaped c -> deliver c = Ret c' -> shaped c'.
Proof.
  intros HS. unfold deliver. change (bool_decide (is_Some (kcp c))) with (founded c). destruct (ended c || peerFin c || negb (founded c)) eqn:E; [by intros [= <-]|].
  apply orb_false_iff in E as [E Ef]. apply orb_false_iff in E as [_ Ep]. apply negb_false_iff in Ef. by apply deliver_loop_shaped.
Qed.

(** ** Founding *)

(** The session with its engine in place. *)
Definition founding (k : KCP) (conv now : Z) (c : conn) : conn :=
  publishState (c <| kcp := Some k |> <| cconv := conv |> <| cmss := MTU (opts c) - kcpOverhead |> <| nows ::= drop 1 |> <| lastInbound := Some now |>).

Lemma establish_eq conv c : establish conv c = arm 0 (founding (established conv (opts c)) conv (default 0 (nows c !! 0%nat)) c).
Proof. unfold establish, founding. generalize (established conv (opts c)). intros k. reflexivity. Qed.

Lemma founding_outline k conv now c : outline (founding k conv now c) = (up_run (events c), true, peerFin c, closed c).
Proof. unfold founding, publishState, outline, founded. cbn. by destruct (ended c). Qed.

Lemma establish_outline conv c : outline (establish conv c) = (up_run (events c), true, peerFin c, closed c).
Proof. rewrite establish_eq, outline_arm. apply founding_outline. Qed.

Lemma emit_open c b : outline c = (Some Unopened, true, false, b) -> shaped (emit UpOpen c).
Proof.
  unfold outline. intros [= E1 E2 E3 E4].
  assert (E : up_run (events c ++ [UpOpen]) = Some Flowing) by (by rewrite up_run_snoc, E1). split.
  - change (is_Some (up_run (events c ++ [UpOpen]))). rewrite E. by eexists.
  - change (founded c = false -> closed c = false -> up_run (events c ++ [UpOpen]) = Some Unopened /\ peerFin c = false). congruence.
  - intros _. change (up_run (events c ++ [UpOpen]) = Some (if peerFin c then Finished else Flowing)). by rewrite E, E3.
Qed.

Lemma open_shaped conv c : shaped c -> founded c = false -> closed c = false -> shaped (emit UpOpen (establish conv c)).
Proof.
  intros HS Hf Hc. destruct (sh_unfounded _ HS Hf Hc) as [R P]. apply (emit_open _ false). by rewrite establish_outline, R, P, Hc.
Qed.

Lemma closed_emit e c : closed (emit e c) = closed c.
Proof. done. Qed.

Lemma outline_closed c u f p b : outline c = (u, f, p, b) -> closed c = b.
Proof. unfold outline. by intros [= _ _ _ ->]. Qed.

Lemma closed_open conv c : closed (emit UpOpen (establish conv c)) = closed c.
Proof. rewrite closed_emit. exact (outline_closed _ _ _ _ _ (establish_outline conv c)). Qed.

Lemma feed_shaped seg c b c' : shaped c -> closed c = false -> feed seg c = Ret (b, c') -> shaped c' /\ closed c' = false.
Proof.
  intros HS Hc H. unfold feed in H. change (bool_decide (is_Some (kcp c))) with (founded c) in H. destruct (negb (_ =? 0)).
  { injection H as _ <-. destruct (_ || _); [|done]. pose proof (outline_fatal (ErrProtocol (bytes_at 5 1 seg)) c) as E. split; [by apply (shaped_outline c)|]. by rewrite closed_fatal. }
  destruct (negb (founded c) && _); [by injection H as _ <-|].
  set (c1 := if negb (founded c) then _ else c) in H.
  assert (H1 : shaped c1 /\ closed c1 = false).
  { subst c1. destruct (founded c) eqn:Ef; cbn [negb]; [done|]. split; [by apply open_shaped|by rewrite closed_open]. }
  clearbody c1. apply outcome_bind_Ret in H as ([r c2] & H2 & H). injection H as _ <-. apply outline_call in H2. rewrite outline_emit in H2 by done.
  split; [apply (shaped_outline c1); [done|apply H1]|]. unfold outline in H2. injection H2 as _ _ _ ->. apply H1.
Qed.

Lemma input_packet_shaped fuel : forall rest fed c b c', shaped c -> closed c = false -> input_packet fuel rest fed c = Ret (b, c') -> shaped c' /\ closed c' = false.
Proof.
  induction fuel as [|fuel IH]; intros rest fed c b c' HS Hc H; cbn [input_packet] in H; [done|]. destruct rest as [|x r]; [by injection H as _ <-|].
  set (rest := x :: r) in *. clearbody rest. destruct (segmentLength rest); [|by injection H as _ <-]. destruct (_ <? _); [by injection H as _ <-|].
  apply outcome_bind_Ret in H as ([b1 c1] & H1 & H). destruct (feed_shaped _ _ _ _ HS Hc H1) as [HS1 Hc1]. by eapply IH.
Qed.

Lemma input_stream_shaped fuel : forall rest fed c b l c', shaped c -> closed c = false -> input_stream fuel rest fed c = Ret (b, l, c') -> shaped c' /\ closed c' = false.
Proof.
  induction fuel as [|fuel IH]; intros rest fed c b l c' HS Hc H; cbn [input_stream] in H; [done|]. destruct (_ <? kcpOverhead); [by injection H as _ _ <-|].
  destruct (segmentLength rest).
  - destruct (_ <? _); [by injection H as _ _ <-|]. apply outcome_bind_Ret in H as ([b1 c1] & H1 & H). destruct (feed_shaped _ _ _ _ HS Hc H1) as [HS1 Hc1]. by eapply IH.
  - injection H as _ _ <-. split; [apply (shaped_outline c); [apply outline_fatal|done]|by rewrite closed_fatal].
Qed.

Lemma takeChunk_shaped chunk c b c' : shaped c -> closed c = false -> takeChunk chunk c = Ret (b, c') -> shaped c'.
Proof.
  intros HS Hc. unfold takeChunk. destruct chunk as [|x r]; [by intros [= _ <-]|]. set (chunk := x :: r). clearbody chunk. destruct (packet c); intros H.
  - apply outcome_bind_Ret in H as ([b1 c1] & H1 & H). injection H as _ <-. destruct (input_packet_shaped _ _ _ _ _ _ HS Hc H1) as [HS1 _].
    apply (shaped_outline c1); [by apply outline_emit|done].
  - unfold inputStream in H. apply outcome_bind_Ret in H as ([[b1 l] c1] & H1 & H). injection H as _ <-.
    apply input_stream_shaped in H1 as [HS1 _]; [by apply (shaped_outline c1)| |done]. eapply shaped_outline; [by apply outline_emit|]. by apply (shaped_outline c).
Qed.

(** ** The handlers *)

Lemma OnRead_shaped chunk e c c' : shaped c -> OnRead chunk e c = Ret c' -> shaped c'.
Proof.
  intros HS H. unfold OnRead in H. destruct (Now c) as [now c1] eqn:En. assert (HS1 : shaped c1) by (apply (shaped_outline c); [unfold Now in En; by injection En as _ <-|done]).
  clear En. destruct (closed c1 || ended c1) eqn:Ee; [by injection H as <-|]. apply orb_false_iff in Ee as [Ec _].
  apply outcome_bind_Ret in H as ([fed c2] & H2 & H). pose proof (takeChunk_shaped _ _ _ _ HS1 Ec H2) as HS2.
  set (c3 := if fed then _ else c2) in H. assert (HS3 : shaped c3) by (subst c3; destruct fed; [by apply (shaped_outline c2)|done]).
  destruct (_ || _); [by injection H as <-|]. apply outcome_bind_Ret in H as (c4 & H4 & H). pose proof (deliver_shaped _ _ HS3 H4) as HS4.
  apply outcome_bind_Ret in H as ([b c5] & H5 & H). apply outline_answer in H5. assert (HS5 : shaped c5) by (by apply (shaped_outline c4)).
  destruct (_ || _); [by injection H as <-|]. unfold streamLowerEnded in H. destruct (_ || _); [by injection H as <-|]. destruct (negb e); [by injection H as <-|].
  case_bool_decide; [injection H as <-; apply (shaped_outline c5); [apply outline_fatal|done]|]. eapply deliver_shaped; [|exact H]. by apply (shaped_outline c5).
Qed.

Lemma handle_shaped h c c' : shaped c -> handle h c = Ret c' -> shaped c'.
Proof.
  intros HS H. destruct h; cbn [handle] in H.
  - by eapply OnRead_shaped.
  - unfold OnTimer in H. set (c0 := c <| armedAt := None |>) in H. assert (HS0 : shaped c0) by (by apply (shaped_outline c)).
    destruct (_ || _); [by injection H as <-|]. destruct (negb _); [injection H as <-; apply (shaped_outline c0); [apply outline_fatal|done]|].
    apply outcome_bind_Ret in H as (c1 & H1 & H). apply outline_maintain in H1. assert (HS1 : shaped c1) by (by apply (shaped_outline c0)).
    apply outcome_bind_Ret in H as (c2 & H2 & H). pose proof (deliver_shaped _ _ HS1 H2) as HS2. destruct (Now c2) as [now c3] eqn:En. unfold Now in En. injection En as _ <-.
    apply outline_keepAlive in H. by apply (shaped_outline c2).
  - apply outcome_bind_Ret in H as ([[r1 r2] c1] & H1 & H). injection H as <-. unfold OnWrite in H1. destruct p as [|x q]; [by injection H1 as _ _ <-|].
    destruct (kcp c); [|by injection H1 as _ _ <-]. do 2 (destruct (_ || _); [by injection H1 as _ _ <-|]). apply outcome_bind_Ret in H1 as ([b c2] & H2 & H1). apply outline_write in H2.
    assert (HS2 : shaped c2) by (by apply (shaped_outline c)). destruct b; [|by injection H1 as _ _ <-]. apply outcome_bind_Ret in H1 as (c3 & H3 & H1). apply outline_maintain in H3.
    assert (HS3 : shaped c3) by (by apply (shaped_outline c2)). by destruct (ended c3); injection H1 as _ _ <-.
  - unfold CloseWrite in H. destruct (_ || _); [by injection H as <-|]. apply outcome_bind_Ret in H as ([ret c1] & H1 & H). apply outline_call in H1.
    assert (HS1 : shaped c1) by (by apply (shaped_outline c)). destruct (negb _); [by injection H as <-|]. apply outline_maintain in H. by apply (shaped_outline c1).
  - unfold CloseGracefully in H. apply outcome_bind_Ret in H as (c1 & H1 & H). injection H as <-. apply (shaped_outline c1); [done|].
    destruct (_ && _); [|by injection H1 as <-]. apply outcome_bind_Ret in H1 as ([ret c2] & H2 & H1). apply outline_call in H2.
    assert (HS2 : shaped c2) by (by apply (shaped_outline c)). destruct (ret =? 0); [|by injection H1 as <-].
    apply outcome_bind_Ret in H1 as ([x c3] & H3 & H1). injection H1 as <-. apply outline_call in H3. apply (shaped_outline c2); [by rewrite outline_sendBatch|done].
  - injection H as <-. destruct HS as [S1 S2 S3]. split; done.
  - injection H as <-. by apply (shaped_outline c).
Qed.

Lemma opened_shaped r cl pd rs seed : shaped (opened r cl pd rs seed).
Proof.
  unfold opened, OnOpen, newResolvedLayer. cbn [layer_err attached]. set (c := (attached r cl None) <| packet := pd |>).
  assert (HS : shaped c) by (split; [by eexists|done|done]). assert (Hf : founded c = false) by done. assert (Hc : closed c = false) by done.
  clearbody c. destruct (_ && _); [eapply shaped_outline; [by apply outline_emit|]; by apply (shaped_outline c)|]. destruct (negb (client c)).
  - destruct (0 <? _); [|done]. unfold Now. eapply shaped_outline; [apply outline_armFor|]. by apply (shaped_outline c).
  - destruct seed as [seed|]; [by apply open_shaped|]. eapply shaped_outline; [by apply outline_emit|]. destruct HS as [S1 S2 S3]. by split.
Qed.

(** C23. The layer above sees a well-formed stream.  In any run of a session,
    its calls upwards are at most one open, then writes of at least one byte
    and yields, then at most one end with nothing after it; a session that was
    never founded makes none, and a founded one has opened and has ended the
    stream exactly when it noted its peer's end. *)
Theorem stream_above_well_formed r client pd rs seed c : rtc session_step (opened r client pd rs seed) c -> shaped c.
Proof.
  intros H. apply (rtc_ind_r shaped (opened r client pd rs seed)) in H; [done|apply opened_shaped|].
  intros x y _ (h & _ & HP) HS. by eapply handle_shaped.
Qed.

(** A push of two bytes, and the empty push that ends the peer's stream. *)
Definition last_datagram : list Z := encode (MkSeg 7 81 0 32 0 0 0 0 0 0 0 false [8; 9]) ++ [8; 9] ++ encode (MkSeg 7 81 0 32 0 1 0 0 0 0 0 false []).

Lemma stream_above_well_formed_witness : exists c, handle (CRead last_datagram false) (opened plain_options false true None None) = Ret c /\
  filter (fun e => downward e = false) (events c) = [UpOpen; UpWrite [8; 9]; UpEnd] /\ shaped c.
Proof.
  destruct (handle (CRead last_datagram false) (opened plain_options false true None None)) as [c|] eqn:E; [|vm_compute in E; discriminate E].
  assert (HS : shaped c).
  { apply (stream_above_well_formed plain_options false true None None). eapply rtc_l; [|apply rtc_refl]. exists (CRead last_datagram false). split; [|exact E]. by repeat constructor. }
  vm_compute in E. injection E as <-. eexists. split; [reflexivity|]. split; [vm_compute; reflexivity|exact HS].
Defined.

(** ** Segments over a byte stream *)

(** The segments handed to the engine so far. *)
Definition inputs (c : conn) : list (list Z) := omap (fun e => match e with KcpInput s => Some s | _ => None end) (events c).

Definition frame (g : segment) : list Z := encode g ++ data g.

(** A segment as the stream dialect sends it. *)
Record dialect (g : segment) : Prop := {
  dl_wire : wire_ok g;
  dl_frg : frg g = 0;
  dl_len : Z.of_nat (length (data g)) <= maxSegmentPayload;
  dl_bytes : Forall is_byte (data g)
}.

Lemma encode_bytes g : wire_ok g -> Forall is_byte (encode g).
Proof.
  intros [H1 H2 H3 H4 H5 H6 H7 H8]. unfold encode. apply known_cmd_byte in H2.
  rewrite !Forall_app. split_and!; try apply le_bytes_byte. constructor; [done|]. constructor; [done|constructor].
Qed.

Lemma frame_fields g rest : wire_ok g -> bytes_at 0 4 (frame g ++ rest) = sconv g /\ bytes_at 4 1 (frame g ++ rest) = cmd g /\
  bytes_at 5 1 (frame g ++ rest) = frg g /\ bytes_at 20 4 (frame g ++ rest) = Z.of_nat (length (data g)).
Proof.
  intros Hw. destruct (decode_encode g (data g ++ rest) Hw) as [E _]. unfold frame. rewrite <- app_assoc.
  unfold decode in E. injection E as E1 E2 E3 _ _ _ _ E4. done.
Qed.

Lemma frame_whole g : dialect g -> whole (frame g).
Proof.
  intros [H1 H2 H3 H4]. destruct (frame_fields g [] H1) as (_ & _ & _ & E). rewrite app_nil_r in E. unfold whole. rewrite E.
  split; [unfold frame; apply Forall_app; split; [by apply encode_bytes|done]|]. split; [lia|]. unfold frame. rewrite length_app, length_encode. unfold kcpOverhead. lia.
Qed.

Lemma inputs_emit e c : inputs (emit e c) = inputs c ++ match e with KcpInput s => [s] | _ => [] end.
Proof. unfold inputs. change (events (emit e c)) with (events c ++ [e]). rewrite omap_app. by destruct e. Qed.

Lemma inputs_arm next c : inputs (arm next c) = inputs c.
Proof.
  assert (HF : forall t c, inputs (armFor t c) = inputs c).
  { intros t x. assert (HT : inputs (setTimer t x) = inputs x).
    { unfold setTimer. pose proof (inputs_emit (SetTimer t) (x <| timers ::= drop 1 |>)) as E. cbn [app] in E. rewrite app_nil_r in E. destruct (default true _); exact E. }
    unfold armFor. repeat (case_match; try done). }
  unfold arm. destruct (kcp c) as [k|]; [|done]. destruct (_ || _); [done|]. set (x := if (0 <? WaitSnd k)%nat then _ else _).
  assert (Hx : inputs x.2 = inputs c) by (subst x; by destruct (0 <? WaitSnd k)%nat). destruct x as [d c1]. cbn [snd] in Hx. rewrite <- Hx.
  repeat case_match; try done; apply HF.
Qed.

Definition lane (c : conn) := (pending c, packet c, client c).

Lemma lane_arm next c : lane (arm next c) = lane c.
Proof.
  assert (HF : forall t c, lane (armFor t c) = lane c) by (intros t x; unfold armFor, setTimer; repeat (case_match; try done)).
  unfold arm. destruct (kcp c) as [k|]; [|done]. destruct (_ || _); [done|]. set (x := if (0 <? WaitSnd k)%nat then _ else _).
  assert (Hx : lane x.2 = lane c) by (subst x; by destruct (0 <? WaitSnd k)%nat). destruct x as [d c1]. cbn [snd] in Hx. rewrite <- Hx.
  repeat case_match; try done; apply HF.
Qed.

Lemma founding_lane k conv now c : inputs (founding k conv now c) = inputs c /\ lane (founding k conv now c) = lane c.
Proof. unfold founding, publishState. cbn. by destruct (ended c). Qed.

Lemma establish_lane conv c : inputs (establish conv c) = inputs c /\ lane (establish conv c) = lane c.
Proof. rewrite establish_eq, inputs_arm, lane_arm. apply founding_lane. Qed.

Lemma call_lane {A} (f : KCP -> outcome (A * KCP)) c a c' : call_kcp f c = Ret (a, c') -> inputs c' = inputs c /\ lane c' = lane c.
Proof.
  unfold call_kcp. destruct (kcp c) as [k|] eqn:Ek; [|done]. intros H. apply outcome_bind_Ret in H as ([a1 k1] & _ & H). injection H as _ <-.
  unfold staging. destruct (_ || _); done.
Qed.

Lemma lane_emit e c : lane (emit e c) = lane c.
Proof. done. Qed.

(** A session that takes segments: a founded one, or a server. *)
Definition takes (c : conn) : Prop := founded c = true \/ client c = false.

Lemma feed_takes o g c : runnable o -> session_sane o c -> takes c -> dialect g -> exists b c', feed (frame g) c = Ret (b, c') /\ session_sane o c' /\
  founded c' = true /\ inputs c' = inputs c ++ [frame g] /\ lane c' = lane c.
Proof.
  intros Ho HS HT Hg. destruct (feed_sane o Ho (frame g) c HS (frame_whole g Hg)) as (b & c' & E & HS'). exists b, c'. split; [done|]. split; [done|].
  destruct (frame_fields g [] (dl_wire _ Hg)) as (F1 & F2 & F3 & F4). rewrite app_nil_r in *. unfold feed in E. rewrite F3, (dl_frg _ Hg) in E. cbn [Z.eqb negb] in E.
  change (bool_decide (is_Some (kcp c))) with (founded c) in E.
  assert (Hk : negb (founded c) && (client c || negb (knownCommand (bytes_at 4 1 (frame g)))) = false).
  { rewrite F2. change (knownCommand (cmd g)) with (known_cmd (cmd g)). rewrite (w_cmd _ (dl_wire _ Hg)). destruct HT as [->| ->]; [done|]. by rewrite andb_false_r. }
  rewrite Hk in E. set (c1 := if negb (founded c) then _ else c) in E.
  assert (H1 : inputs c1 = inputs c /\ lane c1 = lane c).
  { subst c1. destruct (negb (founded c)); [|done]. destruct (establish_lane (bytes_at 0 4 (frame g)) c) as [A B]. rewrite inputs_emit, app_nil_r, lane_emit. by split. }
  clearbody c1. apply outcome_bind_Ret in E as ([r c2] & H2 & E). injection E as _ <-. pose proof (staging_kcp_some _ _ _ _ H2) as Hf. apply call_lane in H2 as [I2 L2].
  split; [unfold founded; by rewrite bool_decide_eq_true|]. rewrite I2, inputs_emit. destruct H1 as [-> L1]. split; [done|]. by rewrite L2.
Qed.

Lemma dgram_cons g gs : dgram (g :: gs) = frame g ++ dgram gs.
Proof. done. Qed.

Lemma bytes_at_app off n a b : (off + n <= length a)%nat -> bytes_at off n (a ++ b) = bytes_at off n a.
Proof. intros H. rewrite <- (bytes_at_take off n (length a) (a ++ b)) by done. by rewrite take_app_length. Qed.

(** What is at hand of a stream of segments holds its first ones whole. *)
Lemma input_stream_takes o fuel : forall rest more gs fed c, runnable o -> session_sane o c -> takes c -> Forall dialect gs -> rest ++ more = dgram gs -> (length rest < fuel)%nat ->
  exists b l c' gs1 gs2, input_stream fuel rest fed c = Ret (b, l, c') /\ session_sane o c' /\ takes c' /\ gs = gs1 ++ gs2 /\ l ++ more = dgram gs2 /\
    (more = [] -> l = []) /\ inputs c' = inputs c ++ (frame <$> gs1) /\ (packet c', client c') = (packet c, client c).
Proof.
  induction fuel as [|fuel IH]; intros rest more gs fed c Ho HS HT HG He Hf; [lia|]. cbn [input_stream].
  assert (Hstop : exists b l c' gs1 gs2, @Ret (bool * list Z * conn) (fed, rest, c) = Ret (b, l, c') /\ session_sane o c' /\ takes c' /\ gs = gs1 ++ gs2 /\ l ++ more = dgram gs2 /\
    inputs c' = inputs c ++ (frame <$> gs1) /\ (packet c', client c') = (packet c, client c) /\ l = rest).
  { exists fed, rest, c, [], gs. cbn. rewrite app_nil_r. by repeat (split; [done|]). }
  destruct Hstop as (b0 & l0 & c0 & g1 & g2 & E0 & A1 & A2 & A3 & A4 & A5 & A6 & ->).
  destruct (Z.ltb_spec (Z.of_nat (length rest)) kcpOverhead) as [X|X].
  { exists b0, rest, c0, g1, g2. split; [done|]. repeat (split; [done|]). split; [|done]. intros ->. rewrite app_nil_r in He.
    destruct gs as [|g gs]; [done|]. exfalso. rewrite dgram_cons in He. apply (f_equal length) in He. unfold frame, kcpOverhead in *. rewrite !length_app, length_encode in He. lia. }
  destruct gs as [|g gs]; [apply (f_equal length) in He; rewrite length_app in He; unfold kcpOverhead in *; cbn in He; lia|].
  inversion HG as [|? ? Hg HG']; subst. rewrite dgram_cons in He. unfold kcpOverhead in X.
  destruct (frame_fields g (dgram gs) (dl_wire _ Hg)) as (_ & _ & _ & F4). rewrite <- He, bytes_at_app in F4 by lia.
  assert (Es : segmentLength rest = Some (Z.of_nat (length (data g)))).
  { unfold segmentLength, kcpOverhead. destruct (Z.ltb_spec (Z.of_nat (length rest)) 24); [lia|]. rewrite F4. pose proof (dl_len _ Hg).
    destruct (Z.ltb_spec maxSegmentPayload (Z.of_nat (length (data g)))); [lia|done]. }
  rewrite Es. assert (Hl : length (frame g) = (24 + length (data g))%nat) by (unfold frame; by rewrite length_app, length_encode).
  unfold kcpOverhead. destruct (Z.ltb_spec (Z.of_nat (length rest)) (24 + Z.of_nat (length (data g)))) as [Y|Y].
  { exists b0, rest, c0, g1, g2. split; [done|]. repeat (split; [done|]). split; [|done]. intros ->. rewrite app_nil_r in He. apply (f_equal length) in He. rewrite length_app in He. lia. }
  replace (Z.to_nat (24 + Z.of_nat (length (data g)))) with (length (frame g)) by lia.
  assert (Et : take (length (frame g)) rest = frame g /\ drop (length (frame g)) rest ++ more = dgram gs).
  { rewrite <- (take_drop (length (frame g)) rest), <- app_assoc in He. apply app_inj_1 in He; [done|]. rewrite length_take. lia. }
  destruct Et as [-> Ed]. destruct (feed_takes o g c Ho HS HT Hg) as (b & c1 & -> & HS1 & Hf1 & I1 & L1). cbn [mbind outcome_bind].
  destruct (IH (drop (length (frame g)) rest) more gs (fed || b) c1 Ho HS1 (or_introl Hf1) HG' Ed) as (b2 & l2 & c2 & g3 & g4 & E2 & B1 & B2 & B3 & B4 & B5 & B6 & B7).
  { rewrite length_drop. lia. }
  exists b2, l2, c2, (g :: g3), g4. split; [done|]. split; [done|]. split; [done|]. split; [by rewrite B3|]. split; [done|]. split; [done|].
  unfold lane in L1. injection L1 as L11 L12 L13. split; [rewrite B6, I1, <- app_assoc; done|congruence].
Qed.

Lemma dgram_bytes gs : Forall dialect gs -> Forall is_byte (dgram gs).
Proof.
  induction 1 as [|g gs [H1 _ _ H4] _ IH]; [constructor|]. rewrite dgram_cons. unfold frame. rewrite !Forall_app. split; [split; [by apply encode_bytes|done]|done].
Qed.

(** The turns of a stream connection, a chunk each. *)
Fixpoint take_chunks (chunks : list (list Z)) (c : conn) : outcome conn :=
  match chunks with [] => Ret c | ch :: chunks => '(_, c) ← takeChunk ch c; take_chunks chunks c end.

Lemma take_chunks_takes o : forall chunks gs c, runnable o -> session_sane o c -> takes c -> packet c = false -> Forall dialect gs ->
  Forall (Forall is_byte) chunks -> pending c ++ concat chunks = dgram gs -> (concat chunks = [] -> pending c = []) ->
  exists c', take_chunks chunks c = Ret c' /\ inputs c' = inputs c ++ (frame <$> gs) /\ pending c' = [].
Proof.
  induction chunks as [|ch chunks IH]; intros gs c Ho HS HT Hp HG HB He Hn; cbn [take_chunks concat] in *.
  { rewrite (Hn eq_refl) in He. exists c. destruct gs as [|g gs]; [cbn; rewrite app_nil_r; auto|].
    rewrite dgram_cons in He. apply (f_equal length) in He. unfold frame in He. rewrite !length_app, length_encode in He. cbn in He. lia. }
  inversion HB as [|? ? HB1 HB2]; subst. unfold takeChunk. destruct ch as [|x r]; [cbn [mbind outcome_bind]; by apply IH|].
  set (ch := x :: r) in *. rewrite Hp. set (c1 := emit _ _).
  assert (HS1 : session_sane o c1).
  { unfold c1. eapply sane_glides; [|by apply emit_glides]. destruct HS as [S1 S2 S3 S4 S5]. split; try done. cbn. by apply Forall_app. }
  assert (H1 : pending c1 = pending c ++ ch /\ inputs c1 = inputs c /\ (packet c1, client c1, founded c1) = (packet c, client c, founded c)).
  { unfold c1. rewrite inputs_emit, app_nil_r. done. }
  clearbody c1. destruct H1 as (P1 & I1 & [= Q1 Q2 Q3]). unfold inputStream. rewrite app_assoc, <- P1 in He.
  destruct (input_stream_takes o (S (length (pending c1))) (pending c1) (concat chunks) gs false c1 Ho HS1) as (b & l & c2 & g1 & g2 & E & A1 & A2 & A3 & A4 & A5 & A6 & [= A7 A8]);
    [unfold takes in *; by rewrite Q2, Q3|done|done|lia|].
  rewrite E. cbn [mbind outcome_bind]. subst gs. apply Forall_app in HG as [_ HG2].
  destruct (IH g2 (c2 <| pending := l |>)) as (c3 & E3 & I3 & P3); try done.
  - destruct A1 as [S1 S2 S3 S4 S5]. split; try done. cbn. pose proof (dgram_bytes g2 HG2) as HD. rewrite <- A4 in HD. by apply Forall_app in HD as [HD _].
  - cbn. congruence.
  - exists c3. split; [exact E3|]. split; [|done]. rewrite I3, fmap_app, app_assoc. change (inputs (c2 <| pending := l |>)) with (inputs c2). by rewrite A6, I1.
Qed.

(** C24. Segments survive a byte stream.  A session over a connection that
    carries bytes, server or founded, hands its engine exactly the segments the
    peer sent, whole and in order, however the stream is cut into chunks, and
    keeps nothing back. *)
Theorem segments_survive_streaming o chunks gs c : runnable o -> session_sane o c -> takes c -> packet c = false -> pending c = [] ->
  Forall dialect gs -> concat chunks = dgram gs ->
  exists c', take_chunks chunks c = Ret c' /\ inputs c' = inputs c ++ (frame <$> gs) /\ pending c' = [].
Proof.
  intros Ho HS HT Hp Hn HG He. apply (take_chunks_takes o); try done; [|by rewrite Hn].
  pose proof (dgram_bytes gs HG) as HD. rewrite <- He in HD. clear -HD. induction chunks as [|ch chunks IH]; [constructor|].
  cbn in HD. apply Forall_app in HD as [A B]. constructor; auto.
Qed.

(** Two segments of a peer, cut inside a header and inside a payload. *)
Definition two_segments : list segment := [MkSeg 7 81 0 32 0 0 0 0 0 0 0 false [8; 9]; MkSeg 7 81 0 32 0 1 0 0 0 0 0 false [10]].
Definition odd_chunks : list (list Z) := [take 10 (dgram two_segments); take 15 (drop 10 (dgram two_segments)); []; drop 25 (dgram two_segments)].

Lemma segments_survive_streaming_witness : exists c', take_chunks odd_chunks (opened plain_options false false None None) = Ret c' /\
  inputs c' = inputs (opened plain_options false false None None) ++ (frame <$> two_segments) /\ pending c' = [].
Proof.
  assert (Hr : resolve zero_options = inl plain_options) by (vm_compute; reflexivity).
  apply (segments_survive_streaming plain_options odd_chunks two_segments).
  - by apply (resolve_runnable zero_options).
  - apply (run_sane zero_options plain_options false false None None); [exact Hr|apply rtc_refl].
  - right. reflexivity.
  - reflexivity.
  - reflexivity.
  - repeat constructor; by vm_compute.
  - vm_compute. reflexivity.
Defined.
