(* ===== verification/ShardPool.v ===== *)
(** * internal/shardpool: the worker shards

    A pool runs tasks on goroutines grouped in shards.  Every shared variable
    is a sync/atomic value, or is guarded by a mutex, so the model is an
    interleaving of atomic operations: a goroutine is a label in the function
    it runs, each function is a definition that performs the operation at a
    label and says where the goroutine is next, and any goroutine may go next.
    A mutex's critical section is one operation; each touches at most one
    variable read outside its mutex.

    A shard's queue is a bounded ring of cells with sequence numbers, written
    and taken by any number of goroutines without a lock.  Positions and
    sequence numbers are uint64, with their wrap-around written out.  [pushed]
    and [served] are ghosts: the tasks in the order their positions were
    claimed by submitters, and by workers.  [submitted], [ran] and [dropped]
    are ghosts of the pool: the tasks handed in, finished and refused.

    Go's scheduler, tickers and user tasks are the environment: which
    goroutine steps, when a ticker fires and when a task ends are the events
    of a run. *)

From S2P Require Import Prelude Update WheelRing.
Local Open Scope Z_scope.

Definition u64 (z : Z) : Z := wrap 64 z.

Definition MaxWorkers : Z := 512.
Definition DefaultCapacity : Z := 4096.
Definition SplitKeysPerShard : Z := 64.
Definition MergeKeysPerShard : Z := 32.
Definition SplitKeysPerShard4 : Z := 256.
Definition MergeKeysPerShard4 : Z := 192.
Definition watchIdleTicks : Z := 50.
Definition rescueEvery : Z := 1000000.
Definition rescueStalls : Z := 2.
Definition idleTicks : Z := 30.

(** ** Shared memory *)

(** A task in a cell or in a goroutine's hands; [None] is T's zero value. *)
Abbreviation item T := (option T).

Record slot (T : Type) : Type := MkSlot { seq_ : Z; task : item T }.
Arguments MkSlot {T} _ _.
Arguments seq_ {T} _.
Arguments task {T} _.

Record shard (T : Type) : Type := MkShard {
  slots : list (slot T);
  tail : Z;
  head : Z;
  coming : Z;
  running : Z;
  idleCount : Z;
  idle : list nat;          (* parked workers, the most recently parked last *)
  live : Z;
  rescueHead : Z;
  stalls : Z;
  pushed : list (item T);   (* ghost *)
  served : list (item T)    (* ghost *)
}.
Arguments MkShard {T} _ _ _ _ _ _ _ _ _ _ _ _.
Arguments slots {T} _.
Arguments tail {T} _.
Arguments head {T} _.
Arguments coming {T} _.
Arguments running {T} _.
Arguments idleCount {T} _.
Arguments idle {T} _.
Arguments live {T} _.
Arguments rescueHead {T} _.
Arguments stalls {T} _.
Arguments pushed {T} _.
Arguments served {T} _.

#[export] Instance shard_expanded {T} : Expanded (shard T) :=
  fun s => MkShard (slots s) (tail s) (head s) (coming s) (running s) (idleCount s) (idle s) (live s)
    (rescueHead s) (stalls s) (pushed s) (served s).
#[export] Instance over_slots {T} : Field (@slots T) := ltac:(field_updater).
#[export] Instance over_tail {T} : Field (@tail T) := ltac:(field_updater).
#[export] Instance over_head {T} : Field (@head T) := ltac:(field_updater).
#[export] Instance over_coming {T} : Field (@coming T) := ltac:(field_updater).
#[export] Instance over_running {T} : Field (@running T) := ltac:(field_updater).
#[export] Instance over_idleCount {T} : Field (@idleCount T) := ltac:(field_updater).
#[export] Instance over_idle {T} : Field (@idle T) := ltac:(field_updater).
#[export] Instance over_live {T} : Field (@live T) := ltac:(field_updater).
#[export] Instance over_rescueHead {T} : Field (@rescueHead T) := ltac:(field_updater).
#[export] Instance over_stalls {T} : Field (@stalls T) := ltac:(field_updater).
#[export] Instance over_pushed {T} : Field (@pushed T) := ltac:(field_updater).
#[export] Instance over_served {T} : Field (@served T) := ltac:(field_updater).

(** A worker and its channel [wake] of capacity one: empty, or the shard to
    serve, or nil. *)
Record worker : Type := MkWorker { home : nat; wake : option (option nat); parked : Z }.

#[export] Instance worker_expanded : Expanded worker := fun w => MkWorker (home w) (wake w) (parked w).
#[export] Instance over_wake : Field wake := ltac:(field_updater).
#[export] Instance over_parked : Field parked := ltac:(field_updater).

(** A WaitGroup is its counter; [objects] are the worker structs, named by
    their place. *)
Record pool (T : Type) : Type := MkPool {
  shards : list (shard T);
  base : Z;
  active : Z;
  keys : Z;
  starving : bool;
  stopped : bool;
  clock : Z;
  rescueAt : Z;
  rescuing : bool;
  done_ : bool;             (* the channel done is closed *)
  janitor : bool;           (* the Once has run *)
  workers : Z;
  overflow : Z;
  watching : bool;
  objects : list worker;
  submitted : list (item T);  (* ghost *)
  ran : list (item T);        (* ghost *)
  dropped : list (item T)     (* ghost *)
}.
Arguments MkPool {T} _ _ _ _ _ _ _ _ _ _ _ _ _ _ _ _ _ _.
Arguments shards {T} _.
Arguments base {T} _.
Arguments active {T} _.
Arguments keys {T} _.
Arguments starving {T} _.
Arguments stopped {T} _.
Arguments clock {T} _.
Arguments rescueAt {T} _.
Arguments rescuing {T} _.
Arguments done_ {T} _.
Arguments janitor {T} _.
Arguments workers {T} _.
Arguments overflow {T} _.
Arguments watching {T} _.
Arguments objects {T} _.
Arguments submitted {T} _.
Arguments ran {T} _.
Arguments dropped {T} _.

#[export] Instance pool_expanded {T} : Expanded (pool T) :=
  fun p => MkPool (shards p) (base p) (active p) (keys p) (starving p) (stopped p) (clock p) (rescueAt p)
    (rescuing p) (done_ p) (janitor p) (workers p) (overflow p) (watching p) (objects p) (submitted p) (ran p) (dropped p).
#[export] Instance over_shards {T} : Field (@shards T) := ltac:(field_updater).
#[export] Instance over_active {T} : Field (@active T) := ltac:(field_updater).
#[export] Instance over_keys {T} : Field (@keys T) := ltac:(field_updater).
#[export] Instance over_starving {T} : Field (@starving T) := ltac:(field_updater).
#[export] Instance over_stopped {T} : Field (@stopped T) := ltac:(field_updater).
#[export] Instance over_clock {T} : Field (@clock T) := ltac:(field_updater).
#[export] Instance over_rescueAt {T} : Field (@rescueAt T) := ltac:(field_updater).
#[export] Instance over_rescuing {T} : Field (@rescuing T) := ltac:(field_updater).
#[export] Instance over_done_ {T} : Field (@done_ T) := ltac:(field_updater).
#[export] Instance over_janitor {T} : Field (@janitor T) := ltac:(field_updater).
#[export] Instance over_workers {T} : Field (@workers T) := ltac:(field_updater).
#[export] Instance over_overflow {T} : Field (@overflow T) := ltac:(field_updater).
#[export] Instance over_watching {T} : Field (@watching T) := ltac:(field_updater).
#[export] Instance over_objects {T} : Field (@objects T) := ltac:(field_updater).
#[export] Instance over_submitted {T} : Field (@submitted T) := ltac:(field_updater).
#[export] Instance over_ran {T} : Field (@ran T) := ltac:(field_updater).
#[export] Instance over_dropped {T} : Field (@dropped T) := ltac:(field_updater).

Definition shard0 {T} : shard T := MkShard [] 0 0 0 0 0 [] 0 0 0 [] [].
Definition sh {T} (m : pool T) (s : nat) : shard T := nth s (shards m) shard0.
Definition worker0 : worker := MkWorker 0 None 0.
Definition ob {T} (m : pool T) (w : nat) : worker := nth w (objects m) worker0.

Definition mask {T} (s : shard T) : Z := Z.of_nat (length (slots s)) - 1.

(** The cell of a position: [&s.slots[pos&s.mask]]. *)
Definition cellAt {T} (s : shard T) (pos : Z) : nat := Z.to_nat (Z.land pos (mask s)).
Definition cell {T} (s : shard T) (pos : Z) : slot T := nth (cellAt s pos) (slots s) (MkSlot 0 None).

(** ** Labels: where a goroutine is in each function, named after the
    operation it performs next. *)

Inductive has_at : Type := HasHead | HasSeq (pos : Z).
Inductive push_at : Type := PushTail | PushSeq (pos : Z) | PushCas (pos : Z) | PushWrite (pos : Z) | PushPublish (pos : Z).
Inductive pop_at (T : Type) : Type :=
| PopHead | PopSeq (pos : Z) | PopCas (pos : Z) | PopTake (pos : Z) | PopFree (pos : Z) (t : item T).
Arguments PopHead {T}.
Arguments PopSeq {T} _.
Arguments PopCas {T} _.
Arguments PopTake {T} _.
Arguments PopFree {T} _ _.

Inductive wake_at : Type := WakeCount | WakeLock | WakeSend (w : nat).
Inductive start_at : Type := StartLock | StartJanitor | StartGo.
Inductive borrow_at : Type := BorrowWake (i : nat) (a : wake_at) | BorrowStart (i : nat) (a : start_at).

(** [s.wakeIdle(s) || s.start(s) || pool.borrow(s)] *)
Inductive find_at : Type := FindWake (a : wake_at) | FindStart (a : start_at) | FindBorrow (a : borrow_at).

Inductive notify_at : Type :=
| NotifyHas (a : has_at) | NotifyComing | NotifyCas | NotifyFind (a : find_at) | NotifyDrop
| NotifyStarving | NotifyStarve | NotifyIdle (j : nat).

Inductive watch_at : Type := WatchLoad | WatchCas | WatchGo.
Inductive behind_at : Type := BehindRunning | BehindWatch (a : watch_at) | BehindNotify (a : notify_at).
Inductive runOverflow_at : Type := OverflowLock | OverflowGo.

Inductive submit_at : Type :=
| SubmitActive | SubmitPush (s : nat) (a : push_at) | SubmitOverflow (s : nat) (a : runOverflow_at)
| SubmitNotify (s : nat) (a : notify_at).
Inductive submitBehind_at : Type :=
| SubmitBehindActive | SubmitBehindPush (s : nat) (a : push_at) | SubmitBehindOverflow (s : nat) (a : runOverflow_at)
| SubmitBehindNotify (s : nat) (a : behind_at).

(** A batch: the tasks not pushed yet, the shards touched, then the words of
    touched shards not notified yet; one task at a time past the limit. *)
Inductive batch_at (T : Type) : Type :=
| BatchActive (ts : list T)
| BatchPush (active : Z) (t : T) (ts : list T) (touched : list Z) (a : push_at)
| BatchOverflow (active : Z) (t : T) (ts : list T) (touched : list Z) (a : runOverflow_at)
| BatchNotify (wordIndex : nat) (touched : list Z) (s : nat) (a : notify_at)
| BatchEach (t : T) (ts : list T) (a : submit_at).
Arguments BatchActive {T} _.
Arguments BatchPush {T} _ _ _ _ _.
Arguments BatchOverflow {T} _ _ _ _ _.
Arguments BatchNotify {T} _ _ _ _.
Arguments BatchEach {T} _ _ _.

Inductive park_at : Type :=
| ParkLock | ParkHas (a : has_at) | ParkNotify (a : notify_at) | ParkStarving | ParkCas
| ParkServe (i : nat) (a : notify_at) | ParkReceive.

(** A worker's loop on its target shard; the last three are the deferred
    function of a task that called Goexit. *)
Inductive run_at (T : Type) : Type :=
| RunRunning | RunArrived | RunPop (a : pop_at T) | RunMore (t : item T) (a : has_at)
| RunNotify (t : item T) (a : notify_at) | RunTask (t : item T) | RunDrained | RunAgain (a : has_at)
| RunAgainNotify (a : notify_at) | RunPark (a : park_at) | RunDone
| RunGoexitComing | RunGoexitRunning | RunGoexitGo.
Arguments RunRunning {T}.
Arguments RunArrived {T}.
Arguments RunPop {T} _.
Arguments RunMore {T} _ _.
Arguments RunNotify {T} _ _.
Arguments RunTask {T} _.
Arguments RunDrained {T}.
Arguments RunAgain {T} _.
Arguments RunAgainNotify {T} _.
Arguments RunPark {T} _.
Arguments RunDone {T}.
Arguments RunGoexitComing {T}.
Arguments RunGoexitRunning {T}.
Arguments RunGoexitGo {T}.

Inductive overflow_at (T : Type) : Type := OverTask (t : item T) | OverPop (a : pop_at T) | OverDone (goexit : bool).
Arguments OverTask {T} _.
Arguments OverPop {T} _.
Arguments OverDone {T} _.

(** The monitor's locals: [heads], [idle] and [queued]. *)
Record monitoring : Type := MkMonitoring { heads : list Z; idleFor : Z; queued : bool }.
Inductive monitor_at : Type :=
| MonitorInit (heads : list Z) | MonitorWait (v : monitoring) | MonitorHead (v : monitoring) (i : nat)
| MonitorHas (v : monitoring) (i : nat) (h : Z) (a : has_at) | MonitorNotify (v : monitoring) (i : nat) (h : Z) (a : notify_at)
| MonitorStop (v : monitoring) (last : bool) | MonitorAny (v : monitoring) (i : nat) (a : has_at) | MonitorCas (v : monitoring).

Inductive retire_at : Type := RetireCount | RetireLock | RetireSend (ws : list nat).
Inductive janitor_at : Type := JanitorWait | JanitorClock | JanitorShard (now : Z) (i : nat) (a : retire_at).

Inductive rescue_at : Type :=
| RescueLast | RescueRescuing (last : Z) | RescueCas (last : Z) | RescueActive
| RescueHead (n : nat) (i : nat) (woke : bool) | RescueHas (n : nat) (i : nat) (woke : bool) (a : has_at)
| RescueStalled (n : nat) (i : nat) (woke queued : bool)
| RescueRunning (n : nat) (i : nat) | RescueComing (n : nat) (i : nat) | RescueRaise (n : nat) (i : nat)
| RescueFind (n : nat) (i : nat) (a : find_at) | RescueDrop (n : nat) (i : nat) | RescueNotify (n : nat) (i : nat) (a : notify_at)
| RescueEnd (woke : bool).

Inductive stop_at (T : Type) : Type :=
| StopSwap | StopClose | StopTake (i : nat) | StopComing (i w : nat) (ws : list nat) | StopSend (i w : nat) (ws : list nat)
| StopWorkers | StopOverflow | StopPop (i : nat) (a : pop_at T) | StopTask (i : nat) (t : item T).
Arguments StopSwap {T}.
Arguments StopClose {T}.
Arguments StopTake {T} _.
Arguments StopComing {T} _ _ _.
Arguments StopSend {T} _ _ _.
Arguments StopWorkers {T}.
Arguments StopOverflow {T}.
Arguments StopPop {T} _ _.
Arguments StopTask {T} _ _.

(** A goroutine: a caller of the pool's methods, or one the pool started. *)
Inductive thread (T : Type) : Type :=
| TSubmit (t : T) (a : submit_at)
| TSubmitBehind (t : T) (a : submitBehind_at)
| TSubmitBatch (a : batch_at T)
| TAddKey
| TRemoveKey
| TRescue (now : Z) (a : rescue_at)
| TStop (a : stop_at T)
| TWorker (w : nat) (target : nat) (a : run_at T)
| TOverflow (s : nat) (a : overflow_at T)
| TMonitor (a : monitor_at)
| TJanitor (a : janitor_at)
| TGone (s : nat)            (* an overflow goroutine a task ended with Goexit *)
| TLeft (w : nat)            (* a worker that has exited *)
| TStopped                   (* Stop has returned *)
| TEnd (reported : bool).
Arguments TSubmit {T} _ _.
Arguments TSubmitBehind {T} _ _.
Arguments TSubmitBatch {T} _.
Arguments TAddKey {T}.
Arguments TRemoveKey {T}.
Arguments TRescue {T} _ _.
Arguments TStop {T} _.
Arguments TWorker {T} _ _ _.
Arguments TOverflow {T} _ _.
Arguments TMonitor {T} _.
Arguments TJanitor {T} _.
Arguments TGone {T} _.
Arguments TLeft {T} _.
Arguments TStopped {T}.
Arguments TEnd {T} _.

(** ** The operations on shared memory *)

Inductive op (T : Type) : Type :=
| ONop
| OTail (s : nat) (pos : Z) (t : item T)     (* tail.CompareAndSwap(pos, pos+1) succeeds, for task t *)
| OWrite (s : nat) (pos : Z) (t : item T)    (* cell.task = t *)
| OSeq (s : nat) (pos : Z) (v : Z)           (* cell.seq.Store(v) *)
| OHead (s : nat) (pos : Z)                  (* head.CompareAndSwap(pos, pos+1) succeeds *)
| OComing (s : nat) (d : Z)
| ORunning (s : nat) (d : Z)
| OUnpark (s : nat)                          (* wakeIdle takes the last idle worker *)
| OSend (w : nat) (v : option nat)
| OReceive (w : nat)
| OStart (s : nat)                           (* start counts a worker *)
| OJanitor                                   (* janitor.Do *)
| OGoWorker (s target : nat)
| OGoAgain (w target : nat)
| OStarving (b : bool)
| OWatching (b : bool)
| OGoMonitor
| OPark (w : nat)                            (* park registers the worker *)
| OLeave (w : nat)                           (* park of a stopped pool *)
| OWorkersDone
| OOverflowAdd
| OGoOverflow (s : nat) (t : T)
| OOverflowDone
| ODrop (t : T)
| OClock
| ORetire (s : nat) (count : nat)
| OStopped
| OClose
| OTakeIdle (s : nat)
| OKeys (n : Z) (tier : option Z)
| ORescueAt (now : Z)
| ORescuing (b : bool)
| ORescueHead (s : nat) (h : Z)
| OStalls (s : nat) (n : Z).
Arguments ONop {T}.
Arguments OTail {T} _ _ _.
Arguments OWrite {T} _ _ _.
Arguments OSeq {T} _ _ _.
Arguments OHead {T} _ _.
Arguments OComing {T} _ _.
Arguments ORunning {T} _ _.
Arguments OUnpark {T} _.
Arguments OSend {T} _ _.
Arguments OReceive {T} _.
Arguments OStart {T} _.
Arguments OJanitor {T}.
Arguments OGoWorker {T} _ _.
Arguments OGoAgain {T} _ _.
Arguments OStarving {T} _.
Arguments OWatching {T} _.
Arguments OGoMonitor {T}.
Arguments OPark {T} _.
Arguments OLeave {T} _.
Arguments OWorkersDone {T}.
Arguments OOverflowAdd {T}.
Arguments OGoOverflow {T} _ _.
Arguments OOverflowDone {T}.
Arguments ODrop {T} _.
Arguments OClock {T}.
Arguments ORetire {T} _ _.
Arguments OStopped {T}.
Arguments OClose {T}.
Arguments OTakeIdle {T} _.
Arguments OKeys {T} _ _.
Arguments ORescueAt {T} _.
Arguments ORescuing {T} _.
Arguments ORescueHead {T} _ _.
Arguments OStalls {T} _ _.

Definition onShard {T} (s : nat) (f : shard T -> shard T) (m : pool T) : pool T :=
  m <| shards ::= alter f s |>.
Definition onWorker {T} (w : nat) (f : worker -> worker) (m : pool T) : pool T :=
  m <| objects ::= alter f w |>.
Definition onCell {T} (pos : Z) (f : slot T -> slot T) (s : shard T) : shard T :=
  s <| slots ::= alter f (cellAt s pos) |>.

Definition exec {T} (o : op T) (m : pool T) : pool T :=
  match o with
  | ONop | OGoMonitor | OGoAgain _ _ | OGoOverflow _ _ => m
  | OTail s pos t => onShard s (fun x => x <| tail := u64 (pos + 1) |> <| pushed ::= fun l => l ++ [t] |>) m
  | OWrite s pos t => onShard s (onCell pos (fun c => MkSlot (seq_ c) t)) m
  | OSeq s pos v => onShard s (onCell pos (fun c => MkSlot v (task c))) m
  | OHead s pos => onShard s (fun x => x <| head := u64 (pos + 1) |> <| served ::= fun l => l ++ [task (cell x pos)] |>) m
  | OComing s d => onShard s (fun x => x <| coming ::= Z.add d |>) m
  | ORunning s d => onShard s (fun x => x <| running ::= Z.add d |>) m
  | OUnpark s => onShard s (fun x => x <| idle ::= @removelast nat |> <| idleCount ::= Z.add (-1) |>) m
  | OSend w v => onWorker w (fun x => x <| wake := Some v |>) m
  | OReceive w => onWorker w (fun x => x <| wake := None |>) m
  | OStart s => (onShard s (fun x => x <| live ::= Z.add 1 |>) m) <| workers ::= Z.add 1 |>
  | OJanitor => m <| janitor := true |>
  | OGoWorker s _ => m <| objects ::= fun l => l ++ [MkWorker s None 0] |>
  | OStarving b => m <| starving := b |>
  | OWatching b => m <| watching := b |>
  | OPark w =>
      onShard (home (ob m w)) (fun x => x <| idle ::= fun l => l ++ [w] |> <| idleCount ::= Z.add 1 |>)
        (onWorker w (fun x => x <| parked := clock m |>) m)
  | OLeave w => onShard (home (ob m w)) (fun x => x <| live ::= Z.add (-1) |>) m
  | OWorkersDone => m <| workers ::= Z.add (-1) |>
  | OOverflowAdd => m <| overflow ::= Z.add 1 |>
  | OOverflowDone => m <| overflow ::= Z.add (-1) |>
  | ODrop t => m <| dropped ::= fun l => l ++ [Some t] |>
  | OClock => m <| clock ::= Z.add 1 |>
  | ORetire s count =>
      onShard s (fun x => x <| idle ::= drop count |> <| idleCount ::= Z.add (- Z.of_nat count) |>
        <| live ::= Z.add (- Z.of_nat count) |>) m
  | OStopped => m <| stopped := true |>
  | OClose => m <| done_ := true |>
  | OTakeIdle s => onShard s (fun x => x <| idle := [] |> <| idleCount := 0 |>) m
  | OKeys n a => (match a with Some a => m <| active := a |> | None => m end) <| keys := n |>
  | ORescueAt now => m <| rescueAt := now |>
  | ORescuing b => m <| rescuing := b |>
  | ORescueHead s h => onShard s (fun x => x <| rescueHead := h |> <| stalls := 0 |>) m
  | OStalls s n => onShard s (fun x => x <| stalls := n |>) m
  end.

(** The goroutines an operation starts. *)
Definition starts {T} (o : op T) (m : pool T) : list (thread T) :=
  match o with
  | OGoWorker s target => [TWorker (length (objects m)) target RunRunning]
  | OGoAgain w target => [TWorker w target RunRunning]
  | OGoMonitor => [TMonitor (MonitorInit [])]
  | OJanitor => if janitor m then [] else [TJanitor JanitorWait]
  | OGoOverflow s t => [TOverflow s (OverTask (Some t))]
  | _ => []
  end.

(** ** The functions

    At a label a function performs an operation and is at another label, or
    performs it and returns, or is blocked. *)

Inductive res (T L A : Type) : Type := Go (o : op T) (l : L) | Back (o : op T) (a : A) | Block.
Arguments Go {T L A} _ _.
Arguments Back {T L A} _ _.
Arguments Block {T L A}.

(** A call inside a function: [inside] are the caller's labels during it,
    [ret] what the caller does with its result. *)
Definition call {T L A L' A'} (r : res T L A) (inside : L -> L') (ret : A -> L' + A') : res T L' A' :=
  match r with
  | Go o l => Go o (inside l)
  | Back o a => match ret a with inl l => Go o l | inr a' => Back o a' end
  | Block => Block
  end.

Section Functions.
Context {T : Type} (key : T -> Z).
Implicit Types m : pool T.

Definition hasTask (s : nat) (a : has_at) m : res T has_at bool :=
  match a with
  | HasHead => Go ONop (HasSeq (head (sh m s)))
  | HasSeq pos => Back ONop (seq_ (cell (sh m s) pos) =? u64 (pos + 1))
  end.

Definition push (s : nat) (t : T) (a : push_at) m : res T push_at bool :=
  match a with
  | PushTail => Go ONop (PushSeq (tail (sh m s)))
  | PushSeq pos =>
      let seq := seq_ (cell (sh m s) pos) in
      if seq =? pos then Go ONop (PushCas pos)
      else if int64 (seq - pos) <? 0 then Back ONop false
      else Go ONop PushTail
  | PushCas pos =>
      if tail (sh m s) =? pos then Go (OTail s pos (Some t)) (PushWrite pos) else Go ONop PushTail
  | PushWrite pos => Go (OWrite s pos (Some t)) (PushPublish pos)
  | PushPublish pos => Back (OSeq s pos (u64 (pos + 1))) true
  end.

(** It returns the task, or nothing when the head is not written yet. *)
Definition pop (s : nat) (a : pop_at T) m : res T (pop_at T) (option (item T)) :=
  match a with
  | PopHead => Go ONop (PopSeq (head (sh m s)))
  | PopSeq pos =>
      let seq := seq_ (cell (sh m s) pos) in
      if seq =? u64 (pos + 1) then Go ONop (PopCas pos)
      else if int64 (seq - u64 (pos + 1)) <? 0 then Back ONop None
      else Go ONop PopHead
  | PopCas pos =>
      if head (sh m s) =? pos then Go (OHead s pos) (PopTake pos) else Go ONop PopHead
  | PopTake pos => Go (OWrite s pos None) (PopFree pos (task (cell (sh m s) pos)))
  | PopFree pos t => Back (OSeq s pos (u64 (pos + mask (sh m s) + 1))) (Some t)
  end.

(** wakeIdle of shard [j], which sends its last idle worker to [target]. *)
Definition wakeIdle (j target : nat) (a : wake_at) m : res T wake_at bool :=
  match a with
  | WakeCount => if idleCount (sh m j) =? 0 then Back ONop false else Go ONop WakeLock
  | WakeLock =>
      match last (idle (sh m j)) with
      | None => Back ONop false
      | Some w => Go (OUnpark j) (WakeSend w)
      end
  | WakeSend w => if decide (wake (ob m w) = None) then Back (OSend w (Some target)) true else Block
  end.

(** start of shard [j], whose new worker serves [target]. *)
Definition start (j target : nat) (a : start_at) m : res T start_at bool :=
  match a with
  | StartLock =>
      if (MaxWorkers <=? live (sh m j)) || stopped m then Back ONop false
      else Go (OStart j) (if 1 <? live (sh m j) + 1 then StartJanitor else StartGo)
  | StartJanitor => Go OJanitor StartGo
  | StartGo => Back (OGoWorker j target) true
  end.

Definition borrow (target : nat) (a : borrow_at) m : res T borrow_at bool :=
  let count := length (shards m) in
  let at_ i := Nat.modulo (target + 1 + i) count in
  match a with
  | BorrowWake i a =>
      let next := if (S i <? count)%nat then BorrowWake (S i) WakeCount else BorrowStart 0 StartLock in
      if (at_ i =? target)%nat && (if a is WakeCount then true else false) then Go ONop next
      else call (wakeIdle (at_ i) target a m) (BorrowWake i) (fun b => if b then inr true else inl next)
  | BorrowStart i a =>
      let next := if (S i <? count)%nat then inl (BorrowStart (S i) StartLock) else inr false in
      if (at_ i =? target)%nat && (if a is StartLock then true else false) then match next with inl l => Go ONop l | inr b => Back ONop b end
      else call (start (at_ i) target a m) (BorrowStart i) (fun b => if b then inr true else next)
  end.

Definition find (s : nat) (a : find_at) m : res T find_at bool :=
  match a with
  | FindWake a => call (wakeIdle s s a m) FindWake (fun b => if b then inr true else inl (FindStart StartLock))
  | FindStart a => call (start s s a m) FindStart (fun b => if b then inr true else inl (FindBorrow (BorrowWake 0 WakeCount)))
  | FindBorrow a => call (borrow s a m) FindBorrow inr
  end.

Definition notify (s : nat) (a : notify_at) m : res T notify_at bool :=
  match a with
  | NotifyHas a => call (hasTask s a m) NotifyHas (fun b => if b then inl NotifyComing else inr false)
  | NotifyComing => if coming (sh m s) =? 0 then Go ONop NotifyCas else Back ONop false
  | NotifyCas => if coming (sh m s) =? 0 then Go (OComing s 1) (NotifyFind (FindWake WakeCount)) else Back ONop false
  | NotifyFind a => call (find s a m) NotifyFind (fun b => if b then inr true else inl NotifyDrop)
  | NotifyDrop => Go (OComing s (-1)) NotifyStarving
  | NotifyStarving => Go ONop (if starving m then NotifyIdle 0 else NotifyStarve)
  | NotifyStarve => Go (OStarving true) (NotifyIdle 0)
  | NotifyIdle j =>      (* hasIdle *)
      if (j <? length (shards m))%nat then
        if negb (idleCount (sh m j) =? 0) then Go ONop (NotifyHas HasHead) else Go ONop (NotifyIdle (S j))
      else Back ONop false
  end.

Definition watch (a : watch_at) m : res T watch_at unit :=
  match a with
  | WatchLoad => if watching m then Back ONop () else Go ONop WatchCas
  | WatchCas => if watching m then Back ONop () else Go (OWatching true) WatchGo
  | WatchGo => Back OGoMonitor ()
  end.

Definition notifyBehind (s : nat) (a : behind_at) m : res T behind_at bool :=
  match a with
  | BehindRunning =>
      Go ONop (if 0 <? running (sh m s) then BehindWatch WatchLoad else BehindNotify (NotifyHas HasHead))
  | BehindWatch a => call (watch a m) BehindWatch (fun _ => inr false)
  | BehindNotify a => call (notify s a m) BehindNotify inr
  end.

Definition runOverflow (s : nat) (t : T) (a : runOverflow_at) m : res T runOverflow_at unit :=
  match a with
  | OverflowLock => if stopped m then Back (ODrop t) () else Go OOverflowAdd OverflowGo
  | OverflowGo => Back (OGoOverflow s t) ()
  end.

(** Pool.shard: the shard a task's key picks. *)
Definition shardOf (t : T) (active : Z) : nat := Z.to_nat (key t mod active).

Definition Submit (t : T) (a : submit_at) m : res T submit_at bool :=
  match a with
  | SubmitActive => Go ONop (SubmitPush (shardOf t (active m)) PushTail)
  | SubmitPush s a => call (push s t a m) (SubmitPush s)
      (fun b => inl (if b then SubmitNotify s (NotifyHas HasHead) else SubmitOverflow s OverflowLock))
  | SubmitOverflow s a => call (runOverflow s t a m) (SubmitOverflow s) (fun _ => inr false)
  | SubmitNotify s a => call (notify s a m) (SubmitNotify s) inr
  end.

Definition SubmitBehind (t : T) (a : submitBehind_at) m : res T submitBehind_at bool :=
  match a with
  | SubmitBehindActive => Go ONop (SubmitBehindPush (shardOf t (active m)) PushTail)
  | SubmitBehindPush s a => call (push s t a m) (SubmitBehindPush s)
      (fun b => inl (if b then SubmitBehindNotify s BehindRunning else SubmitBehindOverflow s OverflowLock))
  | SubmitBehindOverflow s a => call (runOverflow s t a m) (SubmitBehindOverflow s) (fun _ => inr false)
  | SubmitBehindNotify s a => call (notifyBehind s a m) (SubmitBehindNotify s) inr
  end.

(** SubmitBatch and submitWideBatch: the touched shards are bits of one word,
    or of sixteen. *)
Definition touch (index : nat) (touched : list Z) : list Z :=
  alter (fun w => Z.lor w (Z.shiftl 1 (Z.of_nat (Nat.modulo index 64)))) (Nat.div index 64) touched.

Fixpoint nextTouched (wordIndex : nat) (words : list Z) : option (nat * list Z * nat) :=
  match words with
  | [] => None
  | w :: ws =>
      if w =? 0 then nextTouched (S wordIndex) ws
      else Some (wordIndex, Z.land w (w - 1) :: ws, (wordIndex * 64 + Z.to_nat (TrailingZeros64 w))%nat)
  end.

Definition notifyTouched (wordIndex : nat) (words : list Z) : batch_at T + bool :=
  match nextTouched wordIndex words with
  | Some (i, ws, s) => inl (BatchNotify i ws s (NotifyHas HasHead))
  | None => inr false
  end.

Definition batchNext (active : Z) (ts : list T) (touched : list Z) : batch_at T + bool :=
  match ts with
  | t :: ts => inl (BatchPush active t ts touched PushTail)
  | [] => notifyTouched 0 touched
  end.

Definition batchEach (ts : list T) : batch_at T + bool :=
  match ts with t :: ts => inl (BatchEach t ts SubmitActive) | [] => inr false end.

Definition SubmitBatch (a : batch_at T) m : res T (batch_at T) bool :=
  match a with
  | BatchActive ts =>
      let n := active m in
      match (if 64 <? n then if 1024 <? n then batchEach ts else batchNext n ts (replicate 16 0) else batchNext n ts [0]) with
      | inl l => Go ONop l
      | inr b => Back ONop b
      end
  | BatchPush n t ts touched a =>
      call (push (shardOf t n) t a m) (BatchPush n t ts touched)
        (fun b => if b then batchNext n ts (touch (shardOf t n) touched) else inl (BatchOverflow n t ts touched OverflowLock))
  | BatchOverflow n t ts touched a =>
      call (runOverflow (shardOf t n) t a m) (BatchOverflow n t ts touched) (fun _ => batchNext n ts touched)
  | BatchNotify i words s a => call (notify s a m) (BatchNotify i words s) (fun _ => notifyTouched i words)
  | BatchEach t ts a => call (Submit t a m) (BatchEach t ts) (fun _ => batchEach ts)
  end.

(** AddKey and RemoveKey, each under keyMu. *)
Definition AddKey m : op T :=
  let n := keys m + 1 in
  OKeys n (if n =? base m * SplitKeysPerShard then Some (2 * base m)
           else if n =? base m * SplitKeysPerShard4 then Some (Z.of_nat (length (shards m))) else None).
Definition RemoveKey m : op T :=
  let n := keys m - 1 in
  OKeys n (if n =? base m * MergeKeysPerShard4 then Some (2 * base m)
           else if n =? base m * MergeKeysPerShard then Some (base m) else None).

(** park returns the shard to serve, or nothing when the worker is to exit. *)
Definition park (w : nat) (a : park_at) m : res T park_at (option nat) :=
  match a with
  | ParkLock => if stopped m then Back (OLeave w) None else Go (OPark w) (ParkHas HasHead)
  | ParkHas a => call (hasTask (home (ob m w)) a m) ParkHas
      (fun b => inl (if b then ParkNotify (NotifyHas HasHead) else ParkStarving))
  | ParkNotify a => call (notify (home (ob m w)) a m) ParkNotify (fun _ => inl ParkStarving)
  | ParkStarving => Go ONop (if starving m then ParkCas else ParkReceive)
  | ParkCas => if starving m then Go (OStarving false) (ParkServe 0 (NotifyHas HasHead)) else Go ONop ParkReceive
  | ParkServe i a => call (notify i a m) (ParkServe i)
      (fun _ => inl (if (S i <? length (shards m))%nat then ParkServe (S i) (NotifyHas HasHead) else ParkReceive))
  | ParkReceive => match wake (ob m w) with Some v => Back (OReceive w) v | None => Block end
  end.

(** A worker's label comes with the shard it serves; a task it runs blocks it
    until the task ends.  It returns whether the worker is gone for good. *)
Definition run (w target : nat) (a : run_at T) m : res T (nat * run_at T) bool :=
  let at_ l := (target, l) in
  match a with
  | RunRunning => Go (ORunning target 1) (at_ RunArrived)
  | RunArrived => Go (OComing target (-1)) (at_ (RunPop PopHead))
  | RunPop a => call (pop target a m) (fun l => at_ (RunPop l))
      (fun r => inl (at_ (match r with Some t => RunMore t HasHead | None => RunDrained end)))
  | RunMore t a => call (hasTask target a m) (fun l => at_ (RunMore t l))
      (fun b => inl (at_ (if b then RunNotify t (NotifyHas HasHead) else RunTask t)))
  | RunNotify t a => call (notify target a m) (fun l => at_ (RunNotify t l)) (fun _ => inl (at_ (RunTask t)))
  | RunTask _ => Block
  | RunDrained => Go (ORunning target (-1)) (at_ (RunAgain HasHead))
  | RunAgain a => call (hasTask target a m) (fun l => at_ (RunAgain l))
      (fun b => inl (at_ (if b then RunAgainNotify (NotifyHas HasHead) else RunPark ParkLock)))
  | RunAgainNotify a => call (notify target a m) (fun l => at_ (RunAgainNotify l)) (fun _ => inl (at_ (RunPark ParkLock)))
  | RunPark a => call (park w a m) (fun l => at_ (RunPark l))
      (fun r => inl (match r with Some s => (s, RunRunning) | None => at_ RunDone end))
  | RunDone => Back OWorkersDone true
  | RunGoexitComing => Go (OComing target 1) (at_ RunGoexitRunning)
  | RunGoexitRunning => Go (ORunning target (-1)) (at_ RunGoexitGo)
  | RunGoexitGo => Back (OGoAgain w target) false
  end.

(** The goroutine of runOverflow: overflow, then overflow.Done(). *)
Definition overflowing (s : nat) (a : overflow_at T) m : res T (overflow_at T) bool :=
  match a with
  | OverTask _ => Block
  | OverPop a => call (pop s a m) OverPop (fun r => inl (match r with Some t => OverTask t | None => OverDone false end))
  | OverDone goexit => Back OOverflowDone goexit
  end.

(** The end of one shard's turn in the monitor's loop, and of the loop. *)
Definition monitorNext (n i : nat) (h : Z) (v : monitoring) : monitor_at :=
  let v := MkMonitoring (<[i := h]> (heads v)) (idleFor v) (queued v) in
  if (S i <? n)%nat then MonitorHead v (S i)
  else if queued v then MonitorWait (MkMonitoring (heads v) 0 (queued v))
  else let v := MkMonitoring (heads v) (idleFor v + 1) (queued v) in
    if idleFor v <? watchIdleTicks then MonitorWait v else MonitorStop v false.

Definition monitor (a : monitor_at) m : res T monitor_at unit :=
  let n := length (shards m) in
  match a with
  | MonitorInit hs =>
      let hs := hs ++ [head (sh m (length hs))] in
      Go ONop (if (length hs <? n)%nat then MonitorInit hs else MonitorWait (MkMonitoring hs 0 false))
  | MonitorWait _ => Block
  | MonitorHead v i => Go ONop (MonitorHas v i (head (sh m i)) HasHead)
  | MonitorHas v i h a => call (hasTask i a m) (MonitorHas v i h) (fun b => inl (
      if b then
        let v := MkMonitoring (heads v) (idleFor v) true in
        if h =? nth i (heads v) 0 then MonitorNotify v i h (NotifyHas HasHead) else monitorNext n i h v
      else monitorNext n i h v))
  | MonitorNotify v i h a => call (notify i a m) (MonitorNotify v i h) (fun _ => inl (monitorNext n i h v))
  | MonitorStop v last => if last then Back (OWatching false) () else Go (OWatching false) (MonitorAny v 0 HasHead)
  | MonitorAny v i a => call (hasTask i a m) (MonitorAny v i) (fun b =>
      if b then inl (MonitorCas v) else if (S i <? n)%nat then inl (MonitorAny v (S i) HasHead) else inr ())
  | MonitorCas v =>
      if watching m then Back ONop ()
      else Go (OWatching true) (MonitorWait (MkMonitoring (heads v) 0 (queued v)))
  end.

(** How many of the longest parked workers parked before [deadline]. *)
Fixpoint expired (m : pool T) (deadline : Z) (ws : list nat) : nat :=
  match ws with
  | w :: ws => if parked (ob m w) <? deadline then S (expired m deadline ws) else O
  | [] => O
  end.

Definition retireIdle (s : nat) (deadline : Z) (a : retire_at) m : res T retire_at unit :=
  match a with
  | RetireCount => if idleCount (sh m s) <=? 1 then Back ONop () else Go ONop RetireLock
  | RetireLock =>
      let count := expired m deadline (removelast (idle (sh m s))) in
      Go (ORetire s count) (RetireSend (take count (idle (sh m s))))
  | RetireSend [] => Back ONop ()
  | RetireSend (w :: ws) => if decide (wake (ob m w) = None) then Go (OSend w None) (RetireSend ws) else Block
  end.

Definition retireIdleWorkers (a : janitor_at) m : res T janitor_at unit :=
  match a with
  | JanitorWait => Block
  | JanitorClock => Go OClock (JanitorShard (clock m + 1) 0 RetireCount)
  | JanitorShard now i a => call (retireIdle i (now - idleTicks) a m) (JanitorShard now i)
      (fun _ => inl (if (S i <? length (shards m))%nat then JanitorShard now (S i) RetireCount else JanitorWait))
  end.

Definition Rescue (now : Z) (a : rescue_at) m : res T rescue_at bool :=
  let next n i woke := if (S i <? n)%nat then RescueHead n (S i) woke else RescueEnd woke in
  match a with
  | RescueLast => if int64 (now - rescueAt m) <? rescueEvery then Back ONop false else Go ONop (RescueRescuing (rescueAt m))
  | RescueRescuing last => if rescuing m then Back ONop false else Go (ORescuing true) (RescueCas last)
  | RescueCas last => if rescueAt m =? last then Go (ORescueAt now) RescueActive else Go ONop (RescueEnd false)
  | RescueActive => Go ONop (if (0 <? Z.to_nat (active m))%nat then RescueHead (Z.to_nat (active m)) 0 false else RescueEnd false)
  | RescueHead n i woke =>
      let h := head (sh m i) in
      if negb (h =? rescueHead (sh m i)) then Go (ORescueHead i h) (next n i woke) else Go ONop (RescueHas n i woke HasHead)
  | RescueHas n i woke a => call (hasTask i a m) (RescueHas n i woke) (fun b => inl (RescueStalled n i woke b))
  | RescueStalled n i woke false => Go (if stalls (sh m i) =? 0 then ONop else OStalls i 0) (next n i woke)
  | RescueStalled n i woke true =>
      let k := stalls (sh m i) + 1 in
      Go (OStalls i k) (if woke || (k <? rescueStalls) then next n i woke else RescueRunning n i)
  | RescueRunning n i => Go ONop (if negb (running (sh m i) =? 0) then next n i false else RescueComing n i)
  | RescueComing n i => if coming (sh m i) =? 0 then Go ONop (next n i false) else Go (OStalls i 0) (RescueRaise n i)
  | RescueRaise n i => Go (OComing i 1) (RescueFind n i (FindWake WakeCount))
  | RescueFind n i a => call (find i a m) (RescueFind n i) (fun b => inl (if b then next n i true else RescueDrop n i))
  | RescueDrop n i => Go (OComing i (-1)) (RescueNotify n i (NotifyHas HasHead))
  | RescueNotify n i a => call (notify i a m) (RescueNotify n i) (fun b => inl (next n i b))
  | RescueEnd woke => Back (ORescuing false) woke
  end.

(** Stop: the loops' next labels. *)
Definition stopNext (n i : nat) : stop_at T := if (S i <? n)%nat then StopTake (S i) else StopWorkers.
Definition stopSend (n i : nat) (ws : list nat) : stop_at T := match ws with [] => stopNext n i | w :: ws => StopComing i w ws end.

Definition Stop (a : stop_at T) m : res T (stop_at T) unit :=
  let n := length (shards m) in
  match a with
  | StopSwap => Go OStopped (if stopped m then StopWorkers else StopClose)
  | StopClose => Go OClose (StopTake 0)
  | StopTake i => Go (OTakeIdle i) (stopSend n i (idle (sh m i)))
  | StopComing i w ws => Go (OComing i 1) (StopSend i w ws)
  | StopSend i w ws => if decide (wake (ob m w) = None) then Go (OSend w (Some i)) (stopSend n i ws) else Block
  | StopWorkers => if workers m =? 0 then Go ONop StopOverflow else Block
  | StopOverflow => if overflow m =? 0 then Go ONop (StopPop 0 PopHead) else Block
  | StopPop i a => call (pop i a m) (StopPop i) (fun r =>
      match r with
      | Some t => inl (StopTask i t)
      | None => if (S i <? n)%nat then inl (StopPop (S i) PopHead) else inr ()
      end)
  | StopTask _ _ => Block
  end.

(** ** Runs *)

Definition onward {L A} (inside : L -> thread T) (ret : A -> thread T) (r : res T L A) : option (op T * thread T) :=
  match r with Go o l => Some (o, inside l) | Back o a => Some (o, ret a) | Block => None end.

(** The next operation of a goroutine; nothing when it is blocked or over. *)
Definition next (th : thread T) m : option (op T * thread T) :=
  match th with
  | TSubmit t a => onward (TSubmit t) TEnd (Submit t a m)
  | TSubmitBehind t a => onward (TSubmitBehind t) TEnd (SubmitBehind t a m)
  | TSubmitBatch a => onward TSubmitBatch TEnd (SubmitBatch a m)
  | TAddKey => Some (AddKey m, TEnd false)
  | TRemoveKey => Some (RemoveKey m, TEnd false)
  | TRescue now a => onward (TRescue now) TEnd (Rescue now a m)
  | TStop a => onward TStop (fun _ => TStopped) (Stop a m)
  | TWorker w target a => onward (fun l => TWorker w l.1 l.2) (fun left : bool => if left then TLeft w else TEnd false) (run w target a m)
  | TOverflow s a => onward (TOverflow s) (fun goexit : bool => if goexit then TGone s else TEnd false) (overflowing s a m)
  | TMonitor a => onward TMonitor (fun _ => TEnd false) (monitor a m)
  | TJanitor a => onward TJanitor (fun _ => TEnd false) (retireIdleWorkers a m)
  | TGone _ | TLeft _ | TStopped | TEnd _ => None
  end.

(** A task of user code ends, by returning or through runtime.Goexit. *)
Definition taskEnds (goexit : bool) (th : thread T) : option (item T * thread T) :=
  match th with
  | TWorker w s (RunTask t) => Some (t, TWorker w s (if goexit then RunGoexitComing else RunPop PopHead))
  | TOverflow s (OverTask t) => Some (t, TOverflow s (if goexit then OverDone true else OverPop PopHead))
  | TStop (StopTask i t) => Some (t, TStop (StopPop i PopHead))
  | _ => None
  end.

(** A select on a ticker and the channel done: the ticker fires, or the
    channel is closed. *)
Definition ticks (closed : bool) (th : thread T) : option (thread T) :=
  match th with
  | TMonitor (MonitorWait v) =>
      Some (TMonitor (if closed then MonitorStop v true else MonitorHead (MkMonitoring (heads v) (idleFor v) false) 0))
  | TJanitor JanitorWait => Some (if closed then TEnd false else TJanitor JanitorClock)
  | _ => None
  end.

Inductive request : Type :=
| CallSubmit (t : T) | CallSubmitBehind (t : T) | CallSubmitBatch (ts : list T) | CallAddKey | CallRemoveKey
| CallRescue (now : Z) | CallStop.

Definition requested (c : request) : list T * thread T :=
  match c with
  | CallSubmit t => ([t], TSubmit t SubmitActive)
  | CallSubmitBehind t => ([t], TSubmitBehind t SubmitBehindActive)
  | CallSubmitBatch ts => (ts, TSubmitBatch (BatchActive ts))
  | CallAddKey => ([], TAddKey)
  | CallRemoveKey => ([], TRemoveKey)
  | CallRescue now => ([], TRescue now RescueLast)
  | CallStop => ([], TStop StopSwap)
  end.

Record system : Type := MkSystem { mem : pool T; threads : list (thread T) }.

Inductive event : Type :=
| EStep (i : nat)                     (* goroutine i performs its next operation *)
| ECall (c : request)                 (* a goroutine calls a method *)
| ETask (i : nat) (goexit : bool)     (* the task goroutine i runs ends *)
| ETick (i : nat) (closed : bool).    (* goroutine i's select proceeds *)

Definition step (e : event) (st : system) : option system :=
  match e with
  | EStep i =>
      th ← threads st !! i;
      '(o, th') ← next th (mem st);
      Some (MkSystem (exec o (mem st)) (<[i := th']> (threads st) ++ starts o (mem st)))
  | ECall c =>
      let '(ts, th) := requested c in
      Some (MkSystem ((mem st) <| submitted ::= fun l => l ++ (Some <$> ts) |>) (threads st ++ [th]))
  | ETask i goexit =>
      th ← threads st !! i;
      '(t, th') ← taskEnds goexit th;
      Some (MkSystem ((mem st) <| ran ::= fun l => l ++ [t] |>) (<[i := th']> (threads st)))
  | ETick i closed =>
      th ← threads st !! i;
      th' ← ticks closed th;
      if closed && negb (done_ (mem st)) then None
      else Some (MkSystem (mem st) (<[i := th']> (threads st)))
  end.

Fixpoint runs (es : list event) (st : system) : option system :=
  match es with
  | [] => Some st
  | e :: es => st' ← step e st; runs es st'
  end.
End Functions.
Arguments MkSystem {T} _ _.
Arguments mem {T} _.
Arguments threads {T} _.
Arguments CallSubmit {T} _.
Arguments CallSubmitBehind {T} _.
Arguments CallSubmitBatch {T} _.
Arguments CallAddKey {T}.
Arguments CallRemoveKey {T}.
Arguments CallRescue {T} _.
Arguments CallStop {T}.
Arguments EStep {T} _.
Arguments ECall {T} _.
Arguments ETask {T} _ _.
Arguments ETick {T} _ _.

(** New: four times as many shards as Ps, the capacity rounded up to a power of
    two. *)
Definition ringCapacity (capacity : Z) : Z :=
  let capacity := if capacity <=? 0 then DefaultCapacity else capacity in
  2 ^ (if Z.max capacity 2 - 1 =? 0 then 0 else Z.log2 (Z.max capacity 2 - 1) + 1).

Definition newShard {T} (capacity : nat) : shard T :=
  MkShard ((fun j => MkSlot (Z.of_nat j) None) <$> seq 0 capacity) 0 0 0 0 0 [] 0 0 0 [] [].

Definition New {T} (procs capacity : Z) : system :=
  let b := Z.max procs 1 in
  MkSystem (MkPool (replicate (Z.to_nat (4 * b)) (@newShard T (Z.to_nat (ringCapacity capacity))))
    b b 0 false false 0 0 false false false 0 0 false [] [] [] []) [].
