(* ===== verification/ShardFacts.v ===== *)
(** * What every step of the worker shards respects

    Reading an updated shard or worker, which functions touch the rings, and
    the indices goroutines carry: the shards they work on exist. *)

From S2P Require Import Prelude Update WheelRing ShardPool.
Local Open Scope Z_scope.

Create HintDb shards discriminated.

Ltac case_ops := repeat case_match; simplify_eq/=.

Lemma alter_beyond {A} (g : A -> A) (l : list A) i : (length l <= i)%nat -> alter g i l = l.
Proof.
  intros Hi. apply list_eq. intros j. rewrite list_lookup_alter. case_decide; [|done]. subst. by rewrite lookup_ge_None_2.
Qed.

Section Reading.
Context {T : Type}.
Implicit Types (m : pool T) (x : shard T).

Lemma sh_onShard m s f s' :
  (s < length (shards m))%nat -> sh (onShard s f m) s' = if decide (s' = s) then f (sh m s) else sh m s'.
Proof.
  intros Hs. unfold sh, onShard. cbn. destruct (decide (s' = s)) as [->|Hne].
  - destruct (lookup_lt_is_Some_2 (shards m) s Hs) as [x Hx].
    rewrite !nth_lookup, list_lookup_alter_eq, Hx. done.
  - by rewrite !nth_lookup, list_lookup_alter_ne.
Qed.

Lemma sh_same m s f : (s < length (shards m))%nat -> sh (onShard s f m) s = f (sh m s).
Proof. intros. rewrite sh_onShard by done. by rewrite decide_True. Qed.

Lemma sh_other m s f s' : s' <> s -> sh (onShard s f m) s' = sh m s'.
Proof. intros. unfold sh, onShard. cbn. by rewrite !nth_lookup, list_lookup_alter_ne. Qed.

Lemma ob_onWorker m w f w' :
  (w < length (objects m))%nat -> ob (onWorker w f m) w' = if decide (w' = w) then f (ob m w) else ob m w'.
Proof.
  intros Hw. unfold ob, onWorker. cbn. destruct (decide (w' = w)) as [->|Hne].
  - destruct (lookup_lt_is_Some_2 (objects m) w Hw) as [x Hx].
    rewrite !nth_lookup, list_lookup_alter_eq, Hx. done.
  - by rewrite !nth_lookup, list_lookup_alter_ne.
Qed.

Lemma onShard_beyond m s f : (length (shards m) <= s)%nat -> onShard s f m = m.
Proof. intros H. unfold onShard, over, over_shards. destruct m. cbn in *. by rewrite alter_beyond. Qed.
Lemma onWorker_beyond m w f : (length (objects m) <= w)%nat -> onWorker w f m = m.
Proof. intros H. unfold onWorker, over, over_objects. destruct m. cbn in *. by rewrite alter_beyond. Qed.

Lemma onShard_shards_length m s f : length (shards (onShard s f m)) = length (shards m).
Proof. unfold onShard. cbn. by rewrite length_alter. Qed.

Lemma exec_length o m : length (shards (exec o m)) = length (shards m).
Proof. destruct o; cbn; rewrite ?length_alter; try done. by destruct tier. Qed.

(** What of a shard is its queue. *)
Definition ring x := (slots x, tail x, head x, pushed x, served x).

Definition neutral (o : op T) : Prop :=
  match o with OTail _ _ _ | OWrite _ _ _ | OSeq _ _ _ | OHead _ _ => False | _ => True end.

Lemma ring_onShard m s f s' : (forall x, ring (f x) = ring x) -> ring (sh (onShard s f m) s') = ring (sh m s').
Proof.
  intros Hf. destruct (decide (s' = s)) as [->|]; [|by rewrite sh_other].
  destruct (decide (s < length (shards m))%nat); [by rewrite sh_same|].
  unfold sh, onShard. cbn. rewrite !nth_overflow; rewrite ?length_alter; done || lia.
Qed.

Lemma exec_ring o m s : neutral o -> ring (sh (exec o m) s) = ring (sh m s).
Proof.
  destruct o; cbn [neutral exec]; intros Hn; try done;
    lazymatch goal with
    | |- ring (sh (onShard _ _ (onWorker _ _ _)) _) = _ =>
        etransitivity; [apply ring_onShard; done|done]
    | |- ring (sh (onShard _ _ _) _) = _ => apply ring_onShard; done
    | |- ring (sh (over _ _ (onShard ?s' ?f ?m')) _) = _ => change (ring (sh (onShard s' f m') s) = ring (sh m s)); apply ring_onShard; done
    | _ => idtac
    end.
  by destruct tier.
Qed.

(** ** Which functions leave the rings alone *)

Definition quiet {L A} (r : res T L A) : Prop :=
  match r with Go o _ | Back o _ => neutral o | Block => True end.

Lemma quiet_call {L A L' A'} (r : res T L A) (f : L -> L') (g : A -> L' + A') : quiet r -> quiet (call r f g).
Proof. destruct r as [| |]; cbn; try done. by destruct (g a). Qed.

Lemma hasTask_quiet s a m : quiet (hasTask s a m).
Proof. by destruct a. Qed.
Lemma wakeIdle_quiet j s a m : quiet (wakeIdle j s a m).
Proof. destruct a; cbn; by case_match. Qed.
Lemma start_quiet j s a m : quiet (start j s a m).
Proof. destruct a; cbn; by try case_match. Qed.

Hint Resolve quiet_call hasTask_quiet wakeIdle_quiet start_quiet : shards.

Lemma borrow_quiet s a m : quiet (borrow s a m).
Proof. destruct a; cbn [borrow]; destruct (_ && _); auto with shards; repeat case_match; by simplify_eq. Qed.
Hint Resolve borrow_quiet : shards.
Lemma find_quiet s a m : quiet (find s a m).
Proof. destruct a; cbn; auto with shards. Qed.
Hint Resolve find_quiet : shards.
Lemma notify_quiet s a m : quiet (notify s a m).
Proof. destruct a; cbn; repeat case_match; simplify_eq/=; auto with shards. Qed.
Lemma watch_quiet a m : quiet (watch a m).
Proof. destruct a; cbn; by try case_match. Qed.
Lemma runOverflow_quiet s t a m : quiet (runOverflow s t a m).
Proof. destruct a; cbn; by try case_match. Qed.
Hint Resolve notify_quiet watch_quiet runOverflow_quiet : shards.
Lemma notifyBehind_quiet s a m : quiet (notifyBehind s a m).
Proof. destruct a; cbn; auto with shards. Qed.
Lemma park_quiet w a m : quiet (park w a m).
Proof. destruct a; cbn; repeat case_match; simplify_eq/=; auto with shards. Qed.
Lemma retireIdle_quiet s d a m : quiet (retireIdle s d a m).
Proof. destruct a; cbn; repeat case_match; simplify_eq/=; auto with shards. Qed.
Hint Resolve notifyBehind_quiet park_quiet retireIdle_quiet : shards.
Lemma monitor_quiet a m : quiet (monitor a m).
Proof. destruct a; cbn; repeat case_match; simplify_eq/=; auto with shards. Qed.
Lemma janitor_quiet a m : quiet (retireIdleWorkers a m).
Proof. destruct a; cbn; repeat case_match; simplify_eq/=; auto with shards. Qed.
Lemma Rescue_quiet now a m : quiet (Rescue now a m).
Proof. destruct a; cbn; repeat case_match; simplify_eq/=; auto with shards. Qed.
End Reading.
#[export] Hint Resolve quiet_call hasTask_quiet wakeIdle_quiet start_quiet borrow_quiet find_quiet notify_quiet
  watch_quiet runOverflow_quiet notifyBehind_quiet park_quiet retireIdle_quiet monitor_quiet janitor_quiet Rescue_quiet : shards.

(** ** What a goroutine does to a ring *)

Section Rings.
Context {T : Type} (key : T -> Z).
Implicit Types (m : pool T) (th : thread T).

Definition pushing th : option (nat * T * push_at) :=
  match th with
  | TSubmit t (SubmitPush s a) | TSubmitBehind t (SubmitBehindPush s a) => Some (s, t, a)
  | TSubmitBatch (BatchPush n t _ _ a) => Some (shardOf key t n, t, a)
  | TSubmitBatch (BatchEach t _ (SubmitPush s a)) => Some (s, t, a)
  | _ => None
  end.

Definition popping th : option (nat * pop_at T) :=
  match th with
  | TWorker _ s (RunPop a) | TOverflow s (OverPop a) => Some (s, a)
  | TStop (StopPop i a) => Some (i, a)
  | _ => None
  end.

(** At most about to begin a push or a pop. *)
Definition unclaimed th : Prop :=
  match pushing th with Some (_, _, PushTail) | None => True | _ => False end /\
  match popping th with Some (_, PopHead) | None => True | _ => False end.

Inductive ring_move th m : op T -> thread T -> Prop :=
| move_push s t a o a' th' : pushing th = Some (s, t, a) -> push s t a m = Go o a' ->
    pushing th' = Some (s, t, a') -> popping th' = None -> ring_move th m o th'
| move_pushed s t a o b th' : pushing th = Some (s, t, a) -> push s t a m = Back o b -> unclaimed th' -> ring_move th m o th'
| move_pop s a o a' th' : popping th = Some (s, a) -> pop s a m = Go o a' ->
    popping th' = Some (s, a') -> pushing th' = None -> ring_move th m o th'
| move_popped s a o r th' : popping th = Some (s, a) -> pop s a m = Back o r -> unclaimed th' -> ring_move th m o th'
| move_else o th' : pushing th = None -> popping th = None -> neutral o -> unclaimed th' -> ring_move th m o th'.

(** The outcome of an inner call, given what it does to the rings. *)
Lemma onward_call {L A L' A'} (r : res T L A) (f : L -> L') (g : A -> L' + A') inside ret o th :
  onward inside ret (call r f g) = Some (o, th) ->
  (exists l, r = Go o l /\ th = inside (f l)) \/
  (exists a, r = Back o a /\ th = match g a with inl l => inside l | inr b => ret b end).
Proof.
  destruct r as [o' l|o' a|]; cbn; intros H; [left|right|done].
  - simplify_eq. eauto.
  - exists a. destruct (g a); cbn in H; by simplify_eq.
Qed.

Lemma quiet_onward {L A} (r : res T L A) inside ret o th' :
  quiet r -> onward inside ret r = Some (o, th') -> neutral o.
Proof. destruct r; cbn; naive_solver. Qed.

Lemma unclaimed_batchNext n ts w :
  unclaimed (match batchNext (T:=T) n ts w with inl l => TSubmitBatch l | inr b => TEnd b end).
Proof. destruct ts; cbn; [|done]. unfold notifyTouched. by repeat case_match; simplify_eq/=. Qed.

Lemma unclaimed_notifyTouched i w :
  unclaimed (match notifyTouched i w with inl l => TSubmitBatch l | inr b => TEnd b end).
Proof. unfold notifyTouched. by repeat case_match; simplify_eq/=. Qed.

Lemma unclaimed_batchEach (ts : list T) :
  unclaimed (match batchEach ts with inl l => TSubmitBatch l | inr b => TEnd b end).
Proof. by destruct ts. Qed.

Hint Resolve unclaimed_batchNext unclaimed_notifyTouched unclaimed_batchEach : shards.

(** Each goroutine's step is a move on at most one ring. *)
Ltac ring_call H :=
  apply onward_call in H as [(? & ? & ->)|(? & ? & ->)].

Lemma next_ring_submit t a m o th' : next key (TSubmit t a) m = Some (o, th') -> ring_move (TSubmit t a) m o th'.
Proof.
  intros H. destruct a; cbn [next Submit] in H.
  - cbn in H. simplify_eq. by apply move_else.
  - ring_call H; [by eapply move_push|by eapply move_pushed; [..|destruct x]].
  - apply move_else; try done; [by eapply quiet_onward in H; eauto with shards|]. by ring_call H.
  - apply move_else; try done; [by eapply quiet_onward in H; eauto with shards|]. by ring_call H.
Qed.

(** A move only depends on what the goroutine pushes and pops. *)
Lemma ring_move_as th1 th2 m o th1' th2' :
  ring_move th1 m o th1' -> pushing th2 = pushing th1 -> popping th2 = popping th1 ->
  pushing th2' = pushing th1' -> popping th2' = popping th1' -> ring_move th2 m o th2'.
Proof.
  intros Hm E1 E2 E3 E4.
  assert (Hu : unclaimed th1' -> unclaimed th2') by (unfold unclaimed; by rewrite E3, E4).
  destruct Hm.
  - eapply move_push; rewrite ?E1, ?E3, ?E4; eauto.
  - eapply move_pushed; rewrite ?E1; eauto.
  - eapply move_pop; rewrite ?E2, ?E3, ?E4; eauto.
  - eapply move_popped; rewrite ?E2; eauto.
  - eapply move_else; rewrite ?E1, ?E2; eauto.
Qed.

Lemma ring_move_then th m o th1 th2 : ring_move th m o th1 -> unclaimed th1 -> unclaimed th2 -> 
  (pushing th1 = None /\ popping th1 = None) -> ring_move th m o th2.
Proof.
  intros Hm _ Hu [E1 E2]. destruct Hm; try congruence.
  - by eapply move_pushed.
  - by eapply move_popped.
  - by eapply move_else.
Qed.

Ltac ring_else H :=
  apply move_else; try done; [by eapply quiet_onward in H; eauto with shards|by ring_call H; auto with shards].

Lemma next_ring_behind t a m o th' : next key (TSubmitBehind t a) m = Some (o, th') -> ring_move (TSubmitBehind t a) m o th'.
Proof.
  intros H. destruct a; cbn [next SubmitBehind] in H.
  - cbn in H. simplify_eq. by apply move_else.
  - ring_call H; [by eapply move_push|by eapply move_pushed; [..|destruct x]].
  - ring_else H.
  - ring_else H.
Qed.

Lemma next_ring_batch a m o th' : next key (TSubmitBatch a) m = Some (o, th') -> ring_move (TSubmitBatch a) m o th'.
Proof.
  intros H. destruct a as [ts|n t ts w a|n t ts w a|i w s a|t ts a]; cbn [next SubmitBatch] in H.
  - assert (H' : o = ONop /\ unclaimed th').
    { destruct (64 <? active m); [destruct (1024 <? active m)|].
      - pose proof (unclaimed_batchEach ts). case_match; cbn in H; by simplify_eq.
      - pose proof (unclaimed_batchNext (active m) ts (replicate 16 0)). case_match; cbn in H; by simplify_eq.
      - pose proof (unclaimed_batchNext (active m) ts [0]). case_match; cbn in H; by simplify_eq. }
    destruct H' as [-> ?]. by apply move_else.
  - ring_call H; [by eapply move_push|]. eapply move_pushed; [done|done|]. destruct x; [apply unclaimed_batchNext|done].
  - ring_else H.
  - ring_else H.
  - ring_call H.
    + eapply (ring_move_as (TSubmit t a)); [apply next_ring_submit; cbn; by rewrite H|by destruct a|done|by destruct x|done].
    + eapply (ring_move_then _ _ _ (TEnd x)); [|done|auto with shards|done].
      eapply (ring_move_as (TSubmit t a) _ _ _ (TEnd x)); [apply next_ring_submit; cbn; by rewrite H|by destruct a|done..].
Qed.

Lemma next_ring_worker w s a m o th' : next key (TWorker w s a) m = Some (o, th') -> ring_move (TWorker w s a) m o th'.
Proof.
  intros H. destruct a; cbn [next run] in H.
  3: { ring_call H; [by eapply move_pop|by eapply move_popped; [..|destruct x]]. }
  all: try (cbn in H; simplify_eq; by apply move_else).
  all: apply move_else; try done; [by eapply quiet_onward in H; eauto with shards|].
  all: by ring_call H; try destruct x.
Qed.

Lemma next_ring_stop a m o th' : next key (TStop a) m = Some (o, th') -> ring_move (TStop a) m o th'.
Proof.
  intros H. destruct a; cbn [next Stop] in H.
  8: { ring_call H; [by eapply move_pop|]. eapply move_popped; [done|done|]. by repeat case_match; simplify_eq/=. }
  all: unfold stopSend, stopNext in H; repeat case_match; simplify_eq/=; by apply move_else.
Qed.

Theorem next_ring th m o th' : next key th m = Some (o, th') -> ring_move th m o th'.
Proof.
  destruct th; intros H.
  - by apply next_ring_submit.
  - by apply next_ring_behind.
  - by apply next_ring_batch.
  - cbn in H. simplify_eq. by apply move_else.
  - cbn in H. simplify_eq. by apply move_else.
  - apply move_else; try done; [by eapply quiet_onward in H; eauto with shards|].
    cbn [next] in H. by destruct (Rescue now a m); simplify_eq/=.
  - by apply next_ring_stop.
  - by apply next_ring_worker.
  - destruct a; cbn [next overflowing] in H; [done| |cbn in H; simplify_eq; apply move_else; [done..|by case_match]].
    ring_call H; [by eapply move_pop|by eapply move_popped; [..|destruct x]].
  - apply move_else; try done; [by eapply quiet_onward in H; eauto with shards|].
    cbn [next] in H. by destruct (monitor a m); simplify_eq/=.
  - apply move_else; try done; [by eapply quiet_onward in H; eauto with shards|].
    cbn [next] in H. by destruct (retireIdleWorkers a m); simplify_eq/=.
  - done.
  - done.
  - done.
  - done.
Qed.

Lemma starts_unclaimed o m th : th ∈ starts o m -> unclaimed th.
Proof. destruct o; cbn; try case_match; rewrite ?elem_of_nil, ?list_elem_of_singleton; intros; by simplify_eq. Qed.
End Rings.
#[export] Hint Resolve unclaimed_batchNext unclaimed_notifyTouched unclaimed_batchEach : shards.

(** ** Events *)

Section Events.
Context {T : Type} (key : T -> Z).
Implicit Types (st : system (T:=T)) (e : event (T:=T)).

Inductive moves st : system (T:=T) -> Prop :=
| moves_step i th o th' : threads st !! i = Some th -> next key th (mem st) = Some (o, th') ->
    moves st (MkSystem (exec o (mem st)) (<[i := th']> (threads st) ++ starts o (mem st)))
| moves_call c : moves st (MkSystem ((mem st) <| submitted ::= fun l => l ++ (Some <$> (requested c).1) |>) (threads st ++ [(requested c).2]))
| moves_task i th goexit t th' : threads st !! i = Some th -> taskEnds goexit th = Some (t, th') ->
    moves st (MkSystem ((mem st) <| ran ::= fun l => l ++ [t] |>) (<[i := th']> (threads st)))
| moves_tick i th closed th' : threads st !! i = Some th -> ticks closed th = Some th' ->
    (closed = true -> done_ (mem st) = true) -> moves st (MkSystem (mem st) (<[i := th']> (threads st))).

Lemma step_moves e st st' : step key e st = Some st' -> moves st st'.
Proof.
  destruct e; cbn; intros H.
  - apply bind_Some in H as (th & Hi & H). apply bind_Some in H as ([o th'] & Hn & H). simplify_eq. by eapply moves_step.
  - destruct (requested c) eqn:E. simplify_eq.
    replace l with (requested c).1 by (by rewrite E). replace t with (requested c).2 by (by rewrite E). apply moves_call.
  - apply bind_Some in H as (th & Hi & H). apply bind_Some in H as ([t th'] & Hn & H). simplify_eq. by eapply moves_task.
  - apply bind_Some in H as (th & Hi & H). apply bind_Some in H as (th' & Hn & H).
    destruct (closed && negb (done_ (mem st))) eqn:E; simplify_eq. eapply moves_tick; [done..|]. intros ->. by destruct (done_ (mem st)).
Qed.

(** Invariants of runs, which may count the events so far. *)
Lemma runs_invariant (P : Z -> system -> Prop) st0 es st :
  runs key es st0 = Some st -> P 0 st0 ->
  (forall n st1 st2, P n st1 -> moves st1 st2 -> n < Z.of_nat (length es) -> P (n + 1) st2) ->
  P (Z.of_nat (length es)) st.
Proof.
  intros H H0 Hstep.
  assert (Hgen : forall es' k st1, runs key es' st1 = Some st -> P k st1 -> k + Z.of_nat (length es') = Z.of_nat (length es) ->
    P (Z.of_nat (length es)) st).
  { induction es' as [|e es' IH]; cbn; intros k st1 Hr Hk El.
    - simplify_eq. by replace (Z.of_nat (length es)) with k by lia.
    - apply bind_Some in Hr as (st2 & Hs & Hr). apply (IH (k + 1) st2); [done| |lia].
      apply (Hstep k st1); [done|by eapply step_moves|lia]. }
  by apply (Hgen es 0 st0).
Qed.

Lemma lookup_insert_app {A} (l : list A) i j x (l' : list A) y :
  (<[i := x]> l ++ l') !! j = Some y -> (j = i /\ y = x /\ (i < length l)%nat) \/ (j <> i /\ l !! j = Some y) \/ y ∈ l'.
Proof.
  rewrite lookup_app_Some. intros [H|[_ H]]; [|right; right; by eapply list_elem_of_lookup_2].
  apply list_lookup_insert_Some in H as [(-> & <- & ?)|[? ?]]; eauto.
Qed.

(** Threads not touched by a step stay. *)
Lemma threads_stay (l : list (thread T)) i j x l' y : j <> i -> l !! j = Some y -> (<[i := x]> l ++ l') !! j = Some y.
Proof. intros. apply lookup_app_l_Some. by rewrite list_lookup_insert_ne. Qed.

Lemma threads_moved (l : list (thread T)) i x l' y : l !! i = Some y -> (<[i := x]> l ++ l') !! i = Some x.
Proof. intros. apply lookup_app_l_Some. apply list_lookup_insert_eq. by eapply lookup_lt_Some. Qed.
End Events.

(** ** Indices *)

Section Indices.
Context {T : Type} (key : T -> Z).
Implicit Types (m : pool T) (th : thread T).

Definition submit_in (n : nat) (a : submit_at) : Prop :=
  match a with SubmitActive => True | SubmitPush s _ | SubmitOverflow s _ | SubmitNotify s _ => (s < n)%nat end.
Definition park_in (n : nat) (a : park_at) : Prop := match a with ParkServe i _ => (i < n)%nat | _ => True end.
Definition monitor_in (n : nat) (a : monitor_at) : Prop :=
  match a with
  | MonitorInit hs => (length hs < n)%nat
  | MonitorHead v i | MonitorHas v i _ _ | MonitorNotify v i _ _ | MonitorAny v i _ => (i < n)%nat /\ length (heads v) = n
  | MonitorWait v | MonitorStop v _ | MonitorCas v => length (heads v) = n
  end.
Definition rescue_in (n : nat) (a : rescue_at) : Prop :=
  match a with
  | RescueHead k i _ | RescueHas k i _ _ | RescueStalled k i _ _ | RescueRunning k i | RescueComing k i | RescueRaise k i
  | RescueFind k i _ | RescueDrop k i | RescueNotify k i _ => (i < k)%nat /\ (k <= n)%nat
  | _ => True
  end.
Definition stop_in (n : nat) (a : stop_at T) : Prop :=
  match a with StopTake i | StopComing i _ _ | StopSend i _ _ | StopPop i _ | StopTask i _ => (i < n)%nat | _ => True end.
(** The words of touched shards name shards of the pool. *)
Definition words_in (n : nat) (i : nat) (ws : list Z) : Prop :=
  forall k w b, ws !! k = Some w -> 0 <= w < 2 ^ 64 /\ (0 <= b -> Z.testbit w b = true -> ((i + k) * 64 + Z.to_nat b < n)%nat).
Definition batch_in (n : nat) (a : batch_at T) : Prop :=
  match a with
  | BatchActive _ => True
  | BatchPush act _ _ ws _ | BatchOverflow act _ _ ws _ => 1 <= act <= Z.of_nat n /\ words_in n 0 ws
  | BatchNotify i ws s _ => words_in n i ws /\ (s < n)%nat
  | BatchEach _ _ a => submit_in n a
  end.

Definition thread_in (n : nat) th : Prop :=
  match th with
  | TSubmit _ a => submit_in n a
  | TSubmitBehind _ a => match a with SubmitBehindActive => True | SubmitBehindPush s _ | SubmitBehindOverflow s _ | SubmitBehindNotify s _ => (s < n)%nat end
  | TSubmitBatch a => batch_in n a
  | TRescue _ a => rescue_in n a
  | TStop a => stop_in n a
  | TWorker _ s a => (s < n)%nat /\ match a with RunPark a => park_in n a | _ => True end
  | TOverflow s _ | TGone s => (s < n)%nat
  | TMonitor a => monitor_in n a
  | TJanitor a => match a with JanitorShard _ i _ => (i < n)%nat | _ => True end
  | _ => True
  end.

(** The pool's own indices: its active count, its workers' homes and the
    shards they are sent to. *)
Record indices (n : nat) m : Prop := {
  ix_count : length (shards m) = n;
  ix_pos : (0 < n)%nat;
  ix_base : 1 <= base m /\ Z.of_nat n = 4 * base m;
  ix_active : 1 <= active m <= Z.of_nat n;
  ix_home : forall w, w ∈ objects m -> (home w < n)%nat;
  ix_wake : forall w s, w ∈ objects m -> wake w = Some (Some s) -> (s < n)%nat
}.

Definition op_in (n : nat) (o : op T) : Prop :=
  match o with
  | OSend _ (Some s) | OGoAgain _ s | OGoOverflow s _ => (s < n)%nat
  | OGoWorker s s' => (s < n)%nat /\ (s' < n)%nat
  | OKeys _ (Some a) => 1 <= a <= Z.of_nat n
  | _ => True
  end.
Definition res_in {L A} (n : nat) (r : res T L A) : Prop :=
  match r with Go o _ | Back o _ => op_in n o | Block => True end.

#[local] Arguments Z.pow _ _ : simpl never.
#[local] Arguments Nat.ltb _ _ : simpl never.
#[local] Arguments Nat.modulo _ _ : simpl never.

Lemma res_in_call {L A L' A'} n (r : res T L A) (f : L -> L') (g : A -> L' + A') : res_in n r -> res_in n (call r f g).
Proof. destruct r as [| |]; cbn; try done. by destruct (g a). Qed.

Lemma quiet_res_in_has n s a m : res_in n (hasTask s a m).
Proof. by destruct a. Qed.
Lemma wakeIdle_in n j s a m : (s < n)%nat -> res_in n (wakeIdle j s a m).
Proof. destruct a; cbn; by case_match. Qed.
Lemma start_in n j s a m : (j < n)%nat -> (s < n)%nat -> res_in n (start j s a m).
Proof. destruct a; cbn; by try case_match. Qed.
Lemma push_in n s t a m : res_in n (push s t a m).
Proof. destruct a; cbn; by repeat case_match. Qed.
Lemma pop_in n s a m : res_in n (pop s a m).
Proof. destruct a; cbn; by repeat case_match. Qed.
Hint Resolve res_in_call quiet_res_in_has wakeIdle_in start_in push_in pop_in : shards.

Lemma borrow_in n s a m : length (shards m) = n -> (s < n)%nat -> res_in n (borrow s a m).
Proof.
  intros En Hs. assert (forall i, Nat.modulo (s + 1 + i) n < n)%nat by (intros; apply Nat.mod_upper_bound; lia).
  destruct a; cbn [borrow]; rewrite En; destruct (_ && _); auto with shards; repeat case_match; by simplify_eq.
Qed.
Hint Resolve borrow_in : shards.
Lemma find_in n s a m : length (shards m) = n -> (s < n)%nat -> res_in n (find s a m).
Proof. intros. destruct a; cbn; auto with shards. Qed.
Hint Resolve find_in : shards.
Lemma notify_in n s a m : length (shards m) = n -> (s < n)%nat -> res_in n (notify s a m).
Proof. intros. destruct a; cbn; repeat case_match; simplify_eq/=; auto with shards. Qed.
Lemma watch_in n a m : res_in n (watch a m).
Proof. destruct a; cbn; by try case_match. Qed.
Lemma runOverflow_in n s t a m : (s < n)%nat -> res_in n (runOverflow s t a m).
Proof. destruct a; cbn; by try case_match. Qed.
Hint Resolve notify_in watch_in runOverflow_in : shards.
Lemma notifyBehind_in n s a m : length (shards m) = n -> (s < n)%nat -> res_in n (notifyBehind s a m).
Proof. intros. destruct a; cbn; auto with shards. Qed.
Lemma retireIdle_in n s d a m : res_in n (retireIdle s d a m).
Proof. destruct a; cbn; repeat case_match; simplify_eq/=; auto with shards. Qed.
Hint Resolve notifyBehind_in retireIdle_in : shards.

Lemma ob_home n m w : indices n m -> (home (ob m w) < n)%nat.
Proof.
  intros Hm. unfold ob. rewrite nth_lookup. destruct (objects m !! w) eqn:E; cbn; [|apply Hm].
  apply (ix_home n m Hm). by eapply list_elem_of_lookup_2.
Qed.
Lemma ob_wake n m w s : indices n m -> wake (ob m w) = Some (Some s) -> (s < n)%nat.
Proof.
  intros Hm. unfold ob. rewrite nth_lookup. destruct (objects m !! w) eqn:E; cbn; [|done].
  apply (ix_wake n m Hm). by eapply list_elem_of_lookup_2.
Qed.
Hint Resolve ob_home : shards.

Lemma park_res_in n w a m : indices n m -> park_in n a -> res_in n (park w a m).
Proof. intros Hm Ha. pose proof (ix_count n m Hm). destruct a; cbn; repeat case_match; simplify_eq/=; auto with shards. Qed.
Hint Resolve park_res_in : shards.

Lemma exec_indices n o m : indices n m -> op_in n o -> indices n (exec o m).
Proof.
  intros [E1 E2 E3 E4 E5 E6] Ho.
  assert (Ew : forall i f, (forall w, home (f w) = home w) -> forall w, w ∈ alter f i (objects m) -> (home w < n)%nat).
  { intros i f Hf w [j Hj]%list_elem_of_lookup. rewrite list_lookup_alter in Hj.
    case_decide; [|by apply E5; eapply list_elem_of_lookup_2].
    destruct (objects m !! i) eqn:Ei; simplify_eq/=. rewrite Hf. apply E5. by eapply list_elem_of_lookup_2. }
  assert (Es : forall i f, (forall w s, wake (f w) = Some (Some s) -> wake w = Some (Some s) \/ (s < n)%nat) ->
    forall w s, w ∈ alter f i (objects m) -> wake w = Some (Some s) -> (s < n)%nat).
  { intros i f Hf w s [j Hj]%list_elem_of_lookup Hw. rewrite list_lookup_alter in Hj.
    case_decide; [|by eapply E6; [eapply list_elem_of_lookup_2|]].
    destruct (objects m !! i) as [w0|] eqn:Ei; simplify_eq/=. destruct (Hf w0 s Hw); [|done].
    by eapply (E6 w0); [eapply list_elem_of_lookup_2|]. }
  destruct o; try destruct tier; split; cbn; rewrite ?length_alter; try done.
  - apply Ew. done.
  - apply Es. cbn. intros ? ? [= ->]. by right.
  - apply Ew. done.
  - apply Es. done.
  - intros w [?| ->%list_elem_of_singleton]%elem_of_app; [auto|apply Ho].
  - intros w s' [?| ->%list_elem_of_singleton]%elem_of_app; [eauto|done].
  - apply Ew. done.
  - apply Es. cbn. auto.
Qed.

Lemma lor_uint w a b : 0 <= w -> is_uint w a -> is_uint w b -> is_uint w (Z.lor a b).
Proof.
  unfold is_uint. intros Hw Ha Hb. assert (0 <= Z.lor a b) by (apply Z.lor_nonneg; lia). split; [done|].
  assert (Hl : forall c, 0 <= c < 2 ^ w -> c = 0 \/ Z.log2 c < w).
  { intros c Hc. destruct (decide (c = 0)); [by left|right]. apply Z.log2_lt_pow2; lia. }
  destruct (decide (Z.lor a b = 0)) as [E|E]; [pose proof (Z.pow_pos_nonneg 2 w); lia|].
  apply Z.log2_lt_pow2; [lia|]. rewrite Z.log2_lor by lia.
  destruct (Hl a Ha) as [->|?], (Hl b Hb) as [->|?]; cbn [Z.log2]; try lia.
  - done.
  - pose proof (Z.log2_nonneg b). lia.
  - pose proof (Z.log2_nonneg a). lia.
Qed.

Lemma land_uint w a b : 0 <= w -> is_uint w a -> 0 <= b -> is_uint w (Z.land a b).
Proof.
  unfold is_uint. intros Hw Ha Hb. assert (0 <= Z.land a b) by (apply Z.land_nonneg; lia). split; [done|].
  destruct (decide (Z.land a b = 0)) as [E|E]; [pose proof (Z.pow_pos_nonneg 2 w); lia|].
  apply Z.log2_lt_pow2; [lia|]. pose proof (Z.log2_land a b ltac:(lia) ltac:(lia)).
  assert (a <> 0) by (intros ->; by rewrite Z.land_0_l in E).
  assert (Z.log2 a < w) by (apply Z.log2_lt_pow2; lia). lia.
Qed.

Lemma words_touch n s ws : (s < n)%nat -> words_in n 0 ws -> words_in n 0 (touch s ws).
Proof.
  intros Hs Hw k w b. unfold touch. rewrite list_lookup_alter. case_decide as Ek; [|by apply Hw].
  destruct (ws !! (s / 64)%nat) as [w0|] eqn:E0; cbn -[Nat.modulo]; intros; simplify_eq.
  pose proof (Nat.mod_upper_bound s 64 ltac:(lia)). destruct (Hw _ w0 b E0) as [Hr Hb].
  rewrite Z.shiftl_1_l. split.
  - assert (0 <= 2 ^ Z.of_nat (s mod 64) < 2 ^ 64) by (split; [lia|apply Z.pow_lt_mono_r; lia]).
    by apply lor_uint.
  - intros Hb0. rewrite Z.lor_spec, orb_true_iff. intros [Ht|Ht]; [by apply Hb|].
    rewrite Z.pow2_bits_eqb in Ht by lia. apply Z.eqb_eq in Ht. subst b.
    pose proof (Nat.div_mod_eq s 64). rewrite Nat2Z.id. lia.
Qed.

Lemma words_next n i ws i' ws' s :
  words_in n i ws -> nextTouched i ws = Some (i', ws', s) -> words_in n i' ws' /\ (s < n)%nat.
Proof.
  revert i. induction ws as [|w ws IH]; cbn [nextTouched]; intros i Hw H; [done|].
  destruct (Z.eqb_spec w 0) as [->|Hne].
  - apply (IH (S i)); [|done]. intros k w b Hk. destruct (Hw (S k) w b Hk) as [? Hb]. split; [done|]. intros ? ?.
    specialize (Hb ltac:(done) ltac:(done)). lia.
  - destruct (Hw O w 0 eq_refl) as [Hr _]. simplify_eq. split.
    + intros [|k] w' b Hk; cbn in Hk; [|by apply (Hw (S k))]. simplify_eq. destruct (Hw O w b eq_refl) as [_ Hb]. split.
      * apply land_uint; [lia|done|lia].
      * intros ?. rewrite Z.land_spec, andb_true_iff. intros [? _]. by apply Hb.
    + destruct (TrailingZeros64_spec w) as (Ht & ? & _); [done|done|]. simplify_eq/=. destruct (Hw O w (TrailingZeros64 w) eq_refl) as [_ Hb].
      specialize (Hb ltac:(lia) Ht). lia.
Qed.

Lemma shardOf_in n t act : 1 <= act <= Z.of_nat n -> (shardOf key t act < n)%nat.
Proof. intros. unfold shardOf. pose proof (Z.mod_pos_bound (key t) act). lia. Qed.
Hint Resolve shardOf_in ix_active ix_count words_touch : shards.

Lemma onward_in {L A} n (r : res T L A) inside ret o th' :
  onward inside ret r = Some (o, th') -> res_in n r -> op_in n o.
Proof. destruct r; cbn; intros; by simplify_eq. Qed.

(** What a step keeps in range. *)
Definition goes_in (n : nat) (r : option (op T * thread T)) : Prop :=
  match r with Some (o, th) => op_in n o /\ thread_in n th | None => True end.

Lemma onward_call_goes {L A L' A'} n (r : res T L A) (f : L -> L') (g : A -> L' + A') inside ret :
  res_in n r -> (forall o l, r = Go o l -> thread_in n (inside (f l))) ->
  (forall o a, r = Back o a -> thread_in n (match g a with inl l => inside l | inr b => ret b end)) ->
  goes_in n (onward inside ret (call r f g)).
Proof. destruct r as [o l|o a|]; cbn; intros Hr H1 H2; [by split; [|eapply H1]| |done]. specialize (H2 o a eq_refl). by destruct (g a). Qed.

Lemma notifyTouched_in n i ws :
  words_in n i ws -> thread_in n (match notifyTouched (T:=T) i ws with inl l => TSubmitBatch l | inr b => TEnd b end).
Proof. intros Hw. unfold notifyTouched. destruct (nextTouched i ws) as [[[]]|] eqn:E; [|done]. by eapply words_next. Qed.

Lemma batchNext_in n act ts ws :
  1 <= act <= Z.of_nat n -> words_in n 0 ws ->
  thread_in n (match batchNext (T:=T) act ts ws with inl l => TSubmitBatch l | inr b => TEnd b end).
Proof. intros. destruct ts; cbn -[notifyTouched]; [by apply notifyTouched_in|done]. Qed.

Lemma batchEach_in n (ts : list T) : thread_in n (match batchEach ts with inl l => TSubmitBatch l | inr b => TEnd b end).
Proof. by destruct ts. Qed.

Lemma words_empty n k : words_in n 0 (replicate k 0).
Proof. intros i w b [-> ?]%lookup_replicate. split; [lia|]. by rewrite Z.bits_0. Qed.
Hint Resolve notifyTouched_in batchNext_in batchEach_in words_empty : shards.

Lemma Submit_in n t a m : indices n m -> submit_in n a -> goes_in n (next key (TSubmit t a) m).
Proof.
  intros Hm Ha. pose proof (ix_count n m Hm). destruct a; cbn [next Submit].
  - cbn. eauto with shards.
  - apply onward_call_goes; [auto with shards|done|]. intros ? [] _; done.
  - apply onward_call_goes; [auto with shards|done..].
  - apply onward_call_goes; [auto with shards|done..].
Qed.

Lemma SubmitBatch_in n a m : indices n m -> batch_in n a -> goes_in n (next key (TSubmitBatch a) m).
Proof.
  intros Hm Ha. pose proof (ix_count n m Hm). pose proof (ix_active n m Hm).
  destruct a as [ts|k t ts w a|k t ts w a|i w s a|t ts a]; cbn [next SubmitBatch].
  - destruct (64 <? active m); [destruct (1024 <? active m)|].
    + pose proof (batchEach_in n ts). by destruct (batchEach ts).
    + pose proof (batchNext_in n (active m) ts (replicate 16 0) ltac:(done) (words_empty _ _)). by destruct (batchNext _ _ _).
    + pose proof (batchNext_in n (active m) ts [0] ltac:(done) (words_empty _ 1)). by destruct (batchNext _ _ _).
  - destruct Ha. apply onward_call_goes; [auto with shards|done|]. intros ? [] _; [|done]. eauto with shards.
  - destruct Ha. apply onward_call_goes; [auto with shards|done|]. intros. eauto with shards.
  - destruct Ha. apply onward_call_goes; [auto with shards|done|]. intros. eauto with shards.
  - pose proof (Submit_in n t a m Hm Ha) as Hg. cbn [next] in Hg.
    apply onward_call_goes; [| |intros; auto with shards].
    + destruct (Submit key t a m); cbn in *; by destruct_and?.
    + intros ? ? E. rewrite E in Hg. apply Hg.
Qed.

Ltac goes_call := apply onward_call_goes; [auto with shards|intros; done|].

Lemma call_Go {L A L' A'} (r : res T L A) (f : L -> L') (g : A -> L' + A') o l' :
  call r f g = Go o l' -> (exists l, r = Go o l /\ l' = f l) \/ (exists a, r = Back o a /\ g a = inl l').
Proof. destruct r as [| ? a|]; cbn; [|destruct (g a) eqn:E|]; intros; simplify_eq; eauto. Qed.

Lemma call_Back {L A L' A'} (r : res T L A) (f : L -> L') (g : A -> L' + A') o b :
  call r f g = Back o b -> exists a, r = Back o a /\ g a = inr b.
Proof. destruct r as [| ? a|]; cbn; [|destruct (g a) eqn:E|]; intros; simplify_eq; eauto. Qed.

Lemma park_label_in n w a m o l : indices n m -> park_in n a -> park w a m = Go o l -> park_in n l.
Proof.
  intros Hm Ha E. pose proof (ix_pos n m Hm). pose proof (ix_count n m Hm) as En.
  destruct a; cbn [park] in E; try (repeat case_match; by simplify_eq).
  - apply call_Go in E as [(? & _ & ->)|(b & _ & E)]; [done|]. simplify_eq. by case_match.
  - apply call_Go in E as [(? & _ & ->)|(b & _ & E)]; [done|]. by simplify_eq.
  - apply call_Go in E as [(? & _ & ->)|(b & _ & E)]; [done|]. simplify_eq. destruct (Nat.ltb_spec (S i) (length (shards m))); done.
Qed.

Lemma park_target_in n w a m o s : indices n m -> park w a m = Back o (Some s) -> (s < n)%nat.
Proof.
  intros Hm E. destruct a; cbn [park] in E; try (repeat case_match; by simplify_eq).
  - by apply call_Back in E as (? & _ & ?).
  - by apply call_Back in E as (? & _ & ?).
  - by apply call_Back in E as (? & _ & ?).
  - destruct (wake (ob m w)) eqn:Ew; simplify_eq. by eapply ob_wake.
Qed.

Lemma run_in n w s a m : indices n m -> thread_in n (TWorker w s a) -> goes_in n (next key (TWorker w s a) m).
Proof.
  intros Hm [Hs Ha]. pose proof (ix_count n m Hm). destruct a; cbn [next run]; try done; try (goes_call; intros; done || by case_match).
  apply onward_call_goes; [auto with shards| |].
  - intros o l E. cbn. split; [done|]. by eapply park_label_in.
  - intros o r E. destruct r as [s'|]; [|done]. cbn. split; [|done]. by eapply park_target_in.
Qed.

Lemma Stop_in n a m : indices n m -> stop_in n a -> goes_in n (next key (TStop a) m).
Proof.
  intros Hm Ha. pose proof (ix_count n m Hm) as En. pose proof (ix_pos n m Hm).
  assert (Hnext : forall i, (i < n)%nat -> thread_in n (TStop (stopNext (length (shards m)) i))).
  { intros i Hi. unfold stopNext. destruct (Nat.ltb_spec (S i) (length (shards m))); cbn; lia. }
  destruct a; cbn [next Stop] in *; cbn; try (repeat case_match; simplify_eq/=; by auto).
  - split; [done|]. unfold stopSend. case_match; [by apply Hnext|done].
  - case_decide; [|done]. split; [done|]. unfold stopSend. case_match; [by apply Hnext|done].
  - goes_call. intros o [] _; [done|]. destruct (Nat.ltb_spec (S i) (length (shards m))); cbn; lia || done.
Qed.

Lemma monitorNext_in n i h v : (i < n)%nat -> length (heads v) = n -> monitor_in n (monitorNext n i h v).
Proof.
  intros. unfold monitorNext. destruct (Nat.ltb_spec (S i) n); cbn; [rewrite length_insert; lia|].
  repeat case_match; cbn; by rewrite length_insert.
Qed.

Lemma monitor_goes n a m : indices n m -> monitor_in n a -> goes_in n (next key (TMonitor a) m).
Proof.
  intros Hm Ha. pose proof (ix_count n m Hm) as En. destruct a; cbn [next monitor].
  - cbn in Ha |- *. split; [done|]. rewrite En. destruct (Nat.ltb_spec (length (heads ++ [head (sh m (length heads))])) n) as [Hl|Hl]; [done|].
    cbn. rewrite length_app in *. cbn in *. lia.
  - done.
  - done.
  - destruct Ha. goes_call. intros o b _. rewrite En. destruct b; [case_match; [done|]|]; by apply monitorNext_in.
  - destruct Ha. goes_call. intros. rewrite En. by apply monitorNext_in.
  - case_match; cbn; [done|]. pose proof (ix_pos n m Hm). done.
  - destruct Ha. goes_call. intros o b _. rewrite En. destruct b; [done|]. destruct (Nat.ltb_spec (S i) n); cbn; [lia|done].
  - by case_match.
Qed.

Lemma Rescue_goes n now a m : indices n m -> rescue_in n a -> goes_in n (next key (TRescue now a) m).
Proof.
  intros Hm Ha. pose proof (ix_count n m Hm) as En. pose proof (ix_active n m Hm).
  assert (Hnext : forall k i b, (i < k)%nat -> (k <= n)%nat -> rescue_in n (if (S i <? k)%nat then RescueHead k (S i) b else RescueEnd b)).
  { intros. destruct (Nat.ltb_spec (S i) k); cbn; lia || done. }
  destruct a; cbn [next Rescue rescue_in] in *; destruct_and?; try (goes_call; intros; done || (case_match; done || by apply Hnext)).
  all: cbn; repeat (case_match; cbn); simplify_eq; try done; try (split; [done|]; by apply Hnext).
  all: repeat match goal with H : (_ <? _)%nat = true |- _ => apply Nat.ltb_lt in H end; try (split; [done|]); try lia.
  all: assert (i < length (shards m))%nat by lia; goes_call; intros o b _; try destruct b; cbn; lia || done.
Qed.

Theorem next_in n th m : indices n m -> thread_in n th -> goes_in n (next key th m).
Proof.
  intros Hm Ha. pose proof (ix_count n m Hm) as En. pose proof (ix_base n m Hm). destruct th.
  - by apply Submit_in.
  - cbn in Ha. destruct a; cbn [next SubmitBehind]; [cbn; eauto with shards|..].
    all: goes_call; intros ? []; done.
  - by apply SubmitBatch_in.
  - cbn -[Z.mul]. rewrite En. repeat case_match; cbn -[Z.mul]; split; try done; simplify_eq; lia.
  - cbn -[Z.mul]. repeat case_match; cbn -[Z.mul]; split; try done; simplify_eq; lia.
  - by apply Rescue_goes.
  - by apply Stop_in.
  - by apply run_in.
  - destruct a; cbn [next overflowing]; [done| |cbn; by case_match]. goes_call. intros ? []; done.
  - by apply monitor_goes.
  - destruct a; cbn [next retireIdleWorkers]; [done|split; [done|apply Hm]|]. goes_call. intros. rewrite En.
    destruct (Nat.ltb_spec (S i) n); done.
  - done.
  - done.
  - done.
  - done.
Qed.

Definition in_range (n : nat) (st : system (T:=T)) : Prop :=
  indices n (mem st) /\ forall i th, threads st !! i = Some th -> thread_in n th.

Lemma starts_in n o m th : op_in n o -> indices n m -> th ∈ starts o m -> thread_in n th.
Proof.
  intros Ho Hm. pose proof (ix_pos n m Hm).
  destruct o; cbn; try case_match; rewrite ?elem_of_nil, ?list_elem_of_singleton; intros; simplify_eq; try done. by destruct Ho.
Qed.

Lemma range_moves n st st' : in_range n st -> moves key st st' -> in_range n st'.
Proof.
  intros [Hm Ht] Hs. destruct Hs as [i th o th' Hi Hn|c|i th ge t th' Hi Hn|i th cl th' Hi Hn Hc]; cbn.
  - pose proof (next_in n th (mem st) Hm (Ht i th Hi)) as Hg. rewrite Hn in Hg. destruct Hg as [Ho Hth].
    split; [by apply exec_indices|]. intros j y [(-> & -> & _)|[[? ?]|?]]%lookup_insert_app; [done|by eapply Ht|by eapply starts_in].
  - split; [by destruct Hm|]. cbn. intros j y [?|[_ ?]]%lookup_app_Some; [by eapply Ht|].
    destruct (j - length (threads st))%nat; simplify_eq/=. by destruct c.
  - split; [by destruct Hm|]. intros j y [(-> & -> & _)|[? ?]]%list_lookup_insert_Some; [|by eapply Ht].
    specialize (Ht _ _ Hi). unfold taskEnds in Hn. repeat case_match; simplify_eq/=; done || (cbn in Ht; by destruct_and?).
  - split; [done|]. intros j y [(-> & -> & _)|[? ?]]%list_lookup_insert_Some; [|by eapply Ht].
    specialize (Ht _ _ Hi). unfold ticks in Hn. repeat case_match; simplify_eq/=; try done. pose proof (ix_pos _ _ Hm). done.
Qed.

Lemma range_New procs capacity : in_range (Z.to_nat (4 * Z.max procs 1)) (New procs capacity).
Proof.
  split; [|done]. split; cbn -[Z.mul Z.max]; try (intros; set_solver); try rewrite length_replicate; lia.
Qed.
End Indices.
