(* ===== verification/ShardRing.v ===== *)
(** * The shards' queues

    A shard's queue is a ring of cells claimed by position: a submitter claims
    the tail and then writes the cell, a worker claims the head and then empties
    it, and the cell's sequence number says whose turn it is.  Under every
    interleaving the queue is first in, first out, and no task is lost or
    taken twice; with it, every task handed to the pool is in exactly one place
    until it has run. *)

From S2P Require Import Prelude Update ShardPool ShardFacts.
Local Open Scope Z_scope.

#[local] Arguments Z.pow _ _ : simpl never.
#[local] Arguments Z.land _ _ : simpl never.

(** ** Cells *)

Section Cells.
Context {T : Type} (k : Z).
Hypothesis k_range : 1 <= k <= 62.
Implicit Types x : shard T.

Abbreviation cap := (2 ^ k).

Lemma cap_bounds : 2 <= cap <= 2 ^ 62.
Proof.
  split; [change 2 with (2 ^ 1) at 1|]; apply Z.pow_le_mono_r; lia.
Qed.

Definition sized x : Prop := Z.of_nat (length (slots x)) = cap.
Definition seqAt x (p : Z) : Z := seq_ (cell x p).
Definition taskAt x (p : Z) : item T := task (cell x p).

Lemma cellAt_mod x p : sized x -> cellAt x p = Z.to_nat (p mod cap).
Proof.
  intros Hx. unfold cellAt, mask. rewrite Hx. f_equal.
  rewrite Z.sub_1_r, <- Z.ones_equiv, Z.land_ones by lia. done.
Qed.

(** Two positions of one lap have the same cell only when they are equal. *)
Lemma lap_eq lo p q : lo <= p < lo + cap -> lo <= q < lo + cap -> p mod cap = q mod cap -> p = q.
Proof.
  intros Hp Hq E. pose proof cap_bounds.
  pose proof (Z.div_mod p cap ltac:(lia)). pose proof (Z.div_mod q cap ltac:(lia)).
  assert (p / cap = q / cap) by nia. lia.
Qed.

Lemma cell_bound x p : sized x -> (cellAt x p < length (slots x))%nat.
Proof.
  intros Hx. rewrite cellAt_mod by done. pose proof cap_bounds. pose proof (Z.mod_pos_bound p cap ltac:(lia)). unfold sized in Hx. lia.
Qed.

Lemma sized_onCell x p f : sized x -> sized (onCell p f x).
Proof. unfold sized, onCell. cbn. by rewrite length_alter. Qed.

Lemma cell_onCell x p f q :
  sized x -> cell (onCell p f x) q = if decide (q mod cap = p mod cap) then f (cell x p) else cell x q.
Proof.
  intros Hx. pose proof (sized_onCell x p f Hx) as Hx'. pose proof cap_bounds.
  unfold cell. rewrite !cellAt_mod by done.
  unfold onCell. cbn. rewrite !nth_lookup, list_lookup_alter, cellAt_mod by done.
  pose proof (Z.mod_pos_bound p cap ltac:(lia)). pose proof (Z.mod_pos_bound q cap ltac:(lia)).
  destruct (decide (q mod cap = p mod cap)) as [E|E].
  - rewrite E, decide_True by done.
    destruct (lookup_lt_is_Some_2 (slots x) (Z.to_nat (p mod cap))) as [c Hc]; [unfold sized in Hx; lia|]. by rewrite Hc.
  - by rewrite decide_False by lia.
Qed.

Lemma cell_same x p f q : sized x -> q mod cap = p mod cap -> cell (onCell p f x) q = f (cell x p).
Proof. intros. rewrite cell_onCell by done. by rewrite decide_True. Qed.
Lemma cell_else x p f q : sized x -> q mod cap <> p mod cap -> cell (onCell p f x) q = cell x q.
Proof. intros. rewrite cell_onCell by done. by rewrite decide_False. Qed.

(** The cell of a position a lap away. *)
Lemma cell_lap x p : sized x -> cell x (p + cap) = cell x p.
Proof.
  intros Hx. unfold cell. rewrite !cellAt_mod by done. pose proof cap_bounds.
  replace (p + cap) with (p + 1 * cap) by lia. by rewrite Z_mod_plus_full.
Qed.

(** ** The ring's invariant *)

(** What a goroutine in the middle of a push or a pop holds. *)
Inductive claim : Type :=
| CWrite (p : Z) (t : item T)    (* claimed the position, has not written the task *)
| CPublish (p : Z)               (* has written it *)
| CTake (p : Z)                  (* claimed the position, has not read the task *)
| CFree (p : Z) (t : item T).    (* has read it *)

Definition place (c : claim) : Z := match c with CWrite p _ | CPublish p | CTake p | CFree p _ => p end.

Definition cell_ok (C : claim -> Prop) x (p : Z) : Prop :=
  if p <? tail x then
    (seqAt x p = p + 1 /\ pushed x !! Z.to_nat p = Some (taskAt x p)) \/
    (seqAt x p = p /\ taskAt x p = None /\ exists t, C (CWrite p t)) \/
    (seqAt x p = p /\ C (CPublish p) /\ pushed x !! Z.to_nat p = Some (taskAt x p))
  else
    (seqAt x p = p /\ taskAt x p = None) \/
    (seqAt x p = p - cap + 1 /\ C (CTake (p - cap)) /\ pushed x !! Z.to_nat (p - cap) = Some (taskAt x p)) \/
    (seqAt x p = p - cap + 1 /\ taskAt x p = None /\ exists t, C (CFree (p - cap) t)).

Definition claim_ok x (c : claim) : Prop :=
  match c with
  | CWrite p t => head x <= p < tail x /\ seqAt x p = p /\ taskAt x p = None /\ pushed x !! Z.to_nat p = Some t
  | CPublish p => head x <= p < tail x /\ seqAt x p = p
  | CTake p => tail x - cap <= p < head x /\ 0 <= p /\ seqAt x p = p + 1
  | CFree p t => tail x - cap <= p < head x /\ 0 <= p /\ seqAt x p = p + 1 /\ pushed x !! Z.to_nat p = Some t
  end.

Record ring_ok (C : claim -> Prop) x : Prop := {
  r_sized : sized x;
  r_order : 0 <= head x <= tail x /\ tail x <= head x + cap;
  r_pushed : Z.of_nat (length (pushed x)) = tail x;
  r_served : served x = take (Z.to_nat (head x)) (pushed x);
  r_cells : forall p, head x <= p < head x + cap -> cell_ok C x p;
  r_claims : forall c, C c -> claim_ok x c
}.

(** The claims of the others together with one goroutine's own. *)
Definition plus (O : claim -> Prop) (c : option claim) : claim -> Prop := fun c' => O c' \/ c = Some c'.
Definition apart (O : claim -> Prop) (p : Z) : Prop := forall c, O c -> place c <> p.

Ltac ring_facts H :=
  pose proof cap_bounds; pose proof (r_sized _ _ H); pose proof (r_order _ _ H).

Lemma claim_window (C : claim -> Prop) x c : ring_ok C x -> C c -> tail x - cap <= place c < tail x /\ 0 <= place c.
Proof.
  intros H Hc. ring_facts H. pose proof (r_claims _ _ H c Hc). destruct c; cbn in *; lia.
Qed.

(** A change of one cell is invisible to the claims elsewhere. *)
Lemma claim_else x p f c :
  sized x -> claim_ok x c -> place c mod cap <> p mod cap -> claim_ok (onCell p f x) c.
Proof. intros Hx Hc Hn. destruct c; cbn in *; unfold seqAt, taskAt in *; by rewrite cell_else. Qed.

Lemma cell_ok_else (C C' : claim -> Prop) x p f q :
  sized x -> q mod cap <> p mod cap -> (forall c, place c = q \/ place c = q - cap -> C c -> C' c) ->
  cell_ok C x q -> cell_ok C' (onCell p f x) q.
Proof.
  intros Hx Hn HC. unfold cell_ok, seqAt, taskAt. rewrite cell_else by done. cbn [tail pushed onCell over over_slots].
  destruct (q <? tail x).
  - intros [?|[(? & ? & t & ?)|(? & ? & ?)]]; [by left|right; left|right; right]; naive_solver.
  - intros [?|[(? & ? & ?)|(? & ? & t & ?)]]; [by left|right; left|right; right]; naive_solver.
Qed.

(** The sequence number of a claimed cell, whoever claimed it, is not ahead. *)
Lemma seq_tail C x : ring_ok C x -> tail x <= seqAt x (tail x) -> tail x < head x + cap /\ seqAt x (tail x) = tail x /\ taskAt x (tail x) = None.
Proof.
  intros H Hs. ring_facts H. destruct (decide (tail x < head x + cap)) as [Hl|Hl].
  - pose proof (r_cells _ _ H (tail x) ltac:(lia)) as Hc. unfold cell_ok in Hc. rewrite (proj2 (Z.ltb_ge _ _)) in Hc by lia.
    destruct Hc as [[]|[(E & _)|(E & _)]]; [done|lia..].
  - exfalso. assert (E : tail x = head x + cap) by lia. pose proof (r_cells _ _ H (head x) ltac:(lia)) as Hc.
    unfold cell_ok in Hc. rewrite (proj2 (Z.ltb_lt _ _)) in Hc by lia. unfold seqAt in *. rewrite E, cell_lap in Hs by done.
    destruct Hc as [[]|[(? & _)|(? & _)]]; lia.
Qed.

Lemma seq_head C x : ring_ok C x -> head x + 1 <= seqAt x (head x) ->
  head x < tail x /\ seqAt x (head x) = head x + 1 /\ pushed x !! Z.to_nat (head x) = Some (taskAt x (head x)).
Proof.
  intros H Hs. ring_facts H. pose proof (r_cells _ _ H (head x) ltac:(lia)) as Hc. unfold cell_ok in Hc.
  destruct (Z.ltb_spec (head x) (tail x)).
  - destruct Hc as [[]|[(? & _)|(? & _)]]; [done|lia..].
  - destruct Hc as [[]|[(? & _)|(? & _)]]; lia.
Qed.

(** Cells never go back: a position already served has a sequence past it. *)
Lemma seq_served C x p : ring_ok C x -> 0 <= p < head x -> p + 1 <= seqAt x p <= head x + cap.
Proof.
  intros H Hp. ring_facts H.
  set (q := p + (head x - p + cap - 1) / cap * cap).
  assert (Hq : head x <= q < head x + cap).
  { pose proof (Z.div_mod (head x - p + cap - 1) cap ltac:(lia)). pose proof (Z.mod_pos_bound (head x - p + cap - 1) cap ltac:(lia)). unfold q. nia. }
  assert (E : seqAt x q = seqAt x p).
  { unfold seqAt, cell. rewrite !cellAt_mod by done. unfold q. by rewrite Z_mod_plus_full. }
  assert (p + cap <= q).
  { unfold q. assert (1 <= (head x - p + cap - 1) / cap) by (apply Z.div_le_lower_bound; lia). nia. }
  pose proof (r_cells _ _ H q Hq) as Hc. unfold cell_ok in Hc. rewrite <- E.
  destruct (q <? tail x); destruct Hc as [[]|[(? & _)|(? & _)]]; lia.
Qed.

(** Only the ring's own fields matter. *)
Lemma cell_ring x y p : slots x = slots y -> cell x p = cell y p.
Proof. unfold cell, cellAt, mask. by intros ->. Qed.

(** A claim that is still good when the positions move. *)
Lemma claim_moves x y c :
  slots y = slots x -> head x <= head y -> tail x <= tail y ->
  (forall p v, 0 <= p < tail x -> pushed x !! Z.to_nat p = Some v -> pushed y !! Z.to_nat p = Some v) ->
  0 <= head x <= tail x ->
  (place c < head x -> tail y - cap <= place c) -> (head x <= place c -> head y <= place c) ->
  claim_ok x c -> claim_ok y c.
Proof.
  intros Es Hh Ht Hp Ho H1 H2. destruct c; cbn in *; unfold seqAt, taskAt; rewrite ?(cell_ring y x) by done.
  - intros (A & B & D & E). split_and!; [lia|lia|exact B|exact D|by apply Hp; [lia|]].
  - intros (A & B). split_and!; [lia|lia|exact B].
  - intros (A & B & D). split_and!; [lia|lia|lia|exact D].
  - intros (A & B & D & E). split_and!; [lia|lia|lia|exact D|by apply Hp; [lia|]].
Qed.

Lemma push_claim (O : claim -> Prop) x t :
  ring_ok (plus O None) x -> tail x <= seqAt x (tail x) -> tail x + 1 < 2 ^ 64 ->
  ring_ok (plus O (Some (CWrite (tail x) t))) (x <| tail := u64 (tail x + 1) |> <| pushed ::= fun l => l ++ [t] |>).
Proof.
  intros H Hs Hb. ring_facts H. destruct (seq_tail _ x H Hs) as (Hl & Es & Et).
  assert (Eu : u64 (tail x + 1) = tail x + 1) by (apply wrap_id; unfold is_uint; lia).
  pose proof (r_pushed _ _ H) as Ep. rewrite Eu. set (y := over pushed _ _).
  assert (Hlook : forall p v, pushed x !! Z.to_nat p = Some v -> pushed y !! Z.to_nat p = Some v).
  { intros. by apply lookup_app_l_Some. }
  assert (Hcell : forall p, cell y p = cell x p) by (intros; by apply cell_ring).
  split.
  - done.
  - cbn. lia.
  - cbn. rewrite length_app. cbn. lia.
  - cbn. rewrite (r_served _ _ H), take_app_le by lia. done.
  - intros p Hp. pose proof (r_cells _ _ H p Hp) as Hc. unfold cell_ok, seqAt, taskAt in *. rewrite !Hcell.
    change (tail y) with (tail x + 1).
    destruct (Z.ltb_spec p (tail x)); [rewrite (proj2 (Z.ltb_lt _ _)) by lia|].
    + destruct Hc as [[]|[(? & ? & t' & [?|?])|(? & [?|?] & ?)]]; simplify_eq; [left|right; left|right; right]; unfold plus; eauto 6.
    + destruct (decide (p = tail x)) as [->|].
      * rewrite (proj2 (Z.ltb_lt _ _)) by lia. right; left. unfold plus. eauto.
      * rewrite (proj2 (Z.ltb_ge _ _)) by lia.
        destruct Hc as [[]|[(? & [?|?] & ?)|(? & ? & t' & [?|?])]]; simplify_eq; [by left|right; left|right; right]; unfold plus; eauto 6.
  - intros c [Hc|[= <-]].
    + pose proof (r_claims _ _ H c ltac:(by left)) as Hk. pose proof (claim_window _ _ c H ltac:(by left)) as Hw.
      apply (claim_moves x); cbn; try done; try lia; [by auto|].
      intros Hlt. destruct (decide (place c = tail x - cap)) as [E|]; [|lia]. exfalso.
      assert (Ec : seqAt x (place c) = place c + 1) by (destruct c; cbn in *; lia).
      unfold seqAt in Ec, Es. rewrite <- cell_lap in Ec by done. rewrite E in Ec. replace (tail x - cap + cap) with (tail x) in Ec by lia. lia.
    + cbn. unfold seqAt, taskAt. rewrite !Hcell. split_and!; [lia|lia|exact Es|exact Et|].
      rewrite lookup_app_r by lia. by replace (Z.to_nat (tail x) - length (pushed x))%nat with 0%nat by lia.
Qed.

Lemma pop_claim (O : claim -> Prop) x :
  ring_ok (plus O None) x -> head x + 1 <= seqAt x (head x) -> head x + 1 < 2 ^ 64 ->
  ring_ok (plus O (Some (CTake (head x))))
    (x <| head := u64 (head x + 1) |> <| served ::= fun l => l ++ [task (cell (x <| head := u64 (head x + 1) |>) (head x))] |>).
Proof.
  intros H Hs Hb. ring_facts H. destruct (seq_head _ x H Hs) as (Hl & Es & Et).
  assert (Eu : u64 (head x + 1) = head x + 1) by (apply wrap_id; unfold is_uint; lia).
  pose proof (r_pushed _ _ H) as Ep. rewrite Eu. set (y := over served _ _).
  assert (Hcell : forall p, cell y p = cell x p) by (intros; by apply cell_ring).
  split.
  - done.
  - cbn. lia.
  - done.
  - change (served y) with (served x ++ [taskAt x (head x)]). change (head y) with (head x + 1). change (pushed y) with (pushed x).
    rewrite (r_served _ _ H), Z2Nat.inj_add, Nat.add_1_r by lia. by erewrite take_S_r by done.
  - intros p Hp. cbn in Hp. unfold cell_ok, seqAt, taskAt in *. rewrite !Hcell. change (tail y) with (tail x). change (pushed y) with (pushed x).
    destruct (decide (p = head x + cap)) as [->|].
    + rewrite (proj2 (Z.ltb_ge _ _)) by lia. right; left. rewrite cell_lap by done.
      replace (head x + cap - cap) with (head x) by lia. unfold plus. eauto.
    + pose proof (r_cells _ _ H p ltac:(lia)) as Hc. unfold cell_ok, seqAt, taskAt in *.
      destruct (p <? tail x).
      * destruct Hc as [[]|[(? & ? & t' & [?|?])|(? & [?|?] & ?)]]; simplify_eq; [left|right; left|right; right]; unfold plus; eauto 6.
      * destruct Hc as [[]|[(? & [?|?] & ?)|(? & ? & t' & [?|?])]]; simplify_eq; [by left|right; left|right; right]; unfold plus; eauto 6.
  - intros c [Hc|[= <-]].
    + pose proof (r_claims _ _ H c ltac:(by left)) as Hk. pose proof (claim_window _ _ c H ltac:(by left)) as Hw.
      apply (claim_moves x); cbn; try done; try lia.
      intros Hge. destruct (decide (place c = head x)) as [E|]; [|lia]. exfalso.
      destruct c; cbn in *; subst; lia.
    + cbn. unfold seqAt. rewrite !Hcell. split_and!; [lia|lia|lia|exact Es].
Qed.

Lemma mod_lap p : (p + cap) mod cap = p mod cap.
Proof. pose proof cap_bounds. replace (p + cap) with (p + 1 * cap) by lia. by rewrite Z_mod_plus_full. Qed.
Lemma mod_lap' p : (p - cap) mod cap = p mod cap.
Proof. rewrite <- (mod_lap (p - cap)). f_equal. lia. Qed.

(** The owner of a claim changes its cell; [q] is the cell's position in the
    window from the head. *)
Lemma cell_change (O : claim -> Prop) c0 c1 x f q :
  ring_ok (plus O (Some c0)) x -> apart O (place c0) ->
  head x <= q < head x + cap -> q mod cap = place c0 mod cap ->
  cell_ok (plus O c1) (onCell (place c0) f x) q ->
  (forall c, c1 = Some c -> claim_ok (onCell (place c0) f x) c) ->
  ring_ok (plus O c1) (onCell (place c0) f x).
Proof.
  intros H Ha Hq Eq Hcq Hc1. ring_facts H.
  pose proof (claim_window _ _ c0 H ltac:(by right)) as Hw0.
  split; try (by apply H).
  - by apply sized_onCell.
  - intros q' Hq'. change (head (onCell (place c0) f x)) with (head x) in Hq'.
    destruct (decide (q' = q)) as [->|Hne]; [done|].
    assert (Hm : q' mod cap <> place c0 mod cap) by (intros E; apply Hne, (lap_eq (head x)); [done|done|congruence]).
    apply (cell_ok_else (plus O (Some c0))); [done|done| |by apply H].
    intros c Hp [Hc|[= ->]]; [by left|]. exfalso. apply Hm. destruct Hp as [->| ->]; [done|by rewrite mod_lap'].
  - intros c [Hc|Hc]; [|by apply Hc1]. pose proof (claim_window _ _ c H ltac:(by left)) as Hw.
    apply claim_else; [done|by apply H; left|]. intros E. apply (Ha c Hc). apply (lap_eq (tail x - cap)); [lia|lia|done].
Qed.

Lemma write_claim (O : claim -> Prop) x p t :
  ring_ok (plus O (Some (CWrite p t))) x -> apart O p ->
  ring_ok (plus O (Some (CPublish p))) (onCell p (fun c => MkSlot (seq_ c) t) x).
Proof.
  intros H Ha. ring_facts H. destruct (r_claims _ _ H (CWrite p t) ltac:(by right)) as (Hp & Es & Et & El).
  apply (cell_change O (CWrite p t) (Some (CPublish p)) x _ p); [done..|lia|done| |]; cbn [place].
  - unfold cell_ok, seqAt, taskAt in *. rewrite cell_same by done. cbn [tail pushed onCell over over_slots seq_ task].
    rewrite (proj2 (Z.ltb_lt _ _)) by lia. right; right. unfold plus. eauto.
  - intros c [= <-]. cbn. unfold seqAt in *. rewrite cell_same by done. cbn. done.
Qed.

Lemma publish_claim (O : claim -> Prop) x p :
  ring_ok (plus O (Some (CPublish p))) x -> apart O p -> p + 1 < 2 ^ 64 ->
  ring_ok (plus O None) (onCell p (fun c => MkSlot (u64 (p + 1)) (task c)) x).
Proof.
  intros H Ha Hb. ring_facts H. destruct (r_claims _ _ H (CPublish p) ltac:(by right)) as (Hp & Es).
  assert (Eu : u64 (p + 1) = p + 1) by (apply wrap_id; unfold is_uint; lia). rewrite Eu.
  apply (cell_change O (CPublish p) None x _ p); [done..|lia|done| |done]; cbn [place].
  pose proof (r_cells _ _ H p ltac:(lia)) as Hc.
  unfold cell_ok, seqAt, taskAt in *. rewrite cell_same by done. cbn [tail pushed onCell over over_slots seq_ task].
  rewrite (proj2 (Z.ltb_lt _ _)) in * by lia. left. split; [done|].
  destruct Hc as [[]|[(? & ? & t & [Ht|Ht])|(? & ? & ?)]]; [lia| |by simplify_eq|done].
  by destruct (Ha _ Ht).
Qed.

Lemma take_claim (O : claim -> Prop) x p :
  ring_ok (plus O (Some (CTake p))) x -> apart O p ->
  ring_ok (plus O (Some (CFree p (taskAt x p)))) (onCell p (fun c => MkSlot (seq_ c) None) x) /\ pushed x !! Z.to_nat p = Some (taskAt x p).
Proof.
  intros H Ha. ring_facts H. destruct (r_claims _ _ H (CTake p) ltac:(by right)) as (Hp & Hz & Es).
  assert (Hpt : pushed x !! Z.to_nat p = Some (taskAt x p)).
  { pose proof (r_cells _ _ H (p + cap) ltac:(lia)) as Hc. unfold cell_ok, seqAt, taskAt in *. rewrite cell_lap in Hc by done.
    rewrite (proj2 (Z.ltb_ge _ _)) in Hc by lia. replace (p + cap - cap) with p in Hc by lia.
    destruct Hc as [[]|[(? & ? & ?)|(? & ? & t & [Ht|Ht])]]; [lia|done| |by simplify_eq]. by destruct (Ha _ Ht). }
  split; [|done].
  apply (cell_change O (CTake p) (Some (CFree p (taskAt x p))) x _ (p + cap)); [done..|lia|by rewrite mod_lap| |]; cbn [place].
  - unfold cell_ok, seqAt, taskAt in *. rewrite cell_same by (done || by rewrite mod_lap). cbn [tail pushed onCell over over_slots seq_ task].
    rewrite (proj2 (Z.ltb_ge _ _)) by lia. replace (p + cap - cap) with p by lia. right; right. unfold plus.
    split_and!; [lia|done|eauto].
  - intros c [= <-]. cbn. unfold seqAt, taskAt in *. rewrite cell_same by done. cbn. split_and!; [lia|lia|lia|done|done].
Qed.

Lemma free_claim (O : claim -> Prop) x p t :
  ring_ok (plus O (Some (CFree p t))) x -> apart O p -> p + cap < 2 ^ 64 ->
  ring_ok (plus O None) (onCell p (fun c => MkSlot (u64 (p + mask x + 1)) (task c)) x).
Proof.
  intros H Ha Hb. ring_facts H. destruct (r_claims _ _ H (CFree p t) ltac:(by right)) as (Hp & Hz & Es & El).
  assert (Eu : u64 (p + mask x + 1) = p + cap).
  { unfold mask. rewrite (r_sized _ _ H). replace (p + (cap - 1) + 1) with (p + cap) by lia. apply wrap_id. unfold is_uint. lia. }
  rewrite Eu.
  apply (cell_change O (CFree p t) None x _ (p + cap)); [done..|lia|by rewrite mod_lap| |done]; cbn [place].
  pose proof (r_cells _ _ H (p + cap) ltac:(lia)) as Hc. unfold cell_ok, seqAt, taskAt in *. rewrite cell_lap in Hc by done.
  rewrite cell_same by (done || by rewrite mod_lap). cbn [tail pushed onCell over over_slots seq_ task].
  rewrite (proj2 (Z.ltb_ge _ _)) in * by lia. left. split; [done|].
  replace (p + cap - cap) with p in Hc by lia.
  destruct Hc as [[]|[(? & [Ht|Ht] & ?)|(? & ? & ?)]]; [lia| |by simplify_eq|done]. by destruct (Ha _ Ht).
Qed.
End Cells.
Arguments CWrite {T} _ _.
Arguments CPublish {T} _.
Arguments CTake {T} _.
Arguments CFree {T} _ _.

(** ** The rings of a running pool *)

Section System.
Context {T : Type} (key : T -> Z) (k : Z).
Hypothesis k_range : 1 <= k <= 62.
Implicit Types (m : pool T) (th : thread T) (st : system (T:=T)).

Definition push_holds (t : T) (a : push_at) : option (claim (T:=T)) :=
  match a with PushWrite p => Some (CWrite p (Some t)) | PushPublish p => Some (CPublish p) | _ => None end.
Definition pop_holds (a : pop_at T) : option (claim (T:=T)) :=
  match a with PopTake p => Some (CTake p) | PopFree p t => Some (CFree p t) | _ => None end.

(** What a goroutine holds of shard [s]. *)
Definition holds th (s : nat) : option (claim (T:=T)) :=
  match pushing key th, popping th with
  | Some (s', t, a), _ => if decide (s' = s) then push_holds t a else None
  | None, Some (s', a) => if decide (s' = s) then pop_holds a else None
  | None, None => None
  end.

Definition push_label (x : shard T) (a : push_at) : Prop :=
  match a with
  | PushSeq p => 0 <= p <= tail x
  | PushCas p => 0 <= p <= tail x /\ p <= seqAt x p
  | _ => True
  end.
Definition pop_label (x : shard T) (a : pop_at T) : Prop :=
  match a with
  | PopSeq p => 0 <= p <= head x
  | PopCas p => 0 <= p <= head x /\ p + 1 <= seqAt x p
  | _ => True
  end.
Definition label_ok m th : Prop :=
  match pushing key th with Some (s, _, a) => push_label (sh m s) a | None => True end /\
  match popping th with Some (s, a) => pop_label (sh m s) a | None => True end.

Definition claims (ths : list (thread T)) (s : nat) (c : claim) : Prop := exists i th, ths !! i = Some th /\ holds th s = Some c.
Definition others (ths : list (thread T)) (i : nat) (s : nat) (c : claim) : Prop :=
  exists j th, j <> i /\ ths !! j = Some th /\ holds th s = Some c.

Record rings_ok (n : nat) (bound : Z) st : Prop := {
  g_range : in_range n st;
  g_ring : forall s, (s < n)%nat -> ring_ok k (claims (threads st) s) (sh (mem st) s) /\ tail (sh (mem st) s) <= bound;
  g_label : forall i th, threads st !! i = Some th -> label_ok (mem st) th;
  g_apart : forall i j th th' s c c', i <> j -> threads st !! i = Some th -> threads st !! j = Some th' ->
    holds th s = Some c -> holds th' s = Some c' -> place c <> place c'
}.

Lemma ring_ok_iff (C C' : claim (T:=T) -> Prop) x : (forall c, C c <-> C' c) -> ring_ok k C x -> ring_ok k C' x.
Proof.
  intros E [H1 H2 H3 H4 H5 H6]. split; try done; [|intros c Hc; by apply H6, E].
  intros p Hp. specialize (H5 p Hp). unfold cell_ok in *. destruct (p <? tail x).
  - destruct H5 as [?|[(? & ? & t & ?)|(? & ? & ?)]]; [by left|right; left|right; right]; split_and!; try done; [exists t|]; by apply E.
  - destruct H5 as [?|[(? & ? & ?)|(? & ? & t & ?)]]; [by left|right; left|right; right]; split_and!; try done; [|exists t]; by apply E.
Qed.

(** Positions and sequence numbers only grow. *)
Definition grows (x y : shard T) : Prop := head x <= head y /\ tail x <= tail y /\ forall p, seqAt x p <= seqAt y p.

Lemma label_grows m m' th : (forall s, grows (sh m s) (sh m' s)) -> label_ok m th -> label_ok m' th.
Proof.
  intros Hg [H1 H2]. split.
  - destruct (pushing key th) as [[[s t] a]|]; [|done]. destruct (Hg s) as (? & ? & Hs).
    destruct a; cbn in *; try done; [lia|]. pose proof (Hs pos). lia.
  - destruct (popping th) as [[s a]|]; [|done]. destruct (Hg s) as (? & ? & Hs).
    destruct a; cbn in *; try done; [lia|]. pose proof (Hs pos). lia.
Qed.

Lemma grows_refl x : grows x x.
Proof. repeat split; lia. Qed.

Lemma grows_cell x p f : sized k x -> seq_ (cell x p) <= seq_ (f (cell x p)) -> grows x (onCell p f x).
Proof.
  intros Hx Hf. split_and!; cbn; try lia. intros q. unfold seqAt. rewrite (cell_onCell k) by done. case_decide as E; [|lia].
  unfold cell in *. rewrite !(cellAt_mod k) in * by done. by rewrite E.
Qed.

(** A shard after a move of a goroutine that then holds [h], [O] being the
    others' claims. *)
Record moved (O : claim (T:=T) -> Prop) (h : option claim) (x y : shard T) : Prop := {
  v_ring : ring_ok k (plus O h) y;
  v_grows : grows x y;
  v_tail : tail y <= tail x + 1;
  v_apart : forall c, h = Some c -> apart O (place c)
}.

Lemma moved_refl O h x : ring_ok k (plus O h) x -> (forall c, h = Some c -> apart O (place c)) -> moved O h x x.
Proof. intros. split; [done|apply grows_refl|lia|done]. Qed.

Lemma push_moved O m s t a o a' :
  (s < length (shards m))%nat -> ring_ok k (plus O (push_holds t a)) (sh m s) -> push_label (sh m s) a ->
  (forall c, push_holds t a = Some c -> apart O (place c)) -> tail (sh m s) + 1 < 2 ^ 64 ->
  push s t a m = Go o a' \/ (exists b, push s t a m = Back o b /\ a' = PushTail) ->
  moved O (push_holds t a') (sh m s) (sh (exec o m) s) /\ push_label (sh (exec o m) s) a' /\
  (forall s', s' <> s -> sh (exec o m) s' = sh m s').
Proof.
  intros Hs H Hl Ha Hb Hp. pose proof (r_order _ _ _ H) as Hord. pose proof (r_sized _ _ _ H) as Hsz.
  destruct a; cbn in Hp.
  - destruct Hp as [[= <- <-]|(? & ? & ?)]; [|done]. split_and!; [by apply moved_refl|cbn; lia..|done].
  - destruct (Z.eqb_spec (seq_ (cell (sh m s) pos)) pos) as [E|E]; [|case_match]; destruct Hp as [|(? & ? & ?)]; simplify_eq;
      split_and!; try done; try (by apply moved_refl). all: cbn in *; unfold seqAt; lia.
  - destruct (Z.eqb_spec (tail (sh m s)) pos) as [E|E]; destruct Hp as [|(? & ? & ?)]; simplify_eq;
      [|by split_and!; [apply moved_refl|..]].
    cbn [exec]. rewrite sh_same by done. cbn in Hl. destruct Hl as [_ Hl].
    split_and!; [|done|intros; by apply sh_other].
    assert (Eu : u64 (tail (sh m s) + 1) = tail (sh m s) + 1) by (apply wrap_id; unfold is_uint; lia).
    split; [by apply push_claim|split_and!; cbn; [lia|lia|done]|cbn; lia|].
    intros c0 [= <-] c Hc. pose proof (claim_window k k_range _ _ c H ltac:(by left)). cbn. lia.
  - destruct Hp as [[= <- <-]|(? & ? & ?)]; [|done]. cbn [exec]. rewrite sh_same by done.
    split_and!; [|done|intros; by apply sh_other].
    split; [apply write_claim; [done|done|by apply (Ha (CWrite pos (Some t)))]|by apply grows_cell; cbn|cbn; lia|].
    intros c [= <-]. by apply (Ha (CWrite pos (Some t))).
  - destruct Hp as [|(b & [= <- <-] & ->)]; [done|]. cbn [exec]. rewrite sh_same by done.
    destruct (r_claims _ _ _ H (CPublish pos) ltac:(by right)) as (Hpos & Es).
    split_and!; [|done|intros; by apply sh_other].
    split; [apply publish_claim; [done|done|by apply (Ha (CPublish pos))|lia]| |cbn; lia|done].
    apply grows_cell; [done|]. cbn. unfold seqAt in Es. rewrite Es. unfold u64. rewrite wrap_id; [lia|unfold is_uint; lia].
Qed.

Lemma pop_moved O m s a o a' :
  (s < length (shards m))%nat -> ring_ok k (plus O (pop_holds a)) (sh m s) -> pop_label (sh m s) a ->
  (forall c, pop_holds a = Some c -> apart O (place c)) -> tail (sh m s) + 2 ^ 62 < 2 ^ 64 ->
  pop s a m = Go o a' \/ (exists r, pop s a m = Back o r /\ a' = PopHead) ->
  moved O (pop_holds a') (sh m s) (sh (exec o m) s) /\ pop_label (sh (exec o m) s) a' /\
  (forall s', s' <> s -> sh (exec o m) s' = sh m s').
Proof.
  intros Hs H Hl Ha Hb Hp. pose proof (r_order _ _ _ H) as Hord. pose proof (r_sized _ _ _ H) as Hsz. pose proof (cap_bounds k k_range).
  destruct a; cbn in Hp.
  - destruct Hp as [[= <- <-]|(? & ? & ?)]; [|done]. split_and!; [by apply moved_refl|cbn; lia..|done].
  - cbn in Hl. assert (Eu : u64 (pos + 1) = pos + 1) by (apply wrap_id; unfold is_uint; lia). rewrite Eu in Hp.
    destruct (Z.eqb_spec (seq_ (cell (sh m s) pos)) (pos + 1)) as [E|E]; [|case_match]; destruct Hp as [|(? & ? & ?)]; simplify_eq;
      split_and!; try done; try (by apply moved_refl). all: cbn in *; unfold seqAt; lia.
  - destruct (Z.eqb_spec (head (sh m s)) pos) as [E|E]; destruct Hp as [|(? & ? & ?)]; simplify_eq;
      [|by split_and!; [apply moved_refl|..]].
    cbn [exec]. rewrite sh_same by done. cbn in Hl. destruct Hl as [_ Hl].
    split_and!; [|done|intros; by apply sh_other].
    assert (Eu : u64 (head (sh m s) + 1) = head (sh m s) + 1) by (apply wrap_id; unfold is_uint; lia).
    destruct (seq_head k k_range _ _ H Hl) as (_ & Es & _).
    split; [apply pop_claim; [done..|lia]|split_and!; cbn; [lia|lia|done]|cbn; lia|].
    intros c0 [= <-] c Hc E. pose proof (r_claims _ _ _ H c ltac:(by left)) as Hk. destruct c; cbn in *; subst; lia.
  - destruct Hp as [[= <- <-]|(? & ? & ?)]; [|done]. cbn [exec]. rewrite sh_same by done.
    split_and!; [|done|intros; by apply sh_other].
    split; [apply take_claim; [done|done|by apply (Ha (CTake pos))]|by apply grows_cell; cbn|cbn; lia|].
    intros c [= <-]. by apply (Ha (CTake pos)).
  - destruct Hp as [|(b & [= <- <-] & ->)]; [done|]. cbn [exec]. rewrite sh_same by done.
    destruct (r_claims _ _ _ H (CFree pos t) ltac:(by right)) as (Hpos & Hz & Es & _).
    split_and!; [|done|intros; by apply sh_other].
    split; [apply (free_claim k k_range _ _ _ t); [done|by apply (Ha (CFree pos t))|lia]| |cbn; lia|done].
    apply grows_cell; [done|]. cbn. unfold seqAt in Es. rewrite Es. unfold u64, mask. rewrite Hsz, wrap_id; [lia|unfold is_uint; lia].
Qed.

Lemma holds_unclaimed th s : unclaimed key th -> holds th s = None.
Proof.
  unfold unclaimed, holds. destruct (pushing key th) as [[[s' t] a]|], (popping th) as [[s'' a']|]; intros [H1 H2];
    repeat case_match; try done; cbn in *; by destruct_and?.
Qed.

Lemma label_unclaimed m th : unclaimed key th -> label_ok m th.
Proof.
  unfold unclaimed, label_ok. intros [H1 H2]. split.
  - destruct (pushing key th) as [[[s t] []]|]; done.
  - destruct (popping th) as [[s []]|]; done.
Qed.

Lemma seqAt_ring (x y : shard T) p : ring x = ring y -> seqAt x p = seqAt y p.
Proof. unfold ring. intros [= E _ _ _ _]. unfold seqAt. by rewrite (cell_ring x y). Qed.

Lemma ring_ok_ring (C : claim -> Prop) (x y : shard T) : ring y = ring x -> ring_ok k C x -> ring_ok k C y.
Proof.
  destruct x as [sl ta he co ru ic id li rh sta pu se], y as [sl' ta' he' co' ru' ic' id' li' rh' sta' pu' se'].
  unfold ring. cbn. intros [= -> -> -> -> ->] [H1 H2 H3 H4 H5 H6]. by split.
Qed.

Lemma grows_ring (x y : shard T) : ring y = ring x -> grows x y.
Proof. intros E. pose proof (seqAt_ring x y) as Hs. unfold ring in *. split_and!; [simplify_eq; lia..|]. intros p. rewrite Hs by done. lia. Qed.

Lemma claims_plus ths i th s c : ths !! i = Some th -> claims ths s c <-> plus (others ths i s) (holds th s) c.
Proof.
  intros Hi. split.
  - intros (j & th' & Hj & Hc). destruct (decide (j = i)) as [->|]; [right; congruence|left; by exists j, th'].
  - intros [(j & th' & _ & Hj & Hc)|Hc]; [by exists j, th'|by exists i, th].
Qed.

Lemma claims_after ths i th th' new s c :
  ths !! i = Some th -> (forall th0, th0 ∈ new -> unclaimed key th0) ->
  claims (<[i := th']> ths ++ new) s c <-> plus (others ths i s) (holds th' s) c.
Proof.
  intros Hi Hnew. split.
  - intros (j & th0 & [(-> & -> & _)|[[? ?]|Hj]]%lookup_insert_app & Hc); [by right|left; by exists j, th0|].
    rewrite holds_unclaimed in Hc by auto. done.
  - intros [(j & th0 & Hne & Hj & Hc)|Hc]; [exists j, th0|exists i, th']; split; try done; [by apply threads_stay|by eapply threads_moved].
Qed.

Lemma pushing_in n th s t a : thread_in n th -> pushing key th = Some (s, t, a) -> (s < n)%nat.
Proof.
  intros Hth Hp. destruct th as [t' a'|t' a'|a'| | | | | | | | | | | |]; try done.
  - destruct a'; simplify_eq/=. done.
  - destruct a'; simplify_eq/=. done.
  - destruct a' as [|act t' ts w a'| | |t' ts a']; simplify_eq/=; [apply shardOf_in; by destruct Hth|]. destruct a'; simplify_eq/=. done.
Qed.

Lemma popping_in n th s a : thread_in n th -> popping th = Some (s, a) -> (s < n)%nat.
Proof.
  intros Hth Hp. destruct th as [| | | | | |a'|w s' a'|s' a'| | | | | |]; try done; destruct a'; simplify_eq/=; try done. by destruct Hth.
Qed.

(** Goroutine [i] has moved to [th']. *)
Definition thread_moved (n : nat) st (i : nat) (o : op T) th' : Prop :=
  (forall s, (s < n)%nat -> moved (others (threads st) i s) (holds th' s) (sh (mem st) s) (sh (exec o (mem st)) s)) /\
  label_ok (exec o (mem st)) th'.

Section Mover.
Context (n : nat) (b : Z) (st : system (T:=T)) (i : nat) (th : thread T).
Hypothesis (Hok : rings_ok n b st) (Hb : b < 2 ^ 62) (Hi : threads st !! i = Some th).

Lemma own_ring s : (s < n)%nat -> ring_ok k (plus (others (threads st) i s) (holds th s)) (sh (mem st) s) /\ tail (sh (mem st) s) < 2 ^ 62.
Proof using Hok Hb Hi.
  intros Hs. destruct (g_ring _ _ _ Hok s Hs) as [Hr Ht]. split; [|lia].
  eapply ring_ok_iff; [|done]. intros c. by apply claims_plus.
Qed.

Lemma own_apart s c : holds th s = Some c -> apart (others (threads st) i s) (place c).
Proof using Hok Hi. intros Hc c' (j & thj & Hne & Hj & Hc'). by eapply (g_apart _ _ _ Hok j i). Qed.

(** Another shard's ring is as it was. *)
Lemma moved_other s' o th' : (s' < n)%nat -> holds th s' = None -> holds th' s' = None -> sh (exec o (mem st)) s' = sh (mem st) s' ->
  moved (others (threads st) i s') (holds th' s') (sh (mem st) s') (sh (exec o (mem st)) s').
Proof using Hok Hb Hi.
  intros Hs Eh Eh' Es. rewrite Eh', Es. apply moved_refl; [|done]. rewrite <- Eh. by apply own_ring.
Qed.

Lemma mover_push s t a o a' th' :
  pushing key th = Some (s, t, a) ->
  push s t a (mem st) = Go o a' \/ (exists r, push s t a (mem st) = Back o r /\ a' = PushTail) ->
  (forall s', holds th' s' = if decide (s = s') then push_holds t a' else None) ->
  (forall m, push_label (sh m s) a' -> label_ok m th') ->
  thread_moved n st i o th'.
Proof using Hok Hb Hi k_range.
  intros Ep Hp Hh Hlab'. pose proof (g_range _ _ _ Hok) as [Hix Hin]. pose proof (g_label _ _ _ Hok i th Hi) as [Hl _].
  assert (Hs : (s < n)%nat) by (by eapply pushing_in; [eapply Hin|]).
  assert (Eh : forall s', holds th s' = if decide (s = s') then push_holds t a else None) by (intros; unfold holds; by rewrite Ep).
  rewrite Ep in Hl. destruct (own_ring s Hs) as [Hr Ht]. pose proof (own_apart s) as Ha. rewrite Eh, decide_True in Hr, Ha by done.
  pose proof (ix_count _ _ Hix).
  destruct (push_moved _ (mem st) s t a o a' ltac:(lia) Hr Hl Ha ltac:(lia) Hp) as (Hmv & Hlab & Hoth).
  split; [|by apply Hlab']. intros s' Hs'. destruct (decide (s' = s)) as [->|Hne].
  - by rewrite Hh, decide_True.
  - apply moved_other; [done| | |by apply Hoth]; rewrite ?Eh, ?Hh, decide_False by done; done.
Qed.

Lemma mover_pop s a o a' th' :
  pushing key th = None -> popping th = Some (s, a) ->
  pop s a (mem st) = Go o a' \/ (exists r, pop s a (mem st) = Back o r /\ a' = PopHead) ->
  (forall s', holds th' s' = if decide (s = s') then pop_holds a' else None) ->
  (forall m, pop_label (sh m s) a' -> label_ok m th') ->
  thread_moved n st i o th'.
Proof using Hok Hb Hi k_range.
  intros E0 Ep Hp Hh Hlab'. pose proof (g_range _ _ _ Hok) as [Hix Hin]. pose proof (g_label _ _ _ Hok i th Hi) as [_ Hl].
  assert (Hs : (s < n)%nat) by (by eapply popping_in; [eapply Hin|]).
  assert (Eh : forall s', holds th s' = if decide (s = s') then pop_holds a else None) by (intros; unfold holds; by rewrite E0, Ep).
  rewrite Ep in Hl. destruct (own_ring s Hs) as [Hr Ht]. pose proof (own_apart s) as Ha. rewrite Eh, decide_True in Hr, Ha by done.
  pose proof (ix_count _ _ Hix).
  destruct (pop_moved _ (mem st) s a o a' ltac:(lia) Hr Hl Ha ltac:(lia) Hp) as (Hmv & Hlab & Hoth).
  split; [|by apply Hlab']. intros s' Hs'. destruct (decide (s' = s)) as [->|Hne].
  - by rewrite Hh, decide_True.
  - apply moved_other; [done| | |by apply Hoth]; rewrite ?Eh, ?Hh, decide_False by done; done.
Qed.

Lemma popping_alone th0 s a : popping th0 = Some (s, a) -> pushing key th0 = None.
Proof. destruct th0 as [| | | | | |a'|w s' a'|s' a'| | | | | |]; try done. Qed.

Lemma mover o th' : next key th (mem st) = Some (o, th') -> thread_moved n st i o th'.
Proof using Hok Hb Hi k_range.
  intros Hn. destruct (next_ring key th (mem st) o th' Hn) as [s t a o a' th' Ep Hp Ep' E0|s t a o r th' Ep Hp Hu|s a o a' th' Ep Hp Ep' E0|s a o r th' Ep Hp Hu|o th' E1 E2 Ho Hu].
  - eapply mover_push; [done|by left| |].
    + intros s'. unfold holds. by rewrite Ep'.
    + intros m. unfold label_ok. by rewrite Ep', E0.
  - eapply mover_push; [done|right; by eexists| |].
    + intros s'. rewrite holds_unclaimed by done. by case_decide.
    + intros. by apply label_unclaimed.
  - eapply mover_pop; [by eapply popping_alone|done|by left| |].
    + intros s'. unfold holds. by rewrite E0, Ep'.
    + intros m. unfold label_ok. by rewrite Ep', E0.
  - eapply mover_pop; [by eapply popping_alone|done|right; by eexists| |].
    + intros s'. rewrite holds_unclaimed by done. by case_decide.
    + intros. by apply label_unclaimed.
  - split; [|by apply label_unclaimed]. intros s Hs. rewrite holds_unclaimed by done.
    destruct (own_ring s Hs) as [Hr _]. assert (Eh : holds th s = None) by (unfold holds; by rewrite E1, E2). rewrite Eh in Hr.
    pose proof (exec_ring o (mem st) s Ho) as Er.
    split; [by eapply ring_ok_ring|by apply grows_ring| |done]. unfold ring in Er. simplify_eq. lia.
Qed.
End Mover.

Lemma rings_relabel n b st st' :
  rings_ok n b st -> in_range n st' -> (forall s, ring (sh (mem st') s) = ring (sh (mem st) s)) ->
  (forall s c, claims (threads st) s c -> claims (threads st') s c) ->
  (forall j th, threads st' !! j = Some th -> unclaimed key th \/ threads st !! j = Some th) ->
  rings_ok n b st'.
Proof.
  intros Hok Hin Hr Hc Ht. split.
  - done.
  - intros s Hs. destruct (g_ring _ _ _ Hok s Hs) as [H1 H2]. specialize (Hr s). split.
    + eapply ring_ok_iff; [|by eapply ring_ok_ring]. intros c. split; [apply Hc|].
      intros (j & th & Hj & Hh). destruct (Ht j th Hj) as [Hu|?]; [by rewrite holds_unclaimed in Hh|by exists j, th].
    + unfold ring in Hr. simplify_eq. lia.
  - intros i th Hi. destruct (Ht i th Hi) as [Hu|Hi']; [by apply label_unclaimed|].
    apply (label_grows (mem st)); [|by eapply g_label]. intros s. by apply grows_ring.
  - intros i j th th' s c c' Hne Hi Hj Hh Hh'. destruct (Ht i th Hi) as [Hu|Hi']; [by rewrite holds_unclaimed in Hh|].
    destruct (Ht j th' Hj) as [Hu|Hj']; [by rewrite holds_unclaimed in Hh'|]. by eapply (g_apart _ _ _ Hok i j).
Qed.

(** A goroutine that held nothing and now holds nothing. *)
Lemma rings_idle n b st i th th' m' :
  rings_ok n b st -> threads st !! i = Some th -> in_range n (MkSystem m' (<[i := th']> (threads st))) ->
  shards m' = shards (mem st) -> unclaimed key th -> unclaimed key th' -> rings_ok n b (MkSystem m' (<[i := th']> (threads st))).
Proof.
  intros Hok Hi Hin Em Hu Hu'. eapply (rings_relabel n b st); [done|done|..]; cbn.
  - intros s. unfold sh. by rewrite Em.
  - intros s c (j & th0 & Hj & Hh). exists j, th0. split; [|done]. rewrite list_lookup_insert_ne; [done|].
    intros <-. simplify_eq. by rewrite holds_unclaimed in Hh.
  - intros j y [(-> & -> & _)|[? ?]]%list_lookup_insert_Some; auto.
Qed.

Lemma rings_moves n b st st' : rings_ok n b st -> b < 2 ^ 62 -> moves key st st' -> rings_ok n (b + 1) st'.
Proof.
  intros Hok Hb Hs. pose proof (range_moves key n st st' (g_range _ _ _ Hok) Hs) as Hin.
  assert (Hweak : rings_ok n b st' -> rings_ok n (b + 1) st').
  { intros [H1 H2 H3 H4]. split; try done. intros s Hs'. destruct (H2 s Hs'). split; [done|lia]. }
  destruct Hs as [i th o th' Hi Hn|c|i th ge t th' Hi Hn|i th cl th' Hi Hn Hc].
  - destruct (mover n b st i th Hok Hb Hi o th' Hn) as [Hmv Hlab].
    assert (Hst : forall th0, th0 ∈ starts o (mem st) -> unclaimed key th0) by (intros; by eapply starts_unclaimed).
    assert (Hg : forall s, grows (sh (mem st) s) (sh (exec o (mem st)) s)).
    { intros s. destruct (decide (s < n)%nat) as [l|]; [by apply (v_grows _ _ _ _ (Hmv s l))|].
      pose proof (ix_count _ _ (proj1 (g_range _ _ _ Hok))). unfold sh. rewrite !nth_overflow by (rewrite ?exec_length; lia). apply grows_refl. }
    split; cbn.
    + done.
    + intros s Hs. destruct (Hmv s Hs) as [Hr _ Ht _]. destruct (g_ring _ _ _ Hok s Hs) as [_ Hb']. split; [|lia].
      eapply ring_ok_iff; [|done]. intros c. by rewrite claims_after.
    + intros j y [(-> & -> & _)|[[? Hj]|Hj]]%lookup_insert_app; [done| |by apply label_unclaimed, Hst].
      eapply label_grows; [done|by eapply g_label].
    + assert (Hnew : forall j th0 s c c', j <> i -> threads st !! j = Some th0 -> holds th0 s = Some c -> holds th' s = Some c' -> place c <> place c').
      { intros j th0 s c c' Hne Hj Hh Hh'. assert (Hs : (s < n)%nat).
        { destruct Hin as [_ Hin]. assert (Hi' : thread_in n th') by (eapply (Hin i); by eapply threads_moved).
          unfold holds in Hh'. destruct (pushing key th') as [[[s' t'] a']|] eqn:E1; [case_decide; [subst; by eapply pushing_in|done]|].
          destruct (popping th') as [[s' a']|] eqn:E2; [case_decide; [subst; by eapply popping_in|done]|done]. }
        apply (v_apart _ _ _ _ (Hmv s Hs) c' Hh'). by exists j, th0. }
      intros j j' y y' s c c' Hne Hj Hj' Hh Hh'.
      apply lookup_insert_app in Hj as [(-> & -> & _)|[[Hji Hj]|Hj]]; [| |by rewrite holds_unclaimed in Hh by auto];
      apply lookup_insert_app in Hj' as [(-> & -> & _)|[[Hji' Hj']|Hj']]; try (by rewrite holds_unclaimed in Hh' by auto); try done.
      * intros E. by eapply (Hnew j').
      * by eapply (Hnew j).
      * by eapply (g_apart _ _ _ Hok j j').
  - apply Hweak. eapply (rings_relabel n b st); [done|done|done|..]; cbn.
    + intros s c' (j & th0 & Hj & Hh). exists j, th0. split; [by apply lookup_app_l_Some|done].
    + intros j y [?|[_ Hj]]%lookup_app_Some; [by right|left]. destruct (j - length (threads st))%nat; simplify_eq/=. by destruct c.
  - apply Hweak. eapply rings_idle; [done|done|done|done|..]; unfold taskEnds in Hn; repeat case_match; by simplify_eq.
  - apply Hweak. eapply rings_idle; [done|done|done|done|..]; unfold ticks in Hn; repeat case_match; by simplify_eq.
Qed.

Lemma rings_New procs capacity :
  ringCapacity capacity = 2 ^ k -> rings_ok (Z.to_nat (4 * Z.max procs 1)) 0 (New procs capacity).
Proof.
  intros Ek. pose proof (cap_bounds k k_range) as Hcap. pose proof (range_New (T:=T) procs capacity) as Hin. split; [done| |done|done].
  intros s Hs. assert (E : sh (mem (New procs capacity)) s = newShard (T:=T) (Z.to_nat (2 ^ k))).
  { unfold sh, New. cbn [mem shards]. rewrite Ek, nth_lookup, lookup_replicate_2 by done. done. }
  rewrite E. split; [|cbn; lia]. set (x := newShard _).
  assert (Hsz : sized k x) by (unfold sized, x; cbn; rewrite length_fmap, length_seq; lia).
  assert (Hcell : forall p, 0 <= p < 2 ^ k -> cell x p = MkSlot p None).
  { intros p Hp. unfold cell. rewrite (cellAt_mod k) by done. rewrite Z.mod_small by lia. unfold x. cbn.
    rewrite nth_lookup, list_lookup_fmap, lookup_seq_lt by lia. cbn. f_equal. lia. }
  split; try done.
  - change (head x) with 0. change (tail x) with 0. lia.
  - intros p Hp. change (head x) with 0 in Hp. unfold cell_ok. change (tail x) with 0. rewrite (proj2 (Z.ltb_ge _ _)) by lia. left. unfold seqAt, taskAt.
    by rewrite Hcell by lia.
  - intros c (i & th & Hi & _). done.
Qed.

(** ** Where the tasks are *)

Definition push_hand (t : T) (a : push_at) : list (item T) := match a with PushPublish _ => [] | _ => [Some t] end.
Definition pop_hand (a : pop_at T) : list (item T) := match a with PopFree _ t => [t] | _ => [] end.
Definition submit_hand (t : T) (a : submit_at) : list (item T) :=
  match a with SubmitActive | SubmitOverflow _ _ => [Some t] | SubmitPush _ a => push_hand t a | SubmitNotify _ _ => [] end.

(** The tasks in a goroutine's hands: handed in and not queued, or taken and
    not finished. *)
Definition hands th : list (item T) :=
  match th with
  | TSubmit t a => submit_hand t a
  | TSubmitBehind t a =>
      match a with SubmitBehindActive | SubmitBehindOverflow _ _ => [Some t] | SubmitBehindPush _ a => push_hand t a | SubmitBehindNotify _ _ => [] end
  | TSubmitBatch a =>
      match a with
      | BatchActive ts => Some <$> ts
      | BatchPush _ t ts _ a => push_hand t a ++ (Some <$> ts)
      | BatchOverflow _ t ts _ _ => Some t :: (Some <$> ts)
      | BatchNotify _ _ _ _ => []
      | BatchEach t ts a => submit_hand t a ++ (Some <$> ts)
      end
  | TStop a => match a with StopPop _ a => pop_hand a | StopTask _ t => [t] | _ => [] end
  | TWorker _ _ a => match a with RunPop a => pop_hand a | RunMore t _ | RunNotify t _ | RunTask t => [t] | _ => [] end
  | TOverflow _ a => match a with OverTask t => [t] | OverPop a => pop_hand a | OverDone _ => [] end
  | _ => []
  end.

(** The tasks in the cells of the rings. *)
Definition cell_tasks (c : slot T) : list (item T) := match task c with Some t => [Some t] | None => [] end.
Definition queued_tasks m : list (item T) := shards m ≫= fun x => slots x ≫= cell_tasks.

(** What an operation puts in a cell, takes from one, and drops. *)
Definition puts (o : op T) : list (item T) := match o with OWrite _ _ (Some t) => [Some t] | _ => [] end.
Definition takes (o : op T) m : list (item T) := match o with OWrite s pos None => [task (cell (sh m s) pos)] | _ => [] end.
Definition drops (o : op T) : list (item T) := match o with ODrop t => [Some t] | _ => [] end.

Definition balanced th m (o : op T) th' : Prop :=
  hands th ++ takes o m ≡ₚ hands th' ++ (starts o m ≫= hands) ++ puts o ++ drops o.

(** Operations that hold no task. *)
Definition bare (o : op T) : Prop := match o with OWrite _ _ _ | ODrop _ | OGoOverflow _ _ => False | _ => True end.
Definition bares {L A} (r : res T L A) : Prop := match r with Go o _ | Back o _ => bare o | Block => True end.

Lemma bare_balanced th m o th' : bare o -> hands th = hands th' -> balanced th m o th'.
Proof.
  intros Ho Eh. unfold balanced. rewrite Eh. destruct o; cbn; try done; try (destruct (janitor m)); cbn; by rewrite ?app_nil_r.
Qed.

Lemma bares_call {L A L' A'} (r : res T L A) (f : L -> L') (g : A -> L' + A') : bares r -> bares (call r f g).
Proof. destruct r as [| |]; cbn; try done. by destruct (g a). Qed.

Lemma bares_onward {L A} (r : res T L A) inside ret o th' : bares r -> onward inside ret r = Some (o, th') -> bare o.
Proof. destruct r; cbn; intros; by simplify_eq. Qed.

Lemma hasTask_bare s a m : bares (hasTask s a m).
Proof. by destruct a. Qed.
Lemma wakeIdle_bare j s a m : bares (wakeIdle j s a m).
Proof. destruct a; cbn; by case_match. Qed.
Lemma start_bare j s a m : bares (start j s a m).
Proof. destruct a; cbn; by try case_match. Qed.
Hint Resolve bares_call hasTask_bare wakeIdle_bare start_bare : shards.
Lemma find_bare s a m : bares (find s a m).
Proof.
  destruct a as [a|a|a]; cbn [find]; auto with shards. apply bares_call.
  destruct a; cbn [borrow]; destruct (_ && _); auto with shards; repeat case_match; by simplify_eq.
Qed.
Hint Resolve find_bare : shards.
Lemma notify_bare s a m : bares (notify s a m).
Proof. destruct a; cbn; repeat case_match; simplify_eq/=; auto with shards. Qed.
Hint Resolve notify_bare : shards.
Lemma notifyBehind_bare s a m : bares (notifyBehind s a m).
Proof. destruct a as [|a|a]; cbn; auto with shards. destruct a; cbn; by try case_match. Qed.
Lemma park_bare w a m : bares (park w a m).
Proof. destruct a; cbn; repeat case_match; simplify_eq/=; auto with shards. Qed.
Lemma monitor_bare a m : bares (monitor a m).
Proof. destruct a; cbn; repeat case_match; simplify_eq/=; auto with shards. Qed.
Lemma janitor_bare a m : bares (retireIdleWorkers a m).
Proof. destruct a as [| |now i a]; cbn; auto with shards. apply bares_call. destruct a; cbn; repeat case_match; by simplify_eq/=. Qed.
Lemma Rescue_bare now a m : bares (Rescue now a m).
Proof. destruct a; cbn; repeat case_match; simplify_eq/=; auto with shards. Qed.
Hint Resolve notifyBehind_bare park_bare monitor_bare janitor_bare Rescue_bare : shards.

Lemma push_balanced s t a m o a' :
  push s t a m = Go o a' -> push_hand t a ++ takes o m ≡ₚ push_hand t a' ++ (starts o m ≫= hands) ++ puts o ++ drops o.
Proof. destruct a; cbn; repeat case_match; intros; by simplify_eq. Qed.

Lemma pushed_balanced s t a m o b :
  push s t a m = Back o b -> push_hand t a = (if b then [] else [Some t]) /\ bare o.
Proof. destruct a; cbn; repeat case_match; intros; by simplify_eq. Qed.

Lemma pop_balanced s a m o a' :
  pop s a m = Go o a' -> pop_hand a ++ takes o m ≡ₚ pop_hand a' ++ (starts o m ≫= hands) ++ puts o ++ drops o.
Proof. destruct a; cbn; repeat case_match; intros; by simplify_eq. Qed.

Lemma popped_balanced s a m o r :
  pop s a m = Back o r -> pop_hand a = (match r with Some t => [t] | None => [] end) /\ bare o.
Proof. destruct a; cbn; repeat case_match; intros; by simplify_eq. Qed.

Lemma overflow_balanced s t a m o a' : runOverflow s t a m = Go o a' -> bare o.
Proof. destruct a; cbn; repeat case_match; intros; by simplify_eq. Qed.
Lemma overflowed_balanced s t a m o :
  runOverflow s t a m = Back o () -> takes o m = [] /\ [Some t] = (starts o m ≫= hands) ++ puts o ++ drops o.
Proof. destruct a; cbn; repeat case_match; intros; by simplify_eq. Qed.

Ltac bare_step H := apply bare_balanced; [by eapply bares_onward in H; eauto with shards|].

Lemma hands_batchNext n ts w : hands (match batchNext (T:=T) n ts w with inl l => TSubmitBatch l | inr b => TEnd b end) = Some <$> ts.
Proof. destruct ts; cbn; [|done]. unfold notifyTouched. by repeat case_match; simplify_eq/=. Qed.
Lemma hands_notifyTouched i w : hands (match notifyTouched (T:=T) i w with inl l => TSubmitBatch l | inr b => TEnd b end) = [].
Proof. unfold notifyTouched. by repeat case_match; simplify_eq/=. Qed.
Lemma hands_batchEach ts : hands (match batchEach (T:=T) ts with inl l => TSubmitBatch l | inr b => TEnd b end) = Some <$> ts.
Proof. by destruct ts. Qed.

(** Tasks waiting behind the ones a step is about. *)
Lemma balanced_rest th1 th2 m o th1' th2' rest :
  balanced th1 m o th1' -> hands th2 = hands th1 ++ rest -> hands th2' = hands th1' ++ rest -> balanced th2 m o th2'.
Proof. unfold balanced. intros H -> ->. rewrite <- !(assoc_L (++)), !(comm (++) rest), !(assoc_L (++)). f_equiv. rewrite <- !(assoc_L (++)). done. Qed.

Lemma Submit_balanced t a m o th' : next key (TSubmit t a) m = Some (o, th') -> balanced (TSubmit t a) m o th'.
Proof.
  intros H. destruct a; cbn [next Submit] in H.
  - cbn in H. simplify_eq. by apply bare_balanced.
  - apply onward_call in H as [(a' & E & ->)|(b & E & ->)].
    + by eapply push_balanced.
    + apply pushed_balanced in E as [E Ho]. apply bare_balanced; [done|]. cbn. rewrite E. by destruct b.
  - apply onward_call in H as [(a' & E & ->)|([] & E & ->)].
    + apply overflow_balanced in E. by apply bare_balanced.
    + apply overflowed_balanced in E as [E1 E2]. unfold balanced. rewrite E1. cbn. rewrite <- E2. done.
  - assert (Eh : hands th' = []) by (by apply onward_call in H as [(? & _ & ->)|(? & _ & ->)]). by bare_step H.
Qed.

Lemma SubmitBehind_balanced t a m o th' : next key (TSubmitBehind t a) m = Some (o, th') -> balanced (TSubmitBehind t a) m o th'.
Proof.
  intros H. destruct a; cbn [next SubmitBehind] in H.
  - cbn in H. simplify_eq. by apply bare_balanced.
  - apply onward_call in H as [(a' & E & ->)|(b & E & ->)].
    + by eapply push_balanced.
    + apply pushed_balanced in E as [E Ho]. apply bare_balanced; [done|]. cbn. rewrite E. by destruct b.
  - apply onward_call in H as [(a' & E & ->)|([] & E & ->)].
    + apply overflow_balanced in E. by apply bare_balanced.
    + apply overflowed_balanced in E as [E1 E2]. unfold balanced. rewrite E1. cbn. rewrite <- E2. done.
  - assert (Eh : hands th' = []) by (by apply onward_call in H as [(? & _ & ->)|(? & _ & ->)]). by bare_step H.
Qed.

Lemma SubmitBatch_balanced a m o th' : next key (TSubmitBatch a) m = Some (o, th') -> balanced (TSubmitBatch a) m o th'.
Proof.
  intros H. destruct a as [ts|n t ts w a|n t ts w a|i w s a|t ts a]; cbn [next SubmitBatch] in H.
  - assert (Hh : o = ONop /\ hands th' = Some <$> ts).
    { destruct (64 <? active m); [destruct (1024 <? active m)|].
      - pose proof (hands_batchEach ts). case_match; cbn in H; by simplify_eq.
      - pose proof (hands_batchNext (active m) ts (replicate 16 0)). case_match; cbn in H; by simplify_eq.
      - pose proof (hands_batchNext (active m) ts [0]). case_match; cbn in H; by simplify_eq. }
    destruct Hh as [-> Hh]. by apply bare_balanced.
  - apply onward_call in H as [(a' & E & ->)|(b & E & ->)].
    + eapply (balanced_rest (TSubmit t (SubmitPush 0 a)) _ _ _ (TSubmit t (SubmitPush 0 a'))); [by eapply push_balanced|done|done].
    + apply pushed_balanced in E as [E Ho]. apply bare_balanced; [done|]. cbn [hands]. rewrite E. destruct b; [by rewrite hands_batchNext|done].
  - apply onward_call in H as [(a' & E & ->)|([] & E & ->)].
    + apply overflow_balanced in E. by apply bare_balanced.
    + apply overflowed_balanced in E as [E1 E2]. unfold balanced. rewrite E1, hands_batchNext, <- E2. cbn. rewrite app_nil_r. by rewrite Permutation_cons_append.
  - assert (Eh : hands th' = []).
    { apply onward_call in H as [(? & _ & ->)|(? & _ & ->)]; [done|apply hands_notifyTouched]. }
    by bare_step H.
  - apply onward_call in H as [(a' & E & ->)|(b & E & ->)].
    + eapply (balanced_rest (TSubmit t a) _ _ _ (TSubmit t a')); [|done|done]. apply Submit_balanced. cbn. by rewrite E.
    + eapply (balanced_rest (TSubmit t a) _ _ _ (TEnd b)); [|done|apply hands_batchEach]. apply Submit_balanced. cbn. by rewrite E.
Qed.

Lemma run_balanced w s a m o th' : next key (TWorker w s a) m = Some (o, th') -> balanced (TWorker w s a) m o th'.
Proof.
  intros H. destruct a; cbn [next run] in H.
  3: { apply onward_call in H as [(a' & E & ->)|(r & E & ->)]; [by eapply pop_balanced|].
       apply popped_balanced in E as [E Ho]. apply bare_balanced; [done|]. cbn. rewrite E. by destruct r. }
  all: try (cbn in H; simplify_eq; by apply bare_balanced).
  all: match type of H with context [call _ _ _] =>
    let Eh := fresh in
    match goal with |- balanced ?th0 _ _ _ => assert (Eh : hands th0 = hands th') by
      (apply onward_call in H as [(? & _ & ->)|(r & _ & ->)]; [done|by try destruct r]) end; by bare_step H end.
Qed.

Lemma Stop_balanced a m o th' : next key (TStop a) m = Some (o, th') -> balanced (TStop a) m o th'.
Proof.
  intros H. destruct a; cbn [next Stop] in H.
  8: { apply onward_call in H as [(a' & E & ->)|(r & E & ->)]; [by eapply pop_balanced|].
       apply popped_balanced in E as [E Ho]. apply bare_balanced; [done|]. cbn. rewrite E. by repeat case_match; simplify_eq/=. }
  all: unfold stopSend, stopNext in H; repeat case_match; simplify_eq/=; by apply bare_balanced.
Qed.

Theorem hands_next th m o th' : next key th m = Some (o, th') -> balanced th m o th'.
Proof.
  destruct th; intros H.
  - by apply Submit_balanced.
  - by apply SubmitBehind_balanced.
  - by apply SubmitBatch_balanced.
  - cbn in H. simplify_eq. by apply bare_balanced.
  - cbn in H. simplify_eq. by apply bare_balanced.
  - assert (Eh : hands th' = []) by (cbn [next] in H; by destruct (Rescue now a m); simplify_eq/=). by bare_step H.
  - by apply Stop_balanced.
  - by apply run_balanced.
  - destruct a; cbn [next overflowing] in H; [done| |cbn in H; simplify_eq; apply bare_balanced; [done|by case_match]].
    apply onward_call in H as [(a' & E & ->)|(r & E & ->)]; [by eapply pop_balanced|].
    apply popped_balanced in E as [E Ho]. apply bare_balanced; [done|]. cbn. rewrite E. by destruct r.
  - assert (Eh : hands th' = []) by (cbn [next] in H; by destruct (monitor a m); simplify_eq/=). by bare_step H.
  - assert (Eh : hands th' = []) by (cbn [next] in H; by destruct (retireIdleWorkers a m); simplify_eq/=). by bare_step H.
  - done.
  - done.
  - done.
  - done.
Qed.

Lemma bind_alter {A B} (f : A -> list B) (g : A -> A) (l : list A) i a :
  l !! i = Some a -> (alter g i l ≫= f) ++ f a ≡ₚ (l ≫= f) ++ f (g a).
Proof.
  revert i. induction l as [|x l IH]; intros [|i] Hi; cbn in *; simplify_eq; try done.
  - rewrite (comm (++) _ (f a)), (comm (++) _ (f (g a))). cbn. rewrite !(assoc_L (++)). f_equiv. by rewrite (comm (++)).
  - rewrite <- !(assoc_L (++)). f_equiv. by apply IH.
Qed.

Lemma bind_alter_same {A B} (f : A -> list B) (g : A -> A) (l : list A) i : (forall a, f (g a) = f a) -> alter g i l ≫= f = l ≫= f.
Proof. intros Hg. revert i. induction l as [|x l IH]; intros [|i]; cbn; try done; [by rewrite Hg|]. f_equal. apply IH. Qed.

Lemma bind_insert {A B} (f : A -> list B) (l : list A) i a b :
  l !! i = Some a -> (<[i := b]> l ≫= f) ++ f a ≡ₚ (l ≫= f) ++ f b.
Proof. intros Hi. rewrite <- (bind_alter f (fun _ => b) l i a Hi). by rewrite list_insert_alter. Qed.

Definition shard_tasks (x : shard T) : list (item T) := slots x ≫= cell_tasks.

Lemma queued_onShard m s g :
  (s < length (shards m))%nat -> queued_tasks (onShard s g m) ++ shard_tasks (sh m s) ≡ₚ queued_tasks m ++ shard_tasks (g (sh m s)).
Proof.
  intros Hs. destruct (lookup_lt_is_Some_2 (shards m) s Hs) as [x Hx]. unfold sh. rewrite nth_lookup, Hx. cbn.
  unfold queued_tasks, onShard. cbn. by apply (bind_alter shard_tasks).
Qed.

Lemma queued_same m s g : (forall x, shard_tasks (g x) = shard_tasks x) -> queued_tasks (onShard s g m) ≡ₚ queued_tasks m.
Proof.
  intros Hg. destruct (decide (s < length (shards m))%nat) as [Hs|Hs].
  - apply (Permutation_app_inv_r (shard_tasks (sh m s))). by rewrite queued_onShard, Hg.
  - unfold queued_tasks, onShard. cbn. by rewrite alter_beyond by lia.
Qed.

Lemma shard_tasks_onCell x pos f :
  sized k x -> shard_tasks (onCell pos f x) ++ cell_tasks (cell x pos) ≡ₚ shard_tasks x ++ cell_tasks (f (cell x pos)).
Proof.
  intros Hx. unfold cell. pose proof (cell_bound k k_range x pos Hx) as Hb.
  destruct (lookup_lt_is_Some_2 _ _ Hb) as [c Hc]. rewrite nth_lookup, Hc. cbn. by apply bind_alter.
Qed.

Lemma exec_queued m o :
  (forall s pos t, o = OWrite s pos t -> (s < length (shards m))%nat /\ sized k (sh m s) /\
    (if t is Some _ then task (cell (sh m s) pos) = None else task (cell (sh m s) pos) <> None)) ->
  queued_tasks (exec o m) ++ takes o m ≡ₚ queued_tasks m ++ puts o.
Proof.
  intros Hw.
  assert (Hplain : takes o m = [] -> puts o = [] -> queued_tasks (exec o m) ≡ₚ queued_tasks m ->
    queued_tasks (exec o m) ++ takes o m ≡ₚ queued_tasks m ++ puts o) by (intros -> ->; by rewrite !app_nil_r).
  destruct o; try (apply Hplain; [done|done|]; cbn [exec]; first [done|by apply queued_same]); try (apply Hplain; [done..|]; by destruct tier).
  - specialize (Hw s pos t eq_refl) as (Hs & Hz & Ht). cbn [exec]. pose proof (queued_onShard m s (onCell pos (fun c => MkSlot (seq_ c) t)) Hs) as H1.
    pose proof (shard_tasks_onCell (sh m s) pos (fun c => MkSlot (seq_ c) t) Hz) as H2.
    apply (Permutation_app_inv_r (shard_tasks (sh m s))). 
    transitivity ((queued_tasks (onShard s (onCell pos (fun c => MkSlot (seq_ c) t)) m) ++ shard_tasks (sh m s)) ++ takes (OWrite s pos t) m); [solve_Permutation|].
    rewrite H1. rewrite <- !(assoc_L (++)). f_equiv. unfold cell_tasks in H2. cbn [task] in H2. cbn [takes puts].
    destruct t as [t|]; [rewrite Ht, app_nil_r in H2; rewrite app_nil_r, H2; by rewrite (comm (++))|].
    destruct (task (cell (sh m s) pos)); [|done]. by rewrite H2, app_nil_r.
  - apply Hplain; [done..|]. cbn [exec]. apply queued_same. intros x. unfold shard_tasks, onCell. cbn.
    by apply bind_alter_same.
  - apply Hplain; [done..|]. cbn [exec]. etransitivity; [by apply queued_same|done].
Qed.

(** Every task handed in is in one place: finished, dropped, in a goroutine's
    hands or in a cell. *)
Record tasks_ok (n : nat) st : Prop := {
  t_where : submitted (mem st) ≡ₚ ran (mem st) ++ dropped (mem st) ++ (threads st ≫= hands) ++ queued_tasks (mem st);
  t_pushed : forall s, (s < n)%nat -> Forall (fun t => t <> None) (pushed (sh (mem st) s));
  t_dropped : dropped (mem st) <> [] -> stopped (mem st) = true
}.

(** The operations of a step on the rings. *)
Lemma next_op_write n b st i th o th' s pos t :
  rings_ok n b st -> tasks_ok n st -> b < 2 ^ 62 -> threads st !! i = Some th -> next key th (mem st) = Some (o, th') -> o = OWrite s pos t ->
  (s < length (shards (mem st)))%nat /\ sized k (sh (mem st) s) /\
  (if t is Some _ then task (cell (sh (mem st) s) pos) = None else task (cell (sh (mem st) s) pos) <> None).
Proof.
  intros Hok Htk Hb Hi Hn Eo. pose proof (g_range _ _ _ Hok) as [Hix Hin].
  destruct (next_ring key th (mem st) o th' Hn) as [s0 t0 a o a' th' Ep Hp Ep' E0|s0 t0 a o r th' Ep Hp Hu|s0 a o a' th' Ep Hp Ep' E0|s0 a o r th' Ep Hp Hu|o th' E1 E2 Ho Hu].
  - destruct a; cbn in Hp; try (exfalso; repeat case_match; congruence). simplify_eq.
    assert (Hs : (s < n)%nat) by (by eapply pushing_in; [eapply Hin|]).
    destruct (own_ring n b st i th Hok Hb Hi s Hs) as [Hr _].
    assert (Eh : holds th s = Some (CWrite pos (Some t0))) by (unfold holds; by rewrite Ep, decide_True).
    rewrite Eh in Hr. split; [by rewrite (ix_count _ _ Hix)|]. split; [by apply Hr|].
    by destruct (r_claims _ _ _ Hr (CWrite pos (Some t0)) ltac:(by right)) as (_ & _ & Et & _).
  - exfalso. destruct a; cbn in Hp; repeat case_match; congruence.
  - destruct a; cbn in Hp; try (exfalso; repeat case_match; congruence). simplify_eq.
    assert (Hs : (s < n)%nat) by (by eapply popping_in; [eapply Hin|]).
    destruct (own_ring n b st i th Hok Hb Hi s Hs) as [Hr _].
    assert (Eh : holds th s = Some (CTake pos)) by (unfold holds; by rewrite (popping_alone th s _ Ep), Ep, decide_True).
    pose proof (own_apart n b st i th Hok Hi s (CTake pos) Eh) as Ha. rewrite Eh in Hr. split; [by rewrite (ix_count _ _ Hix)|]. split; [by apply Hr|].
    destruct (take_claim k k_range _ _ _ Hr Ha) as [_ Hl].
    apply (t_pushed _ _ Htk) in Hs. rewrite Forall_lookup in Hs. by apply Hs in Hl.
  - exfalso. destruct a; cbn in Hp; repeat case_match; congruence.
  - by subst.
Qed.

Lemma exec_pushed m o s :
  (forall s pos t, o = OTail s pos t -> t <> None) -> Forall (fun t => t <> None) (pushed (sh m s)) ->
  Forall (fun t => t <> None) (pushed (sh (exec o m) s)).
Proof.
  intros Ho Hp.
  assert (Hkeep : forall f s', (forall x, pushed (f x) = pushed x) -> pushed (sh (onShard s' f m) s) = pushed (sh m s)).
  { intros f s' Hf. destruct (decide (s = s')) as [->|]; [|by rewrite sh_other].
    destruct (decide (s' < length (shards m))%nat); [by rewrite sh_same|]. unfold onShard, sh. cbn. by rewrite alter_beyond by lia. }
  assert (Hd : neutral o \/ ~ neutral o) by (destruct o; cbn; auto). destruct Hd as [Hn|Hn]; [pose proof (exec_ring o m s Hn) as E; injection E as _ _ _ E _; by rewrite E|].
  destruct o; try (by destruct Hn); cbn [exec]; try (by rewrite Hkeep).
  destruct (decide (s = s0)) as [->|]; [|by rewrite sh_other].
  destruct (decide (s0 < length (shards m))%nat).
  - rewrite sh_same by done. cbn. apply Forall_app. split; [done|]. constructor; [by eapply Ho|done].
  - unfold onShard, sh in *. cbn. by rewrite alter_beyond by lia.
Qed.

Lemma exec_ghosts m o :
  submitted (exec o m) = submitted m /\ ran (exec o m) = ran m /\ dropped (exec o m) = dropped m ++ drops o /\
  (stopped m = true -> stopped (exec o m) = true).
Proof. destruct o; cbn; rewrite ?app_nil_r; try done. by destruct tier. Qed.

Lemma next_op_tail th m o th' s pos t : next key th m = Some (o, th') -> o = OTail s pos t -> t <> None.
Proof.
  intros Hn Eo. destruct (next_ring key th m o th' Hn) as [s0 t0 a o a' th' Ep Hp Ep' E0|s0 t0 a o r th' Ep Hp Hu|s0 a o a' th' Ep Hp Ep' E0|s0 a o r th' Ep Hp Hu|o th' E1 E2 Ho Hu];
    try (destruct a; cbn in Hp; repeat case_match; by simplify_eq). by subst.
Qed.

Lemma runOverflow_drop s t a m o : runOverflow s t a m = Back o () -> drops o <> [] -> stopped m = true.
Proof. destruct a; cbn; repeat case_match; intros; by simplify_eq. Qed.

Lemma next_drops th m o th' : next key th m = Some (o, th') -> drops o <> [] -> stopped m = true.
Proof.
  intros Hn Hd. assert (Hbare : bare o -> False) by (intros; by destruct o).
  assert (Hcall : forall {L' A'} s t a (f : runOverflow_at -> L') (g : () -> L' + A') inside ret,
    onward inside ret (call (runOverflow s t a m) f g) = Some (o, th') -> stopped m = true).
  { intros L' A' s t a f g inside ret H. apply onward_call in H as [(? & E & ->)|([] & E & ->)].
    - by apply overflow_balanced in E.
    - by apply runOverflow_drop in E. }
  assert (Hpush : forall {L' A'} s t a (f : push_at -> L') (g : bool -> L' + A') inside ret,
    onward inside ret (call (push s t a m) f g) = Some (o, th') -> stopped m = true).
  { intros L' A' s t a f g inside ret H. apply onward_call in H as [(a' & E & ->)|(b & E & ->)].
    - exfalso. destruct a; cbn in E; repeat case_match; by simplify_eq.
    - by apply pushed_balanced in E as [_ ?]. }
  assert (Hpop : forall {L' A'} s a (f : pop_at T -> L') (g : option (item T) -> L' + A') inside ret,
    onward inside ret (call (pop s a m) f g) = Some (o, th') -> stopped m = true).
  { intros L' A' s a f g inside ret H. apply onward_call in H as [(a' & E & ->)|(b & E & ->)].
    - exfalso. destruct a; cbn in E; repeat case_match; by simplify_eq.
    - by apply popped_balanced in E as [_ ?]. }
  assert (Hsub : forall t a, (exists l, Submit key t a m = Go o l) \/ (exists b, Submit key t a m = Back o b) -> stopped m = true).
  { intros t a H. assert (H' : exists th0, onward (TSubmit t) TEnd (Submit key t a m) = Some (o, th0)).
    { destruct H as [[? ->]|[? ->]]; eexists; done. }
    clear Hn Hcall Hpush Hpop. destruct H' as [th0 H']. destruct a; cbn [Submit] in H'.
    - cbn in H'. by simplify_eq.
    - apply onward_call in H' as [(a' & E & ->)|(b & E & ->)]; [exfalso; destruct a; cbn in E; repeat case_match; by simplify_eq|].
      by apply pushed_balanced in E as [_ ?].
    - apply onward_call in H' as [(? & E & ->)|([] & E & ->)]; [by apply overflow_balanced in E|by apply runOverflow_drop in E].
    - exfalso. apply Hbare. by eapply bares_onward in H'; eauto with shards. }
  destruct th; try (exfalso; apply Hbare; by eapply bares_onward in Hn; eauto with shards); try done.
  - apply (Hsub t a). cbn [next] in Hn. destruct (Submit key t a m) eqn:E; cbn in Hn; simplify_eq; eauto.
  - destruct a; cbn [next SubmitBehind] in Hn; [cbn in Hn; by simplify_eq|by eapply Hpush; exact Hn|by eapply Hcall; exact Hn|].
    exfalso; apply Hbare; by eapply bares_onward in Hn; eauto with shards.
  - destruct a; cbn [next SubmitBatch] in Hn; [|by eapply Hpush; exact Hn|by eapply Hcall; exact Hn| |].
    + exfalso. apply Hbare. clear -Hn. repeat case_match; cbn in Hn; by simplify_eq.
    + exfalso; apply Hbare; by eapply bares_onward in Hn; eauto with shards.
    + apply onward_call in Hn as [(l & E & ->)|(b & E & ->)]; apply (Hsub t a); eauto.
  - cbn in Hn. by simplify_eq.
  - cbn in Hn. by simplify_eq.
  - destruct a; cbn [next Stop] in Hn; try first [done|eapply Hpop; exact Hn]; exfalso; apply Hbare; clear -Hn; repeat case_match; by simplify_eq/=.
  - destruct a; cbn [next run] in Hn; try first [done|eapply Hpop; exact Hn]; exfalso; apply Hbare; try (cbn in Hn; by simplify_eq);
      by eapply bares_onward in Hn; eauto with shards.
  - destruct a; cbn [next overflowing] in Hn; try first [done|eapply Hpop; exact Hn]. cbn in Hn. by simplify_eq.
Qed.

Lemma tasks_moves n b st st' : rings_ok n b st -> b < 2 ^ 62 -> tasks_ok n st -> moves key st st' -> tasks_ok n st'.
Proof.
  intros Hok Hb [H1 H2 H3] Hs. destruct Hs as [i th o th' Hi Hn|c|i th ge t th' Hi Hn|i th cl th' Hi Hn Hc].
  - destruct (exec_ghosts (mem st) o) as (E1 & E2 & E3 & E4).
    assert (Hq : queued_tasks (exec o (mem st)) ++ takes o (mem st) ≡ₚ queued_tasks (mem st) ++ puts o).
    { apply exec_queued. intros s pos t ->. by eapply (next_op_write n b). }
    pose proof (hands_next th (mem st) o th' Hn) as Hh. unfold balanced in Hh.
    pose proof (bind_insert hands (threads st) i th th' Hi) as Hi'.
    split; cbn [mem threads].
    + rewrite E1, E2, E3, bind_app.
      apply (Permutation_app_inv_r (hands th ++ takes o (mem st))).
      etransitivity; [apply Permutation_app; [done|exact Hh]|].
      transitivity (ran (mem st) ++ dropped (mem st) ++ (((threads st ≫= hands) ++ hands th') ++ (queued_tasks (mem st) ++ puts o)) ++ (starts o (mem st) ≫= hands) ++ drops o).
      { solve_Permutation. }
      rewrite <- Hi', <- Hq. solve_Permutation.
    + intros s Hs. apply exec_pushed; [|by apply H2]. intros. by eapply next_op_tail.
    + rewrite E3. intros Hd. apply E4. destruct (decide (dropped (mem st) = [])) as [E|E]; [|by apply H3].
      rewrite E in Hd. by eapply next_drops.
  - split; cbn [mem threads]; [|done|done]. cbn. rewrite H1, bind_app. cbn. rewrite app_nil_r.
    assert (E : hands (requested c).2 = Some <$> (requested c).1) by (by destruct c). rewrite E.
    change (queued_tasks ((mem st) <| submitted ::= _ |>)) with (queued_tasks (mem st)). solve_Permutation.
  - pose proof (bind_insert hands (threads st) i th th' Hi) as Hi'.
    assert (E : hands th = [t] /\ hands th' = []) by (unfold taskEnds in Hn; repeat case_match; by simplify_eq).
    destruct E as [E E']. rewrite E, E', app_nil_r in Hi'.
    split; cbn [mem threads]; [|done|done]. cbn. change (queued_tasks _) with (queued_tasks (mem st)). rewrite H1, <- Hi'. solve_Permutation.
  - pose proof (bind_insert hands (threads st) i th th' Hi) as Hi'.
    assert (E : hands th = [] /\ hands th' = []) by (unfold ticks in Hn; repeat case_match; by simplify_eq).
    destruct E as [E E']. rewrite E, E', !app_nil_r in Hi'.
    split; cbn [mem threads]; [by rewrite Hi'|done|done].
Qed.

Lemma queued_New procs capacity : queued_tasks (mem (New (T:=T) procs capacity)) = [].
Proof.
  assert (Hs : forall c, shard_tasks (newShard c) = []).
  { intros c. unfold shard_tasks, newShard. cbn. generalize 0%nat. induction c as [|c IH]; intros i; [done|]. cbn. apply IH. }
  unfold queued_tasks, New. cbn [mem shards]. induction (Z.to_nat (4 * Z.max procs 1)) as [|j IH]; [done|].
  cbn. rewrite IH, app_nil_r. apply Hs.
Qed.

Lemma system_ok procs capacity es st :
  ringCapacity capacity = 2 ^ k -> Z.of_nat (length es) < 2 ^ 62 -> runs key es (New procs capacity) = Some st ->
  rings_ok (Z.to_nat (4 * Z.max procs 1)) (Z.of_nat (length es)) st /\ tasks_ok (Z.to_nat (4 * Z.max procs 1)) st.
Proof.
  intros Hk Hl Hr. revert Hr. set (n := Z.to_nat (4 * Z.max procs 1)). intros Hr.
  apply (runs_invariant key (fun b st => rings_ok n b st /\ tasks_ok n st) _ es st Hr).
  - split; [by apply rings_New|]. split; cbn [mem threads New submitted ran dropped]; [|intros s Hs|done].
    + pose proof (queued_New procs capacity) as E. cbn [mem New] in E. by rewrite E.
    + unfold sh. cbn. rewrite nth_lookup, lookup_replicate_2 by done. done.
  - intros b st1 st2 [H1 H2] Hm Hb. split; [apply (rings_moves n b st1); [done|lia|done]|by apply (tasks_moves n b st1); [|lia|..]].
Qed.
End System.

#[export] Hint Resolve bares_call hasTask_bare wakeIdle_bare start_bare find_bare notify_bare notifyBehind_bare park_bare
  monitor_bare janitor_bare Rescue_bare : shards.

(** A capacity up to 2^62 is rounded to a power of two a ring can have. *)
Lemma ringCapacity_pow capacity : capacity <= 2 ^ 62 -> exists k, 1 <= k <= 62 /\ ringCapacity capacity = 2 ^ k.
Proof.
  intros Hc. unfold ringCapacity. set (c := if capacity <=? 0 then DefaultCapacity else capacity).
  assert (Hc' : 1 <= c <= 2 ^ 62) by (unfold c, DefaultCapacity; destruct (Z.leb_spec capacity 0); lia).
  rewrite (proj2 (Z.eqb_neq _ _)) by lia. exists (Z.log2 (Z.max c 2 - 1) + 1). split; [|done].
  pose proof (Z.log2_nonneg (Z.max c 2 - 1)).
  assert (Z.log2 (Z.max c 2 - 1) < 62) by (apply Z.log2_lt_pow2; lia). lia.
Qed.

(** C11.  No task is lost, run twice or run out of its shard's order.  In every
    state the pool can reach, however its goroutines interleave (before 2^62
    events, so that positions have not wrapped): the tasks handed to Submit,
    SubmitBehind and SubmitBatch are, as a multiset, the ones that have
    finished, the ones refused while the pool stops, the ones in the hands of
    a goroutine and the ones in the cells of the queues, each counted once; no
    task is refused before Stop; and every shard hands its tasks to workers
    first in, first out, a worker at position [pos] holding the [pos]-th task
    queued. *)
Theorem tasks_run_once {T} (key : T -> Z) procs capacity es st :
  capacity <= 2 ^ 62 -> Z.of_nat (length es) < 2 ^ 62 -> runs key es (New procs capacity) = Some st ->
  submitted (mem st) ≡ₚ ran (mem st) ++ dropped (mem st) ++ (threads st ≫= hands) ++ queued_tasks (mem st) /\
  (dropped (mem st) <> [] -> stopped (mem st) = true) /\
  forall s, (s < Z.to_nat (4 * Z.max procs 1))%nat ->
    served (sh (mem st) s) `prefix_of` pushed (sh (mem st) s) /\
    forall i th pos t, threads st !! i = Some th -> popping th = Some (s, PopFree pos t) ->
      served (sh (mem st) s) !! Z.to_nat pos = Some t.
Proof.
  intros Hc Hl Hr. destruct (ringCapacity_pow capacity Hc) as (k & Hk & Ek).
  destruct (system_ok key k Hk procs capacity es st Ek Hl Hr) as [Hok [H1 H2 H3]].
  split_and!; [done|done|]. intros s Hs. destruct (g_ring _ _ _ _ _ Hok s Hs) as [Hring _].
  pose proof (r_served _ _ _ Hring) as Es. split; [rewrite Es; by eexists; rewrite take_drop|].
  intros i th pos t Hi Hp.
  destruct (r_claims _ _ _ Hring (CFree pos t)) as (Hpos & Hz & _ & Hl').
  { exists i, th. split; [done|]. unfold holds. by rewrite (popping_alone key th s _ Hp), Hp, decide_True. }
  rewrite Es, lookup_take_lt by lia. done.
Qed.

(** A run of one P with queues of two: three tasks queued, one of them on a
    goroutine of its own because its shard was full, a worker and that
    goroutine in the middle of their tasks. *)
Definition overflow_run : list (event (T:=Z)) :=
  let steps i n := replicate n (EStep i) in
  [ECall (CallSubmit 10)] ++ steps 0%nat 13%nat ++ [ECall (CallSubmit 11)] ++ steps 2%nat 9%nat ++
  [ECall (CallSubmit 12)] ++ steps 3%nat 5%nat ++ steps 1%nat 8%nat ++ [ECall (CallSubmit 13)] ++ steps 5%nat 7%nat ++
  [ETask 4 false] ++ steps 4%nat 5%nat ++ steps 1%nat 1%nat ++ steps 5%nat 1%nat.

Lemma tasks_run_once_witness :
  match runs id overflow_run (New 1 2) with
  | Some st => ran (mem st) = [Some 12] /\ submitted (mem st) = [Some 10; Some 11; Some 12; Some 13] /\
      submitted (mem st) ≡ₚ ran (mem st) ++ dropped (mem st) ++ (threads st ≫= hands) ++ queued_tasks (mem st)
  | None => False
  end.
Proof.
  destruct (runs id overflow_run (New 1 2)) as [st|] eqn:E; [|vm_compute in E; discriminate].
  pose proof (tasks_run_once id 1 2 overflow_run st ltac:(lia) ltac:(cbn; lia) E) as (Hw & _).
  vm_compute in E. injection E as <-. split; [reflexivity|]. split; [reflexivity|exact Hw].
Defined.
