(* ===== verification/ShardCount.v ===== *)
(** * The pool's counts

    Every count the pool keeps is the number of goroutines at certain labels:
    the workers on their way to a shard, the ones draining it, the live ones,
    the ones a WaitGroup waits for, the idle ones.  A [meter] is one such
    count; [level] reads it from memory and [reads] from a goroutine, and every
    step keeps the two in balance. *)

From S2P Require Import Prelude Update ShardPool ShardFacts.
Local Open Scope Z_scope.

#[local] Arguments Nat.modulo _ _ : simpl never.
#[local] Arguments Nat.ltb _ _ : simpl never.

(** ** Sums *)

Fixpoint sumZ {A} (f : A -> Z) (l : list A) : Z := match l with [] => 0 | x :: l => f x + sumZ f l end.
Definition ind (P : Prop) `{Decision P} : Z := if decide P then 1 else 0.
Definition occ (w : nat) (l : list nat) : Z := sumZ (fun x => ind (x = w)) l.

Section Sums.
Context {A : Type} (f : A -> Z).

Lemma sumZ_app l1 l2 : sumZ f (l1 ++ l2) = sumZ f l1 + sumZ f l2.
Proof. induction l1; cbn; lia. Qed.
Lemma sumZ_alter g l i a : l !! i = Some a -> sumZ f (alter g i l) = sumZ f l - f a + f (g a).
Proof. revert i. induction l as [|x l IH]; intros [|i] Hi; cbn in *; simplify_eq; [lia|]. rewrite (IH i Hi). lia. Qed.
Lemma sumZ_insert l i a b : l !! i = Some a -> sumZ f (<[i := b]> l) = sumZ f l - f a + f b.
Proof. intros Hi. by rewrite list_insert_alter, (sumZ_alter _ _ _ a). Qed.
Lemma sumZ_ext g l : (forall i x, l !! i = Some x -> f x = g x) -> sumZ f l = sumZ g l.
Proof.
  induction l as [|x l IH]; cbn; intros H; [done|]. rewrite (H O x eq_refl), IH; [done|]. intros i y Hi. by apply (H (S i)).
Qed.
Lemma sumZ_alter_same g l i : (forall x, f (g x) = f x) -> sumZ f (alter g i l) = sumZ f l.
Proof. intros Hg. revert i. induction l as [|x l IH]; intros [|i]; cbn; try done; [by rewrite Hg|by rewrite IH]. Qed.
Lemma sumZ_nonneg l : (forall x, 0 <= f x) -> 0 <= sumZ f l.
Proof. intros Hf. induction l; cbn; [lia|]. specialize (Hf a). lia. Qed.
Lemma sumZ_pos l : 0 < sumZ f l -> exists i x, l !! i = Some x /\ 0 < f x.
Proof.
  induction l as [|x l IH]; cbn; intros H; [lia|]. destruct (decide (0 < f x)); [by exists O, x|].
  destruct IH as (i & y & ? & ?); [lia|]. by exists (S i), y.
Qed.
Lemma sumZ_ge l i x : (forall y, 0 <= f y) -> l !! i = Some x -> f x <= sumZ f l.
Proof.
  intros Hf. revert i. induction l as [|y l IH]; intros [|i] Hi; cbn in *; simplify_eq.
  - pose proof (sumZ_nonneg l Hf). lia.
  - specialize (IH i Hi). specialize (Hf y). lia.
Qed.
Lemma sumZ_ge2 l i j x y : (forall z, 0 <= f z) -> i <> j -> l !! i = Some x -> l !! j = Some y -> f x + f y <= sumZ f l.
Proof.
  intros Hf. revert i j. induction l as [|z l IH]; intros [|i] [|j] Hne Hi Hj; cbn in *; simplify_eq; try lia.
  - pose proof (sumZ_ge l j y Hf Hj). lia.
  - pose proof (sumZ_ge l i x Hf Hi). lia.
  - specialize (IH i j ltac:(lia) Hi Hj). specialize (Hf z). lia.
Qed.
End Sums.

Lemma ind_nonneg P `{Decision P} : 0 <= ind P.
Proof. unfold ind. case_decide; lia. Qed.
Lemma occ_nonneg w l : 0 <= occ w l.
Proof. apply sumZ_nonneg. intros. apply ind_nonneg. Qed.
Lemma occ_pos w l : 0 < occ w l <-> w ∈ l.
Proof.
  split.
  - intros (i & x & Hi & Hx)%sumZ_pos. unfold ind in Hx. case_decide; [subst; by eapply list_elem_of_lookup_2|lia].
  - intros [i Hi]%list_elem_of_lookup. pose proof (sumZ_ge (fun x => ind (x = w)) l i w (fun _ => ind_nonneg _) Hi) as H.
    unfold ind at 1 in H. rewrite decide_True in H by done. unfold occ. lia.
Qed.
Lemma occ_app w l1 l2 : occ w (l1 ++ l2) = occ w l1 + occ w l2.
Proof. apply sumZ_app. Qed.
Lemma occ_removelast w l x : last l = Some x -> occ w (removelast l) = occ w l - ind (x = w).
Proof.
  intros Hl. apply last_Some in Hl as [l' ->]. rewrite removelast_last, occ_app. cbn. lia.
Qed.
Lemma occ_take_drop w l c : occ w (drop c l) = occ w l - occ w (take c l).
Proof. rewrite <- (take_drop c l) at 2. rewrite occ_app. lia. Qed.

#[local] Arguments occ _ _ : simpl never.

Lemma occ_one w x : occ w [x] = ind (x = w).
Proof. unfold occ. cbn. lia. Qed.

(** ** Meters *)

Inductive meter : Type :=
| MComing (s : nat)     (* workers on their way to shard s *)
| MRunning (s : nat)    (* workers draining shard s *)
| MWorker (w : nat)     (* goroutines that are worker w *)
| MPark (w : nat)       (* worker w registered as idle, until it is woken *)
| MLive (s : nat)       (* live workers of shard s *)
| MWait                 (* the WaitGroup workers *)
| MOver                 (* the WaitGroup overflow *)
| MWatch.               (* the monitor, or a goroutine about to start it *)

#[export] Instance meter_eq_dec : EqDecision meter.
Proof. solve_decision. Defined.

Section Meters.
Context {T : Type} (key : T -> Z).
Implicit Types (m : pool T) (th : thread T) (x : meter).

(** One unit of meter [y]. *)
Definition one (y x : meter) : Z := ind (x = y).

Definition level m x : Z :=
  match x with
  | MComing s => coming (sh m s) - sumZ (fun o => ind (wake o = Some (Some s))) (objects m)
  | MRunning s => running (sh m s)
  | MWorker w => ind (w < length (objects m))%nat
  | MPark w => sumZ (fun y => occ w (idle y)) (shards m) + ind (wake (ob m w) <> None)
  | MLive s => live (sh m s) + sumZ (fun o => ind (home o = s /\ wake o = Some None)) (objects m)
  | MWait => workers m
  | MOver => overflow m
  | MWatch => Z.b2z (watching m)
  end.

(** The workers in hand, about to be sent their orders. *)
Definition holding (ws : list nat) x : Z := match x with MPark w => - occ w ws | _ => 0 end.

Definition wake_reads (a : wake_at) x : Z := match a with WakeSend w => holding [w] x | _ => 0 end.
Definition start_reads (j : nat) (a : start_at) x : Z :=
  match a with StartLock => 0 | _ => one (MLive j) x + one MWait x end.
Definition borrow_reads m (target : nat) (a : borrow_at) x : Z :=
  let at_ i := Nat.modulo (target + 1 + i) (length (shards m)) in
  match a with
  | BorrowWake i a => wake_reads a x
  | BorrowStart i a => start_reads (at_ i) a x
  end.
Definition find_reads m (s : nat) (a : find_at) x : Z :=
  match a with FindWake a => wake_reads a x | FindStart a => start_reads s a x | FindBorrow a => borrow_reads m s a x end.
Definition notify_reads m (s : nat) (a : notify_at) x : Z :=
  match a with
  | NotifyFind a => one (MComing s) x + find_reads m s a x
  | NotifyDrop => one (MComing s) x
  | _ => 0
  end.
Definition overflow_reads (a : runOverflow_at) x : Z := match a with OverflowLock => 0 | OverflowGo => one MOver x end.
Definition submit_reads m (a : submit_at) x : Z :=
  match a with SubmitOverflow _ a => overflow_reads a x | SubmitNotify s a => notify_reads m s a x | _ => 0 end.
Definition park_reads m (w : nat) (a : park_at) x : Z :=
  match a with
  | ParkLock => 0
  | ParkNotify a => one (MPark w) x + notify_reads m (home (ob m w)) a x
  | ParkServe i a => one (MPark w) x + notify_reads m i a x
  | _ => one (MPark w) x
  end.
Definition run_reads m (w s : nat) (a : run_at T) x : Z :=
  one (MWorker w) x + one MWait x +
  match a with RunDone => 0 | _ => one (MLive (home (ob m w))) x end +
  match a with
  | RunRunning => one (MComing s) x
  | RunArrived => one (MComing s) x + one (MRunning s) x
  | RunPop _ | RunMore _ _ | RunTask _ | RunDrained | RunGoexitComing => one (MRunning s) x
  | RunNotify _ a => one (MRunning s) x + notify_reads m s a x
  | RunAgain _ | RunDone => 0
  | RunAgainNotify a => notify_reads m s a x
  | RunPark a => park_reads m w a x
  | RunGoexitRunning => one (MComing s) x + one (MRunning s) x
  | RunGoexitGo => one (MComing s) x
  end.

Definition reads m th x : Z :=
  match th with
  | TSubmit _ a => submit_reads m a x
  | TSubmitBehind _ a =>
      match a with
      | SubmitBehindOverflow _ a => overflow_reads a x
      | SubmitBehindNotify s (BehindNotify a) => notify_reads m s a x
      | SubmitBehindNotify s (BehindWatch WatchGo) => one MWatch x
      | _ => 0
      end
  | TSubmitBatch a =>
      match a with
      | BatchOverflow _ _ _ _ a => overflow_reads a x
      | BatchNotify _ _ s a => notify_reads m s a x
      | BatchEach _ _ a => submit_reads m a x
      | _ => 0
      end
  | TRescue _ a =>
      match a with
      | RescueFind _ i a => one (MComing i) x + find_reads m i a x
      | RescueDrop _ i => one (MComing i) x
      | RescueNotify _ i a => notify_reads m i a x
      | _ => 0
      end
  | TStop a =>
      match a with
      | StopComing i w ws => holding (w :: ws) x
      | StopSend i w ws => holding (w :: ws) x + one (MComing i) x
      | _ => 0
      end
  | TWorker w s a => run_reads m w s a x
  | TLeft w => one (MWorker w) x
  | TOverflow _ _ => one MOver x
  | TMonitor a =>
      match a with
      | MonitorAny _ _ _ | MonitorCas _ => 0
      | MonitorNotify _ i _ a => one MWatch x + notify_reads m i a x
      | _ => one MWatch x
      end
  | TJanitor a =>
      match a with
      | JanitorShard _ _ (RetireSend ws) =>
          holding ws x - match x with MLive s => sumZ (fun w => ind (home (ob m w) = s)) ws | _ => 0 end
      | _ => 0
      end
  | _ => 0
  end.

(** What an operation does to the meters. *)
Definition delta (o : op T) m x : Z :=
  match o with
  | OComing s d => d * one (MComing s) x
  | ORunning s d => d * one (MRunning s) x
  | OUnpark s => match last (idle (sh m s)) with Some w => holding [w] x | None => 0 end
  | OSend w v => one (MPark w) x + match v with Some s => - one (MComing s) x | None => one (MLive (home (ob m w))) x end
  | OReceive w =>
      match wake (ob m w) with
      | Some v => - one (MPark w) x + match v with Some s => one (MComing s) x | None => - one (MLive (home (ob m w))) x end
      | None => 0
      end
  | OStart s => one (MLive s) x + one MWait x
  | OGoWorker _ _ => one (MWorker (length (objects m))) x
  | OPark w => one (MPark w) x
  | OLeave w => - one (MLive (home (ob m w))) x
  | OWorkersDone => - one MWait x
  | OOverflowAdd => one MOver x
  | OOverflowDone => - one MOver x
  | ORetire s c => holding (take c (idle (sh m s))) x - Z.of_nat c * one (MLive s) x
  | OTakeIdle s => holding (idle (sh m s)) x
  | OWatching b => (Z.b2z b - Z.b2z (watching m)) * one MWatch x
  | _ => 0
  end.

(** When an operation may be performed: its shard and its worker exist, and a
    channel that is sent to is empty. *)
Definition op_pre (o : op T) m : Prop :=
  match o with
  | OComing s _ | ORunning s _ | OStart s | OTakeIdle s => (s < length (shards m))%nat
  | OUnpark s => (s < length (shards m))%nat /\ idle (sh m s) <> []
  | ORetire s c => (s < length (shards m))%nat /\ (c <= length (idle (sh m s)))%nat
  | OSend w _ => (w < length (objects m))%nat /\ wake (ob m w) = None
  | OPark w => (w < length (objects m))%nat /\ (home (ob m w) < length (shards m))%nat
  | OLeave w => (home (ob m w) < length (shards m))%nat
  | _ => True
  end.

Lemma shards_sum m f g s : (s < length (shards m))%nat ->
  sumZ f (alter g s (shards m)) = sumZ f (shards m) - f (sh m s) + f (g (sh m s)).
Proof.
  intros Hs. destruct (lookup_lt_is_Some_2 _ _ Hs) as [y Hy]. rewrite (sumZ_alter f g _ _ y Hy). unfold sh. by rewrite nth_lookup, Hy.
Qed.
Lemma objects_sum m f g w : (w < length (objects m))%nat ->
  sumZ f (alter g w (objects m)) = sumZ f (objects m) - f (ob m w) + f (g (ob m w)).
Proof.
  intros Hs. destruct (lookup_lt_is_Some_2 _ _ Hs) as [y Hy]. rewrite (sumZ_alter f g _ _ y Hy). unfold ob. by rewrite nth_lookup, Hy.
Qed.

(** A shard's counters change, its idle workers do not. *)
Lemma level_onShard m s f x : (s < length (shards m))%nat -> (forall y, idle (f y) = idle y) ->
  level (onShard s f m) x = level m x +
    match x with
    | MComing s' => if decide (s' = s) then coming (f (sh m s)) - coming (sh m s) else 0
    | MRunning s' => if decide (s' = s) then running (f (sh m s)) - running (sh m s) else 0
    | MLive s' => if decide (s' = s) then live (f (sh m s)) - live (sh m s) else 0
    | _ => 0
    end.
Proof.
  intros Hs Hf. destruct x; cbn [level]; rewrite ?sh_onShard by done; unfold onShard; cbn [objects shards workers overflow over over_shards].
  - case_decide; subst; lia.
  - case_decide; subst; lia.
  - change (objects _) with (objects m). lia.
  - rewrite shards_sum by done. rewrite Hf. change (ob _ w) with (ob m w). lia.
  - case_decide; subst; lia.
  - lia.
  - lia.
  - cbn. lia.
Qed.

Lemma level_idle m s f x : (s < length (shards m))%nat ->
  (forall y, coming (f y) = coming y /\ running (f y) = running y) ->
  level (onShard s f m) x = level m x +
    match x with
    | MPark w => occ w (idle (f (sh m s))) - occ w (idle (sh m s))
    | MLive s' => if decide (s' = s) then live (f (sh m s)) - live (sh m s) else 0
    | _ => 0
    end.
Proof.
  intros Hs Hf. destruct (Hf (sh m s)) as [E1 E2].
  destruct x; cbn [level]; rewrite ?sh_onShard by done; unfold onShard; cbn [objects shards workers overflow over over_shards].
  - case_decide; subst; lia.
  - case_decide; subst; lia.
  - change (objects _) with (objects m). lia.
  - rewrite shards_sum by done. change (ob _ w) with (ob m w). lia.
  - case_decide; subst; lia.
  - lia.
  - lia.
  - cbn. lia.
Qed.

Lemma sh_onWorker m w f s : sh (onWorker w f m) s = sh m s.
Proof. done. Qed.

(** A worker's channel changes. *)
Lemma level_wake m w v x : (w < length (objects m))%nat ->
  level (onWorker w (fun y => y <| wake := v |>) m) x = level m x +
    match x with
    | MComing s => ind (wake (ob m w) = Some (Some s)) - ind (v = Some (Some s))
    | MPark w' => if decide (w' = w) then ind (v <> None) - ind (wake (ob m w) <> None) else 0
    | MLive s => ind (home (ob m w) = s /\ v = Some None) - ind (home (ob m w) = s /\ wake (ob m w) = Some None)
    | _ => 0
    end.
Proof.
  intros Hw. destruct x; cbn [level]; rewrite ?sh_onWorker, ?ob_onWorker by done; unfold onWorker; cbn [objects shards workers overflow over over_objects].
  - rewrite objects_sum by done. cbn. lia.
  - lia.
  - rewrite length_alter. lia.
  - change (shards _) with (shards m). case_decide; subst; cbn; lia.
  - rewrite objects_sum by done. cbn. lia.
  - lia.
  - lia.
  - cbn. lia.
Qed.

Lemma level_parked m w c x : level (onWorker w (fun y => y <| parked := c |>) m) x = level m x.
Proof.
  destruct x; cbn [level]; unfold onWorker; cbn [objects shards workers overflow over over_objects].
  - by rewrite sumZ_alter_same.
  - done.
  - by rewrite length_alter.
  - f_equal. f_equal. unfold ob. cbn. rewrite !nth_lookup, list_lookup_alter. case_decide; [|done]. subst. by destruct (objects m !! w0).
  - by rewrite sumZ_alter_same.
  - done.
  - done.
  - done.
Qed.

Lemma one_spec y x : one y x = if decide (x = y) then 1 else 0.
Proof. done. Qed.

Ltac meters := unfold one, ind, holding; cbn; repeat case_decide; simplify_eq; first [lia|congruence|exfalso; naive_solver].

Lemma level_same m s f x :
  (forall y, coming (f y) = coming y /\ running (f y) = running y /\ live (f y) = live y /\ idle (f y) = idle y) ->
  level (onShard s f m) x = level m x.
Proof.
  intros Hf. destruct (decide (s < length (shards m))%nat) as [Hs|Hs].
  - rewrite level_onShard by (done || apply Hf). destruct (Hf (sh m s)) as (-> & -> & -> & _). destruct x; try case_decide; lia.
  - by rewrite onShard_beyond by lia.
Qed.

Lemma level_workers m f x : level (m <| workers ::= f |>) x = match x with MWait => f (workers m) | _ => level m x end.
Proof. by destruct x. Qed.
Lemma level_overflow m f x : level (m <| overflow ::= f |>) x = match x with MOver => f (overflow m) | _ => level m x end.
Proof. by destruct x. Qed.

Lemma level_watching m b x : level (m <| watching := b |>) x = match x with MWatch => Z.b2z b | _ => level m x end.
Proof. by destruct x. Qed.

Lemma level_exec o m x : op_pre o m -> level (exec o m) x = level m x + delta o m x.
Proof.
  intros Hpre. assert (Hid : level m x = level m x + 0) by lia.
  destruct o; cbn [exec delta op_pre] in *; try exact Hid; try (rewrite level_same by done; exact Hid).
  - rewrite level_onShard by done. destruct x; meters.
  - rewrite level_onShard by done. destruct x; meters.
  - destruct Hpre as [Hpre _]. rewrite level_idle by done. destruct (last (idle (sh m s))) as [w|] eqn:El.
    + destruct x; cbn; try lia; [rewrite (occ_removelast _ _ w), occ_one by done; lia|case_decide; lia].
    + apply last_None in El. destruct x; cbn; try lia; [rewrite El; cbn; lia|case_decide; lia].
  - destruct Hpre as [Hw Ew]. rewrite level_wake, Ew by done. destruct x, v as [s'|]; meters.
  - destruct (wake (ob m w)) as [v|] eqn:Ew.
    + assert (Hw : (w < length (objects m))%nat).
      { destruct (decide (w < length (objects m))%nat) as [|Hw]; [done|]. unfold ob in Ew. by rewrite nth_overflow in Ew by lia. }
      rewrite level_wake, Ew by done. destruct x, v as [s'|]; meters.
    + destruct (decide (w < length (objects m))%nat) as [Hw|Hw].
      * rewrite level_wake, Ew by done. destruct x; meters.
      * rewrite onWorker_beyond by lia. lia.
  - rewrite level_workers. destruct x; try (rewrite level_onShard by done); meters.
  - assert (Es : forall s', sh (m <| objects ::= fun l => l ++ [MkWorker s None 0] |>) s' = sh m s') by done.
    destruct x; cbn [level]; rewrite ?Es; unfold one; cbn [objects over over_objects]; rewrite ?sumZ_app, ?length_app; cbn [length sumZ wake home].
    + meters.
    + meters.
    + destruct (decide (w = length (objects m))) as [->|]; meters.
    + change (shards _) with (shards m). assert (E : wake (ob (m <| objects ::= fun l => l ++ [MkWorker s None 0] |>) w) = wake (ob m w)); [|rewrite E; meters].
      unfold ob. cbn. rewrite !nth_lookup. destruct (decide (w < length (objects m))%nat).
      * by rewrite lookup_app_l by done.
      * rewrite (lookup_ge_None_2 (objects m)) by lia. rewrite lookup_app_r by lia. by destruct (w - length (objects m))%nat as [|[]].
    + meters.
    + meters.
    + meters.
    + meters.
  - rewrite level_watching. destruct x; unfold one, ind; case_decide; simplify_eq; cbn [level]; lia.
  - destruct Hpre as [Hw Hh]. rewrite level_idle by done. rewrite level_parked. rewrite sh_onWorker. destruct x; cbn; unfold one; try (rewrite occ_app, occ_one); meters.
  - rewrite level_onShard by done. destruct x; meters.
  - rewrite level_workers. destruct x; meters.
  - rewrite level_overflow. destruct x; meters.
  - rewrite level_overflow. destruct x; meters.
  - destruct Hpre as [Hpre _]. rewrite level_idle by done. destruct x; cbn; unfold one, holding; try (rewrite occ_take_drop); meters.
  - rewrite level_idle by done. destruct x; cbn; unfold one, holding; try (change (occ w []) with 0); meters.
  - destruct tier; exact Hid.
Qed.

(** ** Workers a goroutine names *)

Definition wake_ids (a : wake_at) : list nat := match a with WakeSend w => [w] | _ => [] end.
Definition find_ids (a : find_at) : list nat :=
  match a with FindWake a | FindBorrow (BorrowWake _ a) => wake_ids a | _ => [] end.
Definition notify_ids (a : notify_at) : list nat := match a with NotifyFind a => find_ids a | _ => [] end.
Definition submit_ids (a : submit_at) : list nat := match a with SubmitNotify _ a => notify_ids a | _ => [] end.
Definition park_ids (a : park_at) : list nat := match a with ParkNotify a | ParkServe _ a => notify_ids a | _ => [] end.
Definition ids th : list nat :=
  match th with
  | TSubmit _ a => submit_ids a
  | TSubmitBehind _ (SubmitBehindNotify _ (BehindNotify a)) => notify_ids a
  | TSubmitBatch (BatchNotify _ _ _ a) => notify_ids a
  | TSubmitBatch (BatchEach _ _ a) => submit_ids a
  | TRescue _ (RescueFind _ _ a) => find_ids a
  | TRescue _ (RescueNotify _ _ a) => notify_ids a
  | TStop (StopComing _ w ws) | TStop (StopSend _ w ws) => w :: ws
  | TWorker w _ a => w :: match a with RunNotify _ a | RunAgainNotify a => notify_ids a | RunPark a => park_ids a | _ => [] end
  | TLeft w => [w]
  | TMonitor (MonitorNotify _ _ _ a) => notify_ids a
  | TJanitor (JanitorShard _ _ (RetireSend ws)) => ws
  | _ => []
  end.

Definition known m (ws : list nat) : Prop := Forall (fun w => (w < length (objects m))%nat) ws.
Definition idle_known m : Prop := forall s, known m (idle (sh m s)).

Definition res_pre {L A} m (r : res T L A) : Prop := match r with Go o _ | Back o _ => op_pre o m | Block => True end.

Lemma res_pre_call {L A L' A'} m (r : res T L A) (f : L -> L') (g : A -> L' + A') : res_pre m r -> res_pre m (call r f g).
Proof. destruct r as [| |]; cbn; try done. by destruct (g a). Qed.
Lemma res_pre_onward {L A} m (r : res T L A) inside ret o th' : res_pre m r -> onward inside ret r = Some (o, th') -> op_pre o m.
Proof. destruct r; cbn; intros; by simplify_eq. Qed.

Lemma known_one m w : known m [w] <-> (w < length (objects m))%nat.
Proof. unfold known. rewrite Forall_singleton. done. Qed.
Lemma known_cons m w ws : known m (w :: ws) <-> (w < length (objects m))%nat /\ known m ws.
Proof. unfold known. by rewrite Forall_cons. Qed.

Lemma expired_bound m d ws : (expired m d ws <= length ws)%nat.
Proof. induction ws; cbn; [lia|]. case_match; lia. Qed.
Lemma expired_prefix m d ws : (expired m d (removelast ws) <= length ws)%nat.
Proof. pose proof (expired_bound m d (removelast ws)) as Hb. rewrite removelast_firstn_len, length_take in Hb. rewrite removelast_firstn_len. lia. Qed.

Lemma hasTask_pre m s a : res_pre m (hasTask s a m).
Proof. by destruct a. Qed.
Lemma push_pre m s t a : res_pre m (push s t a m).
Proof. destruct a; cbn; by repeat case_match. Qed.
Lemma pop_pre m s a : res_pre m (pop s a m).
Proof. destruct a; cbn; by repeat case_match. Qed.
Lemma wakeIdle_pre m j s a : (j < length (shards m))%nat -> known m (wake_ids a) -> res_pre m (wakeIdle j s a m).
Proof.
  intros Hj Hk. destruct a; cbn; repeat case_match; try done.
  - split; [done|]. intros E. by rewrite E in *.
  - cbn in Hk. apply known_one in Hk. done.
Qed.
Lemma start_pre m j s a : (j < length (shards m))%nat -> res_pre m (start j s a m).
Proof. intros. destruct a; cbn; by try case_match. Qed.
Lemma find_pre m s a : (s < length (shards m))%nat -> known m (find_ids a) -> res_pre m (find s a m).
Proof.
  intros Hs Hk. destruct a as [a|a|[i a|i a]]; cbn [find]; apply res_pre_call; [by apply wakeIdle_pre|by apply start_pre|..]; cbn [borrow];
    assert (Nat.modulo (s + 1 + i) (length (shards m)) < length (shards m))%nat by (apply Nat.mod_upper_bound; lia);
    destruct (_ && _); try (repeat case_match; by simplify_eq); apply res_pre_call; [by apply wakeIdle_pre|by apply start_pre].
Qed.
Lemma notify_pre m s a : (s < length (shards m))%nat -> known m (notify_ids a) -> res_pre m (notify s a m).
Proof.
  intros Hs Hk. destruct a; cbn [notify]; try (repeat case_match; by cbn).
  - apply res_pre_call, hasTask_pre.
  - apply res_pre_call. by apply find_pre.
Qed.
Lemma runOverflow_pre m s t a : res_pre m (runOverflow s t a m).
Proof. destruct a; cbn; by try case_match. Qed.
Lemma Submit_pre m t a :
  submit_in (length (shards m)) a -> known m (submit_ids a) -> res_pre m (Submit key t a m).
Proof.
  intros Ha Hk. destruct a; cbn [Submit]; [done|apply res_pre_call, push_pre|apply res_pre_call, runOverflow_pre|].
  apply res_pre_call. by apply notify_pre.
Qed.
Lemma park_pre m w a : indices (length (shards m)) m -> (w < length (objects m))%nat ->
  park_in (length (shards m)) a -> known m (park_ids a) -> res_pre m (park w a m).
Proof.
  intros Hm Hw Ha Hk. pose proof (ob_home _ m w Hm). destruct a; cbn [park]; try (repeat case_match; by cbn).
  - apply res_pre_call, hasTask_pre.
  - apply res_pre_call. by apply notify_pre.
  - apply res_pre_call. by apply notify_pre.
Qed.

Lemma next_pre th m o th' :
  indices (length (shards m)) m -> thread_in (length (shards m)) th -> known m (ids th) ->
  next key th m = Some (o, th') -> op_pre o m.
Proof.
  intros Hm Hth Hk Hn. destruct th; cbn [next] in Hn; try (eapply res_pre_onward; [|exact Hn]); try done.
  - by apply Submit_pre.
  - cbn in Hth. destruct a; cbn [SubmitBehind]; [done|apply res_pre_call, push_pre|apply res_pre_call, runOverflow_pre|].
    apply res_pre_call. destruct a as [|a|a]; cbn [notifyBehind]; [done|destruct a; cbn; by try case_match|].
    apply res_pre_call. by apply notify_pre.
  - destruct a; cbn [SubmitBatch]; [by repeat case_match; simplify_eq/=|apply res_pre_call, push_pre|apply res_pre_call, runOverflow_pre|..].
    + apply res_pre_call. apply notify_pre; [apply Hth|done].
    + apply res_pre_call. by apply Submit_pre.
  - by simplify_eq.
  - by simplify_eq.
  - cbn in Hth. destruct a; cbn [Rescue rescue_in] in *; try (repeat case_match; by cbn);
      assert (i < length (shards m))%nat by lia; try done; apply res_pre_call; [apply hasTask_pre|by apply find_pre|by apply notify_pre].
  - cbn in Hth. destruct a; cbn [Stop stop_in] in *; try (repeat case_match; by cbn).
    + case_decide; [|done]. cbn in *. by apply known_cons in Hk as [? _].
    + apply res_pre_call, pop_pre.
  - destruct Hth as [Hs Ha]. apply known_cons in Hk as [Hw Hk]. destruct a; cbn [run]; try done; apply res_pre_call;
      auto using hasTask_pre, pop_pre, notify_pre, park_pre.
  - destruct a; cbn [overflowing]; try done. apply res_pre_call, pop_pre.
  - cbn in Hth. destruct a; cbn [monitor monitor_in] in *; try done; try (apply res_pre_call; auto using hasTask_pre).
    + apply notify_pre; [apply Hth|done].
    + by case_match.
    + by case_match.
  - cbn in Hth. destruct a as [| |now i a]; cbn [retireIdleWorkers]; try done. apply res_pre_call.
    destruct a as [| |[|w ws]]; cbn [retireIdle]; try done; [by case_match|split; [done|apply expired_prefix]|]. case_decide; [|done]. cbn in *. by apply known_cons in Hk as [? _].
Qed.

(** ** The balance of a step *)

Lemma exec_objects o m : (length (objects m) <= length (objects (exec o m)))%nat.
Proof. destruct o; cbn; rewrite ?length_alter, ?length_app; try lia. by destruct tier. Qed.

Lemma home_exec o m w : (w < length (objects m))%nat -> home (ob (exec o m) w) = home (ob m w).
Proof.
  intros Hw. assert (Ha : forall f i, (forall y, home (f y) = home y) -> home (nth w (alter f i (objects m)) worker0) = home (nth w (objects m) worker0)).
  { intros f i Hf. rewrite !nth_lookup, list_lookup_alter. case_decide; [|done]. subst. destruct (objects m !! w); cbn; [by rewrite Hf|done]. }
  destruct o; cbn [exec]; try done; unfold ob, onWorker, onShard; cbn; try (by apply Ha).
  - by rewrite app_nth1.
  - by destruct tier.
Qed.

Lemma find_reads_exec o m s a x : find_reads (exec o m) s a x = find_reads m s a x.
Proof. destruct a as [a|a|[i a|i a]]; cbn; unfold borrow_reads; by rewrite ?exec_length. Qed.
Lemma notify_reads_exec o m s a x : notify_reads (exec o m) s a x = notify_reads m s a x.
Proof. destruct a; cbn; by rewrite ?find_reads_exec. Qed.
Lemma submit_reads_exec o m a x : submit_reads (exec o m) a x = submit_reads m a x.
Proof. destruct a; cbn; by rewrite ?notify_reads_exec. Qed.

(** The workers whose homes a reading looks up. *)
Definition homes th : list nat :=
  match th with TWorker w _ _ => [w] | TJanitor (JanitorShard _ _ (RetireSend ws)) => ws | _ => [] end.

Lemma reads_exec o m th x : known m (homes th) -> reads (exec o m) th x = reads m th x.
Proof.
  intros Hk. destruct th; cbn [reads]; try done.
  - apply submit_reads_exec.
  - repeat case_match; try done. apply notify_reads_exec.
  - repeat case_match; try done; [apply notify_reads_exec|apply submit_reads_exec].
  - repeat case_match; try done; [by rewrite find_reads_exec|apply notify_reads_exec].
  - cbn in Hk. apply known_one in Hk as Hw. unfold run_reads. rewrite home_exec by done. f_equal.
    destruct a; cbn; rewrite ?notify_reads_exec; try done. destruct a; cbn; rewrite ?notify_reads_exec, ?home_exec; done.
  - repeat case_match; try done. by rewrite notify_reads_exec.
  - repeat case_match; try done; subst. cbn in Hk. f_equal. apply sumZ_ext. intros j w Hi. unfold known in Hk.
    rewrite Forall_lookup in Hk. by rewrite home_exec by (by eapply Hk).
Qed.

Definition spawned (o : op T) m x : Z := sumZ (fun th => reads (exec o m) th x) (starts o m).

(** A function at a label that reads [before] and then, inside, [inside] or,
    after it returned, [after]. *)
Definition balances {L A} m x (r : res T L A) (before : Z) (inside : L -> Z) (after : A -> Z) : Prop :=
  match r with
  | Go o l => delta o m x = inside l - before + spawned o m x
  | Back o a => delta o m x = after a - before + spawned o m x
  | Block => True
  end.

Lemma balances_call {L A L' A'} m x (r : res T L A) (f : L -> L') (g : A -> L' + A') before inside after before' inside' after' c :
  balances m x r before inside after ->
  before' = before + c ->
  (forall l, inside' (f l) = inside l + c) ->
  (forall a, match g a with inl l => inside' l | inr a' => after' a' end = after a + c) ->
  balances m x (call r f g) before' inside' after'.
Proof.
  intros Hr -> H1 H2. destruct r as [o l|o a|]; cbn in *; [rewrite H1; lia| |done].
  specialize (H2 a). destruct (g a); cbn; lia.
Qed.

Lemma hasTask_balances m x s a : balances m x (hasTask s a m) 0 (fun _ => 0) (fun _ => 0).
Proof. destruct a; cbn; lia. Qed.
Lemma push_balances m x s t a : balances m x (push s t a m) 0 (fun _ => 0) (fun _ => 0).
Proof. destruct a; cbn; repeat case_match; cbn; lia. Qed.
Lemma pop_balances m x s a : balances m x (pop s a m) 0 (fun _ => 0) (fun _ => 0).
Proof. destruct a; cbn; repeat case_match; cbn; lia. Qed.

Ltac metered := unfold one, ind, holding in *; cbn; rewrite ?occ_one; unfold ind; repeat case_decide; simplify_eq; first [lia|congruence|exfalso; naive_solver].

Lemma wakeIdle_balances m x j s a :
  balances m x (wakeIdle j s a m) (wake_reads a x) (fun a' => wake_reads a' x) (fun b => if b then - one (MComing s) x else 0).
Proof.
  destruct a; cbn [wakeIdle].
  - case_match; cbn; lia.
  - destruct (last (idle (sh m j))) as [w|] eqn:E; cbn; [rewrite E; unfold spawned; cbn; lia|lia].
  - case_decide; [|done]. cbn. destruct x; unfold spawned; metered.
Qed.

Lemma ob_new m s t : ob (exec (OGoWorker s t) m) (length (objects m)) = MkWorker s None 0.
Proof. unfold ob. cbn. rewrite app_nth2, Nat.sub_diag by lia. done. Qed.

Lemma start_balances m x j s a :
  balances m x (start j s a m) (start_reads j a x) (fun a' => start_reads j a' x) (fun b => if b then - one (MComing s) x else 0).
Proof.
  destruct a; cbn [start].
  - case_match; cbn; [lia|]. unfold spawned. cbn. case_match; cbn; lia.
  - cbn. unfold spawned. cbn. case_match; cbn; lia.
  - cbn [balances delta]. unfold spawned. cbn [starts sumZ reads]. unfold run_reads. rewrite ob_new by done. cbn. lia.
Qed.

Lemma balances_weaken {L A} m x (r : res T L A) b i1 i2 a1 a2 :
  balances m x r b i1 a1 -> (forall l, i1 l = i2 l) -> (forall a, a1 a = a2 a) -> balances m x r b i2 a2.
Proof. intros H E1 E2. destruct r; cbn in *; rewrite <- ?E1, <- ?E2; done. Qed.

Ltac plain := cbn; unfold spawned; cbn; lia.
Ltac through H c := apply (balances_call _ _ _ _ _ _ _ _ _ _ _ c H).

Lemma borrow_balances m x s a :
  balances m x (borrow s a m) (borrow_reads m s a x) (fun a' => borrow_reads m s a' x) (fun b => if b then - one (MComing s) x else 0).
Proof.
  destruct a as [i a|i a]; cbn [borrow].
  - set (next := if (S i <? length (shards m))%nat then BorrowWake (S i) WakeCount else BorrowStart 0 StartLock).
    assert (Hn : borrow_reads m s next x = 0) by (unfold next; by case_match).
    destruct (_ && _) eqn:E.
    + apply andb_prop in E as [_ E]. destruct a; try done. unfold balances. rewrite Hn. plain.
    + through (wakeIdle_balances m x (Nat.modulo (s + 1 + i) (length (shards m))) s a) 0; [cbn; lia|intros; cbn; lia|].
      intros []; [lia|]. rewrite Hn. lia.
  - set (next := if (S i <? length (shards m))%nat then inl (BorrowStart (S i) StartLock) else inr false : borrow_at + bool).
    assert (Hn : match next with inl l => borrow_reads m s l x | inr b => if b then - one (MComing s) x else 0 end = 0).
    { unfold next. by destruct (S i <? length (shards m))%nat. }
    destruct (_ && _) eqn:E.
    + apply andb_prop in E as [_ E]. destruct a; try done. destruct next; cbn -[borrow_reads]; rewrite Hn; plain.
    + through (start_balances m x (Nat.modulo (s + 1 + i) (length (shards m))) s a) 0; [cbn; lia|intros; cbn; lia|].
      intros []; [lia|]. rewrite Hn. lia.
Qed.

Lemma find_balances m x s a :
  balances m x (find s a m) (find_reads m s a x) (fun a' => find_reads m s a' x) (fun b => if b then - one (MComing s) x else 0).
Proof.
  destruct a as [a|a|a]; cbn [find].
  - apply (balances_call m x _ _ _ _ _ _ _ _ _ 0 (wakeIdle_balances m x s s a)); [cbn; lia|intros; cbn; lia|intros []; cbn; lia].
  - apply (balances_call m x _ _ _ _ _ _ _ _ _ 0 (start_balances m x s s a)); [cbn; lia|intros; cbn; lia|].
    intros []; cbn; lia.
  - apply (balances_call m x _ _ _ _ _ _ _ _ _ 0 (borrow_balances m x s a)); [cbn; lia|intros; cbn; lia|intros []; cbn; lia].
Qed.

Lemma notify_balances m x s a :
  balances m x (notify s a m) (notify_reads m s a x) (fun a' => notify_reads m s a' x) (fun _ => 0).
Proof.
  destruct a; cbn [notify].
  - apply (balances_call m x _ _ _ _ _ _ _ _ _ 0 (hasTask_balances m x s a)); [done|done|by intros []].
  - by case_match.
  - case_match; cbn; unfold spawned; cbn; lia.
  - apply (balances_call m x _ _ _ _ _ _ _ _ _ (one (MComing s) x) (find_balances m x s a)); [cbn; lia|intros; cbn; lia|intros []; cbn; lia].
  - cbn. unfold spawned. cbn. lia.
  - by case_match.
  - done.
  - by repeat case_match.
Qed.

Lemma runOverflow_balances m x s t a : balances m x (runOverflow s t a m) (overflow_reads a x) (fun a' => overflow_reads a' x) (fun _ => 0).
Proof. destruct a; cbn; [case_match; cbn|]; unfold spawned; cbn; lia. Qed.

Lemma Submit_balances m x t a : balances m x (Submit key t a m) (submit_reads m a x) (fun a' => submit_reads m a' x) (fun _ => 0).
Proof.
  destruct a; cbn [Submit].
  - done.
  - apply (balances_call m x _ _ _ _ _ _ _ _ _ 0 (push_balances m x s t a)); [done|done|by intros []].
  - apply (balances_call m x _ _ _ _ _ _ _ _ _ 0 (runOverflow_balances m x s t a)); [cbn; lia|intros; cbn; lia|done].
  - apply (balances_call m x _ _ _ _ _ _ _ _ _ 0 (notify_balances m x s a)); [cbn; lia|intros; cbn; lia|done].
Qed.

Lemma park_balances m x w a :
  balances m x (park w a m) (park_reads m w a x + one (MLive (home (ob m w))) x)
    (fun a' => park_reads m w a' x + one (MLive (home (ob m w))) x)
    (fun r => match r with Some s => one (MLive (home (ob m w))) x + one (MComing s) x | None => 0 end).
Proof.
  destruct a; cbn [park].
  - case_match; cbn; unfold spawned; cbn; lia.
  - apply (balances_call m x _ _ _ _ _ _ _ _ _ (one (MPark w) x + one (MLive (home (ob m w))) x) (hasTask_balances m x _ a)); [cbn; lia|intros; cbn; lia|].
    intros []; cbn; lia.
  - apply (balances_call m x _ _ _ _ _ _ _ _ _ (one (MPark w) x + one (MLive (home (ob m w))) x) (notify_balances m x _ a)); [cbn; lia|intros; cbn; lia|].
    intros; cbn; lia.
  - case_match; cbn; unfold spawned; cbn; lia.
  - case_match; cbn; unfold spawned; cbn; lia.
  - apply (balances_call m x _ _ _ _ _ _ _ _ _ (one (MPark w) x + one (MLive (home (ob m w))) x) (notify_balances m x i a)); [cbn; lia|intros; cbn; lia|].
    intros b. case_match; cbn; lia.
  - destruct (wake (ob m w)) as [v|] eqn:E; cbn; [|done]. rewrite E. unfold spawned. cbn. destruct v; lia.
Qed.

Lemma run_balances m x w s a :
  balances m x (run w s a m) (run_reads m w s a x) (fun l => run_reads m w l.1 l.2 x) (fun left : bool => if left then one (MWorker w) x else 0).
Proof.
  unfold run_reads. set (c := one (MWorker w) x + one MWait x). set (h := one (MLive (home (ob m w))) x).
  destruct a; cbn [run]; try (cbn; unfold spawned; cbn; unfold run_reads, c, h; lia).
  - apply (balances_call m x _ _ _ _ _ _ _ _ _ (c + h + one (MRunning s) x) (pop_balances m x s a)); [cbn; lia|intros; cbn; lia|intros []; cbn; lia].
  - apply (balances_call m x _ _ _ _ _ _ _ _ _ (c + h + one (MRunning s) x) (hasTask_balances m x s a)); [cbn; lia|intros; cbn; lia|intros []; cbn; lia].
  - apply (balances_call m x _ _ _ _ _ _ _ _ _ (c + h + one (MRunning s) x) (notify_balances m x s a)); [cbn; lia|intros; cbn; lia|intros; cbn; lia].
  - apply (balances_call m x _ _ _ _ _ _ _ _ _ (c + h) (hasTask_balances m x s a)); [cbn; lia|intros; cbn; lia|intros []; cbn; lia].
  - apply (balances_call m x _ _ _ _ _ _ _ _ _ (c + h) (notify_balances m x s a)); [cbn; lia|intros; cbn; lia|intros; cbn; lia].
  - apply (balances_call m x _ _ _ _ _ _ _ _ _ c (park_balances m x w a)); [cbn; lia|intros; cbn; lia|].
    intros [s'|]; cbn; lia.
Qed.

(** Every idle worker of a shard is one of its own. *)
Definition idle_home m : Prop := forall s w, w ∈ idle (sh m s) -> home (ob m w) = s.

Lemma holding_cons w ws x : holding (w :: ws) x = holding ws x - one (MPark w) x.
Proof.
  destruct x; cbn; unfold one, ind; try (case_decide; [done|lia]). change (w :: ws) with ([w] ++ ws). rewrite occ_app, occ_one. unfold ind.
  repeat case_decide; simplify_eq; try lia; congruence.
Qed.

Lemma sumZ_const {A} (v : Z) (l : list A) : sumZ (fun _ => v) l = Z.of_nat (length l) * v.
Proof. induction l as [|y l IH]; cbn [sumZ length]; [lia|]. rewrite IH, Nat2Z.inj_succ, Z.mul_succ_l. lia. Qed.

Lemma retireIdle_balances m x s d a : idle_home m -> 
  let rd a := match a with RetireSend ws => holding ws x - match x with MLive s' => sumZ (fun w => ind (home (ob m w) = s')) ws | _ => 0 end | _ => 0 end in
  balances m x (retireIdle s d a m) (rd a) rd (fun _ => 0).
Proof.
  intros Hh rd. destruct a as [| |[|w ws]]; cbn [retireIdle].
  - by case_match.
  - set (c := expired m d (removelast (idle (sh m s)))). cbn. unfold spawned. cbn.
    assert (Hc : (c <= length (idle (sh m s)))%nat) by apply expired_prefix.
    assert (Hs : forall s', sumZ (fun w => ind (home (ob m w) = s')) (take c (idle (sh m s))) = Z.of_nat c * ind (s = s')).
    { intros s'. rewrite (sumZ_ext _ (fun _ => ind (s = s'))).
      - rewrite sumZ_const, length_take. f_equal. lia.
      - intros i w Hi. apply list_elem_of_lookup_2, elem_of_take in Hi as (j & Hi & _). by rewrite (Hh s w) by (by eapply list_elem_of_lookup_2). }
    destruct x; cbn; try rewrite Hs; unfold one, ind; repeat case_decide; simplify_eq; lia || congruence.
  - destruct x; cbn; unfold occ; cbn; lia.
  - case_decide; [|done]. cbn [balances delta rd]. rewrite holding_cons. unfold spawned. cbn [starts sumZ].
    destruct x; unfold one, ind; repeat case_decide; simplify_eq; lia || congruence.
Qed.

Lemma balances_onward {L A} m x (r : res T L A) inside ret o th' before (i : L -> Z) (a : A -> Z) :
  balances m x r before i a -> onward inside ret r = Some (o, th') ->
  (forall l, reads m (inside l) x = i l) -> (forall v, reads m (ret v) x = a v) ->
  delta o m x = reads m th' x - before + spawned o m x.
Proof. destruct r; cbn; intros H E H1 H2; simplify_eq; rewrite ?H1, ?H2; done. Qed.


Lemma notifyTouched_reads m i ws x : reads m (match notifyTouched (T:=T) i ws with inl l => TSubmitBatch l | inr b => TEnd b end) x = 0.
Proof. unfold notifyTouched. by repeat case_match; simplify_eq/=. Qed.
Lemma batchNext_reads m n ts ws x : reads m (match batchNext (T:=T) n ts ws with inl l => TSubmitBatch l | inr b => TEnd b end) x = 0.
Proof. destruct ts; [apply notifyTouched_reads|done]. Qed.
Lemma batchEach_reads m (ts : list T) x : reads m (match batchEach ts with inl l => TSubmitBatch l | inr b => TEnd b end) x = 0.
Proof. by destruct ts. Qed.

Lemma notifyBehind_balances m x s t a :
  balances m x (notifyBehind s a m) (reads m (TSubmitBehind t (SubmitBehindNotify s a)) x)
    (fun a' => reads m (TSubmitBehind t (SubmitBehindNotify s a')) x) (fun _ => 0).
Proof.
  destruct a as [|a|a]; cbn [notifyBehind].
  - cbn -[reads]. case_match; plain.
  - destruct a; cbn -[Z.mul]; [case_match; plain|destruct (watching m) eqn:E; cbn -[Z.mul]; [plain|rewrite E; unfold spawned; cbn -[Z.mul]; lia]|plain].
  - through (notify_balances m x s a) 0; [cbn; lia|intros; cbn; lia|done].
Qed.

Lemma Rescue_balances m x now a :
  balances m x (Rescue now a m) (reads m (TRescue now a) x) (fun a' => reads m (TRescue now a') x) (fun _ => 0).
Proof.
  assert (Hnext : forall n i b, reads m (TRescue now (if (S i <? n)%nat then RescueHead n (S i) b else RescueEnd b)) x = 0)
    by (intros; by case_match).
  destruct a; cbn [Rescue].
  all: try (repeat case_match; cbn -[reads]; rewrite ?Hnext; unfold spawned; cbn; lia).
  - through (hasTask_balances m x i a) 0; [done|done|done].
  - through (find_balances m x i a) (one (MComing i) x); [cbn; lia|intros; cbn; lia|]. intros []; [rewrite Hnext; lia|cbn; lia].
  - through (notify_balances m x i a) 0; [cbn; lia|intros; cbn; lia|]. intros b. by rewrite Hnext.
Qed.

Lemma Stop_balances m x a :
  balances m x (Stop a m) (reads m (TStop a) x) (fun a' => reads m (TStop a') x) (fun _ => 0).
Proof.
  assert (Hnext : forall n i, reads m (TStop (stopNext n i)) x = 0) by (intros; unfold stopNext; by case_match).
  assert (Hsend : forall n i ws, reads m (TStop (stopSend n i ws)) x = holding ws x).
  { intros n i [|w ws]; [|done]. unfold stopSend. rewrite Hnext. by destruct x. }
  destruct a; cbn [Stop].
  - case_match; plain.
  - plain.
  - cbn -[reads]. rewrite Hsend. plain.
  - plain.
  - case_decide; [|done]. cbn -[reads]. rewrite Hsend. cbn [reads]. rewrite holding_cons. unfold spawned. cbn. lia.
  - case_match; [plain|done].
  - case_match; [plain|done].
  - through (pop_balances m x i a) 0; [done|done|]. intros []; [done|]. by destruct (S i <? length (shards m))%nat.
  - done.
Qed.

Lemma monitor_balances m x a :
  (forall v l, a = MonitorStop v l -> watching m = true) ->
  balances m x (monitor a m) (reads m (TMonitor a) x) (fun a' => reads m (TMonitor a') x) (fun _ => 0).
Proof.
  intros Hw.
  assert (Hnext : forall n i h v, reads m (TMonitor (monitorNext n i h v)) x = one MWatch x) by (intros; unfold monitorNext; by repeat case_match).
  destruct a; cbn [monitor].
  - cbn -[reads]. case_match; plain.
  - done.
  - plain.
  - through (hasTask_balances m x i a) (one MWatch x); [cbn; lia|intros; cbn; lia|].
    intros []; [case_match; [cbn; lia|]|]; rewrite Hnext; lia.
  - through (notify_balances m x i a) (one MWatch x); [cbn; lia|intros; cbn; lia|]. intros. rewrite Hnext. lia.
  - specialize (Hw v _ eq_refl). case_match; cbn -[Z.mul]; rewrite Hw; unfold spawned; cbn -[Z.mul]; lia.
  - through (hasTask_balances m x i a) 0; [done|done|]. intros []; [done|]. by destruct (S i <? length (shards m))%nat.
  - destruct (watching m) eqn:E; cbn -[Z.mul]; [plain|]. rewrite E. unfold spawned. cbn -[Z.mul]. lia.
Qed.

Lemma SubmitBatch_balances m x a :
  balances m x (SubmitBatch key a m) (reads m (TSubmitBatch a) x) (fun a' => reads m (TSubmitBatch a') x) (fun _ => 0).
Proof.
  pose proof (batchNext_reads m) as Hb. pose proof (batchEach_reads m) as He. pose proof (notifyTouched_reads m) as Ht.
  destruct a as [ts|n t ts w a|n t ts w a|i w s a|t ts a]; cbn [SubmitBatch].
  - destruct (64 <? active m); [destruct (1024 <? active m)|].
    + specialize (He ts x). destruct (batchEach ts); cbn -[reads] in *; rewrite ?He; plain.
    + specialize (Hb (active m) ts (replicate 16 0) x). destruct (batchNext _ _ _); cbn -[reads] in *; rewrite ?Hb; plain.
    + specialize (Hb (active m) ts [0] x). destruct (batchNext _ _ _); cbn -[reads] in *; rewrite ?Hb; plain.
  - through (push_balances m x (shardOf key t n) t a) 0; [done|done|]. intros []; [|done].
    specialize (Hb n ts (touch (shardOf key t n) w) x). destruct (batchNext _ _ _); [by rewrite Hb|done].
  - through (runOverflow_balances m x (shardOf key t n) t a) 0; [cbn; lia|intros; cbn; lia|]. intros _.
    specialize (Hb n ts w x). destruct (batchNext _ _ _); [by rewrite Hb|done].
  - through (notify_balances m x s a) 0; [cbn; lia|intros; cbn; lia|]. intros _.
    specialize (Ht i w x). destruct (notifyTouched i w); [by rewrite Ht|done].
  - through (Submit_balances m x t a) 0; [cbn; lia|intros; cbn; lia|]. intros _.
    specialize (He ts x). destruct (batchEach ts); [by rewrite He|done].
Qed.

Lemma next_balance th m o th' x :
  idle_home m -> (forall v l, th = TMonitor (MonitorStop v l) -> watching m = true) ->
  next key th m = Some (o, th') -> delta o m x = reads m th' x - reads m th x + spawned o m x.
Proof.
  intros Hh Hw Hn. destruct th; cbn [next] in Hn; try done.
  - by eapply balances_onward; [apply Submit_balances|exact Hn|..].
  - eapply (balances_onward m x _ _ _ _ _ _ (fun l => reads m (TSubmitBehind t l) x) (fun _ => 0)); [|exact Hn|done|done].
    destruct a; cbn [SubmitBehind].
    + plain.
    + through (push_balances m x s t a) 0; [done|done|by intros []].
    + through (runOverflow_balances m x s t a) 0; [cbn; lia|intros; cbn; lia|done].
    + through (notifyBehind_balances m x s t a) 0; [lia|intros; lia|done].
  - by eapply balances_onward; [apply SubmitBatch_balances|exact Hn|..].
  - simplify_eq. plain.
  - simplify_eq. plain.
  - by eapply balances_onward; [apply Rescue_balances|exact Hn|..].
  - by eapply balances_onward; [apply Stop_balances|exact Hn|..].
  - eapply balances_onward; [apply run_balances|exact Hn|done|by intros []].
  - eapply (balances_onward m x _ _ _ _ _ _ (fun _ => one MOver x) (fun _ => 0)); [|exact Hn|done|by intros []].
    destruct a; cbn [overflowing]; [done| |plain].
    through (pop_balances m x s a) (one MOver x); [cbn; lia|intros; cbn; lia|intros []; cbn; lia].
  - eapply balances_onward; [apply monitor_balances|exact Hn|done|done]. intros v l ->. by eapply Hw.
  - eapply (balances_onward m x _ _ _ _ _ _ (fun l => reads m (TJanitor l) x) (fun _ => 0)); [|exact Hn|done|done].
    destruct a as [| |now i a]; cbn [retireIdleWorkers]; [done|plain|].
    through (retireIdle_balances m x i (now - idleTicks) a Hh) 0; [cbn; destruct a; lia|intros []; cbn; lia|]. intros _. by case_match.
Qed.

(** ** The invariant *)

(** The worker a goroutine is. *)
Definition being th : option nat := match th with TWorker w _ _ | TLeft w => Some w | _ => None end.

Lemma find_reads_worker m s a w : find_reads m s a (MWorker w) = 0.
Proof. destruct a as [[]|[]|[? []|? []]]; done. Qed.
Lemma notify_reads_worker m s a w : notify_reads m s a (MWorker w) = 0.
Proof. destruct a; cbn; rewrite ?find_reads_worker; done. Qed.
Lemma overflow_reads_worker a w : overflow_reads a (MWorker w) = 0.
Proof. by destruct a. Qed.
Lemma submit_reads_worker m a w : submit_reads m a (MWorker w) = 0.
Proof. destruct a as [| |? []|]; cbn; rewrite ?notify_reads_worker; done. Qed.

Lemma reads_worker m th w : reads m th (MWorker w) = ind (being th = Some w).
Proof.
  destruct th; cbn [reads being]; try (repeat case_match; rewrite ?submit_reads_worker, ?notify_reads_worker, ?find_reads_worker, ?overflow_reads_worker; done).
  - unfold run_reads. assert (E : forall a', park_reads m w0 a' (MWorker w) = 0) by (intros []; cbn; rewrite ?notify_reads_worker; done).
    unfold one at 1 2. destruct a; cbn; rewrite ?notify_reads_worker, ?E; unfold ind; repeat case_decide; simplify_eq; done.
  - unfold one, ind. repeat case_decide; simplify_eq; done.
Qed.

Lemma reads_worker_nonneg m th w : 0 <= reads m th (MWorker w).
Proof. rewrite reads_worker. apply ind_nonneg. Qed.

(** Only being idle is given up by others. *)
Definition counted (x : meter) : Prop := match x with MPark _ | MLive _ => False | _ => True end.

Lemma one_nonneg y x : 0 <= one y x.
Proof. apply ind_nonneg. Qed.

Ltac ones x :=
  repeat match goal with |- context [one ?y x] =>
    lazymatch goal with H : 0 <= one y x |- _ => fail | _ => pose proof (one_nonneg y x) end end; lia.

Lemma holding_counted ws x : counted x -> holding ws x = 0.
Proof. by destruct x. Qed.

Lemma find_reads_nonneg m s a x : counted x -> 0 <= find_reads m s a x.
Proof.
  intros Hx. destruct a as [[]|[]|[j []|j []]]; cbn -[one holding Nat.modulo]; rewrite ?holding_counted by done; ones x.
Qed.
Lemma notify_reads_nonneg m s a x : counted x -> 0 <= notify_reads m s a x.
Proof. intros Hx. destruct a; cbn -[one]; try pose proof (find_reads_nonneg m s a x Hx); ones x. Qed.
Lemma overflow_reads_nonneg a x : 0 <= overflow_reads a x.
Proof. destruct a; cbn -[one]; ones x. Qed.
Lemma submit_reads_nonneg m a x : counted x -> 0 <= submit_reads m a x.
Proof. intros Hx. destruct a; cbn -[one]; try lia; [apply overflow_reads_nonneg|by apply notify_reads_nonneg]. Qed.
Create HintDb counts.
#[local] Hint Resolve find_reads_nonneg notify_reads_nonneg overflow_reads_nonneg submit_reads_nonneg one_nonneg Z.add_nonneg_nonneg Z.le_refl : counts.

Lemma park_reads_nonneg m w a x : counted x -> 0 <= park_reads m w a x.
Proof. intros Hx. destruct a; cbn -[one]; auto with counts. Qed.
Lemma run_reads_wait m w s a x : counted x -> one MWait x <= run_reads m w s a x.
Proof.
  intros Hx. unfold run_reads. match goal with |- _ <= _ + _ + ?u + ?v => assert (0 <= u) by (destruct a; auto with counts);
    assert (0 <= v) by (destruct a; auto using park_reads_nonneg with counts) end. pose proof (one_nonneg (MWorker w) x). lia.
Qed.
Lemma run_reads_nonneg m w s a x : counted x -> 0 <= run_reads m w s a x.
Proof. intros Hx. pose proof (run_reads_wait m w s a x Hx). pose proof (one_nonneg MWait x). lia. Qed.

Lemma reads_nonneg m th x : counted x -> 0 <= reads m th x.
Proof.
  intros Hx. destruct th; cbn [reads]; try apply run_reads_nonneg; auto with counts;
    repeat case_match; rewrite ?holding_counted by done; auto with counts; done.
Qed.

Lemma find_reads_park m s a w : find_reads m s a (MPark w) = - occ w (find_ids a).
Proof. destruct a as [[]|[]|[? []|? []]]; done. Qed.
Lemma notify_reads_park m s a w : notify_reads m s a (MPark w) = - occ w (notify_ids a).
Proof. destruct a; cbn; rewrite ?find_reads_park; done. Qed.
Lemma overflow_reads_park a w : overflow_reads a (MPark w) = 0.
Proof. by destruct a. Qed.
Lemma submit_reads_park m a w : submit_reads m a (MPark w) = - occ w (submit_ids a).
Proof. destruct a as [| |? []|]; cbn; rewrite ?notify_reads_park; done. Qed.

(** A registered worker: from its idle registration until it has its orders. *)
Definition registered th : option nat :=
  match th with TWorker w _ (RunPark ParkLock) => None | TWorker w _ (RunPark _) => Some w | _ => None end.
Definition held th : list nat := match th with TWorker _ _ _ | TLeft _ => tl (ids th) | _ => ids th end.

Lemma occ_nil w : occ w [] = 0.
Proof. done. Qed.

Lemma reads_park m th w : reads m th (MPark w) = ind (registered th = Some w) - occ w (held th).
Proof.
  destruct th; cbn [reads registered held ids].
  - by rewrite submit_reads_park.
  - repeat case_match; rewrite ?notify_reads_park, ?overflow_reads_park; done.
  - repeat case_match; rewrite ?notify_reads_park, ?submit_reads_park, ?overflow_reads_park; done.
  - done.
  - done.
  - repeat case_match; rewrite ?notify_reads_park, ?find_reads_park; done.
  - repeat case_match; unfold ind; case_decide; try done; cbn; rewrite ?occ_nil; unfold one, ind; rewrite ?decide_False by done; lia.
  - unfold run_reads. cbn [tl]. unfold one at 1 2 3. destruct a; cbn; try (rewrite ?occ_nil; unfold one, ind; cbn; repeat case_decide; simplify_eq; lia);
      try (rewrite ?notify_reads_park; unfold one, ind; cbn; repeat case_decide; simplify_eq; lia).
    destruct a; cbn; rewrite ?notify_reads_park; unfold one, ind; repeat case_decide; simplify_eq; rewrite ?occ_nil; lia || congruence.
  - done.
  - repeat case_match; rewrite ?notify_reads_park; done.
  - repeat case_match; subst; unfold ind; case_decide; try done; cbn; rewrite ?occ_nil; unfold one, ind; rewrite ?decide_False by done; lia.
  - done.
  - cbn. unfold one, ind. by repeat case_decide; simplify_eq.
  - done.
  - done.
Qed.

Record counts_ok (n : nat) (st : system (T:=T)) : Prop := {
  c_range : in_range n st;
  c_balance : forall x, level (mem st) x = sumZ (fun th => reads (mem st) th x) (threads st);
  c_home : idle_home (mem st);
  c_count : forall s, idleCount (sh (mem st) s) = Z.of_nat (length (idle (sh (mem st) s)))
}.

(** Every worker named is a worker of the pool. *)
Lemma being_known n st i th w : counts_ok n st -> threads st !! i = Some th -> being th = Some w -> (w < length (objects (mem st)))%nat.
Proof.
  intros Hc Hi Hb. pose proof (c_balance n st Hc (MWorker w)) as E.
  pose proof (sumZ_ge (fun th => reads (mem st) th (MWorker w)) _ _ _ (fun th => reads_worker_nonneg (mem st) th w) Hi) as Hge. cbn beta in Hge.
  rewrite reads_worker in Hge. unfold ind in Hge at 1. rewrite decide_True in Hge by done.
  cbn [level] in E. unfold ind in E at 1. case_decide; [done|lia].
Qed.

Lemma registered_being th w : registered th = Some w -> being th = Some w.
Proof. destruct th as [| | | | | | |? ? []| | | | | | |]; try done. by destruct a. Qed.

Lemma level_park_nonneg m w : 0 <= level m (MPark w).
Proof. cbn. assert (0 <= sumZ (fun y : shard T => occ w (idle y)) (shards m)) by (apply sumZ_nonneg; intros; apply occ_nonneg). pose proof (ind_nonneg (wake (ob m w) <> None)). lia. Qed.

Lemma sum_reads_park m w l : sumZ (fun th => reads m th (MPark w)) l =
  sumZ (fun th => ind (registered th = Some w)) l - sumZ (fun th => occ w (held th)) l.
Proof. induction l as [|th l IH]; cbn [sumZ]; [done|]. rewrite IH, reads_park. lia. Qed.

(** Someone is the worker that is registered, held or idle. *)
Lemma sum_park_registered n st w : counts_ok n st -> 0 < level (mem st) (MPark w) \/ (exists i th, threads st !! i = Some th /\ w ∈ held th) ->
  exists i th, threads st !! i = Some th /\ registered th = Some w.
Proof.
  intros Hc Hw. pose proof (c_balance n st Hc (MPark w)) as E.
  assert (Hs : 0 < sumZ (fun th => ind (registered th = Some w)) (threads st)).
  { pose proof (sum_reads_park (mem st) w (threads st)) as Hsum.
    pose proof (level_park_nonneg (mem st) w). destruct Hw as [Hw|(i & th & Hi & Hw)].
    - pose proof (sumZ_nonneg (fun th => occ w (held th)) (threads st) (fun _ => occ_nonneg _ _)). lia.
    - pose proof (sumZ_ge (fun th => occ w (held th)) _ _ _ (fun _ => occ_nonneg _ _) Hi) as Hge. apply occ_pos in Hw. cbn in Hge. lia. }
  apply sumZ_pos in Hs as (i & th & Hi & Hp). exists i, th. split; [done|]. unfold ind in Hp. by case_decide.
Qed.

Lemma ids_known n st i th : counts_ok n st -> threads st !! i = Some th -> known (mem st) (ids th).
Proof.
  intros Hc Hi. apply Forall_forall. intros w Hw.
  assert (H : being th = Some w \/ w ∈ held th).
  { destruct th; cbn in *; auto; apply elem_of_cons in Hw as [->|]; auto. }
  destruct H as [Hb|Hh]; [by eapply being_known|].
  destruct (sum_park_registered n st w Hc) as (j & th' & Hj & Hr); [right; by eauto|].
  eapply being_known; [done|exact Hj|by apply registered_being].
Qed.

Lemma idle_is_known n st : counts_ok n st -> idle_known (mem st).
Proof.
  intros Hc s. apply Forall_forall. intros w Hw.
  destruct (sum_park_registered n st w Hc) as (j & th' & Hj & Hr); [left|eapply being_known; [done|exact Hj|by apply registered_being]].
  cbn. unfold sh in Hw. rewrite nth_lookup in Hw. destruct (shards (mem st) !! s) as [y|] eqn:E; [|cbn in Hw; set_solver].
  pose proof (sumZ_ge (fun y => occ w (idle y)) _ _ _ (fun _ => occ_nonneg _ _) E) as Hge. apply occ_pos in Hw. cbn in *.
  pose proof (ind_nonneg (wake (ob (mem st) w) <> None)). lia.
Qed.

Lemma homes_ids th w : w ∈ homes th -> w ∈ ids th.
Proof. destruct th; cbn; repeat case_match; set_solver. Qed.

Lemma next_homes th m o th' :
  known m (ids th) -> idle_known m -> next key th m = Some (o, th') -> known m (homes th').
Proof.
  intros Hk Hidle Hn.
  assert (Hnil : homes th' = [] -> known m (homes th')) by (intros ->; constructor).
  destruct th; cbn [next] in Hn.
  all: try (apply Hnil; match type of Hn with onward _ _ ?r = _ => destruct r; cbn in Hn; by simplify_eq end).
  - simplify_eq. by apply Hnil.
  - simplify_eq. by apply Hnil.
  - assert (H : homes th' = [w] \/ homes th' = []).
    { destruct (run w target a m) as [|? []|]; cbn in Hn; simplify_eq; auto. }
    destruct H as [->| ->]; [|constructor]. cbn in Hk. apply known_one. by apply known_cons in Hk as [? _].
  - apply Hnil. destruct (overflowing s a m) as [|? []|]; cbn in Hn; by simplify_eq.
  - destruct a as [| |now i a]; cbn [retireIdleWorkers] in Hn.
    + done.
    + cbn in Hn. simplify_eq. by apply Hnil.
    + apply onward_call in Hn as [(a' & E & ->)|(? & E & ->)]; [|apply Hnil; by case_match].
      destruct a as [| |[|w ws]]; cbn [retireIdle] in E.
      * case_match; simplify_eq. by apply Hnil.
      * simplify_eq. cbn. apply Forall_take. apply Hidle.
      * done.
      * case_decide; simplify_eq. cbn in *. by apply known_cons in Hk as [_ ?].
  - done.
  - done.
  - done.
  - done.
Qed.

Lemma exec_idle_home o m : idle_home m -> idle_known m -> op_pre o m -> idle_home (exec o m).
Proof.
  intros Hh Hk Hpre s w Hw.
  assert (Hsub : w ∈ idle (sh m s) \/ exists w', o = OPark w' /\ w = w' /\ s = home (ob m w')).
  { assert (Hs : forall s' f, (forall y, w ∈ idle (f y) -> w ∈ idle y) -> w ∈ idle (sh (onShard s' f m) s) -> w ∈ idle (sh m s)).
    { intros s' f Hf. destruct (decide (s = s')) as [->|]; [|by rewrite sh_other].
      destruct (decide (s' < length (shards m))%nat); [rewrite sh_same by done; apply Hf|by rewrite onShard_beyond by lia]. }
    destruct o; cbn [exec] in Hw; try (left; exact Hw); try (left; eapply Hs; [|exact Hw]; done).
    - left. eapply Hs; [|exact Hw]. intros y. cbn. rewrite removelast_firstn_len. intros H. apply elem_of_take in H as (? & ? & _). by eapply list_elem_of_lookup_2.
    - destruct Hpre as [Hw' Hh']. rewrite sh_onShard in Hw by done. case_decide as Es; [|by left]. subst. rewrite sh_onWorker in Hw. cbn in Hw.
      apply elem_of_app in Hw as [Hw|Hw]; [by left|]. right. apply list_elem_of_singleton in Hw as ->. eauto.
    - left. eapply Hs; [|exact Hw]. intros y. cbn. intros H. rewrite <- (take_drop count (idle y)). apply elem_of_app. by right.
    - left. eapply Hs; [|exact Hw]. intros y. cbn. set_solver.
    - left. by destruct tier. }
  destruct Hsub as [Hold|(w' & -> & -> & ->)].
  - rewrite home_exec; [by apply Hh|]. specialize (Hk s). unfold known in Hk. rewrite Forall_forall in Hk. by apply Hk.
  - destruct Hpre as [Hw' _]. by rewrite home_exec.
Qed.

Lemma exec_idleCount o m :
  op_pre o m -> (forall s, idleCount (sh m s) = Z.of_nat (length (idle (sh m s)))) ->
  forall s, idleCount (sh (exec o m) s) = Z.of_nat (length (idle (sh (exec o m) s))).
Proof.
  intros Hpre Hc s.
  assert (Hs : forall s' f, (forall y, idleCount (f y) = idleCount y /\ idle (f y) = idle y) ->
    idleCount (sh (onShard s' f m) s) = Z.of_nat (length (idle (sh (onShard s' f m) s)))).
  { intros s' f Hf. destruct (decide (s = s')) as [->|]; [|by rewrite sh_other].
    destruct (decide (s' < length (shards m))%nat); [|by rewrite onShard_beyond by lia].
    rewrite sh_same by done. destruct (Hf (sh m s')) as [-> ->]. apply Hc. }
  specialize (Hc s).
  destruct o; cbn [exec op_pre] in *; try exact Hc; try (apply Hs; done).
  - destruct Hpre as [Hs' Hne]. rewrite sh_onShard by done. case_decide as Es; [|done]. subst. cbn.
    rewrite removelast_firstn_len, length_take. destruct (idle (sh m s0)); [done|]. cbn in *. lia.
  - destruct Hpre as [Hw Hh]. rewrite sh_onShard by done. case_decide as Es; [|done]. subst. rewrite sh_onWorker. cbn. rewrite length_app. cbn. lia.
  - destruct Hpre as [Hs' Hne]. rewrite sh_onShard by done. case_decide as Es; [|done]. subst. cbn. rewrite length_drop. lia.
  - rewrite sh_onShard by done. case_decide as Es; [|done]. by subst.
  - by destruct tier.
Qed.

Lemma level_ghosts m f x : level (m <| submitted ::= f |>) x = level m x.
Proof. by destruct x. Qed.
Lemma level_ran m f x : level (m <| ran ::= f |>) x = level m x.
Proof. by destruct x. Qed.

Lemma stop_watching n st i th : counts_ok n st -> threads st !! i = Some th ->
  forall v l, th = TMonitor (MonitorStop v l) -> watching (mem st) = true.
Proof.
  intros Hc Hi v l ->. pose proof (c_balance _ _ Hc MWatch) as E.
  pose proof (sumZ_ge (fun th => reads (mem st) th MWatch) _ _ _ (fun y => reads_nonneg _ y MWatch I) Hi) as Hge.
  cbn in Hge, E. rewrite <- E in Hge. by destruct (watching (mem st)).
Qed.

Lemma counts_moves n st st' : counts_ok n st -> moves key st st' -> counts_ok n st'.
Proof.
  intros Hc Hs. pose proof (range_moves key n st st' (c_range _ _ Hc) Hs) as Hin'. destruct (c_range _ _ Hc) as [Hix Hin].
  pose proof (ix_count _ _ Hix) as En. pose proof (c_balance _ _ Hc) as Hb. pose proof (idle_is_known n st Hc) as Hidle.
  destruct Hs as [i th o th' Hi Hn|c|i th ge t th' Hi Hn|i th cl th' Hi Hn Hcl].
  - pose proof (ids_known n st i th Hc Hi) as Hk.
    assert (Hpre : op_pre o (mem st)) by (eapply next_pre; [by rewrite En|rewrite En; by eapply Hin|done|done]).
    split; cbn [mem threads]; [done| |apply exec_idle_home; [apply Hc|done..]|apply exec_idleCount; [done|apply Hc]].
    pose proof (stop_watching n st i th Hc Hi) as Hmon.
    intros x. rewrite level_exec, Hb, (next_balance th (mem st) o th') by (done || apply Hc). rewrite sumZ_app.
    rewrite (sumZ_insert _ _ _ th) by done. rewrite (reads_exec o _ th') by (by eapply next_homes).
    rewrite (sumZ_ext (fun th => reads (exec o (mem st)) th x) (fun th => reads (mem st) th x) (threads st)).
    + rewrite (reads_exec o _ th). { unfold spawned. lia. }
      apply Forall_forall. intros w Hw%homes_ids. unfold known in Hk. rewrite Forall_forall in Hk. by apply Hk.
    + intros j thj Hj. apply reads_exec. pose proof (ids_known n st j thj Hc Hj) as Hkj.
      apply Forall_forall. intros w Hw%homes_ids. unfold known in Hkj. rewrite Forall_forall in Hkj. by apply Hkj.
  - split; cbn [mem threads]; [done| |apply Hc|apply Hc]. intros x. rewrite level_ghosts, Hb, sumZ_app. cbn.
    assert (E : reads (mem st) (requested c).2 x = 0) by (by destruct c). 
    change (sumZ (fun th => reads (mem st) th x) (threads st) = sumZ (fun th => reads (mem st) th x) (threads st) + (reads (mem st) (requested c).2 x + 0)). lia.
  - split; cbn [mem threads]; [done| |apply Hc|apply Hc]. intros x. rewrite level_ran, Hb.
    change (sumZ (fun th => reads (mem st) th x) (threads st) = sumZ (fun th => reads (mem st) th x) (<[i:=th']> (threads st))).
    rewrite (sumZ_insert _ _ _ th) by done. assert (E : reads (mem st) th' x = reads (mem st) th x); [|lia].
    unfold taskEnds in Hn. repeat case_match; simplify_eq; cbn; done || lia.
  - split; cbn [mem threads]; [done| |apply Hc|apply Hc]. intros x. rewrite Hb.
    rewrite (sumZ_insert _ _ _ th) by done. assert (E : reads (mem st) th' x = reads (mem st) th x); [|lia].
    unfold ticks in Hn. repeat case_match; simplify_eq; done.
Qed.

Lemma counts_New procs capacity : counts_ok (Z.to_nat (4 * Z.max procs 1)) (New procs capacity).
Proof.
  assert (Hs : forall s, sh (mem (New (T:=T) procs capacity)) s = newShard (Z.to_nat (ringCapacity capacity)) \/ sh (mem (New (T:=T) procs capacity)) s = shard0).
  { intros s. unfold sh, New. cbn [mem shards]. rewrite nth_lookup. destruct (replicate _ _ !! s) as [y|] eqn:E; [|by right].
    apply lookup_replicate in E as [-> _]. by left. }
  split; [apply range_New| | |].
  - intros x. destruct x; cbn [level threads New sumZ objects mem]; try done.
    + destruct (Hs s) as [E|E]; cbn [mem New] in E; rewrite E; done.
    + destruct (Hs s) as [E|E]; cbn [mem New] in E; rewrite E; done.
    + assert (E : forall j, sumZ (fun y => occ w (idle y)) (replicate j (newShard (T:=T) (Z.to_nat (ringCapacity capacity)))) = 0).
      { induction j; cbn; [done|]. rewrite IHj, occ_nil. done. }
      cbn [shards]. rewrite E. unfold ob. cbn. by destruct w.
    + destruct (Hs s) as [E|E]; cbn [mem New] in E; rewrite E; done.
  - intros s w Hw. destruct (Hs s) as [E|E]; rewrite E in Hw; cbn in Hw; set_solver.
  - intros s. destruct (Hs s) as [E|E]; rewrite E; done.
Qed.
End Meters.
