(* ===== verification/ShardWake.v ===== *)
(** * No wakeup is lost

    A worker that runs a task is away for as long as the task takes, so a
    queued task must never wait behind one while another worker could have
    run it.  This file follows, for each shard whose head is written, who is
    to see to it: a worker on its way, a goroutine that is about to look, the
    worker that is about to find the pool starving, or the monitor. *)

From S2P Require Import Prelude Update WheelRing ShardPool ShardFacts ShardRing ShardCount.
Local Open Scope Z_scope.

#[local] Arguments Nat.modulo _ _ : simpl never.
#[local] Arguments Nat.div _ _ : simpl never.
#[local] Arguments Nat.ltb _ _ : simpl never.

(** ** What a shard waits for *)

Section Watching.
Context {T : Type} (key : T -> Z).
Implicit Types (m : pool T) (th : thread T) (st : system (T:=T)) (s : nat).

(** The task at the head of the queue is written: hasTask would find it. *)
Definition ready m s : Prop := seq_ (cell (sh m s) (head (sh m s))) = u64 (head (sh m s) + 1).

(** A parked worker that has not looked at [starving] yet. *)
Definition before (a : park_at) : bool :=
  match a with ParkHas _ | ParkNotify _ | ParkStarving | ParkCas => true | _ => false end.
Definition awake st (w : nat) : Prop :=
  exists i s a, threads st !! i = Some (TWorker w s (RunPark a)) /\ before a = true.

(** The pool starves, and the idle workers of the first [j] shards have yet
    to see it. *)
Definition quietIdle st (j : nat) : Prop :=
  starving (mem st) = true /\ forall s w, (s < j)%nat -> w ∈ idle (sh (mem st) s) -> awake st w.

Definition has_good m s (a : has_at) : Prop := match a with HasHead => True | HasSeq pos => pos = head (sh m s) end.
Definition notify_good st s (a : notify_at) : Prop :=
  match a with
  | NotifyHas a => has_good (mem st) s a
  | NotifyIdle j => quietIdle st j
  | NotifyFind _ | NotifyDrop => False
  | _ => True
  end.

(** The shard a goroutine notifies, the shard it checks. *)
Definition submit_notifying (a : submit_at) : option (nat * notify_at) :=
  match a with SubmitNotify s a => Some (s, a) | _ => None end.
Definition notifying m th : option (nat * notify_at) :=
  match th with
  | TSubmit _ a | TSubmitBatch (BatchEach _ _ a) => submit_notifying a
  | TSubmitBehind _ (SubmitBehindNotify s (BehindNotify a)) => Some (s, a)
  | TSubmitBatch (BatchNotify _ _ s a) => Some (s, a)
  | TRescue _ (RescueNotify _ s a) => Some (s, a)
  | TWorker _ s (RunNotify _ a | RunAgainNotify a) => Some (s, a)
  | TWorker w _ (RunPark (ParkNotify a)) => Some (home (ob m w), a)
  | TWorker _ _ (RunPark (ParkServe s a)) => Some (s, a)
  | TMonitor (MonitorNotify _ s _ a) => Some (s, a)
  | _ => None
  end.
Definition checking th : option (nat * has_at) :=
  match th with TWorker _ s (RunMore _ a | RunAgain a) => Some (s, a) | _ => None end.

Definition bit (i : nat) (ws : list Z) s : Prop :=
  exists k w, ws !! k = Some w /\ (i + k = s / 64)%nat /\ Z.testbit w (Z.of_nat (s mod 64)) = true.

(** A goroutine that has promised to look at shard [s]. *)
Definition promised th s : Prop :=
  match th with
  | TSubmitBehind _ (SubmitBehindNotify s' BehindRunning) => s = s'
  | TSubmitBatch (BatchPush _ _ _ ws _ | BatchOverflow _ _ _ ws _) => bit 0 ws s
  | TSubmitBatch (BatchNotify i ws _ _) => bit i ws s
  | TWorker _ s' (RunPop _ | RunDrained) => s = s'
  | TWorker _ _ (RunPark (ParkServe i _)) => (i < s)%nat
  | TOverflow s' (OverPop _) => s = s'
  | _ => False
  end.

Definition good st s th : Prop :=
  (exists a, notifying (mem st) th = Some (s, a) /\ notify_good st s a) \/
  (exists a, checking th = Some (s, a) /\ has_good (mem st) s a) \/
  promised th s.

(** The monitor runs, or is about to. *)
Definition monitors m s th : Prop :=
  match th with
  | TSubmitBehind _ (SubmitBehindNotify _ (BehindWatch (WatchLoad | WatchCas))) => True
  | TMonitor (MonitorAny _ i a) => (i < s)%nat \/ (i = s /\ has_good m s a)
  | TMonitor (MonitorCas _) => True
  | _ => False
  end.
Definition monitored st s : Prop :=
  watching (mem st) = true \/ exists i th, threads st !! i = Some th /\ monitors (mem st) s th.

(** An overflow goroutine of the shard that runs a task, or was ended by one. *)
Definition overs s th : Prop :=
  match th with TOverflow s' (OverTask _ | OverDone true) | TGone s' => s = s' | _ => False end.

Inductive resp st s : Prop :=
| resp_coming : 0 < coming (sh (mem st) s) -> resp st s
| resp_good i th : threads st !! i = Some th -> good st s th -> resp st s
| resp_starved : quietIdle st (length (shards (mem st))) -> resp st s
| resp_behind : 0 < running (sh (mem st) s) -> monitored st s -> resp st s
| resp_over i th : threads st !! i = Some th -> overs s th -> resp st s.

(** ** What a step leaves of it *)

Definition hits (o : op T) s : Prop := match o with OSeq s' _ _ | OHead s' _ => s' = s | _ => False end.

Lemma hits_dec o s : hits o s \/ ~ hits o s.
Proof. destruct o; unfold hits; try (right; intros []; fail); match goal with |- ?P \/ _ => destruct (decide P); auto end. Qed.

Lemma seq_write (x : shard T) p t q : seq_ (cell (onCell p (fun c => MkSlot (seq_ c) t) x) q) = seq_ (cell x q).
Proof.
  unfold cell, onCell, cellAt, mask. cbn. rewrite length_alter, !nth_lookup, list_lookup_alter. case_decide as E; [|done].
  rewrite E. by destruct (slots x !! _).
Qed.

Lemma exec_view o m s : ~ hits o s ->
  head (sh (exec o m) s) = head (sh m s) /\ forall p, seq_ (cell (sh (exec o m) s) p) = seq_ (cell (sh m s) p).
Proof.
  intros Hh. assert (Hd : neutral o \/ ~ neutral o) by (destruct o; cbn; auto). destruct Hd as [Hn|Hn].
  - pose proof (exec_ring o m s Hn) as E. injection E as E1 _ E2 _ _. split; [done|]. intros p. by rewrite (cell_ring _ (sh m s)).
  - assert (Hs : forall f s', (s' = s -> forall x, head (f x) = head x /\ forall p, seq_ (cell (f x) p) = seq_ (cell x p)) ->
      head (sh (onShard s' f m) s) = head (sh m s) /\ forall p, seq_ (cell (sh (onShard s' f m) s) p) = seq_ (cell (sh m s) p)).
    { intros f s' Hf. destruct (decide (s' = s)) as [->|]; [|by rewrite sh_other].
      destruct (decide (s < length (shards m))%nat); [rewrite sh_same by done; by apply Hf|by rewrite onShard_beyond by lia]. }
    destruct o; try (by destruct Hn); cbn [exec]; apply Hs; cbn in Hh; try done.
    intros _ x. split; [done|]. intros p. apply seq_write.
Qed.

Lemma ready_exec o m s : ~ hits o s -> ready (exec o m) s <-> ready m s.
Proof. intros Hh. destruct (exec_view o m s Hh) as [E1 E2]. unfold ready. by rewrite E1, E2. Qed.

Lemma has_exec o m s a : ~ hits o s -> has_good (exec o m) s a <-> has_good m s a.
Proof. intros Hh. destruct (exec_view o m s Hh) as [E1 _]. destruct a; cbn; by rewrite ?E1. Qed.

(** A check that ends finds the head it looked at. *)
Lemma hasTask_found s a m o b : hasTask s a m = Back o b -> has_good m s a -> ready m s -> b = true.
Proof. unfold ready. destruct a as [|pos]; cbn; [done|]. intros [= <- <-] -> Hr. by apply Z.eqb_eq. Qed.
Lemma hasTask_on s a m o a' : hasTask s a m = Go o a' -> has_good m s a' /\ o = ONop.
Proof. destruct a; cbn; intros; by simplify_eq. Qed.

(** A shard's field under operations on shards. *)
Lemma field_onShard {A} (R : A -> A -> Prop) (g : shard T -> A) m s s' f :
  (forall a, R a a) -> (s' = s -> (s < length (shards m))%nat -> R (g (sh m s)) (g (f (sh m s)))) -> R (g (sh m s)) (g (sh (onShard s' f m) s)).
Proof.
  intros HR Hf. destruct (decide (s' = s)) as [->|]; [|by rewrite sh_other].
  destruct (decide (s < length (shards m))%nat); [rewrite sh_same by done; by apply Hf|by rewrite onShard_beyond by lia].
Qed.

Lemma coming_exec o m s : (forall d, o = OComing s d -> 0 <= d) -> coming (sh m s) <= coming (sh (exec o m) s).
Proof.
  intros Ho. destruct o; cbn [exec]; try apply Z.le_refl; try (apply (field_onShard Z.le); [lia|intros Es; cbn; try lia; rewrite Es in Ho; specialize (Ho _ eq_refl); lia]).
  - rewrite <- (sh_onWorker m w (fun x => x <| parked := clock m |>) s) at 1. apply (field_onShard Z.le); [lia|intros _; cbn; lia].
  - by destruct tier.
Qed.
Lemma running_exec o m s : (forall d, o = ORunning s d -> 0 <= d) -> running (sh m s) <= running (sh (exec o m) s).
Proof.
  intros Ho. destruct o; cbn [exec]; try apply Z.le_refl; try (apply (field_onShard Z.le); [lia|intros Es; cbn; try lia; rewrite Es in Ho; specialize (Ho _ eq_refl); lia]).
  - rewrite <- (sh_onWorker m w (fun x => x <| parked := clock m |>) s) at 1. apply (field_onShard Z.le); [lia|intros _; cbn; lia].
  - by destruct tier.
Qed.

(** Who is idle was idle, or has just parked. *)
Lemma idle_exec o m s w : w ∈ idle (sh (exec o m) s) -> w ∈ idle (sh m s) \/ o = OPark w.
Proof.
  intros Hw. destruct o; cbn [exec] in Hw; try (by left);
    try (left; revert Hw; apply (field_onShard (fun a b => w ∈ b -> w ∈ a) idle); [done|intros Es _; cbn; try done]).
  - rewrite removelast_firstn_len. intros H. apply elem_of_take in H as (? & ? & _). by eapply list_elem_of_lookup_2.
  - destruct (decide (w0 = w)) as [->|Hne]; [by right|left]. revert Hw. rewrite <- (sh_onWorker m w0 (fun x => x <| parked := clock m |>) s).
    apply (field_onShard (fun a b => w ∈ b -> w ∈ a) idle); [done|intros _ _; cbn]. rewrite elem_of_app, list_elem_of_singleton. intros [?|?]; [done|congruence].
  - intros H. rewrite <- (take_drop count (idle (sh m s))). apply elem_of_app. by right.
  - set_solver.
  - left. by destruct tier.
Qed.

(** Leaving the idle before the check of [starving] sets it back. *)
Lemma park_before m o w a l : before a = true -> starving m = true -> park w a m = Go o l ->
  before l = true \/ (o = OStarving false /\ l = ParkServe 0 (NotifyHas HasHead)).
Proof.
  intros Hb Hs E. destruct a; try done; cbn [park] in E; rewrite ?Hs in E; simplify_eq; auto;
    apply call_Go in E as [(? & _ & ->)|(b & _ & ?)]; simplify_eq; auto. left. by destruct b.
Qed.
Lemma park_before_back m o w a r : before a = true -> park w a m <> Back o r.
Proof.
  intros Hb E. destruct a; try done; cbn [park] in E; try (case_match; by simplify_eq);
    apply call_Back in E as (? & _ & ?); by simplify_eq.
Qed.

(** ** A goroutine performs an operation *)

Section Step.
Context (st : system (T:=T)) (i : nat) (th : thread T) (o : op T) (th' : thread T).
Hypothesis (Hi : threads st !! i = Some th) (Hn : next key th (mem st) = Some (o, th')).

Definition after : system (T:=T) := MkSystem (exec o (mem st)) (<[i := th']> (threads st) ++ starts o (mem st)).

Lemma after_self : threads after !! i = Some th'.
Proof. by eapply threads_moved. Qed.
Lemma after_other j th0 : j <> i -> threads st !! j = Some th0 -> threads after !! j = Some th0.
Proof. by apply threads_stay. Qed.

Lemma awake_after w : awake st w -> starving (mem st) = true -> 
  awake after w \/ (o = OStarving false /\ exists s, th' = TWorker w s (RunPark (ParkServe 0 (NotifyHas HasHead)))).
Proof.
  intros (j & s & a & Hj & Hb) Hs. destruct (decide (j = i)) as [->|Hne].
  - assert (Et : th = TWorker w s (RunPark a)) by congruence. pose proof Hn as H. rewrite Et in H. cbn [next run] in H.
    apply onward_call in H as [(l & E & El)|(r & E & El)].
    + destruct (park_before _ _ w a l Hb Hs E) as [Hl|[Eo ->]]; [left|right; eauto].
      exists i, s, l. rewrite after_self, El. done.
    + by apply park_before_back in E.
  - left. exists j, s, a. split; [by apply after_other|done].
Qed.
End Step.

(** ** The operations that matter, and where they leave their goroutine *)

Definition plain (o : op T) : Prop :=
  match o with
  | OSeq _ _ _ | OHead _ _ | OComing _ _ | ORunning _ _ | OPark _ | OStarving false | OWatching false | OStopped | OClose => False
  | _ => True
  end.
Definition plains {L A} (r : res T L A) : Prop := match r with Go o _ | Back o _ => plain o | Block => True end.

Lemma plains_call {L A L' A'} (r : res T L A) (f : L -> L') (g : A -> L' + A') : plains r -> plains (call r f g).
Proof. destruct r; cbn; try done. by destruct (g a). Qed.
Lemma plains_onward {L A} (r : res T L A) inside ret o th' : plains r -> onward inside ret r = Some (o, th') -> plain o.
Proof. destruct r; cbn; intros; by simplify_eq. Qed.

Lemma hasTask_plain s a m : plains (hasTask s a m).
Proof. by destruct a. Qed.
Lemma wakeIdle_plain j s a m : plains (wakeIdle j s a m).
Proof. destruct a; cbn; repeat case_match; done. Qed.
Lemma start_plain j s a m : plains (start j s a m).
Proof. destruct a; cbn; repeat case_match; done. Qed.
Hint Resolve plains_call hasTask_plain wakeIdle_plain start_plain : shards.
Lemma find_plain s a m : plains (find s a m).
Proof.
  destruct a as [a|a|a]; cbn [find]; auto with shards. apply plains_call.
  destruct a; cbn [borrow]; destruct (_ && _); auto with shards; repeat case_match; by simplify_eq.
Qed.
Lemma watch_plain a m : plains (watch a m).
Proof. destruct a; cbn; repeat case_match; done. Qed.
Lemma runOverflow_plain s t a m : plains (runOverflow s t a m).
Proof. destruct a; cbn; repeat case_match; done. Qed.
Lemma retireIdle_plain s d a m : plains (retireIdle s d a m).
Proof. destruct a as [| |[]]; cbn; repeat case_match; done. Qed.
Hint Resolve find_plain watch_plain runOverflow_plain retireIdle_plain : shards.

Lemma notify_Go s a m o a' : notify s a m = Go o a' ->
  plain o \/ (o = OComing s 1 /\ a' = NotifyFind (FindWake WakeCount)) \/ (o = OComing s (-1) /\ a' = NotifyStarving).
Proof.
  intros E. destruct a; cbn [notify] in E; try (repeat case_match; simplify_eq; cbn; by auto).
  - left. assert (H : plains (call (hasTask s a m) NotifyHas (fun b : bool => if b then inl NotifyComing else inr false))) by auto with shards. by rewrite E in H.
  - left. assert (H : plains (call (find s a m) NotifyFind (fun b : bool => if b then inr true else inl NotifyDrop))) by auto with shards. by rewrite E in H.
Qed.
Lemma notify_Back s a m o b : notify s a m = Back o b -> plain o.
Proof.
  intros E. destruct a; cbn [notify] in E; try (repeat case_match; simplify_eq; cbn; by auto).
  - assert (H : plains (call (hasTask s a m) NotifyHas (fun b : bool => if b then inl NotifyComing else inr false))) by auto with shards. by rewrite E in H.
  - assert (H : plains (call (find s a m) NotifyFind (fun b : bool => if b then inr true else inl NotifyDrop))) by auto with shards. by rewrite E in H.
Qed.

(** A goroutine about to look at shard [s] from the start. *)
Definition fresh m th s : Prop :=
  notifying m th = Some (s, NotifyHas HasHead) \/ notifying m th = Some (s, NotifyStarving) \/ checking th = Some (s, HasHead) \/ promised th s.

Inductive special th m : op T -> thread T -> Prop :=
| sp_plain o th' : plain o -> special th m o th'
| sp_coming s d th' : 0 <= d -> special th m (OComing s d) th'
| sp_drop s th' : fresh (exec (OComing s (-1)) m) th' s -> special th m (OComing s (-1)) th'
| sp_running s th' : special th m (ORunning s 1) th'
| sp_drained s th' : checking th' = Some (s, HasHead) \/ (exists w, th' = TWorker w s RunGoexitGo) -> special th m (ORunning s (-1)) th'
| sp_park w s : stopped m = false -> special th m (OPark w) (TWorker w s (RunPark (ParkHas HasHead)))
| sp_fed w s : special th m (OStarving false) (TWorker w s (RunPark (ParkServe 0 (NotifyHas HasHead))))
| sp_unwatch v last : th = TMonitor (MonitorStop v last) ->
    special th m (OWatching false) (if last then TEnd false else TMonitor (MonitorAny v 0 HasHead))
| sp_hit s o th' : hits o s -> (forall s', hits o s' -> s' = s) -> fresh (exec o m) th' s \/ overs s th' -> special th m o th'
| sp_stop a o th' : th = TStop a -> special th m o th'.


Lemma notify_special_Go th th' m s a o a' :
  notify s a m = Go o a' -> (forall a'', a' = a'' -> o = OComing s (-1) -> notifying (exec o m) th' = Some (s, a'')) -> special th m o th'.
Proof.
  intros E H. destruct (notify_Go s a m o a' E) as [?|[[-> ->]|[-> ->]]]; [by apply sp_plain|by apply sp_coming|].
  apply sp_drop. right. left. by apply H.
Qed.
Lemma notify_special_Back th th' m s a o b : notify s a m = Back o b -> special th m o th'.
Proof. intros E. eapply sp_plain, notify_Back, E. Qed.
Lemma push_special_Go th th' m s t a o a' : push s t a m = Go o a' -> special th m o th'.
Proof. intros E. apply sp_plain. destruct a; cbn in E; repeat case_match; by simplify_eq. Qed.
Lemma push_special_Back th th' m s t a o b : push s t a m = Back o b -> (b = true -> fresh (exec o m) th' s) -> special th m o th'.
Proof.
  intros E Hf. destruct a; cbn in E; repeat case_match; simplify_eq; try (by apply sp_plain).
  apply (sp_hit th m s); [done|done|]. left. by apply Hf.
Qed.
Lemma pop_special_Go th th' m s a o a' : pop s a m = Go o a' -> fresh (exec o m) th' s -> special th m o th'.
Proof.
  intros E Hf. destruct a; cbn in E; repeat case_match; simplify_eq; try (by apply sp_plain).
  apply (sp_hit th m s); [done|done|by left].
Qed.
Lemma pop_special_Back th th' m s a o r : pop s a m = Back o r ->
  (r <> None -> fresh (exec o m) th' s \/ overs s th') -> special th m o th'.
Proof.
  intros E Hf. destruct a; cbn in E; repeat case_match; simplify_eq; try (by apply sp_plain).
  apply (sp_hit th m s); [done|done|]. by apply Hf.
Qed.

(** ** Touched shards *)

Lemma pred_bit w t b : 0 <= w -> 0 <= t < b -> Z.testbit w t = true -> Z.testbit (w - 1) b = Z.testbit w b.
Proof.
  intros Hw Ht Hb. rewrite !Z.testbit_odd, !Z.shiftr_div_pow2 by lia. f_equal.
  assert (0 < 2 ^ b) by (apply Z.pow_pos_nonneg; lia).
  assert (w mod 2 ^ b <> 0).
  { intros E. assert (Hm : Z.testbit (w mod 2 ^ b) t = true) by (rewrite Z.mod_pow2_bits_low by lia; done).
    rewrite E, Z.bits_0 in Hm. done. }
  pose proof (Z.mod_pos_bound w (2 ^ b) ltac:(lia)). pose proof (Z.div_mod w (2 ^ b) ltac:(lia)).
  symmetry. apply (Z.div_unique _ _ _ (w mod 2 ^ b - 1)); lia.
Qed.

Lemma bit_touch ws s : (s / 64 < length ws)%nat -> bit 0 (touch s ws) s.
Proof.
  intros Hl. destruct (lookup_lt_is_Some_2 ws _ Hl) as [w Hw]. pose proof (Nat.mod_upper_bound s 64 ltac:(lia)).
  eexists (s / 64)%nat, _. split; [unfold touch; by rewrite list_lookup_alter_eq, Hw|]. split; [lia|].
  rewrite Z.lor_spec, Z.shiftl_spec, Z.sub_diag by lia. apply orb_true_r.
Qed.
Lemma bit_touched ws s s' : bit 0 ws s' -> bit 0 (touch s ws) s'.
Proof.
  intros (k & w & Hk & Es & Hb). unfold bit, touch. destruct (decide (k = s / 64)%nat) as [->|].
  - eexists _, _. rewrite list_lookup_alter_eq, Hk. split; [done|]. split; [done|]. by rewrite Z.lor_spec, Hb.
  - exists k, w. by rewrite list_lookup_alter_ne by done.
Qed.

Lemma bit_next n i ws s : words_in n i ws -> bit i ws s ->
  exists i' ws' s', nextTouched i ws = Some (i', ws', s') /\ (s = s' \/ bit i' ws' s).
Proof.
  revert i. induction ws as [|w ws IH]; intros i Hw (k & w' & Hk & Es & Hb); [done|]. cbn [nextTouched].
  destruct (Z.eqb_spec w 0) as [->|Hne].
  - destruct k as [|k]; [injection Hk as <-; by rewrite Z.bits_0 in Hb|]. apply IH.
    + intros k0 w0 b Hk0. destruct (Hw (S k0) w0 b Hk0) as [? Hb0]. split; [done|]. intros ? ?. specialize (Hb0 ltac:(done) ltac:(done)). lia.
    + exists k, w'. split; [done|]. split; [lia|done].
  - eexists _, _, _. split; [done|]. destruct k as [|k]; [|right; exists (S k), w'; done]. injection Hk as <-.
    destruct (Hw O w 0 eq_refl) as [Hr _]. destruct (TrailingZeros64_spec w Hr Hne) as (Ht & Hr' & Hlow).
    pose proof (Nat.div_mod_eq s 64). destruct (decide (Z.of_nat (s mod 64) = TrailingZeros64 w)) as [E|E].
    + left. rewrite <- E, Nat2Z.id. lia.
    + right. eexists O, _. split; [done|]. split; [done|]. rewrite Z.land_spec, Hb, (pred_bit w (TrailingZeros64 w)); [done|lia| |done].
      destruct (Z_lt_le_dec (Z.of_nat (s mod 64)) (TrailingZeros64 w)); [|lia]. rewrite Hlow in Hb by lia. done.
Qed.
Lemma bit_none n i ws s : words_in n i ws -> nextTouched i ws = None -> ~ bit i ws s.
Proof. intros Hw E Hb. destruct (bit_next n i ws s Hw Hb) as (? & ? & ? & E' & _). congruence. Qed.

Lemma notifyTouched_fresh n m i ws s : words_in n i ws -> bit i ws s ->
  fresh m (match notifyTouched (T:=T) i ws with inl l => TSubmitBatch l | inr b => TEnd b end) s.
Proof.
  intros Hw Hb. destruct (bit_next n i ws s Hw Hb) as (i' & ws' & s' & E & [<-|?]); unfold notifyTouched; rewrite E; [by left|].
  right. right. by right.
Qed.
Lemma batchNext_fresh n m act ts ws s : words_in n 0 ws -> bit 0 ws s ->
  fresh m (match batchNext (T:=T) act ts ws with inl l => TSubmitBatch l | inr b => TEnd b end) s.
Proof. intros Hw Hb. destruct ts; cbn [batchNext]; [by eapply notifyTouched_fresh|]. right. right. by right. Qed.

(** A batch has a bit for every shard it may touch. *)
Definition wide th : Prop :=
  match th with
  | TSubmitBatch (BatchPush act _ _ ws _ | BatchOverflow act _ _ ws _) => act <= 64 * Z.of_nat (length ws)
  | _ => True
  end.

Lemma shardOf_word t act (ws : list Z) : 1 <= act -> act <= 64 * Z.of_nat (length ws) -> (shardOf key t act / 64 < length ws)%nat.
Proof.
  intros H1 H2. apply Nat.Div0.div_lt_upper_bound. unfold shardOf. pose proof (Z.mod_pos_bound (key t) act ltac:(lia)). lia.
Qed.

Ltac special_call H := apply onward_call in H as [(? & H & ->)|(? & H & ->)].

Lemma Submit_special t a m o th' : next key (TSubmit t a) m = Some (o, th') -> special (TSubmit t a) m o th'.
Proof.
  intros H. destruct a; cbn [next Submit] in H.
  - cbn in H. simplify_eq. by apply sp_plain.
  - special_call H; [by eapply push_special_Go|]. eapply push_special_Back; [done|]. intros ->. by left.
  - apply sp_plain. eapply plains_onward; [|exact H]. auto with shards.
  - special_call H; [|by eapply notify_special_Back]. eapply notify_special_Go; [done|]. by intros ? -> _.
Qed.

Lemma SubmitBehind_special t a m o th' : next key (TSubmitBehind t a) m = Some (o, th') -> special (TSubmitBehind t a) m o th'.
Proof.
  intros H. destruct a; cbn [next SubmitBehind] in H.
  - cbn in H. simplify_eq. by apply sp_plain.
  - special_call H; [by eapply push_special_Go|]. eapply push_special_Back; [done|]. intros ->. right. right. by right.
  - apply sp_plain. eapply plains_onward; [|exact H]. auto with shards.
  - apply onward_call in H as [(l & H & ->)|(b & H & ->)]; destruct a; cbn [notifyBehind] in H; simplify_eq; try (by apply sp_plain).
    + apply call_Go in H as [(l' & H & ->)|(l' & H & ?)]; apply sp_plain; pose proof (watch_plain a m) as Hp; by rewrite H in Hp.
    + apply call_Go in H as [(l' & H & ->)|(l' & H & ?)]; [|by eapply notify_special_Back]. eapply notify_special_Go; [done|]. by intros ? -> _.
    + apply call_Back in H as (l' & H & ?). apply sp_plain. pose proof (watch_plain a m) as Hp. by rewrite H in Hp.
    + apply call_Back in H as (l' & H & ?). by eapply notify_special_Back.
Qed.

Lemma SubmitBatch_special n a m o th' : thread_in n (TSubmitBatch a) -> wide (TSubmitBatch a) ->
  next key (TSubmitBatch a) m = Some (o, th') -> special (TSubmitBatch a) m o th'.
Proof.
  intros Hin Hw H. destruct a; cbn [next SubmitBatch] in H.
  - apply sp_plain. repeat case_match; cbn in H; by simplify_eq.
  - special_call H; [by eapply push_special_Go|]. eapply push_special_Back; [done|]. intros ->. cbn in Hin, Hw. destruct Hin.
    eapply (batchNext_fresh n); [apply words_touch; [by apply shardOf_in|done]|]. apply bit_touch, shardOf_word; [lia|done].
  - apply sp_plain. eapply plains_onward; [|exact H]. auto with shards.
  - special_call H; [|by eapply notify_special_Back]. eapply notify_special_Go; [done|]. by intros ? -> _.
  - destruct a; cbn [Submit] in H.
    + cbn in H. simplify_eq. by apply sp_plain.
    + special_call H.
      * apply call_Go in H as [(l' & H & ->)|(l' & H & ?)]; [by eapply push_special_Go|simplify_eq]. eapply push_special_Back; [done|]. intros ->. by left.
      * apply call_Back in H as (l' & H & ?). done.
    + apply sp_plain. eapply plains_onward; [|exact H]. auto with shards.
    + special_call H.
      * apply call_Go in H as [(l' & H & ->)|(l' & H & ?)]; [|by eapply notify_special_Back]. eapply notify_special_Go; [done|]. by intros ? -> _.
      * apply call_Back in H as (l' & H & ?). by eapply notify_special_Back.
Qed.

Lemma park_special_Go m w s a o l th : park w a m = Go o l -> special th m o (TWorker w s (RunPark l)).
Proof.
  intros E. destruct a; cbn [park] in E.
  - destruct (stopped m) eqn:Es; simplify_eq. by apply sp_park.
  - apply call_Go in E as [(l' & E & ->)|(l' & E & ?)]; apply sp_plain; pose proof (hasTask_plain (home (ob m w)) a m) as Hp; by rewrite E in Hp.
  - apply call_Go in E as [(l' & E & ->)|(l' & E & ?)]; [|by eapply notify_special_Back]. eapply notify_special_Go; [done|]. by intros ? -> ->.
  - simplify_eq. by apply sp_plain.
  - case_match; simplify_eq; [apply sp_fed|by apply sp_plain].
  - apply call_Go in E as [(l' & E & ->)|(l' & E & ?)]; [|by eapply notify_special_Back]. eapply notify_special_Go; [done|]. by intros ? -> _.
  - by case_match.
Qed.
Lemma park_Back_plain m w a o r : park w a m = Back o r -> plain o.
Proof.
  intros E. destruct a; cbn [park] in E; try (repeat case_match; by simplify_eq).
  - by apply call_Back in E as (? & _ & ?).
  - by apply call_Back in E as (? & _ & ?).
  - by apply call_Back in E as (? & _ & ?).
Qed.

Lemma run_special w s a m o th' : next key (TWorker w s a) m = Some (o, th') -> special (TWorker w s a) m o th'.
Proof.
  intros H. destruct a; cbn [next run] in H.
  - cbn in H. simplify_eq. apply sp_running.
  - cbn in H. simplify_eq. apply sp_drop. right. right. by right.
  - special_call H; [eapply pop_special_Go; [done|]|eapply pop_special_Back; [done|]; intros _; left].
    + right. right. by right.
    + right. right. destruct x; [by left|by right].
  - apply sp_plain. eapply plains_onward; [|exact H]. auto with shards.
  - special_call H; [|by eapply notify_special_Back]. eapply notify_special_Go; [done|]. by intros ? -> _.
  - done.
  - cbn in H. simplify_eq. apply sp_drained. by left.
  - apply sp_plain. eapply plains_onward; [|exact H]. auto with shards.
  - special_call H; [|by eapply notify_special_Back]. eapply notify_special_Go; [done|]. by intros ? -> _.
  - special_call H; [by eapply park_special_Go|]. by eapply sp_plain, park_Back_plain.
  - cbn in H. simplify_eq. by apply sp_plain.
  - cbn in H. simplify_eq. by apply sp_coming.
  - cbn in H. simplify_eq. apply sp_drained. right. by eexists.
  - cbn in H. simplify_eq. by apply sp_plain.
Qed.

Lemma monitor_special a m o th' : next key (TMonitor a) m = Some (o, th') -> special (TMonitor a) m o th'.
Proof.
  intros H. destruct a; cbn [next monitor] in H; try (by cbn in H; simplify_eq; apply sp_plain).
  - apply sp_plain. eapply plains_onward; [|exact H]. auto with shards.
  - special_call H; [|by eapply notify_special_Back]. eapply notify_special_Go; [done|]. by intros ? -> _.
  - pose proof (sp_unwatch (TMonitor (MonitorStop v last0)) m v last0 eq_refl) as Hs. destruct last0; cbn in H; by simplify_eq.
  - apply sp_plain. eapply plains_onward; [|exact H]. auto with shards.
  - apply sp_plain. case_match; cbn in H; by simplify_eq.
Qed.

Lemma Rescue_special now a m o th' : next key (TRescue now a) m = Some (o, th') -> special (TRescue now a) m o th'.
Proof.
  intros H. destruct a; cbn [next Rescue] in H; try (solve [apply sp_plain; repeat case_match; cbn in H; simplify_eq; try done; by case_match]).
  - apply sp_plain. eapply plains_onward; [|exact H]. auto with shards.
  - cbn in H. simplify_eq. by apply sp_coming.
  - apply sp_plain. eapply plains_onward; [|exact H]. auto with shards.
  - cbn in H. simplify_eq. apply sp_drop. by left.
  - special_call H; [|by eapply notify_special_Back]. eapply notify_special_Go; [done|]. by intros ? -> _.
Qed.

Theorem next_special n th m o th' :
  thread_in n th -> wide th -> next key th m = Some (o, th') -> special th m o th'.
Proof.
  intros Hin Hw H. destruct th; try done.
  - by apply Submit_special.
  - by apply SubmitBehind_special.
  - by eapply SubmitBatch_special.
  - cbn in H. simplify_eq. by apply sp_plain.
  - cbn in H. simplify_eq. by apply sp_plain.
  - by apply Rescue_special.
  - by eapply sp_stop.
  - by apply run_special.
  - destruct a; cbn [next overflowing] in H; [done| |cbn in H; simplify_eq; by apply sp_plain].
    special_call H; [eapply pop_special_Go; [done|]; right; right; by right|].
    eapply pop_special_Back; [done|]. intros Hne. destruct x; [by right|done].
  - by apply monitor_special.
  - apply sp_plain. destruct a; cbn [next retireIdleWorkers] in H; [done|cbn in H; by simplify_eq|].
    eapply plains_onward; [|exact H]. auto with shards.
Qed.

(** ** Who sees to a shard, after a step *)

Lemma starving_exec o m : o <> OStarving false -> starving m = true -> starving (exec o m) = true.
Proof. intros Ho Hs. destruct o; cbn; try done; [by destruct b|by destruct tier]. Qed.

Definition stops th : Prop := match th with TStop _ => True | _ => False end.

Section Inversions.
Context (th : thread T) (m : pool T) (o : op T) (th' : thread T).
Hypothesis (Hsp : special th m o th') (Hns : ~ stops th).

Ltac invert := destruct Hsp; try done; subst; try done; simplify_eq; eauto; by destruct Hns.

Lemma special_fed : o = OStarving false -> exists w s, th' = TWorker w s (RunPark (ParkServe 0 (NotifyHas HasHead))).
Proof. intros E. invert. Qed.
Lemma special_park w : o = OPark w -> stopped m = false /\ exists s, th' = TWorker w s (RunPark (ParkHas HasHead)).
Proof. intros E. invert. Qed.
Lemma special_hit s : hits o s -> fresh (exec o m) th' s \/ overs s th'.
Proof.
  intros Hh. destruct Hsp as [o th' Hp| | | | | | | |s' o th' H1 H2 Hf|a o th' Et]; try done; [by destruct o| |by subst].
  by rewrite (H2 s Hh).
Qed.
Lemma special_drop s d : o = OComing s d -> d < 0 -> fresh (exec o m) th' s.
Proof. intros E Hd. destruct Hsp; subst; try done; simplify_eq; try lia; try done; by destruct Hns. Qed.
Lemma special_drained s d : o = ORunning s d -> d < 0 -> checking th' = Some (s, HasHead) \/ exists w, th' = TWorker w s RunGoexitGo.
Proof. intros E Hd. destruct Hsp; subst; try done; simplify_eq; try done; by destruct Hns. Qed.
Lemma special_unwatch : o = OWatching false ->
  exists v l, th = TMonitor (MonitorStop v l) /\ th' = if l then TEnd false else TMonitor (MonitorAny v 0 HasHead).
Proof. intros E. destruct Hsp; subst; try done; simplify_eq; eauto; by destruct Hns. Qed.
End Inversions.

(** A goroutine in notify goes on with it, or returns. *)
Lemma notifying_next m th o th' s a :
  known m (homes th) -> notifying m th = Some (s, a) -> next key th m = Some (o, th') ->
  (exists a', notify s a m = Go o a' /\ notifying (exec o m) th' = Some (s, a')) \/ (exists r, notify s a m = Back o r).
Proof.
  intros Hk E H.
  assert (Hcall : forall {L' A'} (f : notify_at -> L') (g : bool -> L' + A') inside ret,
    (forall a', notifying (exec o m) (inside (f a')) = Some (s, a')) ->
    onward inside ret (call (notify s a m) f g) = Some (o, th') ->
    (exists a', notify s a m = Go o a' /\ notifying (exec o m) th' = Some (s, a')) \/ (exists r, notify s a m = Back o r)).
  { intros L' A' f g inside ret Hf Ho. apply onward_call in Ho as [(l & Ho & ->)|(r & Ho & ->)]; eauto. }
  destruct th as [t a0|t a0|a0| | |now a0| |w t a0| |a0| | | | |]; cbn [notifying] in E; try done.
  - destruct a0; simplify_eq/=. by eapply Hcall; [|exact H].
  - destruct a0 as [| | |? []]; simplify_eq/=. cbn [SubmitBehind notifyBehind] in H.
    apply onward_call in H as [(l & H & ->)|(r & H & ->)].
    + apply call_Go in H as [(a' & H & ->)|(b' & H & ?)]; [left; eauto|done].
    + apply call_Back in H as (r' & H & _). eauto.
  - destruct a0 as [| | | |? ? a0]; simplify_eq/=; [by eapply Hcall; [|exact H]|]. destruct a0; simplify_eq/=. cbn [Submit] in H.
    apply onward_call in H as [(l & H & ->)|(r & H & ->)].
    + apply call_Go in H as [(a' & H & ->)|(b' & H & ?)]; [left; eauto|done].
    + apply call_Back in H as (r' & H & _). eauto.
  - destruct a0; simplify_eq/=. by eapply Hcall; [|exact H].
  - destruct a0 as [| | | | | | | | |a0| | | |]; simplify_eq/=; try (by eapply Hcall; [|exact H]).
    destruct a0; simplify_eq/=; apply onward_call in H as [(l & H & ->)|(r & H & ->)]; cbn [park] in H.
    all: try (apply call_Go in H as [(a' & H & ->)|(b' & H & ?)]; [left; exists a'; split; [done|]|by eauto]).
    all: try (apply call_Back in H as (r' & H & _); by eauto).
    + cbn. rewrite home_exec; [done|]. by apply Forall_inv in Hk.
    + done.
  - destruct a0; simplify_eq/=. by eapply Hcall; [|exact H].
Qed.

(** pop returns nothing only when the head is not written. *)
Lemma pop_none k C m s a o : 1 <= k <= 62 -> ring_ok k C (sh m s) -> tail (sh m s) < 2 ^ 62 -> pop_label (sh m s) a ->
  pop s a m = Back o None -> ~ ready m s.
Proof.
  intros Hk Hok Ht Hl E. pose proof (r_order _ _ _ Hok) as Ho. pose proof (cap_bounds k Hk) as Hcap.
  destruct a; cbn in E; repeat case_match; simplify_eq. cbn in Hl.
  assert (Eu : u64 (pos + 1) = pos + 1) by (apply wrap_id; unfold is_uint; lia).
  rewrite Eu in *. unfold ready. destruct (decide (pos = head (sh m s))) as [<-|Hne].
  - rewrite Eu. by apply Z.eqb_neq.
  - exfalso. pose proof (seq_served k Hk C (sh m s) pos Hok ltac:(lia)) as Hsv. unfold seqAt in Hsv.
    match goal with H : (int64 _ <? 0) = true |- _ => apply Z.ltb_lt in H; rewrite int64_id in H; [lia|] end.
    unfold is_int64, maxInt. lia.
Qed.

Section Moved.
Context (n : nat) (st : system (T:=T)) (i : nat) (th : thread T) (o : op T) (th' : thread T).
Hypothesis (Hi : threads st !! i = Some th) (Hn : next key th (mem st) = Some (o, th')).
Hypothesis (Hsp : special th (mem st) o th') (Hns : ~ stops th).
Abbreviation st' := (after st i o th').

Lemma self_after : threads st' !! i = Some th'.
Proof. by eapply after_self. Qed.

Lemma quiet_after j : quietIdle st j ->
  quietIdle st' j \/ (o = OStarving false /\ exists w s, th' = TWorker w s (RunPark (ParkServe 0 (NotifyHas HasHead)))).
Proof.
  intros [Hs Hq].
  assert (Hd : o = OStarving false \/ o <> OStarving false) by (destruct o as [| | | | | | | | | | | | | |[]| | | | | | | | | | | | | | | | | | | ]; auto).
  destruct Hd as [Ho|Ho]; [right; split; [done|by eapply special_fed]|left]. split; [by apply starving_exec|].
  intros s w Hlt Hw. apply idle_exec in Hw as [Hw|Ep].
  - destruct (awake_after st i th o th' Hi Hn w (Hq s w Hlt Hw) Hs) as [?|[? _]]; done.
  - destruct (special_park _ _ _ _ Hsp Hns w Ep) as [_ [s' E]]. exists i, s', (ParkHas HasHead). rewrite self_after, E. done.
Qed.

(** The mover sees to every shard when it finds the pool starving. *)
Lemma fed_resp s : (exists w s', th' = TWorker w s' (RunPark (ParkServe 0 (NotifyHas HasHead)))) -> resp st' s.
Proof.
  intros (w & s' & E). eapply resp_good; [exact self_after|]. rewrite E. unfold good. destruct s as [|s].
  - left. exists (NotifyHas HasHead). done.
  - right. right. cbn. lia.
Qed.

Lemma fresh_good s m : mem st' = m -> fresh m th' s -> good st' s th'.
Proof. intros <- [E|[E|[E|E]]]; [left|left|right; left|right; by right]; eexists; done. Qed.

Lemma fresh_resp s : fresh (exec o (mem st)) th' s -> resp st' s.
Proof. intros Hf. eapply resp_good; [exact self_after|]. by eapply fresh_good. Qed.

(** The head of the queue changes: the mover looks again. *)
Lemma hit_resp s : hits o s -> resp st' s.
Proof.
  intros Hh. destruct (special_hit _ _ _ _ Hsp Hns s Hh) as [Hf|Hf]; [by apply fresh_resp|]. eapply resp_over; [exact self_after|done].
Qed.

(** Another goroutine is where it was. *)
Lemma good_other s j th0 : ~ hits o s -> known (mem st) (homes th0) -> j <> i -> threads st !! j = Some th0 -> good st s th0 -> resp st' s.
Proof.
  intros Hh Hk Hne Hj Hg. pose proof (after_other st i o th' j th0 Hne Hj) as Hj'. destruct Hg as [(a & Ea & Hg)|[(a & Ea & Hg)|Hp]].
  - assert (Ea' : notifying (mem st') th0 = Some (s, a)).
    { rewrite <- Ea. cbn [after mem]. destruct th0 as [| | | | | | |w t [| | | | | | | | |[]| | | |]| | | | | | |]; try done. cbn in Hk |- *.
      rewrite home_exec; [done|]. by apply Forall_inv in Hk. }
    destruct a; try (by destruct Hg); try (eapply resp_good; [exact Hj'|left; eexists; split; [done|]]; done).
    + eapply resp_good; [exact Hj'|left; eexists; split; [done|]]. cbn in *. by apply has_exec.
    + destruct (quiet_after j0 Hg) as [Hq|[_ Hf]]; [|by apply fed_resp]. eapply resp_good; [exact Hj'|left; eexists; split; [done|]]. done.
  - eapply resp_good; [exact Hj'|]. right. left. exists a. split; [done|]. by apply has_exec.
  - eapply resp_good; [exact Hj'|]. right. by right.
Qed.

Section Good.
Context (k b : Z) (s : nat).
Hypothesis (Hc : counts_ok n st) (Hs : (s < n)%nat) (Hh : ~ hits o s) (Hr : ready (mem st) s).

Let En : length (shards (mem st)) = n.
Proof. apply (ix_count _ _ (proj1 (c_range _ _ Hc))). Qed.

Lemma coming_nonneg : 0 <= coming (sh (mem st) s).
Proof.
  pose proof (c_balance _ _ Hc (MComing s)) as E. cbn [level] in E.
  pose proof (sumZ_nonneg (fun th => reads (mem st) th (MComing s)) (threads st) (fun y => reads_nonneg _ y (MComing s) I)).
  pose proof (sumZ_nonneg (fun o => ind (wake o = Some (Some s))) (objects (mem st)) (fun _ => ind_nonneg _)). lia.
Qed.

Lemma notify_mover a : notify_good st s a ->
  (exists a', notify s a (mem st) = Go o a' /\ notifying (mem st') th' = Some (s, a')) \/ (exists r, notify s a (mem st) = Back o r) ->
  resp st' s.
Proof.
  intros Hg Hm. pose proof coming_nonneg as Hco.
  assert (Hgo : forall a', notifying (mem st') th' = Some (s, a') -> notify_good st' s a' -> resp st' s).
  { intros a' E Hg'. eapply resp_good; [exact self_after|]. left. eauto. }
  assert (Hcoming : coming (sh (mem st) s) <> 0 -> o = ONop -> resp st' s).
  { intros ? E. apply resp_coming. cbn [after mem]. rewrite E. cbn. lia. }
  assert (Hq : forall j, quietIdle st j -> o = ONop -> quietIdle st' j).
  { intros j H E. destruct (quiet_after j H) as [?|[? _]]; [done|congruence]. }
  destruct a; try (by destruct Hg); destruct Hm as [(a' & E & Ea)|(r & E)]; cbn [notify] in E.
  - apply (Hgo a' Ea). apply call_Go in E as [(l & E & ->)|(r & E & H)]; [|destruct r; [|done]; by injection H as <-].
    apply hasTask_on in E as [Hl _]. cbn. by apply has_exec.
  - apply call_Back in E as (r' & E & Er). by rewrite (hasTask_found _ _ _ _ _ E Hg Hr) in Er.
  - apply (Hgo a' Ea). case_match; [|done]. by injection E as _ <-.
  - destruct (Z.eqb_spec (coming (sh (mem st) s)) 0); [done|]. injection E as Eo _. by apply Hcoming.
  - destruct (Z.eqb_spec (coming (sh (mem st) s)) 0); [|done]. injection E as Eo _. apply resp_coming. cbn [after mem]. 
    rewrite <- Eo. cbn [exec]. rewrite sh_same by lia. cbn. lia.
  - destruct (Z.eqb_spec (coming (sh (mem st) s)) 0); [done|]. injection E as Eo _. by apply Hcoming.
  - apply (Hgo a' Ea). injection E as Eo <-. destruct (starving (mem st)) eqn:Es; [|done]. apply Hq; [|done]. split; [done|lia].
  - done.
  - apply (Hgo a' Ea). injection E as Eo <-. split; [cbn [after mem]; by rewrite <- Eo|lia].
  - done.
  - apply (Hgo a' Ea). destruct (j <? length (shards (mem st)))%nat eqn:Ej; [|done].
    destruct (Z.eqb_spec (idleCount (sh (mem st) j)) 0) as [E0|]; injection E as Eo <-; [|done].
    apply Hq; [|done]. destruct Hg as [H1 H2]. split; [done|]. intros s' w Hlt Hw. destruct (decide (s' = j)) as [->|]; [|apply (H2 s'); [lia|done]].
    exfalso. rewrite (c_count _ _ Hc) in E0. destruct (idle (sh (mem st) j)); [set_solver|cbn in E0; lia].
  - destruct (Nat.ltb_spec j (length (shards (mem st)))); [by case_match|]. injection E as Eo <-.
    apply resp_starved. cbn [after mem]. rewrite exec_length. destruct (Hq j Hg (eq_sym Eo)) as [H1 H2]. split; [done|].
    intros s' w Hlt. apply H2. lia.
Qed.

Lemma checking_mover a : checking th = Some (s, a) -> has_good (mem st) s a -> resp st' s.
Proof.
  intros E Hg. pose proof Hn as H.
  assert (Hmore : forall (f : has_at -> nat * run_at T) (g : bool -> nat * run_at T + bool) w,
    (forall l, checking (TWorker w (f l).1 (f l).2) = Some (s, l)) ->
    (exists l, g true = inl l /\ notifying (mem st') (TWorker w l.1 l.2) = Some (s, NotifyHas HasHead)) ->
    onward (fun l => TWorker w l.1 l.2) (fun left : bool => if left then TLeft w else TEnd false) (call (hasTask s a (mem st)) f g) = Some (o, th') ->
    resp st' s).
  { intros f g w Hf (l & El & Hl) H'. eapply resp_good; [exact self_after|]. apply onward_call in H' as [(l' & H' & E')|(r & H' & E')]; rewrite E'.
    - right. left. exists l'. split; [apply Hf|]. apply has_exec; [done|]. by eapply hasTask_on.
    - left. exists (NotifyHas HasHead). split; [|done]. rewrite (hasTask_found _ _ _ _ _ H' Hg Hr), El. exact Hl. }
  destruct th as [| | | | | | |w t a0| | | | | | |]; try done.
  destruct a0; try done; injection E as -> ->; eapply Hmore; [..|exact H]; try done; eexists; done.
Qed.

Hypothesis (Hk : 1 <= k <= 62) (Hok : rings_ok key k n b st) (Hb : b < 2 ^ 62) (Hin : thread_in n th).

Lemma over_mover t a : th = TOverflow t (OverPop a) -> s = t -> resp st' s.
Proof.
  intros E Es. pose proof Hn as H. rewrite E in H. cbn [next overflowing] in H. destruct (g_ring _ _ _ _ _ Hok s Hs) as [Hring Ht].
  pose proof (g_label _ _ _ _ _ Hok i th Hi) as [_ Hl]. rewrite E in Hl. cbn in Hl.
  apply onward_call in H as [(l & H & E')|(r & H & E')].
  - apply fresh_resp. rewrite E'. right. right. by right.
  - destruct r; [eapply resp_over; [exact self_after|by rewrite E']|].
    exfalso. revert Hr. rewrite <- Es in *. by eapply (pop_none k); [done|done|lia|done|done].
Qed.

Lemma behind_mover t : th = TSubmitBehind t (SubmitBehindNotify s BehindRunning) -> resp st' s.
Proof.
  intros E. pose proof Hn as H. rewrite E in H. cbn in H. injection H as Eo E'.
  destruct (0 <? running (sh (mem st) s)) eqn:Er.
  - apply Z.ltb_lt in Er. apply resp_behind; [cbn [after mem]; by rewrite <- Eo|]. right. exists i, th'. split; [exact self_after|]. by rewrite <- E'.
  - apply fresh_resp. rewrite <- E'. by left.
Qed.

Lemma batch_mover a : th = TSubmitBatch a -> promised th s -> resp st' s.
Proof.
  intros E Hp. pose proof Hn as H. rewrite E in H, Hp, Hin. cbn [next] in H. apply fresh_resp.
  destruct a; try done; cbn [SubmitBatch] in H; cbn in Hp, Hin; apply onward_call in H as [(l & H & ->)|(r & H & ->)];
    try (right; right; by right).
  - destruct Hin. destruct r; [|right; right; by right]. eapply (batchNext_fresh n); [|by apply bit_touched].
    apply words_touch; [by apply shardOf_in|done].
  - destruct Hin. by eapply (batchNext_fresh n).
  - destruct Hin. by eapply (notifyTouched_fresh n).
Qed.

Lemma worker_mover w t a : th = TWorker w t a -> promised th s -> resp st' s.
Proof.
  intros E Hp. pose proof Hn as H. rewrite E in H, Hp. cbn [next] in H. apply fresh_resp.
  destruct a; try done; cbn [run] in H; cbn in Hp.
  - apply onward_call in H as [(l & H & ->)|(r & H & ->)]; [right; right; by right|]. right. right. subst s. destruct r; [by left|by right].
  - cbn in H. injection H as _ <-. right. right. left. by subst s.
  - destruct a; try done. apply onward_call in H as [(l & H & ->)|(r & H & ->)]; cbn [park] in H.
    + apply call_Go in H as [(l' & H & ->)|(r & H & Er)]; [right; right; by right|].
      rewrite En in Er. rewrite (proj2 (Nat.ltb_lt _ _)) in Er by lia. injection Er as <-.
      destruct (decide (S i0 = s)) as [<-|]; [by left|right; right; right; cbn; lia].
    + by apply call_Back in H as (? & _ & ?).
Qed.

(** The goroutine that sees to the shard moves, and the shard is seen to. *)
Lemma mover_good : known (mem st) (homes th) -> good st s th -> resp st' s.
Proof.
  intros Hkn [(a & Ea & Hg)|[(a & Ea & Hg)|Hp]].
  - eapply notify_mover; [exact Hg|]. destruct (notifying_next _ _ _ _ _ _ Hkn Ea Hn) as [?|?]; auto.
  - by eapply checking_mover.
  - assert (exists y, th = y) as [y Ey] by eauto. pose proof Hp as Hp'. rewrite Ey in Hp'. destruct y; try done.
    + destruct a as [| | |s' []]; try done. cbn in Hp'. subst s'. by eapply behind_mover.
    + by eapply batch_mover.
    + by eapply worker_mover.
    + destruct a; try done. by eapply over_mover.
Qed.
End Good.

Section Resp.
Context (k b : Z) (s : nat).
Hypothesis (Hc : counts_ok n st) (Hc' : counts_ok n st') (Hk : 1 <= k <= 62) (Hok : rings_ok key k n b st) (Hb : b < 2 ^ 62) (Hs : (s < n)%nat).
Hypothesis (Hlast : forall v, th <> TMonitor (MonitorStop v true)).

Let En : length (shards (mem st)) = n.
Proof. apply (ix_count _ _ (proj1 (c_range _ _ Hc))). Qed.

Lemma watching_after : watching (mem st) = true -> monitored st' s.
Proof.
  intros Hw. assert (Hd : o = OWatching false \/ (o <> OWatching false)) by (destruct o as [| | | | | | | | | | | | | | |[]| | | | | | | | | | | | | | | | | | ]; auto).
  destruct Hd as [Ho|Ho].
  - destruct (special_unwatch _ _ _ _ Hsp Hns Ho) as (v & [] & Et & Et'); [by apply Hlast in Et|].
    right. exists i, th'. split; [exact self_after|]. rewrite Et'. cbn. destruct s; [by right|left; lia].
  - left. cbn [after mem]. destruct o; try exact Hw; [by destruct b0|]. by destruct tier.
Qed.

Lemma monitors_after j th0 : ~ hits o s -> ready (mem st) s -> threads st !! j = Some th0 -> monitors (mem st) s th0 -> monitored st' s.
Proof.
  intros Hh Hr Hj Hm. destruct (decide (j = i)) as [->|Hne].
  - assert (Et : th = th0) by congruence. pose proof Hn as H. rewrite Et in H.
    assert (Hgo : forall y, th' = y -> monitors (mem st') s y -> monitored st' s).
    { intros y Ey Hy. right. exists i, th'. split; [exact self_after|]. by rewrite Ey. }
    assert (Hwatch : watching (mem st) = true -> monitored st' s) by apply watching_after.
    assert (Hset : o = OWatching true -> monitored st' s) by (intros E; left; cbn [after mem]; by rewrite E).
    destruct th0 as [| t a| | | | | | | |a| | | | |]; try done.
    + destruct a as [| | |s' [|[]|]]; try done; cbn in H; destruct (watching (mem st)) eqn:Ew; cbn in H; try (by apply Hwatch); injection H as Eo Et'; [by eapply Hgo|by apply Hset].
    + destruct a as [| | | | | |v j a|v]; try done; cbn [next monitor] in H.
      * apply onward_call in H as [(l & H & E')|(r & H & E')].
        -- apply (Hgo _ E'). cbn in Hm |- *. destruct Hm as [?|[-> Hm]]; [by left|right; split; [done|]].
           apply has_exec; [done|]. by eapply hasTask_on.
        -- destruct r; [by apply (Hgo _ E')|]. cbn in Hm. destruct Hm as [Hlt|[-> Hm]]; [|by pose proof (hasTask_found _ _ _ _ _ H Hm Hr)].
           rewrite En in E'. rewrite (proj2 (Nat.ltb_lt _ _)) in E' by lia. apply (Hgo _ E'). cbn. destruct (decide (S j = s)); [by right|left; lia].
      * destruct (watching (mem st)) eqn:Ew; [by apply Hwatch|]. cbn in H. injection H as Eo _. by apply Hset.
  - right. exists j, th0. split; [by apply after_other|]. destruct th0 as [| t a| | | | | | | |a| | | | |]; try done.
    destruct a as [| | | | | |v j' a|v]; try done. cbn in Hm |- *. destruct Hm as [?|[-> Hm]]; [by left|right]. split; [done|]. by apply has_exec.
Qed.

Lemma coming_after : (exists w, th' = TWorker w s RunGoexitGo) -> 0 < coming (sh (mem st') s).
Proof.
  intros [w E]. pose proof (c_balance _ _ Hc' (MComing s)) as Eb. cbn [level] in Eb.
  pose proof (sumZ_ge (fun th => reads (mem st') th (MComing s)) _ _ _ (fun y => reads_nonneg _ y (MComing s) I) self_after) as Hge. cbn beta in Hge.
  pose proof (sumZ_nonneg (fun o => ind (wake o = Some (Some s))) (objects (mem st')) (fun _ => ind_nonneg _)).
  assert (E1 : reads (mem st') (TWorker w s RunGoexitGo) (MComing s) = 1) by (cbn [reads]; unfold run_reads, one, ind; repeat (case_decide; try done)).
  rewrite <- E in E1. lia.
Qed.

Lemma resp_after : (ready (mem st) s -> resp st s) -> ready (mem st') s -> resp st' s.
Proof.
  intros IH Hr'. destruct (hits_dec o s) as [Hh|Hh]; [by apply hit_resp|].
  assert (Hr : ready (mem st) s) by (by eapply ready_exec). destruct (IH Hr) as [Hco|j th0 Hj Hg|Hq|Hru Hm|j th0 Hj Ho].
  - assert (Hd : (exists d, o = OComing s d /\ d < 0) \/ (forall d, o = OComing s d -> 0 <= d)).
    { destruct o as []; try (right; intros ? ?; congruence). destruct (decide (s0 = s)) as [->|]; [|right; congruence]. destruct (Z_lt_le_dec d 0); [left; eauto|right; congruence]. }
    destruct Hd as [(d & Eo & Hd)|Hd]; [apply fresh_resp; by eapply special_drop|]. apply resp_coming. pose proof (coming_exec o (mem st) s Hd). cbn [after mem]. lia.
  - assert (Hkn : known (mem st) (homes th0)).
    { apply Forall_forall. intros w Hw%homes_ids. pose proof (ids_known n st j th0 Hc Hj) as Hids. unfold known in Hids. rewrite Forall_forall in Hids. auto. }
    destruct (decide (j = i)) as [->|]; [|by eapply good_other].
    assert (th = th0) as <- by congruence. eapply (mover_good k b s); try done. by eapply (proj2 (c_range _ _ Hc)).
  - destruct (quiet_after _ Hq) as [Hq'|[_ Hf]]; [|by apply fed_resp]. apply resp_starved. cbn [after mem]. by rewrite exec_length.
  - assert (Hd : (exists d, o = ORunning s d /\ d < 0) \/ (forall d, o = ORunning s d -> 0 <= d)).
    { destruct o as []; try (right; intros ? ?; congruence). destruct (decide (s0 = s)) as [->|]; [|right; congruence]. destruct (Z_lt_le_dec d 0); [left; eauto|right; congruence]. }
    destruct Hd as [(d & Eo & Hd)|Hd].
    + destruct (special_drained _ _ _ _ Hsp Hns s d Eo Hd) as [E|E]; [apply fresh_resp; right; right; by left|]. by apply resp_coming, coming_after.
    + apply resp_behind; [pose proof (running_exec o (mem st) s Hd); cbn [after mem]; lia|].
      destruct Hm as [Hw|(j & th0 & Hj & Hm)]; [by apply watching_after|by eapply monitors_after].
  - destruct (decide (j = i)) as [->|]; [|eapply resp_over; [by apply after_other|done]].
    assert (Et : th = th0) by congruence. pose proof Hn as H. rewrite Et in H. eapply resp_over; [exact self_after|].
    destruct th0 as [| | | | | | | |s' a| | | | | |]; try done. destruct a as [| |[]]; try done. cbn in H. injection H as _ <-. done.
Qed.
End Resp.
End Moved.

(** ** A task ends, a method is called, a ticker fires *)

(** A goroutine nobody waits for. *)
Definition away th : Prop :=
  match th with TWorker _ _ (RunTask _) | TOverflow _ (OverTask _) | TStop _ | TMonitor (MonitorWait _) | TJanitor JanitorWait => True | _ => False end.

Lemma resp_keep st st' s :
  shards (mem st') = shards (mem st) -> objects (mem st') = objects (mem st) -> starving (mem st') = starving (mem st) ->
  watching (mem st') = watching (mem st) ->
  (forall j th, threads st !! j = Some th -> threads st' !! j = Some th \/
    (away th /\ forall s, overs s th -> exists th', threads st' !! j = Some th' /\ (overs s th' \/ promised th' s))) ->
  resp st s -> resp st' s.
Proof.
  intros E1 E2 E3 E4 Ht Hr. assert (Es : forall s, sh (mem st') s = sh (mem st) s) by (intros; unfold sh; by rewrite E1).
  assert (Haw : forall w, awake st w -> awake st' w).
  { intros w (j & t & a & Hj & Hb). destruct (Ht j _ Hj) as [?|[[] _]]. by exists j, t, a. }
  assert (Hq : forall j, quietIdle st j -> quietIdle st' j).
  { intros j [H1 H2]. split; [by rewrite E3|]. intros s' w Hlt. rewrite Es. eauto. }
  assert (Hhas : forall s a, has_good (mem st) s a -> has_good (mem st') s a) by (intros ? []; cbn; by rewrite ?Es).
  destruct Hr as [Hco|j th0 Hj Hg|Hs|Hru Hm|j th0 Hj Ho].
  - apply resp_coming. by rewrite Es.
  - destruct (Ht j _ Hj) as [Hj'|[Ha _]].
    + eapply resp_good; [exact Hj'|]. destruct Hg as [(a & Ea & Hg)|[(a & Ea & Hg)|Hp]]; [left|right; left|right; by right].
      * exists a. split; [|by destruct a; cbn in *; auto]. rewrite <- Ea.
        destruct th0 as [| | | | | | |w t [| | | | | | | | |[]| | | |]| | | | | | |]; try done. cbn. unfold ob. by rewrite E2.
      * exists a. auto.
    + exfalso. destruct Hg as [(a & Ea & _)|[(a & Ea & _)|Hp]]; destruct th0 as [| | | | | | |w t []|? []|[]|[]| | | |]; done.
  - apply resp_starved. rewrite E1. auto.
  - apply resp_behind; [by rewrite Es|]. destruct Hm as [Hm|(j & th0 & Hj & Hm)]; [left; by rewrite E4|].
    destruct (Ht j _ Hj) as [Hj'|[Ha _]]; [|exfalso; by destruct th0 as [| | | | | | |w t []|? []|[]|[]| | | |]].
    right. exists j, th0. split; [done|]. destruct th0 as [|? [| | |? []]| | | | | | | |[]| | | | |]; try done.
    cbn in Hm |- *. destruct Hm as [?|[-> Hm]]; auto.
  - destruct (Ht j _ Hj) as [Hj'|[Ha Hov]]; [by eapply resp_over|]. destruct (Hov s Ho) as (th' & Hj' & [?|?]); [by eapply resp_over|].
    eapply resp_good; [exact Hj'|]. right. by right.
Qed.

Lemma resp_call st c s : resp st s ->
  resp (MkSystem ((mem st) <| submitted ::= fun l => l ++ (Some <$> (requested c).1) |>) (threads st ++ [(requested c).2])) s.
Proof. apply resp_keep; try done. intros j th Hj. left. by apply lookup_app_l_Some. Qed.

Lemma resp_task st i th goexit t th' s : threads st !! i = Some th -> taskEnds goexit th = Some (t, th') -> resp st s ->
  resp (MkSystem ((mem st) <| ran ::= fun l => l ++ [t] |>) (<[i := th']> (threads st))) s.
Proof.
  intros Hi Ht. apply resp_keep; try done. cbn [threads]. intros j th0 Hj. destruct (decide (j = i)) as [->|]; [|left; by rewrite list_lookup_insert_ne].
  right. rewrite list_lookup_insert_eq by (by eapply lookup_lt_Some). assert (th = th0) as <- by congruence.
  unfold taskEnds in Ht. repeat case_match; simplify_eq/=; split; try done; intros s' ->; eexists; split; try done; cbn; auto.
Qed.

Lemma resp_tick st i th closed th' s : threads st !! i = Some th -> ticks closed th = Some th' -> resp st s ->
  resp (MkSystem (mem st) (<[i := th']> (threads st))) s.
Proof.
  intros Hi Ht. apply resp_keep; try done. cbn [threads]. intros j th0 Hj. destruct (decide (j = i)) as [->|]; [|left; by rewrite list_lookup_insert_ne].
  right. assert (th = th0) as <- by congruence. unfold ticks in Ht. repeat case_match; simplify_eq/=; done.
Qed.

(** ** The invariant *)

(** A goroutine past the point where Stop marked the pool stopped. *)
Definition halts th : Prop :=
  match th with TStop StopSwap => False | TStop _ | TStopped | TMonitor (MonitorStop _ true) => True | _ => False end.

Record watch_ok (n : nat) st : Prop := {
  w_wide : forall j th, threads st !! j = Some th -> wide th;
  w_halts : forall j th, threads st !! j = Some th -> halts th -> stopped (mem st) = true;
  w_done : done_ (mem st) = true -> stopped (mem st) = true;
  w_resp : stopped (mem st) = false -> forall s, (s < n)%nat -> ready (mem st) s -> resp st s
}.

Lemma notifyTouched_wide i ws : wide (match notifyTouched (T:=T) i ws with inl l => TSubmitBatch l | inr b => TEnd b end).
Proof. unfold notifyTouched. by destruct (nextTouched i ws) as [[[]]|]. Qed.
Lemma batchNext_wide act (ts : list T) ws : act <= 64 * Z.of_nat (length ws) ->
  wide (match batchNext (T:=T) act ts ws with inl l => TSubmitBatch l | inr b => TEnd b end).
Proof. intros Hw. destruct ts; cbn [batchNext]; [apply notifyTouched_wide|done]. Qed.

Lemma next_wide th m o th' : next key th m = Some (o, th') -> wide th -> wide th'.
Proof.
  intros H Hw. destruct th; try (cbn [next] in H; unfold onward in H; repeat case_match; by simplify_eq).
  destruct a; cbn [next SubmitBatch] in H.
  - destruct (Z.ltb_spec 64 (active m)); [destruct (Z.ltb_spec 1024 (active m))|].
    + destruct ts; cbn in H; by simplify_eq.
    + pose proof (batchNext_wide (active m) ts (replicate 16 0) ltac:(cbn; lia)). destruct (batchNext _ _ _); cbn in H; by simplify_eq.
    + pose proof (batchNext_wide (active m) ts [0] ltac:(cbn; lia)). destruct (batchNext _ _ _); cbn in H; by simplify_eq.
  - apply onward_call in H as [(l & H & ->)|(r & H & ->)]; [done|]. destruct r; [|done]. apply batchNext_wide.
    unfold touch. rewrite length_alter. done.
  - apply onward_call in H as [(l & H & ->)|(r & H & ->)]; [done|]. by apply batchNext_wide.
  - apply onward_call in H as [(l & H & ->)|(r & H & ->)]; [done|]. apply notifyTouched_wide.
  - apply onward_call in H as [(l & H & ->)|(r & H & ->)]; [done|]. destruct ts; done.
Qed.

Lemma monitorNext_halts n i h v : ~ halts (TMonitor (monitorNext n i h v)).
Proof. unfold monitorNext. intros H. repeat case_match; destruct H. Qed.

Lemma next_halts th m o th' : next key th m = Some (o, th') -> (halts th -> stopped m = true) -> halts th' -> stopped (exec o m) = true.
Proof.
  intros H Hh Hh'. destruct (exec_ghosts m o) as (_ & _ & _ & Hst).
  destruct th; try (exfalso; cbn [next] in H; unfold onward in H; repeat case_match; by simplify_eq).
  - destruct a; try (by apply Hst, Hh). cbn in H. by simplify_eq.
  - exfalso. destruct a; cbn [next monitor] in H; try (cbn in H; repeat case_match; by simplify_eq).
    + apply onward_call in H as [(l & H & ->)|(r & H & ->)]; [done|]. destruct r; [case_match; [done|]|]; by apply monitorNext_halts in Hh'.
    + apply onward_call in H as [(l & H & ->)|(r & H & ->)]; [done|]. by apply monitorNext_halts in Hh'.
    + destruct last0; cbn in H; by simplify_eq.
    + apply onward_call in H as [(l & H & ->)|(r & H & ->)]; [done|]. destruct r; [done|]. by destruct (S i <? _)%nat.
    + destruct (watching m); cbn in H; simplify_eq; destruct Hh'.
Qed.

Lemma special_close th m th' : special th m OClose th' -> next key th m = Some (OClose, th') -> halts th.
Proof.
  intros Hsp H. assert (exists a, th = TStop a) as [a ->].
  { inversion Hsp; subst; done || eauto. }
  destruct a; done.
Qed.

Lemma exec_done o m : done_ (exec o m) = true -> done_ m = true \/ o = OClose.
Proof. destruct o; cbn; auto. by destruct tier; auto. Qed.

Lemma starts_quiet o m th : th ∈ starts o m -> wide th /\ ~ halts th.
Proof.
  destruct o; cbn; try case_match; rewrite ?elem_of_nil, ?list_elem_of_singleton; try done; intros ->; by split; [|intros []].
Qed.

Lemma watch_moves k n b st st' : 1 <= k <= 62 -> rings_ok key k n b st -> b < 2 ^ 62 -> counts_ok n st -> watch_ok n st ->
  moves key st st' -> watch_ok n st'.
Proof.
  intros Hk Hok Hb Hc [W1 W2 W3 W4] Hm. pose proof (counts_moves key n st st' Hc Hm) as Hc'.
  destruct Hm as [i th o th' Hi Hn|c|i th ge t th' Hi Hn|i th cl th' Hi Hn Hcl].
  - pose proof (next_special n th (mem st) o th' (proj2 (c_range _ _ Hc) i th Hi) (W1 _ _ Hi) Hn) as Hsp.
    destruct (exec_ghosts (mem st) o) as (_ & _ & _ & Hst). split; cbn [threads mem].
    + intros j y [(-> & -> & _)|[[? ?]|Hy]]%lookup_insert_app; [by eapply next_wide; eauto|by eapply W1|by eapply starts_quiet].
    + intros j y [(-> & -> & _)|[[? ?]|Hy]]%lookup_insert_app Hh; [by eapply next_halts; eauto|apply Hst; by eapply W2|by destruct (starts_quiet _ _ _ Hy) as [_ []]].
    + intros [Hd| ->]%exec_done; [by apply Hst, W3|]. apply Hst. eapply W2; [exact Hi|]. by eapply special_close.
    + intros Hs' s Hs. assert (Hs0 : stopped (mem st) = false) by (destruct (stopped (mem st)); [by rewrite Hst in Hs'|done]).
      assert (Hns : ~ stops th).
      { intros Hth. destruct th as [| | | | | |a| | | | | | | |]; try (by destruct Hth).
        destruct a; try (by pose proof (W2 i _ Hi I); congruence). cbn in Hn. by simplify_eq. }
      apply (resp_after n st i th o th' Hi Hn Hsp Hns k b s); try done; auto.
      intros v ->. pose proof (W2 i _ Hi I). congruence.
  - split; cbn [threads mem].
    + intros j y [?|[_ ?]]%lookup_app_Some; [by eapply W1|]. destruct (j - length (threads st))%nat; simplify_eq/=. by destruct c.
    + intros j y [?|[_ ?]]%lookup_app_Some Hh; [by eapply W2|]. destruct (j - length (threads st))%nat; simplify_eq/=. by destruct c.
    + done.
    + intros Hs s Hlt Hr. apply resp_call. by apply W4.
  - split; cbn [threads mem].
    + intros j y [(-> & <- & _)|[? ?]]%list_lookup_insert_Some; [|by eapply W1]. unfold taskEnds in Hn. repeat case_match; by simplify_eq.
    + intros j y [(-> & <- & _)|[? ?]]%list_lookup_insert_Some Hh; [|by eapply W2]. unfold taskEnds in Hn. repeat case_match; simplify_eq; try done. by apply (W2 _ _ Hi).
    + done.
    + intros Hs s Hlt Hr. eapply resp_task; [done|done|]. by apply W4.
  - split; cbn [threads mem].
    + intros j y [(-> & <- & _)|[? ?]]%list_lookup_insert_Some; [|by eapply W1]. unfold ticks in Hn. repeat case_match; by simplify_eq.
    + intros j y [(-> & <- & _)|[? ?]]%list_lookup_insert_Some Hh; [|by eapply W2]. unfold ticks in Hn. repeat case_match; simplify_eq; try done. by apply W3, Hcl.
    + done.
    + intros Hs s Hlt Hr. eapply resp_tick; [done|done|]. by apply W4.
Qed.

Lemma watch_New procs capacity k : 1 <= k <= 62 -> ringCapacity capacity = 2 ^ k -> watch_ok (Z.to_nat (4 * Z.max procs 1)) (New procs capacity).
Proof.
  intros Hk Ek. split; try done. intros _ s Hs Hr. exfalso. revert Hr. unfold ready, sh. cbn [mem New shards].
  rewrite nth_lookup, lookup_replicate_2 by done. cbn. unfold cell, cellAt, mask, newShard. cbn [slots head default].
  rewrite nth_lookup, Z.land_0_l. cbn. pose proof (cap_bounds k Hk). rewrite Ek.
  rewrite list_lookup_fmap, lookup_seq_lt by lia. done.
Qed.
End Watching.
