(* ===== verification/ShardCrew.v ===== *)
(** * Who is at work when a task waits

    A pool that finds no worker for a task has workers at work: one of the
    goroutines stays a worker, whatever the janitor retires.  With it, what
    [ShardWake] knows of every state says what a state in which nothing can
    move looks like. *)

From S2P Require Import Prelude Update WheelRing ShardPool ShardFacts ShardRing ShardCount ShardWake.
Local Open Scope Z_scope.

#[local] Arguments Nat.modulo _ _ : simpl never.
#[local] Arguments Nat.div _ _ : simpl never.
#[local] Arguments Nat.ltb _ _ : simpl never.

Section Crew.
Context {T : Type} (key : T -> Z).
Implicit Types (m : pool T) (th : thread T) (st : system (T:=T)) (s w : nat).

(** ** A worker has one goroutine *)

Section Unique.
Context (n : nat) (st : system (T:=T)).
Hypothesis Hc : counts_ok n st.

Lemma registered_once w : sumZ (fun th => ind (registered th = Some w)) (threads st) <= 1.
Proof.
  assert (Hle : forall l, sumZ (fun th => ind (registered th = Some w)) l <= sumZ (fun th => reads (mem st) th (MWorker w)) l).
  { induction l as [|th l IH]; cbn [sumZ]; [lia|]. rewrite reads_worker. unfold ind at 1 3. pose proof (registered_being th w).
    repeat case_decide; try lia. tauto. }
  pose proof (Hle (threads st)). pose proof (c_balance _ _ Hc (MWorker w)) as E. cbn [level] in E. unfold ind in E at 1. case_decide; lia.
Qed.

(** An idle worker is idle once, nobody holds it and its channel is empty. *)
Lemma park_level w : level (mem st) (MPark w) + sumZ (fun th => occ w (held th)) (threads st) <= 1.
Proof. pose proof (registered_once w). pose proof (c_balance _ _ Hc (MPark w)) as E. rewrite sum_reads_park in E. lia. Qed.

Lemma held_sum j th w : threads st !! j = Some th -> w ∈ held th -> 1 <= sumZ (fun th => occ w (held th)) (threads st).
Proof.
  intros Hj Hw. pose proof (sumZ_ge (fun th => occ w (held th)) _ _ _ (fun _ => occ_nonneg _ _) Hj) as Hge. apply occ_pos in Hw. cbn in Hge. lia.
Qed.

Lemma idle_sum s w : w ∈ idle (sh (mem st) s) -> 1 <= occ w (idle (sh (mem st) s)) <= sumZ (fun y => occ w (idle y)) (shards (mem st)).
Proof.
  intros Hw. pose proof (proj2 (occ_pos _ _) Hw). split; [lia|]. unfold sh in *. rewrite nth_lookup in *.
  destruct (shards (mem st) !! s) as [y|] eqn:E; [|cbn in Hw; set_solver].
  apply (sumZ_ge (fun y => occ w (idle y)) _ _ _ (fun _ => occ_nonneg _ _) E).
Qed.

Lemma held_empty j th w : threads st !! j = Some th -> w ∈ held th -> wake (ob (mem st) w) = None.
Proof.
  intros Hj Hw. pose proof (held_sum j th w Hj Hw). pose proof (park_level w) as Hl. cbn [level] in Hl.
  pose proof (sumZ_nonneg (fun y => occ w (idle y)) (shards (mem st)) (fun _ => occ_nonneg _ _)). unfold ind in Hl.
  case_decide as Hd; [lia|]. destruct (wake (ob (mem st) w)); [by destruct Hd|done].
Qed.

Lemma idle_facts s w : w ∈ idle (sh (mem st) s) ->
  wake (ob (mem st) w) = None /\ occ w (idle (sh (mem st) s)) = 1 /\
  (forall j th, threads st !! j = Some th -> w ∉ held th) /\
  exists j t a, threads st !! j = Some (TWorker w t (RunPark a)) /\ a <> ParkLock.
Proof.
  intros Hw. pose proof (idle_sum s w Hw). pose proof (park_level w) as Hl. cbn [level] in Hl.
  pose proof (sumZ_nonneg (fun th => occ w (held th)) (threads st) (fun _ => occ_nonneg _ _)).
  pose proof (ind_nonneg (wake (ob (mem st) w) <> None)). split_and!; [|lia| |].
  - clear -Hl H H0. unfold ind in Hl. case_decide as Hd; [lia|]. destruct (wake (ob (mem st) w)); [by destruct Hd|done].
  - intros j th Hj Hh. pose proof (held_sum j th w Hj Hh). lia.
  - destruct (sum_park_registered n st w Hc) as (j & th & Hj & Hr); [left; cbn; lia|].
    destruct th as [| | | | | | |w' t a| | | | | | |]; try done. destruct a; try done. destruct a; try done; cbn in Hr; simplify_eq; by eexists _, _, _.
Qed.
End Unique.

(** ** A worker that stays *)

Definition retiring th : list nat := match th with TJanitor (JanitorShard _ _ (RetireSend ws)) => ws | _ => [] end.
Definition staying st w : Prop :=
  (exists j t a, threads st !! j = Some (TWorker w t a) /\ a <> RunDone) /\ wake (ob (mem st) w) <> Some None /\
  forall j th, threads st !! j = Some th -> w ∉ retiring th.

(** A goroutine that is starting a worker. *)
Definition hiring (a : find_at) : Prop :=
  match a with FindStart (StartJanitor | StartGo) | FindBorrow (BorrowStart _ (StartJanitor | StartGo)) => True | _ => False end.
Definition finding m th : option find_at :=
  match th with
  | TRescue _ (RescueFind _ _ a) => Some a
  | _ => match notifying m th with Some (_, NotifyFind a) => Some a | _ => None end
  end.
Definition peopled st : Prop :=
  (exists w, staying st w) \/ exists j th a, threads st !! j = Some th /\ finding (mem st) th = Some a /\ hiring a.

(** A notifier that found no worker to wake and none to start on its shard. *)
Definition beyond (a : notify_at) : Prop :=
  match a with NotifyFind (FindBorrow _) | NotifyDrop | NotifyStarving | NotifyStarve | NotifyIdle _ => True | _ => False end.

Lemma notifying_any m m' th s a : notifying m th = Some (s, a) -> exists s', notifying m' th = Some (s', a).
Proof. destruct th as [| | | | | | |w t [| | | | | | | | |[]| | | |]| | | | | | |]; cbn; intros; simplify_eq; eauto. Qed.

Lemma finding_any m m' th : finding m' th = finding m th.
Proof. by destruct th as [| | | | | | |w t [| | | | | | | | |[]| | | |]| | | | | | |]. Qed.

Lemma find_hiring m s a : hiring a ->
  (exists a', find s a m = Go OJanitor a' /\ hiring a') \/ exists j t, find s a m = Back (OGoWorker j t) true.
Proof.
  destruct a as [|[]|[|i []]]; try done; intros _; cbn [find borrow call start]; rewrite ?andb_false_r; cbn [start call];
    [left|right|left|right]; eexists; try (eexists; done); done.
Qed.

Lemma notify_beyond m s a o a' : notify s a m = Go o a' -> beyond a' -> beyond a \/ stopped m = true \/ MaxWorkers <= live (sh m s).
Proof.
  intros E Hb. destruct a; try (by left); cbn [notify] in E.
  - apply call_Go in E as [(? & _ & ->)|([] & _ & ?)]; by simplify_eq.
  - case_match; by simplify_eq.
  - case_match; by simplify_eq.
  - destruct a as [a|a|a]; [| |by left]; cbn [find] in E.
    + apply call_Go in E as [(l & E & ->)|(r & E & Er)].
      * apply call_Go in E as [(? & _ & ->)|([] & _ & ?)]; by simplify_eq.
      * apply call_Back in E as ([] & E & Er'); simplify_eq.
    + apply call_Go in E as [(l & E & ->)|(r & E & Er)].
      * apply call_Go in E as [(l' & E & ->)|(r & E & Er)]; [done|]. right. destruct r; simplify_eq.
        destruct a; cbn in E; [|done|done]. case_match eqn:Ec; simplify_eq. apply orb_true_iff in Ec as [Ec|Ec]; [right; by apply Z.leb_le|by left].
      * apply call_Back in E as ([] & E & Er'); simplify_eq.
Qed.

Lemma batchNext_beyond act (ts : list T) ws m s a :
  notifying m (match batchNext (T:=T) act ts ws with inl l => TSubmitBatch l | inr b => TEnd b end) = Some (s, a) -> a = NotifyHas HasHead.
Proof. destruct ts; cbn [batchNext]; [|done]. unfold notifyTouched. destruct (nextTouched _ _) as [[[]]|]; cbn; intros; by simplify_eq. Qed.

(** ** The operations that hire, starve the pool or retire *)

Definition calm (o : op T) : Prop :=
  match o with OStart _ | OGoWorker _ _ | OStarving true | OSend _ None | ORetire _ _ => False | _ => True end.
Definition calms {L A} (r : res T L A) : Prop := match r with Go o _ | Back o _ => calm o | Block => True end.

Lemma calms_call {L A L' A'} (r : res T L A) (f : L -> L') (g : A -> L' + A') : calms r -> calms (call r f g).
Proof. destruct r; cbn; try done. by destruct (g a). Qed.
Lemma calms_onward {L A} (r : res T L A) inside ret o th' : onward inside ret r = Some (o, th') -> calms r -> calm o.
Proof. destruct r; cbn; intros; by simplify_eq. Qed.
Ltac calm_leaf a := destruct a; cbn; repeat case_match; done.
Lemma hasTask_calm s a m : calms (hasTask s a m).
Proof. calm_leaf a. Qed.
Lemma push_calm s (t : T) a m : calms (push s t a m).
Proof. calm_leaf a. Qed.
Lemma pop_calm s a m : calms (pop s a m).
Proof. calm_leaf a. Qed.
Lemma runOverflow_calm s (t : T) a m : calms (runOverflow s t a m).
Proof. calm_leaf a. Qed.
Lemma watch_calm a m : calms (watch a m).
Proof. calm_leaf a. Qed.
Lemma wakeIdle_calm j s a m : calms (wakeIdle j s a m).
Proof. calm_leaf a. Qed.
Hint Resolve calms_call hasTask_calm push_calm pop_calm runOverflow_calm watch_calm wakeIdle_calm : shards.

Lemma find_ops m s a :
  match find s a m with
  | Go o a' => calm o \/ exists j, o = OStart j /\ hiring a' /\ stopped m = false
  | Back o r => calm o \/ exists j t, o = OGoWorker j t /\ r = true
  | Block => True
  end.
Proof.
  assert (Hst : forall j a0, match start j s a0 m with
    | Go o a' => calm o \/ exists j, o = OStart j /\ (a' = StartJanitor \/ a' = StartGo) /\ stopped m = false
    | Back o r => calm o \/ (exists j t, o = OGoWorker j t /\ r = true) | Block => True end).
  { intros j a0. destruct a0; cbn; [|by left|right; eauto]. destruct (_ <=? _); [by left|]. destruct (stopped m); [by left|].
    right. exists j. split_and!; [done|destruct (1 <? _); auto|done]. }
  destruct a as [a|a|a]; cbn [find].
  - pose proof (wakeIdle_calm s s a m). destruct (wakeIdle s s a m) as [| ? []|]; cbn in *; auto.
  - specialize (Hst s a). destruct (start s s a m) as [o l|o []|]; cbn; [| | |done].
    + destruct Hst as [?|(j & -> & [->| ->] & ?)]; [by left|right; eauto..].
    + destruct Hst as [?|(j & t & -> & _)]; [by left|right; eauto].
    + destruct Hst as [?|(j & t & -> & ?)]; [by left|done].
  - destruct a as [i a|i a]; cbn [borrow]; destruct (_ && _); cbn.
    + by left.
    + pose proof (wakeIdle_calm (Nat.modulo (s + 1 + i) (length (shards m))) s a m). destruct (wakeIdle _ s a m) as [| ? []|]; cbn in *; auto.
    + destruct (S i <? _)%nat; by left.
    + specialize (Hst (Nat.modulo (s + 1 + i) (length (shards m))) a). destruct (start _ s a m) as [o l|o []|]; cbn; [| | |done].
      * destruct Hst as [?|(j & -> & [->| ->] & ?)]; [by left|right; eauto..].
      * destruct Hst as [?|(j & t & -> & _)]; [by left|right; eauto].
      * destruct Hst as [?|(j & t & -> & ?)]; [|done]. destruct (S i <? _)%nat; by left.
Qed.

Lemma notify_ops m s a :
  match notify s a m with
  | Go o a' => calm o \/ (exists j f, o = OStart j /\ a' = NotifyFind f /\ hiring f /\ stopped m = false) \/ (o = OStarving true /\ beyond a)
  | Back o r => calm o \/ exists j t, o = OGoWorker j t
  | Block => True
  end.
Proof.
  destruct a as [a| | |a| | | |j]; cbn [notify].
  - pose proof (hasTask_calm s a m). destruct (hasTask s a m) as [| ? []|]; cbn in *; auto.
  - destruct (_ =? _); by left.
  - destruct (_ =? _); by left.
  - pose proof (find_ops m s a). destruct (find s a m) as [o l|o []|]; cbn; [| | |done].
    + destruct H as [?|(j & -> & ? & ?)]; [by left|right; left; by eexists _, _].
    + destruct H as [?|(j & t & -> & _)]; [by left|right; eauto].
    + destruct H as [?|(j & t & -> & ?)]; [by left|done].
  - by left.
  - by left.
  - right. by right.
  - destruct (_ <? _)%nat; [destruct (negb _)|]; by left.
Qed.

Lemma next_calm m th o th' : notifying m th = None -> finding m th = None -> next key th m = Some (o, th') ->
  calm o \/ exists a, th = TJanitor a.
Proof.
  intros Hn Hf H. destruct th as [t a|t a|a| | |now a|a|w s a|s a|a|a| | | |]; try done; try (by right; eauto); left.
  - destruct a; try done; eapply calms_onward; [exact H| |exact H| |exact H|]; cbn [Submit]; auto with shards. done.
  - destruct a as [| | |s []]; try done; eapply calms_onward; [exact H| |exact H| |exact H| |exact H| |exact H|]; cbn [SubmitBehind notifyBehind]; auto with shards; done.
  - destruct a as [|? ? ? ? a|? ? ? ? a| |t ts a]; try done.
    + cbn [next SubmitBatch] in H. repeat case_match; cbn in H; by simplify_eq.
    + eapply calms_onward; [exact H|]. cbn [SubmitBatch]. auto with shards.
    + eapply calms_onward; [exact H|]. cbn [SubmitBatch]. auto with shards.
    + eapply calms_onward; [exact H|]. cbn [SubmitBatch]. apply calms_call. destruct a; try done; cbn [Submit]; auto with shards.
  - cbn in H. by simplify_eq.
  - cbn in H. by simplify_eq.
  - destruct a; try done; cbn [next Rescue] in H; try (solve [repeat case_match; cbn in H; simplify_eq; try done; by case_match]).
    eapply calms_onward; [exact H|]. auto with shards.
  - destruct a; cbn [next Stop] in H; try (solve [repeat case_match; cbn in H; by simplify_eq]).
    eapply calms_onward; [exact H|]. auto with shards.
  - destruct a; try done; cbn [next run] in H; try (cbn in H; by simplify_eq); eapply calms_onward; try exact H; auto with shards.
    apply calms_call. destruct a; try done; cbn [park]; auto with shards; repeat case_match; done.
  - destruct a; cbn [next overflowing] in H; [done| |cbn in H; by simplify_eq]. eapply calms_onward; [exact H|]. auto with shards.
  - destruct a; try done; cbn [next monitor] in H; try (solve [repeat case_match; cbn in H; by simplify_eq]); eapply calms_onward; try exact H; auto with shards.
Qed.

(** A notifier is new, or was one before. *)
Lemma notifying_before m th o th' s a' :
  next key th m = Some (o, th') -> notifying (exec o m) th' = Some (s, a') ->
  a' = NotifyHas HasHead \/ exists s0 a, notifying m th = Some (s0, a) /\ notify s0 a m = Go o a'.
Proof.
  intros H E. destruct th as [t a|t a|a| | |now a|a|w t a|t a|a|a| | | |]; try done.
  - destruct a; cbn [next Submit] in H; [cbn in H; by simplify_eq|..]; apply onward_call in H as [(l & H & ->)|(r & H & ->)]; try done.
    + left. destruct r; cbn in E; by simplify_eq.
    + cbn in E. simplify_eq. right. eexists _, _. done.
  - destruct a; cbn [next SubmitBehind] in H; [cbn in H; by simplify_eq|..]; apply onward_call in H as [(l & H & ->)|(r & H & ->)]; try done.
    + by destruct r.
    + destruct a; cbn [notifyBehind] in H; simplify_eq.
      * left. destruct (0 <? _); cbn in E; by simplify_eq.
      * apply call_Go in H as [(l' & H & ->)|(r & H & ?)]; [done|by simplify_eq].
      * apply call_Go in H as [(l' & H & ->)|(r & H & ?)]; [|by simplify_eq]. cbn in E. simplify_eq. right. eexists _, _. done.
  - destruct a; cbn [next SubmitBatch] in H.
    + left. destruct (64 <? active m); [destruct (1024 <? active m)|].
      * destruct ts; cbn in H; by simplify_eq.
      * pose proof (batchNext_beyond (active m) ts (replicate 16 0) (exec o m) s a'). destruct (batchNext _ _ _); cbn in H; simplify_eq; auto.
      * pose proof (batchNext_beyond (active m) ts [0] (exec o m) s a'). destruct (batchNext _ _ _); cbn in H; simplify_eq; auto.
    + apply onward_call in H as [(l & H & ->)|(r & H & ->)]; [done|]. destruct r; [|done]. left. by eapply batchNext_beyond.
    + apply onward_call in H as [(l & H & ->)|(r & H & ->)]; [done|]. left. by eapply batchNext_beyond.
    + apply onward_call in H as [(l & H & ->)|(r & H & ->)]; [cbn in E; simplify_eq; right; eexists _, _; done|].
      left. revert E. unfold notifyTouched. destruct (nextTouched _ _) as [[[]]|]; cbn; intros; by simplify_eq.
    + apply onward_call in H as [(l & H & ->)|(r & H & ->)]; [|by destruct ts]. destruct a; cbn [Submit] in H; [simplify_eq; by cbn in E|..];
        apply call_Go in H as [(l' & H & ->)|(r & H & ?)]; try done; simplify_eq.
      * left. destruct r; cbn in E; by simplify_eq.
      * cbn in E. simplify_eq. right. eexists _, _. done.
  - cbn in H. by simplify_eq.
  - cbn in H. by simplify_eq.
  - destruct a; cbn [next Rescue] in H; try (solve [exfalso; repeat case_match; cbn in H; simplify_eq; cbn in E; try done; by repeat case_match]).
    + apply onward_call in H as [(l & H & ->)|(r & H & ->)]; done.
    + apply onward_call in H as [(l & H & ->)|(r & H & ->)]; [done|]. exfalso. destruct r; [|done]. by destruct (S i <? n)%nat.
    + cbn in H. simplify_eq. cbn in E. simplify_eq. by left.
    + apply onward_call in H as [(l & H & ->)|(r & H & ->)]; [cbn in E; simplify_eq; right; eexists _, _; done|]. exfalso. by destruct (S i <? n)%nat.
  - exfalso. destruct a; cbn [next Stop] in H; unfold stopSend, stopNext in H; try (solve [repeat case_match; cbn in H; by simplify_eq]).
    apply onward_call in H as [(l & H & ->)|(r & H & ->)]; [done|]. by destruct r; [|destruct (S i <? _)%nat].
  - destruct a; cbn [next run] in H; try (cbn in H; by simplify_eq); apply onward_call in H as [(l & H & ->)|(r & H & ->)]; try done.
    + by destruct r.
    + destruct r; cbn in E; simplify_eq. by left.
    + cbn in E; simplify_eq; right; eexists _, _; done.
    + destruct r; cbn in E; simplify_eq. by left.
    + cbn in E; simplify_eq; right; eexists _, _; done.
    + destruct a; cbn [park] in H; try (solve [repeat case_match; simplify_eq; cbn in E; simplify_eq; by left]).
      * apply call_Go in H as [(l' & H & ->)|(r & H & ?)]; [done|]. destruct r; simplify_eq; try done. cbn in E. simplify_eq. by left.
      * apply call_Go in H as [(l' & H & ->)|(r & H & ?)]; [cbn in E; simplify_eq; right; eexists _, _; done|by simplify_eq].
      * apply call_Go in H as [(l' & H & ->)|(r & H & ?)]; [cbn in E; simplify_eq; right; eexists _, _; done|].
        destruct (S i <? _)%nat; simplify_eq; try done. cbn in E. simplify_eq. by left.
    + by destruct r.
  - exfalso. destruct a; cbn [next overflowing] in H; [done| |cbn in H; simplify_eq; by destruct goexit].
    apply onward_call in H as [(l & H & ->)|(r & H & ->)]; [done|]. by destruct r.
  - assert (Hmn : forall n i h v, notifying (exec o m) (TMonitor (monitorNext n i h v)) = None) by (intros; unfold monitorNext; by repeat case_match).
    destruct a; cbn [next monitor] in H; try (solve [repeat case_match; cbn in H; simplify_eq; by repeat case_match]).
    + apply onward_call in H as [(l & H & ->)|(r & H & ->)]; [done|]. destruct r; [|by rewrite Hmn in E].
      revert E. case_match; [|by rewrite Hmn]. cbn. intros. simplify_eq. by left.
    + apply onward_call in H as [(l & H & ->)|(r & H & ->)]; [cbn in E; simplify_eq; right; eexists _, _; done|]. by rewrite Hmn in E.
    + apply onward_call in H as [(l & H & ->)|(r & H & ->)]; [done|]. destruct r; [done|]. by destruct (S i <? _)%nat.
  - destruct a; cbn [next retireIdleWorkers] in H; [done|cbn in H; by simplify_eq|].
    apply onward_call in H as [(l & H & ->)|(r & H & ->)]; [done|]. by destruct (S i <? _)%nat.
Qed.

(** What the janitor does. *)
Lemma janitor_next m a o th' : next key (TJanitor a) m = Some (o, th') ->
  (exists s c, o = ORetire s c /\ retiring th' = take c (idle (sh m s)) /\ (c <= length (removelast (idle (sh m s))))%nat) \/
  ((forall w, w ∈ retiring th' -> w ∈ retiring (TJanitor a)) /\ 
    match o with ONop | OClock => True | OSend w v => v = None /\ w ∈ retiring (TJanitor a) | _ => False end).
Proof.
  intros H. destruct a as [| |now i a]; cbn [next retireIdleWorkers] in H; [done|cbn in H; simplify_eq; right; by split|].
  apply onward_call in H as [(l & H & ->)|(r & H & ->)]; destruct a as [| |[|w ws]]; cbn [retireIdle] in H.
  - case_match; simplify_eq. right. by split.
  - simplify_eq. left. eexists _, _. split_and!; [done|done|apply expired_bound].
  - done.
  - case_decide; simplify_eq. right. split; [intros w'; cbn; set_solver|]. split; [done|cbn; set_solver].
  - case_match; simplify_eq. right. split; [|done]. by destruct (_ <? _)%nat.
  - done.
  - simplify_eq. right. split; [|done]. by destruct (_ <? _)%nat.
  - by case_decide.
Qed.
Lemma janitor_ops m a o th' : next key (TJanitor a) m = Some (o, th') ->
  match o with ORetire _ _ | ONop | OClock | OSend _ None => True | _ => False end.
Proof. intros [(s & c & -> & _)|[_ Ho]]%janitor_next; [done|]. destruct o; try done. by destruct Ho as [-> _]. Qed.

(** The pool has had to hire. *)
Definition pressed st : Prop :=
  starving (mem st) = true \/ (exists s, 1 <= live (sh (mem st) s)) \/
  exists j th s a, threads st !! j = Some th /\ notifying (mem st) th = Some (s, a) /\ beyond a.

Lemma finding_notify m th s f : notifying m th = Some (s, NotifyFind f) -> finding m th = Some f.
Proof. intros E. unfold finding. destruct th as [| | | | |? []| | | | | | | | |]; try done; by rewrite E. Qed.

Lemma live_exec o m s : live (sh (exec o m) s) <= live (sh m s) \/ exists s', o = OStart s'.
Proof.
  destruct o; cbn [exec]; try (by left; apply Z.le_refl); try (by right; eauto);
    try (left; apply (field_onShard (fun a b => b <= a)); [intros; apply Z.le_refl|intros _ _; cbn; lia]).
  - left. rewrite <- (sh_onWorker m w (fun x => x <| parked := clock m |>) s) at 1. apply (field_onShard (fun a b => b <= a)); [intros; apply Z.le_refl|intros _ _; cbn; lia].
  - left. by destruct tier.
Qed.

Section Stays.
Context (n : nat) (st : system (T:=T)) (i : nat) (th : thread T) (o : op T) (th' : thread T).
Hypothesis (Hi : threads st !! i = Some th) (Hn : next key th (mem st) = Some (o, th')).
Hypothesis (Hc : counts_ok n st) (Hs : stopped (mem st) = false).
Abbreviation st' := (after st i o th').

Let Hself : threads st' !! i = Some th'.
Proof. by eapply after_self. Qed.
Let Hkn : known (mem st) (homes th).
Proof.
  apply Forall_forall. intros w Hw%homes_ids. pose proof (ids_known n st i th Hc Hi) as Hids. unfold known in Hids. rewrite Forall_forall in Hids. auto.
Qed.

(** Hiring leaves its goroutine hiring, and only a notifier starves the pool. *)
Lemma mover_ops :
  calm o \/ (exists a, th = TJanitor a) \/ (exists j t, o = OGoWorker j t) \/
  (exists j f, o = OStart j /\ finding (mem st') th' = Some f /\ hiring f /\ stopped (mem st) = false) \/
  (o = OStarving true /\ exists s a, notifying (mem st) th = Some (s, a) /\ beyond a).
Proof.
  destruct (notifying (mem st) th) as [[s a]|] eqn:En.
  - destruct (notifying_next key _ _ _ _ _ _ Hkn En Hn) as [(a' & E & Ea)|(r & E)]; pose proof (notify_ops (mem st) s a) as Ho; rewrite E in Ho.
    + destruct Ho as [?|[(j & f & Eo & -> & Hf & ?)|[Eo Hb]]]; [by left|do 3 right; left|do 4 right; eauto].
      exists j, f. split_and!; try done. by eapply finding_notify.
    + destruct Ho as [?|?]; auto.
  - destruct (finding (mem st) th) as [f|] eqn:Ef; [|destruct (next_calm _ _ _ _ En Ef Hn) as [?|?]; auto].
    destruct th as [| | | | |now a| | | | | | | | |]; try (unfold finding in Ef; rewrite En in Ef; done).
    destruct a; try done. pose proof Hn as H. cbn [next Rescue] in H. pose proof (find_ops (mem st) i0 a) as Ho.
    apply onward_call in H as [(l & H & ->)|(r & H & _)]; rewrite H in Ho.
    + destruct Ho as [?|(j & Eo & Hf & ?)]; [by left|]. do 3 right. left. by exists j, l.
    + destruct Ho as [?|(j & t & Eo & _)]; eauto 6.
Qed.

Lemma hires : (exists j, o = OStart j) -> (exists a, finding (mem st') th' = Some a /\ hiring a) /\ stopped (mem st) = false.
Proof.
  intros [j Eo]. destruct mover_ops as [H|[[a Ea]|[(? & ? & H)|[(? & f & _ & ? & ? & ?)|[H _]]]]]; rewrite ?Eo in *; try done; [|eauto].
  pose proof Hn as H. rewrite Ea in H. by apply janitor_ops in H.
Qed.

Lemma starves : o = OStarving true -> exists s a, notifying (mem st) th = Some (s, a) /\ beyond a.
Proof.
  intros Eo. destruct mover_ops as [H|[[a Ea]|[(? & ? & H)|[(? & f & H & _)|[_ H]]]]]; rewrite ?Eo in *; try done.
  pose proof Hn as H. rewrite Ea in H. by apply janitor_ops in H.
Qed.

Lemma pressed_before : pressed st' -> pressed st \/ peopled st'.
Proof.
  intros [Hst|[(s & Hl)|(j & th0 & s & a & Hj & Ea & Hb)]].
  - cbn [after mem] in Hst. destruct (starving (mem st)) eqn:Es; [left; by left|].
    assert (Eo : o = OStarving true) by (revert Hst Es; clear; destruct o; cbn; try congruence; try (by destruct b); destruct tier; cbn; congruence).
    left. right. right. destruct (starves Eo) as (s & a & ? & ?). by exists i, th, s, a.
  - destruct (live_exec o (mem st) s) as [Hle|Ho]; [left; right; left; exists s; cbn [after mem] in Hl; lia|].
    right. right. destruct (hires Ho) as [(a & ? & ?) _]. by exists i, th', a.
  - unfold after in Hj. apply lookup_insert_app in Hj as [(-> & -> & _)|[[Hne Hj]|Hj]].
    + destruct (notifying_before _ _ _ _ _ _ Hn Ea) as [->|(s0 & a0 & E0 & E)]; [done|].
      destruct (notify_beyond _ _ _ _ _ E Hb) as [Hb0|[?|Hl]]; [left; right; right; by exists i, th, s0, a0|congruence|].
      left. right. left. exists s0. unfold MaxWorkers in Hl. lia.
    + left. right. right. apply (notifying_any _ (mem st)) in Ea as [s' Ea]. by exists j, th0, s', a.
    + exfalso. destruct o; cbn in Hj; try case_match; rewrite ?elem_of_nil, ?list_elem_of_singleton in Hj; by subst.
Qed.

Lemma retires : match o with OSend _ None | ORetire _ _ => True | _ => False end -> exists a, th = TJanitor a.
Proof.
  intros Ho. destruct mover_ops as [H|[H|[(? & ? & Eo)|[(? & f & Eo & _)|[Eo _]]]]]; try (by rewrite Eo in Ho); [|done].
  exfalso. clear -Ho H. destruct o as []; try (destruct Ho; fail); try (destruct H; fail). destruct v; [destruct Ho|destruct H].
Qed.

Lemma retiring_after j th0 w : threads st' !! j = Some th0 -> w ∈ retiring th0 ->
  (exists j th1, threads st !! j = Some th1 /\ w ∈ retiring th1) \/
  (exists s c, o = ORetire s c /\ w ∈ take c (idle (sh (mem st) s)) /\ (c <= length (removelast (idle (sh (mem st) s))))%nat).
Proof.
  intros Hj Hw. apply lookup_insert_app in Hj as [(-> & -> & _)|[[Hne Hj]|Hj]].
  - assert (exists a, th' = TJanitor a) as [a' Ea'] by (destruct th'; try (cbn in Hw; set_solver); eauto).
    assert (exists a, th = TJanitor a) as [a Ea].
    { pose proof Hn as H. rewrite Ea' in H. destruct th; try (exfalso; cbn [next] in H; unfold onward in H; repeat case_match; by simplify_eq). eauto. }
    pose proof Hn as H. rewrite Ea in H. apply janitor_next in H as [(s & c & Eo & E & Hl)|[Hsub _]].
    + right. exists s, c. by rewrite <- E.
    + left. exists i, th. rewrite Ea in *. auto.
  - left. eauto.
  - exfalso. destruct o; cbn in Hj; try case_match; rewrite ?elem_of_nil, ?list_elem_of_singleton in Hj; subst; try done; cbn in Hw; set_solver.
Qed.

Lemma wake_after w : (w < length (objects (mem st)))%nat -> wake (ob (mem st') w) = Some None ->
  wake (ob (mem st) w) = Some None \/ w ∈ retiring th.
Proof.
  intros Hw E. assert (Ho : wake (ob (mem st) w) = Some None \/ o = OSend w None).
  { revert E. cbn [after mem]. destruct o; cbn [exec]; try (by left).
    - destruct (decide (w0 < length (objects (mem st)))%nat); [|rewrite onWorker_beyond by lia; by left].
      rewrite ob_onWorker by done. case_decide; [|by left]. subst. cbn. intros [= ->]. by right.
    - destruct (decide (w0 < length (objects (mem st)))%nat); [|rewrite onWorker_beyond by lia; by left].
      rewrite ob_onWorker by done. case_decide; [|by left]. done.
    - unfold ob. cbn. rewrite app_nth1 by done. by left.
    - change (ob (onShard _ _ ?y) w) with (ob y w).
      destruct (decide (w0 < length (objects (mem st)))%nat); [|rewrite onWorker_beyond by lia; by left].
      rewrite ob_onWorker by done. case_decide; [|by left]. subst. by left.
    - destruct tier; by left. }
  destruct Ho as [?|Eo]; [by left|right]. destruct retires as [a Ea]; [by rewrite Eo|].
  pose proof Hn as H. rewrite Ea, Eo in H. apply janitor_next in H as [(? & ? & ? & _)|[_ [_ ?]]]; [done|]. by rewrite Ea.
Qed.

Lemma worker_after j w t a : threads st !! j = Some (TWorker w t a) -> a <> RunDone -> wake (ob (mem st) w) <> Some None ->
  exists j' t' a', threads st' !! j' = Some (TWorker w t' a') /\ a' <> RunDone.
Proof.
  intros Hj Ha Hw. destruct (decide (j = i)) as [->|Hne]; [|exists j, t, a; split; [by apply after_other|done]].
  assert (Et : th = TWorker w t a) by congruence. pose proof Hn as H. rewrite Et in H.
  assert (Hgo : forall t' a', th' = TWorker w t' a' -> a' <> RunDone -> exists j' t' a', threads st' !! j' = Some (TWorker w t' a') /\ a' <> RunDone).
  { intros t' a' E Hne. exists i, t', a'. by rewrite Hself, E. }
  destruct a; try done; cbn [next run] in H; try (cbn in H; injection H as _ E; by eapply Hgo);
    try (apply onward_call in H as [(l & H & E)|(r & H & E)]; cbn in E; (eapply Hgo; [exact E|try done; by case_match])).
  - apply onward_call in H as [(l & H & E)|(r & H & E)]; [by eapply Hgo|]. destruct r; [by eapply Hgo|]. exfalso.
    destruct a; cbn [park] in H; try (repeat case_match; by simplify_eq); try (by apply call_Back in H as (? & _ & ?)).
  - cbn in H. injection H as Eo _. exists (length (threads st)), t, RunRunning. split; [|done].
    cbn [after threads]. rewrite lookup_app_r; rewrite length_insert; [|done]. rewrite Nat.sub_diag, <- Eo. done.
Qed.

Lemma retiring_held th0 w : w ∈ retiring th0 -> w ∈ held th0.
Proof. destruct th0; cbn; set_solver. Qed.

Lemma stays_after w :
  staying st w -> (forall s c, o = ORetire s c -> w ∈ take c (idle (sh (mem st) s)) -> False) -> staying st' w.
Proof.
  intros ((j & t & a & Hj & Ha) & Hw & Hr) Ho. split_and!.
  - by eapply worker_after.
  - intros E. destruct (wake_after w (being_known n st j _ w Hc Hj eq_refl) E) as [E'|E']; [done|exact (Hr i th Hi E')].
  - intros j' th0 Hj' Hin. destruct (retiring_after j' th0 w Hj' Hin) as [(j1 & th1 & Hj1 & H1)|(s & c & Eo & H1 & _)]; [exact (Hr j1 th1 Hj1 H1)|by eapply Ho].
Qed.

(** The janitor leaves the worker that parked last. *)
Lemma last_stays s c w0 : o = ORetire s c -> w0 ∈ take c (idle (sh (mem st) s)) -> exists w, staying st' w.
Proof.
  intros Eo Hw0. destruct retires as [a Ea]; [by rewrite Eo|].
  assert (Hc0 : (c <= length (removelast (idle (sh (mem st) s))))%nat).
  { pose proof Hn as H. rewrite Ea, Eo in H. by apply janitor_next in H as [(s' & c' & [= -> ->] & _ & ?)|[_ []]]. }
  destruct (last (idle (sh (mem st) s))) as [w|] eqn:El.
  2: { apply last_None in El. rewrite El, take_nil in Hw0. set_solver. }
  apply last_Some in El as [l El]. exists w.
  destruct (idle_facts n st Hc s w) as (H1 & H2 & H3 & (j & t & p & H4 & _)); [rewrite El; set_solver|].
  apply stays_after.
  - split_and!; [by exists j, t, (RunPark p)|by rewrite H1|]. intros j' th0 Hj' Hin%retiring_held. exact (H3 j' th0 Hj' Hin).
  - intros s' c' E Hin. assert (s' = s /\ c' = c) as [-> ->] by (rewrite Eo in E; by simplify_eq).
    rewrite El in H2, Hin, Hc0. rewrite removelast_last in Hc0. rewrite take_app_le in Hin by done.
    rewrite occ_app, occ_one in H2. unfold ind in H2. rewrite decide_True in H2 by done.
    apply elem_of_take in Hin as (k0 & Hk0 & _). apply list_elem_of_lookup_2, occ_pos in Hk0. lia.
Qed.

Lemma hiring_after j th0 a : threads st !! j = Some th0 -> finding (mem st) th0 = Some a -> hiring a -> peopled st'.
Proof.
  intros Hj Ef Hh. destruct (decide (j = i)) as [->|Hne].
  2: { right. exists j, th0, a. split; [by apply after_other|]. split; [|done]. by rewrite (finding_any (mem st)). }
  assert (Et : th = th0) by congruence. rewrite <- Et in Ef.
  assert (Hnew : (exists j t, o = OGoWorker j t) -> peopled st').
  { intros (j & t & Eo). left. exists (length (objects (mem st))). split_and!.
    - exists (length (threads st)), t, RunRunning. split; [|done]. cbn [after threads]. rewrite lookup_app_r; rewrite length_insert; [|done].
      rewrite Nat.sub_diag, Eo. done.
    - cbn [after mem]. rewrite Eo, ob_new. done.
    - intros j' th1 Hj' Hin. destruct (retiring_after j' th1 _ Hj' Hin) as [(j1 & th2 & Hj1 & H1)|(s & c & Eo' & _)]; [|congruence].
      pose proof (ids_known n st j1 th2 Hc Hj1) as Hids. unfold known in Hids. rewrite Forall_forall in Hids.
      assert (length (objects (mem st)) ∈ ids th2); [|specialize (Hids _ H); lia]. by destruct th2 as [| | | | | | | | | |[| |? ? []]| | | |]; cbn in *; try set_solver. }
  assert (Hgo : forall f, finding (mem st') th' = Some f -> hiring f -> peopled st').
  { intros f E1 E2. right. by exists i, th', f. }
  assert (Hcase : (exists s, notifying (mem st) th = Some (s, NotifyFind a)) \/ exists now k s, th = TRescue now (RescueFind k s a)).
  { revert Ef. clear. unfold finding. destruct th as [| | | | |now a0| | | | | | | | |]; try (case_match; [|done]; repeat case_match; intros; simplify_eq; eauto; fail).
    destruct a0; cbn; try done; repeat case_match; intros; simplify_eq; eauto 6. }
  destruct Hcase as [[s En]|(now & k & s & Er)]; destruct (find_hiring (mem st) s a Hh) as [(f & E & Hf)|(j & t & E)].
  - destruct (notifying_next key _ _ _ _ _ _ Hkn En Hn) as [(a' & E' & Ea)|(r & E')]; cbn [notify] in E'; rewrite E in E'; cbn in E'; [|done].
    injection E' as _ <-. apply (Hgo f); [|done]. by eapply finding_notify.
  - apply Hnew. destruct (notifying_next key _ _ _ _ _ _ Hkn En Hn) as [(a' & E' & Ea)|(r & E')]; cbn [notify] in E'; rewrite E in E'; cbn in E'; [done|].
    injection E' as <- _. eauto.
  - pose proof Hn as H. rewrite Er in H. cbn [next Rescue] in H. rewrite E in H. cbn in H. injection H as _ E'. apply (Hgo f); [|done]. by rewrite <- E'.
  - apply Hnew. pose proof Hn as H. rewrite Er in H. cbn [next Rescue] in H. rewrite E in H. cbn in H. injection H as <- _. eauto.
Qed.

Lemma peopled_after : peopled st -> peopled st'.
Proof.
  intros [[w Hw]|(j & th0 & a & ? & ? & ?)]; [|by eapply hiring_after].
  assert (Hd : (exists s c, o = ORetire s c /\ w ∈ take c (idle (sh (mem st) s))) \/
    (forall s c, o = ORetire s c -> w ∈ take c (idle (sh (mem st) s)) -> False)).
  { clear. destruct o as []; try (right; congruence). destruct (decide (w ∈ take count (idle (sh (mem st) s)))); [left; eauto|right]. intros ? ? [= <- <-]. done. }
  left. destruct Hd as [(s & c & Eo & Hin)|Hd]; [by eapply last_stays|]. exists w. by apply stays_after.
Qed.
End Stays.

Lemma crew_keep st st' :
  shards (mem st') = shards (mem st) -> objects (mem st') = objects (mem st) -> starving (mem st') = starving (mem st) ->
  (forall j th, threads st' !! j = Some th -> threads st !! j = Some th \/ (notifying (mem st') th = None /\ retiring th = [])) ->
  (forall j th, threads st !! j = Some th -> threads st' !! j = Some th \/
    (finding (mem st) th = None /\ forall w t a, th = TWorker w t a -> exists a', threads st' !! j = Some (TWorker w t a') /\ a' <> RunDone)) ->
  (pressed st -> peopled st) -> pressed st' -> peopled st'.
Proof.
  intros E1 E2 E3 Hnew Hold IH Hp.
  assert (Es : forall s, sh (mem st') s = sh (mem st) s) by (intros; unfold sh; by rewrite E1).
  assert (Ew : forall w, ob (mem st') w = ob (mem st) w) by (intros; unfold ob; by rewrite E2).
  assert (Hp0 : pressed st).
  { destruct Hp as [Hp|[(s & Hp)|(j & th & s & a & Hj & Ea & Hb)]]; [left; congruence|right; left; exists s; by rewrite <- Es|].
    destruct (Hnew j th Hj) as [Hj'|[E _]]; [|congruence]. right. right. apply (notifying_any _ (mem st)) in Ea as [s' Ea]. by exists j, th, s', a. }
  destruct (IH Hp0) as [(w & (j & t & a & Hj & Ha) & Hw & Hr)|(j & th & a & Hj & Ef & Hh)].
  - left. exists w. split_and!.
    + destruct (Hold j _ Hj) as [Hj'|[_ H]]; [by exists j, t, a|]. destruct (H w t a eq_refl) as (a' & ? & ?). by exists j, t, a'.
    + by rewrite Ew.
    + intros j' th Hj'. destruct (Hnew j' th Hj') as [H|[_ ->]]; [by eapply Hr|set_solver].
  - right. exists j, th, a. destruct (Hold j _ Hj) as [Hj'|[E _]]; [|congruence]. split; [done|]. by rewrite (finding_any (mem st)).
Qed.

Record pool_ok (k : Z) (n : nat) (b : Z) st : Prop := {
  p_rings : rings_ok key k n b st;
  p_counts : counts_ok n st;
  p_watch : watch_ok n st;
  p_crew : stopped (mem st) = false -> pressed st -> peopled st
}.

Lemma pool_moves k n b st st' : 1 <= k <= 62 -> b < 2 ^ 62 -> pool_ok k n b st -> moves key st st' -> pool_ok k n (b + 1) st'.
Proof.
  intros Hk Hb [H1 H2 H3 H4] Hm. split; [by eapply rings_moves|by eapply counts_moves|by eapply watch_moves|].
  destruct Hm as [i th o th' Hi Hn|c|i th ge t th' Hi Hn|i th cl th' Hi Hn Hcl]; cbn [mem].
  - intros Hs' Hp. assert (Hs0 : stopped (mem st) = false).
    { destruct (exec_ghosts (mem st) o) as (_ & _ & _ & Hst). destruct (stopped (mem st)); [by rewrite Hst in Hs'|done]. }
    change (peopled (after st i o th')). destruct (pressed_before n st i th o th' Hi Hn H2 Hs0 Hp) as [Hp0|?]; [|done].
    apply (peopled_after n st i th o th' Hi Hn H2 Hs0). auto.
  - intros Hs. apply (crew_keep st); try done; cbn [threads]; [| |by apply H4].
    + intros j th [?|[_ ?]]%lookup_app_Some; [by left|right]. destruct (j - length (threads st))%nat; simplify_eq/=. by destruct c.
    + intros j th Hj. left. by apply lookup_app_l_Some.
  - intros Hs. apply (crew_keep st); try done; cbn [threads]; [| |by apply H4].
    + intros j y [(-> & <- & _)|[? ?]]%list_lookup_insert_Some; [right|by left]. unfold taskEnds in Hn. repeat case_match; by simplify_eq.
    + intros j y Hj. destruct (decide (j = i)) as [->|]; [right|left; by rewrite list_lookup_insert_ne]. assert (th = y) as <- by congruence.
      rewrite list_lookup_insert_eq by (by eapply lookup_lt_Some). unfold taskEnds in Hn. repeat case_match; simplify_eq; (split; [done|]); intros; simplify_eq; by eexists.
  - intros Hs. apply (crew_keep st); try done; cbn [threads]; [| |by apply H4].
    + intros j y [(-> & <- & _)|[? ?]]%list_lookup_insert_Some; [right|by left]. unfold ticks in Hn. repeat case_match; by simplify_eq.
    + intros j y Hj. destruct (decide (j = i)) as [->|]; [right|left; by rewrite list_lookup_insert_ne]. assert (th = y) as <- by congruence.
      unfold ticks in Hn. repeat case_match; simplify_eq; done.
Qed.

Lemma pool_reached k procs capacity es st : 1 <= k <= 62 -> ringCapacity capacity = 2 ^ k -> Z.of_nat (length es) < 2 ^ 62 ->
  runs key es (New procs capacity) = Some st -> pool_ok k (Z.to_nat (4 * Z.max procs 1)) (Z.of_nat (length es)) st.
Proof.
  intros Hk Ek Hl Hr. apply (runs_invariant key (fun b st => pool_ok k (Z.to_nat (4 * Z.max procs 1)) b st) _ es st Hr).
  - split; [by apply rings_New|by apply counts_New|by eapply watch_New|]. intros _ [Hp|[(s & Hp)|(j & th & s & a & Hj & _)]]; [done| |done].
    exfalso. unfold sh in Hp. cbn [mem New shards] in Hp. rewrite nth_lookup in Hp.
    destruct (replicate _ _ !! s) as [y|] eqn:E; cbn in Hp; [apply lookup_replicate in E as [-> _]; cbn in Hp|]; lia.
  - intros b st1 st2 H Hm Hb. apply (pool_moves k _ b st1); [done|lia|done|done].
Qed.

(** ** A pool at rest *)

(** A goroutine that waits for a task to end, a wakeup or a ticker, or is over. *)
Definition asleep m th : Prop :=
  match th with
  | TWorker w _ (RunPark ParkReceive) => wake (ob m w) = None
  | TWorker _ _ (RunTask _) | TOverflow _ (OverTask _) | TMonitor (MonitorWait _) | TJanitor JanitorWait
  | TStop (StopWorkers | StopOverflow | StopTask _ _) | TGone _ | TLeft _ | TStopped | TEnd _ => True
  | _ => False
  end.

Lemma call_Block {L A L' A'} (r : res T L A) (f : L -> L') (g : A -> L' + A') : call r f g = Block -> r = Block.
Proof. destruct r; cbn; try done. by destruct (g a). Qed.
Lemma onward_None {L A} (r : res T L A) inside ret : onward inside ret r = None -> r = Block.
Proof. by destruct r. Qed.

Lemma wakeIdle_block j s a m : wakeIdle j s a m = Block -> exists w, a = WakeSend w /\ wake (ob m w) <> None.
Proof. destruct a; cbn; repeat case_match; intros; try done. eauto. Qed.
Lemma start_block j s a m : start (T:=T) j s a m <> Block.
Proof. destruct a; cbn; by repeat case_match. Qed.
Lemma find_block s a m : find s a m = Block -> exists w, w ∈ find_ids a /\ wake (ob m w) <> None.
Proof.
  intros E. destruct a as [a|a|a]; cbn [find] in E; apply call_Block in E.
  - apply wakeIdle_block in E as (w & -> & ?). exists w. split; [cbn; set_solver|done].
  - by apply start_block in E.
  - destruct a as [i a|i a]; cbn [borrow] in E; destruct (_ && _); try done.
    + apply call_Block, wakeIdle_block in E as (w & -> & ?). exists w. split; [cbn; set_solver|done].
    + by destruct (S i <? _)%nat.
    + by apply call_Block, start_block in E.
Qed.
Lemma hasTask_block s a m : hasTask (T:=T) s a m <> Block.
Proof. by destruct a. Qed.
Lemma notify_block s a m : notify s a m = Block -> exists w, w ∈ notify_ids a /\ wake (ob m w) <> None.
Proof.
  intros E. destruct a; cbn [notify] in E; try done; try (repeat case_match; done).
  - by apply call_Block, hasTask_block in E.
  - apply call_Block, find_block in E as (w & ? & ?). by exists w.
Qed.
Lemma push_block s t a m : push (T:=T) s t a m <> Block.
Proof. destruct a; cbn; by repeat case_match. Qed.
Lemma pop_block s a m : pop (T:=T) s a m <> Block.
Proof. destruct a; cbn; by repeat case_match. Qed.
Lemma runOverflow_block s t a m : runOverflow (T:=T) s t a m <> Block.
Proof. destruct a; cbn; by repeat case_match. Qed.
Lemma watch_block a m : watch (T:=T) a m <> Block.
Proof. destruct a; cbn; by repeat case_match. Qed.

Ltac unblocked H :=
  first [by apply push_block in H|by apply pop_block in H|by apply runOverflow_block in H|by apply watch_block in H|by apply hasTask_block in H|
    (apply notify_block in H as (w0 & ? & ?); right; by exists w0)|(apply find_block in H as (w0 & ? & ?); right; by exists w0)].

Lemma next_none m th : next key th m = None -> asleep m th \/ exists w, w ∈ held th /\ wake (ob m w) <> None.
Proof.
  intros H. destruct th as [t a|t a|a| | |now a|a|w t a|t a|a|a| | | |]; try (by left); try done.
  - destruct a; cbn [next Submit] in H; apply onward_None in H; try done; apply call_Block in H; unblocked H.
  - destruct a; cbn [next SubmitBehind] in H; apply onward_None in H; try done; apply call_Block in H; try unblocked H.
    destruct a; cbn [notifyBehind] in H; try done; apply call_Block in H; unblocked H.
  - destruct a; cbn [next SubmitBatch] in H.
    + repeat case_match; done.
    + apply onward_None, call_Block in H. unblocked H.
    + apply onward_None, call_Block in H. unblocked H.
    + apply onward_None, call_Block in H. unblocked H.
    + apply onward_None, call_Block in H. destruct a; cbn [Submit] in H; try done; apply call_Block in H; unblocked H.
  - destruct a; cbn [next Rescue] in H; try (exfalso; repeat case_match; done).
    + apply onward_None, call_Block in H. unblocked H.
    + apply onward_None, call_Block in H. unblocked H.
    + apply onward_None, call_Block in H. unblocked H.
  - destruct a; cbn [next Stop] in H; try done; try (by left).
    + case_decide as Hd; [done|]. right. exists w. split; [cbn; set_solver|done].
    + apply onward_None, call_Block in H. unblocked H.
  - destruct a; cbn [next run] in H; try done; try (by left); apply onward_None, call_Block in H; try unblocked H.
    destruct a; cbn [park] in H; try (exfalso; by repeat case_match); try (apply call_Block in H; unblocked H).
    left. cbn. by case_match.
  - destruct a; cbn [next overflowing] in H; [by left| |done]. apply onward_None, call_Block in H. unblocked H.
  - destruct a; cbn [next monitor] in H; try (by left); try (exfalso; repeat case_match; done); try (apply onward_None, call_Block in H; unblocked H).
  - destruct a as [| |now i a]; cbn [next retireIdleWorkers] in H; [by left|done|]. apply onward_None, call_Block in H.
    destruct a as [| |[|w ws]]; cbn in H; try (by repeat case_match). case_decide as Hd; [done|]. right. exists w. split; [cbn; set_solver|done].
Qed.

(** Nothing moves until a task ends, a ticker fires or a method is called. *)
Definition resting st : Prop := forall j th, threads st !! j = Some th -> next key th (mem st) = None.

Section Rest.
Context (k : Z) (n : nat) (b : Z) (st : system (T:=T)).
Hypothesis (Hk : 1 <= k <= 62) (Hb : b < 2 ^ 62) (Hok : pool_ok k n b st) (Hr : resting st).
Let Hc := p_counts _ _ _ _ Hok.

Lemma rest_asleep j th : threads st !! j = Some th -> asleep (mem st) th.
Proof.
  intros Hj. destruct (next_none _ _ (Hr j th Hj)) as [?|(w & Hw & Hne)]; [done|]. by rewrite (held_empty n st Hc j th w Hj Hw) in Hne.
Qed.

Lemma asleep_held th : asleep (mem st) th -> held th = [].
Proof. intros Ha. destruct th as [| | | | | |a|w t a|t a|a|a| | | |]; try done; destruct a; try done. by destruct a. Qed.

Lemma asleep_good s th : asleep (mem st) th -> ~ good st s th.
Proof.
  intros Ha Hg. destruct th as [| | | | | |a|w t a|t a|a|a| | | |]; try done;
    try (destruct a; try done; try (by destruct a); try (destruct a; try done)); by destruct Hg as [(? & ? & _)|[(? & ? & _)|?]].
Qed.

(** A worker at rest runs a task, or is idle. *)
Lemma worker_rest j w t a : threads st !! j = Some (TWorker w t a) ->
  (exists x, a = RunTask x) \/ exists s, w ∈ idle (sh (mem st) s).
Proof.
  intros Hj. pose proof (rest_asleep j _ Hj) as Ha. destruct a; try done; [by left; eauto|]. destruct a; try done. right. cbn in Ha.
  pose proof (c_balance _ _ Hc (MPark w)) as E. rewrite sum_reads_park in E. cbn [level] in E.
  assert (Hheld : sumZ (fun th => occ w (held th)) (threads st) = 0).
  { rewrite (sumZ_ext _ (fun _ => 0)); [rewrite sumZ_const; lia|]. intros i th Hi. rewrite asleep_held by (by eapply rest_asleep). apply occ_nil. }
  assert (Hwk : ind (wake (ob (mem st) w) <> None) = 0) by (unfold ind; case_decide; [done|lia]).
  pose proof (sumZ_ge (fun th => ind (registered th = Some w)) _ _ _ (fun _ => ind_nonneg _) Hj) as Hge. cbn [registered] in Hge.
  unfold ind in Hge at 1. rewrite decide_True in Hge by done.
  destruct (sumZ_pos (fun y : shard T => occ w (idle y)) (shards (mem st))) as (s & y & Hy & Hp); [lia|].
  exists s. apply occ_pos. unfold sh. by rewrite nth_lookup, Hy.
Qed.

Lemma meter_rest x : 0 < sumZ (fun th => reads (mem st) th x) (threads st) -> exists j th, threads st !! j = Some th /\ asleep (mem st) th /\ 0 < reads (mem st) th x.
Proof. intros (j & th & Hj & Hp)%sumZ_pos. exists j, th. split_and!; [done|by eapply rest_asleep|done]. Qed.

Lemma coming_rest s : coming (sh (mem st) s) <= 0.
Proof.
  apply Z.le_ngt. intros Hco. pose proof (c_balance _ _ Hc (MComing s)) as E. cbn [level] in E.
  destruct (decide (0 < sumZ (fun o => ind (wake o = Some (Some s))) (objects (mem st)))) as [Hw|Hw].
  - apply sumZ_pos in Hw as (w & x & Hx & Hp). unfold ind in Hp. case_decide as Ew; [|lia].
    assert (Eo : ob (mem st) w = x) by (unfold ob; by rewrite nth_lookup, Hx).
    destruct (sum_park_registered n st w Hc) as (j & th & Hj & Hreg).
    { left. cbn [level]. pose proof (sumZ_nonneg (fun y : shard T => occ w (idle y)) (shards (mem st)) (fun _ => occ_nonneg _ _)).
      rewrite Eo, Ew. unfold ind. rewrite decide_True by done. lia. }
    pose proof (rest_asleep j th Hj) as Ha. destruct th as [| | | | | | |w' t a| | | | | | |]; try done. destruct a; try done. destruct a; try done.
    cbn in Hreg, Ha. by simplify_eq.
  - destruct (meter_rest (MComing s)) as (j & th & Hj & Ha & Hp); [lia|].
    destruct th as [| | | | | |a|w t a|t a|a|a| | | |]; try done; destruct a; try done. by destruct a.
Qed.

Lemma running_rest s : 0 < running (sh (mem st) s) -> exists j w x, threads st !! j = Some (TWorker w s (RunTask x)).
Proof.
  intros Hru. pose proof (c_balance _ _ Hc (MRunning s)) as E. cbn [level] in E.
  destruct (meter_rest (MRunning s)) as (j & th & Hj & Ha & Hp); [lia|].
  destruct th as [| | | | | |a|w t a|t a|a|a| | | |]; try done; destruct a; try done; [|by destruct a].
  cbn in Hp. unfold run_reads, one, ind in Hp. repeat (case_decide; simplify_eq; try done); eauto.
Qed.

Lemma watching_rest : watching (mem st) = true -> exists j v, threads st !! j = Some (TMonitor (MonitorWait v)).
Proof.
  intros Hw. pose proof (c_balance _ _ Hc MWatch) as E. cbn [level] in E. rewrite Hw in E.
  destruct (meter_rest MWatch) as (j & th & Hj & Ha & Hp); [cbn in E; lia|].
  destruct th as [| | | | | |a|w t a|t a|a|a| | | |]; try done; destruct a; try done; [by destruct a|eauto].
Qed.
(** Nothing is being written: a queue that is not empty has its head written. *)
Lemma rest_ready s : (s < n)%nat -> head (sh (mem st) s) <> tail (sh (mem st) s) -> ready (mem st) s.
Proof.
  intros Hlt Hne. destruct (g_ring _ _ _ _ _ (p_rings _ _ _ _ Hok) s Hlt) as [Hring Ht].
  assert (Hno : forall c, ~ claims key (threads st) s c).
  { intros c (j & th & Hj & Hh). pose proof (rest_asleep j th Hj) as Ha. rewrite holds_unclaimed in Hh; [done|].
    destruct th as [| | | | | |a|w t a|t a|a|a| | | |]; try done; by destruct a. }
  pose proof (r_order _ _ _ Hring). pose proof (cap_bounds k Hk).
  pose proof (r_cells _ _ _ Hring (head (sh (mem st) s)) ltac:(lia)) as Hcell. unfold cell_ok in Hcell. rewrite (proj2 (Z.ltb_lt _ _)) in Hcell by lia.
  destruct Hcell as [[E _]|[(_ & _ & t & Hcl)|(_ & Hcl & _)]]; [|by apply Hno in Hcl..].
  unfold ready, u64. rewrite wrap_id; [done|unfold is_uint; lia].
Qed.

Lemma starved_rest : stopped (mem st) = false -> quietIdle st (length (shards (mem st))) ->
  starving (mem st) = true /\ (forall s, idle (sh (mem st) s) = []) /\
  (forall j w t a, threads st !! j = Some (TWorker w t a) -> exists x, a = RunTask x) /\
  exists j w t x, threads st !! j = Some (TWorker w t (RunTask x)).
Proof.
  intros Hs [Hst Hq].
  assert (Hidle : forall s, idle (sh (mem st) s) = []).
  { intros s. destruct (decide (s < length (shards (mem st)))%nat) as [Hlt|]; [|unfold sh; by rewrite nth_overflow by lia].
    destruct (idle (sh (mem st) s)) as [|w l] eqn:E; [done|]. exfalso.
    destruct (Hq s w Hlt ltac:(rewrite E; set_solver)) as (j & t & a & Hj & Hbf). pose proof (rest_asleep j _ Hj) as Ha. by destruct a. }
  assert (Hwork : forall j w t a, threads st !! j = Some (TWorker w t a) -> exists x, a = RunTask x).
  { intros j w t a Hj. destruct (worker_rest j w t a Hj) as [?|[s Hw]]; [done|]. rewrite Hidle in Hw. set_solver. }
  split_and!; [done|done|done|].
  destruct (p_crew _ _ _ _ Hok Hs (or_introl Hst)) as [(w & (j & t & a & Hj & _) & _)|(j & th & a & Hj & Ef & _)].
  - destruct (Hwork j w t a Hj) as [x ->]. by exists j, w, t, x.
  - exfalso. pose proof (rest_asleep j th Hj) as Ha. destruct th as [| | | | | |a0|w t a0|t a0|a0|a0| | | |]; try done; destruct a0; try done. by destruct a0.
Qed.
End Rest.
End Crew.

(** C12.  No wakeup is lost.  Take any state the pool can reach, however its
    goroutines interleave, before Stop, in which nothing can move: every
    goroutine waits for a task to end, for a wakeup or a ticker, or is over.
    If a shard's queue is not empty there, then one of three holds.  Either
    the pool is starving: it is marked so, no shard has an idle worker, every
    worker is inside a task and there is one, so that the next task to end
    brings the queue a worker.  Or a worker that serves the shard is inside a
    task and the monitor, which hands a stalled shard to another worker, is
    waiting for its tick: the task was queued by SubmitBehind.  Or an overflow
    goroutine of the shard is inside a task, or was ended by one.  A queued
    task is never left to a worker that sleeps. *)
Theorem no_wakeup_lost {T} (key : T -> Z) procs capacity es st s :
  capacity <= 2 ^ 62 -> Z.of_nat (length es) < 2 ^ 62 -> runs key es (New procs capacity) = Some st ->
  stopped (mem st) = false -> resting key st ->
  (s < Z.to_nat (4 * Z.max procs 1))%nat -> head (sh (mem st) s) <> tail (sh (mem st) s) ->
  (starving (mem st) = true /\ (forall s', idle (sh (mem st) s') = []) /\
    (forall j w t a, threads st !! j = Some (TWorker w t a) -> exists x, a = RunTask x) /\
    exists j w t x, threads st !! j = Some (TWorker w t (RunTask x))) \/
  ((exists j w x, threads st !! j = Some (TWorker w s (RunTask x))) /\ exists j v, threads st !! j = Some (TMonitor (MonitorWait v))) \/
  (exists j, (exists x, threads st !! j = Some (TOverflow s (OverTask x))) \/ threads st !! j = Some (TGone s)).
Proof.
  intros Hcap Hl Hruns Hs Hr Hlt Hne. destruct (ringCapacity_pow capacity Hcap) as (k & Hk & Ek).
  pose proof (pool_reached key k procs capacity es st Hk Ek Hl Hruns) as Hok. set (n := Z.to_nat (4 * Z.max procs 1)) in *.
  pose proof (rest_asleep key k n _ st Hok Hr) as Hsl. pose proof (p_counts _ _ _ _ _ Hok) as Hc.
  assert (Hready : ready (mem st) s) by (by eapply (rest_ready key k n)).
  destruct (w_resp _ _ (p_watch _ _ _ _ _ Hok) Hs s Hlt Hready) as [Hco|j th Hj Hg|Hq|Hru Hm|j th Hj Ho].
  - pose proof (coming_rest key k n _ st Hok Hr s). lia.
  - by destruct (asleep_good st s th (Hsl j th Hj)).
  - left. by eapply (starved_rest key k n).
  - right. left. split; [by eapply (running_rest key k n)|]. destruct Hm as [Hw|(j & th & Hj & Hm)]; [by eapply (watching_rest key k n)|].
    pose proof (Hsl j th Hj) as Ha. by destruct th as [|? [| | |? [|[]|]]| | | | | | | |[]| | | | |].
  - right. right. exists j. pose proof (Hsl j th Hj) as Ha. destruct th as [| | | | | | | |t []| | |t| | |]; try done; cbn in Ho; subst; [left; eauto|by right].
Qed.

(** A task runs, another is queued behind it. *)
Definition behind_run : list (event (T:=Z)) :=
  let steps i n := replicate n (EStep i) in
  [ECall (CallSubmit 10)] ++ steps 0%nat 13%nat ++ steps 1%nat 9%nat ++ [ECall (CallSubmitBehind 11)] ++ steps 2%nat 10%nat ++ steps 3%nat 4%nat.

Lemma no_wakeup_lost_witness :
  match runs id behind_run (New 1 2) with
  | Some st => head (sh (mem st) 0) = 1 /\ tail (sh (mem st) 0) = 2 /\ starving (mem st) = false /\
      (exists j v, threads st !! j = Some (TMonitor (MonitorWait v)))
  | None => False
  end.
Proof.
  destruct (runs id behind_run (New 1 2)) as [st|] eqn:E; [|vm_compute in E; discriminate].
  pose proof (no_wakeup_lost id 1 2 behind_run st 0 ltac:(lia) ltac:(cbn; lia) E) as H.
  vm_compute in E. injection E as <-.
  destruct H as [(Hst & _)|[(_ & Hm)|(j & [(x & Hj)|Hj])]].
  - reflexivity.
  - intros j th Hj. do 4 (destruct j as [|j]; [injection Hj as <-; reflexivity|]). discriminate.
  - cbn. lia.
  - discriminate.
  - discriminate Hst.
  - split; [reflexivity|]. split; [reflexivity|]. split; [reflexivity|exact Hm].
  - exfalso. do 4 (destruct j as [|j]; [discriminate|]). discriminate.
  - exfalso. do 4 (destruct j as [|j]; [discriminate|]). discriminate.
Defined.

(** The third case is real.  In [overflow_run] a worker and an overflow
    goroutine are inside their tasks, one more task is queued behind them, the
    pool is not starving and has started one worker of the 512 it may: nothing
    moves until one of the two tasks ends. *)
Example overflow_task_waits :
  match runs id overflow_run (New 1 2) with
  | Some st => resting id st /\ stopped (mem st) = false /\ head (sh (mem st) 0) <> tail (sh (mem st) 0) /\
      starving (mem st) = false /\ watching (mem st) = false /\ live (sh (mem st) 0) = 1
  | None => False
  end.
Proof.
  destruct (runs id overflow_run (New 1 2)) as [st|] eqn:E; [|vm_compute in E; discriminate].
  vm_compute in E. injection E as <-. split; [|split_and!; try reflexivity; discriminate].
  intros j th Hj. do 6 (destruct j as [|j]; [injection Hj as <-; reflexivity|]). discriminate.
Qed.
