(* ===== verification/ShardStop.v ===== *)
(** * Stop

    Stop must run every task still queued and wait for the goroutines that
    run one.  The callers are asked not to submit during or after it; under
    that condition nothing is dropped and nothing is left in a queue, and Stop
    waits for nothing but tasks. *)

From S2P Require Import Prelude Update WheelRing ShardPool ShardFacts ShardRing ShardCount ShardWake ShardCrew.
Local Open Scope Z_scope.

#[local] Arguments Nat.modulo _ _ : simpl never.
#[local] Arguments Nat.div _ _ : simpl never.
#[local] Arguments Nat.ltb _ _ : simpl never.

Lemma bind_nil {A B} (f : A -> list B) l : (forall x, x ∈ l -> f x = []) -> l ≫= f = [].
Proof. induction l as [|y l IH]; intros Hl; [done|]. cbn. rewrite (Hl y), IH; [done| |set_solver]. intros. apply Hl. set_solver. Qed.

Section Stopping.
Context {T : Type} (key : T -> Z).
Implicit Types (m : pool T) (th : thread T) (st : system (T:=T)) (s w : nat) (e : event (T:=T)).

Definition submitting th : Prop := match th with TSubmit _ _ | TSubmitBehind _ _ | TSubmitBatch _ => True | _ => False end.
Definition submits e : Prop := match e with ECall (CallSubmit _ | CallSubmitBehind _ | CallSubmitBatch _) => True | _ => False end.

Definition emptied m s : Prop := head (sh m s) = tail (sh m s).

(** How far a Stop has come: the shards whose idle workers it has sent off,
    what it has waited for, the queues it has drained. *)
Definition swept th : option nat :=
  match th with
  | TStop StopClose => Some O
  | TStop (StopTake i) => Some i
  | TStop (StopComing i _ _ | StopSend i _ _) => Some (S i)
  | _ => None
  end.
Definition joined (n : nat) m th : Prop :=
  match th with
  | TStop StopOverflow => workers m = 0
  | TStop (StopPop i _ | StopTask i _) => workers m = 0 /\ overflow m = 0 /\ forall s, (s < i)%nat -> emptied m s
  | TStopped => workers m = 0 /\ overflow m = 0 /\ forall s, (s < n)%nat -> emptied m s
  | _ => True
  end.
Definition halting th : Prop := match th with TStop StopSwap => False | TStop _ | TStopped => True | _ => False end.
#[local] Instance halting_dec th : Decision (halting th).
Proof. destruct th as [| | | | | |[]| | | | | | | |]; cbn; apply _. Defined.

Record stop_ok (n : nat) st : Prop := {
  s_quiet : forall j th, threads st !! j = Some th -> ~ submitting th;
  s_dropped : dropped (mem st) = [];
  s_halting : stopped (mem st) = true -> exists j th, threads st !! j = Some th /\ halting th;
  s_stopped : forall j th, threads st !! j = Some th -> halting th -> stopped (mem st) = true;
  s_swept : stopped (mem st) = true -> exists c, (forall s, (s < c)%nat -> idle (sh (mem st) s) = []) /\
    ((n <= c)%nat \/ exists j th, threads st !! j = Some th /\ swept th = Some c);
  s_joined : forall j th, threads st !! j = Some th -> joined n (mem st) th
}.

(** ** What goroutines other than submitters do *)

Lemma next_submitting th m o th' : next key th m = Some (o, th') -> submitting th' -> submitting th.
Proof. intros H Hs. destruct th; try done; exfalso; cbn [next] in H; unfold onward in H; repeat case_match; by simplify_eq. Qed.
Lemma starts_submitting o m th : th ∈ starts o m -> ~ submitting th.
Proof. destruct o; cbn; try case_match; rewrite ?elem_of_nil, ?list_elem_of_singleton; intros; subst; try done; by intros []. Qed.

Lemma unsubmitted th : ~ submitting th -> pushing key th = None.
Proof. intros Hs. destruct th; try (exfalso; by apply Hs); done. Qed.

Lemma no_tail th m o th' s : next key th m = Some (o, th') -> ~ submitting th -> (s < length (shards m))%nat ->
  tail (sh (exec o m) s) = tail (sh m s).
Proof.
  intros H Hs Hlt. pose proof (unsubmitted th Hs) as Hp.
  assert (Ht : forall s' pos t, o <> OTail s' pos t).
  { intros s' pos t Eo. clear Hlt. destruct (next_ring key th m o th' H) as [s0 t0 a o a' th' Ep E|s0 t0 a o r th' Ep E|s0 a o a' th' Ep E|s0 a o r th' Ep E|o th' E1 E2 Ho Hu]; try congruence; [..|by rewrite Eo in Ho];
      destruct a; cbn in E; repeat case_match; by simplify_eq. }
  symmetry. destruct o; cbn [exec]; try done; try (apply (field_onShard eq); [done|intros _ _; done]).
  - by destruct (Ht s0 pos t).
  - rewrite <- (sh_onWorker m w (fun x => x <| parked := clock m |>) s) at 1. apply (field_onShard eq); done.
  - by destruct tier.
Qed.

Lemma no_drop th m o th' : next key th m = Some (o, th') -> ~ submitting th -> drops o = [].
Proof.
  intros H Hs. destruct o; try done. exfalso.
  assert (Hpop : forall {L' A'} s a (f : pop_at T -> L') (g : option (item T) -> L' + A') inside ret,
    onward inside ret (call (pop s a m) f g) = Some (ODrop t, th') -> False).
  { intros L' A' s a f g inside ret Ho. apply onward_call in Ho as [(a' & E & ->)|(r & E & ->)]; destruct a; cbn in E; repeat case_match; by simplify_eq. }
  assert (Hb : bare (ODrop t) -> False) by done.
  destruct th; try exact (Hs I); try done; try (apply Hb; by eapply bares_onward in H; eauto with shards).
  - destruct a; cbn [next Stop] in H; try first [done|eapply Hpop; exact H]; repeat case_match; by simplify_eq/=.
  - destruct a; cbn [next run] in H; try first [done|eapply Hpop; exact H]; apply Hb; try (cbn in H; by simplify_eq); by eapply bares_onward in H; eauto with shards.
  - destruct a; cbn [next overflowing] in H; try first [done|eapply Hpop; exact H].
Qed.

(** Only a submitter adds an overflow goroutine. *)
Lemma notify_over m s a : notify_reads m s a MOver = 0.
Proof. by destruct a as [| | |[[]|[]|[? []|? []]]| | | |]. Qed.
Lemma reads_over m th : ~ submitting th -> (forall s a, th <> TOverflow s a) -> reads m th MOver = 0.
Proof.
  intros Hs Ho. destruct th as [| | | | |? a|a|w t a|t a|a|a| | | |]; try exact (False_ind _ (Hs I)); try done.
  - destruct a as [| | | | | | | | | |? ? [[]|[]|[? []|? []]]| | |]; try done. apply notify_over.
  - by destruct a.
  - destruct a as [| | | | | | | | |[]| | | |]; try reflexivity; cbn [reads]; unfold run_reads, park_reads; rewrite ?notify_over; try reflexivity.
  - by destruct (Ho t a).
  - destruct a; try reflexivity; cbn [reads]; unfold run_reads, park_reads; rewrite ?notify_over; try reflexivity.
  - by destruct a as [| |? ? []].
Qed.
Lemma next_over th m o th' : next key th m = Some (o, th') -> ~ submitting th -> reads m th' MOver <= reads m th MOver.
Proof.
  intros H Hs. assert (Hs' : ~ submitting th') by (by intros ?%(next_submitting _ _ _ _ H)).
  pose proof (reads_nonneg m th MOver I).
  assert (Hd : (exists s a, th' = TOverflow s a) \/ (forall s a, th' <> TOverflow s a)) by (destruct th'; eauto; right; done).
  destruct Hd as [(s & a & ->)|Hd]; [|by rewrite (reads_over m th')].
  destruct th; try (exfalso; cbn [next] in H; unfold onward in H; repeat case_match; by simplify_eq). done.
Qed.

Section Step.
Context (k b : Z) (n : nat) (st : system (T:=T)) (i : nat) (th : thread T) (o : op T) (th' : thread T).
Hypothesis (Hi : threads st !! i = Some th) (Hn : next key th (mem st) = Some (o, th')).
Abbreviation st' := (after st i o th').
Hypothesis (Hk : 1 <= k <= 62) (Hb : b < 2 ^ 62) (Hok : pool_ok key k n b st) (Hok' : pool_ok key k n (b + 1) st').
Hypothesis (Hq : ~ submitting th) (Hs : stopped (mem st) = true).
Let Hc := p_counts _ _ _ _ _ Hok.
Let Hc' := p_counts _ _ _ _ _ Hok'.

Lemma level_nonneg x (s : system (T:=T)) : counts_ok n s -> counted x -> 0 <= level (mem s) x.
Proof. intros H Hx. rewrite (c_balance _ _ H). apply sumZ_nonneg. intros. by apply reads_nonneg. Qed.

Lemma workers_after : workers (mem st) = 0 -> workers (mem st') = 0.
Proof.
  intros Hw. pose proof (level_nonneg MWait st' Hc' I) as Hge. cbn [level] in Hge.
  assert (Hle : workers (mem st') <= workers (mem st) \/ exists j, o = OStart j).
  { cbn [after mem]. destruct o; cbn [exec]; try (by left); try (by right; eauto); try (left; cbn; lia). left. by destruct tier. }
  destruct Hle as [?|Ho]; [lia|]. destruct (hires key n st i th o th' Hi Hn Hc Ho) as [_ ?]. congruence.
Qed.

Lemma overflow_after : overflow (mem st) = 0 -> overflow (mem st') = 0.
Proof.
  intros Hov. pose proof (level_nonneg MOver st' Hc' I) as Hge. cbn [level] in Hge.
  pose proof (c_balance _ _ Hc MOver) as E. cbn [level] in E.
  pose proof (sumZ_ge (fun th => reads (mem st) th MOver) _ _ _ (fun y => reads_nonneg _ y MOver I) Hi) as Hr. cbn beta in Hr.
  pose proof (reads_nonneg (mem st) th MOver I).
  assert (Hle : overflow (mem st') <= overflow (mem st) \/ o = OOverflowAdd).
  { cbn [after mem]. destruct o; cbn [exec]; try (by left); try (by right; eauto); try (left; cbn; lia). left. by destruct tier. }
  destruct Hle as [?|Eo]; [lia|]. exfalso.
  pose proof (next_balance key th (mem st) o th' MOver (c_home _ _ Hc) (stop_watching n st i th Hc Hi) Hn) as Hbal.
  rewrite Eo in Hbal. cbn in Hbal. rewrite Z.add_0_r in Hbal.
  assert (Hz : reads (mem st) th' MOver <= reads (mem st) th MOver); [|unfold one, ind in Hbal; rewrite decide_True in Hbal by done; lia].
  pose proof (next_over th (mem st) o th' Hn Hq). lia.
Qed.

Let En : length (shards (mem st)) = n.
Proof. apply (ix_count _ _ (proj1 (c_range _ _ Hc))). Qed.

Lemma emptied_after s : (s < n)%nat -> emptied (mem st) s -> emptied (mem st') s.
Proof.
  unfold emptied. intros Hlt He. pose proof (no_tail th (mem st) o th' s Hn Hq ltac:(lia)) as Et.
  destruct (mover key k Hk n b st i th (p_rings _ _ _ _ _ Hok) Hb Hi o th' Hn) as [Hm _].
  destruct (v_grows _ _ _ _ _ (Hm s Hlt)) as (Hh & _). destruct (g_ring _ _ _ _ _ (p_rings _ _ _ _ _ Hok') s Hlt) as [Hr _].
  pose proof (r_order _ _ _ Hr). cbn [after mem] in *. lia.
Qed.

Lemma joined_all c : (c <= n)%nat ->
  workers (mem st) = 0 /\ overflow (mem st) = 0 /\ (forall s, (s < c)%nat -> emptied (mem st) s) ->
  workers (mem st') = 0 /\ overflow (mem st') = 0 /\ (forall s, (s < c)%nat -> emptied (mem st') s).
Proof.
  intros Hle (H1 & H2 & H3). split; [by apply workers_after|]. split; [by apply overflow_after|].
  intros s Hlt. apply emptied_after; [lia|]. by apply H3.
Qed.

Lemma joined_other th0 : thread_in n th0 -> joined n (mem st) th0 -> joined n (mem st') th0.
Proof.
  intros Hin Hj. destruct th0 as [| | | | | |a| | | | | | | |]; try exact I; [|by apply joined_all].
  destruct a; try exact I; [by apply workers_after|apply joined_all; [cbn in Hin; lia|exact Hj]..].
Qed.

(** A queue nobody writes to is empty when pop finds nothing. *)
Lemma pop_emptied s a : (forall j th, threads st !! j = Some th -> ~ submitting th) -> popping th = Some (s, a) -> (s < n)%nat ->
  pop s a (mem st) = Back o None -> emptied (mem st) s.
Proof.
  intros Hquiet Hp Hlt E. destruct (g_ring _ _ _ _ _ (p_rings _ _ _ _ _ Hok) s Hlt) as [Hring Ht].
  destruct (g_label _ _ _ _ _ (p_rings _ _ _ _ _ Hok) i th Hi) as [_ Hl]. rewrite Hp in Hl.
  pose proof (pop_none k _ _ s a o Hk Hring ltac:(lia) Hl E) as Hnr.
  pose proof (r_order _ _ _ Hring). pose proof (cap_bounds k Hk). unfold emptied.
  destruct (decide (head (sh (mem st) s) = tail (sh (mem st) s))) as [?|Hne]; [done|]. exfalso. apply Hnr.
  pose proof (r_cells _ _ _ Hring (head (sh (mem st) s)) ltac:(lia)) as Hcell. unfold cell_ok in Hcell. rewrite (proj2 (Z.ltb_lt _ _)) in Hcell by lia.
  assert (Hno : forall c, claims key (threads st) s c -> match c with CWrite _ _ | CPublish _ => False | _ => True end).
  { intros c (j & th0 & Hj & Hh). unfold holds in Hh. rewrite (unsubmitted th0) in Hh by (by eapply Hquiet).
    destruct (popping th0) as [[s' a']|]; [|done]. case_decide; [|done]. destruct a'; cbn in Hh; by simplify_eq. }
  destruct Hcell as [[E' _]|[(_ & _ & t & Hcl)|(_ & Hcl & _)]]; [|by apply Hno in Hcl..].
  unfold ready, u64. rewrite wrap_id; [done|unfold is_uint; lia].
Qed.

Lemma joined_mover : (forall j th, threads st !! j = Some th -> ~ submitting th) -> thread_in n th -> joined n (mem st) th -> joined n (mem st') th'.
Proof.
  intros Hquiet Hin Hj. pose proof Hn as H. pose proof workers_after as Hw. pose proof overflow_after as Hov.
  assert (Hcase : (exists a, th = TStop a) \/ match th' with TStop _ | TStopped => False | _ => True end).
  { destruct th; try (right; cbn [next] in H; unfold onward in H; repeat case_match; by simplify_eq). eauto. }
  destruct Hcase as [[a Ea]|Ht]; [|by destruct th'].
  rewrite Ea in H, Hin, Hj. destruct a; cbn [next Stop] in H.
  - cbn in H. injection H as _ <-. by destruct (stopped (mem st)).
  - cbn in H. by injection H as _ <-.
  - cbn in H. injection H as _ <-. unfold stopSend, stopNext. by repeat case_match.
  - cbn in H. by injection H as _ <-.
  - case_decide; [|done]. cbn in H. injection H as _ <-. unfold stopSend, stopNext. by repeat case_match.
  - destruct (Z.eqb_spec (workers (mem st)) 0) as [E|]; [|done]. cbn in H. injection H as _ <-. by apply Hw.
  - destruct (Z.eqb_spec (overflow (mem st)) 0) as [E|]; [|done]. cbn in H. injection H as _ <-. cbn in Hj |- *. split_and!; [auto..|lia].
  - cbn in Hj, Hin. destruct Hj as (H1 & H2 & H3).
    destruct (joined_all i0 ltac:(lia) (conj H1 (conj H2 H3))) as (W1 & W2 & W3).
    apply onward_call in H as [(l & H & El)|(r & H & El)]; rewrite El; [by split_and!|]. destruct r; [by split_and!|].
    assert (Hi0 : emptied (mem st') i0) by (apply emptied_after; [lia|]; eapply pop_emptied; [done|by rewrite Ea|lia|done]).
    rewrite En. destruct (Nat.ltb_spec (S i0) n); cbn; (split; [exact W1|split; [exact W2|]]); intros s ?; (destruct (decide (s = i0)) as [->|]; [exact Hi0|apply W3; lia]).
  - done.
Qed.
End Step.

Lemma idle_stopped n th m o th' s : thread_in n th -> wide th -> next key th m = Some (o, th') -> stopped m = true ->
  idle (sh m s) = [] -> idle (sh (exec o m) s) = [].
Proof.
  intros Hin Hw Hn Hs He. destruct (idle (sh (exec o m) s)) as [|w l] eqn:E; [done|]. exfalso.
  destruct (idle_exec o m s w ltac:(rewrite E; set_solver)) as [H|Eo]; [rewrite He in H; set_solver|].
  assert (Hns : ~ stops th).
  { intros Hst. destruct th as [| | | | | |a| | | | | | | |]; try done. rewrite Eo in Hn. destruct a; cbn [next Stop] in Hn; try (repeat case_match; by simplify_eq/=).
    apply onward_call in Hn as [(l' & H & _)|(r & H & _)]; destruct a; cbn in H; repeat case_match; by simplify_eq. }
  destruct (special_park _ _ _ _ (next_special key n th m o th' Hin Hw Hn) Hns w Eo) as [? _]. congruence.
Qed.

Definition sweeps (n : nat) m (th : option (thread T)) c : Prop :=
  (forall s, (s < c)%nat -> idle (sh m s) = []) /\ ((n <= c)%nat \/ exists t, th = Some t /\ swept t = Some c).

(** A Stop that sends idle workers off goes on with it. *)
Lemma swept_next n a m o th' c : length (shards m) = n -> stop_in n a ->
  next key (TStop a) m = Some (o, th') -> swept (TStop a) = Some c -> (forall s, idle (sh m s) = [] -> idle (sh (exec o m) s) = []) ->
  (forall s, (s < c)%nat -> idle (sh m s) = []) -> exists c', sweeps n (exec o m) (Some th') c'.
Proof.
  intros <- Hin H Hc Hmono Hs. set (n := length (shards m)) in *.
  assert (Hnext : forall i ws, (i < n)%nat -> (forall s, (s < S i)%nat -> idle (sh (exec o m) s) = []) -> th' = TStop (stopSend n i ws) -> exists c', sweeps n (exec o m) (Some th') c').
  { intros i ws Hlt He ->. exists (S i). split; [done|]. unfold stopSend, stopNext. destruct ws; [|right; eauto].
    destruct (Nat.ltb_spec (S i) n); [right; eauto|left; lia]. }
  destruct a; cbn in Hc; simplify_eq; cbn [next Stop onward] in H.
  - simplify_eq. exists O. split; [lia|]. right. eauto.
  - simplify_eq. eapply Hnext; [done| |done]. intros s Hlt. cbn [exec]. rewrite sh_onShard by done. case_decide; [done|]. apply Hs. lia.
  - simplify_eq. exists (S i). split; [auto|]. right. eauto.
  - case_decide; [|done]. cbn in H. simplify_eq. eapply Hnext; [exact Hin| |done]. intros s Hlt. apply Hmono, Hs. lia.
Qed.

Lemma stop_label th m o th' : next key th m = Some (o, th') -> halting th' -> halting th \/ (th = TStop StopSwap /\ o = OStopped).
Proof.
  intros H Hh. destruct th; try (exfalso; cbn [next] in H; unfold onward in H; repeat case_match; by simplify_eq).
  destruct a; try (by left). right. cbn in H. by simplify_eq.
Qed.
Lemma halting_next th m o th' : next key th m = Some (o, th') -> halting th -> halting th'.
Proof.
  intros H Hh. destruct th as [| | | | | |a| | | | | | | |]; try done. destruct a; try done; cbn [next Stop] in H; unfold stopSend, stopNext in H;
    try (repeat case_match; by simplify_eq/=).
  apply onward_call in H as [(l & H & ->)|(r & H & ->)]; [done|]. destruct r; [done|]. by destruct (S i <? _)%nat.
Qed.
Lemma stops_once th m o th' : next key th m = Some (o, th') -> thread_in (length (shards m)) th -> wide th ->
  stopped m = false -> stopped (exec o m) = true -> th' = TStop StopClose.
Proof.
  intros H Hin Hw Hs Hs'. assert (Eo : o = OStopped) by (destruct o; cbn in Hs'; try congruence; destruct tier; cbn in Hs'; congruence).
  pose proof (next_special key _ th m o th' Hin Hw H) as Hsp. rewrite Eo in Hsp, H. inversion Hsp; subst; try done.
  destruct a; cbn [next Stop] in H; try (repeat case_match; by simplify_eq/=).
  apply onward_call in H as [(l & H & _)|(r & H & _)]; destruct a; cbn in H; repeat case_match; by simplify_eq.
Qed.

Lemma stop_step k b n st i th o th' : 1 <= k <= 62 -> b < 2 ^ 62 -> pool_ok key k n b st -> stop_ok n st ->
  threads st !! i = Some th -> next key th (mem st) = Some (o, th') -> stop_ok n (after st i o th').
Proof.
  intros Hk Hb Hok [S1 S2 S3 S4 S5 S6] Hi Hn.
  assert (Hok' : pool_ok key k n (b + 1) (after st i o th')) by (eapply pool_moves; [done|done|done|by eapply moves_step]).
  destruct (p_counts _ _ _ _ _ Hok) as [[Hix Hin] _ _ _]. pose proof (ix_count _ _ Hix) as En.
  pose proof (w_wide _ _ (p_watch _ _ _ _ _ Hok) i th Hi) as Hw. pose proof (S1 i th Hi) as Hq.
  destruct (exec_ghosts (mem st) o) as (_ & _ & Ed & Hst). split; cbn [after mem threads].
  - intros j y [(-> & -> & _)|[[? ?]|Hy]]%lookup_insert_app; [by intros ?%(next_submitting _ _ _ _ Hn)|by eapply S1|by eapply starts_submitting].
  - by rewrite Ed, S2, (no_drop th (mem st) o th').
  - intros Hs'. destruct (stopped (mem st)) eqn:Hs.
    + destruct (S3 eq_refl) as (j & y & Hj & Hy). destruct (decide (j = i)) as [->|].
      * exists i, th'. split; [by eapply threads_moved|]. assert (th = y) as -> by congruence. by eapply halting_next.
      * exists j, y. split; [by apply threads_stay|done].
    + exists i, th'. split; [by eapply threads_moved|]. rewrite <- En in Hin. by rewrite (stops_once th (mem st) o th' Hn (Hin _ _ Hi) Hw Hs Hs').
  - intros j y [(-> & -> & _)|[[? ?]|Hy]]%lookup_insert_app Hh.
    + destruct (stop_label _ _ _ _ Hn Hh) as [Hh0|[_ ->]]; [apply Hst; by eapply S4|done].
    + apply Hst. by eapply S4.
    + exfalso. destruct o; cbn in Hy; try case_match; rewrite ?elem_of_nil, ?list_elem_of_singleton in Hy; by subst.
  - intros Hs'. destruct (stopped (mem st)) eqn:Hs.
    + destruct (S5 eq_refl) as (c & Hc & Hd). assert (Hmono : forall s, idle (sh (mem st) s) = [] -> idle (sh (exec o (mem st)) s) = []).
      { intros s. by eapply idle_stopped; [by eapply Hin|..]. }
      destruct Hd as [?|(j & y & Hj & Hy)]; [exists c; split; [auto|by left]|]. destruct (decide (j = i)) as [->|].
      * assert (th = y) as <- by congruence. assert (exists a, th = TStop a) as [a ->] by (destruct th; try done; eauto).
        destruct (swept_next n a (mem st) o th' c En (Hin _ _ Hi) Hn Hy Hmono Hc) as (c' & H1 & H2). exists c'. split; [done|].
        destruct H2 as [?|(t & [= <-] & ?)]; [by left|right]. exists i, th'. split; [by eapply threads_moved|done].
      * exists c. split; [auto|]. right. exists j, y. split; [by apply threads_stay|done].
    + exists O. split; [lia|]. right. exists i, th'. split; [by eapply threads_moved|]. rewrite <- En in Hin. by rewrite (stops_once th (mem st) o th' Hn (Hin _ _ Hi) Hw Hs Hs').
  - intros j y Hy. destruct (stopped (mem st)) eqn:Hs.
    + apply lookup_insert_app in Hy as [(-> & -> & _)|[[? Hj]|Hy]].
      * eapply (joined_mover k b n st i th o th'); try done; eauto.
      * eapply (joined_other k b n st i th o th'); try done; eauto.
      * destruct o; cbn in Hy; try case_match; rewrite ?elem_of_nil, ?list_elem_of_singleton in Hy; by subst.
    + apply lookup_insert_app in Hy as [(-> & -> & _)|[[? Hj]|Hy]].
      * destruct (decide (halting th')) as [Hh|Hh].
        -- destruct (stop_label _ _ _ _ Hn Hh) as [Hh0|[-> _]]; [by pose proof (S4 _ _ Hi Hh0)|]. cbn in Hn. rewrite Hs in Hn. by simplify_eq.
        -- destruct th' as [| | | | | |a| | | | | | | |]; try exact I; [|by destruct (Hh I)]. destruct a; try exact I; by destruct (Hh I).
      * destruct y as [| | | | | |a| | | | | | | |]; try exact I; [|by pose proof (S4 _ _ Hj I)]. destruct a; try exact I; by pose proof (S4 _ _ Hj I).
      * destruct o; cbn in Hy; try case_match; rewrite ?elem_of_nil, ?list_elem_of_singleton in Hy; by subst.
Qed.

Lemma stop_keep n st st' :
  shards (mem st') = shards (mem st) -> workers (mem st') = workers (mem st) -> overflow (mem st') = overflow (mem st) ->
  stopped (mem st') = stopped (mem st) -> dropped (mem st') = dropped (mem st) ->
  (forall j y, threads st' !! j = Some y -> threads st !! j = Some y \/ (~ submitting y /\
    ((~ halting y /\ joined n (mem st') y) \/ exists x, threads st !! j = Some x /\ halting x /\ (joined n (mem st) x -> joined n (mem st) y)))) ->
  (forall j x, threads st !! j = Some x -> halting x -> exists y, threads st' !! j = Some y /\ halting y /\ swept y = swept x) ->
  stop_ok n st -> stop_ok n st'.
Proof.
  intros E1 E2 E3 E4 E5 Hnew Hold [S1 S2 S3 S4 S5 S6].
  assert (Es : forall s, sh (mem st') s = sh (mem st) s) by (intros; unfold sh; by rewrite E1).
  assert (Hj : forall y, joined n (mem st) y -> joined n (mem st') y).
  { intros y. destruct y as [| | | | | |a| | | | | | | |]; try done; [destruct a; try done|]; cbn; unfold emptied; rewrite E2, ?E3; try done;
      (intros (? & ? & He); split_and!; [done|done|]; intros s; rewrite Es; apply He). }
  split.
  - intros j y Hy. destruct (Hnew j y Hy) as [?|[? _]]; [by eapply S1|done].
  - by rewrite E5.
  - rewrite E4. intros Hs. destruct (S3 Hs) as (j & x & Hx & Hh). destruct (Hold j x Hx Hh) as (y & ? & ? & _). eauto.
  - rewrite E4. intros j y Hy Hh. destruct (Hnew j y Hy) as [?|[_ [[? _]|(x & Hx & Hh' & _)]]]; [by eapply S4|done|by eapply S4].
  - rewrite E4. intros Hs. destruct (S5 Hs) as (c & Hc & Hd). exists c. split; [intros s; rewrite Es; apply Hc|].
    destruct Hd as [?|(j & x & Hx & Hsw)]; [by left|right].
    destruct (Hold j x Hx) as (y & ? & ? & Ey); [by destruct x as [| | | | | |[]| | | | | | | |]|]. exists j, y. split; [done|congruence].
  - intros j y Hy. destruct (Hnew j y Hy) as [Hy'|[_ [[_ ?]|(x & Hx & _ & Hxy)]]]; [apply Hj; by eapply S6|done|]. apply Hj, Hxy. by eapply S6.
Qed.

Lemma stop_event k b n st e st' : 1 <= k <= 62 -> b < 2 ^ 62 -> pool_ok key k n b st -> ~ submits e ->
  stop_ok n st -> step key e st = Some st' -> stop_ok n st'.
Proof.
  intros Hk Hb Hok He Hs H. destruct e; cbn in H.
  - apply bind_Some in H as (th & Hi & H). apply bind_Some in H as ([o th'] & Hn & H). simplify_eq. by eapply stop_step.
  - assert (Hc : ~ submitting (requested c).2 /\ ~ halting (requested c).2 /\ forall m, joined n m (requested c).2) by (by destruct c; try (exfalso; by apply He); split_and!; try (intros []); intros).
    destruct (requested c) as [ts th] eqn:Er. simplify_eq. revert Hs. apply stop_keep; try done; cbn [threads mem].
    + intros j y [?|[_ Hy]]%lookup_app_Some; [by left|right]. destruct (j - length (threads st))%nat; simplify_eq/=. destruct Hc as (? & ? & ?). auto.
    + intros j x Hx Hh. exists x. split; [by apply lookup_app_l_Some|done].
  - apply bind_Some in H as (th & Hi & H). apply bind_Some in H as ([t th'] & Hn & H). simplify_eq. revert Hs. apply stop_keep; try done; cbn [threads mem].
    + intros j y [(-> & <- & _)|[? ?]]%list_lookup_insert_Some; [right|by left]. unfold taskEnds in Hn. repeat case_match; simplify_eq; (split; [by intros []|]);
        first [by left; split; [intros []|]|right; eexists; split; [exact Hi|]; split; [exact I|intros Hj; exact Hj]].
    + intros j x Hx Hh. destruct (decide (j = i)) as [->|]; [|exists x; by rewrite list_lookup_insert_ne].
      assert (th = x) as <- by congruence. rewrite list_lookup_insert_eq by (by eapply lookup_lt_Some). unfold taskEnds in Hn. repeat case_match; simplify_eq; try (by destruct Hh); eexists; split; [done|]; split; [exact I|done].
  - apply bind_Some in H as (th & Hi & H). apply bind_Some in H as (th' & Hn & H). destruct (closed && _); simplify_eq. revert Hs. apply stop_keep; try done; cbn [threads mem].
    + intros j y [(-> & <- & _)|[? ?]]%list_lookup_insert_Some; [right|by left]. unfold ticks in Hn. repeat case_match; simplify_eq; (split; [by intros []|]); left; by split; [intros []|].
    + intros j x Hx Hh. destruct (decide (j = i)) as [->|]; [|exists x; by rewrite list_lookup_insert_ne].
      assert (th = x) as <- by congruence. exfalso. unfold ticks in Hn. by repeat case_match; simplify_eq.
Qed.

Lemma stop_runs k n b st es st' : 1 <= k <= 62 -> b + Z.of_nat (length es) < 2 ^ 62 -> pool_ok key k n b st -> Forall (fun e => ~ submits e) es ->
  stop_ok n st -> runs key es st = Some st' -> pool_ok key k n (b + Z.of_nat (length es)) st' /\ stop_ok n st'.
Proof.
  intros Hk. revert b st. induction es as [|e es IH]; intros b st Hl Hok Hes Hs H; cbn in H.
  - simplify_eq. cbn. by rewrite Z.add_0_r.
  - apply bind_Some in H as (st1 & He & H). cbn [length] in *. inversion Hes; subst.
    replace (b + Z.of_nat (S (length es))) with (b + 1 + Z.of_nat (length es)) in * by lia. eapply IH; [done| |done| |done].
    + eapply pool_moves; [done|lia|done|by eapply step_moves].
    + eapply (stop_event k b n st e st1); try done. lia.
Qed.

(** ** When Stop has returned *)

Section Stopped.
Context (k : Z) (n : nat) (b : Z) (st : system (T:=T)).
Hypothesis (Hk : 1 <= k <= 62) (Hok : pool_ok key k n b st) (Hst : stop_ok n st) (Hs : stopped (mem st) = true).
Let Hc := p_counts _ _ _ _ _ Hok.

Lemma no_meter x j th : counted x -> level (mem st) x = 0 -> threads st !! j = Some th -> reads (mem st) th x = 0.
Proof.
  intros Hx E Hj. rewrite (c_balance _ _ Hc) in E.
  pose proof (sumZ_ge (fun th => reads (mem st) th x) _ _ _ (fun y => reads_nonneg _ y x Hx) Hj) as Hge. cbn in Hge.
  pose proof (reads_nonneg (mem st) th x Hx). lia.
Qed.

Section Returned.
Hypothesis Hret : forall j a, threads st !! j <> Some (TStop a).

Lemma returned : workers (mem st) = 0 /\ overflow (mem st) = 0 /\ forall s, (s < n)%nat -> emptied (mem st) s.
Proof.
  destruct (s_halting _ _ Hst Hs) as (j & th & Hj & Hh). pose proof (s_joined _ _ Hst j th Hj) as Hjo.
  destruct th; try done. by apply Hret in Hj.
Qed.

(** Nobody is at work. *)
Lemma all_over j th : threads st !! j = Some th ->
  match th with TRescue _ _ | TAddKey | TRemoveKey | TMonitor _ | TJanitor _ | TGone _ | TLeft _ | TStopped | TEnd _ => True | _ => False end.
Proof.
  intros Hj. destruct returned as (Hw & Ho & _). pose proof (s_quiet _ _ Hst j th Hj) as Hq.
  destruct th; try done; try exact (Hq I).
  - by apply Hret in Hj.
  - pose proof (no_meter MWait j _ I Hw Hj) as E. cbn [reads] in E. pose proof (run_reads_wait (mem st) w target a MWait I) as H. rewrite E in H. done.
  - pose proof (no_meter MOver j _ I Ho Hj) as E. done.
Qed.

Lemma hands_over : threads st ≫= hands = [].
Proof.
  apply bind_nil. intros th [j Hj]%list_elem_of_lookup. pose proof (all_over j th Hj). by destruct th.
Qed.

Lemma cells_over s c : (s < n)%nat -> c ∈ slots (sh (mem st) s) -> task c = None.
Proof.
  intros Hlt [q Hq]%list_elem_of_lookup. destruct (g_ring _ _ _ _ _ (p_rings _ _ _ _ _ Hok) s Hlt) as [Hring _].
  pose proof (r_sized _ _ _ Hring) as Hsz. pose proof (cap_bounds k Hk). pose proof (r_order _ _ _ Hring). set (x := sh (mem st) s) in *.
  assert (Hno : forall c, ~ claims key (threads st) s c).
  { intros c0 (j & th & Hj & Hh). rewrite holds_unclaimed in Hh; [done|]. pose proof (all_over j th Hj). by destruct th. }
  assert (He : head x = tail x) by (by apply returned).
  pose proof (lookup_lt_Some _ _ _ Hq). unfold sized in Hsz.
  set (p := head x + (Z.of_nat q - head x) mod 2 ^ k). pose proof (Z.mod_pos_bound (Z.of_nat q - head x) (2 ^ k) ltac:(lia)).
  assert (Ec : cell x p = c).
  { unfold cell. rewrite (cellAt_mod k) by done. unfold p. rewrite Zplus_mod_idemp_r. replace (head x + (Z.of_nat q - head x)) with (Z.of_nat q) by lia.
    rewrite Z.mod_small by lia. by rewrite Nat2Z.id, nth_lookup, Hq. }
  pose proof (r_cells _ _ _ Hring p ltac:(lia)) as Hcell. unfold cell_ok in Hcell. rewrite (proj2 (Z.ltb_ge _ _)) in Hcell by lia.
  unfold taskAt in Hcell. rewrite Ec in Hcell. destruct Hcell as [[_ ?]|[(_ & Hcl & _)|(_ & ? & _)]]; [done|by apply Hno in Hcl|done].
Qed.

Lemma queued_over : queued_tasks (mem st) = [].
Proof.
  apply bind_nil. intros x [s Hx]%list_elem_of_lookup. apply bind_nil. intros c Hcc. unfold cell_tasks.
  rewrite (cells_over s); [done| |]; [|by unfold sh; rewrite nth_lookup, Hx].
  pose proof (lookup_lt_Some _ _ _ Hx). by rewrite (ix_count _ _ (proj1 (c_range _ _ Hc))) in *.
Qed.
End Returned.

(** Stop waits for tasks only. *)
Lemma rest_returned : resting key st -> (forall j th, threads st !! j = Some th -> taskEnds false th = None) -> forall j a, threads st !! j <> Some (TStop a).
Proof.
  intros Hr Hno j a Hj. pose proof (rest_asleep key k n b st Hok Hr) as Hsl.
  assert (Hidle : forall s, idle (sh (mem st) s) = []).
  { destruct (s_swept _ _ Hst Hs) as (c & Hc0 & [Hn|(j' & th & Hj' & Hsw)]).
    - intros s. destruct (decide (s < c)%nat) as [|Hge]; [auto|]. unfold sh. rewrite nth_overflow; [done|].
      rewrite (ix_count _ _ (proj1 (c_range _ _ Hc))). lia.
    - exfalso. pose proof (Hsl j' th Hj') as Ha. by destruct th as [| | | | | |[]| | | | | | | |]. }
  assert (Hnw : forall j w t a, threads st !! j <> Some (TWorker w t a)).
  { intros j' w t a' Hj'. destruct (worker_rest key k n b st Hok Hr j' w t a' Hj') as [[x ->]|[s Hw]].
    - by specialize (Hno _ _ Hj').
    - rewrite Hidle in Hw. set_solver. }
  pose proof (Hr j _ Hj) as H. pose proof (Hsl j _ Hj) as Ha. destruct a; try done.
  - cbn [next Stop] in H. destruct (Z.eqb_spec (workers (mem st)) 0) as [|Hne]; [done|].
    pose proof (c_balance _ _ Hc MWait) as E. pose proof (level_nonneg n MWait st Hc I). cbn [level] in *.
    destruct (meter_rest key k n b st Hok Hr MWait) as (j' & th & Hj' & Ha' & Hp); [lia|].
    destruct th as [| | | | | |a0|w t a0|t a0|a0|a0| | | |]; try done; [destruct a0; done|by apply Hnw in Hj'|destruct a0; done|destruct a0; done].
  - cbn [next Stop] in H. destruct (Z.eqb_spec (overflow (mem st)) 0) as [|Hne]; [done|].
    pose proof (c_balance _ _ Hc MOver) as E. pose proof (level_nonneg n MOver st Hc I). cbn [level] in *.
    destruct (meter_rest key k n b st Hok Hr MOver) as (j' & th & Hj' & Ha' & Hp); [lia|].
    destruct th as [| | | | | |a0|w t a0|t a0|a0|a0| | | |]; try done; [destruct a0; done|by apply Hnw in Hj'| |destruct a0; done|destruct a0; done].
    destruct a0; try done. by specialize (Hno _ _ Hj').
  - by specialize (Hno _ _ Hj).
Qed.
End Stopped.

Lemma stop_begins k n b st : pool_ok key k n b st -> stopped (mem st) = false -> dropped (mem st) = [] ->
  (forall j th, threads st !! j = Some th -> ~ submitting th) -> stop_ok n st.
Proof.
  intros Hok Hs Hd Hq. pose proof (w_halts _ _ (p_watch _ _ _ _ _ Hok)) as Hh. split; try done; try congruence.
  - intros j th Hj Hth. destruct th as [| | | | | |a| | | | | | | |]; try done; [|by eapply Hh]. destruct a; try done; by eapply Hh.
  - intros j th Hj. destruct th as [| | | | | |a| | | | | | | |]; try exact I; [|by rewrite (Hh j _ Hj I) in Hs].
    destruct a; try exact I; by rewrite (Hh j _ Hj I) in Hs.
Qed.

Lemma runs_app es1 es2 st : runs key (es1 ++ es2) st = (st1 ← runs key es1 st; runs key es2 st1).
Proof. revert st. induction es1 as [|e es1 IH]; intros st; cbn; [done|]. destruct (step key e st); cbn; [apply IH|done]. Qed.
End Stopping.

(** C13.  Stop runs what is queued, drops nothing and waits for tasks only.
    Let Stop be called when no goroutine is in the middle of a submission and
    nothing is submitted after: however the goroutines interleave, once every
    call of Stop has returned, each task ever submitted has run exactly once
    and none was dropped; and while a call has not returned some goroutine can
    move or some task is still running, so that Stop never hangs on a worker
    that sleeps. *)
Theorem stop_drains {T} (key : T -> Z) procs capacity es1 st1 es2 st2 :
  capacity <= 2 ^ 62 -> Z.of_nat (length es1) + Z.of_nat (length es2) < 2 ^ 62 ->
  runs key es1 (New procs capacity) = Some st1 -> stopped (mem st1) = false ->
  (forall j th, threads st1 !! j = Some th -> ~ submitting th) ->
  Forall (fun e => ~ submits e) es2 -> runs key es2 st1 = Some st2 -> stopped (mem st2) = true ->
  ((forall j a, threads st2 !! j <> Some (TStop a)) -> submitted (mem st2) ≡ₚ ran (mem st2) /\ dropped (mem st2) = []) /\
  (resting key st2 -> (forall j th, threads st2 !! j = Some th -> taskEnds false th = None) ->
    forall j a, threads st2 !! j <> Some (TStop a)).
Proof.
  intros Hcap Hl H1 Hs1 Hq Hes H2 Hs2. destruct (ringCapacity_pow capacity Hcap) as (k & Hk & Ek).
  pose proof (pool_reached key k procs capacity es1 st1 Hk Ek ltac:(lia) H1) as Hok1.
  destruct (system_ok key k Hk procs capacity es1 st1 Ek ltac:(lia) H1) as [_ Ht1].
  destruct (system_ok key k Hk procs capacity (es1 ++ es2) st2 Ek) as [_ Ht2]; [rewrite length_app; lia|by rewrite runs_app, H1|].
  assert (Hd : dropped (mem st1) = []).
  { destruct (decide (dropped (mem st1) = [])) as [|Hne]; [done|]. by rewrite (t_dropped _ _ Ht1 Hne) in Hs1. }
  destruct (stop_runs key k _ _ st1 es2 st2 Hk Hl Hok1 Hes (stop_begins key k _ _ st1 Hok1 Hs1 Hd Hq) H2) as [Hok2 Hst2].
  split; [|by eapply rest_returned].
  intros Hret. split; [|by eapply s_dropped]. rewrite (t_where _ _ Ht2), (s_dropped _ _ Hst2).
  rewrite (hands_over key k _ _ st2 Hok2 Hst2 Hs2 Hret), (queued_over key k _ _ st2 Hk Hok2 Hst2 Hs2 Hret). cbn. by rewrite app_nil_r.
Qed.

(** The worker ends its task, runs the one queued behind it and leaves. *)
Definition stop_run : list (event (T:=Z)) :=
  let steps i n := replicate n (EStep i) in
  [ECall CallStop] ++ steps 4%nat 6%nat ++ [ETask 1 false] ++ steps 1%nat 7%nat ++ [ETask 1 false] ++ steps 1%nat 7%nat ++ steps 4%nat 10%nat.

Lemma stop_drains_witness :
  match runs id behind_run (New 1 2) ≫= runs id stop_run with
  | Some st => ran (mem st) = [Some 10; Some 11] /\ submitted (mem st) ≡ₚ ran (mem st)
  | None => False
  end.
Proof.
  destruct (runs id behind_run (New 1 2)) as [st1|] eqn:E1; [|vm_compute in E1; discriminate]. cbn [mbind option_bind].
  destruct (runs id stop_run st1) as [st2|] eqn:E2; [|vm_compute in E1; injection E1 as <-; vm_compute in E2; discriminate].
  pose proof (stop_drains id 1 2 behind_run st1 stop_run st2 ltac:(lia) ltac:(cbn; lia) E1) as H.
  vm_compute in E1. injection E1 as <-. 
  destruct H as [H _].
  - reflexivity.
  - intros j th Hj. do 4 (destruct j as [|j]; [injection Hj as <-; intros []|]). discriminate.
  - repeat (apply Forall_cons; split; [intros []|]). apply Forall_nil. exact I.
  - exact E2.
  - vm_compute in E2. injection E2 as <-. reflexivity.
  - vm_compute in E2. injection E2 as <-. split; [reflexivity|]. apply H.
    intros j a Hj. do 5 (destruct j as [|j]; [discriminate|]). discriminate.
Defined.
