(* ===== verification/GoStrings.v ===== *)
(** * Go strings

    The parts of strings, bytes, strconv, unicode and textproto the WebSocket
    handshake uses.  A Go string or byte slice is the list of its bytes.

    TrimSpace and ToLower work on runes.  Go's table of lower-case mappings
    above ASCII is a class, [LowerTable]; nothing proved depends on what it
    holds.  EqualFold is only ever called with an ASCII second argument, and is
    modelled for those: besides the two cases of a letter, U+017F folds to [s]
    and U+212A to [k]. *)

From Stdlib Require Import Ascii.
From Stdlib Require String.
From Stdlib Require Import(notations) String.
From S2P Require Import Prelude Utf8.

Local Open Scope Z_scope.

Abbreviation gostring := (list Z).

(** A string constant of the source. *)
Definition lit (s : String.string) : gostring :=
  map (fun c => Z.of_N (N_of_ascii c)) (String.list_ascii_of_string s).
Arguments lit s%_string_scope.

Definition CR : Z := 13.
Definition LF : Z := 10.
Definition crlf : gostring := [CR; LF].

(** ** Bytes *)

Definition isUpper (c : Z) : bool := (65 <=? c) && (c <=? 90).
Definition isLower (c : Z) : bool := (97 <=? c) && (c <=? 122).
Definition isDigit (c : Z) : bool := (48 <=? c) && (c <=? 57).

(** A letter's lower and upper case; anything else is left alone. *)
Definition lowerByte (c : Z) : Z := if isUpper c then c + 32 else c.
Definition upperByte (c : Z) : Z := if isLower c then c - 32 else c.

Definition ascii (s : gostring) : Prop := Forall (fun c => 0 <= c < 128) s.

(** bytes.IndexByte, with nothing for -1. *)
Fixpoint IndexByte (s : gostring) (c : Z) : option nat :=
  match s with
  | [] => None
  | x :: s => if x =? c then Some O else S <$> IndexByte s c
  end.

(** strings.Split on a separator of one byte: never empty. *)
Fixpoint Split (s : gostring) (sep : Z) : list gostring :=
  match s with
  | [] => [[]]
  | c :: s =>
      if c =? sep then [] :: Split s sep
      else match Split s sep with
           | [] => [[c]]
           | p :: ps => (c :: p) :: ps
           end
  end.

(** strings.SplitN(s, sep, 2). *)
Definition SplitN2 (s : gostring) (sep : Z) : list gostring :=
  match IndexByte s sep with
  | Some i => [take i s; drop (S i) s]
  | None => [s]
  end.

(** strings.Join. *)
Fixpoint Join (ps : list gostring) (sep : gostring) : gostring :=
  match ps with
  | [] => []
  | [p] => p
  | p :: ps => p ++ sep ++ Join ps sep
  end.

(** bytes.HasPrefix and HasSuffix. *)
Definition HasPrefix (s p : gostring) : bool := bool_decide (take (length p) s = p).
Definition HasSuffix (s p : gostring) : bool :=
  (length p <=? length s)%nat && bool_decide (drop (length s - length p) s = p).

(** bytes.Index(data, "\r\n\r\n"). *)
Fixpoint IndexBlank (s : gostring) : option nat :=
  match s with
  | [] => None
  | _ :: s' => if HasPrefix s (crlf ++ crlf) then Some O else S <$> IndexBlank s'
  end.

(** ** Runes *)

(** unicode.IsSpace: the White_Space property. *)
Definition IsSpace (r : Z) : bool :=
  ((9 <=? r) && (r <=? 13)) || (r =? 32) || (r =? 133) || (r =? 160) || (r =? 5760) ||
  ((8192 <=? r) && (r <=? 8202)) || (r =? 8232) || (r =? 8233) || (r =? 8239) ||
  (r =? 8287) || (r =? 12288).

(** utf8.RuneStart. *)
Definition RuneStart (b : Z) : bool := negb (cont b).

(** Where utf8.DecodeLastRune starts decoding: back from [start] over
    continuation bytes, [steps] bytes at most, stopping at the first byte. *)
Fixpoint last_start (s : gostring) (start steps : nat) : nat :=
  match steps, start with
  | O, _ | _, O => start
  | S steps, S start' =>
      if match s !! start' with Some b => RuneStart b | None => true end
      then start' else last_start s start' steps
  end.

Definition DecodeLastRune (s : gostring) : Z * nat :=
  match last s with
  | None => (RuneError, O)
  | Some b =>
      if b <? RuneSelf then (b, 1%nat)
      else
        let start := last_start s (length s - 1) (UTFMax - 1) in
        let '(r, size) := decode_rune (drop start s) in
        if (start + size =? length s)%nat then (r, size) else (RuneError, 1%nat)
  end.

Fixpoint trim_left (fuel : nat) (s : gostring) : gostring :=
  match fuel, s with
  | O, _ | _, [] => s
  | S fuel, _ =>
      let '(r, n) := decode_rune s in if IsSpace r then trim_left fuel (drop n s) else s
  end.

Fixpoint trim_right (fuel : nat) (s : gostring) : gostring :=
  match fuel, s with
  | O, _ | _, [] => s
  | S fuel, _ =>
      let '(r, n) := DecodeLastRune s in
      if IsSpace r then trim_right fuel (take (length s - n) s) else s
  end.

(** strings.TrimSpace; every step drops a byte, so the length is fuel enough. *)
Definition TrimSpace (s : gostring) : gostring :=
  let s := trim_left (length s) s in trim_right (length s) s.

(** The runes of a string, as [range] gives them. *)
Fixpoint runes (fuel : nat) (s : gostring) : list Z :=
  match fuel, s with
  | O, _ | _, [] => []
  | S fuel, _ => let '(r, n) := decode_rune s in r :: runes fuel (drop n s)
  end.

Class LowerTable := unicodeLower : Z -> Z.

(** strings.ToLower. *)
Definition ToLower `{LowerTable} (s : gostring) : gostring :=
  flat_map (fun r => encode_rune (if r <? 128 then lowerByte r else unicodeLower r))
    (runes (length s) s).

(** strings.EqualFold and bytes.EqualFold against an ASCII string. *)
Definition foldRune (r : Z) : Z :=
  if r =? 383 then 115 else if r =? 8490 then 107 else if r <? 128 then lowerByte r else r.
Definition EqualFold (s t : gostring) : bool :=
  bool_decide (map foldRune (runes (length s) s) = map lowerByte t).

(** ** Numbers *)

(** strconv.Itoa. *)
Fixpoint digits (fuel : nat) (n : Z) (acc : gostring) : gostring :=
  match fuel with
  | O => acc
  | S fuel =>
      let acc := (48 + n mod 10) :: acc in
      if n / 10 =? 0 then acc else digits fuel (n / 10) acc
  end.
Definition Itoa (n : Z) : gostring :=
  if n <? 0 then 45 :: digits 20 (- n) [] else digits 20 n [].

(** strconv.Atoi: an optional sign and decimal digits, in range; nothing for
    an error. *)
Fixpoint read_digits (s : gostring) (acc : Z) : option Z :=
  match s with
  | [] => Some acc
  | c :: s => if isDigit c then read_digits s (acc * 10 + (c - 48)) else None
  end.
Definition Atoi (s : gostring) : option Z :=
  let '(neg, d) := match s with
                   | c :: d => if c =? 45 then (true, d) else if c =? 43 then (false, d) else (false, s)
                   | [] => (false, s)
                   end in
  match d with
  | [] => None
  | _ => v ← read_digits d 0;
         let v := if neg then - v else v in
         if bool_decide (is_int64 v) then Some v else None
  end.

(** ** Facts *)

Lemma Split_nonnil s sep : Split s sep <> [].
Proof. destruct s as [|c s]; simpl; [done|]. destruct (c =? sep); [done|]. by destruct (Split s sep). Qed.

Lemma Split_app s sep t :
  Forall (fun c => c <> sep) s -> Split (s ++ sep :: t) sep = s :: Split t sep.
Proof.
  induction 1 as [|c s Hc _ IH]; simpl; [by rewrite Z.eqb_refl|].
  rewrite (proj2 (Z.eqb_neq _ _) Hc). by rewrite IH.
Qed.

Lemma Split_none s sep : Forall (fun c => c <> sep) s -> Split s sep = [s].
Proof.
  induction 1 as [|c s Hc _ IH]; simpl; [done|].
  rewrite (proj2 (Z.eqb_neq _ _) Hc). by rewrite IH.
Qed.

Lemma IndexByte_app s c t :
  Forall (fun x => x <> c) s -> IndexByte (s ++ c :: t) c = Some (length s).
Proof.
  induction 1 as [|x s Hc _ IH]; simpl; [by rewrite Z.eqb_refl|].
  rewrite (proj2 (Z.eqb_neq _ _) Hc). by rewrite IH.
Qed.

Lemma IndexByte_none s c : Forall (fun x => x <> c) s -> IndexByte s c = None.
Proof.
  induction 1 as [|x s Hc _ IH]; simpl; [done|].
  rewrite (proj2 (Z.eqb_neq _ _) Hc). by rewrite IH.
Qed.

Lemma IndexByte_found s c i :
  IndexByte s c = Some i <->
  exists t u, s = t ++ c :: u /\ i = length t /\ Forall (fun x => x <> c) t.
Proof.
  split.
  - revert i. induction s as [|x s IH]; simpl; intros i H; [done|].
    destruct (Z.eqb_spec x c) as [->|Hx].
    + exists [], s. injection H as <-. done.
    + destruct (IndexByte s c) as [j|]; [|done]. injection H as <-.
      destruct (IH j eq_refl) as (t & u & -> & -> & Ht). exists (x :: t), u. split_and!; [done..|].
      by constructor.
  - intros (t & u & -> & -> & Ht). by apply IndexByte_app.
Qed.

Lemma SplitN2_eq s sep t :
  Forall (fun c => c <> sep) s -> SplitN2 (s ++ sep :: t) sep = [s; t].
Proof.
  intros Hs. unfold SplitN2. rewrite (IndexByte_app _ _ _ Hs), take_app_length.
  change (sep :: t) with ([sep] ++ t). rewrite (assoc_L (++)), drop_app_length'; [done|].
  rewrite length_app. simpl. lia.
Qed.

Lemma SplitN2_none s sep : Forall (fun c => c <> sep) s -> SplitN2 s sep = [s].
Proof. intros Hs. unfold SplitN2. by rewrite IndexByte_none. Qed.

(** *** ASCII strings *)

Lemma decode_ascii c s : 0 <= c < 128 -> decode_rune (c :: s) = (c, 1%nat).
Proof. intros. simpl. by rewrite (proj2 (Z.ltb_lt c 128)) by lia. Qed.

Lemma runes_ascii s : ascii s -> runes (length s) s = s.
Proof.
  induction 1 as [|c s Hc _ IH]; [done|]. cbn [length runes].
  rewrite decode_ascii by done. cbn [skipn]. by rewrite drop_0, IH.
Qed.

Lemma foldRune_ascii s : ascii s -> map foldRune s = map lowerByte s.
Proof.
  intros Hs. apply map_ext_in. intros c Hc. apply list_elem_of_In in Hc.
  unfold ascii in Hs. rewrite Forall_forall in Hs. specialize (Hs c Hc). unfold foldRune.
  rewrite (proj2 (Z.eqb_neq c 383)), (proj2 (Z.eqb_neq c 8490)), (proj2 (Z.ltb_lt c 128)) by lia. done.
Qed.

Lemma EqualFold_ascii s t : ascii s -> EqualFold s t = bool_decide (map lowerByte s = map lowerByte t).
Proof. intros Hs. unfold EqualFold. by rewrite runes_ascii, foldRune_ascii. Qed.

Lemma lowerByte_idem c : lowerByte (lowerByte c) = lowerByte c.
Proof.
  unfold lowerByte, isUpper. destruct (Z.leb_spec 65 c), (Z.leb_spec c 90); cbn [andb]; zsplit; lia.
Qed.

Lemma lowerByte_ascii c : 0 <= c < 128 -> 0 <= lowerByte c < 128.
Proof. unfold lowerByte, isUpper. zsplit; lia. Qed.

Lemma encode_ascii c : 0 <= c < 128 -> encode_rune c = [c].
Proof.
  intros. unfold encode_rune, encode_valid, valid_rune.
  rewrite (proj2 (Z.leb_le 0 c)), (proj2 (Z.ltb_lt c 55296)) by lia. cbn [andb orb].
  by rewrite (proj2 (Z.ltb_lt c 128)) by lia.
Qed.

Lemma ToLower_ascii `{LowerTable} s : ascii s -> ToLower s = map lowerByte s.
Proof.
  intros Hs. unfold ToLower. rewrite runes_ascii by done.
  induction Hs as [|c s Hc _ IH]; [done|]. cbn [flat_map map].
  rewrite (proj2 (Z.ltb_lt c 128)) by lia. rewrite encode_ascii by by apply lowerByte_ascii.
  by rewrite IH.
Qed.

Lemma last_start_ascii s c : 0 <= c < 128 -> DecodeLastRune (s ++ [c]) = (c, 1%nat).
Proof.
  intros. unfold DecodeLastRune, RuneSelf. rewrite last_snoc.
  by rewrite (proj2 (Z.ltb_lt c 128)) by lia.
Qed.

(** A string that begins and ends with a byte that is no space. *)
Definition trimmed (s : gostring) : Prop :=
  (forall c, head s = Some c -> 0 <= c < 128 /\ IsSpace c = false) /\
  (forall c, last s = Some c -> 0 <= c < 128 /\ IsSpace c = false).

Lemma trim_left_trimmed fuel s : trimmed s -> trim_left fuel s = s.
Proof.
  intros [Hh _]. destruct fuel, s as [|c s]; [done..|]. cbn [trim_left].
  destruct (Hh c eq_refl) as [Hc Hn]. rewrite decode_ascii by done. by rewrite Hn.
Qed.

Lemma trim_right_trimmed fuel s : trimmed s -> trim_right fuel s = s.
Proof.
  intros [_ Hl]. destruct fuel; [by destruct s|].
  destruct s as [|c s _] using rev_ind; [done|].
  destruct (Hl c) as [Hc Hn]; [by rewrite last_snoc|].
  assert (E : trim_right (S fuel) (s ++ [c]) =
    let '(r, n) := DecodeLastRune (s ++ [c]) in
    if IsSpace r then trim_right fuel (take (length (s ++ [c]) - n) (s ++ [c])) else s ++ [c])
    by by destruct s.
  rewrite E, last_start_ascii by done. by rewrite Hn.
Qed.

Lemma TrimSpace_trimmed s : trimmed s -> TrimSpace s = s.
Proof. intros H. unfold TrimSpace. by rewrite trim_left_trimmed, trim_right_trimmed. Qed.

Lemma TrimSpace_space s : trimmed s -> TrimSpace (32 :: s) = s.
Proof.
  intros H. unfold TrimSpace. cbn [length trim_left]. rewrite decode_ascii by lia. cbn [skipn].
  change (IsSpace 32) with true. cbv iota. rewrite drop_0. by rewrite trim_left_trimmed, trim_right_trimmed.
Qed.
