(* ===== verification/GoEncoding.v ===== *)
(** * encoding/base64 and crypto/sha1

    The standard base64 alphabet with padding, and SHA-1: what a WebSocket key
    and its answer are made of. *)

From Stdlib Require String.
From Stdlib Require Import(notations) String.
From S2P Require Import Prelude Utf8 GoStrings.

Local Open Scope Z_scope.

(** ** base64.StdEncoding *)

Definition alphabet : gostring := lit "ABCDEFGHIJKLMNOPQRSTUVWXYZabcdefghijklmnopqrstuvwxyz0123456789+/".
Definition b64char (v : Z) : Z := default 0 (alphabet !! Z.to_nat v).
Definition b64val (c : Z) : option Z := Z.of_nat <$> IndexByte alphabet c.
Definition pad : Z := 61.

Fixpoint EncodeToString (bs : list Z) : gostring :=
  match bs with
  | a :: b :: c :: bs =>
      [b64char (a / 4); b64char (a mod 4 * 16 + b / 16); b64char (b mod 16 * 4 + c / 64); b64char (c mod 64)]
        ++ EncodeToString bs
  | [a; b] => [b64char (a / 4); b64char (a mod 4 * 16 + b / 16); b64char (b mod 16 * 4); pad]
  | [a] => [b64char (a / 4); b64char (a mod 4 * 16); pad; pad]
  | [] => []
  end.

(** The quanta of an encoding without line breaks.  Padding ends it; the spare
    bits before the padding are not checked (the encoding is not strict). *)
Fixpoint decode_quanta (s : gostring) : option (list Z) :=
  match s with
  | [] => Some []
  | c0 :: c1 :: c2 :: c3 :: s =>
      v0 ← b64val c0; v1 ← b64val c1;
      if (c2 =? pad) && (c3 =? pad) && bool_decide (s = []) then Some [v0 * 4 + v1 / 16]
      else
        v2 ← b64val c2;
        if (c3 =? pad) && bool_decide (s = [])
        then Some [v0 * 4 + v1 / 16; v1 mod 16 * 16 + v2 / 4]
        else
          v3 ← b64val c3; rest ← decode_quanta s;
          Some (v0 * 4 + v1 / 16 :: v1 mod 16 * 16 + v2 / 4 :: v2 mod 4 * 64 + v3 :: rest)
  | _ => None
  end.

(** DecodeString: line breaks are skipped wherever they are. *)
Definition DecodeString (s : gostring) : option (list Z) :=
  decode_quanta (filter (fun c => c <> CR /\ c <> LF) s).

(** ** crypto/sha1 *)

Definition rotl (n x : Z) : Z :=
  wrap 32 (Z.lor (Z.shiftl x n) (Z.shiftr x (32 - n))).

Definition be32 (x : Z) : list Z :=
  [x / 2 ^ 24 mod 256; x / 2 ^ 16 mod 256; x / 2 ^ 8 mod 256; x mod 256].

Fixpoint words (bs : list Z) : list Z :=
  match bs with
  | a :: b :: c :: d :: bs => (((a * 256 + b) * 256 + c) * 256 + d) :: words bs
  | _ => []
  end.

(** The message followed by 0x80, zeros up to 8 bytes short of a block, and its
    length in bits. *)
Definition sha1_pad (m : list Z) : list Z :=
  let n := Z.of_nat (length m) in
  m ++ 128 :: replicate (Z.to_nat ((55 - n) mod 64)) 0 ++ be32 (n * 8 / 2 ^ 32) ++ be32 (n * 8).

(** The message schedule: from the sixteen words of a block, newest first. *)
Fixpoint schedule (n : nat) (rev_w : list Z) : list Z :=
  match n with
  | O => rev_w
  | S n =>
      let at_ i := default 0 (rev_w !! i) in
      schedule n (rotl 1 (Z.lxor (Z.lxor (at_ 2%nat) (at_ 7%nat)) (Z.lxor (at_ 13%nat) (at_ 15%nat))) :: rev_w)
  end.

Definition sha1_round (t : nat) (w : Z) (h : Z * Z * Z * Z * Z) : Z * Z * Z * Z * Z :=
  let '(a, b, c, d, e) := h in
  let '(f, k) :=
    if (t <? 20)%nat then (Z.lor (Z.land b c) (Z.land (2 ^ 32 - 1 - b) d), 1518500249)
    else if (t <? 40)%nat then (Z.lxor (Z.lxor b c) d, 1859775393)
    else if (t <? 60)%nat then (Z.lor (Z.lor (Z.land b c) (Z.land b d)) (Z.land c d), 2400959708)
    else (Z.lxor (Z.lxor b c) d, 3395469782) in
  (wrap 32 (rotl 5 a + f + e + w + k), a, rotl 30 b, c, d).

Fixpoint sha1_rounds (t : nat) (ws : list Z) (h : Z * Z * Z * Z * Z) : Z * Z * Z * Z * Z :=
  match ws with
  | [] => h
  | w :: ws => sha1_rounds (S t) ws (sha1_round t w h)
  end.

Definition sha1_block (h : Z * Z * Z * Z * Z) (ws : list Z) : Z * Z * Z * Z * Z :=
  let '(a, b, c, d, e) := h in
  let '(a', b', c', d', e') := sha1_rounds 0 (rev (schedule 64 (rev ws))) h in
  (wrap 32 (a + a'), wrap 32 (b + b'), wrap 32 (c + c'), wrap 32 (d + d'), wrap 32 (e + e')).

Fixpoint sha1_blocks (fuel : nat) (ws : list Z) (h : Z * Z * Z * Z * Z) : Z * Z * Z * Z * Z :=
  match fuel, ws with
  | O, _ | _, [] => h
  | S fuel, _ => sha1_blocks fuel (drop 16 ws) (sha1_block h (take 16 ws))
  end.

Definition sha1_Sum (m : list Z) : list Z :=
  let ws := words (sha1_pad m) in
  let '(a, b, c, d, e) :=
    sha1_blocks (length ws) ws (1732584193, 4023233417, 2562383102, 271733878, 3285377520) in
  be32 a ++ be32 b ++ be32 c ++ be32 d ++ be32 e.

(** ** Facts *)

Lemma sha1_Sum_length m : length (sha1_Sum m) = 20%nat.
Proof. unfold sha1_Sum. by destruct (sha1_blocks _ _ _) as [[[[a b] c] d] e]. Qed.

(** FIPS 180's example. *)
Example sha1_abc :
  sha1_Sum (lit "abc") =
  [169; 153; 62; 54; 71; 6; 129; 106; 186; 62; 37; 113; 120; 80; 194; 108; 156; 208; 216; 157].
Proof. vm_compute. reflexivity. Qed.

Lemma sextets : Forall (fun v =>
    b64val (b64char v) = Some v /\ b64char v <> pad /\ b64char v <> CR /\ b64char v <> LF /\
    0 <= b64char v < 128 /\ 32 < b64char v) (seqZ 0 64).
Proof. apply (bool_decide_unpack _). vm_compute. exact I. Qed.

Lemma sextet v : 0 <= v < 64 ->
  b64val (b64char v) = Some v /\ b64char v <> pad /\ b64char v <> CR /\ b64char v <> LF /\
  0 <= b64char v < 128 /\ 32 < b64char v.
Proof. intros Hv. pose proof sextets as H. rewrite Forall_forall in H. apply H. apply elem_of_seqZ. lia. Qed.

(** Three bytes at a time. *)
Lemma triple_ind (P : list Z -> Prop) :
  P [] -> (forall a, P [a]) -> (forall a b, P [a; b]) ->
  (forall a b c bs, P bs -> P (a :: b :: c :: bs)) -> forall bs, P bs.
Proof.
  intros H0 H1 H2 H3 bs. assert (P bs /\ (forall a, P (a :: bs)) /\ (forall a b, P (a :: b :: bs))) as [? _]; [|done].
  induction bs as [|x bs (IH0 & IH1 & IH2)]; split_and!; auto.
Qed.

Lemma EncodeToString_bytes bs :
  Forall is_byte bs ->
  Forall (fun c => 32 < c < 127 /\ c <> CR /\ c <> LF) (EncodeToString bs).
Proof.
  assert (Hc : forall v, 0 <= v < 64 -> 32 < b64char v < 127 /\ b64char v <> CR /\ b64char v <> LF).
  { pose proof sextets as Hs. rewrite Forall_forall in Hs. intros v Hv.
    destruct (sextet v Hv) as (_ & _ & ? & ? & ? & ?).
    assert (b64char v <> 127); [|split_and!; lia].
    assert (Hd : Forall (fun v => b64char v <> 127) (seqZ 0 64)) by (apply (bool_decide_unpack _); vm_compute; exact I).
    rewrite Forall_forall in Hd. apply Hd, elem_of_seqZ. lia. }
  assert (Hp : 32 < pad < 127 /\ pad <> CR /\ pad <> LF) by (unfold pad, CR, LF; lia).
  unfold is_uint. change (2 ^ 8) with 256.
  induction bs as [|a|a b|a b c bs IH] using triple_ind; intros Hb; cbn [EncodeToString app];
    decompose_Forall_hyps; repeat constructor; auto; apply Hc; euclid.
Qed.

Lemma EncodeToString_length bs : (length (EncodeToString bs) = (length bs + 2) / 3 * 4)%nat.
Proof.
  induction bs as [|a|a b|a b c bs IH] using triple_ind; [done..|].
  cbn [EncodeToString app length]. rewrite IH.
  replace (S (S (S (length bs))) + 2)%nat with ((length bs + 2) + 1 * 3)%nat by lia.
  rewrite Nat.div_add by lia. lia.
Qed.

Lemma filter_breaks s : Forall (fun c => c <> CR /\ c <> LF) s -> filter (fun c => c <> CR /\ c <> LF) s = s.
Proof. induction 1 as [|c s Hc _ IH]; [done|]. rewrite filter_cons, decide_True by done. by rewrite IH. Qed.

Lemma quanta_roundtrip bs : Forall is_byte bs -> decode_quanta (EncodeToString bs) = Some bs.
Proof.
  unfold is_uint. change (2 ^ 8) with 256.
  induction bs as [|a|a b|a b c bs IH] using triple_ind; intros Hb; [done|..];
    decompose_Forall_hyps; cbn [EncodeToString app decode_quanta].
  - destruct (sextet (a / 4)) as (-> & _); [euclid|]. destruct (sextet (a mod 4 * 16)) as (-> & _); [euclid|].
    cbn. do 2 f_equal. euclid.
  - destruct (sextet (a / 4)) as (-> & _); [euclid|].
    destruct (sextet (a mod 4 * 16 + b / 16)) as (-> & _); [euclid|].
    destruct (sextet (b mod 16 * 4)) as (-> & Hp & _); [euclid|]. cbn.
    rewrite (proj2 (Z.eqb_neq _ _) Hp). cbn. do 2 f_equal; [euclid|]. f_equal. euclid.
  - destruct (sextet (a / 4)) as (-> & _); [euclid|].
    destruct (sextet (a mod 4 * 16 + b / 16)) as (-> & _); [euclid|].
    destruct (sextet (b mod 16 * 4 + c / 64)) as (-> & _); [euclid|].
    destruct (sextet (c mod 64)) as (-> & Hp & _); [euclid|]. cbn.
    rewrite (proj2 (Z.eqb_neq _ _) Hp), andb_false_r. cbn. rewrite IH by done. cbn.
    f_equal. f_equal; [euclid|]. f_equal; [euclid|]. f_equal. euclid.
Qed.

(** base64 decodes what it encoded. *)
Lemma base64_roundtrip bs : Forall is_byte bs -> DecodeString (EncodeToString bs) = Some bs.
Proof.
  intros Hb. unfold DecodeString. rewrite filter_breaks; [by apply quanta_roundtrip|].
  eapply Forall_impl; [by apply EncodeToString_bytes|]. naive_solver.
Qed.
