(* ===== verification/WsExtension.v ===== *)
(** * WebSocket extension negotiation (src/uws/internal/extension/deflate.go)

    permessage-deflate's parameters, the server's choice among a request's
    offers and the client's check of the response.  A Go error is the [inl] of a
    sum; its constructors carry what the message quotes. *)

From Stdlib Require String.
From Stdlib Require Import(notations) String.
From S2P Require Import Prelude Utf8 GoStrings.

Local Open Scope Z_scope.

Inductive ext_error : Type :=
| DuplicateParameter (name : gostring)
| InvalidParameter (name : gostring)
| MissingValue (name : gostring)
| UnknownParameter (name : gostring)
| UnexpectedResponse
| UnexpectedExtension (name : gostring)
| DuplicateExtension
| ValuelessResponse.

#[export] Instance ext_error_eq_dec : EqDecision ext_error.
Proof. solve_decision. Defined.

(** compress.Params; Go's zero value is [Params0]. *)
Record Params : Type := MkParams {
  Enabled : bool;
  ServerNoContextTakeover : bool;
  ClientNoContextTakeover : bool;
  ServerMaxWindowBitsSet : bool;
  ServerMaxWindowBits : Z;
  ClientMaxWindowBits : Z;
  ClientMaxWindowBitsSet : bool;
  Level : Z;
}.

#[export] Instance Params_eq_dec : EqDecision Params.
Proof. solve_decision. Defined.

Definition Params0 : Params := MkParams false false false false 0 0 false 0.
Definition DefaultWindowBits : Z := 15.

Definition set_enabled (p : Params) : Params :=
  MkParams true (ServerNoContextTakeover p) (ClientNoContextTakeover p) (ServerMaxWindowBitsSet p)
    (ServerMaxWindowBits p) (ClientMaxWindowBits p) (ClientMaxWindowBitsSet p) (Level p).
Definition set_contexts (s c : bool) (p : Params) : Params :=
  MkParams (Enabled p) s c (ServerMaxWindowBitsSet p)
    (ServerMaxWindowBits p) (ClientMaxWindowBits p) (ClientMaxWindowBitsSet p) (Level p).
Definition set_server_bits (bits : Z) (p : Params) : Params :=
  MkParams (Enabled p) (ServerNoContextTakeover p) (ClientNoContextTakeover p) true
    bits (ClientMaxWindowBits p) (ClientMaxWindowBitsSet p) (Level p).
Definition set_client_bits (bits : Z) (p : Params) : Params :=
  MkParams (Enabled p) (ServerNoContextTakeover p) (ClientNoContextTakeover p) (ServerMaxWindowBitsSet p)
    (ServerMaxWindowBits p) bits true (Level p).

Definition perMessageDeflate : gostring := lit "permessage-deflate".
Definition serverNoContext_ : gostring := lit "server_no_context_takeover".
Definition clientNoContext_ : gostring := lit "client_no_context_takeover".
Definition serverMaxWindow_ : gostring := lit "server_max_window_bits".
Definition clientMaxWindow_ : gostring := lit "client_max_window_bits".

Definition comma : Z := 44.
Definition semicolon : Z := 59.
Definition equals : Z := 61.

Section extension.
Context `{LowerTable}.

(** The value of a window-bits parameter. *)
Definition windowBits (name value : gostring) : ext_error + Z :=
  match Atoi (TrimSpace value) with
  | Some bits => if (bits <? 8) || (15 <? bits) then inl (InvalidParameter name) else inr bits
  | None => inl (InvalidParameter name)
  end.

(** One case of parseParams' switch: what a parameter that is no duplicate does
    to the parameters read so far. *)
Definition parseParam (kv : list gostring) (name : gostring) (params : Params) : ext_error + Params :=
  if bool_decide (name = serverNoContext_) then
    if (length kv =? 1)%nat
    then inr (set_contexts true (ClientNoContextTakeover params) params)
    else inl (InvalidParameter name)
  else if bool_decide (name = clientNoContext_) then
    if (length kv =? 1)%nat
    then inr (set_contexts (ServerNoContextTakeover params) true params)
    else inl (InvalidParameter name)
  else if bool_decide (name = serverMaxWindow_) then
    match kv with
    | [_; value] =>
        match windowBits name value with
        | inr bits => inr (set_server_bits bits params)
        | inl e => inl e
        end
    | _ => inl (MissingValue name)
    end
  else if bool_decide (name = clientMaxWindow_) then
    match kv with
    | [_; value] =>
        match windowBits name value with
        | inr bits => inr (set_client_bits bits params)
        | inl e => inl e
        end
    | _ => inr (set_client_bits (ClientMaxWindowBits params) params)
    end
  else inl (UnknownParameter name).

Definition paramName (kv : list gostring) : gostring :=
  ToLower (TrimSpace (default [] (kv !! O))).

Fixpoint params_loop (parts : list gostring) (seen : gset gostring) (params : Params)
    : ext_error + Params :=
  match parts with
  | [] => inr params
  | raw :: parts =>
      let item := TrimSpace raw in
      if bool_decide (item = []) then params_loop parts seen params
      else
        let kv := SplitN2 item equals in
        let name := paramName kv in
        if bool_decide (name ∈ seen) then inl (DuplicateParameter name)
        else
          match parseParam kv name params with
          | inr params => params_loop parts ({[name]} ∪ seen) params
          | inl e => inl e
          end
  end.

Definition parseParams (parts : list gostring) : ext_error + Params :=
  params_loop parts ∅ (MkParams false false false false 0 0 false (-1)).

(** ** The server *)

(** What the server makes of the offer it supports: its parameters, and the
    response's extension value. *)
Definition answer (noContextTakeover : bool) (params : Params) : Params * gostring :=
  let params := set_enabled params in
  let s := noContextTakeover || ServerNoContextTakeover params in
  let c := noContextTakeover || ClientNoContextTakeover params in
  let params := set_contexts s c params in
  let response := perMessageDeflate
    ++ (if s then lit "; server_no_context_takeover" else [])
    ++ (if c then lit "; client_no_context_takeover" else [])
    ++ (if ServerMaxWindowBitsSet params
        then lit "; server_max_window_bits=" ++ Itoa (ServerMaxWindowBits params) else []) in
  if ClientMaxWindowBitsSet params then
    let params := if ClientMaxWindowBits params =? 0
                  then set_client_bits DefaultWindowBits params else params in
    (params, response ++ lit "; client_max_window_bits=" ++ Itoa (ClientMaxWindowBits params))
  else (params, response).

(** The extensions offered, in order: every comma separated item of every
    header value, as its semicolon separated parts. *)
Definition offers (values : list gostring) : list (list gostring) :=
  flat_map (fun value => map (fun raw => Split raw semicolon) (Split value comma)) values.

Definition extensionName (parts : list gostring) : gostring :=
  TrimSpace (default [] (parts !! O)).

Fixpoint serverOffers (offered : list (list gostring)) (noContextTakeover : bool)
    : ext_error + Params * gostring :=
  match offered with
  | [] => inr (Params0, [])
  | parts :: offered =>
      if negb (EqualFold (extensionName parts) perMessageDeflate)
      then serverOffers offered noContextTakeover
      else
        match parseParams (drop 1 parts) with
        | inr params => inr (answer noContextTakeover params)
        | inl e => inl e
        end
  end.

Definition NegotiateServerWithPolicy (values : list gostring) (enabled noContextTakeover : bool)
    : ext_error + Params * gostring :=
  if negb enabled then inr (Params0, []) else serverOffers (offers values) noContextTakeover.

Definition NegotiateServer (values : list gostring) (enabled : bool) : ext_error + Params * gostring :=
  NegotiateServerWithPolicy values enabled true.

(** ** The client *)

Fixpoint clientOffers (offered : list (list gostring)) (found : bool) (negotiated : Params)
    : ext_error + Params :=
  match offered with
  | [] => inr negotiated
  | parts :: offered =>
      if negb (EqualFold (extensionName parts) perMessageDeflate)
      then inl (UnexpectedExtension (extensionName parts))
      else if found then inl DuplicateExtension
      else
        match parseParams (drop 1 parts) with
        | inl e => inl e
        | inr params =>
            if ClientMaxWindowBitsSet params && (ClientMaxWindowBits params =? 0)
            then inl ValuelessResponse
            else clientOffers offered true (set_enabled params)
        end
  end.

Definition NegotiateClient (values : list gostring) (requested : bool) : ext_error + Params :=
  if negb requested then
    if bool_decide (values = []) then inr Params0 else inl UnexpectedResponse
  else clientOffers (offers values) false Params0.

End extension.

(** ** What parseParams accepts *)

Section facts.
Context `{LowerTable}.

(** A window-bits value is within 8..15. *)
Definition bits_ok (b : Z) : Prop := 8 <= b <= 15.

Lemma windowBits_range name value b : windowBits name value = inr b -> bits_ok b.
Proof.
  unfold windowBits, bits_ok. destruct (Atoi _) as [v|]; [|done].
  destruct (Z.ltb_spec v 8), (Z.ltb_spec 15 v); cbn [orb]; intros E; simplify_eq; lia.
Qed.

(** The parameters a parse can return: not yet enabled, at the default level,
    each window 8..15 when it was given and 0 otherwise. *)
Definition parsed (p : Params) : Prop :=
  Enabled p = false /\ Level p = -1 /\
  (if ServerMaxWindowBitsSet p then bits_ok (ServerMaxWindowBits p) else ServerMaxWindowBits p = 0) /\
  (ClientMaxWindowBits p = 0 \/ ClientMaxWindowBitsSet p = true /\ bits_ok (ClientMaxWindowBits p)).

Lemma parseParam_parsed kv name p q : parsed p -> parseParam kv name p = inr q -> parsed q.
Proof.
  unfold parseParam, parsed. destruct p as [en sn cn ss sb cb cs lv]. simpl.
  intros (-> & -> & Hs & Hc).
  repeat case_bool_decide; repeat case_match; intros E; simplify_eq; simpl; split_and!; try done;
    try (match goal with H : windowBits _ _ = inr _ |- _ => apply windowBits_range in H end); auto;
    destruct Hc as [->|[]]; auto.
Qed.

Lemma params_loop_parsed parts seen p q :
  parsed p -> params_loop parts seen p = inr q -> parsed q.
Proof.
  revert seen p. induction parts as [|raw parts IH]; simpl; intros seen p Hp E; [by simplify_eq|].
  case_bool_decide; [eauto|]. case_bool_decide; [done|].
  destruct (parseParam _ _ p) as [e|p'] eqn:E'; [done|]. eauto using parseParam_parsed.
Qed.

Lemma parseParams_parsed parts q : parseParams parts = inr q -> parsed q.
Proof. apply params_loop_parsed. repeat split; [done..|]. by left. Qed.

(** *** The answers the server can give are finitely many *)

(** Every parameter set a parse can return, up to the two flags: a window is
    absent, given, or (the client's) present without a value. *)
Definition server_windows : list (bool * Z) :=
  (false, 0) :: map (fun b => (true, b)) (seqZ 8 8).
Definition client_windows : list (bool * Z) :=
  (false, 0) :: (true, 0) :: map (fun b => (true, b)) (seqZ 8 8).
Definition parses : list Params :=
  sn ← [true; false]; cn ← [true; false]; s ← server_windows; c ← client_windows;
  mret (MkParams false sn cn s.1 s.2 c.2 c.1 (-1)).

Lemma in_server_windows (set : bool) b :
  (if set then bits_ok b else b = 0) -> (set, b) ∈ server_windows.
Proof.
  unfold server_windows, bits_ok. destruct set; intros Hb; [|subst; left].
  right. apply list_elem_of_fmap. exists b. split; [done|]. apply elem_of_seqZ. lia.
Qed.

Lemma in_client_windows (set : bool) b :
  b = 0 \/ set = true /\ bits_ok b -> (set, b) ∈ client_windows.
Proof.
  unfold client_windows. intros [->|[-> Hb]]; [destruct set; [right; left|left]|].
  right. right. apply list_elem_of_fmap. exists b. unfold bits_ok in Hb.
  split; [done|]. apply elem_of_seqZ. lia.
Qed.

Lemma parsed_in_parses p : parsed p -> p ∈ parses.
Proof.
  destruct p as [en sn cn ss sb cb cs lv]. intros (He & Hl & Hs & Hc). simpl in *. subst.
  unfold parses.
  apply list_elem_of_bind. exists sn. split; [|destruct sn; set_solver].
  apply list_elem_of_bind. exists cn. split; [|destruct cn; set_solver].
  apply list_elem_of_bind. exists (ss, sb). split; [|by apply in_server_windows].
  apply list_elem_of_bind. exists (cs, cb). split; [|by apply in_client_windows].
  apply list_elem_of_singleton. done.
Qed.

(** Whatever the policy, a client reads the server's answer back as the
    parameters the server uses. *)
Lemma answers_read_back :
  forallb (fun policy => forallb (fun p =>
    bool_decide (NegotiateClient [(answer policy p).2] true = inr (answer policy p).1) &&
    negb (bool_decide ((answer policy p).2 = []))) parses) [true; false] = true.
Proof. vm_compute. reflexivity. Qed.

Lemma answer_read_back policy p :
  parsed p ->
  NegotiateClient [(answer policy p).2] true = inr (answer policy p).1 /\ (answer policy p).2 <> [].
Proof.
  intros Hp%parsed_in_parses. pose proof answers_read_back as Hall.
  rewrite forallb_forall in Hall. specialize (Hall policy). cbv beta in Hall.
  rewrite forallb_forall in Hall.
  specialize (Hall ltac:(destruct policy; simpl; auto) p ltac:(by apply list_elem_of_In)).
  apply andb_true_iff in Hall as [H1%bool_decide_eq_true H2%negb_true_iff%bool_decide_eq_false]. done.
Qed.

(** What an offer asks for holds in the answer, and what the policy asks for. *)
Definition honours (policy : bool) (offer p : Params) : Prop :=
  Enabled p = true /\ Level p = -1 /\
  ServerNoContextTakeover p = policy || ServerNoContextTakeover offer /\
  ClientNoContextTakeover p = policy || ClientNoContextTakeover offer /\
  ServerMaxWindowBitsSet p = ServerMaxWindowBitsSet offer /\
  ServerMaxWindowBits p = ServerMaxWindowBits offer /\
  ClientMaxWindowBitsSet p = ClientMaxWindowBitsSet offer /\
  ClientMaxWindowBits p =
    (if ClientMaxWindowBitsSet offer && (ClientMaxWindowBits offer =? 0) then 15
     else ClientMaxWindowBits offer).

Lemma answer_honours policy q : Level q = -1 -> honours policy q (answer policy q).1.
Proof.
  intros Hl. destruct q as [en sn cn ss sb cb cs lv]. unfold honours, answer.
  destruct cs; simpl; [destruct (Z.eqb_spec cb 0)|]; simpl in *; done.
Qed.

(** What the server decides by: the first offer of permessage-deflate. *)
Definition supported (parts : list gostring) : bool := EqualFold (extensionName parts) perMessageDeflate.

Lemma serverOffers_spec offered policy :
  match list_find (fun parts => supported parts = true) offered with
  | None => serverOffers offered policy = inr (Params0, [])
  | Some (_, parts) =>
      match parseParams (drop 1 parts) with
      | inr q => serverOffers offered policy = inr (answer policy q)
      | inl e => serverOffers offered policy = inl e
      end
  end.
Proof.
  induction offered as [|parts offered IH]; [done|]. cbn [list_find serverOffers].
  unfold supported in *. destruct (EqualFold _ _) eqn:E; cbn [negb].
  - rewrite decide_True by done. by destruct (parseParams _).
  - rewrite decide_False by done. destruct (list_find _ offered) as [[i q]|]; exact IH.
Qed.
End facts.

(** C18.  Negotiation of permessage-deflate agrees on both ends.  When the server
    answers a request with no extension value, it keeps compression off and the
    request offered none; otherwise the answer is one a client that asked for
    compression accepts, with exactly the parameters the server uses; those are
    what the first offer of permessage-deflate asks for, tightened by the
    server's own policy, with an absent client window value read as 15. *)
Theorem negotiation_agrees `{LowerTable} (values : list gostring) (policy : bool) (p : Params) (response : gostring) :
  NegotiateServerWithPolicy values true policy = inr (p, response) ->
  (response = [] /\ p = Params0 /\ Forall (fun parts => supported parts = false) (offers values)) \/
  (response <> [] /\ NegotiateClient [response] true = inr p /\
   exists i parts offer,
     offers values !! i = Some parts /\ supported parts = true /\
     (forall j parts', (j < i)%nat -> offers values !! j = Some parts' -> supported parts' = false) /\
     parseParams (drop 1 parts) = inr offer /\ honours policy offer p).
Proof.
  unfold NegotiateServerWithPolicy. cbn [negb]. intros E.
  pose proof (serverOffers_spec (offers values) policy) as Hs.
  destruct (list_find _ _) as [[i parts]|] eqn:Ef.
  - destruct (parseParams (drop 1 parts)) as [e|q] eqn:Eq; rewrite Hs in E; [done|].
    injection E as E. pose proof (parseParams_parsed _ _ Eq) as Hp.
    destruct (answer_read_back policy q Hp) as [H1 H2]. rewrite E in H1, H2.
    right. split_and!; [done..|]. apply list_find_Some in Ef as (Hi & Hsup & Hfirst).
    exists i, parts, q. split_and!; try done.
    + intros j parts' Hj Hl. specialize (Hfirst j parts' Hl Hj). by apply not_true_is_false.
    + pose proof (answer_honours policy q) as Hh. rewrite E in Hh. apply Hh. apply Hp.
  - rewrite Hs in E. left. simplify_eq. split_and!; [done..|].
    apply list_find_None in Ef. eapply Forall_impl; [done|]. intros x Hx. by apply not_true_is_false.
Qed.

#[local] Instance asciiTable : LowerTable := fun r => r.

Lemma negotiation_agrees_witness :
  let offer := [lit "x-webkit, Permessage-Deflate ; client_max_window_bits; server_max_window_bits = 10"] in
  let response := lit "permessage-deflate; server_max_window_bits=10; client_max_window_bits=15" in
  let p := MkParams true false false true 10 15 true (-1) in
  NegotiateServerWithPolicy offer true false = inr (p, response) /\
  ((response = [] /\ p = Params0 /\ Forall (fun parts => supported parts = false) (offers offer)) \/
  (response <> [] /\ NegotiateClient [response] true = inr p /\
   exists i parts q,
     offers offer !! i = Some parts /\ supported parts = true /\
     (forall j parts', (j < i)%nat -> offers offer !! j = Some parts' -> supported parts' = false) /\
     parseParams (drop 1 parts) = inr q /\ honours false q p)).
Proof.
  cbv zeta. assert (E : NegotiateServerWithPolicy
    [lit "x-webkit, Permessage-Deflate ; client_max_window_bits; server_max_window_bits = 10"] true false =
    inr (MkParams true false false true 10 15 true (-1),
         lit "permessage-deflate; server_max_window_bits=10; client_max_window_bits=15"))
    by (vm_compute; reflexivity).
  split; [exact E|]. exact (negotiation_agrees _ _ _ _ E).
Defined.

(** ** The grammar of the parameters *)

Inductive param : Type :=
| PServerNoContext
| PClientNoContext
| PServerBits (bits : Z)
| PClientBits (bits : option Z).

#[export] Instance param_eq_dec : EqDecision param.
Proof. solve_decision. Defined.

Definition pname (a : param) : gostring :=
  match a with
  | PServerNoContext => serverNoContext_
  | PClientNoContext => clientNoContext_
  | PServerBits _ => serverMaxWindow_
  | PClientBits _ => clientMaxWindow_
  end.

Section grammar.
Context `{LowerTable}.

(** The items of an offer: its parts without surrounding space, empty ones
    left out. *)
Definition items (parts : list gostring) : list gostring :=
  filter (fun item => item <> []) (map TrimSpace parts).

Definition itemName (item : gostring) : gostring := paramName (SplitN2 item equals).

(** What one item says on its own. *)
Definition readItem (item : gostring) : ext_error + param :=
  let name := itemName item in
  let value := snd <$> (match SplitN2 item equals with [k; v] => Some (k, v) | _ => None end) in
  if bool_decide (name = serverNoContext_) then
    match value with None => inr PServerNoContext | Some _ => inl (InvalidParameter name) end
  else if bool_decide (name = clientNoContext_) then
    match value with None => inr PClientNoContext | Some _ => inl (InvalidParameter name) end
  else if bool_decide (name = serverMaxWindow_) then
    match value with
    | None => inl (MissingValue name)
    | Some v => match windowBits name v with inl e => inl e | inr b => inr (PServerBits b) end
    end
  else if bool_decide (name = clientMaxWindow_) then
    match value with
    | None => inr (PClientBits None)
    | Some v => match windowBits name v with inl e => inl e | inr b => inr (PClientBits (Some b)) end
    end
  else inl (UnknownParameter name).

Definition serverBitsOf (a : param) : option Z := match a with PServerBits b => Some b | _ => None end.
Definition clientBitsOf (a : param) : option (option Z) := match a with PClientBits b => Some b | _ => None end.

(** The parameters a list of distinct ones stands for. *)
Definition summary (ps : list param) : Params :=
  MkParams false (bool_decide (PServerNoContext ∈ ps)) (bool_decide (PClientNoContext ∈ ps))
    (bool_decide (is_Some (head (omap serverBitsOf ps))))
    (default 0 (head (omap serverBitsOf ps)))
    (default 0 (mjoin (head (omap clientBitsOf ps))))
    (bool_decide (is_Some (head (omap clientBitsOf ps)))) (-1).

Lemma SplitN2_shape s sep : (exists k v, SplitN2 s sep = [k; v]) \/ SplitN2 s sep = [s].
Proof. unfold SplitN2. destruct (IndexByte s sep); eauto. Qed.

Lemma readItem_name item a : readItem item = inr a -> itemName item = pname a.
Proof.
  unfold readItem. intros E. repeat case_bool_decide; repeat case_match; simplify_eq; done.
Qed.

Lemma omap_absent {B} (f : param -> option B) (name : gostring) ps :
  (forall a, is_Some (f a) -> pname a = name) -> name ∉ pname <$> ps -> omap f ps = [].
Proof.
  intros Hf Hn. induction ps as [|a ps IH]; [done|]. rewrite fmap_cons, not_elem_of_cons in Hn.
  destruct Hn as [Hne Hn]. cbn. destruct (f a) eqn:E; [|by apply IH].
  destruct Hne. symmetry. apply Hf. eauto.
Qed.

(** A parameter that was not seen yet does to the summary what the switch of
    parseParams does to the parameters. *)
Lemma parseParam_summary item ps :
  itemName item ∉ pname <$> ps ->
  parseParam (SplitN2 item equals) (itemName item) (summary ps) =
  match readItem item with inl e => inl e | inr a => inr (summary (ps ++ [a])) end.
Proof.
  intros Hn. unfold readItem, parseParam.
  assert (Hs : serverMaxWindow_ ∉ pname <$> ps -> omap serverBitsOf ps = []).
  { apply omap_absent. intros [] [? ?]; done. }
  assert (Hc : clientMaxWindow_ ∉ pname <$> ps -> omap clientBitsOf ps = []).
  { apply omap_absent. intros [] [? ?]; done. }
  assert (Hm : forall a b, a <> b -> (a ∈ ps ++ [b] <-> a ∈ ps)) by set_solver.
  repeat case_bool_decide; destruct (SplitN2_shape item equals) as [(k & v & E)|E]; rewrite ?E; clear E; cbn;
    try done; try (destruct (windowBits _ v); [done|]);
    repeat match goal with E : itemName item = _ |- _ => rewrite E in Hn; clear E end;
    unfold summary, set_contexts, set_server_bits, set_client_bits; cbn;
    rewrite !omap_app; cbn; rewrite ?app_nil_r; f_equal;
    rewrite ?Hs, ?Hc by done; cbn; f_equal; try done.
  all: first [ by (symmetry; apply bool_decide_eq_true; set_solver) | apply bool_decide_ext; by rewrite Hm ].
Qed.

Lemma items_cons raw parts :
  items (raw :: parts) = if bool_decide (TrimSpace raw = []) then items parts else TrimSpace raw :: items parts.
Proof. unfold items. rewrite map_cons, filter_cons. case_bool_decide; case_decide; naive_solver. Qed.

(** The loop, from any point: what was read so far is a list of distinct
    parameters. *)
Fixpoint readItems (its : list gostring) (ps : list param) : ext_error + list param :=
  match its with
  | [] => inr ps
  | item :: its =>
      if bool_decide (itemName item ∈ pname <$> ps) then inl (DuplicateParameter (itemName item))
      else match readItem item with
           | inl e => inl e
           | inr a => readItems its (ps ++ [a])
           end
  end.

Lemma params_loop_items parts ps :
  params_loop parts (list_to_set (pname <$> ps)) (summary ps) =
  match readItems (items parts) ps with inl e => inl e | inr ps => inr (summary ps) end.
Proof.
  revert ps. induction parts as [|raw parts IH]; intros ps; [done|].
  rewrite items_cons. cbn [params_loop]. case_bool_decide as Hi; [apply IH|]. cbn [readItems].
  fold (itemName (TrimSpace raw)).
  rewrite (bool_decide_ext _ (itemName (TrimSpace raw) ∈ pname <$> ps)) by apply elem_of_list_to_set.
  case_bool_decide as Hd; [done|]. rewrite parseParam_summary by done.
  destruct (readItem (TrimSpace raw)) as [e|a] eqn:Er; [done|]. rewrite <- IH. f_equal.
  rewrite fmap_app, list_to_set_app_L. cbn. rewrite <- (readItem_name _ _ Er). set_solver.
Qed.

Lemma parseParams_items parts :
  parseParams parts = match readItems (items parts) [] with inl e => inl e | inr ps => inr (summary ps) end.
Proof. exact (params_loop_items parts []). Qed.

Lemma readItems_ok its ps qs :
  readItems its ps = inr qs <->
  exists rs, qs = ps ++ rs /\ Forall2 (fun i a => readItem i = inr a) its rs /\
    NoDup (pname <$> rs) /\ (forall a, a ∈ rs -> pname a ∉ pname <$> ps).
Proof.
  revert ps. induction its as [|item its IH]; intros ps; cbn [readItems].
  - split.
    + intros E. simplify_eq. exists []. rewrite app_nil_r. split_and!; [done..|constructor|set_solver].
    + intros (rs & -> & Hr & _). inversion Hr. by rewrite app_nil_r.
  - case_bool_decide as Hd.
    { split; [done|]. intros (rs & -> & Hr & _ & Hn). inversion Hr as [|? a ? rs' Ha]; subst.
      exfalso. apply (Hn a); [left|]. by rewrite <- (readItem_name _ _ Ha). }
    destruct (readItem item) as [e|a] eqn:Er.
    { split; [done|]. intros (rs & -> & Hr & _). inversion Hr; congruence. }
    rewrite IH. apply readItem_name in Er as Hname. split.
    + intros (rs & -> & Hr & Hd' & Hn). exists (a :: rs). rewrite <- (assoc_L (++)).
      split_and!; [done|by constructor| |].
      * rewrite fmap_cons. constructor; [|done]. intros (b & Hb & Hin)%list_elem_of_fmap.
        apply (Hn b Hin). rewrite fmap_app, <- Hb. set_solver.
      * intros b [->|Hb]%elem_of_cons; [by rewrite <- Hname|].
        specialize (Hn b Hb). rewrite fmap_app in Hn. set_solver.
    + intros (rs & -> & Hr & Hd' & Hn). inversion Hr as [|? a' ? rs' Ha Hr']; subst.
      assert (a' = a) as -> by congruence. exists rs'. rewrite <- (assoc_L (++)).
      rewrite fmap_cons in Hd'. inversion Hd' as [|? ? Hna Hd'']; subst. split_and!; [done..|].
      intros b Hb. specialize (Hn b ltac:(by right)). rewrite fmap_app. intros [?|Hin]%elem_of_app; [done|].
      apply list_elem_of_singleton in Hin. apply Hna. rewrite <- Hin. by apply list_elem_of_fmap_2.
Qed.

(** The item a failing parse stops at, and why. *)
Definition offends (item : gostring) (ps : list param) (e : ext_error) : Prop :=
  ((itemName item ∈ pname <$> ps) /\ e = DuplicateParameter (itemName item)) \/
  ((itemName item ∉ pname <$> ps) /\ readItem item = inl e).

Lemma readItems_err its ps e :
  readItems its ps = inl e <->
  exists before item after rs,
    its = before ++ item :: after /\ readItems before ps = inr rs /\ offends item rs e.
Proof.
  revert ps. induction its as [|item its IH]; intros ps; cbn [readItems].
  { split; [done|]. by intros ([] & ? & ? & ? & ? & _). }
  split.
  - case_bool_decide as Hd.
    { intros E. exists [], item, its, ps. split_and!; [done..|]. left. by simplify_eq. }
    destruct (readItem item) as [e'|a] eqn:Er.
    { intros E. exists [], item, its, ps. split_and!; [done..|]. right. by simplify_eq. }
    intros (before & item' & after & rs & -> & Hb & Ho)%IH.
    exists (item :: before), item', after, rs. split_and!; [done| |done].
    cbn [readItems]. rewrite bool_decide_false by done. by rewrite Er.
  - intros (before & item' & after & rs & E & Hb & Ho). destruct before as [|b before].
    + cbn in E, Hb. simplify_eq. destruct Ho as [[Hi ->]|[Hi ->]].
      * by rewrite bool_decide_true.
      * by rewrite bool_decide_false.
    + cbn in E, Hb. simplify_eq. case_bool_decide; [done|].
      destruct (readItem b) as [|a]; [done|]. apply IH. eauto 10.
Qed.
End grammar.

