(* ===== verification/WsHandshake.v ===== *)
(** * The WebSocket upgrade (src/uws/internal/handshake)

    handshake.go: the server's parse of an upgrade request, its response, the
    client's request and its check of the response.  fast.go: the parse of a
    regular request without net/http.  reject.go: the headers a caller may add
    and the refusal of an upgrade.

    net/http's readers are a class, [NetHTTP]; an [http.Request] or
    [http.Response] is the record of the fields the package looks at, and an
    [http.Header] a map from names to their values in order. *)

From Stdlib Require String.
From Stdlib Require Import(notations) String.
From stdpp Require Import sorting.
From S2P Require Import Prelude Utf8 GoStrings GoEncoding.

Local Open Scope Z_scope.

(** ** net/http and net/textproto *)

Abbreviation Header := (gmap gostring (list gostring)).

(** The token bytes a header name may contain (textproto's validHeaderFieldByte). *)
Definition validHeaderFieldByte (c : Z) : bool :=
  isLower c || isUpper c || isDigit c ||
  bool_decide (c ∈ lit "!#$%&'*+-.^_`|~").

(** textproto.CanonicalMIMEHeaderKey: a letter is upper case first and after a
    hyphen and lower case elsewhere; a string that is no header name is left
    alone. *)
Fixpoint canonical (upper : bool) (s : gostring) : gostring :=
  match s with
  | [] => []
  | c :: s =>
      let c := if upper then upperByte c else lowerByte c in
      c :: canonical (c =? 45) s
  end.
Definition CanonicalMIMEHeaderKey (s : gostring) : gostring :=
  if forallb validHeaderFieldByte s then canonical true s else s.

Definition Values (h : Header) (name : gostring) : list gostring :=
  default [] (h !! CanonicalMIMEHeaderKey name).
Definition Get (h : Header) (name : gostring) : gostring := default [] (head (Values h name)).

Record HTTPRequest : Type := MkHTTPRequest {
  Method : gostring;
  ProtoMajor : Z;
  ProtoMinor : Z;
  req_Header : Header;
  req_ContentLength : Z;
  TransferEncoding : list gostring;
}.

Record HTTPResponse : Type := MkHTTPResponse {
  StatusCode : Z;
  resp_Header : Header;
  resp_ContentLength : Z;
}.

(** http.ReadRequest, http.ReadResponse (nothing for an error) and
    http.StatusText. *)
Class NetHTTP : Type := {
  ReadRequest : gostring -> option HTTPRequest;
  ReadResponse : gostring -> option HTTPResponse;
  StatusText : Z -> gostring;
}.

(** ** handshake.go: data *)

Definition webSocketGUID : gostring := lit "258EAFA5-E914-47DA-95CA-C5AB0DC85B11".
Definition DefaultMaxBytes : Z := Z.shiftl 32 10.

(** The package's errors: its two sentinels (ErrBadRequest also wrapped around
    net/http's), io.ErrUnexpectedEOF, and a [ResponseError]. *)
Inductive hs_error : Type :=
| ErrBadRequest
| ErrNotUpgrade
| ErrUnexpectedEOF
| ResponseError (status : Z) (header : Header) (body : gostring).

#[export] Instance hs_error_eq_dec : EqDecision hs_error.
Proof. solve_decision. Defined.

Record ServerOptions : Type := MkServerOptions {
  MaxHeaderBytes : Z;
  CheckOrigin : option (HTTPRequest -> bool);
}.

Record Request : Type := MkRequest {
  HTTP : option HTTPRequest;
  Key : gostring;
  Subprotocols : list gostring;
  Extensions : list gostring;
  raw : gostring;
}.

(** ** handshake.go: helpers *)

Definition separators : gostring := lit "()<>@,;:\/[]?={}" ++ [34].

Definition validTokenByte (c : Z) : bool :=
  negb ((c <=? 32) || (127 <=? c)) && negb (bool_decide (c ∈ separators)).
Definition validToken (value : gostring) : bool :=
  negb (bool_decide (value = [])) && forallb validTokenByte value.

(** The comma separated items of the header values. *)
Definition items_of (values : list gostring) : list gostring :=
  flat_map (fun value => Split value 44) values.

Fixpoint tokens_loop (its : list gostring) (tokens : list gostring) : hs_error + list gostring :=
  match its with
  | [] => inr tokens
  | it :: its =>
      let token := TrimSpace it in
      if bool_decide (token = []) then tokens_loop its tokens
      else if negb (validToken token) then inl ErrBadRequest
      else tokens_loop its (tokens ++ [token])
  end.
Definition parseTokens (values : list gostring) : hs_error + list gostring :=
  tokens_loop (items_of values) [].

Definition headerHasToken (h : Header) (name want : gostring) : bool :=
  existsb (fun token => EqualFold (TrimSpace token) want) (items_of (Values h name)).

Definition contains (values : list gostring) (want : gostring) : bool :=
  existsb (fun value => bool_decide (value = want)) values.

(** A key is the base64 of 16 bytes; the decoding into the array of 18 bytes
    (a key of 24) and the general one differ only in where the bytes go. *)
Definition validKey (key : gostring) : bool :=
  let key := TrimSpace key in
  if negb (length key =? 24)%nat then
    match DecodeString key with
    | Some decoded => (length decoded =? 16)%nat
    | None => false
    end
  else
    match DecodeString key with
    | Some decoded => (length decoded =? 16)%nat
    | None => false
    end.

Definition responseLimit (limits : list Z) : Z :=
  match limits with
  | l :: _ => if 0 <? l then l else DefaultMaxBytes
  | [] => DefaultMaxBytes
  end.

Definition sha1Base64Size : nat := 28.

(** copy(dst[:], src) onto an array of bytes, from [n]; what does not fit is
    dropped. *)
Definition copy_at (a : list Z) (n : nat) (src : list Z) : list Z * nat :=
  let src := take (length a - n) src in
  (take n a ++ src ++ drop (n + length src) a, length src).

Definition appendBase64SHA1 (dst sum : gostring) : gostring :=
  let encoded := replicate sha1Base64Size 0 in
  dst ++ (copy_at encoded 0 (EncodeToString sum)).1.

(** The challenge is put together in an array of 64 bytes when it fits. *)
Definition appendAcceptKey (dst key : gostring) : gostring :=
  let challenge := replicate 64 0 in
  if (64 <? length key + length webSocketGUID)%nat
  then appendBase64SHA1 dst (sha1_Sum (key ++ webSocketGUID))
  else
    let '(challenge, n) := copy_at challenge 0 key in
    let '(challenge, m) := copy_at challenge n webSocketGUID in
    appendBase64SHA1 dst (sha1_Sum (take (n + m) challenge)).

Definition acceptKey (key : gostring) : gostring := appendAcceptKey [] key.

(** ** fast.go *)

Definition fastRequestMethod : gostring := lit "GET ".
Definition fastRequestProto : gostring := lit " HTTP/1.1".
Definition fastHeaderHost : gostring := lit "host".
Definition fastHeaderUpgrade : gostring := lit "upgrade".
Definition fastHeaderConnection : gostring := lit "connection".
Definition fastHeaderVersion : gostring := lit "sec-websocket-version".
Definition fastHeaderKey : gostring := lit "sec-websocket-key".
Definition fastHeaderProtocol : gostring := lit "sec-websocket-protocol".
Definition fastHeaderExtensions : gostring := lit "sec-websocket-extensions".
Definition fastHeaderContentLength : gostring := lit "content-length".
Definition fastHeaderTransferEncode : gostring := lit "transfer-encoding".
Definition fastHeaderExpect : gostring := lit "expect".

Definition nextHeaderLine (data : gostring) : option (gostring * gostring) :=
  match IndexByte data LF with
  | Some (S e) =>
      match data !! e with
      | Some c => if c =? CR then Some (take e data, drop (S (S e)) data) else None
      | None => None
      end
  | _ => None
  end.

Definition isOWS (c : Z) : bool := (c =? 32) || (c =? 9).
Fixpoint trimOWS_left (s : gostring) : gostring :=
  match s with
  | c :: s' => if isOWS c then trimOWS_left s' else s
  | [] => []
  end.
Definition fastTrimOWS (value : gostring) : gostring :=
  rev (trimOWS_left (rev (trimOWS_left value))).

Fixpoint fastEqualFoldASCII (value want : gostring) : bool :=
  match value, want with
  | [], [] => true
  | c :: value, w :: want => (lowerByte c =? w) && fastEqualFoldASCII value want
  | _, _ => false
  end.

(** The loop over the items takes one byte at least off the value each round. *)
Fixpoint hasToken_loop (fuel : nat) (value want : gostring) : bool :=
  match fuel, value with
  | O, _ | _, [] => false
  | S fuel, _ =>
      let '(token, value) :=
        match IndexByte value 44 with
        | Some i => (take i value, drop (S i) value)
        | None => (value, [])
        end in
      fastEqualFoldASCII (fastTrimOWS token) want || hasToken_loop fuel value want
  end.
Definition fastValueHasToken (value want : gostring) : bool :=
  hasToken_loop (length value) value want.

Definition fastTokenByte (c : Z) : bool :=
  (isLower c || isUpper c || isDigit c) || bool_decide (c ∈ lit "!#$%&'*+-.^_`|~").

Definition targetByte (c : Z) : bool :=
  (isLower c || isUpper c || isDigit c) || bool_decide (c ∈ lit "-._~") ||
  bool_decide (c ∈ lit "!$&'()*+,;=") || bool_decide (c ∈ lit ":@/?").
Definition validFastTarget (target : gostring) : bool :=
  bool_decide (head target = Some 47) && forallb targetByte target.

Definition hostByte (c : Z) : bool :=
  (isLower c || isUpper c || isDigit c) || bool_decide (c ∈ lit ".-:[]").
Definition validFastHost (host : gostring) : bool :=
  negb (bool_decide (host = [])) && forallb hostByte host.

(** A byte the value of a header may have on the fast path. *)
Definition valueByte (c : Z) : bool := (c =? 9) || negb ((c <? 32) || (127 <=? c)).

(** The local variables of parseServerRequestFast. *)
Record fastState : Type := MkFast {
  hostSeen : bool;
  upgradeOK : bool;
  connectionOK : bool;
  versionSeen : Z;
  versionOK : bool;
  keySeen : Z;
  key_ : gostring;
  lengthSeen : bool;
  protocols_ : list gostring;
  extensions_ : list gostring;
}.
Definition fast0 : fastState := MkFast false false false 0 false 0 [] false [] [].

(** The switch over the header's name. *)
Definition fastHeader (name value : gostring) (st : fastState) : option fastState :=
  let '(MkFast h u c v vok k key l p e) := st in
  if EqualFold name fastHeaderHost then
    if h || negb (validFastHost value) then None else Some (MkFast true u c v vok k key l p e)
  else if EqualFold name fastHeaderUpgrade then
    Some (MkFast h (u || fastValueHasToken value (lit "websocket")) c v vok k key l p e)
  else if EqualFold name fastHeaderConnection then
    Some (MkFast h u (c || fastValueHasToken value (lit "upgrade")) v vok k key l p e)
  else if EqualFold name fastHeaderVersion then
    Some (MkFast h u c (v + 1) (bool_decide (value = lit "13")) k key l p e)
  else if EqualFold name fastHeaderKey then
    Some (MkFast h u c v vok (k + 1) value l p e)
  else if EqualFold name fastHeaderProtocol then
    Some (MkFast h u c v vok k key l (p ++ [value]) e)
  else if EqualFold name fastHeaderExtensions then
    Some (MkFast h u c v vok k key l p (e ++ [value]))
  else if EqualFold name fastHeaderContentLength then
    if l || negb (bool_decide (value = lit "0")) then None else Some (MkFast h u c v vok k key true p e)
  else if EqualFold name fastHeaderTransferEncode then None
  else if EqualFold name fastHeaderExpect then
    if bool_decide (value = []) then Some st else None
  else Some st.

(** A header line that is not empty. *)
Definition fastLine (line : gostring) : option (gostring * gostring) :=
  match IndexByte line 58 with
  | Some (S i) =>
      let name := take (S i) line in
      let value := fastTrimOWS (drop (S (S i)) line) in
      if forallb fastTokenByte name && forallb valueByte value then Some (name, value) else None
  | _ => None
  end.

Fixpoint fastLines (fuel : nat) (rest : gostring) (st : fastState) : option fastState :=
  match rest, fuel with
  | [], _ => Some st
  | _, O => None
  | _, S fuel =>
      match nextHeaderLine rest with
      | None => None
      | Some ([], rest) => if bool_decide (rest = []) then Some st else None
      | Some (line, rest) =>
          match fastLine line with
          | None => None
          | Some (name, value) =>
              match fastHeader name value st with
              | None => None
              | Some st => fastLines fuel rest st
              end
          end
      end
  end.

Definition parseServerRequestFast (block : gostring) (options : ServerOptions) : option Request :=
  match CheckOrigin options with
  | Some _ => None
  | None =>
      match nextHeaderLine block with
      | None => None
      | Some (line, rest) =>
          if negb (HasPrefix line fastRequestMethod) || negb (HasSuffix line fastRequestProto) ||
             (length line <=? length fastRequestMethod + length fastRequestProto)%nat then None
          else if negb (validFastTarget
                          (take (length line - length fastRequestProto - length fastRequestMethod)
                             (drop (length fastRequestMethod) line))) then None
          else
            match fastLines (length rest) rest fast0 with
            | None => None
            | Some st =>
                if negb (hostSeen st) || negb (upgradeOK st) || negb (connectionOK st) ||
                   negb (versionSeen st =? 1) || negb (versionOK st) ||
                   negb (keySeen st =? 1) || negb (validKey (key_ st)) then None
                else
                  match parseTokens (protocols_ st) with
                  | inl _ => None
                  | inr tokens => Some (MkRequest None (key_ st) tokens (extensions_ st) block)
                  end
            end
      end
  end.

(** ** handshake.go: the server *)

Section server.
Context `{NetHTTP}.

Definition BuildHTTP (r : Request) : hs_error + HTTPRequest :=
  match HTTP r with
  | Some req => inr req
  | None =>
      if bool_decide (raw r = []) then inl ErrBadRequest
      else match ReadRequest (raw r) with
           | Some req => inr req
           | None => inl ErrBadRequest
           end
  end.

Definition ValidateServerRequest (req : option HTTPRequest) (options : ServerOptions) : hs_error + Request :=
  match req with
  | None => inl ErrBadRequest
  | Some req =>
      let h := req_Header req in
      if negb (bool_decide (Method req = lit "GET")) || negb (ProtoMajor req =? 1) || negb (ProtoMinor req =? 1)
      then inl ErrNotUpgrade
      else if negb (headerHasToken h (lit "Upgrade") (lit "websocket")) ||
              negb (headerHasToken h (lit "Connection") (lit "upgrade"))
      then inl ErrNotUpgrade
      else
        match Values h (lit "Sec-WebSocket-Version") with
        | [version] =>
            if negb (bool_decide (TrimSpace version = lit "13")) then inl ErrNotUpgrade
            else
              match Values h (lit "Sec-WebSocket-Key") with
              | [key] =>
                  if negb (validKey key) then inl ErrBadRequest
                  else if negb (req_ContentLength req =? 0) || negb (bool_decide (TransferEncoding req = [])) ||
                          negb (bool_decide (Get h (lit "Expect") = []))
                  then inl ErrBadRequest
                  else if match CheckOrigin options with Some check => negb (check req) | None => false end
                  then inl ErrNotUpgrade
                  else
                    match parseTokens (Values h (lit "Sec-WebSocket-Protocol")) with
                    | inl e => inl e
                    | inr protocols =>
                        inr (MkRequest (Some req) (TrimSpace key) protocols
                               (Values h (lit "Sec-WebSocket-Extensions")) [])
                    end
              | _ => inl ErrBadRequest
              end
        | _ => inl ErrNotUpgrade
        end
  end.

Definition parseServerRequestNetHTTP (block : gostring) (options : ServerOptions)
    : hs_error + Request * nat :=
  match ReadRequest block with
  | None => inl ErrBadRequest
  | Some req =>
      match ValidateServerRequest (Some req) options with
      | inl e => inl e
      | inr request => inr (request, length block)
      end
  end.

Definition ParseServerRequest (data : gostring) (options : ServerOptions) : hs_error + Request * nat :=
  let maxBytes := if MaxHeaderBytes options <=? 0 then DefaultMaxBytes else MaxHeaderBytes options in
  match IndexBlank data with
  | None =>
      if maxBytes <? Z.of_nat (length data) then inl ErrBadRequest else inl ErrUnexpectedEOF
  | Some e =>
      let e := (e + 4)%nat in
      if maxBytes <? Z.of_nat e then inl ErrBadRequest
      else
        match parseServerRequestFast (take e data) options with
        | Some request => inr (request, e)
        | None => parseServerRequestNetHTTP (take e data) options
        end
  end.
End server.

Definition baseServerResponseSize : nat :=
  length (lit "HTTP/1.1 101 Switching Protocols" ++ crlf) + length (lit "Upgrade: websocket" ++ crlf) +
  length (lit "Connection: Upgrade" ++ crlf) + length (lit "Sec-WebSocket-Accept: ") + sha1Base64Size +
  length crlf + length crlf.

Definition ServerResponseSize (selectedSubprotocol extensions : gostring) : nat :=
  let size := baseServerResponseSize in
  let size := if bool_decide (selectedSubprotocol = []) then size
    else (size + (length (lit "Sec-WebSocket-Protocol: ") + length selectedSubprotocol + length crlf))%nat in
  if bool_decide (extensions = []) then size
  else (size + (length (lit "Sec-WebSocket-Extensions: ") + length extensions + length crlf))%nat.

Definition AppendServerResponse (dst : gostring) (req : Request) (selectedSubprotocol extensions : gostring)
    : gostring :=
  let dst := dst ++ lit "HTTP/1.1 101 Switching Protocols" ++ crlf in
  let dst := dst ++ lit "Upgrade: websocket" ++ crlf in
  let dst := dst ++ lit "Connection: Upgrade" ++ crlf in
  let dst := dst ++ lit "Sec-WebSocket-Accept: " in
  let dst := appendAcceptKey dst (Key req) in
  let dst := dst ++ crlf in
  let dst := if bool_decide (selectedSubprotocol = []) then dst
    else dst ++ lit "Sec-WebSocket-Protocol: " ++ selectedSubprotocol ++ crlf in
  let dst := if bool_decide (extensions = []) then dst
    else dst ++ lit "Sec-WebSocket-Extensions: " ++ extensions ++ crlf in
  dst ++ crlf.

Definition BuildServerResponse (req : Request) (selectedSubprotocol extensions : gostring) : gostring :=
  AppendServerResponse [] req selectedSubprotocol extensions.

Fixpoint SelectSubprotocol (offered supported : list gostring) : gostring :=
  match supported with
  | [] => []
  | want :: supported =>
      if validToken want && contains offered want then want else SelectSubprotocol offered supported
  end.

(** ** reject.go *)

Definition MaxRejectBody : nat := Z.to_nat (Z.shiftl 4 10).

Definition reservedRequestHeaders : list gostring :=
  [lit "Host"; lit "Upgrade"; lit "Connection"; lit "Content-Length"; lit "Transfer-Encoding"; lit "Expect";
   lit "Sec-Websocket-Key"; lit "Sec-Websocket-Version"; lit "Sec-Websocket-Protocol";
   lit "Sec-Websocket-Extensions"; lit "Sec-Websocket-Accept"].
Definition reservedRejectHeaders : list gostring :=
  [lit "Connection"; lit "Content-Length"; lit "Transfer-Encoding"].

Inductive header_error : Type :=
| InvalidHeaderName (name : gostring)
| ReservedHeader (name : gostring)
| InvalidHeaderValue (name : gostring).

(** strings.ContainsAny(value, "\r\n\x00"). *)
Definition breaksLine (value : gostring) : bool :=
  existsb (fun c => (c =? CR) || (c =? LF) || (c =? 0)) value.

Fixpoint checkEntries (es : list (gostring * list gostring)) (reserved : list gostring) : option header_error :=
  match es with
  | [] => None
  | (name, values) :: es =>
      if negb (validToken name) then Some (InvalidHeaderName name)
      else if bool_decide (CanonicalMIMEHeaderKey name ∈ reserved) then Some (ReservedHeader name)
      else if existsb breaksLine values then Some (InvalidHeaderValue name)
      else checkEntries es reserved
  end.
Definition checkHeader (h : Header) (reserved : list gostring) : option header_error :=
  checkEntries (map_to_list h) reserved.
Definition CheckRequestHeader (h : Header) : option header_error := checkHeader h reservedRequestHeaders.
Definition CheckRejectHeader (h : Header) : option header_error := checkHeader h reservedRejectHeaders.

Definition headerHas (h : Header) (name : gostring) : bool :=
  existsb (fun e => EqualFold e.1 name) (map_to_list h).

(** Go's order on strings. *)
Fixpoint bytes_leb (s t : gostring) : bool :=
  match s, t with
  | [], _ => true
  | _, [] => false
  | a :: s, b :: t => (a <? b) || ((a =? b) && bytes_leb s t)
  end.
Definition bytes_le (s t : gostring) : Prop := bytes_leb s t = true.
#[export] Instance bytes_le_dec : RelDecision bytes_le.
Proof. intros s t. unfold bytes_le. apply _. Defined.

Definition headerLine (name value : gostring) : gostring :=
  CanonicalMIMEHeaderKey name ++ lit ": " ++ value ++ crlf.
Definition writeHeader (b : gostring) (h : Header) : gostring :=
  let names := merge_sort bytes_le (map fst (map_to_list h)) in
  b ++ flat_map (fun name => flat_map (headerLine name) (default [] (h !! name))) names.

(** Back to the start of a rune. *)
Fixpoint cutBack (reason : gostring) (cut : nat) : nat :=
  match cut with
  | O => O
  | S cut' =>
      if match reason !! cut with Some b => RuneStart b | None => true end
      then cut else cutBack reason cut'
  end.
Definition LimitBody (reason : gostring) : gostring :=
  if (length reason <=? MaxRejectBody)%nat then reason
  else take (cutBack reason MaxRejectBody) reason.

Definition BuildRejectResponse `{NetHTTP} (status : Z) (header : Header) (reason : gostring) : gostring :=
  let text := StatusText status in
  let text := if bool_decide (text = []) then lit "Status" else text in
  let reason := LimitBody reason in
  let b := lit "HTTP/1.1 " ++ Itoa status ++ lit " " ++ text ++ crlf ++ lit "Connection: close" ++ crlf in
  let b := if headerHas header (lit "Content-Type") then b
    else b ++ lit "Content-Type: text/plain; charset=utf-8" ++ crlf in
  let b := b ++ lit "Content-Length: " ++ Itoa (Z.of_nat (length reason)) ++ crlf in
  writeHeader b header ++ crlf ++ reason.

(** ** handshake.go: the client *)

(** A [*url.URL]: what the client reads of it, with the result of its
    EscapedPath method. *)
Record URL : Type := MkURL {
  Scheme : gostring;
  Host : gostring;
  EscapedPath : gostring;
  RawQuery : gostring;
}.

Definition requestTarget (target : URL) : gostring :=
  let path := EscapedPath target in
  let path := if bool_decide (path = []) then lit "/" else path in
  if bool_decide (RawQuery target = []) then path else path ++ lit "?" ++ RawQuery target.

Definition BuildClientRequest (target : option URL) (key : gostring) (protocols : list gostring)
    (extensions : gostring) (header : Header) : hs_error + gostring :=
  match target with
  | None => inl ErrBadRequest
  | Some target =>
      if bool_decide (Host target = []) ||
         (negb (bool_decide (Scheme target = lit "ws")) && negb (bool_decide (Scheme target = lit "wss")))
      then inl ErrBadRequest
      else if negb (validKey key) then inl ErrBadRequest
      else if existsb (fun p => negb (validToken p)) protocols then inl ErrBadRequest
      else
        let b := lit "GET " ++ requestTarget target ++ lit " HTTP/1.1" ++ crlf in
        let b := b ++ lit "Host: " ++ Host target ++ crlf in
        let b := b ++ lit "Upgrade: websocket" ++ crlf ++ lit "Connection: Upgrade" ++ crlf in
        let b := b ++ lit "Sec-WebSocket-Version: 13" ++ crlf ++ lit "Sec-WebSocket-Key: " in
        let b := b ++ key ++ crlf in
        let b := match protocols with
                 | [] => b
                 | _ => b ++ lit "Sec-WebSocket-Protocol: " ++ Join protocols (lit ", ") ++ crlf
                 end in
        let b := if bool_decide (extensions = []) then b
                 else b ++ lit "Sec-WebSocket-Extensions: " ++ extensions ++ crlf in
        inr (writeHeader b header ++ crlf)
  end.

Definition ValidateClientResponse `{NetHTTP} (data key : gostring) (protocols : list gostring) (limits : list Z)
    : hs_error + nat * gostring * list gostring :=
  let maxBytes := responseLimit limits in
  match IndexBlank data with
  | None =>
      if maxBytes <? Z.of_nat (length data) then inl ErrBadRequest else inl ErrUnexpectedEOF
  | Some e =>
      let e := (e + 4)%nat in
      if maxBytes <? Z.of_nat e then inl ErrBadRequest
      else
        match ReadResponse (take e data) with
        | None => inl ErrBadRequest
        | Some resp =>
            let h := resp_Header resp in
            if negb (StatusCode resp =? 101) then
              let size := resp_ContentLength resp in
              if (0 <? size) && (size <=? Z.of_nat MaxRejectBody) then
                if Z.of_nat (length data) <? Z.of_nat e + size then inl ErrUnexpectedEOF
                else inl (ResponseError (StatusCode resp) h (take (Z.to_nat size) (drop e data)))
              else inl (ResponseError (StatusCode resp) h [])
            else
              match Values h (lit "Sec-WebSocket-Accept") with
              | [accept] =>
                  if negb (headerHasToken h (lit "Upgrade") (lit "websocket")) ||
                     negb (headerHasToken h (lit "Connection") (lit "upgrade")) ||
                     negb (bool_decide (TrimSpace accept = acceptKey key))
                  then inl ErrNotUpgrade
                  else
                    match Values h (lit "Sec-WebSocket-Protocol") with
                    | _ :: _ :: _ => inl ErrNotUpgrade
                    | vs =>
                        let selected := match vs with v :: _ => TrimSpace v | [] => [] end in
                        if negb (bool_decide (selected = [])) && negb (contains protocols selected)
                        then inl ErrNotUpgrade
                        else inr (e, selected, Values h (lit "Sec-WebSocket-Extensions"))
                    end
              | _ => inl ErrNotUpgrade
              end
        end
  end.

(** RFC 6455's example of a key and its answer. *)
Example accept_rfc6455 :
  acceptKey (lit "dGhlIHNhbXBsZSBub25jZQ==") = lit "s3pPLMBiTxaQ9kYGzzhZRbK+xOo=".
Proof. vm_compute. reflexivity. Qed.

(** A request is parsed without net/http. *)
Example fast_example :
  let request := lit "GET /chat?room=1 HTTP/1.1" ++ crlf ++ lit "Host: example.com:8080" ++ crlf ++
    lit "Connection: keep-alive, Upgrade" ++ crlf ++ lit "upgrade: WebSocket" ++ crlf ++
    lit "Sec-WebSocket-Version: 13" ++ crlf ++ lit "Sec-WebSocket-Key: dGhlIHNhbXBsZSBub25jZQ==" ++ crlf ++
    lit "Sec-WebSocket-Protocol: chat, superchat" ++ crlf ++ crlf in
  parseServerRequestFast request (MkServerOptions 0 None) =
  Some (MkRequest None (lit "dGhlIHNhbXBsZSBub25jZQ==") [lit "chat"; lit "superchat"] [] request).
Proof. vm_compute. reflexivity. Qed.
