(* ===== verification/WsLines.v ===== *)
(** * Header blocks

    What nextHeaderLine, fastLine and the loop of parseServerRequestFast do on a
    block, said once for both directions: the lines a block that is accepted
    consists of, and the state they leave. *)

From Stdlib Require String.
From Stdlib Require Import(notations) String.
From S2P Require Import Prelude Utf8 GoStrings GoEncoding WsHandshake.

Local Open Scope Z_scope.

(** ** Optional white space *)

Lemma trimOWS_left_split s :
  exists t, s = t ++ trimOWS_left s /\ Forall (fun c => isOWS c = true) t.
Proof.
  induction s as [|c s (t & Hs & Ht)]; [by exists []|]. cbn [trimOWS_left].
  destruct (isOWS c) eqn:E; [|by exists []].
  exists (c :: t). split; [cbn; by rewrite <- Hs|by constructor].
Qed.

Lemma trimOWS_left_head s c : head (trimOWS_left s) = Some c -> isOWS c = false.
Proof. induction s as [|x s IH]; [done|]. cbn. destruct (isOWS x) eqn:E; [done|]. cbn. by intros [= <-]. Qed.

Lemma trimOWS_left_id s : (forall c, head s = Some c -> isOWS c = false) -> trimOWS_left s = s.
Proof. destruct s as [|c s]; [done|]. intros Hc. cbn. by rewrite (Hc c eq_refl). Qed.

Lemma fastTrimOWS_split s :
  exists t u, s = t ++ fastTrimOWS s ++ u /\ Forall (fun c => isOWS c = true) t /\
    Forall (fun c => isOWS c = true) u.
Proof.
  destruct (trimOWS_left_split s) as (t & Hs & Ht). unfold fastTrimOWS.
  destruct (trimOWS_left_split (rev (trimOWS_left s))) as (u & Hu & Hu').
  exists t, (rev u). split_and!; [|done|by apply Forall_rev].
  rewrite <- rev_app_distr, <- Hu, rev_involutive. done.
Qed.

Lemma last_rev {A} (l : list A) : last l = head (rev l).
Proof. destruct l as [|x l _] using rev_ind; [done|]. by rewrite last_snoc, rev_app_distr. Qed.

Lemma head_rev {A} (l : list A) : head l = last (rev l).
Proof. by rewrite last_rev, rev_involutive. Qed.

Lemma fastTrimOWS_last s c : last (fastTrimOWS s) = Some c -> isOWS c = false.
Proof. unfold fastTrimOWS. rewrite last_rev, rev_involutive. apply trimOWS_left_head. Qed.

Lemma head_prefix {A} (l k : list A) c : head l = Some c -> head (l ++ k) = Some c.
Proof. by destruct l. Qed.

Lemma fastTrimOWS_head s c : head (fastTrimOWS s) = Some c -> isOWS c = false.
Proof.
  intros Hc. apply (trimOWS_left_head s). unfold fastTrimOWS in Hc.
  destruct (trimOWS_left_split (rev (trimOWS_left s))) as (u & Hu & _).
  apply (f_equal (@rev Z)) in Hu. rewrite rev_involutive, rev_app_distr in Hu. rewrite Hu.
  by apply head_prefix.
Qed.

Lemma fastTrimOWS_id s :
  (forall c, head s = Some c -> isOWS c = false) -> (forall c, last s = Some c -> isOWS c = false) ->
  fastTrimOWS s = s.
Proof.
  intros Hh Hl. unfold fastTrimOWS. rewrite (trimOWS_left_id s) by done.
  rewrite trimOWS_left_id; [apply rev_involutive|]. intros c. rewrite <- last_rev. apply Hl.
Qed.

Lemma fastTrimOWS_idem s : fastTrimOWS (fastTrimOWS s) = fastTrimOWS s.
Proof. apply fastTrimOWS_id; eauto using fastTrimOWS_head, fastTrimOWS_last. Qed.

Lemma fastTrimOWS_sp s : fastTrimOWS (32 :: s) = fastTrimOWS s.
Proof. done. Qed.

Lemma OWS_valueByte c : isOWS c = true -> valueByte c = true.
Proof. unfold isOWS, valueByte. zsplit; cbn; try done; lia. Qed.

Lemma valueByte_trim s : forallb valueByte (fastTrimOWS s) = forallb valueByte s.
Proof.
  destruct (fastTrimOWS_split s) as (t & u & Hs & Ht & Hu). rewrite Hs at 2.
  rewrite !forallb_app.
  assert (Ho : forall l, Forall (fun c => isOWS c = true) l -> forallb valueByte l = true).
  { induction 1; cbn; [done|]. by rewrite OWS_valueByte. }
  by rewrite (Ho t), (Ho u), andb_true_r.
Qed.

(** On the bytes of a header value, the white space Go trims is that. *)
Lemma valueByte_range c : valueByte c = true -> 0 <= c < 128.
Proof. unfold valueByte. zsplit; cbn; try done; lia. Qed.

Lemma valueByte_space c : valueByte c = true -> IsSpace c = isOWS c.
Proof. unfold valueByte, IsSpace, isOWS. zsplit; cbn; try done; lia. Qed.

Lemma trim_left_OWS s : forallb valueByte s = true -> trim_left (length s) s = trimOWS_left s.
Proof.
  induction s as [|c s IH]; [done|]. cbn [forallb length trim_left trimOWS_left].
  intros [Hc Hs]%andb_true_iff. rewrite decode_ascii by by apply valueByte_range.
  rewrite valueByte_space by done. cbn [skipn]. rewrite drop_0. destruct (isOWS c); auto.
Qed.

Lemma trim_right_OWS s :
  forallb valueByte s = true -> trim_right (length s) s = rev (trimOWS_left (rev s)).
Proof.
  induction s as [|c s IH] using rev_ind; [done|].
  rewrite forallb_app, rev_app_distr, length_app, Nat.add_comm. cbn [forallb rev app length Nat.add].
  rewrite andb_true_r. intros [Hs Hc]%andb_true_iff.
  assert (E : trim_right (S (length s)) (s ++ [c]) =
    let '(r, n) := DecodeLastRune (s ++ [c]) in
    if IsSpace r then trim_right (length s) (take (length (s ++ [c]) - n) (s ++ [c])) else s ++ [c])
    by by destruct s.
  rewrite E, last_start_ascii by by apply valueByte_range. rewrite valueByte_space by done.
  cbn [trimOWS_left app]. destruct (isOWS c); [|cbn [rev]; by rewrite rev_involutive].
  rewrite length_app. cbn [length]. rewrite Nat.add_sub, take_app_length. auto.
Qed.

Lemma forallb_rev {A} (f : A -> bool) l : forallb f (rev l) = forallb f l.
Proof.
  induction l as [|x l IH]; [done|]. cbn. rewrite forallb_app, IH. cbn. by rewrite andb_true_r, andb_comm.
Qed.

Lemma TrimSpace_OWS s : forallb valueByte s = true -> TrimSpace s = fastTrimOWS s.
Proof.
  intros Hs. unfold TrimSpace, fastTrimOWS. rewrite trim_left_OWS by done. apply trim_right_OWS.
  destruct (trimOWS_left_split s) as (t & Ht & _). rewrite Ht, forallb_app in Hs.
  by apply andb_true_iff in Hs as [_ ?].
Qed.

(** ** Lines *)

Lemma nextHeaderLine_app line rest :
  Forall (fun c => c <> LF) line -> nextHeaderLine (line ++ crlf ++ rest) = Some (line, rest).
Proof.
  intros Hl. unfold nextHeaderLine, crlf. cbn [app].
  change (CR :: LF :: rest) with ([CR] ++ LF :: rest). rewrite (assoc_L (++)).
  rewrite IndexByte_app by (apply Forall_app; split; [done|by repeat constructor]).
  rewrite length_app, Nat.add_comm. cbn [length Nat.add].
  rewrite lookup_app_l by (rewrite length_app; cbn; lia).
  rewrite lookup_app_r by lia. rewrite Nat.sub_diag. cbn [lookup list_lookup].
  rewrite Z.eqb_refl, <- (assoc_L (++)), take_app_length. do 2 f_equal.
  rewrite (drop_app_ge line) by lia. by replace (S (S (length line)) - length line)%nat with 2%nat by lia.
Qed.

Lemma nextHeaderLine_inv data line rest :
  nextHeaderLine data = Some (line, rest) ->
  data = line ++ crlf ++ rest /\ Forall (fun c => c <> LF) line.
Proof.
  unfold nextHeaderLine. intros E.
  destruct (IndexByte data LF) as [[|e]|] eqn:Hi; [done| |done].
  apply IndexByte_found in Hi as (t & u & -> & Hlen & Ht).
  destruct t as [|c t _] using rev_ind; [done|].
  rewrite length_app in Hlen. cbn in Hlen. assert (e = length t) as -> by lia. clear Hlen.
  rewrite <- (assoc_L (++)) in E. cbn [app] in E.
  rewrite lookup_app_r, Nat.sub_diag in E by lia. cbn [lookup list_lookup] in E.
  destruct (Z.eqb_spec c CR) as [->|]; [|done]. rewrite take_app_length, drop_app_ge in E by lia.
  replace (S (S (length t)) - length t)%nat with 2%nat in E by lia. cbn in E. simplify_eq.
  rewrite <- (assoc_L (++)). split; [done|]. by apply Forall_app in Ht as [? _].
Qed.

Lemma line_unique line rest line' rest' :
  Forall (fun c => c <> LF) line -> Forall (fun c => c <> LF) line' ->
  line ++ crlf ++ rest = line' ++ crlf ++ rest' -> line = line' /\ rest = rest'.
Proof.
  intros Hl Hl' E. pose proof (nextHeaderLine_app line rest Hl) as H.
  rewrite E, nextHeaderLine_app in H by done. by simplify_eq.
Qed.

(** A header line is a name, a colon and a value as it was written. *)
Definition lineOf (h : gostring * gostring) : gostring := h.1 ++ 58 :: h.2.
Definition headerLines (hs : list (gostring * gostring)) : gostring := flat_map (fun h => lineOf h ++ crlf) hs.

Definition regularHeader (h : gostring * gostring) : Prop :=
  h.1 <> [] /\ forallb fastTokenByte h.1 = true /\ forallb valueByte h.2 = true.

Lemma forallb_Forall {A} (f : A -> bool) (P : A -> Prop) l :
  (forall x, f x = true -> P x) -> forallb f l = true -> Forall P l.
Proof. intros Hf. induction l as [|x l IH]; cbn; [constructor|]. intros [? ?]%andb_true_iff. constructor; auto. Qed.

Definition all_bytes : list Z := seqZ 0 256.

(** The token bytes are a subset of ASCII; none of them ends a name or a line. *)
Lemma fastTokenByte_range c : fastTokenByte c = true -> 32 < c < 127 /\ c <> 58 /\ c <> 44.
Proof.
  unfold fastTokenByte, isLower, isUpper, isDigit. intros H.
  destruct (bool_decide (c ∈ lit "!#$%&'*+-.^_`|~")) eqn:E.
  - apply bool_decide_eq_true in E. clear H.
    assert (Hf : Forall (fun c => 32 < c < 127 /\ c <> 58 /\ c <> 44) (lit "!#$%&'*+-.^_`|~"))
      by (apply (bool_decide_unpack _); vm_compute; exact I).
    rewrite Forall_forall in Hf. by apply Hf.
  - rewrite orb_false_r in H. revert H. zsplit; cbn; intros; try done; lia.
Qed.

Lemma tokens_ascii s : forallb fastTokenByte s = true -> ascii s.
Proof. apply forallb_Forall. intros c Hc%fastTokenByte_range. lia. Qed.

Lemma drop_sep {A} (t : list A) c u : drop (S (length t)) (t ++ c :: u) = u.
Proof. rewrite drop_app_ge by lia. by replace (S (length t) - length t)%nat with 1%nat by lia. Qed.

Lemma fastLine_lineOf h : regularHeader h -> fastLine (lineOf h) = Some (h.1, fastTrimOWS h.2).
Proof.
  destruct h as [name value]. unfold regularHeader, lineOf, fastLine. cbn [fst snd].
  intros (Hne & Hn & Hv). rewrite IndexByte_app by (by eapply forallb_Forall, Hn; intros c ?%fastTokenByte_range; lia).
  destruct (length name) as [|n] eqn:El; [by destruct name|].
  rewrite <- El, take_app_length, drop_sep, Hn, valueByte_trim, Hv. done.
Qed.

Lemma fastLine_inv line name value :
  fastLine line = Some (name, value) ->
  exists v, line = lineOf (name, v) /\ value = fastTrimOWS v /\ regularHeader (name, v).
Proof.
  unfold fastLine. intros E. destruct (IndexByte line 58) as [[|i]|] eqn:Hi; [done| |done].
  apply IndexByte_found in Hi as (t & u & -> & Hlen & Ht). rewrite Hlen, take_app_length in E.
  destruct (forallb fastTokenByte t && _) eqn:Hv; [|done]. apply andb_true_iff in Hv as [Hn Hv].
  injection E as <- <-. exists u. split; [done|].
  rewrite drop_sep in *. rewrite valueByte_trim in Hv.
  split; [done|]. split_and!; [|done..]. by destruct t.
Qed.

Lemma regular_no_break h : regularHeader h -> Forall (fun c => c <> LF /\ c <> CR) (lineOf h).
Proof.
  intros (_ & Hn & Hv). unfold lineOf. apply Forall_app. split.
  - eapply forallb_Forall, Hn. intros c ?%fastTokenByte_range. unfold LF, CR. lia.
  - constructor; [done|]. eapply forallb_Forall, Hv. intros c. unfold valueByte, LF, CR.
    zsplit; cbn; intros; try done; lia.
Qed.

Lemma lineOf_nonnil h : lineOf h <> [].
Proof. unfold lineOf. by destruct h.1. Qed.

(** ** The loop over the header lines *)

Fixpoint fastFold (hs : list (gostring * gostring)) (st : fastState) : option fastState :=
  match hs with
  | [] => Some st
  | h :: hs => st ← fastHeader h.1 (fastTrimOWS h.2) st; fastFold hs st
  end.

Lemma fastFold_snoc hs h st :
  fastFold (hs ++ [h]) st = (st ← fastFold hs st; fastHeader h.1 (fastTrimOWS h.2) st).
Proof.
  revert st. induction hs as [|h' hs IH]; intros st; cbn.
  - by destruct (fastHeader _ _ st).
  - destruct (fastHeader _ _ st); cbn; [apply IH|done].
Qed.

Lemma headerLines_cons h hs : headerLines (h :: hs) = lineOf h ++ crlf ++ headerLines hs.
Proof. unfold headerLines. cbn. by rewrite <- (assoc_L (++)). Qed.

Lemma fastLines_headerLines hs : forall fuel st,
  Forall regularHeader hs -> (length (headerLines hs ++ crlf) <= fuel)%nat ->
  fastLines fuel (headerLines hs ++ crlf) st = fastFold hs st.
Proof.
  induction hs as [|h hs IH]; intros fuel st Hr Hf.
  - destruct fuel as [|fuel]; [cbn in Hf; lia|]. done.
  - rewrite headerLines_cons in *. rewrite <- !(assoc_L (++)) in *.
    inversion Hr as [|? ? Hh Hr']; subst.
    assert (Hn : Forall (fun c => c <> LF) (lineOf h)).
    { eapply Forall_impl; [by apply regular_no_break|]. naive_solver. }
    rewrite !length_app in Hf. destruct fuel as [|fuel]; [cbn in Hf; lia|].
    pose proof (lineOf_nonnil h) as Hl. pose proof (fastLine_lineOf h Hh) as Hp.
    pose proof (nextHeaderLine_app (lineOf h) (headerLines hs ++ crlf) Hn) as Hx.
    destruct (lineOf h ++ crlf ++ headerLines hs ++ crlf) as [|c0 d0] eqn:Ed; [by destruct (lineOf h)|].
    cbn [fastLines]. rewrite Hx. destruct (lineOf h) as [|c l]; [done|]. rewrite Hp. cbn [fastFold].
    destruct (fastHeader _ _ st) as [st'|]; [|done]. cbn. apply IH; [done|].
    rewrite length_app. cbn in Hf |- *. lia.
Qed.

Lemma fastLines_inv fuel : forall rest st st',
  fastLines fuel rest st = Some st' ->
  exists hs, (rest = headerLines hs ++ crlf \/ rest = headerLines hs) /\
    Forall regularHeader hs /\ fastFold hs st = Some st'.
Proof.
  induction fuel as [|fuel IH]; intros rest st st' E.
  { destruct rest; [|done]. exists []. split_and!; [by right|done|done]. }
  destruct rest as [|c0 d0]; [exists []; split_and!; [by right|done|done]|].
  cbn [fastLines] in E. remember (c0 :: d0) as rest eqn:Hrest. clear Hrest.
  destruct (nextHeaderLine rest) as [[line rest2]|] eqn:En; [|done].
  apply nextHeaderLine_inv in En as [-> Hn]. destruct line as [|c line].
  { case_bool_decide; [|done]. subst. exists []. split_and!; [by left|done|done]. }
  destruct (fastLine (c :: line)) as [[name value]|] eqn:El; [|done].
  apply fastLine_inv in El as (v & Hline & -> & Hr). rewrite Hline in *.
  destruct (fastHeader name _ st) as [st2|] eqn:Eh; [|done].
  apply IH in E as (hs & Hrest & Hrs & Hf). exists ((name, v) :: hs).
  rewrite headerLines_cons, <- !(assoc_L (++)). split_and!.
  - destruct Hrest as [-> | ->]; auto.
  - by constructor.
  - cbn [fastFold fst snd]. by rewrite Eh.
Qed.

(** A block that ends in an empty line consists of the request line, regular
    headers and that empty line. *)
Lemma not_line_end line h pre :
  Forall (fun c => c <> LF) line -> line <> [] -> h ++ line = pre ++ crlf -> False.
Proof.
  intros Hn Hne E. destruct line as [|c line _] using rev_ind; [done|].
  change crlf with ([CR] ++ [LF]) in E. rewrite !(assoc_L (++)) in E. apply app_inj_2 in E as [_ E]; [|done].
  injection E as ->. apply Forall_app in Hn as [_ Hn]. by inversion Hn.
Qed.

Lemma blank_ended line hs pre :
  Forall (fun c => c <> LF) line -> line <> [] -> Forall regularHeader hs ->
  line ++ crlf ++ headerLines hs = pre ++ crlf ++ crlf -> False.
Proof.
  intros Hl Hne Hr E. destruct hs as [|h hs _] using rev_ind.
  - change (headerLines []) with (@nil Z) in E. rewrite app_nil_r, (assoc_L (++)) in E. apply app_inj_2 in E as [E _]; [|done].
    by apply (not_line_end line [] pre) in E.
  - unfold headerLines in E. rewrite flat_map_app in E. cbn [flat_map] in E. rewrite app_nil_r in E.
    rewrite !(assoc_L (++)) in E. apply app_inj_2 in E as [E _]; [|done].
    apply Forall_app in Hr as [_ Hr]. inversion Hr as [|? ? Hh]; subst.
    apply not_line_end in E; [done| |apply lineOf_nonnil].
    eapply Forall_impl; [by apply regular_no_break|]. naive_solver.
Qed.

(** ** What the headers of a request say *)

(** The values given for a name, whatever its case, in order. *)
Definition vals (name : gostring) (hs : list (gostring * gostring)) : list gostring :=
  omap (fun h => if EqualFold h.1 name then Some (fastTrimOWS h.2) else None) hs.

Lemma vals_app name hs hs' : vals name (hs ++ hs') = vals name hs ++ vals name hs'.
Proof. apply omap_app. Qed.

Definition hasWebsocket (v : gostring) : bool := fastValueHasToken v (lit "websocket").
Definition hasUpgrade (v : gostring) : bool := fastValueHasToken v (lit "upgrade").

(** The state the headers leave. *)
Definition stateOf (hs : list (gostring * gostring)) : fastState :=
  MkFast (negb (bool_decide (vals fastHeaderHost hs = [])))
    (existsb hasWebsocket (vals fastHeaderUpgrade hs))
    (existsb hasUpgrade (vals fastHeaderConnection hs))
    (Z.of_nat (length (vals fastHeaderVersion hs)))
    (match last (vals fastHeaderVersion hs) with Some v => bool_decide (v = lit "13") | None => false end)
    (Z.of_nat (length (vals fastHeaderKey hs)))
    (default [] (last (vals fastHeaderKey hs)))
    (negb (bool_decide (vals fastHeaderContentLength hs = [])))
    (vals fastHeaderProtocol hs) (vals fastHeaderExtensions hs).

(** The headers that send no request back to net/http. *)
Definition unremarkable (hs : list (gostring * gostring)) : Prop :=
  (length (vals fastHeaderHost hs) <= 1)%nat /\
  Forall (fun v => validFastHost v = true) (vals fastHeaderHost hs) /\
  (length (vals fastHeaderContentLength hs) <= 1)%nat /\
  Forall (fun v => v = lit "0") (vals fastHeaderContentLength hs) /\
  vals fastHeaderTransferEncode hs = [] /\
  Forall (fun v => v = []) (vals fastHeaderExpect hs).

Lemma EqualFold_excl s t u :
  EqualFold s t = true -> map lowerByte t <> map lowerByte u -> EqualFold s u = false.
Proof.
  unfold EqualFold. intros H%bool_decide_eq_true Hne. apply bool_decide_eq_false. congruence.
Qed.

Lemma vals_snoc name hs h :
  vals name (hs ++ [h]) = vals name hs ++ (if EqualFold h.1 name then [fastTrimOWS h.2] else []).
Proof. rewrite vals_app. unfold vals at 2. cbn. by destruct (EqualFold _ _). Qed.

(** Decides every comparison of the name [n], one of which holds by [E]. *)
Ltac other_names n E :=
  repeat match goal with
  | |- context [EqualFold n ?g] => rewrite (EqualFold_excl n _ g E) by (vm_compute; discriminate)
  end; rewrite ?E.

Lemma snoc_nonnil (l : list gostring) x : bool_decide (l ++ [x] = []) = false.
Proof. apply bool_decide_eq_false. by destruct l. Qed.

Lemma Forall_snoc_iff {A} (P : A -> Prop) l x : Forall P (l ++ [x]) <-> Forall P l /\ P x.
Proof. rewrite Forall_app, Forall_singleton. done. Qed.

Ltac same_state := split; [intros [= <-]; split_and!; done|intros [_ ->]; done].

Lemma fastHeader_step hs h st' :
  unremarkable hs ->
  fastHeader h.1 (fastTrimOWS h.2) (stateOf hs) = Some st' <->
  unremarkable (hs ++ [h]) /\ st' = stateOf (hs ++ [h]).
Proof.
  destruct h as [n raw]. cbn [fst snd]. intros Hu. unfold fastHeader, stateOf, unremarkable.
  rewrite !vals_snoc. cbn [fst snd]. generalize (fastTrimOWS raw) as v. intros v.
  destruct Hu as (U1 & U2 & U3 & U4 & U5 & U6).
  destruct (EqualFold n fastHeaderHost) eqn:E1; [other_names n E1|
  destruct (EqualFold n fastHeaderUpgrade) eqn:E2; [other_names n E2|
  destruct (EqualFold n fastHeaderConnection) eqn:E3; [other_names n E3|
  destruct (EqualFold n fastHeaderVersion) eqn:E4; [other_names n E4|
  destruct (EqualFold n fastHeaderKey) eqn:E5; [other_names n E5|
  destruct (EqualFold n fastHeaderProtocol) eqn:E6; [other_names n E6|
  destruct (EqualFold n fastHeaderExtensions) eqn:E7; [other_names n E7|
  destruct (EqualFold n fastHeaderContentLength) eqn:E8; [other_names n E8|
  destruct (EqualFold n fastHeaderTransferEncode) eqn:E9; [other_names n E9|
  destruct (EqualFold n fastHeaderExpect) eqn:E10; [other_names n E10|]]]]]]]]]];
  rewrite ?app_nil_r, ?existsb_app, ?last_snoc, ?length_app, ?Nat2Z.inj_add, ?Forall_snoc_iff;
  cbn [length existsb orb]; rewrite ?orb_false_r, ?snoc_nonnil.
  all: try (same_state).
  - destruct (vals fastHeaderHost hs); cbn [bool_decide decide]; [|by split; [|cbn; intros [[? _] _]; lia]].
    change (bool_decide ([] = [])) with true. cbn [negb orb].
    destruct (validFastHost v); cbn [negb]; [|by split; [|intros [(_ & [_ ?] & _) _]]].
    same_state.
  - destruct (vals fastHeaderContentLength hs); cbn [bool_decide decide];
      [|by split; [|cbn; intros [(_ & _ & ? & _) _]; lia]].
    change (bool_decide ([] = [])) with true. cbn [negb orb].
    case_bool_decide as Hv; cbn [negb]; [|by split; [|intros [(_ & _ & _ & [_ ?] & _) _]]].
    same_state.
  - rewrite U5. by split; [|intros [(_ & _ & _ & _ & ? & _) _]].
  - case_bool_decide as Hv; [|by split; [|intros [(_ & _ & _ & _ & _ & _ & ?) _]]].
    same_state.
Qed.

Lemma unremarkable_snoc hs h : unremarkable (hs ++ [h]) -> unremarkable hs.
Proof.
  unfold unremarkable. rewrite !vals_app, !length_app, !Forall_app.
  intros (? & [? _] & ? & [? _] & [? _]%app_eq_nil & [? _]). split_and!; try done; lia.
Qed.

(** The headers of a request leave [stateOf] unless one is remarkable. *)
Lemma fastFold_spec hs st : fastFold hs fast0 = Some st <-> unremarkable hs /\ st = stateOf hs.
Proof.
  revert st. induction hs as [|h hs IH] using rev_ind; intros st.
  { cbn. split; [intros [= <-]|intros [_ ->]; done]. split; [|done].
    unfold unremarkable, vals. cbn. split_and!; try constructor; lia. }
  rewrite fastFold_snoc. split.
  - destruct (fastFold hs fast0) as [st0|] eqn:E; [|done]. cbn.
    destruct (proj1 (IH st0) eq_refl) as [Hu ->]. by apply fastHeader_step.
  - intros [Hu ->]. pose proof (unremarkable_snoc _ _ Hu) as Hu'.
    rewrite (proj2 (IH _) (conj Hu' eq_refl)). cbn. by apply fastHeader_step.
Qed.
