(* ===== verification/WsNetHTTP.v ===== *)
(** * What the upgrade relies on of net/http

    [NetHTTPLaws] states what http.ReadRequest and http.ReadResponse return for
    regular header blocks, those made of a well-formed first line, headers whose
    names are tokens and whose values are printable, and the empty line: the
    values of a header are those of the lines with its canonical name, in order
    and without the optional white space around them.  [reference] is a reader
    of regular blocks that has the laws. *)

From Stdlib Require String.
From Stdlib Require Import(notations) String.
From S2P Require Import Prelude Utf8 GoStrings GoEncoding WsHandshake WsLines.

Local Open Scope Z_scope.

(** ** Names *)

Lemma lower_upper c : lowerByte (upperByte c) = lowerByte c.
Proof.
  unfold lowerByte, upperByte, isUpper, isLower.
  destruct (Z.leb_spec 65 c), (Z.leb_spec c 90), (Z.leb_spec 97 c), (Z.leb_spec c 122); cbn [andb]; zsplit; lia.
Qed.

Lemma upper_lower c : upperByte (lowerByte c) = upperByte c.
Proof.
  unfold lowerByte, upperByte, isUpper, isLower.
  destruct (Z.leb_spec 65 c), (Z.leb_spec c 90), (Z.leb_spec 97 c), (Z.leb_spec c 122); cbn [andb]; zsplit; lia.
Qed.

(** The canonical form of a name keeps exactly its letters up to case. *)
Lemma canonical_lower u s : map lowerByte (canonical u s) = map lowerByte s.
Proof.
  revert u. induction s as [|c s IH]; intros u; cbn; [done|]. rewrite IH. f_equal.
  destruct u; [apply lower_upper|apply lowerByte_idem].
Qed.

Lemma canonical_ext u s t : map lowerByte s = map lowerByte t -> canonical u s = canonical u t.
Proof.
  revert u t. induction s as [|c s IH]; intros u [|d t]; try done. cbn. intros [= E1 E2].
  assert ((if u then upperByte c else lowerByte c) = (if u then upperByte d else lowerByte d)) as ->.
  { destruct u; [|done]. by rewrite <- (upper_lower c), <- (upper_lower d), E1. }
  f_equal. by apply IH.
Qed.

Lemma canonical_fold u s t : canonical u s = canonical u t <-> map lowerByte s = map lowerByte t.
Proof.
  split; [|apply canonical_ext]. intros E. by rewrite <- (canonical_lower u s), E, canonical_lower.
Qed.

(** fastTokenByte, textproto's table and validToken all accept the same bytes. *)
Lemma token_bytes c : fastTokenByte c = validHeaderFieldByte c.
Proof. done. Qed.

Lemma validTokenByte_spec c : validTokenByte c = fastTokenByte c.
Proof.
  destruct (decide (32 < c < 127)) as [Hc|Hc].
  - assert (Hall : Forall (fun c => validTokenByte c = fastTokenByte c) (seqZ 33 94))
      by (apply (bool_decide_unpack _); vm_compute; exact I).
    rewrite Forall_forall in Hall. apply Hall, elem_of_seqZ. lia.
  - destruct (fastTokenByte c) eqn:E; [apply fastTokenByte_range in E; lia|].
    unfold validTokenByte. zsplit; try done; lia.
Qed.

Lemma validToken_spec s : validToken s = negb (bool_decide (s = [])) && forallb fastTokenByte s.
Proof.
  unfold validToken. f_equal. induction s as [|c s IH]; [done|]. cbn. by rewrite validTokenByte_spec, IH.
Qed.

Lemma Canonical_fold s t :
  forallb fastTokenByte s = true -> forallb fastTokenByte t = true ->
  CanonicalMIMEHeaderKey s = CanonicalMIMEHeaderKey t <-> map lowerByte s = map lowerByte t.
Proof.
  intros Hs Ht. unfold CanonicalMIMEHeaderKey.
  change validHeaderFieldByte with fastTokenByte. rewrite Hs, Ht. apply canonical_fold.
Qed.

(** ** The headers of a regular block *)

(** The values net/http files under a name. *)
Definition given (name : gostring) (hs : list (gostring * gostring)) : list gostring :=
  omap (fun h => if bool_decide (CanonicalMIMEHeaderKey h.1 = CanonicalMIMEHeaderKey name)
                 then Some (fastTrimOWS h.2) else None) hs.

Lemma given_vals name lower hs :
  forallb fastTokenByte name = true -> map lowerByte name = map lowerByte lower ->
  Forall regularHeader hs -> given name hs = vals lower hs.
Proof.
  intros Hn Hl Hr. induction Hr as [|h hs Hh _ IH]; [done|]. unfold given, vals in *. cbn.
  destruct Hh as (_ & Ht & _). rewrite EqualFold_ascii by by apply tokens_ascii.
  rewrite (bool_decide_ext _ (map lowerByte h.1 = map lowerByte lower)).
  - by rewrite IH.
  - rewrite Canonical_fold by done. by rewrite Hl.
Qed.

Definition requestBlock (target : gostring) (hs : list (gostring * gostring)) : gostring :=
  (fastRequestMethod ++ target ++ fastRequestProto) ++ crlf ++ headerLines hs ++ crlf.

Definition statusLine (status : Z) (text : gostring) : gostring :=
  lit "HTTP/1.1 " ++ Itoa status ++ lit " " ++ text.
Definition responseBlock (status : Z) (text : gostring) (hs : list (gostring * gostring)) : gostring :=
  statusLine status text ++ crlf ++ headerLines hs ++ crlf.

(** The header names the handshake looks up in a request, and in a response. *)
Definition requestNames : list gostring :=
  [lit "Upgrade"; lit "Connection"; lit "Sec-WebSocket-Version"; lit "Sec-WebSocket-Key"; lit "Expect";
   lit "Sec-WebSocket-Protocol"; lit "Sec-WebSocket-Extensions"].
Definition responseNames : list gostring :=
  [lit "Upgrade"; lit "Connection"; lit "Sec-WebSocket-Accept"; lit "Sec-WebSocket-Protocol";
   lit "Sec-WebSocket-Extensions"].

Class NetHTTPLaws `{NetHTTP} : Prop := {
  ReadRequest_regular target hs :
    validFastTarget target = true -> Forall regularHeader hs -> unremarkable hs ->
    vals fastHeaderHost hs <> [] ->
    exists req, ReadRequest (requestBlock target hs) = Some req /\
      Method req = lit "GET" /\ ProtoMajor req = 1 /\ ProtoMinor req = 1 /\
      req_ContentLength req = 0 /\ TransferEncoding req = [] /\
      Forall (fun name => Values (req_Header req) name = given name hs) requestNames;
  ReadResponse_regular status text hs :
    100 <= status < 1000 -> forallb valueByte text = true -> Forall regularHeader hs ->
    vals fastHeaderTransferEncode hs = [] -> (length (vals fastHeaderContentLength hs) <= 1)%nat ->
    (forall v, v ∈ vals fastHeaderContentLength hs ->
      200 <= status /\ status <> 204 /\ status <> 304 /\ exists n, 0 <= n <= maxInt /\ v = Itoa n) ->
    exists resp, ReadResponse (responseBlock status text hs) = Some resp /\
      StatusCode resp = status /\
      (forall n, 0 <= n <= maxInt -> vals fastHeaderContentLength hs = [Itoa n] -> resp_ContentLength resp = n) /\
      Forall (fun name => Values (resp_Header resp) name = given name hs) responseNames;
}.

(** *** Numbers *)

Lemma digits_isDigit fuel n acc :
  0 <= n -> Forall (fun c => isDigit c = true) acc -> Forall (fun c => isDigit c = true) (digits fuel n acc).
Proof.
  revert n acc. induction fuel as [|fuel IH]; intros n acc Hn Ha; [done|]. cbn [digits].
  assert (Hd : Forall (fun c => isDigit c = true) ((48 + n mod 10) :: acc)).
  { constructor; [|done]. unfold isDigit. assert (0 <= n mod 10 < 10) by euclid. zsplit; done || lia. }
  destruct (n / 10 =? 0); [done|]. apply IH; [euclid|done].
Qed.

Lemma digits_nonnil fuel n acc : acc <> [] \/ fuel <> O -> digits fuel n acc <> [].
Proof.
  revert n acc. induction fuel as [|fuel IH]; intros n acc H; [by destruct H|]. cbn [digits].
  destruct (n / 10 =? 0); [done|]. apply IH. by left.
Qed.

Lemma read_digits_digits fuel n acc :
  0 <= n < 10 ^ Z.of_nat fuel -> read_digits (digits fuel n acc) 0 = read_digits acc n.
Proof.
  revert n acc. induction fuel as [|fuel IH]; intros n acc Hn.
  { assert (n = 0) as -> by lia. done. }
  cbn [digits]. rewrite Nat2Z.inj_succ, Z.pow_succ_r in Hn by lia.
  assert (Hs : forall a, read_digits ((48 + n mod 10) :: acc) a = read_digits acc (a * 10 + n mod 10)).
  { intros a. cbn [read_digits].
    assert (isDigit (48 + n mod 10) = true) as ->
      by (unfold isDigit; assert (0 <= n mod 10 < 10) by euclid; zsplit; done || lia).
    f_equal. lia. }
  destruct (Z.eqb_spec (n / 10) 0) as [E|E].
  - rewrite Hs. f_equal. euclid.
  - rewrite IH by euclid. rewrite Hs. f_equal. euclid.
Qed.

Lemma Itoa_isDigit n : 0 <= n -> Forall (fun c => isDigit c = true) (Itoa n).
Proof.
  intros Hn. unfold Itoa. rewrite (proj2 (Z.ltb_ge n 0)) by lia. by apply digits_isDigit.
Qed.

(** strconv reads back the number it wrote. *)
Lemma Atoi_Itoa n : 0 <= n <= maxInt -> Atoi (Itoa n) = Some n.
Proof.
  intros Hn. pose proof (Itoa_isDigit n ltac:(lia)) as Hd. unfold Itoa in *.
  rewrite (proj2 (Z.ltb_ge n 0)) in * by lia. pose proof (digits_nonnil 20 n [] ltac:(by right)) as Hne.
  pose proof (read_digits_digits 20 n [] ltac:(change (10 ^ Z.of_nat 20) with 100000000000000000000; unfold maxInt in Hn; lia)) as Hr.
  unfold Atoi. destruct (digits 20 n []) as [|c d]; [done|].
  inversion Hd as [|? ? Hc _]; subst. unfold isDigit in Hc.
  assert (48 <= c) by (destruct (Z.leb_spec 48 c); done || lia).
  rewrite (proj2 (Z.eqb_neq c 45)), (proj2 (Z.eqb_neq c 43)) by lia. rewrite Hr. cbn.
  rewrite bool_decide_true; [done|]. unfold is_int64, maxInt in *. lia.
Qed.

Lemma status_digits status : 100 <= status < 1000 -> length (Itoa status) = 3%nat.
Proof.
  intros Hs. assert (Hall : forallb (fun s => Nat.eqb (length (Itoa s)) 3) (seqZ 100 900) = true)
    by (vm_compute; reflexivity).
  rewrite forallb_forall in Hall. apply Nat.eqb_eq, Hall, list_elem_of_In, elem_of_seqZ. lia.
Qed.

(** ** A reader of regular blocks *)

Fixpoint collectLines (fuel : nat) (rest : gostring) : option (list (gostring * gostring)) :=
  match rest, fuel with
  | [], _ => Some []
  | _, O => None
  | _, S fuel =>
      match nextHeaderLine rest with
      | None => None
      | Some ([], _) => Some []
      | Some (line, rest) =>
          h ← fastLine line; hs ← collectLines fuel rest; Some (h :: hs)
      end
  end.

Definition trimValue (h : gostring * gostring) : gostring * gostring := (h.1, fastTrimOWS h.2).

Lemma collectLines_headerLines hs : forall fuel,
  Forall regularHeader hs -> (length (headerLines hs ++ crlf) <= fuel)%nat ->
  collectLines fuel (headerLines hs ++ crlf) = Some (map trimValue hs).
Proof.
  induction hs as [|h hs IH]; intros fuel Hr Hf.
  - destruct fuel as [|fuel]; [cbn in Hf; lia|]. done.
  - rewrite headerLines_cons in *. rewrite <- !(assoc_L (++)) in *. inversion Hr as [|? ? Hh Hr']; subst.
    rewrite !length_app in Hf. destruct fuel as [|fuel]; [cbn in Hf; lia|].
    pose proof (fastLine_lineOf h Hh) as Hp.
    pose proof (nextHeaderLine_app (lineOf h) (headerLines hs ++ crlf)
      ltac:(eapply Forall_impl; [by apply regular_no_break|naive_solver])) as Hx.
    pose proof (lineOf_nonnil h) as Hl.
    destruct (lineOf h ++ crlf ++ headerLines hs ++ crlf) as [|c0 d0] eqn:Ed; [by destruct (lineOf h)|].
    cbn [collectLines]. rewrite Hx. destruct (lineOf h) as [|c l]; [done|]. rewrite Hp. cbn [mbind option_bind].
    rewrite IH; [done..|]. rewrite length_app. cbn in Hf |- *. lia.
Qed.

Definition fileHeader (m : Header) (h : gostring * gostring) : Header :=
  <[CanonicalMIMEHeaderKey h.1 := default [] (m !! CanonicalMIMEHeaderKey h.1) ++ [h.2]]> m.
Definition headerOf (hs : list (gostring * gostring)) : Header := fold_left fileHeader hs ∅.

Lemma Values_headerOf hs name : Values (headerOf (map trimValue hs)) name = given name hs.
Proof.
  unfold Values, headerOf. induction hs as [|h hs IH] using rev_ind; [done|].
  rewrite map_app, fold_left_app. cbn [map fold_left]. unfold fileHeader at 1. unfold given in *.
  rewrite omap_app. cbn. case_bool_decide as E.
  - rewrite E, lookup_insert_eq. cbn. by rewrite IH.
  - rewrite lookup_insert_ne by done. by rewrite IH, app_nil_r.
Qed.

#[local] Instance reference : NetHTTP := {|
  ReadRequest block :=
    '(line, rest) ← nextHeaderLine block;
    hs ← collectLines (length rest) rest;
    if HasPrefix line fastRequestMethod
    then Some (MkHTTPRequest (lit "GET") 1 1 (headerOf hs) 0 []) else None;
  ReadResponse block :=
    '(line, rest) ← nextHeaderLine block;
    hs ← collectLines (length rest) rest;
    status ← Atoi (take 3 (drop 9 line));
    Some (MkHTTPResponse status (headerOf hs)
      (match Values (headerOf hs) fastHeaderContentLength with
       | [v] => default (-1) (Atoi v)
       | _ => -1
       end));
  StatusText status := if status =? 403 then lit "Forbidden" else [];
|}.

Lemma HasPrefix_app p s : HasPrefix (p ++ s) p = true.
Proof. unfold HasPrefix. rewrite take_app_length. by apply bool_decide_eq_true. Qed.

Lemma targetByte_range c : targetByte c = true -> 32 < c < 127.
Proof.
  unfold targetByte, isLower, isUpper, isDigit. intros H.
  assert (Hf : forall l, Forall (fun c => 32 < c < 127) l -> c ∈ l -> 32 < c < 127)
    by (intros l Hl; rewrite Forall_forall in Hl; apply Hl).
  repeat (apply orb_true_iff in H as [H|H]);
    try (apply bool_decide_eq_true in H; revert H; apply Hf, (bool_decide_unpack _); vm_compute; exact I);
    revert H; zsplit; cbn; intros; try done; lia.
Qed.

Lemma request_line_no_LF target :
  validFastTarget target = true ->
  Forall (fun c => c <> LF) (fastRequestMethod ++ target ++ fastRequestProto).
Proof.
  intros [_ Ht]%andb_true_iff. rewrite !Forall_app. split_and!;
    try (apply (bool_decide_unpack _); vm_compute; exact I).
  eapply forallb_Forall, Ht. intros c ?%targetByte_range. unfold LF. lia.
Qed.

Lemma status_line_no_LF status text :
  0 <= status -> forallb valueByte text = true -> Forall (fun c => c <> LF) (statusLine status text).
Proof.
  intros Hs Ht. unfold statusLine. rewrite !Forall_app. split_and!;
    try (match goal with |- Forall _ (lit _) => apply (bool_decide_unpack _); vm_compute; exact I end).
  - eapply Forall_impl; [by apply Itoa_isDigit|]. intros c Hc ->. by vm_compute in Hc.
  - eapply forallb_Forall, Ht. intros c Hc ->. by vm_compute in Hc.
Qed.

Lemma reference_laws : @NetHTTPLaws reference.
Proof.
  split.
  - intros target hs Ht Hr _ _. unfold requestBlock. cbn [ReadRequest reference].
    rewrite nextHeaderLine_app by by apply request_line_no_LF. cbn [mbind option_bind].
    rewrite collectLines_headerLines by done. cbn [mbind option_bind]. rewrite HasPrefix_app.
    eexists. split; [done|]. cbn [Method ProtoMajor ProtoMinor req_ContentLength TransferEncoding req_Header].
    split_and!; try done. apply Forall_forall. intros. apply Values_headerOf.
  - intros status text hs Hs Ht Hr Hte Hcl Hcv. unfold responseBlock. cbn [ReadResponse reference].
    rewrite nextHeaderLine_app by (apply status_line_no_LF; [lia|done]). cbn [mbind option_bind].
    rewrite collectLines_headerLines by done. cbn [mbind option_bind].
    assert (take 3 (drop 9 (statusLine status text)) = Itoa status) as ->.
    { unfold statusLine. rewrite drop_app_length' by done. apply take_app_length'.
      rewrite (status_digits status Hs). reflexivity. }
    rewrite Atoi_Itoa by (unfold maxInt; lia). cbn [mbind option_bind]. eexists. split; [done|].
    cbn [StatusCode resp_Header resp_ContentLength]. split_and!; [done| |].
    + intros n Hn Hv. rewrite Values_headerOf, (given_vals _ fastHeaderContentLength), Hv by done.
      by rewrite Atoi_Itoa.
    + apply Forall_forall. intros. apply Values_headerOf.
Qed.
