(* ===== verification/WsFast.v ===== *)
(** * The fast path of the upgrade

    parseServerRequestFast decides only requests that net/http would decide the
    same way: with it or without it, ParseServerRequest answers alike. *)

From Stdlib Require String.
From Stdlib Require Import(notations) String.
From S2P Require Import Prelude Utf8 GoStrings GoEncoding WsHandshake WsLines WsNetHTTP.

Local Open Scope Z_scope.

(** ** Tokens of a value *)

Lemma fastEqualFoldASCII_spec s want : fastEqualFoldASCII s want = bool_decide (map lowerByte s = want).
Proof.
  revert want. induction s as [|c s IH]; intros [|w want]; cbn; try done.
  rewrite IH. destruct (Z.eqb_spec (lowerByte c) w) as [->|Hn]; cbn.
  - apply bool_decide_ext. naive_solver.
  - symmetry. apply bool_decide_eq_false. congruence.
Qed.

Lemma value_ascii s : forallb valueByte s = true -> ascii s.
Proof. apply forallb_Forall. intros c Hc. by apply valueByte_range. Qed.

Lemma fold_token t want :
  forallb valueByte t = true -> map lowerByte want = want ->
  fastEqualFoldASCII (fastTrimOWS t) want = EqualFold (TrimSpace t) want.
Proof.
  intros Ht Hw. rewrite TrimSpace_OWS by done.
  rewrite fastEqualFoldASCII_spec, EqualFold_ascii, Hw by (apply value_ascii; by rewrite valueByte_trim). done.
Qed.

Lemma hasToken_loop_spec want fuel : forall v,
  map lowerByte want = want -> want <> [] -> forallb valueByte v = true -> (length v <= fuel)%nat ->
  hasToken_loop fuel v want = existsb (fun t => EqualFold (TrimSpace t) want) (Split v 44).
Proof.
  intros v Hw Hne. revert v.
  assert (Hnil : existsb (fun t => EqualFold (TrimSpace t) want) (Split [] 44) = false).
  { cbn. unfold EqualFold. rewrite Hw. rewrite orb_false_r. apply bool_decide_eq_false. cbn. congruence. }
  induction fuel as [|fuel IH]; intros v Hv Hl.
  { destruct v; [by rewrite Hnil|cbn in Hl; lia]. }
  destruct v as [|c v]; [by rewrite Hnil|]. remember (c :: v) as s eqn:Es.
  assert (E : hasToken_loop (S fuel) s want =
    let '(token, value) := match IndexByte s 44 with
                           | Some i => (take i s, drop (S i) s) | None => (s, []) end in
    fastEqualFoldASCII (fastTrimOWS token) want || hasToken_loop fuel value want) by by rewrite Es.
  rewrite E. clear E Es. destruct (IndexByte s 44) as [i|] eqn:Ei.
  - apply IndexByte_found in Ei as (t & u & -> & -> & Ht). rewrite take_app_length, drop_sep.
    rewrite Split_app by done. rewrite forallb_app in Hv. apply andb_true_iff in Hv as [Hvt Hvu].
    cbn [forallb] in Hvu. apply andb_true_iff in Hvu as [_ Hvu].
    rewrite length_app in Hl. cbn in Hl. rewrite IH by (done || lia). cbn [existsb]. by rewrite fold_token.
  - rewrite Split_none.
    + cbn [existsb]. rewrite fold_token, orb_false_r by done. by destruct fuel; cbn; rewrite orb_false_r.
    + clear -Ei. induction s as [|x s IH]; constructor; cbn in Ei; destruct (Z.eqb_spec x 44); try done.
      apply IH. by destruct (IndexByte s 44).
Qed.

Lemma fastValueHasToken_spec v want :
  map lowerByte want = want -> want <> [] -> forallb valueByte v = true ->
  fastValueHasToken v want = existsb (fun t => EqualFold (TrimSpace t) want) (Split v 44).
Proof. intros. by apply hasToken_loop_spec. Qed.

(** The values of a regular block's headers. *)
Lemma vals_bytes name hs v : Forall regularHeader hs -> v ∈ vals name hs -> forallb valueByte v = true.
Proof.
  intros Hr (h & Hin & Hh)%list_elem_of_omap. rewrite Forall_forall in Hr.
  destruct (Hr h Hin) as (_ & _ & Hb). destruct (EqualFold _ _); [|done]. simplify_eq. by rewrite valueByte_trim.
Qed.

Lemma vals_trimmed name hs v : Forall regularHeader hs -> v ∈ vals name hs -> TrimSpace v = v.
Proof.
  intros Hr Hin. rewrite TrimSpace_OWS by by eapply vals_bytes.
  apply list_elem_of_omap in Hin as (h & _ & Hh). destruct (EqualFold _ _); [|done]. simplify_eq.
  apply fastTrimOWS_idem.
Qed.

Lemma has_token_given `{NetHTTP} h name lower want hs :
  forallb fastTokenByte name = true -> map lowerByte name = map lowerByte lower ->
  map lowerByte want = want -> want <> [] -> Forall regularHeader hs -> Values h name = given name hs ->
  headerHasToken h name want = existsb (fun v => fastValueHasToken v want) (vals lower hs).
Proof.
  intros Hn Hl Hw Hne Hr Hv. unfold headerHasToken, items_of.
  rewrite Hv, (given_vals _ lower) by done. clear Hv.
  assert (Hb : forall v, v ∈ vals lower hs -> forallb valueByte v = true) by (intros; by eapply vals_bytes).
  induction (vals lower hs) as [|v vs IH]; [done|]. cbn [flat_map existsb].
  rewrite existsb_app, fastValueHasToken_spec by (try done; apply Hb; left). f_equal.
  apply IH. intros. apply Hb. by right.
Qed.

(** ** A block the fast path accepts *)

Lemma HasSuffix_inv s p : HasSuffix s p = true -> exists t, s = t ++ p.
Proof.
  unfold HasSuffix. intros [_ H%bool_decide_eq_true]%andb_true_iff.
  exists (take (length s - length p) s). by rewrite <- H at 2; rewrite take_drop.
Qed.

Lemma HasPrefix_inv s p : HasPrefix s p = true -> exists t, s = p ++ t.
Proof.
  unfold HasPrefix. intros H%bool_decide_eq_true. exists (drop (length p) s).
  by rewrite <- H at 1; rewrite take_drop.
Qed.

Lemma request_line_inv line :
  HasPrefix line fastRequestMethod = true -> HasSuffix line fastRequestProto = true ->
  (length fastRequestMethod + length fastRequestProto < length line)%nat ->
  line = fastRequestMethod ++
    take (length line - length fastRequestProto - length fastRequestMethod) (drop (length fastRequestMethod) line) ++
    fastRequestProto.
Proof.
  intros (t & ->)%HasPrefix_inv (u & Hu)%HasSuffix_inv Hl. rewrite drop_app_length.
  assert (Hl' := f_equal length Hu). rewrite !length_app in Hl, Hl'. rewrite length_app.
  assert (Ht : exists m, t = m ++ fastRequestProto).
  { exists (drop (length fastRequestMethod) u).
    apply (f_equal (drop (length fastRequestMethod))) in Hu. rewrite drop_app_length in Hu.
    rewrite Hu, drop_app_le; [done|]. rewrite length_app in Hl'. lia. }
  destruct Ht as (m & ->). rewrite take_app_length'; [done|]. rewrite length_app. lia.
Qed.

(** What it takes to be accepted, and the request returned. *)
Definition upgrade (hs : list (gostring * gostring)) : Prop :=
  vals fastHeaderHost hs <> [] /\
  existsb hasWebsocket (vals fastHeaderUpgrade hs) = true /\
  existsb hasUpgrade (vals fastHeaderConnection hs) = true /\
  vals fastHeaderVersion hs = [lit "13"] /\
  exists key, vals fastHeaderKey hs = [key] /\ validKey key = true.

Lemma one_value {A} (l : list A) : Z.of_nat (length l) = 1 -> exists x, l = [x].
Proof. destruct l as [|x [|]]; cbn; intros; try lia. eauto. Qed.

Lemma fast_inv block options r :
  parseServerRequestFast block options = Some r ->
  (exists pre, block = pre ++ crlf ++ crlf) ->
  CheckOrigin options = None /\
  exists target hs tokens,
    block = requestBlock target hs /\ validFastTarget target = true /\ Forall regularHeader hs /\
    unremarkable hs /\ upgrade hs /\ parseTokens (vals fastHeaderProtocol hs) = inr tokens /\
    r = MkRequest None (default [] (last (vals fastHeaderKey hs))) tokens (vals fastHeaderExtensions hs) block.
Proof.
  unfold parseServerRequestFast. intros E (pre & Hpre).
  destruct (CheckOrigin options); [done|]. split; [done|].
  destruct (nextHeaderLine block) as [[line rest]|] eqn:En; [|done].
  apply nextHeaderLine_inv in En as [Hb Hline].
  destruct (HasPrefix line fastRequestMethod) eqn:Hp; [|done].
  destruct (HasSuffix line fastRequestProto) eqn:Hsf; [|done]. cbn [negb orb] in E.
  destruct (Nat.leb_spec (length line) (length fastRequestMethod + length fastRequestProto)) as [|Hlen]; [done|].
  pose proof (request_line_inv line Hp Hsf Hlen) as Hreq.
  set (target := take _ _) in *. clearbody target. destruct (validFastTarget target) eqn:Ht; [|done]. cbn [negb] in E.
  destruct (fastLines _ rest fast0) as [st|] eqn:Ef; [|done].
  apply fastLines_inv in Ef as (hs & Hrest & Hr & [Hun ->]%fastFold_spec).
  assert (Hne : line <> []) by (intros ->; cbn in Hlen; lia).
  assert (Hrest' : rest = headerLines hs ++ crlf).
  { destruct Hrest as [?| ->]; [done|]. exfalso. rewrite Hpre in Hb. symmetry in Hb.
    by apply blank_ended in Hb. }
  clear Hrest. match type of E with (if ?b then _ else _) = _ => destruct b eqn:Ec end; [done|].
  repeat (apply orb_false_iff in Ec as [Ec ?]). cbn [stateOf hostSeen upgradeOK connectionOK versionSeen versionOK keySeen key_ protocols_ extensions_] in *.
  repeat match goal with H : negb _ = false |- _ => apply negb_false_iff in H end.
  repeat match goal with H : (_ =? _) = true |- _ => apply Z.eqb_eq, one_value in H as [? H] end.
  repeat match goal with H : vals _ hs = [_] |- _ => rewrite H in * end. cbn [last default] in *.
  repeat match goal with H : bool_decide _ = true |- _ => apply bool_decide_eq_true in H end. subst.
  destruct (parseTokens _) as [|tokens] eqn:Et; [done|]. simplify_eq.
  exists target, hs, tokens. unfold requestBlock. split_and!; try done.
  - unfold upgrade. apply negb_true_iff, bool_decide_eq_false in Ec. split_and!; eauto.
  - by repeat match goal with H : vals _ hs = [_] |- _ => rewrite H end.
Qed.

Lemma IndexBlank_inv data e :
  IndexBlank data = Some e -> exists pre, length pre = e /\ take (e + 4) data = pre ++ crlf ++ crlf.
Proof.
  revert e. induction data as [|c data IH]; intros e E; [done|]. cbn [IndexBlank] in E.
  destruct (HasPrefix (c :: data) (crlf ++ crlf)) eqn:Hp.
  - injection E as <-. exists []. split; [done|]. by apply bool_decide_eq_true in Hp.
  - destruct (IndexBlank data) as [e'|]; [|done]. injection E as <-.
    destruct (IH e' eq_refl) as (pre & <- & Hpre). exists (c :: pre). split; [done|].
    cbn [Nat.add length firstn app]. by rewrite Hpre.
Qed.

(** net/http parses it too, to the same fields. *)
Lemma fast_netHTTP `{!NetHTTP, !NetHTTPLaws} block options r :
  parseServerRequestFast block options = Some r ->
  (exists pre, block = pre ++ crlf ++ crlf) ->
  exists r', parseServerRequestNetHTTP block options = inr (r', length block) /\
    Key r' = Key r /\ Subprotocols r' = Subprotocols r /\ Extensions r' = Extensions r /\
    BuildHTTP r' = BuildHTTP r.
Proof.
  intros E Hpre. destruct (fast_inv _ _ _ E Hpre)
    as (Ho & target & hs & tokens & Hb & Ht & Hr & Hun & Hup & Htok & ->).
  destruct Hup as (Hhost & Hws & Hcn & Hver & key & Hkey & Hvk).
  destruct (ReadRequest_regular target hs Ht Hr Hun Hhost)
    as (req & Hread & HM & H1 & H2 & Hcl & Hte & Hvals).
  rewrite Forall_forall in Hvals.
  assert (Hv : forall name lower, name ∈ requestNames -> forallb fastTokenByte name = true ->
    map lowerByte name = map lowerByte lower -> Values (req_Header req) name = vals lower hs).
  { intros name lower Hin Hn Hl. rewrite Hvals by done. by apply given_vals. }
  assert (Hin : forall name, name ∈ requestNames -> Values (req_Header req) name = given name hs) by apply Hvals.
  assert (Htrim : forall n v, v ∈ vals n hs -> TrimSpace v = v) by (intros; by eapply vals_trimmed).
  assert (Hexp : Get (req_Header req) (lit "Expect") = []).
  { unfold Get. rewrite (Hv _ fastHeaderExpect) by (vm_compute; set_solver || reflexivity).
    destruct Hun as (_ & _ & _ & _ & _ & Hx). destruct (vals fastHeaderExpect hs); [done|]. by inversion Hx. }
  rewrite <- Hb in Hread. clear Hb.
  unfold parseServerRequestNetHTTP. rewrite Hread. unfold ValidateServerRequest.
  rewrite HM, H1, H2, Hcl, Hte, Hexp, Ho. cbn [negb orb Z.eqb Pos.eqb]. rewrite !bool_decide_true by done.
  rewrite (has_token_given _ _ fastHeaderUpgrade _ hs) by (try done; apply Hin; vm_compute; set_solver).
  rewrite (has_token_given _ _ fastHeaderConnection _ hs) by (try done; apply Hin; vm_compute; set_solver).
  fold hasWebsocket hasUpgrade. rewrite Hws, Hcn. cbn [negb orb].
  rewrite (Hv _ fastHeaderVersion), Hver by (vm_compute; set_solver || reflexivity).
  rewrite (Htrim fastHeaderVersion) by (rewrite Hver; left). rewrite bool_decide_true by done. cbn [negb].
  rewrite (Hv _ fastHeaderKey), Hkey by (vm_compute; set_solver || reflexivity). rewrite Hvk. cbn [negb].
  rewrite (Hv _ fastHeaderProtocol), Htok by (vm_compute; set_solver || reflexivity).
  eexists. split; [done|]. cbn [Key Subprotocols Extensions last default].
  rewrite (Htrim fastHeaderKey) by (rewrite Hkey; left).
  rewrite (Hv _ fastHeaderExtensions) by (vm_compute; set_solver || reflexivity).
  split_and!; try done. unfold BuildHTTP. cbn [HTTP raw]. rewrite bool_decide_false.
  - by rewrite Hread.
  - destruct Hpre as (pre & ->). by destruct pre.
Qed.

(** The parse without the fast path. *)
Definition parseByNetHTTP `{NetHTTP} (data : gostring) (options : ServerOptions) : hs_error + Request * nat :=
  let maxBytes := if MaxHeaderBytes options <=? 0 then DefaultMaxBytes else MaxHeaderBytes options in
  match IndexBlank data with
  | None =>
      if maxBytes <? Z.of_nat (length data) then inl ErrBadRequest else inl ErrUnexpectedEOF
  | Some e =>
      if maxBytes <? Z.of_nat (e + 4) then inl ErrBadRequest
      else parseServerRequestNetHTTP (take (e + 4) data) options
  end.

(** C17.  The fast path changes no decision.  On any input and under any options
    ParseServerRequest either fails with the error that parsing with net/http
    alone gives, or both succeed, having consumed the same bytes, with the same
    key, subprotocols and extension offers; and the net/http request built later
    from a request of the fast path is the one net/http parsed. *)
Theorem fast_path_transparent `{!NetHTTP, !NetHTTPLaws} (data : gostring) (options : ServerOptions) :
  match ParseServerRequest data options, parseByNetHTTP data options with
  | inl e, inl e' => e = e'
  | inr (r, n), inr (r', n') =>
      n = n' /\ Key r = Key r' /\ Subprotocols r = Subprotocols r' /\ Extensions r = Extensions r' /\
      BuildHTTP r = BuildHTTP r'
  | _, _ => False
  end.
Proof.
  unfold ParseServerRequest, parseByNetHTTP. destruct (IndexBlank data) as [e|] eqn:Ei; [|by destruct (_ <? _)].
  destruct (_ <? _); [done|]. apply IndexBlank_inv in Ei as (pre & Hlen & Hpre).
  destruct (parseServerRequestFast (take (e + 4) data) options) as [r|] eqn:Ef.
  - destruct (fast_netHTTP _ _ _ Ef ltac:(eauto)) as (r' & -> & ? & ? & ? & ?).
    split_and!; try done. rewrite Hpre, !length_app. cbn. lia.
  - destruct (parseServerRequestNetHTTP _ _) as [|[r n]]; [done|by split_and!].
Qed.

Definition chatRequest : gostring :=
  lit "GET /chat HTTP/1.1" ++ crlf ++ lit "Host: example.com" ++ crlf ++
  lit "Connection: Upgrade" ++ crlf ++ lit "Upgrade: websocket" ++ crlf ++
  lit "Sec-WebSocket-Version: 13" ++ crlf ++ lit "Sec-WebSocket-Key: dGhlIHNhbXBsZSBub25jZQ==" ++ crlf ++ crlf.

Lemma fast_path_transparent_witness :
  let data := chatRequest ++ [129; 0] in
  let options := MkServerOptions 0 None in
  match @ParseServerRequest reference data options, @parseByNetHTTP reference data options with
  | inl e, inl e' => e = e'
  | inr (r, n), inr (r', n') =>
      n = n' /\ Key r = Key r' /\ Subprotocols r = Subprotocols r' /\ Extensions r = Extensions r' /\
      @BuildHTTP reference r = @BuildHTTP reference r'
  | _, _ => False
  end /\
  match @ParseServerRequest reference data options with
  | inr (_, n) => n = length chatRequest
  | _ => False
  end.
Proof.
  cbv zeta.
  split; [exact (@fast_path_transparent reference reference_laws (chatRequest ++ [129; 0]) (MkServerOptions 0 None))|].
  vm_compute. reflexivity.
Defined.
