(* ===== verification/WsUpgrade.v ===== *)
(** * Both ends of an upgrade

    What consumeHandshake and consumeClientHandshake (src/uws/protocol.go) make
    of the handshake and extension packages, and that a uws client and a uws
    server agree: the request the client builds is one the server accepts, its
    response is one the client accepts, and both end up with the same
    subprotocol and the same compression parameters, leaving exactly the bytes
    behind the headers to the frame parsers. *)

From Stdlib Require String.
From Stdlib Require Import(notations) String.
From stdpp Require Import sorting.
From S2P Require Import Prelude Utf8 GoStrings GoEncoding WsExtension WsHandshake WsLines WsNetHTTP WsFast.

Local Open Scope Z_scope.

(** ** The connection's part *)

(** The fields of connConfig the handshake reads. *)
Record connConfig : Type := MkConfig {
  maxHeaderBytes : Z;
  compressionEnabled : bool;
  compressionLevel : Z;
  compressionContextTakeover : bool;
  subprotocols : list gostring;
  checkOrigin : option (HTTPRequest -> bool);
}.

Definition clientExtensions (config : connConfig) : gostring :=
  if negb (compressionEnabled config) then []
  else
    let extensions := lit "permessage-deflate; client_max_window_bits; server_max_window_bits=15" in
    if compressionContextTakeover config then extensions
    else extensions ++ lit "; server_no_context_takeover; client_no_context_takeover".

Inductive upgrade_error : Type :=
| HandshakeError (e : hs_error)
| ExtensionError (e : ext_error).

Definition set_level (level : Z) (p : Params) : Params :=
  MkParams (Enabled p) (ServerNoContextTakeover p) (ClientNoContextTakeover p) (ServerMaxWindowBitsSet p)
    (ServerMaxWindowBits p) (ClientMaxWindowBits p) (ClientMaxWindowBitsSet p) level.

(** What an upgrade that succeeds leaves: the subprotocol, the parameters the
    compressor and decompressor are made with, and the input that follows. *)
Record upgraded : Type := MkUpgraded {
  up_subprotocol : gostring;
  up_params : Params;
  up_extra : gostring;
}.

Section connection.
Context `{NetHTTP, LowerTable}.

(** consumeHandshake on a server without an Authorize hook: the response to
    write, and the upgraded connection. *)
Definition serverHandshake (config : connConfig) (input : gostring) : upgrade_error + gostring * upgraded :=
  match ParseServerRequest input (MkServerOptions (maxHeaderBytes config) (checkOrigin config)) with
  | inl e => inl (HandshakeError e)
  | inr (req, consumed) =>
      let protocol := SelectSubprotocol (Subprotocols req) (subprotocols config) in
      match NegotiateServerWithPolicy (Extensions req) (compressionEnabled config)
              (negb (compressionContextTakeover config)) with
      | inl e => inl (ExtensionError e)
      | inr (params, extensions) =>
          inr (AppendServerResponse [] req protocol extensions,
               MkUpgraded protocol (set_level (compressionLevel config) params) (drop consumed input))
      end
  end.

(** consumeClientHandshake on the response so far. *)
Definition clientHandshake (config : connConfig) (clientKey data : gostring) : upgrade_error + upgraded :=
  match ValidateClientResponse data clientKey (subprotocols config) [maxHeaderBytes config] with
  | inl e => inl (HandshakeError e)
  | inr (consumed, protocol, extensions) =>
      match NegotiateClient extensions (compressionEnabled config) with
      | inl e => inl (ExtensionError e)
      | inr params =>
          inr (MkUpgraded protocol (set_level (compressionLevel config) params) (drop consumed data))
      end
  end.
End connection.

(** ** The end of a header block *)

Lemma HasPrefix_cr c s : c <> CR -> HasPrefix (c :: s) (crlf ++ crlf) = false.
Proof. intros Hc. apply bool_decide_eq_false. unfold crlf. cbn. congruence. Qed.

Lemma IndexBlank_skip line s :
  Forall (fun c => c <> CR) line -> IndexBlank (line ++ s) = (fun i => length line + i)%nat <$> IndexBlank s.
Proof.
  induction 1 as [|c line Hc _ IH]; cbn [app length Nat.add]; [by destruct (IndexBlank s)|].
  cbn [IndexBlank]. rewrite HasPrefix_cr by done. rewrite IH. by destruct (IndexBlank s).
Qed.

Lemma IndexBlank_crlf s : head s <> Some CR -> IndexBlank (crlf ++ s) = (fun i => 2 + i)%nat <$> IndexBlank s.
Proof.
  intros Hs. change (crlf ++ s) with (CR :: LF :: s). cbn [IndexBlank].
  assert (HasPrefix (CR :: LF :: s) (crlf ++ crlf) = false) as ->.
  { apply bool_decide_eq_false. unfold crlf. destruct s as [|c s]; [done|]. cbn in *. congruence. }
  rewrite HasPrefix_cr by done. by destruct (IndexBlank s).
Qed.

Lemma headerLines_head hs s :
  Forall regularHeader hs -> hs <> [] -> head (headerLines hs ++ s) <> Some CR.
Proof.
  destruct hs as [|h hs]; [done|]. intros Hr _. inversion Hr as [|? ? Hh _]; subst.
  rewrite headerLines_cons. pose proof (regular_no_break h Hh) as Hn. pose proof (lineOf_nonnil h) as Hne.
  destruct (lineOf h); [done|]. inversion Hn; subst. cbn. naive_solver.
Qed.

Lemma IndexBlank_lines hs s :
  Forall regularHeader hs -> hs <> [] ->
  IndexBlank (headerLines hs ++ crlf ++ s) = Some (length (headerLines hs) - 2)%nat.
Proof.
  induction hs as [|h hs IH]; [done|]. intros Hr _. inversion Hr as [|? ? Hh Hr']; subst.
  rewrite headerLines_cons, <- !(assoc_L (++)).
  rewrite IndexBlank_skip by (eapply Forall_impl; [by apply regular_no_break|naive_solver]).
  rewrite !length_app. destruct hs as [|h' hs].
  - change (headerLines []) with (@nil Z). cbn [app length].
    assert (IndexBlank (crlf ++ crlf ++ s) = Some O) as -> by done. cbn. f_equal. lia.
  - rewrite IndexBlank_crlf by by apply headerLines_head. rewrite IH by done. cbn [fmap option_fmap option_map].
    f_equal. rewrite headerLines_cons, !length_app. cbn. lia.
Qed.

(** The header's end is where the block's empty line ends. *)
Lemma IndexBlank_block line hs s :
  Forall (fun c => c <> CR) line -> Forall regularHeader hs -> hs <> [] ->
  IndexBlank ((line ++ crlf ++ headerLines hs ++ crlf) ++ s) =
  Some (length (line ++ crlf ++ headerLines hs ++ crlf) - 4)%nat.
Proof.
  intros Hl Hr Hne. rewrite <- !(assoc_L (++)). rewrite IndexBlank_skip by done.
  rewrite IndexBlank_crlf by by apply headerLines_head. rewrite IndexBlank_lines by done. cbn [fmap option_fmap option_map].
  f_equal. rewrite !length_app. destruct hs as [|h hs]; [done|]. rewrite headerLines_cons, !length_app. cbn. lia.
Qed.

(** ** The fast path accepts what it should *)

Lemma request_line_slice target :
  let line := fastRequestMethod ++ target ++ fastRequestProto in
  take (length line - length fastRequestProto - length fastRequestMethod) (drop (length fastRequestMethod) line) = target.
Proof. cbv zeta. rewrite drop_app_length. apply take_app_length'. rewrite !length_app. lia. Qed.

Lemma HasSuffix_app s p : HasSuffix (s ++ p) p = true.
Proof.
  unfold HasSuffix. rewrite length_app, Nat.add_sub, drop_app_length. apply andb_true_iff.
  split; [apply Nat.leb_le; lia|]. by apply bool_decide_eq_true.
Qed.

Lemma fast_accepts target hs key tokens max :
  validFastTarget target = true -> Forall regularHeader hs -> unremarkable hs -> upgrade hs ->
  vals fastHeaderKey hs = [key] -> parseTokens (vals fastHeaderProtocol hs) = inr tokens ->
  parseServerRequestFast (requestBlock target hs) (MkServerOptions max None) =
  Some (MkRequest None key tokens (vals fastHeaderExtensions hs) (requestBlock target hs)).
Proof.
  intros Ht Hr Hun Hup Hkey Htok. unfold parseServerRequestFast. cbn [CheckOrigin].
  unfold requestBlock at 1. rewrite nextHeaderLine_app by by apply request_line_no_LF.
  rewrite HasPrefix_app, (assoc_L (++)), HasSuffix_app, <- (assoc_L (++)). cbn [negb orb].
  rewrite request_line_slice, Ht. destruct (Nat.leb_spec (length (fastRequestMethod ++ target ++ fastRequestProto))
    (length fastRequestMethod + length fastRequestProto)) as [Hle|_].
  { exfalso. destruct target; [by apply andb_true_iff in Ht as [? _]|]. rewrite !length_app in Hle. cbn in Hle. lia. }
  cbn [negb]. rewrite fastLines_headerLines by done.
  rewrite (proj2 (fastFold_spec hs (stateOf hs)) (conj Hun eq_refl)).
  destruct Hup as (Hh & Hw & Hc & Hv & key' & Hk & Hvk). rewrite Hkey in Hk. injection Hk as <-.
  cbn [stateOf hostSeen upgradeOK connectionOK versionSeen versionOK keySeen key_ protocols_ extensions_].
  rewrite bool_decide_false, Hw, Hc, Hv, Hkey by done. cbn [negb orb length last default].
  rewrite bool_decide_true by done. change (id key) with key.
  change (Z.of_nat 1 =? 1) with true. cbn [negb orb]. rewrite Hvk. cbn [negb orb].
  by rewrite Htok.
Qed.

(** ** The request a client builds *)

Lemma vals_cons name h hs :
  vals name (h :: hs) = (if EqualFold h.1 name then [fastTrimOWS h.2] else []) ++ vals name hs.
Proof. unfold vals. cbn. by destruct (EqualFold _ _). Qed.

Lemma regular_cons h hs : regularHeader h -> Forall regularHeader hs -> Forall regularHeader (h :: hs).
Proof. by constructor. Qed.

(** Decides a comparison of two constants. *)
Ltac fold_const :=
  repeat match goal with
  | |- context [EqualFold (lit ?s) ?n] =>
      let b := eval vm_compute in (EqualFold (lit s) n) in change (EqualFold (lit s) n) with b
  end; cbv iota; cbn [app].

(** The headers a caller adds, as writeHeader writes them. *)
Definition addedHeaders (h : Header) : list (gostring * gostring) :=
  flat_map (fun name => map (fun value => (CanonicalMIMEHeaderKey name, 32 :: value)) (default [] (h !! name)))
    (merge_sort bytes_le (map fst (map_to_list h))).

Lemma headerLines_app hs hs' : headerLines (hs ++ hs') = headerLines hs ++ headerLines hs'.
Proof. apply flat_map_app. Qed.

Lemma writeHeader_lines b h : writeHeader b h = b ++ headerLines (addedHeaders h).
Proof.
  unfold writeHeader, addedHeaders. f_equal.
  induction (merge_sort _ _) as [|name names IH]; [done|]. cbn [flat_map].
  rewrite headerLines_app, IH. f_equal. induction (default [] (h !! name)) as [|v vs IHv]; [done|].
  cbn [flat_map map]. rewrite headerLines_cons, IHv. unfold headerLine, lineOf. cbn [fst snd].
  rewrite <- !(assoc_L (++)). done.
Qed.

Lemma canonical_tokens u s : forallb fastTokenByte s = true -> forallb fastTokenByte (canonical u s) = true.
Proof.
  assert (Hb : forall c, fastTokenByte c = true -> fastTokenByte (upperByte c) = true /\ fastTokenByte (lowerByte c) = true).
  { assert (Hall : Forall (fun c => fastTokenByte c = true -> fastTokenByte (upperByte c) = true /\ fastTokenByte (lowerByte c) = true) (seqZ 33 94))
      by (apply (bool_decide_unpack _); vm_compute; exact I).
    rewrite Forall_forall in Hall. intros c Hc. apply Hall; [|done]. apply elem_of_seqZ.
    apply fastTokenByte_range in Hc. lia. }
  revert u. induction s as [|c s IH]; intros u; cbn; [done|]. intros [Hc Hs]%andb_true_iff.
  apply andb_true_iff. split; [|by apply IH]. destruct u; by apply Hb.
Qed.

(** Every value of the caller's headers is printable. *)
Definition printable (h : Header) : Prop :=
  map_Forall (fun _ vs => Forall (fun v => forallb valueByte v = true) vs) h.

Lemma checkEntries_ok es reserved :
  checkEntries es reserved = None <->
  Forall (fun e => validToken e.1 = true /\ (CanonicalMIMEHeaderKey e.1 ∉ reserved) /\
                   existsb breaksLine e.2 = false) es.
Proof.
  induction es as [|[name values] es IH]; cbn [checkEntries]; [done|]. rewrite Forall_cons. cbn [fst snd].
  destruct (validToken name); cbn [negb]; [|naive_solver].
  case_bool_decide; [naive_solver|]. destruct (existsb breaksLine values); naive_solver.
Qed.

Lemma added_in h x :
  x ∈ addedHeaders h ->
  exists name vs v, h !! name = Some vs /\ v ∈ vs /\ x = (CanonicalMIMEHeaderKey name, 32 :: v).
Proof.
  unfold addedHeaders. rewrite list_elem_of_In, in_flat_map.
  intros (name & _ & (v & <- & Hv)%in_map_iff). destruct (h !! name) as [vs|] eqn:E; [|done].
  exists name, vs, v. split_and!; [done| |done]. by apply list_elem_of_In.
Qed.

Lemma added_regular h :
  CheckRequestHeader h = None -> printable h -> Forall regularHeader (addedHeaders h).
Proof.
  intros Hc Hp. unfold CheckRequestHeader, checkHeader in Hc. apply checkEntries_ok in Hc.
  rewrite Forall_forall in Hc. apply Forall_forall. intros x (name & vs & v & Hl & Hv & ->)%added_in.
  destruct (Hc (name, vs)) as (Hn & _ & _); [by apply elem_of_map_to_list|]. cbn [fst] in Hn.
  rewrite validToken_spec in Hn. apply andb_true_iff in Hn as [Hne%negb_true_iff%bool_decide_eq_false Hn].
  unfold regularHeader, CanonicalMIMEHeaderKey. cbn [fst snd].
  change validHeaderFieldByte with fastTokenByte. rewrite Hn. split_and!.
  - by destruct name.
  - by apply canonical_tokens.
  - cbn [forallb]. specialize (Hp name vs Hl). cbv beta in Hp. rewrite Forall_forall in Hp. by rewrite (Hp v Hv).
Qed.

(** A header the upgrade is made of is not among them. *)
Lemma added_absent h lower :
  CheckRequestHeader h = None -> forallb fastTokenByte lower = true ->
  CanonicalMIMEHeaderKey lower ∈ reservedRequestHeaders -> vals lower (addedHeaders h) = [].
Proof.
  intros Hc Hl Hin. unfold CheckRequestHeader, checkHeader in Hc. apply checkEntries_ok in Hc.
  rewrite Forall_forall in Hc.
  assert (Hno : forall x, x ∈ addedHeaders h -> EqualFold x.1 lower = false).
  { intros x (name & vs & v & Hlk & _ & ->)%added_in.
    destruct (Hc (name, vs)) as (Hn & Hr & _); [by apply elem_of_map_to_list|]. cbn [fst] in *.
    rewrite validToken_spec in Hn. apply andb_true_iff in Hn as [_ Hn].
    unfold CanonicalMIMEHeaderKey at 1. change validHeaderFieldByte with fastTokenByte. rewrite Hn.
    rewrite EqualFold_ascii by by apply tokens_ascii, canonical_tokens.
    apply bool_decide_eq_false. rewrite canonical_lower. intros E. apply Hr.
    apply Canonical_fold in E; [|done..]. by rewrite E. }
  unfold vals. induction (addedHeaders h) as [|x xs IH]; [done|]. cbn. rewrite Hno by left.
  apply IH. intros y Hy. apply Hno. by right.
Qed.

(** A value that is written and read back unchanged. *)
Definition tight (v : gostring) : Prop := forallb valueByte v = true /\ fastTrimOWS v = v.

Lemma tight_intro v :
  forallb valueByte v = true -> (forall c, head v = Some c -> isOWS c = false) ->
  (forall c, last v = Some c -> isOWS c = false) -> tight v.
Proof. intros. split; [done|]. by apply fastTrimOWS_id. Qed.

Lemma solid_tight v : Forall (fun c => 32 < c < 127) v -> tight v.
Proof.
  intros Hv. assert (Hs : forall c, 32 < c < 127 -> valueByte c = true /\ isOWS c = false).
  { intros c Hc. unfold valueByte, isOWS. split; zsplit; try done; lia. }
  apply tight_intro.
  - induction Hv; cbn; [done|]. by rewrite (proj1 (Hs _ H)).
  - intros c Hc. destruct v; [done|]. injection Hc as <-. inversion Hv; subst. by apply Hs.
  - intros c Hc%last_Some_elem_of. rewrite Forall_forall in Hv. by apply Hs, Hv.
Qed.

Lemma tight_sp v : tight v -> fastTrimOWS (32 :: v) = v.
Proof. intros [_ H]. by rewrite fastTrimOWS_sp. Qed.

Lemma tight_TrimSpace v : tight v -> TrimSpace v = v.
Proof. intros [Hb Ht]. by rewrite TrimSpace_OWS. Qed.

Lemma token_solid p : validToken p = true -> p <> [] /\ Forall (fun c => 32 < c < 127 /\ c <> 58 /\ c <> 44) p.
Proof.
  rewrite validToken_spec. intros [Hne%negb_true_iff%bool_decide_eq_false Hp]%andb_true_iff.
  split; [done|]. eapply forallb_Forall, Hp. apply fastTokenByte_range.
Qed.

Lemma token_tight p : validToken p = true -> tight p.
Proof. intros [_ Hp]%token_solid. apply solid_tight. eapply Forall_impl; [done|]. naive_solver. Qed.

Lemma nonOWS_token c : 32 < c < 127 -> isOWS c = false.
Proof. unfold isOWS. zsplit; try done; lia. Qed.

Lemma last_app_nonnil {A} (l k : list A) : k <> [] -> last (l ++ k) = last k.
Proof. intros Hk. destruct k as [|x k _] using rev_ind; [done|]. by rewrite (assoc_L (++)), !last_snoc. Qed.

Definition join (ps : list gostring) : gostring := Join ps (lit ", ").

Lemma join_cons p q ps : join (p :: q :: ps) = p ++ 44 :: 32 :: join (q :: ps).
Proof. done. Qed.

Lemma join_nonnil p ps : validToken p = true -> join (p :: ps) <> [].
Proof. intros [Hp _]%token_solid. destruct ps; [done|]. rewrite join_cons. by destruct p. Qed.

Lemma join_tight ps : Forall (fun p => validToken p = true) ps -> tight (join ps).
Proof.
  intros Hps. apply tight_intro.
  - induction Hps as [|p ps Hp _ IH]; [done|]. destruct (token_tight p Hp) as [Hb _].
    destruct ps as [|q ps]; [done|]. rewrite join_cons, forallb_app, Hb. cbn [forallb]. by rewrite IH.
  - intros c Hc. destruct Hps as [|p ps Hp _]; [done|]. destruct (token_solid p Hp) as [Hne Hs].
    destruct p as [|x p]; [done|]. inversion Hs as [|? ? Hx]; subst.
    assert (Some x = Some c) as [= <-] by (destruct ps; done). apply nonOWS_token. lia.
  - induction Hps as [|p ps Hp Hr IH]; [done|]. destruct (token_solid p Hp) as [Hne Hs].
    destruct ps as [|q ps].
    + intros c Hc%last_Some_elem_of. rewrite Forall_forall in Hs. apply nonOWS_token. by destruct (Hs c Hc).
    + inversion Hr; subst. intros c. rewrite join_cons, last_app_nonnil by done.
      change (44 :: 32 :: join (q :: ps)) with ([44; 32] ++ join (q :: ps)).
      rewrite last_app_nonnil by by apply join_nonnil. apply IH.
Qed.

Lemma tokens_loop_join ps : forall acc,
  Forall (fun p => validToken p = true) ps -> ps <> [] ->
  tokens_loop (Split (join ps) 44) acc = inr (acc ++ ps) /\
  tokens_loop (Split (32 :: join ps) 44) acc = inr (acc ++ ps).
Proof.
  induction ps as [|p ps IH]; intros acc Hps Hne; [done|]. inversion Hps as [|? ? Hp Hr]; subst.
  destruct (token_solid p Hp) as [Hpne Hs].
  assert (Hc : Forall (fun c => c <> 44) p) by (eapply Forall_impl; [done|naive_solver]).
  assert (Hc' : Forall (fun c => c <> 44) (32 :: p)) by by constructor.
  assert (Hstep : forall raw rest, TrimSpace raw = p -> tokens_loop (raw :: rest) acc = tokens_loop rest (acc ++ [p])).
  { intros raw rest E. cbn [tokens_loop]. rewrite E, bool_decide_false by done. by rewrite Hp. }
  assert (Ht : TrimSpace p = p) by by apply tight_TrimSpace, token_tight.
  assert (Ht' : TrimSpace (32 :: p) = p).
  { rewrite TrimSpace_OWS by (cbn; apply (token_tight p Hp)). by apply tight_sp, token_tight. }
  destruct ps as [|q ps].
  - unfold join. cbn [Join]. rewrite !Split_none by done. by rewrite !Hstep.
  - rewrite join_cons. change (32 :: p ++ 44 :: 32 :: join (q :: ps)) with ((32 :: p) ++ 44 :: 32 :: join (q :: ps)).
    rewrite !Split_app by done. rewrite !Hstep by done.
    destruct (IH (acc ++ [p]) Hr ltac:(done)) as [_ ->]. by rewrite <- (assoc_L (++)).
Qed.

(** The subprotocols read back from the header they were written to. *)
Lemma parseTokens_join ps :
  Forall (fun p => validToken p = true) ps -> ps <> [] -> parseTokens [join ps] = inr ps.
Proof.
  intros Hps Hne. unfold parseTokens, items_of. cbn [flat_map]. rewrite app_nil_r.
  by apply tokens_loop_join.
Qed.

Definition clientHeaders (host key : gostring) (ps : list gostring) (extensions : gostring) (h : Header)
    : list (gostring * gostring) :=
  [(lit "Host", 32 :: host); (lit "Upgrade", lit " websocket"); (lit "Connection", lit " Upgrade");
   (lit "Sec-WebSocket-Version", lit " 13"); (lit "Sec-WebSocket-Key", 32 :: key)] ++
  (match ps with [] => [] | _ => [(lit "Sec-WebSocket-Protocol", 32 :: join ps)] end) ++
  (if bool_decide (extensions = []) then [] else [(lit "Sec-WebSocket-Extensions", 32 :: extensions)]) ++
  addedHeaders h.

Lemma client_request_block target key ps extensions h request :
  BuildClientRequest (Some target) key ps extensions h = inr request ->
  validKey key = true /\ Forall (fun p => validToken p = true) ps /\
  request = requestBlock (requestTarget target) (clientHeaders (Host target) key ps extensions h).
Proof.
  unfold BuildClientRequest. destruct (_ || _); [done|]. destruct (validKey key); [|done]. cbn [negb].
  destruct (existsb _ ps) eqn:Ep; [done|]. intros E. apply (inj inr) in E as <-. split_and!; [done| |].
  - apply Forall_forall. intros p Hp. apply not_false_is_true. intros E.
    assert (existsb (fun p => negb (validToken p)) ps = true); [|congruence].
    apply existsb_exists. exists p. split; [by apply list_elem_of_In|by rewrite E].
  - rewrite writeHeader_lines. unfold requestBlock, clientHeaders. cbn [app].
    rewrite !headerLines_cons, !headerLines_app. unfold lineOf. cbn [fst snd].
    assert (Hp : forall b, (match ps with
        | [] => b | _ => b ++ lit "Sec-WebSocket-Protocol: " ++ Join ps (lit ", ") ++ crlf end) =
      b ++ headerLines (match ps with [] => [] | _ => [(lit "Sec-WebSocket-Protocol", 32 :: join ps)] end)).
    { intros b. destruct ps; [by rewrite app_nil_r|]. rewrite headerLines_cons. unfold lineOf, join. cbn [fst snd].
      change (headerLines []) with (@nil Z). by rewrite app_nil_r, <- !(assoc_L (++)). }
    assert (He : forall b, (if bool_decide (extensions = []) then b
        else b ++ lit "Sec-WebSocket-Extensions: " ++ extensions ++ crlf) =
      b ++ headerLines (if bool_decide (extensions = []) then [] else [(lit "Sec-WebSocket-Extensions", 32 :: extensions)])).
    { intros b. case_bool_decide; [by rewrite app_nil_r|]. rewrite headerLines_cons. unfold lineOf. cbn [fst snd].
      change (headerLines []) with (@nil Z). by rewrite app_nil_r, <- !(assoc_L (++)). }
    rewrite He, Hp. rewrite <- !(assoc_L (++)). reflexivity.
Qed.

(** The key a client sends is the base64 of sixteen random bytes. *)
Definition nonce_ok (nonce : list Z) : Prop := length nonce = 16%nat /\ Forall is_byte nonce.

Lemma nonce_key nonce :
  nonce_ok nonce -> tight (EncodeToString nonce) /\ validKey (EncodeToString nonce) = true.
Proof.
  intros [Hl Hb]. pose proof (EncodeToString_bytes nonce Hb) as Hk.
  assert (Ht : tight (EncodeToString nonce)).
  { apply solid_tight. eapply Forall_impl; [done|]. naive_solver. }
  split; [done|]. unfold validKey. rewrite tight_TrimSpace by done.
  rewrite base64_roundtrip, Hl by done. by destruct (negb _).
Qed.

Lemma host_tight host : validFastHost host = true -> tight host.
Proof.
  intros [_ Hh]%andb_true_iff. apply solid_tight. eapply forallb_Forall, Hh. intros c Hc.
  assert (Ht : targetByte c = true \/ c = 91 \/ c = 93).
  { unfold hostByte in Hc. unfold targetByte. apply orb_true_iff in Hc as [->|Hc%bool_decide_eq_true]; [by left|].
    assert (Hall : Forall (fun c => targetByte c = true \/ c = 91 \/ c = 93) (lit ".-:[]"))
      by (apply (bool_decide_unpack _); vm_compute; exact I).
    rewrite Forall_forall in Hall. by apply Hall. }
  destruct Ht as [?%targetByte_range|[-> | ->]]; lia.
Qed.

(** What the caller provides for the request to be regular. *)
Record clientInput (target : URL) (nonce : list Z) (extensions : gostring) (h : Header) : Prop := {
  ci_target : validFastTarget (requestTarget target) = true;
  ci_host : validFastHost (Host target) = true;
  ci_nonce : nonce_ok nonce;
  ci_extensions : tight extensions;
  ci_header : CheckRequestHeader h = None;
  ci_printable : printable h;
}.

Lemma constant_header name value :
  name <> [] -> forallb fastTokenByte name = true -> tight value -> regularHeader (name, 32 :: value).
Proof. intros Hn Ht [Hv _]. split_and!; [done..|]. cbn [snd forallb]. by rewrite Hv. Qed.

Section request.
Context (target : URL) (nonce : list Z) (ps : list gostring) (extensions : gostring) (h : Header).
Hypothesis (Hin : clientInput target nonce extensions h).
Hypothesis (Hps : Forall (fun p => validToken p = true) ps).

Let key : gostring := EncodeToString nonce.
Let hs : list (gostring * gostring) := clientHeaders (Host target) key ps extensions h.

Lemma client_regular : Forall regularHeader hs.
Proof.
  destruct Hin as [_ Hh Hn He Hc Hp]. unfold hs, clientHeaders. cbn [app].
  apply regular_cons; [apply constant_header; [done|done|exact (host_tight _ Hh)]|].
  do 3 (apply regular_cons; [split_and!; [done|vm_compute; reflexivity|vm_compute; reflexivity]|]).
  apply regular_cons; [apply constant_header; [done|done|exact (proj1 (nonce_key _ Hn))]|].
  repeat apply Forall_app_2; [| |by apply added_regular].
  - destruct ps as [|p q] eqn:E; [done|]. rewrite <- E. apply regular_cons; [|done].
    apply constant_header; try done. rewrite E. by apply join_tight.
  - case_bool_decide; [done|]. apply regular_cons; [|done]. by apply constant_header.
Qed.

(** The values read from the request for a name the upgrade is made of. *)
Lemma client_vals lower :
  forallb fastTokenByte lower = true -> CanonicalMIMEHeaderKey lower ∈ reservedRequestHeaders ->
  vals lower hs = vals lower (clientHeaders (Host target) key ps extensions ∅).
Proof.
  destruct Hin as [_ _ _ _ Hc _]. intros Hl Hr. unfold hs, clientHeaders. rewrite !vals_app.
  by rewrite (added_absent h).
Qed.

Lemma client_vals_all :
  vals fastHeaderHost hs = [Host target] /\ vals fastHeaderUpgrade hs = [lit "websocket"] /\
  vals fastHeaderConnection hs = [lit "Upgrade"] /\ vals fastHeaderVersion hs = [lit "13"] /\
  vals fastHeaderKey hs = [key] /\
  vals fastHeaderProtocol hs = (match ps with [] => [] | _ => [join ps] end) /\
  vals fastHeaderExtensions hs = (if bool_decide (extensions = []) then [] else [extensions]) /\
  vals fastHeaderContentLength hs = [] /\ vals fastHeaderTransferEncode hs = [] /\ vals fastHeaderExpect hs = [].
Proof.
  destruct Hin as [_ Hh Hn He _ _].
  pose proof (tight_sp _ (host_tight _ Hh)) as Ehost. pose proof (tight_sp _ (proj1 (nonce_key _ Hn))) as Ekey.
  pose proof (tight_sp _ He) as Eext. pose proof (tight_sp _ (join_tight ps Hps)) as Ejoin. fold key in Ekey.
  rewrite !client_vals by (vm_compute; done || set_solver). unfold clientHeaders.
  cbn [app]. rewrite !vals_cons, !vals_app. cbn [fst snd]. fold_const. rewrite Ehost, Ekey.
  destruct ps as [|p q]; case_bool_decide; rewrite ?vals_cons; cbn [fst snd]; fold_const;
    rewrite ?Eext, ?Ejoin; split_and!; done.
Qed.

Lemma client_unremarkable : unremarkable hs.
Proof.
  destruct client_vals_all as (E1 & _ & _ & _ & _ & _ & _ & E8 & E9 & E10).
  unfold unremarkable. rewrite E1, E8, E9, E10. destruct Hin as [_ Hh _ _ _ _].
  split_and!; try done; cbn; try lia; by repeat constructor.
Qed.

Lemma client_upgrade : upgrade hs.
Proof.
  destruct client_vals_all as (E1 & E2 & E3 & E4 & E5 & _). unfold upgrade. rewrite E1, E2, E3, E4, E5.
  split_and!; try done. exists key. split; [done|]. destruct Hin as [_ _ Hn _ _ _]. by apply nonce_key.
Qed.

(** The server reads the client's request as it was meant, and leaves what
    follows it. *)
Lemma server_reads_request `{!NetHTTP} max early :
  let request := requestBlock (requestTarget target) hs in
  Z.of_nat (length request) <= (if max <=? 0 then DefaultMaxBytes else max) ->
  ParseServerRequest (request ++ early) (MkServerOptions max None) =
  inr (MkRequest None key ps (if bool_decide (extensions = []) then [] else [extensions]) request, length request).
Proof.
  intros request Hlen. unfold ParseServerRequest. cbn [MaxHeaderBytes].
  pose proof client_regular as Hr. pose proof (ci_target _ _ _ _ Hin) as Ht.
  assert (Hne : hs <> []) by done.
  assert (Hcr : Forall (fun c => c <> CR) (fastRequestMethod ++ requestTarget target ++ fastRequestProto)).
  { rewrite !Forall_app. split_and!; try (by apply (bool_decide_unpack _); vm_compute).
    apply andb_true_iff in Ht as [_ Ht]. eapply forallb_Forall, Ht. intros c ?%targetByte_range. unfold CR. lia. }
  assert (Hge : (4 <= length request)%nat) by (unfold request, requestBlock; rewrite !length_app; cbn; lia).
  unfold request, requestBlock at 1. rewrite IndexBlank_block by done. fold (requestBlock (requestTarget target) hs).
  fold request. replace (length request - 4 + 4)%nat with (length request) by lia.
  destruct (Z.ltb_spec (if max <=? 0 then DefaultMaxBytes else max) (Z.of_nat (length request))); [lia|].
  rewrite take_app_length. destruct client_vals_all as (_ & _ & _ & _ & E5 & E6 & E7 & _).
  unfold request. rewrite (fast_accepts _ hs key ps) ; try done.
  - by rewrite E7.
  - apply client_unremarkable.
  - apply client_upgrade.
  - rewrite E6. destruct ps as [|p q] eqn:E; [done|]. by apply parseTokens_join.
Qed.
End request.

(** ** The server's response *)

Lemma copy_at_fits a n src :
  (n + length src <= length a)%nat ->
  copy_at a n src = (take n a ++ src ++ drop (n + length src) a, length src).
Proof. intros Hl. unfold copy_at. by rewrite (take_ge src) by lia. Qed.

Lemma be32_bytes x : Forall is_byte (be32 x).
Proof. unfold be32. repeat constructor; apply Z.mod_pos_bound; lia. Qed.

Lemma sha1_bytes m : Forall is_byte (sha1_Sum m).
Proof.
  unfold sha1_Sum. destruct (sha1_blocks _ _ _) as [[[[a b] c] d] e].
  repeat apply Forall_app_2; apply be32_bytes.
Qed.

Lemma appendBase64SHA1_spec dst sum :
  length sum = 20%nat -> appendBase64SHA1 dst sum = dst ++ EncodeToString sum.
Proof.
  intros Hl. unfold appendBase64SHA1. f_equal.
  assert (Hlen : length (EncodeToString sum) = 28%nat) by (rewrite EncodeToString_length, Hl; reflexivity).
  rewrite copy_at_fits by (rewrite length_replicate, Hlen; unfold sha1Base64Size; lia). cbn [fst].
  rewrite Hlen. change (drop (0 + 28) (replicate sha1Base64Size 0)) with (@nil Z). by rewrite app_nil_r.
Qed.

(** However the challenge is put together, the answer is the base64 of the
    SHA-1 of the key and the GUID. *)
Lemma appendAcceptKey_spec dst key :
  appendAcceptKey dst key = dst ++ EncodeToString (sha1_Sum (key ++ webSocketGUID)).
Proof.
  unfold appendAcceptKey. destruct (Nat.ltb_spec 64 (length key + length webSocketGUID)) as [|Hle].
  { by rewrite appendBase64SHA1_spec by apply sha1_Sum_length. }
  assert (Hg : length webSocketGUID = 36%nat) by reflexivity. rewrite Hg in Hle.
  rewrite copy_at_fits by (rewrite length_replicate; lia). cbn [firstn app Nat.add].
  rewrite copy_at_fits by (rewrite !length_app, length_drop, length_replicate, Hg; lia).
  rewrite appendBase64SHA1_spec by apply sha1_Sum_length. rewrite take_0, app_nil_l, take_app_length. do 3 f_equal.
  rewrite (assoc_L (++)), take_app_length'; [done|]. rewrite length_app. lia.
Qed.

Lemma acceptKey_tight key : tight (acceptKey key) /\ length (acceptKey key) = 28%nat.
Proof.
  unfold acceptKey. rewrite appendAcceptKey_spec. cbn [app]. split.
  - apply solid_tight. eapply Forall_impl; [apply EncodeToString_bytes, sha1_bytes|]. naive_solver.
  - by rewrite EncodeToString_length, sha1_Sum_length.
Qed.

Definition serverHeaders (key protocol extensions : gostring) : list (gostring * gostring) :=
  [(lit "Upgrade", lit " websocket"); (lit "Connection", lit " Upgrade");
   (lit "Sec-WebSocket-Accept", 32 :: acceptKey key)] ++
  (if bool_decide (protocol = []) then [] else [(lit "Sec-WebSocket-Protocol", 32 :: protocol)]) ++
  (if bool_decide (extensions = []) then [] else [(lit "Sec-WebSocket-Extensions", 32 :: extensions)]).

Lemma optional_line b name value :
  (if bool_decide (value = []) then b else b ++ (name ++ [58; 32]) ++ value ++ crlf) =
  b ++ headerLines (if bool_decide (value = []) then [] else [(name, 32 :: value)]).
Proof.
  case_bool_decide; [by rewrite app_nil_r|]. rewrite headerLines_cons. unfold lineOf. cbn [fst snd].
  change (headerLines []) with (@nil Z). by rewrite app_nil_r, <- !(assoc_L (++)).
Qed.

Lemma server_response_block req protocol extensions :
  AppendServerResponse [] req protocol extensions =
  responseBlock 101 (lit "Switching Protocols") (serverHeaders (Key req) protocol extensions).
Proof.
  unfold AppendServerResponse. rewrite appendAcceptKey_spec.
  change (EncodeToString (sha1_Sum (Key req ++ webSocketGUID))) with ([] ++ EncodeToString (sha1_Sum (Key req ++ webSocketGUID))).
  rewrite <- appendAcceptKey_spec. fold (acceptKey (Key req)).
  change (lit "Sec-WebSocket-Protocol: ") with (lit "Sec-WebSocket-Protocol" ++ [58; 32]).
  change (lit "Sec-WebSocket-Extensions: ") with (lit "Sec-WebSocket-Extensions" ++ [58; 32]).
  rewrite !optional_line. unfold responseBlock, serverHeaders. cbn [app].
  rewrite !headerLines_cons, !headerLines_app. unfold lineOf. cbn [fst snd].
  rewrite <- !(assoc_L (++)). reflexivity.
Qed.

(** ServerResponseSize is exact. *)
Lemma server_response_size dst req protocol extensions :
  length (AppendServerResponse dst req protocol extensions) =
  (length dst + ServerResponseSize protocol extensions)%nat.
Proof.
  unfold AppendServerResponse, ServerResponseSize. rewrite appendAcceptKey_spec.
  assert (Hk : length (EncodeToString (sha1_Sum (Key req ++ webSocketGUID))) = sha1Base64Size)
    by by rewrite EncodeToString_length, sha1_Sum_length.
  repeat case_bool_decide; rewrite !length_app, Hk; unfold baseServerResponseSize; rewrite !length_app; lia.
Qed.

Section response.
Context (key protocol extensions : gostring).
Hypothesis (Hprotocol : protocol = [] \/ validToken protocol = true).
Hypothesis (Hextensions : tight extensions).

Let hs : list (gostring * gostring) := serverHeaders key protocol extensions.

Lemma protocol_tight : tight protocol.
Proof. destruct Hprotocol as [->|?]; [by apply solid_tight|by apply token_tight]. Qed.

Lemma response_regular : Forall regularHeader hs.
Proof.
  unfold hs, serverHeaders. cbn [app].
  do 2 (apply regular_cons; [split_and!; [done|vm_compute; reflexivity|vm_compute; reflexivity]|]).
  apply regular_cons; [apply constant_header; [done|done|apply acceptKey_tight]|].
  apply Forall_app_2; case_bool_decide; try done; (apply regular_cons; [|done]); apply constant_header; try done.
  apply protocol_tight.
Qed.

Lemma response_vals :
  vals fastHeaderUpgrade hs = [lit "websocket"] /\ vals fastHeaderConnection hs = [lit "Upgrade"] /\
  vals (lit "sec-websocket-accept") hs = [acceptKey key] /\
  vals fastHeaderProtocol hs = (if bool_decide (protocol = []) then [] else [protocol]) /\
  vals fastHeaderExtensions hs = (if bool_decide (extensions = []) then [] else [extensions]) /\
  vals fastHeaderTransferEncode hs = [] /\ vals fastHeaderContentLength hs = [].
Proof.
  pose proof (tight_sp _ protocol_tight) as Ep. pose proof (tight_sp _ Hextensions) as Ee.
  pose proof (tight_sp _ (proj1 (acceptKey_tight key))) as Ek.
  unfold hs, serverHeaders. cbn [app]. rewrite !vals_cons, !vals_app. cbn [fst snd]. fold_const. rewrite Ek.
  repeat case_bool_decide; rewrite ?vals_cons; cbn [fst snd]; fold_const; rewrite ?Ep, ?Ee; split_and!; done.
Qed.

(** The client accepts it and reads back the subprotocol and the extensions. *)
Lemma client_reads_response `{!NetHTTP, !NetHTTPLaws} protocols max late :
  let response := responseBlock 101 (lit "Switching Protocols") hs in
  Z.of_nat (length response) <= responseLimit [max] -> (protocol = [] \/ protocol ∈ protocols) ->
  ValidateClientResponse (response ++ late) key protocols [max] =
  inr (length response, protocol, if bool_decide (extensions = []) then [] else [extensions]).
Proof.
  intros response Hlen Hin. unfold ValidateClientResponse. pose proof response_regular as Hr.
  assert (Hne : hs <> []) by done.
  assert (Hge : (4 <= length response)%nat) by (unfold response, responseBlock; rewrite !length_app; cbn; lia).
  unfold response, responseBlock at 1. rewrite IndexBlank_block; [| |done|done].
  2: { apply (bool_decide_unpack _). vm_compute. exact I. }
  fold (responseBlock 101 (lit "Switching Protocols") hs). fold response.
  replace (length response - 4 + 4)%nat with (length response) by lia.
  destruct (Z.ltb_spec (responseLimit [max]) (Z.of_nat (length response))); [lia|].
  rewrite take_app_length. destruct response_vals as (E1 & E2 & E3 & E4 & E5 & E6 & E7).
  destruct (ReadResponse_regular 101 (lit "Switching Protocols") hs) as (resp & Hread & Hst & _ & Hv);
    [lia|done|done|done|rewrite E7; cbn; lia|rewrite E7; set_solver|].
  unfold response at 1. rewrite Hread, Hst. cbn [negb Z.eqb Pos.eqb]. rewrite Forall_forall in Hv.
  assert (Hvals : forall name lower, name ∈ responseNames -> forallb fastTokenByte name = true ->
    map lowerByte name = map lowerByte lower -> Values (resp_Header resp) name = vals lower hs).
  { intros name lower Hi Hn Hl. rewrite Hv by done. by apply given_vals. }
  rewrite (Hvals _ (lit "sec-websocket-accept")), E3 by (vm_compute; set_solver || reflexivity).
  rewrite (has_token_given _ _ fastHeaderUpgrade _ hs), E1 by (try done; apply Hv; vm_compute; set_solver).
  rewrite (has_token_given _ _ fastHeaderConnection _ hs), E2 by (try done; apply Hv; vm_compute; set_solver).
  rewrite tight_TrimSpace by apply acceptKey_tight. rewrite bool_decide_true by done.
  change (existsb (fun v => fastValueHasToken v (lit "websocket")) [lit "websocket"]) with true.
  change (existsb (fun v => fastValueHasToken v (lit "upgrade")) [lit "Upgrade"]) with true. cbn [negb orb].
  rewrite (Hvals _ fastHeaderProtocol), E4 by (vm_compute; set_solver || reflexivity).
  rewrite (Hvals _ fastHeaderExtensions), E5 by (vm_compute; set_solver || reflexivity).
  destruct (bool_decide_reflect (protocol = [])) as [->|Hp]; [done|].
  rewrite tight_TrimSpace by apply protocol_tight. rewrite bool_decide_false by done. cbn [negb andb].
  destruct Hin as [?|Hin]; [done|].
  assert (contains protocols protocol = true) as ->; [|done].
  apply existsb_exists. exists protocol. split; [by apply list_elem_of_In|]. by apply bool_decide_eq_true.
Qed.
End response.

(** ** Agreement *)

Lemma SelectSubprotocol_spec offered supported :
  let p := SelectSubprotocol offered supported in
  p = [] \/ validToken p = true /\ p ∈ offered /\ p ∈ supported.
Proof.
  cbv zeta. induction supported as [|want supported IH]; [by left|]. cbn [SelectSubprotocol].
  destruct (validToken want && contains offered want) eqn:E.
  - right. apply andb_true_iff in E as [Hv Hc]. split_and!; [done| |left].
    apply existsb_exists in Hc as (x & Hx & ->%bool_decide_eq_true). by apply list_elem_of_In.
  - destruct IH as [->|(? & ? & ?)]; [by left|]. right. split_and!; try done. by right.
Qed.

(** The offers a client makes and the answers a server gives, for every choice
    of compression and of keeping the context on either side. *)
Definition agreed `{LowerTable} (cen cctx sen sctx : bool) : bool :=
  let offer := clientExtensions (MkConfig 0 cen 0 cctx [] None) in
  match NegotiateServerWithPolicy (if bool_decide (offer = []) then [] else [offer]) sen (negb sctx) with
  | inl _ => false
  | inr (p, r) =>
      bool_decide (NegotiateClient (if bool_decide (r = []) then [] else [r]) cen = inr p) &&
      forallb valueByte r && bool_decide (fastTrimOWS r = r) &&
      eqb (Enabled p) (cen && sen) &&
      (negb (Enabled p) || (eqb (ServerNoContextTakeover p) (negb (cctx && sctx)) &&
                            eqb (ClientNoContextTakeover p) (negb (cctx && sctx))))
  end.

Lemma agreed_always `{LowerTable} cen cctx sen sctx : agreed cen cctx sen sctx = true.
Proof. destruct cen, cctx, sen, sctx; vm_compute; reflexivity. Qed.

Lemma negotiated `{LowerTable} (client server : connConfig) :
  exists p r,
    NegotiateServerWithPolicy
      (if bool_decide (clientExtensions client = []) then [] else [clientExtensions client])
      (compressionEnabled server) (negb (compressionContextTakeover server)) = inr (p, r) /\
    NegotiateClient (if bool_decide (r = []) then [] else [r]) (compressionEnabled client) = inr p /\ tight r /\
    Enabled p = compressionEnabled client && compressionEnabled server /\
    (Enabled p = true ->
      ServerNoContextTakeover p = negb (compressionContextTakeover client && compressionContextTakeover server) /\
      ClientNoContextTakeover p = negb (compressionContextTakeover client && compressionContextTakeover server)).
Proof.
  pose proof (agreed_always (compressionEnabled client) (compressionContextTakeover client)
    (compressionEnabled server) (compressionContextTakeover server)) as Ha. unfold agreed in Ha.
  change (clientExtensions (MkConfig 0 (compressionEnabled client) 0 (compressionContextTakeover client) [] None))
    with (clientExtensions client) in Ha.
  destruct (NegotiateServerWithPolicy _ _ _) as [|[p r]]; [done|].
  apply andb_true_iff in Ha as [Ha Hctx]. apply andb_true_iff in Ha as [Ha Hen%eqb_prop].
  apply andb_true_iff in Ha as [Ha Ht%bool_decide_eq_true]. apply andb_true_iff in Ha as [Hc%bool_decide_eq_true Hb].
  exists p, r. split_and!; try done. intros He. rewrite He in Hctx. cbn [negb orb] in Hctx.
  apply andb_true_iff in Hctx as [?%eqb_prop ?%eqb_prop]. done.
Qed.

Lemma clientExtensions_tight config : tight (clientExtensions config).
Proof.
  unfold clientExtensions. destruct (compressionEnabled config), (compressionContextTakeover config);
    (split; vm_compute; reflexivity).
Qed.


Definition exampleClient : connConfig := MkConfig 0 true 1 true [lit "chat"; lit "superchat"] None.
Definition exampleServer : connConfig := MkConfig 0 true 6 false [lit "graphql"; lit "superchat"] None.
Definition exampleURL : URL := MkURL (lit "ws") (lit "example.com:8080") (lit "/ws") (lit "room=1").
Definition exampleNonce : list Z := lit "the sample nonce".
Definition exampleHeader : Header := {[lit "user-agent" := [lit "uws"]]}.
Definition exampleRequest : gostring :=
  match BuildClientRequest (Some exampleURL) (EncodeToString exampleNonce) (subprotocols exampleClient)
          (clientExtensions exampleClient) exampleHeader with
  | inr request => request
  | inl _ => []
  end.

