(* ===== verification/WsRead.v ===== *)
(** * The WebSocket connection's read path (src/uws/protocol.go, callback.go)

    From a chunk of inbound bytes to the callbacks: the fused path for the
    frames a server reads most, the generic parse, the incremental parser for a
    frame that spans chunks, the message rules and control frames.

    What a connection does besides reading (its write side, its close, its
    heartbeat, the application's handler) is an interface, [ConnEnv]: a state of
    its own with the operations the read path calls and the flags it looks at. *)

From S2P Require Import Prelude.
From S2P Require Import Endian Utf8 WsMask WsFrame WsAssembler.
Local Open Scope Z_scope.

(** The errors callbacks and the round return besides the codec's. *)
Definition ErrClosed : ws_error := ErrSink 1.
Definition errReadPaused : ws_error := ErrSink 2.
Definition errReadBudget : ws_error := ErrSink 3.
Definition ErrBackpressure : ws_error := ErrSink 4.

(** MessageType. *)
Inductive MessageType : Type := TextMessage | BinaryMessage.

Definition messageType (op : OpCode) : MessageType := if op =? Text then TextMessage else BinaryMessage.

Class ConnEnv (T : Type) : Type := {
  closed : T -> bool;
  closing : T -> bool;
  readPaused : T -> bool;
  hasHeartbeat : T -> bool;
  hasDecoder : T -> bool;
  beginWriteBatch : T -> T;
  OnMessage : MessageType -> list Z -> T -> T;
  sendPong : list Z -> T -> option ws_error * T;
  sendCloseFrame : list Z -> T -> option ws_error * T;
  closeTransport : T -> option ws_error * T;
  setCloseReason : Z -> list Z -> T -> T;
  acknowledgePing : Z -> T -> T;
  noteParsed : T -> T;                                    (* heartbeat.parsed.Add(1) *)
  Decode : list Z -> Z -> T -> (ws_error + list Z) * T;   (* the decoder, up to a size *)
}.

(** The fields of connConfig the read path uses. *)
Record readConfig : Type := MkReadConfig {
  client : bool;
  parser : ParserConfig;
  assembler : AssemblerConfig;
  maxFramesPerDataEvent : Z;
}.

(** withinMessageLimits: either limit is unlimited at zero. *)
Definition withinMessageLimits (config : readConfig) (limit : Z) : Z :=
  if limit <? 0 then -1
  else
    fold_left (fun limit bound => if negb (bound =? 0) && (bound <? limit) then bound else limit)
      [MaxFramePayload (parser config); MaxMessage (assembler config)] limit.

Definition bufferedPayloadLimit (threshold maxPayload : Z) : Z :=
  let limit := Z.min (threshold - 5) maxPayload in
  if 126 <=? limit then limit
  else Z.max (-1) (Z.min (Z.min (threshold - 3) 125) maxPayload).

(** settleShortLimits: shortSendLimit, shortSendDirect and shortReadLimit. *)
Definition settleShortLimits (config : readConfig) (writeBufferedThreshold : Z) : Z * Z * Z :=
  if client config then (-1, -1, -1)
  else (withinMessageLimits config (bufferedPayloadLimit writeBufferedThreshold 125),
        withinMessageLimits config (bufferedPayloadLimit writeBufferedThreshold 65535),
        withinMessageLimits config 125).

Definition shortReadLimit (config : readConfig) : Z := (settleShortLimits config 0).2.

Definition minFramesPerDataEvent : Z := 1024.
Definition DefaultMaxMessageSize : Z := Z.shiftl 64 20.

(** ** unmaskShort *)

(** The last bytes, with the key shifted along. *)
Fixpoint short_tail (key : Z) (payload : list Z) (seen : Z) : list Z * Z :=
  match payload with
  | [] => ([], seen)
  | x :: payload =>
      let b := Z.lxor x (Z.land key 255) in
      let '(out, seen) := short_tail (Z.shiftr key 8) payload (Z.lor seen b) in
      (b :: out, seen)
  end.

(** Whether the result is ASCII, and the result.  The loop over eight bytes is
    UnmaskASCII's over one word. *)
Definition unmaskShort (payload : list Z) (key : Z) : bool * list Z :=
  let key64 := double_key key in
  let '(d8, payload, seen) := ascii_loop 1 (length payload) key64 payload 0 in
  let '(d4, payload, seen) :=
    if (4 <=? length payload)%nat then
      let word := Z.lxor (le_val (take 4 payload)) key in
      (le_bytes 4 word, drop 4 payload, Z.lor seen word)
    else ([], payload, seen) in
  let '(tail, seen) := short_tail key payload seen in
  (Z.land seen high_bits =? 0, d8 ++ d4 ++ tail).

Section read.
Context `{Vector} {T : Type} `{ConnEnv T}.
Context (config : readConfig).

Record conn : Type := MkConn {
  c_parser : option Parser;
  c_assembler : option Assembler;
  readFrames : Z;
  env : T;
}.

Definition upd_env (g : T -> T) (c : conn) : conn :=
  MkConn (c_parser c) (c_assembler c) (readFrames c) (g (env c)).
Definition with_parser (p : option Parser) (c : conn) : conn :=
  MkConn p (c_assembler c) (readFrames c) (env c).

Definition maxMessageSizeInt : Z :=
  let maxMessage := if MaxMessage (assembler config) =? 0 then DefaultMaxMessageSize else MaxMessage (assembler config) in
  if maxInt <? maxMessage then maxInt else maxMessage.

Definition notifyMessage (op : OpCode) (payload : list Z) (t : T) : option ws_error * T :=
  if closed t then (Some ErrClosed, t)
  else if closing t then (None, t)
  else (None, OnMessage (messageType op) payload t).

Definition acceptMessage (m : Message) (t : T) : option ws_error * T :=
  if Compressed m then
    if negb (hasDecoder t) then (Some (ErrProtocol ReservedBits), t)
    else
      match Decode (m_payload m) maxMessageSizeInt t with
      | (inl e, t) => (Some e, t)
      | (inr payload, t) =>
          if (m_opcode m =? Text) && ValidateUTF8 (assembler config) && negb (ValidUTF8 payload)
          then (Some ErrInvalidUTF8, t)
          else notifyMessage (m_opcode m) payload t
      end
  else notifyMessage (m_opcode m) (m_payload m) t.

Definition acceptControl (f : Frame) (t : T) : option ws_error * T :=
  if Opcode f =? Ping then
    match sendPong (Payload f) t with
    | (Some e, t) => if bool_decide (e = ErrBackpressure) || bool_decide (e = ErrClosed) then (None, t) else (Some e, t)
    | (None, t) => (None, t)
    end
  else if Opcode f =? Pong then
    (None, if hasHeartbeat t && (length (Payload f) =? 8)%nat then acknowledgePing (be_val (Payload f)) t else t)
  else if Opcode f =? CloseOp then
    let t := setCloseReason (CloseCode (Payload f)) (drop 2 (Payload f)) t in
    match sendCloseFrame (Payload f) t with
    | (Some e, t) => if bool_decide (e = ErrClosed) then closeTransport t else (Some e, t)
    | (None, t) => closeTransport t
    end
  else (Some (ErrProtocol ReservedBits), t).

(** acceptFrame without its first check: a complete message or a control frame
    goes past the assembler, anything else through it. *)
Definition acceptOpen (f : Frame) (c : conn) : option ws_error * conn :=
  let cfg := assembler config in
  let keep (r : option ws_error * T) := (r.1, MkConn (c_parser c) (c_assembler c) (readFrames c) r.2) in
  match c_assembler c with
  | None =>
      if Fin f && negb (RSV1 f) && ((Opcode f =? Binary) || (Opcode f =? Text)) then
        if negb (MaxMessage cfg =? 0) && (MaxMessage cfg <? Z.of_nat (length (Payload f))) then (Some ErrMessageTooBig, c)
        else if (Opcode f =? Text) && ValidateUTF8 cfg && negb (ValidUTF8 (Payload f)) then (Some ErrInvalidUTF8, c)
        else keep (notifyMessage (Opcode f) (Payload f) (env c))
      else if IsControl (Opcode f) || (((Opcode f =? Text) || (Opcode f =? Binary)) && Fin f) then
        keep (AcceptSingle (Some acceptControl) (Some acceptMessage) f (Some cfg) (env c))
      else
        let '(e, a, t) := Accept (Some acceptControl) (Some acceptMessage) f
                            (AsmInit (Some cfg) (MkAssembler None false 0 false [])) (env c) in
        (e, MkConn (c_parser c)
              (match e with Some _ => None | None => if AtMessageBoundary a then None else Some a end) (readFrames c) t)
  | Some a =>
      let '(e, a, t) := Accept (Some acceptControl) (Some acceptMessage) f a (env c) in
      (e, MkConn (c_parser c)
            (match e with Some _ => None | None => if AtMessageBoundary a then None else Some a end) (readFrames c) t)
  end.

Definition acceptFrame (f : Frame) (c : conn) : option ws_error * conn :=
  if closed (env c) then (Some ErrClosed, c) else acceptOpen f c.

Definition frameBudget : Z :=
  if 0 <? maxFramesPerDataEvent config then maxFramesPerDataEvent config else minFramesPerDataEvent.

Definition countFrame (c : conn) : option ws_error * conn :=
  let t := if hasHeartbeat (env c) then noteParsed (env c) else env c in
  let c := MkConn (c_parser c) (c_assembler c) (readFrames c + 1) t in
  if readPaused t then (Some errReadPaused, c)
  else if frameBudget <=? readFrames c then (Some errReadBudget, c)
  else (None, c).

(** connFrameSink.AcceptFrame. *)
Definition AcceptFrame (f : Frame) (c : conn) : option ws_error * conn :=
  match acceptFrame f c with
  | (Some e, c) => (Some e, c)
  | (None, c) => countFrame c
  end.

(** consumeShortFrame: [None] is ok=false, nothing consumed. *)
Definition consumeShortFrame (src : list Z) (limit : Z) (c : conn) : option (nat * option ws_error * conn) :=
  match c_assembler c with
  | Some _ => None
  | None =>
      if (length src <? 6)%nat then None
      else
        let b0 := nth 0 src 0 in
        let b1 := nth 1 src 0 in
        if (1 <? wrap 8 (b0 - Z.lor 128 Text)) || negb (bit 128 b1) then None
        else
          let n7 := Z.ldiff b1 128 in
          let shape :=
            if n7 =? 126 then
              if (limit <? 0) || (length src <? 8)%nat then None
              else
                let n := be_val (take 2 (drop 2 src)) in
                if (n <? 126) ||
                   (negb (MaxFramePayload (parser config) =? 0) && (MaxFramePayload (parser config) <? n)) ||
                   (negb (MaxMessage (assembler config) =? 0) && (MaxMessage (assembler config) <? n))
                then None else Some (4%nat, n)
            else if limit <? n7 then None else Some (2%nat, n7) in
          match shape with
          | None => None
          | Some (head, n) =>
              let size := (head + 4 + Z.to_nat n)%nat in
              if (length src <? size)%nat then None
              else
                let key := take 4 (drop head src) in
                let payload := take (Z.to_nat n) (drop (head + 4) src) in
                let '(ascii, payload) :=
                  if (Z.to_nat n <? vectorUnmaskThreshold)%nat then unmaskShort payload (le_val key)
                  else if b0 =? Z.lor 128 Binary then (false, Unmask payload key)
                  else UnmaskASCII payload key in
                let c := if (size <? length src)%nat then upd_env beginWriteBatch c else c in
                let opcode := Z.land b0 15 in
                if closed (env c) then Some (size, Some ErrClosed, c)
                else if (opcode =? Text) && negb ascii && ValidateUTF8 (assembler config) && negb (ValidUTF8 payload)
                then Some (size, Some ErrInvalidUTF8, c)
                else if closing (env c) then Some (size, None, c)
                else Some (size, None, upd_env (OnMessage (messageType opcode) payload) c)
          end
  end.

(** A frame that is not complete yet moves to an incremental parser, from the
    pool: a parser in its initial state. *)
Definition startParser (data : list Z) (c : conn) : outcome (nat * option ws_error * conn) :=
  '(n, err, p, c) ← FeedTo AcceptFrame data (NewParser (parser config)) (upd_env beginWriteBatch c);
  Ret (n, err, match err with
               | None => if AtFrameBoundary p then c else with_parser (Some p) c
               | Some _ => c
               end).

(** The loop of consumeFrames; [rest] is data[consumed:], each round takes two
    bytes at least. *)
Fixpoint framesLoop (short : bool) (fuel : nat) (rest : list Z) (consumed : nat) (c : conn)
    : outcome (nat * option ws_error * conn) :=
  match rest, fuel with
  | [], _ => Ret (consumed, None, c)
  | _, O => Panic FuelExhausted
  | _, S fuel =>
      match (if short then consumeShortFrame rest (shortReadLimit config) c else None) with
      | Some (size, Some e, c) => Ret ((consumed + size)%nat, Some e, c)
      | Some (size, None, c) =>
          match countFrame c with
          | (Some e, c) => Ret ((consumed + size)%nat, Some e, c)
          | (None, c) => framesLoop short fuel (drop size rest) (consumed + size) c
          end
      | None =>
          match ParseFrame rest (Some (parser config)) with
          | PError e => Ret (consumed, Some e, c)
          | PIncomplete =>
              '(n, err, c) ← startParser rest c; Ret ((consumed + n)%nat, err, c)
          | PFrame f size =>
              let c := if (size <? length rest)%nat then upd_env beginWriteBatch c else c in
              match AcceptFrame f c with
              | (Some e, c) => Ret ((consumed + size)%nat, Some e, c)
              | (None, c) => framesLoop short fuel (drop size rest) (consumed + size) c
              end
          end
      end
  end.

(** consumeFrames; without [short] it is the code without its fused path. *)
Definition consumeWith (short : bool) (data : list Z) (c : conn) : outcome (nat * option ws_error * conn) :=
  if readPaused (env c) then Ret (O, Some errReadPaused, c)
  else
    match c_parser c with
    | None => framesLoop short (length data) data 0 c
    | Some p =>
        '(n, err, p, c) ← FinishFrame AcceptFrame data p (upd_env beginWriteBatch c);
        match err with
        | Some e => Ret (n, Some e, with_parser None c)
        | None =>
            if AtFrameBoundary p
            then framesLoop short (length data) (drop n data) n (with_parser None c)
            else Ret (n, None, with_parser (Some p) c)
        end
    end.
Definition consumeFrames (data : list Z) (c : conn) : outcome (nat * option ws_error * conn) :=
  consumeWith true data c.
End read.

(** ** unmaskShort is Unmask and the ASCII test *)

Lemma short_tail_spec ks : forall payload seen,
  Forall is_byte ks -> Forall is_byte payload -> (length payload <= length ks)%nat ->
  short_tail (le_val ks) payload seen =
  (zip_with Z.lxor payload ks, or_bytes seen (zip_with Z.lxor payload ks)).
Proof.
  induction ks as [|k ks IH]; intros payload seen Hk Hp Hl.
  { destruct payload; [done|simpl in Hl; lia]. }
  destruct payload as [|x payload]; [done|]. inversion Hk; inversion Hp; subst. simpl in Hl.
  cbn [short_tail le_val zip_with]. rewrite low_byte, high_bytes by done. rewrite IH by (done || lia). done.
Qed.

Lemma mask_zip key p : length key = 4%nat -> (length p <= 4)%nat -> mask_bytes key 0 p = zip_with Z.lxor p key.
Proof.
  intros Hk Hp. do 4 (destruct key as [|? key]; [done|]). destruct key; [|done].
  do 4 (destruct p as [|? p]; [done|]). destruct p; [done|simpl in Hp; lia].
Qed.

Lemma high_word4 w : length w = 4%nat -> Forall is_byte w -> (Z.land (le_val w) high_bits = 0 <-> Forall (fun b => b < 128) w).
Proof.
  intros Hl Hw. assert (E : le_val w = le_val (w ++ replicate 4 0)).
  { rewrite le_val_app by done. change (le_val (replicate 4 0)) with 0. by rewrite Z.shiftl_0_l, Z.lor_0_r. }
  rewrite E, high_word.
  - rewrite Forall_app. split; [by intros []|]. split; [done|]. apply (Forall_replicate _ 4 0). lia.
  - rewrite length_app. by rewrite Hl.
  - apply Forall_app_2; [done|]. apply (Forall_replicate _ 4 0). split; lia.
Qed.

Lemma unmaskShort_spec payload key :
  length key = 4%nat -> Forall is_byte key -> Forall is_byte payload ->
  let '(ascii, out) := unmaskShort payload (le_val key) in
  out = mask_bytes key 0 payload /\ (ascii = true <-> Forall (fun b => b < 128) out).
Proof.
  intros Hl Hk Hp. unfold unmaskShort. rewrite double_key_val by done. set (k := key ++ key).
  assert (Hk8 : length k = 8%nat /\ Forall is_byte k) by (unfold k; rewrite length_app, Hl; split; [done|by apply Forall_app_2]).
  destruct (ascii_loop_spec 1 (length payload) k payload 0) as (n & seen & -> & Hn & Hs); [lia|apply Hk8..|done|done|].
  set (p1 := drop (8 * n) payload). assert (Hp1 : Forall is_byte p1) by by apply Forall_drop.
  assert (Hl1 : (length p1 < 8)%nat) by (unfold p1; rewrite length_drop; lia).
  assert (W : mask_words n (le_val k) payload ++ mask_bytes key 0 p1 = mask_bytes key 0 payload).
  { unfold k. rewrite <-double_key_val, <-(rotated_0 key Hl) at 1 by done. apply mask_prefix; done || lia. }
  assert (Hm : forall p, Forall is_byte p -> Forall is_byte (mask_bytes key 0 p)) by (intros; by apply mask_bytes_byte).
  rewrite Z.land_0_l in Hs. rewrite <- W.
  destruct (Nat.leb_spec 4 (length p1)) as [H4|H4].
  - assert (Hw : length (take 4 p1) = 4%nat) by (rewrite length_take; lia).
    destruct (le_bytes_lxor (take 4 p1) key) as (E1 & E2 & E3); [lia|by apply Forall_take|done|]. rewrite Hw in E1.
    assert (E4 : mask_bytes key 0 (take 4 p1) = le_bytes 4 (Z.lxor (le_val (take 4 p1)) (le_val key))).
    { rewrite E1. by rewrite mask_zip by (done || lia). }
    assert (Hd : (length (drop 4 p1) <= 4)%nat) by (rewrite length_drop; lia).
    rewrite short_tail_spec; [|done|by apply Forall_drop|lia].
    rewrite <- (mask_zip key (drop 4 p1)) by done. rewrite <- E4.
    assert (W4 : mask_bytes key 0 (take 4 p1) ++ mask_bytes key 0 (drop 4 p1) = mask_bytes key 0 p1).
    { rewrite <- (take_drop 4 p1) at 3. rewrite mask_bytes_app. f_equal. apply mask_bytes_mod. by rewrite Hw. }
    rewrite W4. split; [done|]. rewrite Forall_app, Z.eqb_eq, or_bytes_high by (by apply Hm, Forall_drop).
    rewrite land_lor_0, Hs. rewrite <- E2, <- E1, <- E4.
    rewrite high_word4; [|by rewrite length_mask_bytes|by apply Hm, Forall_take].
    rewrite <- W4, Forall_app. tauto.
  - rewrite short_tail_spec by (done || lia). rewrite <- (mask_zip key p1) by (done || lia). cbn [app].
    split; [done|]. rewrite Forall_app, Z.eqb_eq, or_bytes_high by by apply Hm. rewrite Hs. tauto.
Qed.

(** ** The fused path is the generic one *)

(** What the two constructors of connConfig guarantee. *)
Record config_ok (config : readConfig) : Prop := {
  ok_mask : client config = false -> ExpectMask (parser config) = true;
  ok_frame : 0 <= MaxFramePayload (parser config);
  ok_message : 0 <= MaxMessage (assembler config);
}.

Lemma shortReadLimit_spec config n :
  config_ok config -> 0 <= n <= shortReadLimit config ->
  client config = false /\ n <= 125 /\
  (MaxFramePayload (parser config) = 0 \/ n <= MaxFramePayload (parser config)) /\
  (MaxMessage (assembler config) = 0 \/ n <= MaxMessage (assembler config)).
Proof.
  intros [_ Hf Hm] Hn. unfold shortReadLimit, settleShortLimits, withinMessageLimits in Hn.
  destruct (client config); [cbn in Hn; lia|]. split; [done|]. cbn [snd] in Hn.
  change (125 <? 0) with false in Hn. cbn [fold_left] in Hn.
  destruct (Z.eqb_spec (MaxFramePayload (parser config)) 0), (Z.eqb_spec (MaxMessage (assembler config)) 0);
    cbn [negb andb] in Hn; destruct (Z.ltb_spec (MaxFramePayload (parser config)) 125);
    repeat match type of Hn with context [?a <? ?b] => destruct (Z.ltb_spec a b) end;
    split_and!; try lia; first [by left | right; lia].
Qed.

Lemma byte_facts b :
  is_byte b ->
  (wrap 8 (b - 129) <= 1 -> b = 129 \/ b = 130) /\ (bit 128 b = true -> Z.ldiff b 128 = Z.land b 127).
Proof.
  intros Hb. assert (Hall : Forall (fun b => (wrap 8 (b - 129) <= 1 -> b = 129 \/ b = 130) /\
    (bit 128 b = true -> Z.ldiff b 128 = Z.land b 127)) (seqZ 0 256)) by (apply (bool_decide_unpack _); vm_compute; exact I).
  rewrite Forall_forall in Hall. apply Hall, elem_of_seqZ. unfold is_uint in Hb. lia.
Qed.

Lemma valid_ascii p : Forall (fun b => 0 <= b < 128) p -> Valid p = true.
Proof.
  unfold Valid. induction 1 as [|b p Hb _ IH]; [done|]. cbn [length valid_fuel].
  assert (E : decode_rune (b :: p) = (b, 1%nat)).
  { cbn [decode_rune]. by rewrite (proj2 (Z.ltb_lt b 128)) by lia. }
  rewrite E, (proj2 (Z.eqb_neq b RuneError)) by (unfold RuneError; lia). cbn [andb skipn]. by rewrite drop_0.
Qed.

Section equivalence.
Context `{Vector} {T : Type} `{ConnEnv T}.
Context (config : readConfig) (Hcfg : config_ok config).

(** The frame of the shape consumeShortFrame takes, as ParseFrame returns it. *)
Lemma parse_short src head n b0 b1 :
  Forall is_byte src -> nth 0 src 0 = b0 -> nth 1 src 0 = b1 -> (b0 = 129 \/ b0 = 130) -> bit 128 b1 = true ->
  client config = false ->
  (Z.land b1 127 = 126 /\ head = 4%nat /\ n = be_val (take 2 (drop 2 src)) /\ 126 <= n \/
   Z.land b1 127 = n /\ head = 2%nat /\ n <= 125) ->
  (MaxFramePayload (parser config) = 0 \/ n <= MaxFramePayload (parser config)) -> n < 65536 ->
  (head + 4 + Z.to_nat n <= length src)%nat ->
  ParseFrame src (Some (parser config)) =
  PFrame (MkFrame true false (Z.land b0 15) true true
            (unmask (take (Z.to_nat n) (drop (head + 4) src)) (take 4 (drop head src)) 0))
    (head + 4 + Z.to_nat n).
Proof.
  intros Hb E0 E1 Hb0 Hb1 Hcl Hshape Hmax Hn Hlen. rewrite ParseFrame_eq.
  destruct (Nat.ltb_spec (length src) 2); [lia|]. rewrite E0, E1.
  assert (Hp : prefix_error (Some (parser config)) b0 b1 = None).
  { unfold prefix_error. rewrite Hb1. cbn [parserExpectMask]. rewrite (ok_mask config Hcfg Hcl).
    destruct Hb0 as [-> | ->]; reflexivity. }
  rewrite Hp.
  assert (Hm : masked_of src = true) by (unfold masked_of; by rewrite E1).
  assert (Hc : code_of src = Z.land b1 127) by (unfold code_of; by rewrite E1).
  assert (Hneed : need_of src = (head + 4)%nat).
  { unfold need_of, headerSizeOf. rewrite Hm, Hc. destruct Hshape as [(-> & -> & _)|(-> & -> & Hn')]; [done|].
    rewrite (proj2 (Z.eqb_neq n 126)), (proj2 (Z.eqb_neq n 127)) by lia. done. }
  assert (Hl : len_of src = n).
  { unfold len_of. rewrite Hc. destruct Hshape as [(-> & _ & -> & _)|(-> & _ & Hn')]; [done|].
    by rewrite (proj2 (Z.eqb_neq n 126)), (proj2 (Z.eqb_neq n 127)) by lia. }
  rewrite Hneed, Hl. destruct (Nat.ltb_spec (length src) (head + 4)); [lia|].
  assert (He : length_error (Some (parser config)) src = None).
  { unfold length_error. rewrite Hl, Hc, Hneed.
    assert (Hh : (head <= 4)%nat) by (destruct Hshape as [(_ & -> & _)|(_ & -> & _)]; lia).
    assert (H127 : Z.land b1 127 <> 127) by (destruct Hshape as [(-> & _)|(-> & _ & ?)]; lia).
    assert (H126 : (Z.land b1 127 =? 126) && (n <? 126) = false).
    { destruct Hshape as [(-> & _ & _ & Hge)|(-> & _ & Hle)].
      - destruct (Z.ltb_spec n 126); [lia|apply andb_false_r].
      - by rewrite (proj2 (Z.eqb_neq n 126)) by lia. }
    rewrite H126, (proj2 (Z.eqb_neq _ 127) H127). cbn [andb parserMaxFramePayload].
    destruct (Z.eqb_spec (MaxFramePayload (parser config)) 0).
    - rewrite (proj2 (Z.ltb_ge maxInt n)), (proj2 (Z.ltb_ge _ n)) by (unfold maxInt; lia). done.
    - rewrite (proj2 (Z.ltb_ge (MaxFramePayload (parser config)) n)), (proj2 (Z.ltb_ge _ n)) by (unfold maxInt; lia). done. }
  rewrite He. destruct (Nat.ltb_spec (length src) (head + 4 + Z.to_nat n)); [lia|]. cbv zeta.
  rewrite Hm. assert (Hk : key_of src = take 4 (drop head src)).
  { unfold key_of. rewrite Hm, Hneed. by replace (head + 4 - 4)%nat with head by lia. }
  rewrite Hk. assert (Hop : close_error (Z.land b0 15) (unmask (take (Z.to_nat n) (drop (head + 4) src)) (take 4 (drop head src)) 0) = None)
    by (destruct Hb0 as [-> | ->]; reflexivity).
  rewrite Hop. by destruct Hb0 as [-> | ->].
Qed.

Definition batched (size : nat) (src : list Z) (c : conn) : conn :=
  if (size <? length src)%nat then upd_env beginWriteBatch c else c.

Lemma batched_assembler size src c : c_assembler (batched size src c) = c_assembler c.
Proof. unfold batched. by destruct (_ <? _)%nat. Qed.

(** The three ways to unmask leave the same payload, and a payload found to be
    ASCII passes the UTF-8 check. *)
Lemma unmask_paths (n : nat) (binary : bool) payload key :
  length key = 4%nat -> Forall is_byte key -> Forall is_byte payload ->
  let '(ascii, out) :=
    if (n <? vectorUnmaskThreshold)%nat then unmaskShort payload (le_val key)
    else if binary then (false, Unmask payload key) else UnmaskASCII payload key in
  out = unmask payload key 0 /\ (ascii = true -> ValidUTF8 out = true).
Proof.
  intros Hl Hk Hp. rewrite unmask_spec by done.
  assert (Hv : forall out, out = mask_bytes key 0 payload -> Forall (fun b => b < 128) out -> ValidUTF8 out = true).
  { intros out -> Ha. rewrite ValidUTF8_law by by apply mask_bytes_byte. apply valid_ascii.
    pose proof (mask_bytes_byte key 0 payload Hl Hk Hp) as Hb. rewrite Forall_forall in Ha, Hb |- *.
    intros b Hin. specialize (Ha b Hin). specialize (Hb b Hin). unfold is_uint in Hb. cbv beta in Ha. lia. }
  destruct (n <? vectorUnmaskThreshold)%nat.
  - pose proof (unmaskShort_spec payload key Hl Hk Hp) as Hs. destruct (unmaskShort _ _) as [a out].
    destruct Hs as [-> Ha]. naive_solver.
  - destruct binary; [unfold Unmask; by rewrite unmask_spec|].
    pose proof (unmask_ascii_exact payload key Hl Hk Hp) as Hs. destruct (UnmaskASCII _ _) as [a out].
    destruct Hs as [-> Ha]. unfold Unmask in *. rewrite unmask_spec in * by done. naive_solver.
Qed.

Lemma short_is_generic src c size e c' :
  Forall is_byte src ->
  consumeShortFrame config src (shortReadLimit config) c = Some (size, e, c') ->
  exists f, ParseFrame src (Some (parser config)) = PFrame f size /\
    acceptFrame config f (batched size src c) = (e, c').
Proof.
  intros Hb E. unfold consumeShortFrame in E. destruct (c_assembler c) eqn:Ea; [done|].
  destruct (Nat.ltb_spec (length src) 6) as [|H6]; [done|]. cbv zeta in E.
  assert (Hbyte : forall i, (i < 6)%nat -> is_byte (nth i src 0)).
  { intros i Hi. rewrite Forall_nth in Hb. apply Hb. lia. }
  destruct (byte_facts (nth 0 src 0) (Hbyte 0%nat ltac:(lia))) as [F0 _].
  destruct (byte_facts (nth 1 src 0) (Hbyte 1%nat ltac:(lia))) as [_ F1].
  change (Z.lor 128 Text) with 129 in E.
  destruct (Z.ltb_spec 1 (wrap 8 (nth 0 src 0 - 129))) as [|Hw0]; [done|]. specialize (F0 Hw0). cbn [orb] in E.
  destruct (bit 128 (nth 1 src 0)) eqn:Hbit; [|done]. specialize (F1 eq_refl). cbn [negb] in E. rewrite F1 in E.
  set (b0 := nth 0 src 0) in *. set (b1 := nth 1 src 0) in *.
  match type of E with match ?s with _ => _ end = _ => destruct s as [[head n]|] eqn:Es end; [|done].
  assert (Hn7 : 0 <= Z.land b1 127) by (apply Z.land_nonneg; right; lia).
  assert (Hshape : client config = false /\ 0 <= n < 65536 /\
    (MaxFramePayload (parser config) = 0 \/ n <= MaxFramePayload (parser config)) /\
    (MaxMessage (assembler config) = 0 \/ n <= MaxMessage (assembler config)) /\
    (Z.land b1 127 = 126 /\ head = 4%nat /\ n = be_val (take 2 (drop 2 src)) /\ 126 <= n \/
     Z.land b1 127 = n /\ head = 2%nat /\ n <= 125)).
  { destruct (Z.eqb_spec (Z.land b1 127) 126) as [E126|E126].
    - destruct (Z.ltb_spec (shortReadLimit config) 0) as [|Hlim]; [done|]. cbn [orb] in Es.
      destruct (Nat.ltb_spec (length src) 8); [done|].
      destruct (shortReadLimit_spec config 0 Hcfg) as (Hcl & _); [lia|].
      assert (Hv : 0 <= be_val (take 2 (drop 2 src)) < 65536).
      { pose proof (be_val_uint (take 2 (drop 2 src))) as Hu. rewrite length_take, length_drop, Nat.min_l in Hu by lia.
        apply Hu. by apply Forall_take, Forall_drop. }
      set (v := be_val (take 2 (drop 2 src))) in *.
      destruct (Z.ltb_spec v 126); [done|]. cbn [orb] in Es.
      destruct (Z.eqb_spec (MaxFramePayload (parser config)) 0), (Z.ltb_spec (MaxFramePayload (parser config)) v);
        cbn [negb andb orb] in Es; try done;
      destruct (Z.eqb_spec (MaxMessage (assembler config)) 0), (Z.ltb_spec (MaxMessage (assembler config)) v);
        cbn [negb andb orb] in Es; try done; injection Es as <- <-; split_and!; first [done | by left | right; lia | lia | left; split_and!; done || lia].
    - destruct (Z.ltb_spec (shortReadLimit config) (Z.land b1 127)); [done|]. injection Es as <- <-.
      destruct (shortReadLimit_spec config (Z.land b1 127) Hcfg) as (Hcl & H125 & ? & ?); [lia|].
      split_and!; first [done | lia | right; split_and!; done || lia]. }
  destruct Hshape as (Hcl & Hn & Hmf & Hmm & Hshape).
  destruct (Nat.ltb_spec (length src) (head + 4 + Z.to_nat n)) as [|Hlen]; [done|].
  pose proof (parse_short src head n b0 b1 Hb eq_refl eq_refl F0 Hbit Hcl Hshape Hmf ltac:(lia) Hlen) as Hparse.
  assert (Hkey : length (take 4 (drop head src)) = 4%nat) by (rewrite length_take, length_drop; lia).
  pose proof (unmask_paths (Z.to_nat n) (b0 =? Z.lor 128 Binary) (take (Z.to_nat n) (drop (head + 4) src)) (take 4 (drop head src))
    Hkey ltac:(by apply Forall_take, Forall_drop) ltac:(by apply Forall_take, Forall_drop)) as Hu.
  match type of E with context [let '(_, _) := ?u in _] => destruct u as [ascii out] end.
  destruct Hu as [Hout Hascii]. rewrite <- Hout in Hparse.
  assert (Hlout : length out = Z.to_nat n).
  { rewrite Hout, unmask_spec by (try done; by apply Forall_take, Forall_drop).
    rewrite length_mask_bytes, length_take, length_drop. lia. }
  clear Hout Hkey Hshape. eexists. fold (batched (head + 4 + Z.to_nat n) src c) in E.
  assert (Hsz : size = (head + 4 + Z.to_nat n)%nat) 
    by (clear -E; repeat match type of E with (if ?b then _ else _) = _ => destruct b end; congruence).
  rewrite Hsz in *. split; [exact Hparse|]. clear Hparse. set (c1 := batched _ src c) in *.
  assert (Ea1 : c_assembler c1 = None) by (unfold c1; by rewrite batched_assembler).
  clearbody c1. unfold acceptFrame. destruct (closed (env c1)) eqn:Ecl; [congruence|].
  unfold acceptOpen. rewrite Ea1. cbn [Fin RSV1 Opcode Payload andb negb].
  assert (Hop : (Z.land b0 15 =? Binary) || (Z.land b0 15 =? Text) = true) by (destruct F0 as [-> | ->]; reflexivity).
  rewrite Hop, Hlout. rewrite Z2Nat.id by lia.
  assert (Hmax : negb (MaxMessage (assembler config) =? 0) && (MaxMessage (assembler config) <? n) = false).
  { destruct (Z.eqb_spec (MaxMessage (assembler config)) 0); [done|]. cbn [negb andb]. apply Z.ltb_ge. naive_solver lia. }
  rewrite Hmax. unfold notifyMessage. rewrite Ecl.
  destruct (Z.land b0 15 =? Text), ascii, (ValidateUTF8 (assembler config)); cbn [negb andb] in *;
    try rewrite (Hascii eq_refl) in *; cbn [negb] in *; destruct (ValidUTF8 out); cbn [negb] in *;
    destruct (closing (env c1)); cbn [fst snd]; try congruence;
    (injection E as <- <-; destruct c1 as [p1 a1 r1 t1]; cbn in Ea1; subst a1; done).
Qed.

Lemma framesLoop_short fuel : forall rest consumed c,
  Forall is_byte rest -> framesLoop config true fuel rest consumed c = framesLoop config false fuel rest consumed c.
Proof.
  induction fuel as [|fuel IH]; intros rest consumed c Hb; [done|].
  destruct rest as [|x q]; [done|]. remember (x :: q) as rest eqn:Er.
  assert (Hd : forall k, Forall is_byte (drop k rest)) by (intros; by apply Forall_drop).
  assert (Eq : forall short, framesLoop config short (S fuel) rest consumed c =
    match (if short then consumeShortFrame config rest (shortReadLimit config) c else None) with
      | Some (size, Some e, c) => Ret ((consumed + size)%nat, Some e, c)
      | Some (size, None, c) =>
          match countFrame config c with
          | (Some e, c) => Ret ((consumed + size)%nat, Some e, c)
          | (None, c) => framesLoop config short fuel (drop size rest) (consumed + size) c
          end
      | None =>
          match ParseFrame rest (Some (parser config)) with
          | PError e => Ret (consumed, Some e, c)
          | PIncomplete => '(n, err, c) ← startParser config rest c; Ret ((consumed + n)%nat, err, c)
          | PFrame f size =>
              match AcceptFrame config f (batched size rest c) with
              | (Some e, c) => Ret ((consumed + size)%nat, Some e, c)
              | (None, c) => framesLoop config short fuel (drop size rest) (consumed + size) c
              end
          end
      end) by by rewrite Er.
  rewrite !Eq. clear Eq Er. destruct (consumeShortFrame config rest (shortReadLimit config) c) as [[[size e] c']|] eqn:Es.
  - destruct (short_is_generic rest c size e c' Hb Es) as (f & -> & Hacc). unfold AcceptFrame. rewrite Hacc.
    destruct e as [e|]; [done|]. destruct (countFrame config c') as [[e|] c2]; [done|]. by apply IH.
  - destruct (ParseFrame rest _) as [| |f size]; [done..|].
    destruct (AcceptFrame config f (batched size rest c)) as [[e|] c2]; [done|]. by apply IH.
Qed.

(** The read round is what it would be without the fused path. *)
Lemma consumeFrames_generic data c :
  Forall is_byte data -> consumeFrames config data c = consumeWith config false data c.
Proof.
  intros Hb. unfold consumeFrames, consumeWith. destruct (readPaused (env c)); [done|].
  destruct (c_parser c) as [p|]; [|by apply framesLoop_short].
  destruct (FinishFrame _ data p _) as [[[[n err] p'] c']|]; [|done]. cbn [mbind outcome_bind].
  destruct err; [done|]. destruct (AtFrameBoundary p'); [|done]. apply framesLoop_short. by apply Forall_drop.
Qed.
End equivalence.
