(* ===== verification/WsRounds.v ===== *)
(** * Read rounds deliver the stream

    However the input arrives and is cut into rounds, whatever pauses, budgets
    and incremental parsers come between, the frames a connection accepts are
    the frames of the byte stream, each once and in order. *)

From S2P Require Import Prelude.
From S2P Require Import Endian Utf8 WsMask WsFrame WsAssembler WsRead.
Local Open Scope Z_scope.

(** ** The frames at the front of a stream *)

Inductive splits `{Vector} (cfg : option ParserConfig) : list Z -> list Frame -> list Z -> Prop :=
| splits_nil q : splits cfg q [] q
| splits_frame q f n fs rest :
    ParseFrame q cfg = PFrame f n -> splits cfg (drop n q) fs rest -> splits cfg q (f :: fs) rest.

Section splits.
Context `{Vector} (cfg : option ParserConfig).

Lemma splits_trans q fs r gs r' : splits cfg q fs r -> splits cfg r gs r' -> splits cfg q (fs ++ gs) r'.
Proof. induction 1; intros Hr; [done|]. cbn. eapply splits_frame; eauto. Qed.

Lemma splits_one q f n : ParseFrame q cfg = PFrame f n -> splits cfg q [f] (drop n q).
Proof. intros E. eapply splits_frame; [done|]. constructor. Qed.

Lemma splits_bytes q fs r : splits cfg q fs r -> Forall is_byte q -> Forall is_byte r.
Proof. induction 1; [done|]. intros Hb. apply IHsplits. by apply Forall_drop. Qed.

(** Bytes behind the frames change nothing. *)
Lemma splits_app q fs r more : splits cfg q fs r -> Forall is_byte q -> splits cfg (q ++ more) fs (r ++ more).
Proof.
  induction 1 as [q|q f n fs r Hp _ IH]; intros Hb; [constructor|].
  pose proof (ParseFrame_app q more cfg Hb) as Ha. rewrite Hp in Ha.
  apply (splits_frame _ _ f n); [done|]. pose proof (ParseFrame_size _ _ _ _ Hp).
  rewrite drop_app_le by lia. apply IH. by apply Forall_drop.
Qed.
End splits.

(** ** A parser that finishes its frame *)

Section finish.
Context `{Vector} {S : Type} (A : Frame -> S -> option ws_error * S).
Hypothesis (HA : forall f s, A f s = A (unborrow f) s).

Lemma feedTo_finish_step fuel src consumed p s :
  src <> [] ->
  feedTo A (Datatypes.S fuel) src true consumed p s =
    if (headerLen p =? 0)%nat then Ret (consumed, None, p, s)
    else match feed_round A src p s with
         | Return n err p s => Ret ((consumed + n)%nat, err, p, s)
         | Continue n p s => feedTo A fuel (drop n src) true (consumed + n)%nat p s
         end.
Proof. by destruct src. Qed.

(** What FinishFrame leaves: the frame is still incomplete, or it was handed
    over and the input behind it left alone, or it is malformed. *)
Definition finished (cfg : option ParserConfig) (held src : list Z) (s : S) (n : nat) (err : option ws_error)
    (p' : Parser) (s' : S) : Prop :=
  (err = None /\ n = length src /\ s' = s /\ reps cfg p' (held ++ src)) \/
  (exists f, ParseFrame (held ++ src) cfg = PFrame f (length held + n) /\ A f s = (err, s') /\ reps cfg p' []) \/
  (exists e e0, err = Some e /\ ParseFrame (held ++ src) cfg = PError e0 /\ err_kind e = err_kind e0 /\ s' = s).

Lemma feedTo_finish cfg fuel : forall src consumed p held s,
  reps cfg p held -> held <> [] -> Forall is_byte (held ++ src) -> (length src <= fuel)%nat ->
  exists n err p' s', feedTo A fuel src true consumed p s = Ret ((consumed + n)%nat, err, p', s') /\
    (n <= length src)%nat /\ finished cfg held src s n err p' s'.
Proof.
  induction fuel as [|fuel IH]; intros src consumed p held s Hr Hne Hb Hf.
  all: destruct (decide (src = [])) as [->|Hsrc].
  all: try (exists 0%nat, None, p, s; rewrite Nat.add_0_r; split; [by destruct fuel || done|]; split; [lia|]; left;
            by rewrite app_nil_r).
  { destruct src; [done|cbn in Hf; lia]. }
  rewrite feedTo_finish_step by done.
  destruct (reps_held cfg p held Hr) as [_ Hh]. destruct (Nat.eqb_spec (headerLen p) 0) as [E|_]; [by apply Hh in E|].
  pose proof (feed_round_ok A HA cfg p held src s Hr Hsrc Hb) as HR.
  destruct (feed_round A src p s) as [n p1 s1|n err p1 s1].
  - destruct HR as [Hn [[-> Hr1]|(f & Ep & Ea & Hr1)]].
    + destruct (IH (drop n src) (consumed + n)%nat p1 (held ++ take n src) s) as (m & err & p' & s' & E & Hm & Hfin).
      * done.
      * intros [? _]%app_eq_nil. done.
      * by rewrite <- (assoc_L (++)), take_drop.
      * rewrite length_drop. lia.
      * rewrite length_drop in Hm. exists (n + m)%nat, err, p', s'. rewrite E, (assoc_L Nat.add).
        split; [done|]. split; [lia|]. unfold finished in *. rewrite <- !(assoc_L (++)), !take_drop in Hfin.
        rewrite length_drop, length_app, length_take, Nat.min_l in Hfin by lia.
        destruct Hfin as [(-> & -> & -> & ?)|[(f & ? & ? & ?)|?]]; [left; split_and!; try done; lia| |auto].
        right. left. exists f. by replace (length held + (n + m))%nat with (length held + n + m)%nat by lia.
    + exists n, None, p1, s1. split; [|split; [lia|right; left; eauto]].
      destruct (decide (drop n src = [])) as [Ed|Ed]; [rewrite Ed; by destruct fuel|].
      destruct fuel as [|fuel]; [apply (f_equal length) in Ed || idtac; exfalso; apply Ed; apply nil_length_inv; rewrite length_drop; lia|].
      rewrite feedTo_finish_step by done. destruct (reps_held cfg p1 [] Hr1) as [_ Hh1].
      by rewrite (proj2 Hh1 eq_refl).
  - destruct HR as (e & -> & Hn & [(e0 & Ep & Hk & ->)|(f & Ep & Ea & Hr1)]).
    + exists n, (Some e), p1, s. split; [done|]. split; [done|]. right. right. eauto 10.
    + exists n, (Some e), p1, s1. split; [done|]. split; [done|]. right. left. eauto.
Qed.

Lemma FinishFrame_spec cfg src p held s :
  reps cfg p held -> held <> [] -> Forall is_byte (held ++ src) ->
  exists n err p' s', FinishFrame A src p s = Ret (n, err, p', s') /\ (n <= length src)%nat /\
    finished cfg held src s n err p' s'.
Proof. intros Hr Hne Hb. exact (feedTo_finish cfg (length src) src 0 p held s Hr Hne Hb (Nat.le_refl _)). Qed.

(** A fresh parser given the beginning of a frame keeps it. *)
Lemma FeedTo_incomplete cfg src s :
  ParseFrame src (Some cfg) = PIncomplete -> Forall is_byte src ->
  exists p', FeedTo A src (NewParser cfg) s = Ret (length src, None, p', s) /\ reps (Some cfg) p' src.
Proof.
  intros Hp Hb. assert (Hr : reps (Some cfg) (NewParser cfg) []).
  { change (NewParser cfg) with (st_start (Some cfg) (replicate 14 0) 0). apply reps_reset; [done|].
    apply Forall_replicate. split; lia. }
  destruct (feedTo_spec A HA (Some cfg) (length src) src 0 (NewParser cfg) [] s Hr Hb (Nat.le_refl _))
    as (n & err & p' & s' & err0 & rest & E & Hps & Hk & Hn). cbn [app] in Hps.
  specialize (Hps (Datatypes.S (length src)) (Nat.lt_succ_diag_r _)). cbn [parse_stream] in Hps. rewrite Hp in Hps.
  injection Hps as <- <- <-. destruct err; [done|]. destruct (Hn eq_refl) as [-> Hr']. eauto.
Qed.
End finish.

(** ** One round *)

Section rounds.
Context `{Vector} {T : Type} `{ConnEnv T}.
Context (config : readConfig) (Hcfg : config_ok config).
Let cfg : option ParserConfig := Some (parser config).
Local Notation C := (@conn T).
Let sink : Frame -> C -> option ws_error * C := AcceptFrame config.

(** What happens to a connection: it accepts a frame, turns write batching on,
    starts a round, or something outside the read path changes its state. *)
Inductive action : Type :=
| Deliver (f : Frame)
| Batch
| Start
| Outside (g : T -> T).

Definition start_round (c : C) : C := MkConn (c_parser c) (c_assembler c) 0 (env c).

Definition act (a : action) (c : C) : C :=
  match a with
  | Deliver f => (sink f c).2
  | Batch => upd_env beginWriteBatch c
  | Start => start_round c
  | Outside g => upd_env g c
  end.
Definition acts (tr : list action) (c : C) : C := fold_left (fun c a => act a c) tr c.

Definition frames (tr : list action) : list Frame := omap (fun a => match a with Deliver f => Some f | _ => None end) tr.
Definition outsides (tr : list action) : list (T -> T) := omap (fun a => match a with Outside g => Some g | _ => None end) tr.

(** A connection apart from its incremental parser, which no action touches. *)
Definition bare (c : C) : C := with_parser None c.

Lemma sink_borrowed f c : sink f c = sink (unborrow f) c.
Proof.
  unfold sink, AcceptFrame, acceptFrame, acceptOpen, AcceptSingle, Accept, accept_control.
  destruct f as [fin rsv op masked borrowed payload]. reflexivity.
Qed.

Lemma sink_bare f c : exists e c', sink f c = (e, c') /\ sink f (bare c) = (e, bare c') /\ c_parser c' = c_parser c.
Proof.
  unfold sink, AcceptFrame, acceptFrame, bare, with_parser. cbn [env].
  destruct (closed (env c)); [by eexists _, _|].
  assert (Ho : exists e c', acceptOpen config f c = (e, c') /\
    acceptOpen config f (MkConn None (c_assembler c) (readFrames c) (env c)) =
      (e, MkConn None (c_assembler c') (readFrames c') (env c')) /\ c_parser c' = c_parser c).
  { unfold acceptOpen. cbn [c_assembler c_parser readFrames env]. destruct c as [p a r t]. cbn [c_assembler c_parser readFrames env].
    destruct a as [a|].
    - destruct (Accept _ _ f a t) as [[e a'] t']. by eexists _, _.
    - destruct (Fin f && _ && _).
      + destruct (_ && _); [by eexists _, _|]. destruct (_ && _ && _); [by eexists _, _|]. by eexists _, _.
      + destruct (_ || _); [by eexists _, _|]. destruct (Accept _ _ f _ t) as [[e a'] t']. by eexists _, _. }
  destruct Ho as (e & c' & -> & -> & Hp). destruct e as [e|]; [by eexists _, _|].
  unfold countFrame. cbn [c_assembler c_parser readFrames env].
  destruct (readPaused _); [by eexists _, _|]. destruct (_ <=? _); by eexists _, _.
Qed.

Lemma act_bare a c : bare (act a c) = act a (bare c).
Proof.
  destruct a as [f| | |g]; [|done..]. cbn [act]. destruct (sink_bare f c) as (e & c' & -> & -> & _). done.
Qed.

Lemma acts_app tr tr' c : acts (tr ++ tr') c = acts tr' (acts tr c).
Proof. apply fold_left_app. Qed.

Lemma acts_bare tr c : bare (acts tr c) = acts tr (bare c).
Proof. revert c. induction tr as [|a tr IH]; intros c; [done|]. cbn. by rewrite IH, act_bare. Qed.

(** What the connection's parser holds: nothing, or the beginning of a frame. *)
Definition holds (c : C) (held : list Z) : Prop :=
  match c_parser c with
  | None => held = []
  | Some p => held <> [] /\ reps cfg p held
  end.

Lemma holds_incomplete c held : holds c held -> ParseFrame held cfg = PIncomplete.
Proof. unfold holds. destruct (c_parser c); [intros []; by eapply reps_incomplete|by intros ->]. Qed.

(** The errors after which reading goes on later. *)
Definition soft (err : option ws_error) : Prop :=
  err = None \/ err = Some errReadPaused \/ err = Some errReadBudget.

(** A call consumed [n] bytes: either it accepted the frames up to there, each
    once, and can go on; or it failed at the frame that comes next. *)
Definition consumed_ok (held data : list Z) (c : C) (n : nat) (err : option ws_error) (c' : C) : Prop :=
  exists tr rest, splits cfg (held ++ data) (frames tr) rest /\ outsides tr = [] /\
    ((soft err /\ exists held', holds c' held' /\ rest = held' ++ drop n data /\ bare c' = acts tr (bare c)) \/
     (exists e, err = Some e /\ ~ soft err /\
       ((exists e0, ParseFrame rest cfg = PError e0 /\ err_kind e = err_kind e0 /\ bare c' = acts tr (bare c)) \/
        (exists f size, ParseFrame rest cfg = PFrame f size /\ sink f (acts tr (bare c)) = (Some e, bare c'))))).

Lemma frames_app tr tr' : frames (tr ++ tr') = frames tr ++ frames tr'.
Proof. apply omap_app. Qed.
Lemma outsides_app tr tr' : outsides (tr ++ tr') = outsides tr ++ outsides tr'.
Proof. apply omap_app. Qed.

#[local] Instance soft_dec err : Decision (soft err).
Proof. unfold soft. apply _. Defined.

Lemma parse_error_hard q e e0 : ParseFrame q cfg = PError e0 -> err_kind e = err_kind e0 -> ~ soft (Some e).
Proof.
  intros Hp Hk. assert (Hn : forall code, e0 <> ErrSink code).
  { intros code ->. rewrite ParseFrame_eq in Hp. destruct (_ <? _)%nat; [done|].
    unfold prefix_error, length_error, close_error, ValidateClosePayload in Hp. cbv zeta in Hp.
    repeat match type of Hp with
    | context [if ?b then _ else _] => destruct b; try done
    end. }
  intros [?|[?|?]]; simplify_eq; cbn in Hk; by (destruct e0; cbn in Hk; try done; eapply Hn).
Qed.

Lemma framesLoop_eq fuel rest consumed c :
  rest <> [] ->
  framesLoop config false (S fuel) rest consumed c =
  match ParseFrame rest cfg with
  | PError e => Ret (consumed, Some e, c)
  | PIncomplete => '(n, err, c) ← startParser config rest c; Ret ((consumed + n)%nat, err, c)
  | PFrame f size =>
      match sink f (batched size rest c) with
      | (Some e, c) => Ret ((consumed + size)%nat, Some e, c)
      | (None, c) => framesLoop config false fuel (drop size rest) (consumed + size) c
      end
  end.
Proof. by destruct rest. Qed.

(** Writing [batched] as an action. *)
Definition batch_acts (size : nat) (rest : list Z) : list action := if (size <? length rest)%nat then [Batch] else [].

Lemma batch_acts_spec size rest c :
  acts (batch_acts size rest) c = batched size rest c /\ frames (batch_acts size rest) = [] /\
  outsides (batch_acts size rest) = [] /\ c_parser (batched size rest c) = c_parser c.
Proof. unfold batch_acts, batched. by destruct (_ <? _)%nat. Qed.

Lemma framesLoop_ok fuel : forall rest consumed c,
  Forall is_byte rest -> (length rest <= fuel)%nat -> c_parser c = None ->
  exists n err c', framesLoop config false fuel rest consumed c = Ret ((consumed + n)%nat, err, c') /\
    (n <= length rest)%nat /\ consumed_ok [] rest c n err c'.
Proof.
  induction fuel as [|fuel IH]; intros rest consumed c Hb Hf Hc.
  all: destruct (decide (rest = [])) as [->|Hne].
  all: try (exists 0%nat, None, c; rewrite Nat.add_0_r; split; [by destruct fuel || done|]; split; [lia|];
    exists [], []; split; [constructor|]; split; [done|]; left; split; [by left|]; exists []; split; [by unfold holds; rewrite Hc|done]).
  { destruct rest; [done|cbn in Hf; lia]. }
  rewrite framesLoop_eq by done. destruct (ParseFrame rest cfg) as [|e|f size] eqn:Ep.
  - destruct (FeedTo_incomplete sink sink_borrowed (parser config) rest (upd_env beginWriteBatch c) Ep Hb) as (p' & Ef & Hr).
    unfold startParser. fold sink. rewrite Ef. cbn [mbind outcome_bind].
    destruct (reps_held _ _ _ Hr) as [_ Hh]. unfold AtFrameBoundary.
    destruct (Nat.eqb_spec (headerLen p') 0) as [E|_]; [by apply Hh in E|].
    eexists _, _, _. split; [done|]. split; [done|]. exists [Batch], rest. split; [constructor|]. split; [done|]. left.
    split; [by left|]. exists rest. split; [by split|]. rewrite drop_all, app_nil_r. by split.
  - exists 0%nat, (Some e), c. rewrite Nat.add_0_r. split; [done|]. split; [lia|]. exists [], rest.
    split; [constructor|]. split; [done|]. right. exists e. split; [done|]. split; [by eapply parse_error_hard|]. left. by exists e.
  - pose proof (ParseFrame_size _ _ _ _ Ep) as Hsz.
    destruct (batch_acts_spec size rest c) as (_ & Hfr & Hou & Hcp).
    destruct (batch_acts_spec size rest (bare c)) as (Hba & _).
    destruct (sink_bare f (batched size rest c)) as (err & c2 & Es & Esb & Hp2).
    assert (Hbb : acts (batch_acts size rest) (bare c) = bare (batched size rest c)).
    { rewrite Hba. unfold batched. by destruct (_ <? _)%nat. }
    assert (Hc2 : c_parser c2 = None) by congruence.
    assert (Htr : acts (batch_acts size rest ++ [Deliver f]) (bare c) = bare c2).
    { rewrite acts_app, Hbb. cbn. by rewrite Esb. }
    assert (Hsp : splits cfg rest (frames (batch_acts size rest ++ [Deliver f])) (drop size rest)).
    { rewrite frames_app, Hfr. by apply splits_one. }
    assert (Hos : outsides (batch_acts size rest ++ [Deliver f]) = []) by (rewrite outsides_app, Hou; done).
    rewrite Es. destruct (decide (soft err)) as [Hs|Hs]; [destruct err as [e|]|].
    + exists size, (Some e), c2. split; [done|]. split; [lia|]. eexists _, _. split; [exact Hsp|]. split; [done|].
      left. split; [done|]. exists []. split; [by unfold holds; rewrite Hc2|]. by split.
    + destruct (IH (drop size rest) (consumed + size)%nat c2 ltac:(by apply Forall_drop) ltac:(rewrite length_drop; lia) Hc2)
        as (n & err & c' & E & Hn & tr & r & Hs' & Ho' & Hout).
      rewrite length_drop in Hn. exists (size + n)%nat, err, c'. rewrite E, (assoc_L Nat.add). split; [done|]. split; [lia|].
      exists ((batch_acts size rest ++ [Deliver f]) ++ tr), r. rewrite frames_app, outsides_app, Hos, Ho', acts_app, Htr.
      cbn [app] in *. split; [by eapply splits_trans|]. split; [done|]. rewrite drop_drop in Hout. exact Hout.
    + destruct err as [e|]; [|by destruct Hs; left]. exists size, (Some e), c2. split; [done|]. split; [lia|].
      exists (batch_acts size rest), rest. rewrite Hfr. split; [constructor|]. split; [done|]. right. exists e. split; [done|]. split; [done|].
      right. exists f, size. split; [done|]. by rewrite Hbb.
Qed.

(** consumeFrames, on whatever its parser holds and whatever is there. *)
Lemma consume_ok held data c :
  Forall is_byte (held ++ data) -> holds c held ->
  exists n err c', consumeFrames config data c = Ret (n, err, c') /\ (n <= length data)%nat /\
    consumed_ok held data c n err c'.
Proof.
  intros Hb Hh. apply Forall_app in Hb as Hb'. destruct Hb' as [_ Hbd].
  rewrite consumeFrames_generic by done. unfold consumeWith. destruct (readPaused (env c)).
  { exists 0%nat, (Some errReadPaused), c. split; [done|]. split; [lia|]. exists [], (held ++ data).
    split; [constructor|]. split; [done|]. left. split; [by right; left|]. exists held. by split. }
  unfold holds in Hh. destruct (c_parser c) as [p|] eqn:Ep.
  2: { subst held. exact (framesLoop_ok (length data) data 0 c Hbd (Nat.le_refl _) Ep). }
  destruct Hh as [Hne Hr].
  destruct (FinishFrame_spec sink sink_borrowed cfg data p held (upd_env beginWriteBatch c) Hr Hne Hb)
    as (n & err & p' & c2 & E & Hn & Hfin). fold sink. rewrite E. cbn [mbind outcome_bind].
  destruct Hfin as [(-> & -> & -> & Hr')|[(f & Epf & Es & Hr')|(e & e0 & -> & Epf & Hk & ->)]].
  - destruct (reps_held _ _ _ Hr') as [_ Hh']. unfold AtFrameBoundary.
    destruct (Nat.eqb_spec (headerLen p') 0) as [Eb|_]; [apply Hh' in Eb; by apply app_eq_nil in Eb as [? _]|].
    eexists _, _, _. split; [done|]. split; [done|]. exists [Batch], (held ++ data). split; [constructor|]. split; [done|].
    left. split; [by left|]. exists (held ++ data). rewrite drop_all, app_nil_r. split; [split; [|done]|by split].
    intros [? _]%app_eq_nil. done.
  - destruct (sink_bare f (upd_env beginWriteBatch c)) as (err' & c2' & Es1 & Es2 & _).
    rewrite Es in Es1. injection Es1 as <- <-.
    assert (Htr : acts [Batch; Deliver f] (bare c) = bare c2).
    { cbn [acts fold_left act]. change (upd_env beginWriteBatch (bare c)) with (bare (upd_env beginWriteBatch c)). by rewrite Es2. }
    assert (Hsp : splits cfg (held ++ data) (frames [Batch; Deliver f]) (drop n data)).
    { cbn. pose proof (splits_one cfg _ _ _ Epf) as Hone. rewrite drop_app_ge in Hone by lia.
      by replace (length held + n - length held)%nat with n in Hone by lia. }
    destruct err as [e|].
    + eexists n, (Some e), _. split; [done|]. split; [done|]. destruct (decide (soft (Some e))) as [Hs|Hs].
      * eexists [Batch; Deliver f], _. split; [exact Hsp|]. split; [done|]. left. split; [done|]. exists []. split; [done|].
        split; [done|]. by rewrite Htr.
      * exists [Batch], (held ++ data). split; [constructor|]. split; [done|]. right. exists e. split; [done|]. split; [done|]. right.
        exists f, (length held + n)%nat. split; [done|]. exact Es2.
    + destruct (reps_held _ _ _ Hr') as [_ Hh']. unfold AtFrameBoundary. rewrite (proj2 Hh' eq_refl). cbn [Nat.eqb].
      destruct (framesLoop_ok (length data) (drop n data) n (with_parser None c2) ltac:(by apply Forall_drop)
        ltac:(rewrite length_drop; lia) eq_refl) as (m & err & c' & E' & Hm & tr & r & Hs' & Ho' & Hout).
      rewrite length_drop in Hm. exists (n + m)%nat, err, c'. split; [exact E'|]. split; [lia|].
      exists ([Batch; Deliver f] ++ tr), r. rewrite frames_app, outsides_app, Ho', acts_app, Htr. cbn [app] in Hs'.
      split; [by eapply splits_trans|]. split; [done|]. rewrite drop_drop in Hout. exact Hout.
  - eexists n, (Some e), _. split; [done|]. split; [done|]. exists [Batch], (held ++ data). split; [constructor|]. split; [done|].
    right. exists e. split; [done|]. split; [by eapply parse_error_hard|]. left. by exists e0.
Qed.

(** ** Any number of rounds *)

(** Bytes arrive; a call reads at most [k] of them, at the start of a round or
    further on in one; anything else happens to the connection. *)
Inductive event : Type :=
| Arrive (bs : list Z)
| Consume (fresh : bool) (k : nat)
| External (g : T -> T).

Definition entering (fresh : bool) (c : C) : C := if fresh then start_round c else c.

Inductive run (c0 : C) : list event -> C -> list Z -> Prop :=
| run_start : run c0 [] c0 []
| run_arrive evs c inbound bs : run c0 evs c inbound -> run c0 (evs ++ [Arrive bs]) c (inbound ++ bs)
| run_consume evs c inbound fresh k n err c' :
    run c0 evs c inbound -> consumeFrames config (take k inbound) (entering fresh c) = Ret (n, err, c') -> soft err ->
    run c0 (evs ++ [Consume fresh k]) c' (drop n inbound)
| run_external evs c inbound g : run c0 evs c inbound -> run c0 (evs ++ [External g]) (upd_env g c) inbound.

Definition arrived (evs : list event) : list Z := flat_map (fun e => match e with Arrive bs => bs | _ => [] end) evs.
Definition externals (evs : list event) : list (T -> T) := omap (fun e => match e with External g => Some g | _ => None end) evs.

(** Everything that arrived is the frames accepted, what the parser holds and
    what is unread. *)
Definition in_step (c0 : C) (evs : list event) (c : C) (inbound : list Z) : Prop :=
  exists tr held, splits cfg (arrived evs) (frames tr) (held ++ inbound) /\ holds c held /\
    outsides tr = externals evs /\ bare c = acts tr (bare c0).

Lemma entering_acts fresh c : bare (entering fresh c) = acts (if fresh then [Start] else []) (bare c).
Proof. by destruct fresh. Qed.

Lemma arrived_snoc evs e : arrived (evs ++ [e]) = arrived evs ++ match e with Arrive bs => bs | _ => [] end.
Proof. unfold arrived. rewrite flat_map_app. cbn. by rewrite app_nil_r. Qed.

Lemma externals_snoc evs e : externals (evs ++ [e]) = externals evs ++ match e with External g => [g] | _ => [] end.
Proof. unfold externals. rewrite omap_app. by destruct e. Qed.

(** A call made in step, on a prefix of what is unread. *)
Lemma call_ok c0 evs c inbound fresh k :
  in_step c0 evs c inbound -> Forall is_byte (arrived evs) ->
  exists n err c', consumeFrames config (take k inbound) (entering fresh c) = Ret (n, err, c') /\
    exists tr rest, splits cfg (arrived evs) (frames tr) rest /\ outsides tr = externals evs /\
      ((soft err /\ exists held, holds c' held /\ rest = held ++ drop n inbound /\ bare c' = acts tr (bare c0)) \/
       (exists e, err = Some e /\ ~ soft err /\
         ((exists e0, ParseFrame rest cfg = PError e0 /\ err_kind e = err_kind e0) \/
          (exists f size, ParseFrame rest cfg = PFrame f size /\ sink f (acts tr (bare c0)) = (Some e, bare c'))))).
Proof.
  intros (tr & held & Hsp & Hh & Ho & Hbare) Hb.
  pose proof (splits_bytes _ _ _ _ Hsp Hb) as Hbr. rewrite <- (take_drop k inbound), (assoc_L (++)) in Hbr.
  apply Forall_app in Hbr as [Hbr _].
  destruct (consume_ok held (take k inbound) (entering fresh c) Hbr) as (n & err & c' & E & Hn & tr' & r & Hsp' & Ho' & Hout).
  { unfold holds. by destruct fresh. }
  exists n, err, c'. split; [done|]. set (st := if fresh then [Start] else []).
  exists (tr ++ st ++ tr'), (r ++ drop k inbound).
  assert (Hf : frames (tr ++ st ++ tr') = frames tr ++ frames tr') by (rewrite !frames_app; by destruct fresh).
  assert (Hacts : acts (tr ++ st ++ tr') (bare c0) = acts tr' (bare (entering fresh c)))
    by (by rewrite !acts_app, <- Hbare, entering_acts).
  pose proof (splits_bytes _ _ _ _ Hsp' Hbr) as Hbr'.
  split; [|split].
  - rewrite Hf. eapply splits_trans; [exact Hsp|]. apply (splits_app _ _ _ _ (drop k inbound)) in Hsp'; [|done].
    by rewrite <- (assoc_L (++)), take_drop in Hsp'.
  - rewrite !outsides_app, Ho, Ho', app_nil_r. unfold st. by destruct fresh; rewrite app_nil_r.
  - rewrite Hacts. destruct Hout as [(Hs & held' & Hh' & -> & Hb')|(e & -> & Hhard & Herr)]; [left|right].
    + split; [done|]. exists held'. split; [done|]. split; [|done]. rewrite <- (assoc_L (++)). f_equal.
      transitivity (drop n (take k inbound ++ drop k inbound)); [by rewrite drop_app_le by exact Hn|by rewrite take_drop].
    + exists e. split; [done|]. split; [done|]. destruct Herr as [(e0 & Hp & Hk & _)|(f & size & Hp & Hs)].
      * left. exists e0. split; [|done]. pose proof (ParseFrame_app r (drop k inbound) cfg Hbr') as Ha. by rewrite Hp in Ha.
      * right. exists f, size. split; [|done]. pose proof (ParseFrame_app r (drop k inbound) cfg Hbr') as Ha. by rewrite Hp in Ha.
Qed.

Lemma run_in_step c0 evs c inbound :
  c_parser c0 = None -> run c0 evs c inbound -> Forall is_byte (arrived evs) -> in_step c0 evs c inbound.
Proof.
  intros Hc0. induction 1 as [|evs c inbound bs _ IH|evs c inbound fresh k n err c' _ IH E Hs|evs c inbound g _ IH]; intros Hb.
  - exists [], []. split; [constructor|]. split; [by unfold holds; rewrite Hc0|done].
  - rewrite arrived_snoc in Hb. apply Forall_app in Hb as [Hb _].
    destruct (IH Hb) as (tr & held & Hsp & Hh & Ho & Hbare). exists tr, held.
    rewrite arrived_snoc, externals_snoc, app_nil_r. split; [|done]. rewrite (assoc_L (++)). by apply splits_app.
  - rewrite arrived_snoc, app_nil_r in Hb. specialize (IH Hb).
    destruct (call_ok c0 evs c inbound fresh k IH Hb) as (n' & err' & c2 & E' & tr & rest & Hsp & Ho & Hout).
    rewrite E in E'. injection E' as <- <- <-. unfold in_step. rewrite arrived_snoc, externals_snoc, !app_nil_r.
    destruct Hout as [(_ & held & Hh & -> & Hbare)|(e & -> & Hhard & _)]; [eauto 10|done].
  - rewrite arrived_snoc, app_nil_r in Hb. destruct (IH Hb) as (tr & held & Hsp & Hh & Ho & Hbare).
    exists (tr ++ [Outside g]), held. rewrite arrived_snoc, externals_snoc, app_nil_r, frames_app, outsides_app, Ho.
    rewrite app_nil_r. split; [done|]. split; [done|]. split; [done|]. rewrite acts_app, <- Hbare. done.
Qed.
End rounds.

(** C15.  Reading never loses, repeats, reorders or invents a frame.  From a fresh
    connection, after any sequence of arrivals, read calls of any size (the
    fused path, the generic one and the incremental parser as they come),
    pauses, exhausted budgets and outside events: what has arrived is exactly
    the frames accepted so far, each once and in order, then the beginning of a
    frame the incremental parser holds, then the bytes not read yet; and the
    connection's state is the one these frames and events lead to.  The next
    read call always returns.  It fails for good only where the stream's next
    frame is malformed, with that kind of error, or its acceptance fails. *)
Theorem reads_deliver_stream `{Vector} {T : Type} `{ConnEnv T} (config : readConfig) (c0 c : @conn T)
    (evs : list (@event T)) (inbound : list Z) :
  config_ok config -> c_parser c0 = None -> run config c0 evs c inbound -> Forall is_byte (arrived evs) ->
  (exists tr held,
     splits (Some (parser config)) (arrived evs) (frames tr) (held ++ inbound) /\ holds config c held /\
     ParseFrame held (Some (parser config)) = PIncomplete /\
     outsides tr = externals evs /\ bare c = acts config tr (bare c0)) /\
  forall fresh k, exists n err c',
    consumeFrames config (take k inbound) (entering fresh c) = Ret (n, err, c') /\
    (soft err \/
     exists tr rest e, err = Some e /\ splits (Some (parser config)) (arrived evs) (frames tr) rest /\
       outsides tr = externals evs /\
       ((exists e0, ParseFrame rest (Some (parser config)) = PError e0 /\ err_kind e = err_kind e0) \/
        (exists f size, ParseFrame rest (Some (parser config)) = PFrame f size /\
           AcceptFrame config f (acts config tr (bare c0)) = (Some e, bare c')))).
Proof.
  intros Hcfg Hc0 Hrun Hb. pose proof (run_in_step config Hcfg c0 evs c inbound Hc0 Hrun Hb) as Hin. split.
  - destruct Hin as (tr & held & Hsp & Hh & Ho & Hbare). exists tr, held. split_and!; try done.
    by eapply holds_incomplete.
  - intros fresh k.
    destruct (call_ok config Hcfg c0 evs c inbound fresh k Hin Hb) as (n & err & c' & E & tr & rest & Hsp & Ho & Hout).
    exists n, err, c'. split; [done|]. destruct Hout as [[Hs _]|(e & -> & _ & Herr)]; [by left|]. right.
    exists tr, rest, e. by split_and!.
Qed.

(** An application that keeps what it is given. *)
#[local] Instance logEnv : ConnEnv (list (list Z)) := {|
  closed _ := false; closing _ := false; readPaused _ := false; hasHeartbeat _ := false; hasDecoder _ := false;
  beginWriteBatch t := t; OnMessage _ payload t := t ++ [payload];
  sendPong _ t := (None, t); sendCloseFrame _ t := (None, t); closeTransport t := (None, t);
  setCloseReason _ _ t := t; acknowledgePing _ t := t; noteParsed t := t; Decode _ _ t := (inl ErrMessageTooBig, t);
|}.

Definition serverConfig : readConfig :=
  MkReadConfig false (MkParserConfig true false 0) (MkAssemblerConfig 0 0 true) 0.

(** Two masked text frames, cut inside the second. *)
Definition hiFrames : list Z := [129; 130; 1; 2; 3; 4; 105; 107; 129; 130].
Definition hiRest : list Z := [1; 2; 3; 4; 110; 109].

Definition conn0 : @conn (list (list Z)) := MkConn None None 0 [].
Definition after (data : list Z) (c : @conn (list (list Z))) : @conn (list (list Z)) :=
  match consumeFrames serverConfig data c with Ret (_, _, c) => c | Panic _ => c end.
Definition conn1 : @conn (list (list Z)) := after hiFrames conn0.
Definition conn2 : @conn (list (list Z)) := after (take 3 hiRest) (entering true conn1).
Definition conn3 : @conn (list (list Z)) := after (drop 3 hiRest) conn2.
Definition hiEvents : list (@event (list (list Z))) := [Arrive hiFrames; Consume true 100; Arrive hiRest; Consume true 3; Consume false 100].

Lemma hi_run : run serverConfig conn0 hiEvents conn3 [].
Proof.
  assert (H0 : run serverConfig conn0 [Arrive hiFrames] conn0 hiFrames) by exact (run_arrive _ _ [] _ [] hiFrames (run_start _ _)).
  assert (H1 : run serverConfig conn0 [Arrive hiFrames; Consume true 100] conn1 [])
    by exact (run_consume serverConfig conn0 _ _ hiFrames true 100 10 None conn1 H0
      ltac:(vm_compute; reflexivity) (or_introl eq_refl)).
  assert (H2 : run serverConfig conn0 [Arrive hiFrames; Consume true 100; Arrive hiRest] conn1 hiRest)
    by exact (run_arrive serverConfig conn0 _ _ _ hiRest H1).
  assert (H3 : run serverConfig conn0 [Arrive hiFrames; Consume true 100; Arrive hiRest; Consume true 3] conn2 (drop 3 hiRest))
    by exact (run_consume serverConfig conn0 _ _ hiRest true 3 3 None conn2 H2
      ltac:(vm_compute; reflexivity) (or_introl eq_refl)).
  exact (run_consume serverConfig conn0 _ _ (drop 3 hiRest) false 100 3 None conn3 H3
      ltac:(vm_compute; reflexivity) (or_introl eq_refl)).
Qed.

Lemma reads_deliver_stream_witness :
  env conn3 = [[104; 105]; [111; 111]] /\
  (exists tr held,
     splits (Some (parser serverConfig)) (arrived hiEvents) (frames tr) (held ++ []) /\ holds serverConfig conn3 held /\
     ParseFrame held (Some (parser serverConfig)) = PIncomplete /\
     outsides tr = externals hiEvents /\ bare conn3 = acts serverConfig tr (bare conn0)).
Proof.
  split; [vm_compute; reflexivity|].
  refine (proj1 (reads_deliver_stream serverConfig conn0 conn3 hiEvents [] _ _ hi_run _)).
  - split; [intros _; reflexivity|vm_compute; discriminate|vm_compute; discriminate].
  - reflexivity.
  - apply (bool_decide_unpack _). vm_compute. exact I.
Defined.
